(* ===== verification/_CoqProject ===== *)
-Q . S2P
Prelude.v
Text.v
Numbers.v
BTree.v
Vocab.v
Splitting.v
CsmRole.v
CsmGlobal.v
CsmWellformed.v
CsmLocal.v
CsmProject.v
CsmMerge.v
CsmOccurs.v
CsmMachine.v
CsmRegistry.v
CsmConformance.v
CsmSemantics.v
CsmCompile.v
CsmTermination.v
CsmSoundness.v
CsmPushdown.v
CsmDriver.v
CsmReports.v
CsmMedia.v
CsmInference.v
TrackerVocab.v
TrackerTransition.v
TrackerIngest.v
TrackerRollup.v
TrackerValidate.v
TapeWorkingSet.v
TapePolicy.v
TapeEngine.v
TapeInvariants.v
TapeProperties.v
TapeRealPlane.v
BitSet.v
FcaContext.v
FcaConcepts.v
FcaCovers.v
TaintDataflow.v
TaintInterproc.v
GraphCycles.v
GraphInstance.v
LockOrder.v
LockCycles.v
ChannelDeadlock.v
HealthWatchdog.v
DiskAlert.v
Outbox.v
OutboxQueue.v
StoreForward.v
DataTable.v
WorkPool.v
HashOrder.v
GraphUndirected.v
GraphCore.v
GraphTruss.v
GraphMotif.v
GraphCut.v
GraphLowlink.v
GraphCutExact.v
GraphBfs.v
GraphDsm.v
GraphConnectivity.v
GraphWl.v
CharText.v
Chunker.v
DocumentChunker.v
LatexExpand.v
Rlm.v
RlmRun.v
RlmTree.v
VulnMatch.v
VulnSpec.v
TraceReconcile.v
TraceFormats.v
Reflexion.v
