(* ===== verification/Prelude.v ===== *)
(** * pgmcp: protocols, work items, the context tape, code analyses, graphs,
    chunking, recursive queries, advisories, health, data tables and the work
    pool

    pgmcp is a server that indexes source code and coordinates agents.  This
    library models the parts whose decisions other parts trust, and proves what
    they promise.

    ** The program's parts and how they interact

    1. Communicating state machines ([src/src/csm/]).  A collaboration
       protocol is a global multiparty session type ([mpst/global.rs]).  It is
       checked ([mpst/wellformed.rs]), projected onto each role with the
       external-choice merge ([mpst/project.rs]), and each projection is
       compiled to a state machine whose call and return edges drive a bounded
       stack ([machine.rs]).  A recorded run is replayed against the network of
       machines ([conformance.rs], one step at a time with [transition.rs]);
       the driver ([driver.rs]) reads an orchestrator's schedule off its
       machine, and reports the verdict on a pattern's transcript.  The
       registry ([registry.rs], [examples.rs]) holds the protocols;
       [media.rs] keeps latent messages away from black-box agents;
       [inference.rs] learns an automaton from traces.
    2. The work-item tracker ([src/src/tracker/]).  Work items move through a
       status matrix with actor and evidence gates ([transition.rs]), commits
       move them by a policy ([auto_transition.rs]), completion is rolled up
       over the leaves ([rollup.rs]), plans are validated against rules
       ([validate.rs]), markdown plans and commit messages are read
       ([ingest.rs], [commit_ref.rs]), and the stored vocabularies ([kind.rs],
       [status.rs], [severity.rs], [views.rs], [git_link.rs]) generate the
       database's CHECK lists.
    3. The context tape ([src/src/tape/]).  A model's context window is a token
       budget; the engine ([engine.rs]) pages content into a working set
       ([working_set.rs], [vocab.rs]), evicts by a policy under pressure, writes
       dirty pages back and pages in summaries of what it evicts, through the
       seam of [data_plane.rs], which [real_data_plane.rs] implements over the
       corpus and the database.
    4. Formal concept analysis ([src/src/category/fca.rs]).  Which symbols share
       which attributes is a bit matrix; its concepts are enumerated with
       NextClosure, ordered by covers, and read off as implications.
    5. Static analyses of indexed code.  Taint: dataflow facts of functions
       ([src/src/parsing/dataflow.rs]) are searched within a function
       ([src/src/code_analysis/taint_dataflow.rs]) and across the functions of a
       file ([taint_interproc.rs]).  Deadlocks: lock events give an order
       relation whose simple cycles are reported ([src/src/graph/lock_order.rs],
       with the cycle search of [algorithms.rs]), channel events a matching and
       a wait-for graph ([petri.rs]).  Traces of blocked threads are read in
       three formats and reconciled with the order relation
       ([src/src/concurrency/trace_reconcile.rs]).
    6. Health ([src/src/health/]).  Watchdogs turn readings of disk and memory
       into pressure flags that pause work ([watchdog.rs], [disk_pressure.rs],
       [memory_pressure.rs], [fs.rs]) and into alerts ([disk_report.rs]).  A
       prober ([prober.rs]) writes the database breaker ([db_health.rs]); while
       it is open two handlers ([src/src/api/handlers.rs]) spool requests to the
       outbox ([outbox.rs]), which is replayed on recovery.
    7. Data tables ([src/src/datatable/]).  Users define tables whose rows are
       JSON objects; names, operators and links come from closed vocabularies
       ([identifier.rs], [column_type.rs], [filter.rs], [link_target.rs]), and
       the insert and update tools ([src/src/mcp/tools/data_tables/dml.rs])
       check the rows of a strict table against its columns ([validate.rs]).
    8. The adaptive work pool ([src/src/work_pool/]).  Workers take tasks from
       two queues and can be parked ([pool.rs]); a monitor ([monitor.rs]) feeds
       throughput, queue depth and memory pressure to a hill climber
       ([adaptive.rs]) and parks or wakes workers as it says.
    9. The structure of dependency graphs ([src/src/graph/]): cores, trusses,
       triads, cut vertices and bridges ([algorithms_ext.rs]), visibility
       ([dsm.rs]), components and communities ([connectivity.rs]), structural
       clones ([wl_hash.rs]).
    10. Chunking ([src/src/indexer/]).  Files become windows of lines
       ([chunker.rs]), documents paragraphs and headed sections
       ([document_chunker.rs]); LaTeX is expanded first
       ([extract/latex/expand.rs]).
    11. Recursive queries ([src/src/a2a/rlm.rs]).  A question about more text
       than a model can read is split over the chunks of its environment; each
       chunk goes to a model, or, in a frame with a share of the budget, back
       to the daemon over its own interface ([client.rs], [dispatcher.rs]); the
       partial answers are stitched, in one request or through the tape's store.
       The tool ([tool_a2a_pattern_recursive.rs]) makes the root frame.
    12. Advisories ([src/src/code_analysis/vuln_match.rs]).  OSV documents are
       imported ([src/src/cli/import_advisories.rs]) and their version ranges
       matched against the dependencies a manifest pins
       ([src/src/mcp/tools/tool_cve_supply_chain.rs]).
    13. Layers ([src/src/code_analysis/reflexion.rs]).  Imports are compared with
       the layering a project declares
       ([src/src/mcp/tools/tool_architecture_violations.rs]).

    ** Files

    - [Prelude]: outcomes of fallible code (the error monad with its [let*]),
      folds that can fail, string helpers, the hint database.
    - [Text]: trimming, lines, words, padded decimals, UTF-8.
    - [Numbers]: saturating and wrapping integers, [f64] and [f32].
    - [BTree]: [BTreeMap] and [BTreeSet] as key-sorted lists, over a class for
      Rust's [Ord].
    - [Vocab]: the closed-vocabulary idiom (an enum with [ALL], [as_str],
      [parse] and an SQL list) as a class, its round trips proved once.
    - [CsmRole] ([role.rs]), [CsmGlobal] ([global.rs]), [CsmLocal]
      ([local.rs]), [CsmWellformed] ([wellformed.rs]), [CsmProject]
      ([project.rs]), [CsmMachine] ([machine.rs], [transition.rs]),
      [CsmRegistry] ([registry.rs], [examples.rs]), [CsmConformance]
      ([conformance.rs]), [CsmDriver] ([driver.rs]), [CsmMedia] ([media.rs]),
      [CsmInference] ([inference.rs]): data and operations, under the source's
      names, one Rocq function for each Rust function, loop bodies as
      functions of their own where a proof speaks about them.
    - [CsmMerge], [CsmOccurs]: what merge and projection guarantee.
    - [CsmSemantics]: the abstract specification, runs of global and local
      types as step relations, and the simulation between them.
    - [CsmCompile]: the compiler is correct, by a bisimulation between local
      types and machines; [CsmTermination]: it always ends, calls included.
    - [CsmSoundness]: networks and the checker against the specification.
    - [CsmPushdown]: stacks, their bound, the self-calling protocol, the fuel.
    - [CsmReports]: what the reports of the pattern tools can say.
    - [TrackerVocab], [TrackerTransition], [TrackerIngest], [TrackerRollup],
      [TrackerValidate]: the tracker.
    - [TapeWorkingSet] ([vocab.rs], [working_set.rs]), [TapePolicy] (the
      policies of [engine.rs]), [TapeEngine] (the engine, in a state and error
      monad over a record [Backend] of what the outside world does),
      [TapeInvariants] (the interface [BackendLaws] the engine relies on and its
      specification as weakest preconditions), [TapeProperties] (over any data
      plane that keeps the interface), [TapeRealPlane] ([real_data_plane.rs],
      which keeps it).
    - [BitSet], [FcaContext], [FcaConcepts], [FcaCovers]: concept analysis, from
      words of bits to implications.
    - [TaintDataflow], [TaintInterproc]: the taint engines.
    - [GraphCycles]: graphs, the interface [PetgraphLaws] to the graph library
      and the search for simple cycles; [GraphInstance]: a graph library that
      satisfies it; [LockOrder], [LockCycles], [ChannelDeadlock]: the clients.
    - [HealthWatchdog], [DiskAlert]: the two halves of a watchdog's turn.
    - [Outbox] (the operations over a map of files), [OutboxQueue] (the spool as
      a queue of records), [StoreForward] (the breaker, the prober and the
      handlers around it).
    - [DataTable]: vocabularies, JSON values, the validator and the row checks of
      the tools, with the interface [JsonbConcat] to the database's merge.
    - [WorkPool]: the climber, the pool and the monitor, their invariants, and
      the interleavings of two concurrent wakers.
    - [HashOrder]: what is known of the iteration of a hash container;
      [GraphUndirected], [GraphCore], [GraphTruss], [GraphMotif], [GraphDsm],
      [GraphBfs], [GraphConnectivity], [GraphWl]: the analyses of their names;
      [GraphCut] (the iterative search), [GraphLowlink] (the theory of depth
      first search trees) and [GraphCutExact] (its application).
    - [CharText] (text as characters), [Chunker], [DocumentChunker];
      [LatexExpand]: trees, definitions and the guarded expansion.
    - [Rlm] (data, prompts, grades), [RlmRun] (runs over the class [Services],
      a monad that logs calls, and the bounds on them), [RlmTree] (whole trees
      of runs, the fold of a stitch, a small world).
    - [Splitting]: cutting strings and trimming them, as the standard library
      does.
    - [VulnMatch]: versions, ranges, OSV documents, import and match;
      [VulnSpec]: what versions, their order and the events of a range mean,
      and the import and the match against that.
    - [TraceReconcile]: the parsers of traces and the reconciliation;
      [TraceFormats]: printed stacks and what is read from them.
    - [Reflexion]: layers, verdicts, the conformance report, the response of
      the tool.

    ** What the theorems show

    - Refinement: on a regular protocol (structurally well formed, free of
      calls, one medium per message name, contractive projections) the checker
      accepts exactly the traces that are, role by role, complete runs of the
      projections; every complete run of the global type is accepted and every
      unfinished one replays.  Every registry protocol but [recursive_cf] is
      regular for every parameter; [recursive_cf] has its own theorem, at every
      depth up to and past the stack bound.
    - Totality: well-formedness always returns; compiling always ends; building
      a regular protocol never panics; the checker never panics; every registry
      protocol builds; plan parsing and paging return.
    - Exactness: the structural and visibility passes, the media check, the
      inferred automaton, the transition check and plan validation each decide
      their declarative specification.
    - Safety of the tracker over whole histories: agents never judge, the
      gatekeeper alone verifies, the commit policy stays in the matrix, and a
      self-report never moves the verified fraction, to the last bit of the
      [f64].
    - The tape: paging keeps the pages within the budget and pinned pages in
      place on success and on every error, making room ends and reports
      truthfully, scratch writes keep the count exact, each policy picks the
      victim it promises.
    - A parsed plan is the outline of its lines; commit references are exactly
      the captured ones.
    - Round trips of the stored vocabularies; [then] is a monoid.
    - Concept analysis: the concepts listed are exactly the formal concepts, each
      once in lectic order; the covers are the Hasse diagram; every implication
      read off them is false.
    - Taint: every finding is a real flow with a real path, every flow is
      reported, within a function and across calls, and both searches end.
    - Deadlocks: the lock cycles reported are the simple cycles of the order
      relation, and a circle of functions that wait for each other's locks is
      reported; the channel findings are exactly the unmatched channels and the
      strongly connected sets of initially blocked processes.
    - Health: each watchdog is a latch on what it reads, the disk's on every
      filesystem it can read; the alert is
      edge-triggered; of racing callers one sees the edge; replay is a queue
      operation; requests that meet an outage are delivered, queued or counted.
    - Data tables: validation decides the typing of rows, and inserts and
      updates preserve it.
    - The work pool: every operation wakes and parks what it says, and the
      monitored pool and its climber stay within their bounds, each decision
      being exactly the change of the climber's count.
    - Graphs: core numbers, cut vertices and bridges, two-edge-connected
      components, clone classes, fan-ins and fan-outs and the triad census (but
      for two of its classes; cliques of four nodes and stars of three leaves
      included) are what their definitions say, in whatever order
      hash containers are iterated; trusses are sound.
    - Chunking: nothing but white space is lost, sizes and line numbers are
      bounded as stated, and every loop ends.
    - Macro expansion returns for every document and refines a declarative
      meaning of uses within its budget; its size is not bounded by it.
    - Recursive queries: the recursion ends whatever comes in, and its recursive
      calls stay within the budget; the stitch folds each partial once and
      writes its own pages only; the environment of a chunk is read back; with
      the default settings a run over a file does the same whatever the text of
      the file's chunks is, by a judgement that relates two runs.
    - Advisories: a dependency is reported for a document exactly when an entry
      of the document for its package has a range in which its version has
      reached an introduction that no later event closes, versions being read
      and ordered by a specification that shares nothing with the code; a fix
      named by a commit is no fix.
    - Traces: the three formats of the same stacks are read alike, and the
      reconciliation decides which waits are ordered, missed and which edges go
      without a witness.
    - Layers: each counter counts the imports of its kind, violations and
      absences are what the rules say, and the response lists the violations
      that its threshold and its 500 places leave.
    - Behaviours that differ from what the sources say: renamed calls, loops of
      calls, non-contractive projections, composition and visibility, the
      driver's schedules, two patterns' reports, the triage gate, parametric
      leaves, summaries that are never found, pages paged in again, candidates
      resolved twice, concept implications, unblocked producers, calls that share
      a line, empty hysteresis bands, warnings that fire once, unreadable replay
      segments, updates that null a required column, concurrent wakers,
      worsening samples that wake workers, edges of two triangles, cyclic triads,
      overlaps wider than a window, sections and tails without a bound, macros in
      their own arguments, frames of the last level, budgets that leave out
      the calls of leaves, ranges over commits, pre-releases compared as
      text, edges that an inversion hides, thread names that hold locks, rules
      from a layer to itself, and divergences that are counted as reported and
      filtered out.

    ** Modelling choices

    Strings are byte strings ([String.string]); [usize] indices are naturals
    and counts of leaves are 64-bit integers that the length of a list cannot
    overflow.  An [f64] is IEEE 754 binary64 ([spec_float], 53 bits).  A panic
    is the outcome [Panic].  [debug_assert] is off, as in a release build.
    Rust's [to_lowercase] on Unicode text is the parameter [lower], the
    [regex] crate is the parameters [Re], [regex_new] and [is_match];
    theorems hold for all of them.  So are the captures of the plan and commit
    expressions, the LFU wrapper ([find_lfu]) and the token estimate of the
    [context-tape] crate; where a theorem needs what they document, it is a
    hypothesis ([lfu_spec], [BackendLaws]) that a concrete instance satisfies.
    [BackendLaws] bounds what a data plane announces; the repository's own plane
    satisfies it when the table of summaries keeps its CHECK, since it then
    never names a summary, and when estimates fit 32 bits.

    A [HashMap] that is iterated is a list or a [gmap] whose order the theorems
    do not fix; one that is only looked up is a [gmap].  The petgraph crate is a
    record of functions with the laws its documentation states, [serde_json] a
    class with laws, and each has a concrete instance.  A [u64] is a [Z] that
    wraps, saturates or shifts as the operation says.  Files are a map from
    names to bytes; a read can fail, a write can stop anywhere.

    The order of a hash container is a function about which only that it
    permutes is assumed; only the initially blocked processes of [petri.rs]
    enter the wait-for graph in one order, that of a [gmap], which the source
    leaves open.  The pool's operations happen one at a time, except in the
    theorem on two concurrent wakers, and the replay a probe spawns is one step
    of it.  Text that is cut by characters is a list of code points with their UTF-8 lengths.  A macro expansion recurses on the room
    left for nesting outside and on the tree inside; a run of a recursive query
    on the levels of peers, of which five are enough for any frame.  The calls
    of a fan-out, which the program makes concurrently and sorts by index, are
    made in order.

    The concept loop takes the cap as its fuel, the breadth-first searches one
    unit per edge and one more, the search for cycles the size of its tree of
    paths; the theorems on these functions state that they return.  Elsewhere
    fuel occurs in four places.  The walk over callees in [well_formed_in] gets
    one unit per registered protocol, and the theorem on its totality shows
    that this is never used up.  The compiler gets one unit per pair of a callee
    and a role that the calls name, and a theorem shows that this is never used
    up.  Making room on the tape takes its fuel as an argument, and as many
    units as the unpinned pages have tokens and pages are enough.  The closure over boundary edges in
    [conformance.rs] is a [loop] that need not end; it takes its fuel as an
    argument, two units are enough for the registry's protocols, one for any
    regular protocol, and more fuel never changes a verdict.

    ** Not modelled

    JSON rendering and [serde], [Display] text other than the error messages,
    persistence ([store.rs], [session_store.rs], [trace_store.rs]), the TLA+ and
    diagram exports, the tape's storage, its SQL and its registry, the extractors that
    produce dataflow, lock and channel facts, the parser, renderer and symbol
    tables of LaTeX, the learned choice of a decomposition and the trajectories
    it learns from, the mailbox and votes of agents, centrality and community
    detection, the disk report's directory walks, the aggregates and the SQL of
    data tables, the work pool's threads and the race of its monitor with
    submissions, an outbox append that overlaps the rotation of a sweep, and the
    rest of pgmcp: indexing, parsing, embeddings, the database, the tools and
    the web interface, which are I/O, glue, or numerical code over third-party
    libraries.

    ** Left for later

    The aggregates of data tables, the experiment protocol, the mailbox of
    agents, the tape's prefetching and address resolution, and the diagram
    and TLA+ exports have logic of their own that this library
    does not cover yet. *)

From stdpp Require Import base strings list gmap pretty.

(** * Outcomes of fallible Rust code

    [Ok]/[Err] are the two constructors of [Result].  [Panic] is an
    [expect]/[unwrap] that fires.  [OutOfFuel] is not a behaviour of the
    program: it marks that the fuel given to a loop or to a recursion that is
    not structural was used up. *)
Inductive outcome (E A : Type) : Type :=
| Ok (a : A)
| Err (e : E)
| Panic
| OutOfFuel.

Arguments Ok {E A} a.
Arguments Err {E A} e.
Arguments Panic {E A}.
Arguments OutOfFuel {E A}.

Declare Scope outcome_scope.
Delimit Scope outcome_scope with outcome.
Open Scope outcome_scope.

(** Rust's [?]. *)
Definition obind {E A B} (m : outcome E A) (k : A → outcome E B) : outcome E B :=
  match m with
  | Ok a => k a
  | Err e => Err e
  | Panic => Panic
  | OutOfFuel => OutOfFuel
  end.

Notation "'let*' x := m 'in' k" := (obind m (fun x => k))
  (at level 10, x pattern, m at level 200, k at level 200,
   format "'[v' 'let*'  x  :=  m  'in' '/' k ']'") : outcome_scope.

(** [Result::map_err]. *)
Definition omap_err {E F A} (f : E → F) (m : outcome E A) : outcome F A :=
  match m with
  | Ok a => Ok a
  | Err e => Err (f e)
  | Panic => Panic
  | OutOfFuel => OutOfFuel
  end.

(** [Option::ok_or] and [Option::expect]. *)
Definition ok_or {E A} (o : option A) (e : E) : outcome E A :=
  match o with Some a => Ok a | None => Err e end.

Definition expect {E A} (o : option A) : outcome E A :=
  match o with Some a => Ok a | None => Panic end.

Definition is_ok {E A} (m : outcome E A) : Prop := ∃ a, m = Ok a.

(** The outcomes a Rust function can really have, panics excluded: it returned
    a [Result]. *)
Definition returns {E A} (m : outcome E A) : Prop :=
  (∃ a, m = Ok a) ∨ (∃ e, m = Err e).

#[global] Instance outcome_eq_dec {E A} `{EqDecision E, EqDecision A} :
  EqDecision (outcome E A).
Proof. solve_decision. Defined.

Lemma obind_Ok_inv {E A B} (m : outcome E A) (k : A → outcome E B) b :
  obind m k = Ok b → ∃ a, m = Ok a ∧ k a = Ok b.
Proof. destruct m; simpl; intros; simplify_eq; eauto. Qed.

Lemma obind_returns {E A B} (m : outcome E A) (k : A → outcome E B) :
  returns m → (∀ a, m = Ok a → returns (k a)) → returns (obind m k).
Proof. intros [[a ->]|[e ->]] Hk; simpl; [by apply Hk|]. right. eauto. Qed.

Lemma returns_Ok {E A} (a : A) : @returns E A (Ok a).
Proof. left. eauto. Qed.

Lemma returns_Err {E A} (e : E) : @returns E A (Err e).
Proof. right. eauto. Qed.

Create HintDb outcome.
#[export] Hint Resolve returns_Ok returns_Err obind_returns : outcome.

(** Split a hypothesis [(let* x := m in k) = Ok b] into its two halves, as
    often as possible. *)
Ltac inv_obind :=
  repeat match goal with
  | H : obind _ _ = Ok _ |- _ =>
      apply obind_Ok_inv in H;
      let a := fresh "a" in let Ha := fresh "Ha" in
      destruct H as (a & Ha & H)
  | H : Ok _ = Ok _ |- _ => injection H as H; subst
  | H : Err _ = Ok _ |- _ => discriminate H
  | H : Panic = Ok _ |- _ => discriminate H
  | H : OutOfFuel = Ok _ |- _ => discriminate H
  end.

(** [for x in xs { f(x)?; }] and the loops that thread a state. *)
Fixpoint oforM {E A} (f : A → outcome E unit) (xs : list A) : outcome E unit :=
  match xs with
  | [] => Ok tt
  | x :: xs => obind (f x) (fun _ => oforM f xs)
  end.

Fixpoint ofold {E A S} (f : S → A → outcome E S) (s : S) (xs : list A) : outcome E S :=
  match xs with
  | [] => Ok s
  | x :: xs => obind (f s x) (fun s => ofold f s xs)
  end.

Fixpoint omapM {E A B} (f : A → outcome E B) (xs : list A) : outcome E (list B) :=
  match xs with
  | [] => Ok []
  | x :: xs => obind (f x) (fun y => obind (omapM f xs) (fun ys => Ok (y :: ys)))
  end.

Lemma oforM_Ok {E A} (f : A → outcome E unit) xs :
  oforM f xs = Ok tt ↔ Forall (fun x => f x = Ok tt) xs.
Proof.
  induction xs as [|x xs IH]; simpl; [split; [constructor|done]|].
  rewrite Forall_cons, <- IH. split.
  - intros H. inv_obind. by destruct a.
  - intros [-> H]. done.
Qed.

Lemma ofold_app {E A S} (f : S → A → outcome E S) s xs ys :
  ofold f s (xs ++ ys) = obind (ofold f s xs) (fun s' => ofold f s' ys).
Proof.
  revert s. induction xs as [|x xs IH]; intros s; simpl; [done|].
  destruct (f s x); simpl; auto.
Qed.

Lemma omapM_Ok {E A B} (f : A → outcome E B) xs ys :
  omapM f xs = Ok ys ↔ Forall2 (fun x y => f x = Ok y) xs ys.
Proof.
  revert ys. induction xs as [|x xs IH]; intros ys; simpl.
  - split; [intros; simplify_eq; constructor|]. intros H. by inversion H.
  - split.
    + intros H. inv_obind. constructor; [done|]. by apply IH.
    + intros H. inversion H as [|? y ? ys' Hx Hxs]; subst. rewrite Hx. simpl.
      apply IH in Hxs. by rewrite Hxs.
Qed.

Lemma omapM_returns {E A B} (f : A → outcome E B) xs :
  Forall (fun x => returns (f x)) xs → returns (omapM f xs).
Proof. induction 1; simpl; eauto 6 with outcome. Qed.

(** * Strings *)

(** [str::starts_with] *)
Definition starts_with (s p : string) : bool := String.prefix p s.

(** [str::contains] with a string pattern. *)
Fixpoint str_contains (s p : string) : bool :=
  String.prefix p s ||
  match s with
  | EmptyString => false
  | String _ s' => str_contains s' p
  end.

(** [Iterator::find] *)
Definition find_first {A} (p : A → bool) (xs : list A) : option A := List.find p xs.

Lemma filter_nil_Forall {A} (P : A → Prop) `{!∀ x, Decision (P x)} (xs : list A) :
  Forall (fun x => ¬ P x) xs → filter P xs = [].
Proof. induction 1; [done|]. by rewrite filter_cons_False. Qed.

Section filter_length.
Context {A : Type} (P Q : A → Prop) `{!∀ x, Decision (P x)} `{!∀ x, Decision (Q x)}.
Context (HPQ : ∀ x, P x → Q x).

Lemma length_filter_le (l : list A) : length (filter P l) ≤ length (filter Q l).
Proof using HPQ.
  induction l as [|x l IH]; [done|]. rewrite !filter_cons.
  destruct (decide (P x)), (decide (Q x)); simpl; try lia. naive_solver.
Qed.

Lemma length_filter_lt (l : list A) x :
  x ∈ l → Q x → ¬ P x → length (filter P l) < length (filter Q l).
Proof using HPQ.
  intros Hin HQ HP. induction l as [|y l IH]; [by apply elem_of_nil in Hin|].
  pose proof (length_filter_le l). rewrite !filter_cons.
  apply elem_of_cons in Hin as [<-|Hin].
  - rewrite decide_False, decide_True by done. simpl. lia.
  - specialize (IH Hin). destruct (decide (P y)), (decide (Q y)); simpl; try lia. naive_solver.
Qed.
End filter_length.

(** [Iterator::min_by]: the first of the least elements. *)
Definition min_by {A} (cmp : A → A → comparison) (xs : list A) : option A :=
  match xs with
  | [] => None
  | x :: xs => Some (foldl (fun m y => match cmp m y with Gt => y | _ => m end) x xs)
  end.

(** [Iterator::max_by]: the last of the greatest elements. *)
Definition max_by {A} (cmp : A → A → comparison) (xs : list A) : option A :=
  match xs with
  | [] => None
  | x :: xs => Some (foldl (fun m y => match cmp m y with Gt => m | _ => y end) x xs)
  end.

(** Without an order, the element is still one of the list. *)
Lemma foldl_pick {A} (f : A → A → A) xs : (∀ a b, f a b = a ∨ f a b = b) →
  ∀ x, foldl f x xs ∈ x :: xs.
Proof.
  intros Hf. induction xs as [|y xs IH]; intros x; simpl; [set_solver|].
  specialize (IH (f x y)). destruct (Hf x y) as [E|E]; rewrite E in IH |- *; set_solver.
Qed.

Lemma min_by_elem {A} (cmp : A → A → comparison) xs v : min_by cmp xs = Some v → v ∈ xs.
Proof. destruct xs; [done|]. intros [= <-]. apply foldl_pick. intros. case_match; auto. Qed.

Lemma max_by_elem {A} (cmp : A → A → comparison) xs v : max_by cmp xs = Some v → v ∈ xs.
Proof. destruct xs; [done|]. intros [= <-]. apply foldl_pick. intros. case_match; auto. Qed.

(** The least index with a decidable property. *)
Lemma least_index (P : nat → Prop) `{!∀ i, Decision (P i)} n :
  (∃ i, i < n ∧ P i ∧ ∀ j, j < i → ¬ P j) ∨ ∀ i, i < n → ¬ P i.
Proof.
  induction n as [|n [(i & Hi & HP & Hl)|Hnone]]; [right; lia|left; exists i; split; [lia|done]|].
  destruct (decide (P n)) as [HP|HP].
  - left. exists n. split_and!; [lia|done|done].
  - right. intros i Hi. destruct (decide (i = n)) as [->|]; [done|]. apply Hnone. lia.
Qed.

(** [P] holds of some element: [Exists] as a function, for recursive
    definitions over nested types. *)
Definition some_in {A} (P : A → Prop) : list A → Prop :=
  fix go xs := match xs with [] => False | x :: xs => P x ∨ go xs end.

Lemma some_in_spec {A} (P : A → Prop) xs : some_in P xs ↔ ∃ x, x ∈ xs ∧ P x.
Proof. induction xs as [|x xs IH]; simpl; [set_solver|]. rewrite IH. set_solver. Qed.

(** [slice::sort_by]: stable, for a comparison that is a total preorder (on
    another the order of the result is not specified). *)
Fixpoint insert_by {A} (cmp : A → A → comparison) (x : A) (xs : list A) : list A :=
  match xs with
  | [] => [x]
  | y :: ys => match cmp x y with Gt => y :: insert_by cmp x ys | _ => x :: xs end
  end.

Definition sort_by {A} (cmp : A → A → comparison) (xs : list A) : list A :=
  foldr (insert_by cmp) [] xs.

Lemma insert_by_perm {A} (cmp : A → A → comparison) x xs : insert_by cmp x xs ≡ₚ x :: xs.
Proof.
  induction xs as [|y ys IH]; simpl; [done|]. destruct (cmp x y); [done|done|].
  rewrite IH. apply Permutation_swap.
Qed.

Lemma sort_by_perm {A} (cmp : A → A → comparison) xs : sort_by cmp xs ≡ₚ xs.
Proof. induction xs as [|x xs IH]; simpl; [done|]. by rewrite insert_by_perm, IH. Qed.
