(* ===== verification/Text.v ===== *)
(** Strings as the standard library of Rust reads them: trimming, lines, words,
    zero-padded decimals and UTF-8.  A [string] is its bytes. *)

From Stdlib Require Import Ascii ZArith.
From stdpp Require Import base strings list pretty.
From S2P Require Import Prelude.

(** * Trimming

    [str::trim] removes the characters of the Unicode property [White_Space]
    at both ends; a string is its UTF-8 bytes. *)
Definition bytes (ns : list nat) : string :=
  foldr (fun n s => String (ascii_of_nat n) s) EmptyString ns.

Definition whitespace : list string :=
  map (fun n => bytes [n]) [9; 10; 11; 12; 13; 32] ++
  [bytes [194; 133]; bytes [194; 160]; bytes [225; 154; 128]] ++
  map (fun n => bytes [226; 128; n]) [128; 129; 130; 131; 132; 133; 134; 135; 136; 137; 138; 168; 169; 175] ++
  [bytes [226; 129; 159]; bytes [227; 128; 128]].

Fixpoint str_drop (n : nat) (s : string) : string :=
  match n, s with
  | S n', String _ s' => str_drop n' s'
  | _, _ => s
  end.

Fixpoint str_rev_onto (s acc : string) : string :=
  match s with EmptyString => acc | String c s' => str_rev_onto s' (String c acc) end.

Definition str_rev (s : string) : string := str_rev_onto s EmptyString.

(** Remove leading matches of the patterns; every round removes a byte. *)
Fixpoint trim_with (ps : list string) (fuel : nat) (s : string) : string :=
  match fuel with
  | O => s
  | S fuel' =>
      match find_first (fun p => starts_with s p) ps with
      | Some p => trim_with ps fuel' (str_drop (String.length p) s)
      | None => s
      end
  end.

Definition trim_start (s : string) : string := trim_with whitespace (String.length s) s.
Definition trim_end (s : string) : string :=
  str_rev (trim_with (map str_rev whitespace) (String.length s) (str_rev s)).
Definition trim (s : string) : string := trim_end (trim_start s).

(** [u8::is_ascii_digit] and [u8::is_ascii_hexdigit] *)
Definition is_ascii_digit (c : ascii) : bool :=
  let n := nat_of_ascii c in (48 <=? n) && (n <=? 57).

Definition is_ascii_hexdigit (c : ascii) : bool :=
  let n := nat_of_ascii c in
  is_ascii_digit c || ((65 <=? n) && (n <=? 70)) || ((97 <=? n) && (n <=? 102)).

Fixpoint all_bytes (p : ascii → bool) (s : string) : bool :=
  match s with EmptyString => true | String c s' => p c && all_bytes p s' end.

(** * Lines and words *)

(** [str::lines] *)
Definition newline : ascii := ascii_of_nat 10.
Definition carriage_return : ascii := ascii_of_nat 13.

Definition strip_cr_rev (cur : string) : string :=
  match cur with
  | String c rest => if decide (c = carriage_return) then str_rev rest else str_rev cur
  | EmptyString => EmptyString
  end.

Fixpoint lines_from (cur s : string) : list string :=
  match s with
  | EmptyString => if decide (cur = EmptyString) then [] else [str_rev cur]
  | String c s' =>
      if decide (c = newline) then strip_cr_rev cur :: lines_from EmptyString s'
      else lines_from (String c cur) s'
  end.

Definition lines (s : string) : list string := lines_from EmptyString s.

(** [str::split_whitespace]; every round consumes a byte. *)
Fixpoint words_from (fuel : nat) (cur s : string) : list string :=
  let word := if decide (cur = EmptyString) then [] else [str_rev cur] in
  match fuel, s with
  | S fuel', String c s' =>
      match find_first (fun p => starts_with s p) whitespace with
      | Some p => word ++ words_from fuel' EmptyString (str_drop (String.length p) s)
      | None => words_from fuel' (String c cur) s'
      end
  | _, _ => word
  end.

Definition split_whitespace (s : string) : list string := words_from (String.length s) EmptyString s.


(** [simpl] leaves [+:+] alone; these expose its head. *)
Lemma str_app_cons c (s t : string) : String c s +:+ t = String c (s +:+ t).
Proof. done. Qed.
Lemma str_app_nil_l (t : string) : EmptyString +:+ t = t.
Proof. done. Qed.

Lemma str_app_assoc (s t u : string) : s +:+ (t +:+ u) = (s +:+ t) +:+ u.
Proof. induction s as [|c s IH]; [done|]. by rewrite !str_app_cons, IH. Qed.

Lemma str_app_nil_r (s : string) : s +:+ EmptyString = s.
Proof. induction s as [|c s IH]; [done|]. by rewrite str_app_cons, IH. Qed.

Lemma str_rev_onto_spec s acc : str_rev_onto s acc = (str_rev s +:+ acc)%string.
Proof.
  unfold str_rev. revert acc. induction s as [|c s IH]; intros acc; [done|]. simpl.
  by rewrite (IH (String c acc)), (IH (String c EmptyString)), <- str_app_assoc.
Qed.

Lemma str_rev_cons c s : str_rev (String c s) = (str_rev s +:+ String c EmptyString)%string.
Proof. unfold str_rev at 1. simpl. apply str_rev_onto_spec. Qed.

Lemma str_rev_app s t : str_rev (s +:+ t) = (str_rev t +:+ str_rev s)%string.
Proof.
  induction s as [|c s IH].
  - by rewrite str_app_nil_l, str_app_nil_r.
  - by rewrite str_app_cons, !str_rev_cons, IH, str_app_assoc.
Qed.

Lemma str_rev_involutive s : str_rev (str_rev s) = s.
Proof. induction s as [|c s IH]; [done|]. by rewrite str_rev_cons, str_rev_app, IH. Qed.

Lemma all_bytes_app p s t : all_bytes p (s +:+ t) = all_bytes p s && all_bytes p t.
Proof. induction s as [|c s IH]; [done|]. rewrite str_app_cons. simpl. by rewrite IH, andb_assoc. Qed.

Lemma all_bytes_rev p s : all_bytes p (str_rev s) = all_bytes p s.
Proof.
  induction s as [|c s IH]; [done|]. rewrite str_rev_cons, all_bytes_app, IH. simpl.
  by rewrite andb_true_r, andb_comm.
Qed.

(** A byte that is not an ASCII control character. *)
Definition not_control (c : ascii) : bool := 32 <=? nat_of_ascii c.

(** A line of a text written with [\n] after every line. *)
Lemma lines_from_line s rest : ∀ cur, all_bytes not_control s = true →
  lines_from cur (s +:+ String newline rest) = strip_cr_rev (str_rev_onto s cur) :: lines rest.
Proof.
  induction s as [|c s IH]; intros cur Hs; [done|].
  rewrite str_app_cons. simpl in *. apply andb_prop in Hs as [Hc Hs]. destruct (decide (c = newline)) as [->|_]; [done|]. by apply IH.
Qed.

Lemma lines_line s rest : all_bytes not_control s = true →
  lines (s +:+ String newline rest) = s :: lines rest.
Proof.
  intros Hs. unfold lines at 1. rewrite lines_from_line by done. f_equal.
  change (str_rev_onto s "") with (str_rev s). rewrite <- (str_rev_involutive s) at 2.
  rewrite <- all_bytes_rev in Hs. destruct (str_rev s) as [|c r]; [done|]. simpl in *.
  destruct (decide (c = carriage_return)) as [->|_]; [done|done].
Qed.

(** A text that starts and ends with braces is its own trim. *)
Lemma trim_braces s : trim (String "{" (s +:+ "}"))%string = String "{" (s +:+ "}")%string.
Proof.
  unfold trim. change (trim_start (String "{" (s +:+ "}"))) with (String "{" (s +:+ "}"))%string.
  unfold trim_end. rewrite str_rev_cons, str_rev_app. change (str_rev "}") with "}"%string.
  rewrite !str_app_cons, str_app_nil_l.
  assert (∀ n t, trim_with (map str_rev whitespace) n (String "}" t) = String "}" t) as ->.
  { intros [|n] t; reflexivity. }
  by rewrite str_rev_cons, str_rev_app, str_rev_involutive, <- str_app_assoc.
Qed.

(** * Zero-padded decimals *)

Definition digit (n : Z) : ascii := ascii_of_N (48 + Z.to_N n).

Fixpoint pad (w : nat) (n : Z) : string :=
  match w with
  | O => EmptyString
  | S w' => String (digit (n / 10 ^ Z.of_nat w')) (pad w' (n mod 10 ^ Z.of_nat w'))
  end.

(** [format!("{n:0w$}")]: at least [w] digits. *)
Definition fmt_padded (w : nat) (n : Z) : string :=
  if (n <? 10 ^ Z.of_nat w)%Z then pad w n else pretty n.

(** * UTF-8 *)

(** Where a decoder is inside a character: between two, one, two or three
    continuation bytes short, or after a lead byte that restricts the next. *)
Inductive Utf8State := U0 | U1 | U2 | U3 | UE0 | UED | UF0 | UF4.

Definition in_range (lo hi : N) (c : ascii) : bool :=
  ((lo <=? N_of_ascii c) && (N_of_ascii c <=? hi))%N.

Definition utf8_step (st : Utf8State) (c : ascii) : option Utf8State :=
  match st with
  | U0 =>
      if in_range 0 127 c then Some U0
      else if in_range 194 223 c then Some U1
      else if in_range 224 224 c then Some UE0
      else if in_range 237 237 c then Some UED
      else if in_range 225 239 c then Some U2
      else if in_range 240 240 c then Some UF0
      else if in_range 241 243 c then Some U3
      else if in_range 244 244 c then Some UF4
      else None
  | U1 => if in_range 128 191 c then Some U0 else None
  | U2 => if in_range 128 191 c then Some U1 else None
  | U3 => if in_range 128 191 c then Some U2 else None
  | UE0 => if in_range 160 191 c then Some U1 else None
  | UED => if in_range 128 159 c then Some U1 else None
  | UF0 => if in_range 144 191 c then Some U2 else None
  | UF4 => if in_range 128 143 c then Some U2 else None
  end.

Fixpoint utf8_run (st : Utf8State) (s : string) : option Utf8State :=
  match s with
  | EmptyString => Some st
  | String c s' => match utf8_step st c with Some st' => utf8_run st' s' | None => None end
  end.

(** [std::str::from_utf8(..).is_ok()] *)
Definition utf8_valid (s : string) : bool :=
  match utf8_run U0 s with Some U0 => true | _ => false end.

Lemma utf8_run_app st s t : utf8_run st (s +:+ t) = utf8_run st s ≫= λ st', utf8_run st' t.
Proof.
  revert st. induction s as [|c s IH]; intros st; [done|]. rewrite str_app_cons. simpl.
  destruct (utf8_step st c); [apply IH|done].
Qed.

Lemma utf8_valid_app s t : utf8_valid s = true → utf8_valid t = true → utf8_valid (s +:+ t) = true.
Proof.
  unfold utf8_valid. rewrite utf8_run_app. by destruct (utf8_run U0 s) as [[]|].
Qed.

(** * ASCII case *)

(** [str::to_ascii_lowercase] *)
Definition ascii_lower (c : ascii) : ascii :=
  let n := nat_of_ascii c in
  if (65 <=? n)%nat && (n <=? 90)%nat then ascii_of_nat (n + 32) else c.

Fixpoint to_ascii_lowercase (s : string) : string :=
  match s with
  | EmptyString => EmptyString
  | String c s' => String (ascii_lower c) (to_ascii_lowercase s')
  end.
