(* ===== verification/Numbers.v ===== *)
(** Numbers of fixed width: saturating and wrapping machine integers as [Z],
    and IEEE 754 floating point ([spec_float]; an [f64] has 53 bits of
    precision, an [f32] has 24). *)

From Stdlib Require Import ZArith SpecFloat.
From stdpp Require Import base numbers.

(** * Machine integers *)
Definition i32_min : Z := (-2147483648)%Z.
Definition i32_max : Z := 2147483647%Z.
Definition u32_max : Z := 4294967295%Z.
Definition u64_max : Z := 18446744073709551615%Z.

Definition clamp (lo hi z : Z) : Z := Z.max lo (Z.min z hi).

(** [i32::saturating_add], [i32::saturating_sub] *)
Definition i32_sat_add (a b : Z) : Z := clamp i32_min i32_max (a + b).
Definition i32_sat_sub (a b : Z) : Z := clamp i32_min i32_max (a - b).
(** [u32::saturating_add], [u64::saturating_add], [u64::saturating_sub] *)
Definition u32_sat_add (a b : Z) : Z := Z.min (a + b) u32_max.
Definition u64_sat_add (a b : Z) : Z := Z.min (a + b) u64_max.
Definition u64_sat_sub (a b : Z) : Z := Z.max (a - b) 0.

(** The wrap-around of [i32] arithmetic. *)
Definition i32_wrap (z : Z) : Z := ((z + 2147483648) mod 4294967296 - 2147483648)%Z.

Lemma i32_sat_add_exact a b : (i32_min ≤ a + b ≤ i32_max)%Z → i32_sat_add a b = (a + b)%Z.
Proof. unfold i32_sat_add, clamp. lia. Qed.

Lemma i32_sat_sub_exact a b : (i32_min ≤ a - b ≤ i32_max)%Z → i32_sat_sub a b = (a - b)%Z.
Proof. unfold i32_sat_sub, clamp. lia. Qed.

(** A saturated sum within a bound below [i32::MAX] is not saturated. *)
Lemma i32_sat_add_le a b m : (m < i32_max)%Z → (i32_sat_add a b ≤ m)%Z → (a + b ≤ m)%Z.
Proof. unfold i32_sat_add, clamp. lia. Qed.

Lemma i32_wrap_exact z : (i32_min ≤ z ≤ i32_max)%Z → i32_wrap z = z.
Proof. unfold i32_wrap, i32_min, i32_max. intros. rewrite Z.mod_small; lia. Qed.

(** * Floating point *)
Definition f64 : Type := spec_float.
Definition f32 : Type := spec_float.

Definition f64_zero : f64 := S754_zero false.
Definition f64_one : f64 := SFone 53 1024.
Definition f64_add (x y : f64) : f64 := SFadd 53 1024 x y.
Definition f64_mul (x y : f64) : f64 := SFmul 53 1024 x y.
Definition f64_div (x y : f64) : f64 := SFdiv 53 1024 x y.
Definition f64_sub (x y : f64) : f64 := SFsub 53 1024 x y.
Definition f64_opp (x : f64) : f64 := SFopp x.
Definition f64_ltb (x y : f64) : bool := SFltb x y.
Definition f64_leb (x y : f64) : bool := SFleb x y.
(** [>=] *)
Definition f64_geb (x y : f64) : bool := SFleb y x.

(** An integer [as f64]: rounded to nearest, ties to even. *)
Definition f64_of_Z (z : Z) : f64 := binary_normalize 53 1024 z 0 false.

(** An [f32] [as f64] is exact. *)
Definition f64_of_f32 (x : f32) : f64 :=
  match x with
  | S754_finite s m e => binary_normalize 53 1024 (cond_Zopp s (Zpos m)) e s
  | _ => x
  end.

(** [f32::max]: a NaN gives the other operand. *)
Definition f32_max (x y : f32) : f32 :=
  match x, y with
  | S754_nan, _ => y
  | _, S754_nan => x
  | _, _ => if SFltb x y then y else x
  end.

(** [f32::min] *)
Definition f32_min (x y : f32) : f32 :=
  match x, y with
  | S754_nan, _ => y
  | _, S754_nan => x
  | _, _ => if SFltb y x then y else x
  end.

(** [partial_cmp(..).unwrap_or(Ordering::Equal)] *)
Definition float_cmp (x y : spec_float) : comparison :=
  match SFcompare x y with Some c => c | None => Eq end.
