(* ===== verification/BTree.v ===== *)
(** Ordered containers of the Rust standard library.

    [BTreeMap<K, V>] is modelled as the list of its entries in key order,
    [BTreeSet<K>] as the sorted list of its elements; both are what the
    program observes when it iterates.  The order of the keys is a class
    ([RustOrd], Rust's [Ord]) with instances for [String], [usize] and pairs. *)

From stdpp Require Import base strings list gmap sorting.
From Stdlib Require Import Sorting.Sorted.
From S2P Require Import Prelude.

(** * [Ord] *)
Class RustOrd (K : Type) := {
  ord_cmp : K → K → comparison;
  ord_eq : ∀ x y, ord_cmp x y = Eq ↔ x = y;
  ord_opp : ∀ x y, ord_cmp y x = CompOpp (ord_cmp x y);
  ord_trans : ∀ x y z, ord_cmp x y = Lt → ord_cmp y z = Lt → ord_cmp x z = Lt;
}.

Definition ord_lt {K} `{RustOrd K} (x y : K) : Prop := ord_cmp x y = Lt.

Section ord_facts.
Context {K : Type} `{RustOrd K}.

Lemma ord_refl (x : K) : ord_cmp x x = Eq.
Proof. by apply ord_eq. Qed.

Lemma ord_gt (x y : K) : ord_cmp x y = Gt → ord_cmp y x = Lt.
Proof. intros E. by rewrite ord_opp, E. Qed.

Lemma ord_lt_irrefl (x : K) : ¬ ord_lt x x.
Proof. unfold ord_lt. by rewrite ord_refl. Qed.

Lemma ord_lt_ne (x y : K) : ord_lt x y → x ≠ y.
Proof. intros Hlt ->. by apply ord_lt_irrefl in Hlt. Qed.

Lemma ord_lt_asym (x y : K) : ord_lt x y → ¬ ord_lt y x.
Proof. intros H1 H2. apply (ord_lt_irrefl x). by eapply ord_trans. Qed.

#[global] Instance ord_lt_trans : Transitive (@ord_lt K _).
Proof. intros x y z. apply ord_trans. Qed.

Lemma ord_ge_trans (x y z : K) : ord_cmp x y ≠ Gt → ord_cmp y z ≠ Gt → ord_cmp x z ≠ Gt.
Proof.
  intros H1 H2. destruct (ord_cmp x y) eqn:E1, (ord_cmp y z) eqn:E2; try done.
  - apply ord_eq in E1 as ->, E2 as ->. by rewrite ord_refl.
  - apply ord_eq in E1 as ->. by rewrite E2.
  - apply ord_eq in E2 as ->. by rewrite E1.
  - by rewrite (ord_trans _ _ _ E1 E2).
Qed.

Definition ord_eq_dec : EqDecision K.
Proof.
  intros x y. destruct (ord_cmp x y) eqn:E; [left|right|right].
  - by apply ord_eq.
  - intros ->. by rewrite ord_refl in E.
  - intros ->. by rewrite ord_refl in E.
Defined.
End ord_facts.

#[local] Existing Instance ord_eq_dec.

(** Strings compare byte by byte. *)
Fixpoint str_cmp (s t : string) : comparison :=
  match s, t with
  | EmptyString, EmptyString => Eq
  | EmptyString, String _ _ => Lt
  | String _ _, EmptyString => Gt
  | String a s', String b t' =>
      match N.compare (Ascii.N_of_ascii a) (Ascii.N_of_ascii b) with
      | Eq => str_cmp s' t'
      | c => c
      end
  end.

Lemma N_of_ascii_inj a b : Ascii.N_of_ascii a = Ascii.N_of_ascii b → a = b.
Proof.
  intros E. rewrite <- (Ascii.ascii_N_embedding a), <- (Ascii.ascii_N_embedding b).
  by rewrite E.
Qed.

#[global] Instance string_ord : RustOrd string.
Proof.
  refine {| ord_cmp := str_cmp |}.
  - induction x as [|a x IH]; intros [|b y]; simpl; try done.
    destruct (N.compare_spec (Ascii.N_of_ascii a) (Ascii.N_of_ascii b)) as [E|L|L].
    + apply N_of_ascii_inj in E. subst. rewrite IH. split; congruence.
    + split; [done|]. intros [= -> ->]. lia.
    + split; [done|]. intros [= -> ->]. lia.
  - induction x as [|a x IH]; intros [|b y]; simpl; try done.
    rewrite N.compare_antisym.
    destruct (N.compare (Ascii.N_of_ascii a) (Ascii.N_of_ascii b)); simpl; auto.
  - induction x as [|a x IH]; intros [|b y] [|c z]; simpl; try done.
    destruct (N.compare_spec (Ascii.N_of_ascii a) (Ascii.N_of_ascii b)) as [E1|L1|L1];
    destruct (N.compare_spec (Ascii.N_of_ascii b) (Ascii.N_of_ascii c)) as [E2|L2|L2];
    intros H1 H2; try done.
    + rewrite E1, E2, N.compare_refl. by eapply IH.
    + rewrite E1. by apply N.compare_lt_iff in L2 as ->.
    + rewrite <- E2. by apply N.compare_lt_iff in L1 as ->.
    + by assert (N.compare (Ascii.N_of_ascii a) (Ascii.N_of_ascii c) = Lt) as ->
        by (apply N.compare_lt_iff; lia).
Defined.

#[global] Instance nat_ord : RustOrd nat.
Proof.
  refine {| ord_cmp := Nat.compare |}.
  - apply Nat.compare_eq_iff.
  - intros. apply Nat.compare_antisym.
  - intros x y z. rewrite !Nat.compare_lt_iff. lia.
Defined.

#[global] Instance Z_ord : RustOrd Z.
Proof.
  refine {| ord_cmp := Z.compare |}.
  - apply Z.compare_eq_iff.
  - intros. apply Z.compare_antisym.
  - intros x y z. rewrite !Z.compare_lt_iff. lia.
Defined.

(** Derived [Ord] of a pair (or a two-field struct): lexicographic. *)
Definition pair_cmp {A B} `{RustOrd A, RustOrd B} (x y : A * B) : comparison :=
  match ord_cmp x.1 y.1 with Eq => ord_cmp x.2 y.2 | c => c end.

#[global] Instance pair_ord {A B} `{RustOrd A, RustOrd B} : RustOrd (A * B).
Proof.
  refine {| ord_cmp := pair_cmp |}; unfold pair_cmp.
  - intros [a b] [a' b']; simpl. destruct (ord_cmp a a') eqn:E.
    + apply ord_eq in E. subst. rewrite ord_eq. split; congruence.
    + split; [done|]. intros [= -> ->]. by rewrite ord_refl in E.
    + split; [done|]. intros [= -> ->]. by rewrite ord_refl in E.
  - intros [a b] [a' b']; simpl. rewrite (ord_opp a a').
    destruct (ord_cmp a a'); simpl; auto. apply ord_opp.
  - intros [a b] [a' b'] [a'' b'']; simpl.
    destruct (ord_cmp a a') eqn:E1; destruct (ord_cmp a' a'') eqn:E2; try done.
    + apply ord_eq in E1, E2. subst. rewrite ord_refl. apply ord_trans.
    + apply ord_eq in E1. subst. by rewrite E2.
    + apply ord_eq in E2. subst. by rewrite E1.
    + by rewrite (ord_trans _ _ _ E1 E2).
Defined.

(** A newtype inherits the order of the type it wraps. *)
Definition newtype_ord {A B} `{RustOrd B} (f : A → B)
    (f_inj : ∀ x y, f x = f y → x = y) : RustOrd A.
Proof.
  refine {| ord_cmp := fun x y => ord_cmp (f x) (f y) |}.
  - intros x y. rewrite ord_eq. split; [apply f_inj | congruence].
  - intros. apply ord_opp.
  - intros x y z. apply ord_trans.
Defined.

(** * [BTreeMap] *)
Section btree_map.
Context {K V : Type} `{RustOrd K}.

Definition BTreeMap : Type := list (K * V).

Fixpoint bm_get (m : list (K * V)) (k : K) : option V :=
  match m with
  | [] => None
  | (k', v) :: m' =>
      match ord_cmp k k' with
      | Lt => None
      | Eq => Some v
      | Gt => bm_get m' k
      end
  end.

Fixpoint bm_insert (m : list (K * V)) (k : K) (v : V) : list (K * V) :=
  match m with
  | [] => [(k, v)]
  | (k', v') :: m' =>
      match ord_cmp k k' with
      | Lt => (k, v) :: m
      | Eq => (k, v) :: m'
      | Gt => (k', v') :: bm_insert m' k v
      end
  end.

Fixpoint bm_remove (m : list (K * V)) (k : K) : list (K * V) :=
  match m with
  | [] => []
  | (k', v') :: m' =>
      match ord_cmp k k' with
      | Lt => m
      | Eq => m'
      | Gt => (k', v') :: bm_remove m' k
      end
  end.

Definition bm_values (m : list (K * V)) : list V := m.*2.
Definition bm_keys (m : list (K * V)) : list K := m.*1.

(** The representation invariant: strictly increasing keys. *)
Definition bm_ok (m : list (K * V)) : Prop := StronglySorted ord_lt (m.*1).

Lemma bm_ok_nil : bm_ok [].
Proof. constructor. Qed.

Lemma bm_ok_cons_inv k v m : bm_ok ((k, v) :: m) → bm_ok m ∧ Forall (ord_lt k) (m.*1).
Proof. intros Hok. by inversion Hok. Qed.

Lemma bm_get_None_lt m k : Forall (ord_lt k) (m.*1) → bm_get m k = None.
Proof.
  destruct m as [|[k' v] m]; [done|]. simpl. intros Hf.
  inversion Hf as [|? ? Hlt]. unfold ord_lt in Hlt. by rewrite Hlt.
Qed.

Lemma bm_insert_keys m k v k' : k' ∈ (bm_insert m k v).*1 ↔ k' = k ∨ k' ∈ m.*1.
Proof.
  induction m as [|[k0 v0] m IH]; simpl.
  - set_solver.
  - destruct (ord_cmp k k0) eqn:E; simpl.
    + apply ord_eq in E. subst. set_solver.
    + set_solver.
    + rewrite !elem_of_cons, IH. naive_solver.
Qed.

Lemma bm_insert_ok m k v : bm_ok m → bm_ok (bm_insert m k v).
Proof.
  unfold bm_ok. induction m as [|[k0 v0] m IH]; simpl; intros Hok.
  - repeat constructor.
  - inversion Hok as [|? ? Hs Hf]; subst. destruct (ord_cmp k k0) eqn:E; simpl.
    + apply ord_eq in E. subst. by constructor.
    + constructor; [done|]. constructor; [done|].
      eapply Forall_impl; [exact Hf|]. intros x Hx. by eapply ord_trans.
    + constructor; [by apply IH|]. apply Forall_forall. intros x Hx.
      apply bm_insert_keys in Hx as [->|Hx]; [by apply ord_gt|].
      by eapply Forall_forall in Hf.
Qed.

Lemma bm_get_insert m k v k' : bm_ok m →
  bm_get (bm_insert m k v) k' = if decide (k' = k) then Some v else bm_get m k'.
Proof.
  intros Hok. induction m as [|[k0 v0] m IH]; simpl.
  - destruct (ord_cmp k' k) eqn:E; case_decide as Hd; try done.
    + by apply ord_eq in E.
    + subst. by rewrite ord_refl in E.
    + subst. by rewrite ord_refl in E.
  - apply bm_ok_cons_inv in Hok as [Hok Hf].
    destruct (ord_cmp k k0) eqn:E; simpl.
    + apply ord_eq in E. subst. destruct (ord_cmp k' k0) eqn:E'.
      * apply ord_eq in E'. by rewrite decide_True.
      * rewrite decide_False; [done|]. by apply ord_lt_ne.
      * rewrite decide_False; [done|]. intros ->. by rewrite ord_refl in E'.
    + destruct (ord_cmp k' k) eqn:E'.
      * apply ord_eq in E'. by rewrite decide_True.
      * rewrite decide_False by (by apply ord_lt_ne).
        by rewrite (ord_trans _ _ _ E' E).
      * rewrite decide_False; [done|]. intros ->. by rewrite ord_refl in E'.
    + destruct (ord_cmp k' k0) eqn:E'.
      * apply ord_eq in E'. subst. rewrite decide_False; [done|].
        intros ->. by rewrite ord_refl in E.
      * rewrite decide_False; [done|]. intros ->. congruence.
      * by apply IH.
Qed.

Lemma bm_get_remove m k k' : bm_ok m →
  bm_get (bm_remove m k) k' = if decide (k' = k) then None else bm_get m k'.
Proof.
  intros Hok. induction m as [|[k0 v0] m IH]; simpl.
  - by case_decide.
  - apply bm_ok_cons_inv in Hok as [Hok Hf].
    destruct (ord_cmp k k0) eqn:E; simpl.
    + apply ord_eq in E. subst. case_decide as Hd.
      * subst. by apply bm_get_None_lt.
      * destruct (ord_cmp k' k0) eqn:E'; [by apply ord_eq in E'| |done].
        apply bm_get_None_lt. eapply Forall_impl; [exact Hf|].
        intros x Hx. by eapply ord_trans.
    + case_decide as Hd; [|done]. subst. by rewrite E.
    + destruct (ord_cmp k' k0) eqn:E'; [| |by apply IH].
      * apply ord_eq in E'. subst. rewrite decide_False; [done|].
        intros ->. by rewrite ord_refl in E.
      * by case_decide.
Qed.

Lemma bm_remove_keys m k k' : k' ∈ (bm_remove m k).*1 → k' ∈ m.*1.
Proof.
  induction m as [|[k0 v0] m IH]; simpl; [done|].
  destruct (ord_cmp k k0); simpl; set_solver.
Qed.

Lemma bm_remove_ok m k : bm_ok m → bm_ok (bm_remove m k).
Proof.
  unfold bm_ok. induction m as [|[k0 v0] m IH]; simpl; intros Hok; [done|].
  inversion Hok as [|? ? Hs Hf]; subst. destruct (ord_cmp k k0) eqn:E; simpl; auto.
  constructor; [by apply IH|]. apply Forall_forall. intros x Hx.
  apply bm_remove_keys in Hx. by eapply Forall_forall in Hf.
Qed.

Lemma bm_get_Some m k v : bm_ok m → bm_get m k = Some v ↔ (k, v) ∈ m.
Proof.
  induction m as [|[k0 v0] m IH]; simpl; intros Hok; [set_solver|].
  apply bm_ok_cons_inv in Hok as [Hok Hf]. rewrite elem_of_cons.
  destruct (ord_cmp k k0) eqn:E.
  - apply ord_eq in E. subst. split; [naive_solver|].
    intros [?|Hin]; [naive_solver|]. exfalso.
    eapply Forall_forall in Hf; [|by eapply (list_elem_of_fmap_2 fst _ (k0, v))].
    by apply ord_lt_irrefl in Hf.
  - split; [done|]. intros [?|Hin].
    + simplify_eq. by rewrite ord_refl in E.
    + exfalso. eapply Forall_forall in Hf; [|by eapply (list_elem_of_fmap_2 fst _ (k, v))].
      simpl in Hf. eapply ord_lt_asym; [exact Hf|done].
  - rewrite IH by done. split; [by right|]. intros [?|?]; [|done].
    simplify_eq. by rewrite ord_refl in E.
Qed.

Lemma bm_get_cons m k v k' : bm_ok ((k, v) :: m) →
  bm_get ((k, v) :: m) k' = if decide (k' = k) then Some v else bm_get m k'.
Proof.
  intros [Hok Hf]%bm_ok_cons_inv. simpl. destruct (ord_cmp k' k) eqn:E.
  - apply ord_eq in E. by rewrite decide_True.
  - rewrite decide_False by (by apply ord_lt_ne). symmetry. apply bm_get_None_lt.
    eapply Forall_impl; [exact Hf|]. intros x Hx. by eapply ord_trans.
  - rewrite decide_False; [done|]. intros ->. by rewrite ord_refl in E.
Qed.

Lemma bm_get_elem m k v : bm_get m k = Some v → (k, v) ∈ m.
Proof.
  induction m as [|[k0 v0] m IH]; simpl; [done|].
  destruct (ord_cmp k k0) eqn:E; [|done|].
  - apply ord_eq in E. intros. simplify_eq. constructor.
  - intros. constructor. auto.
Qed.

Lemma bm_get_is_Some m k : bm_ok m → is_Some (bm_get m k) ↔ k ∈ m.*1.
Proof.
  intros Hok. split.
  - intros [v Hv]. apply bm_get_elem in Hv. by apply (list_elem_of_fmap_2 fst) in Hv.
  - intros ([k' v] & -> & Hin)%list_elem_of_fmap. exists v. by apply bm_get_Some.
Qed.
End btree_map.
Arguments BTreeMap : clear implicits.

#[export] Hint Resolve bm_ok_nil bm_insert_ok bm_remove_ok : core.

(** * [BTreeSet] *)
Section btree_set.
Context {K : Type} `{RustOrd K}.

Definition BTreeSet : Type := list K.

Fixpoint bs_insert (s : list K) (k : K) : list K :=
  match s with
  | [] => [k]
  | k' :: s' =>
      match ord_cmp k k' with
      | Lt => k :: s
      | Eq => s
      | Gt => k' :: bs_insert s' k
      end
  end.

Definition bs_contains (s : list K) (k : K) : bool := bool_decide (k ∈ s).

Definition bs_ok (s : list K) : Prop := StronglySorted ord_lt s.

Lemma bs_insert_elem s k x : x ∈ bs_insert s k ↔ x = k ∨ x ∈ s.
Proof.
  induction s as [|k0 s IH]; simpl; [set_solver|].
  destruct (ord_cmp k k0) eqn:E.
  - apply ord_eq in E. subst. set_solver.
  - set_solver.
  - rewrite !elem_of_cons, IH. naive_solver.
Qed.

Lemma bs_insert_ok s k : bs_ok s → bs_ok (bs_insert s k).
Proof.
  unfold bs_ok. induction s as [|k0 s IH]; simpl; intros Hok.
  - repeat constructor.
  - inversion Hok as [|? ? Hs Hf]; subst. destruct (ord_cmp k k0) eqn:E.
    + by constructor.
    + constructor; [done|]. constructor; [done|].
      eapply Forall_impl; [exact Hf|]. intros x Hx. by eapply ord_trans.
    + constructor; [by apply IH|]. apply Forall_forall. intros x Hx.
      apply bs_insert_elem in Hx as [->|Hx]; [by apply ord_gt|].
      by eapply Forall_forall in Hf.
Qed.

Lemma bs_ok_NoDup s : bs_ok s → NoDup s.
Proof.
  induction 1 as [|x s Hs IH Hf]; constructor; [|done].
  intros Hin. eapply Forall_forall in Hf; [|exact Hin]. by apply ord_lt_irrefl in Hf.
Qed.

Lemma bs_contains_spec s k : bs_contains s k = true ↔ k ∈ s.
Proof. apply bool_decide_eq_true. Qed.
End btree_set.
Arguments BTreeSet : clear implicits.
#[export] Hint Resolve bs_insert_ok : core.

Lemma bm_ok_NoDup_keys {K V} `{RustOrd K} (m : list (K * V)) : bm_ok m → NoDup (m.*1).
Proof. apply bs_ok_NoDup. Qed.

(** * Vectors and sorting *)

(** [Vec<T>]'s [Ord] is lexicographic. *)
Fixpoint list_cmp {K} `{RustOrd K} (xs ys : list K) : comparison :=
  match xs, ys with
  | [], [] => Eq
  | [], _ :: _ => Lt
  | _ :: _, [] => Gt
  | x :: xs, y :: ys => match ord_cmp x y with Eq => list_cmp xs ys | Lt => Lt | Gt => Gt end
  end.

#[global] Instance list_ord {K} `{RustOrd K} : RustOrd (list K).
Proof.
  refine {| ord_cmp := list_cmp |}.
  - induction x as [|a x IH]; intros [|b y]; simpl; try done.
    destruct (ord_cmp a b) eqn:E.
    + apply ord_eq in E. subst. rewrite IH. split; congruence.
    + split; [done|]. intros [= -> ->]. by rewrite ord_refl in E.
    + split; [done|]. intros [= -> ->]. by rewrite ord_refl in E.
  - induction x as [|a x IH]; intros [|b y]; simpl; try done.
    rewrite (ord_opp a b). destruct (ord_cmp a b); simpl; auto.
  - induction x as [|a x IH]; intros [|b y] [|d z]; simpl; try done.
    destruct (ord_cmp a b) eqn:E1; destruct (ord_cmp b d) eqn:E2; try done.
    + apply ord_eq in E1, E2. subst. rewrite ord_refl. apply IH.
    + apply ord_eq in E1. subst. by rewrite E2.
    + apply ord_eq in E2. subst. by rewrite E1.
    + by rewrite (ord_trans _ _ _ E1 E2).
Defined.

(** [Option]'s [Ord]: [None] first. *)
Definition option_cmp {K} `{RustOrd K} (x y : option K) : comparison :=
  match x, y with
  | None, None => Eq
  | None, Some _ => Lt
  | Some _, None => Gt
  | Some a, Some b => ord_cmp a b
  end.

#[global] Instance option_ord {K} `{RustOrd K} : RustOrd (option K).
Proof.
  refine {| ord_cmp := option_cmp |}.
  - intros [x|] [y|]; simpl; try done. rewrite ord_eq. split; congruence.
  - intros [x|] [y|]; simpl; try done. apply ord_opp.
  - intros [x|] [y|] [z|]; simpl; try done. apply ord_trans.
Defined.

(** Sorting by a key, for elements with distinct keys. *)
Section sort_by_key.
Context {A K : Type} `{RustOrd K} (f : A → K).

Lemma insert_by_key_sorted (x : A) xs :
  StronglySorted (fun a b => ord_lt (f a) (f b)) xs → f x ∉ map f xs →
  StronglySorted (fun a b => ord_lt (f a) (f b)) (insert_by (fun a b => ord_cmp (f a) (f b)) x xs).
Proof.
  induction 1 as [|y xs Hs IH Hf]; intros Hx; simpl in *; [repeat constructor|].
  destruct (ord_cmp (f x) (f y)) eqn:E.
  - apply ord_eq in E. set_solver.
  - constructor; [by constructor|]. constructor; [done|].
    eapply Forall_impl; [exact Hf|]. intros z Hz. by eapply ord_trans.
  - constructor; [apply IH; set_solver|]. rewrite insert_by_perm. constructor; [by apply ord_gt|done].
Qed.

Lemma sort_by_key_sorted (xs : list A) : NoDup (map f xs) →
  StronglySorted (fun a b => ord_lt (f a) (f b)) (sort_by (fun a b => ord_cmp (f a) (f b)) xs).
Proof.
  induction xs as [|x xs IH]; simpl; intros Hnd; [constructor|].
  apply NoDup_cons in Hnd as [Hx Hnd]. apply insert_by_key_sorted; [by apply IH|].
  by rewrite sort_by_perm.
Qed.
End sort_by_key.

(** [sort_unstable] on distinct elements of a totally ordered type. *)
Lemma sort_by_sorted {K} `{RustOrd K} (xs : list K) :
  NoDup xs → StronglySorted ord_lt (sort_by ord_cmp xs).
Proof. intros Hnd. apply (sort_by_key_sorted id). by rewrite map_id. Qed.

(** An increasing list is determined by its elements. *)
Lemma sorted_ext {K} `{RustOrd K} (xs ys : list K) :
  StronglySorted ord_lt xs → StronglySorted ord_lt ys → (∀ x, x ∈ xs ↔ x ∈ ys) → xs = ys.
Proof.
  intros Hx Hy Hxy. apply (StronglySorted_unique_strong ord_lt); [|done..|].
  - intros x y _ _ H1 H2. by destruct (ord_lt_asym x y).
  - apply NoDup_Permutation; [by apply bs_ok_NoDup..|done].
Qed.
