(* ===== verification/Vocab.v ===== *)
(** The closed-vocabulary idiom: a Rust enum with a constant [ALL], an
    [as_str], a [parse] that searches [ALL], and an SQL [IN (...)] list built
    from [ALL] that the database CHECK constraint uses.  The idiom is a class;
    every enum of the components is an instance, so the round-trip theorems
    are proved once. *)

From Stdlib Require Import Ascii.
From stdpp Require Import base strings list gmap.
From S2P Require Import Prelude Text.

Class Vocab (A : Type) := {
  vocab_all : list A;
  as_str : A → string;
  vocab_complete : ∀ x, x ∈ vocab_all;
  vocab_distinct : NoDup (as_str <$> vocab_all);
}.

(** [parse]: [Self::ALL.iter().copied().find(|k| k.as_str() == s)] *)
Definition parse {A} `{Vocab A} (s : string) : option A :=
  find_first (fun x => bool_decide (as_str x = s)) vocab_all.

(** [format!("'{s}'")] for every value, joined by commas. *)
Definition quote_str (s : string) : string := ("'" +:+ s +:+ "'")%string.

Fixpoint join_strs (sep : string) (xs : list string) : string :=
  match xs with
  | [] => ""
  | [x] => x
  | x :: xs' => (x +:+ sep +:+ join_strs sep xs')%string
  end.

Definition join_quoted (items : list string) : string :=
  join_strs "," (quote_str <$> items).

Definition sql_in_list {A} `{Vocab A} : string := join_quoted (as_str <$> vocab_all).

(** Proving a [Vocab] instance for a concrete enum. *)
Ltac solve_vocab :=
  first [ intros []; vm_compute; set_solver
        | apply (bool_decide_unpack _); vm_compute; exact I ].

Section vocab_facts.
Context {A : Type} `{Vocab A}.

Lemma find_first_Some (p : A → bool) xs x :
  find_first p xs = Some x → x ∈ xs ∧ p x = true.
Proof. intros Hf. apply List.find_some in Hf. by rewrite list_elem_of_In. Qed.

Lemma as_str_inj (x y : A) : as_str x = as_str y → x = y.
Proof.
  intros E. pose proof (vocab_complete x) as Hx. pose proof (vocab_complete y) as Hy.
  apply list_elem_of_lookup in Hx as [i Hi], Hy as [j Hj].
  assert (i = j) as ->; [|congruence].
  eapply NoDup_lookup; [apply vocab_distinct| |].
  - by rewrite list_lookup_fmap, Hi.
  - rewrite list_lookup_fmap, Hj. simpl. by rewrite E.
Qed.

Lemma parse_sound (s : string) (x : A) : parse s = Some x → as_str x = s.
Proof. unfold parse. by intros [_ ?%bool_decide_eq_true]%find_first_Some. Qed.

Lemma parse_complete (x : A) : parse (as_str x) = Some x.
Proof.
  destruct (parse (as_str x)) as [y|] eqn:E.
  - apply parse_sound in E. f_equal. by apply as_str_inj.
  - unfold parse, find_first in E.
    pose proof (List.find_none _ _ E x) as Hn. cbv beta in Hn.
    rewrite bool_decide_eq_true_2 in Hn by done.
    discriminate Hn. apply list_elem_of_In, vocab_complete.
Qed.
End vocab_facts.

(** * Reading an SQL value list back

    [sql_values] splits a list [ 'a','b',... ] into the values it denotes; it
    is what the CHECK constraint compares the column with. *)
Fixpoint sql_scan (s : string) (acc : string) (inside : bool) : list string :=
  match s with
  | EmptyString => []
  | String c s' =>
      if inside then
        if bool_decide (c = "'"%char) then acc :: sql_scan s' "" false
        else sql_scan s' (acc +:+ String c "") true
      else sql_scan s' "" (bool_decide (c = "'"%char))
  end.

Definition sql_values (s : string) : list string := sql_scan s "" false.

Fixpoint no_quote (s : string) : bool :=
  match s with
  | EmptyString => true
  | String c s' => bool_decide (c ≠ "'"%char) && no_quote s'
  end.

Lemma sql_scan_value v acc rest : no_quote v = true →
  sql_scan (v +:+ String "'" rest) acc true = (acc +:+ v)%string :: sql_scan rest "" false.
Proof.
  revert acc. induction v as [|c v IH]; intros acc Hq; simpl.
  - by rewrite str_app_nil_r.
  - simpl in Hq. apply andb_true_iff in Hq as [Hc Hq]. apply bool_decide_eq_true in Hc.
    rewrite bool_decide_eq_false_2 by done. rewrite IH by done. by rewrite <- str_app_assoc.
Qed.

Lemma sql_values_join_quoted xs :
  Forall (fun x => no_quote x = true) xs → sql_values (join_quoted xs) = xs.
Proof.
  unfold sql_values, join_quoted.
  induction 1 as [|x xs Hx Hxs IH]; [done|].
  destruct xs as [|y xs].
  - change (sql_scan ("'" +:+ x +:+ "'") "" false = [x]).
    change (sql_scan (x +:+ String "'" "") "" true = [x]).
    by rewrite sql_scan_value.
  - change (join_strs "," (quote_str <$> x :: y :: xs))
      with (quote_str x +:+ "," +:+ join_strs "," (quote_str <$> y :: xs))%string.
    unfold quote_str at 1. rewrite <- !str_app_assoc.
    set (rest := join_strs "," (quote_str <$> y :: xs)) in *.
    change (sql_scan (x +:+ String "'" (String "," rest)) "" true = x :: y :: xs).
    rewrite sql_scan_value by done. cbn [sql_scan].
    rewrite bool_decide_eq_false_2 by done. by rewrite IH.
Qed.
