(* ===== verification/Splitting.v ===== *)
(** Cutting strings at characters and at strings, and reading integers, as the
    standard library of Rust does. *)

From Stdlib Require Import Ascii ZArith.
From stdpp Require Import base numbers strings pretty list.
From S2P Require Import Prelude Text Numbers.

#[local] Open Scope string_scope.
#[local] Open Scope list_scope.

(** * At the first occurrence *)

(** [str::split_once] and [str::split(c).next()] *)
Fixpoint split_first (sep : ascii) (s : string) : option (string * string) :=
  match s with
  | EmptyString => None
  | String c s' =>
      if bool_decide (c = sep) then Some (EmptyString, s')
      else match split_first sep s' with Some (p, q) => Some (String c p, q) | None => None end
  end.

Definition before (sep : ascii) (s : string) : string := match split_first sep s with Some (p, _) => p | None => s end.

(** [str::split_once] with a string, and [str::split(sep).next()] *)
Fixpoint split_str (sep s : string) : option (string * string) :=
  if starts_with s sep then Some (EmptyString, str_drop (String.length sep) s)
  else match s with
       | EmptyString => None
       | String c s' => match split_str sep s' with Some (p, q) => Some (String c p, q) | None => None end
       end.

Definition before_str (sep s : string) : string := match split_str sep s with Some (p, _) => p | None => s end.

(** [str::split] with several characters, the first piece *)
Fixpoint until (stop : ascii → bool) (s : string) : string :=
  match s with
  | EmptyString => EmptyString
  | String c s' => if stop c then EmptyString else String c (until stop s')
  end.

(** [str::split(c)]: the pieces between the occurrences of [c]. *)
Fixpoint pieces (sep : ascii) (s : string) : list string :=
  match s with
  | EmptyString => [EmptyString]
  | String c s' =>
      if bool_decide (c = sep) then EmptyString :: pieces sep s'
      else match pieces sep s' with p :: ps => String c p :: ps | [] => [String c EmptyString] end
  end.

(** The white space character a string begins with *)
Definition leading_space (s : string) : option string := find_first (λ p, starts_with s p) whitespace.

(** [str::split_once(char::is_whitespace)] *)
Fixpoint split_once_ws (s : string) : option (string * string) :=
  match leading_space s with
  | Some p => Some (EmptyString, str_drop (String.length p) s)
  | None => match s with
            | EmptyString => None
            | String c s' => match split_once_ws s' with Some (p, q) => Some (String c p, q) | None => None end
            end
  end.

(** * At the last occurrence *)

(** [str::rsplit_once(char::is_whitespace)] *)
Fixpoint rsplit_once_ws (s : string) : option (string * string) :=
  match s with
  | EmptyString => None
  | String c s' =>
      match rsplit_once_ws s' with
      | Some (p, q) => Some (String c p, q)
      | None => match leading_space s with Some p => Some (EmptyString, str_drop (String.length p) s) | None => None end
      end
  end.

(** [str::rsplit(sep).next()] for a [sep] that is not empty: what follows its
    last occurrence. *)
Fixpoint after_last (sep s : string) : option string :=
  match s with
  | EmptyString => None
  | String _ s' =>
      match after_last sep s' with
      | Some r => Some r
      | None => if starts_with s sep then Some (str_drop (String.length sep) s) else None
      end
  end.

Definition last_piece (sep s : string) : string := default s (after_last sep s).

(** * Integers *)

(** [str::parse::<u64>]: an optional plus and digits; [None] past the maximum. *)
Fixpoint u64_digits (acc : Z) (s : string) : option Z :=
  match s with
  | EmptyString => Some acc
  | String c s' =>
      if is_ascii_digit c then
        let v := (10 * acc + (Z.of_N (N_of_ascii c) - 48))%Z in
        if (v <=? u64_max)%Z then u64_digits v s' else None
      else None
  end.

Definition parse_u64 (s : string) : option Z :=
  let ds := match s with String "+" s' => s' | _ => s end in
  match ds with EmptyString => None | _ => u64_digits 0 ds end.

Lemma u64_digits_nonneg s : ∀ acc z, (0 ≤ acc)%Z → u64_digits acc s = Some z → (0 ≤ z ≤ Z.max acc u64_max)%Z.
Proof.
  induction s as [|c s IH]; intros acc z Hacc; cbn [u64_digits]; [intros [= <-]; lia|].
  destruct (is_ascii_digit c) eqn:Hc; [|done]. destruct (Z.leb_spec (10 * acc + (Z.of_N (N_of_ascii c) - 48)) u64_max) as [Hle|]; [|done].
  intros Hz. apply IH in Hz; [lia|]. unfold is_ascii_digit in Hc. apply andb_true_iff in Hc as [Hc%Nat.leb_le _].
  unfold nat_of_ascii in Hc. lia.
Qed.

Lemma parse_u64_range s z : parse_u64 s = Some z → (0 ≤ z ≤ u64_max)%Z.
Proof.
  unfold parse_u64. intros Hz.
  assert (∃ ds, u64_digits 0 ds = Some z) as [ds Hds] by (repeat case_match; try done; eauto).
  apply u64_digits_nonneg in Hds; [|done]. unfold u64_max in *. lia.
Qed.

(** * Prefixes *)

Lemma starts_with_own p r : starts_with (p +:+ r) p = true.
Proof.
  unfold starts_with. induction p as [|c p IH]; [by destruct r|]. rewrite str_app_cons. cbn. by destruct (ascii_dec c c).
Qed.

Lemma starts_with_inv s p : starts_with s p = true → ∃ r, s = p +:+ r.
Proof.
  unfold starts_with. revert s. induction p as [|c p IH]; intros s Hp; [by exists s|].
  destruct s as [|d s]; [done|]. cbn in Hp. destruct (ascii_dec c d) as [->|]; [|done]. destruct (IH s Hp) as [r ->]. by exists r.
Qed.

Lemma starts_with_prefix s t p : starts_with s p = true → starts_with (s +:+ t) p = true.
Proof. intros [r ->]%starts_with_inv. rewrite <- str_app_assoc. apply starts_with_own. Qed.

Lemma str_drop_app p r : str_drop (String.length p) (p +:+ r) = r.
Proof. induction p as [|c p IH]; [done|]. rewrite str_app_cons. apply IH. Qed.

Lemma str_drop_suffix n s : ∃ u, s = u +:+ str_drop n s.
Proof.
  revert s. induction n as [|n IH]; intros s; [by exists EmptyString|]. destruct s as [|c s]; [by exists EmptyString|].
  destruct (IH s) as [u Hu]. exists (String c u). cbn [str_drop]. by rewrite str_app_cons, <- Hu.
Qed.

Lemma str_length_app s t : String.length (s +:+ t) = (String.length s + String.length t)%nat.
Proof. induction s as [|c s IH]; [done|]. rewrite str_app_cons. cbn. by rewrite IH. Qed.

Lemma str_length_rev s : String.length (str_rev s) = String.length s.
Proof. induction s as [|c s IH]; [done|]. rewrite str_rev_cons, str_length_app, IH. cbn. lia. Qed.

(** * Trimming *)

(** No pattern begins the string. *)
Definition clear_of (ps : list string) (s : string) : Prop := Forall (λ p, starts_with s p = false) ps.

Lemma find_prefix_None ps s : find_first (λ p, starts_with s p) ps = None ↔ clear_of ps s.
Proof.
  unfold clear_of, find_first. induction ps as [|p ps IH]; cbn; [by split; [constructor|]|].
  rewrite Forall_cons. destruct (starts_with s p); [split; [done|by intros [? _]]|]. rewrite IH. tauto.
Qed.

Lemma trim_with_clear ps n s : clear_of ps s → trim_with ps n s = s.
Proof. intros Hs%find_prefix_None. destruct n; cbn [trim_with]; [done|]. by rewrite Hs. Qed.

Lemma trim_with_suffix ps n s : ∃ u, s = u +:+ trim_with ps n s.
Proof.
  revert s. induction n as [|n IH]; intros s; cbn [trim_with]; [by exists EmptyString|].
  destruct (find_first _ ps) as [p|]; [|by exists EmptyString]. destruct (str_drop_suffix (String.length p) s) as [u Hu].
  destruct (IH (str_drop (String.length p) s)) as [v Hv]. exists (u +:+ v). by rewrite <- str_app_assoc, <- Hv.
Qed.

Lemma trim_with_trimmed ps n s : Forall (λ p, p ≠ EmptyString) ps → (String.length s ≤ n)%nat → clear_of ps (trim_with ps n s).
Proof.
  intros Hps. revert s. induction n as [|n IH]; intros s Hn; cbn [trim_with].
  - destruct s; [|cbn in Hn; lia]. eapply Forall_impl; [done|]. by intros [].
  - destruct (find_first _ ps) as [p|] eqn:Hf; [|by apply find_prefix_None]. apply IH.
    apply find_some in Hf as [Hin [r ->]%starts_with_inv]. rewrite str_drop_app. rewrite str_length_app in Hn.
    rewrite Forall_forall in Hps. destruct p; [exfalso; eapply (Hps EmptyString); [by apply list_elem_of_In|done]|]. cbn in Hn. lia.
Qed.

Lemma whitespace_nonempty : Forall (λ p, p ≠ EmptyString) whitespace ∧ Forall (λ p, p ≠ EmptyString) (map str_rev whitespace).
Proof. split; repeat constructor; discriminate. Qed.

Lemma trim_clear s : clear_of whitespace s → clear_of (map str_rev whitespace) (str_rev s) → trim s = s.
Proof. intros Hs Hr. unfold trim, trim_end, trim_start. by rewrite (trim_with_clear _ _ s), trim_with_clear, str_rev_involutive. Qed.

(** What trimming leaves is a part of the string, and is trimmed. *)
Lemma trim_part s : ∃ u v, s = u +:+ trim s +:+ v.
Proof.
  unfold trim, trim_end. destruct (trim_with_suffix whitespace (String.length s) s) as [u Hu]. fold (trim_start s) in Hu.
  destruct (trim_with_suffix (map str_rev whitespace) (String.length (trim_start s)) (str_rev (trim_start s))) as [v Hv].
  exists u, (str_rev v). rewrite Hu at 1. f_equal. by rewrite <- str_rev_app, <- Hv, str_rev_involutive.
Qed.

Lemma trim_idempotent s : trim (trim s) = trim s.
Proof.
  assert (Ht : clear_of whitespace (trim_start s)) by (apply trim_with_trimmed; [apply whitespace_nonempty|done]).
  apply trim_clear; unfold trim, trim_end.
  - eapply Forall_impl; [done|]. intros p Hp.
    destruct (trim_with_suffix (map str_rev whitespace) (String.length (trim_start s)) (str_rev (trim_start s))) as [v Hv].
    apply (f_equal str_rev) in Hv. rewrite str_rev_involutive, str_rev_app in Hv. rewrite Hv in Hp.
    destruct (starts_with (str_rev (trim_with _ _ _)) p) eqn:E; [|done]. by rewrite (starts_with_prefix _ _ _ E) in Hp.
  - rewrite str_rev_involutive. apply trim_with_trimmed; [apply whitespace_nonempty|]. by rewrite str_length_rev.
Qed.

(** * Solid ends: printable ASCII other than the space *)

Definition solid (c : ascii) : bool := (33 <=? nat_of_ascii c)%nat && (nat_of_ascii c <=? 126)%nat.
Definition solid_start (s : string) : bool := match s with String c _ => solid c | EmptyString => false end.

Lemma solid_clear ps s : solid_start s = true → forallb (λ p, negb (solid_start p) && negb (String.eqb p EmptyString)) ps = true →
  clear_of ps s.
Proof.
  intros Hs Hps. apply Forall_forall. intros p Hp. destruct (starts_with s p) eqn:E; [|done]. apply starts_with_inv in E as [r ->].
  eapply forallb_forall in Hps; [|by apply list_elem_of_In]. destruct p as [|c p]; [done|].
  rewrite str_app_cons in Hs. cbn in Hs, Hps. by rewrite Hs in Hps.
Qed.

Lemma solid_clear_ws s : solid_start s = true → clear_of whitespace s.
Proof. intros Hs. by apply solid_clear. Qed.

Lemma trim_solid s : solid_start s = true → solid_start (str_rev s) = true → trim s = s.
Proof. intros Hs Hr. apply trim_clear; by apply solid_clear. Qed.

Lemma trim_start_solid s : solid_start s = true → trim_start s = s.
Proof. intros Hs. by apply trim_with_clear, solid_clear_ws. Qed.

Lemma leading_space_space s : leading_space (String " " s) = Some " ".
Proof. by destruct s. Qed.

Lemma trim_space s : trim (String " " s) = trim s.
Proof. by destruct s. Qed.

Lemma leading_space_solid s : solid_start s = true → leading_space s = None.
Proof. intros Hs. by apply find_prefix_None, solid_clear_ws. Qed.

Lemma solid_start_app s t : solid_start s = true → solid_start (s +:+ t) = true.
Proof. by destruct s. Qed.

Lemma solid_end_app s t : solid_start (str_rev t) = true → solid_start (str_rev (s +:+ t)) = true.
Proof. intros Ht. rewrite str_rev_app. by apply solid_start_app. Qed.

Lemma all_solid_start s : s ≠ EmptyString → all_bytes solid s = true → solid_start s = true ∧ solid_start (str_rev s) = true.
Proof.
  intros Hs Ha. split; [by destruct s; [|apply andb_prop in Ha as [? _]]|]. rewrite <- all_bytes_rev in Ha.
  assert (str_rev s ≠ EmptyString) by (intros E; apply Hs; by rewrite <- (str_rev_involutive s), E).
  by destruct (str_rev s); [|apply andb_prop in Ha as [? _]].
Qed.

(** * Cutting what was put together *)

Lemma all_bytes_impl (p q : ascii → bool) s : (∀ c, p c = true → q c = true) → all_bytes p s = true → all_bytes q s = true.
Proof. intros Hpq. induction s as [|c s IH]; [done|]. cbn. intros [Hc Hs]%andb_prop. by rewrite (Hpq c Hc), IH. Qed.

Definition differs (d c : ascii) : bool := negb (bool_decide (c = d)).

Lemma split_str_app d sep s r : all_bytes (differs d) s = true → split_str (String d sep) (s +:+ String d sep +:+ r) = Some (s, r).
Proof.
  induction s as [|c s IH].
  - intros _. rewrite str_app_nil_l. pose proof (starts_with_own (String d sep) r) as H. pose proof (str_drop_app (String d sep) r) as H'.
    destruct (String d sep +:+ r) eqn:E; [done|]. unfold split_str. by rewrite H, H'.
  - cbn [all_bytes]. intros [Hc Hs]%andb_prop. rewrite str_app_cons. unfold differs in Hc. case_bool_decide; [done|].
    cbn [split_str]. unfold starts_with. cbn [String.prefix]. destruct (ascii_dec d c); [congruence|]. by rewrite IH.
Qed.

Lemma split_str_absent d sep s : all_bytes (differs d) s = true → split_str (String d sep) s = None.
Proof.
  induction s as [|c s IH]; [done|]. cbn [all_bytes]. intros [Hc Hs]%andb_prop. unfold differs in Hc. case_bool_decide; [done|].
  cbn [split_str]. unfold starts_with. cbn [String.prefix]. destruct (ascii_dec d c); [congruence|]. by rewrite IH.
Qed.

Lemma before_str_app d sep s r : all_bytes (differs d) s = true → before_str (String d sep) (s +:+ String d sep +:+ r) = s.
Proof. intros Hs. unfold before_str. by rewrite split_str_app. Qed.

Lemma before_str_absent d sep s : all_bytes (differs d) s = true → before_str (String d sep) s = s.
Proof. intros Hs. unfold before_str. by rewrite split_str_absent. Qed.

Lemma split_once_ws_solid s r : all_bytes solid s = true → split_once_ws (s +:+ String " " r) = Some (s, r).
Proof.
  induction s as [|c s IH].
  { intros _. rewrite str_app_nil_l. cbn [split_once_ws]. rewrite leading_space_space. by destruct r. }
  cbn [all_bytes]. intros [Hc Hs]%andb_prop. rewrite str_app_cons. cbn [split_once_ws].
  rewrite leading_space_solid by done. by rewrite IH.
Qed.

Lemma rsplit_once_ws_app s t p q : rsplit_once_ws t = Some (p, q) → rsplit_once_ws (s +:+ t) = Some (s +:+ p, q).
Proof. intros Ht. induction s as [|c s IH]; [done|]. rewrite !str_app_cons. cbn [rsplit_once_ws]. by rewrite IH. Qed.

(** The strings with a separator between them *)
Fixpoint interleaved (sep : ascii) (s : string) (ss : list string) : string :=
  match ss with [] => s | t :: ss => s +:+ String sep (interleaved sep t ss) end.

Lemma pieces_cons sep s : ∃ p ps, pieces sep s = p :: ps.
Proof. destruct s as [|c s]; cbn; [eauto|]. case_bool_decide; [eauto|]. destruct (pieces sep s); eauto. Qed.

Lemma pieces_absent sep s : all_bytes (differs sep) s = true → pieces sep s = [s].
Proof.
  induction s as [|c s IH]; [done|]. cbn. intros [Hc Hs]%andb_prop. unfold differs in Hc. case_bool_decide; [done|]. by rewrite IH.
Qed.

Lemma pieces_join sep s ss : all_bytes (differs sep) s = true → Forall (λ t, all_bytes (differs sep) t = true) ss →
  pieces sep (interleaved sep s ss) = s :: ss.
Proof.
  intros Hs Hss. revert s Hs. induction Hss as [|t ss Ht _ IH]; intros s Hs; [by apply pieces_absent|]. cbn [interleaved].
  induction s as [|c s IHs].
  - rewrite str_app_nil_l. cbn [pieces]. rewrite bool_decide_true by done. by rewrite IH.
  - cbn in Hs. apply andb_prop in Hs as [Hc Hs]. unfold differs in Hc. rewrite str_app_cons. cbn [pieces]. case_bool_decide; [done|].
    by rewrite IHs.
Qed.

(** * Numerals *)

Lemma pretty_go_digits x : ∀ s, all_bytes is_ascii_digit s = true → all_bytes is_ascii_digit (pretty_N_go x s) = true.
Proof.
  induction (N.lt_wf_0 x) as [x _ IH]. intros s Hs. destruct (decide (0 < x)%N) as [Hx|Hx].
  - rewrite pretty_N_go_step by done. apply IH; [by apply N.div_lt|]. cbn. rewrite Hs, andb_true_r.
    unfold pretty_N_char. by repeat case_match.
  - replace x with 0%N by lia. done.
Qed.

Lemma pretty_N_digits (n : N) : all_bytes is_ascii_digit (pretty n) = true ∧ pretty n ≠ EmptyString.
Proof.
  unfold pretty, pretty_N. case_decide as Hn; [done|]. split; [by apply pretty_go_digits|].
  intros E. apply (f_equal String.length) in E. rewrite pretty_N_go_step in E by lia.
  assert (∀ x s, String.length s ≤ String.length (pretty_N_go x s))%nat as Hlen; [|by specialize (Hlen (n / 10)%N
    (String (pretty_N_char (n `mod` 10)%N) EmptyString)); cbn in Hlen, E; lia].
  clear. intros x. induction (N.lt_wf_0 x) as [x _ IH]. intros s. destruct (decide (0 < x)%N) as [Hx|Hx].
  - rewrite pretty_N_go_step by done. etrans; [|apply IH, N.div_lt; [done|lia]]. cbn. lia.
  - replace x with 0%N by lia. done.
Qed.

Lemma pretty_digits (i : nat) : all_bytes is_ascii_digit (pretty i) = true ∧ pretty i ≠ EmptyString.
Proof. exact (pretty_N_digits (N.of_nat i)). Qed.

Lemma digit_solid c : is_ascii_digit c = true → solid c = true.
Proof. unfold is_ascii_digit, solid. rewrite !andb_true_iff, !Nat.leb_le. lia. Qed.

(** Reading a printed number *)
Lemma pretty_N_char_digit d : (d < 10)%N → is_ascii_digit (pretty_N_char d) = true ∧ N_of_ascii (pretty_N_char d) = (48 + d)%N.
Proof. intros Hd. destruct d as [|p]; [done|]. do 4 (try destruct p as [p|p|]); done || lia. Qed.

Lemma u64_digits_pretty_go n : (Z.of_N n ≤ u64_max)%Z → ∀ s, u64_digits 0 (pretty_N_go n s) = u64_digits (Z.of_N n) s.
Proof.
  induction (N.lt_wf_0 n) as [n _ IH]. intros Hn s. destruct (decide (0 < n)%N) as [Hx|Hx]; [|by replace n with 0%N by lia].
  pose proof (N.div_mod n 10 ltac:(done)) as Hdm. pose proof (N.mod_lt n 10 ltac:(done)) as Hm.
  rewrite pretty_N_go_step by done. assert (n / 10 ≤ n)%N by (apply N.Div0.div_le_upper_bound; lia).
  rewrite IH; [|by apply N.div_lt|lia]. cbn [u64_digits].
  destruct (pretty_N_char_digit _ Hm) as [-> ->].
  replace (10 * Z.of_N (n / 10) + (Z.of_N (48 + n `mod` 10) - 48))%Z with (Z.of_N n) by lia.
  by rewrite (proj2 (Z.leb_le _ _)) by done.
Qed.

Lemma parse_u64_digits s : all_bytes is_ascii_digit s = true → s ≠ EmptyString → parse_u64 s = u64_digits 0 s.
Proof.
  unfold parse_u64. destruct s as [|c s]; [done|]. cbn [all_bytes]. intros [Hc _]%andb_prop _.
  by destruct c as [[] [] [] [] [] [] [] []].
Qed.

Lemma parse_u64_pretty n : (Z.of_N n ≤ u64_max)%Z → parse_u64 (pretty n) = Some (Z.of_N n).
Proof.
  intros Hn. rewrite parse_u64_digits by apply pretty_N_digits. unfold pretty, pretty_N. case_decide as H0; [by subst|].
  by rewrite u64_digits_pretty_go.
Qed.

(** Characters that a number does not have *)
Lemma digits_differ d s : is_ascii_digit d = false → all_bytes is_ascii_digit s = true → all_bytes (differs d) s = true.
Proof. intros Hd. apply all_bytes_impl. intros c Hc. unfold differs. case_bool_decide; [|done]. subst. by rewrite Hd in Hc. Qed.

Lemma split_first_app d s r : all_bytes (differs d) s = true → split_first d (s +:+ String d r) = Some (s, r).
Proof.
  induction s as [|c s IH]; [intros _; rewrite str_app_nil_l; cbn; by rewrite bool_decide_true|].
  rewrite str_app_cons. cbn [split_first all_bytes]. intros [Hc Hs]%andb_prop. unfold differs in Hc. case_bool_decide; [done|]. by rewrite IH.
Qed.

Lemma split_first_absent d s : all_bytes (differs d) s = true → split_first d s = None.
Proof.
  induction s as [|c s IH]; [done|]. cbn. intros [Hc Hs]%andb_prop. unfold differs in Hc. case_bool_decide; [done|]. by rewrite IH.
Qed.

Lemma before_app d s r : all_bytes (differs d) s = true → before d (s +:+ String d r) = s.
Proof. intros Hs. unfold before. by rewrite split_first_app. Qed.

Lemma before_absent d s : all_bytes (differs d) s = true → before d s = s.
Proof. intros Hs. unfold before. by rewrite split_first_absent. Qed.
