(* ===== verification/CsmRole.v ===== *)
(** [src/csm/role.rs]: roles, message media, labels, channels, actions, and
    the visibly-pushdown stack actions. *)

From stdpp Require Import base strings list gmap countable.
From S2P Require Import Prelude BTree Vocab.

(** A protocol participant: a newtype over [String]. *)
Record Role := mkRole { role_str : string }.

(** [impl From<&str> for Role] *)
Coercion mkRole : string >-> Role.

#[global] Instance Role_ord : RustOrd Role.
Proof. apply (newtype_ord role_str). by intros [x] [y] [= ->]. Defined.
#[global] Instance Role_eq_dec : EqDecision Role.
Proof. solve_decision. Defined.
#[global] Instance Role_countable : Countable Role.
Proof. by apply (inj_countable' role_str mkRole); intros []. Defined.

(** The medium a message travels over. *)
Inductive MessageMedium :=
| Text
| Latent (hidden_size : nat) (backbone_sig : string).

#[global] Instance MessageMedium_eq_dec : EqDecision MessageMedium.
Proof. solve_decision. Defined.

Definition is_latent (m : MessageMedium) : bool :=
  match m with Latent _ _ => true | Text => false end.

(** A typed message label; [name] is the selector. *)
Record Label := mkLabel { name : string; medium : MessageMedium }.

#[global] Instance Label_eq_dec : EqDecision Label.
Proof. solve_decision. Defined.

Definition label_text (n : string) : Label := {| name := n; medium := Text |}.

Definition label_latent (n : string) (hidden_size : nat) (backbone_sig : string) : Label :=
  {| name := n; medium := Latent hidden_size backbone_sig |}.

Definition label_is_latent (l : Label) : bool := is_latent (medium l).

(** A directed FIFO channel between two roles. *)
Record Channel := mkChannel { ch_from : Role; ch_to : Role }.

#[global] Instance Channel_ord : RustOrd Channel.
Proof.
  apply (newtype_ord (fun c => (ch_from c, ch_to c))). by intros [x y] [x' y'] [= -> ->].
Defined.
#[global] Instance Channel_eq_dec : EqDecision Channel.
Proof. solve_decision. Defined.

(** A communication action from the viewpoint of one role's machine. *)
Inductive Action :=
| ASend (to : Role) (label : Label)
| ARecv (from : Role) (label : Label).

#[global] Instance Action_eq_dec : EqDecision Action.
Proof. solve_decision. Defined.

Definition action_label (a : Action) : Label :=
  match a with ASend _ l => l | ARecv _ l => l end.

Definition action_peer (a : Action) : Role :=
  match a with ASend to _ => to | ARecv from _ => from end.

(** The stack action a protocol symbol triggers. *)
Inductive StackAction := Neutral | Push | Pop.

#[global] Instance StackAction_eq_dec : EqDecision StackAction.
Proof. solve_decision. Defined.

Definition StackAction_ALL : list StackAction := [Neutral; Push; Pop].

Definition StackAction_as_str (a : StackAction) : string :=
  match a with Neutral => "neutral" | Push => "push" | Pop => "pop" end.

#[global] Instance StackAction_vocab : Vocab StackAction.
Proof.
  refine {| vocab_all := StackAction_ALL; as_str := StackAction_as_str |}; solve_vocab.
Defined.

(** Hints for the protocol-type components. *)
Create HintDb csm.

(** The maximum pushdown stack depth. *)
Definition MAX_STACK_DEPTH : nat := 4096.
