(* ===== verification/CsmGlobal.v ===== *)
(** [src/csm/mpst/global.rs]: global protocol types, the environment of named
    sub-protocols, the traversals that collect roles, communications and the
    visibly-pushdown alphabet, and sequential composition [then]. *)

From stdpp Require Import base strings list gmap.
From S2P Require Import Prelude BTree CsmRole.

(** A recursion variable name. *)
Definition TypeVar : Type := string.

(** A reference to a named sub-protocol. *)
Record ProtocolRef := mkProtocolRef { ref_name : string }.

#[global] Instance ProtocolRef_eq_dec : EqDecision ProtocolRef.
Proof. solve_decision. Defined.

(** A global protocol type.  [GInteraction], [GChoice], [GRec], [GVar] and
    [GEnd] are the source's [Interaction], [Choice], [Rec], [Var] and [End]. *)
Inductive GlobalType :=
| GInteraction (from to : Role) (label : Label) (cont : GlobalType)
| GChoice (from to : Role) (branches : list GlobalBranch)
| GRec (var : TypeVar) (body : GlobalType)
| GVar (var : TypeVar)
| GlobalCall (callee : ProtocolRef) (subst : BTreeMap Role Role) (cont : GlobalType)
| GlobalBox (enter : Label) (body : GlobalType) (exit : Label) (cont : GlobalType)
| GEnd
with GlobalBranch :=
| mkGlobalBranch (label : Label) (cont : GlobalType).

Definition gb_label (b : GlobalBranch) : Label := let 'mkGlobalBranch l _ := b in l.
Definition gb_cont (b : GlobalBranch) : GlobalType := let 'mkGlobalBranch _ k := b in k.

(** Structural induction through the branch lists. *)
Lemma GlobalType_rect_branches (P : GlobalType → Prop)
    (Hint : ∀ from to l k, P k → P (GInteraction from to l k))
    (Hcho : ∀ from to bs, Forall (fun b => P (gb_cont b)) bs → P (GChoice from to bs))
    (Hrec : ∀ v body, P body → P (GRec v body))
    (Hvar : ∀ v, P (GVar v))
    (Hcall : ∀ c s k, P k → P (GlobalCall c s k))
    (Hbox : ∀ en body ex k, P body → P k → P (GlobalBox en body ex k))
    (Hend : P GEnd) : ∀ g, P g.
Proof.
  fix IH 1. intros [from to l k|from to bs|v body|v|c s k|en body ex k|].
  - apply Hint, IH.
  - apply Hcho. induction bs as [|[l k] bs IHbs]; constructor; [apply IH|done].
  - apply Hrec, IH.
  - apply Hvar.
  - apply Hcall, IH.
  - apply Hbox; apply IH.
  - apply Hend.
Qed.

(** * The environment of named sub-protocols *)
Record ProtocolEnv := mkProtocolEnv { protocols : BTreeMap string GlobalType }.

Definition penv_new : ProtocolEnv := {| protocols := [] |}.

Definition penv_insert (env : ProtocolEnv) (n : string) (g : GlobalType) : ProtocolEnv :=
  {| protocols := bm_insert (protocols env) n g |}.

Definition penv_resolve (env : ProtocolEnv) (r : ProtocolRef) : option GlobalType :=
  bm_get (protocols env) (ref_name r).

(** * Traversals *)

(** [collect_roles] inserts into the accumulator; [participants] starts it
    from the empty set. *)
Fixpoint collect_roles (g : GlobalType) (acc : BTreeSet Role) : BTreeSet Role :=
  match g with
  | GInteraction from to _ cont =>
      collect_roles cont (bs_insert (bs_insert acc from) to)
  | GChoice from to branches =>
      foldl (fun acc b => collect_roles (gb_cont b) acc)
            (bs_insert (bs_insert acc from) to) branches
  | GRec _ body => collect_roles body acc
  | GlobalCall _ subst cont =>
      collect_roles cont (foldl bs_insert acc (bm_values subst))
  | GlobalBox _ body _ cont => collect_roles cont (collect_roles body acc)
  | GVar _ | GEnd => acc
  end.

Definition participants (g : GlobalType) : BTreeSet Role := collect_roles g [].

(** Every communication [(from, to, label)] the protocol can emit, in the
    order of the traversal. *)
Fixpoint communications (g : GlobalType) : list (string * string * string) :=
  match g with
  | GInteraction from to label cont =>
      (role_str from, role_str to, name label) :: communications cont
  | GChoice from to branches =>
      flat_map (fun b => (role_str from, role_str to, name (gb_label b))
                         :: communications (gb_cont b)) branches
  | GRec _ body => communications body
  | GlobalCall _ _ cont => communications cont
  | GlobalBox _ body _ cont => communications body ++ communications cont
  | GVar _ | GEnd => []
  end.

(** The visibly-pushdown alphabet. *)
Fixpoint alphabet (g : GlobalType) : list (string * StackAction) :=
  match g with
  | GInteraction _ _ label cont => (name label, Neutral) :: alphabet cont
  | GChoice _ _ branches =>
      flat_map (fun b => (name (gb_label b), Neutral) :: alphabet (gb_cont b)) branches
  | GRec _ body => alphabet body
  | GlobalCall callee _ cont =>
      (("call:" +:+ ref_name callee)%string, Push)
      :: (("ret:" +:+ ref_name callee)%string, Pop) :: alphabet cont
  | GlobalBox enter body exit cont =>
      (name enter, Push) :: alphabet body ++ (name exit, Pop) :: alphabet cont
  | GVar _ | GEnd => []
  end.

(** Sequential composition [self.then(cont)]. *)
Fixpoint gthen (g cont : GlobalType) : GlobalType :=
  match g with
  | GEnd => cont
  | GInteraction from to label k => GInteraction from to label (gthen k cont)
  | GChoice from to branches =>
      GChoice from to
        (map (fun b => mkGlobalBranch (gb_label b) (gthen (gb_cont b) cont)) branches)
  | GRec var body => GRec var (gthen body cont)
  | GVar var => GVar var
  | GlobalCall callee subst k => GlobalCall callee subst (gthen k cont)
  | GlobalBox enter body exit k => GlobalBox enter body exit (gthen k cont)
  end.

(** * Facts about the traversals *)

(** A role occurs in a protocol. *)
Inductive occurs (r : Role) : GlobalType → Prop :=
| occ_from to l k : occurs r (GInteraction r to l k)
| occ_to from l k : occurs r (GInteraction from r l k)
| occ_cont from to l k : occurs r k → occurs r (GInteraction from to l k)
| occ_cfrom to bs : occurs r (GChoice r to bs)
| occ_cto from bs : occurs r (GChoice from r bs)
| occ_branch from to bs b : b ∈ bs → occurs r (gb_cont b) → occurs r (GChoice from to bs)
| occ_rec v body : occurs r body → occurs r (GRec v body)
| occ_subst c s k : r ∈ bm_values s → occurs r (GlobalCall c s k)
| occ_call c s k : occurs r k → occurs r (GlobalCall c s k)
| occ_body en body ex k : occurs r body → occurs r (GlobalBox en body ex k)
| occ_box en body ex k : occurs r k → occurs r (GlobalBox en body ex k).

#[export] Hint Constructors occurs : csm.

Lemma foldl_bs_insert_elem {K} `{RustOrd K} (xs : list K) acc x :
  x ∈ foldl bs_insert acc xs ↔ x ∈ acc ∨ x ∈ xs.
Proof.
  revert acc. induction xs as [|y xs IH]; intros acc; simpl; [set_solver|].
  rewrite IH, bs_insert_elem, elem_of_cons. naive_solver.
Qed.

Lemma foldl_bs_insert_ok {K} `{RustOrd K} (xs : list K) acc :
  bs_ok acc → bs_ok (foldl bs_insert acc xs).
Proof. revert acc. induction xs; simpl; auto. Qed.

Lemma collect_roles_elem g : ∀ acc r,
  r ∈ collect_roles g acc ↔ r ∈ acc ∨ occurs r g.
Proof.
  induction g as [from to l k IH|from to bs IH|v body IH|v|c s k IH|en body ex k IHb IHk|]
    using GlobalType_rect_branches; intros acc r; simpl.
  - rewrite IH, !bs_insert_elem. split; [naive_solver eauto with csm|].
    intros [?|Ho]; [auto|]. inversion Ho; subst; auto.
  - assert (Hf : ∀ acc, r ∈ foldl (fun acc b => collect_roles (gb_cont b) acc) acc bs ↔
        r ∈ acc ∨ ∃ b, b ∈ bs ∧ occurs r (gb_cont b)).
    { induction IH as [|b bs Hb Hbs IHbs]; intros acc'; simpl.
      - split; [auto|]. intros [?|(b & Hb & _)]; [done|]. by apply elem_of_nil in Hb.
      - rewrite IHbs, Hb. setoid_rewrite elem_of_cons. naive_solver. }
    rewrite Hf, !bs_insert_elem. split.
    + intros [[->|[->|?]]|(b & ? & ?)]; eauto with csm.
    + intros [?|Ho]; [auto|]. inversion Ho; subst; eauto 6.
  - rewrite IH. split; intros [?|Ho]; auto with csm. inversion Ho; auto.
  - split; [auto|]. intros [?|Ho]; [done|]. inversion Ho.
  - rewrite IH, foldl_bs_insert_elem. split; [naive_solver eauto with csm|].
    intros [?|Ho]; [auto|]. inversion Ho; auto.
  - rewrite IHk, IHb. split; [naive_solver eauto with csm|].
    intros [?|Ho]; [auto|]. inversion Ho; auto.
  - split; [auto|]. intros [?|Ho]; [done|]. inversion Ho.
Qed.

Lemma collect_roles_ok g : ∀ acc, bs_ok acc → bs_ok (collect_roles g acc).
Proof.
  induction g as [from to l k IH|from to bs IH|v body IH|v|c s k IH|en body ex k IHb IHk|]
    using GlobalType_rect_branches; intros acc Hok; simpl; auto using foldl_bs_insert_ok.
  assert (Hf : ∀ acc, bs_ok acc →
    bs_ok (foldl (fun acc b => collect_roles (gb_cont b) acc) acc bs)); [|auto].
  induction IH; simpl; auto.
Qed.

Lemma participants_elem g r : r ∈ participants g ↔ occurs r g.
Proof.
  unfold participants. rewrite collect_roles_elem.
  split; [|auto]. intros [Hn|?]; [by apply elem_of_nil in Hn|done].
Qed.

Lemma participants_ok g : bs_ok (participants g).
Proof. apply collect_roles_ok. constructor. Qed.

Lemma participants_NoDup g : NoDup (participants g).
Proof. apply bs_ok_NoDup, participants_ok. Qed.

(** ** [then] is a monoid with unit [GEnd] *)

Lemma gthen_branches_ext (f : GlobalType → GlobalType) bs :
  Forall (fun b => f (gb_cont b) = gb_cont b) bs →
  map (fun b => mkGlobalBranch (gb_label b) (f (gb_cont b))) bs = bs.
Proof. induction 1 as [|[l k] bs Hb Hbs IH]; simpl in *; congruence. Qed.

Lemma gthen_end_r g : gthen g GEnd = g.
Proof.
  induction g using GlobalType_rect_branches; simpl; try congruence.
  f_equal. by apply (gthen_branches_ext (fun k => gthen k GEnd)).
Qed.

Lemma gthen_assoc g p q : gthen (gthen g p) q = gthen g (gthen p q).
Proof.
  induction g as [| from to bs IH | | | | |] using GlobalType_rect_branches;
    simpl; try congruence.
  f_equal. rewrite map_map. apply map_ext_Forall. simpl.
  eapply Forall_impl; [exact IH|]. simpl. intros b ->. done.
Qed.
