(* ===== verification/CsmWellformed.v ===== *)
(** [src/csm/mpst/wellformed.rs]: the well-formedness checks of a global type
    and their declarative reading. *)

From stdpp Require Import base strings list gmap pretty.
From S2P Require Import Prelude BTree CsmRole CsmGlobal.

(** Why a global type is not well-formed. *)
Inductive WfError :=
| SelfMessage (role : Role)
| UnboundVar (var : TypeVar)
| UnguardedRec (var : TypeVar)
| EmptyChoice (from to : Role)
| DuplicateChoiceLabel (label : string)
| UnknownCallee (name : string)
| MalformedBox (reason : string)
| NonInjectiveSubst (role : string)
| VpaSymbolConflict (label : string)
| ReservedBoundaryLabel (label : string)
| StackBoundExceeded (depth : nat).

#[global] Instance WfError_eq_dec : EqDecision WfError.
Proof. solve_decision. Defined.

(** [for x in xs { if !seen.insert(x) { return Err(x) } }]: the first value
    that was already seen. *)
Fixpoint first_duplicate (seen : BTreeSet string) (xs : list string) : option string :=
  match xs with
  | [] => None
  | x :: xs' =>
      if bs_contains seen x then Some x else first_duplicate (bs_insert seen x) xs'
  end.

(** [true] iff [var] does not occur at the head of [body] without a prefix. *)
Fixpoint guarded (body : GlobalType) (var : TypeVar) : bool :=
  match body with
  | GVar v => bool_decide (v ≠ var)
  | GInteraction _ _ _ _ | GChoice _ _ _ | GlobalCall _ _ _ | GlobalBox _ _ _ _ | GEnd => true
  | GRec inner body => if decide (inner = var) then true else guarded body var
  end.

(** [true] iff some execution path reaches [End]. *)
Fixpoint can_terminate (g : GlobalType) : bool :=
  match g with
  | GEnd => true
  | GVar _ => false
  | GInteraction _ _ _ cont => can_terminate cont
  | GChoice _ _ branches => existsb (fun b => can_terminate (gb_cont b)) branches
  | GRec _ body => can_terminate body
  | GlobalCall _ _ cont => can_terminate cont
  | GlobalBox _ _ _ cont => can_terminate cont
  end.

(** The structural pass.  [bound] is the binder stack; Rust pushes and pops it
    around the recursive call. *)
Fixpoint check (g : GlobalType) (bound : list TypeVar) : outcome WfError unit :=
  match g with
  | GInteraction from to _ cont =>
      if decide (from = to) then Err (SelfMessage from) else check cont bound
  | GChoice from to branches =>
      if decide (from = to) then Err (SelfMessage from)
      else match branches with
      | [] => Err (EmptyChoice from to)
      | _ :: _ =>
          match first_duplicate [] (map (fun b => name (gb_label b)) branches) with
          | Some l => Err (DuplicateChoiceLabel l)
          | None => oforM (fun b => check (gb_cont b) bound) branches
          end
      end
  | GRec var body =>
      if guarded body var then check body (bound ++ [var]) else Err (UnguardedRec var)
  | GVar var => if decide (var ∈ bound) then Ok tt else Err (UnboundVar var)
  | GlobalCall _ subst cont =>
      match subst with
      | [] => Err (NonInjectiveSubst "<empty substitution>")
      | _ :: _ =>
          match first_duplicate [] (map role_str (bm_values subst)) with
          | Some r => Err (NonInjectiveSubst r)
          | None => check cont bound
          end
      end
  | GlobalBox enter body exit cont =>
      if decide (name enter = "" ∨ name exit = "")
      then Err (MalformedBox "empty enter/exit boundary label")
      else if can_terminate body
      then let* _ := check body [] in check cont bound
      else Err (MalformedBox ("box body '" +:+ name enter +:+
                              "' can never reach End (cannot return)"))
  | GEnd => Ok tt
  end.

(** The visibly-pushdown pass over the alphabet. *)
Fixpoint check_symbols (syms : list (string * StackAction))
    (action_of : BTreeMap string StackAction) : outcome WfError unit :=
  match syms with
  | [] => Ok tt
  | (label, action) :: syms' =>
      if bool_decide (action = Neutral) && (starts_with label "call:" || starts_with label "ret:")
      then Err (ReservedBoundaryLabel label)
      else match bm_get action_of label with
      | Some prev =>
          if decide (prev ≠ action) then Err (VpaSymbolConflict label)
          else check_symbols syms' (bm_insert action_of label action)
      | None => check_symbols syms' (bm_insert action_of label action)
      end
  end.

Definition check_visibility (g : GlobalType) : outcome WfError unit :=
  check_symbols (alphabet g) [].

(** The callee pass.  [visiting] is extended for the walk of a callee's body
    and restored after it, so it is passed down; [fuel] bounds the number of
    nested callee expansions. *)
Fixpoint check_callees (fuel : nat) (env : ProtocolEnv) {struct fuel} :
    GlobalType → BTreeSet string → nat → outcome WfError unit :=
  fix go (g : GlobalType) (visiting : BTreeSet string) (depth : nat) {struct g} :=
    if decide (MAX_STACK_DEPTH < depth) then Err (StackBoundExceeded depth)
    else match g with
    | GInteraction _ _ _ cont => go cont visiting depth
    | GChoice _ _ branches => oforM (fun b => go (gb_cont b) visiting depth) branches
    | GRec _ body => go body visiting depth
    | GlobalBox _ body _ cont =>
        let* _ := go body visiting (S depth) in go cont visiting depth
    | GlobalCall callee _ cont =>
        match penv_resolve env callee with
        | None => Err (UnknownCallee (ref_name callee))
        | Some body =>
            let* _ :=
              if bs_contains visiting (ref_name callee) then Ok tt
              else match fuel with
              | O => OutOfFuel
              | S fuel' =>
                  let* _ := check body [] in
                  let* _ := check_visibility body in
                  check_callees fuel' env body (bs_insert visiting (ref_name callee)) (S depth)
              end
            in go cont visiting depth
        end
    | GVar _ | GEnd => Ok tt
    end.

(** A callee is expanded at most once per path, so the number of protocols of
    the environment is enough fuel. *)
Definition well_formed_in (g : GlobalType) (env : ProtocolEnv) : outcome WfError unit :=
  let* _ := check g [] in
  let* _ := check_visibility g in
  check_callees (length (protocols env)) env g [] 0.

Definition well_formed (g : GlobalType) : outcome WfError unit := well_formed_in g penv_new.

(** [WfError::message] *)
Definition wf_message (e : WfError) : string :=
  match e with
  | SelfMessage role => "self-message: role '" +:+ role_str role +:+ "' cannot send to itself"
  | UnboundVar var => "unbound recursion variable '" +:+ var +:+ "'"
  | UnguardedRec var =>
      "unguarded recursion: 'μ " +:+ var +:+ ". …' exposes '" +:+ var +:+
      "' with no communication prefix"
  | EmptyChoice from to => "empty choice '" +:+ role_str from +:+ " → " +:+ role_str to +:+ " {}'"
  | DuplicateChoiceLabel label => "duplicate choice label '" +:+ label +:+ "'"
  | UnknownCallee n =>
      "call to unknown sub-protocol '" +:+ n +:+ "' (not in the protocol environment)"
  | MalformedBox reason => "malformed box: " +:+ reason
  | NonInjectiveSubst role =>
      "non-injective call substitution: two callee roles map onto caller role '" +:+ role +:+
      "' (a call's role renaming must be injective)"
  | VpaSymbolConflict label =>
      "visibly-pushdown violation: label '" +:+ label +:+
      "' is used with two different stack actions (the symbol must determine push/pop/neutral)"
  | ReservedBoundaryLabel label =>
      "label '" +:+ label +:+ "' uses the reserved 'call:'/'ret:' boundary prefix"
  | StackBoundExceeded depth =>
      "static call nesting " +:+ pretty depth +:+ " exceeds MAX_STACK_DEPTH=" +:+
      pretty MAX_STACK_DEPTH
  end%string.

(** * The declarative reading *)

(** What the structural pass accepts, under the bound variables [Γ]. *)
Inductive wf (Γ : list TypeVar) : GlobalType → Prop :=
| wf_interaction from to l k : from ≠ to → wf Γ k → wf Γ (GInteraction from to l k)
| wf_choice from to bs :
    from ≠ to → bs ≠ [] → NoDup (map (fun b => name (gb_label b)) bs) →
    Forall (fun b => wf Γ (gb_cont b)) bs → wf Γ (GChoice from to bs)
| wf_rec v body : guarded body v = true → wf (Γ ++ [v]) body → wf Γ (GRec v body)
| wf_var v : v ∈ Γ → wf Γ (GVar v)
| wf_call c s k :
    s ≠ [] → NoDup (bm_values s) → wf Γ k → wf Γ (GlobalCall c s k)
| wf_box en body ex k :
    name en ≠ "" → name ex ≠ "" → can_terminate body = true →
    wf [] body → wf Γ k → wf Γ (GlobalBox en body ex k)
| wf_end : wf Γ GEnd.

#[export] Hint Constructors wf : csm.

Lemma first_duplicate_None seen xs :
  first_duplicate seen xs = None ↔ NoDup xs ∧ (∀ x, x ∈ xs → x ∉ seen).
Proof.
  revert seen. induction xs as [|x xs IH]; intros seen; simpl.
  { split; [|done]. intros _. split; [constructor|]. intros x Hx. by apply elem_of_nil in Hx. }
  unfold bs_contains. case_bool_decide as Hin.
  - split; [done|]. intros [_ Hd]. exfalso. by apply (Hd x); [left|].
  - rewrite IH, NoDup_cons. setoid_rewrite bs_insert_elem. setoid_rewrite elem_of_cons.
    naive_solver.
Qed.

Lemma NoDup_map_role_str (rs : list Role) : NoDup (map role_str rs) ↔ NoDup rs.
Proof.
  split; [apply NoDup_fmap_1|]. intros. apply NoDup_fmap_2; [|done].
  by intros [x] [y] [= ->].
Qed.

Lemma check_wf g : ∀ Γ, check g Γ = Ok tt ↔ wf Γ g.
Proof.
  induction g as [from to l k IH|from to bs IH|v body IH|v|c s k IH|en body ex k IHb IHk|]
    using GlobalType_rect_branches; intros Γ; simpl.
  - case_decide as Hd.
    + split; [done|]. intros Hw. inversion Hw; congruence.
    + rewrite IH. split; [auto with csm|]. by inversion 1.
  - case_decide as Hd.
    { split; [done|]. intros Hw. inversion Hw; congruence. }
    destruct bs as [|b bs].
    { split; [done|]. intros Hw. by inversion Hw. }
    destruct (first_duplicate [] _) as [d|] eqn:Ed.
    + split; [done|]. intros Hw. inversion Hw as [|? ? ? ? ? Hnd| | | | |]; subst.
      assert (first_duplicate [] (map (fun b => name (gb_label b)) (b :: bs)) = None) as E.
      { apply first_duplicate_None. split; [done|]. intros ? ? []%elem_of_nil. }
      simpl in E, Ed. congruence.
    + apply first_duplicate_None in Ed as [Hnd _].
      assert (Hall : Forall (fun b => check (gb_cont b) Γ = Ok tt) (b :: bs) ↔
                     Forall (fun b => wf Γ (gb_cont b)) (b :: bs)).
      { rewrite !Forall_forall. rewrite Forall_forall in IH. naive_solver. }
      rewrite <- oforM_Ok in Hall.
      change (oforM (fun b => check (gb_cont b) Γ) (b :: bs) = Ok tt ↔ wf Γ (GChoice from to (b :: bs))).
      rewrite Hall. split; [by constructor|]. by inversion 1.
  - destruct (guarded body v) eqn:Eg.
    + rewrite IH. split; [auto with csm|]. by inversion 1.
    + split; [done|]. inversion 1. congruence.
  - case_decide as Hd; (split; [auto with csm; done|]); [done|]. by inversion 1.
  - destruct s as [|p s]; [split; [done|]; by inversion 1|].
    destruct (first_duplicate [] _) as [d|] eqn:Ed.
    + split; [done|]. intros Hw. inversion Hw as [| | | |? ? ? ? Hnd| |]; subst.
      apply NoDup_map_role_str in Hnd.
      assert (first_duplicate [] (map role_str (bm_values (p :: s))) = None) as E.
      { apply first_duplicate_None. split; [done|]. intros ? ? []%elem_of_nil. }
      simpl in E, Ed. congruence.
    + apply first_duplicate_None in Ed as [Hnd%NoDup_map_role_str _].
      rewrite IH. split; [by constructor|]. by inversion 1.
  - case_decide as Hd.
    + split; [done|]. inversion 1; naive_solver.
    + destruct (can_terminate body) eqn:Et; [|split; [done|]; inversion 1; congruence].
      split.
      * intros H. inv_obind. destruct a. constructor; try tauto; try done; [by apply IHb|by apply IHk].
      * inversion 1; subst. rewrite (proj2 (IHb [])) by done. simpl. by apply IHk.
  - split; auto with csm.
Qed.

(** ** The structural pass always returns *)
Lemma oforM_returns {E A} (f : A → outcome E unit) xs :
  Forall (fun x => returns (f x)) xs → returns (oforM f xs).
Proof. induction 1; simpl; auto with outcome. Qed.

#[export] Hint Resolve oforM_returns : outcome.

Lemma check_returns g : ∀ Γ, returns (check g Γ).
Proof.
  induction g as [from to l k IH|from to bs IH|v body IH|v|c s k IH|en body ex k IHb IHk|]
    using GlobalType_rect_branches; intros Γ; simpl; repeat case_match; auto with outcome.
  apply oforM_returns. eapply Forall_impl; [exact IH|]. auto.
Qed.

Lemma check_symbols_returns syms : ∀ m, returns (check_symbols syms m).
Proof.
  induction syms as [|[l a] syms IH]; intros m; simpl; repeat case_match; auto with outcome.
Qed.

(** ** Fuel of the callee pass *)
Definition unvisited (env : ProtocolEnv) (visiting : BTreeSet string) : nat :=
  length (filter (fun n => n ∉ visiting) (bm_keys (protocols env))).

Lemma unvisited_insert env visiting c :
  is_Some (penv_resolve env c) → ref_name c ∉ visiting →
  unvisited env (bs_insert visiting (ref_name c)) < unvisited env visiting.
Proof.
  intros [body Hb] Hn. unfold unvisited, penv_resolve in *.
  apply bm_get_elem in Hb. apply (list_elem_of_fmap_2 fst) in Hb.
  apply (length_filter_lt _ _) with (ref_name c); [|done|done|].
  - intros x. rewrite bs_insert_elem. tauto.
  - rewrite bs_insert_elem. tauto.
Qed.

Lemma check_callees_returns fuel env g visiting depth :
  unvisited env visiting ≤ fuel → returns (check_callees fuel env g visiting depth).
Proof.
  revert g visiting depth. induction fuel as [|fuel IHf];
  intros g; induction g as [from to l k IH|from to bs IH|v body IH|v|c s k IH|en body ex k IHb IHk|]
    using GlobalType_rect_branches; intros visiting depth Hf; simpl;
    case_decide; auto with outcome;
    try (apply oforM_returns; eapply Forall_impl; [exact IH|]; auto; fail);
    destruct (penv_resolve env c) as [body|] eqn:Er; auto with outcome;
    unfold bs_contains; case_bool_decide as Hv; simpl; auto with outcome;
    pose proof (unvisited_insert env visiting c ltac:(by eexists) Hv) as Hlt.
  { clear - Hf Hlt. lia. }
  apply obind_returns; [|auto].
  apply obind_returns; [apply check_returns|intros _ _].
  apply obind_returns; [apply check_symbols_returns|intros _ _].
  apply IHf. lia.
Qed.

Lemma unvisited_le env visiting : unvisited env visiting ≤ length (protocols env).
Proof.
  unfold unvisited, bm_keys. rewrite <- (length_fmap fst (protocols env)).
  apply length_filter.
Qed.

(** ** The visibly-pushdown pass *)

(** One stack action per symbol, and no message label with a boundary prefix. *)
Definition visibly_pushdown (syms : list (string * StackAction)) : Prop :=
  (∀ l a a', (l, a) ∈ syms → (l, a') ∈ syms → a = a') ∧
  (∀ l, (l, Neutral) ∈ syms → starts_with l "call:" = false ∧ starts_with l "ret:" = false).

Lemma check_symbols_spec syms : ∀ m, bm_ok m →
  check_symbols syms m = Ok tt ↔
  visibly_pushdown syms ∧ (∀ l a a', (l, a) ∈ syms → bm_get m l = Some a' → a = a').
Proof.
  unfold visibly_pushdown.
  induction syms as [|[l a] syms IH]; intros m Hm; simpl.
  { split; [|done]. intros _. split_and!; intros *; set_unfold; tauto. }
  destruct (bool_decide (a = Neutral) && _) eqn:Ec.
  { apply andb_true_iff in Ec as [->%bool_decide_eq_true Ho].
    split; [done|]. intros [[_ Hr] _]. destruct (Hr l) as [H1 H2]; [by left|].
    by rewrite H1, H2 in Ho. }
  assert (Hres : a = Neutral → starts_with l "call:" = false ∧ starts_with l "ret:" = false).
  { intros ->. rewrite bool_decide_eq_true_2 in Ec by done.
    by apply orb_false_iff in Ec. }
  assert (Hrec : (∀ a', bm_get m l = Some a' → a = a') →
    check_symbols syms (bm_insert m l a) = Ok tt ↔
    ((∀ l0 b b', (l0, b) ∈ (l, a) :: syms → (l0, b') ∈ (l, a) :: syms → b = b') ∧
     (∀ l0, (l0, Neutral) ∈ (l, a) :: syms →
        starts_with l0 "call:" = false ∧ starts_with l0 "ret:" = false)) ∧
    (∀ l0 b b', (l0, b) ∈ (l, a) :: syms → bm_get m l0 = Some b' → b = b')).
  { intros Hcons. rewrite IH by auto. setoid_rewrite elem_of_cons.
    setoid_rewrite (bm_get_insert m l a _ Hm). split.
    - intros [[Hfun Hr] Hg].
      assert (Hla : ∀ b, (l, b) ∈ syms → b = a).
      { intros b Hb. apply (Hg l b a Hb). by rewrite decide_True. }
      split_and!.
      + intros l0 b b' [H1|H1] [H2|H2]; simplify_eq; eauto; symmetry; eauto.
      + intros l0 [[= -> <-]|H1]; auto.
      + intros l0 b b' [[= -> ->]|H1] H2; [auto|].
        destruct (decide (l0 = l)) as [->|Hne].
        * rewrite (Hla _ H1). auto.
        * apply (Hg l0 b b' H1). by rewrite decide_False.
    - intros [[Hfun Hr] Hg]. split_and!; [naive_solver..|].
      intros l0 b b' H1 H2. case_decide as Hd; [|naive_solver].
      simplify_eq. eapply (Hfun l); auto. }
  destruct (bm_get m l) as [prev|] eqn:Eg; [destruct (decide (prev ≠ a)) as [Hd|Hd]|].
  - split; [done|]. intros [_ Hg]. exfalso. apply Hd. symmetry. apply (Hg l); [by left|done].
  - apply dec_stable in Hd. subst. apply Hrec. naive_solver.
  - apply Hrec. naive_solver.
Qed.

(** ** Structural well-formedness and composition *)
Lemma wf_guarded g : ∀ Γ v, wf Γ g → v ∉ Γ → guarded g v = true.
Proof.
  induction g using GlobalType_rect_branches; intros Γ w Hw Hn; simpl; try done.
  - inversion Hw; subst. case_decide; [done|]. eapply IHg; [done|].
    rewrite not_elem_of_app, list_elem_of_singleton. split; [done|]. congruence.
  - inversion Hw; subst. apply bool_decide_eq_true. congruence.
Qed.

Lemma wf_weaken g : ∀ Γ Γ', wf Γ g → Γ ⊆ Γ' → wf Γ' g.
Proof.
  induction g as [from to l k IH|from to bs IH|v body IH|v|c s k IH|en body ex k IHb IHk|]
    using GlobalType_rect_branches; intros Γ Γ' Hw Hs; inversion Hw; subst; constructor; eauto.
  - rewrite Forall_forall in *. eauto.
  - eapply IH; [done|]. intros x. rewrite !elem_of_app. naive_solver.
Qed.

Lemma guarded_gthen g q v : guarded g v = true → guarded q v = true → guarded (gthen g q) v = true.
Proof.
  induction g using GlobalType_rect_branches; simpl; try done.
  case_decide; auto.
Qed.

Lemma gthen_wf_aux p q : wf [] q → ∀ Γ, wf Γ p → wf Γ (gthen p q).
Proof.
  intros Hq. induction p as [from to l k IH|from to bs IH|v body IH|v|c s k IH|en body ex k IHb IHk|]
    using GlobalType_rect_branches; intros Γ Hw; inversion Hw; subst; simpl; eauto with csm.
  - constructor; [done|by destruct bs| |].
    + rewrite map_map. simpl. done.
    + apply Forall_forall. intros b ([l' k'] & -> & Hb)%list_elem_of_fmap. simpl.
      rewrite Forall_forall in *. naive_solver.
  - constructor; [|by apply IH]. apply guarded_gthen; [done|].
    eapply wf_guarded; [exact Hq|]. apply not_elem_of_nil.
  - eapply wf_weaken; [exact Hq|]. intros x []%elem_of_nil.
Qed.

(** * Properties *)

(** [well_formed_in] is total: on every global type and environment it
    returns [Ok] or a [WfError]; the cycle guard makes the callee walk end
    (the fuel, one unit per registered protocol, is never used up). *)
Theorem well_formed_in_total (g : GlobalType) (env : ProtocolEnv) :
  returns (well_formed_in g env).
Proof.
  unfold well_formed_in.
  apply obind_returns; [apply check_returns|intros _ _].
  apply obind_returns; [apply check_symbols_returns|intros _ _].
  apply check_callees_returns, unvisited_le.
Qed.

(** The structural pass accepts exactly the declaratively well-formed
    types (no self message, non-empty choices with distinct labels, guarded
    and bound recursion, injective substitutions, boxes that can return), and
    the visibility pass accepts exactly the types whose alphabet gives every
    symbol one stack action and reserves the [call:]/[ret:] prefixes. *)
Theorem well_formed_passes_spec (g : GlobalType) :
  (check g [] = Ok tt ↔ wf [] g) ∧
  (check_visibility g = Ok tt ↔ visibly_pushdown (alphabet g)).
Proof.
  split; [apply check_wf|]. unfold check_visibility.
  rewrite check_symbols_spec by constructor. simpl. naive_solver.
Qed.

(** A box whose boundary symbol is another protocol's message label. *)
Definition vpa_left : GlobalType := GInteraction "O" "A" (label_text "x") GEnd.
Definition vpa_right : GlobalType :=
  GlobalBox (label_text "x") (GInteraction "O" "A" (label_text "y") GEnd) (label_text "z") GEnd.

(** Sequential composition [then] is a monoid with unit [End] and keeps
    the structural well-formedness: composing two closed protocols the
    structural pass accepts gives one it accepts.  Well-formedness as a whole
    is not kept: there are two well-formed protocols whose composition the
    visibility pass rejects, because a message label of one is a boundary
    symbol of the other. *)
Theorem gthen_laws :
  (∀ g, gthen GEnd g = g ∧ gthen g GEnd = g) ∧
  (∀ g p q, gthen (gthen g p) q = gthen g (gthen p q)) ∧
  (∀ p q, check p [] = Ok tt → check q [] = Ok tt → check (gthen p q) [] = Ok tt) ∧
  (∃ p q, well_formed p = Ok tt ∧ well_formed q = Ok tt ∧
          well_formed (gthen p q) = Err (VpaSymbolConflict "x")).
Proof.
  split_and!.
  - split; [done|apply gthen_end_r].
  - apply gthen_assoc.
  - intros p q. rewrite !check_wf. eauto using gthen_wf_aux.
  - exists vpa_left, vpa_right. split_and!; vm_compute; reflexivity.
Qed.
