(* ===== verification/CsmLocal.v ===== *)
(** [src/csm/mpst/local.rs]: local types, one role's view of a protocol. *)

From stdpp Require Import base strings list gmap.
From S2P Require Import Prelude BTree CsmRole CsmGlobal.

(** One role's local protocol type.  [LSend], [LRecv], [LSelect], [LBranch],
    [LRec], [LVar] and [LEnd] are the source's [Send], [Recv], [Select],
    [Branch], [Rec], [Var] and [End]. *)
Inductive LocalType :=
| LSend (to : Role) (label : Label) (cont : LocalType)
| LRecv (from : Role) (label : Label) (cont : LocalType)
| LSelect (to : Role) (branches : list LocalBranch)
| LBranch (from : Role) (branches : list LocalBranch)
| LRec (var : TypeVar) (body : LocalType)
| LVar (var : TypeVar)
| LocalCall (callee : ProtocolRef) (subst : BTreeMap Role Role) (cont : LocalType)
| LocalBox (enter : Label) (body : LocalType) (exit : Label) (cont : LocalType)
| LEnd
with LocalBranch :=
| mkLocalBranch (label : Label) (cont : LocalType).

Definition lb_label (b : LocalBranch) : Label := let 'mkLocalBranch l _ := b in l.
Definition lb_cont (b : LocalBranch) : LocalType := let 'mkLocalBranch _ k := b in k.

Lemma LocalType_rect_branches (P : LocalType → Prop)
    (Hsend : ∀ to l k, P k → P (LSend to l k))
    (Hrecv : ∀ from l k, P k → P (LRecv from l k))
    (Hsel : ∀ to bs, Forall (fun b => P (lb_cont b)) bs → P (LSelect to bs))
    (Hbra : ∀ from bs, Forall (fun b => P (lb_cont b)) bs → P (LBranch from bs))
    (Hrec : ∀ v body, P body → P (LRec v body))
    (Hvar : ∀ v, P (LVar v))
    (Hcall : ∀ c s k, P k → P (LocalCall c s k))
    (Hbox : ∀ en body ex k, P body → P k → P (LocalBox en body ex k))
    (Hend : P LEnd) : ∀ lt, P lt.
Proof.
  fix IH 1. intros [to l k|from l k|to bs|from bs|v body|v|c s k|en body ex k|].
  - apply Hsend, IH.
  - apply Hrecv, IH.
  - apply Hsel. induction bs as [|[l k] bs IHbs]; constructor; [apply IH|done].
  - apply Hbra. induction bs as [|[l k] bs IHbs]; constructor; [apply IH|done].
  - apply Hrec, IH.
  - apply Hvar.
  - apply Hcall, IH.
  - apply Hbox; apply IH.
  - apply Hend.
Qed.

(** * The derived [PartialEq] *)
Fixpoint forall2b {A} (f : A → A → bool) (xs ys : list A) : bool :=
  match xs, ys with
  | [], [] => true
  | x :: xs, y :: ys => f x y && forall2b f xs ys
  | _, _ => false
  end.

Fixpoint local_eqb (a b : LocalType) {struct a} : bool :=
  match a, b with
  | LSend to l k, LSend to' l' k' =>
      bool_decide (to = to') && bool_decide (l = l') && local_eqb k k'
  | LRecv from l k, LRecv from' l' k' =>
      bool_decide (from = from') && bool_decide (l = l') && local_eqb k k'
  | LSelect to bs, LSelect to' bs' =>
      bool_decide (to = to') &&
      forall2b (fun x y => bool_decide (lb_label x = lb_label y) && local_eqb (lb_cont x) (lb_cont y)) bs bs'
  | LBranch from bs, LBranch from' bs' =>
      bool_decide (from = from') &&
      forall2b (fun x y => bool_decide (lb_label x = lb_label y) && local_eqb (lb_cont x) (lb_cont y)) bs bs'
  | LRec v body, LRec v' body' => bool_decide (v = v') && local_eqb body body'
  | LVar v, LVar v' => bool_decide (v = v')
  | LocalCall c s k, LocalCall c' s' k' =>
      bool_decide (c = c') && bool_decide (s = s') && local_eqb k k'
  | LocalBox en body ex k, LocalBox en' body' ex' k' =>
      bool_decide (en = en') && local_eqb body body' && bool_decide (ex = ex') && local_eqb k k'
  | LEnd, LEnd => true
  | _, _ => false
  end.

Lemma forall2b_eq {A} (f : A → A → bool) xs :
  Forall (fun x => ∀ y, f x y = true ↔ x = y) xs → ∀ ys, forall2b f xs ys = true ↔ xs = ys.
Proof.
  induction 1 as [|x xs Hx Hxs IH]; intros [|y ys]; simpl; try done.
  rewrite andb_true_iff, Hx, IH. naive_solver.
Qed.

Lemma local_eqb_eq a : ∀ b, local_eqb a b = true ↔ a = b.
Proof.
  assert (Hbs : ∀ bs, Forall (fun b => ∀ y, local_eqb (lb_cont b) y = true ↔ lb_cont b = y) bs →
    Forall (fun x => ∀ y, bool_decide (lb_label x = lb_label y) && local_eqb (lb_cont x) (lb_cont y) = true
                          ↔ x = y) bs).
  { intros bs Hf. eapply Forall_impl; [exact Hf|]. intros [l k] IH [l' k']. simpl in *.
    rewrite andb_true_iff, bool_decide_eq_true, IH. naive_solver. }
  induction a as [to l k IH|from l k IH|to bs IH|from bs IH|v body IH|v|c s k IH|en body ex k IHb IHk|]
    using LocalType_rect_branches; intros []; simpl; try done;
    rewrite ?andb_true_iff, ?bool_decide_eq_true.
  - rewrite IH. naive_solver.
  - rewrite IH. naive_solver.
  - rewrite (forall2b_eq _ _ (Hbs _ IH)). naive_solver.
  - rewrite (forall2b_eq _ _ (Hbs _ IH)). naive_solver.
  - rewrite IH. naive_solver.
  - naive_solver.
  - rewrite IH. naive_solver.
  - rewrite IHb, IHk. naive_solver.
Qed.

#[global] Instance LocalType_eq_dec : EqDecision LocalType.
Proof.
  intros a b. destruct (local_eqb a b) eqn:E; [left|right].
  - by apply local_eqb_eq.
  - intros ->. assert (local_eqb b b = true) by by apply local_eqb_eq. congruence.
Defined.
