(* ===== verification/CsmProject.v ===== *)
(** [src/csm/mpst/project.rs]: projecting a global type onto a role, with the
    external-choice merge for the bystanders of a choice. *)

From stdpp Require Import base strings list gmap.
From S2P Require Import Prelude BTree CsmRole CsmGlobal CsmLocal CsmWellformed.

(** Why a global type does not project onto some role. *)
Inductive ProjectionError :=
| Unmergeable (lhs rhs : string)
| UnresolvedCallee (name : string).

#[global] Instance ProjectionError_eq_dec : EqDecision ProjectionError.
Proof. solve_decision. Defined.

(** [ProjectionError::message] *)
Definition projection_message (e : ProjectionError) : string :=
  match e with
  | Unmergeable lhs rhs => "cannot merge projections: " +:+ lhs +:+ "  ⊓  " +:+ rhs
  | UnresolvedCallee n =>
      "cannot compile call: sub-protocol '" +:+ n +:+ "' is not in the environment"
  end%string.

(** A one-line shape of a local type, for diagnostics. *)
Definition describe (t : LocalType) : string :=
  match t with
  | LSend to label _ => "!" +:+ role_str to +:+ "⟨" +:+ name label +:+ "⟩…"
  | LRecv from label _ => "?" +:+ role_str from +:+ "⟨" +:+ name label +:+ "⟩…"
  | LSelect to _ => "⊕" +:+ role_str to +:+ "{…}"
  | LBranch from _ => "&" +:+ role_str from +:+ "{…}"
  | LRec var _ => "μ" +:+ var +:+ ".…"
  | LocalCall callee _ _ => "call " +:+ ref_name callee +:+ "…"
  | LocalBox enter _ exit _ => "box⟨" +:+ name enter +:+ "⟩{…}⟨" +:+ name exit +:+ "⟩…"
  | LVar var => var
  | LEnd => "end"
  end%string.

(** View a [Recv] or [Branch] as the sender and the branch list. *)
Definition as_offer (t : LocalType) : option (Role * list LocalBranch) :=
  match t with
  | LRecv from label cont => Some (from, [mkLocalBranch label cont])
  | LBranch from branches => Some (from, branches)
  | _ => None
  end.

(** The first loop of [merge_offers]: index the left branches by label name. *)
Definition offer_index (ba : list LocalBranch) : BTreeMap string LocalBranch :=
  foldl (fun m br => bm_insert m (name (lb_label br)) br) [] ba.

(** One iteration of the second loop of [merge_offers]. *)
Definition offer_step (mrg : LocalType → LocalType → outcome ProjectionError LocalType)
    (m : BTreeMap string LocalBranch) (br : LocalBranch) :
    outcome ProjectionError (BTreeMap string LocalBranch) :=
  let n := name (lb_label br) in
  match bm_get m n with
  | Some existing =>
      let* merged_cont := mrg (lb_cont existing) (lb_cont br) in
      Ok (bm_insert (bm_remove m n) n (mkLocalBranch (lb_label existing) merged_cont))
  | None => Ok (bm_insert m n br)
  end.

(** [merge_offers], with the recursive call to [merge] as an argument. *)
Definition merge_offers (mrg : LocalType → LocalType → outcome ProjectionError LocalType)
    (from : Role) (ba bb : list LocalBranch) : outcome ProjectionError LocalType :=
  let* m := ofold (offer_step mrg) (offer_index ba) bb in
  Ok (LBranch from (bm_values m)).

(** Merge two local types at a choice the role does not drive.  Every
    recursive call is on a proper subterm of the second argument. *)
Fixpoint merge (a b : LocalType) {struct b} : outcome ProjectionError LocalType :=
  if local_eqb a b then Ok a
  else
    let unmergeable := Err (Unmergeable (describe a) (describe b)) in
    match b with
    | LRecv fb lb kb =>
        match as_offer a with
        | Some (fa, ba) =>
            if decide (fa = fb) then
              let* m := offer_step merge (offer_index ba) (mkLocalBranch lb kb) in
              Ok (LBranch fa (bm_values m))
            else unmergeable
        | None => unmergeable
        end
    | LBranch fb bb =>
        match as_offer a with
        | Some (fa, ba) =>
            if decide (fa = fb) then
              let* m := ofold (offer_step merge) (offer_index ba) bb in
              Ok (LBranch fa (bm_values m))
            else unmergeable
        | None => unmergeable
        end
    | LRec v2 b2 =>
        match a with
        | LRec v1 b1 =>
            if decide (v1 = v2) then let* merged := merge b1 b2 in Ok (LRec v1 merged)
            else unmergeable
        | _ => unmergeable
        end
    | LocalCall c2 s2 k2 =>
        match a with
        | LocalCall c1 s1 k1 =>
            if decide (c1 = c2 ∧ s1 = s2) then
              let* merged := merge k1 k2 in Ok (LocalCall c1 s1 merged)
            else unmergeable
        | _ => unmergeable
        end
    | LocalBox e2 bd2 x2 k2 =>
        match a with
        | LocalBox e1 bd1 x1 k1 =>
            if decide (e1 = e2 ∧ x1 = x2) then
              let* merged_body := merge bd1 bd2 in
              let* merged_cont := merge k1 k2 in
              Ok (LocalBox e1 merged_body x1 merged_cont)
            else unmergeable
        | _ => unmergeable
        end
    | LSend _ _ _ | LSelect _ _ | LVar _ | LEnd => unmergeable
    end.

(** Project [g] onto [role]. *)
Fixpoint project (g : GlobalType) (role : Role) : outcome ProjectionError LocalType :=
  match g with
  | GInteraction from to label cont =>
      let* c := project cont role in
      if decide (role = from) then Ok (LSend to label c)
      else if decide (role = to) then Ok (LRecv from label c)
      else Ok c
  | GChoice from to branches =>
      if decide (role = from) then
        let* bs := omapM (fun b => let* c := project (gb_cont b) role in
                                   Ok (mkLocalBranch (gb_label b) c)) branches in
        Ok (LSelect to bs)
      else if decide (role = to) then
        let* bs := omapM (fun b => let* c := project (gb_cont b) role in
                                   Ok (mkLocalBranch (gb_label b) c)) branches in
        Ok (LBranch from bs)
      else match branches with
      | [] => Panic
      | first :: rest =>
          let* acc := project (gb_cont first) role in
          ofold (fun acc b => let* pj := project (gb_cont b) role in merge acc pj) acc rest
      end
  | GRec var body => let* b := project body role in Ok (LRec var b)
  | GlobalCall callee subst cont =>
      let* c := project cont role in
      if decide (role ∈ bm_values subst) then Ok (LocalCall callee subst c) else Ok c
  | GlobalBox enter body exit cont =>
      let* c := project cont role in
      if bs_contains (participants body) role then
        let* b := project body role in Ok (LocalBox enter b exit c)
      else Ok c
  | GVar var => Ok (LVar var)
  | GEnd => Ok LEnd
  end.

(** * The equation of [merge] as the source writes it *)
Definition merge_body (a b : LocalType) : outcome ProjectionError LocalType :=
  if local_eqb a b then Ok a
  else
    match as_offer a, as_offer b with
    | Some (fa, ba), Some (fb, bb) =>
        if decide (fa = fb) then merge_offers merge fa ba bb
        else Err (Unmergeable (describe a) (describe b))
    | _, _ =>
        match a, b with
        | LRec v1 b1, LRec v2 b2 =>
            if decide (v1 = v2) then let* m := merge b1 b2 in Ok (LRec v1 m)
            else Err (Unmergeable (describe a) (describe b))
        | LocalCall c1 s1 k1, LocalCall c2 s2 k2 =>
            if decide (c1 = c2 ∧ s1 = s2) then let* m := merge k1 k2 in Ok (LocalCall c1 s1 m)
            else Err (Unmergeable (describe a) (describe b))
        | LocalBox e1 d1 x1 k1, LocalBox e2 d2 x2 k2 =>
            if decide (e1 = e2 ∧ x1 = x2) then
              let* md := merge d1 d2 in let* mk := merge k1 k2 in Ok (LocalBox e1 md x1 mk)
            else Err (Unmergeable (describe a) (describe b))
        | _, _ => Err (Unmergeable (describe a) (describe b))
        end
    end.

Lemma merge_unfold a b : merge a b = merge_body a b.
Proof.
  unfold merge_body, merge_offers.
  destruct a, b; cbn [merge as_offer ofold]; destruct (local_eqb _ _); try reflexivity;
    case_decide; try reflexivity; destruct (offer_step _ _ _); reflexivity.
Qed.

(** ** [merge] and [project] always return *)
Lemma offer_step_returns mrg m br :
  (∀ k, returns (mrg k (lb_cont br))) → returns (offer_step mrg m br).
Proof. intros Hm. unfold offer_step. case_match; auto with outcome. Qed.

Lemma ofold_returns {E A S} (f : S → A → outcome E S) xs :
  Forall (fun x => ∀ s, returns (f s x)) xs → ∀ s, returns (ofold f s xs).
Proof. induction 1; intros s; simpl; auto with outcome. Qed.

Lemma merge_returns b : ∀ a, returns (merge a b).
Proof.
  induction b as [to l k IH|from l k IH|to bs IH|from bs IH|v body IH|v|c s k IH|en body ex k IHb IHk|]
    using LocalType_rect_branches; intros a; rewrite merge_unfold; unfold merge_body, merge_offers;
    simpl; repeat case_match; simplify_eq; auto with outcome.
  - apply obind_returns; [|auto with outcome].
    apply obind_returns; [|auto with outcome]. by apply offer_step_returns.
  - apply obind_returns; [|auto with outcome]. apply ofold_returns.
    eapply Forall_impl; [exact IH|]. intros br Hbr m. by apply offer_step_returns.
Qed.

Lemma project_returns g r : ∀ Γ, wf Γ g → returns (project g r).
Proof.
  assert (Hmap : ∀ bs, Forall (fun b => returns (project (gb_cont b) r)) bs →
    returns (omapM (fun b => let* c := project (gb_cont b) r in
                             Ok (mkLocalBranch (gb_label b) c)) bs)).
  { intros bs Hbs. apply omapM_returns. eapply Forall_impl; [exact Hbs|]. auto with outcome. }
  induction g as [from to l k IH|from to bs IH|v body IH|v|c s k IH|en body ex k IHb IHk|]
    using GlobalType_rect_branches; intros Γ Hw; inversion Hw as
      [? ? ? ? ? Hk|? ? ? ? Hne ? Hbs| | | | |]; subst; simpl; try case_decide;
      eauto 7 with outcome.
  - apply obind_returns; [eauto|]. intros. case_decide; auto with outcome.
  - assert (Hall : Forall (fun b => returns (project (gb_cont b) r)) bs).
    { rewrite Forall_forall in *. eauto. }
    apply obind_returns; auto with outcome.
  - assert (Hall : Forall (fun b => returns (project (gb_cont b) r)) bs).
    { rewrite Forall_forall in *. eauto. }
    case_decide; [apply obind_returns; auto with outcome|].
    destruct Hall as [|b bs Hb Hbs']; [done|].
    apply obind_returns; [done|]. intros acc _. apply ofold_returns.
    eapply Forall_impl; [exact Hbs'|]. intros b' Hb' s. apply obind_returns; [done|].
    intros. apply merge_returns.
  - apply obind_returns; [eauto|]. intros. case_match; eauto with outcome.
Qed.
