(* ===== verification/CsmMerge.v ===== *)
(** What [merge] and [project] guarantee: the merge of two local types can do
    whatever either of them expects ([subsumes]), and projections of
    well-formed global types are closed, have distinct labels, and keep the
    labels of the global type. *)

From stdpp Require Import base strings list gmap.
From S2P Require Import Prelude BTree CsmRole CsmGlobal CsmLocal CsmWellformed CsmProject.

(** * Subsumption of local types

    [subsumes big small]: [big] can stand where [small] is expected.  It
    offers at least the receives of [small] and makes exactly its sends. *)
Inductive subsumes : LocalType → LocalType → Prop :=
| sub_end : subsumes LEnd LEnd
| sub_var v : subsumes (LVar v) (LVar v)
| sub_rec v b b' : subsumes b' b → subsumes (LRec v b') (LRec v b)
| sub_send to l k k' : subsumes k' k → subsumes (LSend to l k') (LSend to l k)
| sub_select to bs bs' :
    Forall2 (fun b' b => lb_label b' = lb_label b ∧ subsumes (lb_cont b') (lb_cont b)) bs' bs →
    subsumes (LSelect to bs') (LSelect to bs)
| sub_offer from big small bs' bs :
    as_offer big = Some (from, bs') → as_offer small = Some (from, bs) →
    Forall (fun b => ∃ b', b' ∈ bs' ∧ lb_label b' = lb_label b ∧
                           subsumes (lb_cont b') (lb_cont b)) bs →
    subsumes big small
| sub_call c s k k' : subsumes k' k → subsumes (LocalCall c s k') (LocalCall c s k)
| sub_box en ex b b' k k' :
    subsumes b' b → subsumes k' k → subsumes (LocalBox en b' ex k') (LocalBox en b ex k).

#[export] Hint Constructors subsumes : csm.

Lemma subsumes_refl lt : subsumes lt lt.
Proof.
  induction lt as [to l k IH|from l k IH|to bs IH|from bs IH|v body IH|v|c s k IH|en body ex k IHb IHk|]
    using LocalType_rect_branches; eauto with csm.
  - eapply sub_offer; [done|done|]. constructor; [|constructor].
    eexists. split_and!; [by left|done|done].
  - constructor. induction IH; constructor; auto.
  - eapply sub_offer; [done|done|]. rewrite Forall_forall in *. intros b Hb. eauto.
Qed.

Lemma subsumes_trans small : ∀ mid big, subsumes big mid → subsumes mid small → subsumes big small.
Proof.
  assert (Hoffer : ∀ from bs, Forall (fun b => ∀ mid big, subsumes big mid →
      subsumes mid (lb_cont b) → subsumes big (lb_cont b)) bs →
    ∀ small mid big bs', as_offer small = Some (from, bs) → as_offer mid = Some (from, bs') →
      subsumes big mid →
      Forall (fun b => ∃ b', b' ∈ bs' ∧ lb_label b' = lb_label b ∧
                             subsumes (lb_cont b') (lb_cont b)) bs →
      subsumes big small).
  { intros from bs IH small0 mid big bs' Hs Hm Hbm Hall.
    inversion Hbm as [| | | | |from' ? ? bs2 bs1 Ho2 Ho1 Hall2| |]; subst;
      try discriminate Hm.
    rewrite Hm in Ho1. simplify_eq. eapply sub_offer; [done|done|].
    rewrite Forall_forall in *. intros b Hb.
    destruct (Hall b Hb) as (b' & Hb' & El & Hsub).
    destruct (Hall2 b' Hb') as (b2 & Hb2 & El2 & Hsub2).
    exists b2. split_and!; [done|congruence|]. eapply IH; eauto. }
  induction small as [to l k IH|from l k IH|to bs IH|from bs IH|v body IH|v|c s k IH|en body ex k IHb IHk|]
    using LocalType_rect_branches; intros mid big H1 H2;
    inversion H2 as [| | | |? ? bs'' HF| | |]; subst; try (simpl in *; discriminate).
  - inversion H1; subst; [eauto with csm|simpl in *; discriminate].
  - simplify_eq. simpl in *. simplify_eq. eapply (Hoffer _ [mkLocalBranch l k]); eauto.
  - inversion H1 as [| | | |? ? bs3 HF3| | |]; subst; [|simpl in *; discriminate].
    constructor. clear H1 H2. revert bs3 HF3. induction HF as [|b' b bs' bs [El Hs] HF IHF].
    + intros bs3 HF3. by inversion HF3.
    + intros bs3 HF3. inversion HF3 as [|b3 ? bs4 ? [El3 Hs3] HF4]; subst.
      inversion IH; subst. constructor; [split; [congruence|eauto]|auto].
  - simplify_eq. simpl in *. simplify_eq. eapply Hoffer; eauto.
  - inversion H1; subst; [eauto with csm|simpl in *; discriminate].
  - done.
  - inversion H1; subst; [simpl in *; discriminate|eauto with csm].
  - inversion H1; subst; [simpl in *; discriminate|eauto with csm].
  - done.
Qed.

(** * Well-kept local types

    Closed under [Γ], distinct label names in every choice, and every label
    has the medium the assignment [f] gives its name.  With [flat] no calls
    and boxes occur. *)
Section lok.
Context (flat : bool) (f : string → MessageMedium).

Definition label_ok (l : Label) : Prop := medium l = f (name l).

Inductive lok (Γ : list TypeVar) : LocalType → Prop :=
| lok_send to l k : label_ok l → lok Γ k → lok Γ (LSend to l k)
| lok_recv from l k : label_ok l → lok Γ k → lok Γ (LRecv from l k)
| lok_select to bs :
    NoDup (map (fun b => name (lb_label b)) bs) →
    Forall (fun b => label_ok (lb_label b) ∧ lok Γ (lb_cont b)) bs → lok Γ (LSelect to bs)
| lok_branch from bs :
    NoDup (map (fun b => name (lb_label b)) bs) →
    Forall (fun b => label_ok (lb_label b) ∧ lok Γ (lb_cont b)) bs → lok Γ (LBranch from bs)
| lok_rec v b : lok (Γ ++ [v]) b → lok Γ (LRec v b)
| lok_var v : v ∈ Γ → lok Γ (LVar v)
| lok_call c s k : flat = false → lok Γ k → lok Γ (LocalCall c s k)
| lok_box en b ex k : flat = false → lok [] b → lok Γ k → lok Γ (LocalBox en b ex k)
| lok_end : lok Γ LEnd.

Lemma label_ok_eq l l' : label_ok l → label_ok l' → name l = name l' → l = l'.
Proof. destruct l, l'; unfold label_ok; simpl. congruence. Qed.

Lemma lok_offer Γ lt from bs : lok Γ lt → as_offer lt = Some (from, bs) →
  NoDup (map (fun b => name (lb_label b)) bs) ∧
  Forall (fun b => label_ok (lb_label b) ∧ lok Γ (lb_cont b)) bs.
Proof.
  intros Hok Ho. inversion Hok; subst; simpl in Ho; simplify_eq; [|done].
  split; [apply NoDup_singleton|]. by constructor.
Qed.

(** ** The index of [merge_offers] *)

(** Every entry sits under its own label name. *)
Definition keyed (m : list (string * LocalBranch)) : Prop :=
  bm_ok m ∧ Forall (fun kv => name (lb_label kv.2) = kv.1) m.

Lemma keyed_insert m br : keyed m → keyed (bm_insert m (name (lb_label br)) br).
Proof.
  intros [Hok Hk]. split; [auto|]. rewrite Forall_forall in *. intros [k b] Hin.
  apply bm_get_Some in Hin; [|auto]. rewrite bm_get_insert in Hin by done.
  case_decide; [simpl; congruence|]. apply bm_get_Some in Hin; [|done].
  by apply (Hk (k, b)).
Qed.

Lemma keyed_remove m k : keyed m → keyed (bm_remove m k).
Proof.
  intros [Hok Hk]. split; [auto|]. rewrite Forall_forall in *. intros [k' b] Hin.
  apply bm_get_Some in Hin; [|auto]. rewrite bm_get_remove in Hin by done.
  case_decide; [done|]. apply bm_get_Some in Hin; [|done]. by apply (Hk (k', b)).
Qed.

Lemma keyed_values_NoDup m : keyed m → NoDup (map (fun b => name (lb_label b)) (bm_values m)).
Proof.
  intros [Hok Hk]. unfold bm_values.
  assert (E : map (fun b => name (lb_label b)) (m.*2) = m.*1).
  { clear Hok. induction Hk as [|[k b] m Hkb Hm IH]; [done|]. simpl in *.
    rewrite Hkb. f_equal. exact IH. }
  rewrite E. by apply bm_ok_NoDup_keys.
Qed.

Lemma values_elem (m : list (string * LocalBranch)) b :
  b ∈ bm_values m ↔ ∃ k, (k, b) ∈ m.
Proof.
  unfold bm_values. rewrite list_elem_of_fmap. split.
  - intros ([k b'] & -> & ?). eauto.
  - intros [k ?]. by exists (k, b).
Qed.

(** What the loops keep: entries come from either side, and every arm seen so
    far is served by the entry under its name. *)
Definition index_ok (Γ : list TypeVar) (m : list (string * LocalBranch)) : Prop :=
  keyed m ∧ Forall (fun kv => label_ok (lb_label kv.2) ∧ lok Γ (lb_cont kv.2)) m.

Definition serves (m : list (string * LocalBranch)) (b : LocalBranch) : Prop :=
  ∃ b', bm_get m (name (lb_label b)) = Some b' ∧ lb_label b' = lb_label b ∧
        subsumes (lb_cont b') (lb_cont b).

Lemma index_ok_insert Γ m br :
  index_ok Γ m → label_ok (lb_label br) → lok Γ (lb_cont br) →
  index_ok Γ (bm_insert m (name (lb_label br)) br).
Proof.
  intros [Hk Hl] H1 H2. split; [by apply keyed_insert|]. destruct Hk as [Hok _].
  rewrite Forall_forall in *. intros [k b] Hin.
  apply bm_get_Some in Hin; [|auto]. rewrite bm_get_insert in Hin by done.
  case_decide; [simplify_eq; done|]. apply bm_get_Some in Hin; [|done]. by apply (Hl (k, b)).
Qed.

Lemma index_ok_remove Γ m k : index_ok Γ m → index_ok Γ (bm_remove m k).
Proof.
  intros [Hk Hl]. split; [by apply keyed_remove|]. destruct Hk as [Hok _].
  rewrite Forall_forall in *. intros [k' b] Hin.
  apply bm_get_Some in Hin; [|auto]. rewrite bm_get_remove in Hin by done.
  case_decide; [done|]. apply bm_get_Some in Hin; [|done]. by apply (Hl (k', b)).
Qed.

Lemma offer_index_ok Γ ba :
  NoDup (map (fun b => name (lb_label b)) ba) →
  Forall (fun b => label_ok (lb_label b) ∧ lok Γ (lb_cont b)) ba →
  index_ok Γ (offer_index ba) ∧ Forall (serves (offer_index ba)) ba.
Proof.
  unfold offer_index. intros Hnd Hall.
  induction ba as [|b ba IH] using rev_ind; simpl.
  { repeat split; constructor. }
  rewrite map_app in Hnd. apply NoDup_app in Hnd as (Hnd & Hdis & _).
  apply Forall_app in Hall as [Hall [Hb _]%Forall_cons].
  destruct (IH Hnd Hall) as [Hm Hs]. rewrite foldl_app. simpl.
  set (m := foldl _ [] ba) in *.
  split; [apply index_ok_insert; naive_solver|].
  destruct Hm as [[Hok _] _]. apply Forall_app. split.
  - rewrite Forall_forall in *. intros x Hx. destruct (Hs x Hx) as (b' & Hg & ?).
    exists b'. rewrite bm_get_insert by done. rewrite decide_False; [done|].
    intros E. apply (Hdis (name (lb_label x))); [by apply (list_elem_of_fmap_2 (fun b => name (lb_label b)))|].
    rewrite E. by left.
  - constructor; [|constructor]. exists b. rewrite bm_get_insert by done.
    rewrite decide_True by done. eauto using subsumes_refl.
Qed.

Lemma offer_step_ok Γ mrg m br m' :
  (∀ a c, lok Γ a → mrg a (lb_cont br) = Ok c →
     lok Γ c ∧ subsumes c a ∧ subsumes c (lb_cont br)) →
  label_ok (lb_label br) → lok Γ (lb_cont br) → index_ok Γ m →
  offer_step mrg m br = Ok m' →
  index_ok Γ m' ∧ serves m' br ∧ (∀ b, serves m b → serves m' b).
Proof.
  intros Hmrg Hl Hk Hm Hstep. unfold offer_step in Hstep.
  pose proof Hm as [[Hok Hkey] Hall].
  destruct (bm_get m (name (lb_label br))) as [ex|] eqn:Eg.
  - inv_obind. rename a into merged.
    assert (Hex : label_ok (lb_label ex) ∧ lok Γ (lb_cont ex) ∧ name (lb_label ex) = name (lb_label br)).
    { apply bm_get_elem in Eg. rewrite Forall_forall in Hall, Hkey.
      destruct (Hall _ Eg). split_and!; try done. by apply (Hkey _ Eg). }
    destruct Hex as (Hexl & Hexk & Hexn).
    destruct (Hmrg _ _ Hexk Ha) as (Hc & Hca & Hcb).
    assert (El : lb_label ex = lb_label br) by (by apply label_ok_eq).
    set (b2 := mkLocalBranch (lb_label ex) merged).
    assert (En : name (lb_label b2) = name (lb_label br)) by done.
    split_and!.
    + rewrite <- En. apply index_ok_insert; [by apply index_ok_remove|done|done].
    + exists b2. rewrite bm_get_insert by auto. by rewrite decide_True.
    + intros b (b' & Hg & E & Hs).
      destruct (decide (name (lb_label b) = name (lb_label br))) as [En'|Hne].
      * rewrite En' in Hg. rewrite Eg in Hg. simplify_eq. exists b2.
        rewrite bm_get_insert, decide_True by auto. split_and!; [done|simpl; congruence|].
        simpl. exact (subsumes_trans _ _ _ Hca Hs).
      * exists b'. rewrite bm_get_insert, decide_False by auto.
        by rewrite bm_get_remove, decide_False by auto.
  - inv_obind. split_and!.
    + by apply index_ok_insert.
    + exists br. rewrite bm_get_insert, decide_True by done. auto using subsumes_refl.
    + intros b (b' & Hg & E & Hs). exists b'. rewrite bm_get_insert by done.
      rewrite decide_False; [done|]. intros En. by rewrite En, Eg in Hg.
Qed.

Lemma offer_steps_ok Γ mrg bb : 
  Forall (fun br => ∀ a c, lok Γ a → mrg a (lb_cont br) = Ok c →
     lok Γ c ∧ subsumes c a ∧ subsumes c (lb_cont br)) bb →
  Forall (fun b => label_ok (lb_label b) ∧ lok Γ (lb_cont b)) bb →
  ∀ m m', index_ok Γ m → ofold (offer_step mrg) m bb = Ok m' →
  index_ok Γ m' ∧ Forall (serves m') bb ∧ (∀ b, serves m b → serves m' b).
Proof.
  intros Hmrg Hall. induction bb as [|br bb IH]; intros m m' Hm Hf; simpl in Hf.
  { inv_obind. split_and!; auto. }
  inversion Hmrg; subst. inversion Hall as [|? ? [Hl Hk] Hall']; subst. inv_obind.
  destruct (offer_step_ok Γ mrg m br a) as (Hm1 & Hs1 & Hpres1); auto.
  destruct (IH ltac:(done) Hall' a m') as (Hm2 & Hs2 & Hpres2); auto.
Qed.

Lemma serves_subsumes m from big small bs :
  keyed m → as_offer big = Some (from, bm_values m) → as_offer small = Some (from, bs) →
  Forall (serves m) bs → subsumes big small.
Proof.
  intros [Hok _] Hb Hs Hall. eapply sub_offer; [done|done|].
  eapply Forall_impl; [exact Hall|]. intros b (b' & Hg & ?). exists b'. split; [|done].
  apply values_elem. apply bm_get_elem in Hg. eauto.
Qed.

Lemma index_ok_values Γ m from : index_ok Γ m → lok Γ (LBranch from (bm_values m)).
Proof.
  intros [Hk Hall]. constructor; [by apply keyed_values_NoDup|].
  rewrite Forall_forall in Hall. apply Forall_forall. intros b [k Hin]%values_elem. by apply (Hall _ Hin).
Qed.

Lemma merge_offers_ok Γ from a b ba bb c :
  lok Γ a → lok Γ b → as_offer a = Some (from, ba) → as_offer b = Some (from, bb) →
  Forall (fun br => ∀ a c, lok Γ a → lok Γ (lb_cont br) → merge a (lb_cont br) = Ok c →
     lok Γ c ∧ subsumes c a ∧ subsumes c (lb_cont br)) bb →
  merge_offers merge from ba bb = Ok c →
  lok Γ c ∧ subsumes c a ∧ subsumes c b.
Proof.
  intros Ha Hb Ea Eb IH Hm. unfold merge_offers in Hm. inv_obind. rename a0 into m.
  destruct (lok_offer _ _ _ _ Ha Ea) as [Hnd Hba].
  destruct (lok_offer _ _ _ _ Hb Eb) as [_ Hbb].
  destruct (offer_index_ok Γ ba Hnd Hba) as [Hi Hsa].
  destruct (offer_steps_ok Γ merge bb) with (m := offer_index ba) (m' := m)
    as (Hi' & Hsb & Hpres); [|done|done|done|].
  { rewrite Forall_forall in IH, Hbb. apply Forall_forall. intros br Hbr a1 c1 H1 H2.
    apply IH; [done|done|apply Hbb, Hbr|done]. }
  split_and!; [by apply index_ok_values| |]; (eapply serves_subsumes; [apply Hi'|done|done|]);
    [|done]. eapply Forall_impl; [exact Hsa|]. auto.
Qed.

(** The merge of two well-kept types is well kept and subsumes both. *)
Lemma merge_ok b : ∀ Γ a c, lok Γ a → lok Γ b → merge a b = Ok c →
  lok Γ c ∧ subsumes c a ∧ subsumes c b.
Proof.
  induction b as [to l k IH|from l k IH|to bs IH|from bs IH|v body IH|v|ca s k IH|en body ex k IHb IHk|]
    using LocalType_rect_branches; intros Γ a c Ha Hb Hm; rewrite merge_unfold in Hm;
    unfold merge_body in Hm;
    (destruct (local_eqb a _) eqn:Eeq;
     [apply local_eqb_eq in Eeq; subst; inv_obind; auto using subsumes_refl|]).
  (* offers *)
  2, 4: destruct (as_offer a) as [[fa ba]|] eqn:Ea; cbn [as_offer] in Hm;
    [|destruct a; discriminate];
    case_decide as Hd; [|discriminate]; subst;
    eapply (merge_offers_ok Γ from); [done|done|done|done| |exact Hm];
    first [by constructor; [eauto|constructor] | eapply Forall_impl; [exact IH|]; eauto].
  all: destruct a; simpl in Hm; try discriminate Hm;
    case_decide as Hd; try discriminate Hm; destruct_and?; subst; inv_obind;
    inversion Ha; inversion Hb; subst.
  all: repeat match goal with
    | H : merge ?a ?b = Ok ?c, IH : ∀ _ _ _, _ |- _ =>
        destruct (IH _ a c ltac:(eassumption) ltac:(eassumption) H) as (? & ? & ?); clear H
    end; split_and!; eauto with csm; by constructor.
Qed.
End lok.

(** * Projections *)

(** Every label of a global type. *)
Fixpoint labels (g : GlobalType) : list Label :=
  match g with
  | GInteraction _ _ l k => l :: labels k
  | GChoice _ _ bs => flat_map (fun b => gb_label b :: labels (gb_cont b)) bs
  | GRec _ body => labels body
  | GlobalCall _ _ k => labels k
  | GlobalBox en body ex k => en :: ex :: labels body ++ labels k
  | GVar _ | GEnd => []
  end.

(** No calls and no boxes: the finite-state fragment. *)
Fixpoint call_free (g : GlobalType) : bool :=
  match g with
  | GInteraction _ _ _ k => call_free k
  | GChoice _ _ bs => forallb (fun b => call_free (gb_cont b)) bs
  | GRec _ body => call_free body
  | GlobalCall _ _ _ | GlobalBox _ _ _ _ => false
  | GVar _ | GEnd => true
  end.

(** A message name is used with one medium only. *)
Definition consistent_media (g : GlobalType) : Prop :=
  ∀ l l', l ∈ labels g → l' ∈ labels g → name l = name l' → medium l = medium l'.

#[global] Instance consistent_media_dec g : Decision (consistent_media g).
Proof.
  refine (cast_if (decide (Forall (fun l => Forall (fun l' => name l = name l' → medium l = medium l')
    (labels g)) (labels g)))); unfold consistent_media;
  [abstract (rewrite Forall_forall in *; setoid_rewrite Forall_forall in f; eauto)|
   abstract (intros H; apply n; apply Forall_forall; intros; apply Forall_forall; eauto)].
Defined.

(** The medium assignment of a type with consistent media. *)
Definition medium_of (g : GlobalType) (n : string) : MessageMedium :=
  default Text (medium <$> find_first (fun l => bool_decide (name l = n)) (labels g)).

Lemma medium_of_ok g l : consistent_media g → l ∈ labels g → label_ok (medium_of g) l.
Proof.
  intros Hc Hl. unfold label_ok, medium_of, find_first.
  destruct (List.find _ _) as [l'|] eqn:Ef; simpl.
  - apply List.find_some in Ef as [Hin E%bool_decide_eq_true].
    apply Hc; [done|by apply list_elem_of_In|done].
  - eapply List.find_none in Ef; [|by apply list_elem_of_In].
    by rewrite bool_decide_eq_false in Ef.
Qed.

Lemma labels_branch from to bs b : b ∈ bs →
  gb_label b ∈ labels (GChoice from to bs) ∧ labels (gb_cont b) ⊆ labels (GChoice from to bs).
Proof.
  intros Hb. simpl. split.
  - apply list_elem_of_In, in_flat_map. exists b.
    split; [by apply list_elem_of_In|by left].
  - intros l Hl. apply list_elem_of_In, in_flat_map. exists b.
    split; [by apply list_elem_of_In|right; by apply list_elem_of_In].
Qed.

Section project.
Context (flat : bool) (f : string → MessageMedium) (r : Role).

(** The arms of a choice the role takes part in. *)
Lemma project_branches_ok Γ bs lbs :
  omapM (fun b => let* c := project (gb_cont b) r in Ok (mkLocalBranch (gb_label b) c)) bs = Ok lbs →
  NoDup (map (fun b => name (gb_label b)) bs) →
  Forall (fun b => label_ok f (gb_label b)) bs →
  Forall (fun b => ∀ L, project (gb_cont b) r = Ok L → lok flat f Γ L) bs →
  NoDup (map (fun b => name (lb_label b)) lbs) ∧
  Forall (fun b => label_ok f (lb_label b) ∧ lok flat f Γ (lb_cont b)) lbs.
Proof.
  intros Hm%omapM_Ok Hnd Hl IH.
  assert (E : map (fun b => name (lb_label b)) lbs = map (fun b => name (gb_label b)) bs).
  { clear -Hm. induction Hm; simpl; [done|]. inv_obind. simpl. congruence. }
  rewrite E. split; [done|]. clear Hnd E.
  induction Hm as [|b lb bs lbs Hb Hm IHm]; [constructor|].
  inversion Hl; inversion IH; subst. inv_obind. constructor; eauto.
Qed.

(** The fold of [merge] over the arms of a choice the role stands by. *)
Lemma merge_arms_ok Γ bs : ∀ acc c,
  lok flat f Γ acc →
  Forall (fun b => ∀ L, project (gb_cont b) r = Ok L → lok flat f Γ L) bs →
  ofold (fun acc b => let* pj := project (gb_cont b) r in merge acc pj) acc bs = Ok c →
  lok flat f Γ c ∧ subsumes c acc ∧
  Forall (fun b => ∃ L, project (gb_cont b) r = Ok L ∧ subsumes c L) bs.
Proof.
  induction bs as [|b bs IHbs]; intros acc c Hacc IH Hf; simpl in Hf.
  { inv_obind. split_and!; [done|apply subsumes_refl|constructor]. }
  inversion IH; subst. inv_obind.
  destruct (merge_ok flat f a0 Γ acc a) as (Hm & Hma & Hmb); [done|eauto|done|].
  destruct (IHbs a c) as (Hc & Hca & Hall); [done|done|done|].
  split_and!; [done|exact (subsumes_trans _ _ _ Hca Hma)|].
  constructor; [|done]. eexists. split; [done|]. exact (subsumes_trans _ _ _ Hca Hmb).
Qed.

Lemma project_ok g : ∀ Γ L,
  wf Γ g → (∀ l, l ∈ labels g → label_ok f l) → (flat = true → call_free g = true) →
  project g r = Ok L → lok flat f Γ L.
Proof.
  induction g as [from to l k IH|from to bs IH|v body IH|v|c s k IH|en body ex k IHb IHk|]
    using GlobalType_rect_branches; intros Γ L Hw Hl Hfl Hp; simpl in Hp, Hl; inversion Hw; subst.
  - inv_obind. assert (lok flat f Γ a) by (eapply IH; [done|set_solver|done|done]).
    assert (label_ok f l) by (apply Hl; by left).
    repeat case_decide; inv_obind; by try constructor.
  - assert (IH' : Forall (fun b => ∀ L, project (gb_cont b) r = Ok L → lok flat f Γ L) bs).
    { rewrite Forall_forall in *. intros b Hb L' HL'. eapply IH; eauto.
      - intros l' Hl'. apply Hl. by apply (labels_branch from to bs b).
      - intros E. specialize (Hfl E). simpl in Hfl. rewrite forallb_forall in Hfl.
        by apply Hfl, list_elem_of_In. }
    assert (Hlb : Forall (fun b => label_ok f (gb_label b)) bs).
    { apply Forall_forall. intros b Hb. apply Hl. exact (proj1 (labels_branch from to bs b Hb)). }
    destruct (decide (r = from)) as [_|_]; [|destruct (decide (r = to)) as [_|_]];
      [inv_obind; destruct (project_branches_ok Γ bs a) as [? ?]; auto; by constructor..|].
    destruct bs as [|b bs]; [done|]. inversion IH'; subst. inv_obind.
    eapply merge_arms_ok; eauto.
  - inv_obind. constructor. eapply IH; eauto.
  - inv_obind. by constructor.
  - inv_obind. assert (flat = false) by (destruct flat; [by specialize (Hfl eq_refl)|done]).
    assert (lok flat f Γ a) by (eapply IH; [done|done|congruence|done]).
    case_decide; inv_obind; by try constructor.
  - inv_obind. assert (flat = false) by (destruct flat; [by specialize (Hfl eq_refl)|done]).
    assert (lok flat f Γ a) by (eapply IHk; [done|set_solver|congruence|done]).
    case_match; inv_obind; [|done]. constructor; [done| |done].
    eapply IHb; [done|set_solver|congruence|done].
  - inv_obind. constructor.
Qed.

(** A bystander's projection of a choice subsumes its projection of any arm. *)
Lemma project_bystander Γ from to bs L b :
  wf Γ (GChoice from to bs) → (∀ l, l ∈ labels (GChoice from to bs) → label_ok f l) →
  (flat = true → call_free (GChoice from to bs) = true) →
  project (GChoice from to bs) r = Ok L → r ≠ from → r ≠ to → b ∈ bs →
  ∃ Lb, project (gb_cont b) r = Ok Lb ∧ subsumes L Lb.
Proof.
  intros Hw Hl Hfl Hp Hf Ht Hb. simpl in Hp. rewrite !decide_False in Hp by done.
  inversion Hw as [|? ? ? ? ? ? Hwb| | | | |]; subst.
  assert (IH : Forall (fun b => ∀ L, project (gb_cont b) r = Ok L → lok flat f Γ L) bs).
  { rewrite Forall_forall in *. intros b' Hb' L'. apply project_ok; [by apply Hwb| |].
    - intros l' Hl'. apply Hl. by apply (labels_branch from to bs b').
    - intros E. specialize (Hfl E). simpl in Hfl. rewrite forallb_forall in Hfl.
      by apply Hfl, list_elem_of_In. }
  destruct bs as [|b0 bs]; [done|]. inversion IH; subst. inv_obind.
  edestruct (merge_arms_ok Γ bs a L) as (_ & Hfst & Hall); [eauto|done|done|].
  apply elem_of_cons in Hb as [->|Hb]; [eauto|].
  rewrite Forall_forall in Hall. eauto.
Qed.
End project.
