(* ===== verification/CsmOccurs.v ===== *)
(** Where the parts of a projection come from: whatever occurs in the
    projection of a protocol (an action, a call) occurs in the protocol.  One
    theorem over arbitrary predicates on the parts, which the medium discipline
    and the termination of the compiler instantiate. *)

From stdpp Require Import base strings list gmap.
From S2P Require Import Prelude BTree CsmRole CsmGlobal CsmLocal CsmProject.

(** * Occurrence *)

Section local.
Context (snd rcv : Role → Label → Prop) (cal : ProtocolRef → BTreeMap Role Role → Prop).

(** Some send satisfies [snd], some receive [rcv] or some call [cal]. *)
Fixpoint local_has (lt : LocalType) : Prop :=
  match lt with
  | LSend to l k => snd to l ∨ local_has k
  | LRecv from l k => rcv from l ∨ local_has k
  | LSelect to bs => some_in (fun b => snd to (lb_label b) ∨ local_has (lb_cont b)) bs
  | LBranch from bs => some_in (fun b => rcv from (lb_label b) ∨ local_has (lb_cont b)) bs
  | LRec _ b => local_has b
  | LocalCall c s k => cal c s ∨ local_has k
  | LocalBox _ b _ k => local_has b ∨ local_has k
  | LVar _ | LEnd => False
  end.
End local.

Section global.
Context (com : Role → Role → Label → Prop) (cal : ProtocolRef → BTreeMap Role Role → Prop).

(** Some communication satisfies [com] or some call [cal]. *)
Fixpoint global_has (g : GlobalType) : Prop :=
  match g with
  | GInteraction from to l k => com from to l ∨ global_has k
  | GChoice from to bs => some_in (fun b => com from to (gb_label b) ∨ global_has (gb_cont b)) bs
  | GRec _ b => global_has b
  | GlobalCall c s k => cal c s ∨ global_has k
  | GlobalBox _ b _ k => global_has b ∨ global_has k
  | GVar _ | GEnd => False
  end.
End global.

Lemma global_has_mono (com com' : Role → Role → Label → Prop)
    (cal cal' : ProtocolRef → BTreeMap Role Role → Prop) g :
  (∀ f t l, com f t l → com' f t l) → (∀ c s, cal c s → cal' c s) →
  global_has com cal g → global_has com' cal' g.
Proof.
  intros Hc Hs.
  induction g as [from to l k IH|from to bs IH|v body IH|v|c s k IH|en body ex k IHb IHk|]
    using GlobalType_rect_branches; simpl; [naive_solver| |naive_solver..].
  rewrite Forall_forall in IH. rewrite !some_in_spec. naive_solver.
Qed.

(** * [merge] *)
Section merge.
Context (snd rcv : Role → Label → Prop) (cal : ProtocolRef → BTreeMap Role Role → Prop).
Notation has := (local_has snd rcv cal).

(** One arm of an offer: receive its label, or what follows. *)
Definition arm_has (from : Role) (b : LocalBranch) : Prop := rcv from (lb_label b) ∨ has (lb_cont b).

Lemma offer_has t from bs : as_offer t = Some (from, bs) →
  has t ↔ ∃ b, b ∈ bs ∧ arm_has from b.
Proof.
  destruct t as [|f l k| |f bs'| | | | |]; simpl; intros; simplify_eq.
  - unfold arm_has. set_solver.
  - by rewrite some_in_spec.
Qed.

Lemma offer_index_entries ba :
  bm_ok (offer_index ba) ∧ ∀ k b, bm_get (offer_index ba) k = Some b → b ∈ ba.
Proof.
  unfold offer_index. induction ba as [|x ba [Hok IH]] using rev_ind; [split; [constructor|done]|].
  rewrite foldl_app. simpl. split; [auto|]. intros k b. rewrite bm_get_insert by done.
  case_decide; [intros; simplify_eq; set_solver|]. intros ?%IH. set_solver.
Qed.

(** The arms collected so far only have what [P] accounts for.  The label of a
    merged arm is the left one. *)
Definition index_has (from : Role) (P : Prop) (m : BTreeMap string LocalBranch) : Prop :=
  bm_ok m ∧ ∀ k b, bm_get m k = Some b → arm_has from b → P.

Definition merge_keeps (b : LocalType) : Prop := ∀ x c, merge x b = Ok c → has c → has x ∨ has b.

Lemma offer_step_has from P m m' br : merge_keeps (lb_cont br) → (arm_has from br → P) →
  index_has from P m → offer_step merge m br = Ok m' → index_has from P m'.
Proof.
  intros Hbr HP [Hok Hm] Hs. unfold offer_step in Hs.
  destruct (bm_get m (name (lb_label br))) as [ex|] eqn:Eg.
  - apply obind_Ok_inv in Hs as (c & Hc & [= <-]). split; [auto|]. intros k b Hg Hhas.
    rewrite bm_get_insert in Hg by auto. case_decide as Hk.
    + simplify_eq. destruct Hhas as [H|H]; simpl in H; [apply (Hm _ _ Eg); by left|].
      destruct (Hbr _ _ Hc H) as [H'|H']; [apply (Hm _ _ Eg)|apply HP]; by right.
    + rewrite bm_get_remove in Hg by done. case_decide; [done|]. eauto.
  - simplify_eq. split; [auto|]. intros k b Hg Hhas. rewrite bm_get_insert in Hg by done.
    case_decide; [|eauto]. simplify_eq. auto.
Qed.

Lemma offer_steps_has from P bb : Forall (fun br => merge_keeps (lb_cont br)) bb →
  (∀ b, b ∈ bb → arm_has from b → P) → ∀ m m', index_has from P m →
  ofold (offer_step merge) m bb = Ok m' → index_has from P m'.
Proof.
  induction 1 as [|br bb Hbr Hbb IH]; intros HP m m' Hm Hf; simpl in Hf; [by simplify_eq|].
  apply obind_Ok_inv in Hf as (m1 & Hs & Hf).
  eapply IH; [set_solver| |exact Hf]. eapply offer_step_has; [done| |done|done]. apply HP. by left.
Qed.

Lemma merge_offers_has from ta tb ba bb c :
  as_offer ta = Some (from, ba) → as_offer tb = Some (from, bb) →
  Forall (fun br => merge_keeps (lb_cont br)) bb →
  merge_offers merge from ba bb = Ok c → has c → has ta ∨ has tb.
Proof.
  intros Ha Hb Hbb Hm Hc. unfold merge_offers in Hm. apply obind_Ok_inv in Hm as (m & Hf & [= <-]).
  destruct (offer_index_entries ba) as [Hok Hin].
  destruct (offer_steps_has from (has ta ∨ has tb) bb Hbb) with (m := offer_index ba) (m' := m)
    as [Hok' Hall]; [| |done|].
  - intros b' Hb' Hhas. right. apply (offer_has _ _ _ Hb). by exists b'.
  - split; [done|]. intros k b' Hg Hhas. left. apply (offer_has _ _ _ Ha). exists b'. eauto.
  - apply (offer_has (LBranch from (bm_values m)) from _ eq_refl) in Hc as (b' & Hb' & Hc).
    apply list_elem_of_fmap in Hb' as ([k b2] & -> & Hb'). apply bm_get_Some in Hb'; [|done]. eauto.
Qed.

(** What the merge of two types has, one of them has. *)
Lemma merge_has b : merge_keeps b.
Proof.
  induction b as [to l k IH|from l k IH|to bs IH|from bs IH|v body IH|v|ca s k IH|en body ex k IHb IHk|]
    using LocalType_rect_branches; intros x c Hm Hc; rewrite merge_unfold in Hm; unfold merge_body in Hm;
    (destruct (local_eqb x _) eqn:Eeq; [simplify_eq; by left|]).
  2, 4: destruct (as_offer x) as [[fa ba]|] eqn:Ea; cbn [as_offer] in Hm;
    [|destruct x; discriminate]; case_decide; [|discriminate]; subst;
    eapply (merge_offers_has from x); [exact Ea|reflexivity|first [exact IH|by constructor]|exact Hm|exact Hc].
  all: destruct x; simpl in Hm; try discriminate Hm; case_decide; try discriminate Hm; destruct_and?; subst;
    inv_obind; unfold merge_keeps in *; simpl in *; naive_solver.
Qed.

(** * [project] *)
Section project.
Context (r : Role).
Notation ghas := (global_has (fun f t l => (r = f ∧ snd t l) ∨ (r = t ∧ rcv f l)) cal).

(** A bystander's projection of a choice has what some arm's projection has. *)
Lemma merge_arms_has arms acc L :
  ofold (fun acc b => let* pj := project (gb_cont b) r in merge acc pj) acc arms = Ok L → has L →
  has acc ∨ ∃ b Lb, b ∈ arms ∧ project (gb_cont b) r = Ok Lb ∧ has Lb.
Proof.
  revert acc. induction arms as [|b arms IH]; intros acc H HL; simpl in H; [simplify_eq; by left|].
  apply obind_Ok_inv in H as (c & Hc & H). apply obind_Ok_inv in Hc as (Lb & HLb & Hc).
  destruct (IH c H HL) as [Hac|(b' & Lb' & Hb' & ?)]; [|right; exists b', Lb'; set_solver].
  destruct (merge_has _ _ _ Hc Hac) as [?|?]; [by left|]. right. exists b, Lb. set_solver.
Qed.

(** The arms of a driven choice are the projections of its branches. *)
Lemma project_arms bs lbs : omapM (fun b => let* c := project (gb_cont b) r in
    Ok (mkLocalBranch (gb_label b) c)) bs = Ok lbs →
  ∀ lb, lb ∈ lbs → ∃ b, b ∈ bs ∧ gb_label b = lb_label lb ∧ project (gb_cont b) r = Ok (lb_cont lb).
Proof.
  intros Hm%omapM_Ok lb Hlb. apply list_elem_of_lookup in Hlb as [i Hi].
  destruct (Forall2_lookup_r _ _ _ _ _ Hm Hi) as (b & Hb & E).
  apply obind_Ok_inv in E as (Lb & HLb & [= <-]).
  exists b. split_and!; [by eapply list_elem_of_lookup_2|done|done].
Qed.

Lemma project_has g : ∀ L, project g r = Ok L → has L → ghas g.
Proof.
  induction g as [from to l k IH|from to bs IH|v body IH|v|c s k IH|en body ex k IHb IHk|]
    using GlobalType_rect_branches; intros L Hp HL; simpl in Hp |- *.
  - apply obind_Ok_inv in Hp as (Lk & Hk & Hp). specialize (IH Lk Hk).
    repeat case_decide; simplify_eq/=; naive_solver.
  - rewrite Forall_forall in IH. apply some_in_spec. repeat case_decide.
    + apply obind_Ok_inv in Hp as (lbs & Hm & [= <-]). simpl in HL. rewrite some_in_spec in HL.
      destruct HL as (lb & Hlb & HL). destruct (project_arms _ _ Hm _ Hlb) as (b & Hb & El & HLb).
      exists b. split; [done|]. rewrite El. naive_solver.
    + apply obind_Ok_inv in Hp as (lbs & Hm & [= <-]). simpl in HL. rewrite some_in_spec in HL.
      destruct HL as (lb & Hlb & HL). destruct (project_arms _ _ Hm _ Hlb) as (b & Hb & El & HLb).
      exists b. split; [done|]. rewrite El. naive_solver.
    + destruct bs as [|b0 bs]; [done|]. apply obind_Ok_inv in Hp as (acc & Hacc & Hfold).
      destruct (merge_arms_has _ _ _ Hfold HL) as [Ha|(b & Lb & Hb & HLb & Hhas)];
        [exists b0|exists b]; (split; [set_solver|right; eapply IH; [set_solver|done|done]]).
  - apply obind_Ok_inv in Hp as (Lb & Hb & [= <-]). eauto.
  - by simplify_eq.
  - apply obind_Ok_inv in Hp as (Lk & Hk & Hp). case_decide; simplify_eq/=; naive_solver.
  - apply obind_Ok_inv in Hp as (Lk & Hk & Hp). specialize (IHk Lk Hk). case_match; [|simplify_eq; auto].
    apply obind_Ok_inv in Hp as (Lb & Hb & [= <-]). simpl in HL. naive_solver.
  - by simplify_eq.
Qed.
End project.
End merge.
