(* ===== verification/CsmMachine.v ===== *)
(** [src/csm/machine.rs]: compiling a local type to a state machine, and
    assembling the network of a global type.  [src/csm/transition.rs]: the
    legality check of one communication. *)

From stdpp Require Import base strings list gmap pretty.
From S2P Require Import Prelude BTree CsmRole CsmGlobal CsmLocal CsmWellformed CsmProject.

(** A state index within a machine. *)
Definition LocalState : Type := nat.

(** The visibly-pushdown class of an edge. *)
Inductive EdgeKind :=
| Internal
| Call (return_state : LocalState)
| Return.

#[global] Instance EdgeKind_eq_dec : EqDecision EdgeKind.
Proof. unfold EqDecision. intros [|r|] [|r'|]; try (by left); try (by right).
  destruct (Nat.eq_dec r r'); [left|right]; congruence. Defined.

(** A labelled transition. *)
Record LocalEdge := mkEdge {
  e_from : LocalState;
  e_action : Action;
  e_to : LocalState;
  e_kind : EdgeKind;
}.

(** One role's communicating machine. *)
Record LocalMachine := mkMachine {
  m_role : Role;
  n_states : nat;
  initial : LocalState;
  edges : list LocalEdge;
  terminals : BTreeSet LocalState;
}.

(** Edges leaving [state], in the order they were pushed. *)
Definition edges_of (es : list LocalEdge) (state : nat) : list LocalEdge :=
  filter (fun e => e_from e = state) es.

Definition edges_from (m : LocalMachine) (state : LocalState) : list LocalEdge :=
  edges_of (edges m) state.

Definition is_terminal (m : LocalMachine) (state : LocalState) : bool :=
  bs_contains (terminals m) state.

(** * The compiler *)

(** The mutable part of [Compiler]; [box_exit_labels] has the top of the
    [Vec]-based stack first. *)
Record Compiler := mkCompiler {
  c_edges : list LocalEdge;
  c_n : nat;
  c_terminals : BTreeSet nat;
  rec_env : gmap string nat;
  box_exit_labels : list Label;
  box_memo : gmap (string * Role) nat;
}.

Definition compiler_new : Compiler :=
  {| c_edges := []; c_n := 0; c_terminals := []; rec_env := ∅;
     box_exit_labels := []; box_memo := ∅ |}.

Definition push_edge (c : Compiler) (e : LocalEdge) : Compiler :=
  {| c_edges := c_edges c ++ [e]; c_n := c_n c; c_terminals := c_terminals c;
     rec_env := rec_env c; box_exit_labels := box_exit_labels c; box_memo := box_memo c |}.

Definition add_terminal (c : Compiler) (s : nat) : Compiler :=
  {| c_edges := c_edges c; c_n := c_n c; c_terminals := bs_insert (c_terminals c) s;
     rec_env := rec_env c; box_exit_labels := box_exit_labels c; box_memo := box_memo c |}.

Definition set_rec_env (c : Compiler) (ρ : gmap string nat) : Compiler :=
  {| c_edges := c_edges c; c_n := c_n c; c_terminals := c_terminals c;
     rec_env := ρ; box_exit_labels := box_exit_labels c; box_memo := box_memo c |}.

Definition set_exits (c : Compiler) (ls : list Label) : Compiler :=
  {| c_edges := c_edges c; c_n := c_n c; c_terminals := c_terminals c;
     rec_env := rec_env c; box_exit_labels := ls; box_memo := box_memo c |}.

Definition set_memo (c : Compiler) (key : string * Role) (s : nat) : Compiler :=
  {| c_edges := c_edges c; c_n := c_n c; c_terminals := c_terminals c;
     rec_env := rec_env c; box_exit_labels := box_exit_labels c;
     box_memo := <[key := s]> (box_memo c) |}.

(** [Compiler::fresh] *)
Definition fresh_state (c : Compiler) : nat * Compiler :=
  (c_n c,
   {| c_edges := c_edges c; c_n := S (c_n c); c_terminals := c_terminals c;
      rec_env := rec_env c; box_exit_labels := box_exit_labels c; box_memo := box_memo c |}).

(** [entry.unwrap_or_else(|| self.fresh())] *)
Definition alloc (entry : option nat) (c : Compiler) : nat * Compiler :=
  match entry with Some s => (s, c) | None => fresh_state c end.

(** What compiling a node returns: its entry state and the new compiler. *)
Abbreviation compiled := (outcome ProjectionError (nat * Compiler)).

Section compile.
Context (role : Role) (penv : ProtocolEnv).

(** [Compiler::compile_callee_box]; [go] is the compiler of the callee's
    body. *)
Definition compile_callee_box (go : LocalType → option nat → Compiler → compiled)
    (callee_name : string) (cr : Role) (c : Compiler) : compiled :=
  match box_memo c !! (callee_name, cr) with
  | Some e => Ok (e, c)
  | None =>
      let* g := ok_or (penv_resolve penv (mkProtocolRef callee_name)) (UnresolvedCallee callee_name) in
      let* callee_lt := project g cr in
      let (entry, c1) := fresh_state c in
      let c2 := set_memo c1 (callee_name, cr) entry in
      let c3 := set_exits c2 (label_text ("ret:" +:+ callee_name) :: box_exit_labels c2) in
      let* (_, c4) := go callee_lt (Some entry) c3 in
      Ok (entry, set_exits c4 (tl (box_exit_labels c4)))
  end.

(** One arm of a [Select] or a [Branch]. *)
Definition compile_branch (go : LocalType → option nat → Compiler → compiled)
    (s : nat) (act : Label → Action) (c : Compiler) (br : LocalBranch) :
    outcome ProjectionError Compiler :=
  let* (t, c') := go (lb_cont br) None c in
  Ok (push_edge c' (mkEdge s (act (lb_label br)) t Internal)).

(** [Compiler::go].  [fuel] bounds the nesting of callee expansions; within
    one local type the recursion is structural.  The [debug_assert_eq!]s are
    not part of the model: they are compiled out of a release build. *)
Fixpoint go (fuel : nat) {struct fuel} : LocalType → option nat → Compiler → compiled :=
  fix go_lt (lt : LocalType) (entry : option nat) (c : Compiler) {struct lt} : compiled :=
    match lt with
    | LEnd =>
        let (s, c) := alloc entry c in
        match box_exit_labels c with
        | exit_label :: _ => Ok (s, push_edge c (mkEdge s (ASend role exit_label) s Return))
        | [] => Ok (s, add_terminal c s)
        end
    | LVar var => let* s := expect (rec_env c !! var) in Ok (s, c)
    | LRec var body =>
        let (s, c) := alloc entry c in
        let prev := rec_env c !! var in
        let* (_, c) := go_lt body (Some s) (set_rec_env c (<[var := s]> (rec_env c))) in
        Ok (s, set_rec_env c (match prev with
                              | Some p => <[var := p]> (rec_env c)
                              | None => delete var (rec_env c)
                              end))
    | LSend to label cont =>
        let (s, c) := alloc entry c in
        let* (t, c) := go_lt cont None c in
        Ok (s, push_edge c (mkEdge s (ASend to label) t Internal))
    | LRecv from label cont =>
        let (s, c) := alloc entry c in
        let* (t, c) := go_lt cont None c in
        Ok (s, push_edge c (mkEdge s (ARecv from label) t Internal))
    | LSelect to branches =>
        let (s, c) := alloc entry c in
        let* c := ofold (compile_branch go_lt s (ASend to)) c branches in Ok (s, c)
    | LBranch from branches =>
        let (s, c) := alloc entry c in
        let* c := ofold (compile_branch go_lt s (ARecv from)) c branches in Ok (s, c)
    | LocalCall callee subst cont =>
        let (s, c) := alloc entry c in
        let* (ret, c) := go_lt cont None c in
        let* cr := expect (fst <$> find_first (fun kv => bool_decide (kv.2 = role)) subst) in
        let* (box_entry, c) :=
          compile_callee_box (match fuel with S fuel' => go fuel' | O => fun _ _ _ => OutOfFuel end)
                             (ref_name callee) cr c in
        Ok (s, push_edge c (mkEdge s (ASend role (label_text ("call:" +:+ ref_name callee)))
                                   box_entry (Call ret)))
    | LocalBox enter body exit cont =>
        let (s, c) := alloc entry c in
        let* (ret, c) := go_lt cont None c in
        let (body_entry, c) := fresh_state c in
        let* (_, c) := go_lt body (Some body_entry) (set_exits c (exit :: box_exit_labels c)) in
        let c := set_exits c (tl (box_exit_labels c)) in
        Ok (s, push_edge c (mkEdge s (ASend role enter) body_entry (Call ret)))
    end.

End compile.

(** ** Fuel: the calls a compilation can expand *)

(** The [(callee, callee-role)] pairs named by the calls of a type. *)
Fixpoint call_keys (g : GlobalType) : list (string * Role) :=
  match g with
  | GInteraction _ _ _ k => call_keys k
  | GChoice _ _ bs => flat_map (fun b => call_keys (gb_cont b)) bs
  | GRec _ b => call_keys b
  | GlobalCall c s k => map (fun kv => (ref_name c, kv.1)) s ++ call_keys k
  | GlobalBox _ b _ k => call_keys b ++ call_keys k
  | GVar _ | GEnd => []
  end.

Fixpoint lcall_keys (lt : LocalType) : list (string * Role) :=
  match lt with
  | LSend _ _ k | LRecv _ _ k => lcall_keys k
  | LSelect _ bs | LBranch _ bs => flat_map (fun b => lcall_keys (lb_cont b)) bs
  | LRec _ b => lcall_keys b
  | LocalCall c s k => map (fun kv => (ref_name c, kv.1)) s ++ lcall_keys k
  | LocalBox _ b _ k => lcall_keys b ++ lcall_keys k
  | LVar _ | LEnd => []
  end.

Definition all_call_keys (lt : LocalType) (penv : ProtocolEnv) : list (string * Role) :=
  lcall_keys lt ++ flat_map call_keys (bm_values (protocols penv)).

(** A memoized box is never expanded again, so one unit per pair is enough. *)
Definition compile_fuel (lt : LocalType) (penv : ProtocolEnv) : nat :=
  length (all_call_keys lt penv).

Definition compile_in (role : Role) (lt : LocalType) (penv : ProtocolEnv) :
    outcome ProjectionError LocalMachine :=
  let* (s0, c) := go role penv (compile_fuel lt penv) lt None compiler_new in
  Ok {| m_role := role; n_states := c_n c; initial := s0;
        edges := c_edges c; terminals := c_terminals c |}.

(** [compile]: the call-free wrapper; it unwraps the [Result]. *)
Definition compile (role : Role) (lt : LocalType) : outcome ProjectionError LocalMachine :=
  match compile_in role lt penv_new with Ok m => Ok m | OutOfFuel => OutOfFuel | _ => Panic end.

(** * Networks *)
Record Network := mkNetwork {
  protocol : string;
  machines : BTreeMap Role LocalMachine;
  channels : BTreeSet Channel;
}.

Fixpoint collect_channels (g : GlobalType) (acc : BTreeSet Channel) : BTreeSet Channel :=
  match g with
  | GInteraction from to _ cont => collect_channels cont (bs_insert acc (mkChannel from to))
  | GChoice from to branches =>
      foldl (fun acc b => collect_channels (gb_cont b) acc)
            (bs_insert acc (mkChannel from to)) branches
  | GRec _ body => collect_channels body acc
  | GlobalCall _ _ cont => collect_channels cont acc
  | GlobalBox _ body _ cont => collect_channels cont (collect_channels body acc)
  | GVar _ | GEnd => acc
  end.

(** The loop body of [build_in]. *)
Definition build_role (g : GlobalType) (penv : ProtocolEnv)
    (ms : BTreeMap Role LocalMachine) (r : Role) :
    outcome ProjectionError (BTreeMap Role LocalMachine) :=
  let* lt := project g r in
  let* m := compile_in r lt penv in
  Ok (bm_insert ms r m).

Definition build_in (proto : string) (g : GlobalType) (penv : ProtocolEnv) :
    outcome ProjectionError Network :=
  let* ms := ofold (build_role g penv) [] (participants g) in
  Ok {| protocol := proto; machines := ms; channels := collect_channels g [] |}.

Definition build (proto : string) (g : GlobalType) : outcome ProjectionError Network :=
  build_in proto g penv_new.

Definition machine (net : Network) (r : Role) : option LocalMachine := bm_get (machines net) r.

(** * [src/csm/transition.rs] *)

(** The label at the head of the input channel, when FIFO order is checked. *)
Record StepContext := mkStepContext { recv_head : option Label }.

Inductive StepError :=
| NoEdge (state : LocalState)
| RecvNotHead (expected head : string).

#[global] Instance StepError_eq_dec : EqDecision StepError.
Proof. unfold EqDecision. intros [s|e h] [s'|e' h']; try (by right).
  - destruct (Nat.eq_dec s s'); [left|right]; congruence.
  - destruct (decide (e = e' ∧ h = h')) as [[-> ->]|]; [by left|right; naive_solver].
Defined.

(** [StepError::message] *)
Definition step_message (e : StepError) : string :=
  match e with
  | NoEdge state => "no legal action from state " +:+ pretty (state : nat)
  | RecvNotHead expected head =>
      "receive expected '" +:+ expected +:+ "' but channel head is '" +:+ head +:+ "'"
  end%string.

(** The FIFO guard of a receive: [Some head] is a head that does not match. *)
Definition fifo_mismatch (action : Action) (ctx : StepContext) : option (string * string) :=
  match action, recv_head ctx with
  | ARecv _ label, Some head =>
      if decide (name head = name label) then None else Some (name label, name head)
  | _, _ => None
  end.

(** The loop of [check_step] over the edges leaving [state]. *)
Fixpoint check_edges (es : list LocalEdge) (state : LocalState) (action : Action)
    (ctx : StepContext) : outcome StepError nat :=
  match es with
  | [] => Err (NoEdge state)
  | e :: es' =>
      if decide (e_kind e ≠ Internal) then check_edges es' state action ctx
      else if decide (e_action e = action) then
        match fifo_mismatch action ctx with
        | Some (expected, head) => Err (RecvNotHead expected head)
        | None => Ok (e_to e)
        end
      else check_edges es' state action ctx
  end.

Definition check_step (m : LocalMachine) (state : LocalState) (action : Action)
    (ctx : StepContext) : outcome StepError nat :=
  check_edges (edges_from m state) state action ctx.
