(* ===== verification/CsmRegistry.v ===== *)
(** [src/csm/examples.rs] and [src/csm/registry.rs]: the worked protocols, the
    collaboration patterns, and the environment of callable protocols. *)

From stdpp Require Import base strings list gmap pretty.
From S2P Require Import Prelude BTree Vocab CsmRole CsmGlobal.

(** * Constructors of [global.rs] *)
Definition interaction (from to : Role) (label : Label) (cont : GlobalType) : GlobalType :=
  GInteraction from to label cont.
Definition choice (from to : Role) (branches : list GlobalBranch) : GlobalType :=
  GChoice from to branches.
Definition gbranch (label : Label) (cont : GlobalType) : GlobalBranch := mkGlobalBranch label cont.
Definition grec (var : TypeVar) (body : GlobalType) : GlobalType := GRec var body.
Definition gvar (var : TypeVar) : GlobalType := GVar var.
Definition gend : GlobalType := GEnd.
Definition gcall (callee : ProtocolRef) (subst : BTreeMap Role Role) (cont : GlobalType) : GlobalType :=
  GlobalCall callee subst cont.
Definition gbox (enter : Label) (body : GlobalType) (exit : Label) (cont : GlobalType) : GlobalType :=
  GlobalBox enter body exit cont.

(** * [examples.rs] *)
Definition deliberation : GlobalType :=
  grec "t"
    (interaction "O" "R" (label_text "reflect_req")
      (choice "R" "O"
        [ gbranch (label_text "converged")
            (interaction "O" "T" (label_text "finish")
              (interaction "T" "O" (label_text "final") gend));
          gbranch (label_text "continue")
            (interaction "O" "T" (label_text "act_req")
              (interaction "T" "O" (label_text "result") (gvar "t"))) ])).

Definition worktree_negotiation : GlobalType :=
  interaction "R" "E" (label_text "request_worktree")
    (choice "E" "R"
      [ gbranch (label_text "accept") (interaction "E" "R" (label_text "moved") gend);
        gbranch (label_text "decline") gend ]).

(** One looping arm of [tape_paging]. *)
Definition looping_arm (verb ack : string) : GlobalBranch :=
  gbranch (label_text verb) (interaction "Tape" "O" (label_text ack) (gvar "loop")).

Definition tape_paging : GlobalType :=
  grec "loop"
    (interaction "O" "Tape" (label_text "page_in_req")
      (interaction "Tape" "O" (label_text "page_in_ack")
        (choice "O" "Tape"
          [ looping_arm "get" "got";
            looping_arm "put" "put_ack";
            looping_arm "page_out" "evicted";
            looping_arm "demote" "demoted";
            gbranch (label_text "done") gend ]))).

Definition recursive_cf : GlobalType :=
  let subst := bm_insert (bm_insert [] (mkRole "O") (mkRole "O")) (mkRole "Sub") (mkRole "Sub") in
  interaction "O" "Sub" (label_text "subcall")
    (choice "O" "Sub"
      [ gbranch (label_text "leaf") (interaction "Sub" "O" (label_text "subresult") gend);
        gbranch (label_text "recurse")
          (gcall (mkProtocolRef "recursive_cf") subst
            (interaction "Sub" "O" (label_text "subresult") gend)) ]).

Definition hsm_tool_box : GlobalType :=
  interaction "O" "W" (label_text "task")
    (gbox (label_text "enter_tool")
      (interaction "W" "Tool" (label_text "invoke")
        (interaction "Tool" "W" (label_text "result") gend))
      (label_text "exit_tool")
      (interaction "W" "O" (label_text "done") gend)).

(** * [registry.rs] *)
Inductive ProtocolId :=
| Sequential | Mixture | Distillation | Deliberation | Recursive
| WorktreeNegotiation | TapePaging | RecursiveCf.

#[global] Instance ProtocolId_eq_dec : EqDecision ProtocolId.
Proof. solve_decision. Defined.

Definition ProtocolId_ALL : list ProtocolId :=
  [Sequential; Mixture; Distillation; Deliberation; Recursive;
   WorktreeNegotiation; TapePaging; RecursiveCf].

(** [ProtocolId::name] *)
Definition protocol_name (p : ProtocolId) : string :=
  match p with
  | Sequential => "sequential"
  | Mixture => "mixture"
  | Distillation => "distillation"
  | Deliberation => "deliberation"
  | Recursive => "recursive"
  | WorktreeNegotiation => "worktree_negotiation"
  | TapePaging => "tape_paging"
  | RecursiveCf => "recursive_cf"
  end.

Definition pattern_skill_id (p : ProtocolId) : string :=
  match p with
  | Sequential => "a2a_pattern_sequential"
  | Mixture => "a2a_pattern_mixture"
  | Distillation => "a2a_pattern_distillation"
  | Deliberation => "a2a_pattern_deliberation"
  | Recursive => "a2a_pattern_recursive"
  | WorktreeNegotiation => "coordinate_dependency_block"
  | TapePaging => "tape_page"
  | RecursiveCf => "a2a_pattern_recursive_cf"
  end.

Definition from_name (s : string) : option ProtocolId :=
  find_first (fun p => bool_decide (protocol_name p = s)) ProtocolId_ALL.

Definition from_skill_id (s : string) : option ProtocolId :=
  find_first (fun p => bool_decide (pattern_skill_id p = s)) ProtocolId_ALL.

Record ProtocolParams := mkParams {
  n_specialists : nat;
  recursion_rounds : nat;
  rlm_depth : nat;
}.

Definition params_default : ProtocolParams :=
  {| n_specialists := 3; recursion_rounds := 1; rlm_depth := 2 |}.

(** [sequential(rounds)]: the argument counts the rounds that are left. *)
Fixpoint sequential (rounds : nat) : GlobalType :=
  match rounds with
  | O => gend
  | S rounds' =>
      interaction "O" "P" (label_text "plan_req")
        (interaction "P" "O" (label_text "plan")
          (interaction "O" "C" (label_text "critique_req")
            (interaction "C" "O" (label_text "critique")
              (interaction "O" "S" (label_text "solve_req")
                (interaction "S" "O" (label_text "solution") (sequential rounds'))))))
  end.

(** [specialist(i, n)] of [mixture]: [left] is [n + 1 - i]. *)
Fixpoint specialist (i left : nat) : GlobalType :=
  match left with
  | O =>
      interaction "O" "Sum" (label_text "reduce_req")
        (interaction "Sum" "O" (label_text "summary") gend)
  | S left' =>
      let role := mkRole ("Sp" +:+ pretty i) in
      interaction "O" role (label_text "query")
        (interaction role "O" (label_text "answer") (specialist (S i) left'))
  end.

Definition mixture (n : nat) : GlobalType := specialist 1 n.

Definition distillation : GlobalType :=
  interaction "O" "E" (label_text "query")
    (interaction "E" "O" (label_text "expert")
      (interaction "O" "L" (label_text "distill_req")
        (interaction "L" "O" (label_text "learner") gend))).

(** [level(k, depth)] of [recursive]: [left] is [depth + 1 - k]. *)
Fixpoint level (k left : nat) : GlobalType :=
  match left with
  | O => gend
  | S left' =>
      let sub := mkRole ("Sub" +:+ pretty k) in
      interaction "O" sub (label_text "subcall")
        (interaction sub "O" (label_text "subresult") (level (S k) left'))
  end.

Definition recursive (depth : nat) : GlobalType := level 1 depth.

Definition global_of (id : ProtocolId) (p : ProtocolParams) : GlobalType :=
  match id with
  | Sequential => sequential (Nat.max (recursion_rounds p) 1)
  | Mixture => mixture (Nat.min (Nat.max (n_specialists p) 1) 8)
  | Distillation => distillation
  | Deliberation => deliberation
  | Recursive => recursive (rlm_depth p)
  | WorktreeNegotiation => worktree_negotiation
  | TapePaging => tape_paging
  | RecursiveCf => recursive_cf
  end.

Definition protocol_env : ProtocolEnv := penv_insert penv_new "recursive_cf" recursive_cf.
