(* ===== verification/CsmConformance.v ===== *)
(** [src/csm/conformance.rs]: replaying a recorded run against a network, the
    pushdown closure over call and return boundaries, and lifting a pattern's
    transcript into a trace. *)

From stdpp Require Import base strings list gmap pretty.
From S2P Require Import Prelude BTree CsmRole CsmGlobal CsmMachine CsmRegistry.

(** One communication of a run: [ev_from] sends [ev_label] to [ev_to]. *)
Record Event := mkEvent { ev_from : Role; ev_to : Role; ev_label : Label }.

Definition Trace : Type := list Event.

Inductive ConformanceError :=
| UnknownRole (role : string) (ord : nat)
| StepFailed (ord : nat) (role : string) (err : StepError)
| Incomplete (role : string) (state : LocalState)
| Unbalanced (role : string) (depth : nat)
| DepthExceeded (role : string) (ord : nat).

(** [ConformanceError::message] *)
Definition conformance_message (e : ConformanceError) : string :=
  match e with
  | UnknownRole role ord => "event " +:+ pretty ord +:+ " names unknown role '" +:+ role +:+ "'"
  | StepFailed ord role err =>
      "event " +:+ pretty ord +:+ ": role '" +:+ role +:+ "': " +:+ step_message err
  | Incomplete role state =>
      "run incomplete: role '" +:+ role +:+ "' stalled at non-terminal state " +:+
      pretty (state : nat)
  | Unbalanced role depth =>
      "run unbalanced: role '" +:+ role +:+ "' ended with " +:+ pretty depth +:+
      " unreturned call frame(s) (or popped an empty stack) — the run is not well-nested"
  | DepthExceeded role ord =>
      "event " +:+ pretty ord +:+ ": role '" +:+ role +:+ "' would push past MAX_STACK_DEPTH=" +:+
      pretty MAX_STACK_DEPTH +:+ " (call nesting exceeds the bound)"
  end%string.

(** A role's pushdown configuration; the top of the stack comes first. *)
Record RoleConfig := mkConfig { cfg_state : nat; cfg_stack : list nat }.

Inductive ReplayErr :=
| RStep (err : StepError)
| RUnbalanced
| RDepthExceeded.

Definition map_replay_err (role : Role) (ord : nat) (e : ReplayErr) : ConformanceError :=
  match e with
  | RStep err => StepFailed ord (role_str role) err
  | RUnbalanced => Unbalanced (role_str role) 0
  | RDepthExceeded => DepthExceeded (role_str role) ord
  end.

(** The first boundary edge ([Call] or [Return]) leaving a state. *)
Definition boundary_edge (m : LocalMachine) (state : nat) : option LocalEdge :=
  find_first (fun e => bool_decide (e_kind e ≠ Internal)) (edges_from m state).

(** [epsilon_close]: one unit of fuel per iteration of the loop. *)
Fixpoint epsilon_close (fuel : nat) (m : LocalMachine) (state : nat) (stack : list nat) :
    outcome ReplayErr (nat * list nat) :=
  match fuel with
  | O => OutOfFuel
  | S fuel' =>
      match boundary_edge m state with
      | None => Ok (state, stack)
      | Some e =>
          match e_kind e with
          | Call return_state =>
              if decide (MAX_STACK_DEPTH ≤ length stack) then Err RDepthExceeded
              else epsilon_close fuel' m (e_to e) (return_state :: stack)
          | Return =>
              match stack with
              | [] => Err RUnbalanced
              | r :: stack' => epsilon_close fuel' m r stack'
              end
          | Internal => Ok (state, stack)
          end
      end
  end.

Definition advance_role (fuel : nat) (m : LocalMachine) (cfg : RoleConfig) (action : Action)
    (head : option Label) : outcome ReplayErr RoleConfig :=
  let* (s, stack) := epsilon_close fuel m (cfg_state cfg) (cfg_stack cfg) in
  let* ns := omap_err RStep (check_step m s action (mkStepContext head)) in
  let* (s', stack') := epsilon_close fuel m ns stack in
  Ok (mkConfig s' stack').

(** The configurations before the first event. *)
Definition init_config (fuel : nat) (configs : BTreeMap Role RoleConfig)
    (rm : Role * LocalMachine) : outcome ConformanceError (BTreeMap Role RoleConfig) :=
  let* (state, stack) :=
    omap_err (map_replay_err rm.1 0) (epsilon_close fuel rm.2 (initial rm.2) []) in
  Ok (bm_insert configs rm.1 (mkConfig state stack)).

(** Advance the endpoint [r] of event number [ord]. *)
Definition advance_endpoint (fuel : nat) (net : Network) (ord : nat) (r : Role) (action : Action)
    (head : option Label) (configs : BTreeMap Role RoleConfig) :
    outcome ConformanceError (BTreeMap Role RoleConfig) :=
  let* m := ok_or (machine net r) (UnknownRole (role_str r) ord) in
  let* cfg := expect (bm_get configs r) in
  let* cfg' := omap_err (map_replay_err r ord) (advance_role fuel m cfg action head) in
  Ok (bm_insert configs r cfg').

(** One event: the sender's [Send], then the receiver's [Recv]. *)
Definition replay_event (fuel : nat) (net : Network) (configs : BTreeMap Role RoleConfig)
    (oe : nat * Event) : outcome ConformanceError (BTreeMap Role RoleConfig) :=
  let (ord, ev) := oe in
  let* configs := advance_endpoint fuel net ord (ev_from ev) (ASend (ev_to ev) (ev_label ev))
                                   None configs in
  advance_endpoint fuel net ord (ev_to ev) (ARecv (ev_from ev) (ev_label ev))
                   (Some (ev_label ev)) configs.

(** [trace.iter().enumerate()] *)
Fixpoint enumerate_from {A} (i : nat) (xs : list A) : list (nat * A) :=
  match xs with [] => [] | x :: xs' => (i, x) :: enumerate_from (S i) xs' end.

Definition replay_to_configs (fuel : nat) (net : Network) (trace : list Event) :
    outcome ConformanceError (BTreeMap Role RoleConfig) :=
  let* configs := ofold (init_config fuel) [] (machines net) in
  ofold (replay_event fuel net) configs (enumerate_from 0 trace).

Definition replay_to_states (fuel : nat) (net : Network) (trace : list Event) :
    outcome ConformanceError (BTreeMap Role nat) :=
  let* configs := replay_to_configs fuel net trace in
  Ok (map (fun rc => (rc.1, cfg_state rc.2)) configs).

(** The acceptance test of one role's final configuration. *)
Definition check_final (net : Network) (rc : Role * RoleConfig) : outcome ConformanceError unit :=
  let (role, cfg) := rc in
  match cfg_stack cfg with
  | _ :: _ => Err (Unbalanced (role_str role) (length (cfg_stack cfg)))
  | [] =>
      let* m := expect (machine net role) in
      if is_terminal m (cfg_state cfg) then Ok tt
      else Err (Incomplete (role_str role) (cfg_state cfg))
  end.

Definition check_conformance (fuel : nat) (net : Network) (trace : list Event) :
    outcome ConformanceError unit :=
  let* configs := replay_to_configs fuel net trace in
  oforM (check_final net) configs.

(** * Transcripts *)

(** One recorded turn of a pattern run. *)
Record TranscriptTurn := mkTurn { t_round : N; t_role : string; t_converged : bool }.

(** What the three JSON accessor chains of [transcript_to_turns] read from one
    entry: the string at ["role"], the unsigned integer at ["round"], the
    string at ["output"]. *)
Record TranscriptEntry := mkEntry {
  entry_role : option string;
  entry_round : option N;
  entry_output : option string;
}.

Section lifting.
(** [str::to_lowercase]; nothing below depends on which function it is. *)
Context (lower : string → string).

Definition entry_to_turn (e : TranscriptEntry) : TranscriptTurn :=
  let role := default "" (entry_role e) in
  let round := N.modulo (default 0%N (entry_round e)) (2 ^ 32) in
  let output := default "" (entry_output e) in
  mkTurn round role (str_contains (lower role) "reflect" && str_contains output "CONVERGED").

Definition transcript_to_turns (es : list TranscriptEntry) : list TranscriptTurn :=
  map entry_to_turn es.

Definition ev (from to : Role) (l : string) : Event := mkEvent from to (label_text l).

Definition lift_sequential (t : TranscriptTurn) : list Event :=
  let role := lower (t_role t) in
  if str_contains role "plan" then [ev "O" "P" "plan_req"; ev "P" "O" "plan"]
  else if str_contains role "crit" then [ev "O" "C" "critique_req"; ev "C" "O" "critique"]
  else if str_contains role "solv" then [ev "O" "S" "solve_req"; ev "S" "O" "solution"]
  else [].

(** [idx] counts the specialists seen so far. *)
Fixpoint lift_mixture (idx : nat) (turns : list TranscriptTurn) : list Event :=
  match turns with
  | [] => []
  | t :: ts =>
      if str_contains (lower (t_role t)) "summ"
      then ev "O" "Sum" "reduce_req" :: ev "Sum" "O" "summary" :: lift_mixture idx ts
      else let sp := mkRole ("Sp" +:+ pretty (S idx)) in
           ev "O" sp "query" :: ev sp "O" "answer" :: lift_mixture (S idx) ts
  end.

Definition lift_distillation (t : TranscriptTurn) : list Event :=
  let role := lower (t_role t) in
  if str_contains role "expert" then [ev "O" "E" "query"; ev "E" "O" "expert"]
  else if str_contains role "learn" then [ev "O" "L" "distill_req"; ev "L" "O" "learner"]
  else [].

(** A converged Reflector turn ends the lifting. *)
Fixpoint lift_deliberation (turns : list TranscriptTurn) : list Event :=
  match turns with
  | [] => []
  | t :: ts =>
      let role := lower (t_role t) in
      if str_contains role "reflect" then
        let verdict := if t_converged t then "converged" else "continue" in
        ev "O" "R" "reflect_req" :: ev "R" "O" verdict ::
        (if t_converged t then [] else lift_deliberation ts)
      else if str_contains role "tool" then
        ev "O" "T" "act_req" :: ev "T" "O" "result" :: lift_deliberation ts
      else lift_deliberation ts
  end.

(** [k] counts the turns seen so far. *)
Fixpoint lift_recursive (k : nat) (turns : list TranscriptTurn) : list Event :=
  match turns with
  | [] => []
  | _ :: ts =>
      let sub := mkRole ("Sub" +:+ pretty (S k)) in
      ev "O" sub "subcall" :: ev sub "O" "subresult" :: lift_recursive (S k) ts
  end.

(** The well-nested run of the self-calling protocol: [levels] is
    [depth - 1]. *)
Definition lift_recursive_cf (levels : nat) : list Event :=
  concat (replicate levels [ev "O" "Sub" "subcall"; ev "O" "Sub" "recurse"]) ++
  [ev "O" "Sub" "subcall"; ev "O" "Sub" "leaf"; ev "Sub" "O" "subresult"] ++
  replicate levels (ev "Sub" "O" "subresult").

Definition lift_worktree (t : TranscriptTurn) : list Event :=
  let role := lower (t_role t) in
  if str_contains role "request" then [ev "R" "E" "request_worktree"]
  else if str_contains role "accept" then [ev "E" "R" "accept"]
  else if str_contains role "moved" then [ev "E" "R" "moved"]
  else if str_contains role "decline" then [ev "E" "R" "decline"]
  else [].

Definition ack_of (verb : string) : option string :=
  if decide (verb = "get") then Some "got"
  else if decide (verb = "put") then Some "put_ack"
  else if decide (verb = "page_out") then Some "evicted"
  else if decide (verb = "demote") then Some "demoted"
  else None.

Definition is_verb (verb : string) : bool :=
  bool_decide (verb ∈ ["get"; "put"; "page_out"; "demote"; "done"]).

(** The verb without an acknowledgement ([done]) ends the lifting. *)
Fixpoint lift_tape_paging (turns : list TranscriptTurn) : list Event :=
  match turns with
  | [] => []
  | t :: ts =>
      let verb := lower (t_role t) in
      if is_verb verb then
        ev "O" "Tape" "page_in_req" :: ev "Tape" "O" "page_in_ack" :: ev "O" "Tape" verb ::
        match ack_of verb with
        | Some ack => ev "Tape" "O" ack :: lift_tape_paging ts
        | None => []
        end
      else lift_tape_paging ts
  end.

Definition lift_transcript (pattern : ProtocolId) (turns : list TranscriptTurn) : list Event :=
  match pattern with
  | Sequential => flat_map lift_sequential turns
  | Mixture => lift_mixture 0 turns
  | Distillation => flat_map lift_distillation turns
  | Deliberation => lift_deliberation turns
  | Recursive => lift_recursive 0 turns
  | RecursiveCf => lift_recursive_cf (Nat.max (length turns) 1 - 1)
  | WorktreeNegotiation => flat_map lift_worktree turns
  | TapePaging => lift_tape_paging turns
  end.
End lifting.
