(* ===== verification/CsmSemantics.v ===== *)
(** The meaning of protocols, independent of the machines: runs of global and
    of local types, and the theorem that every global run is, role by role, a
    run of the projections. *)

From stdpp Require Import base strings list gmap.
From S2P Require Import Prelude BTree CsmRole CsmGlobal CsmLocal CsmWellformed.
From S2P Require Import CsmProject CsmMerge CsmMachine CsmConformance.

(** * Runs *)

(** The recursion variables in scope, innermost first, each with the body of
    its binder.  A variable is looked up together with the scope of its
    binder. *)
Fixpoint unbind {A} (Γ : list (TypeVar * A)) (v : TypeVar) : option (A * list (TypeVar * A)) :=
  match Γ with
  | [] => None
  | (u, b) :: Γ' => if decide (u = v) then Some (b, Γ') else unbind Γ' v
  end.

(** A global configuration and what it does: unfold its recursion, or
    communicate. *)
Definition gconf : Type := list (TypeVar * GlobalType) * GlobalType.

Inductive gunfold : gconf → gconf → Prop :=
| gunf_rec Γ v body : gunfold (Γ, GRec v body) ((v, body) :: Γ, body)
| gunf_var Γ Γ' v body : unbind Γ v = Some (body, Γ') → gunfold (Γ, GVar v) (Γ', GRec v body).

Inductive gstep : gconf → Event → gconf → Prop :=
| gstep_interaction Γ from to l k :
    gstep (Γ, GInteraction from to l k) (mkEvent from to l) (Γ, k)
| gstep_choice Γ from to bs b :
    b ∈ bs → gstep (Γ, GChoice from to bs) (mkEvent from to (gb_label b)) (Γ, gb_cont b).

Inductive grun : gconf → list Event → gconf → Prop :=
| grun_refl c : grun c [] c
| grun_unfold c c' tr d : gunfold c c' → grun c' tr d → grun c tr d
| grun_step c e c' tr d : gstep c e c' → grun c' tr d → grun c (e :: tr) d.

(** [tr] is a run of [g] from start to end. *)
Definition complete_run (g : GlobalType) (tr : list Event) : Prop :=
  ∃ Γ, grun ([], g) tr (Γ, GEnd).

(** The same for one role. *)
Definition lconf : Type := list (TypeVar * LocalType) * LocalType.

Inductive lunfold : lconf → lconf → Prop :=
| lunf_rec Δ v body : lunfold (Δ, LRec v body) ((v, body) :: Δ, body)
| lunf_var Δ Δ' v body : unbind Δ v = Some (body, Δ') → lunfold (Δ, LVar v) (Δ', LRec v body).

Inductive lstep : lconf → Action → lconf → Prop :=
| lstep_send Δ to l k : lstep (Δ, LSend to l k) (ASend to l) (Δ, k)
| lstep_select Δ to bs b :
    b ∈ bs → lstep (Δ, LSelect to bs) (ASend to (lb_label b)) (Δ, lb_cont b)
| lstep_offer Δ lt from bs b :
    as_offer lt = Some (from, bs) → b ∈ bs →
    lstep (Δ, lt) (ARecv from (lb_label b)) (Δ, lb_cont b).

Inductive lrun : lconf → list Action → lconf → Prop :=
| lrun_refl c : lrun c [] c
| lrun_unfold c c' w d : lunfold c c' → lrun c' w d → lrun c w d
| lrun_step c a c' w d : lstep c a c' → lrun c' w d → lrun c (a :: w) d.

#[export] Hint Constructors gunfold gstep grun lunfold lstep lrun : csm.

(** [w] is a run of [lt] from start to end, or the beginning of one. *)
Definition laccepts (lt : LocalType) (w : list Action) : Prop := ∃ Δ, lrun ([], lt) w (Δ, LEnd).
Definition ladmits (lt : LocalType) (w : list Action) : Prop := ∃ d, lrun ([], lt) w d.

(** What a role does in an event: its [Send], then its [Recv]. *)
Definition actions_of (r : Role) (e : Event) : list Action :=
  (if decide (ev_from e = r) then [ASend (ev_to e) (ev_label e)] else []) ++
  (if decide (ev_to e = r) then [ARecv (ev_from e) (ev_label e)] else []).

Definition restrict (r : Role) (tr : list Event) : list Action := flat_map (actions_of r) tr.

(** * Global runs, role by role *)
Section simulation.
Context (f : string → MessageMedium) (r : Role).

(** What stays true of the global configuration. *)
Definition gok (Γ : list (TypeVar * GlobalType)) (g : GlobalType) : Prop :=
  wf Γ.*1 g ∧ (∀ l, l ∈ labels g → label_ok f l) ∧ call_free g = true.

(** Scopes: the role's bodies stand for the projections of the global ones. *)
Inductive scopes : list (TypeVar * GlobalType) → list (TypeVar * LocalType) → Prop :=
| scopes_nil : scopes [] []
| scopes_cons Γ Δ v body b b' :
    gok Γ (GRec v body) → project body r = Ok b → subsumes b' b → scopes Γ Δ →
    scopes ((v, body) :: Γ) ((v, b') :: Δ).

Definition follows (gc : gconf) (lc : lconf) : Prop :=
  gok gc.1 gc.2 ∧ scopes gc.1 lc.1 ∧
  ∃ L, project gc.2 r = Ok L ∧ subsumes lc.2 L.

Lemma scopes_unbind Γ Δ v body Γ' :
  scopes Γ Δ → unbind Γ v = Some (body, Γ') →
  ∃ b b' Δ', unbind Δ v = Some (b', Δ') ∧ gok Γ' (GRec v body) ∧
             project body r = Ok b ∧ subsumes b' b ∧ scopes Γ' Δ'.
Proof.
  induction 1 as [|Γ Δ u g b b' Hg Hp Hs Hsc IH]; simpl; [done|].
  case_decide; [intros [= <- <-]; subst; eauto 10|auto].
Qed.

(** A role's choice subsumes whatever is expected of it only in kind. *)
Lemma subsumes_rec_inv L v b : subsumes L (LRec v b) → ∃ b', L = LRec v b' ∧ subsumes b' b.
Proof. inversion 1; simplify_eq/=; eauto. Qed.

Lemma subsumes_var_inv L v : subsumes L (LVar v) → L = LVar v.
Proof. inversion 1; simplify_eq/=; eauto. Qed.

Lemma subsumes_end_inv L : subsumes L LEnd → L = LEnd.
Proof. inversion 1; simplify_eq/=; eauto. Qed.

Lemma subsumes_send_inv L to l k : subsumes L (LSend to l k) → ∃ k', L = LSend to l k' ∧ subsumes k' k.
Proof. inversion 1; simplify_eq/=; eauto. Qed.

Lemma subsumes_select_inv L to bs : subsumes L (LSelect to bs) → ∃ bs', L = LSelect to bs' ∧
  Forall2 (fun b' b => lb_label b' = lb_label b ∧ subsumes (lb_cont b') (lb_cont b)) bs' bs.
Proof. inversion 1; simplify_eq/=; eauto. Qed.

Lemma subsumes_offer_inv L lt from bs : subsumes L lt → as_offer lt = Some (from, bs) →
  ∃ bs', as_offer L = Some (from, bs') ∧
    Forall (fun b => ∃ b', b' ∈ bs' ∧ lb_label b' = lb_label b ∧
                           subsumes (lb_cont b') (lb_cont b)) bs.
Proof. inversion 1; intros ?; simplify_eq/=; eauto. Qed.

Lemma follows_unfold gc gc' lc :
  gunfold gc gc' → follows gc lc → ∃ lc', lunfold lc lc' ∧ follows gc' lc'.
Proof.
  intros Hu (Hok & Hsc & L & Hp & Hs). destruct lc as [Δ L'].
  inversion Hu as [Γ v body|Γ Γ' v body Hub]; subst; simpl in *; inv_obind.
  - apply subsumes_rec_inv in Hs as (b' & -> & Hs). exists ((v, b') :: Δ, b').
    split; [constructor|]. destruct Hok as (Hw & Hl & Hc). split_and!; simpl.
    + split_and!; [|done|done]. inversion Hw; subst. eapply wf_weaken; [done|].
      intros x. simpl. rewrite elem_of_app, !elem_of_cons. set_solver.
    + by econstructor.
    + eauto.
  - apply subsumes_var_inv in Hs as ->.
    destruct (scopes_unbind _ _ _ _ _ Hsc Hub) as (b & b' & Δ' & Hub' & Hg & Hb & Hs & Hsc').
    exists (Δ', LRec v b'). split; [by constructor|]. split_and!; [done|done|].
    simpl. rewrite Hb. simpl. eauto with csm.
Qed.

Lemma gok_branch Γ from to bs b : gok Γ (GChoice from to bs) → b ∈ bs → gok Γ (gb_cont b).
Proof.
  intros (Hw & Hl & Hc) Hb. inversion Hw as [|? ? ? ? ? ? Hwb| | | | |]; subst. split_and!.
  - rewrite Forall_forall in Hwb. by apply Hwb.
  - intros l Hin. apply Hl. by apply (labels_branch from to bs b).
  - simpl in Hc. rewrite forallb_forall in Hc. by apply Hc, list_elem_of_In.
Qed.

(** A projected choice the role takes part in has an arm for every branch. *)
Lemma project_arm (bs : list GlobalBranch) lbs b :
  omapM (fun b => let* c := project (gb_cont b) r in Ok (mkLocalBranch (gb_label b) c)) bs = Ok lbs →
  b ∈ bs → ∃ Lb, project (gb_cont b) r = Ok Lb ∧ mkLocalBranch (gb_label b) Lb ∈ lbs.
Proof.
  intros Hm%omapM_Ok Hb. apply list_elem_of_lookup in Hb as [i Hi].
  destruct (Forall2_lookup_l _ _ _ _ _ Hm Hi) as (lb & Hlb & E). inv_obind.
  eexists. split; [done|]. by eapply list_elem_of_lookup_2.
Qed.

(** One communication: the role takes the steps [actions_of] lists. *)
Lemma follows_step gc e gc' lc :
  gstep gc e gc' → follows gc lc →
  ∃ lc', (∀ w d, lrun lc' w d → lrun lc (actions_of r e ++ w) d) ∧ follows gc' lc'.
Proof.
  intros Hst (Hok & Hsc & L & Hp & Hs). destruct lc as [Δ L']. simpl in *.
  inversion Hst as [Γ from to l k|Γ from to bs b Hb]; subst; unfold actions_of; simpl in *.
  - destruct Hok as (Hw & Hl & Hc). inversion Hw as [? ? ? ? Hne Hwk| | | | | |]; subst.
    assert (Hgk : gok Γ k) by (split_and!; [done|set_solver|done]).
    inv_obind. rename a into Lk.
    destruct (decide (from = r)) as [->|Hf]; [|destruct (decide (to = r)) as [->|Ht]].
    + rewrite decide_True in Hp by done. inv_obind. rewrite decide_False by done.
      apply subsumes_send_inv in Hs as (k' & -> & Hs).
      exists (Δ, k'). split; [intros; simpl; eauto with csm|]. split_and!; eauto.
    + rewrite decide_False, decide_True in Hp by done. inv_obind.
      destruct (subsumes_offer_inv _ _ from _ Hs eq_refl) as (bs' & Ho & Hall).
      apply Forall_cons in Hall as [(b' & Hb' & El & Hs') _]. simpl in *.
      exists (Δ, lb_cont b'). split; [|split_and!; eauto].
      intros w d Hr. rewrite <- El. simpl. econstructor; [by econstructor|done].
    + rewrite !decide_False in Hp by done. inv_obind.
      exists (Δ, L'). split; [done|]. split_and!; eauto.
  - pose proof (gok_branch _ _ _ _ _ Hok Hb) as Hgb.
    pose proof Hok as (Hw & Hl & Hc). inversion Hw as [|? ? ? Hne ? ? Hwb| | | | |]; subst.
    destruct (decide (from = r)) as [->|Hf]; [|destruct (decide (to = r)) as [->|Ht]].
    + rewrite decide_True in Hp by done. inv_obind. rewrite decide_False by done.
      apply subsumes_select_inv in Hs as (bs' & -> & Hall).
      destruct (project_arm _ _ _ Ha Hb) as (Lb & HLb & Hin).
      apply list_elem_of_lookup in Hin as [i Hi].
      destruct (Forall2_lookup_r _ _ _ _ _ Hall Hi) as (b' & Hb' & El & Hs'). simpl in *.
      exists (Δ, lb_cont b'). split; [|split_and!; eauto].
      intros w d Hr. rewrite <- El. econstructor; [|done]. constructor.
      by eapply list_elem_of_lookup_2.
    + rewrite decide_False, decide_True in Hp by done. inv_obind.
      destruct (subsumes_offer_inv _ _ from _ Hs eq_refl) as (bs' & Ho & Hall).
      destruct (project_arm _ _ _ Ha Hb) as (Lb & HLb & Hin).
      rewrite Forall_forall in Hall. destruct (Hall _ Hin) as (b' & Hb' & El & Hs'). simpl in *.
      exists (Δ, lb_cont b'). split; [|split_and!; eauto].
      intros w d Hr. rewrite <- El. econstructor; [by econstructor|done].
    + destruct (project_bystander true f r Γ.*1 from to bs L b) as (Lb & HLb & HsL); auto.
      exists (Δ, L'). split; [done|]. split_and!; [done|done|].
      exists Lb. split; [done|]. exact (subsumes_trans _ _ _ Hs HsL).
Qed.

Lemma follows_run gc tr gc' : grun gc tr gc' → ∀ lc, follows gc lc →
  ∃ lc', lrun lc (restrict r tr) lc' ∧ follows gc' lc'.
Proof.
  induction 1 as [c|c c' tr d Hu Hr IH|c e c' tr d Hst Hr IH]; intros lc Hf.
  - exists lc. split; [constructor|done].
  - destruct (follows_unfold _ _ _ Hu Hf) as (lc1 & Hu' & Hf1).
    destruct (IH _ Hf1) as (lc2 & Hr2 & Hf2). eauto with csm.
  - destruct (follows_step _ _ _ _ Hst Hf) as (lc1 & Hk & Hf1).
    destruct (IH _ Hf1) as (lc2 & Hr2 & Hf2). exists lc2. split; [|done].
    simpl. by apply Hk.
Qed.
End simulation.

Lemma follows_start g r L :
  wf [] g → call_free g = true → consistent_media g → project g r = Ok L →
  follows (medium_of g) r ([], g) ([], L).
Proof.
  intros Hw Hc Hm Hp. split_and!; simpl; [|constructor|eauto using subsumes_refl].
  split_and!; eauto using medium_of_ok.
Qed.

(** Every run of a protocol gives each role a run of its projection. *)
Lemma run_admitted g r L tr gc :
  wf [] g → call_free g = true → consistent_media g → project g r = Ok L →
  grun ([], g) tr gc → ladmits L (restrict r tr).
Proof.
  intros Hw Hc Hm Hp Hr.
  destruct (follows_run _ _ _ _ _ Hr _ (follows_start g r L Hw Hc Hm Hp)) as (lc & ? & _).
  by exists lc.
Qed.

Lemma complete_run_accepted g r L tr :
  wf [] g → call_free g = true → consistent_media g → project g r = Ok L →
  complete_run g tr → laccepts L (restrict r tr).
Proof.
  intros Hw Hc Hm Hp [Γ Hr].
  destruct (follows_run _ _ _ _ _ Hr _ (follows_start g r L Hw Hc Hm Hp))
    as ([Δ L'] & Hl & _ & _ & Le & [= <-] & Hs). simpl in *.
  apply subsumes_end_inv in Hs as ->. by exists Δ.
Qed.

(** A run only involves participants. *)
Lemma run_participants g : ∀ P : Role → Prop, 
  ∀ Γ tr gc, grun (Γ, g) tr gc →
  (∀ r, occurs r g → P r) → Forall (fun vb => ∀ r, occurs r vb.2 → P r) Γ →
  Forall (fun e => P (ev_from e) ∧ P (ev_to e)) tr.
Proof.
  intros P Γ tr gc Hr. remember (Γ, g) as c eqn:Ec. revert Γ g Ec.
  assert (Hub : ∀ Γ v body Γ', unbind Γ v = Some (body, Γ') →
    Forall (fun vb : TypeVar * GlobalType => ∀ r, occurs r vb.2 → P r) Γ →
    (∀ r, occurs r body → P r) ∧ Forall (fun vb => ∀ r, occurs r vb.2 → P r) Γ').
  { intros Γ v body Γ' Hu Hall. induction Hall as [|[u b] Γ Hb Hall IH]; simpl in Hu; [done|].
    case_decide; [by simplify_eq|auto]. }
  induction Hr as [c|c c' tr d Hu Hr IH|c e c' tr d Hst Hr IH]; intros Γ g -> Hg HΓ; [constructor| |].
  - inversion Hu as [? v body|? Γ' v body Hub']; subst; (eapply IH; [done|..]).
    + intros. apply Hg. by constructor.
    + constructor; [|done]. intros. apply Hg. by constructor.
    + destruct (Hub _ _ _ _ Hub' HΓ) as [Hb _]. intros r Ho. inversion Ho; auto.
    + by destruct (Hub _ _ _ _ Hub' HΓ).
  - inversion Hst as [? from to l k|? from to bs b Hb]; subst;
      (constructor; [split; apply Hg; constructor|]); (eapply IH; [done| |done]).
    + intros. apply Hg. by constructor.
    + intros. apply Hg. by econstructor.
Qed.
