(* ===== verification/CsmCompile.v ===== *)
(** The compiler of [src/csm/machine.rs] on call-free local types: it always
    succeeds, and the machine it builds is bisimilar to the local type. *)

From stdpp Require Import base strings list gmap.
From S2P Require Import Prelude BTree CsmRole CsmGlobal CsmLocal CsmWellformed.
From S2P Require Import CsmProject CsmMerge CsmMachine CsmConformance CsmSemantics.

(** * Contractive types

    No binder is directly followed, through binders only, by a variable. *)
Fixpoint head_is_var (lt : LocalType) : bool :=
  match lt with
  | LVar _ => true
  | LRec _ body => head_is_var body
  | _ => false
  end.

Fixpoint contractive (lt : LocalType) : bool :=
  match lt with
  | LSend _ _ k | LRecv _ _ k => contractive k
  | LSelect _ bs | LBranch _ bs => forallb (fun b => contractive (lb_cont b)) bs
  | LRec _ body => negb (head_is_var body) && contractive body
  | LocalCall _ _ k => contractive k
  | LocalBox _ body _ k => contractive body && contractive k
  | LVar _ | LEnd => true
  end.

Lemma contractive_branches bs : forallb (fun b => contractive (lb_cont b)) bs = true →
  Forall (fun b => contractive (lb_cont b) = true) bs.
Proof. rewrite forallb_forall, Forall_forall. intros H b Hb. by apply H, list_elem_of_In. Qed.

(** * What a state of a machine implements

    [impl ρ lt s]: the edges out of [s] are exactly the actions at the head of
    [lt], they lead to states that implement the continuations, and [s] is
    terminal exactly when [lt] has ended; [ρ] maps the free variables to
    states. *)
Section impl.
Context (es : list LocalEdge) (T : BTreeSet nat).

Definition arm_edge (s : nat) (act : Label → Action) (b : LocalBranch) (t : nat) : LocalEdge :=
  mkEdge s (act (lb_label b)) t Internal.

Inductive impl : gmap string nat → LocalType → nat → Prop :=
| impl_end ρ s : edges_of es s = [] → s ∈ T → impl ρ LEnd s
| impl_var ρ v s : ρ !! v = Some s → impl ρ (LVar v) s
| impl_rec ρ v body s : impl (<[v := s]> ρ) body s → impl ρ (LRec v body) s
| impl_send ρ to l k s t :
    edges_of es s = [mkEdge s (ASend to l) t Internal] → s ∉ T → impl ρ k t →
    impl ρ (LSend to l k) s
| impl_select ρ to bs ts s :
    edges_of es s = zip_with (arm_edge s (ASend to)) bs ts → s ∉ T →
    Forall2 (fun b t => impl ρ (lb_cont b) t) bs ts → impl ρ (LSelect to bs) s
| impl_offer ρ lt from bs ts s :
    as_offer lt = Some (from, bs) →
    edges_of es s = zip_with (arm_edge s (ARecv from)) bs ts → s ∉ T →
    Forall2 (fun b t => impl ρ (lb_cont b) t) bs ts → impl ρ lt s.
End impl.

Lemma impl_rec_inv es T ρ v body s : impl es T ρ (LRec v body) s → impl es T (<[v := s]> ρ) body s.
Proof. inversion 1; subst; [done|simplify_eq/=]. Qed.

Lemma impl_var_inv es T ρ v s : impl es T ρ (LVar v) s → ρ !! v = Some s.
Proof. inversion 1; subst; [done|simplify_eq/=]. Qed.

(** * Compiling *)

Lemma edges_of_app es es' s : edges_of (es ++ es') s = edges_of es s ++ edges_of es' s.
Proof. apply filter_app. Qed.

Lemma edges_of_nil es s : Forall (fun e => e_from e ≠ s) es → edges_of es s = [].
Proof. apply filter_nil_Forall. Qed.

Lemma edges_of_self s act t k : edges_of [mkEdge s act t k] s = [mkEdge s act t k].
Proof. unfold edges_of. by rewrite filter_cons_True. Qed.

Lemma edges_of_other s s' act t k : s ≠ s' → edges_of [mkEdge s act t k] s' = [].
Proof. intros. unfold edges_of. by rewrite filter_cons_False. Qed.

(** The states a compilation step owns: the entry it was given and what it
    allocates. *)
Definition owned (entry : option nat) (n n' x : nat) : Prop := entry = Some x ∨ n ≤ x < n'.

(** [ext c c' E D own]: [c'] extends [c] by the internal edges [E] and the
    terminals [D], all at states in [own]. *)
Record ext (c c' : Compiler) (E : list LocalEdge) (D : list nat) (own : nat → Prop) : Prop := {
  ext_n : c_n c ≤ c_n c';
  ext_env : rec_env c' = rec_env c;
  ext_exits : box_exit_labels c' = box_exit_labels c;
  ext_edges : c_edges c' = c_edges c ++ E;
  ext_terminals : ∀ x, x ∈ c_terminals c' ↔ x ∈ c_terminals c ∨ x ∈ D;
  ext_internal : Forall (fun e => e_kind e = Internal ∧ own (e_from e)) E;
  ext_own : Forall own D;
}.

(** The final machine agrees with a step's edges and terminals where the step
    owns the states. *)
Definition agrees (es : list LocalEdge) (T : BTreeSet nat) (E : list LocalEdge) (D : list nat)
    (own : nat → Prop) : Prop :=
  ∀ x, own x → edges_of es x = edges_of E x ∧ (x ∈ T ↔ x ∈ D).

Lemma ext_refl c own : ext c c [] [] own.
Proof.
  split; try done.
  - by rewrite app_nil_r.
  - intros x. set_solver.
Qed.

Lemma ext_trans c1 c2 c3 E1 E2 D1 D2 (own1 own2 own : nat → Prop) :
  ext c1 c2 E1 D1 own1 → ext c2 c3 E2 D2 own2 →
  (∀ x, own1 x → own x) → (∀ x, own2 x → own x) → ext c1 c3 (E1 ++ E2) (D1 ++ D2) own.
Proof.
  intros [] [] H1 H2. split; try congruence.
  - lia.
  - rewrite app_assoc. congruence.
  - set_solver.
  - apply Forall_app. split; (eapply Forall_impl; [done|]); naive_solver.
  - apply Forall_app. split; (eapply Forall_impl; [done|]); naive_solver.
Qed.

Lemma ext_alloc entry c : ext c (alloc entry c).2 [] [] (owned entry (c_n c) (c_n (alloc entry c).2)).
Proof.
  destruct entry; simpl; [apply ext_refl|]. split; simpl; try done; [lia|by rewrite app_nil_r|set_solver].
Qed.

Lemma ext_push c s act t (own : nat → Prop) :
  own s → ext c (push_edge c (mkEdge s act t Internal)) [mkEdge s act t Internal] [] own.
Proof. intros. split; simpl; try done; [set_solver|by repeat constructor]. Qed.

Lemma agrees_sub es T E D own E' D' (own' : nat → Prop) :
  agrees es T E D own → (∀ x, own' x → own x) →
  (∀ x, own' x → edges_of E x = edges_of E' x ∧ (x ∈ D ↔ x ∈ D')) →
  agrees es T E' D' own'.
Proof. intros Ha Hs Hx x Ho. destruct (Ha x (Hs x Ho)), (Hx x Ho). split; [congruence|naive_solver]. Qed.

Lemma ext_foreign c c' E D own x : ext c c' E D own → ¬ own x → edges_of E x = [] ∧ x ∉ D.
Proof.
  intros [] Hn. split.
  - apply edges_of_nil. eapply Forall_impl; [done|]. simpl. naive_solver.
  - rewrite Forall_forall in ext_own0. naive_solver.
Qed.

Section go.
Context (f : string → MessageMedium) (role : Role) (penv : ProtocolEnv) (fuel : nat).

(** The result of compiling one node. *)
Definition compiles (lt : LocalType) (entry : option nat) (c : Compiler) : Prop :=
  ∃ s c' E D, go role penv fuel lt entry c = Ok (s, c') ∧
    (head_is_var lt = false → s = (alloc entry c).1) ∧
    ext c c' E D (owned entry (c_n c) (c_n c')) ∧
    ∀ es T, agrees es T E D (owned entry (c_n c) (c_n c')) → impl es T (rec_env c) lt s.

(** The compiler states the call-free fragment runs in. *)
Definition ready (Γ : list TypeVar) (entry : option nat) (c : Compiler) : Prop :=
  (∀ v, v ∈ Γ → is_Some (rec_env c !! v)) ∧ box_exit_labels c = [] ∧
  (∀ s, entry = Some s → s < c_n c).

Lemma ready_alloc Γ entry c : ready Γ entry c → ready Γ None (alloc entry c).2 ∧
  (alloc entry c).1 < c_n (alloc entry c).2 ∧ rec_env (alloc entry c).2 = rec_env c ∧
  box_exit_labels (alloc entry c).2 = [] ∧ c_n c ≤ c_n (alloc entry c).2 ∧
  owned entry (c_n c) (c_n (alloc entry c).2) (alloc entry c).1.
Proof.
  intros (Hv & Hx & He). unfold ready, owned. destruct entry as [s|]; simpl; split_and!; auto; try done; lia.
Qed.

Lemma ext_ready Γ c c' E D own : ext c c' E D own → ready Γ None c → ready Γ None c'.
Proof. intros [] (Hv & Hx & _). split_and!; [|congruence|done]. by rewrite ext_env0. Qed.

(** The loop over the arms of a choice. *)
Lemma compile_branches (Γ : list TypeVar) s act bs :
  Forall (fun b => ∀ c, ready Γ None c → compiles (lb_cont b) None c) bs →
  ∀ c, ready Γ None c → s < c_n c →
  ∃ c' E D ts, ofold (compile_branch (go role penv fuel) s act) c bs = Ok c' ∧
    ext c c' E D (owned (Some s) (c_n c) (c_n c')) ∧ s ∉ D ∧
    edges_of E s = zip_with (arm_edge s act) bs ts ∧ 
    ∀ es T, agrees es T E D (owned None (c_n c) (c_n c')) →
      Forall2 (fun b t => impl es T (rec_env c) (lb_cont b) t) bs ts.
Proof.
  induction 1 as [|b bs Hb Hbs IH]; intros c Hr Hs.
  { exists c, [], [], []. split_and!; [done|apply ext_refl|set_solver|done|constructor]. }
  destruct (Hb c Hr) as (t & c1 & E1 & D1 & Hgo & _ & Hext1 & Himpl1).
  set (e := mkEdge s (act (lb_label b)) t Internal).
  assert (Hext2 : ext c (push_edge c1 e) (E1 ++ [e]) D1 (owned (Some s) (c_n c) (c_n c1))).
  { rewrite <- (app_nil_r D1). eapply ext_trans; [exact Hext1|apply (ext_push _ _ _ _ (eq s)); done|..];
      unfold owned; naive_solver. }
  destruct (IH (push_edge c1 e)) as (c' & E2 & D2 & ts & Hf & Hext & HsD & Hout & Himpl).
  { by eapply ext_ready. }
  { destruct Hext1. simpl. lia. }
  pose proof (ext_n _ _ _ _ _ Hext1) as Hn1. pose proof (ext_n _ _ _ _ _ Hext) as Hn2. simpl in Hn2.
  destruct (ext_foreign _ _ _ _ _ s Hext1) as [HE1 HD1]; [unfold owned; naive_solver lia|].
  exists c', ((E1 ++ [e]) ++ E2), (D1 ++ D2), (t :: ts). split_and!.
  - simpl. unfold compile_branch at 1. by rewrite Hgo.
  - eapply ext_trans; [exact Hext2|exact Hext|..]; unfold owned; simpl; naive_solver lia.
  - set_solver.
  - rewrite !edges_of_app, HE1, Hout. unfold e. by rewrite edges_of_self.
  - intros es T Hag. constructor.
    + apply Himpl1. eapply agrees_sub; [exact Hag|unfold owned; naive_solver lia|].
      intros x Hx. destruct (ext_foreign _ _ _ _ _ x Hext) as [HE2 HD2].
      { unfold owned in *. simpl. naive_solver lia. }
      rewrite !edges_of_app, HE2. unfold e. rewrite edges_of_other by (unfold owned in *; naive_solver lia).
      rewrite !app_nil_r. set_solver.
    + rewrite <- (ext_env _ _ _ _ _ Hext2). apply Himpl.
      eapply agrees_sub; [exact Hag|unfold owned; simpl; naive_solver lia|].
      intros x Hx. destruct (ext_foreign _ _ _ _ _ x Hext2) as [HE2 HD2].
      { unfold owned in *. simpl in *. naive_solver lia. }
      rewrite !edges_of_app, <- (edges_of_app E1), HE2. set_solver.
Qed.

(** The equations of [go] that the call-free fragment uses; a single action is
    a choice with one arm. *)
Definition go_arms (act : Label → Action) (bs : list LocalBranch) (entry : option nat) (c : Compiler) :
    outcome ProjectionError (nat * Compiler) :=
  let* c' := ofold (compile_branch (go role penv fuel) (alloc entry c).1 act) (alloc entry c).2 bs in
  Ok ((alloc entry c).1, c').

Lemma go_send to l k entry c :
  go role penv fuel (LSend to l k) entry c = go_arms (ASend to) [mkLocalBranch l k] entry c.
Proof.
  unfold go_arms, compile_branch. simpl. destruct fuel; simpl; destruct (alloc entry c) as [s c1]; simpl;
    match goal with |- obind ?m _ = _ => destruct m as [[]| | |] end; reflexivity.
Qed.

Lemma go_select to bs entry c :
  go role penv fuel (LSelect to bs) entry c = go_arms (ASend to) bs entry c.
Proof. unfold go_arms. destruct fuel; simpl; destruct (alloc entry c); reflexivity. Qed.

Lemma go_offer lt from bs entry c : as_offer lt = Some (from, bs) →
  go role penv fuel lt entry c = go_arms (ARecv from) bs entry c.
Proof.
  intros Ho. destruct lt; simplify_eq/=; unfold go_arms, compile_branch; simpl;
    destruct fuel; simpl; destruct (alloc entry c) as [s c1]; simpl; try reflexivity;
    match goal with |- obind ?m _ = _ => destruct m as [[]| | |] end; reflexivity.
Qed.

Lemma go_rec v body entry c :
  go role penv fuel (LRec v body) entry c =
  (let '(s, c1) := alloc entry c in
   let* (_, c2) := go role penv fuel body (Some s) (set_rec_env c1 (<[v := s]> (rec_env c1))) in
   Ok (s, set_rec_env c2 (match rec_env c1 !! v with
                          | Some p => <[v := p]> (rec_env c2)
                          | None => delete v (rec_env c2) end))).
Proof. destruct fuel; reflexivity. Qed.

Lemma compile_arms Γ lt act bs entry c :
  go role penv fuel lt entry c = go_arms act bs entry c → head_is_var lt = false →
  (∀ es T ρ ts s, edges_of es s = zip_with (arm_edge s act) bs ts → s ∉ T →
     Forall2 (fun b t => impl es T ρ (lb_cont b) t) bs ts → impl es T ρ lt s) →
  Forall (fun b => ∀ c, ready Γ None c → compiles (lb_cont b) None c) bs →
  ready Γ entry c → compiles lt entry c.
Proof.
  intros Hgo Hh Himpl IH Hr. unfold go_arms in Hgo. unfold compiles. rewrite Hgo. clear Hgo.
  destruct (ready_alloc _ _ _ Hr) as (Hr1 & Hs & Henv & _ & Hn & Hown).
  pose proof (ext_alloc entry c) as Hext0.
  destruct (alloc entry c) as [s c1] eqn:Eal. simpl in *.
  destruct (compile_branches Γ s act bs IH c1 Hr1 Hs) as (c' & E & D & ts & Hf & Hext & HsD & Hout & Hi).
  pose proof (ext_n _ _ _ _ _ Hext) as Hn2. rewrite Hf. simpl.
  assert (Hsub : ∀ x, owned (Some s) (c_n c1) (c_n c') x → owned entry (c_n c) (c_n c') x).
  { unfold owned in *. naive_solver lia. }
  exists s, c', E, D. split_and!; [done|done| |].
  - apply (ext_trans _ _ _ [] E [] D _ _ _ Hext0 Hext); [unfold owned; naive_solver lia|done].
  - intros es T Hag. destruct (Hag s) as [Hes HsT]; [apply Hsub; by left|].
    apply (Himpl _ _ _ ts); [congruence|naive_solver|]. rewrite <- Henv. apply Hi.
    eapply agrees_sub; [exact Hag| |done]. intros x Hx. apply Hsub. unfold owned in *. naive_solver.
Qed.

(** Every closed, call-free, contractive local type compiles, to a state that
    implements it. *)
Lemma go_compiles lt : ∀ Γ entry c,
  lok true f Γ lt → contractive lt = true → ready Γ entry c →
  (entry = None ∨ head_is_var lt = false) → compiles lt entry c.
Proof.
  assert (Hbs : ∀ Γ bs,
    Forall (fun b => ∀ Γ entry c, lok true f Γ (lb_cont b) → contractive (lb_cont b) = true →
      ready Γ entry c → (entry = None ∨ head_is_var (lb_cont b) = false) →
      compiles (lb_cont b) entry c) bs →
    Forall (fun b => label_ok f (lb_label b) ∧ lok true f Γ (lb_cont b)) bs →
    forallb (fun b => contractive (lb_cont b)) bs = true →
    Forall (fun b => ∀ c, ready Γ None c → compiles (lb_cont b) None c) bs).
  { intros Γ bs IH Hok Hc%contractive_branches. rewrite Forall_forall in *. intros b Hb c Hr.
    eapply IH; eauto. by apply Hok. }
  induction lt as [to l k IH|from l k IH|to bs IH|from bs IH|v body IH|v|c0 s k IH|en body ex k IHb IHk|]
    using LocalType_rect_branches; intros Γ entry c Hok Hc Hr He; inversion Hok; subst; try done.
  - eapply (compile_arms Γ); [apply go_send|done| |by constructor; eauto|done].
    intros es T ρ ts s Hes Hs Hall. inversion Hall as [|? ? ? ? Hk Hn]; subst.
    inversion Hn; subst. by eapply impl_send.
  - eapply (compile_arms Γ); [by apply go_offer|done| |by constructor; eauto|done].
    intros. by eapply impl_offer.
  - eapply (compile_arms Γ); [apply go_select|done| |by eapply Hbs|done].
    intros. by eapply impl_select.
  - eapply (compile_arms Γ); [by apply go_offer|done| |by eapply Hbs|done].
    intros. by eapply impl_offer.
  - simpl in Hc. apply andb_true_iff in Hc as [Hh%negb_true_iff Hc].
    destruct (ready_alloc _ _ _ Hr) as (Hr1 & Hs & Henv & Hx & Hn & Hown).
    pose proof (ext_alloc entry c) as Hext0. unfold compiles. rewrite go_rec.
    destruct (alloc entry c) as [s c1] eqn:Eal. simpl in *.
    destruct (IH (Γ ++ [v]) (Some s) (set_rec_env c1 (<[v := s]> (rec_env c1))))
      as (s' & c2 & E & D & Hgo & Hs' & Hext & Himpl); [done|done| |by right|].
    { split_and!; simpl; [|done|naive_solver]. intros u Hu. destruct Hr1 as (Hv & _ & _).
      destruct (decide (u = v)) as [->|Hne]; [rewrite lookup_insert_eq; eauto|].
      rewrite lookup_insert_ne by done. apply Hv. set_solver. }
    rewrite Hgo. simpl. specialize (Hs' Hh). simpl in Hs'. subst s'.
    pose proof (ext_n _ _ _ _ _ Hext) as Hn2. simpl in Hn2.
    assert (Hsub : ∀ x, owned (Some s) (c_n c1) (c_n c2) x → owned entry (c_n c) (c_n c2) x).
    { unfold owned in *. naive_solver lia. }
    do 4 eexists. split_and!; [done|done| |].
    + apply (ext_trans _ c1 _ [] E [] D _ (owned (Some s) (c_n c1) (c_n c2)) _ Hext0);
        [|unfold owned; naive_solver lia|done].
      destruct Hext. split; simpl in *; try done. rewrite ext_env0.
      destruct (rec_env c1 !! v) as [p|] eqn:Ev; rewrite ?Ev.
      * by rewrite insert_insert_eq, insert_id.
      * by rewrite delete_insert_id.
    + intros es T Hag. constructor. rewrite <- Henv. apply Himpl.
      eapply agrees_sub; [exact Hag|done|done].
  - unfold compiles. destruct Hr as (Hv & Hx & _). destruct (Hv v) as [s Hs]; [done|].
    exists s, c, [], []. split_and!; [|done|apply ext_refl|by constructor].
    destruct fuel; simpl; rewrite Hs; done.
  - destruct (ready_alloc _ _ _ Hr) as (Hr1 & Hs & Henv & Hx & Hn & Hown).
    pose proof (ext_alloc entry c) as Hext0. unfold compiles.
    destruct (alloc entry c) as [s c1] eqn:Eal. simpl in *.
    exists s, (add_terminal c1 s), [], [s]. split_and!; [| done| |].
    + destruct fuel; simpl; rewrite Eal, Hx; done.
    + apply (ext_trans _ c1 _ [] [] [] [s] _ (eq s) _ Hext0); [|done|simpl; by intros ? <-].
      split; simpl; try done; [by rewrite app_nil_r| |by constructor].
      intros x. rewrite bs_insert_elem. set_solver.
    + intros es T Hag. destruct (Hag s Hown) as [Hes HsT]. constructor; [done|set_solver].
Qed.
End go.

(** * The machine of a local type is bisimilar to it *)

(** The context the replay gives a step: a receive sees its own label at the
    head of the channel. *)
Definition ctx_of (a : Action) : StepContext :=
  mkStepContext (match a with ASend _ _ => None | ARecv _ l => Some l end).

(** A machine reading a word of actions. *)
Fixpoint mrun (m : LocalMachine) (s : nat) (w : list Action) : outcome StepError nat :=
  match w with
  | [] => Ok s
  | a :: w => let* t := check_step m s a (ctx_of a) in mrun m t w
  end.

Definition flat_machine (m : LocalMachine) : Prop := Forall (fun e => e_kind e = Internal) (edges m).

Lemma fifo_ctx_of a : fifo_mismatch a (ctx_of a) = None.
Proof. destruct a; simpl; [done|]. by rewrite decide_True. Qed.

Lemma check_edges_Ok es s a t : check_edges es s a (ctx_of a) = Ok t →
  ∃ e, e ∈ es ∧ e_action e = a ∧ e_to e = t ∧ e_kind e = Internal.
Proof.
  induction es as [|e es IH]; simpl; [done|]. rewrite fifo_ctx_of. intros H.
  destruct (decide (e_kind e ≠ Internal)) as [|Hk]; [naive_solver set_solver|].
  apply dec_stable in Hk. destruct (decide (e_action e = a)); [|naive_solver set_solver].
  simplify_eq. exists e. split_and!; [by left|done..].
Qed.

Lemma check_edges_elem es s e :
  Forall (fun e => e_kind e = Internal) es → NoDup (e_action <$> es) → e ∈ es →
  check_edges es s (e_action e) (ctx_of (e_action e)) = Ok (e_to e).
Proof.
  intros Hi Hnd He. induction es as [|e' es IH]; [by apply elem_of_nil in He|].
  apply Forall_cons in Hi as [Hi' Hi]. apply NoDup_cons in Hnd as [Hn Hnd].
  simpl. rewrite fifo_ctx_of, (decide_False (P := e_kind e' ≠ Internal)) by naive_solver.
  apply elem_of_cons in He as [->|He]; [by rewrite decide_True|].
  rewrite decide_False; [auto|]. intros E. apply Hn. rewrite E. by apply list_elem_of_fmap_2.
Qed.

Lemma lok_weaken flat f Γ lt : lok flat f Γ lt → ∀ Γ', Γ ⊆ Γ' → lok flat f Γ' lt.
Proof.
  revert Γ. induction lt as [to l k IH|from l k IH|to bs IH|from bs IH|v body IH|v|c0 s k IH|en body ex k IHb IHk|]
    using LocalType_rect_branches; intros Γ Hok Γ' Hs; inversion Hok; subst; constructor; eauto.
  - rewrite Forall_forall in *. naive_solver.
  - rewrite Forall_forall in *. naive_solver.
  - eapply IH; [done|]. set_solver.
Qed.

(** The edges of the arms of a choice have pairwise distinct actions. *)
Lemma arms_NoDup s act bs ts :
  (∀ l l', act l = act l' → l = l') → NoDup (map (fun b => name (lb_label b)) bs) →
  length bs = length ts → NoDup (e_action <$> zip_with (arm_edge s act) bs ts).
Proof.
  intros Hinj Hnd Hlen.
  assert (E : e_action <$> zip_with (arm_edge s act) bs ts = act <$> (lb_label <$> bs)).
  { revert ts Hlen. induction bs as [|b bs IH]; intros [|t ts] Hlen; try done. simpl.
    f_equal. apply IH; [by inversion Hnd|simpl in Hlen; lia]. }
  rewrite E. apply NoDup_fmap_2; [intros ? ?; apply Hinj|].
  apply (NoDup_fmap_1 name). by rewrite <- list_fmap_compose.
Qed.

Lemma arms_internal s act bs ts :
  Forall (fun e => e_kind e = Internal) (zip_with (arm_edge s act) bs ts).
Proof. revert ts. induction bs; intros []; simpl; constructor; auto. Qed.

Section bisim.
Context (f : string → MessageMedium) (m : LocalMachine).

Abbreviation im := (impl (edges m) (terminals m)).

Inductive states : list (TypeVar * LocalType) → gmap string nat → Prop :=
| states_nil : states [] ∅
| states_cons Δ ρ v body s :
    lok true f Δ.*1 (LRec v body) → contractive (LRec v body) = true →
    im ρ (LRec v body) s → states Δ ρ → states ((v, body) :: Δ) (<[v := s]> ρ).

Definition implements (c : lconf) (s : nat) : Prop :=
  ∃ ρ, states c.1 ρ ∧ lok true f c.1.*1 c.2 ∧ contractive c.2 = true ∧ im ρ c.2 s.

Lemma implements_unfold c c' s : lunfold c c' → implements c s → implements c' s.
Proof.
  intros Hu (ρ & Hst & Hok & Hc & Hi). inversion Hu as [Δ v body|Δ Δ' v body Hub]; subst; simpl in *.
  - exists (<[v := s]> ρ).
    split_and!; [by constructor| |by apply andb_true_iff in Hc as [_ Hc]|by apply impl_rec_inv].
    inversion Hok; subst. eapply lok_weaken; [done|]. set_solver.
  - apply impl_var_inv in Hi as Hs. clear Hi Hok Hc Hu.
    induction Hst as [|Δ ρ u b s' Hok Hc Hi Hst IH]; simpl in Hub; [done|].
    destruct (decide (u = v)) as [->|Hne].
    + rewrite lookup_insert_eq in Hs. simplify_eq. by exists ρ.
    + rewrite lookup_insert_ne in Hs by done. auto.
Qed.

(** The head of an implementing configuration, as the arms it can take. *)
Definition arms (lt : LocalType) : option ((Label → Action) * list LocalBranch) :=
  match lt with
  | LSend to l k => Some (ASend to, [mkLocalBranch l k])
  | LSelect to bs => Some (ASend to, bs)
  | LRecv from l k => Some (ARecv from, [mkLocalBranch l k])
  | LBranch from bs => Some (ARecv from, bs)
  | _ => None
  end.

(** An implementing configuration unfolds to one that acts or has ended. *)
Lemma implements_head c s : implements c s →
  ∃ Δ lt, lrun c [] (Δ, lt) ∧ implements (Δ, lt) s ∧ (lt = LEnd ∨ is_Some (arms lt)).
Proof.
  assert (Hstruct : ∀ lt Δ, head_is_var lt = false → implements (Δ, lt) s →
    ∃ Δ' lt', lrun (Δ, lt) [] (Δ', lt') ∧ implements (Δ', lt') s ∧ (lt' = LEnd ∨ is_Some (arms lt'))).
  { induction lt; intros Δ Hh Himp; try done;
      try (by eexists _, _; split_and!; [constructor|exact Himp|eauto]);
      try (by destruct Himp as (? & _ & Hok & _); inversion Hok).
    destruct (IHlt ((var, lt) :: Δ)) as (Δ' & lt' & ? & ? & ?); [done| |by eauto 10 with csm].
    eapply implements_unfold; [constructor|done]. }
  destruct c as [Δ lt]. intros Himp. destruct (head_is_var lt) eqn:Hh; [|auto].
  destruct lt; try done; simpl in Hh.
  - destruct Himp as (ρ & _ & _ & Hc & _). simpl in Hc. by rewrite Hh in Hc.
  - pose proof Himp as (ρ & Hst & Hok & Hc & Hi). simpl in *.
    assert (∃ body Δ', unbind Δ var = Some (body, Δ') ∧ head_is_var body = false)
      as (body & Δ' & Hub & Hhb).
    { assert (Hin : var ∈ Δ.*1) by (by inversion Hok). clear -Hst Hin.
      induction Hst as [|Δ ρ u b s' ? Hc Hi Hst IH]; simpl in *; [by apply elem_of_nil in Hin|].
      case_decide; [|apply IH; set_solver].
      eexists _, _. split; [done|]. by apply andb_true_iff in Hc as [Hc%negb_true_iff _]. }
    destruct (Hstruct (LRec var body) Δ') as (Δ1 & lt1 & ? & ? & ?); [done| |].
    { eapply implements_unfold; [by constructor|exact Himp]. }
    exists Δ1, lt1. split_and!; [|done|done]. econstructor; [by constructor|done].
Qed.

Lemma lstep_arms Δ lt a c' : lstep (Δ, lt) a c' ↔
  ∃ act bs b, arms lt = Some (act, bs) ∧ b ∈ bs ∧ a = act (lb_label b) ∧ c' = (Δ, lb_cont b).
Proof.
  split.
  - inversion 1 as [? to l k|? to bs b Hb|? ? from bs b Ho Hb]; subst.
    + eexists _, _, (mkLocalBranch l k). split_and!; [done|by left|done|done].
    + eauto 10.
    + destruct lt; simplify_eq/=; eauto 10.
  - intros (act & bs & b & Ha & Hb & -> & ->). destruct lt; simplify_eq/=.
    + apply list_elem_of_singleton in Hb as ->. constructor.
    + by eapply lstep_offer.
    + by constructor.
    + by eapply lstep_offer.
Qed.

Lemma impl_arms ρ lt s act bs : im ρ lt s → arms lt = Some (act, bs) →
  s ∉ terminals m ∧ ∃ ts, edges_from m s = zip_with (arm_edge s act) bs ts ∧
    Forall2 (fun b t => im ρ (lb_cont b) t) bs ts.
Proof.
  intros Hi Ha. inversion Hi; subst; simplify_eq/=.
  - split; [done|]. exists [t]. split; [done|by repeat constructor].
  - eauto.
  - destruct lt; simplify_eq/=; eauto.
Qed.

Lemma lok_arms Γ lt act bs : lok true f Γ lt → contractive lt = true → arms lt = Some (act, bs) →
  (∀ l l', act l = act l' → l = l') ∧ NoDup (map (fun b => name (lb_label b)) bs) ∧
  Forall (fun b => lok true f Γ (lb_cont b) ∧ contractive (lb_cont b) = true) bs.
Proof.
  intros Hok Hc Ha. destruct lt; simplify_eq/=; inversion Hok; subst;
    (split_and!; [by intros ? ? [= ->]|try apply NoDup_singleton; done|]).
  1,2: by repeat constructor.
  all: apply contractive_branches in Hc; rewrite Forall_forall in *; naive_solver.
Qed.

Lemma implements_step c a c' s : implements c s → lstep c a c' →
  ∃ t, check_step m s a (ctx_of a) = Ok t ∧ implements c' t.
Proof.
  destruct c as [Δ lt]. intros (ρ & Hst & Hok & Hc & Hi) (act & bs & b & Ha & Hb & -> & ->)%lstep_arms.
  simpl in *. destruct (impl_arms _ _ _ _ _ Hi Ha) as (_ & ts & Hes & Hall).
  destruct (lok_arms _ _ _ _ Hok Hc Ha) as (Hinj & Hnd & Hbs).
  apply list_elem_of_lookup in Hb as [i Hb].
  destruct (Forall2_lookup_l _ _ _ _ _ Hall Hb) as (t & Ht & Him).
  exists t. split.
  - unfold check_step. rewrite Hes.
    apply (check_edges_elem _ _ (arm_edge s act b t)); [apply arms_internal| |].
    + apply arms_NoDup; [done|done|]. by eapply Forall2_length.
    + apply list_elem_of_lookup. exists i. rewrite lookup_zip_with, Hb. simpl. by rewrite Ht.
  - rewrite Forall_forall in Hbs. destruct (Hbs b); [by eapply list_elem_of_lookup_2|]. by exists ρ.
Qed.

Lemma lrun_trans c c1 w d : lrun c [] c1 → lrun c1 w d → lrun c w d.
Proof.
  intros Hr. remember [] as w0 eqn:E. induction Hr; [done| |done]. eauto with csm.
Qed.

Lemma implements_back c a s t : implements c s → check_step m s a (ctx_of a) = Ok t →
  ∃ c', (∀ w d, lrun c' w d → lrun c (a :: w) d) ∧ implements c' t.
Proof.
  intros (Δ & lt & Hr & (ρ & Hst & Hok & Hc & Hi) & Hhd)%implements_head
         (e & He & <- & <- & _)%check_edges_Ok. simpl in *.
  destruct Hhd as [->|[[act bs] Ha]].
  - inversion Hi as [? ? Hes| | | | |]; subst; simplify_eq/=.
    unfold edges_from in He. rewrite Hes in He. by apply elem_of_nil in He.
  - destruct (impl_arms _ _ _ _ _ Hi Ha) as (_ & ts & Hes & Hall).
    destruct (lok_arms _ _ _ _ Hok Hc Ha) as (_ & _ & Hbs). rewrite Hes in He.
    apply elem_of_lookup_zip_with in He as (i & b & t & -> & Hb & Ht).
    exists (Δ, lb_cont b). apply list_elem_of_lookup_2 in Hb as Hb'. split.
    + intros w d Hd. apply (lrun_trans _ _ _ _ Hr). econstructor; [|done].
      apply lstep_arms. eauto 10.
    + rewrite Forall_forall in Hbs. destruct (Hbs b Hb'). exists ρ. split_and!; [done..|].
      by destruct (Forall2_lookup_l _ _ _ _ _ Hall Hb) as (t' & ? & ?); simplify_eq.
Qed.

Lemma implements_end Δ s : implements (Δ, LEnd) s → is_terminal m s = true.
Proof.
  intros (ρ & _ & _ & _ & Hi). inversion Hi; subst; simplify_eq/=.
  by apply bool_decide_eq_true.
Qed.

Lemma implements_terminal c s : implements c s → is_terminal m s = true → ∃ Δ, lrun c [] (Δ, LEnd).
Proof.
  intros (Δ & lt & Hr & (ρ & Hst & Hok & Hc & Hi) & [->|[[act bs] Ha]])%implements_head
    HT%bool_decide_eq_true; [eauto|].
  by destruct (impl_arms _ _ _ _ _ Hi Ha) as [? _].
Qed.

(** Words: the machine follows the runs of the type, and only those. *)
Lemma mrun_complete c w d : lrun c w d → ∀ s, implements c s →
  ∃ t, mrun m s w = Ok t ∧ implements d t.
Proof.
  induction 1 as [c|c c' w d Hu Hr IH|c a c' w d Hst Hr IH]; intros s Hi; simpl.
  - eauto.
  - eauto using implements_unfold.
  - destruct (implements_step _ _ _ _ Hi Hst) as (t & Ht & Hi'). rewrite Ht. simpl. auto.
Qed.

Lemma mrun_sound w : ∀ c s t, implements c s → mrun m s w = Ok t → ∃ d, lrun c w d ∧ implements d t.
Proof.
  induction w as [|a w IH]; intros c s t Hi Hm; simpl in Hm; inv_obind.
  - exists c. split; [constructor|done].
  - destruct (implements_back _ _ _ _ Hi Ha) as (c' & Hk & Hi').
    destruct (IH _ _ _ Hi' Hm) as (d & ? & ?). eauto.
Qed.
End bisim.

(** ** The compiler, end to end *)
Lemma compile_impl f role lt penv :
  lok true f [] lt → contractive lt = true →
  ∃ m, compile_in role lt penv = Ok m ∧ flat_machine m ∧
    impl (edges m) (terminals m) ∅ lt (initial m).
Proof.
  intros Hok Hc.
  destruct (go_compiles f role penv (compile_fuel lt penv) lt [] None compiler_new)
    as (s & c' & E & D & Hgo & _ & [] & Himpl); [done|done| |by left|].
  { split_and!; [|done|done]. intros v Hv. by apply elem_of_nil in Hv. }
  unfold compile_in. rewrite Hgo. simpl. eexists. split; [done|]. simpl in *. split.
  - unfold flat_machine. simpl. rewrite ext_edges0. eapply Forall_impl; [done|]. naive_solver.
  - simpl. apply Himpl. intros x _. rewrite ext_edges0. split; [done|]. rewrite ext_terminals0. set_solver.
Qed.

Lemma compile_correct f role lt penv :
  lok true f [] lt → contractive lt = true →
  ∃ m, compile_in role lt penv = Ok m ∧ flat_machine m ∧
    ∀ w, (is_ok (mrun m (initial m) w) ↔ ladmits lt w) ∧
         ((∃ s, mrun m (initial m) w = Ok s ∧ is_terminal m s = true) ↔ laccepts lt w).
Proof.
  intros Hok Hc. destruct (compile_impl f role lt penv Hok Hc) as (m & Hm & Hfl & Himpl).
  exists m. split_and!; [done|done|].
  assert (Hi : implements f m ([], lt) (initial m)).
  { exists ∅. split_and!; [constructor|done..]. }
  intros w. split; split.
  - intros [t Ht]. destruct (mrun_sound _ _ _ _ _ _ Hi Ht) as (d & ? & _). by exists d.
  - intros [d Hd]. destruct (mrun_complete _ _ _ _ _ Hd _ Hi) as (t & ? & _). by exists t.
  - intros (t & Ht & HT). destruct (mrun_sound _ _ _ _ _ _ Hi Ht) as (d & Hd & Hi').
    destruct (implements_terminal _ _ _ _ Hi' HT) as [Δ He]. exists Δ.
    clear -Hd He. induction Hd; eauto with csm.
  - intros [Δ Hd]. destruct (mrun_complete _ _ _ _ _ Hd _ Hi) as (t & Ht & Hi').
    eauto using implements_end.
Qed.
