(* ===== verification/CsmTermination.v ===== *)
(** The compiler of [src/csm/machine.rs] always ends, calls included: a callee
    box is memoized before its body is compiled, so each
    [(callee, callee-role)] pair is expanded at most once. *)

From stdpp Require Import base strings list gmap.
From S2P Require Import Prelude BTree CsmRole CsmGlobal CsmLocal CsmProject CsmOccurs CsmMachine CsmCompile.

(** * The calls of a projection are calls of the protocol *)
Definition names_key (k : string * Role) (c : ProtocolRef) (s : BTreeMap Role Role) : Prop :=
  ref_name c = k.1 ∧ k.2 ∈ map fst s.

Lemma call_keys_elem k (c : ProtocolRef) (s : BTreeMap Role Role) :
  k ∈ map (fun kv => (ref_name c, kv.1)) s ↔ names_key k c s.
Proof.
  unfold names_key. destruct k as [n r]. rewrite list_elem_of_fmap. setoid_rewrite list_elem_of_fmap.
  simpl. naive_solver.
Qed.

Lemma flat_map_elem {A B} (f : A → list B) xs y : y ∈ flat_map f xs ↔ ∃ x, x ∈ xs ∧ y ∈ f x.
Proof. rewrite list_elem_of_In, in_flat_map. by setoid_rewrite list_elem_of_In. Qed.

Lemma lcall_keys_has k L :
  k ∈ lcall_keys L ↔ local_has (fun _ _ => False) (fun _ _ => False) (names_key k) L.
Proof.
  induction L as [to l lt IH|from l lt IH|to bs IH|from bs IH|v body IH|v|c s lt IH|en body ex lt IHb IHk|]
    using LocalType_rect_branches; simpl;
    rewrite ?elem_of_app, ?call_keys_elem, ?some_in_spec, ?flat_map_elem, ?IHb, ?IHk; try rewrite IH;
    try set_solver.
  - rewrite Forall_forall in IH. naive_solver.
  - rewrite Forall_forall in IH. naive_solver.
Qed.

Lemma call_keys_has com k g : (∀ f t l, ¬ com f t l) →
  global_has com (names_key k) g → k ∈ call_keys g.
Proof.
  intros Hcom. induction g as [from to l g IH|from to bs IH|v body IH|v|c s g IH|en body ex g IHb IHk|]
    using GlobalType_rect_branches; simpl;
    rewrite ?elem_of_app, ?call_keys_elem, ?some_in_spec, ?flat_map_elem; [naive_solver| |naive_solver..].
  rewrite Forall_forall in IH. naive_solver.
Qed.

Lemma project_call_keys g r L k : project g r = Ok L → k ∈ lcall_keys L → k ∈ call_keys g.
Proof.
  intros Hp Hk%lcall_keys_has. eapply call_keys_has; [|by eapply project_has]. naive_solver.
Qed.

(** [project] is structural: it does not run out of anything. *)
Lemma ofold_fuelled {E A S} (f : S → A → outcome E S) xs :
  Forall (fun x => ∀ s, f s x ≠ OutOfFuel) xs → ∀ s, ofold f s xs ≠ OutOfFuel.
Proof.
  induction 1 as [|x xs Hx Hxs IH]; intros s; simpl; [done|].
  specialize (Hx s). destruct (f s x); simpl; auto.
Qed.

Lemma obind_fuelled {E A B} (m : outcome E A) (k : A → outcome E B) :
  m ≠ OutOfFuel → (∀ a, m = Ok a → k a ≠ OutOfFuel) → obind m k ≠ OutOfFuel.
Proof. destruct m; simpl; auto. Qed.

Lemma omapM_fuelled {E A B} (f : A → outcome E B) xs :
  Forall (fun x => f x ≠ OutOfFuel) xs → omapM f xs ≠ OutOfFuel.
Proof.
  induction 1 as [|x xs Hx Hxs IH]; simpl; [done|].
  destruct (f x); simpl; auto. destruct (omapM f xs); simpl; auto.
Qed.

Lemma project_fuelled g r : project g r ≠ OutOfFuel.
Proof.
  assert (Hm : ∀ a b, merge a b ≠ OutOfFuel).
  { intros a b. destruct (merge_returns b a) as [[? ->]|[? ->]]; done. }
  induction g as [from to l k IH|from to bs IH|v body IH|v|c s k IH|en body ex k IHb IHk|]
    using GlobalType_rect_branches; simpl.
  - apply obind_fuelled; [done|]. intros. by repeat case_decide.
  - assert (Harms : omapM (fun b => let* c := project (gb_cont b) r in
      Ok (mkLocalBranch (gb_label b) c)) bs ≠ OutOfFuel).
    { apply omapM_fuelled. eapply Forall_impl; [exact IH|]. intros b Hb. by apply obind_fuelled. }
    case_decide; [by apply obind_fuelled|]. case_decide; [by apply obind_fuelled|].
    destruct IH as [|b bs Hb IH]; [done|]. apply obind_fuelled; [done|]. intros acc _.
    apply ofold_fuelled. eapply Forall_impl; [exact IH|]. intros b' Hb' acc'. by apply obind_fuelled.
  - by apply obind_fuelled.
  - done.
  - apply obind_fuelled; [done|]. intros. by case_decide.
  - apply obind_fuelled; [done|]. intros. case_match; [by apply obind_fuelled|done].
  - done.
Qed.

(** * Every expansion memoizes a new pair *)
Section compiler.
Context (role : Role) (penv : ProtocolEnv) (K : list (string * Role)).
Context (HK : ∀ n g k, penv_resolve penv n = Some g → k ∈ call_keys g → k ∈ K).

(** The pairs of [K] not yet expanded. *)
Definition pending_boxes (c : Compiler) : nat := length (filter (fun k => box_memo c !! k = None) K).

(** A compilation step from [c] ends, and only adds memoized boxes. *)
Definition ends (c : Compiler) (m : compiled) : Prop :=
  m ≠ OutOfFuel ∧ ∀ s c', m = Ok (s, c') → box_memo c ⊆ box_memo c'.

Lemma pending_boxes_le c c' : box_memo c ⊆ box_memo c' → pending_boxes c' ≤ pending_boxes c.
Proof. intros Hs. apply length_filter_le. intros k Hk. by eapply lookup_weaken_None. Qed.

Lemma pending_boxes_insert c c' k s : k ∈ K → box_memo c !! k = None →
  box_memo c' = <[k := s]> (box_memo c) → pending_boxes c' < pending_boxes c.
Proof.
  intros Hk Hc Hc'. refine (length_filter_lt _ _ _ K k Hk Hc _).
  - intros j Hj. rewrite Hc' in Hj. by apply lookup_insert_None in Hj as [? _].
  - by rewrite Hc', lookup_insert_eq.
Qed.

Lemma ends_Ok c s c' : box_memo c ⊆ box_memo c' → ends c (Ok (s, c')).
Proof. intros Hs. split; [done|]. intros. by simplify_eq. Qed.

Lemma ends_fail {A} c (m : outcome ProjectionError A) (k : A → compiled) :
  m ≠ OutOfFuel → (∀ a, m = Ok a → ends c (k a)) → ends c (obind m k).
Proof. destruct m; simpl; intros ? Hk; [auto|split; done..]. Qed.

Lemma ends_bind c m (k : nat * Compiler → compiled) : ends c m →
  (∀ s c', box_memo c ⊆ box_memo c' → ends c' (k (s, c'))) → ends c (obind m k).
Proof.
  intros [Hm Hsub] Hk. destruct m as [[s c']| | |]; simpl; [|split; done..].
  specialize (Hsub s c' eq_refl). destruct (Hk s c' Hsub) as [H1 H2].
  split; [done|]. intros s2 c2 E. etrans; eauto.
Qed.

Lemma alloc_memo entry c s c' : alloc entry c = (s, c') → box_memo c' = box_memo c.
Proof. destruct entry; unfold alloc, fresh_state; intros [= <- <-]; done. Qed.

Lemma ends_memo c c' m : box_memo c' = box_memo c → ends c' m → ends c m.
Proof. unfold ends. by intros ->. Qed.

(** A call, given that the compiler of the callee ends with less fuel. *)
Lemma callee_ends fuel name cr c :
  (∀ f lt entry c, fuel = S f → (∀ k, k ∈ lcall_keys lt → k ∈ K) → pending_boxes c ≤ f →
     ends c (go role penv f lt entry c)) →
  (name, cr) ∈ K → pending_boxes c ≤ fuel →
  ends c (compile_callee_box penv
            (match fuel with S f => go role penv f | O => fun _ _ _ => OutOfFuel end) name cr c).
Proof using HK.
  intros IH Hin Hle. unfold compile_callee_box.
  destruct (box_memo c !! (name, cr)) as [e|] eqn:Em; [by apply ends_Ok|].
  apply ends_fail; [by destruct (penv_resolve _ _)|]. intros g Hg.
  apply ends_fail; [apply project_fuelled|]. intros lt Hlt.
  destruct (fresh_state c) as [entry c1] eqn:Ef.
  set (c3 := set_exits _ _).
  assert (Hc3 : box_memo c3 = <[(name, cr) := entry]> (box_memo c)).
  { unfold fresh_state in Ef. injection Ef as <- <-. done. }
  pose proof (pending_boxes_insert _ _ _ _ Hin Em Hc3).
  destruct fuel as [|f]; [lia|]. specialize (IH f lt (Some entry) c3 eq_refl).
  assert (Hgo : ends c3 (go role penv f lt (Some entry) c3)).
  { apply IH; [|lia]. intros k Hk. eapply HK; [|by eapply project_call_keys].
    unfold ok_or in Hg. destruct (penv_resolve _ _) eqn:Er; simplify_eq. exact Er. }
  assert (Hsub : box_memo c ⊆ box_memo c3) by (rewrite Hc3; by apply insert_subseteq).
  destruct Hgo as [Hgo Hm]. destruct (go role penv f lt (Some entry) c3) as [[s c4]| | |]; simpl; try (split; done).
  apply ends_Ok. simpl. etrans; [exact Hsub|]. by eapply Hm.
Qed.

(** One compilation of a branch list. *)
Lemma arms_end fuel s act bs :
  Forall (fun b => (∀ k, k ∈ lcall_keys (lb_cont b) → k ∈ K) →
            ∀ entry c, pending_boxes c ≤ fuel → ends c (go role penv fuel (lb_cont b) entry c)) bs →
  (∀ k, k ∈ flat_map (fun b => lcall_keys (lb_cont b)) bs → k ∈ K) →
  ∀ c, pending_boxes c ≤ fuel →
  ends c (let* c' := ofold (compile_branch (go role penv fuel) s act) c bs in Ok (s, c')).
Proof.
  induction 1 as [|b bs Hb Hbs IH]; intros Hk c Hle; simpl; [by apply ends_Ok|].
  unfold compile_branch at 1.
  destruct (Hb ltac:(set_solver) None c Hle) as [H1 H2].
  destruct (go role penv fuel (lb_cont b) None c) as [[t c']| | |]; simpl; try (split; done).
  specialize (H2 t c' eq_refl). pose proof (pending_boxes_le c c' H2).
  set (c2 := push_edge c' _).
  destruct (IH ltac:(set_solver) c2) as [H3 H4]; [unfold pending_boxes in *; simpl; lia|].
  split; [done|]. intros s2 c3 E. specialize (H4 s2 c3 E). simpl in H4. by etrans.
Qed.

Lemma pending_boxes_eq c c' : box_memo c = box_memo c' → pending_boxes c = pending_boxes c'.
Proof. unfold pending_boxes. by intros ->. Qed.

Lemma go_arms_end fuel act bs entry c :
  Forall (fun b => ∀ entry c, (∀ k, k ∈ lcall_keys (lb_cont b) → k ∈ K) →
            pending_boxes c ≤ fuel → ends c (go role penv fuel (lb_cont b) entry c)) bs →
  (∀ k, k ∈ flat_map (fun b => lcall_keys (lb_cont b)) bs → k ∈ K) → pending_boxes c ≤ fuel →
  ends c (go_arms role penv fuel act bs entry c).
Proof.
  intros Hbs Hk Hle. unfold go_arms. destruct (alloc entry c) as [s c1] eqn:Ea. apply alloc_memo in Ea.
  eapply ends_memo; [exact Ea|]. apply arms_end; [|done|by rewrite (pending_boxes_eq _ c)].
  eapply Forall_impl; [exact Hbs|]. naive_solver.
Qed.

(** The equation of [go], with the compiler of the callees made explicit. *)
Definition callee_go (fuel : nat) : LocalType → option nat → Compiler → compiled :=
  match fuel with S f => go role penv f | O => fun _ _ _ => OutOfFuel end.

Lemma go_call fuel callee subst cont entry c :
  go role penv fuel (LocalCall callee subst cont) entry c =
  (let (s, c) := alloc entry c in
   let* (ret, c) := go role penv fuel cont None c in
   let* cr := expect (fst <$> find_first (fun kv => bool_decide (kv.2 = role)) subst) in
   let* (box_entry, c) := compile_callee_box penv (callee_go fuel) (ref_name callee) cr c in
   Ok (s, push_edge c (mkEdge s (ASend role (label_text ("call:" +:+ ref_name callee)))
                              box_entry (Call ret)))).
Proof. destruct fuel; reflexivity. Qed.

Lemma go_box fuel enter body exit cont entry c :
  go role penv fuel (LocalBox enter body exit cont) entry c =
  (let (s, c) := alloc entry c in
   let* (ret, c) := go role penv fuel cont None c in
   let (body_entry, c) := fresh_state c in
   let* (_, c) := go role penv fuel body (Some body_entry) (set_exits c (exit :: box_exit_labels c)) in
   let c := set_exits c (tl (box_exit_labels c)) in
   Ok (s, push_edge c (mkEdge s (ASend role enter) body_entry (Call ret)))).
Proof. destruct fuel; reflexivity. Qed.

(** Continue from the state the next compilation starts in. *)
Ltac from_argument :=
  match goal with |- ends _ (obind (go _ _ _ _ _ ?c) _) => apply (ends_memo _ c); [done|] end.

Lemma go_ends fuel : ∀ lt entry c, (∀ k, k ∈ lcall_keys lt → k ∈ K) → pending_boxes c ≤ fuel →
  ends c (go role penv fuel lt entry c).
Proof using HK.
  induction fuel as [fuel IHf] using lt_wf_ind. intros lt.
  induction lt as [to l k IH|from l k IH|to bs IH|from bs IH|v body IH|v|ca s k IH|en body ex k IHb IHk|]
    using LocalType_rect_branches; intros entry c Hk Hle.
  - rewrite go_send. apply go_arms_end; [by apply Forall_singleton| |done]. simpl. by rewrite app_nil_r.
  - rewrite (go_offer _ _ _ _ from [mkLocalBranch l k]) by done.
    apply go_arms_end; [by apply Forall_singleton| |done]. simpl. by rewrite app_nil_r.
  - rewrite go_select. by apply go_arms_end.
  - rewrite (go_offer _ _ _ _ from bs) by done. by apply go_arms_end.
  - rewrite go_rec. destruct (alloc entry c) as [s c1] eqn:Ea. apply alloc_memo in Ea.
    eapply ends_memo; [exact Ea|]. from_argument. apply ends_bind.
    + apply IH; [done|]. by rewrite (pending_boxes_eq _ c).
    + intros s' c' _. by apply ends_Ok.
  - destruct fuel; simpl; destruct (rec_env c !! v); simpl; [by apply ends_Ok|done|by apply ends_Ok|done].
  - rewrite go_call. destruct (alloc entry c) as [s0 c1] eqn:Ea. apply alloc_memo in Ea.
    eapply ends_memo; [exact Ea|]. simpl in Hk. apply ends_bind.
    { apply IH; [set_solver|]. by rewrite (pending_boxes_eq _ c). }
    intros ret c2 Hc2. apply ends_fail; [by destruct (fst <$> _)|]. intros cr Hcr.
    apply ends_bind; [|intros; by apply ends_Ok].
    apply callee_ends.
    + intros f lt' entry' c' ->. apply IHf. lia.
    + apply Hk, elem_of_app. left. apply call_keys_elem. split; [done|]. simpl.
      destruct (find_first _ s) as [kv|] eqn:Ek; simplify_eq/=. apply list_elem_of_fmap.
      exists kv. split; [done|]. apply list_elem_of_In. by eapply find_some.
    + apply pending_boxes_le in Hc2. rewrite (pending_boxes_eq c1 c) in Hc2 by done. lia.
  - rewrite go_box. destruct (alloc entry c) as [s0 c1] eqn:Ea. apply alloc_memo in Ea.
    eapply ends_memo; [exact Ea|]. simpl in Hk. apply ends_bind.
    { apply IHk; [set_solver|]. by rewrite (pending_boxes_eq _ c). }
    intros ret c2 Hc2. destruct (fresh_state c2) as [be c3] eqn:Ef.
    assert (E3 : box_memo c3 = box_memo c2) by (unfold fresh_state in Ef; by injection Ef as <- <-).
    eapply ends_memo; [exact E3|]. from_argument. apply ends_bind.
    + apply IHb; [set_solver|]. rewrite (pending_boxes_eq _ c2) by done.
      apply pending_boxes_le in Hc2. rewrite (pending_boxes_eq c1 c) in Hc2 by done. lia.
    + intros s' c' _. by apply ends_Ok.
  - destruct fuel; simpl; destruct (alloc entry c) as [s c1] eqn:Ea; apply alloc_memo in Ea;
      (eapply ends_memo; [exact Ea|]); by case_match; apply ends_Ok.
Qed.
End compiler.

Lemma resolve_keys penv n g k :
  penv_resolve penv n = Some g → k ∈ call_keys g → k ∈ flat_map call_keys (bm_values (protocols penv)).
Proof.
  intros Hg Hk. apply flat_map_elem. exists g. split; [|done].
  apply bm_get_elem in Hg. by apply (list_elem_of_fmap_2 snd) in Hg.
Qed.

Lemma compile_ends role lt penv : compile_in role lt penv ≠ OutOfFuel.
Proof.
  apply obind_fuelled; [|by intros [] _]. apply (go_ends _ _ (all_call_keys lt penv)).
  - intros. apply elem_of_app. right. by eapply resolve_keys.
  - intros k Hk. apply elem_of_app. by left.
  - apply length_filter.
Qed.

(** * Properties *)

(** C34: compiling always ends, whatever the protocol, its calls and the
    environment: the model's fuel, one unit per [(callee, callee-role)] pair
    the calls name, is never used up, recursive and mutually recursive callees
    included.  So building a network ends too. *)
Theorem compile_terminates (role : Role) (lt : LocalType) (penv : ProtocolEnv)
    (proto : string) (g : GlobalType) :
  compile_in role lt penv ≠ OutOfFuel ∧ build_in proto g penv ≠ OutOfFuel.
Proof.
  split; [apply compile_ends|]. apply obind_fuelled; [|done]. apply ofold_fuelled.
  apply Forall_true. intros r ms. apply obind_fuelled; [apply project_fuelled|]. intros L _.
  apply obind_fuelled; [apply compile_ends|done].
Qed.
