(* ===== verification/CsmSoundness.v ===== *)
(** Networks and the conformance checker: on call-free protocols the checker
    accepts exactly the traces that are, role by role, complete runs of the
    projections; every complete run of the protocol is accepted. *)

From stdpp Require Import base strings list gmap.
From S2P Require Import Prelude BTree Vocab CsmRole CsmGlobal CsmLocal CsmWellformed CsmProject CsmMerge.
From S2P Require Import CsmMachine CsmRegistry CsmConformance CsmSemantics CsmCompile.

(** * Building networks *)

(** Every projection of [g] is contractive. *)
Definition projections_contractive (g : GlobalType) : bool :=
  forallb (fun r => match project g r with Ok L => contractive L | _ => true end) (participants g).

Lemma projections_contractive_elem g r L :
  projections_contractive g = true → r ∈ participants g → project g r = Ok L → contractive L = true.
Proof.
  unfold projections_contractive. rewrite forallb_forall. intros H Hr Hp.
  specialize (H r). rewrite Hp in H. by apply H, list_elem_of_In.
Qed.

Lemma build_roles_get g penv rs : ∀ ms ms', ofold (build_role g penv) ms rs = Ok ms' → bm_ok ms →
  bm_ok ms' ∧
  (∀ r, r ∈ rs → ∃ L m, project g r = Ok L ∧ compile_in r L penv = Ok m ∧ bm_get ms' r = Some m) ∧
  (∀ r, r ∉ rs → bm_get ms' r = bm_get ms r).
Proof.
  induction rs as [|r rs IH]; intros ms ms' Hf Hok; simpl in Hf; unfold build_role in Hf; inv_obind.
  { split_and!; [done| |done]. intros r Hr. by apply elem_of_nil in Hr. }
  rename a1 into m. destruct (IH _ _ Hf ltac:(auto)) as (Hok' & Hin & Hout).
  split_and!; [done| |].
  - intros r' Hr'. destruct (decide (r' ∈ rs)) as [|Hn]; [auto|].
    assert (r' = r) as -> by set_solver. eexists _, _. split_and!; [done|done|].
    rewrite Hout by done. by rewrite bm_get_insert, decide_True.
  - intros r' Hr'. rewrite Hout by set_solver. rewrite bm_get_insert, decide_False by set_solver. done.
Qed.

Lemma build_machine proto g penv net : build_in proto g penv = Ok net →
  bm_ok (machines net) ∧
  (∀ r, r ∈ participants g → ∃ L m, project g r = Ok L ∧ compile_in r L penv = Ok m ∧
                                    machine net r = Some m) ∧
  (∀ r, r ∉ participants g → machine net r = None).
Proof.
  intros H. unfold build_in in H. inv_obind.
  destruct (build_roles_get _ _ _ _ _ Ha ltac:(constructor)) as (? & ? & ?). by split_and!.
Qed.

(** What the theorems below assume of a protocol. *)
Record regular (g : GlobalType) : Prop := {
  reg_wf : check g [] = Ok tt;
  reg_flat : call_free g = true;
  reg_media : consistent_media g;
  reg_contractive : projections_contractive g = true;
}.

Lemma project_lok g r L : regular g → project g r = Ok L → lok true (medium_of g) [] L.
Proof.
  intros [Hw%check_wf ? ? ?] Hp. eapply project_ok; [done| |done|done]. eauto using medium_of_ok.
Qed.

(** Each machine of a network is the compiled projection. *)
Lemma regular_machine proto g net r m : regular g → build proto g = Ok net →
  machine net r = Some m →
  r ∈ participants g ∧ ∃ L, project g r = Ok L ∧ flat_machine m ∧
    ∀ w, (is_ok (mrun m (initial m) w) ↔ ladmits L w) ∧
         ((∃ s, mrun m (initial m) w = Ok s ∧ is_terminal m s = true) ↔ laccepts L w).
Proof.
  intros Hreg Hb Hm. destruct (build_machine _ _ _ _ Hb) as (Hok & Hin & Hout).
  destruct (decide (r ∈ participants g)) as [Hr|Hr]; [|rewrite Hout in Hm by done; done].
  split; [done|]. destruct (Hin r Hr) as (L & m' & Hp & Hc & Hm'). simplify_eq.
  exists L. split; [done|].
  destruct (compile_correct (medium_of g) r L penv_new) as (m' & Hc' & Hfl & Hw).
  - by apply project_lok with r.
  - destruct Hreg. by eapply projections_contractive_elem.
  - rewrite Hc in Hc'. injection Hc' as <-. by split.
Qed.

(** * Replaying on a flat network *)
Section replay.
Context (net : Network) (fuel : nat).
Context (Hok : bm_ok (machines net)) (Hflat : ∀ r m, machine net r = Some m → flat_machine m).

Lemma epsilon_close_flat m s st : flat_machine m → epsilon_close (S fuel) m s st = Ok (s, st).
Proof.
  intros Hf. simpl. unfold boundary_edge, find_first.
  destruct (List.find _ _) as [e|] eqn:Ef; [|done].
  apply List.find_some in Ef as [Hin He%bool_decide_eq_true]. exfalso. apply He.
  apply list_elem_of_In, list_elem_of_filter in Hin as [_ Hin].
  unfold flat_machine in Hf. rewrite Forall_forall in Hf. auto.
Qed.

Lemma mrun_app m s w w' : mrun m s (w ++ w') = let* t := mrun m s w in mrun m t w'.
Proof.
  revert s. induction w as [|a w IH]; intros s; simpl; [done|].
  destruct (check_step _ _ _ _); simpl; auto.
Qed.

(** The configurations after every role [r] has done the actions [hist r]. *)
Definition tracks (configs : BTreeMap Role RoleConfig) (hist : Role → list Action) : Prop :=
  bm_ok configs ∧
  (∀ r m, machine net r = Some m → ∃ s,
     mrun m (initial m) (hist r) = Ok s ∧ bm_get configs r = Some (mkConfig s [])) ∧
  (∀ r, machine net r = None → bm_get configs r = None).

Lemma tracks_ext configs hist hist' : (∀ r, hist r = hist' r) → tracks configs hist → tracks configs hist'.
Proof. intros E (? & H1 & ?). split_and!; [done| |done]. intros r m. rewrite <- E. auto. Qed.

Lemma advance_endpoint_eq ord r a configs hist m s :
  tracks configs hist → machine net r = Some m → mrun m (initial m) (hist r) = Ok s →
  advance_endpoint (S fuel) net ord r a (recv_head (ctx_of a)) configs =
  let* t := omap_err (map_replay_err r ord) (omap_err RStep (check_step m s a (ctx_of a))) in
  Ok (bm_insert configs r (mkConfig t [])).
Proof.
  intros (Hc & Hm & _) Hr Hs. unfold advance_endpoint. rewrite Hr. cbn [ok_or obind].
  destruct (Hm r m Hr) as (s' & Hs' & ->). rewrite Hs in Hs'. injection Hs' as <-.
  unfold advance_role. cbn [expect obind].
  rewrite epsilon_close_flat by eauto. cbn [obind cfg_state cfg_stack expect].
  replace (mkStepContext (recv_head (ctx_of a))) with (ctx_of a) by (by destruct a).
  destruct (check_step m s a (ctx_of a)) as [t| | |]; cbn [obind omap_err]; [|done..].
  by rewrite epsilon_close_flat by eauto.
Qed.

Definition snoc (hist : Role → list Action) (r : Role) (a : Action) (r' : Role) : list Action :=
  hist r' ++ (if decide (r = r') then [a] else []).

Lemma tracks_insert configs hist r a m t :
  tracks configs hist → machine net r = Some m →
  mrun m (initial m) (hist r ++ [a]) = Ok t →
  tracks (bm_insert configs r (mkConfig t [])) (snoc hist r a).
Proof.
  intros (Hc & Hm & Hn) Hr Ht. unfold snoc. split_and!; [auto| |].
  - intros r' m' Hr'. rewrite bm_get_insert by done.
    destruct (decide (r' = r)) as [->|Hne].
    + simplify_eq. rewrite decide_True by done. eauto.
    + rewrite decide_False by done. rewrite app_nil_r. auto.
  - intros r' Hr'. rewrite bm_get_insert by done. rewrite decide_False by congruence. auto.
Qed.

Lemma advance_endpoint_sound ord r a configs configs' hist :
  tracks configs hist →
  advance_endpoint (S fuel) net ord r a (recv_head (ctx_of a)) configs = Ok configs' →
  is_Some (machine net r) ∧ tracks configs' (snoc hist r a).
Proof.
  intros Ht Ha. destruct (machine net r) as [m|] eqn:Hr.
  - split; [eauto|]. pose proof Ht as (_ & Hm & _). destruct (Hm r m Hr) as (s & Hs & _).
    erewrite advance_endpoint_eq in Ha by eauto.
    destruct (check_step m s a (ctx_of a)) as [t| | |] eqn:Es; simplify_eq/=.
    eapply tracks_insert; [done|done|]. rewrite mrun_app, Hs. simpl. by rewrite Es.
  - unfold advance_endpoint in Ha. by rewrite Hr in Ha.
Qed.

Lemma advance_endpoint_complete ord r a configs hist m :
  tracks configs hist → machine net r = Some m → is_ok (mrun m (initial m) (hist r ++ [a])) →
  is_ok (advance_endpoint (S fuel) net ord r a (recv_head (ctx_of a)) configs).
Proof.
  intros Ht Hr [t Hrun]. pose proof Ht as (_ & Hm & _). destruct (Hm r m Hr) as (s & Hs & _).
  erewrite advance_endpoint_eq by eauto. rewrite mrun_app, Hs in Hrun. simpl in Hrun.
  destruct (check_step m s a (ctx_of a)) as [t'| | |]; simplify_eq/=. by eexists.
Qed.

Lemma replay_event_split ord e configs :
  replay_event (S fuel) net configs (ord, e) =
  let* c := advance_endpoint (S fuel) net ord (ev_from e) (ASend (ev_to e) (ev_label e))
              (recv_head (ctx_of (ASend (ev_to e) (ev_label e)))) configs in
  advance_endpoint (S fuel) net ord (ev_to e) (ARecv (ev_from e) (ev_label e))
    (recv_head (ctx_of (ARecv (ev_from e) (ev_label e)))) c.
Proof. done. Qed.

Lemma replay_event_sound ord e configs configs' hist :
  tracks configs hist → replay_event (S fuel) net configs (ord, e) = Ok configs' →
  is_Some (machine net (ev_from e)) ∧ is_Some (machine net (ev_to e)) ∧
  tracks configs' (fun r => hist r ++ actions_of r e).
Proof.
  intros Ht. rewrite replay_event_split. intros H. inv_obind.
  destruct (advance_endpoint_sound _ _ _ _ _ _ Ht Ha) as [Hf Ht1].
  destruct (advance_endpoint_sound _ _ _ _ _ _ Ht1 H) as [Hto Ht2].
  split_and!; [done|done|]. eapply tracks_ext; [|exact Ht2]. intros r. unfold snoc, actions_of.
  by rewrite app_assoc.
Qed.

Lemma is_ok_mrun_prefix m s w w' : is_ok (mrun m s (w ++ w')) → is_ok (mrun m s w).
Proof. rewrite mrun_app. intros [t Ht]. inv_obind. by eexists. Qed.

Lemma replay_event_complete ord e configs hist :
  tracks configs hist → is_Some (machine net (ev_from e)) → is_Some (machine net (ev_to e)) →
  (∀ r m, machine net r = Some m → is_ok (mrun m (initial m) (hist r ++ actions_of r e))) →
  is_ok (replay_event (S fuel) net configs (ord, e)).
Proof.
  intros Ht [mf Hf] [mt Hto] Hrun. rewrite replay_event_split.
  destruct (advance_endpoint_complete ord (ev_from e) (ASend (ev_to e) (ev_label e)) configs hist mf)
    as [c1 H1]; [done|done| |].
  { apply (is_ok_mrun_prefix _ _ _ (if decide (ev_to e = ev_from e) then
      [ARecv (ev_from e) (ev_label e)] else [])). specialize (Hrun _ _ Hf). unfold actions_of in Hrun.
    rewrite decide_True in Hrun by done. by rewrite <- app_assoc. }
  rewrite H1. simpl. destruct (advance_endpoint_sound _ _ _ _ _ _ Ht H1) as [_ Ht1].
  eapply advance_endpoint_complete; [exact Ht1|exact Hto|].
  specialize (Hrun _ _ Hto). unfold actions_of in Hrun. unfold snoc.
  rewrite (decide_True (P := ev_to e = ev_to e)) in Hrun by done. by rewrite <- app_assoc.
Qed.

Lemma replay_events_sound tr : ∀ i configs configs' hist,
  tracks configs hist → ofold (replay_event (S fuel) net) configs (enumerate_from i tr) = Ok configs' →
  Forall (fun e => is_Some (machine net (ev_from e)) ∧ is_Some (machine net (ev_to e))) tr ∧
  tracks configs' (fun r => hist r ++ restrict r tr).
Proof.
  induction tr as [|e tr IH]; intros i configs configs' hist Ht H; cbn [enumerate_from ofold] in H.
  - inv_obind. split; [constructor|]. eapply tracks_ext; [|exact Ht]. intros r. by rewrite app_nil_r.
  - apply obind_Ok_inv in H as (c1 & Ha & H).
    destruct (replay_event_sound _ _ _ _ _ Ht Ha) as (Hf & Hto & Ht1).
    destruct (IH _ _ _ _ Ht1 H) as [Hall Ht2]. split; [by constructor|].
    eapply tracks_ext; [|exact Ht2]. intros r. simpl. by rewrite app_assoc.
Qed.

Lemma replay_events_complete tr : ∀ i configs hist,
  tracks configs hist →
  Forall (fun e => is_Some (machine net (ev_from e)) ∧ is_Some (machine net (ev_to e))) tr →
  (∀ r m, machine net r = Some m → is_ok (mrun m (initial m) (hist r ++ restrict r tr))) →
  is_ok (ofold (replay_event (S fuel) net) configs (enumerate_from i tr)).
Proof.
  induction tr as [|e tr IH]; intros i configs hist Ht Hall Hrun; cbn [enumerate_from ofold]; [by eexists|].
  apply Forall_cons in Hall as [[Hf Hto] Hall].
  destruct (replay_event_complete i e configs hist) as [c1 H1]; [done|done|done| |].
  { intros r m Hr. specialize (Hrun r m Hr). simpl in Hrun. rewrite app_assoc in Hrun.
    by eapply is_ok_mrun_prefix. }
  rewrite H1. cbn [obind]. destruct (replay_event_sound _ _ _ _ _ Ht H1) as (_ & _ & Ht1).
  apply (IH _ _ _ Ht1); [done|]. intros r m Hr. specialize (Hrun r m Hr). simpl in Hrun.
  by rewrite <- app_assoc.
Qed.

(** Before the first event every role is in its initial state. *)
Lemma init_configs ms : bm_ok ms → Forall (fun rm => flat_machine rm.2) ms →
  ∀ cs, bm_ok cs → ∃ cs', ofold (init_config (S fuel)) cs ms = Ok cs' ∧ bm_ok cs' ∧
    ∀ r, bm_get cs' r = match bm_get ms r with
                        | Some m => Some (mkConfig (initial m) [])
                        | None => bm_get cs r
                        end.
Proof.
  induction ms as [|[k m] ms IH]; intros Hms Hfl cs Hcs; [by eexists|].
  apply Forall_cons in Hfl as [Hf Hfl]. pose proof Hms as [Hms' Hlt]%bm_ok_cons_inv.
  cbn [ofold]. unfold init_config at 1. cbn [fst snd]. rewrite epsilon_close_flat by done.
  cbn [omap_err obind].
  destruct (IH Hms' Hfl (bm_insert cs k (mkConfig (initial m) []))) as (cs' & Hf' & Hok' & Hget); [auto|].
  exists cs'. split_and!; [done|done|]. intros r. rewrite Hget, bm_get_cons by done.
  destruct (decide (r = k)) as [->|Hne].
  - rewrite bm_get_None_lt by done. by rewrite bm_get_insert, decide_True.
  - destruct (bm_get ms r); [done|]. by rewrite bm_get_insert, decide_False.
Qed.

Lemma init_tracks : ∃ c0, ofold (init_config (S fuel)) [] (machines net) = Ok c0 ∧ tracks c0 (fun _ => []).
Proof.
  destruct (init_configs (machines net) Hok) with (cs := @nil (Role * RoleConfig))
    as (c0 & Hf & Hc0 & Hget); [|constructor|].
  - apply Forall_forall. intros [r m] Hin. apply (Hflat r). by apply bm_get_Some.
  - exists c0. split; [done|]. split_and!; [done| |].
    + intros r m Hr. exists (initial m). split; [done|]. rewrite Hget. unfold machine in Hr.
      by rewrite Hr.
    + intros r Hr. rewrite Hget. unfold machine in Hr. by rewrite Hr.
Qed.

(** The replay succeeds exactly when every event names known roles and every
    machine can read its part of the trace. *)
Lemma replay_flat_iff tr :
  is_ok (replay_to_configs (S fuel) net tr) ↔
  Forall (fun e => is_Some (machine net (ev_from e)) ∧ is_Some (machine net (ev_to e))) tr ∧
  (∀ r m, machine net r = Some m → is_ok (mrun m (initial m) (restrict r tr))).
Proof.
  unfold replay_to_configs. destruct init_tracks as (c0 & -> & Ht). cbn [obind]. split.
  - intros [c Hc]. destruct (replay_events_sound _ _ _ _ _ Ht Hc) as (Hall & _ & Hm & _).
    split; [done|]. intros r m Hr. destruct (Hm r m Hr) as (s & ? & _). by exists s.
  - intros [Hall Hrun]. by eapply replay_events_complete.
Qed.

Lemma conformance_flat_iff tr :
  check_conformance (S fuel) net tr = Ok tt ↔
  Forall (fun e => is_Some (machine net (ev_from e)) ∧ is_Some (machine net (ev_to e))) tr ∧
  (∀ r m, machine net r = Some m →
     ∃ s, mrun m (initial m) (restrict r tr) = Ok s ∧ is_terminal m s = true).
Proof.
  unfold check_conformance. split.
  - intros H. apply obind_Ok_inv in H as (c & Hc & Hfin).
    unfold replay_to_configs in Hc. destruct init_tracks as (c0 & Hi & Ht). rewrite Hi in Hc.
    destruct (replay_events_sound _ _ _ _ _ Ht Hc) as (Hall & Hcok & Hm & _). split; [done|].
    intros r m Hr. destruct (Hm r m Hr) as (s & Hs & Hg). exists s. split; [done|].
    apply oforM_Ok in Hfin. rewrite Forall_forall in Hfin. apply bm_get_elem in Hg.
    specialize (Hfin _ Hg). simpl in Hfin. rewrite Hr in Hfin. simpl in Hfin.
    by destruct (is_terminal m s).
  - intros [Hall Hrun]. destruct (proj2 (replay_flat_iff tr)) as [c Hc].
    { split; [done|]. intros r m Hr. destruct (Hrun r m Hr) as (s & ? & _). by exists s. }
    rewrite Hc. cbn [obind]. unfold replay_to_configs in Hc.
    destruct init_tracks as (c0 & Hi & Ht). rewrite Hi in Hc.
    destruct (replay_events_sound _ _ _ _ _ Ht Hc) as (_ & Hcok & Hm & Hn).
    apply oforM_Ok, Forall_forall. intros [r cfg] Hin. apply bm_get_Some in Hin; [|done].
    destruct (machine net r) as [m|] eqn:Hr; [|by rewrite Hn in Hin].
    destruct (Hm r m Hr) as (s & Hs & Hg). rewrite Hin in Hg. simplify_eq.
    destruct (Hrun r m Hr) as (s' & Hs' & HT). simpl in Hs. rewrite Hs in Hs'. injection Hs' as <-.
    simpl. rewrite Hr. simpl. by rewrite HT.
Qed.
End replay.

(** * Regular protocols *)
Section regular.
Context (proto : string) (g : GlobalType) (net : Network) (fuel : nat).
Context (Hreg : regular g) (Hb : build proto g = Ok net).

Lemma regular_flat r m : machine net r = Some m → flat_machine m.
Proof using Hreg Hb. intros Hm. by destruct (regular_machine _ _ _ _ _ Hreg Hb Hm) as (_ & L & _ & ? & _). Qed.

Lemma regular_known r : is_Some (machine net r) ↔ r ∈ participants g.
Proof using Hb.
  destruct (build_machine _ _ _ _ Hb) as (_ & Hin & Hout). split.
  - intros [m Hm]. apply dec_stable. intros Hn. rewrite Hout in Hm by done. done.
  - intros Hr. destruct (Hin r Hr) as (? & m & _ & _ & ?). by exists m.
Qed.

Lemma regular_machines_ok : bm_ok (machines net).
Proof using Hb. by destruct (build_machine _ _ _ _ Hb) as (? & _). Qed.

Lemma regular_projection r L : r ∈ participants g → project g r = Ok L → ∃ m,
  machine net r = Some m ∧
    ∀ w, (is_ok (mrun m (initial m) w) ↔ ladmits L w) ∧
         ((∃ s, mrun m (initial m) w = Ok s ∧ is_terminal m s = true) ↔ laccepts L w).
Proof using Hreg Hb.
  intros Hr Hp. apply regular_known in Hr as [m Hm].
  destruct (regular_machine _ _ _ _ _ Hreg Hb Hm) as (_ & L' & Hp' & _ & Hw).
  rewrite Hp in Hp'. injection Hp' as <-. by exists m.
Qed.

Definition names_participants (tr : list Event) : Prop :=
  Forall (fun e => ev_from e ∈ participants g ∧ ev_to e ∈ participants g) tr.

Lemma names_participants_known tr : names_participants tr ↔
  Forall (fun e => is_Some (machine net (ev_from e)) ∧ is_Some (machine net (ev_to e))) tr.
Proof using Hb.
  unfold names_participants. split; intros H; (eapply Forall_impl; [exact H|]); intros e;
    cbv beta; rewrite !regular_known; auto.
Qed.

Lemma regular_replay_iff tr :
  is_ok (replay_to_configs (S fuel) net tr) ↔
  names_participants tr ∧
  ∀ r L, r ∈ participants g → project g r = Ok L → ladmits L (restrict r tr).
Proof using Hreg Hb.
  rewrite replay_flat_iff by (auto using regular_machines_ok; apply regular_flat).
  rewrite <- names_participants_known. apply and_iff_compat_l. split.
  - intros H r L Hr Hp. destruct (regular_projection r L Hr Hp) as (m & Hm & Hw).
    by apply Hw, H.
  - intros H r m Hm. destruct (regular_machine _ _ _ _ _ Hreg Hb Hm) as (Hr & L & Hp & _ & Hw).
    by apply Hw, H.
Qed.

(** The configurations after a replay are the states the machines reach. *)
Lemma regular_replay_state tr configs : replay_to_configs (S fuel) net tr = Ok configs →
  ∀ r m, machine net r = Some m →
  ∃ s, mrun m (initial m) (restrict r tr) = Ok s ∧ bm_get configs r = Some (mkConfig s []).
Proof using Hreg Hb.
  intros Hr. destruct (init_tracks net fuel regular_machines_ok regular_flat) as (c0 & Hi & Ht).
  unfold replay_to_configs in Hr. rewrite Hi in Hr.
  by destruct (replay_events_sound net fuel regular_flat _ _ _ _ _ Ht Hr) as (_ & _ & Hm & _).
Qed.

Lemma regular_conformance_iff tr :
  check_conformance (S fuel) net tr = Ok tt ↔
  names_participants tr ∧
  ∀ r L, r ∈ participants g → project g r = Ok L → laccepts L (restrict r tr).
Proof using Hreg Hb.
  rewrite conformance_flat_iff by (auto using regular_machines_ok; apply regular_flat).
  rewrite <- names_participants_known. apply and_iff_compat_l. split.
  - intros H r L Hr Hp. destruct (regular_projection r L Hr Hp) as (m & Hm & Hw).
    by apply Hw, H.
  - intros H r m Hm. destruct (regular_machine _ _ _ _ _ Hreg Hb Hm) as (Hr & L & Hp & _ & Hw).
    by apply Hw, H.
Qed.
End regular.

Lemma run_names_participants g tr gc : grun ([], g) tr gc → names_participants g tr.
Proof.
  intros Hr. apply (run_participants g (fun r => r ∈ participants g) [] tr gc Hr); [|constructor].
  intros r Ho. by apply participants_elem.
Qed.

(** Complete runs conform. *)
Lemma complete_run_conforms proto g net fuel tr : regular g → build proto g = Ok net →
  complete_run g tr → check_conformance (S fuel) net tr = Ok tt.
Proof.
  intros Hreg Hb Hrun. pose proof Hreg as [Hw%check_wf Hf Hm _].
  apply (regular_conformance_iff proto g); [done|done|].
  split; [destruct Hrun; by eapply run_names_participants|].
  intros r L _ Hp. by eapply complete_run_accepted.
Qed.

(** Unfinished runs replay. *)
Lemma run_replays proto g net fuel tr gc : regular g → build proto g = Ok net →
  grun ([], g) tr gc → is_ok (replay_to_configs (S fuel) net tr).
Proof.
  intros Hreg Hb Hr. pose proof Hreg as [Hw%check_wf Hf Hm _].
  apply (regular_replay_iff proto g); [done|done|].
  split; [by eapply run_names_participants|]. intros r L _ Hp. by eapply run_admitted.
Qed.

(** A regular protocol builds as soon as it projects. *)
Lemma regular_build_Ok proto g penv : regular g →
  (∀ r, r ∈ participants g → is_ok (project g r)) → is_ok (build_in proto g penv).
Proof.
  intros Hreg Hp. unfold build_in.
  assert (Hf : ∀ rs ms, (∀ r, r ∈ rs → r ∈ participants g) →
    is_ok (ofold (build_role g penv) ms rs)).
  { induction rs as [|r rs IH]; intros ms Hrs; [by eexists|]. cbn [ofold]. unfold build_role at 1.
    assert (Hr : r ∈ participants g) by (apply Hrs; by left).
    destruct (Hp r Hr) as [L HL]. rewrite HL. cbn [obind].
    destruct (compile_correct (medium_of g) r L penv) as (m & Hm & _).
    - by apply project_lok with r.
    - destruct Hreg. by eapply projections_contractive_elem.
    - rewrite Hm. cbn [obind]. apply IH. intros. apply Hrs. by right. }
  destruct (Hf (participants g) []) as [ms ->]; [done|]. by eexists.
Qed.

(** * The registered protocols *)

(** A sequence of text messages. *)
Fixpoint linear (g : GlobalType) : bool :=
  match g with
  | GInteraction from to l k =>
      bool_decide (from ≠ to) && bool_decide (medium l = Text) &&
      negb (starts_with (name l) "call:" || starts_with (name l) "ret:") && linear k
  | GEnd => true
  | _ => false
  end.

Ltac split_linear H :=
  simpl in H; repeat rewrite andb_true_iff in H;
  destruct H as (((Hne%bool_decide_eq_true & Hmed%bool_decide_eq_true) & Hres%negb_true_iff) & H).

Lemma linear_facts g : linear g = true →
  wf [] g ∧ call_free g = true ∧ (∀ l, l ∈ labels g → medium l = Text) ∧
  (∀ l a, (l, a) ∈ alphabet g → a = Neutral ∧
     starts_with l "call:" = false ∧ starts_with l "ret:" = false) ∧
  ∀ r, ∃ L, project g r = Ok L ∧ contractive L = true.
Proof.
  induction g as [from to l k IH|from to bs IH|v body IH|v|c s k IH|en body ex k IHb IHk|]
    using GlobalType_rect_branches; intros H; try done.
  - split_linear H. destruct (IH H) as (Hw & Hc & Hm & Ha & Hp). apply orb_false_iff in Hres.
    split_and!; [by constructor|done| | |].
    + intros l' [->|Hl]%elem_of_cons; auto.
    + intros l' a' [[= -> ->]|Hl]%elem_of_cons; auto.
    + intros r. destruct (Hp r) as (L & HL & HcL). simpl. rewrite HL. simpl.
      repeat case_decide; eauto.
  - split_and!; [constructor|done| | |by eauto].
    + intros l Hl. by apply elem_of_nil in Hl.
    + intros l a Hl. by apply elem_of_nil in Hl.
Qed.

Lemma check_callees_call_free fuel env g v : call_free g = true → check_callees fuel env g v 0 = Ok tt.
Proof.
  induction g as [from to l k IH|from to bs IH|x body IH|x|c s k IH|en body ex k IHb IHk|]
    using GlobalType_rect_branches; intros H; try done; destruct fuel; simpl in *; auto.
  all: apply oforM_Ok; rewrite forallb_forall in H; rewrite Forall_forall in IH |- *;
    intros b Hb; apply IH; [done|by apply H, list_elem_of_In].
Qed.

Lemma linear_well_formed g env : linear g = true → well_formed_in g env = Ok tt.
Proof.
  intros H. destruct (linear_facts g H) as (Hw & Hc & _ & Ha & _). unfold well_formed_in.
  rewrite (proj2 (check_wf g [])) by done. cbn [obind]. unfold check_visibility.
  rewrite (proj2 (check_symbols_spec (alphabet g) [] ltac:(constructor))).
  - cbn [obind]. by apply check_callees_call_free.
  - split; [split|].
    + intros l a a' H1 H2. apply Ha in H1, H2. destruct H1, H2. congruence.
    + intros l Hl. by apply Ha in Hl as (_ & ? & ?).
    + done.
Qed.

Lemma linear_regular g : linear g = true → regular g ∧ ∀ r, is_ok (project g r).
Proof.
  intros H. destruct (linear_facts g H) as (Hw & Hc & Hm & _ & Hp). split.
  - split; [by apply check_wf|done| |].
    + intros l l' Hl Hl' _. by rewrite (Hm l), (Hm l').
    + apply forallb_forall. intros r _. destruct (Hp r) as (L & -> & ?). done.
  - intros r. destruct (Hp r) as (L & ? & _). by exists L.
Qed.

Lemma sequential_linear n : linear (sequential n) = true.
Proof. induction n as [|n IH]; [done|]. simpl. by rewrite IH. Qed.

Lemma level_linear k n : linear (level k n) = true.
Proof. revert k. induction n as [|n IH]; intros k; [done|]. simpl. by rewrite IH. Qed.

Lemma specialist_linear i n : linear (specialist i n) = true.
Proof. revert i. induction n as [|n IH]; intros i; [done|]. simpl. by rewrite IH. Qed.

(** The call-free protocols of the registry, for all parameters. *)
Lemma registry_regular id p : id ≠ RecursiveCf →
  regular (global_of id p) ∧ (∀ r, r ∈ participants (global_of id p) → is_ok (project (global_of id p) r)) ∧
  ∀ env, well_formed_in (global_of id p) env = Ok tt.
Proof.
  assert (Hlin : ∀ g, linear g = true → regular g ∧ (∀ r, r ∈ participants g → is_ok (project g r)) ∧
    ∀ env, well_formed_in g env = Ok tt).
  { intros g H. destruct (linear_regular g H). split_and!; auto using linear_well_formed. }
  assert (Hconc : ∀ g, check g [] = Ok tt → check_visibility g = Ok tt → call_free g = true →
    bool_decide (consistent_media g) = true → projections_contractive g = true →
    forallb (fun r => match project g r with Ok _ => true | _ => false end) (participants g) = true →
    regular g ∧ (∀ r, r ∈ participants g → is_ok (project g r)) ∧
    ∀ env, well_formed_in g env = Ok tt).
  { intros g H1 Hv H2 H3%bool_decide_eq_true H4 H5. split_and!; [by split| |].
    - intros r Hr. rewrite forallb_forall in H5. specialize (H5 r).
      destruct (project g r) as [L| | |]; [by exists L|..]; (discriminate H5; by apply list_elem_of_In).
    - intros env. unfold well_formed_in. rewrite H1, Hv. cbn [obind].
      by apply check_callees_call_free. }
  intros Hid. destruct id; try done; simpl.
  - apply Hlin, sequential_linear.
  - apply Hlin, specialist_linear.
  - by apply Hlin.
  - apply Hconc; vm_compute; reflexivity.
  - apply Hlin, level_linear.
  - apply Hconc; vm_compute; reflexivity.
  - apply Hconc; vm_compute; reflexivity.
Qed.

(** ** No panics *)
Definition no_panic {E A} (m : outcome E A) : Prop := m ≠ Panic.

Lemma obind_no_panic {E A B} (m : outcome E A) (k : A → outcome E B) :
  no_panic m → (∀ a, m = Ok a → no_panic (k a)) → no_panic (obind m k).
Proof. destruct m; simpl; auto; by intros. Qed.

Lemma omap_err_no_panic {E F A} (f : E → F) (m : outcome E A) : no_panic m → no_panic (omap_err f m).
Proof. by destruct m. Qed.

Lemma check_edges_no_panic es s a ctx : no_panic (check_edges es s a ctx).
Proof. induction es; simpl; [done|]. repeat (case_decide || case_match); done. Qed.

Lemma epsilon_close_no_panic fuel m : ∀ s st, no_panic (epsilon_close fuel m s st).
Proof.
  induction fuel as [|fuel IH]; intros s st; simpl; [done|].
  repeat (case_decide || case_match); done || apply IH.
Qed.

(** A configuration for every machine: what the [expect]s of the replay rely
    on. *)
Definition net_covers (net : Network) (cs : BTreeMap Role RoleConfig) : Prop :=
  bm_ok cs ∧ ∀ r, is_Some (machine net r) ↔ is_Some (bm_get cs r).

Lemma advance_role_no_panic fuel m cfg a h : no_panic (advance_role fuel m cfg a h).
Proof.
  apply obind_no_panic; [apply epsilon_close_no_panic|]. intros [s st] _.
  apply obind_no_panic; [apply omap_err_no_panic, check_edges_no_panic|]. intros ns _.
  apply obind_no_panic; [apply epsilon_close_no_panic|]. by intros [] _.
Qed.

Lemma advance_endpoint_covers fuel net ord r a h cs : net_covers net cs →
  no_panic (advance_endpoint fuel net ord r a h cs) ∧
  ∀ cs', advance_endpoint fuel net ord r a h cs = Ok cs' → net_covers net cs'.
Proof.
  intros [Hok Hc]. unfold advance_endpoint.
  destruct (machine net r) as [m|] eqn:Hr; [|done]. cbn [ok_or obind].
  destruct (proj1 (Hc r)) as [cfg Hcfg]; [by rewrite Hr|]. rewrite Hcfg. cbn [expect obind]. split.
  - apply obind_no_panic; [apply omap_err_no_panic, advance_role_no_panic|done].
  - intros cs' H. inv_obind. split; [auto|]. intros r'. rewrite bm_get_insert by done.
    case_decide as E; [|apply Hc]. subst. split; [eauto|by rewrite Hr].
Qed.

Lemma replay_covers fuel net tr : ∀ i cs, net_covers net cs →
  no_panic (ofold (replay_event fuel net) cs (enumerate_from i tr)) ∧
  ∀ cs', ofold (replay_event fuel net) cs (enumerate_from i tr) = Ok cs' → net_covers net cs'.
Proof.
  induction tr as [|e tr IH]; intros i cs Hc; cbn [enumerate_from ofold].
  { split; [done|]. by intros ? [= <-]. }
  assert (Hev : no_panic (replay_event fuel net cs (i, e)) ∧
    ∀ cs', replay_event fuel net cs (i, e) = Ok cs' → net_covers net cs').
  { unfold replay_event. edestruct advance_endpoint_covers as [Hp Hk]; [exact Hc|]. split.
    - apply obind_no_panic; [exact Hp|]. intros cs1 H1. apply advance_endpoint_covers. eauto.
    - intros cs' H. inv_obind. eapply advance_endpoint_covers; [|exact H]. eauto. }
  destruct Hev as [Hp Hk]. split.
  - apply obind_no_panic; [done|]. intros cs1 H1. apply IH. auto.
  - intros cs' H. apply obind_Ok_inv in H as (cs1 & H1 & H2). eapply IH; [|exact H2]. auto.
Qed.

Lemma init_covers fuel ms : bm_ok ms → ∀ cs, bm_ok cs →
  no_panic (ofold (init_config fuel) cs ms) ∧
  ∀ cs', ofold (init_config fuel) cs ms = Ok cs' → bm_ok cs' ∧
    ∀ r, is_Some (bm_get cs' r) ↔ is_Some (bm_get ms r) ∨ is_Some (bm_get cs r).
Proof.
  induction ms as [|[k m] ms IH]; intros Hms cs Hcs; cbn [ofold].
  { split; [done|]. intros ? [= <-]. split; [done|]. intros r. simpl.
    split; [auto|]. intros [[? ?]|?]; done. }
  pose proof Hms as [Hms' _]%bm_ok_cons_inv. unfold init_config at 1 3. cbn [fst snd].
  assert (Hnp : no_panic (omap_err (map_replay_err k 0) (epsilon_close fuel m (initial m) [])))
    by apply omap_err_no_panic, epsilon_close_no_panic.
  destruct (omap_err _ _) as [[s st]| | |]; cbn [obind]; [|done..].
  destruct (IH Hms' (bm_insert cs k (mkConfig s st)) ltac:(auto)) as [Hp Hk]. split; [done|].
  intros cs' H. destruct (Hk cs' H) as [Hok Hr]. split; [done|]. intros r.
  rewrite Hr, bm_get_cons, bm_get_insert by done. case_decide; naive_solver.
Qed.

Lemma checker_no_panic fuel net tr : bm_ok (machines net) →
  no_panic (check_conformance fuel net tr) ∧ no_panic (replay_to_configs fuel net tr).
Proof.
  intros Hok.
  assert (Hrep : no_panic (replay_to_configs fuel net tr) ∧
    ∀ cs, replay_to_configs fuel net tr = Ok cs → net_covers net cs).
  { unfold replay_to_configs.
    destruct (init_covers fuel (machines net) Hok [] ltac:(constructor)) as [Hp Hk].
    assert (Hc : ∀ cs, ofold (init_config fuel) [] (machines net) = Ok cs → net_covers net cs).
    { intros cs H. destruct (Hk cs H) as [? Hr]. split; [done|]. intros r. rewrite Hr.
      unfold machine. simpl. split; [auto|]. intros [?|[? ?]]; done. }
    split.
    - apply obind_no_panic; [done|]. intros cs H. apply replay_covers. auto.
    - intros cs' H. apply obind_Ok_inv in H as (cs & H1 & H2). eapply replay_covers; [|exact H2]. auto. }
  destruct Hrep as [Hp Hk]. split; [|done]. apply obind_no_panic; [done|].
  intros cs Hcs. destruct (Hk cs Hcs) as [Hcok Hc].
  assert (Hall : Forall (fun rc => no_panic (check_final net rc)) cs).
  { apply Forall_forall. intros [r cfg] Hin. simpl. destruct (cfg_stack cfg); [|done].
    destruct (proj2 (Hc r)) as [m ->]; [exists cfg; by apply bm_get_Some|]. simpl.
    by case_match. }
  clear -Hall. induction Hall; simpl; [done|]. by apply obind_no_panic.
Qed.

(** ** Enough fuel on flat networks *)
Definition in_fuel {E A} (m : outcome E A) : Prop := m ≠ OutOfFuel.

Lemma obind_in_fuel {E A B} (m : outcome E A) (k : A → outcome E B) :
  in_fuel m → (∀ a, in_fuel (k a)) → in_fuel (obind m k).
Proof. destruct m; simpl; auto; by intros. Qed.

Lemma ofold_in_fuel {E A S} (f : S → A → outcome E S) xs :
  (∀ s x, x ∈ xs → in_fuel (f s x)) → ∀ s, in_fuel (ofold f s xs).
Proof.
  induction xs as [|x xs IH]; intros Hf s; simpl; [done|].
  apply obind_in_fuel; [apply Hf; by left|]. intros s'. apply IH. intros. apply Hf. by right.
Qed.

Lemma flat_in_fuel fuel net tr : bm_ok (machines net) →
  (∀ r m, machine net r = Some m → flat_machine m) → in_fuel (check_conformance (S fuel) net tr).
Proof.
  intros Hok Hfl.
  assert (Hadv : ∀ ord r a h cs, in_fuel (advance_endpoint (S fuel) net ord r a h cs)).
  { intros ord r a h cs. unfold advance_endpoint. destruct (machine net r) as [m|] eqn:Hm; [|done].
    cbn [ok_or obind]. destruct (bm_get cs r) as [cfg|]; [|done]. cbn [expect obind].
    unfold advance_role. rewrite epsilon_close_flat by eauto. cbn [obind].
    destruct (check_step _ _ _ _) as [ns| | |] eqn:Es; cbn [omap_err obind]; try done.
    - by rewrite epsilon_close_flat by eauto.
    - exfalso. revert Es. unfold check_step. generalize (edges_from m (cfg_state cfg)).
      induction l as [|e l IH]; simpl; [done|]. repeat (case_decide || case_match); done. }
  apply obind_in_fuel.
  - apply obind_in_fuel.
    + apply ofold_in_fuel. intros cs [r m] Hin. unfold init_config. cbn [fst snd].
      rewrite epsilon_close_flat; [done|]. apply (Hfl r). by apply bm_get_Some.
    + intros cs. apply ofold_in_fuel. intros cs' [ord e] _. apply obind_in_fuel; [apply Hadv|].
      intros. apply Hadv.
  - intros cs. induction cs as [|[r cfg] cs IH]; simpl; [done|]. apply obind_in_fuel; [|done].
    destruct (cfg_stack cfg); [|done]. destruct (machine net r); [|done]. simpl. by case_match.
Qed.

(** * Properties *)

(** C1: on a regular protocol (structurally well formed, call-free, one medium
    per message name, contractive projections) whose network builds, the
    conformance checker is exact: it accepts a trace if and only if every
    event names participants and, for each participant, its sends and
    receives in the trace are a complete run of its projected local type. *)
Theorem conformance_iff_local_runs (proto : string) (g : GlobalType) (net : Network) (fuel : nat)
    (tr : list Event) (Hreg : regular g) (Hb : build proto g = Ok net) :
  check_conformance (S fuel) net tr = Ok tt ↔
  Forall (fun e => ev_from e ∈ participants g ∧ ev_to e ∈ participants g) tr ∧
  ∀ r L, r ∈ participants g → project g r = Ok L → laccepts L (restrict r tr).
Proof. by apply (regular_conformance_iff proto). Qed.

(** C2: soundness of projection, compilation and checking together: every
    complete run of a regular protocol conforms to its network, and every
    unfinished run replays without an error. *)
Theorem global_runs_conform (proto : string) (g : GlobalType) (net : Network) (fuel : nat)
    (tr : list Event) (Hreg : regular g) (Hb : build proto g = Ok net) :
  (complete_run g tr → check_conformance (S fuel) net tr = Ok tt) ∧
  (∀ gc, grun ([], g) tr gc → is_ok (replay_to_configs (S fuel) net tr)).
Proof.
  split.
  - by apply (complete_run_conforms proto).
  - intros gc. by apply (run_replays proto).
Qed.

(** Building the network of a regular protocol never panics: it succeeds
    exactly when every participant's projection exists, whatever the
    environment of callable protocols. *)
Theorem build_regular_total (proto : string) (g : GlobalType) (penv : ProtocolEnv)
    (Hreg : regular g) :
  is_ok (build_in proto g penv) ↔ ∀ r, r ∈ participants g → is_ok (project g r).
Proof.
  split; [|by apply regular_build_Ok]. intros [net Hb] r Hr.
  destruct (build_machine _ _ _ _ Hb) as (_ & Hin & _).
  destruct (Hin r Hr) as (L & m & Hp & _). by exists L.
Qed.

(** Every protocol the registry hands out, for every choice of its
    parameters, is well formed in the registry's environment and builds a
    network. *)
Theorem registry_protocols_build (id : ProtocolId) (p : ProtocolParams) :
  well_formed_in (global_of id p) protocol_env = Ok tt ∧
  is_ok (build_in (protocol_name id) (global_of id p) protocol_env).
Proof.
  destruct (decide (id = RecursiveCf)) as [->|Hne].
  - split; [vm_compute; reflexivity|]. eexists. vm_compute. reflexivity.
  - destruct (registry_regular id p Hne) as (Hreg & Hp & Hwf).
    split; [done|]. by apply regular_build_Ok.
Qed.

(** The checker never panics: its [expect]s on role configurations hold
    for every network whose machine table is a map, every trace and any fuel. *)
Theorem check_conformance_no_panic (fuel : nat) (net : Network) (tr : list Event)
    (Hok : bm_ok (machines net)) :
  check_conformance fuel net tr ≠ Panic ∧ replay_to_configs fuel net tr ≠ Panic.
Proof. by apply checker_no_panic. Qed.

(** * Concrete instances *)
Definition built (g : GlobalType) : Network :=
  match build "example" g with Ok net => net | _ => mkNetwork "" [] [] end.

Definition accepted_worktree : list Event :=
  [ev "R" "E" "request_worktree"; ev "E" "R" "accept"; ev "E" "R" "moved"].

Lemma worktree_regular : regular worktree_negotiation.
Proof. by apply (registry_regular WorktreeNegotiation params_default). Qed.

Lemma worktree_built : build "example" worktree_negotiation = Ok (built worktree_negotiation).
Proof. vm_compute. reflexivity. Qed.

Lemma worktree_builds : is_ok (build_in "example" worktree_negotiation penv_new).
Proof. apply regular_build_Ok; [exact worktree_regular|].
  by apply (registry_regular WorktreeNegotiation params_default). Qed.

Lemma worktree_complete_run : complete_run worktree_negotiation accepted_worktree.
Proof.
  exists []. eapply grun_step; [constructor|].
  eapply grun_step; [apply (gstep_choice _ _ _ _ (gbranch (label_text "accept")
    (interaction "E" "R" (label_text "moved") gend))); by left|].
  eapply grun_step; [constructor|]. constructor.
Qed.

Lemma conformance_iff_local_runs_witness :
  check_conformance 1 (built worktree_negotiation) accepted_worktree = Ok tt ∧
  laccepts (LSend "E" (label_text "request_worktree")
    (LBranch "E" [mkLocalBranch (label_text "accept") (LRecv "E" (label_text "moved") LEnd);
                  mkLocalBranch (label_text "decline") LEnd])) (restrict "R" accepted_worktree).
Proof.
  assert (H : check_conformance 1 (built worktree_negotiation) accepted_worktree = Ok tt)
    by (vm_compute; reflexivity).
  split; [exact H|].
  refine (proj2 (proj1 (conformance_iff_local_runs "example" worktree_negotiation
    (built worktree_negotiation) 0 accepted_worktree worktree_regular worktree_built) H) "R" _ _ _).
  - apply bs_contains_spec. vm_compute. reflexivity.
  - vm_compute. reflexivity.
Defined.

Lemma global_runs_conform_witness :
  complete_run worktree_negotiation accepted_worktree ∧
  check_conformance 1 (built worktree_negotiation) accepted_worktree = Ok tt.
Proof.
  split; [exact worktree_complete_run|].
  apply (proj1 (global_runs_conform "example" worktree_negotiation (built worktree_negotiation) 0
    accepted_worktree worktree_regular worktree_built)), worktree_complete_run.
Defined.

Lemma build_regular_total_witness : is_ok (project worktree_negotiation "R").
Proof.
  apply (proj1 (build_regular_total "example" worktree_negotiation penv_new worktree_regular)).
  - apply worktree_builds.
  - apply bs_contains_spec. vm_compute. reflexivity.
Defined.

Lemma check_conformance_no_panic_witness :
  check_conformance 1 (built worktree_negotiation) accepted_worktree ≠ Panic ∧
  replay_to_configs 1 (built worktree_negotiation) accepted_worktree ≠ Panic.
Proof.
  apply (check_conformance_no_panic 1 (built worktree_negotiation) accepted_worktree).
  exact (regular_machines_ok "example" worktree_negotiation _ worktree_built).
Defined.

(** A protocol with a loop inside a loop, in which [Z] stands by in the inner
    one: its projection is [μu. !A⟨x⟩. μv. u], which is not contractive. *)
Definition nested_loop : GlobalType :=
  grec "u" (interaction "Z" "A" (label_text "x")
    (grec "v" (interaction "A" "B" (label_text "y") (gvar "u")))).

Definition nested_loop_run : list Event := [ev "Z" "A" "x"; ev "A" "B" "y"; ev "Z" "A" "x"].

(** Contractivity cannot be dropped: [μu. Z→A:x. μv. A→B:y. u] is well
    formed and builds, its run [x, y, x] is a run of the global type, but the
    network rejects the third message, because the machine compiled for [Z]
    has a dead state where [μv. u] should lead back to the loop. *)
Theorem noncontractive_run_rejected :
  well_formed nested_loop = Ok tt ∧ projections_contractive nested_loop = false ∧
  (∃ gc, grun ([], nested_loop) nested_loop_run gc) ∧
  ∃ net, build "example" nested_loop = Ok net ∧ ∀ fuel,
    replay_to_configs (S fuel) net nested_loop_run = Err (StepFailed 2 "Z" (NoEdge 1)).
Proof.
  split_and!; [vm_compute; reflexivity..| |].
  - eexists. unfold nested_loop_run, nested_loop, grec, interaction, gvar.
    eapply grun_unfold; [constructor|]. eapply grun_step; [constructor|].
    eapply grun_unfold; [constructor|]. eapply grun_step; [constructor|].
    eapply grun_unfold; [by constructor|]. eapply grun_unfold; [constructor|].
    eapply grun_step; [constructor|]. constructor.
  - exists (built nested_loop). split; [vm_compute; reflexivity|]. intros fuel. vm_compute. reflexivity.
Qed.

(** The replay is incremental: replaying a longer trace is replaying its
    beginning and continuing from the configurations reached, with the event
    numbers going on; so a prefix of a replayable trace is replayable, and the
    first error of a prefix is the error of every extension. *)
Theorem replay_resumes (fuel : nat) (net : Network) (tr1 tr2 : list Event) :
  replay_to_configs fuel net (tr1 ++ tr2) =
    (let* c := replay_to_configs fuel net tr1 in
     ofold (replay_event fuel net) c (enumerate_from (length tr1) tr2)) ∧
  (is_ok (replay_to_configs fuel net (tr1 ++ tr2)) → is_ok (replay_to_configs fuel net tr1)) ∧
  (∀ e, replay_to_configs fuel net tr1 = Err e → replay_to_configs fuel net (tr1 ++ tr2) = Err e).
Proof.
  assert (E : replay_to_configs fuel net (tr1 ++ tr2) =
    (let* c := replay_to_configs fuel net tr1 in
     ofold (replay_event fuel net) c (enumerate_from (length tr1) tr2))).
  { assert (Hen : ∀ i, enumerate_from i (tr1 ++ tr2) =
      enumerate_from i tr1 ++ enumerate_from (i + length tr1) tr2).
    { induction tr1 as [|e tr1 IH]; intros i; simpl; [by rewrite Nat.add_0_r|].
      rewrite IH. do 2 f_equal. f_equal. lia. }
    unfold replay_to_configs. rewrite Hen. destruct (ofold (init_config fuel) [] _); simpl; [|done..].
    apply ofold_app. }
  rewrite E. split_and!; [done| |].
  - intros [c Hc]. apply obind_Ok_inv in Hc as (c1 & Hc1 & _). by exists c1.
  - by intros e ->.
Qed.
