(* ===== verification/CsmPushdown.v ===== *)
(** The pushdown side of [src/csm/conformance.rs]: closing over call and
    return edges, its depth bound, the self-calling protocol
    [recursive_cf] at every depth, and a loop of calls on which the closure
    does not end. *)

From stdpp Require Import base strings list gmap.
From S2P Require Import Prelude BTree CsmRole CsmGlobal CsmLocal CsmWellformed CsmProject.
From S2P Require Import CsmMachine CsmRegistry CsmConformance.

(** * Steps of the closure *)
Section closure.
Context (fuel : nat) (m : LocalMachine).

Lemma epsilon_close_stop s st : boundary_edge m s = None → epsilon_close (S fuel) m s st = Ok (s, st).
Proof. intros H. simpl. by rewrite H. Qed.

Lemma epsilon_close_call s st e r : boundary_edge m s = Some e → e_kind e = Call r →
  epsilon_close (S fuel) m s st =
    if decide (MAX_STACK_DEPTH ≤ length st) then Err RDepthExceeded
    else epsilon_close fuel m (e_to e) (r :: st).
Proof. intros H Hk. cbn [epsilon_close]. by rewrite H, Hk. Qed.

Lemma epsilon_close_return s st e : boundary_edge m s = Some e → e_kind e = Return →
  epsilon_close (S fuel) m s st =
    match st with [] => Err RUnbalanced | r :: st' => epsilon_close fuel m r st' end.
Proof. intros H Hk. cbn [epsilon_close]. by rewrite H, Hk. Qed.
End closure.

(** The stack never grows past the bound. *)
Lemma epsilon_close_depth fuel m : ∀ s st s' st',
  length st ≤ MAX_STACK_DEPTH → epsilon_close fuel m s st = Ok (s', st') →
  length st' ≤ MAX_STACK_DEPTH.
Proof.
  induction fuel as [|fuel IH]; intros s st s' st' Hst H; [done|]. cbn [epsilon_close] in H.
  destruct (boundary_edge m s) as [e|]; [|by simplify_eq].
  destruct (e_kind e) as [|r|].
  - by simplify_eq.
  - destruct (decide _) as [|Hd]; [done|]. apply Nat.nle_gt in Hd.
    eapply (IH _ (r :: st)); [|exact H]. cbn [length]. lia.
  - destruct st as [|r st]; [done|]. eapply IH; [|exact H]. cbn [length] in Hst. lia.
Qed.

(** * Advancing one endpoint along a closed configuration *)
Lemma advance_endpoint_step fuel net ord r a h cs m s st ns :
  machine net r = Some m → bm_get cs r = Some (mkConfig s st) → boundary_edge m s = None →
  check_step m s a (mkStepContext h) = Ok ns →
  advance_endpoint (S fuel) net ord r a h cs =
    let* (s', st') := omap_err (map_replay_err r ord) (epsilon_close (S fuel) m ns st) in
    Ok (bm_insert cs r (mkConfig s' st')).
Proof.
  intros Hm Hc Hb Hs. unfold advance_endpoint. rewrite Hm. cbn [ok_or obind]. rewrite Hc.
  cbn [expect obind]. unfold advance_role. cbn [cfg_state cfg_stack].
  rewrite epsilon_close_stop by done. cbn [obind]. rewrite Hs. cbn [omap_err obind].
  by destruct (epsilon_close _ _ ns st) as [[]| | |].
Qed.

(** * The self-calling protocol *)
Definition rcf_net : Network :=
  match build_in "recursive_cf" recursive_cf protocol_env with
  | Ok net => net | _ => mkNetwork "" [] [] end.

Definition rcf_machine (r : string) : LocalMachine :=
  match machine rcf_net r with Some m => m | None => mkMachine "" 0 0 [] [] end.

(** The two roles always are in the same state with the same stack. *)
Definition rcf_cfgs (s : nat) (st : list nat) : BTreeMap Role RoleConfig :=
  [(mkRole "O", mkConfig s st); (mkRole "Sub", mkConfig s st)].

Lemma rcf_machine_O : machine rcf_net "O" = Some (rcf_machine "O").
Proof. vm_compute. reflexivity. Qed.

Lemma rcf_machine_Sub : machine rcf_net "Sub" = Some (rcf_machine "Sub").
Proof. vm_compute. reflexivity. Qed.

Lemma rcf_get_O s st : bm_get (rcf_cfgs s st) "O" = Some (mkConfig s st).
Proof. reflexivity. Qed.

Lemma rcf_get_Sub s st : bm_get (rcf_cfgs s st) "Sub" = Some (mkConfig s st).
Proof. reflexivity. Qed.

Lemma rcf_get_Sub' s st c : bm_get (bm_insert (rcf_cfgs s st) "O" c) "Sub" = Some (mkConfig s st).
Proof. reflexivity. Qed.

Lemma rcf_get_O' s st c : bm_get (bm_insert (rcf_cfgs s st) "Sub" c) "O" = Some (mkConfig s st).
Proof. reflexivity. Qed.

(** What both machines do from [s]: no boundary edge there, and [closes] to
    [s'] with the stack [st'] from [ns]. *)
Definition rcf_both (P : LocalMachine → Prop) : Prop := P (rcf_machine "O") ∧ P (rcf_machine "Sub").

Lemma rcf_down fuel ord l s st ns s' st' :
  rcf_both (fun m => boundary_edge m s = None) →
  check_step (rcf_machine "O") s (ASend "Sub" l) (mkStepContext None) = Ok ns →
  check_step (rcf_machine "Sub") s (ARecv "O" l) (mkStepContext (Some l)) = Ok ns →
  rcf_both (fun m => epsilon_close (S fuel) m ns st = Ok (s', st')) →
  replay_event (S fuel) rcf_net (rcf_cfgs s st) (ord, mkEvent "O" "Sub" l) = Ok (rcf_cfgs s' st').
Proof.
  intros [Hb1 Hb2] Hs1 Hs2 [He1 He2]. unfold replay_event. cbn [ev_from ev_to ev_label].
  rewrite (advance_endpoint_step _ _ _ _ _ _ _ _ _ _ _ rcf_machine_O (rcf_get_O s st) Hb1 Hs1), He1.
  cbn [omap_err obind].
  by rewrite (advance_endpoint_step _ _ _ _ _ _ _ _ _ _ _ rcf_machine_Sub (rcf_get_Sub' s st _) Hb2 Hs2), He2.
Qed.

Lemma rcf_up fuel ord l s st ns s' st' :
  rcf_both (fun m => boundary_edge m s = None) →
  check_step (rcf_machine "Sub") s (ASend "O" l) (mkStepContext None) = Ok ns →
  check_step (rcf_machine "O") s (ARecv "Sub" l) (mkStepContext (Some l)) = Ok ns →
  rcf_both (fun m => epsilon_close (S fuel) m ns st = Ok (s', st')) →
  replay_event (S fuel) rcf_net (rcf_cfgs s st) (ord, mkEvent "Sub" "O" l) = Ok (rcf_cfgs s' st').
Proof.
  intros [Hb1 Hb2] Hs1 Hs2 [He1 He2]. unfold replay_event. cbn [ev_from ev_to ev_label].
  rewrite (advance_endpoint_step _ _ _ _ _ _ _ _ _ _ _ rcf_machine_Sub (rcf_get_Sub s st) Hb2 Hs1), He2.
  cbn [omap_err obind].
  by rewrite (advance_endpoint_step _ _ _ _ _ _ _ _ _ _ _ rcf_machine_O (rcf_get_O' s st _) Hb1 Hs2), He1.
Qed.

Lemma rcf_stop fuel s st : rcf_both (fun m => boundary_edge m s = None) →
  rcf_both (fun m => epsilon_close (S fuel) m s st = Ok (s, st)).
Proof. intros []. split; by apply epsilon_close_stop. Qed.

(** ** The events of a nested run *)
Section nested.
Context (fuel : nat).

Abbreviation rcf_replay := (ofold (replay_event (S (S fuel)) rcf_net)).

Lemma rcf_call s ns e r st :
  rcf_both (fun m => boundary_edge m ns = Some (e m) ∧ e_kind (e m) = Call r ∧ e_to (e m) = s ∧
                     boundary_edge m s = None) →
  length st < MAX_STACK_DEPTH →
  rcf_both (fun m => epsilon_close (S (S fuel)) m ns st = Ok (s, r :: st)).
Proof.
  intros [(H1 & H2 & H3 & H4) (H1' & H2' & H3' & H4')] Hlt.
  split; erewrite epsilon_close_call by eauto; rewrite decide_False by (by apply Nat.nle_gt).
  - rewrite H3. by apply epsilon_close_stop.
  - rewrite H3'. by apply epsilon_close_stop.
Qed.

Lemma rcf_return ns e r st :
  rcf_both (fun m => boundary_edge m ns = Some (e m) ∧ e_kind (e m) = Return ∧ boundary_edge m r = None) →
  rcf_both (fun m => epsilon_close (S (S fuel)) m ns (r :: st) = Ok (r, st)).
Proof.
  intros [(H1 & H2 & H3) (H1' & H2' & H3')].
  split; erewrite epsilon_close_return by eauto; by apply epsilon_close_stop.
Qed.

(** The first boundary edge out of a state, for evaluation. *)
Definition boundary_at (s : nat) (m : LocalMachine) : LocalEdge :=
  default (mkEdge 0 (ASend "" (label_text "")) 0 Internal) (boundary_edge m s).

Ltac rcf_eval := split; vm_compute; try reflexivity; repeat split; reflexivity.

Lemma rcf_subcall_top ord st :
  replay_event (S (S fuel)) rcf_net (rcf_cfgs 0 st) (ord, ev "O" "Sub" "subcall") = Ok (rcf_cfgs 1 st).
Proof. apply (rcf_down _ _ _ _ _ 1); [rcf_eval|vm_compute; reflexivity..|apply rcf_stop; rcf_eval]. Qed.

Lemma rcf_subcall_box ord st :
  replay_event (S (S fuel)) rcf_net (rcf_cfgs 7 st) (ord, ev "O" "Sub" "subcall") = Ok (rcf_cfgs 8 st).
Proof. apply (rcf_down _ _ _ _ _ 8); [rcf_eval|vm_compute; reflexivity..|apply rcf_stop; rcf_eval]. Qed.

Lemma rcf_recurse_top ord st : length st < MAX_STACK_DEPTH →
  replay_event (S (S fuel)) rcf_net (rcf_cfgs 1 st) (ord, ev "O" "Sub" "recurse") = Ok (rcf_cfgs 7 (5 :: st)).
Proof.
  intros Hlt. apply (rcf_down _ _ _ _ _ 4); [rcf_eval|vm_compute; reflexivity..|].
  apply (rcf_call _ _ (boundary_at 4)); [rcf_eval|done].
Qed.

Lemma rcf_recurse_box ord st : length st < MAX_STACK_DEPTH →
  replay_event (S (S fuel)) rcf_net (rcf_cfgs 8 st) (ord, ev "O" "Sub" "recurse") = Ok (rcf_cfgs 7 (12 :: st)).
Proof.
  intros Hlt. apply (rcf_down _ _ _ _ _ 11); [rcf_eval|vm_compute; reflexivity..|].
  apply (rcf_call _ _ (boundary_at 11)); [rcf_eval|done].
Qed.

Lemma rcf_recurse_full ord st : length st = MAX_STACK_DEPTH →
  replay_event (S (S fuel)) rcf_net (rcf_cfgs 8 st) (ord, ev "O" "Sub" "recurse") = Err (DepthExceeded "O" ord).
Proof.
  intros Hlen. unfold replay_event. cbn [ev_from ev_to ev_label ev].
  erewrite advance_endpoint_step; [|exact rcf_machine_O|apply rcf_get_O|vm_compute; reflexivity..].
  erewrite epsilon_close_call; [|vm_compute; reflexivity..]. rewrite decide_True; [done|].
  rewrite Hlen. apply Nat.le_refl.
Qed.

Lemma rcf_leaf_top ord st :
  replay_event (S (S fuel)) rcf_net (rcf_cfgs 1 st) (ord, ev "O" "Sub" "leaf") = Ok (rcf_cfgs 2 st).
Proof. apply (rcf_down _ _ _ _ _ 2); [rcf_eval|vm_compute; reflexivity..|apply rcf_stop; rcf_eval]. Qed.

Lemma rcf_leaf_box ord st :
  replay_event (S (S fuel)) rcf_net (rcf_cfgs 8 st) (ord, ev "O" "Sub" "leaf") = Ok (rcf_cfgs 9 st).
Proof. apply (rcf_down _ _ _ _ _ 9); [rcf_eval|vm_compute; reflexivity..|apply rcf_stop; rcf_eval]. Qed.

Lemma rcf_result_leaf_top ord st :
  replay_event (S (S fuel)) rcf_net (rcf_cfgs 2 st) (ord, ev "Sub" "O" "subresult") = Ok (rcf_cfgs 3 st).
Proof. apply (rcf_up _ _ _ _ _ 3); [rcf_eval|vm_compute; reflexivity..|apply rcf_stop; rcf_eval]. Qed.

Lemma rcf_result_top ord st :
  replay_event (S (S fuel)) rcf_net (rcf_cfgs 5 st) (ord, ev "Sub" "O" "subresult") = Ok (rcf_cfgs 6 st).
Proof. apply (rcf_up _ _ _ _ _ 6); [rcf_eval|vm_compute; reflexivity..|apply rcf_stop; rcf_eval]. Qed.

(** The frames: a call from the top level returns to 5, one from the box
    to 12. *)
Definition frames (k : nat) : list nat := replicate k 12 ++ [5].

(** After a return: the top frame is the state. *)
Definition returned (k : nat) : BTreeMap Role RoleConfig :=
  match k with 0 => rcf_cfgs 5 [] | S k => rcf_cfgs 12 (frames k) end.

Lemma rcf_result_leaf_box ord k :
  replay_event (S (S fuel)) rcf_net (rcf_cfgs 9 (frames k)) (ord, ev "Sub" "O" "subresult") = Ok (returned k).
Proof.
  destruct k; (apply (rcf_up _ _ _ _ _ 10); [rcf_eval|vm_compute; reflexivity..|]);
    apply (rcf_return _ (boundary_at 10)); rcf_eval.
Qed.

Lemma rcf_result_box ord k :
  replay_event (S (S fuel)) rcf_net (returned (S k)) (ord, ev "Sub" "O" "subresult") = Ok (returned k).
Proof.
  destruct k; (apply (rcf_up _ _ _ _ _ 13); [rcf_eval|vm_compute; reflexivity..|]);
    apply (rcf_return _ (boundary_at 13)); rcf_eval.
Qed.

(** ** Whole runs *)
Lemma enumerate_from_app {A} (xs ys : list A) : ∀ i,
  enumerate_from i (xs ++ ys) = enumerate_from i xs ++ enumerate_from (i + length xs) ys.
Proof.
  induction xs as [|x xs IH]; intros i; simpl; [by rewrite Nat.add_0_r|].
  rewrite IH. do 2 f_equal. f_equal. lia.
Qed.

Lemma replicate_shift {A} k (x : A) l : replicate k x ++ x :: l = x :: replicate k x ++ l.
Proof. induction k; simpl; congruence. Qed.

Lemma rcf_descend k : ∀ i st, length st + k ≤ MAX_STACK_DEPTH →
  rcf_replay (rcf_cfgs 7 st) (enumerate_from i (concat (replicate k [ev "O" "Sub" "subcall"; ev "O" "Sub" "recurse"])))
  = Ok (rcf_cfgs 7 (replicate k 12 ++ st)).
Proof.
  induction k as [|k IH]; intros i st Hk; [done|]. cbn [replicate concat app enumerate_from ofold].
  rewrite rcf_subcall_box. cbn [obind]. rewrite rcf_recurse_box by lia. cbn [obind].
  rewrite IH by (cbn [length]; lia). by rewrite replicate_shift.
Qed.

Lemma rcf_unwind k : ∀ i, rcf_replay (returned k) (enumerate_from i (replicate k (ev "Sub" "O" "subresult")))
  = Ok (rcf_cfgs 5 []).
Proof.
  induction k as [|k IH]; intros i; [done|]. cbn [replicate enumerate_from ofold].
  rewrite rcf_result_box. cbn [obind]. apply IH.
Qed.

Lemma rcf_replay_app c xs c' ys i :
  rcf_replay c (enumerate_from i xs) = Ok c' →
  rcf_replay c (enumerate_from i (xs ++ ys)) = rcf_replay c' (enumerate_from (i + length xs) ys).
Proof. intros H. by rewrite enumerate_from_app, ofold_app, H. Qed.

(** The calls of a run: one from the top level, the others from the box. *)
Lemma rcf_calls k i : k < MAX_STACK_DEPTH →
  rcf_replay (rcf_cfgs 0 []) (enumerate_from i
    (concat (replicate (S k) [ev "O" "Sub" "subcall"; ev "O" "Sub" "recurse"]))) = Ok (rcf_cfgs 7 (frames k)).
Proof.
  intros Hk. cbn [replicate concat app enumerate_from ofold].
  rewrite rcf_subcall_top. cbn [obind]. rewrite rcf_recurse_top by (cbn [length]; lia). cbn [obind].
  apply rcf_descend. cbn [length]. lia.
Qed.

Lemma rcf_replay_cons c e c' es i :
  replay_event (S (S fuel)) rcf_net c (i, e) = Ok c' →
  rcf_replay c (enumerate_from i (e :: es)) = rcf_replay c' (enumerate_from (S i) es).
Proof. intros H. cbn [enumerate_from ofold]. by rewrite H. Qed.

Lemma rcf_leaf k i :
  rcf_replay (rcf_cfgs 7 (frames k)) (enumerate_from i
    [ev "O" "Sub" "subcall"; ev "O" "Sub" "leaf"; ev "Sub" "O" "subresult"]) = Ok (returned k).
Proof.
  rewrite (rcf_replay_cons _ _ _ _ _ (rcf_subcall_box _ _)), (rcf_replay_cons _ _ _ _ _ (rcf_leaf_box _ _)).
  by rewrite (rcf_replay_cons _ _ _ _ _ (rcf_result_leaf_box _ _)).
Qed.

Lemma rcf_nested k i : k < MAX_STACK_DEPTH →
  rcf_replay (rcf_cfgs 0 []) (enumerate_from i (lift_recursive_cf (S k))) = Ok (rcf_cfgs 6 []).
Proof.
  intros Hk. unfold lift_recursive_cf. rewrite (rcf_replay_app _ _ _ _ _ (rcf_calls k i Hk)).
  rewrite (rcf_replay_app _ _ _ _ _ (rcf_leaf k _)), (replicate_S_end k (ev "Sub" "O" "subresult")).
  rewrite (rcf_replay_app _ _ _ _ _ (rcf_unwind k _)).
  by rewrite (rcf_replay_cons _ _ _ _ _ (rcf_result_top _ _)).
Qed.

(** One call too many. *)
Lemma rcf_overrun k rest i : MAX_STACK_DEPTH = S k →
  rcf_replay (rcf_cfgs 0 []) (enumerate_from i
    (concat (replicate (S k) [ev "O" "Sub" "subcall"; ev "O" "Sub" "recurse"]) ++
     [ev "O" "Sub" "subcall"; ev "O" "Sub" "recurse"] ++ rest)) =
  Err (DepthExceeded "O" (i + S (2 * S k))).
Proof.
  intros Hk. rewrite (rcf_replay_app _ _ _ _ _ (rcf_calls k i ltac:(lia))).
  assert (Hl : ∀ j, length (concat (replicate j [ev "O" "Sub" "subcall"; ev "O" "Sub" "recurse"])) = 2 * j).
  { induction j as [|j IH]; [done|]. cbn [replicate concat]. rewrite length_app, IH. cbn [length]. lia. }
  rewrite Hl. cbn [app]. rewrite (rcf_replay_cons _ _ _ _ _ (rcf_subcall_box _ _)).
  cbn [enumerate_from ofold]. rewrite rcf_recurse_full.
  - cbn [obind]. do 2 f_equal. lia.
  - unfold frames. rewrite length_app, length_replicate. cbn [length]. lia.
Qed.

Lemma rcf_init : ofold (init_config (S (S fuel))) [] (machines rcf_net) = Ok (rcf_cfgs 0 []).
Proof. vm_compute. reflexivity. Qed.

Lemma rcf_final s : s ∈ [3; 6] → oforM (check_final rcf_net) (rcf_cfgs s []) = Ok tt.
Proof.
  intros Hs. assert (s = 3 ∨ s = 6) as [->| ->] by set_solver; vm_compute; reflexivity.
Qed.
End nested.

Lemma max_stack_pos : ∃ k, MAX_STACK_DEPTH = S k.
Proof. exists 4095. reflexivity. Qed.

Lemma rcf_overrun_split n k : S k < n → ∃ rest, lift_recursive_cf n =
  concat (replicate (S k) [ev "O" "Sub" "subcall"; ev "O" "Sub" "recurse"]) ++
  [ev "O" "Sub" "subcall"; ev "O" "Sub" "recurse"] ++ rest.
Proof.
  intros Hn. assert (∃ d, n = S k + S d) as [d ->] by (exists (n - S (S k)); lia).
  unfold lift_recursive_cf.
  rewrite (replicate_add (S k) (S d) [ev "O" "Sub" "subcall"; ev "O" "Sub" "recurse"]), concat_app. eexists. by rewrite <- app_assoc.
Qed.

(** * A loop of calls *)

(** [μt. call stop[A:=A]. t], with [stop] the ended protocol. *)
Definition spin_env : ProtocolEnv := penv_insert penv_new "stop" GEnd.
Definition spin : GlobalType :=
  GRec "t" (GlobalCall (mkProtocolRef "stop") [(mkRole "A", mkRole "A")] (GVar "t")).

Definition spin_machine : LocalMachine :=
  {| m_role := "A"; n_states := 2; initial := 0;
     edges := [mkEdge 1 (ASend "A" (label_text "ret:stop")) 1 Return;
               mkEdge 0 (ASend "A" (label_text "call:stop")) 1 (Call 0)];
     terminals := [] |}.

Lemma spin_diverges fuel : epsilon_close fuel spin_machine 0 [] = OutOfFuel.
Proof.
  induction (lt_wf fuel) as [fuel _ IH]. destruct fuel as [|[|fuel]]; [done|done|].
  erewrite epsilon_close_call by reflexivity.
  rewrite decide_False by (cbn [length]; unfold MAX_STACK_DEPTH; lia).
  erewrite epsilon_close_return by reflexivity. apply IH. lia.
Qed.

(** * Stacks stay below the bound *)
Definition shallow (cs : BTreeMap Role RoleConfig) : Prop :=
  bm_ok cs ∧ Forall (fun rc => length (cfg_stack rc.2) ≤ MAX_STACK_DEPTH) cs.

Lemma shallow_insert cs r c : shallow cs → length (cfg_stack c) ≤ MAX_STACK_DEPTH →
  shallow (bm_insert cs r c).
Proof.
  intros [Hok Hall] Hc. split; [auto|]. rewrite Forall_forall in *. intros [r' c'] Hin.
  apply bm_get_Some in Hin; [|auto]. rewrite bm_get_insert in Hin by done.
  case_decide; [by simplify_eq|]. apply bm_get_Some in Hin; [|done]. by apply (Hall (r', c')).
Qed.

Lemma shallow_get cs r c : shallow cs → bm_get cs r = Some c → length (cfg_stack c) ≤ MAX_STACK_DEPTH.
Proof.
  intros [_ Hall] Hg. rewrite Forall_forall in Hall. by apply bm_get_elem, Hall in Hg.
Qed.

Lemma advance_endpoint_shallow fuel net ord r a h cs cs' : shallow cs →
  advance_endpoint fuel net ord r a h cs = Ok cs' → shallow cs'.
Proof.
  intros Hs H. unfold advance_endpoint in H.
  apply obind_Ok_inv in H as (m & _ & H). apply obind_Ok_inv in H as (cfg & Hg & H).
  apply obind_Ok_inv in H as (cfg' & Ha & [= <-]).
  destruct (bm_get cs r) as [?|] eqn:Eg; [|done]. injection Hg as ->.
  destruct (advance_role fuel m cfg a h) as [x| | |] eqn:Ea; try done. injection Ha as ->.
  unfold advance_role in Ea. apply obind_Ok_inv in Ea as ([s1 st1] & H1 & Ea).
  apply obind_Ok_inv in Ea as (ns & _ & Ea). apply obind_Ok_inv in Ea as ([s2 st2] & H2 & [= <-]).
  apply shallow_insert; [done|]. cbn [cfg_stack].
  eapply epsilon_close_depth; [|exact H2]. eapply epsilon_close_depth; [|exact H1].
  by eapply shallow_get.
Qed.

Lemma replay_shallow fuel net tr : ∀ i cs cs', shallow cs →
  ofold (replay_event fuel net) cs (enumerate_from i tr) = Ok cs' → shallow cs'.
Proof.
  induction tr as [|e tr IH]; intros i cs cs' Hs H; cbn [enumerate_from ofold] in H; [by simplify_eq|].
  apply obind_Ok_inv in H as (cs1 & H1 & H). eapply IH; [|exact H].
  unfold replay_event in H1. inv_obind. eauto using advance_endpoint_shallow.
Qed.

Lemma init_shallow fuel ms : ∀ cs cs', shallow cs → ofold (init_config fuel) cs ms = Ok cs' → shallow cs'.
Proof.
  induction ms as [|[r m] ms IH]; intros cs cs' Hs H; cbn [ofold] in H; [by simplify_eq|].
  apply obind_Ok_inv in H as (cs1 & H1 & H). eapply IH; [|exact H]. clear H.
  unfold init_config in H1. cbn [fst snd] in H1.
  destruct (epsilon_close fuel m (initial m) []) as [[s st]| | |] eqn:Ee; simplify_eq/=.
  apply shallow_insert; [done|]. simpl. eapply epsilon_close_depth; [|exact Ee]. apply Nat.le_0_l.
Qed.

(** * Fuel *)
Definition refines_fuel {E A} (m m' : outcome E A) : Prop := m = OutOfFuel ∨ m = m'.

Lemma obind_refines {E A B} (m m' : outcome E A) (k k' : A → outcome E B) :
  refines_fuel m m' → (∀ a, refines_fuel (k a) (k' a)) → refines_fuel (obind m k) (obind m' k').
Proof. intros [->| ->] Hk; [by left|]. destruct m'; simpl; [apply Hk|by right..]. Qed.

Lemma omap_err_refines {E F A} (f : E → F) (m m' : outcome E A) :
  refines_fuel m m' → refines_fuel (omap_err f m) (omap_err f m').
Proof. intros [->| ->]; [by left|by right]. Qed.

Lemma refines_refl {E A} (m : outcome E A) : refines_fuel m m.
Proof. by right. Qed.

Lemma ofold_refines {E A S} (f f' : S → A → outcome E S) xs :
  (∀ s x, refines_fuel (f s x) (f' s x)) → ∀ s, refines_fuel (ofold f s xs) (ofold f' s xs).
Proof.
  intros Hf. induction xs as [|x xs IH]; intros s; simpl; [by right|]. by apply obind_refines.
Qed.

#[local] Hint Resolve obind_refines omap_err_refines refines_refl : core.

Section fuel.
Context (fuel fuel' : nat) (Hle : fuel ≤ fuel').

Lemma epsilon_close_refines m s st :
  refines_fuel (epsilon_close fuel m s st) (epsilon_close fuel' m s st).
Proof using Hle.
  revert fuel' Hle s st. induction fuel as [|n IH]; intros n' Hn s st; [by left|].
  destruct n' as [|n']; [lia|]. cbn [epsilon_close].
  destruct (boundary_edge m s) as [e|]; [|by right].
  destruct (e_kind e); [by right| |].
  - destruct (decide _); [by right|]. apply IH. lia.
  - destruct st; [by right|]. apply IH. lia.
Qed.

Lemma advance_role_refines m cfg a h :
  refines_fuel (advance_role fuel m cfg a h) (advance_role fuel' m cfg a h).
Proof using Hle.
  apply obind_refines; [apply epsilon_close_refines|]. intros [s st].
  apply obind_refines; [auto|]. intros ns.
  apply obind_refines; [apply epsilon_close_refines|]. intros []. auto.
Qed.

Lemma advance_endpoint_refines net ord r a h cs :
  refines_fuel (advance_endpoint fuel net ord r a h cs) (advance_endpoint fuel' net ord r a h cs).
Proof using Hle.
  apply obind_refines; [auto|]. intros m. apply obind_refines; [auto|]. intros cfg.
  apply obind_refines; [apply omap_err_refines, advance_role_refines|auto].
Qed.

Lemma replay_refines net tr :
  refines_fuel (replay_to_configs fuel net tr) (replay_to_configs fuel' net tr).
Proof using Hle.
  apply obind_refines.
  - apply ofold_refines. intros cs [r m]. apply obind_refines.
    + apply omap_err_refines, epsilon_close_refines.
    + intros []. auto.
  - intros cs. apply ofold_refines. intros cs' [ord e].
    apply obind_refines; [apply advance_endpoint_refines|]. intros. apply advance_endpoint_refines.
Qed.
End fuel.

(** The verdict on the lifted run, at every depth. *)
Lemma rcf_verdict (lower : string → string) (turns : list TranscriptTurn) (fuel : nat) :
  let verdict := check_conformance (S (S fuel)) rcf_net (lift_transcript lower RecursiveCf turns) in
  (length turns ≤ S MAX_STACK_DEPTH → verdict = Ok tt) ∧
  (S MAX_STACK_DEPTH < length turns →
   verdict = Err (DepthExceeded "O" (S (2 * MAX_STACK_DEPTH)))).
Proof.
  intros verdict. unfold verdict, check_conformance, replay_to_configs. rewrite rcf_init.
  cbn [obind lift_transcript]. split; intros Hlen.
  - destruct (Nat.max (length turns) 1 - 1) as [|k] eqn:El.
    + change (lift_recursive_cf 0) with
        [ev "O" "Sub" "subcall"; ev "O" "Sub" "leaf"; ev "Sub" "O" "subresult"].
      rewrite (rcf_replay_cons _ _ _ _ _ _ (rcf_subcall_top _ _ _)).
      rewrite (rcf_replay_cons _ _ _ _ _ _ (rcf_leaf_top _ _ _)).
      rewrite (rcf_replay_cons _ _ _ _ _ _ (rcf_result_leaf_top _ _ _)). cbn [ofold enumerate_from obind].
      apply rcf_final. set_solver.
    + rewrite rcf_nested by lia. cbn [obind]. apply rcf_final. set_solver.
  - destruct max_stack_pos as [k Hk]. rewrite Hk in Hlen |- *.
    destruct (rcf_overrun_split (Nat.max (length turns) 1 - 1) k) as [rest ->]; [lia|].
    by rewrite (rcf_overrun _ k rest 0 Hk).
Qed.

(** * Properties *)

(** The well-nested run lifted from a self-calling ([recursive_cf])
    transcript conforms at every depth the stack bound allows, however many
    turns it has; one turn more and the checker reports [DepthExceeded] at
    the call that would push past the bound. *)
Theorem recursive_cf_depths (lower : string → string) (turns : list TranscriptTurn) (fuel : nat) :
  let verdict := check_conformance (S (S fuel)) rcf_net (lift_transcript lower RecursiveCf turns) in
  (length turns ≤ S MAX_STACK_DEPTH → verdict = Ok tt) ∧
  (S MAX_STACK_DEPTH < length turns →
   verdict = Err (DepthExceeded "O" (S (2 * MAX_STACK_DEPTH)))).
Proof. apply rcf_verdict. Qed.

(** No reachable configuration of any network has a stack deeper than
    [MAX_STACK_DEPTH]. *)
Theorem replay_stacks_bounded (fuel : nat) (net : Network) (tr : list Event)
    (cs : BTreeMap Role RoleConfig) (Hr : replay_to_configs fuel net tr = Ok cs) :
  Forall (fun rc => length (cfg_stack rc.2) ≤ MAX_STACK_DEPTH) cs.
Proof.
  unfold replay_to_configs in Hr. apply obind_Ok_inv in Hr as (c0 & H0 & H).
  eapply replay_shallow; [|exact H]. eapply init_shallow; [|exact H0]. split; constructor.
Qed.

(** The fuel of the closure loop is only a bound on the evaluation: a
    verdict reached with some fuel is the verdict with any larger fuel. *)
Theorem verdict_fuel_irrelevant (fuel fuel' : nat) (net : Network) (tr : list Event)
    (Hle : fuel ≤ fuel') (Hv : check_conformance fuel net tr ≠ OutOfFuel) :
  check_conformance fuel' net tr = check_conformance fuel net tr.
Proof.
  assert (H : refines_fuel (check_conformance fuel net tr) (check_conformance fuel' net tr)).
  { apply obind_refines; [by apply replay_refines|auto]. }
  by destruct H.
Qed.

(** The closure over boundary edges need not end, although the stack
    bound holds: the protocol [μt. call stop. t], where [stop] is the ended
    protocol, is well formed and builds, but the checker does not return on
    any trace, not even the empty one, whatever the fuel. *)
Theorem call_loop_diverges :
  well_formed_in spin spin_env = Ok tt ∧
  ∃ net, build_in "spin" spin spin_env = Ok net ∧
    ∀ fuel tr, check_conformance fuel net tr = OutOfFuel.
Proof.
  split; [vm_compute; reflexivity|].
  exists {| protocol := "spin"; machines := [(mkRole "A", spin_machine)]; channels := [] |}.
  split; [vm_compute; reflexivity|]. intros fuel tr.
  unfold check_conformance, replay_to_configs. cbn [machines ofold]. unfold init_config.
  cbn [fst snd]. change (initial spin_machine) with 0. by rewrite spin_diverges.
Qed.

(** Callees under a renaming: [inner] is [A→B:m], [outer] calls it with its
    own roles; the caller plays [A] and [B] as [X] and [Y]. *)
Definition renaming : BTreeMap Role Role := [(mkRole "A", mkRole "X"); (mkRole "B", mkRole "Y")].
Definition identity_ab : BTreeMap Role Role := [(mkRole "A", mkRole "A"); (mkRole "B", mkRole "B")].
Definition renaming_env : ProtocolEnv :=
  penv_insert (penv_insert penv_new "inner" (interaction "A" "B" (label_text "m") gend))
    "outer" (gcall (mkProtocolRef "inner") identity_ab gend).
Definition renamed_call : GlobalType :=
  gcall (mkProtocolRef "inner") renaming (interaction "X" "Y" (label_text "done") gend).
Definition renamed_nested_call : GlobalType := gcall (mkProtocolRef "outer") renaming gend.

(** Calls that rename roles are not compiled as documented: the renaming
    is not applied to the peers inside the callee, so the run [X→Y:m,
    X→Y:done] of [call inner[A:=X, B:=Y]. X→Y:done] is rejected; and when the
    callee calls on, compiling a protocol the well-formedness check accepts
    panics. *)
Theorem renamed_calls_miscompiled :
  well_formed_in renamed_call renaming_env = Ok tt ∧
  (∃ net, build_in "example" renamed_call renaming_env = Ok net ∧
     ∀ fuel, replay_to_configs (S (S fuel)) net [ev "X" "Y" "m"; ev "X" "Y" "done"] =
             Err (StepFailed 0 "X" (NoEdge 3))) ∧
  well_formed_in renamed_nested_call renaming_env = Ok tt ∧
  build_in "example" renamed_nested_call renaming_env = Panic.
Proof.
  split_and!; [vm_compute; reflexivity| |vm_compute; reflexivity..].
  eexists. split; [vm_compute; reflexivity|]. intros fuel. vm_compute. reflexivity.
Qed.

(** A nested run of two turns, for the instances below. *)
Definition two_level_run : list Event := lift_recursive_cf 1.

Lemma replay_stacks_bounded_witness : ∃ cs,
  replay_to_configs 2 rcf_net (take 2 two_level_run) = Ok cs ∧
  Forall (fun rc => length (cfg_stack rc.2) ≤ MAX_STACK_DEPTH) cs.
Proof.
  exists (rcf_cfgs 7 [5]).
  assert (H : replay_to_configs 2 rcf_net (take 2 two_level_run) = Ok (rcf_cfgs 7 [5]))
    by (vm_compute; reflexivity).
  split; [exact H|]. exact (replay_stacks_bounded 2 rcf_net (take 2 two_level_run) _ H).
Defined.

Lemma verdict_fuel_irrelevant_witness :
  check_conformance 100 rcf_net two_level_run = check_conformance 2 rcf_net two_level_run.
Proof.
  apply (verdict_fuel_irrelevant 2 100 rcf_net two_level_run); [lia|]. vm_compute. discriminate.
Defined.
