(* ===== verification/CsmDriver.v ===== *)
(** [src/csm/driver.rs]: reading the orchestrator's schedule off its compiled
    machine, the resume step, the trace a schedule induces, and the
    conformance block of a pattern's report. *)

From stdpp Require Import base strings list gmap.
From S2P Require Import Prelude BTree CsmRole CsmGlobal CsmLocal CsmWellformed CsmProject CsmMerge.
From S2P Require Import CsmMachine CsmRegistry CsmConformance CsmSemantics CsmCompile CsmSoundness.

(** One orchestrator-prescribed step. *)
Record PlannedStep := mkStep { peer : Role; request : Label; response : Label }.

(** The body of the loop of [plan] after the terminal test, and the body of
    [next_step_from]: the step prescribed from [state] and the state after
    it; [None] is an early [return None]. *)
Definition prescribed (m : LocalMachine) (state : LocalState) : option (PlannedStep * LocalState) :=
  match edges_from m state with
  | [send] =>
      if decide (e_kind send ≠ Internal) then None
      else match e_action send with
      | ARecv _ _ => None
      | ASend to label =>
          match edges_from m (e_to send) with
          | [recv] =>
              if decide (e_kind recv ≠ Internal) then None
              else match e_action recv with
              | ARecv from resp =>
                  if decide (from = to) then Some (mkStep to label resp, e_to recv) else None
              | ASend _ _ => None
              end
          | _ => None
          end
      end
  | _ => None
  end.

(** The loop of [plan]; [iters] iterations are left. *)
Fixpoint plan_loop (iters : nat) (m : LocalMachine) (steps : list PlannedStep) (state : LocalState) :
    option (list PlannedStep) :=
  match iters with
  | O => None
  | S iters' =>
      if is_terminal m state then Some steps
      else match prescribed m state with
      | None => None
      | Some (step, state') => plan_loop iters' m (steps ++ [step]) state'
      end
  end.

(** [for _ in 0..=max] with [max = edges.len() + 1]. *)
Definition plan (net : Network) (orchestrator : Role) : option (list PlannedStep) :=
  m ← machine net orchestrator; plan_loop (S (S (length (edges m)))) m [] (initial m).

Definition next_step_from (net : Network) (orchestrator : Role) (state : LocalState) :
    option PlannedStep :=
  m ← machine net orchestrator;
  if is_terminal m state then None else fst <$> prescribed m state.

Definition plan_trace (orchestrator : Role) (steps : list PlannedStep) : list Event :=
  flat_map (fun s => [mkEvent orchestrator (peer s) (request s);
                      mkEvent (peer s) orchestrator (response s)]) steps.

(** The [protocol] block of a pattern tool's result. *)
Record DriverReport := mkReport {
  rep_mode : string;
  rep_interpreter : bool;
  rep_protocol : option string;
  rep_conformant : option bool;
  rep_error : option string;
}.

(** [None] only when the checker does not return. *)
Definition driver_report (lower : string → string) (fuel : nat) (pattern : ProtocolId)
    (transcript : list TranscriptEntry) (interpreter_on : bool) : option DriverReport :=
  if interpreter_on then
    let turns := transcript_to_turns lower transcript in
    let g := global_of pattern params_default in
    let report conformant err :=
      mkReport "hardcoded" true (Some (protocol_name pattern)) (Some conformant) err in
    match build_in (protocol_name pattern) g protocol_env with
    | Ok net =>
        match check_conformance fuel net (lift_transcript lower pattern turns) with
        | Ok _ => Some (report true None)
        | Err e => Some (report false (Some (conformance_message e)))
        | Panic | OutOfFuel => None
        end
    | Err e => Some (report false (Some (projection_message e)))
    | Panic | OutOfFuel => None
    end
  else Some (mkReport "hardcoded" false None None None).

(** * Hub protocols: a chain of request/response pairs of one orchestrator *)
Section hub.
Context (o : Role).

Fixpoint hub (steps : list PlannedStep) : GlobalType :=
  match steps with
  | [] => GEnd
  | s :: ss =>
      GInteraction o (peer s) (request s) (GInteraction (peer s) o (response s) (hub ss))
  end.

Fixpoint hub_local (steps : list PlannedStep) : LocalType :=
  match steps with
  | [] => LEnd
  | s :: ss => LSend (peer s) (request s) (LRecv (peer s) (response s) (hub_local ss))
  end.

Lemma hub_facts steps : Forall (fun s => peer s ≠ o) steps →
  wf [] (hub steps) ∧ call_free (hub steps) = true ∧ project (hub steps) o = Ok (hub_local steps) ∧
  ∀ r, ∃ L, project (hub steps) r = Ok L ∧ contractive L = true.
Proof.
  induction 1 as [|s ss Hs Hss (Hw & Hc & Hp & Hr)].
  { split_and!; [constructor|done|done|by eauto]. }
  split_and!.
  - by repeat constructor.
  - done.
  - simpl. rewrite Hp. simpl. destruct (decide (o = peer s)); [congruence|].
    by destruct (decide (o = o)).
  - intros r. destruct (Hr r) as (L & HL & HcL). simpl. rewrite HL. simpl.
    repeat (case_decide; simpl); eauto.
Qed.

Lemma hub_regular steps : Forall (fun s => peer s ≠ o) steps → consistent_media (hub steps) →
  regular (hub steps) ∧ ∀ r, is_ok (project (hub steps) r).
Proof.
  intros Hs Hm. destruct (hub_facts steps Hs) as (Hw & Hc & _ & Hr). split.
  - split; [by apply check_wf|done|done|]. apply forallb_forall. intros r _.
    destruct (Hr r) as (L & -> & ?). done.
  - intros r. destruct (Hr r) as (L & ? & _). by exists L.
Qed.

Lemma hub_run steps : grun ([], hub steps) (plan_trace o steps) ([], GEnd).
Proof.
  induction steps as [|s ss IH]; [constructor|]. simpl.
  eapply grun_step; [constructor|]. eapply grun_step; [constructor|]. exact IH.
Qed.

Lemma hub_run_take k : ∀ steps, ∃ gc, grun ([], hub steps) (plan_trace o (take k steps)) gc.
Proof.
  induction k as [|k IH]; intros [|s ss]; [eexists; constructor..|]. destruct (IH ss) as [gc Hgc].
  exists gc. simpl. eapply grun_step; [constructor|]. eapply grun_step; [constructor|]. exact Hgc.
Qed.

Lemma hub_participates steps : steps ≠ [] → o ∈ participants (hub steps).
Proof. intros Hne. apply participants_elem. destruct steps; [done|]. simpl. constructor. Qed.

(** ** Its machine is a chain *)
Context (m : LocalMachine).
Abbreviation im := (impl (edges m) (terminals m) ∅).

Lemma chain_end s : im (hub_local []) s → is_terminal m s = true.
Proof. intros Hi. inversion Hi; subst; simplify_eq/=. by apply bool_decide_eq_true. Qed.

Lemma chain_step st ss s : im (hub_local (st :: ss)) s →
  is_terminal m s = false ∧ ∃ t u,
    edges_from m s = [mkEdge s (ASend (peer st) (request st)) t Internal] ∧
    edges_from m t = [mkEdge t (ARecv (peer st) (response st)) u Internal] ∧
    prescribed m s = Some (st, u) ∧ im (hub_local ss) u.
Proof.
  intros Hi. simpl in Hi.
  destruct (impl_arms m ∅ _ s (ASend (peer st)) _ Hi eq_refl) as (HT & ts & Hes & Hall).
  inversion Hall as [|? t ? ? Hk Hn]; subst. inversion Hn; subst. simpl in Hk.
  destruct (impl_arms m ∅ _ t (ARecv (peer st)) _ Hk eq_refl) as (_ & us & Het & Hall').
  inversion Hall' as [|? u ? ? Hk' Hn']; subst. inversion Hn'; subst.
  simpl in Hes, Het, Hk'. unfold arm_edge in *. simpl in *.
  split; [by apply bool_decide_eq_false|]. exists t, u. split_and!; [done|done| |done].
  unfold prescribed. rewrite Hes. cbn [e_kind e_action e_to].
  rewrite (decide_False (P := Internal ≠ Internal)) by (intros H; by apply H). rewrite Het.
  cbn [e_kind e_action e_to].
  rewrite (decide_False (P := Internal ≠ Internal)) by (intros H; by apply H).
  rewrite decide_True by done. by destruct st.
Qed.

Lemma chain_plan ss : ∀ iters acc s, im (hub_local ss) s → length ss < iters →
  plan_loop iters m acc s = Some (acc ++ ss).
Proof.
  induction ss as [|st ss IH]; intros iters acc s Hi Hn; destruct iters as [|n]; simpl in Hn; try lia.
  - simpl. by rewrite (chain_end s Hi), app_nil_r.
  - destruct (chain_step _ _ _ Hi) as (HT & t & u & _ & _ & Hp & Hu). cbn [plan_loop].
    rewrite HT, Hp. rewrite (IH n _ u Hu) by lia. by rewrite <- app_assoc.
Qed.

Lemma single_edge_step s a t ctx : edges_from m s = [mkEdge s a t Internal] → ctx = ctx_of a →
  check_step m s a ctx = Ok t.
Proof.
  intros He ->. unfold check_step. rewrite He.
  by apply (check_edges_elem _ s (mkEdge s a t Internal));
    [repeat constructor|apply NoDup_singleton|left].
Qed.

Lemma restrict_step s ss : peer s ≠ o →
  restrict o (plan_trace o (s :: ss)) =
  ASend (peer s) (request s) :: ARecv (peer s) (response s) :: restrict o (plan_trace o ss).
Proof.
  intros Hs. unfold restrict. cbn [plan_trace flat_map app]. unfold actions_of. cbn [ev_from ev_to ev_label].
  destruct (decide (o = o)); [|done]. by destruct (decide (peer s = o)).
Qed.

(** The state after the first [k] steps. *)
Lemma chain_run ss : Forall (fun s => peer s ≠ o) ss →
  ∀ k s, im (hub_local ss) s → k ≤ length ss → ∃ u,
  mrun m s (restrict o (plan_trace o (take k ss))) = Ok u ∧ im (hub_local (drop k ss)) u.
Proof.
  induction 1 as [|st ss Hst Hss IH]; intros k s Hi Hk.
  { simpl in Hk. replace k with 0 by lia. by exists s. }
  destruct k as [|k]; [by exists s|]. simpl in Hk.
  destruct (chain_step _ _ _ Hi) as (_ & t & u & Hs & Ht & _ & Hu).
  destruct (IH k u Hu ltac:(lia)) as (v & Hv & Hiv). exists v. split; [|done].
  cbn [take]. rewrite restrict_step by done. cbn [mrun].
  rewrite (single_edge_step _ _ _ _ Hs) by done. cbn [obind mrun].
  by rewrite (single_edge_step _ _ _ _ Ht).
Qed.

Lemma chain_next ss k s : im (hub_local (drop k ss)) s →
  (if is_terminal m s then None else fst <$> prescribed m s) = ss !! k.
Proof.
  intros Hi. destruct (drop k ss) as [|st rest] eqn:Ed.
  - rewrite (chain_end _ Hi). symmetry. apply lookup_ge_None.
    apply (f_equal length) in Ed. rewrite length_drop in Ed. simpl in Ed. lia.
  - destruct (chain_step _ _ _ Hi) as (-> & t & u & _ & _ & -> & _). simpl.
    by rewrite <- (Nat.add_0_r k), <- lookup_drop, Ed.
Qed.
End hub.

(** ** The walk of [plan] is long enough *)
Lemma go_chain_edges role penv fuel ss : ∀ entry c s c',
  box_exit_labels c = [] → go role penv fuel (hub_local ss) entry c = Ok (s, c') →
  length (c_edges c') = length (c_edges c) + 2 * length ss.
Proof.
  assert (Hal : ∀ entry c, c_edges (alloc entry c).2 = c_edges c ∧
    box_exit_labels (alloc entry c).2 = box_exit_labels c) by (by intros []).
  induction ss as [|st ss IH]; intros entry c s c' Hx H; cbn [hub_local length] in *.
  - destruct (Hal entry c) as [He Hx']. destruct fuel; simpl in H; destruct (alloc entry c) as [s1 c1]; simpl in *;
      rewrite Hx', Hx in H; simplify_eq/=; rewrite He; lia.
  - rewrite go_send in H. unfold go_arms in H. cbn [ofold] in H. unfold compile_branch in H. cbn [lb_cont lb_label] in H.
    destruct (Hal entry c) as [He Hx']. set (c1 := (alloc entry c).2) in *.
    erewrite go_offer in H by reflexivity. unfold go_arms in H. cbn [ofold] in H.
    unfold compile_branch in H. cbn [lb_cont lb_label] in H.
    destruct (Hal None c1) as [He1 Hx1]. set (c2 := (alloc None c1).2) in *.
    destruct (go role penv fuel (hub_local ss) None c2) as [[t c3]| | |] eqn:Eg; try done.
    apply IH in Eg; [|congruence]. injection H as _ <-. cbn [push_edge c_edges].
    rewrite !length_app, Eg, He1, He. cbn [length]. lia.
Qed.

Lemma compile_chain_edges role penv ss m : compile_in role (hub_local ss) penv = Ok m →
  length (edges m) = 2 * length ss.
Proof.
  unfold compile_in. intros H. apply obind_Ok_inv in H as ([s c] & Hg & [= <-]).
  by apply go_chain_edges in Hg.
Qed.

(** * Properties *)

(** For an orchestrator that only exchanges request/response pairs with
    its peers, [plan] reads exactly its schedule off the compiled machine, the
    trace of the schedule conforms to the network, and after any number [k] of
    executed steps, replaying them and asking [next_step_from] in the state
    reached gives step [k] of the schedule, and nothing after the last one. *)
Theorem plan_reads_schedule (proto : string) (o : Role) (steps : list PlannedStep) (fuel : nat)
    (Hpeers : Forall (fun s => peer s ≠ o) steps) (Hne : steps ≠ [])
    (Hmedia : consistent_media (hub o steps)) :
  ∃ net, build proto (hub o steps) = Ok net ∧
    plan net o = Some steps ∧
    check_conformance (S fuel) net (plan_trace o steps) = Ok tt ∧
    ∀ k, k ≤ length steps → ∃ configs s,
      replay_to_configs (S fuel) net (plan_trace o (take k steps)) = Ok configs ∧
      bm_get configs o = Some (mkConfig s []) ∧ next_step_from net o s = steps !! k.
Proof.
  destruct (hub_regular o steps Hpeers Hmedia) as [Hreg Hproj].
  destruct (regular_build_Ok proto (hub o steps) penv_new Hreg) as [net Hb]; [auto|].
  exists net. split; [done|].
  destruct (build_machine _ _ _ _ Hb) as (Hok & Hin & _).
  destruct (Hin o (hub_participates o steps Hne)) as (L & m & Hp & Hc & Hm).
  destruct (hub_facts o steps Hpeers) as (Hw & Hcf & Hp' & _). rewrite Hp' in Hp. injection Hp as <-.
  destruct (compile_impl (medium_of (hub o steps)) o (hub_local steps) penv_new) as (m' & Hc' & Hfl & Hi).
  { by apply (project_lok _ o). }
  { destruct Hreg. eapply projections_contractive_elem; [done|by apply hub_participates|done]. }
  rewrite Hc in Hc'. injection Hc' as <-. split_and!.
  - unfold plan. rewrite Hm. cbn [mbind option_bind]. rewrite (chain_plan m steps _ _ _ Hi); [done|].
    rewrite (compile_chain_edges _ _ _ _ Hc). lia.
  - eapply complete_run_conforms; [exact Hreg|exact Hb|]. exists []. apply hub_run.
  - intros k Hk. destruct (chain_run o m steps Hpeers k _ Hi Hk) as (s & Hs & His).
    destruct (hub_run_take o k steps) as [gc Hgc].
    destruct (run_replays proto _ net fuel _ _ Hreg Hb Hgc) as [configs Hr].
    destruct (regular_replay_state proto _ net fuel Hreg Hb _ _ Hr o m Hm) as (s' & Hs' & Hg).
    rewrite Hs in Hs'. injection Hs' as <-. exists configs, s. split_and!; [done|done|].
    unfold next_step_from. rewrite Hm. by apply chain_next.
Qed.

(** The schedule of the distillation pattern. *)
Definition distillation_steps : list PlannedStep :=
  [mkStep "E" (label_text "query") (label_text "expert");
   mkStep "L" (label_text "distill_req") (label_text "learner")].

Lemma plan_reads_schedule_witness :
  hub "O" distillation_steps = distillation ∧
  ∃ net, build "distillation" (hub "O" distillation_steps) = Ok net ∧
    plan net "O" = Some distillation_steps.
Proof.
  split; [reflexivity|].
  destruct (plan_reads_schedule "distillation" "O" distillation_steps 0) as (net & Hb & Hp & _).
  - repeat constructor; done.
  - done.
  - apply (bool_decide_eq_true_1 (consistent_media (hub "O" distillation_steps))). vm_compute. reflexivity.
  - exists net. split; [exact Hb|exact Hp].
Defined.

(** A protocol in which a peer talks to another peer before it answers. *)
Definition relay : GlobalType :=
  interaction "O" "A" (label_text "ask")
    (interaction "A" "B" (label_text "relay") (interaction "A" "O" (label_text "answer") gend)).

(** A schedule read off the orchestrator's machine is not conformant by
    construction: [plan] returns a schedule for [O→A:ask. A→B:relay.
    A→O:answer], but its trace misses what the peers exchange among
    themselves and the checker rejects it. *)
Theorem plan_not_conformant_by_construction :
  ∃ net steps, build "example" relay = Ok net ∧ plan net "O" = Some steps ∧
    ∀ fuel, check_conformance (S fuel) net (plan_trace "O" steps) =
            Err (StepFailed 1 "A" (NoEdge 1)).
Proof.
  exists (built relay). eexists. split_and!; [vm_compute; reflexivity..|].
  intros fuel. vm_compute. reflexivity.
Qed.
