(* ===== verification/CsmReports.v ===== *)
(** What the conformance block of the collaboration patterns
    ([driver_report] of [src/csm/driver.rs] on the transcripts the pattern
    tools record) can and cannot say. *)

From stdpp Require Import base strings list gmap pretty.
From S2P Require Import Prelude BTree CsmRole CsmGlobal CsmLocal CsmWellformed CsmProject CsmMerge.
From S2P Require Import CsmMachine CsmRegistry CsmConformance CsmSemantics CsmCompile CsmSoundness.
From S2P Require Import CsmPushdown CsmDriver.

(** The network [driver_report] checks against. *)
Definition report_net (pattern : ProtocolId) : Network :=
  match build_in (protocol_name pattern) (global_of pattern params_default) protocol_env with
  | Ok net => net | _ => mkNetwork "" [] [] end.

Lemma report_net_built pattern :
  build_in (protocol_name pattern) (global_of pattern params_default) protocol_env = Ok (report_net pattern).
Proof. destruct pattern; vm_compute; reflexivity. Qed.

(** The environment does not matter for the call-free patterns. *)
Lemma report_net_build pattern : pattern ≠ RecursiveCf →
  build (protocol_name pattern) (global_of pattern params_default) = Ok (report_net pattern).
Proof. intros Hne. destruct pattern; first [exfalso; by apply Hne|vm_compute; reflexivity]. Qed.

Lemma report_net_regular pattern : pattern ≠ RecursiveCf → regular (global_of pattern params_default).
Proof. intros Hne. by apply (registry_regular pattern params_default Hne). Qed.

(** ** Deliberation *)

(** The Tool-Caller's local type: it is told to [finish] or to [act]. *)
Definition tool_caller : LocalType :=
  LRec "t" (LBranch "O"
    [mkLocalBranch (label_text "act_req") (LSend "O" (label_text "result") (LVar "t"));
     mkLocalBranch (label_text "finish") (LSend "O" (label_text "final") LEnd)]).

Lemma tool_caller_projection : project deliberation "T" = Ok tool_caller.
Proof. vm_compute. reflexivity. Qed.

(** Its configurations before [finish]. *)
Definition tool_caller_body : LocalType :=
  LBranch "O"
    [mkLocalBranch (label_text "act_req") (LSend "O" (label_text "result") (LVar "t"));
     mkLocalBranch (label_text "finish") (LSend "O" (label_text "final") LEnd)].

Inductive acting : lconf → Prop :=
| acting_start : acting ([], tool_caller)
| acting_body : acting ([("t", tool_caller_body)], tool_caller_body)
| acting_result : acting ([("t", tool_caller_body)], LSend "O" (label_text "result") (LVar "t"))
| acting_again : acting ([("t", tool_caller_body)], LVar "t").

#[local] Hint Constructors acting : core.

(** Complete runs of the Tool-Caller receive [finish]. *)
Lemma tool_caller_finishes w : laccepts tool_caller w → ARecv "O" (label_text "finish") ∈ w.
Proof.
  assert (H : ∀ c d, lrun c w d → acting c → d.2 = LEnd → ARecv "O" (label_text "finish") ∈ w).
  { intros c d Hr. induction Hr as [c|c c' w d Hu Hr IH|c a c' w d Hst Hr IH]; intros Hc Hd.
    - destruct Hc; done.
    - apply IH; [|done].
      destruct Hc; inversion Hu as [|? ? ? ? Hub]; subst; simplify_eq/=; constructor.
    - destruct Hc; apply lstep_arms in Hst as (act & bs & b & Ha & Hb & -> & ->); simplify_eq/=.
      + rewrite !elem_of_cons, elem_of_nil in Hb. destruct Hb as [->|[->|[]]]; [|by left].
        right. auto.
      + apply list_elem_of_singleton in Hb as ->. right. auto. }
  intros [Δ' Hr]. by eapply H.
Qed.

Lemma lift_deliberation_no_finish lower turns e :
  e ∈ lift_deliberation lower turns → name (ev_label e) ≠ "finish".
Proof.
  induction turns as [|t ts IH]; simpl; [by intros ?%elem_of_nil|].
  repeat case_match; rewrite ?elem_of_cons, ?elem_of_nil; naive_solver.
Qed.

Lemma restrict_elem r tr a : a ∈ restrict r tr → ∃ e, e ∈ tr ∧ a ∈ actions_of r e.
Proof.
  unfold restrict. rewrite list_elem_of_In, in_flat_map.
  intros (e & ? & ?). exists e. by rewrite !list_elem_of_In.
Qed.

Lemma actions_of_recv r e from l : ARecv from l ∈ actions_of r e → l = ev_label e.
Proof. unfold actions_of. repeat case_decide; set_solver. Qed.

Lemma deliberation_rejected lower fuel turns :
  check_conformance (S fuel) (report_net Deliberation) (lift_transcript lower Deliberation turns) ≠ Ok tt.
Proof.
  intros H. apply (regular_conformance_iff "deliberation" deliberation) in H as [_ H];
    [|by apply (report_net_regular Deliberation)|by apply (report_net_build Deliberation)].
  assert (Hf : ARecv "O" (label_text "finish") ∈ restrict "T" (lift_deliberation lower turns)).
  { apply tool_caller_finishes, H; [|exact tool_caller_projection].
    apply bs_contains_spec. vm_compute. reflexivity. }
  apply restrict_elem in Hf as (e & He & Ha). apply actions_of_recv in Ha.
  apply lift_deliberation_no_finish in He. by rewrite <- Ha in He.
Qed.

(** ** Mixture *)
Definition summarizer : LocalType :=
  LRecv "O" (label_text "reduce_req") (LSend "O" (label_text "summary") LEnd).

Lemma summarizer_projection : project (global_of Mixture params_default) "Sum" = Ok summarizer.
Proof. vm_compute. reflexivity. Qed.

Lemma summarizer_works w : laccepts summarizer w → w ≠ [].
Proof.
  intros [Δ Hr] ->. inversion Hr as [|? ? ? ? Hu|]; subst. inversion Hu.
Qed.

Lemma lift_mixture_no_summary lower turns : ∀ idx,
  Forall (fun t => str_contains (lower (t_role t)) "summ" = false) turns →
  restrict "Sum" (lift_mixture lower idx turns) = [].
Proof.
  intros idx Hall. revert idx. induction Hall as [|t ts Ht Hts IH]; intros idx; [done|].
  simpl. rewrite Ht. unfold restrict. simpl. unfold restrict in IH. by rewrite IH.
Qed.

Lemma mixture_rejected lower fuel turns :
  Forall (fun t => str_contains (lower (t_role t)) "summ" = false) turns →
  check_conformance (S fuel) (report_net Mixture) (lift_transcript lower Mixture turns) ≠ Ok tt.
Proof.
  intros Hall H. apply (regular_conformance_iff "mixture" (global_of Mixture params_default)) in H as [_ H];
    [|by apply (report_net_regular Mixture)|by apply (report_net_build Mixture)].
  apply (summarizer_works (restrict "Sum" (lift_mixture lower 0 turns))).
  - apply H; [|exact summarizer_projection]. apply bs_contains_spec. vm_compute. reflexivity.
  - by apply lift_mixture_no_summary.
Qed.

(** ** The report always exists *)
Lemma report_net_rcf : report_net RecursiveCf = rcf_net.
Proof. vm_compute. reflexivity. Qed.

Lemma report_verdict lower fuel pattern turns :
  returns (check_conformance (S (S fuel)) (report_net pattern) (lift_transcript lower pattern turns)).
Proof.
  destruct (decide (pattern = RecursiveCf)) as [->|Hne].
  - rewrite report_net_rcf.
    destruct (le_lt_dec (length turns) (S MAX_STACK_DEPTH)) as [Hle|Hlt].
    + left. exists tt. by apply rcf_verdict.
    + right. eexists. by apply rcf_verdict.
  - pose proof (report_net_build pattern Hne) as Hb. pose proof (report_net_regular pattern Hne) as Hreg.
    pose proof (regular_machines_ok _ _ _ Hb) as Hok.
    pose proof (flat_in_fuel (S fuel) _ (lift_transcript lower pattern turns) Hok
      (regular_flat _ _ _ Hreg Hb)) as Hf.
    destruct (checker_no_panic (S (S fuel)) _ (lift_transcript lower pattern turns) Hok) as [Hp _].
    destruct (check_conformance _ _ _) as [[]|e| |]; [by left; eexists|by right; eexists|done|done].
Qed.

Lemma driver_report_on lower fuel pattern transcript :
  driver_report lower fuel pattern transcript true =
  match check_conformance fuel (report_net pattern)
          (lift_transcript lower pattern (transcript_to_turns lower transcript)) with
  | Ok _ => Some (mkReport "hardcoded" true (Some (protocol_name pattern)) (Some true) None)
  | Err e => Some (mkReport "hardcoded" true (Some (protocol_name pattern)) (Some false)
                            (Some (conformance_message e)))
  | Panic | OutOfFuel => None
  end.
Proof. unfold driver_report. by rewrite report_net_built. Qed.

(** * Properties *)

(** The report of a pattern run always exists, for every pattern, every
    transcript and either setting of the interpreter switch; with the switch
    on, [conformant] is the verdict of the checker on the lifted transcript. *)
Theorem driver_report_total (lower : string → string) (fuel : nat) (pattern : ProtocolId)
    (transcript : list TranscriptEntry) :
  driver_report lower (S (S fuel)) pattern transcript false =
    Some (mkReport "hardcoded" false None None None) ∧
  ∃ ok err, driver_report lower (S (S fuel)) pattern transcript true =
      Some (mkReport "hardcoded" true (Some (protocol_name pattern)) (Some ok) err) ∧
    (ok = true ↔ check_conformance (S (S fuel)) (report_net pattern)
       (lift_transcript lower pattern (transcript_to_turns lower transcript)) = Ok tt).
Proof.
  split; [done|]. rewrite driver_report_on.
  destruct (report_verdict lower fuel pattern (transcript_to_turns lower transcript)) as [[[] ->]|[e ->]];
    (eexists _, _; split; [done|]; by split).
Qed.

(** No deliberation run is ever reported conformant: whatever the
    transcript, converged or not, the lifted run leaves the Tool-Caller
    waiting, because the protocol ends with a [finish]/[final] exchange that
    the lifting never produces. *)
Theorem deliberation_never_conformant (lower : string → string) (fuel : nat)
    (transcript : list TranscriptEntry) :
  ∃ err, driver_report lower (S (S fuel)) Deliberation transcript true =
    Some (mkReport "hardcoded" true (Some "deliberation") (Some false) (Some err)).
Proof.
  rewrite driver_report_on.
  pose proof (deliberation_rejected lower (S fuel) (transcript_to_turns lower transcript)) as Hr.
  destruct (report_verdict lower fuel Deliberation (transcript_to_turns lower transcript)) as [[[] E]|[e E]];
    [destruct (Hr E)|]. rewrite E. eexists. reflexivity.
Qed.

(** A mixture transcript whose entries name no summarizer is always
    reported non-conformant.  The mixture tool records only its specialists,
    without a role, so its report says non-conformant for every run. *)
Theorem mixture_without_summarizer (lower : string → string) (fuel : nat)
    (transcript : list TranscriptEntry)
    (Hroles : Forall (fun e => str_contains (lower (default "" (entry_role e))) "summ" = false) transcript) :
  ∃ err, driver_report lower (S (S fuel)) Mixture transcript true =
    Some (mkReport "hardcoded" true (Some "mixture") (Some false) (Some err)).
Proof.
  rewrite driver_report_on.
  assert (Hr : check_conformance (S (S fuel)) (report_net Mixture)
    (lift_transcript lower Mixture (transcript_to_turns lower transcript)) ≠ Ok tt).
  { apply mixture_rejected. unfold transcript_to_turns. apply Forall_map.
    eapply Forall_impl; [exact Hroles|]. done. }
  destruct (report_verdict lower fuel Mixture (transcript_to_turns lower transcript)) as [[[] E]|[e E]];
    [destruct (Hr E)|]. rewrite E. eexists. reflexivity.
Qed.

(** What the mixture tool records for three specialists. *)
Lemma mixture_without_summarizer_witness :
  ∃ err, driver_report (fun s => s) 2 Mixture (replicate 3 (mkEntry None None (Some "answer"))) true =
    Some (mkReport "hardcoded" true (Some "mixture") (Some false) (Some err)).
Proof.
  apply (mixture_without_summarizer (fun s => s) 0 (replicate 3 (mkEntry None None (Some "answer")))).
  repeat constructor.
Defined.
