(* ===== verification/CsmMedia.v ===== *)
(** [src/csm/media.rs]: the medium discipline (no latent edge touches a
    black-box role), and what it guarantees of the projections. *)

From stdpp Require Import base strings list gmap.
From S2P Require Import Prelude BTree CsmRole CsmGlobal CsmLocal CsmProject CsmOccurs.

Inductive MediaError :=
| BlackBoxOnLatent (role label : string).

(** [MediaError::message] *)
Definition media_message (e : MediaError) : string :=
  match e with
  | BlackBoxOnLatent role label =>
      "black-box role '" +:+ role +:+ "' is on the latent edge '" +:+ label +:+
      "' — black-box agents (no hidden-state access) may only communicate on Text-medium edges"
  end%string.

(** The test of one edge. *)
Definition check_edge_medium (black_box : BTreeSet Role) (from to : Role) (l : Label) :
    outcome MediaError unit :=
  if label_is_latent l && (bs_contains black_box from || bs_contains black_box to)
  then Err (BlackBoxOnLatent (role_str (if bs_contains black_box from then from else to)) (name l))
  else Ok tt.

Fixpoint check_media_discipline (g : GlobalType) (black_box : BTreeSet Role) :
    outcome MediaError unit :=
  match g with
  | GInteraction from to label cont =>
      let* _ := check_edge_medium black_box from to label in
      check_media_discipline cont black_box
  | GChoice from to branches =>
      oforM (fun b => let* _ := check_edge_medium black_box from to (gb_label b) in
                      check_media_discipline (gb_cont b) black_box) branches
  | GRec _ body => check_media_discipline body black_box
  | GlobalCall _ _ cont => check_media_discipline cont black_box
  | GlobalBox _ body _ cont =>
      let* _ := check_media_discipline body black_box in
      check_media_discipline cont black_box
  | GVar _ | GEnd => Ok tt
  end.

(** * What the check accepts *)

(** A communication that occurs in a protocol (not inside its callees). *)
Definition comm_in (from to : Role) (l : Label) : GlobalType → Prop :=
  global_has (fun f t l' => f = from ∧ t = to ∧ l' = l) (fun _ _ => False).

(** A send or receive that occurs in a local type. *)
Definition act_in (a : Action) : LocalType → Prop :=
  local_has (fun to l => a = ASend to l) (fun from l => a = ARecv from l) (fun _ _ => False).

Definition disciplined (bb : BTreeSet Role) (from to : Role) (l : Label) : Prop :=
  label_is_latent l = true → from ∉ bb ∧ to ∉ bb.

Lemma check_edge_medium_Ok bb from to l :
  check_edge_medium bb from to l = Ok tt ↔ disciplined bb from to l.
Proof.
  unfold check_edge_medium, disciplined, bs_contains.
  destruct (label_is_latent l); repeat case_bool_decide; simpl; split; try done; tauto.
Qed.

Lemma obind_tt_Ok {E} (a b : outcome E unit) : (let* _ := a in b) = Ok tt ↔ a = Ok tt ∧ b = Ok tt.
Proof. destruct a as [[]| | |]; simpl; naive_solver. Qed.

Lemma check_media_spec bb g : check_media_discipline g bb = Ok tt ↔
  ∀ from to l, comm_in from to l g → disciplined bb from to l.
Proof.
  unfold comm_in.
  induction g as [from to l k IH|from to bs IH|v body IH|v|c s k IH|en body ex k IHb IHk|]
    using GlobalType_rect_branches; simpl.
  - rewrite obind_tt_Ok, check_edge_medium_Ok, IH. naive_solver.
  - rewrite oforM_Ok, Forall_forall. rewrite Forall_forall in IH. setoid_rewrite some_in_spec. split.
    + intros H f t l (b & Hb & Hc). specialize (H b Hb).
      rewrite obind_tt_Ok, check_edge_medium_Ok, IH in H by done. naive_solver.
    + intros H b Hb. rewrite obind_tt_Ok, check_edge_medium_Ok, IH by done. naive_solver.
  - done.
  - naive_solver.
  - naive_solver.
  - rewrite obind_tt_Ok, IHb, IHk. naive_solver.
  - naive_solver.
Qed.

(** A role's projection only acts as the protocol has it communicate. *)
Lemma project_acts g r L a : project g r = Ok L → act_in a L →
  (∃ to l, a = ASend to l ∧ comm_in r to l g) ∨ (∃ from l, a = ARecv from l ∧ comm_in from r l g).
Proof.
  intros Hp Ha. destruct a as [to l|from l]; [left|right].
  - exists to, l. split; [done|]. eapply global_has_mono; [| |eapply project_has; [exact Hp|exact Ha]]; naive_solver.
  - exists from, l. split; [done|]. eapply global_has_mono; [| |eapply project_has; [exact Hp|exact Ha]]; naive_solver.
Qed.

(** * Properties *)

(** [check_media_discipline] is exact (it accepts a protocol if and only
    if no latent communication in it has a black-box endpoint), and it does
    what it is there for: in a protocol it accepts, no send or receive of the
    projection of a black-box role is latent. *)
Theorem media_discipline_exact (g : GlobalType) (black_box : BTreeSet Role) :
  (check_media_discipline g black_box = Ok tt ↔
   ∀ from to l, comm_in from to l g → label_is_latent l = true →
     from ∉ black_box ∧ to ∉ black_box) ∧
  (check_media_discipline g black_box = Ok tt → ∀ r L a, r ∈ black_box →
     project g r = Ok L → act_in a L → label_is_latent (action_label a) = false).
Proof.
  split; [apply check_media_spec|]. rewrite check_media_spec. intros H r L a Hr Hp Ha.
  apply not_true_iff_false. intros Hl.
  destruct (project_acts _ _ _ _ Hp Ha) as [(t & l & -> & Hc)|(f & l & -> & Hc)];
    destruct (H _ _ _ Hc Hl); done.
Qed.
