(* ===== verification/CsmInference.v ===== *)
(** [src/csm/inference.rs]: the prefix-tree acceptor inferred from observed
    traces.  The observation counts are unbounded naturals: a 64-bit counter
    incremented once per observed symbol does not wrap. *)

From stdpp Require Import base strings list gmap.
From S2P Require Import Prelude BTree.

Definition Symbol : Type := string.

Record InferredFsm := mkFsm {
  fsm_n_states : nat;
  fsm_initial : nat;
  fsm_edges : BTreeMap (nat * Symbol) (nat * N);
  fsm_accepting : BTreeSet nat;
  fsm_n_traces : N;
}.

(** [InferredFsm::alphabet] and [novel_symbols]. *)
Definition fsm_alphabet (f : InferredFsm) : BTreeSet Symbol :=
  foldl bs_insert [] (map (fun k => k.2) (bm_keys (fsm_edges f))).

Definition novel_symbols (f : InferredFsm) (allowed : BTreeSet Symbol) : list Symbol :=
  filter (fun s => bs_contains allowed s = false) (fsm_alphabet f).

(** The mutable locals of [infer_prefix_tree]. *)
Record tree := mkTree { t_edges : BTreeMap (nat * Symbol) (nat * N); t_n : nat }.

(** The inner loop: one symbol from [state]. *)
Definition observe (ts : tree * nat) (sym : Symbol) : tree * nat :=
  let (t, state) := ts in
  match bm_get (t_edges t) (state, sym) with
  | Some (to, count) =>
      (mkTree (bm_insert (t_edges t) (state, sym) (to, N.succ count)) (t_n t), to)
  | None =>
      (mkTree (bm_insert (t_edges t) (state, sym) (t_n t, 1%N)) (S (t_n t)), t_n t)
  end.

(** The outer loop: one trace from the root. *)
Definition observe_trace (ta : tree * BTreeSet nat) (trace : list Symbol) : tree * BTreeSet nat :=
  let (t, accepting) := ta in
  let (t', state) := foldl observe (t, 0) trace in
  (t', bs_insert accepting state).

Definition infer_prefix_tree (traces : list (list Symbol)) : InferredFsm :=
  let (t, accepting) := foldl observe_trace (mkTree [] 1, []) traces in
  {| fsm_n_states := t_n t; fsm_initial := 0; fsm_edges := t_edges t;
     fsm_accepting := accepting; fsm_n_traces := N.of_nat (length traces) |}.

(** * Reading words *)
Fixpoint walk (es : BTreeMap (nat * Symbol) (nat * N)) (s : nat) (w : list Symbol) : option nat :=
  match w with
  | [] => Some s
  | a :: w => '(t, _) ← bm_get es (s, a); walk es t w
  end.

Definition fsm_accepts (f : InferredFsm) (w : list Symbol) : bool :=
  match walk (fsm_edges f) (fsm_initial f) w with
  | Some s => bs_contains (fsm_accepting f) s
  | None => false
  end.

Lemma walk_app es s w w' : walk es s (w ++ w') = t ← walk es s w; walk es t w'.
Proof.
  revert s. induction w as [|a w IH]; intros s; simpl; [done|].
  destruct (bm_get es (s, a)) as [[t c]|]; simpl; auto.
Qed.

(** * The tree invariant: edges go to larger states, each state other than
    the root has one incoming edge. *)
Record tree_ok (t : tree) : Prop := {
  tok_map : bm_ok (t_edges t);
  tok_pos : 0 < t_n t;
  tok_lt : ∀ k to c, bm_get (t_edges t) k = Some (to, c) → k.1 < to < t_n t;
  tok_inj : ∀ k k' to c c', bm_get (t_edges t) k = Some (to, c) →
              bm_get (t_edges t) k' = Some (to, c') → k = k';
}.

Lemma walk_bound t s w s' : tree_ok t → walk (t_edges t) s w = Some s' → s + length w ≤ s' ∧ (s < t_n t → s' < t_n t).
Proof.
  intros [_ _ Hlt _]. revert s. induction w as [|a w IH]; intros s H; simpl in H.
  { simplify_eq. simpl. lia. }
  destruct (bm_get (t_edges t) (s, a)) as [[u c]|] eqn:E; [|done]. simpl in H.
  apply Hlt in E. simpl in *. apply IH in H. lia.
Qed.

(** Two words that lead from the root to the same state are equal. *)
Lemma walk_inj t w : tree_ok t → ∀ w' s, walk (t_edges t) 0 w = Some s →
  walk (t_edges t) 0 w' = Some s → w = w'.
Proof.
  intros Hok. induction w as [|a w IH] using rev_ind; intros w' s H H'.
  - simpl in H. simplify_eq. destruct (walk_bound _ _ _ _ Hok H') as [Hl _]. destruct w'; [done|simpl in Hl; lia].
  - rewrite walk_app in H. destruct (walk (t_edges t) 0 w) as [u|] eqn:Eu; simpl in H; [|done].
    destruct (bm_get (t_edges t) (u, a)) as [[v c]|] eqn:Ev; simpl in H; simplify_eq.
    destruct w' as [|a' w' _] using rev_ind.
    { simpl in H'. simplify_eq. destruct Hok as [_ _ Hlt _]. apply Hlt in Ev. simpl in Ev. lia. }
    rewrite walk_app in H'. destruct (walk (t_edges t) 0 w') as [u'|] eqn:Eu'; simpl in H'; [|done].
    destruct (bm_get (t_edges t) (u', a')) as [[v' c']|] eqn:Ev'; simpl in H'; simplify_eq.
    pose proof (tok_inj _ Hok _ _ _ _ _ Ev Ev') as [= <- <-]. f_equal. by eapply IH.
Qed.

(** ** One observed symbol *)
(** [t'] extends [t]: words keep their states. *)
Definition extends (t t' : tree) : Prop :=
  t_n t ≤ t_n t' ∧ ∀ k to c, bm_get (t_edges t) k = Some (to, c) →
    ∃ c', bm_get (t_edges t') k = Some (to, c').

Lemma extends_walk t t' s w s' : extends t t' → walk (t_edges t) s w = Some s' → walk (t_edges t') s w = Some s'.
Proof.
  intros [_ He]. revert s. induction w as [|a w IH]; intros s H; simpl in *; [done|].
  destruct (bm_get (t_edges t) (s, a)) as [[u c]|] eqn:E; [|done]. simpl in H.
  destruct (He _ _ _ E) as [c' ->]. simpl. auto.
Qed.

Lemma extends_trans t1 t2 t3 : extends t1 t2 → extends t2 t3 → extends t1 t3.
Proof. intros [? H1] [? H2]. split; [lia|]. intros k to c Hg. destruct (H1 _ _ _ Hg). eauto. Qed.

Lemma observe_ok t s a t' s' : tree_ok t → s < t_n t → observe (t, s) a = (t', s') →
  tree_ok t' ∧ extends t t' ∧ s' < t_n t' ∧ walk (t_edges t') s [a] = Some s'.
Proof.
  intros [Hm Hp Hlt Hinj] Hs Hob. unfold observe in Hob.
  destruct (bm_get (t_edges t) (s, a)) as [[u c]|] eqn:E; simplify_eq/=.
  - assert (Hget : ∀ k to d, bm_get (bm_insert (t_edges t) (s, a) (s', N.succ c)) k = Some (to, d) →
      ∃ d', bm_get (t_edges t) k = Some (to, d')).
    { intros k to d. rewrite bm_get_insert by done. case_decide; [intros; simplify_eq|]; eauto. }
    split_and!.
    + split; simpl; [auto|done| |].
      * intros k to d H. apply Hget in H as [d' H]. eauto.
      * intros k k' to d d' H H'. apply Hget in H as [? H]. apply Hget in H' as [? H']. eauto.
    + split; simpl; [done|]. intros k to d H. rewrite bm_get_insert by done.
      case_decide; [simplify_eq|]; eauto.
    + apply Hlt in E. simpl in E. lia.
    + by rewrite bm_get_insert, decide_True.
  - split_and!.
    + split; simpl; [auto|lia| |].
      * intros k to d. rewrite bm_get_insert by done. case_decide.
        -- intros. simplify_eq/=. lia.
        -- intros Hg%Hlt. lia.
      * intros k k' to d d'. rewrite !bm_get_insert by done. repeat case_decide; try congruence.
        -- intros ? H'%Hlt. simplify_eq. lia.
        -- intros H'%Hlt ?. simplify_eq. lia.
        -- eauto.
    + split; simpl; [lia|]. intros k to d H. rewrite bm_get_insert by done.
      case_decide; [congruence|eauto].
    + lia.
    + by rewrite bm_get_insert, decide_True.
Qed.

Lemma observe_all w : ∀ t s t' s', tree_ok t → s < t_n t → foldl observe (t, s) w = (t', s') →
  tree_ok t' ∧ extends t t' ∧ s' < t_n t' ∧ walk (t_edges t') s w = Some s'.
Proof.
  induction w as [|a w IH]; intros t s t' s' Hok Hs H; simpl in H.
  { simplify_eq. split_and!; [done| |done|done]. split; eauto. }
  destruct (observe (t, s) a) as [t1 s1] eqn:E.
  destruct (observe_ok _ _ _ _ _ Hok Hs E) as (Hok1 & Hx1 & Hs1 & Hw1).
  change (foldl observe (observe (t, s) a) w = (t', s')) in H. rewrite E in H.
  destruct (IH _ _ _ _ Hok1 Hs1 H) as (Hok2 & Hx2 & Hs2 & Hw2).
  split_and!; [done|by eapply extends_trans|done|].
  change (a :: w) with ([a] ++ w). rewrite walk_app.
  rewrite (extends_walk _ _ _ _ _ Hx2 Hw1). done.
Qed.

(** ** All traces *)
Definition covered (t : tree) (acc : BTreeSet nat) (traces : list (list Symbol)) : Prop :=
  tree_ok t ∧ (∀ w, w ∈ traces → ∃ s, walk (t_edges t) 0 w = Some s ∧ s ∈ acc) ∧
  (∀ s, s ∈ acc → ∃ w, w ∈ traces ∧ walk (t_edges t) 0 w = Some s).

Lemma observe_traces traces : ∃ t acc,
  foldl observe_trace (mkTree [] 1, []) traces = (t, acc) ∧ covered t acc traces.
Proof.
  induction traces as [|w traces (t & acc & Hf & Hok & Hin & Hout)] using rev_ind.
  { eexists _, _. split; [done|]. split_and!.
    - split; simpl; [constructor|lia|done|done].
    - by intros w ?%elem_of_nil.
    - by intros s ?%elem_of_nil. }
  rewrite foldl_app, Hf. simpl. destruct (foldl observe (t, 0) w) as [t' s] eqn:Eo.
  destruct (observe_all _ _ _ _ _ Hok (tok_pos _ Hok) Eo) as (Hok' & Hx & Hs & Hw).
  eexists _, _. split; [done|]. split_and!; [done| |].
  - intros w' [Hw'| ->%list_elem_of_singleton]%elem_of_app.
    + destruct (Hin _ Hw') as (s' & Hs' & Ha). exists s'. split; [by eapply extends_walk|].
      apply bs_insert_elem. by right.
    + exists s. split; [done|]. apply bs_insert_elem. by left.
  - intros s' [->|Hs']%bs_insert_elem.
    + exists w. split; [|done]. apply elem_of_app. right. by left.
    + destruct (Hout _ Hs') as (w' & Hw' & Hwalk). exists w'.
      split; [apply elem_of_app; by left|by eapply extends_walk].
Qed.

(** * Properties *)

(** The inferred automaton accepts exactly the observed traces: it
    neither forgets a run nor generalizes to one that was not seen. *)
Theorem prefix_tree_exact (traces : list (list Symbol)) (w : list Symbol) :
  fsm_accepts (infer_prefix_tree traces) w = true ↔ w ∈ traces.
Proof.
  unfold fsm_accepts, infer_prefix_tree.
  destruct (observe_traces traces) as (t & acc & -> & Hok & Hin & Hout). simpl. split.
  - destruct (walk (t_edges t) 0 w) as [s|] eqn:Ew; [|done].
    intros Hs%bs_contains_spec. destruct (Hout _ Hs) as (w' & Hw' & Ew').
    by rewrite (walk_inj _ _ Hok _ _ Ew Ew').
  - intros Hw. destruct (Hin _ Hw) as (s & -> & Hs). by apply bs_contains_spec.
Qed.
