(* ===== verification/TrackerVocab.v ===== *)
(** The closed vocabularies of the work-item tracker: [src/tracker/kind.rs],
    [status.rs], [severity.rs], [views.rs], [git_link.rs] and the actors of
    [transition.rs], with the string operations they use. *)

From Stdlib Require Import Ascii.
From stdpp Require Import base strings list gmap.
From S2P Require Import Prelude Text Vocab.

(** * [kind.rs] *)
Inductive WorkItemKind :=
| Plan | Goal | Epic | Task | SubTask | Todo | Fixme | Bug | Idea | Brainstorm | Note
| Question | NiceToHave | ActionItem | Experiment.

#[global] Instance WorkItemKind_eq_dec : EqDecision WorkItemKind.
Proof. solve_decision. Defined.

Definition WorkItemKind_ALL : list WorkItemKind :=
  [Plan; Goal; Epic; Task; SubTask; Todo; Fixme; Bug; Idea; Brainstorm; Note;
   Question; NiceToHave; ActionItem; Experiment].

Definition WorkItemKind_as_str (k : WorkItemKind) : string :=
  match k with
  | Plan => "plan"
  | Goal => "goal"
  | Epic => "epic"
  | Task => "task"
  | SubTask => "sub_task"
  | Todo => "todo"
  | Fixme => "fixme"
  | Bug => "bug"
  | Idea => "idea"
  | Brainstorm => "brainstorm"
  | Note => "note"
  | Question => "question"
  | NiceToHave => "nice_to_have"
  | ActionItem => "action_item"
  | Experiment => "experiment"
  end.

#[global] Instance WorkItemKind_vocab : Vocab WorkItemKind.
Proof. refine {| vocab_all := WorkItemKind_ALL; as_str := WorkItemKind_as_str |}; solve_vocab. Defined.

(** * [status.rs] *)
Inductive WorkItemStatus :=
| Pending | Triage | Confirmed | Ready | InProgress | Blocked | ClaimedDone | Verifying
| Verified | Rejected | Deferred | Cancelled.

#[global] Instance WorkItemStatus_eq_dec : EqDecision WorkItemStatus.
Proof. solve_decision. Defined.

Definition WorkItemStatus_ALL : list WorkItemStatus :=
  [Pending; Triage; Confirmed; Ready; InProgress; Blocked; ClaimedDone; Verifying;
   Verified; Rejected; Deferred; Cancelled].

Definition WorkItemStatus_as_str (s : WorkItemStatus) : string :=
  match s with
  | Pending => "pending"
  | Triage => "triage"
  | Confirmed => "confirmed"
  | Ready => "ready"
  | InProgress => "in_progress"
  | Blocked => "blocked"
  | ClaimedDone => "claimed_done"
  | Verifying => "verifying"
  | Verified => "verified"
  | Rejected => "rejected"
  | Deferred => "deferred"
  | Cancelled => "cancelled"
  end.

#[global] Instance WorkItemStatus_vocab : Vocab WorkItemStatus.
Proof. refine {| vocab_all := WorkItemStatus_ALL; as_str := WorkItemStatus_as_str |}; solve_vocab. Defined.

Definition is_verified (s : WorkItemStatus) : bool :=
  match s with Verified => true | _ => false end.

Definition is_excluded_from_rollup (s : WorkItemStatus) : bool :=
  match s with Deferred | Cancelled => true | _ => false end.

(** * [severity.rs] *)
Inductive Severity := Critical | High | Medium | Low.

#[global] Instance Severity_eq_dec : EqDecision Severity.
Proof. solve_decision. Defined.

Definition Severity_ALL : list Severity := [Critical; High; Medium; Low].

Definition Severity_as_str (s : Severity) : string :=
  match s with Critical => "critical" | High => "high" | Medium => "medium" | Low => "low" end.

#[global] Instance Severity_vocab : Vocab Severity.
Proof. refine {| vocab_all := Severity_ALL; as_str := Severity_as_str |}; solve_vocab. Defined.

(** [Severity::rank] and [Severity::default_priority] *)
Definition severity_impact_rank (s : Severity) : Z :=
  match s with Critical => 4 | High => 3 | Medium => 2 | Low => 1 end.

Definition default_priority (s : Severity) : Z :=
  match s with Critical => 90 | High => 70 | Medium => 40 | Low => 20 end.

Inductive BugResolution := Fixed | WontFix | Duplicate | CannotReproduce | ByDesign.

#[global] Instance BugResolution_eq_dec : EqDecision BugResolution.
Proof. solve_decision. Defined.

Definition BugResolution_ALL : list BugResolution :=
  [Fixed; WontFix; Duplicate; CannotReproduce; ByDesign].

Definition BugResolution_as_str (r : BugResolution) : string :=
  match r with
  | Fixed => "fixed"
  | WontFix => "wont_fix"
  | Duplicate => "duplicate"
  | CannotReproduce => "cannot_reproduce"
  | ByDesign => "by_design"
  end.

#[global] Instance BugResolution_vocab : Vocab BugResolution.
Proof. refine {| vocab_all := BugResolution_ALL; as_str := BugResolution_as_str |}; solve_vocab. Defined.

Definition is_user_settable (r : BugResolution) : bool :=
  match r with Fixed => false | _ => true end.

(** * [views.rs] *)
Inductive SmartView := MyWork | NeedsTriage | Overdue | BlockedView | NextActionable.

#[global] Instance SmartView_eq_dec : EqDecision SmartView.
Proof. solve_decision. Defined.

Definition SmartView_ALL : list SmartView := [MyWork; NeedsTriage; Overdue; BlockedView; NextActionable].

Definition SmartView_as_str (v : SmartView) : string :=
  match v with
  | MyWork => "my-work"
  | NeedsTriage => "needs-triage"
  | Overdue => "overdue"
  | BlockedView => "blocked"
  | NextActionable => "next-actionable"
  end.

#[global] Instance SmartView_vocab : Vocab SmartView.
Proof. refine {| vocab_all := SmartView_ALL; as_str := SmartView_as_str |}; solve_vocab. Defined.

Inductive BulkOp := SetStatus | Tag | Untag | Reprioritize | Assign.

#[global] Instance BulkOp_eq_dec : EqDecision BulkOp.
Proof. solve_decision. Defined.

Definition BulkOp_ALL : list BulkOp := [SetStatus; Tag; Untag; Reprioritize; Assign].

Definition BulkOp_as_str (op : BulkOp) : string :=
  match op with
  | SetStatus => "set_status"
  | Tag => "tag"
  | Untag => "untag"
  | Reprioritize => "reprioritize"
  | Assign => "assign"
  end.

#[global] Instance BulkOp_vocab : Vocab BulkOp.
Proof. refine {| vocab_all := BulkOp_ALL; as_str := BulkOp_as_str |}; solve_vocab. Defined.

(** * [git_link.rs] *)
Inductive GitLinkType := Commit | Pr | BranchLink.

#[global] Instance GitLinkType_eq_dec : EqDecision GitLinkType.
Proof. solve_decision. Defined.

Definition GitLinkType_ALL : list GitLinkType := [Commit; Pr; BranchLink].

Definition GitLinkType_as_str (t : GitLinkType) : string :=
  match t with Commit => "commit" | Pr => "pr" | BranchLink => "branch" end.

#[global] Instance GitLinkType_vocab : Vocab GitLinkType.
Proof. refine {| vocab_all := GitLinkType_ALL; as_str := GitLinkType_as_str |}; solve_vocab. Defined.

Inductive FindingSource :=
| BugPrediction | DocumentedTechDebt | DeadlockCycle | ChannelDeadlock | SecurityScan | SelfImprovement.

#[global] Instance FindingSource_eq_dec : EqDecision FindingSource.
Proof. solve_decision. Defined.

Definition FindingSource_ALL : list FindingSource :=
  [BugPrediction; DocumentedTechDebt; DeadlockCycle; ChannelDeadlock; SecurityScan; SelfImprovement].

Definition FindingSource_as_str (f : FindingSource) : string :=
  match f with
  | BugPrediction => "bug_prediction"
  | DocumentedTechDebt => "documented_tech_debt"
  | DeadlockCycle => "deadlock_cycle"
  | ChannelDeadlock => "channel_deadlock"
  | SecurityScan => "security_scan"
  | SelfImprovement => "self_improvement"
  end.

#[global] Instance FindingSource_vocab : Vocab FindingSource.
Proof. refine {| vocab_all := FindingSource_ALL; as_str := FindingSource_as_str |}; solve_vocab. Defined.

(** [FindingSource::item_kind] *)
Definition item_kind (f : FindingSource) : string :=
  match f with
  | BugPrediction => "bug"
  | DocumentedTechDebt => "fixme"
  | DeadlockCycle | ChannelDeadlock => "bug"
  | SecurityScan => "bug"
  | SelfImprovement => "idea"
  end.

(** [GitLinkType::infer_from_ref] *)
Definition infer_from_ref (ref_value : string) : GitLinkType :=
  let v := trim ref_value in
  let digits := match v with String "#"%char rest => rest | _ => v end in
  if bool_decide (digits ≠ "") && all_bytes is_ascii_digit digits then Pr
  else if (7 <=? String.length v) && all_bytes is_ascii_hexdigit v then Commit
  else BranchLink.

(** * The actors of [transition.rs] *)
Inductive Actor := User | Agent | Gatekeeper | System.

#[global] Instance Actor_eq_dec : EqDecision Actor.
Proof. solve_decision. Defined.

Definition Actor_as_str (a : Actor) : string :=
  match a with User => "user" | Agent => "agent" | Gatekeeper => "gatekeeper" | System => "system" end.

(** [Actor::parse]: a match on the string, not a search in [ALL]. *)
Definition Actor_parse (s : string) : option Actor :=
  if decide (s = "user") then Some User
  else if decide (s = "agent") then Some Agent
  else if decide (s = "gatekeeper") then Some Gatekeeper
  else if decide (s = "system") then Some System
  else None.

(** * Properties *)

(** The vocabularies that back a database CHECK constraint: the SQL list
    denotes exactly the wire forms, so a value passes the constraint if and
    only if it parses. *)
Lemma sql_list_exact {A} `{Vocab A} (s : string) :
  Forall (fun x => no_quote x = true) (as_str <$> (vocab_all : list A)) →
  s ∈ sql_values (@sql_in_list A _) ↔ is_Some (parse (A := A) s).
Proof.
  intros Hq. unfold sql_in_list. rewrite sql_values_join_quoted by done. split.
  - intros (x & -> & _)%list_elem_of_fmap. rewrite parse_complete. by eexists.
  - intros [x Hx]. apply parse_sound in Hx as <-. apply list_elem_of_fmap_2, vocab_complete.
Qed.

(** The vocabularies stored in the database ([kind], [status],
    [severity], bug resolution, git link type, finding source) cannot drift
    from their CHECK constraints: a string is among the values of the
    generated SQL list if and only if [parse] accepts it, and [parse] is the
    inverse of [as_str]. *)
Theorem stored_vocabularies_checked (s : string) :
  (s ∈ sql_values (@sql_in_list WorkItemKind _) ↔ is_Some (parse (A := WorkItemKind) s)) ∧
  (s ∈ sql_values (@sql_in_list WorkItemStatus _) ↔ is_Some (parse (A := WorkItemStatus) s)) ∧
  (s ∈ sql_values (@sql_in_list Severity _) ↔ is_Some (parse (A := Severity) s)) ∧
  (s ∈ sql_values (@sql_in_list BugResolution _) ↔ is_Some (parse (A := BugResolution) s)) ∧
  (s ∈ sql_values (@sql_in_list GitLinkType _) ↔ is_Some (parse (A := GitLinkType) s)) ∧
  (s ∈ sql_values (@sql_in_list FindingSource _) ↔ is_Some (parse (A := FindingSource) s)) ∧
  (∀ k : WorkItemKind, parse (as_str k) = Some k) ∧
  (∀ st : WorkItemStatus, parse (as_str st) = Some st) ∧
  (∀ a : Actor, Actor_parse (Actor_as_str a) = Some a) ∧
  (∀ f : FindingSource, is_Some (parse (A := WorkItemKind) (item_kind f))).
Proof.
  split_and!; try (apply sql_list_exact; repeat constructor); try (intros; apply parse_complete).
  - by intros [].
  - intros []; vm_compute; by eexists.
Qed.

(** [infer_from_ref] reads the references it documents: a number, with
    or without a leading [#], is a PR; seven or more hex digits that are not
    all decimal are a commit; and what it calls a commit is hexadecimal and
    at least seven long. *)
Theorem infer_from_ref_shapes (v : string) :
  (infer_from_ref v = Commit →
     7 ≤ String.length (trim v) ∧ all_bytes is_ascii_hexdigit (trim v) = true ∧
     all_bytes is_ascii_digit (trim v) = false) ∧
  (infer_from_ref v = Pr ↔
     ∃ ds, ds ≠ "" ∧ all_bytes is_ascii_digit ds = true ∧
           (trim v = ds ∨ trim v = String "#" ds)).
Proof.
  unfold infer_from_ref. set (t := trim v).
  set (digits := match t with String "#"%char rest => rest | _ => t end).
  assert (Hd : t = digits ∨ t = String "#" digits).
  { unfold digits. destruct t as [|c t']; [by left|]. destruct c as [[] [] [] [] [] [] [] []]; auto. }
  assert (Hno : ∀ ds, ds ≠ "" → all_bytes is_ascii_digit ds = true →
    t = ds ∨ t = String "#" ds → digits = ds).
  { intros ds Hne Hall [->| ->]; [|done]. unfold digits. destruct ds as [|c ds]; [done|].
    simpl in Hall. apply andb_true_iff in Hall as [Hc _].
    destruct c as [[] [] [] [] [] [] [] []]; done. }
  destruct (bool_decide (digits ≠ "") && all_bytes is_ascii_digit digits) eqn:E.
  - apply andb_true_iff in E as [Hne%bool_decide_eq_true Hall]. split; [done|].
    split; [|done]. intros _. by exists digits.
  - assert (Hnp : ¬ ∃ ds, ds ≠ "" ∧ all_bytes is_ascii_digit ds = true ∧ (t = ds ∨ t = String "#" ds)).
    { intros (ds & Hne & Hall & Ht). rewrite (Hno ds Hne Hall Ht) in E.
      by rewrite bool_decide_eq_true_2, Hall in E. }
    destruct ((7 <=? String.length t) && all_bytes is_ascii_hexdigit t) eqn:E2.
    + apply andb_true_iff in E2 as [Hlen%Nat.leb_le Hhex]. split; [|split; [done|tauto]].
      intros _. split_and!; [done|done|]. apply not_true_iff_false. intros Hdig.
      apply Hnp. exists t. split_and!; [|done|by left]. intros ->. simpl in Hlen. lia.
    + split; [done|]. split; [done|tauto].
Qed.
