(* ===== verification/TrackerTransition.v ===== *)
(** [src/tracker/transition.rs] and [src/tracker/auto_transition.rs]: the
    work-item status machine with its actor and evidence gates, as a function
    and as a step relation, and the policy for commit references. *)

From stdpp Require Import base strings list gmap.
From S2P Require Import Prelude Vocab TrackerVocab.

(** * [transition.rs] *)
Record TransitionContext := mkCtx {
  evidence_passing : bool;
  evidence_present : bool;
  user_negotiation : bool;
}.

(** [TransitionContext::default()] *)
Definition ctx_default : TransitionContext := mkCtx false false false.

Inductive TransitionError :=
| NoOp (status : WorkItemStatus)
| Illegal (from to : WorkItemStatus)
| Unauthorized (from to : WorkItemStatus) (actor : Actor)
| EvidenceRequired (to : WorkItemStatus)
| EvidenceMissingForRejection
| NegotiationRequired.

(** [TransitionError::message] *)
Definition transition_message (e : TransitionError) : string :=
  match e with
  | NoOp status => "item is already '" +:+ as_str status +:+ "'"
  | Illegal from to => "no transition '" +:+ as_str from +:+ "' → '" +:+ as_str to +:+ "' exists"
  | Unauthorized from to actor =>
      "actor '" +:+ Actor_as_str actor +:+ "' may not transition '" +:+ as_str from +:+
      "' → '" +:+ as_str to +:+ "'"
  | EvidenceRequired to =>
      "'" +:+ as_str to +:+ "' is reached only by submitting passing acceptance evidence " +:+
      "via record_evidence (agents cannot self-verify)"
  | EvidenceMissingForRejection => "'rejected' requires a failing verification_evidence row"
  | NegotiationRequired => "'deferred' requires a user scope negotiation; agents cannot self-defer"
  end%string.

Definition UAS : list Actor := [User; Agent; System].
Definition UA : list Actor := [User; Agent].
Definition AU : list Actor := [Agent; User].
Definition U : list Actor := [User].
Definition G : list Actor := [Gatekeeper].

(** The transition matrix. *)
Definition legal_actors (from to : WorkItemStatus) : list Actor :=
  match from, to with
  | Pending, Ready => UAS
  | Pending, InProgress => UA
  | Pending, Blocked => UA
  | Pending, Triage => UA
  | Pending, Deferred => U
  | Pending, Cancelled => U
  | Triage, Confirmed => U
  | Triage, Blocked => UA
  | Triage, Deferred => U
  | Triage, Cancelled => U
  | Confirmed, InProgress => UA
  | Confirmed, Ready => UAS
  | Confirmed, Blocked => UAS
  | Confirmed, Deferred => U
  | Confirmed, Cancelled => U
  | Ready, InProgress => UA
  | Ready, Blocked => UAS
  | Ready, Deferred => U
  | Ready, Cancelled => U
  | InProgress, Blocked => UAS
  | InProgress, ClaimedDone => AU
  | InProgress, Verifying => UA
  | InProgress, Deferred => U
  | InProgress, Cancelled => U
  | Blocked, Ready => UAS
  | Blocked, InProgress => UAS
  | Blocked, Deferred => U
  | Blocked, Cancelled => U
  | ClaimedDone, InProgress => UA
  | ClaimedDone, Verifying => UAS
  | ClaimedDone, Verified => G
  | ClaimedDone, Rejected => G
  | ClaimedDone, Deferred => U
  | ClaimedDone, Cancelled => U
  | Verifying, InProgress => UA
  | Verifying, Verified => G
  | Verifying, Rejected => G
  | Verifying, Deferred => U
  | Verifying, Cancelled => U
  | Verified, InProgress => UA
  | Verified, Triage => UA
  | Verified, Cancelled => U
  | Rejected, InProgress => UA
  | Rejected, Blocked => UA
  | Rejected, ClaimedDone => AU
  | Rejected, Verifying => UA
  | Rejected, Deferred => U
  | Rejected, Cancelled => U
  | Deferred, InProgress => U
  | Deferred, Cancelled => U
  | Cancelled, InProgress => U
  | Cancelled, Triage => U
  | _, _ => []
  end.

Definition check_transition (from to : WorkItemStatus) (actor : Actor) (ctx : TransitionContext) :
    outcome TransitionError unit :=
  if decide (from = to) then Err (NoOp from)
  else
    let allowed := legal_actors from to in
    if decide (allowed = []) then Err (Illegal from to)
    else if decide (actor ∉ allowed) then Err (Unauthorized from to actor)
    else match to with
    | Verified => if evidence_passing ctx then Ok tt else Err (EvidenceRequired to)
    | Rejected => if evidence_present ctx then Ok tt else Err EvidenceMissingForRejection
    | Deferred => if user_negotiation ctx then Ok tt else Err NegotiationRequired
    | _ => Ok tt
    end.

(** * [auto_transition.rs] *)
Definition next_auto_status (from : WorkItemStatus) (is_closing : bool) : option WorkItemStatus :=
  match from, is_closing with
  | InProgress, true => Some ClaimedDone
  | InProgress, false => None
  | (Pending | Confirmed | Ready | Blocked), _ => Some InProgress
  | _, _ => None
  end.

(** * The machine as a step relation *)

(** One authorized status change. *)
Inductive status_step : WorkItemStatus → Actor → TransitionContext → WorkItemStatus → Prop :=
| step_checked from to actor ctx :
    check_transition from to actor ctx = Ok tt → status_step from actor ctx to.

(** A history: who moved the item, with what on hand, and where to. *)
Record move := mkMove { mv_actor : Actor; mv_ctx : TransitionContext; mv_to : WorkItemStatus }.

Inductive history : WorkItemStatus → list move → WorkItemStatus → Prop :=
| history_nil s : history s [] s
| history_cons s m ms s' :
    status_step s (mv_actor m) (mv_ctx m) (mv_to m) → history (mv_to m) ms s' →
    history s (m :: ms) s'.

(** What the gates ask for a target status. *)
Definition gate (to : WorkItemStatus) (ctx : TransitionContext) : bool :=
  match to with
  | Verified => evidence_passing ctx
  | Rejected => evidence_present ctx
  | Deferred => user_negotiation ctx
  | _ => true
  end.

Lemma check_transition_Ok from to actor ctx :
  check_transition from to actor ctx = Ok tt ↔
  from ≠ to ∧ actor ∈ legal_actors from to ∧ gate to ctx = true.
Proof.
  unfold check_transition. destruct (decide (from = to)) as [|Hne]; [naive_solver|].
  destruct (decide (legal_actors from to = [])) as [->|Hl].
  { split; [done|]. by intros (_ & ?%elem_of_nil & _). }
  destruct (decide (actor ∉ legal_actors from to)) as [|Ha]; [naive_solver|].
  apply dec_stable in Ha. unfold gate. destruct to; repeat case_match; naive_solver.
Qed.

(** The last move of a history, with the status it was made from. *)
Lemma history_last s ms s' : history s ms s' → ms ≠ [] →
  ∃ ms0 m mid, ms = ms0 ++ [m] ∧ mv_to m = s' ∧ history s ms0 mid ∧
               status_step mid (mv_actor m) (mv_ctx m) s'.
Proof.
  induction 1 as [s|s m ms s' Hst Hh IH]; [done|]. intros _.
  destruct ms as [|m' ms].
  - inversion Hh; subst. exists [], m, s. split_and!; [done|done|constructor|done].
  - destruct IH as (ms0 & m1 & mid & E & Hm1 & Hh0 & Hs); [done|].
    exists (m :: ms0), m1, mid. rewrite E. split_and!; [done|done|by econstructor|done].
Qed.

Lemma history_app s ms s' ms' s'' : history s ms s' → history s' ms' s'' → history s (ms ++ ms') s''.
Proof. induction 1; [done|]. intros. simpl. econstructor; eauto. Qed.

(** The judgment statuses. *)
Definition judgment (s : WorkItemStatus) : bool :=
  match s with Verified | Rejected | Deferred | Cancelled | Confirmed => true | _ => false end.

Lemma judgment_needs_authority from to : judgment to = true → from ≠ to →
  Agent ∉ legal_actors from to ∧ System ∉ legal_actors from to.
Proof. destruct from, to; try done; intros _ _; split; set_solver. Qed.

(** * Properties *)

(** [check_transition] decides exactly: it accepts a change if and only
    if the statuses differ, the actor is in the matrix cell and the evidence
    or negotiation gate of the target holds; and every refusal names its
    cause: no-op, no such transition, wrong actor, or missing evidence. *)
Theorem check_transition_exact (from to : WorkItemStatus) (actor : Actor) (ctx : TransitionContext) :
  (check_transition from to actor ctx = Ok tt ↔
     from ≠ to ∧ actor ∈ legal_actors from to ∧ gate to ctx = true) ∧
  (∀ e, check_transition from to actor ctx = Err e →
     match e with
     | NoOp s => from = to ∧ s = from
     | Illegal f t => from ≠ to ∧ legal_actors from to = [] ∧ f = from ∧ t = to
     | Unauthorized f t a =>
         legal_actors from to ≠ [] ∧ actor ∉ legal_actors from to ∧ f = from ∧ t = to ∧ a = actor
     | EvidenceRequired t => to = Verified ∧ t = Verified ∧ evidence_passing ctx = false
     | EvidenceMissingForRejection => to = Rejected ∧ evidence_present ctx = false
     | NegotiationRequired => to = Deferred ∧ user_negotiation ctx = false
     end) ∧
  returns (check_transition from to actor ctx).
Proof.
  split_and!.
  - apply check_transition_Ok.
  - intros e. unfold check_transition. destruct (decide (from = to)); [by intros [= <-]|].
    destruct (decide (legal_actors from to = [])); [by intros [= <-]|].
    destruct (decide (actor ∉ legal_actors from to)); [by intros [= <-]|].
    destruct to; repeat case_match; intros; by simplify_eq.
  - unfold check_transition. repeat (case_decide; auto with outcome).
    destruct to; repeat case_match; auto with outcome.
Qed.

(** C5: agents cannot judge their own work.  In any history, of any length,
    whose moves are all made by agents and the system, whatever evidence is
    on hand, an item that does not start in one of the judgment statuses
    (verified, rejected, deferred, cancelled, confirmed) never enters one. *)
Theorem agents_never_judge (s s' : WorkItemStatus) (ms : list move)
    (Hh : history s ms s')
    (Hactors : Forall (fun m => mv_actor m = Agent ∨ mv_actor m = System) ms)
    (Hs : judgment s = false) :
  judgment s' = false ∧ Forall (fun m => judgment (mv_to m) = false) ms.
Proof.
  induction Hh as [s|s m ms s' Hst Hh IH]; [done|].
  apply Forall_cons in Hactors as [Ha Hactors].
  assert (Hm : judgment (mv_to m) = false).
  { apply not_true_iff_false. intros Hj. inversion Hst as [? ? ? ? Hok]; subst.
    apply check_transition_Ok in Hok as (Hne & Hin & _).
    destruct (judgment_needs_authority _ _ Hj Hne). destruct Ha as [Ha|Ha]; by rewrite Ha in Hin. }
  destruct (IH Hactors Hm). auto.
Qed.

(** C6: the only way into [verified] is the gatekeeper with passing
    evidence, from a claimed or verifying item: in every history that ends
    verified and did not start so, the last move is the gatekeeper's, with
    evidence passing, out of [claimed_done] or [verifying]. *)
Theorem verified_only_by_gatekeeper (s : WorkItemStatus) (ms : list move)
    (Hh : history s ms Verified) (Hs : s ≠ Verified) :
  ∃ ms0 m mid, ms = ms0 ++ [m] ∧ history s ms0 mid ∧ (mid = ClaimedDone ∨ mid = Verifying) ∧
    mv_actor m = Gatekeeper ∧ evidence_passing (mv_ctx m) = true.
Proof.
  destruct (history_last _ _ _ Hh) as (ms0 & m & mid & -> & _ & H0 & Hst).
  { intros ->. by inversion Hh; subst. }
  inversion Hst as [? ? ? ? Hok]; subst. apply check_transition_Ok in Hok as (_ & Hin & Hg).
  exists ms0, m, mid. split; [done|]. split; [done|].
  destruct mid; simpl in Hin; try (by apply elem_of_nil in Hin);
    apply list_elem_of_singleton in Hin; auto.
Qed.

(** The commit policy stays inside the matrix: every status
    [next_auto_status] returns is one an agent may move to from there, without
    any evidence, and is never a judgment status; and repeating it (the same
    item referenced again and again) ends after at most two moves. *)
Theorem auto_status_legal (from to : WorkItemStatus) (closing : bool)
    (Hn : next_auto_status from closing = Some to) :
  check_transition from to Agent ctx_default = Ok tt ∧ judgment to = false ∧
  (∀ to' closing', next_auto_status to closing' = Some to' → to = InProgress ∧ to' = ClaimedDone ∧
     next_auto_status to' closing' = None).
Proof.
  destruct from, closing; simplify_eq/=; (split; [reflexivity|]); (split; [reflexivity|]);
    intros to' []; intros; simplify_eq/=; done.
Qed.

(** C36: no work item is stuck: from every status there is a history, made by
    the user and the gatekeeper, that ends in [verified]. *)
Theorem verified_reachable (s : WorkItemStatus) :
  ∃ ms, history s ms Verified ∧ Forall (fun m => mv_actor m = User ∨ mv_actor m = Gatekeeper) ms.
Proof.
  set (u to := mkMove User ctx_default to).
  set (v := mkMove Gatekeeper (mkCtx true true false) Verified).
  destruct s;
    [ exists [u InProgress; u ClaimedDone; v]
    | exists [u Confirmed; u InProgress; u ClaimedDone; v]
    | exists [u InProgress; u ClaimedDone; v]
    | exists [u InProgress; u ClaimedDone; v]
    | exists [u ClaimedDone; v]
    | exists [u InProgress; u ClaimedDone; v]
    | exists [v]
    | exists [v]
    | exists []
    | exists [u InProgress; u ClaimedDone; v]
    | exists [u InProgress; u ClaimedDone; v]
    | exists [u InProgress; u ClaimedDone; v] ];
    (split; [repeat (econstructor; try reflexivity)|
      repeat (apply Forall_cons; split; [simpl; auto|]); apply Forall_nil_2]).
Qed.

(** The triage gate can be bypassed: although [confirmed] is user-only,
    an agent alone takes a reported bug from [triage] through [blocked] to
    [in_progress] and [claimed_done], and once the item is [blocked] a commit
    reference moves it on. *)
Theorem triage_bypassed_by_agent :
  history Triage [mkMove Agent ctx_default Blocked; mkMove Agent ctx_default InProgress;
                  mkMove Agent ctx_default ClaimedDone] ClaimedDone ∧
  next_auto_status Blocked false = Some InProgress.
Proof. split; [repeat (econstructor; try reflexivity)|reflexivity]. Qed.

(** * Instances *)
Lemma agents_never_judge_witness :
  judgment Verifying = false ∧
  Forall (fun m => judgment (mv_to m) = false)
    [mkMove Agent ctx_default InProgress; mkMove Agent ctx_default Verifying].
Proof.
  apply (agents_never_judge Pending Verifying
    [mkMove Agent ctx_default InProgress; mkMove Agent ctx_default Verifying]).
  - repeat (econstructor; try reflexivity).
  - repeat constructor; auto.
  - reflexivity.
Defined.

Lemma verified_only_by_gatekeeper_witness :
  ∃ ms0 m mid, [mkMove Agent ctx_default ClaimedDone; mkMove Gatekeeper (mkCtx true true false) Verified]
    = ms0 ++ [m] ∧ history InProgress ms0 mid ∧ (mid = ClaimedDone ∨ mid = Verifying) ∧
    mv_actor m = Gatekeeper ∧ evidence_passing (mv_ctx m) = true.
Proof.
  apply (verified_only_by_gatekeeper InProgress); [|discriminate].
  repeat (econstructor; try reflexivity).
Defined.

Lemma auto_status_legal_witness :
  check_transition InProgress ClaimedDone Agent ctx_default = Ok tt ∧ judgment ClaimedDone = false.
Proof.
  destruct (auto_status_legal InProgress ClaimedDone true eq_refl) as (H1 & H2 & _).
  split; [exact H1|exact H2].
Defined.
