(* ===== verification/TrackerIngest.v ===== *)
(** [src/tracker/ingest.rs]: parsing a markdown plan into a flat list of nodes
    with parent links.  [src/tracker/commit_ref.rs]: the work items a commit
    message refers to.

    The regular expressions are the [regex] crate's: the captures they give are
    parameters, one function per expression.  Every group the parser reads
    takes part in every match of its expression. *)

From Stdlib Require Import Ascii.
From stdpp Require Import base strings list gmap.
From S2P Require Import Prelude Text Vocab TrackerVocab TrackerTransition.

(** * Strings *)

(** [s.split(sep).next()]: what precedes the first [sep], or all of [s]. *)
Fixpoint split_head (sep s : string) : string :=
  if starts_with s sep then EmptyString
  else match s with EmptyString => EmptyString | String c s' => String c (split_head sep s') end.

(** [str::trim_start_matches] with an array of ASCII characters. *)
Fixpoint trim_start_chars (cs : list ascii) (s : string) : string :=
  match s with
  | String c s' => if decide (c ∈ cs) then trim_start_chars cs s' else s
  | EmptyString => EmptyString
  end.

(** * [ingest.rs] *)
Record ParsedAcceptance := mkAcceptance {
  criterion_kind : string;
  description : string;
  acceptance_uri : option string;
}.

Record ParsedNode := mkNode {
  node_kind : WorkItemKind;
  node_title : string;
  node_body : option string;
  node_depth : nat;
  parent_index : option nat;
  seed_claimed_done : bool;
  node_parametric : bool;
  parametric_corpus : option string;
  acceptance : list ParsedAcceptance;
}.

(** Heading level to work-item kind. *)
Definition heading_kind (level : nat) : WorkItemKind :=
  match level with 1 => Plan | 2 => Epic | 3 => Task | _ => SubTask end.

(** Derive an acceptance-criterion kind from a URI scheme. *)
Definition criterion_kind_for (uri : string) : string :=
  let scheme := split_head "://" uri in
  if decide (scheme = "lean" ∨ scheme = "rocq") then "proof"
  else if decide (scheme = "tla") then "model_check"
  else if decide (scheme = "smt2" ∨ scheme = "smt") then "smt"
  else if decide (scheme = "shell") then "script"
  else if decide (scheme = "auditor") then "auditor_verdict"
  else if decide (scheme = "experiment") then "experiment_verdict"
  else "test".

(** The locals of [parse_plan]; the top of [stack] comes first. *)
Record PlanState := mkPlan {
  nodes : list ParsedNode;
  stack : list (nat * nat);
  current_heading_level : nat;
  last_index : option nat;
}.

Definition plan_start : PlanState := mkPlan [] [] 0 None.

(** The loop of [push_node]. *)
Fixpoint pop_stack (depth : nat) (stk : list (nat * nat)) : list (nat * nat) :=
  match stk with
  | (d, i) :: rest => if depth <=? d then pop_stack depth rest else stk
  | [] => []
  end.

(** [push_node], and [last_index = Some(idx)] that follows every call. *)
Definition push_node (st : PlanState) (depth : nat) (node : ParsedNode) : PlanState :=
  let stk := pop_stack depth (stack st) in
  let idx := length (nodes st) in
  let node := mkNode (node_kind node) (node_title node) (node_body node) depth (snd <$> head stk)
    (seed_claimed_done node) (node_parametric node) (parametric_corpus node) (acceptance node) in
  mkPlan (nodes st ++ [node]) ((depth, idx) :: stk) (current_heading_level st) (Some idx).

Definition set_level (st : PlanState) (level : nat) : PlanState :=
  mkPlan (nodes st) (stack st) level (last_index st).

(** A mutation of [nodes[i]]; an index out of range panics. *)
Definition update_node (st : PlanState) (i : nat) (f : ParsedNode → ParsedNode) :
    outcome Empty_set PlanState :=
  if decide (i < length (nodes st))
  then Ok (mkPlan (alter f i (nodes st)) (stack st) (current_heading_level st) (last_index st))
  else Panic.

(** [nodes[i].acceptance.push(a)] *)
Definition push_acceptance (a : ParsedAcceptance) (n : ParsedNode) : ParsedNode :=
  mkNode (node_kind n) (node_title n) (node_body n) (node_depth n) (parent_index n)
    (seed_claimed_done n) (node_parametric n) (parametric_corpus n) (acceptance n ++ [a]).

(** Append a line of prose to the body. *)
Definition push_prose (prose : string) (n : ParsedNode) : ParsedNode :=
  let body := match node_body n with
              | Some b => b +:+ String newline prose
              | None => prose
              end in
  mkNode (node_kind n) (node_title n) (Some body) (node_depth n) (parent_index n)
    (seed_claimed_done n) (node_parametric n) (parametric_corpus n) (acceptance n).

Definition fresh_node (kind : WorkItemKind) (title : string) (depth : nat) (done parametric : bool) :
    ParsedNode :=
  mkNode kind title None depth None done parametric None [].

Section parse_plan.
(** [str::to_lowercase] and the captures of the five expressions. *)
Context (lower : string → string).
Context (heading_caps : string → option (string * string)).
Context (checklist_caps : string → option (string * string * string)).
Context (numbered_caps : string → option (string * string)).
Context (acceptance_caps marker_caps : string → option string).

(** Universal-quantifier phrasing. *)
Definition detect_parametric (text : string) : bool :=
  let l := lower text in
  str_contains l "feature parity" || str_contains l "byte-equal" ||
  existsb (fun w => bool_decide (w = "all" ∨ w = "every" ∨ w = "each")) (split_whitespace l).

Definition parse_acceptance (capture : string) : ParsedAcceptance :=
  let val := trim capture in
  let uri := if str_contains val "://" then Some val else None in
  mkAcceptance (default "test" (criterion_kind_for <$> uri)) val uri.

(** The body of the loop over the lines. *)
Definition plan_line (st : PlanState) (raw : string) : outcome Empty_set PlanState :=
  let line := trim_end raw in
  if decide (trim line = "") then Ok st
  else match heading_caps line with
  | Some (hashes, text) =>
      let level := String.length hashes in
      let title := trim text in
      Ok (push_node (set_level st level) level
            (fresh_node (heading_kind level) title level false (detect_parametric title)))
  | None =>
  match checklist_caps line with
  | Some (indent, mark, text) =>
      let checked := bool_decide (mark ≠ " ") in
      let title := trim text in
      let depth := current_heading_level st + 1 + String.length indent / 2 in
      Ok (push_node st depth (fresh_node Todo title depth checked (detect_parametric title)))
  | None =>
  match numbered_caps line with
  | Some (indent, text) =>
      let title := trim text in
      let depth := current_heading_level st + 1 + String.length indent / 2 in
      Ok (push_node st depth (fresh_node SubTask title depth false (detect_parametric title)))
  | None =>
  match acceptance_caps line with
  | Some capture =>
      match last_index st with
      | Some i => update_node st i (push_acceptance (parse_acceptance capture))
      | None => Ok st
      end
  | None =>
  match marker_caps line with
  | Some marker =>
      let kind := if decide (marker = "TODO") then Todo else Fixme in
      let title := trim (trim_start_chars ["-"; "*"; "+"; " "; "#"]%char line) in
      let depth := current_heading_level st + 1 in
      Ok (push_node st depth (fresh_node kind title depth false false))
  | None =>
      match last_index st with
      | Some i => update_node st i (push_prose (trim line))
      | None => Ok st
      end
  end end end end end.

Definition parse_plan (markdown : string) : outcome Empty_set (list ParsedNode) :=
  let* st := ofold plan_line plan_start (lines markdown) in Ok (nodes st).
End parse_plan.

(** ** The outline the parents describe *)

(** [p] is the last of the nodes, of depths [ds], that is shallower than [d];
    [None] when there is none. *)
Definition is_parent (ds : list nat) (d : nat) (p : option nat) : Prop :=
  match p with
  | Some j => (∃ dj, ds !! j = Some dj ∧ dj < d) ∧ ∀ k dk, j < k → ds !! k = Some dk → d ≤ dk
  | None => ∀ k dk, ds !! k = Some dk → d ≤ dk
  end.

(** What the outline depends on. *)
Definition shape (n : ParsedNode) : nat * option nat := (node_depth n, parent_index n).

Definition outline (shs : list (nat * option nat)) : Prop :=
  ∀ i d p, shs !! i = Some (d, p) → is_parent (take i shs.*1) d p.

Record plan_ok (st : PlanState) : Prop := {
  pl_outline : outline (shape <$> nodes st);
  pl_stack : ∀ d, is_parent (node_depth <$> nodes st) d (snd <$> head (pop_stack d (stack st)));
  pl_last : ∀ i, last_index st = Some i → i < length (nodes st);
  pl_seed : Forall (fun n => seed_claimed_done n = true → node_kind n = Todo) (nodes st);
}.

Lemma pop_pop d d' stk : d ≤ d' → pop_stack d (pop_stack d' stk) = pop_stack d stk.
Proof.
  intros Hd. induction stk as [|[e i] stk IH]; simpl; [done|].
  destruct (Nat.leb_spec d' e).
  - rewrite IH. by destruct (Nat.leb_spec d e); [|lia].
  - done.
Qed.

Lemma is_parent_snoc ds d d' p : d ≤ d' → is_parent ds d p → is_parent (ds ++ [d']) d p.
Proof.
  intros Hd. assert (Hnew : ∀ k dk, (ds ++ [d']) !! k = Some dk → ds !! k = Some dk ∨ dk = d').
  { intros k dk [Hk|[Hk He]]%lookup_app_Some; [by left|right].
    by apply list_lookup_singleton_Some in He as [_ ?]. }
  destruct p as [j|]; simpl; [intros [(dj & Hj & Hlt) H]; split|intros H].
  - exists dj. split; [by apply lookup_app_l_Some|done].
  - intros k dk Hjk Hk. destruct (Hnew _ _ Hk) as [?| ->]; eauto.
  - intros k dk Hk. destruct (Hnew _ _ Hk) as [?| ->]; eauto.
Qed.

Lemma depths_shape ns : (shape <$> ns).*1 = node_depth <$> ns.
Proof. by rewrite <- list_fmap_compose. Qed.

Lemma push_node_ok st depth node : plan_ok st →
  (seed_claimed_done node = true → node_kind node = Todo) → plan_ok (push_node st depth node).
Proof.
  intros [Ho Hs Hl Hseed] Hnode. unfold push_node. set (node' := mkNode _ _ _ _ _ _ _ _ _).
  split; cbn [nodes stack last_index].
  - rewrite fmap_app. intros i d p [Hi|[Hi Hlast]]%lookup_app_Some.
    + rewrite fmap_app, take_app_le; [by eapply Ho|]. apply lookup_lt_Some in Hi. rewrite length_fmap. lia.
    + apply list_lookup_singleton_Some in Hlast as [E [= <- <-]].
      rewrite fmap_app, take_app_length'; [|rewrite length_fmap; lia]. rewrite depths_shape. apply Hs.
  - intros d. rewrite fmap_app. cbn [pop_stack]. destruct (Nat.leb_spec d depth).
    + rewrite pop_pop by done. by apply is_parent_snoc.
    + simpl. split; [exists depth; split; [|done]|].
      * apply list_lookup_middle. by rewrite length_fmap.
      * intros k dk Hk Hlk. apply lookup_lt_Some in Hlk. rewrite length_app, length_fmap in Hlk. simpl in Hlk. lia.
  - intros i [= <-]. rewrite length_app. simpl. lia.
  - apply Forall_app. split; [done|]. by apply Forall_singleton.
Qed.

Lemma update_node_ok st i f : plan_ok st → i < length (nodes st) →
  (∀ n, shape (f n) = shape n ∧ seed_claimed_done (f n) = seed_claimed_done n ∧
        node_kind (f n) = node_kind n) →
  ∃ st', update_node st i f = Ok st' ∧ plan_ok st'.
Proof.
  intros [Ho Hs Hl Hseed] Hi Hf. unfold update_node. rewrite decide_True by done.
  eexists. split; [done|].
  assert (Esh : shape <$> alter f i (nodes st) = shape <$> nodes st).
  { apply list_eq. intros j. rewrite !list_lookup_fmap. destruct (decide (i = j)) as [->|].
    - rewrite list_lookup_alter_eq. destruct (nodes st !! j); simpl; [|done]. f_equal. apply Hf.
    - by rewrite list_lookup_alter_ne. }
  split; cbn [nodes stack last_index].
  - by rewrite Esh.
  - by rewrite <- depths_shape, Esh, depths_shape.
  - by rewrite length_alter.
  - apply Forall_alter; [done|]. intros n _ Hn. destruct (Hf n) as (_ & -> & ->). done.
Qed.

Section parse_plan_ok.
Context (lower : string → string).
Context (heading_caps : string → option (string * string)).
Context (checklist_caps : string → option (string * string * string)).
Context (numbered_caps : string → option (string * string)).
Context (acceptance_caps marker_caps : string → option string).
Notation line_step :=
  (plan_line lower heading_caps checklist_caps numbered_caps acceptance_caps marker_caps).

Lemma plan_line_ok st raw : plan_ok st → ∃ st', line_step st raw = Ok st' ∧ plan_ok st'.
Proof.
  intros Hok. unfold plan_line.
  assert (Hpush : ∀ st depth node, plan_ok st → (seed_claimed_done node = true → node_kind node = Todo) →
    ∃ st', Ok (push_node st depth node) = @Ok Empty_set _ st' ∧ plan_ok st').
  { intros. eexists. split; [done|]. by apply push_node_ok. }
  assert (Hupd : ∀ i f, last_index st = Some i →
    (∀ n, shape (f n) = shape n ∧ seed_claimed_done (f n) = seed_claimed_done n ∧
          node_kind (f n) = node_kind n) → ∃ st', update_node st i f = Ok st' ∧ plan_ok st').
  { intros i f Hi Hf. apply update_node_ok; [done| |done]. by apply pl_last. }
  case_decide; [by eauto|].
  destruct (heading_caps _) as [[h t]|]; [apply Hpush; [by destruct Hok|done]|].
  destruct (checklist_caps _) as [[[ind m] t]|]; [by apply Hpush|].
  destruct (numbered_caps _) as [[ind t]|]; [by apply Hpush|].
  destruct (acceptance_caps _) as [a|].
  { destruct (last_index st) as [i|] eqn:El; [|by eauto]. by apply Hupd. }
  destruct (marker_caps _) as [m|]; [by apply Hpush|].
  destruct (last_index st) as [i|] eqn:El; [|by eauto]. by apply Hupd.
Qed.

Lemma plan_lines_ok ls : ∀ st, plan_ok st → ∃ st', ofold line_step st ls = Ok st' ∧ plan_ok st'.
Proof.
  induction ls as [|l ls IH]; intros st Hok; simpl; [by eauto|].
  destruct (plan_line_ok st l Hok) as (st1 & -> & Hok1). simpl. auto.
Qed.
End parse_plan_ok.

Lemma plan_start_ok : plan_ok plan_start.
Proof. split; simpl; [by intros ???|by intros ???|done|constructor]. Qed.

(** * [commit_ref.rs] *)

(** The closure [push]. *)
Definition push_id (out : list string) (id : string) : list string :=
  let id := to_ascii_lowercase id in
  if decide (id ∈ out) then out else out ++ [id].

(** [cap.get(2).or_else(|| cap.get(3))] *)
Definition closing_id (cap : option string * option string) : option string :=
  match cap.1 with Some m => Some m | None => cap.2 end.

(** [if let Some(m) = id { push(m) }] *)
Definition push_opt (out : list string) (id : option string) : list string :=
  match id with Some m => push_id out m | None => out end.

Lemma ascii_lower_idem c : ascii_lower (ascii_lower c) = ascii_lower c.
Proof. destruct c as [[] [] [] [] [] [] [] []]; reflexivity. Qed.

Lemma to_ascii_lowercase_idem s : to_ascii_lowercase (to_ascii_lowercase s) = to_ascii_lowercase s.
Proof. induction s as [|c s IH]; simpl; [done|]. by rewrite ascii_lower_idem, IH. Qed.

(** Every id a fold pushes is in its result, once. *)
Lemma push_opts_spec ids : ∀ out, NoDup out →
  NoDup (foldl push_opt out ids) ∧ out `prefix_of` foldl push_opt out ids ∧
  ∀ x, x ∈ foldl push_opt out ids ↔ x ∈ out ∨ ∃ m, Some m ∈ ids ∧ x = to_ascii_lowercase m.
Proof.
  induction ids as [|[m|] ids IH]; intros out Hnd; simpl.
  - set_solver.
  - unfold push_id. case_decide as Hin.
    + destruct (IH out Hnd) as (H1 & H2 & H3). split_and!; [done|done|]. intros x. rewrite H3. set_solver.
    + destruct (IH (out ++ [to_ascii_lowercase m])) as (H1 & H2 & H3).
      { apply NoDup_app. split_and!; [done|set_solver|apply NoDup_singleton]. }
      split_and!; [done| |].
      * etrans; [|exact H2]. by apply prefix_app_r.
      * intros x. rewrite H3. set_solver.
  - destruct (IH out Hnd) as (H1 & H2 & H3). split_and!; [done|done|]. intros x. rewrite H3. set_solver.
Qed.

Section commit_ref.
(** [captures_iter] of the two expressions: group 1 of the bare references;
    groups 2 and 3 of the closing ones. *)
Context (bare_captures : string → list (option string)).
Context (closing_captures : string → list (option string * option string)).

Definition extract_public_ids (text : string) : list string :=
  let out := foldl push_opt [] (bare_captures text) in
  foldl (fun out cap => push_opt out (closing_id cap)) out (closing_captures text).

(** [str::eq_ignore_ascii_case] compares the lowercased bytes. *)
Definition eq_ignore_ascii_case (a b : string) : bool :=
  bool_decide (to_ascii_lowercase a = to_ascii_lowercase b).

Definition is_closing_ref (text public_id : string) : bool :=
  let target := to_ascii_lowercase public_id in
  existsb (fun cap => match closing_id cap with
                      | Some m => eq_ignore_ascii_case m target
                      | None => false
                      end) (closing_captures text).

Lemma extract_as_fold text :
  extract_public_ids text = foldl push_opt [] (bare_captures text ++ (closing_id <$> closing_captures text)).
Proof. unfold extract_public_ids. by rewrite foldl_app, foldl_fmap. Qed.

Lemma is_closing_ref_true text id : is_closing_ref text id = true ↔
  ∃ m, Some m ∈ closing_id <$> closing_captures text ∧ to_ascii_lowercase m = to_ascii_lowercase id.
Proof.
  unfold is_closing_ref. rewrite existsb_exists. setoid_rewrite list_elem_of_fmap.
  setoid_rewrite <- list_elem_of_In. split.
  - intros (cap & Hin & H). destruct (closing_id cap) as [m|] eqn:E; [|done].
    apply bool_decide_eq_true in H. rewrite to_ascii_lowercase_idem in H. eauto.
  - intros (m & (cap & E & Hin) & H). exists cap. split; [done|]. rewrite <- E.
    apply bool_decide_eq_true. by rewrite to_ascii_lowercase_idem.
Qed.
End commit_ref.

(** * Properties *)

(** Whatever the regular expressions capture, [parse_plan] returns (no
    index panics), and its nodes are an outline: the parent of a node is the
    last earlier node of smaller depth, and a node is a root exactly when every
    earlier node is at least as deep; only checklist items ([todo]) are seeded
    as claimed done. *)
Theorem parse_plan_outline (lower : string → string) (heading_caps : string → option (string * string))
    (checklist_caps : string → option (string * string * string))
    (numbered_caps : string → option (string * string))
    (acceptance_caps marker_caps : string → option string) (markdown : string) :
  ∃ ns, parse_plan lower heading_caps checklist_caps numbered_caps acceptance_caps marker_caps markdown = Ok ns ∧
    (∀ i n, ns !! i = Some n → is_parent (take i (node_depth <$> ns)) (node_depth n) (parent_index n)) ∧
    Forall (fun n => seed_claimed_done n = true → node_kind n = Todo) ns.
Proof.
  unfold parse_plan.
  destruct (plan_lines_ok lower heading_caps checklist_caps numbered_caps acceptance_caps marker_caps
              (lines markdown) plan_start plan_start_ok) as (st & -> & [Ho _ _ Hseed]).
  exists (nodes st). split_and!; [done| |done]. intros i n Hi.
  rewrite <- depths_shape. apply Ho. by rewrite list_lookup_fmap, Hi.
Qed.

(** Whatever the regular expressions capture, [extract_public_ids] lists
    each captured id once, lowercased, with those of the bare references
    first; and a text has a closing reference to an id if and only if a closing
    capture names it up to case, in which case the id is among the extracted
    ones. *)
Theorem extract_public_ids_exact (bare_captures : string → list (option string))
    (closing_captures : string → list (option string * option string)) (text id : string) :
  let ids := extract_public_ids bare_captures closing_captures text in
  NoDup ids ∧
  (∀ x, x ∈ ids ↔ ∃ m, Some m ∈ bare_captures text ++ (closing_id <$> closing_captures text) ∧
                       x = to_ascii_lowercase m) ∧
  foldl push_opt [] (bare_captures text) `prefix_of` ids ∧
  (is_closing_ref closing_captures text id = true ↔
     ∃ m, Some m ∈ closing_id <$> closing_captures text ∧ to_ascii_lowercase m = to_ascii_lowercase id) ∧
  (is_closing_ref closing_captures text id = true → to_ascii_lowercase id ∈ ids).
Proof.
  intros ids. unfold ids. rewrite extract_as_fold.
  destruct (push_opts_spec (bare_captures text ++ (closing_id <$> closing_captures text)) [])
    as (Hnd & _ & Hin); [constructor|].
  assert (Hmem : ∀ x, x ∈ foldl push_opt [] (bare_captures text ++ (closing_id <$> closing_captures text)) ↔
    ∃ m, Some m ∈ bare_captures text ++ (closing_id <$> closing_captures text) ∧ x = to_ascii_lowercase m).
  { intros x. rewrite Hin. set_solver. }
  split_and!; [done|done| |apply is_closing_ref_true|].
  - rewrite foldl_app. apply push_opts_spec. apply (push_opts_spec (bare_captures text) []). constructor.
  - intros (m & Hm & Em)%is_closing_ref_true. apply Hmem. exists m. split; [|done].
    apply elem_of_app. by right.
Qed.

(** * An instance: headings of one to three [#] *)
Definition sample_heading (line : string) : option (string * string) :=
  match line with
  | String "#" (String " " t) => Some ("#", t)
  | String "#" (String "#" (String " " t)) => Some ("##", t)
  | String "#" (String "#" (String "#" (String " " t))) => Some ("###", t)
  | _ => None
  end.

Definition sample_text : string :=
  ("# Plan" +:+ String newline ("### Task" +:+ String newline ("prose" +:+ String newline "## Epic")))%string.

Example sample_plan : ∃ ns,
  parse_plan (fun s => s) sample_heading (fun _ => None) (fun _ => None) (fun _ => None) (fun _ => None)
    sample_text = Ok ns ∧ map shape ns = [(1, None); (3, Some 0); (2, Some 0)].
Proof. eexists. split; vm_compute; reflexivity. Qed.
