(* ===== verification/TrackerRollup.v ===== *)
(** [src/tracker/rollup.rs]: the weighted completion of a subtree.  The
    weights are [f64]s, with the rounding of IEEE 754 addition and division. *)

From Stdlib Require Import ZArith SpecFloat.
From stdpp Require Import base strings list.
From S2P Require Import Prelude Numbers Vocab TrackerVocab.

(** [w.max(0.0)]: a NaN gives the other operand, and so does a negative. *)
Definition f64_max0 (w : f64) : f64 := if f64_ltb f64_zero w then w else f64_zero.

(** * The roll-up *)
Record LeafContribution := mkLeaf {
  leaf_status : WorkItemStatus;
  leaf_weight : f64;
  leaf_parametric : bool;
  leaf_universal_satisfied : bool;
}.

Record RollupResult := mkRollup {
  verified_fraction : f64;
  claimed_fraction : f64;
  leaf_count : Z;
  verified_leaves : Z;
  claimed_leaves : Z;
}.

Definition is_verified_done (l : LeafContribution) : bool :=
  if leaf_parametric l then leaf_universal_satisfied l else is_verified (leaf_status l).

Definition is_claimed_done (l : LeafContribution) : bool :=
  is_verified_done l || match leaf_status l with ClaimedDone => true | _ => false end.

(** The accumulators of [aggregate]. *)
Record accumulator := mkAcc {
  total_w : f64; verified_w : f64; claimed_w : f64;
  verified_n : Z; claimed_n : Z; counted_n : Z;
}.

Definition acc_zero : accumulator := mkAcc f64_zero f64_zero f64_zero 0 0 0.

(** One iteration of the loop of [aggregate]. *)
Definition add_leaf (a : accumulator) (leaf : LeafContribution) : accumulator :=
  if is_excluded_from_rollup (leaf_status leaf) then a
  else
    let w := f64_max0 (leaf_weight leaf) in
    let v := is_verified_done leaf in
    let c := is_claimed_done leaf in
    {| total_w := f64_add (total_w a) w;
       verified_w := if v then f64_add (verified_w a) w else verified_w a;
       claimed_w := if c then f64_add (claimed_w a) w else claimed_w a;
       verified_n := if v then (verified_n a + 1)%Z else verified_n a;
       claimed_n := if c then (claimed_n a + 1)%Z else claimed_n a;
       counted_n := (counted_n a + 1)%Z |}.

Definition accumulate (leaves : list LeafContribution) : accumulator := foldl add_leaf acc_zero leaves.

Definition aggregate (leaves : list LeafContribution) : RollupResult :=
  let a := accumulate leaves in
  let frac num := if f64_ltb f64_zero (total_w a) then f64_div num (total_w a) else f64_zero in
  {| verified_fraction := frac (verified_w a);
     claimed_fraction := frac (claimed_w a);
     leaf_count := counted_n a;
     verified_leaves := verified_n a;
     claimed_leaves := claimed_n a |}.

(** * Facts *)
Definition counted (l : LeafContribution) : bool := negb (is_excluded_from_rollup (leaf_status l)).

Definition count_if (p : LeafContribution → bool) (ls : list LeafContribution) : Z :=
  Z.of_nat (length (List.filter p ls)).

Lemma count_if_cons p l ls : count_if p (l :: ls) = ((if p l then 1 else 0) + count_if p ls)%Z.
Proof. unfold count_if. simpl. destruct (p l); simpl; lia. Qed.

Lemma accumulate_counts ls : ∀ a,
  counted_n (foldl add_leaf a ls) = (counted_n a + count_if counted ls)%Z ∧
  verified_n (foldl add_leaf a ls) =
    (verified_n a + count_if (fun l => counted l && is_verified_done l) ls)%Z ∧
  claimed_n (foldl add_leaf a ls) =
    (claimed_n a + count_if (fun l => counted l && is_claimed_done l) ls)%Z.
Proof.
  induction ls as [|l ls IH]; intros a; simpl; [unfold count_if; simpl; lia|].
  rewrite !count_if_cons. destruct (IH (add_leaf a l)) as (-> & -> & ->).
  unfold add_leaf, counted. destruct (is_excluded_from_rollup (leaf_status l)); simpl; [lia|].
  destruct (is_verified_done l), (is_claimed_done l); simpl; lia.
Qed.

Lemma count_if_le p q ls : (∀ l, p l = true → q l = true) → (count_if p ls ≤ count_if q ls)%Z.
Proof.
  intros Hpq. induction ls as [|l ls IH]; [done|]. rewrite !count_if_cons.
  destruct (p l) eqn:Ep; [rewrite (Hpq l Ep)|destruct (q l)]; lia.
Qed.

(** What the trustworthy half of an accumulator is. *)
Definition trusted (a : accumulator) : f64 * f64 * Z * Z :=
  (total_w a, verified_w a, verified_n a, counted_n a).

(** Two leaves that the trustworthy number cannot tell apart: they differ in
    the status at most, and neither status is verified or excluded. *)
Definition same_evidence (l l' : LeafContribution) : Prop :=
  leaf_weight l = leaf_weight l' ∧ leaf_parametric l = leaf_parametric l' ∧
  leaf_universal_satisfied l = leaf_universal_satisfied l' ∧
  (leaf_status l = leaf_status l' ∨
   counted l = true ∧ counted l' = true ∧
   is_verified (leaf_status l) = false ∧ is_verified (leaf_status l') = false).

Lemma add_leaf_trusted a a' l l' : trusted a = trusted a' → same_evidence l l' →
  trusted (add_leaf a l) = trusted (add_leaf a' l').
Proof.
  unfold trusted. intros [= H1 H2 H3 H4] (Hw & Hp & Hu & Hs). unfold add_leaf.
  assert (Hc : is_excluded_from_rollup (leaf_status l) = is_excluded_from_rollup (leaf_status l')).
  { destruct Hs as [->|(Hc & Hc' & _)]; [done|]. unfold counted in *.
    by rewrite negb_true_iff in Hc, Hc'; rewrite Hc, Hc'. }
  assert (Hv : is_verified_done l = is_verified_done l').
  { unfold is_verified_done. rewrite <- Hp, <- Hu. destruct Hs as [->|(_ & _ & -> & ->)]; done. }
  rewrite <- Hc, <- Hv, <- Hw. destruct (is_excluded_from_rollup (leaf_status l)); simpl.
  - congruence.
  - rewrite H1, H2, H3, H4. done.
Qed.

Lemma accumulate_trusted ls ls' : Forall2 same_evidence ls ls' → ∀ a a', trusted a = trusted a' →
  trusted (foldl add_leaf a ls) = trusted (foldl add_leaf a' ls').
Proof. induction 1; simpl; eauto using add_leaf_trusted. Qed.

(** Dividing a positive finite number by itself. *)
Lemma div_eucl_shift (m : positive) :
  Z.div_eucl (Z.shiftl (Zpos m) 53) (Zpos m) = ((2 ^ 53)%Z, 0%Z).
Proof.
  rewrite Z.shiftl_mul_pow2 by lia.
  assert (Hd : (Zpos m * 2 ^ 53 / Zpos m = 2 ^ 53)%Z) by (rewrite Z.mul_comm; by apply Z.div_mul).
  assert (Hm : ((Zpos m * 2 ^ 53) mod Zpos m = 0)%Z) by (rewrite Z.mul_comm; by apply Z_mod_mult).
  unfold Z.div in Hd. unfold Z.modulo in Hm.
  destruct (Z.div_eucl _ _) as [q r]. by subst.
Qed.

Lemma f64_div_self m e : f64_div (S754_finite false m e) (S754_finite false m e) = f64_one.
Proof.
  unfold f64_div, SFdiv, SFdiv_core_binary. rewrite !Z.sub_diag.
  change (0 - Z.min (fexp 53 1024 0) 0)%Z with 53%Z. cbv beta iota zeta.
  rewrite div_eucl_shift. assert (Hl : new_location (Zpos m) 0 = loc_Exact).
  { unfold new_location. by destruct (Z.even _). }
  rewrite Hl. vm_compute. reflexivity.
Qed.

(** When every counted leaf is done, both sums are the total. *)
Lemma accumulate_done ls : Forall (fun l => counted l = true → is_verified_done l = true) ls →
  ∀ a, verified_w a = total_w a → claimed_w a = total_w a →
  verified_w (foldl add_leaf a ls) = total_w (foldl add_leaf a ls) ∧
  claimed_w (foldl add_leaf a ls) = total_w (foldl add_leaf a ls).
Proof.
  induction 1 as [|l ls Hl Hls IH]; intros a Hv Hc; simpl; [done|].
  apply IH; unfold add_leaf, counted in *; destruct (is_excluded_from_rollup (leaf_status l)); auto; simpl;
    specialize (Hl eq_refl).
  - by rewrite Hl, Hv.
  - unfold is_claimed_done. by rewrite Hl, Hc.
Qed.

(** When none is, nothing was added to the verified sum. *)
Lemma accumulate_open ls : Forall (fun l => counted l = true → is_verified_done l = false) ls →
  ∀ a, verified_w (foldl add_leaf a ls) = verified_w a.
Proof.
  induction 1 as [|l ls Hl Hls IH]; intros a; simpl; [done|]. rewrite IH.
  unfold add_leaf, counted in *. destruct (is_excluded_from_rollup (leaf_status l)); [done|]. simpl.
  by rewrite (Hl eq_refl).
Qed.

Lemma accumulate_excluded ls : ∀ a, foldl add_leaf a (List.filter counted ls) = foldl add_leaf a ls.
Proof.
  induction ls as [|l ls IH]; intros a; simpl; [done|]. unfold counted at 1.
  destruct (is_excluded_from_rollup (leaf_status l)) eqn:E; simpl; [|apply IH].
  rewrite IH. f_equal. unfold add_leaf. by rewrite E.
Qed.

(** * Properties *)

(** The counts of the roll-up are exact and ordered: countable leaves,
    verified leaves and claimed leaves are the leaves with those properties,
    verified ≤ claimed ≤ countable; and deferred or cancelled leaves
    contribute to nothing, so filtering them out beforehand changes nothing. *)
Theorem rollup_counts_exact (ls : list LeafContribution) :
  let r := aggregate ls in
  leaf_count r = count_if counted ls ∧
  verified_leaves r = count_if (fun l => counted l && is_verified_done l) ls ∧
  claimed_leaves r = count_if (fun l => counted l && is_claimed_done l) ls ∧
  (0 ≤ verified_leaves r ≤ claimed_leaves r)%Z ∧ (claimed_leaves r ≤ leaf_count r)%Z ∧
  aggregate (List.filter counted ls) = r.
Proof.
  intros r. destruct (accumulate_counts ls acc_zero) as (Hc & Hv & Hcl).
  cbn [acc_zero counted_n verified_n claimed_n] in Hc, Hv, Hcl. rewrite Z.add_0_l in Hc, Hv, Hcl.
  fold (accumulate ls) in Hc, Hv, Hcl.
  unfold r. cbn [aggregate leaf_count verified_leaves claimed_leaves]. rewrite Hc, Hv, Hcl.
  split_and!; try done.
  - unfold count_if. lia.
  - apply count_if_le. intros l. unfold is_claimed_done. rewrite !andb_true_iff, orb_true_iff. tauto.
  - apply count_if_le. intros l. rewrite andb_true_iff. tauto.
  - unfold aggregate. replace (accumulate (List.filter counted ls)) with (accumulate ls); [done|].
    symmetry. apply accumulate_excluded.
Qed.

(** C35: a self-report never moves the trustworthy number: changing the
    status of any leaves among the statuses that are neither verified nor
    excluded (in particular claiming them done) leaves the verified fraction,
    the verified count and the leaf count unchanged, to the last bit. *)
Theorem self_report_inert (ls ls' : list LeafContribution)
    (Hsame : Forall2 same_evidence ls ls') :
  verified_fraction (aggregate ls) = verified_fraction (aggregate ls') ∧
  verified_leaves (aggregate ls) = verified_leaves (aggregate ls') ∧
  leaf_count (aggregate ls) = leaf_count (aggregate ls').
Proof.
  pose proof (accumulate_trusted ls ls' Hsame acc_zero acc_zero eq_refl) as Ht.
  unfold trusted in Ht. injection Ht as H1 H2 H3 H4. unfold aggregate, accumulate. simpl.
  by rewrite H1, H2, H3, H4.
Qed.

(** The ends of the scale are exact: when every countable leaf is done
    and the total weight is a positive finite number, both fractions are
    exactly 1.0; when none is done the verified fraction is zero (the weights
    are rounded on the way, the quotient is not). *)
Theorem rollup_endpoints (ls : list LeafContribution) (m : positive) (e : Z)
    (Htotal : total_w (accumulate ls) = S754_finite false m e) :
  (Forall (fun l => counted l = true → is_verified_done l = true) ls →
     verified_fraction (aggregate ls) = f64_one ∧ claimed_fraction (aggregate ls) = f64_one) ∧
  (Forall (fun l => counted l = true → is_verified_done l = false) ls →
     verified_fraction (aggregate ls) = f64_zero).
Proof.
  unfold aggregate. cbn [verified_fraction claimed_fraction]. rewrite Htotal.
  change (f64_ltb f64_zero (S754_finite false m e)) with true. cbv iota. split.
  - intros Hdone. destruct (accumulate_done ls Hdone acc_zero eq_refl eq_refl) as [Hv Hc].
    fold (accumulate ls) in Hv, Hc. rewrite Hv, Hc, Htotal. auto using f64_div_self.
  - intros Hopen. pose proof (accumulate_open ls Hopen acc_zero) as Hv.
    fold (accumulate ls) in Hv. by rewrite Hv.
Qed.

(** A parametric leaf counts as verified by its universal criterion
    alone, whatever its status: a single claimed or even pending parametric
    leaf whose corpus passed makes the verified fraction 1.0. *)
Theorem parametric_leaf_ignores_status (st : WorkItemStatus)
    (Hst : is_excluded_from_rollup st = false) :
  verified_fraction (aggregate [mkLeaf st f64_one true true]) = f64_one ∧
  verified_leaves (aggregate [mkLeaf st f64_one true true]) = 1%Z.
Proof. destruct st; try discriminate Hst; split; vm_compute; reflexivity. Qed.

(** * Instances *)
Definition leaf (st : WorkItemStatus) : LeafContribution := mkLeaf st f64_one false false.

Lemma self_report_inert_witness :
  verified_fraction (aggregate [leaf Verified; leaf InProgress]) =
  verified_fraction (aggregate [leaf Verified; leaf ClaimedDone]).
Proof.
  apply (self_report_inert [leaf Verified; leaf InProgress] [leaf Verified; leaf ClaimedDone]).
  apply Forall2_cons_2; [|apply Forall2_cons_2; [|apply Forall2_nil_2]];
    unfold same_evidence; simpl; auto 10.
Defined.

Lemma rollup_endpoints_witness :
  verified_fraction (aggregate [leaf Verified; leaf Verified; leaf Cancelled]) = f64_one.
Proof.
  apply (rollup_endpoints [leaf Verified; leaf Verified; leaf Cancelled]
    4503599627370496 (-51) ltac:(vm_compute; reflexivity)).
  repeat constructor; done.
Defined.

Lemma parametric_leaf_ignores_status_witness :
  verified_fraction (aggregate [mkLeaf ClaimedDone f64_one true true]) = f64_one.
Proof. apply (parametric_leaf_ignores_status ClaimedDone). reflexivity. Defined.
