(* ===== verification/TrackerValidate.v ===== *)
(** [src/tracker/validate.rs]: checking the shape of a plan against the rules
    of its definition. *)

From Stdlib Require Import Ascii ZArith.
From stdpp Require Import base strings list sorting pretty.
From S2P Require Import Prelude Text Vocab TrackerVocab.

Record RuleSpec := mkRule {
  rule_kind : string;
  applies_to_kind : option string;
  child_kind : option string;
  min_count : option Z;
  max_count : option Z;
  field_name : option string;
  pattern : option string;
  rule_severity : string;
}.

Record ItemFacet := mkItem {
  public_id : string;
  parent_public_id : option string;
  it_kind : string;
  title : string;
  has_body : bool;
  has_due : bool;
  acceptance_count : Z;
  parametric : bool;
  has_universal_criterion : bool;
  depth : Z;
  bug_fields : list string;
}.

Record Violation := mkViolation {
  v_rule_kind : string;
  v_severity : string;
  v_item : option string;
  v_message : string;
  v_fix : string;
}.

Definition severity_rank (sev : string) : nat :=
  if decide (sev = "error") then 3
  else if decide (sev = "warn") then 2
  else if decide (sev = "info") then 1
  else 0.

(** [n as i32] *)
Definition as_i32 (n : Z) : Z := ((n + 2 ^ 31) mod 2 ^ 32 - 2 ^ 31)%Z.

(** [str::split(',')] *)
Fixpoint split_comma_onto (s acc : string) : list string :=
  match s with
  | EmptyString => [acc]
  | String c s' =>
      if bool_decide (c = ","%char) then acc :: split_comma_onto s' ""
      else split_comma_onto s' (acc +:+ String c "")
  end.
Definition split_comma (s : string) : list string := split_comma_onto s "".

(** [push]: the finding of a rule, appended by the callers. *)
Definition finding (rule : RuleSpec) (item : option string) (msg fix_ : string) : Violation :=
  mkViolation (rule_kind rule) (rule_severity rule) item msg fix_.

(** [for x in xs { if let Some(v) = f(x) { out.push(v) } }] *)
Definition findings {A} (f : A → option Violation) (xs : list A) : list Violation := omap f xs.

Definition items_of_kind (items : list ItemFacet) (kind : option string) : list ItemFacet :=
  match kind with
  | None => items
  | Some k => filter (fun i => it_kind i = k) items
  end.

Definition children_of (items : list ItemFacet) (parent : string) : list ItemFacet :=
  filter (fun i => parent_public_id i = Some parent) items.

Definition check_required_kind (items : list ItemFacet) (rule : RuleSpec) : list Violation :=
  match applies_to_kind rule with
  | None => []
  | Some kind =>
      if existsb (fun i => bool_decide (it_kind i = kind)) items then []
      else [finding rule None ("plan must contain at least one '" +:+ kind +:+ "' item")
                    ("add a '" +:+ kind +:+ "' item to the plan")]
  end%string.

Definition check_allowed_child_kind (items : list ItemFacet) (rule : RuleSpec) : list Violation :=
  match applies_to_kind rule, child_kind rule with
  | Some parent_kind, Some allowed =>
      let allowed_set := map trim (split_comma allowed) in
      flat_map (fun parent =>
        findings (fun child =>
          if decide (it_kind child ∈ allowed_set) then None
          else Some (finding rule (Some (public_id child))
            ("'" +:+ public_id child +:+ "' is a '" +:+ it_kind child +:+ "' child of a '" +:+
             parent_kind +:+ "', but only [" +:+ allowed +:+ "] are allowed")
            ("change the child kind to one of [" +:+ allowed +:+ "] or re-parent it")))
          (children_of items (public_id parent)))
        (filter (fun i => it_kind i = parent_kind) items)
  | _, _ => []
  end%string.

Definition check_required_child_kind (items : list ItemFacet) (rule : RuleSpec) : list Violation :=
  match applies_to_kind rule, child_kind rule with
  | Some parent_kind, Some ck =>
      findings (fun parent =>
        if existsb (fun c => bool_decide (it_kind c = ck)) (children_of items (public_id parent)) then None
        else Some (finding rule (Some (public_id parent))
          ("'" +:+ parent_kind +:+ "' must have at least one '" +:+ ck +:+ "' child")
          ("add a '" +:+ ck +:+ "' child under '" +:+ public_id parent +:+ "'")))
        (filter (fun i => it_kind i = parent_kind) items)
  | _, _ => []
  end%string.

Definition check_child_count (items : list ItemFacet) (rule : RuleSpec) (is_min : bool) : list Violation :=
  match applies_to_kind rule, (if is_min then min_count rule else max_count rule) with
  | Some parent_kind, Some bound =>
      findings (fun parent =>
        let n := as_i32 (Z.of_nat (length (children_of items (public_id parent)))) in
        let violated := if is_min then bool_decide (n < bound)%Z else bool_decide (bound < n)%Z in
        if violated then
          let rel := if is_min then "at least" else "at most" in
          let fx := if is_min then "add" else "remove" in
          Some (finding rule (Some (public_id parent))
            ("'" +:+ parent_kind +:+ "' must have " +:+ rel +:+ " " +:+ pretty bound +:+
             " children (has " +:+ pretty n +:+ ")")
            (fx +:+ " children of '" +:+ public_id parent +:+ "'"))
        else None)
        (filter (fun i => it_kind i = parent_kind) items)
  | _, _ => []
  end%string.

Definition BUG_FIELD_NAMES : list string :=
  ["severity"; "reproduction_steps"; "expected_behavior"; "actual_behavior"; "environment";
   "affected_version"; "fixed_in_version"; "root_cause"].

(** Whether the field a rule asks for is present on an item. *)
Definition field_present (field : string) (item : ItemFacet) : bool :=
  if decide (field = "body") then has_body item
  else if decide (field = "due_at") then has_due item
  else if decide (field = "title") then bool_decide (trim (title item) ≠ "")
  else if decide (field ∈ BUG_FIELD_NAMES) then existsb (fun p => bool_decide (p = field)) (bug_fields item)
  else true.

Definition check_required_field (items : list ItemFacet) (rule : RuleSpec) : list Violation :=
  match field_name rule with
  | None => []
  | Some field =>
      findings (fun item =>
        if field_present field item then None
        else Some (finding rule (Some (public_id item))
          ("'" +:+ public_id item +:+ "' (" +:+ it_kind item +:+ ") is missing required field '" +:+
           field +:+ "'")
          ("set '" +:+ field +:+ "' on '" +:+ public_id item +:+ "'")))
        (items_of_kind items (applies_to_kind rule))
  end%string.

Definition check_required_acceptance (items : list ItemFacet) (rule : RuleSpec) : list Violation :=
  findings (fun item =>
    if bool_decide (acceptance_count item = 0%Z) then
      Some (finding rule (Some (public_id item))
        ("'" +:+ public_id item +:+ "' (" +:+ it_kind item +:+
         ") has no acceptance criterion — it cannot be machine-verified")
        ("add an acceptance criterion to '" +:+ public_id item +:+ "' via work_item_add_criterion"))
    else None)%string
    (items_of_kind items (applies_to_kind rule)).

Definition check_quantifier (items : list ItemFacet) (rule : RuleSpec) : list Violation :=
  findings (fun item =>
    if has_universal_criterion item then None
    else Some (finding rule (Some (public_id item))
      ("'" +:+ public_id item +:+
       "' is a universal/parametric clause but has no universal-coverage acceptance criterion — " +:+
       "a single passing case must NOT satisfy it")
      ("add a coverage_mode='universal' acceptance criterion to '" +:+ public_id item +:+ "'")))%string
    (filter (fun i => parametric i = true) items).

Inductive PatternTarget := TitleTarget | PublicIdTarget.

Definition check_max_depth (items : list ItemFacet) (rule : RuleSpec) : list Violation :=
  match max_count rule with
  | None => []
  | Some max =>
      findings (fun item => Some (finding rule (Some (public_id item))
        ("'" +:+ public_id item +:+ "' is at depth " +:+ pretty (depth item) +:+
         " (advisory cap " +:+ pretty max +:+ ")")
        "consider flattening this branch"))%string
        (filter (fun i => (max < depth i)%Z) items)
  end.

(** [sort_by_key(|v| Reverse(severity_rank(..)))]: the standard library's sort
    is stable; insertion after the elements of the same rank. *)
Fixpoint insert_ranked (v : Violation) (vs : list Violation) : list Violation :=
  match vs with
  | [] => [v]
  | w :: ws =>
      if decide (severity_rank (v_severity v) < severity_rank (v_severity w))
      then w :: insert_ranked v ws else v :: w :: ws
  end.

Definition sort_ranked (vs : list Violation) : list Violation := foldr insert_ranked [] vs.

Section regex.
(** The [regex] crate: compiling a pattern, and matching. *)
Context (Re : Type) (regex_new : string → string + Re) (is_match : Re → string → bool).

Definition pattern_value (target : PatternTarget) (item : ItemFacet) : string :=
  match target with TitleTarget => title item | PublicIdTarget => public_id item end.

Definition check_pattern (items : list ItemFacet) (rule : RuleSpec) (target : PatternTarget) :
    list Violation :=
  match pattern rule with
  | None => []
  | Some pat =>
      match regex_new pat with
      | inl e =>
          [finding rule None ("rule has an invalid regex '" +:+ pat +:+ "': " +:+ e)
                   "fix the rule's pattern"]
      | inr re =>
          let field := match target with TitleTarget => "title" | PublicIdTarget => "public_id" end in
          findings (fun item =>
            if is_match re (pattern_value target item) then None
            else Some (finding rule (Some (public_id item))
              ("'" +:+ public_id item +:+ "' " +:+ field +:+ " '" +:+ pattern_value target item +:+
               "' does not match required pattern /" +:+ pat +:+ "/")
              ("rename so its " +:+ field +:+ " matches /" +:+ pat +:+ "/")))
            (items_of_kind items (applies_to_kind rule))
      end
  end%string.

(** The dispatch of [validate] on one rule. *)
Definition check_rule (items : list ItemFacet) (rule : RuleSpec) : list Violation :=
  let k := rule_kind rule in
  if decide (k = "required_kind") then check_required_kind items rule
  else if decide (k = "allowed_child_kind") then check_allowed_child_kind items rule
  else if decide (k = "required_child_kind") then check_required_child_kind items rule
  else if decide (k = "min_children") then check_child_count items rule true
  else if decide (k = "max_children") then check_child_count items rule false
  else if decide (k = "required_field") then check_required_field items rule
  else if decide (k = "required_acceptance_criterion") then check_required_acceptance items rule
  else if decide (k = "quantifier_requires_corpus") then check_quantifier items rule
  else if decide (k = "naming_rule") then check_pattern items rule TitleTarget
  else if decide (k = "id_rule") then check_pattern items rule PublicIdTarget
  else if decide (k = "max_depth_advice") then check_max_depth items rule
  else [].

Definition validate (items : list ItemFacet) (rules : list RuleSpec) : list Violation :=
  sort_ranked (flat_map (check_rule items) rules).

(** * What the rules mean *)
Definition child_of (items : list ItemFacet) (p c : ItemFacet) : Prop :=
  c ∈ items ∧ parent_public_id c = Some (public_id p).

Definition in_scope (items : list ItemFacet) (kind : option string) (i : ItemFacet) : Prop :=
  i ∈ items ∧ ∀ k, kind = Some k → it_kind i = k.

Definition pattern_holds (items : list ItemFacet) (rule : RuleSpec) (target : PatternTarget) : Prop :=
  ∀ pat, pattern rule = Some pat → ∃ re, regex_new pat = inr re ∧
    ∀ i, in_scope items (applies_to_kind rule) i → is_match re (pattern_value target i) = true.

Definition rule_holds (items : list ItemFacet) (rule : RuleSpec) : Prop :=
  let k := rule_kind rule in
  (k = "required_kind" → ∀ kd, applies_to_kind rule = Some kd → ∃ i, i ∈ items ∧ it_kind i = kd) ∧
  (k = "allowed_child_kind" → ∀ pk allowed p c,
     applies_to_kind rule = Some pk → child_kind rule = Some allowed →
     p ∈ items → it_kind p = pk → child_of items p c → it_kind c ∈ map trim (split_comma allowed)) ∧
  (k = "required_child_kind" → ∀ pk ck p, applies_to_kind rule = Some pk → child_kind rule = Some ck →
     p ∈ items → it_kind p = pk → ∃ c, child_of items p c ∧ it_kind c = ck) ∧
  (k = "min_children" → ∀ pk n p, applies_to_kind rule = Some pk → min_count rule = Some n →
     p ∈ items → it_kind p = pk →
     (n ≤ as_i32 (Z.of_nat (length (children_of items (public_id p)))))%Z) ∧
  (k = "max_children" → ∀ pk n p, applies_to_kind rule = Some pk → max_count rule = Some n →
     p ∈ items → it_kind p = pk →
     (as_i32 (Z.of_nat (length (children_of items (public_id p)))) ≤ n)%Z) ∧
  (k = "required_field" → ∀ f i, field_name rule = Some f →
     in_scope items (applies_to_kind rule) i → field_present f i = true) ∧
  (k = "required_acceptance_criterion" → ∀ i,
     in_scope items (applies_to_kind rule) i → acceptance_count i ≠ 0%Z) ∧
  (k = "quantifier_requires_corpus" → ∀ i,
     i ∈ items → parametric i = true → has_universal_criterion i = true) ∧
  (k = "naming_rule" → pattern_holds items rule TitleTarget) ∧
  (k = "id_rule" → pattern_holds items rule PublicIdTarget) ∧
  (k = "max_depth_advice" → ∀ n i, max_count rule = Some n → i ∈ items → (depth i ≤ n)%Z).

(** * Each check is empty exactly when its rule holds *)
Lemma findings_nil {A} (f : A → option Violation) xs : findings f xs = [] ↔ ∀ x, x ∈ xs → f x = None.
Proof.
  unfold findings. induction xs as [|x xs IH].
  { split; [|done]. intros _ x Hx. by apply elem_of_nil in Hx. }
  cbn [omap list_omap]. setoid_rewrite elem_of_cons. split.
  - destruct (f x) eqn:E; [done|]. intros H y [->|Hy]; [done|]. by apply IH.
  - intros H. rewrite (H x) by auto. apply IH. auto.
Qed.

Lemma flat_map_nil {A B} (f : A → list B) xs : flat_map f xs = [] ↔ ∀ x, x ∈ xs → f x = [].
Proof.
  induction xs as [|x xs IH]; simpl.
  { split; [|done]. intros _ x Hx. by apply elem_of_nil in Hx. }
  rewrite app_nil, IH. setoid_rewrite elem_of_cons. naive_solver.
Qed.

Lemma items_of_kind_elem items kind i : i ∈ items_of_kind items kind ↔ in_scope items kind i.
Proof.
  unfold items_of_kind, in_scope. destruct kind as [k|]; [rewrite list_elem_of_filter|]; naive_solver.
Qed.

Lemma children_of_elem items p c : c ∈ children_of items (public_id p) ↔ child_of items p c.
Proof. unfold children_of, child_of. rewrite list_elem_of_filter. tauto. Qed.

Lemma existsb_elem {A} (p : A → bool) xs : existsb p xs = true ↔ ∃ x, x ∈ xs ∧ p x = true.
Proof. rewrite existsb_exists. by setoid_rewrite list_elem_of_In. Qed.

Lemma if_none_iff (b : bool) (v : Violation) : (if b then None else Some v) = None ↔ b = true.
Proof. by destruct b. Qed.

Lemma required_kind_nil items rule : check_required_kind items rule = [] ↔
  ∀ kd, applies_to_kind rule = Some kd → ∃ i, i ∈ items ∧ it_kind i = kd.
Proof.
  unfold check_required_kind. destruct (applies_to_kind rule) as [kd|]; [|naive_solver].
  destruct (existsb _ items) eqn:E.
  - apply existsb_elem in E as (i & Hi & Hk%bool_decide_eq_true). naive_solver.
  - split; [done|]. intros H. destruct (H kd eq_refl) as (i & Hi & Hk).
    apply not_true_iff_false in E. destruct E. apply existsb_elem. exists i.
    by rewrite bool_decide_eq_true.
Qed.

Lemma allowed_child_nil items rule : check_allowed_child_kind items rule = [] ↔
  ∀ pk allowed p c, applies_to_kind rule = Some pk → child_kind rule = Some allowed →
    p ∈ items → it_kind p = pk → child_of items p c → it_kind c ∈ map trim (split_comma allowed).
Proof.
  unfold check_allowed_child_kind. destruct (applies_to_kind rule) as [pk|]; [|naive_solver].
  destruct (child_kind rule) as [allowed|]; [|naive_solver].
  rewrite flat_map_nil. setoid_rewrite findings_nil. split.
  - intros H pk' al' p c [= <-] [= <-] Hp Hk Hc. apply children_of_elem in Hc.
    specialize (H p (proj2 (list_elem_of_filter _ _ _) (conj Hk Hp)) c Hc). by case_decide.
  - intros H p [Hk Hp]%list_elem_of_filter c Hc%children_of_elem.
    rewrite decide_True; [done|]. by eapply H.
Qed.

Lemma required_child_nil items rule : check_required_child_kind items rule = [] ↔
  ∀ pk ck p, applies_to_kind rule = Some pk → child_kind rule = Some ck →
    p ∈ items → it_kind p = pk → ∃ c, child_of items p c ∧ it_kind c = ck.
Proof.
  unfold check_required_child_kind. destruct (applies_to_kind rule) as [pk|]; [|naive_solver].
  destruct (child_kind rule) as [ck|]; [|naive_solver].
  rewrite findings_nil. split.
  - intros H pk' ck' p [= <-] [= <-] Hp Hk.
    specialize (H p (proj2 (list_elem_of_filter _ _ _) (conj Hk Hp))). apply if_none_iff, existsb_elem in H.
    destruct H as (c & Hc%children_of_elem & Hck%bool_decide_eq_true). eauto.
  - intros H p [Hk Hp]%list_elem_of_filter. apply if_none_iff, existsb_elem.
    destruct (H pk ck p) as (c & Hc & Hck); [done..|]. exists c.
    split; [by apply children_of_elem|by apply bool_decide_eq_true].
Qed.

Lemma child_count_nil items rule is_min : check_child_count items rule is_min = [] ↔
  ∀ pk n p, applies_to_kind rule = Some pk → (if is_min then min_count rule else max_count rule) = Some n →
    p ∈ items → it_kind p = pk →
    let c := as_i32 (Z.of_nat (length (children_of items (public_id p)))) in
    if is_min then (n ≤ c)%Z else (c ≤ n)%Z.
Proof.
  unfold check_child_count. destruct (applies_to_kind rule) as [pk|]; [|naive_solver].
  destruct (if is_min then min_count rule else max_count rule) as [n|]; [|naive_solver].
  rewrite findings_nil. split.
  - intros H pk' n' p [= <-] [= <-] Hp Hk.
    specialize (H p (proj2 (list_elem_of_filter _ _ _) (conj Hk Hp))). cbv zeta in H.
    destruct is_min; case_bool_decide; try done; lia.
  - intros H p [Hk Hp]%list_elem_of_filter. specialize (H _ _ p eq_refl eq_refl Hp Hk). cbv zeta in H |- *.
    destruct is_min; rewrite bool_decide_eq_false_2 by lia; done.
Qed.

Lemma required_field_nil items rule : check_required_field items rule = [] ↔
  ∀ f i, field_name rule = Some f → in_scope items (applies_to_kind rule) i → field_present f i = true.
Proof.
  unfold check_required_field. destruct (field_name rule) as [f|]; [|naive_solver].
  rewrite findings_nil. split.
  - intros H f' i [= <-] Hi%items_of_kind_elem. by eapply if_none_iff, H.
  - intros H i Hi%items_of_kind_elem. by apply if_none_iff, H.
Qed.

Lemma required_acceptance_nil items rule : check_required_acceptance items rule = [] ↔
  ∀ i, in_scope items (applies_to_kind rule) i → acceptance_count i ≠ 0%Z.
Proof.
  unfold check_required_acceptance. rewrite findings_nil. setoid_rewrite items_of_kind_elem.
  split; intros H i Hi; specialize (H i Hi); case_bool_decide; done.
Qed.

Lemma quantifier_nil items rule : check_quantifier items rule = [] ↔
  ∀ i, i ∈ items → parametric i = true → has_universal_criterion i = true.
Proof.
  unfold check_quantifier. rewrite findings_nil. split.
  - intros H i Hi Hp. by eapply if_none_iff, H, list_elem_of_filter.
  - intros H i [Hp Hi]%list_elem_of_filter. by apply if_none_iff, H.
Qed.

Lemma max_depth_nil items rule : check_max_depth items rule = [] ↔
  ∀ n i, max_count rule = Some n → i ∈ items → (depth i ≤ n)%Z.
Proof.
  unfold check_max_depth. destruct (max_count rule) as [n|]; [|naive_solver].
  rewrite findings_nil. setoid_rewrite list_elem_of_filter. split.
  - intros H n' i [= <-] Hi. destruct (decide (n < depth i)%Z) as [Hd|]; [|lia].
    by specialize (H i (conj Hd Hi)).
  - intros H i [Hd Hi]. specialize (H n i eq_refl Hi). lia.
Qed.

Lemma pattern_nil items rule target : check_pattern items rule target = [] ↔
  pattern_holds items rule target.
Proof.
  unfold check_pattern, pattern_holds. destruct (pattern rule) as [pat|]; [|naive_solver].
  destruct (regex_new pat) as [e|re] eqn:E.
  - split; [done|]. intros H. destruct (H pat eq_refl) as (re & ? & _). congruence.
  - rewrite findings_nil. split.
    + intros H pat' [= <-]. exists re. split; [done|]. intros i Hi%items_of_kind_elem.
      by eapply if_none_iff, H.
    + intros H i Hi%items_of_kind_elem. destruct (H pat eq_refl) as (re' & E' & Hm).
      rewrite E in E'. simplify_eq. by apply if_none_iff, Hm.
Qed.

Lemma check_rule_nil items rule : check_rule items rule = [] ↔ rule_holds items rule.
Proof.
  unfold check_rule, rule_holds. generalize (rule_kind rule). intros k.
  repeat (case_decide;
    [rewrite ?required_kind_nil, ?allowed_child_nil, ?required_child_nil, ?child_count_nil, ?required_field_nil,
       ?required_acceptance_nil, ?quantifier_nil, ?pattern_nil, ?max_depth_nil;
     subst; split;
     [intros Hchk; split_and!; try discriminate; intros _; exact Hchk
     |intros Hr; decompose [and] Hr;
      match goal with H : ?k = ?k → _ |- _ => exact (H eq_refl) end]|]).
  split; [|done]. intros _. split_and!; congruence.
Qed.
End regex.

(** ** The sort *)
Lemma insert_ranked_perm v vs : insert_ranked v vs ≡ₚ v :: vs.
Proof.
  induction vs as [|w ws IH]; simpl; [done|]. case_decide; [|done]. rewrite IH. constructor.
Qed.

Lemma sort_ranked_perm vs : sort_ranked vs ≡ₚ vs.
Proof. induction vs as [|v vs IH]; simpl; [done|]. rewrite insert_ranked_perm. by constructor. Qed.

Definition rank_ge (v w : Violation) : Prop :=
  severity_rank (v_severity w) ≤ severity_rank (v_severity v).

Lemma insert_ranked_sorted v vs : StronglySorted rank_ge vs → StronglySorted rank_ge (insert_ranked v vs).
Proof.
  induction 1 as [|w ws Hs IH Hf]; simpl; [repeat constructor|]. case_decide as Hd.
  - constructor; [done|]. rewrite insert_ranked_perm. constructor; [unfold rank_ge; lia|done].
  - constructor; [by constructor|]. constructor; [unfold rank_ge; lia|].
    eapply Forall_impl; [exact Hf|]. unfold rank_ge in *. intros. lia.
Qed.

Lemma sort_ranked_sorted vs : StronglySorted rank_ge (sort_ranked vs).
Proof. induction vs; simpl; [constructor|]. by apply insert_ranked_sorted. Qed.

(** The findings of one rank. *)
Definition of_rank (r : nat) (vs : list Violation) : list Violation :=
  filter (fun v => severity_rank (v_severity v) = r) vs.

Lemma insert_ranked_stable r v vs : of_rank r (insert_ranked v vs) = of_rank r (v :: vs).
Proof.
  unfold of_rank. induction vs as [|w ws IH]; simpl; [done|].
  destruct (decide (severity_rank (v_severity v) < severity_rank (v_severity w))) as [Hd|Hd]; [|done].
  rewrite filter_cons. rewrite IH, !filter_cons. repeat case_decide; try done. lia.
Qed.

Lemma sort_ranked_stable r vs : of_rank r (sort_ranked vs) = of_rank r vs.
Proof.
  induction vs as [|v vs IH]; simpl; [done|]. rewrite insert_ranked_stable.
  unfold of_rank in *. rewrite !filter_cons, IH. done.
Qed.

(** * Properties *)

(** C22: validation is exact: whatever the regular-expression engine, a plan
    gets no finding if and only if it satisfies every rule of its definition,
    each rule read as what it says of the items (required and allowed kinds,
    child counts, required fields and criteria, patterns, depth); a rule with
    a malformed pattern never counts as satisfied. *)
Theorem validate_clean_iff (Re : Type) (regex_new : string → string + Re) (is_match : Re → string → bool)
    (items : list ItemFacet) (rules : list RuleSpec) :
  validate Re regex_new is_match items rules = [] ↔
  ∀ rule, rule ∈ rules → rule_holds Re regex_new is_match items rule.
Proof.
  unfold validate. split.
  - intros H rule Hr. apply check_rule_nil.
    assert (Hn : flat_map (check_rule Re regex_new is_match items) rules = []).
    { apply Permutation_nil. rewrite <- H. apply sort_ranked_perm. }
    rewrite flat_map_nil in Hn. auto.
  - intros H. assert (Hn : flat_map (check_rule Re regex_new is_match items) rules = []).
    { apply flat_map_nil. intros rule Hr. by apply check_rule_nil, H. }
    by rewrite Hn.
Qed.

(** The report lists all findings, most severe first, and keeps the order
    in which the rules and the items produced them within a severity. *)
Theorem validate_report_order (Re : Type) (regex_new : string → string + Re) (is_match : Re → string → bool)
    (items : list ItemFacet) (rules : list RuleSpec) :
  let found := flat_map (check_rule Re regex_new is_match items) rules in
  let report := validate Re regex_new is_match items rules in
  report ≡ₚ found ∧ StronglySorted rank_ge report ∧
  ∀ r, of_rank r report = of_rank r found.
Proof.
  split_and!; [apply sort_ranked_perm|apply sort_ranked_sorted|intros r; apply sort_ranked_stable].
Qed.
