(* ===== verification/TapeWorkingSet.v ===== *)
(** [src/tape/vocab.rs] and [src/tape/working_set.rs]: the vocabularies of the
    context tape, the insertion-ordered page map, and the working set of one
    session.  A [HashMap] is a [gmap]; where the source iterates in hash order
    the result does not depend on it. *)

From Stdlib Require Import ZArith SpecFloat.
From stdpp Require Import base strings list gmap.
From S2P Require Import Prelude Numbers BTree Vocab.

(** * [vocab.rs] *)
Inductive PageState := Resident | Pinned | Dirty | Evicted.
Inductive EvictionPolicy := Lru | Lfu | Ttl | Fifo | CostAware | ImportanceWeighted.
(** [TtlExpired] is [EvictReason::Ttl]. *)
Inductive EvictReason := BudgetPressure | TtlExpired | Explicit | Superseded.
Inductive PageKind := FileChunk | MemoryObservation | SummaryNode.

#[global] Instance PageState_eq_dec : EqDecision PageState.
Proof. solve_decision. Defined.
#[global] Instance EvictionPolicy_eq_dec : EqDecision EvictionPolicy.
Proof. solve_decision. Defined.
#[global] Instance EvictReason_eq_dec : EqDecision EvictReason.
Proof. solve_decision. Defined.
#[global] Instance PageKind_eq_dec : EqDecision PageKind.
Proof. solve_decision. Defined.

Definition PageState_ALL : list PageState := [Resident; Pinned; Dirty; Evicted].
Definition PageState_as_str (s : PageState) : string :=
  match s with
  | Resident => "resident" | Pinned => "pinned" | Dirty => "dirty" | Evicted => "evicted"
  end.

Definition EvictionPolicy_ALL : list EvictionPolicy :=
  [Lru; Lfu; Ttl; Fifo; CostAware; ImportanceWeighted].
Definition EvictionPolicy_as_str (p : EvictionPolicy) : string :=
  match p with
  | Lru => "lru" | Lfu => "lfu" | Ttl => "ttl" | Fifo => "fifo" | CostAware => "cost_aware"
  | ImportanceWeighted => "importance_weighted"
  end.

Definition EvictReason_ALL : list EvictReason := [BudgetPressure; TtlExpired; Explicit; Superseded].
Definition EvictReason_as_str (r : EvictReason) : string :=
  match r with
  | BudgetPressure => "budget_pressure" | TtlExpired => "ttl" | Explicit => "explicit"
  | Superseded => "superseded"
  end.

Definition PageKind_ALL : list PageKind := [FileChunk; MemoryObservation; SummaryNode].
Definition PageKind_as_str (k : PageKind) : string :=
  match k with
  | FileChunk => "file_chunk" | MemoryObservation => "memory_observation"
  | SummaryNode => "summary_node"
  end.

#[global] Instance PageState_vocab : Vocab PageState.
Proof. refine {| vocab_all := PageState_ALL; as_str := PageState_as_str |}; solve_vocab. Defined.
#[global] Instance EvictionPolicy_vocab : Vocab EvictionPolicy.
Proof. refine {| vocab_all := EvictionPolicy_ALL; as_str := EvictionPolicy_as_str |}; solve_vocab. Defined.
#[global] Instance EvictReason_vocab : Vocab EvictReason.
Proof. refine {| vocab_all := EvictReason_ALL; as_str := EvictReason_as_str |}; solve_vocab. Defined.
#[global] Instance PageKind_vocab : Vocab PageKind.
Proof. refine {| vocab_all := PageKind_ALL; as_str := PageKind_as_str |}; solve_vocab. Defined.

(** * Pages *)

(** An opaque data-plane address. *)
Record PageAddr := mkAddr { addr_str : string }.

#[global] Instance PageAddr_eq_dec : EqDecision PageAddr.
Proof. solve_decision. Defined.
#[global] Instance PageAddr_countable : Countable PageAddr.
Proof. refine (inj_countable addr_str (fun s => Some (mkAddr s)) _). by intros []. Defined.

(** The integer fields are a [u32] ([use_count]), an [i32] ([est_tokens]) and
    a [u64] ([last_access_ord]). *)
Record ResidentPage := mkPage {
  p_addr : PageAddr;
  p_kind : PageKind;
  importance : f32;
  est_tokens : Z;
  use_count : Z;
  last_access_ord : Z;
  dirty : bool;
  pinned : bool;
  p_bytes : option string;
}.

(** [ResidentPage::logical_age] *)
Definition logical_age (p : ResidentPage) (clk : Z) : Z := u64_sat_sub clk (last_access_ord p).

(** The literal [1e-3] as an [f32]. *)
Definition epsilon_f32 : f32 := S754_finite false 8589935 (-33).

Definition importance_weighted_score (p : ResidentPage) (clk : Z) : f64 :=
  let age := f64_of_Z (logical_age p clk) in
  let weight := f64_mul (f64_of_f32 (f32_max (importance p) epsilon_f32))
                        (f64_add (f64_of_Z (use_count p)) f64_one) in
  f64_div age weight.

Definition cost_aware_score (p : ResidentPage) (clk : Z) : f64 :=
  let age := f64_of_Z (logical_age p clk) in
  let tokens := f64_add (f64_of_Z (Z.max (est_tokens p) 0)) f64_one in
  f64_div (f64_mul age tokens) (f64_add (f64_of_Z (use_count p)) f64_one).

(** * [OrderedPages] *)
Record OrderedPages := mkPages {
  op_map : gmap PageAddr ResidentPage;
  op_order : list PageAddr;
  op_tombstones : nat;
}.

Definition pages_new : OrderedPages := mkPages ∅ [] 0.
Definition pages_len (op : OrderedPages) : nat := size (op_map op).
Definition pages_contains (op : OrderedPages) (a : PageAddr) : bool :=
  bool_decide (is_Some (op_map op !! a)).
Definition pages_get (op : OrderedPages) (a : PageAddr) : option ResidentPage := op_map op !! a.

(** A mutation through [get_mut]. *)
Definition pages_update (op : OrderedPages) (a : PageAddr) (f : ResidentPage → ResidentPage) :
    OrderedPages :=
  mkPages (alter f a (op_map op)) (op_order op) (op_tombstones op).

(** [OrderedPages::insert] *)
Definition pages_insert (op : OrderedPages) (page : ResidentPage) : OrderedPages :=
  let a := p_addr page in
  let is_new := bool_decide (op_map op !! a = None) in
  mkPages (<[a := page]> (op_map op))
          (if is_new then op_order op ++ [a] else op_order op) (op_tombstones op).

(** [OrderedPages::compact] *)
Definition compact (op : OrderedPages) : OrderedPages :=
  mkPages (op_map op) (filter (fun a => is_Some (op_map op !! a)) (op_order op)) 0.

Definition maybe_compact (op : OrderedPages) : OrderedPages :=
  if decide (size (op_map op) + 8 < op_tombstones op) then compact op else op.

(** [OrderedPages::remove] *)
Definition pages_remove (op : OrderedPages) (a : PageAddr) : option ResidentPage * OrderedPages :=
  match op_map op !! a with
  | Some p =>
      (Some p, maybe_compact (mkPages (delete a (op_map op)) (op_order op) (S (op_tombstones op))))
  | None => (None, op)
  end.

Definition iter_in_order (op : OrderedPages) : list ResidentPage :=
  omap (fun a => op_map op !! a) (op_order op).

Definition oldest_in_order (op : OrderedPages) : option ResidentPage := head (iter_in_order op).

(** The sum of a weight over the pages of a map. *)
Definition weigh (w : ResidentPage → Z) (m : gmap PageAddr ResidentPage) : Z :=
  map_fold (fun _ p s => (w p + s)%Z) 0%Z m.

(** The sum of [est_tokens] over [values()]. *)
Definition total_tokens (op : OrderedPages) : Z := weigh est_tokens (op_map op).

(** * [WorkingSet] *)
Record WorkingSet := mkWs {
  session_key : string;
  state_cursor : Z;
  budget_tokens : Z;
  resident_tokens : Z;
  ws_policy : EvictionPolicy;
  ws_clock : Z;
  ws_ttl : option Z;
  pages : OrderedPages;
}.

Definition ws_new (key : string) (cursor budget : Z) (p : EvictionPolicy) : WorkingSet :=
  mkWs key cursor budget 0 p 0 None pages_new.

(** The fields of [TapeConfig] that seed a working set. *)
Record TapeConfig := mkTapeConfig { cfg_budget : Z; cfg_policy : string; cfg_ttl_secs : Z }.

Definition from_config_defaults (key : string) (cursor : Z) (cfg : TapeConfig) : WorkingSet :=
  let p := default ImportanceWeighted (parse (cfg_policy cfg)) in
  let ttl := if decide (0 < cfg_ttl_secs cfg)%Z then Some (cfg_ttl_secs cfg) else None in
  mkWs key cursor (cfg_budget cfg) 0 p 0 ttl pages_new.

Definition set_clock (ws : WorkingSet) (c : Z) : WorkingSet :=
  mkWs (session_key ws) (state_cursor ws) (budget_tokens ws) (resident_tokens ws) (ws_policy ws) c
       (ws_ttl ws) (pages ws).
Definition set_resident (ws : WorkingSet) (n : Z) : WorkingSet :=
  mkWs (session_key ws) (state_cursor ws) (budget_tokens ws) n (ws_policy ws) (ws_clock ws)
       (ws_ttl ws) (pages ws).
Definition set_pages (ws : WorkingSet) (op : OrderedPages) : WorkingSet :=
  mkWs (session_key ws) (state_cursor ws) (budget_tokens ws) (resident_tokens ws) (ws_policy ws)
       (ws_clock ws) (ws_ttl ws) op.

(** [WorkingSet::tick] *)
Definition tick (ws : WorkingSet) : Z * WorkingSet :=
  let c := u64_sat_add (ws_clock ws) 1 in (c, set_clock ws c).

Definition headroom (ws : WorkingSet) : Z := i32_wrap (budget_tokens ws - resident_tokens ws).

Definition fits (ws : WorkingSet) (extra : Z) : bool :=
  bool_decide (i32_sat_add (resident_tokens ws) extra ≤ budget_tokens ws)%Z.

Definition recompute_resident_tokens (ws : WorkingSet) : Z := i32_wrap (total_tokens (pages ws)).

(** * Facts *)

Section weigh.
Context (w : ResidentPage → Z).

Lemma weigh_empty : weigh w ∅ = 0%Z.
Proof. apply map_fold_empty. Qed.

Lemma weigh_insert m a p : m !! a = None → weigh w (<[a := p]> m) = (w p + weigh w m)%Z.
Proof. intros Ha. unfold weigh. rewrite (map_fold_insert_L (fun _ q s => (w q + s)%Z)); [done| |done]. intros. lia. Qed.

Lemma weigh_delete m a p : m !! a = Some p → weigh w m = (w p + weigh w (delete a m))%Z.
Proof. intros Ha. rewrite <- (weigh_insert (delete a m) a p), insert_delete_id; [done|done|apply lookup_delete_eq]. Qed.

(** Overwriting replaces the old weight. *)
Lemma weigh_overwrite m a p :
  weigh w (<[a := p]> m) = (w p + weigh w m - from_option w 0 (m !! a))%Z.
Proof.
  destruct (m !! a) as [q|] eqn:Ea; simpl; [|rewrite weigh_insert by done; lia].
  rewrite <- insert_delete_eq, weigh_insert by apply lookup_delete_eq.
  rewrite (weigh_delete m a q Ea). lia.
Qed.

Lemma weigh_nonneg m : map_Forall (fun _ p => (0 ≤ w p)%Z) m → (0 ≤ weigh w m)%Z.
Proof.
  induction m as [|a p m Ha IH] using map_ind; intros Hm; [by rewrite weigh_empty|].
  rewrite weigh_insert by done. apply map_Forall_insert in Hm as [Hp Hm]; [|done]. specialize (IH Hm). lia.
Qed.
End weigh.

(** The representation invariant of the page map: pages sit under their own
    address, and every live address is in the order index. *)
Definition pages_ok (op : OrderedPages) : Prop :=
  ∀ a p, op_map op !! a = Some p → p_addr p = a ∧ a ∈ op_order op.

Lemma pages_new_ok : pages_ok pages_new.
Proof. intros a p H. simpl in H. by apply lookup_empty_Some in H. Qed.

Lemma pages_insert_ok op page : pages_ok op → pages_ok (pages_insert op page).
Proof.
  intros Hok a p. unfold pages_insert. simpl. destruct (decide (p_addr page = a)) as [<-|Hne].
  - rewrite lookup_insert_eq. intros [= <-]. split; [done|]. case_bool_decide as Hn; [set_solver|].
    destruct (op_map op !! p_addr page) as [q|] eqn:E; [|done]. by apply (Hok _ _ E).
  - rewrite lookup_insert_ne by done. intros H%Hok. case_bool_decide; set_solver.
Qed.

Lemma maybe_compact_map op : op_map (maybe_compact op) = op_map op.
Proof. unfold maybe_compact. by case_decide. Qed.

Lemma maybe_compact_ok op : pages_ok op → pages_ok (maybe_compact op).
Proof.
  intros Hok. unfold maybe_compact. case_decide; [|done]. intros a p Ha. simpl in *.
  destruct (Hok a p Ha). split; [done|]. apply list_elem_of_filter. by rewrite Ha.
Qed.

Lemma pages_remove_map op a : op_map (pages_remove op a).2 = delete a (op_map op).
Proof.
  unfold pages_remove. destruct (op_map op !! a) eqn:E; simpl; [by rewrite maybe_compact_map|].
  by rewrite delete_id.
Qed.

Lemma pages_remove_ok op a : pages_ok op → pages_ok (pages_remove op a).2.
Proof.
  intros Hok. unfold pages_remove. destruct (op_map op !! a) eqn:E; simpl; [|done].
  apply maybe_compact_ok. intros b p Hb. simpl in *. apply lookup_delete_Some in Hb as [_ Hb]. auto.
Qed.

Lemma pages_update_ok op a f : (∀ p, p_addr (f p) = p_addr p) → pages_ok op → pages_ok (pages_update op a f).
Proof.
  intros Hf Hok b p Hb. simpl in Hb. apply lookup_alter_Some in Hb as [(-> & q & Hq & ->)|[_ Hb]];
    [|by apply Hok]. rewrite Hf. by apply Hok.
Qed.

(** Iterating in order visits the live pages and nothing else. *)
Lemma iter_in_order_elem op p : pages_ok op →
  p ∈ iter_in_order op ↔ op_map op !! p_addr p = Some p.
Proof.
  intros Hok. unfold iter_in_order. rewrite list_elem_of_omap. split.
  - intros (a & _ & Ha). destruct (Hok a p Ha) as [-> _]. done.
  - intros H. exists (p_addr p). split; [|done]. by apply (Hok _ _ H).
Qed.
