(* ===== verification/TapePolicy.v ===== *)
(** The eviction policies of [src/tape/engine.rs]: which page leaves first. *)

From Stdlib Require Import ZArith SpecFloat.
From stdpp Require Import base strings list gmap.
From S2P Require Import Prelude Numbers BTree Vocab TapeWorkingSet.

(** * Iterators *)

(** [Iterator::min] and [Iterator::max] of integers. *)
Definition min_Z (xs : list Z) : option Z :=
  match xs with [] => None | x :: xs => Some (foldl Z.min x xs) end.
Definition max_Z (xs : list Z) : option Z :=
  match xs with [] => None | x :: xs => Some (foldl Z.max x xs) end.

(** [Ordering::then_with] *)
Definition then_with (c c' : comparison) : comparison :=
  match c with Eq => c' | Lt => Lt | Gt => Gt end.

Definition cmp_addr (a b : ResidentPage) : comparison :=
  ord_cmp (addr_str (p_addr a)) (addr_str (p_addr b)).

(** * The policies *)

(** [LruPolicy] *)
Definition lru_victim (candidates : list ResidentPage) : option PageAddr :=
  match min_Z (last_access_ord <$> candidates) with
  | None => None
  | Some min_ord =>
      p_addr <$> min_by cmp_addr (filter (fun p => last_access_ord p = min_ord) candidates)
  end.

(** [TtlPolicy] *)
Definition ttl_victim (candidates : list ResidentPage) (clk : Z) : option PageAddr :=
  match max_Z ((fun p => logical_age p clk) <$> candidates) with
  | None => None
  | Some max_age =>
      p_addr <$> min_by cmp_addr (filter (fun p => logical_age p clk = max_age) candidates)
  end.

(** [FifoPolicy] *)
Definition fifo_victim (candidates : list ResidentPage) : option PageAddr :=
  p_addr <$> head candidates.

(** [CostAwarePolicy] *)
Definition cost_aware_victim (candidates : list ResidentPage) (clk : Z) : option PageAddr :=
  p_addr <$> max_by (fun a b =>
    then_with (float_cmp (cost_aware_score a clk) (cost_aware_score b clk)) (cmp_addr a b)) candidates.

(** [ImportanceWeightedPolicy] *)
Definition importance_victim (candidates : list ResidentPage) (clk : Z) : option PageAddr :=
  p_addr <$> max_by (fun a b =>
    then_with (float_cmp (importance_weighted_score a clk) (importance_weighted_score b clk))
              (cmp_addr a b)) candidates.

Section lfu.
(** The least-frequently-used wrapper of the [liblevenshtein] crate: what
    [find_lfu] answers for [terms] over a dictionary, after a sequence of
    accesses. *)
Context (find_lfu : list (string * nat) → list string → list string → option string).

(** [candidate_dawg]: the entries of the dictionary. *)
Definition candidate_dawg (candidates : list ResidentPage) : list (string * nat) :=
  imap (fun i p => (addr_str (p_addr p), i)) candidates.

(** The accesses that prime the wrapper. *)
Definition lfu_accesses (candidates : list ResidentPage) : list string :=
  flat_map (fun p => replicate (Z.to_nat (Z.max (use_count p) 1)) (addr_str (p_addr p))) candidates.

Definition cmp_lfu (a b : ResidentPage) : comparison :=
  then_with (last_access_ord a ?= last_access_ord b)%Z (cmp_addr a b).

(** [LfuPolicy] *)
Definition lfu_victim (candidates : list ResidentPage) : option PageAddr :=
  match candidates with
  | [] => None
  | _ =>
      let terms := (fun p => addr_str (p_addr p)) <$> candidates in
      match find_lfu (candidate_dawg candidates) (lfu_accesses candidates) terms with
      | None => None
      | Some min_addr =>
          match find_first (fun p => bool_decide (addr_str (p_addr p) = min_addr)) candidates with
          | None => None
          | Some p0 =>
              let min_count := Z.max (use_count p0) 1 in
              p_addr <$> min_by cmp_lfu (filter (fun p => Z.max (use_count p) 1 = min_count) candidates)
          end
      end
  end.

(** [policy_engine(policy).select_victim(candidates, clock)] *)
Definition select_victim (policy : EvictionPolicy) (candidates : list ResidentPage) (clk : Z) :
    option PageAddr :=
  match policy with
  | Lru => lru_victim candidates
  | Lfu => lfu_victim candidates
  | Ttl => ttl_victim candidates clk
  | Fifo => fifo_victim candidates
  | CostAware => cost_aware_victim candidates clk
  | ImportanceWeighted => importance_victim candidates clk
  end.
End lfu.

(** * Extremal elements *)
Section extremal.
Context {A K : Type} `{RustOrd K} (key : A → K).
Notation cmp := (fun a b => ord_cmp (key a) (key b)).

Lemma fold_min_spec xs : ∀ x, let v := foldl (fun m y => match cmp m y with Gt => y | _ => m end) x xs in
  (v = x ∨ v ∈ xs) ∧ ∀ y, y = x ∨ y ∈ xs → ord_cmp (key v) (key y) ≠ Gt.
Proof.
  induction xs as [|z xs IH]; intros x; simpl.
  { split; [by left|]. intros y [->|Hy]; [by rewrite ord_refl|by apply elem_of_nil in Hy]. }
  set (m := match ord_cmp (key x) (key z) with Gt => z | _ => x end).
  assert (Hm : (m = x ∨ m = z) ∧ ord_cmp (key m) (key x) ≠ Gt ∧ ord_cmp (key m) (key z) ≠ Gt).
  { unfold m. destruct (ord_cmp (key x) (key z)) eqn:E; rewrite ?ord_refl, ?E; split_and!; auto.
    by rewrite (ord_gt _ _ E). }
  destruct Hm as (Hm & Hx & Hz). clearbody m. destruct (IH m) as [Hin Hle]. clear IH.
  split; [rewrite elem_of_cons; destruct Hin as [->|?]; tauto|].
  intros y [->|Hy]; [eapply ord_ge_trans; [apply Hle; by left|done]|].
  apply elem_of_cons in Hy as [->|Hy]; [eapply ord_ge_trans; [apply Hle; by left|done]|]. apply Hle. by right.
Qed.

Lemma min_by_spec xs v : min_by cmp xs = Some v →
  v ∈ xs ∧ ∀ y, y ∈ xs → ord_cmp (key v) (key y) ≠ Gt.
Proof.
  destruct xs as [|x xs]; [done|]. simpl. intros [= <-].
  destruct (fold_min_spec xs x) as [Hin Hle]. split; [set_solver|].
  intros y Hy. apply Hle. set_solver.
Qed.

Lemma fold_max_spec xs : ∀ x, let v := foldl (fun m y => match cmp m y with Gt => m | _ => y end) x xs in
  (v = x ∨ v ∈ xs) ∧ ∀ y, y = x ∨ y ∈ xs → ord_cmp (key y) (key v) ≠ Gt.
Proof.
  induction xs as [|z xs IH]; intros x; simpl.
  { split; [by left|]. intros y [->|Hy]; [by rewrite ord_refl|by apply elem_of_nil in Hy]. }
  set (m := match ord_cmp (key x) (key z) with Gt => x | _ => z end).
  assert (Hm : (m = x ∨ m = z) ∧ ord_cmp (key x) (key m) ≠ Gt ∧ ord_cmp (key z) (key m) ≠ Gt).
  { unfold m. destruct (ord_cmp (key x) (key z)) eqn:E; rewrite ?ord_refl, ?E; split_and!; auto.
    by rewrite (ord_gt _ _ E). }
  destruct Hm as (Hm & Hx & Hz). clearbody m. destruct (IH m) as [Hin Hle]. clear IH.
  split; [rewrite elem_of_cons; destruct Hin as [->|?]; tauto|].
  intros y [->|Hy]; [eapply ord_ge_trans; [done|apply Hle; by left]|].
  apply elem_of_cons in Hy as [->|Hy]; [eapply ord_ge_trans; [done|apply Hle; by left]|]. apply Hle. by right.
Qed.

Lemma max_by_spec xs v : max_by cmp xs = Some v →
  v ∈ xs ∧ ∀ y, y ∈ xs → ord_cmp (key y) (key v) ≠ Gt.
Proof.
  destruct xs as [|x xs]; [done|]. simpl. intros [= <-].
  destruct (fold_max_spec xs x) as [Hin Hle]. split; [set_solver|].
  intros y Hy. apply Hle. set_solver.
Qed.
End extremal.

Lemma min_Z_spec xs m : min_Z xs = Some m → m ∈ xs ∧ ∀ x, x ∈ xs → (m ≤ x)%Z.
Proof.
  destruct xs as [|x xs]; [done|]. intros [= <-]. split; [apply foldl_pick; intros; lia|].
  revert x. induction xs as [|y xs IH]; intros x z Hz; simpl.
  - apply list_elem_of_singleton in Hz. lia.
  - pose proof (IH (Z.min x y) (Z.min x y) ltac:(set_solver)).
    apply elem_of_cons in Hz as [->|[->|Hz]%elem_of_cons]; [lia..|]. apply IH. set_solver.
Qed.

Lemma max_Z_spec xs m : max_Z xs = Some m → m ∈ xs ∧ ∀ x, x ∈ xs → (x ≤ m)%Z.
Proof.
  destruct xs as [|x xs]; [done|]. intros [= <-]. split; [apply foldl_pick; intros; lia|].
  revert x. induction xs as [|y xs IH]; intros x z Hz; simpl.
  - apply list_elem_of_singleton in Hz. lia.
  - pose proof (IH (Z.max x y) (Z.max x y) ltac:(set_solver)).
    apply elem_of_cons in Hz as [->|[->|Hz]%elem_of_cons]; [lia..|]. apply IH. set_solver.
Qed.

(** * Floats that are not NaN are totally preordered *)

(** Class, signed exponent and signed mantissa: comparing them in this order
    is comparing the floats. *)
Definition float_key (x : spec_float) : Z * (Z * Z) :=
  match x with
  | S754_zero _ => (0, (0, 0))
  | S754_infinity s => (if s then -2 else 2, (0, 0))
  | S754_nan => (0, (0, 0))
  | S754_finite false m e => (1, (e, Zpos m))
  | S754_finite true m e => (-1, (- e, Zneg m))
  end%Z.

Definition not_nan (x : spec_float) : Prop := x ≠ S754_nan.

Lemma float_cmp_key x y : not_nan x → not_nan y → float_cmp x y = ord_cmp (float_key x) (float_key y).
Proof.
  unfold float_cmp, not_nan.
  destruct x as [[]|[]| |[] m e], y as [[]|[]| |[] m' e']; try done; intros _ _; simpl;
    unfold pair_cmp; simpl; try reflexivity.
  - change (match (e ?= e')%Z with Eq => CompOpp (m ?= m')%positive | Lt => Gt | Gt => Lt end =
      match (- e ?= - e')%Z with Eq => CompOpp (m ?= m')%positive | c => c end).
    rewrite Z.compare_opp, (Z.compare_antisym e e'). by destruct (e ?= e')%Z.
Qed.

(** * The victims *)

(** Every victim is a candidate. *)
Lemma fmap_Some_addr (o : option ResidentPage) a : p_addr <$> o = Some a → ∃ p, o = Some p ∧ p_addr p = a.
Proof. intros H. apply fmap_Some in H as (p & -> & ->). eauto. Qed.

Lemma select_victim_elem find_lfu policy cands clk a :
  select_victim find_lfu policy cands clk = Some a → ∃ p, p ∈ cands ∧ p_addr p = a.
Proof.
  destruct policy; simpl; unfold lru_victim, lfu_victim, ttl_victim, fifo_victim, cost_aware_victim,
    importance_victim; intros H.
  - case_match; [|done]. apply fmap_Some_addr in H as (p & Hp%min_by_elem & <-).
    apply list_elem_of_filter in Hp as [_ Hp]. eauto.
  - repeat case_match; try done. apply fmap_Some_addr in H as (p & Hp%min_by_elem & <-).
    apply list_elem_of_filter in Hp as [_ Hp]. eauto.
  - case_match; [|done]. apply fmap_Some_addr in H as (p & Hp%min_by_elem & <-).
    apply list_elem_of_filter in Hp as [_ Hp]. eauto.
  - apply fmap_Some_addr in H as (p & Hp & <-). exists p. split; [|done].
    destruct cands; [done|]. simplify_eq/=. by left.
  - apply fmap_Some_addr in H as (p & Hp%max_by_elem & <-). eauto.
  - apply fmap_Some_addr in H as (p & Hp%max_by_elem & <-). eauto.
Qed.

(** What [liblevenshtein] documents of [find_lfu]: over a dictionary with all
    the terms it answers a term with the fewest accesses. *)
Definition count_in (t : string) (accesses : list string) : nat :=
  length (filter (fun s => s = t) accesses).

Definition lfu_spec (find_lfu : list (string * nat) → list string → list string → option string) : Prop :=
  ∀ dict accesses terms, terms ≠ [] → Forall (fun t => t ∈ dict.*1) terms →
    ∃ t, find_lfu dict accesses terms = Some t ∧ t ∈ terms ∧
      ∀ t', t' ∈ terms → count_in t accesses ≤ count_in t' accesses.

(** [v] goes before [p] (or is as good a victim). *)
Definition outranks (policy : EvictionPolicy) (clk : Z) (v p : ResidentPage) : Prop :=
  match policy with
  | Lru => then_with (last_access_ord v ?= last_access_ord p)%Z (cmp_addr v p) ≠ Gt
  | Lfu => then_with (Z.max (use_count v) 1 ?= Z.max (use_count p) 1)%Z (cmp_lfu v p) ≠ Gt
  | Ttl => then_with (logical_age p clk ?= logical_age v clk)%Z (cmp_addr v p) ≠ Gt
  | Fifo => True
  | CostAware =>
      then_with (float_cmp (cost_aware_score p clk) (cost_aware_score v clk)) (cmp_addr p v) ≠ Gt
  | ImportanceWeighted =>
      then_with (float_cmp (importance_weighted_score p clk) (importance_weighted_score v clk))
                (cmp_addr p v) ≠ Gt
  end.

(** The scores the policy compares are numbers. *)
Definition scores_ok (policy : EvictionPolicy) (clk : Z) (p : ResidentPage) : Prop :=
  match policy with
  | CostAware => not_nan (cost_aware_score p clk)
  | ImportanceWeighted => not_nan (importance_weighted_score p clk)
  | _ => True
  end.

Section victims.
Context (find_lfu : list (string * nat) → list string → list string → option string).
Context (Hlfu : lfu_spec find_lfu) (clk : Z) (cands : list ResidentPage).

(** The least value of a measure, ties broken by a second order. *)
Lemma min_then_spec {K} `{RustOrd K} (f : ResidentPage → Z) (k : ResidentPage → K) m v :
  (∀ p, p ∈ cands → (m ≤ f p)%Z) →
  min_by (fun a b => ord_cmp (k a) (k b)) (filter (fun p => f p = m) cands) = Some v →
  v ∈ cands ∧ ∀ p, p ∈ cands → then_with (f v ?= f p)%Z (ord_cmp (k v) (k p)) ≠ Gt.
Proof.
  intros Hm Hv. apply min_by_spec in Hv as [Hv Hle]. apply list_elem_of_filter in Hv as [Ev Hv].
  split; [done|]. intros p Hp. specialize (Hm p Hp). rewrite Ev.
  destruct (Z.compare_spec m (f p)); simpl; [|done|lia].
  apply Hle, list_elem_of_filter. by split.
Qed.

Lemma lru_outranks a : lru_victim cands = Some a →
  ∃ v, v ∈ cands ∧ p_addr v = a ∧ ∀ p, p ∈ cands → outranks Lru clk v p.
Proof.
  unfold lru_victim. destruct (min_Z _) as [m|] eqn:Em; [|done].
  intros (v & Hv & <-)%fmap_Some_addr. apply min_Z_spec in Em as [_ Hm].
  destruct (min_then_spec last_access_ord (fun p => addr_str (p_addr p)) m v) as [Hin Hle]; [|done|].
  - intros p Hp. apply Hm. by apply list_elem_of_fmap_2.
  - by exists v.
Qed.

Lemma ttl_outranks a : ttl_victim cands clk = Some a →
  ∃ v, v ∈ cands ∧ p_addr v = a ∧ ∀ p, p ∈ cands → outranks Ttl clk v p.
Proof.
  unfold ttl_victim. destruct (max_Z _) as [m|] eqn:Em; [|done].
  intros (v & Hv & <-)%fmap_Some_addr. apply max_Z_spec in Em as [_ Hm].
  apply (min_by_spec (fun p => addr_str (p_addr p))) in Hv as [Hv Hle].
  apply list_elem_of_filter in Hv as [Ev Hv]. exists v. split_and!; [done|done|].
  intros p Hp. simpl. rewrite Ev.
  assert (logical_age p clk ≤ m)%Z by (apply Hm, (list_elem_of_fmap_2 (fun p => logical_age p clk)); done).
  destruct (Z.compare_spec (logical_age p clk) m); simpl; [|done|lia].
  apply Hle, list_elem_of_filter. by split.
Qed.

Lemma addr_str_inj (a b : PageAddr) : addr_str a = addr_str b → a = b.
Proof. destruct a, b; simpl; congruence. Qed.

Lemma count_in_app t xs ys : count_in t (xs ++ ys) = count_in t xs + count_in t ys.
Proof. unfold count_in. by rewrite filter_app, length_app. Qed.

Lemma count_in_replicate t s n : count_in t (replicate n s) = if decide (s = t) then n else 0.
Proof.
  unfold count_in. induction n as [|n IH]; simpl; [by case_decide|].
  rewrite filter_cons. case_decide; simpl; lia.
Qed.

(** Each page is primed as often as it was used. *)
Lemma lfu_accesses_count ps p : NoDup (p_addr <$> ps) → p ∈ ps →
  count_in (addr_str (p_addr p)) (lfu_accesses ps) = Z.to_nat (Z.max (use_count p) 1).
Proof.
  induction ps as [|q ps IH]; intros Hnd Hp; [by apply elem_of_nil in Hp|].
  apply NoDup_cons in Hnd as [Hq Hnd]. unfold lfu_accesses. simpl. fold (lfu_accesses ps).
  rewrite count_in_app, count_in_replicate. apply elem_of_cons in Hp as [->|Hp].
  - rewrite decide_True by done.
    assert (count_in (addr_str (p_addr q)) (lfu_accesses ps) = 0) as ->; [|lia].
    clear -Hq. induction ps as [|x ps IH]; [done|]. unfold lfu_accesses. simpl. fold (lfu_accesses ps).
    rewrite count_in_app, count_in_replicate, IH by set_solver.
    rewrite decide_False; [done|]. intros E%addr_str_inj. set_solver.
  - rewrite IH by done. rewrite decide_False; [lia|]. intros E%addr_str_inj. apply Hq. rewrite E.
    by apply list_elem_of_fmap_2.
Qed.

Lemma candidate_dawg_terms ps s :
  s ∈ ((fun p => addr_str (p_addr p)) <$> ps) → s ∈ (candidate_dawg ps).*1.
Proof.
  intros Hs. unfold candidate_dawg. apply list_elem_of_fmap in Hs as (p & -> & Hp).
  apply list_elem_of_lookup in Hp as [i Hi]. apply list_elem_of_fmap.
  exists (addr_str (p_addr p), i). split; [done|].
  apply list_elem_of_lookup. exists i. by rewrite list_lookup_imap, Hi.
Qed.

Lemma lfu_outranks a : NoDup (p_addr <$> cands) → lfu_victim find_lfu cands = Some a →
  ∃ v, v ∈ cands ∧ p_addr v = a ∧ ∀ p, p ∈ cands → outranks Lfu clk v p.
Proof using Hlfu.
  intros Hnd. unfold lfu_victim. destruct cands as [|c cs] eqn:Ec; [done|]. rewrite <- Ec in *.
  destruct (find_lfu _ _ _) as [t|] eqn:Et; [|done].
  destruct (find_first _ cands) as [p0|] eqn:E0; [|done].
  intros (v & Hv & <-)%fmap_Some_addr.
  apply find_first_Some in E0 as [Hp0 Ht%bool_decide_eq_true].
  destruct (Hlfu (candidate_dawg cands) (lfu_accesses cands)
              ((fun p => addr_str (p_addr p)) <$> cands)) as (t' & Et' & _ & Hmin).
  { by rewrite Ec. }
  { apply Forall_forall. apply candidate_dawg_terms. }
  rewrite Et in Et'. injection Et' as <-.
  destruct (min_then_spec (fun p => Z.max (use_count p) 1) (fun p => (last_access_ord p, addr_str (p_addr p)))
              (Z.max (use_count p0) 1) v) as [Hin Hle].
  - intros p Hp. specialize (Hmin (addr_str (p_addr p)) ltac:(by apply (list_elem_of_fmap_2 (fun p => addr_str (p_addr p))))).
    rewrite <- Ht, !lfu_accesses_count in Hmin by done. lia.
  - exact Hv.
  - exists v. split_and!; [done|done|]. exact Hle.
Qed.

(** The score policies: a maximum of the score, then of the address. *)
Lemma max_score_spec (score : ResidentPage → f64) v :
  (∀ p, p ∈ cands → not_nan (score p)) →
  max_by (fun a b => then_with (float_cmp (score a) (score b)) (cmp_addr a b)) cands = Some v →
  v ∈ cands ∧ ∀ p, p ∈ cands → then_with (float_cmp (score p) (score v)) (cmp_addr p v) ≠ Gt.
Proof.
  intros Hn Hv. set (key := fun p => (float_key (score p), addr_str (p_addr p))).
  assert (Hcmp : ∀ a b, a ∈ cands → b ∈ cands →
    then_with (float_cmp (score a) (score b)) (cmp_addr a b) = ord_cmp (key a) (key b)).
  { intros a b Ha Hb. rewrite float_cmp_key by auto. reflexivity. }
  assert (E : max_by (fun a b => ord_cmp (key a) (key b)) cands = Some v).
  { rewrite <- Hv. clear Hv Hn v. destruct cands as [|x xs]; [done|]. simpl. f_equal.
    assert (Hgen : ∀ ys x,
      (∀ a b, a ∈ x :: ys → b ∈ x :: ys →
         then_with (float_cmp (score a) (score b)) (cmp_addr a b) = ord_cmp (key a) (key b)) →
      foldl (fun m y => match ord_cmp (key m) (key y) with Gt => m | _ => y end) x ys =
      foldl (fun m y => match then_with (float_cmp (score m) (score y)) (cmp_addr m y) with
                        Gt => m | _ => y end) x ys); [|by apply Hgen].
    clear. induction ys as [|y ys IH]; intros x Hc; [done|]. simpl.
    rewrite Hc by set_solver. apply IH. intros a b Ha Hb. apply Hc; case_match; set_solver. }
  apply (max_by_spec key) in E as [Hin Hle]. split; [done|]. intros p Hp.
  rewrite Hcmp by done. by apply Hle.
Qed.
End victims.

(** Every policy picks a victim when there is a candidate. *)
Lemma filter_attained {A} (P : A → Prop) `{!∀ x, Decision (P x)} (xs : list A) x :
  x ∈ xs → P x → filter P xs ≠ [].
Proof. intros Hx HP E. assert (Hin : x ∈ filter P xs) by by apply list_elem_of_filter. rewrite E in Hin. set_solver. Qed.

Lemma min_by_is_Some {A} (cmp : A → A → comparison) xs : xs ≠ [] → is_Some (min_by cmp xs).
Proof. destruct xs; [done|eauto]. Qed.

Lemma select_victim_total find_lfu policy cands clk : lfu_spec find_lfu → cands ≠ [] →
  is_Some (select_victim find_lfu policy cands clk).
Proof.
  intros Hlfu Hne. destruct cands as [|c cs] eqn:Ec; [done|]. rewrite <- Ec in *.
  destruct policy; simpl; unfold lru_victim, lfu_victim, ttl_victim, fifo_victim, cost_aware_victim,
    importance_victim.
  - destruct (min_Z (last_access_ord <$> cands)) as [m|] eqn:Em; [|by rewrite Ec in Em].
    apply min_Z_spec in Em as [(p & -> & Hp)%list_elem_of_fmap _].
    apply fmap_is_Some, min_by_is_Some. by eapply filter_attained.
  - destruct (Hlfu (candidate_dawg cands) (lfu_accesses cands)
              ((fun p => addr_str (p_addr p)) <$> cands)) as (t & Et & Ht & _).
    { by rewrite Ec. }
    { apply Forall_forall. apply candidate_dawg_terms. }
    rewrite Ec at 1. rewrite Et. apply list_elem_of_fmap in Ht as (p & -> & Hp).
    destruct (find_first _ cands) as [p0|] eqn:E0.
    + apply find_first_Some in E0 as [Hp0 _]. apply fmap_is_Some, min_by_is_Some. by eapply filter_attained.
    + eapply List.find_none in E0; [|by apply list_elem_of_In]. by rewrite bool_decide_eq_false in E0.
  - destruct (max_Z ((fun p => logical_age p clk) <$> cands)) as [m|] eqn:Em; [|by rewrite Ec in Em].
    apply max_Z_spec in Em as [(p & -> & Hp)%list_elem_of_fmap _].
    apply fmap_is_Some, min_by_is_Some. by eapply filter_attained.
  - rewrite Ec. simpl. eauto.
  - rewrite Ec. simpl. eauto.
  - rewrite Ec. simpl. eauto.
Qed.

(** * Properties *)

(** Each policy picks the victim it promises, and picks one whenever there
    is a candidate: [lru] the oldest access, [lfu] the fewest uses then the
    oldest access, [ttl] the greatest age, [fifo] the first candidate, the score
    policies the greatest score; ties go by address.  (For candidates with
    distinct addresses and scores that are numbers, given what the [lfu] wrapper
    documents.) *)
Theorem policy_victim_exact (find_lfu : list (string * nat) → list string → list string → option string)
    (policy : EvictionPolicy) (clk : Z) (cands : list ResidentPage)
    (Hlfu : lfu_spec find_lfu) (Hnd : NoDup (p_addr <$> cands))
    (Hscores : ∀ p, p ∈ cands → scores_ok policy clk p) :
  match select_victim find_lfu policy cands clk with
  | None => cands = []
  | Some a => ∃ v, v ∈ cands ∧ p_addr v = a ∧ (policy = Fifo → head cands = Some v) ∧
                   ∀ p, p ∈ cands → outranks policy clk v p
  end.
Proof.
  destruct (select_victim find_lfu policy cands clk) as [a|] eqn:Es.
  - assert (Hv : policy ≠ Fifo → ∃ v, v ∈ cands ∧ p_addr v = a ∧ ∀ p, p ∈ cands → outranks policy clk v p).
    { destruct policy; simpl in Es; intros Hne; [by apply lru_outranks|by eapply lfu_outranks|
        by apply ttl_outranks|done|apply fmap_Some_addr in Es as (v & Hv & <-)..];
      apply max_score_spec in Hv as [Hin Hle]; auto; exists v; auto. }
    destruct (decide (policy = Fifo)) as [->|Hne]; [|destruct (Hv Hne) as (v & ? & ? & ?); by exists v].
    apply fmap_Some_addr in Es as (v & Hh & <-). exists v. destruct cands; [done|].
    simplify_eq/=. split_and!; [by left|done..].
  - destruct cands as [|c cs]; [done|].
    destruct (select_victim_total find_lfu policy (c :: cs) clk Hlfu) as [? E]; [done|]. congruence.
Qed.

(** * Instances *)

(** A dictionary wrapper that counts. *)
Definition counting_lfu (dict : list (string * nat)) (accesses terms : list string) : option string :=
  min_by (fun s t => ord_cmp (count_in s accesses) (count_in t accesses)) terms.

Lemma counting_lfu_spec : lfu_spec counting_lfu.
Proof.
  intros dict accesses terms Hne _. destruct (min_by_is_Some
    (fun s t => ord_cmp (count_in s accesses) (count_in t accesses)) terms Hne) as [t Ht].
  exists t. split; [done|]. apply (min_by_spec (fun s => count_in s accesses)) in Ht as [Hin Hle].
  split; [done|]. intros t' Ht'. specialize (Hle t' Ht'). simpl in Hle.
  apply Nat.compare_le_iff in Hle. done.
Qed.

Definition sample_page (a : string) (tokens uses ord : Z) : ResidentPage :=
  mkPage (mkAddr a) FileChunk f64_one tokens uses ord false false None.

Definition sample_candidates : list ResidentPage :=
  [sample_page "b" 10 3 5; sample_page "a" 20 1 9; sample_page "c" 30 1 2].

Lemma policy_victim_exact_witness :
  match select_victim counting_lfu CostAware sample_candidates 12 with
  | None => sample_candidates = []
  | Some a => ∃ v, v ∈ sample_candidates ∧ p_addr v = a ∧ (CostAware = Fifo → head sample_candidates = Some v) ∧
                   ∀ p, p ∈ sample_candidates → outranks CostAware 12 v p
  end ∧
  select_victim counting_lfu CostAware sample_candidates 12 = Some (mkAddr "c") ∧
  select_victim counting_lfu Lfu sample_candidates 12 = Some (mkAddr "c") ∧
  select_victim counting_lfu Fifo sample_candidates 12 = Some (mkAddr "b").
Proof.
  split; [apply (policy_victim_exact counting_lfu CostAware 12 sample_candidates counting_lfu_spec)|
    split_and!; vm_compute; reflexivity].
  - apply (bool_decide_unpack _). vm_compute. exact I.
  - intros p Hp. repeat (apply elem_of_cons in Hp as [->|Hp]; [vm_compute; discriminate|]).
    by apply elem_of_nil in Hp.
Defined.
