(* ===== verification/TapeEngine.v ===== *)
(** [src/tape/engine.rs]: the paging engine.  Its methods take the working set
    by mutable reference and talk to the data plane and the database; they are
    modelled in a state and error monad whose state survives an error, as a
    [&mut] does.

    The data plane (a trait, [src/tape/data_plane.rs]) and the SQL statements of
    [src/tape/store.rs] are the operations of a record [Backend] over an
    arbitrary state of the outside world. *)

From Stdlib Require Import ZArith SpecFloat.
From stdpp Require Import base strings list gmap.
From S2P Require Import Prelude Numbers BTree Vocab TapeWorkingSet TapePolicy.

(** * [data_plane.rs]: what crosses the seam *)
Inductive PageQuery :=
| QChunk (path : string) (lo hi : Z)
| QSemantic (query : string) (k : nat)
| QGrep (pattern : string).

Record PageRef := mkRef {
  ref_addr : PageAddr;
  ref_kind : PageKind;
  ref_tokens : Z;
  ref_importance : f32;
}.

Record PageContent := mkContent {
  content_addr : PageAddr;
  content_bytes : string;
  content_tokens : Z;
}.

Inductive TapeError := NotFound (what : string) | BackendFault (what : string).

(** * [engine.rs] *)
Record PageInOutcome := mkOutcome {
  admitted : list PageAddr;
  already_resident : list PageAddr;
  evicted : list PageAddr;
  demoted_in : list PageAddr;
  budget_exhausted : list PageAddr;
}.

Definition outcome_default : PageInOutcome := mkOutcome [] [] [] [] [].

Definition push_admitted (o : PageInOutcome) (a : PageAddr) : PageInOutcome :=
  mkOutcome (admitted o ++ [a]) (already_resident o) (evicted o) (demoted_in o) (budget_exhausted o).
Definition push_already (o : PageInOutcome) (a : PageAddr) : PageInOutcome :=
  mkOutcome (admitted o) (already_resident o ++ [a]) (evicted o) (demoted_in o) (budget_exhausted o).
Definition push_evicted (o : PageInOutcome) (a : PageAddr) : PageInOutcome :=
  mkOutcome (admitted o) (already_resident o) (evicted o ++ [a]) (demoted_in o) (budget_exhausted o).
Definition push_demoted (o : PageInOutcome) (a : PageAddr) : PageInOutcome :=
  mkOutcome (admitted o) (already_resident o) (evicted o) (demoted_in o ++ [a]) (budget_exhausted o).
Definition push_exhausted (o : PageInOutcome) (a : PageAddr) : PageInOutcome :=
  mkOutcome (admitted o) (already_resident o) (evicted o) (demoted_in o) (budget_exhausted o ++ [a]).

(** [EngineError]; a database error is its text. *)
Inductive EngineError := DataPlane (e : TapeError) | Db (e : string).

Declare Scope engine_scope.
Delimit Scope engine_scope with engine.

Section engine.
Context {W : Type}.

(** The outside world: the data plane and the database. *)
Record Backend := mkBackend {
  dp_get : W → string → PageAddr → W * (TapeError + PageContent);
  dp_get_many : W → string → list PageAddr → W * (TapeError + list PageContent);
  dp_put : W → string → PageAddr → string → W * (TapeError + unit);
  dp_resolve : W → string → PageQuery → W * (TapeError + list PageRef);
  dp_summary_of : W → string → list PageAddr → W * (TapeError + option PageRef);
  db_bump_clock : W → string → Z → W * (string + Z);
  db_evict_page : W → string → Z → PageAddr → EvictReason → W * (string + unit);
  db_save_working_set : W → WorkingSet → string → Z → option Z → W * (string + unit);
}.

(** What a method can change: the working set behind [&mut], the report it
    builds, the outside world. *)
Record Eng := mkEng { e_ws : WorkingSet; e_out : PageInOutcome; e_world : W }.

Definition M (A : Type) : Type := Eng → outcome EngineError A * Eng.

Definition mret {A} (a : A) : M A := fun s => (Ok a, s).
Definition mbind {A B} (m : M A) (k : A → M B) : M B := fun s =>
  match m s with
  | (Ok a, s') => k a s'
  | (Err e, s') => (Err e, s')
  | (Panic, s') => (Panic, s')
  | (OutOfFuel, s') => (OutOfFuel, s')
  end.

Definition get_ws : M WorkingSet := fun s => (Ok (e_ws s), s).
Definition get_out : M PageInOutcome := fun s => (Ok (e_out s), s).
Definition modify_ws (f : WorkingSet → WorkingSet) : M unit := fun s =>
  (Ok tt, mkEng (f (e_ws s)) (e_out s) (e_world s)).
Definition modify_out (f : PageInOutcome → PageInOutcome) : M unit := fun s =>
  (Ok tt, mkEng (e_ws s) (f (e_out s)) (e_world s)).
Definition fail {A} (e : EngineError) : M A := fun s => (Err e, s).
Definition out_of_fuel {A} : M A := fun s => (OutOfFuel, s).

(** A call to the outside world, with its error not yet propagated. *)
Definition call {A} (op : W → W * A) : M A := fun s =>
  let (w, a) := op (e_world s) in (Ok a, mkEng (e_ws s) (e_out s) w).

Notation "'do' x <- m ; k" := (mbind m (fun x => k))
  (at level 200, x pattern, m at level 100, k at level 200) : engine_scope.
Notation "'do_' m ; k" := (mbind m (fun _ => k))
  (at level 200, m at level 100, k at level 200) : engine_scope.
Local Open Scope engine_scope.

(** [op.await.map_err(EngineError::DataPlane)?] and [op.await?] on a database
    result. *)
Definition ask_dp {A} (op : W → W * (TapeError + A)) : M A :=
  do r <- call op; match r with inl e => fail (DataPlane e) | inr a => mret a end.
Definition ask_db {A} (op : W → W * (string + A)) : M A :=
  do r <- call op; match r with inl e => fail (Db e) | inr a => mret a end.

Fixpoint mfold {A S} (f : S → A → M S) (s : S) (xs : list A) : M S :=
  match xs with
  | [] => mret s
  | x :: xs => do s' <- f s x; mfold f s' xs
  end.

Context (backend : Backend).
Context (find_lfu : list (string * nat) → list string → list string → option string).
(** [context_tape::Page::estimate_tokens], of a crate outside the repository. *)
Context (estimate_tokens : string → Z).

(** [PagingEngine::advance_clock] *)
Definition advance_clock : M Z :=
  do ws <- get_ws;
  do new_clock <- ask_db (fun w => db_bump_clock backend w (session_key ws) 1);
  let new_clock := Z.max new_clock 0 in
  do_ modify_ws (fun ws => set_clock ws (Z.max (ws_clock ws) new_clock));
  mret new_clock.

(** [PagingEngine::persist] *)
Definition persist (tree : string) : M unit :=
  do ws <- get_ws;
  ask_db (fun w => db_save_working_set backend w ws tree (budget_tokens ws) None).

Definition add_resident (n : Z) (ws : WorkingSet) : WorkingSet :=
  set_resident ws (i32_sat_add (resident_tokens ws) n).
Definition sub_resident (n : Z) (ws : WorkingSet) : WorkingSet :=
  set_resident ws (i32_sat_sub (resident_tokens ws) n).
Definition insert_page (p : ResidentPage) (ws : WorkingSet) : WorkingSet :=
  set_pages ws (pages_insert (pages ws) p).

(** [PagingEngine::try_demote_in] *)
Definition try_demote_in (tree : string) (leaf : ResidentPage) (summary : PageRef) : M unit :=
  do ws <- get_ws;
  if decide (ref_kind summary ≠ SummaryNode) then mret tt
  else if decide (est_tokens leaf ≤ ref_tokens summary)%Z then mret tt
  else if pages_contains (pages ws) (ref_addr summary) then mret tt
  else if decide (budget_tokens ws < i32_sat_add (resident_tokens ws) (ref_tokens summary))%Z then mret tt
  else
    do content <- ask_dp (fun w => dp_get backend w tree (ref_addr summary));
    do ord <- advance_clock;
    do_ modify_ws (insert_page (mkPage (ref_addr summary) SummaryNode (ref_importance summary)
                                  (content_tokens content) 1 ord false false None));
    do_ modify_ws (add_resident (content_tokens content));
    modify_out (fun o => push_demoted o (ref_addr summary)).

(** [PagingEngine::evict_one] *)
Definition evict_one (tree : string) (addr : PageAddr) (reason : EvictReason) : M unit :=
  do ws <- get_ws;
  match pages_get (pages ws) addr with
  | None => mret tt
  | Some page =>
      if pinned page then mret tt
      else
        do_ (if dirty page
             then ask_dp (fun w => dp_put backend w tree addr (default "" (p_bytes page)))
             else mret tt);
        do_ modify_ws (fun ws =>
              match pages_remove (pages ws) addr with
              | (Some removed, op) => sub_resident (est_tokens removed) (set_pages ws op)
              | (None, op) => set_pages ws op
              end);
        do_ ask_db (fun w => db_evict_page backend w (session_key ws) (state_cursor ws) addr reason);
        do_ modify_out (fun o => push_evicted o addr);
        do summary <- ask_dp (fun w => dp_summary_of backend w tree [addr]);
        match summary with
        | Some summary => try_demote_in tree page summary
        | None => mret tt
        end
  end.

(** The victim of one round of [evict_to_fit]. *)
Definition next_victim (ws : WorkingSet) : option PageAddr :=
  select_victim find_lfu (ws_policy ws)
    (filter (fun p => pinned p = false) (iter_in_order (pages ws))) (ws_clock ws).

(** [PagingEngine::evict_to_fit]: the loop, with fuel. *)
Fixpoint evict_to_fit (fuel : nat) (tree : string) (needed : Z) : M bool :=
  match fuel with
  | O => out_of_fuel
  | S fuel' =>
      do ws <- get_ws;
      if decide (i32_sat_add (resident_tokens ws) needed ≤ budget_tokens ws)%Z then mret true
      else match next_victim ws with
      | None => mret false
      | Some addr =>
          do_ evict_one tree addr BudgetPressure;
          evict_to_fit fuel' tree needed
      end
  end.

(** One iteration of the loop of [evict_expired]. *)
Definition expire_page (tree : string) (_ : unit) (addr : PageAddr) : M unit :=
  do ws <- get_ws;
  match pages_get (pages ws) addr with
  | None => mret tt
  | Some _ => evict_one tree addr TtlExpired
  end.

(** [PagingEngine::evict_expired] *)
Definition evict_expired (tree : string) : M unit :=
  do ws <- get_ws;
  match ws_ttl ws with
  | None => mret tt
  | Some ttl =>
      if decide (ttl ≤ 0)%Z then mret tt
      else
        let clk := ws_clock ws in
        let expired := p_addr <$> filter (fun p => pinned p = false ∧ (ttl < logical_age p clk)%Z)
                                         (iter_in_order (pages ws)) in
        mfold (expire_page tree) tt expired
  end.

(** The order in which [page_in] considers the candidates: importance, high
    first, then address. *)
Definition cmp_candidate (a b : PageRef) : comparison :=
  then_with (float_cmp (ref_importance b) (ref_importance a))
            (ord_cmp (addr_str (ref_addr a)) (addr_str (ref_addr b))).

(** A demand-hit: [use_count] and recency of a resident page. *)
Definition touch_page (ord : Z) (p : ResidentPage) : ResidentPage :=
  mkPage (p_addr p) (p_kind p) (importance p) (est_tokens p) (u32_sat_add (use_count p) 1) ord
         (dirty p) (pinned p) (p_bytes p).

Definition update_page (a : PageAddr) (f : ResidentPage → ResidentPage) (ws : WorkingSet) : WorkingSet :=
  set_pages ws (pages_update (pages ws) a f).

(** One iteration of the admission loop of [page_in]; the state of the loop is
    [to_admit]. *)
Definition admit_candidate (fuel : nat) (tree : string) (to_admit : list PageRef) (cand : PageRef) :
    M (list PageRef) :=
  let reserve :=
    do_ modify_ws (add_resident (ref_tokens cand));
    mret (to_admit ++ [cand]) in
  let exhausted :=
    do_ modify_out (fun o => push_exhausted o (ref_addr cand));
    mret to_admit in
  do ws <- get_ws;
  if pages_contains (pages ws) (ref_addr cand) then
    do ord <- advance_clock;
    do_ modify_ws (update_page (ref_addr cand) (touch_page ord));
    do_ modify_out (fun o => push_already o (ref_addr cand));
    mret to_admit
  else if decide (budget_tokens ws < ref_tokens cand)%Z then exhausted
  else if fits ws (ref_tokens cand) then reserve
  else
    do freed <- evict_to_fit fuel tree (ref_tokens cand);
    if (freed : bool) then reserve else exhausted.

(** One iteration of the insertion loop of [page_in]. *)
Definition insert_admitted (_ : unit) (r : PageRef) : M unit :=
  do ord <- advance_clock;
  do_ modify_ws (insert_page (mkPage (ref_addr r) (ref_kind r) (ref_importance r) (ref_tokens r) 1 ord
                                     false false None));
  modify_out (fun o => push_admitted o (ref_addr r)).

(** [PagingEngine::page_in].  Of what [get_many] returns only its error
    matters. *)
Definition page_in (fuel : nat) (tree : string) (query : PageQuery) : M PageInOutcome :=
  do_ modify_out (fun _ => outcome_default);
  do candidates <- ask_dp (fun w => dp_resolve backend w tree query);
  let candidates := sort_by cmp_candidate candidates in
  do_ evict_expired tree;
  do to_admit <- mfold (admit_candidate fuel tree) [] candidates;
  match to_admit with
  | [] => do_ persist tree; get_out
  | _ =>
      do contents <- call (fun w => dp_get_many backend w tree (ref_addr <$> to_admit));
      match contents with
      | inl e =>
          do_ mfold (fun _ r => modify_ws (sub_resident (ref_tokens r))) tt to_admit;
          fail (DataPlane e)
      | inr _ =>
          do_ mfold insert_admitted tt to_admit;
          do_ persist tree;
          get_out
      end
  end.

(** The update of a resident scratch page. *)
Definition rewrite_page (tokens : Z) (imp : f32) (bytes : string) (ord : Z) (p : ResidentPage) :
    ResidentPage :=
  mkPage (p_addr p) (p_kind p) imp tokens (u32_sat_add (use_count p) 1) ord true (pinned p) (Some bytes).

(** The end of [admit_scratch]: the page is not resident. *)
Definition admit_new_scratch (fuel : nat) (tree : string) (addr : PageAddr) (bytes : string)
    (imp : f32) (new_tokens : Z) : M PageInOutcome :=
  let exhausted :=
    do_ modify_out (fun o => push_exhausted o addr);
    do_ persist tree; get_out in
  let take_in :=
    do ord <- advance_clock;
    do_ modify_ws (insert_page (mkPage addr FileChunk imp new_tokens 1 ord true false (Some bytes)));
    do_ modify_ws (add_resident new_tokens);
    do_ modify_out (fun o => push_admitted o addr);
    do_ persist tree; get_out in
  do ws <- get_ws;
  if decide (budget_tokens ws < new_tokens)%Z then exhausted
  else if fits ws new_tokens then take_in
  else
    do freed <- evict_to_fit fuel tree new_tokens;
    if (freed : bool) then take_in else exhausted.

(** [PagingEngine::admit_scratch] *)
Definition admit_scratch (fuel : nat) (tree : string) (addr : PageAddr) (bytes : string) (imp : f32) :
    M PageInOutcome :=
  let new_tokens := estimate_tokens bytes in
  do_ modify_out (fun _ => outcome_default);
  do_ ask_dp (fun w => dp_put backend w tree addr bytes);
  do ws <- get_ws;
  match pages_get (pages ws) addr with
  | Some existing =>
      let delta := i32_sat_sub new_tokens (est_tokens existing) in
      do freed <- (if decide (0 < delta)%Z
                   then if fits ws delta then mret true else evict_to_fit fuel tree delta
                   else mret true);
      if (freed : bool) then
        do ord <- advance_clock;
        do ws' <- get_ws;
        match pages_get (pages ws') addr with
        | Some _ =>
            do_ modify_ws (update_page addr (rewrite_page new_tokens imp bytes ord));
            do_ modify_ws (add_resident delta);
            do_ modify_out (fun o => push_already o addr);
            do_ persist tree; get_out
        | None => admit_new_scratch fuel tree addr bytes imp new_tokens
        end
      else
        do_ modify_out (fun o => push_exhausted o addr);
        do_ persist tree; get_out
  | None => admit_new_scratch fuel tree addr bytes imp new_tokens
  end.
End engine.

Arguments Backend W : clear implicits.
Arguments Eng W : clear implicits.
