(* ===== verification/TapeInvariants.v ===== *)
(** What the paging engine guarantees: the accounting of tokens, the budget,
    pinned pages, and that making room ends. *)

From Stdlib Require Import ZArith SpecFloat.
From stdpp Require Import base strings list gmap.
From S2P Require Import Prelude Numbers BTree Vocab TapeWorkingSet TapePolicy TapeEngine.

Local Open Scope Z_scope.

(** * The interface of the data plane

    What the engine relies on: token estimates are not negative, and the
    content of a summary is no larger than the reference announced. *)
Class BackendLaws {W : Type} (b : Backend W) : Prop := {
  law_resolve : ∀ w t q w' rs, dp_resolve b w t q = (w', inr rs) → Forall (fun r => 0 ≤ ref_tokens r) rs;
  law_summary : ∀ w t l w' r, dp_summary_of b w t l = (w', inr (Some r)) →
    ∀ w'' c, dp_get b w' t (ref_addr r) = (w'', inr c) → 0 ≤ content_tokens c ≤ ref_tokens r;
}.

(** * Weakest preconditions

    [wp m Q E s]: run from [s], [m] returns with [Q] or fails with [E]; it does
    not panic and does not run out of fuel. *)
Section wp.
Context {W : Type}.

Definition wp {A} (m : M A) (Q : A → Eng W → Prop) (E : Eng W → Prop) (s : Eng W) : Prop :=
  match m s with
  | (Ok a, s') => Q a s'
  | (Err _, s') => E s'
  | (Panic, _) | (OutOfFuel, _) => False
  end.

Definition set_world (s : Eng W) (w : W) : Eng W := mkEng (e_ws s) (e_out s) w.

Lemma wp_ret {A} (a : A) Q E s : Q a s → wp (mret a) Q E s.
Proof. done. Qed.

Lemma wp_bind {A B} (m : M A) (k : A → M B) Q E s :
  wp m (fun a s' => wp (k a) Q E s') E s → wp (mbind m k) Q E s.
Proof. unfold wp, mbind. destruct (m s) as [[] ?]; done. Qed.

Lemma wp_mono {A} (m : M A) (Q Q' : A → Eng W → Prop) (E E' : Eng W → Prop) s :
  wp m Q E s → (∀ a s', Q a s' → Q' a s') → (∀ s', E s' → E' s') → wp m Q' E' s.
Proof. unfold wp. destruct (m s) as [[] ?]; auto. Qed.

Lemma wp_get_ws Q E s : Q (e_ws s) s → wp get_ws Q E s.
Proof. done. Qed.

Lemma wp_modify_ws f Q E s : Q tt (mkEng (f (e_ws s)) (e_out s) (e_world s)) → wp (modify_ws f) Q E s.
Proof. done. Qed.

Lemma wp_ask_dp {A} (op : W → W * (TapeError + A)) Q E s :
  (∀ w' e, op (e_world s) = (w', inl e) → E (set_world s w')) →
  (∀ w' a, op (e_world s) = (w', inr a) → Q a (set_world s w')) → wp (ask_dp op) Q E s.
Proof.
  intros He Hq. unfold wp, ask_dp, mbind, call. destruct (op (e_world s)) as [w' [e|a]] eqn:Eo; simpl;
    [by eapply He|by eapply Hq].
Qed.

Lemma wp_ask_db {A} (op : W → W * (string + A)) Q E s :
  (∀ w', E (set_world s w')) → (∀ w' a, Q a (set_world s w')) → wp (ask_db op) Q E s.
Proof.
  intros He Hq. unfold wp, ask_db, mbind, call. destruct (op (e_world s)) as [w' [e|a]] eqn:Eo; simpl;
    [apply (He w')|apply (Hq w')].
Qed.

(** A loop keeps what each of its rounds keeps. *)
Lemma wp_mfold {A S} (f : S → A → M S) (I : S → list A → Eng W → Prop) Q E xs : ∀ acc s,
  I acc xs s → (∀ acc s, I acc [] s → Q acc s) →
  (∀ acc x xs s, I acc (x :: xs) s → wp (f acc x) (fun acc' s' => I acc' xs s') E s) →
  wp (mfold f acc xs) Q E s.
Proof.
  induction xs as [|x xs IH]; intros acc s HI HQ Hstep; simpl; [by apply HQ|].
  apply wp_bind. eapply wp_mono; [by apply Hstep| |done]. intros acc' s' HI'. by apply IH.
Qed.
End wp.

(** * The invariant *)
Section engine.
Context {W : Type} (b : Backend W) `{!BackendLaws b}.
Context (find_lfu : list (string * nat) → list string → list string → option string).

(** [rsv] tokens are reserved for pages to be admitted, [k] more are counted
    without a page. *)
Record inv (k rsv : Z) (ws : WorkingSet) : Prop := {
  inv_ok : pages_ok (pages ws);
  inv_tokens : map_Forall (fun _ p => 0 ≤ est_tokens p) (op_map (pages ws));
  inv_acct : resident_tokens ws = total_tokens (pages ws) + rsv + k;
  inv_slack : 0 ≤ k;
  inv_rsv : 0 ≤ rsv;
  inv_budget : resident_tokens ws ≤ budget_tokens ws;
  inv_max : budget_tokens ws < i32_max;
}.

(** An address the data plane gives to a summary. *)
Definition summary_addr (a : PageAddr) : Prop :=
  ∃ w t l w' r, dp_summary_of b w t l = (w', inr (Some r)) ∧ ref_addr r = a.

(** What bounds the number of evictions. *)
Definition evictable (p : ResidentPage) : Z := if pinned p then 0 else est_tokens p + 1.
Definition mu (ws : WorkingSet) : Z := weigh evictable (op_map (pages ws)).

Definition pinned_at (ws : WorkingSet) (a : PageAddr) : Prop :=
  ∃ p, op_map (pages ws) !! a = Some p ∧ pinned p = true.

(** How a working set changes while room is made, [n] bounding the growth of
    [mu]. *)
Record evolves (n : Z) (ws ws' : WorkingSet) : Prop := {
  ev_budget : budget_tokens ws' = budget_tokens ws;
  ev_mu : mu ws' ≤ mu ws + n;
  ev_pinned : ∀ a, pinned_at ws' a ↔ pinned_at ws a;
  ev_pages : ∀ a p', op_map (pages ws') !! a = Some p' →
    summary_addr a ∨ ∃ p, op_map (pages ws) !! a = Some p ∧ est_tokens p' = est_tokens p;
}.

Lemma ev_dom n ws ws' : evolves n ws ws' →
  ∀ a, is_Some (op_map (pages ws') !! a) → is_Some (op_map (pages ws) !! a) ∨ summary_addr a.
Proof. intros Hev a [p' Hp']. destruct (ev_pages _ _ _ Hev a p' Hp') as [?|(p & ? & _)]; eauto. Qed.

Lemma evolves_refl ws : evolves 0 ws ws.
Proof. split; [done|lia|done|eauto]. Qed.

Lemma evolves_trans n m w1 w2 w3 : evolves n w1 w2 → evolves m w2 w3 → evolves (n + m) w1 w3.
Proof.
  intros [B1 M1 P1 D1] [B2 M2 P2 D2]. split; [congruence|lia|intros a; by rewrite P2|].
  - intros a p3 H3. destruct (D2 a p3 H3) as [?|(p2 & H2 & E2)]; [by left|].
    destruct (D1 a p2 H2) as [?|(p1 & H1 & E1)]; [by left|]. right. exists p1. split; congruence.
Qed.

Lemma evolves_le n m ws ws' : evolves n ws ws' → n ≤ m → evolves m ws ws'.
Proof. intros [B1 M1 P1 D1] Hle. split; [done|lia|done|done]. Qed.

(** ** The elementary steps *)

Lemma inv_set_clock k rsv ws c : inv k rsv ws → inv k rsv (set_clock ws c).
Proof. by intros []. Qed.

Lemma evolves_set_clock ws c : evolves 0 ws (set_clock ws c).
Proof. split; [done| |done|eauto]. change (mu (set_clock ws c)) with (mu ws). lia. Qed.

Lemma inv_total_nonneg k rsv ws : inv k rsv ws → 0 ≤ total_tokens (pages ws).
Proof. intros Hi. apply weigh_nonneg, Hi. Qed.

Definition drop_page (a : PageAddr) (ws : WorkingSet) : WorkingSet :=
  match pages_remove (pages ws) a with
  | (Some removed, op) => sub_resident (est_tokens removed) (set_pages ws op)
  | (None, op) => set_pages ws op
  end.

Lemma drop_page_spec k rsv ws a p : inv k rsv ws → op_map (pages ws) !! a = Some p → pinned p = false →
  inv k rsv (drop_page a ws) ∧ evolves (- est_tokens p - 1) ws (drop_page a ws).
Proof.
  intros Hi Ha Hp. pose proof (inv_total_nonneg _ _ _ Hi) as Htot. destruct Hi as [Hok Ht Hacct Hk Hr Hb Hm].
  unfold drop_page. pose proof (pages_remove_map (pages ws) a) as Emap.
  pose proof (pages_remove_ok (pages ws) a Hok) as Hok'.
  assert (Er : (pages_remove (pages ws) a).1 = Some p) by (unfold pages_remove; by rewrite Ha).
  destruct (pages_remove (pages ws) a) as [o op]. simpl in *. subst o.
  assert (Hd : total_tokens (pages ws) = est_tokens p + total_tokens op).
  { unfold total_tokens. rewrite Emap. by apply weigh_delete. }
  assert (Hmu : mu ws = est_tokens p + 1 + weigh evictable (op_map op)).
  { unfold mu. rewrite Emap, (weigh_delete _ _ a p Ha). unfold evictable at 1. rewrite Hp. lia. }
  assert (Hpos : 0 ≤ est_tokens p) by by apply (Ht a).
  assert (Htot' : 0 ≤ total_tokens op).
  { apply weigh_nonneg. rewrite Emap. by apply map_Forall_delete. }
  assert (Hsub : i32_sat_sub (resident_tokens ws) (est_tokens p) = resident_tokens ws - est_tokens p).
  { apply i32_sat_sub_exact. unfold i32_min. lia. }
  split.
  - split; simpl; [done| | |done|done| |done].
    + rewrite Emap. by apply map_Forall_delete.
    + rewrite Hsub. lia.
    + rewrite Hsub. lia.
  - split; simpl; [done| | |].
    + unfold mu at 1. simpl. lia.
    + intros a'. unfold pinned_at. simpl. rewrite Emap. destruct (decide (a = a')) as [<-|].
      * rewrite lookup_delete_eq, Ha. naive_solver congruence.
      * by rewrite lookup_delete_ne.
    + intros a' p' H'. rewrite Emap in H'. apply lookup_delete_Some in H' as [_ H']. eauto.
Qed.

(** A summary at a free address, its tokens counted. *)
Lemma add_page_spec k rsv ws p : inv k rsv ws → op_map (pages ws) !! p_addr p = None →
  0 ≤ est_tokens p → resident_tokens ws + est_tokens p ≤ budget_tokens ws →
  let ws' := add_resident (est_tokens p) (insert_page p ws) in
  inv k rsv ws' ∧ (summary_addr (p_addr p) → pinned p = false → evolves (est_tokens p + 1) ws ws').
Proof.
  intros Hi Ha Hpos Hfit ws'. pose proof (inv_total_nonneg _ _ _ Hi) as Htot.
  destruct Hi as [Hok Ht Hacct Hk Hr Hb Hm].
  assert (Hadd : i32_sat_add (resident_tokens ws) (est_tokens p) = resident_tokens ws + est_tokens p).
  { apply i32_sat_add_exact. unfold i32_min, i32_max in *. lia. }
  assert (Etot : total_tokens (pages ws') = est_tokens p + total_tokens (pages ws)).
  { unfold total_tokens. simpl. by rewrite weigh_insert. }
  split.
  - split; simpl; [by apply pages_insert_ok| | |done|done| |done].
    + by apply map_Forall_insert_2.
    + rewrite Hadd. simpl in Etot. unfold total_tokens in *. simpl in *. lia.
    + rewrite Hadd. lia.
  - intros Hs Hp. split; simpl; [done| | |].
    + unfold mu. simpl. rewrite weigh_insert by done. unfold evictable at 1. rewrite Hp. lia.
    + intros a. unfold pinned_at. simpl. destruct (decide (p_addr p = a)) as [<-|].
      * rewrite lookup_insert_eq, Ha. naive_solver congruence.
      * by rewrite lookup_insert_ne.
    + intros a q. destruct (decide (p_addr p = a)) as [<-|]; [auto|]. rewrite lookup_insert_ne by done. eauto.
Qed.

Lemma wp_advance_clock Q E (s : Eng W) :
  (∀ s', e_ws s' = e_ws s → E s') →
  (∀ ord c s', e_ws s' = set_clock (e_ws s) c → e_out s' = e_out s → Q ord s') →
  wp (advance_clock b) Q E s.
Proof.
  intros He Hq. unfold advance_clock. apply wp_bind, wp_get_ws, wp_bind, wp_ask_db; [by intros; apply He|].
  intros w' c. apply wp_bind, wp_modify_ws, wp_ret. by eapply Hq.
Qed.

(** ** Making room *)

(** [P] of the working set, on success and on failure. *)
Notation keeps k rsv n ws0 := (fun s => inv k rsv (e_ws s) ∧ evolves n ws0 (e_ws s)).

Lemma try_demote_in_spec k rsv tree leaf summary (s : Eng W) :
  inv k rsv (e_ws s) → summary_addr (ref_addr summary) →
  (∀ w' c, dp_get b (e_world s) tree (ref_addr summary) = (w', inr c) →
     0 ≤ content_tokens c ≤ ref_tokens summary) →
  0 ≤ est_tokens leaf →
  wp (try_demote_in b tree leaf summary) (fun _ => keeps k rsv (est_tokens leaf) (e_ws s))
     (keeps k rsv (est_tokens leaf) (e_ws s)) s.
Proof.
  intros Hi Hsum Hc Hleaf.
  assert (Hrefl : evolves (est_tokens leaf) (e_ws s) (e_ws s)) by (eapply evolves_le; [apply evolves_refl|done]).
  unfold try_demote_in. apply wp_bind, wp_get_ws.
  case_decide; [by apply wp_ret|]. case_decide as Hsmall; [by apply wp_ret|].
  destruct (pages_contains _ _) eqn:Hcont; [by apply wp_ret|].
  case_decide as Hfit; [by apply wp_ret|].
  apply wp_bind, wp_ask_dp; [done|]. intros w' c Hget. specialize (Hc _ _ Hget).
  apply wp_bind, wp_advance_clock.
  { intros s' E. rewrite E. done. }
  intros ord clk s' E _. apply wp_bind, wp_modify_ws, wp_bind, wp_modify_ws. unfold wp, modify_out. simpl.
  rewrite E. simpl.
  destruct (add_page_spec k rsv (set_clock (e_ws s) clk)
    (mkPage (ref_addr summary) SummaryNode (ref_importance summary) (content_tokens c) 1 ord false false None))
    as [Hi' Hev]; [by apply inv_set_clock| | | |].
  - unfold pages_contains in Hcont. apply bool_decide_eq_false in Hcont. simpl. by apply eq_None_not_Some.
  - simpl. lia.
  - simpl. apply Z.nlt_ge in Hfit. apply i32_sat_add_le in Hfit; [lia|apply Hi].
  - split; [exact Hi'|]. specialize (Hev Hsum eq_refl). simpl in Hev.
    eapply evolves_le; [eapply evolves_trans; [apply evolves_set_clock|exact Hev]|lia].
Qed.

(** Evicting an unpinned resident page, summary included, makes [mu] smaller. *)
Lemma evict_one_spec k rsv tree a reason p (s : Eng W) :
  inv k rsv (e_ws s) → op_map (pages (e_ws s)) !! a = Some p → pinned p = false →
  wp (evict_one b tree a reason) (fun _ => keeps k rsv (-1) (e_ws s)) (keeps k rsv 0 (e_ws s)) s.
Proof using BackendLaws0.
  intros Hi Ha Hp. unfold evict_one, pages_get. apply wp_bind, wp_get_ws. rewrite Ha, Hp.
  assert (Hpos : 0 ≤ est_tokens p) by by apply (inv_tokens _ _ _ Hi a).
  pose proof (evolves_refl (e_ws s)) as Hrefl.
  assert (Hrest : ∀ s1, e_ws s1 = e_ws s → wp
    (mbind (modify_ws (drop_page a)) (fun _ =>
     mbind (ask_db (fun w => db_evict_page b w (session_key (e_ws s)) (state_cursor (e_ws s)) a reason)) (fun _ =>
     mbind (modify_out (fun o => push_evicted o a)) (fun _ =>
     mbind (ask_dp (fun w => dp_summary_of b w tree [a])) (fun summary =>
       match summary with Some summary => try_demote_in b tree p summary | None => mret tt end)))))
    (fun _ => keeps k rsv (-1) (e_ws s)) (keeps k rsv 0 (e_ws s)) s1).
  { intros s1 Es1. apply wp_bind, wp_modify_ws. rewrite Es1.
    destruct (drop_page_spec k rsv (e_ws s) a p Hi Ha Hp) as [Hi' Hev].
    assert (Hev0 : evolves 0 (e_ws s) (drop_page a (e_ws s))) by (eapply evolves_le; [exact Hev|lia]).
    apply wp_bind, wp_ask_db; [done|]. intros w1 _. apply wp_bind. unfold wp at 1, modify_out. simpl.
    apply wp_bind, wp_ask_dp; [done|]. intros w2 [summary|] Hsum.
    - eapply wp_mono; [apply (try_demote_in_spec k rsv)| |].
      + done.
      + by exists (e_world (set_world (mkEng (drop_page a (e_ws s)) (e_out s1) (e_world s1)) w1)), tree, [a], w2, summary.
      + intros ww c Hg. by eapply law_summary.
      + done.
      + intros _ s' [Hi2 Hev2]. split; [done|]. simpl in Hev2.
        eapply evolves_le; [eapply evolves_trans; [exact Hev|exact Hev2]|lia].
      + intros s' [Hi2 Hev2]. split; [done|]. simpl in Hev2.
        eapply evolves_le; [eapply evolves_trans; [exact Hev|exact Hev2]|lia].
    - apply wp_ret. split; [done|]. eapply evolves_le; [exact Hev|lia]. }
  apply wp_bind. destruct (dirty p).
  - apply wp_ask_dp; [done|]. intros w' _ _. by apply Hrest.
  - apply wp_ret. by apply Hrest.
Qed.

Lemma next_victim_resident k rsv ws a : inv k rsv ws → next_victim find_lfu ws = Some a →
  ∃ p, op_map (pages ws) !! a = Some p ∧ pinned p = false.
Proof.
  intros Hi H. apply select_victim_elem in H as (p & Hp & <-).
  apply list_elem_of_filter in Hp as [Hpin Hp]. apply iter_in_order_elem in Hp; [eauto|apply Hi].
Qed.

Lemma mu_nonneg k rsv ws : inv k rsv ws → 0 ≤ mu ws.
Proof.
  intros Hi. apply weigh_nonneg. intros a p Hp. unfold evictable.
  pose proof (inv_tokens _ _ _ Hi a p Hp). simpl in *. destruct (pinned p); lia.
Qed.

Lemma evict_to_fit_spec k rsv tree needed fuel : ∀ s : Eng W, inv k rsv (e_ws s) →
  mu (e_ws s) < Z.of_nat fuel →
  wp (evict_to_fit b find_lfu fuel tree needed)
     (fun ok s' => (inv k rsv (e_ws s') ∧ evolves 0 (e_ws s) (e_ws s')) ∧
        if ok then resident_tokens (e_ws s') + needed ≤ budget_tokens (e_ws s')
        else next_victim find_lfu (e_ws s') = None)
     (keeps k rsv 0 (e_ws s)) s.
Proof using BackendLaws0.
  induction fuel as [|fuel IH]; intros s Hi Hmu.
  { pose proof (mu_nonneg _ _ _ Hi). lia. }
  simpl. apply wp_bind, wp_get_ws. case_decide as Hfit.
  { apply wp_ret. split; [split; [done|apply evolves_refl]|]. apply i32_sat_add_le in Hfit; [done|apply Hi]. }
  destruct (next_victim find_lfu (e_ws s)) as [a|] eqn:Hv.
  - destruct (next_victim_resident _ _ _ _ Hi Hv) as (p & Ha & Hp).
    apply wp_bind. eapply wp_mono; [by apply (evict_one_spec k rsv tree a BudgetPressure p)| |done].
    intros _ s' [Hi' Hev]. eapply wp_mono; [apply IH; [done|]| |].
    + pose proof (ev_mu _ _ _ Hev). lia.
    + intros ok s2 [[Hi2 Hev2] Hok]. split; [|done]. split; [done|].
      eapply evolves_le; [by eapply evolves_trans|lia].
    + intros s2 [Hi2 Hev2]. split; [done|]. eapply evolves_le; [by eapply evolves_trans|lia].
  - apply wp_ret. split; [|done]. split; [done|apply evolves_refl].
Qed.

Lemma evict_one_any k rsv tree a reason (s : Eng W) : inv k rsv (e_ws s) →
  wp (evict_one b tree a reason) (fun _ => keeps k rsv 0 (e_ws s)) (keeps k rsv 0 (e_ws s)) s.
Proof using BackendLaws0.
  intros Hi. destruct (op_map (pages (e_ws s)) !! a) as [p|] eqn:Ha; [destruct (pinned p) eqn:Hp|].
  - unfold wp, evict_one, mbind, get_ws, pages_get. rewrite Ha, Hp. simpl. auto using evolves_refl.
  - eapply wp_mono; [by apply (evict_one_spec k rsv tree a reason p)| |done].
    intros _ s' [Hi' Hev]. split; [done|]. eapply evolves_le; [done|lia].
  - unfold wp, evict_one, mbind, get_ws, pages_get. rewrite Ha. simpl. auto using evolves_refl.
Qed.

Lemma evict_expired_spec k rsv tree (s : Eng W) : inv k rsv (e_ws s) →
  wp (evict_expired b tree) (fun _ => keeps k rsv 0 (e_ws s)) (keeps k rsv 0 (e_ws s)) s.
Proof using BackendLaws0.
  intros Hi. unfold evict_expired. apply wp_bind, wp_get_ws.
  destruct (ws_ttl (e_ws s)) as [ttl|]; [|apply wp_ret; auto using evolves_refl].
  case_decide; [apply wp_ret; auto using evolves_refl|].
  apply (wp_mfold (expire_page b tree) (fun _ _ => keeps k rsv 0 (e_ws s))); [auto using evolves_refl|done|].
  intros [] a _ s' [Hi' Hev]. unfold expire_page. apply wp_bind, wp_get_ws.
  destruct (pages_get _ _); [|by apply wp_ret].
  eapply wp_mono; [by apply (evict_one_any k rsv)|intros _ s2 [Hi2 Hev2]|intros s2 [Hi2 Hev2]];
    (split; [done|]); by apply (evolves_trans 0 0 _ (e_ws s')).
Qed.

(** ** Admission *)

Definition sum_tokens (rs : list PageRef) : Z := foldr (fun r n => ref_tokens r + n) 0 rs.

Lemma sum_tokens_snoc rs r : sum_tokens (rs ++ [r]) = sum_tokens rs + ref_tokens r.
Proof. induction rs as [|x rs IH]; simpl; [lia|]. rewrite IH. lia. Qed.

Lemma update_page_spec k rsv ws a f : inv k rsv ws →
  (∀ p, p_addr (f p) = p_addr p ∧ est_tokens (f p) = est_tokens p ∧ pinned (f p) = pinned p) →
  inv k rsv (update_page a f ws) ∧ evolves 0 ws (update_page a f ws).
Proof.
  intros [Hok Ht Hacct Hk Hr Hb Hm] Hf.
  assert (Hw : ∀ w, (∀ p, w (f p) = w p) → weigh w (alter f a (op_map (pages ws))) = weigh w (op_map (pages ws))).
  { intros w Hwf. destruct (op_map (pages ws) !! a) as [p|] eqn:Ha.
    - assert (alter f a (op_map (pages ws)) = <[a := f p]> (op_map (pages ws))) as ->.
      { apply map_eq. intros j. destruct (decide (a = j)) as [<-|].
        - by rewrite lookup_alter_eq, lookup_insert_eq, Ha.
        - by rewrite lookup_alter_ne, lookup_insert_ne. }
      rewrite weigh_overwrite, Ha. simpl. rewrite Hwf. lia.
    - by rewrite alter_id by naive_solver. }
  split; [split|split]; simpl; try done.
  - apply pages_update_ok; [intros; apply Hf|done].
  - intros a' p Hp. simpl in Hp. apply lookup_alter_Some in Hp as [(-> & q & Hq & ->)|[_ Hp]];
      [|by apply (Ht a')]. simpl. destruct (Hf q) as (_ & -> & _). by apply (Ht a').
  - unfold total_tokens. simpl. rewrite Hw; [done|]. intros; apply Hf.
  - unfold mu. simpl. rewrite Hw; [lia|]. intros p. unfold evictable. by destruct (Hf p) as (_ & -> & ->).
  - intros a'. unfold pinned_at. simpl. destruct (decide (a = a')) as [<-|]; [|by rewrite lookup_alter_ne].
    rewrite lookup_alter_eq. destruct (op_map (pages ws) !! a) as [p|]; simpl; [|done].
    split; intros (q & [= <-] & Hq); eexists; (split; [done|]); destruct (Hf p) as (_ & _ & E); congruence.
  - intros a' q Hq. right. apply lookup_alter_Some in Hq as [(-> & p & Hp & ->)|[_ Hq]]; [|eauto].
    exists p. split; [done|]. apply Hf.
Qed.

Lemma reserve_spec k rsv ws n : inv k rsv ws → 0 ≤ n → resident_tokens ws + n ≤ budget_tokens ws →
  inv k (rsv + n) (add_resident n ws) ∧ evolves 0 ws (add_resident n ws).
Proof.
  intros Hi Hn Hfit. pose proof (inv_total_nonneg _ _ _ Hi) as Htot.
  destruct Hi as [Hok Ht Hacct Hk Hr Hb Hm].
  assert (Hadd : i32_sat_add (resident_tokens ws) n = resident_tokens ws + n).
  { apply i32_sat_add_exact. unfold i32_min, i32_max in *. lia. }
  split; [split; simpl; try done; rewrite ?Hadd; try lia|split; simpl; [done| |done|eauto]].
  change (mu (add_resident n ws)) with (mu ws). lia.
Qed.

(** Candidates the data plane names once, none of them a summary. *)
Definition distinct (rs : list PageRef) : Prop :=
  NoDup (ref_addr <$> rs) ∧ Forall (fun r => ¬ summary_addr (ref_addr r)) rs.

Definition fresh (ws : WorkingSet) (r : PageRef) : Prop := op_map (pages ws) !! ref_addr r = None.

(** The invariant of the admission loop. *)
Record admitting (k : Z) (D : Prop) (ws0 : WorkingSet) (acc rest : list PageRef) (ws : WorkingSet) : Prop := {
  ad_inv : inv k (sum_tokens acc) ws;
  ad_ev : evolves 0 ws0 ws;
  ad_rest : Forall (fun r => 0 ≤ ref_tokens r) rest;
  ad_acc : Forall (fun r => 0 ≤ ref_tokens r) acc;
  ad_unpinned : Forall (fun r => ¬ pinned_at ws (ref_addr r)) acc;
  ad_distinct : D → distinct (acc ++ rest);
  ad_fresh : D → Forall (fresh ws) acc;
}.

Lemma admitting_evolve k D ws0 acc rest ws : admitting k D ws0 acc rest ws →
  ∀ ws', inv k (sum_tokens acc) ws' → evolves 0 ws ws' → admitting k D ws0 acc rest ws'.
Proof.
  intros [Hi Hev Hr Ha Hu Hd Hf] ws' Hi' Hev'.
  split; [done|by apply (evolves_trans 0 0 _ ws)|done|done| |done|].
  - eapply Forall_impl; [exact Hu|]. intros x Hx. by rewrite (ev_pinned _ _ _ Hev').
  - intros HD. specialize (Hf HD). destruct (Hd HD) as [_ Hs]. apply Forall_app in Hs as [Hs _].
    rewrite Forall_forall in *. intros x Hx. specialize (Hf x Hx). unfold fresh in *.
    apply eq_None_not_Some. intros Hsome. destruct (ev_dom _ _ _ Hev' _ Hsome) as [[? ?]|?]; [congruence|].
    by apply (Hs x Hx).
Qed.

Lemma admitting_skip k D ws0 acc r rest ws :
  admitting k D ws0 acc (r :: rest) ws → admitting k D ws0 acc rest ws.
Proof.
  intros [Hi Hev Hr Ha Hu Hd Hf]. split; [done|done|by inversion Hr|done|done| |done].
  intros HD. destruct (Hd HD) as [Hnd Hs]. split.
  - rewrite fmap_app in *. apply NoDup_app in Hnd as (H1 & H2 & H3%NoDup_cons). apply NoDup_app.
    split_and!; [done| |by destruct H3]. intros a Ha1 Ha2. apply (H2 a Ha1). by right.
  - rewrite Forall_app in *. destruct Hs as [Hs1 Hs2]. by inversion Hs2.
Qed.

Lemma admitting_reserve k D ws0 acc r rest ws : admitting k D ws0 acc (r :: rest) ws →
  ¬ pinned_at ws (ref_addr r) → (D → fresh ws r) →
  resident_tokens ws + ref_tokens r ≤ budget_tokens ws →
  admitting k D ws0 (acc ++ [r]) rest (add_resident (ref_tokens r) ws).
Proof.
  intros [Hi Hev Hr Ha Hu Hd Hf] Hpin Hfresh Hfit. inversion Hr as [|? ? Hn Hr']; subst.
  destruct (reserve_spec _ _ _ _ Hi Hn Hfit) as [Hi' Hev'].
  split; [by rewrite sum_tokens_snoc|by apply (evolves_trans 0 0 _ ws)|done| | | |].
  - by apply Forall_app_2, Forall_singleton.
  - by apply Forall_app_2, Forall_singleton.
  - intros HD. rewrite <- app_assoc. by apply Hd.
  - intros HD. apply Forall_app_2, Forall_singleton; [by apply Hf|by apply Hfresh].
Qed.

(** The end of a method: nothing is reserved, [k] did not shrink, the same
    pages are pinned. *)
Definition settled (k : Z) (ws0 ws : WorkingSet) : Prop :=
  ∃ k', k ≤ k' ∧ inv k' 0 ws ∧ budget_tokens ws = budget_tokens ws0 ∧
        ∀ a, pinned_at ws a ↔ pinned_at ws0 a.

Lemma settled_intro k rsv n ws0 ws : inv k rsv ws → evolves n ws0 ws → settled k ws0 ws.
Proof.
  intros Hi Hev. exists (k + rsv). destruct Hi. split_and!; [lia| |apply Hev|apply Hev].
  split; try done; lia.
Qed.

Lemma settled_trans k n ws0 ws1 ws : settled k ws1 ws → evolves n ws0 ws1 → settled k ws0 ws.
Proof.
  intros (k' & Hk & Hi & Hb & Hp) Hev. exists k'. split_and!; [done|done| |].
  - rewrite Hb. apply Hev.
  - intros a. rewrite Hp. apply Hev.
Qed.

Lemma admit_candidate_spec k D ws0 tree fuel acc r rest (s : Eng W) :
  admitting k D ws0 acc (r :: rest) (e_ws s) → mu ws0 < Z.of_nat fuel →
  wp (admit_candidate b find_lfu fuel tree acc r) (fun acc' s' => admitting k D ws0 acc' rest (e_ws s'))
     (fun s' => settled k ws0 (e_ws s')) s.
Proof using BackendLaws0.
  intros Had Hmu. pose proof (ad_inv _ _ _ _ _ _ Had) as Hi. pose proof (ad_ev _ _ _ _ _ _ Had) as Hev.
  unfold admit_candidate. apply wp_bind, wp_get_ws.
  destruct (pages_contains (pages (e_ws s)) (ref_addr r)) eqn:Hc.
  { apply wp_bind, wp_advance_clock; [intros s' ->; by eapply settled_intro|].
    intros ord c s' E _. apply wp_bind, wp_modify_ws, wp_bind. unfold wp at 1, modify_out. simpl.
    apply wp_ret. simpl. rewrite E.
    destruct (update_page_spec k (sum_tokens acc) (set_clock (e_ws s) c) (ref_addr r) (touch_page ord))
      as [Hi' Hev']; [by apply inv_set_clock|done|].
    apply admitting_skip with r. eapply admitting_evolve; [exact Had|done|].
    apply (evolves_trans 0 0 _ (set_clock (e_ws s) c)); [apply evolves_set_clock|done]. }
  assert (Hnone : op_map (pages (e_ws s)) !! ref_addr r = None).
  { unfold pages_contains in Hc. apply bool_decide_eq_false in Hc. by apply eq_None_not_Some. }
  assert (Hpin : ¬ pinned_at (e_ws s) (ref_addr r)) by (unfold pinned_at; rewrite Hnone; naive_solver).
  case_decide; [by apply wp_bind, wp_ret, (admitting_skip _ _ _ _ r)|].
  destruct (fits (e_ws s) (ref_tokens r)) eqn:Hfit.
  { apply wp_bind, wp_modify_ws, wp_ret. apply bool_decide_eq_true, i32_sat_add_le in Hfit; [|apply Hi].
    by apply admitting_reserve. }
  apply wp_bind. eapply wp_mono; [apply (evict_to_fit_spec k (sum_tokens acc)); [done|]| |].
  - pose proof (ev_mu _ _ _ Hev). lia.
  - intros ok s' [[Hi' Hev'] Hok].
    pose proof (admitting_evolve _ _ _ _ _ _ Had _ Hi' Hev') as Had'.
    destruct ok; [|by apply wp_bind, wp_ret, (admitting_skip _ _ _ _ r)].
    apply wp_bind, wp_modify_ws, wp_ret. apply admitting_reserve; [done| | |done].
    + by rewrite (ev_pinned _ _ _ Hev').
    + intros HD. destruct (ad_distinct _ _ _ _ _ _ Had HD) as [_ Hs].
      apply Forall_app in Hs as [_ Hs]. inversion Hs as [|? ? Hns _]; subst.
      apply eq_None_not_Some. intros Hsome. by destruct (ev_dom _ _ _ Hev' _ Hsome) as [[? ?]|?]; [congruence|].
  - intros s' [Hi' Hev']. eapply settled_intro; [done|]. by apply (evolves_trans 0 0 _ (e_ws s)).
Qed.

(** What remains to be inserted. *)
Record inserting (k : Z) (D : Prop) (ws0 : WorkingSet) (rs : list PageRef) (ws : WorkingSet) : Prop := {
  in_inv : ∃ k', k ≤ k' ∧ inv k' (sum_tokens rs) ws ∧ (D → k' = k);
  in_tokens : Forall (fun r => 0 ≤ ref_tokens r) rs;
  in_unpinned : Forall (fun r => ¬ pinned_at ws (ref_addr r)) rs;
  in_fresh : D → NoDup (ref_addr <$> rs) ∧ Forall (fresh ws) rs;
  in_budget : budget_tokens ws = budget_tokens ws0;
  in_pins : ∀ a, pinned_at ws a ↔ pinned_at ws0 a;
}.

Lemma sum_tokens_nonneg rs : Forall (fun r => 0 ≤ ref_tokens r) rs → 0 ≤ sum_tokens rs.
Proof. induction 1; simpl; lia. Qed.

(** A page already accounted for; what it replaces is counted in vain. *)
Lemma insert_reserved k rsv ws p : inv k (est_tokens p + rsv) ws → 0 ≤ est_tokens p → 0 ≤ rsv →
  inv (k + from_option est_tokens 0 (op_map (pages ws) !! p_addr p)) rsv (insert_page p ws).
Proof.
  intros [Hok Ht Hacct Hk Hr Hb Hm] Hp Hrsv.
  assert (Hold : 0 ≤ from_option est_tokens 0 (op_map (pages ws) !! p_addr p)).
  { destruct (op_map (pages ws) !! p_addr p) as [q|] eqn:E; simpl; [by apply (Ht (p_addr p))|done]. }
  split; simpl; [by apply pages_insert_ok|by apply map_Forall_insert_2| |lia|done|done|done].
  unfold total_tokens in *. simpl. rewrite weigh_overwrite. lia.
Qed.

Lemma insert_admitted_spec k D ws0 r rest (s : Eng W) : inserting k D ws0 (r :: rest) (e_ws s) →
  wp (insert_admitted b tt r) (fun _ s' => inserting k D ws0 rest (e_ws s'))
     (fun s' => settled k ws0 (e_ws s')) s.
Proof.
  intros [(k' & Hk & Hi & Hx) Ht Hu Hf Hb Hp]. inversion Ht as [|? ? Hr Ht']; subst.
  inversion Hu as [|? ? Hur Hu']; subst. unfold insert_admitted. apply wp_bind, wp_advance_clock.
  { intros s' ->. exists (k' + sum_tokens (r :: rest)). destruct Hi. split_and!; [lia| |done|done].
    split; try done; lia. }
  intros ord c s' E _. apply wp_bind, wp_modify_ws. unfold wp, modify_out. simpl. rewrite E.
  set (p := mkPage _ _ _ _ _ _ _ _ _). set (ws := set_clock (e_ws s) c).
  assert (Hi' := insert_reserved k' (sum_tokens rest) ws p (inv_set_clock _ _ _ c Hi) Hr
                   (sum_tokens_nonneg _ Ht')).
  pose proof (inv_slack _ _ _ Hi').
  assert (Hold : 0 ≤ from_option est_tokens 0 (op_map (pages ws) !! p_addr p)).
  { destruct (op_map (pages ws) !! p_addr p) as [q|] eqn:Eq; simpl; [|done].
    by apply (inv_tokens _ _ _ Hi (p_addr p)). }
  assert (Hpins : ∀ a, pinned_at (insert_page p ws) a ↔ pinned_at (e_ws s) a).
  { intros a. unfold pinned_at. simpl. destruct (decide (ref_addr r = a)) as [<-|].
    - rewrite lookup_insert_eq. split; [intros (q & [= <-] & Hq); done|]. intros Hq. by destruct Hur.
    - by rewrite lookup_insert_ne. }
  split; [|done| | |done|].
  - eexists. split_and!; [|exact Hi'|]; [lia|]. intros HD. destruct (Hf HD) as [_ Hfr].
    inversion Hfr as [|? ? Hn _]; subst. unfold fresh in Hn. simpl. rewrite Hn. simpl. rewrite (Hx HD). lia.
  - eapply Forall_impl; [exact Hu'|]. intros x Hx'. by rewrite Hpins.
  - intros HD. destruct (Hf HD) as [[Hnd1 Hnd2]%NoDup_cons Hfr]. split; [done|].
    inversion Hfr as [|? ? _ Hfr']; subst. rewrite Forall_forall in *. intros x Hx'. unfold fresh. simpl.
    rewrite lookup_insert_ne; [by apply Hfr'|]. intros Ex. apply Hnd1. rewrite Ex. by apply list_elem_of_fmap_2.
  - intros a. by rewrite Hpins.
Qed.

Lemma unreserve_spec k n rsv ws : inv k (n + rsv) ws → 0 ≤ n → 0 ≤ rsv →
  inv k rsv (sub_resident n ws) ∧ evolves 0 ws (sub_resident n ws).
Proof.
  intros Hi Hn Hrsv. pose proof (inv_total_nonneg _ _ _ Hi) as Htot.
  destruct Hi as [Hok Ht Hacct Hk Hr Hb Hm].
  assert (Hsub : i32_sat_sub (resident_tokens ws) n = resident_tokens ws - n).
  { apply i32_sat_sub_exact. unfold i32_min, i32_max in *. lia. }
  split; [split; simpl; try done; rewrite ?Hsub; lia|split; simpl; [done| |done|eauto]].
  change (mu (sub_resident n ws)) with (mu ws). lia.
Qed.

Lemma persist_out_spec {P : WorkingSet → Prop} tree (s : Eng W) : P (e_ws s) →
  wp (mbind (persist b tree) (fun _ => get_out)) (fun _ s' => P (e_ws s')) (fun s' => P (e_ws s')) s.
Proof.
  intros HP. apply wp_bind. unfold persist. apply wp_bind, wp_get_ws, wp_ask_db; [done|].
  intros w' _. done.
Qed.

(** What [page_in] promises of the working set it leaves behind. *)
Definition paged_in (k : Z) (D : Prop) (ws0 ws : WorkingSet) : Prop := settled k ws0 ws ∧ (D → inv k 0 ws).

Lemma page_in_spec k tree query fuel (s : Eng W) : inv k 0 (e_ws s) → mu (e_ws s) < Z.of_nat fuel →
  wp (page_in b find_lfu fuel tree query)
     (fun _ s' => paged_in k (∀ w' rs, dp_resolve b (e_world s) tree query = (w', inr rs) → distinct rs)
                           (e_ws s) (e_ws s'))
     (fun s' => settled k (e_ws s) (e_ws s')) s.
Proof using BackendLaws0.
  intros Hi Hmu. unfold page_in. apply wp_bind. unfold wp at 1, modify_out. simpl.
  apply wp_bind, wp_ask_dp; [intros; eapply settled_intro; [exact Hi|apply evolves_refl]|].
  intros w1 rs Hrs. simpl in Hrs. set (D := ∀ w' rs, _ = _ → distinct rs). cbn [e_ws set_world].
  assert (HD : D → distinct (sort_by cmp_candidate rs)).
  { intros HD. destruct (HD _ _ Hrs) as [Hnd Hs]. split; by rewrite sort_by_perm. }
  assert (Htok : Forall (fun r => 0 ≤ ref_tokens r) (sort_by cmp_candidate rs)).
  { rewrite sort_by_perm. by eapply law_resolve. }
  clearbody D. generalize dependent (sort_by cmp_candidate rs). clear Hrs. intros cands HD Htok.
  apply wp_bind. eapply wp_mono; [by apply (evict_expired_spec k 0)| |]; simpl.
  2: { intros s1 [Hi1 Hev1]. by eapply settled_intro. }
  intros _ s1 [Hi1 Hev1]. apply wp_bind.
  apply (wp_mfold (admit_candidate b find_lfu fuel tree) (fun acc rest s' => admitting k D (e_ws s) acc rest (e_ws s'))).
  { split; [done|done|done|constructor|constructor|done|constructor]. }
  2: { intros. by apply admit_candidate_spec. }
  intros acc s2 Had. destruct Had as [Hi2 Hev2 _ Hacc Hunp Hdis Hfr]. destruct acc as [|r acc].
  { eapply wp_mono; [apply (persist_out_spec (P := paged_in k D (e_ws s)))|done|].
    - split; [by eapply settled_intro|done].
    - intros s' [Hs _]. done. }
  set (rs' := r :: acc) in *. clearbody rs'. apply wp_bind. unfold wp at 1, call.
  destruct (dp_get_many b (e_world s2) tree (ref_addr <$> rs')) as [w3 [e|cs]]; simpl.
  - apply wp_bind.
    apply (wp_mfold _ (fun _ rs s' => inv k (sum_tokens rs) (e_ws s') ∧
      Forall (fun r => 0 ≤ ref_tokens r) rs ∧ evolves 0 (e_ws s) (e_ws s'))); [split_and!; done| |].
    + intros _ s' (Hi' & _ & Hev'). unfold wp, fail. by eapply settled_intro.
    + intros _ x xs s' (Hi' & Hx & Hev'). inversion Hx as [|? ? Hx1 Hx2]; subst.
      destruct (unreserve_spec _ _ _ _ Hi' Hx1 (sum_tokens_nonneg _ Hx2)) as [Hi3 Hev3].
      apply wp_modify_ws. split_and!; [done|done|]. by apply (evolves_trans 0 0 _ (e_ws s')).
  - apply wp_bind.
    apply (wp_mfold (insert_admitted b) (fun _ rs s' => inserting k D (e_ws s) rs (e_ws s'))).
    + split; [by exists k|done|done| |apply Hev2|apply Hev2].
      intros Hd. destruct (Hdis Hd) as [Hnd _]. rewrite app_nil_r in Hnd. by split; [|apply Hfr].
    + intros _ s' [(k' & Hk & Hi' & Hx) _ _ _ Hb Hp].
      eapply wp_mono; [apply (persist_out_spec (P := paged_in k D (e_ws s)))|done|].
      * split; [exists k'; split_and!; done|]. intros Hd. rewrite <- (Hx Hd). done.
      * intros s3 [Hs _]. done.
    + intros [] x xs s'. apply insert_admitted_spec.
Qed.

(** ** Scratch pages *)

(** The accounting is as exact as before, and the same pages are pinned. *)
Definition kept (k : Z) (ws0 ws : WorkingSet) : Prop :=
  inv k 0 ws ∧ budget_tokens ws = budget_tokens ws0 ∧ ∀ a, pinned_at ws a ↔ pinned_at ws0 a.

Lemma kept_evolves k n ws0 ws : inv k 0 ws → evolves n ws0 ws → kept k ws0 ws.
Proof. intros Hi Hev. split_and!; [done|apply Hev|apply Hev]. Qed.

Lemma kept_trans k ws0 ws1 ws : kept k ws0 ws1 → kept k ws1 ws → kept k ws0 ws.
Proof. intros (_ & B1 & P1) (Hi & B2 & P2). split_and!; [done|congruence|]. intros a. by rewrite P2. Qed.

Lemma exhausted_spec k ws0 tree a (s : Eng W) : kept k ws0 (e_ws s) →
  wp (mbind (modify_out (fun o => push_exhausted o a)) (fun _ => mbind (persist b tree) (fun _ => get_out)))
     (fun _ s' => kept k ws0 (e_ws s')) (fun s' => kept k ws0 (e_ws s')) s.
Proof. intros Hk. apply wp_bind. unfold wp at 1, modify_out. simpl. by apply (persist_out_spec (P := kept k ws0)). Qed.

Lemma admit_new_scratch_spec k tree addr bytes imp n fuel (s : Eng W) :
  inv k 0 (e_ws s) → op_map (pages (e_ws s)) !! addr = None → ¬ summary_addr addr → 0 ≤ n →
  mu (e_ws s) < Z.of_nat fuel →
  wp (admit_new_scratch b find_lfu fuel tree addr bytes imp n)
     (fun _ s' => kept k (e_ws s) (e_ws s')) (fun s' => kept k (e_ws s) (e_ws s')) s.
Proof using BackendLaws0.
  intros Hi Hnone Hns Hn Hmu. unfold admit_new_scratch.
  assert (Hadmit : ∀ s1 : Eng W, inv k 0 (e_ws s1) → evolves 0 (e_ws s) (e_ws s1) →
    op_map (pages (e_ws s1)) !! addr = None → resident_tokens (e_ws s1) + n ≤ budget_tokens (e_ws s1) →
    wp (mbind (advance_clock b) (fun ord =>
        mbind (modify_ws (insert_page (mkPage addr FileChunk imp n 1 ord true false (Some bytes)))) (fun _ =>
        mbind (modify_ws (add_resident n)) (fun _ =>
        mbind (modify_out (fun o => push_admitted o addr)) (fun _ =>
        mbind (persist b tree) (fun _ => get_out))))))
     (fun _ s' => kept k (e_ws s) (e_ws s')) (fun s' => kept k (e_ws s) (e_ws s')) s1).
  { intros s1 Hi1 Hev1 Hn1 Hfit. apply wp_bind, wp_advance_clock.
    { intros s' ->. by eapply kept_evolves. }
    intros ord c s' E _. apply wp_bind, wp_modify_ws, wp_bind, wp_modify_ws, wp_bind.
    unfold wp at 1, modify_out. simpl. apply (persist_out_spec (P := kept k (e_ws s))). simpl. rewrite E.
    destruct (add_page_spec k 0 (set_clock (e_ws s1) c)
      (mkPage addr FileChunk imp n 1 ord true false (Some bytes))) as [Hi' _];
      [by apply inv_set_clock|done|done|done|].
    split_and!; [exact Hi'|simpl; apply Hev1|]. intros a. rewrite <- (ev_pinned _ _ _ Hev1).
    unfold pinned_at. simpl. destruct (decide (addr = a)) as [<-|]; [|by rewrite lookup_insert_ne].
    rewrite lookup_insert_eq, Hn1. naive_solver. }
  apply wp_bind, wp_get_ws. case_decide.
  { apply exhausted_spec. eapply kept_evolves; [done|apply evolves_refl]. }
  destruct (fits (e_ws s) n) eqn:Hfit.
  { apply bool_decide_eq_true, i32_sat_add_le in Hfit; [|apply Hi].
    apply Hadmit; [done|apply evolves_refl|done|done]. }
  apply wp_bind. eapply wp_mono; [by apply (evict_to_fit_spec k 0)| |].
  - intros ok s1 [[Hi1 Hev1] Hok]. destruct ok; [|by eapply exhausted_spec, kept_evolves].
    apply Hadmit; [done|done| |done]. apply eq_None_not_Some. intros Hsome.
    by destruct (ev_dom _ _ _ Hev1 _ Hsome) as [[? ?]|?]; [congruence|].
  - intros s1 [Hi1 Hev1]. by eapply kept_evolves.
Qed.

(** A resident page gets new content of [n] tokens. *)
Lemma rewrite_page_spec k ws a p n imp bytes ord : inv k 0 ws → op_map (pages ws) !! a = Some p →
  0 ≤ n → resident_tokens ws + (n - est_tokens p) ≤ budget_tokens ws →
  kept k ws (add_resident (n - est_tokens p) (update_page a (rewrite_page n imp bytes ord) ws)).
Proof.
  intros Hi Ha Hn Hfit. pose proof (inv_total_nonneg _ _ _ Hi) as Htot.
  destruct Hi as [Hok Ht Hacct Hk Hr Hb Hm].
  set (f := rewrite_page n imp bytes ord).
  assert (Emap : alter f a (op_map (pages ws)) = <[a := f p]> (op_map (pages ws))).
  { apply map_eq. intros j. destruct (decide (a = j)) as [<-|].
    - by rewrite lookup_alter_eq, lookup_insert_eq, Ha.
    - by rewrite lookup_alter_ne, lookup_insert_ne. }
  assert (Hold : total_tokens (pages ws) = est_tokens p + weigh est_tokens (delete a (op_map (pages ws)))).
  { by apply weigh_delete. }
  assert (Hrest : 0 ≤ weigh est_tokens (delete a (op_map (pages ws)))).
  { apply weigh_nonneg. by apply map_Forall_delete. }
  assert (Hadd : i32_sat_add (resident_tokens ws) (n - est_tokens p) = resident_tokens ws + (n - est_tokens p)).
  { apply i32_sat_add_exact. unfold i32_min, i32_max in *. lia. }
  split_and!; [split|done|]; simpl; try done.
  - by apply pages_update_ok.
  - rewrite Emap. by apply map_Forall_insert_2.
  - unfold total_tokens in *. simpl. rewrite Emap, weigh_overwrite, Ha, Hadd. simpl. lia.
  - lia.
  - intros a'. unfold pinned_at. simpl. destruct (decide (a = a')) as [<-|]; [|by rewrite lookup_alter_ne].
    rewrite lookup_alter_eq, Ha. simpl. naive_solver.
Qed.

Lemma admit_scratch_spec estimate_tokens k tree addr bytes imp fuel (s : Eng W) :
  inv k 0 (e_ws s) → ¬ summary_addr addr → 0 ≤ estimate_tokens bytes ≤ i32_max →
  mu (e_ws s) < Z.of_nat fuel →
  wp (admit_scratch b find_lfu estimate_tokens fuel tree addr bytes imp)
     (fun _ s' => kept k (e_ws s) (e_ws s')) (fun s' => kept k (e_ws s) (e_ws s')) s.
Proof using BackendLaws0.
  intros Hi Hns Hn Hmu. unfold admit_scratch. set (n := estimate_tokens bytes) in *.
  assert (Hrefl : kept k (e_ws s) (e_ws s)) by (eapply kept_evolves; [done|apply evolves_refl]).
  apply wp_bind. unfold wp at 1, modify_out. simpl. apply wp_bind, wp_ask_dp; [done|]. intros w1 _ _.
  set (s0 := set_world _ w1). apply wp_bind, wp_get_ws. unfold pages_get.
  change (e_ws s0) with (e_ws s).
  destruct (op_map (pages (e_ws s)) !! addr) as [p0|] eqn:Ha.
  2: { refine (admit_new_scratch_spec k tree addr bytes imp n fuel s0 _ _ _ _ _); [done|done|done|lia|done]. }
  assert (Hp0 : 0 ≤ est_tokens p0) by by apply (inv_tokens _ _ _ Hi addr).
  assert (Hd : i32_sat_sub n (est_tokens p0) = n - est_tokens p0).
  { assert (est_tokens p0 ≤ i32_max); [|apply i32_sat_sub_exact; unfold i32_min, i32_max in *; lia].
    pose proof (inv_acct _ _ _ Hi) as Hacct. pose proof (inv_slack _ _ _ Hi).
    pose proof (inv_budget _ _ _ Hi). pose proof (inv_max _ _ _ Hi).
    unfold total_tokens in Hacct. rewrite (weigh_delete _ _ _ _ Ha) in Hacct.
    assert (0 ≤ weigh est_tokens (delete addr (op_map (pages (e_ws s))))); [|lia].
    apply weigh_nonneg, map_Forall_delete, Hi. }
  rewrite Hd. apply wp_bind.
  assert (Hroom : wp (if decide (0 < n - est_tokens p0)
      then if fits (e_ws s) (n - est_tokens p0) then mret true
           else evict_to_fit b find_lfu fuel tree (n - est_tokens p0) else mret true)
    (fun ok s' => (inv k 0 (e_ws s') ∧ evolves 0 (e_ws s) (e_ws s')) ∧
       (ok = true → resident_tokens (e_ws s') + (n - est_tokens p0) ≤ budget_tokens (e_ws s')))
    (fun s' => kept k (e_ws s) (e_ws s')) s0).
  { case_decide; [destruct (fits (e_ws s) (n - est_tokens p0)) eqn:Hfit|].
    - apply wp_ret. split; [split; [done|apply evolves_refl]|]. intros _.
      apply bool_decide_eq_true, i32_sat_add_le in Hfit; [done|apply Hi].
    - eapply wp_mono; [by apply (evict_to_fit_spec k 0)| |].
      + intros ok s' [Hs Hok]. split; [done|]. by intros ->.
      + intros s' [Hi' Hev']. by eapply kept_evolves.
    - apply wp_ret. split; [split; [done|apply evolves_refl]|]. intros _.
      pose proof (inv_budget _ _ _ Hi). simpl. lia. }
  eapply wp_mono; [exact Hroom| |done]. intros ok s1 [[Hi1 Hev1] Hok]. destruct ok.
  2: { by eapply exhausted_spec, kept_evolves. }
  specialize (Hok eq_refl). apply wp_bind, wp_advance_clock.
  { intros s' ->. by eapply kept_evolves. }
  intros ord c s2 E2 _. apply wp_bind, wp_get_ws. rewrite E2.
  change (pages (set_clock (e_ws s1) c)) with (pages (e_ws s1)).
  destruct (op_map (pages (e_ws s1)) !! addr) as [p1|] eqn:Ha1.
  - destruct (ev_pages _ _ _ Hev1 _ _ Ha1) as [?|(q & Hq & Eq)]; [done|].
    rewrite Ha in Hq. injection Hq as <-. rewrite <- Eq in *.
    apply wp_bind, wp_modify_ws, wp_bind, wp_modify_ws, wp_bind. unfold wp at 1, modify_out. simpl.
    apply (persist_out_spec (P := kept k (e_ws s))). simpl. rewrite E2.
    eapply kept_trans; [by eapply kept_evolves|].
    eapply kept_trans; [|eapply rewrite_page_spec; [by apply inv_set_clock|done|lia|done]].
    eapply kept_evolves; [by apply inv_set_clock|apply evolves_set_clock].
  - assert (Hmu1 : mu (e_ws s2) < Z.of_nat fuel).
    { rewrite E2. change (mu (set_clock (e_ws s1) c)) with (mu (e_ws s1)). pose proof (ev_mu _ _ _ Hev1). lia. }
    eapply wp_mono; [apply (admit_new_scratch_spec k); [|by rewrite E2|done|lia|done]| |].
    + rewrite E2. by apply inv_set_clock.
    + intros o s3 H3. rewrite E2 in H3. eapply kept_trans; [by eapply kept_evolves|].
      eapply kept_trans; [|exact H3]. eapply kept_evolves; [by apply inv_set_clock|apply evolves_set_clock].
    + intros s3 H3. rewrite E2 in H3. eapply kept_trans; [by eapply kept_evolves|].
      eapply kept_trans; [|exact H3]. eapply kept_evolves; [by apply inv_set_clock|apply evolves_set_clock].
Qed.
End engine.
