(* ===== verification/TapeProperties.v ===== *)
(** The guarantees of the context tape, stated for whole calls of the engine,
    and the cases in which its documents promise more than it does. *)

From Stdlib Require Import ZArith SpecFloat.
From stdpp Require Import base strings list gmap.
From S2P Require Import Prelude Numbers BTree Vocab TapeWorkingSet TapePolicy TapeEngine TapeInvariants.

Local Open Scope Z_scope.

(** The pages fit the count of resident tokens, and the count fits the budget
    (one below [i32::MAX], where the saturating sums say nothing). *)
Definition accounted (ws : WorkingSet) : Prop :=
  pages_ok (pages ws) ∧ map_Forall (fun _ p => 0 ≤ est_tokens p) (op_map (pages ws)) ∧
  total_tokens (pages ws) ≤ resident_tokens ws ≤ budget_tokens ws ∧ budget_tokens ws < i32_max.

(** The count is the sum. *)
Definition exact (ws : WorkingSet) : Prop := accounted ws ∧ resident_tokens ws = total_tokens (pages ws).

Lemma accounted_inv ws : accounted ws ↔ ∃ k, inv k 0 ws.
Proof.
  split.
  - intros (Hok & Ht & Hle & Hm). exists (resident_tokens ws - total_tokens (pages ws)). split; try done; lia.
  - intros [k [Hok Ht Hacct Hk _ Hb Hm]]. split_and!; [done|done|lia|done|done].
Qed.

Lemma exact_inv ws : exact ws ↔ inv 0 0 ws.
Proof.
  split.
  - intros [(Hok & Ht & Hle & Hm) E]. split; try done; lia.
  - intros Hi. split; [apply accounted_inv; by exists 0|]. destruct Hi. lia.
Qed.

(** The number of rounds that making room can take. *)
Definition rounds (ws : WorkingSet) : nat := S (Z.to_nat (mu ws)).

Lemma rounds_enough k rsv ws fuel : inv k rsv ws → (rounds ws ≤ fuel)%nat → mu ws < Z.of_nat fuel.
Proof. intros Hi. pose proof (mu_nonneg _ _ _ Hi). unfold rounds. lia. Qed.

Lemma wp_returns {W A} (m : M A) Q E (s : Eng W) : wp m Q E s →
  returns (m s).1 ∧ (∀ a, (m s).1 = Ok a → Q a (m s).2) ∧ (∀ e, (m s).1 = Err e → E (m s).2).
Proof.
  unfold wp. destruct (m s) as [[a|e| |] s']; simpl; intros H; try done;
    (split; [by eauto with outcome|]); split; intros; by simplify_eq.
Qed.

(** Only pinned pages are left when no victim is. *)
Lemma no_victim_pinned find_lfu k rsv ws : lfu_spec find_lfu → inv k rsv ws →
  next_victim find_lfu ws = None → ∀ a p, op_map (pages ws) !! a = Some p → pinned p = true.
Proof.
  intros Hlfu Hi Hn a p Hp. destruct (pinned p) eqn:Hpin; [done|]. exfalso.
  destruct (select_victim_total find_lfu (ws_policy ws)
    (filter (fun p => pinned p = false) (iter_in_order (pages ws))) (ws_clock ws) Hlfu) as [v Hv].
  - apply filter_attained with p; [|done]. apply iter_in_order_elem; [apply Hi|].
    destruct (inv_ok _ _ _ Hi a p Hp) as [-> _]. done.
  - unfold next_victim in Hn. congruence.
Qed.

(** * Properties *)

(** Paging in through a data plane that keeps the interface never breaks the
    budget, however it ends: on success and on every error of the data plane or
    the database, the resident pages fit the token count and the count fits the
    budget, the same pages are pinned as before, and the call returns.  When the
    candidates are distinct and no summary sits at a candidate's address, a
    successful call leaves the count exact. *)
Theorem lawful_page_in_safe {W : Type} (b : Backend W) (Hlaws : BackendLaws b)
    (find_lfu : list (string * nat) → list string → list string → option string)
    (fuel : nat) (tree : string) (query : PageQuery) (s : Eng W)
    (Hok : accounted (e_ws s)) (Hfuel : (rounds (e_ws s) ≤ fuel)%nat) :
  let (res, s') := page_in b find_lfu fuel tree query s in
  returns res ∧ accounted (e_ws s') ∧ budget_tokens (e_ws s') = budget_tokens (e_ws s) ∧
  (∀ a, pinned_at (e_ws s') a ↔ pinned_at (e_ws s) a) ∧
  (exact (e_ws s) → is_ok res →
     (∀ w' rs, dp_resolve b (e_world s) tree query = (w', inr rs) → distinct b rs) → exact (e_ws s')).
Proof.
  apply accounted_inv in Hok as [k Hi]. pose proof (rounds_enough _ _ _ _ Hi Hfuel) as Hmu.
  destruct (wp_returns _ _ _ _ (page_in_spec b find_lfu k tree query fuel s Hi Hmu)) as (Hret & HQ & HE).
  destruct (page_in b find_lfu fuel tree query s) as [res s']. simpl in *.
  assert (Hs : settled k (e_ws s) (e_ws s')).
  { destruct Hret as [[a ->]|[e ->]]; [by apply (HQ a)|by apply (HE e)]. }
  destruct Hs as (k' & Hk & Hi' & Hb & Hp).
  split_and!; [done|apply accounted_inv; by exists k'|done|done|].
  intros Hx [o ->] HD. apply exact_inv in Hx. apply exact_inv.
  assert (k = 0) as -> by (destruct Hi, Hx; lia). by apply (HQ o).
Qed.

(** Writing a scratch page keeps the count as exact as it was, on success
    and on every error, keeps the pinned pages, and returns; the page is the
    caller's, not one of the data plane's summaries. *)
Theorem admit_scratch_exact {W : Type} (b : Backend W) (Hlaws : BackendLaws b)
    (find_lfu : list (string * nat) → list string → list string → option string)
    (estimate_tokens : string → Z) (fuel : nat) (tree : string) (addr : PageAddr) (bytes : string)
    (imp : f32) (s : Eng W) (Hok : exact (e_ws s)) (Hfuel : (rounds (e_ws s) ≤ fuel)%nat)
    (Haddr : ¬ summary_addr b addr) (Hest : 0 ≤ estimate_tokens bytes ≤ i32_max) :
  let (res, s') := admit_scratch b find_lfu estimate_tokens fuel tree addr bytes imp s in
  returns res ∧ exact (e_ws s') ∧ ∀ a, pinned_at (e_ws s') a ↔ pinned_at (e_ws s) a.
Proof.
  apply exact_inv in Hok as Hi. pose proof (rounds_enough _ _ _ _ Hi Hfuel) as Hmu.
  destruct (wp_returns _ _ _ _ (admit_scratch_spec b find_lfu estimate_tokens 0 tree addr bytes imp fuel s
    Hi Haddr Hest Hmu)) as (Hret & HQ & HE).
  destruct (admit_scratch _ _ _ _ _ _ _ _ s) as [res s']. simpl in *.
  assert (Hs : kept 0 (e_ws s) (e_ws s')).
  { destruct Hret as [[a ->]|[e ->]]; [by apply (HQ a)|by apply (HE e)]. }
  destruct Hs as (Hi' & _ & Hp). split_and!; [done|by apply exact_inv|done].
Qed.

(** Making room ends and does what it reports: [true] means that the tokens
    asked for fit, [false] that only pinned pages are left; the count stays
    exact and pinned pages stay. *)
Theorem evict_to_fit_makes_room {W : Type} (b : Backend W) (Hlaws : BackendLaws b)
    (find_lfu : list (string * nat) → list string → list string → option string)
    (Hlfu : lfu_spec find_lfu) (fuel : nat) (tree : string) (needed : Z) (s : Eng W)
    (Hok : exact (e_ws s)) (Hfuel : (rounds (e_ws s) ≤ fuel)%nat) :
  let (res, s') := evict_to_fit b find_lfu fuel tree needed s in
  returns res ∧ exact (e_ws s') ∧ (∀ a, pinned_at (e_ws s') a ↔ pinned_at (e_ws s) a) ∧
  (res = Ok true → resident_tokens (e_ws s') + needed ≤ budget_tokens (e_ws s')) ∧
  (res = Ok false → ∀ a p, op_map (pages (e_ws s')) !! a = Some p → pinned p = true).
Proof.
  apply exact_inv in Hok as Hi. pose proof (rounds_enough _ _ _ _ Hi Hfuel) as Hmu.
  destruct (wp_returns _ _ _ _ (evict_to_fit_spec b find_lfu 0 0 tree needed fuel s Hi Hmu)) as (Hret & HQ & HE).
  destruct (evict_to_fit _ _ _ _ _ s) as [res s']. simpl in *.
  assert (Hs : inv 0 0 (e_ws s') ∧ evolves b 0 (e_ws s) (e_ws s')).
  { destruct Hret as [[a ->]|[e ->]]; [by apply (HQ a)|by apply (HE e)]. }
  destruct Hs as [Hi' Hev]. split_and!; [done|by apply exact_inv|apply Hev| |].
  - intros E. by destruct (HQ true E).
  - intros E. destruct (HQ false E) as [_ Hn]. by eapply no_victim_pinned.
Qed.

(** * A data plane in memory

    It resolves every query to a fixed list of pages; its world is the clock. *)
Definition shelf (refs : list PageRef) (summary : PageAddr → option PageRef)
    (tokens : PageAddr → option Z) : Backend Z :=
  {| dp_get w _ a :=
       (w, match tokens a with
           | Some n => inr (mkContent a "" n)
           | None => inl (NotFound (addr_str a))
           end);
     dp_get_many w _ l := (w, inr ((fun a => mkContent a "" (default 0 (tokens a))) <$> l));
     dp_put w _ _ _ := (w, inr tt);
     dp_resolve w _ _ := (w, inr refs);
     dp_summary_of w _ l := (w, inr (match l with [a] => summary a | _ => None end));
     db_bump_clock w _ d := (w + d, inr (w + d));
     db_evict_page w _ _ _ _ := (w, inr tt);
     db_save_working_set w _ _ _ _ := (w, inr tt) |}.

Lemma shelf_laws refs summary tokens :
  Forall (fun r => 0 ≤ ref_tokens r) refs →
  (∀ a r n, summary a = Some r → tokens (ref_addr r) = Some n → 0 ≤ n ≤ ref_tokens r) →
  BackendLaws (shelf refs summary tokens).
Proof.
  intros Hr Hs. split.
  - intros w t q w' rs [= _ <-]. done.
  - intros w t l w' r [= _ Er] w'' c [= _ Ec].
    destruct l as [|a [|? ?]]; [done| |done]. destruct (tokens (ref_addr r)) as [n|] eqn:En; [|done].
    injection Ec as <-. simpl. by eapply Hs.
Qed.

Definition a_ref (a : string) (k : PageKind) (n : Z) : PageRef := mkRef (mkAddr a) k n f64_one.

(** Pages [a] and [b]; the page [old] has the summary [s]. *)
Definition sample_refs : list PageRef := [a_ref "a" FileChunk 40; a_ref "b" FileChunk 30].
Definition sample_summary (a : PageAddr) : option PageRef :=
  if decide (a = mkAddr "old") then Some (a_ref "s" SummaryNode 10) else None.
Definition sample_tokens (a : PageAddr) : option Z :=
  if decide (a = mkAddr "s") then Some 10 else None.

Definition sample_plane : Backend Z := shelf sample_refs sample_summary sample_tokens.

Lemma sample_plane_laws : BackendLaws sample_plane.
Proof.
  apply shelf_laws; [repeat constructor; simpl; lia|]. intros a r n Hs Ht.
  unfold sample_summary in Hs. case_decide; simplify_eq. vm_compute in Ht.
  injection Ht as <-. simpl. lia.
Qed.

Lemma sample_summary_addr a : summary_addr sample_plane a → a = mkAddr "s".
Proof.
  intros (w & t & l & w' & r & [= _ Hr] & <-). destruct l as [|x [|? ?]]; [done| |done].
  unfold sample_summary in Hr. by case_decide; simplify_eq.
Qed.

(** A budget of 100 with one page of 50 tokens resident. *)
Definition sample_ws : WorkingSet :=
  mkWs "session" 0 100 50 Lru 5 None (pages_insert pages_new (sample_page "old" 50 1 5)).
Definition sample_start : Eng Z := mkEng sample_ws outcome_default 5.

Lemma sample_exact : exact sample_ws.
Proof.
  split; [split_and!|]; [| |by vm_compute..].
  - apply pages_insert_ok, pages_new_ok.
  - intros a p H. simpl in H. apply lookup_insert_Some in H as [[_ <-]|[_ H]]; [simpl; lia|].
    by apply lookup_empty_Some in H.
Qed.

Lemma sample_distinct w' rs tree q : dp_resolve sample_plane 5 tree q = (w', inr rs) → distinct sample_plane rs.
Proof.
  intros [= _ <-]. split.
  - apply (bool_decide_unpack _). vm_compute. exact I.
  - repeat constructor; intros H%sample_summary_addr; discriminate.
Qed.

(** Both pages are admitted, [old] gives way to its summary. *)
Definition sample_query : PageQuery := QGrep "x".

Lemma lawful_page_in_safe_witness :
  (let (res, s') := page_in sample_plane counting_lfu 60 "tree" sample_query sample_start in
   returns res ∧ accounted (e_ws s') ∧ budget_tokens (e_ws s') = 100 ∧
   (∀ a, pinned_at (e_ws s') a ↔ pinned_at sample_ws a) ∧
   (exact sample_ws → is_ok res →
      (∀ w' rs, dp_resolve sample_plane 5 "tree" sample_query = (w', inr rs) → distinct sample_plane rs) →
      exact (e_ws s'))) ∧
  (page_in sample_plane counting_lfu 60 "tree" sample_query sample_start).1 =
    Ok (mkOutcome [mkAddr "a"; mkAddr "b"] [] [mkAddr "old"] [mkAddr "s"] []) ∧
  resident_tokens (e_ws (page_in sample_plane counting_lfu 60 "tree" sample_query sample_start).2) = 80.
Proof.
  split; [|split; vm_compute; reflexivity].
  apply (lawful_page_in_safe sample_plane sample_plane_laws counting_lfu 60 "tree" sample_query sample_start).
  - apply sample_exact.
  - apply (bool_decide_unpack _). vm_compute. exact I.
Defined.

Lemma admit_scratch_exact_witness :
  (let (res, s') := admit_scratch sample_plane counting_lfu (fun _ => 70) 60 "tree" (mkAddr "scratch/x") "text"
                      f64_one sample_start in
   returns res ∧ exact (e_ws s') ∧ ∀ a, pinned_at (e_ws s') a ↔ pinned_at sample_ws a) ∧
  resident_tokens (e_ws (admit_scratch sample_plane counting_lfu (fun _ => 70) 60 "tree" (mkAddr "scratch/x")
                           "text" f64_one sample_start).2) = 80.
Proof.
  split; [|vm_compute; reflexivity].
  apply (admit_scratch_exact sample_plane sample_plane_laws counting_lfu (fun _ => 70) 60 "tree"
           (mkAddr "scratch/x") "text" f64_one sample_start).
  - apply sample_exact.
  - apply (bool_decide_unpack _). vm_compute. exact I.
  - intros H%sample_summary_addr. discriminate.
  - unfold i32_max. lia.
Defined.

Lemma evict_to_fit_makes_room_witness :
  let (res, s') := evict_to_fit sample_plane counting_lfu 60 "tree" 95 sample_start in
  returns res ∧ exact (e_ws s') ∧ (∀ a, pinned_at (e_ws s') a ↔ pinned_at sample_ws a) ∧
  (res = Ok true → resident_tokens (e_ws s') + 95 ≤ budget_tokens (e_ws s')) ∧
  (res = Ok false → ∀ a p, op_map (pages (e_ws s')) !! a = Some p → pinned p = true).
Proof.
  apply (evict_to_fit_makes_room sample_plane sample_plane_laws counting_lfu counting_lfu_spec 60 "tree" 95
           sample_start).
  - apply sample_exact.
  - apply (bool_decide_unpack _). vm_compute. exact I.
Defined.

(** * Where the documents promise more *)

(** A plane whose summary [s] is announced with 10 tokens and has 60. *)
Definition oversized_plane : Backend Z :=
  shelf [] sample_summary (fun a => if decide (a = mkAddr "s") then Some 60 else None).

(** [old] is past its time to live; [anchor] is pinned. *)
Definition expiring_ws : WorkingSet :=
  mkWs "session" 0 100 100 Lru 20 (Some 3)
    (pages_insert (pages_insert pages_new (sample_page "old" 50 1 5))
       (mkPage (mkAddr "anchor") FileChunk f64_one 50 1 20 false true None)).

(** The budget is a promise only as far as the data plane's estimates are:
    the demotion ladder tests the estimate of a summary and then counts the
    tokens of its content, so a summary larger than announced takes a
    successful [page_in] from a full budget of 100 to 110 resident tokens. *)
Theorem oversized_summary_overflows :
  exact expiring_ws ∧
  let (res, s') := page_in oversized_plane counting_lfu 1 "tree" sample_query
                     (mkEng expiring_ws outcome_default 20) in
  res = Ok (mkOutcome [] [] [mkAddr "old"] [mkAddr "s"] []) ∧
  resident_tokens (e_ws s') = 110 ∧ total_tokens (pages (e_ws s')) = 110 ∧ budget_tokens (e_ws s') = 100.
Proof.
  split; [|vm_compute; split_and!; reflexivity].
  split; [split_and!|]; [| |by vm_compute..].
  - by apply pages_insert_ok, pages_insert_ok, pages_new_ok.
  - intros a p H. simpl in H.
    apply lookup_insert_Some in H as [[_ <-]|[_ H]]; [simpl; lia|].
    apply lookup_insert_Some in H as [[_ <-]|[_ H]]; [simpl; lia|]. by apply lookup_empty_Some in H.
Qed.

(** A candidate the data plane names twice is counted twice and inserted
    once, so a successful [page_in] leaves tokens counted that no page has. *)
Theorem duplicate_candidate_leaks :
  let b := shelf [a_ref "a" FileChunk 40; a_ref "a" FileChunk 40] (fun _ => None) (fun _ => None) in
  let (res, s') := page_in b counting_lfu 1 "tree" sample_query
                     (mkEng (ws_new "session" 0 100 Lru) outcome_default 0) in
  res = Ok (mkOutcome [mkAddr "a"; mkAddr "a"] [] [] [] []) ∧
  resident_tokens (e_ws s') = 80 ∧ total_tokens (pages (e_ws s')) = 40.
Proof. vm_compute. split_and!; reflexivity. Qed.

(** Insert [a] and [b], evict [a], page it in again. *)
Definition readmitted : OrderedPages :=
  pages_insert (pages_remove (pages_insert (pages_insert pages_new (sample_page "a" 1 1 1))
                                           (sample_page "b" 1 1 2)) (mkAddr "a")).2
               (sample_page "a" 1 1 3).

(** A page that is paged in again takes the place of its tombstone: after
    [a], [b] and [a] again, iterating in order visits [a] twice, and the [fifo]
    policy evicts [a], the youngest page, instead of [b]. *)
Theorem readmitted_page_jumps_queue :
  p_addr <$> iter_in_order readmitted = [mkAddr "a"; mkAddr "b"; mkAddr "a"] ∧
  pages_len readmitted = 2%nat ∧
  select_victim counting_lfu Fifo (iter_in_order readmitted) 3 = Some (mkAddr "a").
Proof. vm_compute. split_and!; reflexivity. Qed.
