(* ===== verification/TapeRealPlane.v ===== *)
(** The repository's own data plane ([src/src/tape/real_data_plane.rs]): fetching
    through the store of a tree and the corpus, resolving queries to references,
    and the search for a summary.  The rows of the queries, the [context_tape]
    crate, hydration and the embedding model are parameters; the table of
    summaries is modelled with its CHECK (migrations.rs).  The plane satisfies
    the interface [BackendLaws] the engine relies on: it never names a summary. *)

From Stdlib Require Import ZArith SpecFloat.
From stdpp Require Import base strings list gmap.
From S2P Require Import Prelude Numbers BTree Vocab TapeWorkingSet TapePolicy TapeEngine TapeInvariants TapeProperties.

Local Open Scope Z_scope.

(** * What the plane is built on *)

(** [context_tape::PageAddress], as the code takes it apart *)
Inductive Address :=
| Chunk (chunk_id : Z)
| FileRegion (file_id lo hi : Z)
| File (file_id : Z)
| Observation (obs_id : Z)
| Scratch (tree slot : string).

Record TapePage := mkTapePage { tp_content : string; tp_tokens : Z; tp_importance : f32; tp_dirty : bool }.

Inductive HydrateError := HydrateDb (e : string) | HydrateNotFound (p : string) | NotHydratable (p : string).

Record SearchResult := mkSearchResult { sr_path : string; sr_content : string; sr_start : Z; sr_end : Z; sr_score : option f64 }.
Record GrepChunkResult := mkGrepResult { gr_path : string; gr_index : Z; gr_content : string }.

(** A row of [memory_summary_tree] *)
Record SummaryRow := mkSummaryRow {
  st_id : Z;
  st_level : Z;
  st_parent : option Z;
  st_observation : option Z;
  st_summary_text : option string;
}.

(** The CHECK of the table: leaves point at an observation and have no text, inner
    nodes have a text and no observation. *)
Definition summary_check (r : SummaryRow) : bool :=
  bool_decide (st_level r = 0 ∧ is_Some (st_observation r) ∧ st_summary_text r = None) ||
  bool_decide (0 < st_level r ∧ st_observation r = None ∧ is_Some (st_summary_text r)).

Class Corpus (W : Type) := {
  Embedding : Type;
  (* the crate *)
  parse_path : string → option Address;
  to_path : Address → string;
  estimate_tokens : string → Z;
  get_cascade : W → string → Address → option TapePage;
  insert_hydrated : W → string → Address → TapePage → W;
  store_get : W → string → Address → option TapePage;
  store_put : W → string → Address → TapePage → W;
  (* the database and the model *)
  hydrate : W → Address → HydrateError + TapePage;
  supersede_observation : W → Z → string → W * (TapeError + unit);
  allow_promotion : bool;
  chunk_span_rows : W → string → Z → Z → string + list (Z * string * Z);
  embed_query : W → string → string + Embedding;
  semantic_search : W → Embedding → Z → string + list SearchResult;
  grep_search_chunks : W → string → string + list GrepChunkResult;
  line_span_rows : W → list (string * Z * Z) → string + list (string * Z * Z * Z);
  chunk_index_rows : W → list (string * Z) → string + list (string * Z * Z);
  summary_fault : W → option string;
  summary_tree : W → list SummaryRow;
  bump_clock : W → string → Z → W * (string + Z);
  evict_page_row : W → string → Z → PageAddr → EvictReason → W * (string + unit);
  save_working_set : W → WorkingSet → string → Z → option Z → W * (string + unit);
}.

Section plane.
Context {W : Type} `{!Corpus W}.

#[local] Notation result A := (TapeError + A)%type.

(** * Fetching and writing *)

Definition address_to_pageaddr (a : Address) : PageAddr := mkAddr (to_path a).
Definition pageaddr_to_address (a : PageAddr) : option Address := parse_path (addr_str a).

Definition hydrate_err_to_tape (path : string) (e : HydrateError) : TapeError :=
  match e with
  | HydrateDb e => BackendFault ("hydrate " +:+ path +:+ ": " +:+ e)
  | HydrateNotFound p | NotHydratable p => NotFound p
  end.

(** The bytes and the estimate: resident, or hydrated and admitted clean *)
Definition fetch_one (w : W) (tree : string) (a : Address) : W * result (string * Z) :=
  match get_cascade w tree a with
  | Some page => (w, inr (tp_content page, i32_wrap (tp_tokens page)))
  | None =>
      match a with
      | Scratch _ _ => (w, inl (NotFound (to_path a)))
      | _ =>
          match hydrate w a with
          | inl e => (w, inl (hydrate_err_to_tape (to_path a) e))
          | inr page => (insert_hydrated w tree a page, inr (tp_content page, i32_wrap (tp_tokens page)))
          end
      end
  end.

Definition plane_get (w : W) (tree : string) (addr : PageAddr) : W * result PageContent :=
  match pageaddr_to_address addr with
  | None => (w, inl (NotFound (addr_str addr)))
  | Some a =>
      match fetch_one w tree a with
      | (w, inl e) => (w, inl e)
      | (w, inr (bytes, tokens)) => (w, inr (mkContent addr bytes tokens))
      end
  end.

Fixpoint plane_get_many (w : W) (tree : string) (addrs : list PageAddr) : W * result (list PageContent) :=
  match addrs with
  | [] => (w, inr [])
  | addr :: addrs =>
      match plane_get w tree addr with
      | (w, inl e) => (w, inl e)
      | (w, inr c) =>
          match plane_get_many w tree addrs with
          | (w, inl e) => (w, inl e)
          | (w, inr cs) => (w, inr (c :: cs))
          end
      end
  end.

(** Empty bytes put the page that is there again; otherwise the bytes are staged.
    An observation is superseded when promotion is on. *)
Definition plane_put (w : W) (tree : string) (addr : PageAddr) (bytes : string) : W * result unit :=
  match pageaddr_to_address addr with
  | None => (w, inl (NotFound (addr_str addr)))
  | Some a =>
      let staged :=
        match (if decide (bytes = ""%string) then store_get w tree a else None) with
        | Some existing => store_put w tree a existing
        | None => store_put w tree a (mkTapePage bytes (estimate_tokens bytes) (S754_finite false 8388608 (-24)) true)
        end in
      if allow_promotion then
        match a with Observation obs_id => supersede_observation staged obs_id bytes | _ => (staged, inr tt) end
      else (staged, inr tt)
  end.

(** * Resolving *)

(** [0.5 + 0.5 * (n / (n + 4))] in single precision *)
Definition importance_from_importers (count : Z) : f32 :=
  let single z := binary_normalize 24 128 z 0 false in
  let half := S754_finite false 8388608 (-24) in
  let n := single (Z.max count 0) in
  SFadd 24 128 half (SFmul 24 128 half (SFdiv 24 128 n (SFadd 24 128 n (single 4)))).

Definition chunk_ref (chunk_id : Z) (content : string) (importance : f32) : PageRef :=
  mkRef (address_to_pageaddr (Chunk chunk_id)) FileChunk (i32_wrap (estimate_tokens content)) importance.

Inductive ResolveError := ResolveDb (e : string) | ResolveEmbed (msg : string).

Definition resolve_chunk_range (w : W) (path : string) (lo hi : Z) : ResolveError + list PageRef :=
  match chunk_span_rows w path lo hi with
  | inl e => inl (ResolveDb e)
  | inr rows => inr ((λ '(chunk_id, content, importers), chunk_ref chunk_id content (importance_from_importers importers)) <$> rows)
  end.

(** [map.entry(key).or_insert(id)] *)
Definition first_ids {K} `{Countable K} (rows : list (K * Z)) : gmap K Z :=
  foldl (λ m row, match m !! row.1 with Some _ => m | None => <[row.1 := row.2]> m end) ∅ rows.

Definition chunk_ids_by_line_span (w : W) (hits : list SearchResult) : ResolveError + gmap (string * Z * Z) Z :=
  match hits with
  | [] => inr ∅
  | _ =>
      match line_span_rows w ((λ h, (sr_path h, sr_start h, sr_end h)) <$> hits) with
      | inl e => inl (ResolveDb e)
      | inr rows => inr (first_ids rows)
      end
  end.

Definition chunk_ids_by_chunk_index (w : W) (hits : list GrepChunkResult) : ResolveError + gmap (string * Z) Z :=
  match hits with
  | [] => inr ∅
  | _ =>
      match chunk_index_rows w ((λ h, (gr_path h, gr_index h)) <$> hits) with
      | inl e => inl (ResolveDb e)
      | inr rows => inr (first_ids rows)
      end
  end.

(** [score.unwrap_or(0.0).clamp(0.0, 1.0) as f32] *)
Definition score_importance (score : option f64) : f32 :=
  let s := default f64_zero score in
  let s := if f64_ltb s f64_zero then f64_zero else if f64_ltb f64_one s then f64_one else s in
  match s with S754_finite sg m e => binary_normalize 24 128 (cond_Zopp sg (Zpos m)) e sg | _ => s end.

Definition resolve_semantic (w : W) (query : string) (k : nat) : ResolveError + list PageRef :=
  match embed_query w query with
  | inl e => inl (ResolveEmbed e)
  | inr embedding =>
      match semantic_search w embedding (i32_wrap (Z.of_nat k)) with
      | inl e => inl (ResolveDb e)
      | inr hits =>
          match chunk_ids_by_line_span w hits with
          | inl e => inl e
          | inr ids => inr (omap (λ h, (λ chunk_id, chunk_ref chunk_id (sr_content h) (score_importance (sr_score h))) <$>
                                        ids !! (sr_path h, sr_start h, sr_end h)) hits)
          end
      end
  end.

Definition resolve_grep (w : W) (pattern : string) : ResolveError + list PageRef :=
  match grep_search_chunks w pattern with
  | inl e => inl (ResolveDb e)
  | inr hits =>
      match chunk_ids_by_chunk_index w hits with
      | inl e => inl e
      | inr ids => inr (omap (λ h, (λ chunk_id, chunk_ref chunk_id (gr_content h) (S754_finite false 8388608 (-24))) <$>
                                    ids !! (gr_path h, gr_index h)) hits)
      end
  end.

Definition plane_resolve (w : W) (tree : string) (query : PageQuery) : W * result (list PageRef) :=
  (w, match match query with
            | QChunk path lo hi => resolve_chunk_range w path lo hi
            | QSemantic query k => resolve_semantic w query k
            | QGrep pattern => resolve_grep w pattern
            end with
      | inl (ResolveDb e) => inl (BackendFault ("resolve: " +:+ e))
      | inl (ResolveEmbed msg) => inl (BackendFault ("resolve embed: " +:+ msg))
      | inr refs => inr refs
      end).

(** * Summaries *)

(** The parents of the leaves of an observation, one of which the query returns *)
Definition summary_parents (rows : list SummaryRow) (obs_id : Z) : list SummaryRow :=
  leaf ← filter (λ r, st_observation r = Some obs_id) rows;
  filter (λ r, Some (st_id r) = st_parent leaf) rows.

Definition observation_summary (w : W) (obs_id : Z) : string + option PageRef :=
  match summary_fault w with
  | Some e => inl e
  | None => inr (
      parent ← head (summary_parents (summary_tree w) obs_id);
      text ← st_summary_text parent;
      parent_obs_id ← st_observation parent;
      Some (mkRef (address_to_pageaddr (Observation parent_obs_id)) SummaryNode (i32_wrap (estimate_tokens text))
              (S754_finite false 10066330 (-24))))
  end.

(** A read for diagnosis; a cluster has no address. *)
Definition chunk_summary (w : W) (chunk_id : Z) : string + option PageRef :=
  match summary_fault w with Some e => inl e | None => inr None end.

Fixpoint summary_of_leaves (w : W) (leaves : list PageAddr) : result (option PageRef) :=
  match leaves with
  | [] => inr None
  | leaf :: leaves =>
      match pageaddr_to_address leaf with
      | Some (Observation obs_id) =>
          match observation_summary w obs_id with
          | inr (Some r) => inr (Some r)
          | inr None => summary_of_leaves w leaves
          | inl e => inl (BackendFault ("summary_of: " +:+ e))
          end
      | Some (Chunk chunk_id) =>
          match chunk_summary w chunk_id with
          | inr (Some r) => inr (Some r)
          | inr None => summary_of_leaves w leaves
          | inl e => inl (BackendFault ("summary_of: " +:+ e))
          end
      | _ => summary_of_leaves w leaves
      end
  end.

(** The plane, and the statements of [store.rs] *)
Definition RealTapeDataPlane : Backend W := {|
  dp_get := plane_get;
  dp_get_many := plane_get_many;
  dp_put := plane_put;
  dp_resolve := plane_resolve;
  dp_summary_of w _ leaves := (w, summary_of_leaves w leaves);
  db_bump_clock := bump_clock;
  db_evict_page := evict_page_row;
  db_save_working_set := save_working_set;
|}.

(** * The interface of the engine *)

(** The database keeps the CHECK of the table, and an estimate, a quarter of the
    length of a text, is a 32-bit integer. *)
Definition check_kept : Prop := ∀ w, Forall (λ r, summary_check r = true) (summary_tree w).
Definition estimates_fit : Prop := ∀ s, 0 ≤ estimate_tokens s ≤ i32_max.

(** No parent has both a text and an observation. *)
Lemma observation_summary_none w obs_id o : check_kept → observation_summary w obs_id = inr o → o = None.
Proof.
  intros Hcheck. unfold observation_summary. destruct (summary_fault w); [done|]. intros [= <-].
  destruct (head (summary_parents (summary_tree w) obs_id)) as [r|] eqn:Eh; [|done]. cbn [base.mbind option_bind].
  assert (r ∈ summary_tree w) as Hr.
  { assert (r ∈ summary_parents (summary_tree w) obs_id) as Hin by (apply head_Some_elem_of; done).
    unfold summary_parents in Hin. apply list_elem_of_bind in Hin as (leaf & Hin & _). by apply list_elem_of_filter in Hin as [_ ?]. }
  specialize (Hcheck w). rewrite Forall_forall in Hcheck. specialize (Hcheck r Hr). unfold summary_check in Hcheck.
  destruct (st_summary_text r) as [text|] eqn:Et; [|done]. cbn [base.mbind option_bind].
  destruct (st_observation r) as [o|] eqn:Eo; [|done]. exfalso.
  apply orb_prop in Hcheck as [(_ & _ & ?)%bool_decide_eq_true|(_ & ? & _)%bool_decide_eq_true]; done.
Qed.

Lemma summary_of_none w leaves o : check_kept → summary_of_leaves w leaves = inr o → o = None.
Proof.
  intros Hcheck. induction leaves as [|leaf leaves IH]; cbn [summary_of_leaves]; [by intros [= <-]|].
  destruct (pageaddr_to_address leaf) as [[]|]; try exact IH.
  - unfold chunk_summary. by destruct (summary_fault w).
  - destruct (observation_summary w obs_id) as [e|[r|]] eqn:E; [done| |exact IH].
    apply observation_summary_none in E; done.
Qed.

Lemma estimate_nonneg s : estimates_fit → 0 ≤ i32_wrap (estimate_tokens s).
Proof. intros Hest. specialize (Hest s). rewrite i32_wrap_exact; unfold i32_min in *; lia. Qed.

Lemma resolve_nonneg w tree query w' refs : estimates_fit → plane_resolve w tree query = (w', inr refs) →
  Forall (λ r, 0 ≤ ref_tokens r) refs.
Proof.
  intros Hest. unfold plane_resolve. intros [= _ Hr].
  assert (Hfit : ∀ id content imp, 0 ≤ ref_tokens (chunk_ref id content imp)) by (intros; by apply estimate_nonneg).
  destruct query as [path lo hi|query k|pattern].
  - unfold resolve_chunk_range in Hr. destruct (chunk_span_rows w path lo hi) as [e|rows]; [done|]. injection Hr as <-.
    apply Forall_fmap, Forall_forall. intros [[id content] imp] _. apply Hfit.
  - unfold resolve_semantic in Hr. destruct (embed_query w query) as [e|v]; [done|].
    destruct (semantic_search w v _) as [e|hits]; [done|]. destruct (chunk_ids_by_line_span w hits) as [[]|ids]; [done..|].
    injection Hr as <-. apply Forall_forall. intros r (h & _ & Hh)%list_elem_of_omap.
    apply fmap_Some in Hh as (id & _ & ->). apply Hfit.
  - unfold resolve_grep in Hr. destruct (grep_search_chunks w pattern) as [e|hits]; [done|].
    destruct (chunk_ids_by_chunk_index w hits) as [[]|ids]; [done..|].
    injection Hr as <-. apply Forall_forall. intros r (h & _ & Hh)%list_elem_of_omap.
    apply fmap_Some in Hh as (id & _ & ->). apply Hfit.
Qed.

#[export] Instance real_plane_laws : check_kept → estimates_fit → BackendLaws RealTapeDataPlane.
Proof.
  intros Hcheck Hest. split.
  - intros w tree query w' refs. by apply resolve_nonneg.
  - intros w tree leaves w' r [= _ Hr]. by apply summary_of_none in Hr.
Qed.

Lemma real_plane_no_summary a : check_kept → ¬ summary_addr RealTapeDataPlane a.
Proof. intros Hcheck (w & tree & leaves & w' & r & [= _ Hr] & _). by apply summary_of_none in Hr. Qed.

(** C17: paging in through the repository's own data plane never breaks the
    budget, however it ends: on success and on every error of the plane or the
    database, the resident pages fit the token count and the count fits the
    budget, the same pages are pinned as before, and the call returns (it neither
    panics nor loops).  When the candidates are distinct, a successful call
    leaves the count exact.  Assumed of the database: the rows of the summary
    table satisfy its CHECK, so that the plane has no summary to offer whose
    content could be larger than announced; and of the estimate, a quarter of
    the length of a text, that it fits 32 bits. *)
Theorem page_in_budget_safe (Hcheck : check_kept) (Hest : estimates_fit)
    (find_lfu : list (string * nat) → list string → list string → option string)
    (fuel : nat) (tree : string) (query : PageQuery) (s : Eng W)
    (Hok : accounted (e_ws s)) (Hfuel : (rounds (e_ws s) ≤ fuel)%nat) :
  let (res, s') := page_in RealTapeDataPlane find_lfu fuel tree query s in
  returns res ∧ accounted (e_ws s') ∧ budget_tokens (e_ws s') = budget_tokens (e_ws s) ∧
  (∀ a, pinned_at (e_ws s') a ↔ pinned_at (e_ws s) a) ∧
  (exact (e_ws s) → is_ok res →
     (∀ w' rs, plane_resolve (e_world s) tree query = (w', inr rs) → NoDup (ref_addr <$> rs)) → exact (e_ws s')).
Proof.
  pose proof (lawful_page_in_safe RealTapeDataPlane (real_plane_laws Hcheck Hest) find_lfu fuel tree query s Hok Hfuel) as H.
  destruct (page_in _ _ _ _ _ s) as [res s']. destruct H as (H1 & H2 & H3 & H4 & H5). split_and!; [done..|].
  intros Hx Hres Hnd. apply H5; [done..|]. intros w' rs Hrs. split; [by eapply Hnd|].
  apply Forall_forall. intros r _. by apply real_plane_no_summary.
Qed.
End plane.

(** * A corpus

    The world is the clock; two chunks, an observation with a leaf and a parent
    in the summary table. *)
Definition sample_tree_rows : list SummaryRow :=
  [mkSummaryRow 1 0 (Some 2) (Some 7) None; mkSummaryRow 2 1 None None (Some "summary"%string)].

#[local] Instance sample_corpus : Corpus Z := {
  Embedding := unit;
  parse_path s :=
    match String.eqb s "a", String.eqb s "b" with
    | true, _ => Some (Chunk 1)
    | _, true => Some (Chunk 2)
    | _, _ => if String.eqb s "old" then Some (Observation 7) else None
    end;
  to_path a := match a with Chunk 1 => "a" | Chunk 2 => "b" | _ => "old" end%string;
  estimate_tokens s := if decide (s = "long"%string) then 40 else 30;
  get_cascade _ _ _ := None;
  insert_hydrated w _ _ _ := w;
  store_get _ _ _ := None;
  store_put w _ _ _ := w;
  hydrate _ a :=
    match a with
    | Chunk 1 => inr (mkTapePage "long" 40 f64_one false)
    | Chunk 2 => inr (mkTapePage "short" 30 f64_one false)
    | _ => inl (HydrateNotFound ""%string)
    end;
  supersede_observation w _ _ := (w, inr tt);
  allow_promotion := false;
  chunk_span_rows _ _ _ _ := inr [(1, "long"%string, 3); (2, "short"%string, 0)];
  embed_query _ _ := inr tt;
  semantic_search _ _ _ := inr [];
  grep_search_chunks _ _ := inr [];
  line_span_rows _ _ := inr [];
  chunk_index_rows _ _ := inr [];
  summary_fault _ := None;
  summary_tree _ := sample_tree_rows;
  bump_clock w _ d := (w + d, inr (w + d));
  evict_page_row w _ _ _ _ := (w, inr tt);
  save_working_set w _ _ _ _ := (w, inr tt);
}.

(** Both chunks are admitted, [old] is evicted without a stand-in. *)
Lemma page_in_budget_safe_witness :
  (let (res, s') := page_in RealTapeDataPlane counting_lfu 60 "tree" (QChunk "f" 0 9) sample_start in
   returns res ∧ accounted (e_ws s') ∧ budget_tokens (e_ws s') = 100 ∧
   (∀ a, pinned_at (e_ws s') a ↔ pinned_at sample_ws a) ∧
   (exact sample_ws → is_ok res →
      (∀ w' rs, plane_resolve 5 "tree" (QChunk "f" 0 9) = (w', inr rs) → NoDup (ref_addr <$> rs)) → exact (e_ws s'))) ∧
  (page_in RealTapeDataPlane counting_lfu 60 "tree" (QChunk "f" 0 9) sample_start).1 =
    Ok (mkOutcome [mkAddr "a"; mkAddr "b"] [] [mkAddr "old"] [] []).
Proof.
  split; [|vm_compute; reflexivity].
  apply (page_in_budget_safe (W := Z)).
  - intros w. apply (bool_decide_unpack _). vm_compute. exact I.
  - intros s. cbn [estimate_tokens sample_corpus]. unfold i32_max. case_decide; lia.
  - apply sample_exact.
  - apply (bool_decide_unpack _). vm_compute. exact I.
Defined.
