(* ===== verification/BitSet.v ===== *)
(** The fixed-width bit set of [src/src/category/fca.rs]: 64-bit words, and
    what each operation does to the set of the indices it contains.

    A word is a [Z] between 0 and [2^64 - 1].  Indexing outside the words is a
    panic.  [debug_assert!] is off, as in a release build. *)

From Stdlib Require Import ZArith.
From stdpp Require Import base numbers sets list.
From S2P Require Import Prelude.

(** Code that can panic and has no other error. *)
Notation may_panic A := (outcome Empty_set A).

(** * [BitSet] *)
Record BitSet := mkBitSet { bs_words : list Z; bs_nbits : nat }.

#[global] Instance BitSet_eq_dec : EqDecision BitSet.
Proof. solve_decision. Defined.

(** [usize::div_ceil] by 64. *)
Definition div_ceil64 (n : nat) : nat := (n + 63) `div` 64.

Definition bits_empty (n : nat) : BitSet := mkBitSet (replicate (div_ceil64 n) 0%Z) n.

Definition bits_insert (s : BitSet) (i : nat) : may_panic BitSet :=
  match bs_words s !! (i `div` 64) with
  | Some w =>
      Ok (mkBitSet (<[i `div` 64 := Z.lor w (Z.shiftl 1 (Z.of_nat (i `mod` 64)))]> (bs_words s))
            (bs_nbits s))
  | None => Panic
  end.

Definition bits_full (n : nat) : may_panic BitSet := ofold bits_insert (bits_empty n) (seq 0 n).

(** The word of an index below [nbits] exists; a missing one counts as empty. *)
Definition word_at (s : BitSet) (k : nat) : Z := default 0%Z (bs_words s !! k).

Definition bits_contains (s : BitSet) (i : nat) : bool :=
  bool_decide (i < bs_nbits s) &&
  (Z.land (Z.shiftr (word_at s (i `div` 64)) (Z.of_nat (i `mod` 64))) 1 =? 1)%Z.

(** [iter_mut().zip(..)]: as many words as both have. *)
Fixpoint zip_and (ws vs : list Z) : list Z :=
  match ws, vs with
  | w :: ws, v :: vs => Z.land w v :: zip_and ws vs
  | _, _ => ws
  end.

Definition bits_intersect (s t : BitSet) : BitSet :=
  mkBitSet (zip_and (bs_words s) (bs_words t)) (bs_nbits s).

(** [u64::count_ones] *)
Definition count_ones (w : Z) : nat :=
  length (filter (fun j => Z.testbit w (Z.of_nat j) = true) (seq 0 64)).

Definition bits_count (s : BitSet) : nat := sum_list (map count_ones (bs_words s)).

Definition bits_subset (s t : BitSet) : bool :=
  forallb (fun p => (Z.land p.1 p.2 =? p.1)%Z) (zip (bs_words s) (bs_words t)).

Definition bits_iter (s : BitSet) : list nat :=
  filter (fun i => bits_contains s i = true) (seq 0 (bs_nbits s)).

(** * The representation invariant *)

(** Bit [i] of the words, in range or not. *)
Definition bit (s : BitSet) (i : nat) : bool :=
  Z.testbit (word_at s (i `div` 64)) (Z.of_nat (i `mod` 64)).

Record bits_ok (s : BitSet) : Prop := {
  ok_length : length (bs_words s) = div_ceil64 (bs_nbits s);
  ok_words : Forall (fun w => (0 ≤ w < 2 ^ 64)%Z) (bs_words s);
  ok_bits : ∀ i, bit s i = true → i < bs_nbits s;
}.

(** The set [s] over [0..n] is [P]. *)
Definition repr (n : nat) (s : BitSet) (P : nat → Prop) : Prop :=
  bits_ok s ∧ bs_nbits s = n ∧ ∀ i, i < n → bits_contains s i = true ↔ P i.

Lemma div_mod_64 i : i = 64 * (i `div` 64) + i `mod` 64 ∧ i `mod` 64 < 64.
Proof. split; [by apply Nat.div_mod|]. by apply Nat.mod_upper_bound. Qed.

Lemma div_mod_64_inj i k j : j < 64 → i = 64 * k + j → i `div` 64 = k ∧ i `mod` 64 = j.
Proof.
  intros Hj ->. split; symmetry; [by apply (Nat.div_unique _ 64 _ j)|by apply (Nat.mod_unique _ 64 k)].
Qed.

Lemma div_ceil64_lt i n : i < n → i `div` 64 < div_ceil64 n.
Proof.
  intros Hi. unfold div_ceil64. destruct (div_mod_64 i), (div_mod_64 (n + 63)). lia.
Qed.

Lemma land_1_testbit w j : (0 ≤ j)%Z → (Z.land (Z.shiftr w j) 1 =? 1)%Z = Z.testbit w j.
Proof.
  intros Hj. rewrite (Z.land_ones _ 1) by lia. change (2 ^ 1)%Z with 2%Z.
  rewrite Z.testbit_odd, <- Z.bit0_mod, Z.bit0_odd.
  by destruct (Z.odd _).
Qed.

Lemma bits_contains_bit s i : bits_contains s i = bool_decide (i < bs_nbits s) && bit s i.
Proof. unfold bits_contains, bit. by rewrite land_1_testbit by lia. Qed.

Lemma bits_contains_ok s i : bits_ok s → bits_contains s i = bit s i.
Proof.
  intros Hok. rewrite bits_contains_bit. case_bool_decide as Hi; [done|]. simpl.
  destruct (bit s i) eqn:E; [|done]. by apply (ok_bits _ Hok) in E.
Qed.

Lemma bits_contains_lt s i : bits_contains s i = true → i < bs_nbits s.
Proof. rewrite bits_contains_bit, andb_true_iff, bool_decide_eq_true. by intros []. Qed.

Lemma elem_of_bits_iter s i : i ∈ bits_iter s ↔ bits_contains s i = true.
Proof.
  unfold bits_iter. rewrite list_elem_of_filter, elem_of_seq. split; [naive_solver|].
  intros H. pose proof (bits_contains_lt _ _ H). split; [done|lia].
Qed.

Lemma NoDup_bits_iter s : NoDup (bits_iter s).
Proof. apply NoDup_filter, NoDup_seq. Qed.

Lemma repr_lt n s P i : repr n s P → bits_contains s i = true → i < n ∧ P i.
Proof.
  intros (Hok & Hn & HP) Hi. pose proof (bits_contains_lt _ _ Hi). rewrite Hn in *.
  split; [done|]. by apply HP.
Qed.

Lemma repr_self s : bits_ok s → repr (bs_nbits s) s (fun i => bits_contains s i = true).
Proof. intros Hok. by split. Qed.

Lemma repr_impl n s P Q : repr n s P → (∀ i, i < n → P i ↔ Q i) → repr n s Q.
Proof.
  intros (Hok & Hn & HP) HQ. split_and!; [done..|]. intros i Hi. rewrite HP by done. by apply HQ.
Qed.

Lemma word_bits w j : (0 ≤ w < 2 ^ 64)%Z → (64 ≤ j)%Z → Z.testbit w j = false.
Proof.
  intros Hw Hj. destruct (decide (w = 0)%Z) as [->|]; [apply Z.bits_0|].
  apply Z.bits_above_log2; [lia|]. eapply Z.lt_le_trans; [|exact Hj].
  apply Z.log2_lt_pow2; lia.
Qed.

(** Structural equality ([derive(PartialEq)]) is equality of the sets. *)
Lemma bits_ext s t : bits_ok s → bits_ok t → bs_nbits s = bs_nbits t →
  (∀ i, i < bs_nbits s → bits_contains s i = bits_contains t i) → s = t.
Proof.
  intros Hs Ht Hn Heq. destruct s as [ws n], t as [vs m]; simpl in *; subst m. f_equal.
  assert (Hbit : ∀ i, bit (mkBitSet ws n) i = bit (mkBitSet vs n) i).
  { intros i. destruct (decide (i < n)) as [Hi|Hi].
    - specialize (Heq i Hi). by rewrite !bits_contains_ok in Heq.
    - destruct (bit _ i) eqn:E1; [by apply (ok_bits _ Hs) in E1|].
      destruct (bit _ i) eqn:E2 at 1; [by apply (ok_bits _ Ht) in E2|done]. }
  pose proof (ok_length _ Hs) as Hlw. pose proof (ok_length _ Ht) as Hlv. simpl in Hlw, Hlv.
  apply list_eq_same_length with (length ws); [congruence|done|].
  intros k w v Hk Hw Hv. apply Z.bits_inj'. intros j Hj.
  destruct (decide (j < 64)%Z) as [Hj'|Hj'].
  - specialize (Hbit (64 * k + Z.to_nat j)). unfold bit, word_at in Hbit. cbn [bs_words] in Hbit.
    destruct (div_mod_64_inj (64 * k + Z.to_nat j) k (Z.to_nat j)) as [E1 E2]; [lia|done|].
    rewrite E1, E2, Hw, Hv in Hbit. cbn in Hbit. by rewrite Z2Nat.id in Hbit.
  - rewrite !word_bits; [done| |lia| |lia].
    + eapply (Forall_lookup_1 _ _ _ _ (ok_words _ Ht)); done.
    + eapply (Forall_lookup_1 _ _ _ _ (ok_words _ Hs)); done.
Qed.

Lemma repr_inj n s t P Q : repr n s P → repr n t Q → (∀ i, i < n → P i ↔ Q i) → s = t.
Proof.
  intros (Hs & Hsn & HP) (Ht & Htn & HQ) HPQ. apply bits_ext; [done..|congruence|].
  intros i Hi. apply eq_true_iff_eq. rewrite HP, HQ by lia. apply HPQ. lia.
Qed.

(** * The operations on the sets *)
Lemma bits_empty_repr n : repr n (bits_empty n) (fun _ => False).
Proof.
  assert (Hb : ∀ i, bit (bits_empty n) i = false).
  { intros i. unfold bit, word_at, bits_empty. simpl.
    destruct (replicate _ _ !! _) eqn:E; simpl; [|apply Z.bits_0].
    apply lookup_replicate in E as [-> _]. apply Z.bits_0. }
  split_and!.
  - split; simpl; [apply length_replicate|by apply Forall_replicate; lia|].
    intros i. by rewrite Hb.
  - done.
  - intros i _. rewrite bits_contains_bit, Hb, andb_false_r. done.
Qed.

Lemma testbit_single (j k : nat) : Z.testbit (Z.shiftl 1 (Z.of_nat j)) (Z.of_nat k) = bool_decide (k = j).
Proof.
  rewrite Z.shiftl_spec by lia. case_bool_decide as E.
  - subst. by rewrite Z.sub_diag.
  - destruct (decide (k < j)) as [Hlt|Hge]; [by rewrite Z.testbit_neg_r by lia|].
    destruct (Z.of_nat k - Z.of_nat j)%Z as [|p|p] eqn:Ep; [lia| |lia].
    by rewrite (Z.bits_above_log2 1) by (simpl; lia).
Qed.

Lemma bits_insert_repr n s P i : repr n s P → i < n →
  ∃ s', bits_insert s i = Ok s' ∧ repr n s' (fun j => j = i ∨ P j).
Proof.
  intros (Hok & Hn & HP) Hi. unfold bits_insert.
  pose proof (div_ceil64_lt _ _ Hi) as Hk. rewrite <- Hn, <- (ok_length _ Hok) in Hk.
  destruct (lookup_lt_is_Some_2 _ _ Hk) as [w Hw]. rewrite Hw. eexists; split; [done|].
  set (w' := Z.lor w _). set (s' := mkBitSet _ _).
  assert (Hwb : (0 ≤ w < 2 ^ 64)%Z) by (eapply (Forall_lookup_1 _ _ _ _ (ok_words _ Hok)); done).
  pose proof (div_mod_64 i) as [Hdm Hm].
  assert (Hb : ∀ j, bit s' j = bool_decide (j = i) || bit s j).
  { intros j. unfold bit, word_at, s'. cbn [bs_words]. destruct (decide (j `div` 64 = i `div` 64)) as [E|E].
    - rewrite E, list_lookup_insert_eq, Hw by done. cbn [default from_option id]. unfold w'.
      rewrite Z.lor_spec, testbit_single, orb_comm. f_equal. apply bool_decide_ext.
      pose proof (div_mod_64 j). lia.
    - rewrite list_lookup_insert_ne by done.
      by rewrite bool_decide_false by (intros ->; done). }
  assert (Hok' : bits_ok s').
  { split; simpl.
    - rewrite length_insert. apply Hok.
    - apply Forall_insert; [apply Hok|]. split; [apply Z.lor_nonneg; split; [lia|]; apply Z.shiftl_nonneg; lia|].
      unfold w'. destruct (decide (Z.lor w (Z.shiftl 1 (Z.of_nat (i `mod` 64))) = 0)%Z) as [->|]; [lia|].
      apply Z.log2_lt_pow2.
      + assert (0 ≤ Z.lor w (Z.shiftl 1 (Z.of_nat (i `mod` 64))))%Z; [|lia].
        apply Z.lor_nonneg; split; [lia|]. apply Z.shiftl_nonneg. lia.
      + rewrite Z.log2_lor by (try apply Z.shiftl_nonneg; lia). apply Z.max_lub_lt.
        * destruct (decide (w = 0)%Z) as [->|]; [simpl; lia|]. apply Z.log2_lt_pow2; lia.
        * rewrite Z.log2_shiftl by lia. simpl. lia.
    - intros j. rewrite Hb, orb_true_iff, bool_decide_eq_true. intros [->|Hj]; [lia|]. by apply Hok. }
  split_and!; [done..|]. intros j Hj. rewrite bits_contains_ok, Hb by done.
  rewrite orb_true_iff, bool_decide_eq_true. rewrite <- bits_contains_ok by done. by rewrite HP.
Qed.

(** A loop of insertions. *)
Lemma bits_insert_all n l s P : repr n s P → Forall (fun i => i < n) l →
  ∃ s', ofold bits_insert s l = Ok s' ∧ repr n s' (fun j => j ∈ l ∨ P j).
Proof.
  intros Hs Hl. revert s P Hs. induction Hl as [|i l Hi Hl IH]; intros s P Hs; simpl.
  - exists s. split; [done|]. eapply repr_impl; [done|]. set_solver.
  - destruct (bits_insert_repr _ _ _ _ Hs Hi) as (s1 & -> & Hs1). simpl.
    destruct (IH _ _ Hs1) as (s2 & -> & Hs2). exists s2. split; [done|].
    eapply repr_impl; [done|]. set_solver.
Qed.

Lemma bits_full_repr n : ∃ s, bits_full n = Ok s ∧ repr n s (fun _ => True).
Proof.
  destruct (bits_insert_all n (seq 0 n) (bits_empty n) _ (bits_empty_repr n)) as (s & Hs & Hr).
  { apply Forall_forall. intros i. rewrite elem_of_seq. lia. }
  exists s. split; [done|]. eapply repr_impl; [done|]. intros i Hi. cbv beta. rewrite elem_of_seq.
  split; [done|]. intros _. left. lia.
Qed.

Lemma zip_and_length ws vs : length (zip_and ws vs) = length ws.
Proof. revert vs. induction ws as [|w ws IH]; intros [|v vs]; simpl; auto. Qed.

Lemma zip_and_lookup ws vs k : length ws = length vs →
  zip_and ws vs !! k = (w ← ws !! k; v ← vs !! k; Some (Z.land w v)).
Proof.
  revert vs k. induction ws as [|w ws IH]; intros [|v vs] [|k] Hl; simpl in *; try done.
  apply IH. lia.
Qed.

Lemma bits_intersect_repr n s t P Q : repr n s P → repr n t Q →
  repr n (bits_intersect s t) (fun i => P i ∧ Q i).
Proof.
  intros (Hs & Hsn & HP) (Ht & Htn & HQ).
  assert (Hl : length (bs_words s) = length (bs_words t)) by (rewrite !ok_length; congruence).
  assert (Hb : ∀ i, bit (bits_intersect s t) i = bit s i && bit t i).
  { intros i. unfold bit, word_at. simpl. rewrite zip_and_lookup by done.
    destruct (bs_words s !! _) as [w|] eqn:Ew; simpl; [|by rewrite Z.bits_0].
    destruct (bs_words t !! _) as [v|] eqn:Ev; simpl; [by rewrite Z.land_spec|].
    by rewrite Z.bits_0, andb_false_r. }
  assert (Hok : bits_ok (bits_intersect s t)).
  { split; simpl.
    - rewrite zip_and_length. apply Hs.
    - apply Forall_lookup. intros k w. rewrite zip_and_lookup by done.
      destruct (bs_words s !! k) as [u|] eqn:Eu; simpl; [|done].
      destruct (bs_words t !! k) as [v|] eqn:Ev; simpl; [|done]. intros [= <-].
      pose proof (Forall_lookup_1 _ _ _ _ (ok_words _ Hs) Eu) as Hu.
      pose proof (Forall_lookup_1 _ _ _ _ (ok_words _ Ht) Ev) as Hv. simpl in *.
      assert (0 ≤ Z.land u v)%Z by (apply Z.land_nonneg; lia). split; [done|].
      destruct (decide (Z.land u v = 0)%Z) as [->|]; [lia|]. apply Z.log2_lt_pow2; [lia|].
      eapply Z.le_lt_trans; [apply Z.log2_land; lia|]. apply Z.min_lt_iff. left.
      destruct (decide (u = 0)%Z) as [->|]; [simpl; lia|]. apply Z.log2_lt_pow2; lia.
    - intros i. rewrite Hb, andb_true_iff. intros [Hi _]. by apply Hs. }
  split_and!; [done..|]. intros i Hi. rewrite bits_contains_ok, Hb by done.
  rewrite andb_true_iff, <- !bits_contains_ok by done. rewrite HP, HQ by done. done.
Qed.

(** Counting over two ranges that agree index by index. *)
Lemma length_filter_seq (P Q : nat → Prop) `{!∀ i, Decision (P i)} `{!∀ i, Decision (Q i)} n a b :
  (∀ j, j < n → P (a + j) ↔ Q (b + j)) →
  length (filter P (seq a n)) = length (filter Q (seq b n)).
Proof.
  revert a b. induction n as [|n IH]; intros a b HPQ; [done|]. simpl.
  assert (Hhd : P a ↔ Q b) by (specialize (HPQ 0); rewrite !Nat.add_0_r in HPQ; apply HPQ; lia).
  assert (Htl : length (filter P (seq (S a) n)) = length (filter Q (seq (S b) n))).
  { apply IH. intros j Hj. specialize (HPQ (S j)). rewrite !Nat.add_succ_r in HPQ. apply HPQ. lia. }
  rewrite !filter_cons. destruct (decide (P a)), (decide (Q b)); simpl; try tauto; congruence.
Qed.

Lemma count_words ws :
  sum_list (map count_ones ws) =
  length (filter (fun i => Z.testbit (default 0%Z (ws !! (i `div` 64))) (Z.of_nat (i `mod` 64)) = true)
            (seq 0 (64 * length ws))).
Proof.
  induction ws as [|w ws IH] using rev_ind; [done|].
  rewrite map_app, sum_list_with_app, IH.
  replace (64 * length (ws ++ [w])) with (64 * length ws + 64) by (rewrite length_app; simpl; lia).
  rewrite seq_app, filter_app, length_app. f_equal.
  - apply length_filter_seq. intros j Hj. rewrite !Nat.add_0_l.
    rewrite lookup_app_l; [done|]. destruct (div_mod_64 j). lia.
  - cbn [map sum_list_with]. rewrite Nat.add_0_r. apply length_filter_seq. intros j Hj.
    destruct (div_mod_64_inj (0 + 64 * length ws + j) (length ws) j) as [-> ->]; [done|lia|].
    rewrite Nat.add_0_l. by rewrite list_lookup_middle.
Qed.

Lemma bits_count_iter s : bits_ok s → bits_count s = length (bits_iter s).
Proof.
  intros Hok. unfold bits_count. rewrite count_words, (ok_length _ Hok). unfold bits_iter.
  set (n := bs_nbits s). assert (Hn : n ≤ 64 * div_ceil64 n).
  { unfold div_ceil64. destruct (div_mod_64 (n + 63)). lia. }
  replace (64 * div_ceil64 n) with (n + (64 * div_ceil64 n - n)) by lia.
  rewrite seq_app, filter_app, length_app.
  rewrite (filter_nil_Forall _ (seq (0 + n) _)), Nat.add_0_r.
  - apply length_filter_seq. intros j Hj. by rewrite (bits_contains_ok _ _ Hok).
  - apply Forall_forall. intros i Hi Hb. apply (ok_bits _ Hok) in Hb.
    apply elem_of_seq in Hi. lia.
Qed.

Lemma bits_subset_repr n s t P Q : repr n s P → repr n t Q →
  bits_subset s t = true ↔ ∀ i, i < n → P i → Q i.
Proof.
  intros (Hs & Hsn & HP) (Ht & Htn & HQ).
  assert (Hl : length (bs_words s) = length (bs_words t)) by (rewrite !ok_length; congruence).
  transitivity (∀ i, bit s i = true → bit t i = true).
  - unfold bits_subset. rewrite forallb_forall. setoid_rewrite <- list_elem_of_In.
    split.
    + intros Hall i. unfold bit, word_at.
      destruct (bs_words s !! (i `div` 64)) as [w|] eqn:Ew; [|cbn; by rewrite Z.bits_0].
      destruct (lookup_lt_is_Some_2 (bs_words t) (i `div` 64)) as [v Ev].
      { rewrite <- Hl. by eapply lookup_lt_Some. }
      rewrite Ev. cbn [default from_option id]. assert (Hin : (w, v) ∈ zip (bs_words s) (bs_words t)).
      { apply list_elem_of_lookup. exists (i `div` 64). apply lookup_zip_with_Some. by exists w, v. }
      apply Hall in Hin. apply Z.eqb_eq in Hin. cbn [fst snd] in Hin. intros Hw.
      rewrite <- Hin, Z.land_spec, andb_true_iff in Hw. by destruct Hw.
    + intros Hb [w v] Hin. apply list_elem_of_lookup in Hin as [k Hk].
      apply lookup_zip_with_Some in Hk as (w' & v' & [= <- <-] & Hw & Hv).
      apply Z.eqb_eq. cbn [fst snd]. apply Z.bits_inj'. intros j Hj. rewrite Z.land_spec.
      destruct (Z.testbit w j) eqn:Ej; [simpl|done].
      destruct (decide (j < 64)%Z) as [Hj'|Hj'].
      * destruct (div_mod_64_inj (64 * k + Z.to_nat j) k (Z.to_nat j)) as [E1 E2]; [lia|done|].
        specialize (Hb (64 * k + Z.to_nat j)). unfold bit, word_at in Hb.
        rewrite E1, E2, Hw, Hv in Hb. cbn in Hb. rewrite Z2Nat.id in Hb by done. by apply Hb.
      * rewrite word_bits in Ej; [done| |lia].
        eapply (Forall_lookup_1 _ _ _ _ (ok_words _ Hs)); done.
  - setoid_rewrite <- bits_contains_ok; [|done..]. split.
    + intros H i Hi. rewrite <- HP, <- HQ by done. auto.
    + intros H i Hi. assert (Hin : i < n) by (rewrite <- Hsn; by apply bits_contains_lt).
      rewrite HQ by done. apply H; [done|]. by apply HP.
Qed.

(** The elements of a set are those of the predicate it represents. *)
Lemma repr_iter n s P i : repr n s P → i ∈ bits_iter s ↔ i < n ∧ P i.
Proof.
  intros Hr. rewrite elem_of_bits_iter. split; [by apply repr_lt|].
  intros [Hi HP]. destruct Hr as (_ & _ & H). by apply H.
Qed.

Lemma repr_ok n s P : repr n s P → bits_ok s.
Proof. by intros []. Qed.

(** An inclusion that adds nothing to the count is an equality. *)
Lemma bits_count_lt n s t P Q : repr n s P → repr n t Q → (∀ i, i < n → P i → Q i) →
  bits_count s < bits_count t ↔ ∃ i, i < n ∧ Q i ∧ ¬ P i.
Proof.
  intros Hs Ht Hsub. rewrite (bits_count_iter s), (bits_count_iter t) by (by eapply repr_ok).
  assert (Hincl : bits_iter s ⊆ bits_iter t).
  { intros i. rewrite (repr_iter _ _ _ _ Hs), (repr_iter _ _ _ _ Ht). naive_solver. }
  split.
  - intros Hlt.
    destruct (decide (Exists (fun i => i ∉ bits_iter s) (bits_iter t))) as [He|Hne].
    + apply Exists_exists in He as (i & Hi & Hns).
      rewrite (repr_iter _ _ _ _ Ht) in Hi. rewrite (repr_iter _ _ _ _ Hs) in Hns. naive_solver.
    + exfalso. apply not_Exists_Forall in Hne; [|apply _].
      assert (length (bits_iter t) ≤ length (bits_iter s)); [|lia].
      apply submseteq_length, NoDup_submseteq; [apply NoDup_bits_iter|].
      intros i Hi. eapply Forall_forall in Hne; [|done]. by apply dec_stable in Hne.
  - intros (i & Hi & HQ & HnP).
    assert (i ∉ bits_iter s) by (rewrite (repr_iter _ _ _ _ Hs); tauto).
    assert (length (i :: bits_iter s) ≤ length (bits_iter t)); [|simpl in *; lia].
    apply submseteq_length, NoDup_submseteq; [constructor; [done|apply NoDup_bits_iter]|].
    intros j [->|Hj]%elem_of_cons; [|by apply Hincl]. by apply (repr_iter _ _ _ _ Ht).
Qed.
