(* ===== verification/FcaContext.v ===== *)
(** Formal contexts ([src/src/category/fca.rs]): objects, attributes, the
    incidence stored by row and by column, and the two derivation operators.
    The operators are shown to be the Galois connection of the incidence. *)

From stdpp Require Import base numbers strings sets list.
From S2P Require Import Prelude BitSet.

(** * [FormalContext] *)
Record FormalContext := mkContext {
  fc_objects : list string;
  fc_attributes : list string;
  obj_attrs : list BitSet;
  attr_objs : list BitSet;
}.

Record Concept := mkConcept { c_extent : BitSet; c_intent : BitSet }.

Record Implication := mkImplication {
  im_premise : list string;
  im_conclusion : list string;
  im_support : nat;
}.

#[global] Instance Concept_eq_dec : EqDecision Concept.
Proof. solve_decision. Defined.
#[global] Instance Implication_eq_dec : EqDecision Implication.
Proof. solve_decision. Defined.

Definition n_objects (c : FormalContext) : nat := length (fc_objects c).
Definition n_attributes (c : FormalContext) : nat := length (fc_attributes c).

(** [v[i].insert(x)] on a vector of bit sets. *)
Definition insert_at (v : list BitSet) (i x : nat) : may_panic (list BitSet) :=
  let* s := expect (v !! i) in
  let* s' := bits_insert s x in
  Ok (<[i := s']> v).

(** One turn of the loop of [FormalContext::new]. *)
Definition add_incidence (n_obj n_attr : nat) (st : list BitSet * list BitSet) (p : nat * nat) :
    may_panic (list BitSet * list BitSet) :=
  let '(rows, cols) := st in
  let '(g, m) := p in
  if bool_decide (g < n_obj) && bool_decide (m < n_attr) then
    let* rows' := insert_at rows g m in
    let* cols' := insert_at cols m g in
    Ok (rows', cols')
  else Ok (rows, cols).

(** [FormalContext::new] *)
Definition context_new (objects attributes : list string) (incidence : list (nat * nat)) :
    may_panic FormalContext :=
  let n_obj := length objects in
  let n_attr := length attributes in
  let* st := ofold (add_incidence n_obj n_attr)
               (replicate n_obj (bits_empty n_attr), replicate n_attr (bits_empty n_obj)) incidence in
  Ok (mkContext objects attributes st.1 st.2).

(** [acc.intersect_with(&v[i])] *)
Definition intersect_at (v : list BitSet) (acc : BitSet) (i : nat) : may_panic BitSet :=
  let* s := expect (v !! i) in
  Ok (bits_intersect acc s).

Definition extent_of (c : FormalContext) (intent : BitSet) : may_panic BitSet :=
  let* acc := bits_full (n_objects c) in
  ofold (intersect_at (attr_objs c)) acc (bits_iter intent).

Definition intent_of (c : FormalContext) (extent : BitSet) : may_panic BitSet :=
  let* acc := bits_full (n_attributes c) in
  ofold (intersect_at (obj_attrs c)) acc (bits_iter extent).

Definition attr_closure (c : FormalContext) (intent : BitSet) : may_panic BitSet :=
  let* extent := extent_of c intent in
  intent_of c extent.

(** Labels for display. *)
Definition label_attrs (c : FormalContext) (b : BitSet) : may_panic (list string) :=
  omapM (fun m => expect (fc_attributes c !! m)) (bits_iter b).

Definition sample_objects (c : FormalContext) (extent : BitSet) (cap : nat) :
    may_panic (list string) :=
  omapM (fun g => expect (fc_objects c !! g)) (take cap (bits_iter extent)).

(** * The incidence *)

(** Object [g] has attribute [m], read from the rows. *)
Definition has (c : FormalContext) (g m : nat) : Prop :=
  ∃ row, obj_attrs c !! g = Some row ∧ bits_contains row m = true.

(** [v] is a matrix of [n] rows over [0..w] that holds the relation [R]. *)
Definition matrix (n w : nat) (v : list BitSet) (R : nat → nat → Prop) : Prop :=
  length v = n ∧ ∀ i s, v !! i = Some s → repr w s (R i).

(** A context: rows and columns hold the same relation. *)
Definition context_ok (c : FormalContext) : Prop :=
  matrix (n_objects c) (n_attributes c) (obj_attrs c) (has c) ∧
  matrix (n_attributes c) (n_objects c) (attr_objs c) (fun m g => has c g m).

Lemma matrix_lookup n w v R i : matrix n w v R → i < n → ∃ s, v !! i = Some s ∧ repr w s (R i).
Proof.
  intros [Hl Hv] Hi. rewrite <- Hl in Hi. apply lookup_lt_is_Some_2 in Hi as [s Hs]. eauto.
Qed.

Lemma matrix_impl n w v (R S : nat → nat → Prop) : matrix n w v R →
  (∀ i j, i < n → j < w → R i j ↔ S i j) → matrix n w v S.
Proof.
  intros [Hl Hv] HRS. split; [done|]. intros i s Hs. eapply repr_impl; [by apply Hv|].
  intros j Hj. apply HRS; [|done]. rewrite <- Hl. by eapply lookup_lt_Some.
Qed.

Lemma insert_at_matrix n w v R i x : matrix n w v R → i < n → x < w →
  ∃ v', insert_at v i x = Ok v' ∧ matrix n w v' (fun a b => a = i ∧ b = x ∨ R a b).
Proof.
  intros Hm Hi Hx. destruct (matrix_lookup _ _ _ _ _ Hm Hi) as (s & Hs & Hr).
  unfold insert_at. rewrite Hs. simpl.
  destruct (bits_insert_repr _ _ _ _ Hr Hx) as (s' & -> & Hr'). simpl. eexists. split; [done|].
  destruct Hm as [Hl Hv]. split; [by rewrite length_insert|]. intros a t Ht.
  destruct (decide (a = i)) as [->|Hne].
  - rewrite list_lookup_insert_eq in Ht by lia. simplify_eq. eapply repr_impl; [done|]. naive_solver.
  - rewrite list_lookup_insert_ne in Ht by done. eapply repr_impl; [by apply Hv|]. naive_solver.
Qed.

Lemma matrix_empty n w : matrix n w (replicate n (bits_empty w)) (fun _ _ => False).
Proof.
  split; [apply length_replicate|]. intros i s [-> _]%lookup_replicate. apply bits_empty_repr.
Qed.

(** Rows and columns after the loop. *)
Lemma add_incidences n_obj n_attr inc rows cols R :
  matrix n_obj n_attr rows R → matrix n_attr n_obj cols (fun m g => R g m) →
  let R' g m := R g m ∨ (g, m) ∈ inc in
  ∃ rows' cols', ofold (add_incidence n_obj n_attr) (rows, cols) inc = Ok (rows', cols') ∧
    matrix n_obj n_attr rows' R' ∧ matrix n_attr n_obj cols' (fun m g => R' g m).
Proof.
  revert rows cols R. induction inc as [|[g m] inc IH]; intros rows cols R Hr Hc R'; simpl.
  - exists rows, cols. split; [done|]. split; (eapply matrix_impl; [done|]); unfold R'; set_solver.
  - case_bool_decide as Hg; [case_bool_decide as Hm|]; simpl.
    + destruct (insert_at_matrix _ _ _ _ _ _ Hr Hg Hm) as (rows1 & -> & Hr1). simpl.
      destruct (insert_at_matrix _ _ _ _ _ _ Hc Hm Hg) as (cols1 & -> & Hc1). simpl.
      destruct (IH rows1 cols1 (fun a b => a = g ∧ b = m ∨ R a b)) as (rows2 & cols2 & -> & Hr2 & Hc2);
        [done|eapply matrix_impl; [done|]; naive_solver|].
      exists rows2, cols2. split; [done|].
      split; (eapply matrix_impl; [done|]); unfold R'; intros; rewrite elem_of_cons; naive_solver.
    + destruct (IH rows cols R Hr Hc) as (rows2 & cols2 & -> & Hr2 & Hc2). exists rows2, cols2.
      split; [done|]. split; (eapply matrix_impl; [done|]); unfold R'; intros;
        rewrite elem_of_cons; naive_solver.
    + destruct (IH rows cols R Hr Hc) as (rows2 & cols2 & -> & Hr2 & Hc2). exists rows2, cols2.
      split; [done|]. split; (eapply matrix_impl; [done|]); unfold R'; intros;
        rewrite elem_of_cons; naive_solver.
Qed.

(** A context is built without a panic, and its incidence is the given one,
    out-of-range pairs left out. *)
Lemma context_new_ok objects attributes inc :
  ∃ c, context_new objects attributes inc = Ok c ∧ context_ok c ∧
    n_objects c = length objects ∧ n_attributes c = length attributes ∧
    ∀ g m, has c g m ↔ (g, m) ∈ inc ∧ g < length objects ∧ m < length attributes.
Proof.
  unfold context_new.
  destruct (add_incidences (length objects) (length attributes) inc _ _ _
    (matrix_empty (length objects) (length attributes))
    (matrix_empty (length attributes) (length objects))) as (rows & cols & -> & Hr & Hc).
  simpl. eexists; split; [done|].
  assert (Hhas : ∀ g m, has (mkContext objects attributes rows cols) g m ↔
    (g, m) ∈ inc ∧ g < length objects ∧ m < length attributes).
  { intros g m. unfold has. simpl. split.
    - intros (row & Hrow & Hb). pose proof (proj2 Hr _ _ Hrow) as Hrep.
      apply (repr_lt _ _ _ _ Hrep) in Hb as [Hm [[]|Hin]].
      split_and!; [done| |done]. rewrite <- (proj1 Hr). by eapply lookup_lt_Some.
    - intros (Hin & Hg & Hm). destruct (matrix_lookup _ _ _ _ _ Hr Hg) as (row & Hrow & Hrep).
      exists row. split; [done|]. apply Hrep; [done|]. by right. }
  split_and!; [|done..]. split.
  - eapply matrix_impl; [exact Hr|]. intros g m Hg Hm. rewrite Hhas. unfold n_objects, n_attributes in *. naive_solver.
  - eapply matrix_impl; [exact Hc|]. intros m g Hm Hg. rewrite Hhas. unfold n_objects, n_attributes in *. naive_solver.
Qed.

(** * The derivation operators *)
Section context.
Context (c : FormalContext) (Hok : context_ok c).

(** A set of attributes, and of objects, of the context. *)
Definition attr_set (b : BitSet) : Prop := bits_ok b ∧ bs_nbits b = n_attributes c.
Definition obj_set (a : BitSet) : Prop := bits_ok a ∧ bs_nbits a = n_objects c.

(** [A'] and [B'] as sets. *)
Definition shared_attr (A : nat → Prop) (m : nat) : Prop := ∀ g, A g → has c g m.
Definition sharing_obj (B : nat → Prop) (g : nat) : Prop := ∀ m, B m → has c g m.

Definition mem (s : BitSet) (i : nat) : Prop := bits_contains s i = true.

Lemma intersect_all n w v R acc P l :
  matrix n w v R → repr w acc P → Forall (fun i => i < n) l →
  ∃ acc', ofold (intersect_at v) acc l = Ok acc' ∧ repr w acc' (fun x => P x ∧ ∀ i, i ∈ l → R i x).
Proof.
  intros Hm Hacc Hl. revert acc P Hacc. induction Hl as [|i l Hi Hl IH]; intros acc P Hacc; simpl.
  - exists acc. split; [done|]. eapply repr_impl; [done|]. set_solver.
  - unfold intersect_at at 1. destruct (matrix_lookup _ _ _ _ _ Hm Hi) as (s & -> & Hr). simpl.
    destruct (IH _ _ (bits_intersect_repr _ _ _ _ _ Hacc Hr)) as (acc' & -> & Hacc').
    exists acc'. split; [done|]. eapply repr_impl; [done|]. intros x _. simpl.
    setoid_rewrite elem_of_cons. naive_solver.
Qed.

Lemma derive_all n w v R s : matrix n w v R → bits_ok s → bs_nbits s = n →
  ∃ t, (let* acc := bits_full w in ofold (intersect_at v) acc (bits_iter s)) = Ok t ∧
    repr w t (fun x => ∀ i, mem s i → R i x).
Proof.
  intros Hm Hs Hn. destruct (bits_full_repr w) as (full & -> & Hfull). simpl.
  destruct (intersect_all _ _ _ _ _ _ (bits_iter s) Hm Hfull) as (t & -> & Ht).
  { apply Forall_forall. intros i Hi%elem_of_bits_iter. rewrite <- Hn. by apply bits_contains_lt. }
  exists t. split; [done|]. eapply repr_impl; [done|]. intros x _. simpl.
  setoid_rewrite elem_of_bits_iter. unfold mem. naive_solver.
Qed.

Lemma extent_of_repr b : attr_set b →
  ∃ a, extent_of c b = Ok a ∧ repr (n_objects c) a (sharing_obj (mem b)).
Proof using Hok. intros [Hb Hn]. apply (derive_all _ _ _ _ _ (proj2 Hok) Hb Hn). Qed.

Lemma intent_of_repr a : obj_set a →
  ∃ b, intent_of c a = Ok b ∧ repr (n_attributes c) b (shared_attr (mem a)).
Proof using Hok. intros [Ha Hn]. apply (derive_all _ _ _ _ _ (proj1 Hok) Ha Hn). Qed.

Lemma has_lt g m : has c g m → g < n_objects c ∧ m < n_attributes c.
Proof using Hok.
  intros (row & Hrow & Hm). destruct Hok as [[Hl Hv] _].
  split; [rewrite <- Hl; by eapply lookup_lt_Some|].
  pose proof (Hv _ _ Hrow) as (_ & Hn & _). rewrite <- Hn. by apply bits_contains_lt.
Qed.

(** [B''] on sets of attributes. *)
Definition closure (B : nat → Prop) (m : nat) : Prop :=
  ∀ g, g < n_objects c → sharing_obj B g → has c g m.

Lemma attr_closure_repr b : attr_set b →
  ∃ b', attr_closure c b = Ok b' ∧ repr (n_attributes c) b' (closure (mem b)).
Proof using Hok.
  intros Hb. unfold attr_closure. destruct (extent_of_repr b Hb) as (a & -> & Ha). simpl.
  destruct (intent_of_repr a) as (b' & -> & Hb'); [destruct Ha as (? & ? & ?); by split|].
  exists b'. split; [done|]. eapply repr_impl; [done|]. intros m Hm.
  unfold shared_attr, closure. split.
  - intros H g Hg Hs. apply H. by apply Ha.
  - intros H g Hg. apply (repr_lt _ _ _ _ Ha) in Hg as [Hg Hs]. by apply H.
Qed.

(** The closure operator: extensive, monotone, idempotent. *)
Lemma closure_extensive (B : nat → Prop) m : B m → closure B m.
Proof. intros HB g Hg Hs. by apply Hs. Qed.

Lemma closure_mono (B C : nat → Prop) : (∀ m, B m → C m) → ∀ m, closure B m → closure C m.
Proof. intros HBC m HB g Hg HC. apply HB; [done|]. intros k Hk. by apply HC, HBC. Qed.

Lemma closure_idem (B : nat → Prop) m : closure (closure B) m → closure B m.
Proof. intros H g Hg Hs. apply H; [done|]. intros k Hk. by apply Hk. Qed.

(** A formal concept: each side derives the other. *)
Definition is_concept (k : Concept) : Prop :=
  extent_of c (c_intent k) = Ok (c_extent k) ∧ intent_of c (c_extent k) = Ok (c_intent k) ∧
  obj_set (c_extent k) ∧ attr_set (c_intent k).

(** A closed set of attributes of the context. *)
Definition closed (b : BitSet) : Prop := attr_set b ∧ ∀ m, m < n_attributes c → closure (mem b) m → mem b m.

Lemma repr_attr_set b P : repr (n_attributes c) b P → attr_set b.
Proof. intros (? & ? & _). by split. Qed.

Lemma repr_obj_set a P : repr (n_objects c) a P → obj_set a.
Proof. intros (? & ? & _). by split. Qed.

Lemma attr_set_repr b : attr_set b → repr (n_attributes c) b (mem b).
Proof. intros [Hb <-]. by apply repr_self. Qed.

Lemma obj_set_repr a : obj_set a → repr (n_objects c) a (mem a).
Proof. intros [Hb <-]. by apply repr_self. Qed.

Lemma closed_attr_closure b : attr_set b → closed b ↔ attr_closure c b = Ok b.
Proof using Hok.
  intros Hb. destruct (attr_closure_repr b Hb) as (b' & E & Hb'). rewrite E. split.
  - intros [_ Hc]. f_equal. eapply repr_inj; [exact Hb'|by apply attr_set_repr|].
    intros m Hm. split; [by apply Hc|apply closure_extensive].
  - intros [= ->]. split; [done|]. intros m Hm Hcl. by apply Hb'.
Qed.

(** The intents of the concepts are the closed sets. *)
Lemma closed_concept b : closed b →
  ∃ a, extent_of c b = Ok a ∧ is_concept (mkConcept a b).
Proof using Hok.
  intros Hc. pose proof (proj1 Hc) as Hb. pose proof (proj1 (closed_attr_closure b Hb) Hc) as E.
  destruct (extent_of_repr b Hb) as (a & Ea & Ha). exists a. split; [done|].
  unfold attr_closure in E. rewrite Ea in E. simpl in E.
  split_and!; [done|done|by eapply repr_obj_set|done].
Qed.

Lemma concept_closed k : is_concept k → closed (c_intent k).
Proof using Hok.
  intros (He & Hi & Ha & Hb). apply closed_attr_closure; [done|].
  unfold attr_closure. by rewrite He.
Qed.
End context.
