(* ===== verification/FcaConcepts.v ===== *)
(** Enumeration of the concepts of a context with Ganter's NextClosure
    ([next_closure] and [concepts] of [src/src/category/fca.rs]), and its
    exactness: every concept once, in lectic order, unless the cap is met. *)

From stdpp Require Import base numbers strings sets list.
From Stdlib Require Import Sorting.Sorted.
From S2P Require Import Prelude BitSet FcaContext.

(** * The code *)

(** The body of the loop of [next_closure] for one [i] outside [b]: the closure
    of [(b ∩ {0..i}) ∪ {i}]. *)
Definition candidate (c : FormalContext) (b : BitSet) (i : nat) : may_panic BitSet :=
  let* below := ofold (fun s j => if bits_contains b j then bits_insert s j else Ok s)
                  (bits_empty (n_attributes c)) (seq 0 i) in
  let* seed := bits_insert below i in
  attr_closure c seed.

(** [ok_below] *)
Definition ok_below (b cand : BitSet) (i : nat) : bool :=
  forallb (fun j => negb (bits_contains cand j) || bits_contains b j) (seq 0 i).

Fixpoint try_each (c : FormalContext) (b : BitSet) (idx : list nat) : may_panic (option BitSet) :=
  match idx with
  | [] => Ok None
  | i :: idx =>
      if bits_contains b i then try_each c b idx
      else
        let* cand := candidate c b i in
        if ok_below b cand i then Ok (Some cand) else try_each c b idx
  end.

Definition next_closure (c : FormalContext) (b : BitSet) : may_panic (option BitSet) :=
  try_each c b (reverse (seq 0 (n_attributes c))).

(** The closure [push] of [concepts]. *)
Definition push_concept (c : FormalContext) (out : list Concept) (intent : BitSet) :
    may_panic (list Concept) :=
  let* extent := extent_of c intent in
  Ok (out ++ [mkConcept extent intent]).

(** The [while] loop of [concepts]. *)
Fixpoint concepts_loop (fuel : nat) (c : FormalContext) (full : BitSet) (max_concepts : nat)
    (current : BitSet) (out : list Concept) : may_panic (list Concept * bool) :=
  if decide (current = full) then Ok (out, false)
  else
    match fuel with
    | 0 => OutOfFuel
    | S fuel =>
        let* next := next_closure c current in
        match next with
        | None => Ok (out, false)
        | Some next =>
            let* out := push_concept c out next in
            if bool_decide (max_concepts ≤ length out) && bool_decide (next ≠ full)
            then Ok (out, true)
            else concepts_loop fuel c full max_concepts next out
        end
    end.

(** [FormalContext::concepts]: each turn of the loop adds a concept, so the cap
    is enough fuel. *)
Definition concepts (c : FormalContext) (max_concepts : nat) : may_panic (list Concept * bool) :=
  let* current := attr_closure c (bits_empty (n_attributes c)) in
  let* out := push_concept c [] current in
  if bool_decide (max_concepts ≤ length out) then Ok (out, true)
  else
    let* full := bits_full (n_attributes c) in
    concepts_loop max_concepts c full max_concepts current out.

(** * The lectic order *)

(** [d] is above [b]: the first index at which they differ is in [d]. *)
Definition lectic_at (i : nat) (b d : BitSet) : Prop :=
  mem d i ∧ ¬ mem b i ∧ ∀ j, j < i → mem b j ↔ mem d j.
Definition lectic (b d : BitSet) : Prop := ∃ i, lectic_at i b d.

Lemma lectic_irrefl b : ¬ lectic b b.
Proof. intros (i & ? & ? & _). done. Qed.

#[global] Instance lectic_trans : Transitive lectic.
Proof.
  intros b d e (i & Hi & Hni & Hbd) (k & Hk & Hnk & Hde).
  destruct (Nat.lt_trichotomy i k) as [Hlt|[->|Hlt]].
  - exists i. split_and!; [by apply Hde|done|]. intros j Hj. rewrite Hbd, Hde by lia. done.
  - done.
  - exists k. split_and!; [done|by rewrite Hbd|]. intros j Hj. rewrite Hbd, Hde by lia. done.
Qed.

Section next_closure.
Context (c : FormalContext) (Hok : context_ok c).

(** A subset is below. *)
Lemma subset_lectic b d : attr_set c b → attr_set c d → (∀ m, mem b m → mem d m) →
  b = d ∨ lectic b d.
Proof.
  intros Hb Hd Hsub.
  assert (Hdec : ∀ i, Decision (mem d i ∧ ¬ mem b i)) by (unfold mem; intros; apply _).
  destruct (least_index (fun i => mem d i ∧ ¬ mem b i) (n_attributes c)) as [(i & Hi & [Hdi Hbi] & Hl)|Hno].
  - right. exists i. split_and!; [done|done|]. intros j Hj. split; [apply Hsub|].
    intros Hdj. unfold mem in *. destruct (bits_contains b j) eqn:E; [done|].
    exfalso. apply (Hl j Hj). by split; [|rewrite E].
  - left. eapply repr_inj; [by apply attr_set_repr..|]. intros i Hi. split; [apply Hsub|].
    intros Hdi. specialize (Hno i Hi). unfold mem in *. destruct (bits_contains b i); [done|].
    exfalso. by apply Hno.
Qed.

(** The seed of the candidate at [i]. *)
Definition seed_of (b : BitSet) (i m : nat) : Prop := m = i ∨ (m < i ∧ mem b m).

Lemma candidate_spec b i : attr_set c b → i < n_attributes c →
  ∃ cand, candidate c b i = Ok cand ∧ repr (n_attributes c) cand (closure c (seed_of b i)) ∧ closed c cand.
Proof using Hok.
  intros Hb Hi. unfold candidate.
  assert (Hins : ∀ k s P, repr (n_attributes c) s P → k ≤ n_attributes c →
    ∃ s', ofold (fun s j => if bits_contains b j then bits_insert s j else Ok s) s (seq 0 k) = Ok s' ∧
      repr (n_attributes c) s' (fun m => P m ∨ (m < k ∧ mem b m))).
  { induction k as [|k IH]; intros s P Hs Hk.
    - exists s. split; [done|]. eapply repr_impl; [done|]. intros; split; [by left|].
      intros [?|[? _]]; [done|lia].
    - rewrite seq_S, ofold_app. destruct (IH s P Hs) as (s1 & -> & Hs1); [lia|]. simpl.
      destruct (bits_contains b k) eqn:E; simpl.
      + destruct (bits_insert_repr _ _ _ k Hs1) as (s2 & -> & Hs2); [lia|]. simpl. exists s2.
        split; [done|]. eapply repr_impl; [done|]. intros m Hm. unfold mem. split.
        * intros [->|[?|[? ?]]]; [right; split; [lia|done]|by left|right; split; [lia|done]].
        * intros [?|[Hlt ?]]; [by right; left|]. destruct (decide (m = k)) as [->|]; [by left|].
          right. right. split; [lia|done].
      + exists s1. split; [done|]. eapply repr_impl; [done|]. intros m Hm. unfold mem. split.
        * intros [?|[? ?]]; [by left|right; split; [lia|done]].
        * intros [?|[Hlt Hbm]]; [by left|]. right. destruct (decide (m = k)) as [->|]; [congruence|].
          split; [lia|done]. }
  destruct (Hins i _ _ (bits_empty_repr (n_attributes c))) as (s1 & -> & Hs1); [lia|]. simpl.
  destruct (bits_insert_repr _ _ _ i Hs1) as (s2 & -> & Hs2); [done|]. simpl.
  assert (Hs2' : ∀ m, mem s2 m ↔ seed_of b i m).
  { intros m. unfold seed_of. split.
    - intros Hm. apply (repr_lt _ _ _ _ Hs2) in Hm. naive_solver.
    - intros Hm. apply Hs2; [|naive_solver]. destruct Hm as [->|[? _]]; lia. }
  destruct (attr_closure_repr c Hok s2) as (cand & -> & Hcand); [by eapply repr_attr_set|].
  exists cand. split; [done|].
  assert (Hr : repr (n_attributes c) cand (closure c (seed_of b i))).
  { eapply repr_impl; [done|]. intros m _.
    split; apply closure_mono; intros k; by rewrite Hs2'. }
  split; [done|]. split; [by eapply repr_attr_set|]. intros m Hm Hcl. apply Hr; [done|].
  apply closure_idem. eapply closure_mono; [|exact Hcl]. intros k Hk.
  by apply (repr_lt _ _ _ _ Hr) in Hk as [_ ?].
Qed.

Lemma ok_below_spec b cand i : ok_below b cand i = true ↔ ∀ j, j < i → mem cand j → mem b j.
Proof.
  unfold ok_below, mem. rewrite forallb_forall. setoid_rewrite <- list_elem_of_In.
  setoid_rewrite elem_of_seq. setoid_rewrite orb_true_iff. setoid_rewrite negb_true_iff.
  split.
  - intros H j Hj Hc. destruct (H j) as [E|E]; [lia|congruence|done].
  - intros H j Hj. destruct (bits_contains cand j) eqn:E; [|by left]. right. apply H; [lia|done].
Qed.

(** The candidate at [i] against the closed sets that differ from [b] first at [i]. *)
Lemma candidate_below b i cand e :
  attr_set c b → repr (n_attributes c) cand (closure c (seed_of b i)) →
  closed c e → lectic_at i b e → ∀ m, mem cand m → mem e m.
Proof.
  intros Hb Hr [He Hcl] (Hei & Hbi & Hag) m Hm. apply (repr_lt _ _ _ _ Hr) in Hm as [Hlt Hm].
  apply Hcl; [done|]. eapply closure_mono; [|exact Hm].
  intros k [->|[Hk Hbk]]; [done|]. by apply Hag.
Qed.

Lemma ok_below_lectic b i cand :
  repr (n_attributes c) cand (closure c (seed_of b i)) → i < n_attributes c → attr_set c b →
  ¬ mem b i → ok_below b cand i = true → lectic_at i b cand.
Proof.
  intros Hr Hi Hb Hbi Hbelow. rewrite ok_below_spec in Hbelow. split_and!.
  - apply Hr; [done|]. apply closure_extensive. by left.
  - done.
  - intros j Hj. split; [|by apply Hbelow]. intros Hbj. apply Hr; [lia|].
    apply closure_extensive. by right.
Qed.

(** The result of the loop when every closed set above [b] differs from it
    first below [k]. *)
Lemma try_each_spec b k : attr_set c b → k ≤ n_attributes c →
  (∀ e i, closed c e → lectic_at i b e → i < k) →
  ∃ r, try_each c b (reverse (seq 0 k)) = Ok r ∧
    match r with
    | Some d => closed c d ∧ lectic b d ∧ ∀ e, closed c e → lectic b e → e = d ∨ lectic d e
    | None => ∀ e, closed c e → ¬ lectic b e
    end.
Proof using Hok.
  intros Hb. induction k as [|k IH]; intros Hk Hpos.
  { exists None. split; [done|]. intros e He (i & Hi). apply Hpos in Hi; [lia|done]. }
  rewrite seq_S, reverse_app. simpl.
  destruct (bits_contains b k) eqn:Ek.
  { apply IH; [lia|]. intros e i He Hi. pose proof (Hpos e i He Hi).
    assert (i ≠ k); [|lia]. intros ->. destruct Hi as (_ & Hn & _). done. }
  destruct (candidate_spec b k Hb) as (cand & -> & Hr & Hcl); [lia|]. simpl.
  destruct (ok_below b cand k) eqn:Eok.
  - assert (Hnk : ¬ mem b k) by (unfold mem; by rewrite Ek).
    assert (Hlec : lectic_at k b cand) by (apply ok_below_lectic; [done|lia|done..]).
    exists (Some cand). split; [done|]. split_and!; [done|by exists k|].
    intros e He (i & Hi). pose proof (Hpos e i He Hi) as Hik.
    destruct (decide (i = k)) as [->|Hne].
    + destruct (subset_lectic cand e) as [->|?]; [apply Hcl|apply He| |by left|by right].
      by eapply candidate_below.
    + right. destruct Hi as (Hei & Hbi & Hag), Hlec as (_ & _ & Hag'). exists i.
      split_and!; [done|by rewrite <- Hag' by lia|]. intros j Hj. rewrite <- Hag', Hag by lia. done.
  - apply IH; [lia|]. intros e i He Hi. pose proof (Hpos e i He Hi).
    assert (i ≠ k); [|lia]. intros ->.
    assert (ok_below b cand k = true); [|congruence]. apply ok_below_spec. intros j Hj Hcj.
    destruct Hi as (Hei & Hbi & Hag). apply Hag; [done|].
    eapply (candidate_below b k cand e); done.
Qed.

(** Ganter's theorem for [next_closure]: the least closed set above [b]. *)
Lemma next_closure_spec b : attr_set c b →
  ∃ r, next_closure c b = Ok r ∧
    match r with
    | Some d => closed c d ∧ lectic b d ∧ ∀ e, closed c e → lectic b e → e = d ∨ lectic d e
    | None => ∀ e, closed c e → ¬ lectic b e
    end.
Proof using Hok.
  intros Hb. apply try_each_spec; [done..|]. intros e i [[_ Hn] _] (Hi & _).
  rewrite <- Hn. by apply bits_contains_lt.
Qed.
End next_closure.

(** * The enumeration *)
Lemma StronglySorted_snoc {A} (R : A → A → Prop) l y :
  StronglySorted R l → Forall (fun x => R x y) l → StronglySorted R (l ++ [y]).
Proof.
  induction 1 as [|x l Hs IH Hf]; intros Hall; simpl.
  - repeat constructor.
  - inversion Hall; subst. constructor; [by apply IH|]. apply Forall_app. split; [done|].
    by constructor.
Qed.

Section enumeration.
Context (c : FormalContext) (Hok : context_ok c).

(** What holds between two turns: [out] is the initial segment of the concepts
    that ends with [current]. *)
Record listed (out : list Concept) (current : BitSet) : Prop := {
  li_concepts : Forall (is_concept c) out;
  li_sorted : StronglySorted lectic (map c_intent out);
  li_last : Forall (fun b => b = current ∨ lectic b current) (map c_intent out);
  li_rest : ∀ e, closed c e → e ∈ map c_intent out ∨ lectic current e;
  li_closed : closed c current;
  li_in : current ∈ map c_intent out;
}.

Lemma concept_by_intent k k' :
  is_concept c k → is_concept c k' → c_intent k = c_intent k' → k = k'.
Proof.
  intros (E & _) (E' & _) Hi. destruct k as [a b], k' as [a' b']; simpl in *. subst.
  rewrite E in E'. by simplify_eq.
Qed.

Lemma listed_elem out current k : listed out current → is_concept c k →
  k ∈ out ↔ c_intent k ∈ map c_intent out.
Proof.
  intros Hl Hk. split; [apply list_elem_of_fmap_2|].
  intros (k' & E & Hin)%list_elem_of_fmap.
  rewrite (concept_by_intent k k'); [done|done| |done].
  pose proof (li_concepts _ _ Hl) as Hf. by eapply Forall_forall in Hf.
Qed.

Lemma push_concept_spec out d : closed c d →
  ∃ k, push_concept c out d = Ok (out ++ [k]) ∧ is_concept c k ∧ c_intent k = d.
Proof using Hok.
  intros Hd. unfold push_concept. destruct (closed_concept c Hok d Hd) as (a & -> & Hk).
  simpl. by eexists.
Qed.

Lemma listed_first d : closed c d → (∀ e, closed c e → d = e ∨ lectic d e) →
  ∀ k, is_concept c k → c_intent k = d → listed [k] d.
Proof.
  intros Hd Hmin k Hk Hi. split; simpl; rewrite ?Hi.
  - by constructor.
  - by repeat constructor.
  - constructor; [by left|done].
  - intros e He. rewrite list_elem_of_singleton. destruct (Hmin e He); auto.
  - done.
  - by left.
Qed.

Lemma listed_next out current d k : listed out current → closed c d → lectic current d →
  (∀ e, closed c e → lectic current e → e = d ∨ lectic d e) →
  is_concept c k → c_intent k = d → listed (out ++ [k]) d.
Proof.
  intros Hl Hd Hlt Hmin Hk Hi. pose proof (li_last _ _ Hl) as Hlast.
  assert (Hbelow : Forall (fun b => lectic b d) (map c_intent out)).
  { eapply Forall_impl; [exact Hlast|]. intros b [->|Hb]; [done|]. by etransitivity. }
  split; rewrite ?map_app; simpl; rewrite ?Hi.
  - apply Forall_app. split; [apply Hl|by constructor].
  - apply StronglySorted_snoc; [apply Hl|done].
  - apply Forall_app. split; [|constructor; [by left|done]].
    eapply Forall_impl; [exact Hbelow|]. auto.
  - intros e He. rewrite elem_of_app, list_elem_of_singleton.
    destruct (li_rest _ _ Hl e He) as [?|Hlec]; [auto|]. destruct (Hmin e He Hlec); auto.
  - done.
  - rewrite elem_of_app, list_elem_of_singleton. auto.
Qed.

(** The full set of attributes is closed, and nothing is above it. *)
Context (full : BitSet) (Hfull : repr (n_attributes c) full (fun _ => True)).

Lemma full_closed : closed c full.
Proof using Hfull. split; [by eapply repr_attr_set|]. intros m Hm _. by apply Hfull. Qed.

Lemma full_top e : closed c e → ¬ lectic full e.
Proof using Hfull.
  intros [[_ Hn] _] (i & Hi & Hni & _). apply Hni, Hfull; [|done].
  rewrite <- Hn. by apply bits_contains_lt.
Qed.

(** What the loop returns. *)
Definition enumerated (max_concepts : nat) (cs : list Concept) (truncated : bool) : Prop :=
  (∃ current, listed cs current) ∧ length cs ≤ max_concepts ∧
  if truncated then length cs = max_concepts ∧ full ∉ map c_intent cs
  else ∀ e, closed c e → e ∈ map c_intent cs.

Lemma concepts_loop_spec fuel max_concepts current out :
  listed out current → length out ≤ max_concepts →
  current = full ∨ length out < max_concepts → max_concepts ≤ fuel + length out →
  ∃ cs truncated, concepts_loop fuel c full max_concepts current out = Ok (cs, truncated) ∧
    enumerated max_concepts cs truncated.
Proof using Hok Hfull.
  revert current out. induction fuel as [|fuel IH]; intros current out Hl Hle Hlt Hfuel; simpl.
  all: destruct (decide (current = full)) as [->|Hne].
  - exists out, false. split; [done|]. split; [by eexists|]. split; [done|].
    intros e He. destruct (li_rest _ _ Hl e He); [done|]. by exfalso; eapply full_top.
  - destruct Hlt; [done|]. lia.
  - exists out, false. split; [done|]. split; [by eexists|]. split; [done|].
    intros e He. destruct (li_rest _ _ Hl e He); [done|]. by exfalso; eapply full_top.
  - destruct Hlt as [?|Hlt]; [done|].
    destruct (next_closure_spec c Hok current (proj1 (li_closed _ _ Hl))) as (r & -> & Hr). simpl.
    destruct r as [d|].
    + destruct Hr as (Hd & Hcd & Hmin). destruct (push_concept_spec out d Hd) as (k & -> & Hk & Hi).
      simpl. pose proof (listed_next _ _ _ _ Hl Hd Hcd Hmin Hk Hi) as Hl'.
      assert (Hlen : length (out ++ [k]) = S (length out)) by (rewrite length_app; simpl; lia).
      case_bool_decide as Hmax; [case_bool_decide as Hnf|]; simpl.
      * eexists _, true. split; [done|]. split; [by eexists|]. split; [lia|]. split; [lia|].
        intros Hin. pose proof (li_last _ _ Hl') as Hf. eapply Forall_forall in Hf; [|exact Hin].
        destruct Hf as [?|?]; [done|]. by eapply full_top.
      * apply IH; [done|lia|by left|lia].
      * apply IH; [done|lia|right; lia|lia].
    + exists out, false. split; [done|]. split; [by eexists|]. split; [lia|].
      intros e He. destruct (li_rest _ _ Hl e He); [done|]. by exfalso; eapply Hr.
Qed.
End enumeration.

(** The concepts of a context, whatever the cap. *)
Lemma concepts_spec c max_concepts : context_ok c →
  ∃ cs truncated, concepts c max_concepts = Ok (cs, truncated) ∧
    (∃ current, listed c cs current) ∧
    if truncated then length cs = Nat.max 1 max_concepts ∧
      (2 ≤ max_concepts → ∃ k, is_concept c k ∧ k ∉ cs)
    else length cs ≤ max_concepts ∧ ∀ k, is_concept c k → k ∈ cs.
Proof.
  intros Hok. unfold concepts. pose proof (bits_empty_repr (n_attributes c)) as Hempty.
  destruct (attr_closure_repr c Hok (bits_empty (n_attributes c))) as (d & E & Hd);
    [by eapply repr_attr_set|]. rewrite E. simpl.
  assert (Hcl : closed c d).
  { split; [by eapply repr_attr_set|]. intros m Hm Hc. apply Hd; [done|].
    apply closure_idem. eapply closure_mono; [|exact Hc]. intros k Hk.
    by apply (repr_lt _ _ _ _ Hd) in Hk as [_ ?]. }
  assert (Hmin : ∀ e, closed c e → d = e ∨ lectic d e).
  { intros e He. apply (subset_lectic c); [apply Hcl|apply He|]. intros m Hm.
    apply (repr_lt _ _ _ _ Hd) in Hm as [Hm Hc]. apply He; [done|].
    eapply closure_mono; [|exact Hc]. intros k Hk. by apply (repr_lt _ _ _ _ Hempty) in Hk as [_ []]. }
  destruct (push_concept_spec c Hok [] d Hcl) as (k & -> & Hk & Hi). simpl.
  pose proof (listed_first c d Hcl Hmin k Hk Hi) as Hl.
  case_bool_decide as Hmax.
  { exists [k], true. split; [done|]. split; [by eexists|]. split; [simpl; lia|lia]. }
  destruct (bits_full_repr (n_attributes c)) as (full & -> & Hfull). simpl.
  destruct (concepts_loop_spec c Hok full Hfull max_concepts max_concepts d [k])
    as (cs & t & -> & Hcur & Hlen & Ht); [done|simpl in *; lia|right; simpl in *; lia|lia|].
  exists cs, t. split; [done|]. split; [done|]. destruct t.
  - destruct Ht as [Hle Hnin]. split; [lia|]. intros _.
    destruct (closed_concept c Hok full (full_closed c full Hfull)) as (a & _ & Hka).
    exists (mkConcept a full). split; [done|]. intros Hin. apply Hnin.
    by apply (list_elem_of_fmap_2 c_intent) in Hin.
  - split; [done|]. intros k' Hk'. destruct Hcur as [cur Hcur].
    apply (listed_elem c _ _ _ Hcur Hk'). by apply Ht, (concept_closed c Hok).
Qed.

(** * Exactness *)

(** A formal concept of the incidence [inc]: a set of objects and a set of
    attributes, each the set the other derives. *)
Definition formal_concept (n_obj n_attr : nat) (inc : list (nat * nat)) (k : Concept) : Prop :=
  (bits_ok (c_extent k) ∧ bs_nbits (c_extent k) = n_obj) ∧
  (bits_ok (c_intent k) ∧ bs_nbits (c_intent k) = n_attr) ∧
  (∀ g, mem (c_extent k) g ↔ g < n_obj ∧ ∀ m, mem (c_intent k) m → (g, m) ∈ inc) ∧
  (∀ m, mem (c_intent k) m ↔ m < n_attr ∧ ∀ g, mem (c_extent k) g → (g, m) ∈ inc).

Lemma is_concept_formal (objects attributes : list string) inc c k :
  context_ok c → n_objects c = length objects → n_attributes c = length attributes →
  (∀ g m, has c g m ↔ (g, m) ∈ inc ∧ g < length objects ∧ m < length attributes) →
  is_concept c k ↔ formal_concept (length objects) (length attributes) inc k.
Proof.
  intros Hok Ho Ha Hhas. unfold is_concept, formal_concept, obj_set, attr_set.
  rewrite <- Ho, <- Ha. destruct k as [a b]; simpl.
  assert (Hlt : ∀ s i, mem s i → i < bs_nbits s) by (intros; by apply bits_contains_lt).
  split.
  - intros (He & Hi & [Hao Han] & [Hbo Hbn]). split_and!; [done..| |].
    + destruct (extent_of_repr c Hok b) as (a' & Ea & Hr); [done|]. rewrite He in Ea. simplify_eq.
      intros g. split.
      * intros Hg. apply (repr_lt _ _ _ _ Hr) in Hg as [Hg Hs]. split; [done|].
        intros m Hm. by apply Hhas, Hs.
      * intros [Hg Hs]. apply Hr; [done|]. intros m Hm. apply Hhas.
        split_and!; [by apply Hs|lia|]. rewrite <- Ha, <- Hbn. by apply Hlt.
    + destruct (intent_of_repr c Hok a) as (b' & Eb & Hr); [done|]. rewrite Hi in Eb. simplify_eq.
      intros m. split.
      * intros Hm. apply (repr_lt _ _ _ _ Hr) in Hm as [Hm Hs]. split; [done|].
        intros g Hg. by apply Hhas, Hs.
      * intros [Hm Hs]. apply Hr; [done|]. intros g Hg. apply Hhas.
        split_and!; [by apply Hs| |lia]. rewrite <- Ho, <- Han. by apply Hlt.
  - intros ([Hao Han] & [Hbo Hbn] & HA & HB). split_and!; [| |done..].
    + destruct (extent_of_repr c Hok b) as (a' & -> & Hr); [done|]. f_equal.
      eapply repr_inj; [exact Hr|by apply (obj_set_repr c)|]. intros g Hg. rewrite HA.
      unfold sharing_obj. split.
      * intros Hs. split; [done|]. intros m Hm. by apply Hhas, Hs.
      * intros [_ Hs] m Hm. apply Hhas. split_and!; [by apply Hs|lia|].
        rewrite <- Ha, <- Hbn. by apply Hlt.
    + destruct (intent_of_repr c Hok a) as (b' & -> & Hr); [done|]. f_equal.
      eapply repr_inj; [exact Hr|by apply (attr_set_repr c)|]. intros m Hm. rewrite HB.
      unfold shared_attr. split.
      * intros Hs. split; [done|]. intros g Hg. by apply Hhas, Hs.
      * intros [_ Hs] g Hg. apply Hhas. split_and!; [by apply Hs| |lia].
        rewrite <- Ho, <- Han. by apply Hlt.
Qed.

(** C7: nextClosure enumerates the concept lattice exactly.  For every incidence
    and every cap, building the context and enumerating its concepts neither
    panics nor runs out of turns; what is listed are formal concepts of the
    incidence, in strictly increasing lectic order (so none twice), and every
    concept not listed comes after all that are.  Without the truncation flag
    every formal concept is listed; with it the list has exactly the cap's
    length (one for a cap of zero), and for a cap of at least two some concept
    is missing. *)
Theorem concepts_exact objects attributes inc max_concepts :
  ∃ c cs truncated,
    context_new objects attributes inc = Ok c ∧ concepts c max_concepts = Ok (cs, truncated) ∧
    let is_formal := formal_concept (length objects) (length attributes) inc in
    Forall is_formal cs ∧ StronglySorted lectic (map c_intent cs) ∧
    (∀ k, is_formal k → k ∈ cs ∨ Forall (fun k' => lectic (c_intent k') (c_intent k)) cs) ∧
    if truncated then length cs = Nat.max 1 max_concepts ∧
      (2 ≤ max_concepts → ∃ k, is_formal k ∧ k ∉ cs)
    else length cs ≤ max_concepts ∧ ∀ k, is_formal k → k ∈ cs.
Proof.
  destruct (context_new_ok objects attributes inc) as (c & Hnew & Hok & Ho & Ha & Hhas).
  destruct (concepts_spec c max_concepts Hok) as (cs & t & Hcs & [cur Hl] & Ht).
  exists c, cs, t. split_and!; [done..|]. cbv zeta.
  pose proof (fun k => is_concept_formal objects attributes inc c k Hok Ho Ha Hhas) as Hform.
  split_and!.
  - eapply Forall_impl; [apply (li_concepts _ _ _ Hl)|]. intros k. apply Hform.
  - apply Hl.
  - intros k Hk%Hform. destruct (li_rest _ _ _ Hl (c_intent k)) as [Hin|Hlec].
    { by apply (concept_closed c Hok). }
    + left. by apply (listed_elem c _ _ _ Hl).
    + right. pose proof (li_last _ _ _ Hl) as Hlast. rewrite Forall_map in Hlast.
      eapply Forall_impl; [exact Hlast|]. intros k' [->|?]; [done|]. simpl in *. by etransitivity.
  - destruct t.
    + destruct Ht as [? Hmiss]. split; [done|]. intros Hm. destruct (Hmiss Hm) as (k & Hk & Hn).
      exists k. split; [by apply Hform|done].
    + destruct Ht as [? Hall]. split; [done|]. intros k Hk%Hform. by apply Hall.
Qed.

(** The 3 by 3 context of the source's tests. *)
Definition ctx_3x3_inc : list (nat * nat) := [(0,0); (0,1); (1,0); (1,2); (2,0); (2,1); (2,2)].

Example concepts_3x3 :
  (let* c := context_new ["o1"; "o2"; "o3"] ["a"; "b"; "c"] ctx_3x3_inc in
   let* r := concepts c 100 in
   Ok (map (fun k => (bits_iter (c_extent k), bits_iter (c_intent k))) r.1, r.2)) =
  Ok ([([0; 1; 2], [0]); ([1; 2], [0; 2]); ([0; 2], [0; 1]); ([2], [0; 1; 2])], false).
Proof. reflexivity. Qed.

(** With a cap of one the flag is set although the only concept is listed. *)
Example cap_one_flags_complete_list :
  (let* c := context_new ["x"; "y"] [] [] in
   let* r := concepts c 1 in
   Ok (map (fun k => (bits_iter (c_extent k), bits_iter (c_intent k))) r.1, r.2)) =
  Ok ([([0; 1], [])], true).
Proof. reflexivity. Qed.
