(* ===== verification/FcaCovers.v ===== *)
(** The Hasse covers of a concept list and the attribute implications read off
    them ([covers] and [implications] of [src/src/category/fca.rs]).

    The covers are exact.  The implications are not implications: the premise
    is the intent of the larger concept, which is closed, so it never implies
    what the smaller concept adds. *)

From stdpp Require Import base numbers strings sets list.
From Stdlib Require Import Sorting.Sorted.
From S2P Require Import Prelude BTree BitSet FcaContext FcaConcepts.

(** * The code *)

(** [concepts[i].extent]; the indices below enumerate the same slice, so the
    default is not reached. *)
Definition extent_at (cs : list Concept) (i : nat) : BitSet :=
  from_option c_extent (bits_empty 0) (cs !! i).

(** The condition under which [j] is pushed to [parents[i]]. *)
Definition is_ancestor (cs : list Concept) (i j : nat) : Prop :=
  i ≠ j ∧ bits_subset (extent_at cs i) (extent_at cs j) = true ∧
  bits_count (extent_at cs i) < bits_count (extent_at cs j).

Definition parents_of (cs : list Concept) (i : nat) : list nat :=
  filter (is_ancestor cs i) (seq 0 (length cs)).

Definition intermediate (cs : list Concept) (anc : list nat) (i p : nat) : bool :=
  existsb (fun k =>
    bool_decide (k ≠ p) &&
    bool_decide (bits_count (extent_at cs i) < bits_count (extent_at cs k)) &&
    bool_decide (bits_count (extent_at cs k) < bits_count (extent_at cs p)) &&
    bits_subset (extent_at cs i) (extent_at cs k) &&
    bits_subset (extent_at cs k) (extent_at cs p)) anc.

(** The edges of one concept to those that cover it. *)
Definition covers_of (cs : list Concept) (i : nat) : list (nat * nat) :=
  let anc := parents_of cs i in
  map (pair i) (filter (fun p => intermediate cs anc i p = false) anc).

(** [FormalContext::covers] *)
Definition covers (cs : list Concept) : list (nat * nat) :=
  sort_by ord_cmp (flat_map (covers_of cs) (seq 0 (length cs))).

(** One turn of the loop of [implications]. *)
Definition add_implication (cs : list Concept)
    (seen : BTreeMap (list nat * list nat) nat) (e : nat * nat) :
    may_panic (BTreeMap (list nat * list nat) nat) :=
  let '(child, parent) := e in
  let* pk := expect (cs !! parent) in
  let* ck := expect (cs !! child) in
  let premise := bits_iter (c_intent pk) in
  let gained := filter (fun m => bits_contains (c_intent pk) m = false) (bits_iter (c_intent ck)) in
  if decide (gained = [] ∨ premise = []) then Ok seen
  else
    let support := bits_count (c_extent pk) in
    match bm_get seen (premise, gained) with
    | Some _ => Ok seen
    | None => Ok (bm_insert seen (premise, gained) support)
    end.

Definition label_all (c : FormalContext) (ms : list nat) : may_panic (list string) :=
  omapM (fun m => expect (fc_attributes c !! m)) ms.

Definition label_implication (c : FormalContext) (e : (list nat * list nat) * nat) :
    may_panic Implication :=
  let '((premise, conclusion), support) := e in
  let* p := label_all c premise in
  let* q := label_all c conclusion in
  Ok (mkImplication p q support).

(** Widest support first, then by premise, then by conclusion. *)
Definition cmp_implication (a b : Implication) : comparison :=
  match ord_cmp (im_support b) (im_support a) with
  | Eq =>
      match ord_cmp (im_premise a) (im_premise b) with
      | Eq => ord_cmp (im_conclusion a) (im_conclusion b)
      | o => o
      end
  | o => o
  end.

(** [FormalContext::implications] *)
Definition implications (c : FormalContext) (cs : list Concept) (cov : list (nat * nat)) :
    may_panic (list Implication) :=
  let* seen := ofold (add_implication cs) [] cov in
  let* out := omapM (label_implication c) seen in
  Ok (sort_by cmp_implication out).

(** * The covers *)

Definition strictly_below (a b : BitSet) : Prop :=
  (∀ g, mem a g → mem b g) ∧ ∃ g, mem b g ∧ ¬ mem a g.

(** The test of the source, on sets of one width, is strict inclusion. *)
Lemma below_test n a b : repr n a (mem a) → repr n b (mem b) →
  bits_subset a b = true ∧ bits_count a < bits_count b ↔ strictly_below a b.
Proof.
  intros Ha Hb. rewrite (bits_subset_repr _ _ _ _ _ Ha Hb). unfold strictly_below.
  assert (Hlt : ∀ g, mem a g → g < n) by (intros g Hg; by apply (repr_lt _ _ _ _ Ha) in Hg as [? _]).
  assert (Hlt' : ∀ g, mem b g → g < n) by (intros g Hg; by apply (repr_lt _ _ _ _ Hb) in Hg as [? _]).
  split.
  - intros [Hsub Hc]. rewrite (bits_count_lt _ _ _ _ _ Ha Hb Hsub) in Hc. split; [naive_solver|naive_solver].
  - intros [Hsub (g & Hg & Hng)]. split; [naive_solver|].
    apply (bits_count_lt _ _ _ _ _ Ha Hb); [naive_solver|]. exists g. naive_solver.
Qed.

Section covers.
Context (n : nat) (cs : list Concept) (Hcs : Forall (fun k => repr n (c_extent k) (mem (c_extent k))) cs).

(** Position [i] is strictly below position [j]. *)
Definition below (i j : nat) : Prop :=
  i < length cs ∧ j < length cs ∧ strictly_below (extent_at cs i) (extent_at cs j).

Lemma extent_at_repr i : i < length cs → repr n (extent_at cs i) (mem (extent_at cs i)).
Proof using Hcs.
  intros Hi. apply lookup_lt_is_Some_2 in Hi as [k Hk]. unfold extent_at. rewrite Hk. simpl.
  by apply (Forall_lookup_1 _ _ _ _ Hcs Hk).
Qed.

Lemma below_spec i j : i < length cs → j < length cs →
  bits_subset (extent_at cs i) (extent_at cs j) = true ∧
  bits_count (extent_at cs i) < bits_count (extent_at cs j) ↔ below i j.
Proof using Hcs.
  intros Hi Hj. rewrite (below_test n) by (by apply extent_at_repr). unfold below. tauto.
Qed.

Lemma elem_of_parents i j : i < length cs → j ∈ parents_of cs i ↔ below i j.
Proof using Hcs.
  intros Hi. unfold parents_of. rewrite list_elem_of_filter, elem_of_seq. unfold is_ancestor. split.
  - intros [(_ & H1 & H2) Hj]. apply below_spec; [done|lia|done].
  - intros Hb. pose proof Hb as (_ & Hj & _). apply below_spec in Hb as [H1 H2]; [|done..].
    split; [|lia]. split; [|done]. intros ->. lia.
Qed.

Lemma intermediate_spec i p : below i p →
  intermediate cs (parents_of cs i) i p = true ↔ ∃ k, below i k ∧ below k p.
Proof using Hcs.
  intros Hip. pose proof Hip as (Hi & Hp & _). unfold intermediate. rewrite existsb_exists. split.
  - intros (k & Hk & Ht). apply list_elem_of_In, elem_of_parents in Hk; [|done]. exists k.
    split; [done|]. rewrite !andb_true_iff, !bool_decide_eq_true in Ht.
    destruct Ht as ((((_ & _) & Hc) & _) & Hs). pose proof Hk as (_ & Hkl & _).
    by apply below_spec.
  - intros (k & Hik & Hkp). exists k. split; [by apply list_elem_of_In, elem_of_parents|].
    pose proof Hik as (_ & Hkl & _).
    apply below_spec in Hik as [? ?]; [|done..]. apply below_spec in Hkp as [? ?]; [|done..].
    rewrite !andb_true_iff, !bool_decide_eq_true. split_and!; [|done..]. intros ->. lia.
Qed.

(** An edge for every covering pair, and no other. *)
Lemma elem_of_covers i p :
  (i, p) ∈ covers cs ↔ below i p ∧ ¬ ∃ k, below i k ∧ below k p.
Proof using Hcs.
  unfold covers. rewrite sort_by_perm, list_elem_of_In, in_flat_map. split.
  - intros (i' & Hi' & Hin). apply list_elem_of_In, elem_of_seq in Hi'.
    apply list_elem_of_In in Hin. unfold covers_of in Hin.
    apply list_elem_of_fmap in Hin as (p' & [= <- <-] & Hp).
    apply list_elem_of_filter in Hp as [Hno Hp]. apply elem_of_parents in Hp; [|lia].
    split; [done|]. rewrite <- intermediate_spec by done. by rewrite Hno.
  - intros [Hb Hno]. pose proof Hb as (Hi & Hp & _). exists i. split; [apply list_elem_of_In, elem_of_seq; lia|].
    apply list_elem_of_In, list_elem_of_fmap. exists p. split; [done|]. apply list_elem_of_filter.
    split; [|by apply elem_of_parents]. apply not_true_iff_false. by rewrite intermediate_spec.
Qed.
End covers.

Lemma covers_sorted cs : StronglySorted ord_lt (covers cs).
Proof.
  apply sort_by_sorted. generalize (length cs). intros l.
  induction l as [|l IH]; [constructor|]. rewrite seq_S, flat_map_app. simpl. rewrite app_nil_r.
  apply NoDup_app. split_and!; [done| |].
  - intros [i p] Hin Hin'. apply list_elem_of_In, in_flat_map in Hin as (i' & Hi' & Hin).
    apply list_elem_of_In, elem_of_seq in Hi'. apply list_elem_of_In in Hin.
    apply list_elem_of_fmap in Hin as (? & [= <- <-] & _).
    apply list_elem_of_fmap in Hin' as (? & [= -> ->] & _). lia.
  - unfold covers_of. apply NoDup_fmap_2; [intros ? ? [=]; done|].
    apply NoDup_filter, NoDup_filter, NoDup_seq.
Qed.

(** * What the two passes report about a context *)
Section pipeline.
Context (objects attributes : list string) (inc : list (nat * nat)).
#[local] Notation n_obj := (length objects).
#[local] Notation n_attr := (length attributes).
#[local] Notation is_formal := (formal_concept n_obj n_attr inc).

(** Concept [k] is strictly below concept [k'] in the lattice. *)
Definition concept_lt (k k' : Concept) : Prop := strictly_below (c_extent k) (c_extent k').

Lemma formal_extent k : is_formal k → repr n_obj (c_extent k) (mem (c_extent k)).
Proof. intros ([Hk Hn] & _). rewrite <- Hn. by apply repr_self. Qed.

Lemma formals_extents cs : Forall is_formal cs →
  Forall (fun k => repr n_obj (c_extent k) (mem (c_extent k))) cs.
Proof. intros Hf. eapply Forall_impl; [exact Hf|]. intros k. apply formal_extent. Qed.

Lemma below_lookup cs i p : below cs i p ↔
  ∃ ki kp, cs !! i = Some ki ∧ cs !! p = Some kp ∧ concept_lt ki kp.
Proof.
  unfold below, concept_lt, extent_at. split.
  - intros (Hi & Hp & Hb). apply lookup_lt_is_Some_2 in Hi as [ki Hi], Hp as [kp Hp].
    rewrite Hi, Hp in Hb. eauto.
  - intros (ki & kp & Hi & Hp & Hb). rewrite Hi, Hp. split_and!; [by eapply lookup_lt_Some..|done].
Qed.

(** The covers of a list of concepts of the incidence. *)
Lemma elem_of_covers_formal cs i p : Forall is_formal cs →
  (i, p) ∈ covers cs ↔
  ∃ ki kp, cs !! i = Some ki ∧ cs !! p = Some kp ∧ concept_lt ki kp ∧
    ∀ k, k ∈ cs → ¬ (concept_lt ki k ∧ concept_lt k kp).
Proof.
  intros Hf. rewrite (elem_of_covers n_obj) by (by apply formals_extents).
  rewrite below_lookup. split.
  - intros [(ki & kp & Hi & Hp & Hlt) Hno]. exists ki, kp. split_and!; [done..|].
    intros k [j Hj]%list_elem_of_lookup [H1 H2]. apply Hno. exists j. rewrite !below_lookup.
    split; eauto 10.
  - intros (ki & kp & Hi & Hp & Hlt & Hno). split; [by exists ki, kp|].
    intros (j & H1 & H2). rewrite below_lookup in H1, H2.
    destruct H1 as (ki' & k & Hi' & Hj & H1), H2 as (k' & kp' & Hj' & Hp' & H2). simplify_eq.
    apply (Hno k); [by apply list_elem_of_lookup_2 in Hj|done].
Qed.

(** A reported implication, by its indices: the intent of a concept, and what a
    concept strictly below it adds. *)
Definition entry_of (cs : list Concept) (e : (list nat * list nat) * nat) : Prop :=
  ∃ pk ck, pk ∈ cs ∧ ck ∈ cs ∧ concept_lt ck pk ∧
    e.1.1 = bits_iter (c_intent pk) ∧
    e.1.2 = filter (fun m => bits_contains (c_intent pk) m = false) (bits_iter (c_intent ck)) ∧
    e.2 = bits_count (c_extent pk) ∧ e.1.1 ≠ [] ∧ e.1.2 ≠ [].

Lemma bm_insert_elem {K V} `{RustOrd K} (m : BTreeMap K V) k v x :
  x ∈ bm_insert m k v → x = (k, v) ∨ x ∈ m.
Proof.
  induction m as [|[k' v'] m IH]; simpl; [set_solver|].
  destruct (ord_cmp k k'); set_solver.
Qed.

Lemma add_implications cs cov seen :
  (∀ i p, (i, p) ∈ cov → ∃ ki kp, cs !! i = Some ki ∧ cs !! p = Some kp ∧ concept_lt ki kp) →
  Forall (entry_of cs) seen →
  ∃ seen', ofold (add_implication cs) seen cov = Ok seen' ∧ Forall (entry_of cs) seen'.
Proof.
  revert seen. induction cov as [|[i p] cov IH]; intros seen Hcov Hseen; simpl; [by eauto|].
  destruct (Hcov i p) as (ck & pk & Hi & Hp & Hlt); [by left|]. rewrite Hi, Hp. simpl.
  assert (Hrest : ∀ i p, (i, p) ∈ cov → ∃ ki kp, cs !! i = Some ki ∧ cs !! p = Some kp ∧ concept_lt ki kp).
  { intros i' p' Hin. apply Hcov. by right. }
  case_decide as Hempty; simpl; [by apply IH|].
  destruct (bm_get _ _); simpl; [by apply IH|]. apply IH; [done|].
  apply Forall_forall. intros x [->|Hx]%bm_insert_elem; [|by eapply Forall_forall in Hseen].
  exists pk, ck. split_and!; simpl; try done; [by apply list_elem_of_lookup_2 in Hp|by apply list_elem_of_lookup_2 in Hi|tauto|tauto].
Qed.

(** An implication over indices, refuted by an object. *)
Definition refuted (im : Implication) : Prop :=
  ∃ prem concl : list nat,
    Forall2 (fun m s => attributes !! m = Some s) prem (im_premise im) ∧
    Forall2 (fun m s => attributes !! m = Some s) concl (im_conclusion im) ∧ prem ≠ [] ∧
    im_support im = length (filter (fun g => Forall (fun m => (g, m) ∈ inc) prem) (seq 0 n_obj)) ∧
    ∃ g m, g < n_obj ∧ Forall (fun m => (g, m) ∈ inc) prem ∧ m ∈ concl ∧ (g, m) ∉ inc.

Lemma support_count k : is_formal k →
  bits_count (c_extent k) =
  length (filter (fun g => Forall (fun m => (g, m) ∈ inc) (bits_iter (c_intent k))) (seq 0 n_obj)).
Proof.
  intros ([Hk Hn] & _ & Hext & _). rewrite bits_count_iter by done. unfold bits_iter at 1. rewrite Hn.
  apply length_filter_seq. intros g Hg. simpl. rewrite Forall_forall.
  setoid_rewrite elem_of_bits_iter. specialize (Hext g). unfold mem in Hext. rewrite Hext.
  naive_solver.
Qed.

Lemma label_all_ok c ms : fc_attributes c = attributes → Forall (fun m => m < n_attr) ms →
  ∃ ls, label_all c ms = Ok ls ∧ Forall2 (fun m s => attributes !! m = Some s) ms ls.
Proof.
  intros Hc Hms. unfold label_all. rewrite Hc. induction Hms as [|m ms Hm Hms (ls & Hl & HF)]; simpl; [eauto|].
  destruct (lookup_lt_is_Some_2 attributes m Hm) as [s Hs]. rewrite Hs. simpl. rewrite Hl. simpl.
  eexists. split; [done|]. by constructor.
Qed.

Lemma entry_refuted c cs e : fc_attributes c = attributes → Forall is_formal cs → entry_of cs e →
  ∃ im, label_implication c e = Ok im ∧ refuted im.
Proof.
  intros Hc Hf (pk & ck & Hpin & Hcin & [Hsub (g & Hg & Hng)] & Hprem & Hconcl & Hsup & Hpne & Hcne).
  destruct e as [[prem concl] sup]; simpl in *.
  pose proof Hf as Hfc. eapply Forall_forall in Hf; [|exact Hpin]. eapply Forall_forall in Hfc; [|exact Hcin].
  assert (Hlt : ∀ k m, is_formal k → m ∈ bits_iter (c_intent k) → m < n_attr).
  { intros k m (_ & [_ Hn] & _) Hm%elem_of_bits_iter. rewrite <- Hn. by apply bits_contains_lt. }
  destruct (label_all_ok c prem Hc) as (ps & Eps & Hps).
  { subst prem. apply Forall_forall. intros m. by apply Hlt. }
  destruct (label_all_ok c concl Hc) as (qs & Eqs & Hqs).
  { subst concl. apply Forall_forall. intros m [_ Hm]%list_elem_of_filter. by eapply Hlt. }
  exists (mkImplication ps qs sup). rewrite Eps. simpl. rewrite Eqs. simpl. split; [done|].
  exists prem, concl. split_and!; [done|done|done|simpl; rewrite Hsup, Hprem; by apply support_count|].
  destruct Hf as (_ & _ & HPext & _), Hfc as (_ & _ & HCext & _).
  apply HPext in Hg as [Hgn Hgall].
  assert (Hprem' : Forall (fun m => (g, m) ∈ inc) prem).
  { subst prem. apply Forall_forall. intros m Hm%elem_of_bits_iter. by apply Hgall. }
  destruct (decide (Forall (fun m => (g, m) ∈ inc) (bits_iter (c_intent ck)))) as [Hall|Hnall].
  - exfalso. apply Hng, HCext. split; [done|]. intros m Hm. rewrite Forall_forall in Hall.
    by apply Hall, elem_of_bits_iter.
  - apply not_Forall_Exists in Hnall; [|apply _]. apply Exists_exists in Hnall as (m & Hm & Hno).
    exists g, m. split_and!; [done|done| |done]. subst concl. apply list_elem_of_filter. split; [|done].
    apply not_true_iff_false. intros Hpm. by apply Hno, Hgall.
Qed.

Lemma implications_spec c cs : fc_attributes c = attributes → Forall is_formal cs →
  ∃ ims, implications c cs (covers cs) = Ok ims ∧ Forall refuted ims.
Proof.
  intros Hc Hf. unfold implications.
  destruct (add_implications cs (covers cs) []) as (seen & -> & Hseen).
  { intros i p Hin. apply elem_of_covers_formal in Hin; [|done]. naive_solver. }
  { constructor. }
  simpl. assert (∃ out, omapM (label_implication c) seen = Ok out ∧ Forall refuted out) as (out & -> & Hout).
  { induction Hseen as [|e seen He Hseen (out & Hout & Hr)]; simpl; [eauto|].
    destruct (entry_refuted c cs e Hc Hf He) as (im & -> & Him). simpl. rewrite Hout. simpl. eauto. }
  simpl. eexists. split; [done|]. by rewrite sort_by_perm.
Qed.

(** The two passes on the concepts of a context. *)
Lemma context_concepts max_concepts :
  ∃ c cs truncated, context_new objects attributes inc = Ok c ∧ fc_attributes c = attributes ∧
    concepts c max_concepts = Ok (cs, truncated) ∧ Forall is_formal cs ∧
    (truncated = false → ∀ k, is_formal k → k ∈ cs).
Proof.
  destruct (context_new_ok objects attributes inc) as (c & Hnew & Hok & Ho & Ha & Hhas).
  destruct (concepts_spec c max_concepts Hok) as (cs & t & Hcs & [cur Hl] & Ht).
  pose proof (fun k => is_concept_formal objects attributes inc c k Hok Ho Ha Hhas) as Hform.
  exists c, cs, t. split_and!; [done| |done| |].
  - unfold context_new in Hnew. by inv_obind.
  - eapply Forall_impl; [apply (li_concepts _ _ _ Hl)|]. intros k. apply Hform.
  - intros -> k Hk%Hform. by apply (proj2 Ht).
Qed.
End pipeline.

(** The covers are the Hasse diagram.  On the concepts enumerated from any
    incidence, [covers] returns, in strictly increasing order, exactly the pairs
    of positions of a concept and a concept strictly above it with none of the
    listed concepts strictly between; when the enumeration was not truncated,
    with no formal concept between at all. *)
Theorem covers_exact objects attributes inc max_concepts :
  ∃ c cs truncated,
    context_new objects attributes inc = Ok c ∧ concepts c max_concepts = Ok (cs, truncated) ∧
    StronglySorted ord_lt (covers cs) ∧
    ∀ i p, (i, p) ∈ covers cs ↔
      ∃ ki kp, cs !! i = Some ki ∧ cs !! p = Some kp ∧ concept_lt ki kp ∧
        ∀ k, (if truncated then k ∈ cs else formal_concept (length objects) (length attributes) inc k) →
          ¬ (concept_lt ki k ∧ concept_lt k kp).
Proof.
  destruct (context_concepts objects attributes inc max_concepts) as (c & cs & t & Hnew & _ & Hcs & Hf & Hall).
  exists c, cs, t. split_and!; [done..|apply covers_sorted|]. intros i p.
  rewrite (elem_of_covers_formal objects attributes inc) by done.
  assert (Hin : ∀ k, (if t then k ∈ cs else formal_concept (length objects) (length attributes) inc k) ↔ k ∈ cs).
  { intros k. destruct t; [done|]. split; [by apply Hall|]. rewrite Forall_forall in Hf. apply Hf. }
  setoid_rewrite Hin. done.
Qed.

(** C40: every implication [implications] reports is false.  On the concepts and
    covers of any incidence the call never panics, each reported support is the
    number of objects with all attributes of the premise, and among those
    objects there is one that lacks an attribute of the conclusion. *)
Theorem implications_refuted objects attributes inc max_concepts :
  ∃ c cs truncated ims,
    context_new objects attributes inc = Ok c ∧ concepts c max_concepts = Ok (cs, truncated) ∧
    implications c cs (covers cs) = Ok ims ∧ Forall (refuted objects attributes inc) ims.
Proof.
  destruct (context_concepts objects attributes inc max_concepts) as (c & cs & t & Hnew & Hc & Hcs & Hf & _).
  destruct (implications_spec objects attributes inc c cs Hc Hf) as (ims & Hims & Hr).
  exists c, cs, t, ims. done.
Qed.

(** The implications of the source's 3 by 3 test: object [o1] has [a] and [b]
    but not [c]. *)
Example implications_3x3 :
  (let* c := context_new ["o1"; "o2"; "o3"] ["a"; "b"; "c"] ctx_3x3_inc in
   let* r := concepts c 100 in
   implications c r.1 (covers r.1)) =
  Ok [mkImplication ["a"] ["b"] 3; mkImplication ["a"] ["c"] 3;
      mkImplication ["a"; "b"] ["c"] 2; mkImplication ["a"; "c"] ["b"] 2].
Proof. reflexivity. Qed.
