(* ===== verification/TaintDataflow.v ===== *)
(** Intraprocedural taint reachability: the def-use facts of
    [src/src/parsing/dataflow.rs] and the engine of
    [src/src/code_analysis/taint_dataflow.rs].

    [HashMap] and [HashSet] are finite maps and sets: the engine never observes
    their order.  The breadth-first search and the walk back along [prev] take
    fuel; the amounts given are shown to be enough. *)

From stdpp Require Import base numbers strings gmap list.
From S2P Require Import Prelude.

(** * Facts *)
Definition FlowNode : Type := N.

Record TaintSource := mkSource { src_node : FlowNode; src_kind : string; src_line : N }.

Record TaintSink := mkSink {
  snk_args : list FlowNode;
  snk_kind : string;
  snk_callee : string;
  snk_line : N;
}.

Record CallSite := mkCall {
  call_callee : string;
  arg_nodes : list FlowNode;
  call_result : FlowNode;
  call_line : N;
}.

Record FunctionDataflow := mkDataflow {
  df_function : string;
  start_line : N;
  end_line : N;
  node_count : N;
  flow_edges : list (FlowNode * FlowNode);
  sources : list TaintSource;
  sanitized : list FlowNode;
  sinks : list TaintSink;
  params : list FlowNode;
  return_nodes : list FlowNode;
  calls : list CallSite;
}.

Definition is_trivial (df : FunctionDataflow) : bool :=
  match sources df, sinks df with [], _ => true | _, [] => true | _, _ => false end.

Record TaintFinding := mkFinding {
  tf_function : string;
  tf_source_kind : string;
  tf_source_line : N;
  tf_sink_kind : string;
  tf_sink_callee : string;
  tf_sink_line : N;
  tf_path : list FlowNode;
}.

(** * The engine *)

(** [adj.entry(a).or_default().push(b)] over the flow edges. *)
Definition add_successor (adj : gmap FlowNode (list FlowNode)) (e : FlowNode * FlowNode) :
    gmap FlowNode (list FlowNode) :=
  <[e.1 := default [] (adj !! e.1) ++ [e.2]]> adj.
Definition adjacency (df : FunctionDataflow) : gmap FlowNode (list FlowNode) :=
  foldl add_successor ∅ (flow_edges df).

(** [adj.get(&u).map(..).unwrap_or(&[])] *)
Definition successors (adj : gmap FlowNode (list FlowNode)) (u : FlowNode) : list FlowNode :=
  default [] (adj !! u).

Record Bfs := mkBfs {
  bfs_prev : gmap FlowNode FlowNode;
  bfs_tainted : gset FlowNode;
  bfs_queue : list FlowNode;
}.

(** One neighbour [w] of the node [u] just popped. *)
Definition visit (san : gset FlowNode) (u : FlowNode) (st : Bfs) (w : FlowNode) : Bfs :=
  if decide (w ∈ san ∨ w ∈ bfs_tainted st) then st
  else mkBfs (<[w := u]> (bfs_prev st)) ({[w]} ∪ bfs_tainted st) (bfs_queue st ++ [w]).

Fixpoint bfs (fuel : nat) (adj : gmap FlowNode (list FlowNode)) (san : gset FlowNode) (st : Bfs) :
    outcome Empty_set Bfs :=
  match bfs_queue st with
  | [] => Ok st
  | u :: q =>
      match fuel with
      | 0 => OutOfFuel
      | S fuel =>
          bfs fuel adj san
            (foldl (visit san u) (mkBfs (bfs_prev st) (bfs_tainted st) q) (successors adj u))
      end
  end.

(** The walk back from [cur] to the source; the path is built in reverse. *)
Fixpoint walk_back (fuel : nat) (prev : gmap FlowNode FlowNode) (src cur : FlowNode)
    (path : list FlowNode) : outcome Empty_set (list FlowNode) :=
  if decide (cur = src) then Ok path
  else
    match prev !! cur with
    | None => Ok path
    | Some p =>
        match fuel with
        | 0 => OutOfFuel
        | S fuel => walk_back fuel prev src p (path ++ [p])
        end
    end.

(** One sink, for one source. *)
Definition check_sink (df : FunctionDataflow) (src : TaintSource) (st : Bfs)
    (acc : list TaintFinding * gset (N * N)) (sink : TaintSink) :
    outcome Empty_set (list TaintFinding * gset (N * N)) :=
  let '(findings, seen_pairs) := acc in
  match find_first (fun a => bool_decide (a ∈ bfs_tainted st)) (snk_args sink) with
  | None => Ok acc
  | Some hit =>
      if decide ((src_line src, snk_line sink) ∈ seen_pairs) then Ok acc
      else
        let* path := walk_back (size (bfs_prev st)) (bfs_prev st) (src_node src) hit [hit] in
        Ok (findings ++ [mkFinding (df_function df) (src_kind src) (src_line src) (snk_kind sink)
                           (snk_callee sink) (snk_line sink) (reverse path)],
            {[(src_line src, snk_line sink)]} ∪ seen_pairs)
  end.

(** One source: the search, then every sink. *)
Definition check_source (df : FunctionDataflow) (adj : gmap FlowNode (list FlowNode))
    (san : gset FlowNode) (acc : list TaintFinding * gset (N * N)) (src : TaintSource) :
    outcome Empty_set (list TaintFinding * gset (N * N)) :=
  if decide (src_node src ∈ san) then Ok acc
  else
    let* st := bfs (S (length (flow_edges df))) adj san (mkBfs ∅ {[src_node src]} [src_node src]) in
    ofold (check_sink df src st) acc (sinks df).

Definition analyze_function (df : FunctionDataflow) : outcome Empty_set (list TaintFinding) :=
  if is_trivial df then Ok []
  else
    let* acc := ofold (check_source df (adjacency df) (list_to_set (sanitized df))) ([], ∅) (sources df) in
    Ok acc.1.

(** * The specification *)

(** Taint at [x] reaches [y] along flow edges, through no sanitized node. *)
Inductive taints (df : FunctionDataflow) (x : FlowNode) : FlowNode → Prop :=
| taints_start : x ∉ sanitized df → taints df x x
| taints_step y z : taints df x y → (y, z) ∈ flow_edges df → z ∉ sanitized df → taints df x z.

(** A path of flow edges from [x] to its last node that avoids sanitized nodes. *)
Inductive taint_path (df : FunctionDataflow) (x : FlowNode) : FlowNode → list FlowNode → Prop :=
| path_start : x ∉ sanitized df → taint_path df x x [x]
| path_step y z l : taint_path df x y l → (y, z) ∈ flow_edges df → z ∉ sanitized df →
    taint_path df x z (l ++ [z]).

Lemma taint_path_taints df x y l : taint_path df x y l → taints df x y.
Proof. induction 1; [by constructor|by eapply taints_step]. Qed.

Lemma taints_not_sanitized df x y : taints df x y → x ∉ sanitized df.
Proof. induction 1; done. Qed.

Lemma successors_foldl es adj u :
  successors (foldl add_successor adj es) u = successors adj u ++ (filter (fun e => e.1 = u) es).*2.
Proof.
  revert adj. induction es as [|[a b] es IH]; intros adj; simpl; [by rewrite app_nil_r|].
  rewrite IH, filter_cons. unfold add_successor, successors. simpl. case_decide as E; simpl.
  - subst. rewrite lookup_insert_eq. simpl. by rewrite <- app_assoc.
  - by rewrite lookup_insert_ne.
Qed.

Lemma elem_of_successors df u w : w ∈ successors (adjacency df) u ↔ (u, w) ∈ flow_edges df.
Proof.
  unfold adjacency. rewrite successors_foldl. unfold successors at 1. rewrite lookup_empty. simpl.
  rewrite list_elem_of_fmap. split.
  - intros ([a b] & -> & [Ha Hin]%list_elem_of_filter). simpl in *. by subst.
  - intros Hin. exists (u, w). split; [done|]. by apply list_elem_of_filter.
Qed.

(** * The search *)
Section search.
Context (df : FunctionDataflow) (x : FlowNode) (Hx : x ∉ sanitized df).
#[local] Notation san := (list_to_set (sanitized df) : gset FlowNode).

(** [w] is chained to [x] by [prev], through the nodes of [l]. *)
Inductive chain (prev : gmap FlowNode FlowNode) : FlowNode → list FlowNode → Prop :=
| chain_start : chain prev x [x]
| chain_step p w l : w ≠ x → prev !! w = Some p → chain prev p l → chain prev w (l ++ [w]).

Definition chained (prev : gmap FlowNode FlowNode) (w : FlowNode) : Prop :=
  ∃ l, chain prev w l ∧ taint_path df x w l ∧ NoDup l ∧ ∀ y, y ∈ l → y = x ∨ is_Some (prev !! y).

(** What holds during the search; [cur] is the popped node whose successors are
    being visited. *)
Record search_inv (st : Bfs) (cur : option FlowNode) : Prop := {
  si_root : x ∈ bfs_tainted st;
  si_queue : NoDup (bfs_queue st);
  si_open : ∀ w, w ∈ bfs_queue st → w ∈ bfs_tainted st;
  si_closed : ∀ u w, u ∈ bfs_tainted st → u ∉ bfs_queue st → cur ≠ Some u →
    (u, w) ∈ flow_edges df → w ∉ sanitized df → w ∈ bfs_tainted st;
  si_prev : ∀ w, is_Some (bfs_prev st !! w) ↔ w ∈ bfs_tainted st ∧ w ≠ x;
  si_chained : ∀ w, w ∈ bfs_tainted st → chained (bfs_prev st) w;
}.

Lemma chain_insert prev w u y l : prev !! w = None → chain prev y l → chain (<[w := u]> prev) y l.
Proof.
  intros Hw. induction 1 as [|p y l Hy Hp Hc IH]; [constructor|].
  econstructor; [done| |exact IH]. rewrite lookup_insert_ne; [done|]. intros ->. congruence.
Qed.

Lemma chained_insert prev w u y : prev !! w = None → chained prev y → chained (<[w := u]> prev) y.
Proof.
  intros Hw (l & Hc & Hp & Hnd & Hin). exists l. split_and!; [by apply chain_insert|done..|].
  intros z [->|Hz]%Hin; [by left|]. right. destruct (decide (z = w)) as [->|].
  - by rewrite lookup_insert_eq.
  - by rewrite lookup_insert_ne.
Qed.

(** Visiting [w] from the popped node [u]. *)
Lemma visit_inv st u w : search_inv st (Some u) → u ∈ bfs_tainted st → (u, w) ∈ flow_edges df →
  search_inv (visit san u st w) (Some u) ∧ bfs_tainted st ⊆ bfs_tainted (visit san u st w) ∧
  (w ∉ sanitized df → w ∈ bfs_tainted (visit san u st w)).
Proof using Hx.
  intros Hinv Hu He. unfold visit. case_decide as Hd.
  { split_and!; [done..|]. intros Hw. destruct Hd as [Hd|?]; [|done].
    by apply elem_of_list_to_set in Hd. }
  assert (Hs : w ∉ sanitized df) by (intros Hs; apply Hd; left; by apply elem_of_list_to_set).
  assert (Ht : w ∉ bfs_tainted st) by tauto.
  destruct Hinv as [H1 H2 H3 H4 H5 H6].
  assert (Hwx : w ≠ x) by (intros ->; done).
  assert (Hnone : bfs_prev st !! w = None).
  { apply eq_None_not_Some. rewrite H5. tauto. }
  split_and!; [|set_solver..]. split; simpl.
  - set_solver.
  - apply NoDup_app. split_and!; [done| |apply NoDup_singleton].
    intros y Hy%H3. rewrite list_elem_of_singleton. intros ->. tauto.
  - intros y Hy. apply elem_of_app in Hy as [Hy%H3|Hy]; [set_solver|].
    apply list_elem_of_singleton in Hy. set_solver.
  - intros y z Hy Hno Hcur Hyz Hz. destruct (decide (y = w)) as [->|]; [set_solver|].
    apply elem_of_union_r, (H4 y); [set_solver..|done|done|done].
  - intros y. destruct (decide (y = w)) as [->|Hne].
    + rewrite lookup_insert_eq. split; [set_solver|by eauto].
    + rewrite lookup_insert_ne, H5 by done. set_solver.
  - intros y Hy. destruct (decide (y = w)) as [->|Hne]; [|apply chained_insert; [done|]; apply H6; set_solver].
    destruct (H6 u Hu) as (l & Hc & Hp & Hnd & Hin). exists (l ++ [w]). split_and!.
    + apply (chain_step _ u); [done|by rewrite lookup_insert_eq|by apply chain_insert].
    + by eapply path_step.
    + apply NoDup_app. split_and!; [done| |apply NoDup_singleton].
      intros z Hz. rewrite list_elem_of_singleton. intros ->.
      destruct (Hin _ Hz) as [?|Hsome]; [done|]. rewrite Hnone in Hsome. by apply is_Some_None in Hsome.
    + intros z [Hz|Hz]%elem_of_app.
      * destruct (Hin _ Hz) as [?|Hsome]; [by left|]. right.
        destruct (decide (z = w)) as [->|]; [by rewrite lookup_insert_eq|by rewrite lookup_insert_ne].
      * apply list_elem_of_singleton in Hz. subst. right. by rewrite lookup_insert_eq.
Qed.

Lemma visits_inv st u ws : search_inv st (Some u) → u ∈ bfs_tainted st →
  Forall (fun w => (u, w) ∈ flow_edges df) ws →
  let st' := foldl (visit san u) st ws in
  search_inv st' (Some u) ∧ bfs_tainted st ⊆ bfs_tainted st' ∧
  Forall (fun w => w ∉ sanitized df → w ∈ bfs_tainted st') ws.
Proof using Hx.
  revert st. induction ws as [|w ws IH]; intros st Hinv Hu Hws; simpl; [done|].
  inversion Hws as [|? ? He Hws']; subst.
  destruct (visit_inv st u w Hinv Hu He) as (Hinv1 & Hsub & Hw).
  destruct (IH _ Hinv1) as (Hinv2 & Hsub2 & Hall); [set_solver|done|].
  split_and!; [done|set_solver|]. constructor; [|done]. intros Hs. by apply Hsub2, Hw.
Qed.

(** One pop and its neighbours. *)
Lemma pop_inv prev t u q : search_inv (mkBfs prev t (u :: q)) None →
  search_inv (foldl (visit san u) (mkBfs prev t q) (successors (adjacency df) u)) None.
Proof using Hx.
  intros [H1 H2 H3 H4 H5 H6]; simpl in *.
  assert (Hinv : search_inv (mkBfs prev t q) (Some u)).
  { split; simpl; [done|by inversion H2| |..|done|done].
    - intros w Hw. apply H3. by right.
    - intros y w Hy Hno Hcur. apply H4; [done| |done]. intros [->|?]%elem_of_cons; done. }
  destruct (visits_inv _ u (successors (adjacency df) u) Hinv) as (Hinv' & Hsub & Hall).
  { apply H3. by left. }
  { apply Forall_forall. intros w. by rewrite elem_of_successors. }
  destruct Hinv' as [G1 G2 G3 G4 G5 G6]. split; try done.
  intros y w Hy Hno _ He Hs. destruct (decide (y = u)) as [->|].
  - rewrite Forall_forall in Hall. apply Hall; [by apply elem_of_successors|done].
  - apply (G4 y); [done..|congruence|done|done].
Qed.

(** The nodes not yet tainted are targets of edges: each is enqueued once. *)
Definition unseen (st : Bfs) : list FlowNode :=
  filter (fun w => w ∉ bfs_tainted st) (flow_edges df).*2.

Lemma visit_measure st u w : (u, w) ∈ flow_edges df →
  length (bfs_queue (visit san u st w)) + length (unseen (visit san u st w)) ≤
  length (bfs_queue st) + length (unseen st).
Proof.
  intros He. unfold visit. case_decide as Hd; [done|]. unfold unseen. simpl. rewrite length_app. simpl.
  assert (length (filter (fun y => y ∉ {[w]} ∪ bfs_tainted st) (flow_edges df).*2) <
          length (filter (fun y => y ∉ bfs_tainted st) (flow_edges df).*2)); [|lia].
  apply length_filter_lt with w; [set_solver| |tauto|set_solver].
  apply list_elem_of_fmap. by exists (u, w).
Qed.

Lemma visits_measure st u ws : Forall (fun w => (u, w) ∈ flow_edges df) ws →
  length (bfs_queue (foldl (visit san u) st ws)) + length (unseen (foldl (visit san u) st ws)) ≤
  length (bfs_queue st) + length (unseen st).
Proof.
  intros Hws. revert st. induction Hws as [|w ws Hw Hws IH]; intros st; simpl; [done|].
  etransitivity; [apply IH|]. by apply visit_measure.
Qed.

Lemma bfs_ends fuel st : search_inv st None →
  length (bfs_queue st) + length (unseen st) ≤ fuel →
  ∃ st', bfs fuel (adjacency df) san st = Ok st' ∧ search_inv st' None ∧ bfs_queue st' = [].
Proof using Hx.
  revert st. induction fuel as [|fuel IH]; intros [prev t q] Hinv Hm.
  - destruct q; simpl in *; [by eexists|lia].
  - destruct q as [|u q]; simpl in *; [by eexists|]. apply IH; [by apply pop_inv|].
    etransitivity; [apply visits_measure|]; [|simpl; unfold unseen in *; simpl in *; lia].
    apply Forall_forall. intros w. by rewrite elem_of_successors.
Qed.

Lemma search_start : search_inv (mkBfs ∅ {[x]} [x]) None.
Proof using Hx.
  split; simpl.
  - set_solver.
  - apply NoDup_singleton.
  - set_solver.
  - intros u w Hu Hq. set_solver.
  - intros w. rewrite lookup_empty. split; [by intros ?%is_Some_None|set_solver].
  - intros w ->%elem_of_singleton. exists [x].
    split_and!; [constructor|by constructor|apply NoDup_singleton|set_solver].
Qed.

(** The search taints exactly the nodes its start taints. *)
Lemma bfs_exact : ∃ st, bfs (S (length (flow_edges df))) (adjacency df) san (mkBfs ∅ {[x]} [x]) = Ok st ∧
  (∀ w, w ∈ bfs_tainted st ↔ taints df x w) ∧
  (∀ w, w ∈ bfs_tainted st → chained (bfs_prev st) w).
Proof using Hx.
  destruct (bfs_ends (S (length (flow_edges df))) _ search_start) as (st & E & Hinv & Hq).
  { simpl. unfold unseen. simpl.
    pose proof (length_filter (fun w => w ∉ ({[x]} : gset FlowNode)) (flow_edges df).*2) as Hl.
    rewrite length_fmap in Hl. lia. }
  exists st. split; [done|]. split; [|apply Hinv]. intros w. split.
  - intros Hw. destruct (si_chained _ _ Hinv w Hw) as (l & _ & Hp & _). by eapply taint_path_taints.
  - induction 1 as [Hs|y z Hy IH He Hz]; [apply Hinv|].
    apply (si_closed _ _ Hinv y); [done|rewrite Hq; set_solver|done..].
Qed.

(** The walk back rebuilds the chain. *)
Lemma walk_back_chain prev w l fuel : chain prev w l → length l ≤ S fuel →
  ∀ acc, walk_back fuel prev x w (acc ++ [w]) = Ok (acc ++ reverse l).
Proof.
  intros Hc. revert fuel. induction Hc as [|p w l Hw Hp Hc IH]; intros fuel Hlen acc.
  - destruct fuel; simpl; by rewrite decide_True.
  - rewrite length_app in Hlen. simpl in Hlen.
    destruct fuel as [|fuel]; [destruct Hc; simpl in *; rewrite ?length_app in *; simpl in *; lia|].
    simpl. rewrite decide_False, Hp by done. rewrite (IH fuel) by lia.
    rewrite reverse_app. by rewrite <- app_assoc.
Qed.

Lemma walk_back_chained prev w : chained prev w →
  ∃ l, walk_back (size prev) prev x w [w] = Ok (reverse l) ∧ taint_path df x w l ∧ NoDup l.
Proof.
  clear Hx. intros (l & Hc & Hp & Hnd & Hin). exists l. split; [|done].
  apply (walk_back_chain prev w l (size prev) Hc) with (acc := []).
  rewrite <- size_dom. assert (Hsub : list_to_set l ⊆ {[x]} ∪ dom prev).
  { intros y [->|Hy]%elem_of_list_to_set%Hin; [set_solver|]. apply elem_of_union_r. by apply elem_of_dom. }
  apply subseteq_size in Hsub. rewrite size_list_to_set in Hsub by done.
  rewrite size_union_alt, size_singleton in Hsub.
  pose proof (subseteq_size (dom prev ∖ {[x]}) (dom prev)) as Hd.
  assert (size (dom prev ∖ {[x]}) ≤ size (dom prev)) by (apply Hd; set_solver). lia.
Qed.
End search.

(** * The report *)
Section report.
Context (df : FunctionDataflow).
#[local] Notation san := (list_to_set (sanitized df) : gset FlowNode).

(** A finding is a real flow: its path leads from a source to an argument of a
    sink, without repetition and through no sanitized node. *)
Definition real_flow (f : TaintFinding) : Prop :=
  ∃ src sink arg, src ∈ sources df ∧ sink ∈ sinks df ∧ arg ∈ snk_args sink ∧
    taint_path df (src_node src) arg (tf_path f) ∧ NoDup (tf_path f) ∧
    f = mkFinding (df_function df) (src_kind src) (src_line src) (snk_kind sink)
          (snk_callee sink) (snk_line sink) (tf_path f).

Definition lines_of (f : TaintFinding) : N * N := (tf_source_line f, tf_sink_line f).

Record findings_inv (acc : list TaintFinding * gset (N * N)) : Prop := {
  ri_real : Forall real_flow acc.1;
  ri_nodup : NoDup (map lines_of acc.1);
  ri_seen : acc.2 = list_to_set (map lines_of acc.1);
}.

(** The pair of lines is reported when the source's taint reaches the sink. *)
Definition sink_covered (acc : list TaintFinding * gset (N * N)) (src : TaintSource) (sink : TaintSink) : Prop :=
  ∀ arg, arg ∈ snk_args sink → taints df (src_node src) arg → (src_line src, snk_line sink) ∈ acc.2.

Lemma check_sink_spec src st acc sink :
  src ∈ sources df → sink ∈ sinks df →
  (∀ w, w ∈ bfs_tainted st ↔ taints df (src_node src) w) →
  (∀ w, w ∈ bfs_tainted st → chained df (src_node src) (bfs_prev st) w) →
  findings_inv acc →
  ∃ acc', check_sink df src st acc sink = Ok acc' ∧ findings_inv acc' ∧ acc.2 ⊆ acc'.2 ∧
    sink_covered acc' src sink.
Proof.
  intros Hsrc Hsink Hex Hch Hinv. destruct acc as [fs seen]. unfold check_sink, find_first.
  destruct (List.find _ (snk_args sink)) as [hit|] eqn:Ef.
  - apply List.find_some in Ef as [Hhit%list_elem_of_In Ht%bool_decide_eq_true].
    case_decide as Hseen; [exists (fs, seen); by split_and!; try done; intros ? ? ?|].
    destruct (walk_back_chained df _ _ _ (Hch _ Ht)) as (l & -> & Hp & Hnd). simpl.
    eexists. split; [done|]. rewrite reverse_involutive.
    destruct Hinv as [H1 H2 H3]; simpl in *. subst seen. split_and!; [split; simpl|simpl; set_solver|].
    + apply Forall_app. split; [done|]. constructor; [|done].
      exists src, sink, hit. by split_and!.
    + rewrite map_app. apply NoDup_app. split_and!; [done| |apply NoDup_singleton].
      intros p Hpin. simpl. rewrite list_elem_of_singleton. intros ->. apply Hseen.
      by apply elem_of_list_to_set.
    + rewrite map_app, list_to_set_app_L. simpl. set_solver.
    + intros arg _ _. simpl. set_solver.
  - exists (fs, seen). split_and!; [done..|]. intros arg Harg Htaint. exfalso.
    apply list_elem_of_In in Harg. pose proof (List.find_none _ _ Ef _ Harg) as Hno. simpl in Hno.
    apply bool_decide_eq_false in Hno. by apply Hno, Hex.
Qed.

Lemma check_sinks_spec src st snks acc :
  src ∈ sources df → snks ⊆ sinks df →
  (∀ w, w ∈ bfs_tainted st ↔ taints df (src_node src) w) →
  (∀ w, w ∈ bfs_tainted st → chained df (src_node src) (bfs_prev st) w) →
  findings_inv acc →
  ∃ acc', ofold (check_sink df src st) acc snks = Ok acc' ∧ findings_inv acc' ∧ acc.2 ⊆ acc'.2 ∧
    ∀ sink, sink ∈ snks → sink_covered acc' src sink.
Proof.
  intros Hsrc Hsub Hex Hch. revert acc. induction snks as [|sink snks IH]; intros acc Hinv; simpl.
  { exists acc. split_and!; [done..|]. set_solver. }
  destruct (check_sink_spec src st acc sink) as (acc1 & -> & Hinv1 & Hs1 & Hc1); [set_solver..|done|done|done|].
  simpl. destruct (IH ltac:(set_solver) acc1 Hinv1) as (acc2 & -> & Hinv2 & Hs2 & Hc2).
  exists acc2. split_and!; [done|done|set_solver|].
  intros s [->|Hs]%elem_of_cons; [|by apply Hc2]. intros arg Harg Ht. by apply Hs2, (Hc1 arg).
Qed.

Lemma check_sources_spec srcs acc : srcs ⊆ sources df → findings_inv acc →
  ∃ acc', ofold (check_source df (adjacency df) san) acc srcs = Ok acc' ∧ findings_inv acc' ∧
    acc.2 ⊆ acc'.2 ∧ ∀ src sink, src ∈ srcs → sink ∈ sinks df → sink_covered acc' src sink.
Proof.
  revert acc. induction srcs as [|src srcs IH]; intros acc Hsub Hinv; simpl.
  { exists acc. split_and!; [done..|]. set_solver. }
  assert (∃ acc1, check_source df (adjacency df) san acc src = Ok acc1 ∧ findings_inv acc1 ∧
    acc.2 ⊆ acc1.2 ∧ ∀ sink, sink ∈ sinks df → sink_covered acc1 src sink)
    as (acc1 & -> & Hinv1 & Hs1 & Hc1).
  { unfold check_source. case_decide as Hsan.
    - exists acc. split_and!; [done..|]. intros sink _ arg _ Ht%taints_not_sanitized.
      by apply elem_of_list_to_set in Hsan.
    - rewrite elem_of_list_to_set in Hsan.
      destruct (bfs_exact df (src_node src) Hsan) as (st & -> & Hex & Hch). simpl.
      apply check_sinks_spec; [set_solver|done..]. }
  simpl. destruct (IH acc1) as (acc2 & -> & Hinv2 & Hs2 & Hc2); [set_solver|done|].
  exists acc2. split_and!; [done|done|set_solver|].
  intros s sink [->|Hs]%elem_of_cons Hsink; [|by apply Hc2].
  intros arg Harg Ht. by apply Hs2, (Hc1 sink Hsink arg).
Qed.
End report.

(** C15: the taint engine is exact.  On every function it returns (the search
    ends within the edges, the walk back within the nodes), every finding is a
    real flow with a witness path from a source to a sink argument that avoids
    sanitized nodes, a source whose taint reaches an argument of a sink is
    reported for its pair of lines, and no pair of lines is reported twice. *)
Theorem analyze_function_exact df :
  ∃ fs, analyze_function df = Ok fs ∧ Forall (real_flow df) fs ∧ NoDup (map lines_of fs) ∧
    ∀ src sink arg, src ∈ sources df → sink ∈ sinks df → arg ∈ snk_args sink →
      taints df (src_node src) arg →
      ∃ f, f ∈ fs ∧ lines_of f = (src_line src, snk_line sink).
Proof.
  unfold analyze_function. destruct (is_trivial df) eqn:Et.
  { exists []. split_and!; [done|constructor|constructor|]. intros src sink arg Hs Hk.
    unfold is_trivial in Et. destruct (sources df), (sinks df); try done; set_solver. }
  destruct (check_sources_spec df (sources df) ([], ∅)) as ([fs seen] & -> & Hinv & _ & Hc); [done| |].
  { split; simpl; [constructor|constructor|done]. }
  exists fs. destruct Hinv as [H1 H2 H3]; simpl in *. split_and!; [done..|].
  intros src sink arg Hs Hk Ha Ht. specialize (Hc src sink Hs Hk arg Ha Ht). simpl in Hc.
  rewrite H3, elem_of_list_to_set in Hc. apply list_elem_of_fmap in Hc as (f & E & Hf). eauto.
Qed.

(** The source's example of a flow through two assignments. *)
Example direct_flow :
  analyze_function (mkDataflow "f" 1%N 10%N 8%N [(0, 1); (1, 2)]%N [mkSource 0%N "request" 2%N] []
    [mkSink [2%N] "command" "Command::new" 5%N] [] [] []) =
  Ok [mkFinding "f" "request" 2%N "command" "Command::new" 5%N [0; 1; 2]%N].
Proof. reflexivity. Qed.
