(* ===== verification/TaintInterproc.v ===== *)
(** Interprocedural taint by function summaries
    ([src/src/code_analysis/taint_interproc.rs]): which parameters a function
    routes to a sink, and which tainted arguments land on them. *)

From stdpp Require Import base numbers strings gmap list.
From S2P Require Import Prelude TaintDataflow.

(** * The code *)
Definition FunctionSummary : Type := list (option string).

Record InterprocFinding := mkInterproc {
  if_caller : string;
  if_source_kind : string;
  if_source_line : N;
  if_call_line : N;
  if_callee : string;
  if_param_index : nat;
  if_sink_kind : string;
}.

(** One neighbour in [reachable]. *)
Definition reach_visit (san : gset FlowNode) (st : gset FlowNode * list FlowNode) (w : FlowNode) :
    gset FlowNode * list FlowNode :=
  if decide (w ∈ san ∨ w ∈ st.1) then st else ({[w]} ∪ st.1, st.2 ++ [w]).

Fixpoint reach_loop (fuel : nat) (adj : gmap FlowNode (list FlowNode)) (san : gset FlowNode)
    (st : gset FlowNode * list FlowNode) : outcome Empty_set (gset FlowNode) :=
  match st.2 with
  | [] => Ok st.1
  | u :: q =>
      match fuel with
      | 0 => OutOfFuel
      | S fuel => reach_loop fuel adj san (foldl (reach_visit san) (st.1, q) (successors adj u))
      end
  end.

Definition reachable (fuel : nat) (start : FlowNode) (adj : gmap FlowNode (list FlowNode))
    (san : gset FlowNode) : outcome Empty_set (gset FlowNode) :=
  if decide (start ∈ san) then Ok ∅ else reach_loop fuel adj san ({[start]}, [start]).

(** The facts of a function as its callers of [reachable] pass them. *)
Definition reachable_in (df : FunctionDataflow) (start : FlowNode) : outcome Empty_set (gset FlowNode) :=
  reachable (S (length (flow_edges df))) start (adjacency df) (list_to_set (sanitized df)).

(** [sink_args]: every argument of every sink with the sink's kind. *)
Definition sink_args (df : FunctionDataflow) : list (FlowNode * string) :=
  flat_map (fun s => map (fun a => (a, snk_kind s)) (snk_args s)) (sinks df).

Definition summarize_param (df : FunctionDataflow) (p : FlowNode) : outcome Empty_set (option string) :=
  let* reach := reachable_in df p in
  if decide (reach = ∅) then Ok None
  else Ok (snd <$> find_first (fun ak => bool_decide (ak.1 ∈ reach)) (sink_args df)).

Definition summarize (df : FunctionDataflow) : outcome Empty_set FunctionSummary :=
  match params df, sinks df with
  | [], _ | _, [] => Ok (replicate (length (params df)) None)
  | _, _ => omapM (summarize_param df) (params df)
  end.

Definition informative (s : FunctionSummary) : nat := length (filter (fun o => is_Some o) s).

Definition add_summary (m : gmap string FunctionSummary) (f : FunctionDataflow) :
    outcome Empty_set (gmap string FunctionSummary) :=
  let* s := summarize f in
  match m !! df_function f with
  | Some prev => if decide (informative s ≤ informative prev) then Ok m else Ok (<[df_function f := s]> m)
  | None => Ok (<[df_function f := s]> m)
  end.

(** The nodes one source taints, with their origin; a node keeps its first. *)
Definition add_origin (s : TaintSource)
    (st : gset FlowNode * gmap FlowNode (string * N)) (n : FlowNode) :
    gset FlowNode * gmap FlowNode (string * N) :=
  if decide (n ∈ st.1) then st else ({[n]} ∪ st.1, <[n := (src_kind s, src_line s)]> st.2).

Definition taint_source (caller : FunctionDataflow)
    (st : gset FlowNode * gmap FlowNode (string * N)) (s : TaintSource) :
    outcome Empty_set (gset FlowNode * gmap FlowNode (string * N)) :=
  let* reach := reachable_in caller (src_node s) in
  Ok (foldl (add_origin s) st (elements reach)).

(** One argument of one call. *)
Definition check_arg (caller : FunctionDataflow) (tainted : gset FlowNode)
    (origin : gmap FlowNode (string * N)) (call : CallSite) (summary : FunctionSummary)
    (acc : list InterprocFinding * gset (string * N * nat)) (ia : nat * FlowNode) :
    list InterprocFinding * gset (string * N * nat) :=
  let '(i, arg) := ia in
  if decide (arg ∉ tainted) then acc
  else
    match summary !! i with
    | Some (Some sink_kind) =>
        let key := (df_function caller, call_line call, i) in
        if decide (key ∈ acc.2) then acc
        else
          let '(source_kind, source_line) := default (EmptyString, 0%N) (origin !! arg) in
          (acc.1 ++ [mkInterproc (df_function caller) source_kind source_line (call_line call)
                       (call_callee call) i sink_kind],
           {[key]} ∪ acc.2)
    | _ => acc
    end.

Definition check_call (summaries : gmap string FunctionSummary) (caller : FunctionDataflow)
    (tainted : gset FlowNode) (origin : gmap FlowNode (string * N))
    (acc : list InterprocFinding * gset (string * N * nat)) (call : CallSite) :
    list InterprocFinding * gset (string * N * nat) :=
  match summaries !! call_callee call with
  | None => acc
  | Some summary =>
      foldl (check_arg caller tainted origin call summary) acc (imap pair (arg_nodes call))
  end.

Definition check_caller (summaries : gmap string FunctionSummary)
    (acc : list InterprocFinding * gset (string * N * nat)) (caller : FunctionDataflow) :
    outcome Empty_set (list InterprocFinding * gset (string * N * nat)) :=
  match sources caller, calls caller with
  | [], _ | _, [] => Ok acc
  | _, _ =>
      let* st := ofold (taint_source caller) (∅, ∅) (sources caller) in
      if decide (st.1 = ∅) then Ok acc
      else Ok (foldl (check_call summaries caller st.1 st.2) acc (calls caller))
  end.

Definition analyze_file (functions : list FunctionDataflow) : outcome Empty_set (list InterprocFinding) :=
  if decide (length functions < 2) then Ok []
  else
    let* summaries := ofold add_summary ∅ functions in
    let* acc := ofold (check_caller summaries) ([], ∅) functions in
    Ok acc.1.

(** * Reachability *)
Lemma reach_visits san u prev t q ws :
  foldl (reach_visit san) (t, q) ws =
  (bfs_tainted (foldl (visit san u) (mkBfs prev t q) ws), bfs_queue (foldl (visit san u) (mkBfs prev t q) ws)).
Proof.
  revert prev t q. induction ws as [|w ws IH]; intros prev t q; simpl; [done|].
  unfold reach_visit at 2, visit at 2 4. simpl. case_decide; apply IH.
Qed.

(** The two searches of the program taint the same nodes. *)
Lemma reach_loop_bfs fuel adj san st st' : bfs fuel adj san st = Ok st' →
  reach_loop fuel adj san (bfs_tainted st, bfs_queue st) = Ok (bfs_tainted st').
Proof.
  revert st. induction fuel as [|fuel IH]; intros [prev t [|u q]]; simpl; try by intros [= <-].
  intros E. rewrite (reach_visits san u prev). by apply IH.
Qed.

Lemma reachable_in_exact df start :
  ∃ reach, reachable_in df start = Ok reach ∧ ∀ w, w ∈ reach ↔ taints df start w.
Proof.
  unfold reachable_in, reachable. case_decide as Hs.
  - exists ∅. split; [done|]. intros w. split; [set_solver|]. intros Ht%taints_not_sanitized.
    by apply elem_of_list_to_set in Hs.
  - rewrite elem_of_list_to_set in Hs. destruct (bfs_exact df start Hs) as (st & E & Hex & _).
    exists (bfs_tainted st). split; [|done]. by apply reach_loop_bfs in E.
Qed.

(** * Summaries *)

(** Parameter value [p] reaches an argument of a sink of kind [k]. *)
Definition routes_to_sink (df : FunctionDataflow) (p : FlowNode) (k : string) : Prop :=
  ∃ sink arg, sink ∈ sinks df ∧ arg ∈ snk_args sink ∧ taints df p arg ∧ k = snk_kind sink.

Lemma elem_of_sink_args df a k :
  (a, k) ∈ sink_args df ↔ ∃ sink, sink ∈ sinks df ∧ a ∈ snk_args sink ∧ k = snk_kind sink.
Proof.
  unfold sink_args. rewrite list_elem_of_In, in_flat_map. split.
  - intros (s & Hs & Hin). apply list_elem_of_In in Hs, Hin.
    apply list_elem_of_fmap in Hin as (a' & [= -> ->] & Ha). eauto.
  - intros (s & Hs & Ha & ->). exists s. split; [by apply list_elem_of_In|].
    apply list_elem_of_In, list_elem_of_fmap. eauto.
Qed.

Lemma summarize_param_spec df p :
  ∃ o, summarize_param df p = Ok o ∧
    match o with Some k => routes_to_sink df p k | None => ∀ k, ¬ routes_to_sink df p k end.
Proof.
  unfold summarize_param, find_first. destruct (reachable_in_exact df p) as (reach & -> & Hr). simpl.
  case_decide as He.
  - exists None. split; [done|]. intros k (sink & arg & _ & _ & Ht & _).
    apply Hr in Ht. rewrite He in Ht. set_solver.
  - eexists. split; [done|]. destruct (List.find _ _) as [[a k]|] eqn:Ef; simpl.
    + apply List.find_some in Ef as [Hin%list_elem_of_In Ht%bool_decide_eq_true].
      apply elem_of_sink_args in Hin as (sink & Hs & Ha & ->). exists sink, a.
      split_and!; [done..| |done]. by apply Hr.
    + intros k (sink & arg & Hs & Ha & Ht & ->).
      assert (Hin : List.In (arg, snk_kind sink) (sink_args df)).
      { apply list_elem_of_In, elem_of_sink_args. eauto. }
      apply (List.find_none _ _ Ef) in Hin. simpl in Hin. apply bool_decide_eq_false in Hin.
      by apply Hin, Hr.
Qed.

(** A summary says of each parameter whether it routes to a sink. *)
Definition summarizes (df : FunctionDataflow) (s : FunctionSummary) : Prop :=
  Forall2 (fun p o => match o with Some k => routes_to_sink df p k | None => ∀ k, ¬ routes_to_sink df p k end)
    (params df) s.

Lemma summarize_exact df : ∃ s, summarize df = Ok s ∧ summarizes df s.
Proof.
  assert (Hall : ∃ s, omapM (summarize_param df) (params df) = Ok s ∧ summarizes df s).
  { unfold summarizes. induction (params df) as [|p ps (s & Es & Hs)]; simpl; [eauto|].
    destruct (summarize_param_spec df p) as (o & -> & Ho). simpl. rewrite Es. simpl. eauto. }
  unfold summarize. destruct (params df) as [|p ps] eqn:Ep.
  - exists []. split; [done|]. unfold summarizes. by rewrite Ep.
  - destruct (sinks df) as [|k ks] eqn:Ek; [|done]. eexists. split; [done|].
    unfold summarizes. rewrite Ep. apply Forall2_replicate_r; [done|]. apply Forall_forall.
    intros q _ k' (sink & ? & Hs & _). rewrite Ek in Hs. set_solver.
Qed.

(** ** Functions of one name

    [routed f n]: [n] of the parameters of [f] route to a sink. *)
Definition routed (f : FunctionDataflow) (n : nat) : Prop := ∃ positions, NoDup positions ∧ length positions = n ∧
  ∀ i, i ∈ positions ↔ ∃ p k, params f !! i = Some p ∧ routes_to_sink f p k.

(** Of the functions called [name], [g] routes the most parameters, and is the
    first to. *)
Definition stands_for (fs : list FunctionDataflow) (name : string) (g : FunctionDataflow) : Prop := ∃ before after,
  fs = before ++ g :: after ∧ df_function g = name ∧
  (∀ f n m, f ∈ before → df_function f = name → routed f n → routed g m → n < m) ∧
  (∀ f n m, f ∈ after → df_function f = name → routed f n → routed g m → n ≤ m).

Lemma routed_fun f n m : routed f n → routed f m → n = m.
Proof.
  intros (l & Hl & <- & Hin) (l' & Hl' & <- & Hin'). apply Permutation_length, NoDup_Permutation; [done..|].
  intros i. by rewrite Hin, Hin'.
Qed.

(** The positions of a summary with a sink *)
Fixpoint positions_from (off : nat) (s : FunctionSummary) : list nat :=
  match s with
  | [] => []
  | o :: s => if decide (is_Some o) then off :: positions_from (S off) s else positions_from (S off) s
  end.

Lemma positions_from_spec s : ∀ off, length (positions_from off s) = informative s ∧ NoDup (positions_from off s) ∧
  ∀ i, i ∈ positions_from off s ↔ off ≤ i ∧ ∃ k, s !! (i - off) = Some (Some k).
Proof.
  induction s as [|o s IH]; intros off; cbn [positions_from].
  { split_and!; [done|constructor|]. intros i. split; [by intros ?%not_elem_of_nil|by intros (_ & k & ?)]. }
  destruct (IH (S off)) as (Hlen & Hnd & Hin). unfold informative, FunctionSummary in *. rewrite filter_cons. case_decide as Ho.
  - cbn [length]. rewrite Hlen. split_and!; [done|constructor; [|done]; rewrite Hin; lia|].
    intros i. rewrite elem_of_cons, Hin. split.
    + intros [->|(? & k & Hk)]; [split; [done|]; rewrite Nat.sub_diag; destruct Ho as [k ->]; by exists k|].
      split; [lia|]. exists k. by replace (i - off) with (S (i - S off)) by lia.
    + intros (? & k & Hk). destruct (decide (i = off)) as [|]; [by left|right]. split; [lia|]. exists k.
      by replace (i - off) with (S (i - S off)) in Hk by lia.
  - split_and!; [done..|]. intros i. rewrite Hin. split.
    + intros (? & k & Hk). split; [lia|]. exists k. by replace (i - off) with (S (i - S off)) by lia.
    + intros (? & k & Hk). destruct (decide (i = off)) as [->|].
      { rewrite Nat.sub_diag in Hk. injection Hk as ->. by destruct Ho. }
      split; [lia|]. exists k. by replace (i - off) with (S (i - S off)) in Hk by lia.
Qed.

Lemma summarizes_routed f s : summarizes f s → routed f (informative s).
Proof.
  intros Hs. destruct (positions_from_spec s 0) as (Hlen & Hnd & Hin). exists (positions_from 0 s). split_and!; [done..|].
  intros i. rewrite Hin, Nat.sub_0_r. split.
  - intros (_ & k & Hk). destruct (Forall2_lookup_r _ _ _ _ _ Hs Hk) as (p & Hp & Hr). by exists p, k.
  - intros (p & k & Hp & Hr). split; [lia|]. destruct (Forall2_lookup_l _ _ _ _ _ Hs Hp) as ([k'|] & Ho & Hk); [by exists k'|].
    by destruct (Hk k).
Qed.

Lemma routed_some f : ∃ n, routed f n.
Proof. destruct (summarize_exact f) as (s & _ & Hs). eauto using summarizes_routed. Qed.

Lemma stands_for_in fs name g : stands_for fs name g → g ∈ fs ∧ df_function g = name.
Proof. intros (before & after & -> & Hn & _). set_solver. Qed.

Lemma stands_for_fun fs name g g' : stands_for fs name g → stands_for fs name g' → g = g'.
Proof.
  assert (Hlt : ∀ (g g' : FunctionDataflow) b b' a a', b ++ g :: a = b' ++ g' :: a' → length b < length b' → g ∈ b' ∧ g' ∈ a).
  { clear. intros g g' b b' a a' E Hlen. split.
    - apply (list_elem_of_lookup_2 _ (length b)). rewrite <- (lookup_app_l b' (g' :: a')) by done.
      by rewrite <- E, list_lookup_middle.
    - apply (list_elem_of_lookup_2 _ (length b' - length b - 1)).
      assert ((b ++ g :: a) !! length b' = Some g') as Hl by by rewrite E, list_lookup_middle.
      rewrite lookup_app_r in Hl by lia. by replace (length b' - length b) with (S (length b' - length b - 1)) in Hl by lia. }
  intros (b & a & E & Hn & Hb & Ha) (b' & a' & E' & Hn' & Hb' & Ha'). rewrite E in E'.
  destruct (routed_some g) as [n Hgn], (routed_some g') as [m Hgm].
  destruct (lt_eq_lt_dec (length b) (length b')) as [[Hl|Hl]|Hl].
  - destruct (Hlt _ _ _ _ _ _ E' Hl) as [Hin Hin']. specialize (Hb' g n m Hin Hn Hgn Hgm). specialize (Ha g' m n Hin' Hn' Hgm Hgn). lia.
  - apply app_inj_1 in E' as [_ E']; [|done]. by injection E'.
  - destruct (Hlt _ _ _ _ _ _ (eq_sym E') Hl) as [Hin Hin']. specialize (Hb g' m n Hin Hn' Hgm Hgn). specialize (Ha' g n m Hin' Hn Hgn Hgm). lia.
Qed.

(** One more function of the file: the stand-in of another name stays, ... *)
Lemma stands_for_other done f name g : df_function f ≠ name → stands_for done name g → stands_for (done ++ [f]) name g.
Proof.
  intros Hf (b & a & -> & Hn & Hb & Ha). exists b, (a ++ [f]). rewrite <- app_assoc. split_and!; [done..|].
  intros f' n m [Hin| ->%list_elem_of_singleton]%elem_of_app; [by apply Ha|done].
Qed.

(** ... and so does one that routes as many parameters, but not one that routes
    fewer. *)
Lemma stands_for_stays done f g n m : stands_for done (df_function f) g → routed f n → routed g m → n ≤ m →
  stands_for (done ++ [f]) (df_function f) g.
Proof.
  intros (b & a & -> & Hn & Hb & Ha) Hfn Hgm Hle. exists b, (a ++ [f]). rewrite <- app_assoc. split_and!; [done..|].
  intros f' n' m' [Hin| ->%list_elem_of_singleton]%elem_of_app Hname Hn' Hm'; [by eapply Ha|].
  by rewrite (routed_fun _ _ _ Hn' Hfn), (routed_fun _ _ _ Hm' Hgm).
Qed.

Lemma stands_for_replaced done f g n m : stands_for done (df_function f) g → routed f n → routed g m → m < n →
  stands_for (done ++ [f]) (df_function f) f.
Proof.
  intros (b & a & -> & Hg & Hb & Ha) Hfn Hgm Hlt. exists (b ++ g :: a), []. split_and!; [done|done| |by intros ??? ?%not_elem_of_nil].
  intros f' n' m' Hin Hname Hn' Hm'. rewrite (routed_fun _ _ _ Hm' Hfn).
  apply elem_of_app in Hin as [Hin|[->|Hin]%elem_of_cons].
  - specialize (Hb f' n' m Hin Hname Hn' Hgm). lia.
  - by rewrite (routed_fun _ _ _ Hn' Hgm).
  - specialize (Ha f' n' m Hin Hname Hn' Hgm). lia.
Qed.

Lemma stands_for_new done f : (∀ g, g ∈ done → df_function g ≠ df_function f) → stands_for (done ++ [f]) (df_function f) f.
Proof.
  intros Hnew. exists done, []. split_and!; [done|done| |by intros ??? ?%not_elem_of_nil].
  intros f' n m Hin Hname. by destruct (Hnew f' Hin).
Qed.

Lemma add_summaries fs done m :
  (∀ name s, m !! name = Some s → ∃ g, stands_for done name g ∧ summarizes g s) →
  (∀ g, g ∈ done → is_Some (m !! df_function g)) →
  ∃ m', ofold add_summary m fs = Ok m' ∧
    (∀ name s, m' !! name = Some s → ∃ g, stands_for (done ++ fs) name g ∧ summarizes g s) ∧
    (∀ g, g ∈ done ++ fs → is_Some (m' !! df_function g)).
Proof.
  revert done m. induction fs as [|f fs IH]; intros done m HS HD; simpl.
  { exists m. rewrite app_nil_r. done. }
  destruct (summarize_exact f) as (s & Es & Hs). pose proof (summarizes_routed f s Hs) as Hrf.
  assert (Hins : stands_for (done ++ [f]) (df_function f) f →
    (∀ name s', <[df_function f := s]> m !! name = Some s' → ∃ g, stands_for (done ++ [f]) name g ∧ summarizes g s') ∧
    (∀ g, g ∈ done ++ [f] → is_Some (<[df_function f := s]> m !! df_function g))).
  { intros Hf. split.
    - intros name s'. rewrite lookup_insert_Some. intros [[<- <-]|[Hne Hm]]; [by exists f|].
      apply HS in Hm as (g & Hg & ?). exists g. split; [by apply stands_for_other|done].
    - intros g Hg. destruct (decide (df_function f = df_function g)) as [->|]; [by rewrite lookup_insert_eq|].
      rewrite lookup_insert_ne by done. apply HD. set_solver. }
  unfold add_summary at 1. rewrite Es. simpl.
  replace (done ++ f :: fs) with ((done ++ [f]) ++ fs) by (by rewrite <- app_assoc).
  destruct (m !! df_function f) as [prev|] eqn:Em.
  - destruct (HS _ _ Em) as (g & Hg & Hprev). pose proof (summarizes_routed g prev Hprev) as Hrg.
    case_decide as Hle.
    2: { apply IH; apply Hins; apply (stands_for_replaced done f g (informative s) (informative prev)); done || lia. }
    apply IH.
    + intros name s' Hm. destruct (decide (df_function f = name)) as [<-|Hne].
      * exists g. rewrite Em in Hm. injection Hm as <-. split; [by eapply stands_for_stays|done].
      * apply HS in Hm as (g' & Hg' & ?). exists g'. split; [by apply stands_for_other|done].
    + intros g' [Hg'|Hg']%elem_of_app; [by apply HD|]. apply list_elem_of_singleton in Hg'. subst. eauto.
  - apply IH; apply Hins, stands_for_new; intros g Hg E; apply HD in Hg as [? Hg]; congruence.
Qed.

(** * Origins *)
Section caller.
Context (caller : FunctionDataflow).

Record origin_inv (P : FlowNode → Prop) (st : gset FlowNode * gmap FlowNode (string * N)) : Prop := {
  oi_tainted : ∀ n, n ∈ st.1 ↔ P n;
  oi_origin : ∀ n, n ∈ st.1 → ∃ s, s ∈ sources caller ∧ taints caller (src_node s) n ∧
    st.2 !! n = Some (src_kind s, src_line s);
}.

Lemma add_origins s P st ns : s ∈ sources caller → (∀ n, n ∈ ns → taints caller (src_node s) n) →
  origin_inv P st → origin_inv (fun n => P n ∨ n ∈ ns) (foldl (add_origin s) st ns).
Proof.
  intros Hs. revert P st. induction ns as [|n ns IH]; intros P st Hns Hinv; simpl.
  { destruct Hinv as [H1 H2]. split; [|done]. intros n. rewrite H1. set_solver. }
  assert (H : origin_inv (fun y => P y ∨ y = n) (add_origin s st n)).
  { destruct Hinv as [H1 H2]. unfold add_origin. case_decide as Hn.
    - split; [|done]. intros y. rewrite H1. split; [by left|]. intros [?| ->]; [done|]. by apply H1.
    - split; simpl.
      + intros y. rewrite elem_of_union, H1. set_solver.
      + intros y Hy. destruct (decide (y = n)) as [->|].
        * exists s. rewrite lookup_insert_eq. split_and!; [done| |done]. apply Hns. by left.
        * rewrite lookup_insert_ne by done. apply H2. set_solver. }
  apply IH in H; [|set_solver]. destruct H as [H1 H2]. split; [|done].
  intros y. rewrite H1, elem_of_cons. tauto.
Qed.

Lemma taint_sources P st srcs : srcs ⊆ sources caller → origin_inv P st →
  ∃ st', ofold (taint_source caller) st srcs = Ok st' ∧
    origin_inv (fun n => P n ∨ ∃ s, s ∈ srcs ∧ taints caller (src_node s) n) st'.
Proof.
  revert P st. induction srcs as [|s srcs IH]; intros P st Hsub Hinv; simpl.
  { exists st. split; [done|]. destruct Hinv as [H1 H2]. split; [|done]. intros n. rewrite H1. set_solver. }
  unfold taint_source at 1. destruct (reachable_in_exact caller (src_node s)) as (reach & -> & Hr). simpl.
  assert (Hinv' := add_origins s P st (elements reach) ltac:(set_solver)
    ltac:(intros n; rewrite elem_of_elements; apply Hr) Hinv).
  destruct (IH _ _ ltac:(set_solver) Hinv') as (st' & -> & [H1 H2]).
  exists st'. split; [done|]. split; [|done]. intros n. rewrite H1, elem_of_elements, Hr.
  setoid_rewrite elem_of_cons. naive_solver.
Qed.
End caller.

(** * Findings *)
Section findings.
Context (functions : list FunctionDataflow).

(** A flow across one call: a source of the caller taints an argument, and the
    callee's parameter at the argument's position reaches a sink. *)
Definition cross_flow (caller callee : FunctionDataflow) (s : TaintSource) (call : CallSite)
    (i : nat) (kind : string) : Prop :=
  s ∈ sources caller ∧ call ∈ calls caller ∧ call_callee call = df_function callee ∧
  ∃ arg p, arg_nodes call !! i = Some arg ∧ taints caller (src_node s) arg ∧
    params callee !! i = Some p ∧ routes_to_sink callee p kind.

Definition real_cross_flow (f : InterprocFinding) : Prop :=
  ∃ caller callee s call, caller ∈ functions ∧ stands_for functions (df_function callee) callee ∧
    cross_flow caller callee s call (if_param_index f) (if_sink_kind f) ∧
    f = mkInterproc (df_function caller) (src_kind s) (src_line s) (call_line call)
          (df_function callee) (if_param_index f) (if_sink_kind f).

Definition key_of (f : InterprocFinding) : string * N * nat :=
  (if_caller f, if_call_line f, if_param_index f).

Record cross_findings_inv (acc : list InterprocFinding * gset (string * N * nat)) : Prop := {
  fi_real : Forall real_cross_flow acc.1;
  fi_nodup : NoDup (map key_of acc.1);
  fi_seen : acc.2 = list_to_set (map key_of acc.1);
}.

Context (summaries : gmap string FunctionSummary).
Context (Hsum : ∀ name s, summaries !! name = Some s →
  ∃ g, stands_for functions name g ∧ summarizes g s).

(** The report of a caller holds every tainted argument the summaries route. *)
Definition call_covered (acc : list InterprocFinding * gset (string * N * nat))
    (caller : FunctionDataflow) (call : CallSite) : Prop :=
  ∀ summary i arg kind s, summaries !! call_callee call = Some summary →
    arg_nodes call !! i = Some arg → summary !! i = Some (Some kind) →
    s ∈ sources caller → taints caller (src_node s) arg →
    (df_function caller, call_line call, i) ∈ acc.2.

Section one_caller.
Context (caller : FunctionDataflow) (Hcaller : caller ∈ functions).
Context (tainted : gset FlowNode) (origin : gmap FlowNode (string * N)).
Context (Horigin : origin_inv caller (fun n => ∃ s, s ∈ sources caller ∧ taints caller (src_node s) n)
                     (tainted, origin)).

Lemma check_arg_spec call summary acc i arg :
  call ∈ calls caller → summaries !! call_callee call = Some summary →
  arg_nodes call !! i = Some arg → cross_findings_inv acc →
  let acc' := check_arg caller tainted origin call summary acc (i, arg) in
  cross_findings_inv acc' ∧ acc.2 ⊆ acc'.2 ∧
  (∀ kind, arg ∈ tainted → summary !! i = Some (Some kind) →
    (df_function caller, call_line call, i) ∈ acc'.2).
Proof using Hsum Hcaller Horigin.
  intros Hcall Hs Harg Hinv. unfold check_arg. case_decide as Ht; [by split_and!|].
  destruct (summary !! i) as [[kind|]|] eqn:Ei; [|by split_and!..].
  case_decide as Hkey; [by split_and!|].
  destruct (oi_origin _ _ _ Horigin arg Ht) as (s & Hsrc & Htaint & Ho). simpl in Ho. rewrite Ho. simpl.
  destruct (Hsum _ _ Hs) as (g & Hg & Hgs). pose proof (stands_for_in _ _ _ Hg) as [_ Hname].
  assert (∃ p, params g !! i = Some p ∧ routes_to_sink g p kind) as (p & Hp & Hroute).
  { pose proof (Forall2_lookup_r _ _ _ _ _ Hgs Ei) as (p & Hp & Hr). eauto. }
  destruct Hinv as [H1 H2 H3]. destruct acc as [fs seen]; simpl in *. subst seen.
  split_and!; [split; simpl|set_solver|set_solver].
  - apply Forall_app. split; [done|]. constructor; [|done].
    exists caller, g, s, call. split_and!; [done|by rewrite Hname| |by rewrite Hname].
    split_and!; [done..|]. exists arg, p. done.
  - rewrite map_app. apply NoDup_app. split_and!; [done| |apply NoDup_singleton].
    intros k Hk. simpl. rewrite list_elem_of_singleton. intros ->. apply Hkey.
    by apply elem_of_list_to_set.
  - rewrite map_app, list_to_set_app_L. simpl. set_solver.
Qed.

Lemma check_args_spec call summary acc ias :
  call ∈ calls caller → summaries !! call_callee call = Some summary →
  (∀ i arg, (i, arg) ∈ ias → arg_nodes call !! i = Some arg) → cross_findings_inv acc →
  let acc' := foldl (check_arg caller tainted origin call summary) acc ias in
  cross_findings_inv acc' ∧ acc.2 ⊆ acc'.2 ∧
  (∀ i arg kind, (i, arg) ∈ ias → arg ∈ tainted → summary !! i = Some (Some kind) →
    (df_function caller, call_line call, i) ∈ acc'.2).
Proof using Hsum Hcaller Horigin.
  intros Hcall Hs. revert acc. induction ias as [|[i arg] ias IH]; intros acc Hias Hinv; simpl.
  { split_and!; [done..|]. set_solver. }
  destruct (check_arg_spec call summary acc i arg) as (Hinv1 & Hs1 & Hc1);
    [done|done|apply Hias; by left|done|].
  destruct (IH (check_arg caller tainted origin call summary acc (i, arg))) as (Hinv2 & Hs2 & Hc2);
    [intros; apply Hias; by right|done|].
  split_and!; [done|set_solver|]. intros j a kind [[= -> ->]|Hin]%elem_of_cons Ht Hk.
  - apply Hs2. by eapply Hc1.
  - by eapply Hc2.
Qed.

Lemma check_calls_spec cls acc : cls ⊆ calls caller → cross_findings_inv acc →
  let acc' := foldl (check_call summaries caller tainted origin) acc cls in
  cross_findings_inv acc' ∧ acc.2 ⊆ acc'.2 ∧ ∀ call, call ∈ cls → call_covered acc' caller call.
Proof using Hsum Hcaller Horigin.
  revert acc. induction cls as [|call cls IH]; intros acc Hsub Hinv; simpl.
  { split_and!; [done..|]. set_solver. }
  assert (cross_findings_inv (check_call summaries caller tainted origin acc call) ∧
    acc.2 ⊆ (check_call summaries caller tainted origin acc call).2 ∧
    call_covered (check_call summaries caller tainted origin acc call) caller call) as (Hinv1 & Hs1 & Hc1).
  { unfold check_call, call_covered. destruct (summaries !! call_callee call) as [summary|] eqn:Es; [|by split_and!].
    destruct (check_args_spec call summary acc (imap pair (arg_nodes call))) as (H1 & H2 & H3);
      [set_solver|done| |done|].
    { intros i arg Hin. apply elem_of_lookup_imap_1 in Hin as (j & y & [= -> ->] & ?). done. }
    split_and!; [done..|]. intros summary' i arg kind s [= <-] Harg Hk Hsrc Ht.
    apply (H3 i arg kind); [| |done].
    - by apply elem_of_lookup_imap_2 with (f := pair).
    - apply (oi_tainted _ _ _ Horigin). eauto. }
  destruct (IH (check_call summaries caller tainted origin acc call)) as (Hinv2 & Hs2 & Hc2); [set_solver|done|].
  split_and!; [done|set_solver|]. intros k [->|Hk]%elem_of_cons; [|by apply Hc2].
  intros summary i arg kind s H1 H2 H3 H4 H5. apply Hs2. by eapply Hc1.
Qed.
End one_caller.

Lemma check_callers_spec cs acc : cs ⊆ functions → cross_findings_inv acc →
  ∃ acc', ofold (check_caller summaries) acc cs = Ok acc' ∧ cross_findings_inv acc' ∧ acc.2 ⊆ acc'.2 ∧
    ∀ caller call, caller ∈ cs → call ∈ calls caller → call_covered acc' caller call.
Proof using Hsum.
  revert acc. induction cs as [|caller cs IH]; intros acc Hsub Hinv; simpl.
  { exists acc. split_and!; [done..|]. set_solver. }
  assert (∃ acc1, check_caller summaries acc caller = Ok acc1 ∧ cross_findings_inv acc1 ∧ acc.2 ⊆ acc1.2 ∧
    ∀ call, call ∈ calls caller → call_covered acc1 caller call) as (acc1 & -> & Hinv1 & Hs1 & Hc1).
  { unfold check_caller. destruct (sources caller) as [|s0 srcs] eqn:Esrc.
    { exists acc. split_and!; [done..|]. intros call _ summary i arg kind s _ _ _ Hs. rewrite Esrc in Hs. set_solver. }
    destruct (calls caller) as [|c0 cls] eqn:Ecls; [exists acc; split_and!; [done..|set_solver]|].
    rewrite <- Esrc, <- Ecls.
    destruct (taint_sources caller (fun _ => False) (∅, ∅) (sources caller)) as ([t o] & -> & Ho); [done| |].
    { split; simpl; set_solver. }
    assert (Ho' : origin_inv caller (fun n => ∃ s, s ∈ sources caller ∧ taints caller (src_node s) n) (t, o)).
    { destruct Ho as [H1 H2]. split; [|done]. intros n. rewrite H1. naive_solver. }
    simpl. case_decide as He.
    - exists acc. split_and!; [done..|]. intros call _ summary i arg kind s _ _ _ Hs Ht.
      assert (arg ∈ t) by (apply (oi_tainted _ _ _ Ho'); eauto). subst. set_solver.
    - eexists. split; [done|]. apply check_calls_spec; [set_solver|done..]. }
  simpl. destruct (IH acc1) as (acc2 & -> & Hinv2 & Hs2 & Hc2); [set_solver|done|].
  exists acc2. split_and!; [done|done|set_solver|].
  intros c' call [->|Hc']%elem_of_cons Hcall; [|by apply Hc2].
  intros summary i arg kind s H1 H2 H3 H4 H5. apply Hs2. by eapply Hc1.
Qed.
End findings.

(** C23: the interprocedural pass is exact.  On every file it returns, and reports
    nothing in a file of one function.  Of the functions of one name, the one that
    routes the most parameters to sinks, and the first of these, stands for the
    name.  Every finding is a real flow across a call of the file: a source of the
    caller taints the argument, and the function that stands for the name of the
    callee routes the parameter at its position to a sink of the reported kind.
    No caller, call line and position is reported twice; and in a file of at least
    two functions every such flow is reported for its caller, line and position. *)
Theorem analyze_file_exact functions :
  ∃ fs, analyze_file functions = Ok fs ∧ Forall (real_cross_flow functions) fs ∧ NoDup (map key_of fs) ∧
    (length functions < 2 → fs = []) ∧
    (2 ≤ length functions →
     ∀ caller callee s call i kind, caller ∈ functions → stands_for functions (df_function callee) callee →
       cross_flow caller callee s call i kind →
       ∃ f, f ∈ fs ∧ key_of f = (df_function caller, call_line call, i)).
Proof.
  unfold analyze_file. case_decide as Hlen.
  { exists []. split_and!; [done|constructor|constructor|done|lia]. }
  destruct (add_summaries functions [] ∅) as (m & -> & HS & HD); [done|set_solver|]. simpl in *.
  destruct (check_callers_spec functions m HS functions ([], ∅)) as ([fs seen] & -> & Hinv & _ & Hc); [done| |].
  { split; simpl; [constructor|constructor|done]. }
  exists fs. destruct Hinv as [H1 H2 H3]; simpl in *. split_and!; [done..|].
  intros _ caller callee s call i kind Hcaller Hcallee (Hs & Hcall & Hname & arg & p & Harg & Ht & Hp & Hr).
  pose proof (stands_for_in _ _ _ Hcallee) as [Hin _].
  destruct (HD callee Hin) as [summary Hsum]. destruct (HS _ _ Hsum) as (g & Hg & Hgs).
  pose proof (stands_for_fun _ _ _ _ Hg Hcallee) as ->.
  destruct (Forall2_lookup_l _ _ _ _ _ Hgs Hp) as (o & Ho & Hk).
  destruct o as [kind'|]; [|by exfalso; eapply Hk].
  assert (Hseen : (df_function caller, call_line call, i) ∈ seen).
  { rewrite <- Hname in Hsum. by apply (Hc caller call Hcaller Hcall summary i arg kind' s). }
  rewrite H3, elem_of_list_to_set in Hseen. apply list_elem_of_fmap in Hseen as (f & E & Hf). eauto.
Qed.
