(* ===== verification/GraphCycles.v ===== *)
(** Cycles of directed graphs: [find_cycles] and [extract_simple_cycles] of
    [src/src/graph/algorithms.rs].

    The graph is [petgraph]'s [DiGraph]: node weights in index order and edges
    in order of insertion.  Its [neighbors_directed] and [tarjan_scc] are not in
    the repository; they are the parameters [neighbors] and [tarjan_scc], with
    what [petgraph] documents of them as the class [PetgraphLaws]. *)

From stdpp Require Import base numbers sets list gmap relations.
From S2P Require Import Prelude BTree.

(** * [DiGraph] *)
Record DiGraph (N : Type) := mkGraph { g_nodes : list N; g_edges : list (nat * nat) }.
Arguments mkGraph {N} _ _.
Arguments g_nodes {N} _.
Arguments g_edges {N} _.

Definition graph_new {N} : DiGraph N := mkGraph [] [].
(** [add_node] returns the new index. *)
Definition add_node {N} (g : DiGraph N) (w : N) : nat * DiGraph N :=
  (length (g_nodes g), mkGraph (g_nodes g ++ [w]) (g_edges g)).
Definition add_edge {N} (g : DiGraph N) (a b : nat) : DiGraph N :=
  mkGraph (g_nodes g) (g_edges g ++ [(a, b)]).

Definition edge {N} (g : DiGraph N) (u v : nat) : Prop := (u, v) ∈ g_edges g.

(** Edges join nodes. *)
Definition graph_ok {N} (g : DiGraph N) : Prop :=
  ∀ u v, edge g u v → u < length (g_nodes g) ∧ v < length (g_nodes g).

(** * Graphs whose nodes are found by their weight

    [*idx.entry(key).or_insert_with(|| g.add_node(key))], and the edge between
    two nodes obtained this way. *)
Section labelled.
Context {K : Type} `{Countable K}.

Definition node_index (idx : gmap K nat) (g : DiGraph K) (key : K) : nat * gmap K nat * DiGraph K :=
  match idx !! key with
  | Some i => (i, idx, g)
  | None => let '(i, g') := add_node g key in (i, <[key := i]> idx, g')
  end.

Definition link_nodes (idx : gmap K nat) (g : DiGraph K) (a b : K) : gmap K nat * DiGraph K :=
  let '(i, idx1, g1) := node_index idx g a in
  let '(j, idx2, g2) := node_index idx1 g1 b in
  (idx2, add_edge g2 i j).

(** The graph holds the relation [R]: one node per weight, one or more edges per
    related pair. *)
Record labelled (idx : gmap K nat) (g : DiGraph K) (R : K → K → Prop) : Prop := {
  lb_idx : ∀ k i, idx !! k = Some i ↔ g_nodes g !! i = Some k;
  lb_edge : ∀ u v, edge g u v ↔ ∃ a b, R a b ∧ g_nodes g !! u = Some a ∧ g_nodes g !! v = Some b;
  lb_node : ∀ a b, R a b → is_Some (idx !! a) ∧ is_Some (idx !! b);
}.

(** Looking up or adding a node: the index names the weight, old nodes stay. *)
Lemma node_index_spec idx g key a idx' g' :
  (∀ k i, idx !! k = Some i ↔ g_nodes g !! i = Some k) →
  node_index idx g key = (a, idx', g') →
  (∀ k i, idx' !! k = Some i ↔ g_nodes g' !! i = Some k) ∧ idx' !! key = Some a ∧
  g_edges g' = g_edges g ∧ (∀ k i, idx !! k = Some i → idx' !! k = Some i).
Proof.
  intros Hidx. unfold node_index. destruct (idx !! key) as [i|] eqn:Ek; [intros [= <- <- <-]; done|].
  simpl. intros [= <- <- <-]. simpl. split_and!; [|by rewrite lookup_insert_eq|done|].
  - intros k i. rewrite lookup_insert_Some. destruct (decide (i = length (g_nodes g))) as [->|Hi].
    + rewrite list_lookup_middle by done. split.
      * intros [[-> _]|[_ Hk]]; [done|]. apply Hidx, lookup_lt_Some in Hk. lia.
      * intros [= ->]. by left.
    + rewrite Hidx. split.
      * intros [[-> ?]|[_ Hk]]; [done|]. by apply lookup_app_l_Some.
      * intros Hk. apply lookup_app_Some in Hk as [Hk|[Hge Hk]].
        { right. split; [|done]. intros ->. apply Hidx in Hk. congruence. }
        apply list_lookup_singleton_Some in Hk as [? _]. lia.
  - intros k i Hk. rewrite lookup_insert_ne; [done|]. intros ->. congruence.
Qed.

Lemma labelled_new : labelled ∅ graph_new (fun _ _ => False).
Proof.
  split; simpl.
  - intros k i. by rewrite lookup_empty.
  - intros u v. unfold edge. simpl. set_solver.
  - done.
Qed.

Lemma labelled_ext idx g (R S : K → K → Prop) :
  (∀ a b, R a b ↔ S a b) → labelled idx g R → labelled idx g S.
Proof.
  intros HRS [H1 H2 H3]. split; [done| |].
  - intros u v. rewrite H2. by setoid_rewrite HRS.
  - intros a b Hab. apply H3. by apply HRS.
Qed.

Lemma link_nodes_labelled idx g R a b idx' g' :
  labelled idx g R → link_nodes idx g a b = (idx', g') →
  labelled idx' g' (fun x y => R x y ∨ (x = a ∧ y = b)).
Proof.
  intros [H1 H2 H3]. unfold link_nodes.
  destruct (node_index idx g a) as [[i idx1] g1] eqn:E1.
  destruct (node_index_spec _ _ _ _ _ _ H1 E1) as (I1 & Ha & Hg1 & Hm1).
  destruct (node_index idx1 g1 b) as [[j idx2] g2] eqn:E2.
  destruct (node_index_spec _ _ _ _ _ _ I1 E2) as (I2 & Hb & Hg2 & Hm2). intros [= <- <-].
  assert (Hkeep : ∀ k n, g_nodes g !! n = Some k → g_nodes g2 !! n = Some k).
  { intros k n Hk. apply I2, Hm2, Hm1, H1, Hk. }
  split; cbn [g_nodes add_edge]; [done| |].
  - intros u v. unfold edge. cbn [g_edges add_edge]. rewrite elem_of_app, list_elem_of_singleton, Hg2, Hg1.
    fold (edge g u v). rewrite H2. split.
    + intros [(x & y & HR & Hu & Hv)|[= -> ->]].
      * exists x, y. split_and!; [by left|by apply Hkeep..].
      * exists a, b. split_and!; [by right|by apply I2, Hm2|by apply I2].
    + intros (x & y & [HR|[-> ->]] & Hu & Hv).
      * left. exists x, y. split; [done|]. destruct (H3 x y HR) as [[n Hn] [m Hm]].
        pose proof (Hm2 _ _ (Hm1 _ _ Hn)) as Hn'. pose proof (Hm2 _ _ (Hm1 _ _ Hm)) as Hm'.
        apply I2 in Hu, Hv. simplify_eq. split; by apply H1.
      * right. apply I2 in Hu, Hv. pose proof (Hm2 _ _ Ha). simplify_eq. done.
  - intros x y [HR|[-> ->]]; [|split; eauto]. destruct (H3 x y HR) as [[n Hn] [m Hm]]. split; eauto.
Qed.

Lemma labelled_ok idx g R : labelled idx g R → graph_ok g.
Proof. intros Hl u v (a & b & _ & Hu & Hv)%(lb_edge _ _ _ Hl). split; by eapply lookup_lt_Some. Qed.

(** Reachability between nodes is reachability between their weights. *)
Lemma labelled_rtc idx g R u v a : labelled idx g R → g_nodes g !! u = Some a → rtc (edge g) u v →
  ∃ b, g_nodes g !! v = Some b ∧ rtc R a b.
Proof.
  intros Hl Hu Hr. revert a Hu. induction Hr as [u|u w v He Hr IH]; intros a Hu; [by exists a|].
  apply (lb_edge _ _ _ Hl) in He as (a' & b & HR & Hu' & Hw). simplify_eq.
  destruct (IH b Hw) as (d & Hv & Hbd). exists d. split; [done|]. by eapply rtc_l.
Qed.

Lemma labelled_rtc_inv idx g R a b i : labelled idx g R → rtc R a b → idx !! a = Some i →
  ∃ j, idx !! b = Some j ∧ rtc (edge g) i j.
Proof.
  intros Hl Hr. revert i. induction Hr as [a|a d b HR Hr IH]; intros i Ha; [by exists i|].
  destruct (lb_node _ _ _ Hl a d HR) as [_ [k Hk]]. destruct (IH k Hk) as (j & Hj & Hkj).
  exists j. split; [done|]. eapply rtc_l; [|done]. apply (lb_edge _ _ _ Hl). exists a, d.
  split_and!; [done|by apply (lb_idx _ _ _ Hl)..].
Qed.
End labelled.

(** What the code uses of [petgraph]. *)
Record Petgraph (N : Type) := mkPetgraph {
  neighbors : DiGraph N → nat → list nat;
  tarjan_scc : DiGraph N → list (list nat);
}.
Arguments mkPetgraph {N} _ _.
Arguments neighbors {N} _ _ _.
Arguments tarjan_scc {N} _ _.

(** Two nodes reach each other. *)
Definition mutual {N} (g : DiGraph N) (u v : nat) : Prop := rtc (edge g) u v ∧ rtc (edge g) v u.

(** [neighbors_directed(.., Outgoing)] gives the targets of the edges of a node;
    [tarjan_scc] the strongly connected components, each a list of distinct
    nodes of the graph. *)
Class PetgraphLaws {N} (pg : Petgraph N) : Prop := {
  neighbors_law : ∀ g u v, v ∈ neighbors pg g u ↔ edge g u v;
  scc_distinct : ∀ g c, graph_ok g → c ∈ tarjan_scc pg g → NoDup c;
  scc_bound : ∀ g c u, graph_ok g → c ∈ tarjan_scc pg g → u ∈ c → u < length (g_nodes g);
  scc_nodes : ∀ g u, graph_ok g → u < length (g_nodes g) → ∃ c, c ∈ tarjan_scc pg g ∧ u ∈ c;
  scc_mutual : ∀ g c u v, graph_ok g → c ∈ tarjan_scc pg g → u ∈ c →
    v < length (g_nodes g) → v ∈ c ↔ mutual g u v;
}.

(** * The code *)
Section code.
Context {N : Type} (pg : Petgraph N).

Definition find_cycles (g : DiGraph N) : list (list nat) :=
  filter (fun scc => 1 < length scc) (tarjan_scc pg g).

(** [Vec::rotate_left] *)
Definition rotate_left {A} (k : nat) (l : list A) : list A := drop k l ++ take k l.

(** [enumerate().min_by_key(|(_, n)| n.index())]: the first position of the
    smallest index. *)
Fixpoint min_pos_from (l : list nat) (pos best_pos best : nat) : nat :=
  match l with
  | [] => best_pos
  | n :: l => if decide (n < best) then min_pos_from l (S pos) pos n else min_pos_from l (S pos) best_pos best
  end.
Definition min_pos (l : list nat) : option nat :=
  match l with [] => None | n :: l => Some (min_pos_from l 1 0 n) end.

(** Rotate so that the smallest node index is first. *)
Definition normalize (cycle : list nat) : list nat :=
  match min_pos cycle with Some k => rotate_left k cycle | None => cycle end.

(** The state of the search from one start node: the stack (its top last), the
    cycles seen from this start, all cycles. *)
Record Dfs := mkDfs {
  dfs_stack : list (nat * list nat);
  dfs_visited : list (list nat);
  dfs_cycles : list (list nat);
}.

Definition dfs_neighbor (scc : list nat) (max_length start : nat) (path : list nat)
    (st : Dfs) (neighbor : nat) : Dfs :=
  if decide (neighbor ∉ scc) then st
  else if decide (neighbor = start ∧ 1 < length path) then
    let cycle := normalize path in
    if decide (cycle ∈ dfs_visited st) then st
    else mkDfs (dfs_stack st) (cycle :: dfs_visited st) (dfs_cycles st ++ [cycle])
  else if decide (neighbor ∉ path ∧ length path < max_length) then
    mkDfs (dfs_stack st ++ [(neighbor, path ++ [neighbor])]) (dfs_visited st) (dfs_cycles st)
  else st.

Definition pop {A} (l : list A) : option (A * list A) :=
  match reverse l with [] => None | x :: l' => Some (x, reverse l') end.

Fixpoint dfs_loop (fuel : nat) (g : DiGraph N) (scc : list nat) (max_length start : nat) (st : Dfs) :
    outcome Empty_set Dfs :=
  match pop (dfs_stack st) with
  | None => Ok st
  | Some ((current, path), stack) =>
      match fuel with
      | 0 => OutOfFuel
      | S fuel =>
          let st := mkDfs stack (dfs_visited st) (dfs_cycles st) in
          dfs_loop fuel g scc max_length start
            (if decide (max_length < length path) then st
             else foldl (dfs_neighbor scc max_length start path) st (neighbors pg g current))
      end
  end.

(** An upper bound of the number of paths the search visits below one entry of
    the stack: [depth] is how much longer the path may get. *)
Fixpoint tree_size (g : DiGraph N) (depth : nat) (current : nat) : nat :=
  match depth with
  | 0 => 1
  | S depth => S (sum_list (map (tree_size g depth) (neighbors pg g current)))
  end.

Definition dfs_from (g : DiGraph N) (scc : list nat) (max_length : nat) (cycles : list (list nat))
    (start : nat) : outcome Empty_set (list (list nat)) :=
  let* st := dfs_loop (tree_size g max_length start) g scc max_length start
               (mkDfs [(start, [start])] [] cycles) in
  Ok (dfs_cycles st).

(** [cycles.retain(|c| seen.insert(..))] *)
Fixpoint retain_first (seen cycles : list (list nat)) : list (list nat) :=
  match cycles with
  | [] => []
  | c :: cycles =>
      if decide (c ∈ seen) then retain_first seen cycles else c :: retain_first (c :: seen) cycles
  end.

Definition extract_simple_cycles (g : DiGraph N) (scc : list nat) (max_length : nat) :
    outcome Empty_set (list (list nat)) :=
  let* cycles := ofold (dfs_from g scc max_length) [] scc in
  Ok (sort_by (fun a b => Nat.compare (length a) (length b)) (retain_first [] cycles)).
End code.

(** * Simple cycles *)
Section simple_cycles.
Context {N : Type} (g : DiGraph N).

(** A path along edges. *)
Fixpoint linked (l : list nat) : Prop :=
  match l with
  | u :: (v :: _) as l' => edge g u v ∧ linked l'
  | _ => True
  end.

(** The nodes of [l] in order form a simple cycle of at least two nodes. *)
Definition simple_cycle (l : list nat) : Prop :=
  NoDup l ∧ 1 < length l ∧ linked l ∧
  ∃ u v, head l = Some u ∧ last l = Some v ∧ edge g v u.

Lemma linked_app l l' : linked (l ++ l') ↔
  linked l ∧ linked l' ∧ ∀ u v, last l = Some u → head l' = Some v → edge g u v.
Proof.
  induction l as [|u l IH]; simpl; [naive_solver|].
  destruct l as [|w l]; simpl in *.
  - destruct l' as [|v l']; naive_solver.
  - rewrite IH. naive_solver.
Qed.

Lemma linked_snoc l v : linked (l ++ [v]) ↔ linked l ∧ ∀ u, last l = Some u → edge g u v.
Proof. rewrite linked_app. simpl. naive_solver. Qed.

(** Rotating a simple cycle. *)
Lemma simple_cycle_rotate l1 l2 : simple_cycle (l1 ++ l2) → simple_cycle (l2 ++ l1).
Proof.
  intros (Hnd & Hlen & Hl & u & v & Hu & Hv & He).
  destruct l1 as [|a l1]; [rewrite app_nil_r; simpl in *; by split_and!; [..|exists u, v]|].
  destruct l2 as [|b l2 _] using rev_ind; [rewrite app_nil_r in *; simpl in *; by split_and!; [..|exists u, v]|].
  rewrite app_assoc, last_snoc in Hv. simpl in Hu. simplify_eq. split_and!.
  - by rewrite (Permutation_app_comm (l2 ++ [v])).
  - rewrite length_app in *. lia.
  - rewrite linked_app in Hl. destruct Hl as (H1 & H2 & H3). rewrite linked_app. split_and!; [done..|].
    intros x y. rewrite last_snoc. simpl. intros. by simplify_eq.
  - rewrite linked_app in Hl. destruct Hl as (H1 & H2 & H3).
    destruct (last (u :: l1)) as [z|] eqn:Ez; [|by apply last_None in Ez].
    destruct (head (l2 ++ [v])) as [y|] eqn:Ey; [|by destruct l2].
    exists y, z. split_and!.
    + by destruct l2.
    + rewrite last_app, Ez. done.
    + by apply H3.
Qed.

Lemma rotate_left_app {A} k (l : list A) : ∃ l1 l2, l = l1 ++ l2 ∧ rotate_left k l = l2 ++ l1.
Proof. exists (take k l), (drop k l). split; [by rewrite take_drop|done]. Qed.

Lemma normalize_rotation l : ∃ l1 l2, l = l1 ++ l2 ∧ normalize l = l2 ++ l1.
Proof.
  unfold normalize. destruct (min_pos l) as [k|]; [apply rotate_left_app|].
  exists [], l. by rewrite app_nil_r.
Qed.

(** [normalize] starts at the least node, so the rotations of a list of distinct
    nodes normalize to one list. *)
Lemma min_pos_from_spec pre l k : ∀ best, pre !! k = Some best → (∀ x, x ∈ pre → best ≤ x) →
  ∃ m, (pre ++ l) !! min_pos_from l (length pre) k best = Some m ∧ ∀ x, x ∈ pre ++ l → m ≤ x.
Proof.
  revert pre k. induction l as [|n l IH]; intros pre k best Hk Hle; cbn [min_pos_from].
  { rewrite app_nil_r. eauto. }
  assert (Hlen : S (length pre) = length (pre ++ [n])) by (rewrite length_app; simpl; lia).
  change (n :: l) with ([n] ++ l). rewrite app_assoc, Hlen. case_decide as Hn.
  - apply IH; [by apply list_lookup_middle|]. intros x [Hx| ->%list_elem_of_singleton]%elem_of_app; [|done].
    specialize (Hle x Hx). lia.
  - apply IH; [by apply lookup_app_l_Some|]. intros x [Hx| ->%list_elem_of_singleton]%elem_of_app; [auto|lia].
Qed.

Lemma normalize_least l : l ≠ [] → ∃ m t, normalize l = m :: t ∧ ∀ x, x ∈ l → m ≤ x.
Proof.
  destruct l as [|n l]; [done|]. intros _. destruct (min_pos_from_spec [n] l 0 n) as (m & Hm & Hle); [done|set_solver|].
  unfold normalize, min_pos, rotate_left. set (k := min_pos_from l 1 0 n) in *.
  exists m, (drop (S k) (n :: l) ++ take k (n :: l)). split; [|done]. by rewrite (drop_S _ m k).
Qed.

Lemma rotation_same_head (m : nat) t t' l1 l2 : NoDup (m :: t) → m :: t = l1 ++ l2 → m :: t' = l2 ++ l1 → t = t'.
Proof.
  intros Hnd H1 H2. destruct l1 as [|a l1]; [rewrite app_nil_r in H2; simpl in H1; congruence|].
  destruct l2 as [|b l2]; [rewrite app_nil_r in H1; simpl in H2; congruence|].
  injection H1 as -> ->. injection H2 as <- ->. exfalso. apply NoDup_cons in Hnd as [Hin _]. apply Hin. set_solver.
Qed.

Lemma normalize_canonical p q l1 l2 : NoDup p → normalize p = l1 ++ l2 → normalize q = l2 ++ l1 → normalize p = normalize q.
Proof.
  intros Hnd Hp Hq.
  assert (Hperm : ∀ l, normalize l ≡ₚ l).
  { intros l. destruct (normalize_rotation l) as (a & b & -> & ->). apply Permutation_app_comm. }
  assert (Hpq : p ≡ₚ q) by (rewrite <- (Hperm p), <- (Hperm q), Hp, Hq; apply Permutation_app_comm).
  destruct p as [|n p]; [apply Permutation_nil_l in Hpq as <-; done|].
  assert (q ≠ []) as Hqne by (intros ->; by apply Permutation_nil_r in Hpq).
  destruct (normalize_least (n :: p)) as (m & t & Em & Hm); [done|]. destruct (normalize_least q Hqne) as (m' & t' & Em' & Hm').
  assert (m = m') as <-.
  { assert (m ∈ q) by (rewrite <- Hpq, <- (Hperm (n :: p)), Em; by left).
    assert (m' ∈ n :: p) by (rewrite Hpq, <- (Hperm q), Em'; by left).
    specialize (Hm m' ltac:(done)). specialize (Hm' m ltac:(done)). lia. }
  rewrite Em, Em'. f_equal. rewrite Em in Hp. rewrite Em' in Hq. apply (rotation_same_head m t t' l1 l2); [|done..].
  rewrite <- Em, Hperm. done.
Qed.

Lemma normalize_simple l : simple_cycle l → simple_cycle (normalize l).
Proof. destruct (normalize_rotation l) as (l1 & l2 & -> & ->). apply simple_cycle_rotate. Qed.

(** The nodes of a simple cycle reach each other. *)
Lemma linked_rtc l u v : linked (u :: l) → v ∈ u :: l → rtc (edge g) u v.
Proof.
  revert u. induction l as [|w l IH]; intros u Hl Hv.
  - apply list_elem_of_singleton in Hv. subst. done.
  - apply elem_of_cons in Hv as [->|Hv]; [done|]. destruct Hl as [He Hl].
    eapply rtc_l; [exact He|]. by apply IH.
Qed.

Lemma simple_cycle_mutual l u v : simple_cycle l → u ∈ l → v ∈ l → mutual g u v.
Proof.
  assert (Hone : ∀ l u v, simple_cycle l → u ∈ l → v ∈ l → rtc (edge g) u v).
  { clear. intros l u v Hc Hu Hv.
    apply list_elem_of_split in Hu as (l1 & l2 & ->).
    apply simple_cycle_rotate in Hc. simpl in Hc. destruct Hc as (_ & _ & Hl & _).
    apply (linked_rtc _ _ _ Hl). set_solver. }
  intros Hc Hu Hv. split; eauto.
Qed.
End simple_cycles.

(** * The search *)
Section search.
Context {N : Type} (pg : Petgraph N) `{!PetgraphLaws pg} (g : DiGraph N).
Context (scc : list nat) (max_length start : nat).

(** An entry of the stack: a simple path from [start] inside the component. *)
Definition entry (e : nat * list nat) : Prop :=
  head e.2 = Some start ∧ last e.2 = Some e.1 ∧ NoDup e.2 ∧ linked g e.2 ∧
  Forall (fun n => n ∈ scc) e.2 ∧ length e.2 ≤ Nat.max 1 max_length.

(** A path the search must close. *)
Definition closing (path : list nat) : Prop :=
  simple_cycle g path ∧ head path = Some start ∧ Forall (fun n => n ∈ scc) path ∧
  length path ≤ max_length.

Definition prefix_on (path : list nat) (stack : list (nat * list nat)) : Prop :=
  ∃ e, e ∈ stack ∧ e.2 `prefix_of` path.

(** Between two turns, [old] being the cycles found from earlier starts. *)
Record dfs_inv (old : list (list nat)) (st : Dfs) : Prop := {
  di_stack : Forall entry (dfs_stack st);
  di_visited : ∀ c, c ∈ dfs_visited st → ∃ path, closing path ∧ c = normalize path;
  di_cycles : ∀ c, c ∈ dfs_cycles st ↔ c ∈ old ∨ c ∈ dfs_visited st;
}.

Definition dfs_complete (st : Dfs) : Prop :=
  ∀ path, closing path → normalize path ∈ dfs_visited st ∨ prefix_on path (dfs_stack st).

Lemma entry_closing current path : entry (current, path) → length path ≤ max_length →
  1 < length path → edge g current start → closing path.
Proof.
  intros (Hh & Hl & Hnd & Hli & Hs & _) Hlen Hgt He. simpl in *.
  split; [|done]. split_and!; [done..|]. by exists start, current.
Qed.

Lemma entry_extend current path n : entry (current, path) → edge g current n → n ∈ scc →
  n ∉ path → length path < max_length → entry (n, path ++ [n]).
Proof.
  intros (Hh & Hl & Hnd & Hli & Hs & _) He Hn Hnp Hlen. simpl in *. split_and!; simpl.
  - by destruct path.
  - by rewrite last_snoc.
  - apply NoDup_app. split_and!; [done| |apply NoDup_singleton]. set_solver.
  - apply linked_snoc. split; [done|]. intros u Hu. by simplify_eq.
  - apply Forall_app. split; [done|]. by constructor.
  - rewrite length_app. simpl. lia.
Qed.

(** The neighbours of the entry just popped. *)
Lemma dfs_neighbor_inv old current path st n :
  entry (current, path) → length path ≤ max_length → edge g current n → dfs_inv old st →
  dfs_inv old (dfs_neighbor scc max_length start path st n).
Proof.
  intros He Hlen Hedge [H1 H2 H3]. unfold dfs_neighbor.
  case_decide as Hscc; [done|]. case_decide as Hst.
  - destruct Hst as [-> Hgt]. case_decide as Hv; [done|]. split; simpl; [done| |].
    + intros c [->|Hc]%elem_of_cons; [|by apply H2]. exists path.
      split; [by eapply entry_closing|done].
    + intros c. rewrite elem_of_app, H3, list_elem_of_singleton, elem_of_cons. tauto.
  - case_decide as Hp; [|done]. destruct Hp as [Hp Hlt]. split; simpl; [|done|done].
    apply Forall_app. split; [done|]. constructor; [|done].
    apply entry_extend with current; try done.
Qed.

Lemma dfs_neighbor_mono path st n :
  (∀ c, c ∈ dfs_visited st → c ∈ dfs_visited (dfs_neighbor scc max_length start path st n)) ∧
  (∀ e, e ∈ dfs_stack st → e ∈ dfs_stack (dfs_neighbor scc max_length start path st n)).
Proof. unfold dfs_neighbor. repeat case_decide; simpl; set_solver. Qed.

Lemma dfs_neighbors_mono path st ns :
  (∀ c, c ∈ dfs_visited st → c ∈ dfs_visited (foldl (dfs_neighbor scc max_length start path) st ns)) ∧
  (∀ e, e ∈ dfs_stack st → e ∈ dfs_stack (foldl (dfs_neighbor scc max_length start path) st ns)).
Proof.
  revert st. induction ns as [|n ns IH]; intros st; simpl; [done|].
  destruct (IH (dfs_neighbor scc max_length start path st n)) as [I1 I2].
  destruct (dfs_neighbor_mono path st n) as [J1 J2]. split; auto.
Qed.

Lemma dfs_neighbors_inv old current path st ns :
  entry (current, path) → length path ≤ max_length → (∀ n, n ∈ ns → edge g current n) →
  dfs_inv old st → dfs_inv old (foldl (dfs_neighbor scc max_length start path) st ns).
Proof.
  intros He Hlen. revert st. induction ns as [|n ns IH]; intros st Hns Hinv; simpl; [done|].
  apply IH; [set_solver|]. eapply dfs_neighbor_inv; [done..| |done]. apply Hns. by left.
Qed.

(** Every path through the popped entry is closed or continues on the stack. *)
Lemma dfs_neighbors_complete current path st p :
  entry (current, path) → closing p → path `prefix_of` p →
  let st' := foldl (dfs_neighbor scc max_length start path) st (neighbors pg g current) in
  normalize p ∈ dfs_visited st' ∨ prefix_on p (dfs_stack st').
Proof using PetgraphLaws0.
  intros (Hh & Hl & Hnd & Hli & Hs & _) (Hc & Hph & Hps & Hplen) [rest Hp]. simpl in *.
  destruct Hc as (Hpnd & Hpl & Hplink & u & v & Hu & Hv & Hvu).
  assert (u = start) as Hus by congruence. rewrite Hus in Hvu. clear u Hu Hus. rewrite Hp in *. clear p Hp.
  destruct rest as [|n rest].
  - (* the path closes *)
    rewrite app_nil_r in *. rewrite Hl in Hv. injection Hv as <-. left.
    assert (Hn : start ∈ neighbors pg g current) by (by apply neighbors_law).
    apply list_elem_of_split in Hn as (ns1 & ns2 & ->). rewrite foldl_app. simpl.
    apply dfs_neighbors_mono. unfold dfs_neighbor at 1.
    assert (Hin : start ∈ scc).
    { rewrite Forall_forall in Hs. apply Hs. destruct path as [|a path]; [done|]. simpl in Hh. simplify_eq. by left. }
    rewrite decide_False by tauto. rewrite decide_True by done.
    case_decide; [done|]. simpl. by left.
  - right.
    assert (Hne : edge g current n).
    { rewrite linked_app in Hplink. destruct Hplink as (_ & _ & H). by apply H. }
    assert (Hnp : n ∉ path) by (apply NoDup_app in Hpnd as (_ & H & _); intros Hn; apply (H n Hn); by left).
    assert (Hns : n ∈ scc) by (rewrite Forall_forall in Hps; apply Hps; set_solver).
    assert (Hsp : start ∈ path) by (destruct path; [done|]; simpl in Hh; simplify_eq; by left).
    assert (Hn : n ∈ neighbors pg g current) by (by apply neighbors_law).
    apply list_elem_of_split in Hn as (ns1 & ns2 & ->). rewrite foldl_app. simpl.
    exists (n, path ++ [n]). split.
    + apply dfs_neighbors_mono. unfold dfs_neighbor at 1. rewrite decide_False by tauto.
      rewrite decide_False by (intros [-> _]; done).
      rewrite length_app in Hplen. simpl in Hplen. rewrite decide_True by (split; [done|lia]).
      simpl. set_solver.
    + exists rest. simpl. by rewrite <- app_assoc.
Qed.

(** * Fuel *)
Definition entry_size (e : nat * list nat) : nat := tree_size pg g (S max_length - length e.2) e.1.
Definition stack_size (stack : list (nat * list nat)) : nat := sum_list (map entry_size stack).

Lemma tree_size_pos d c : 1 ≤ tree_size pg g d c.
Proof. destruct d; simpl; lia. Qed.

Lemma stack_size_app s t : stack_size (s ++ t) = stack_size s + stack_size t.
Proof. unfold stack_size. by rewrite map_app, sum_list_with_app. Qed.

Lemma dfs_neighbors_size path st ns : length path ≤ max_length →
  stack_size (dfs_stack (foldl (dfs_neighbor scc max_length start path) st ns)) ≤
  stack_size (dfs_stack st) + sum_list (map (tree_size pg g (max_length - length path)) ns).
Proof.
  intros Hlen. revert st. induction ns as [|n ns IH]; intros st; cbn [foldl map sum_list_with]; [simpl; lia|].
  etransitivity; [apply IH|]. unfold id at 2.
  assert (stack_size (dfs_stack (dfs_neighbor scc max_length start path st n)) ≤
    stack_size (dfs_stack st) + tree_size pg g (max_length - length path) n); [|unfold id in *; lia].
  unfold dfs_neighbor. repeat case_decide; simpl; try lia.
  assert (entry_size (n, path ++ [n]) = tree_size pg g (max_length - length path) n) as E.
  { unfold entry_size. cbn [fst snd]. rewrite length_app. f_equal. simpl. lia. }
  rewrite stack_size_app. unfold stack_size at 2. cbn [map sum_list_with]. rewrite E. unfold id. lia.
Qed.

Lemma pop_Some {A} (l : list A) x l' : pop l = Some (x, l') → l = l' ++ [x].
Proof.
  unfold pop. destruct (reverse l) as [|y l''] eqn:E; [done|]. intros [= <- <-].
  apply (f_equal reverse) in E. rewrite reverse_involutive in E. by rewrite E, reverse_cons.
Qed.

Lemma pop_None {A} (l : list A) : pop l = None → l = [].
Proof.
  unfold pop. destruct (reverse l) eqn:E; [|done]. intros _.
  apply (f_equal reverse) in E. by rewrite reverse_involutive in E.
Qed.

(** The loop ends and finds every closing path. *)
Lemma dfs_loop_spec fuel old st :
  dfs_inv old st → dfs_complete st → stack_size (dfs_stack st) ≤ fuel →
  ∃ st', dfs_loop pg fuel g scc max_length start st = Ok st' ∧ dfs_inv old st' ∧
    ∀ path, closing path → normalize path ∈ dfs_visited st'.
Proof using PetgraphLaws0.
  revert st. induction fuel as [|fuel IH]; intros st Hinv Hcomp Hfuel; simpl.
  all: destruct (pop (dfs_stack st)) as [[[current path] stack]|] eqn:Ep.
  - exfalso. apply pop_Some in Ep. rewrite Ep, stack_size_app in Hfuel. unfold stack_size at 2 in Hfuel.
    simpl in Hfuel. unfold entry_size, id in Hfuel. pose proof (tree_size_pos (S max_length - length path) current).
    simpl in *. lia.
  - exists st. split_and!; [done..|]. intros p Hp. apply pop_None in Ep.
    destruct (Hcomp p Hp) as [?|(e & He & _)]; [done|]. rewrite Ep in He. set_solver.
  - apply pop_Some in Ep. pose proof (di_stack _ _ Hinv) as Hst. rewrite Ep, Forall_app in Hst.
    destruct Hst as [Hst1 Hst2]. rewrite Forall_singleton in Hst2.
    set (st1 := mkDfs stack (dfs_visited st) (dfs_cycles st)).
    assert (Hinv1 : dfs_inv old st1) by (split; [done|apply Hinv|apply Hinv]).
    rewrite Ep, stack_size_app in Hfuel.
    unfold stack_size at 2 in Hfuel. cbn [map sum_list_with] in Hfuel. unfold id, entry_size in Hfuel. cbn [fst snd] in Hfuel.
    case_decide as Hlen.
    + apply IH; [done| |simpl; pose proof (tree_size_pos (S max_length - length path) current); lia].
      intros p Hp. destruct (Hcomp p Hp) as [?|(e & He & Hpre)]; [by left|].
      rewrite Ep in He. apply elem_of_app in He as [He|He%list_elem_of_singleton]; [right; by exists e|].
      subst e. exfalso. apply prefix_length in Hpre. simpl in Hpre. destruct Hp as (_ & _ & _ & ?). lia.
    + assert (Hns : ∀ n, n ∈ neighbors pg g current → edge g current n) by (intros n; apply neighbors_law).
      apply IH.
      * eapply dfs_neighbors_inv; [exact Hst2|lia|done|done].
      * intros p Hp. destruct (Hcomp p Hp) as [Hv|(e & He & Hpre)].
        { left. by apply dfs_neighbors_mono. }
        rewrite Ep in He. apply elem_of_app in He as [He|He%list_elem_of_singleton].
        { right. exists e. split; [|done]. by apply dfs_neighbors_mono. }
        subst e. by apply dfs_neighbors_complete.
      * etransitivity; [apply dfs_neighbors_size; lia|]. simpl.
        replace (S max_length - length path) with (S (max_length - length path)) in Hfuel by lia.
        simpl in Hfuel. lia.
  - exists st. split_and!; [done..|]. intros p Hp. apply pop_None in Ep.
    destruct (Hcomp p Hp) as [?|(e & He & _)]; [done|]. rewrite Ep in He. set_solver.
Qed.
End search.

(** * [extract_simple_cycles] *)
Lemma elem_of_retain_first seen l c : c ∈ retain_first seen l ↔ c ∈ l ∧ c ∉ seen.
Proof.
  revert seen. induction l as [|d l IH]; intros seen; simpl; [set_solver|]. case_decide as Hd.
  - rewrite IH. set_solver.
  - rewrite elem_of_cons, IH. destruct (decide (c = d)) as [->|]; set_solver.
Qed.

Lemma NoDup_retain_first seen l : NoDup (retain_first seen l).
Proof.
  revert seen. induction l as [|d l IH]; intros seen; simpl; [constructor|]. case_decide; [done|].
  constructor; [|done]. rewrite elem_of_retain_first. set_solver.
Qed.

Section extract.
Context {N : Type} (pg : Petgraph N) `{!PetgraphLaws pg} (g : DiGraph N).
Context (scc : list nat) (max_length : nat).

Lemma dfs_from_spec cycles start : start ∈ scc →
  ∃ cycles', dfs_from pg g scc max_length cycles start = Ok cycles' ∧
    ∀ c, c ∈ cycles' ↔ c ∈ cycles ∨ ∃ path, closing g scc max_length start path ∧ c = normalize path.
Proof using PetgraphLaws0.
  intros Hs. unfold dfs_from.
  destruct (dfs_loop_spec pg g scc max_length start (tree_size pg g max_length start) cycles
    (mkDfs [(start, [start])] [] cycles)) as (st & -> & Hinv & Hall).
  - split; simpl; [|set_solver|set_solver]. constructor; [|done].
    split_and!; simpl; [done|done|apply NoDup_singleton|done|by constructor|lia].
  - intros path (_ & Hh & _). right. exists (start, [start]). simpl. split; [set_solver|].
    destruct path as [|a path]; [done|]. simpl in Hh. simplify_eq. by exists path.
  - unfold stack_size, entry_size. simpl. unfold id. rewrite Nat.sub_0_r. lia.
  - exists (dfs_cycles st). split; [done|]. intros c. rewrite (di_cycles _ _ _ _ _ _ Hinv). split.
    + intros [?|Hv]; [by left|]. right. by apply (di_visited _ _ _ _ _ _ Hinv).
    + intros [?|(path & Hp & ->)]; [by left|]. right. by apply Hall.
Qed.

Lemma dfs_all_spec starts cycles : starts ⊆ scc →
  ∃ cycles', ofold (dfs_from pg g scc max_length) cycles starts = Ok cycles' ∧
    ∀ c, c ∈ cycles' ↔ c ∈ cycles ∨
      ∃ start path, start ∈ starts ∧ closing g scc max_length start path ∧ c = normalize path.
Proof using PetgraphLaws0.
  revert cycles. induction starts as [|s starts IH]; intros cycles Hsub; simpl.
  { exists cycles. split; [done|]. set_solver. }
  destruct (dfs_from_spec cycles s) as (c1 & -> & H1); [set_solver|]. simpl.
  destruct (IH c1) as (c2 & -> & H2); [set_solver|]. exists c2. split; [done|].
  intros c. rewrite H2, H1. setoid_rewrite elem_of_cons. naive_solver.
Qed.

(** The cycles returned are the simple cycles inside the component of at most
    the given length, each normalized, each once. *)
Lemma extract_simple_cycles_exact :
  ∃ cycles, extract_simple_cycles pg g scc max_length = Ok cycles ∧ NoDup cycles ∧
    ∀ c, c ∈ cycles ↔
      ∃ path, simple_cycle g path ∧ Forall (fun n => n ∈ scc) path ∧ length path ≤ max_length ∧ c = normalize path.
Proof using PetgraphLaws0.
  unfold extract_simple_cycles. destruct (dfs_all_spec scc []) as (cycles & -> & Hc); [done|]. simpl.
  eexists. split; [done|]. rewrite !sort_by_perm. split; [apply NoDup_retain_first|].
  intros c. rewrite sort_by_perm, elem_of_retain_first, Hc. split.
  - intros [[?|(s & path & _ & (H1 & _ & H2 & H3) & ->)] _]; [set_solver|]. by exists path.
  - intros (path & H1 & H2 & H3 & ->). split; [|set_solver]. right.
    pose proof H1 as (_ & _ & _ & u & v & Hu & _). exists u, path. split; [|done].
    rewrite Forall_forall in H2. apply H2. destruct path; [done|]. simpl in Hu. simplify_eq. by left.
Qed.
End extract.

(** A simple cycle of the graph lies in one component that [find_cycles] keeps. *)
Lemma simple_cycle_component {N} (pg : Petgraph N) `{!PetgraphLaws pg} (g : DiGraph N) path :
  graph_ok g → simple_cycle g path →
  ∃ scc, scc ∈ find_cycles pg g ∧ Forall (fun n => n ∈ scc) path.
Proof.
  intros Hok Hc. pose proof Hc as (Hnd & Hlen & Hl & u & v & Hu & Hv & He).
  assert (Hlt : ∀ n, n ∈ path → n < length (g_nodes g)).
  { intros n Hn. pose proof (simple_cycle_mutual g path n u Hc Hn) as [Hnu _].
    { destruct path; [done|]. simpl in Hu. simplify_eq. by left. }
    apply rtc_inv in Hnu as [->|(y & Hy & _)]; [by apply (Hok v u)|by apply (Hok n y)]. }
  assert (Hup : u ∈ path) by (destruct path; [done|]; simpl in Hu; simplify_eq; by left).
  destruct (scc_nodes g u Hok (Hlt u Hup)) as (c & Hin & Huc).
  assert (Hall : Forall (fun n => n ∈ c) path).
  { apply Forall_forall. intros n Hn. apply (scc_mutual g c u n Hok Hin Huc (Hlt n Hn)).
    by apply (simple_cycle_mutual g path). }
  exists c. split; [|done]. apply list_elem_of_filter. split; [|done].
  assert (length path ≤ length c); [|lia].
  apply submseteq_length, NoDup_submseteq; [done|]. by rewrite Forall_forall in Hall.
Qed.
