(* ===== verification/GraphInstance.v ===== *)
(** A concrete [Petgraph]: neighbours read off the edge list, components
    computed from reachability.  It shows that the laws the cycle search relies
    on can hold. *)

From stdpp Require Import base numbers sets list gmap relations strings.
From S2P Require Import Prelude TaintDataflow TaintInterproc GraphCycles.

Section instance.
Context {W : Type}.

Definition list_neighbors (g : DiGraph W) (u : nat) : list nat :=
  (filter (fun e => e.1 = u) (g_edges g)).*2.

(** Reachability by the breadth-first search of the taint engine. *)
Definition as_flow (g : DiGraph W) : FunctionDataflow :=
  mkDataflow EmptyString 0%N 0%N 0%N (map (fun e => (N.of_nat e.1, N.of_nat e.2)) (g_edges g))
    [] [] [] [] [] [].

Definition reaches (g : DiGraph W) (u v : nat) : bool :=
  match reachable_in (as_flow g) (N.of_nat u) with
  | Ok r => bool_decide (N.of_nat v ∈ r)
  | _ => false
  end.

Definition component (g : DiGraph W) (u : nat) : list nat :=
  filter (fun v => reaches g u v = true ∧ reaches g v u = true) (seq 0 (length (g_nodes g))).

Definition list_scc (g : DiGraph W) : list (list nat) :=
  map (component g)
    (filter (fun u => Forall (fun v => ¬ (reaches g u v = true ∧ reaches g v u = true)) (seq 0 u))
       (seq 0 (length (g_nodes g)))).

Definition list_petgraph : Petgraph W := mkPetgraph list_neighbors list_scc.

Lemma taints_rtc g u n : taints (as_flow g) (N.of_nat u) n ↔ ∃ v, n = N.of_nat v ∧ rtc (edge g) u v.
Proof.
  split.
  - intros Ht. induction Ht as [Hs|y z Hy IH He Hz]; [by exists u|]. destruct IH as (w & -> & Hw).
    simpl in He. apply list_elem_of_fmap in He as ([a b] & [= Ha ->] & Hin). simpl in *.
    apply Nat2N.inj in Ha. subst. exists b. split; [done|]. by eapply rtc_r.
  - intros (v & -> & Hv). revert v Hv. apply rtc_ind_r; [|intros w v Hw Hwv IH].
    + apply taints_start. set_solver.
    + apply taints_step with (N.of_nat w); [done| |set_solver].
      simpl. apply list_elem_of_fmap. by exists (w, v).
Qed.

Lemma reaches_spec g u v : reaches g u v = true ↔ rtc (edge g) u v.
Proof.
  unfold reaches. destruct (reachable_in_exact (as_flow g) (N.of_nat u)) as (r & -> & Hr).
  rewrite bool_decide_eq_true, Hr, taints_rtc. split.
  - intros (w & E & Hw). apply Nat2N.inj in E. by subst.
  - eauto.
Qed.

Lemma elem_of_component g u v : v ∈ component g u ↔ mutual g u v ∧ v < length (g_nodes g).
Proof.
  unfold component, mutual. rewrite list_elem_of_filter, elem_of_seq, !reaches_spec. naive_solver lia.
Qed.

Lemma mutual_trans (g : DiGraph W) u v w : mutual g u v → mutual g v w → mutual g u w.
Proof. intros [] []. split; by etransitivity. Qed.
Lemma mutual_sym (g : DiGraph W) u v : mutual g u v → mutual g v u.
Proof. intros []. by split. Qed.

#[export] Instance list_petgraph_laws : PetgraphLaws list_petgraph.
Proof.
  split; simpl.
  - intros g u v. unfold list_neighbors, edge. rewrite list_elem_of_fmap. split.
    + intros ([a b] & -> & [Ha Hin]%list_elem_of_filter). simpl in *. by subst.
    + intros Hin. exists (u, v). split; [done|]. by apply list_elem_of_filter.
  - intros g c _ (u & -> & _)%list_elem_of_fmap. apply NoDup_filter, NoDup_seq.
  - intros g c u _ (w & -> & _)%list_elem_of_fmap [_ Hu]%elem_of_component. done.
  - intros g u Hok Hu.
    destruct (least_index (fun v => reaches g u v = true ∧ reaches g v u = true) (S u))
      as [(v & Hvu & Hv & Hmin)|Hno];
      [rewrite !reaches_spec in Hv; setoid_rewrite reaches_spec in Hmin
      |destruct (Hno u); [lia|by rewrite !reaches_spec]].
    exists (component g v). split.
    + apply list_elem_of_fmap. exists v. split; [done|]. apply list_elem_of_filter. split.
      * apply Forall_forall. intros w Hw%elem_of_seq. rewrite !reaches_spec. intros Hm.
        apply (Hmin w); [lia|]. by eapply mutual_trans.
      * apply elem_of_seq. lia.
    + apply elem_of_component. split; [by apply mutual_sym|done].
  - intros g c u v Hok (w & -> & _)%list_elem_of_fmap [Hu _]%elem_of_component Hv.
    rewrite elem_of_component. split.
    + intros [Hm _]. eapply mutual_trans; [by apply mutual_sym|done].
    + intros Hm. split; [|done]. by eapply mutual_trans.
Qed.
End instance.
