(* ===== verification/LockOrder.v ===== *)
(** The lock-order graph and its cycles ([src/src/graph/lock_order.rs]).

    A [HashMap] that the code iterates over is the list of its entries in
    iteration order, which the theorems leave free; one that is only looked up
    is a finite map.  A confidence is an [f32]. *)

From Stdlib Require Import SpecFloat.
From stdpp Require Import base numbers strings sets list gmap.
From S2P Require Import Prelude Numbers GraphCycles.

(** * Events and edges *)
Inductive AcqMode := Read | Write.
#[global] Instance AcqMode_eq_dec : EqDecision AcqMode.
Proof. solve_decision. Defined.

Inductive LockEvent :=
| Acquire (key : string) (mode : AcqMode) (conf : f32) (line : N)
| Release (key : string)
| Call (callee : Z).

Record ReachAcq := mkReach { ra_mode : AcqMode; ra_conf : f32; ra_symbol_id : Z; ra_line : N }.

Record LockEdge := mkEdge {
  le_from : string;
  le_to : string;
  le_from_mode : AcqMode;
  le_to_mode : AcqMode;
  le_min_confidence : f32;
  le_interprocedural : bool;
  le_held_symbol : Z;
  le_held_line : N;
  le_acquired_symbol : Z;
  le_acquired_line : N;
  le_via_callee : option Z;
}.

Record LockCycle := mkLockCycle { lc_resources : list string; lc_edges : list LockEdge }.

(** [LockCycle::is_all_read] *)
Definition is_all_read (c : LockCycle) : bool :=
  match lc_edges c with
  | [] => false
  | es => forallb (fun e => bool_decide (le_from_mode e = Read) && bool_decide (le_to_mode e = Read)) es
  end.

(** [LockCycle::min_confidence] *)
Definition cycle_min_confidence (c : LockCycle) : f32 :=
  foldl f32_min (S754_infinity false) (map le_min_confidence (lc_edges c)).

Record Held := mkHeld { h_key : string; h_mode : AcqMode; h_conf : f32; h_line : N }.

(** * [build_lock_order] *)

(** [held.iter().rposition(|h| h.key == key)] *)
Fixpoint rposition (key : string) (held : list Held) : option nat :=
  match held with
  | [] => None
  | h :: held =>
      match rposition key held with
      | Some i => Some (S i)
      | None => if decide (h_key h = key) then Some 0 else None
      end
  end.

(** [Vec::remove] at an index in range. *)
Definition remove_at (i : nat) (held : list Held) : list Held := take i held ++ drop (S i) held.

(** The edges an acquisition adds. *)
Definition acquire_edges (sym : Z) (held : list Held) (key : string) (mode : AcqMode) (conf : f32)
    (line : N) : list LockEdge :=
  map (fun h => mkEdge (h_key h) key (h_mode h) mode (f32_min (h_conf h) conf) false
                  sym (h_line h) sym line None)
    (filter (fun h => h_key h ≠ key) held).

(** The edges a call adds for one lock its callee can acquire. *)
Definition reach_edges (sym : Z) (floor : f32) (held : list Held) (callee : Z) (b : string * ReachAcq) :
    list LockEdge :=
  let '(bkey, racq) := b in
  if SFltb (ra_conf racq) floor then []
  else
    map (fun h => mkEdge (h_key h) bkey (h_mode h) (ra_mode racq) (f32_min (h_conf h) (ra_conf racq)) true
                    sym (h_line h) (ra_symbol_id racq) (ra_line racq) (Some callee))
      (filter (fun h => h_key h ≠ bkey) held).

Section build.
Context (reachable_acq : gmap Z (list (string * ReachAcq))) (floor : f32).

(** The body of the loop over a symbol's events. *)
Definition lock_step (sym : Z) (st : list Held * list LockEdge) (ev : LockEvent) :
    list Held * list LockEdge :=
  let '(held, edges) := st in
  match ev with
  | Acquire key mode conf line =>
      if SFltb conf floor || bool_decide (key = EmptyString) then (held, edges)
      else (held ++ [mkHeld key mode conf line], edges ++ acquire_edges sym held key mode conf line)
  | Release key =>
      match rposition key held with
      | Some pos => (remove_at pos held, edges)
      | None => (held, edges)
      end
  | Call callee =>
      match held with
      | [] => (held, edges)
      | _ =>
          match reachable_acq !! callee with
          | None => (held, edges)
          | Some reach => (held, edges ++ flat_map (reach_edges sym floor held callee) reach)
          end
      end
  end.

Arguments lock_step : simpl never.

Definition build_lock_order (events_by_symbol : list (Z * list LockEvent)) : list LockEdge :=
  foldl (fun edges se => (foldl (lock_step se.1) ([], edges) se.2).2) [] events_by_symbol.

(** * What the edges mean *)

(** The events in which a lock is taken and given back. *)
Definition acquires (a : string) (ev : LockEvent) : Prop :=
  match ev with Acquire k _ conf _ => k = a ∧ SFltb conf floor = false ∧ a ≠ EmptyString | _ => False end.
Definition releases (a : string) (ev : LockEvent) : Prop := match ev with Release k => k = a | _ => False end.

#[global] Instance acquires_dec a ev : Decision (acquires a ev).
Proof. destruct ev; unfold acquires; apply _. Defined.
#[global] Instance releases_dec a ev : Decision (releases a ev).
Proof. destruct ev; unfold releases; apply _. Defined.

(** [a] is held after [pre]: over some last stretch of it, [a] was taken more
    often than given back. *)
Definition holds (pre : list LockEvent) (a : string) : Prop := ∃ before stretch,
  pre = before ++ stretch ∧ length (filter (releases a) stretch) < length (filter (acquires a) stretch).

(** The locks on the list of the code after some events. *)
Definition held_after (events : list LockEvent) : list Held := (foldl (lock_step 0%Z) ([], []) events).1.

(** The event may acquire [key]: itself, or inside the callee. *)
Definition may_acquire (ev : LockEvent) (key : string) : Prop :=
  match ev with
  | Acquire k _ conf _ => k = key ∧ SFltb conf floor = false ∧ key ≠ EmptyString
  | Release _ => False
  | Call callee => ∃ reach racq, reachable_acq !! callee = Some reach ∧ (key, racq) ∈ reach ∧
      SFltb (ra_conf racq) floor = false
  end.

(** [b] may be acquired while [a] is held: in some symbol, after some events. *)
Definition ordered (events_by_symbol : list (Z * list LockEvent)) (a b : string) : Prop :=
  ∃ sym pre ev post, (sym, pre ++ ev :: post) ∈ events_by_symbol ∧ holds pre a ∧ may_acquire ev b ∧ a ≠ b.

(** ** The list of the code is right *)

Definition key_count (a : string) (held : list Held) : nat := length (filter (λ h, h_key h = a) held).

Lemma key_count_app a l l' : key_count a (l ++ l') = key_count a l + key_count a l'.
Proof. unfold key_count. by rewrite filter_app, length_app. Qed.

Lemma rposition_spec key held : match rposition key held with
  | Some i => ∃ l h l', held = l ++ h :: l' ∧ i = length l ∧ h_key h = key
  | None => key_count key held = 0
  end.
Proof.
  induction held as [|h held IH]; cbn [rposition]; [done|].
  destruct (rposition key held) as [i|]; [destruct IH as (l & h' & l' & -> & -> & Hk); by exists (h :: l), h', l'|].
  case_decide as Hk; [by exists [], h, held|]. unfold key_count in *. by rewrite filter_cons_False.
Qed.

Lemma released_count key a held : key_count a match rposition key held with Some i => remove_at i held | None => held end =
  if decide (key = a) then key_count a held - 1 else key_count a held.
Proof.
  pose proof (rposition_spec key held) as H. destruct (rposition key held) as [i|].
  - destruct H as (l & h & l' & -> & -> & Hk). unfold remove_at. rewrite take_app_length, drop_app_ge by lia.
    replace (S (length l) - length l) with 1 by lia. cbn [skipn]. rewrite drop_0. rewrite !key_count_app. unfold key_count.
    case_decide as Ha; [rewrite filter_cons_True by congruence; cbn [length]; lia|by rewrite filter_cons_False by congruence].
  - case_decide as Ha; [subst; by rewrite H|done].
Qed.

Lemma lock_step_count a sym held edges ev : key_count a (lock_step sym (held, edges) ev).1 =
  if decide (acquires a ev) then S (key_count a held)
  else if decide (releases a ev) then key_count a held - 1 else key_count a held.
Proof.
  destruct ev as [key mode conf line|key|callee]; unfold lock_step.
  - destruct (decide (acquires a _)) as [(-> & Hf & Hk)|Ha].
    + rewrite Hf, bool_decide_false by done. cbn [orb fst]. rewrite key_count_app. unfold key_count at 2.
      rewrite filter_cons_True by done. cbn. lia.
    + rewrite decide_False by (intros []). destruct (SFltb conf floor) eqn:Ec; [done|]. cbn [orb]. case_bool_decide as Hk; [done|].
      cbn [fst]. rewrite key_count_app. unfold key_count at 2. rewrite filter_cons_False; [cbn; lia|].
      cbn. intros ->. by apply Ha.
  - rewrite decide_False by (intros []). transitivity (if decide (key = a) then key_count a held - 1 else key_count a held).
    + rewrite <- released_count. by destruct (rposition key held).
    + by apply decide_ext.
  - rewrite !decide_False by (intros []). destruct held; [done|]. by destruct (reachable_acq !! callee).
Qed.

Lemma filter_one (P : LockEvent → Prop) `{∀ ev, Decision (P ev)} ev : length (filter P [ev]) = if decide (P ev) then 1 else 0.
Proof. case_decide; [by rewrite filter_cons_True|by rewrite filter_cons_False]. Qed.

Lemma held_after_count a events k :
  k ≤ key_count a (held_after events) ↔
  ∃ before stretch, events = before ++ stretch ∧
    length (filter (releases a) stretch) + k ≤ length (filter (acquires a) stretch).
Proof.
  revert k. induction events as [|ev events IH] using rev_ind; intros k.
  { split; [intros Hk; exists [], []; by split|]. intros (before & stretch & E & Hk).
    symmetry in E. apply app_nil in E as [-> ->]. done. }
  transitivity (k = 0 ∨ ∃ before stretch, events = before ++ stretch ∧
      length (filter (releases a) stretch) + length (filter (releases a) [ev]) + k ≤
      length (filter (acquires a) stretch) + length (filter (acquires a) [ev])).
  2: { split.
    - intros [->|(before & stretch & -> & Hk)]; [exists (events ++ [ev]), []; by rewrite app_nil_r|].
      exists before, (stretch ++ [ev]). split; [by rewrite app_assoc|]. by rewrite !filter_app, !length_app.
    - intros (before & stretch & E & Hk). destruct stretch as [|ev' stretch _] using rev_ind; [left; simpl in Hk; lia|].
      rewrite app_assoc in E. apply app_inj_tail in E as [-> ->]. right. exists before, stretch.
      split; [done|]. by rewrite !filter_app, !length_app in Hk. }
  rewrite !filter_one. unfold held_after in *. rewrite foldl_snoc.
  destruct (foldl (lock_step 0%Z) ([], []) events) as [held es]. rewrite lock_step_count. cbn [fst] in IH.
  set (q := if decide (acquires a ev) then 1 else 0). set (r := if decide (releases a ev) then 1 else 0).
  set (n := key_count a held) in *.
  assert (Hn : ∀ k, k ≤ (if decide (acquires a ev) then S n else if decide (releases a ev) then n - 1 else n) ↔
                    k = 0 ∨ (1 ≤ k ∧ k + r - q ≤ n)).
  { intros k'. unfold q, r. destruct (decide (acquires a ev)) as [Ha|Ha], (decide (releases a ev)) as [Hr|Hr]; try lia.
    destruct ev; done. }
  assert (q ≤ 1) by (unfold q; case_decide; lia). rewrite Hn, IH. split.
  - intros [?|(? & before & stretch & ? & ?)]; [by left|right]. exists before, stretch. split; [done|lia].
  - intros [?|(before & stretch & ? & ?)]; [by left|]. destruct (decide (k = 0)); [by left|right]. split; [lia|].
    exists before, stretch. split; [done|lia].
Qed.

Lemma holds_held pre a : holds pre a ↔ ∃ h, h ∈ held_after pre ∧ h_key h = a.
Proof.
  transitivity (1 ≤ key_count a (held_after pre)).
  - rewrite held_after_count. unfold holds. split; intros (before & stretch & ? & ?); exists before, stretch; (split; [done|lia]).
  - unfold key_count. split.
    + destruct (filter _ _) as [|h l] eqn:E; [simpl; lia|]. intros _. exists h.
      assert (h ∈ filter (λ h, h_key h = a) (held_after pre)) as [? ?]%list_elem_of_filter by (rewrite E; by left). done.
    + intros (h & Hin & Hk). destruct (filter _ _) as [|h' l] eqn:E; [|simpl; lia].
      assert (h ∈ filter (λ h, h_key h = a) (held_after pre)) as H by by apply list_elem_of_filter. rewrite E in H. by apply not_elem_of_nil in H.
Qed.

(** The held locks do not depend on the symbol or on the edges so far. *)
Lemma lock_step_held sym sym' held edges edges' ev :
  (lock_step sym (held, edges) ev).1 = (lock_step sym' (held, edges') ev).1.
Proof.
  destruct ev as [key mode conf line|key|callee]; unfold lock_step; simpl.
  - by destruct (_ || _).
  - by destruct (rposition _ _).
  - destruct held; [done|]. by destruct (_ !! _).
Qed.

Lemma lock_steps_held sym sym' held edges edges' events :
  (foldl (lock_step sym) (held, edges) events).1 = (foldl (lock_step sym') (held, edges') events).1.
Proof.
  revert held edges edges'. induction events as [|ev events IH]; intros; simpl; [done|].
  pose proof (lock_step_held sym sym' held edges edges' ev) as E.
  destruct (lock_step sym (held, edges) ev) as [h es], (lock_step sym' (held, edges') ev) as [h' es'].
  simpl in E. subst. apply IH.
Qed.

Lemma lock_step_edges sym held edges ev :
  ∃ new, (lock_step sym (held, edges) ev).2 = edges ++ new ∧
    (∀ e, e ∈ new → ∃ h, h ∈ held ∧ h_key h = le_from e ∧ may_acquire ev (le_to e) ∧ le_from e ≠ le_to e) ∧
    (∀ h b, h ∈ held → may_acquire ev b → h_key h ≠ b → ∃ e, e ∈ new ∧ le_from e = h_key h ∧ le_to e = b).
Proof.
  destruct ev as [key mode conf line|key|callee]; unfold lock_step; simpl.
  - destruct (SFltb conf floor) eqn:Ec; simpl.
    { exists []. rewrite app_nil_r. split_and!; [done|set_solver|]. intros h b _ (_ & ? & _). done. }
    case_bool_decide as Hk.
    { exists []. rewrite app_nil_r. split_and!; [done|set_solver|]. intros h b _ (<- & _ & ?). done. }
    eexists. split; [done|]. unfold acquire_edges. split.
    + intros e (h & -> & [Hne Hin]%list_elem_of_filter)%list_elem_of_fmap. exists h. by split_and!.
    + intros h b Hin (-> & _ & _) Hne. eexists.
      split; [|split].
      { apply list_elem_of_fmap. exists h. split; [reflexivity|by apply list_elem_of_filter]. }
      all: done.
  - exists []. rewrite app_nil_r. destruct (rposition _ _); (split_and!; [done|set_solver|done]).
  - destruct held as [|h0 held]; [exists []; rewrite app_nil_r; split_and!; [done|set_solver|set_solver]|].
    destruct (reachable_acq !! callee) as [reach|] eqn:Er.
    + eexists. split; [done|]. split.
      * intros e Hin. apply list_elem_of_In, in_flat_map in Hin as ([bkey racq] & Hb & Hin).
        apply list_elem_of_In in Hb, Hin. unfold reach_edges in Hin.
        destruct (SFltb (ra_conf racq) floor) eqn:Ef; [set_solver|].
        apply list_elem_of_fmap in Hin as (h & -> & [Hne Hin]%list_elem_of_filter). exists h.
        split_and!; [done|done| |done]. by exists reach, racq.
      * intros h b Hin (reach' & racq & E & Hb & Hf) Hne. simplify_eq.
        assert (Hex : ∃ e, e ∈ reach_edges sym floor (h0 :: held) callee (b, racq) ∧ le_from e = h_key h ∧ le_to e = b).
        { unfold reach_edges. rewrite Hf. eexists. split; [|split].
          { apply list_elem_of_fmap. exists h. split; [reflexivity|by apply list_elem_of_filter]. }
          all: done. }
        destruct Hex as (e & He & ?). exists e. split; [|done].
        apply list_elem_of_In, in_flat_map. exists (b, racq). by rewrite <- !list_elem_of_In.
    + exists []. rewrite app_nil_r. split_and!; [done|set_solver|].
      intros h b _ (reach & racq & E & _). congruence.
Qed.

(** The edges of one symbol. *)
Lemma symbol_edges sym edges events :
  ∃ new, (foldl (lock_step sym) ([], edges) events).2 = edges ++ new ∧
    ∀ a b, (∃ e, e ∈ new ∧ le_from e = a ∧ le_to e = b) ↔
      ∃ pre ev post h, events = pre ++ ev :: post ∧ h ∈ held_after pre ∧ h_key h = a ∧
        may_acquire ev b ∧ a ≠ b.
Proof.
  induction events as [|ev events IH] using rev_ind.
  { exists []. rewrite app_nil_r. split; [done|]. intros a b. split; [set_solver|].
    intros (pre & ev & post & h & E & _). by destruct pre. }
  destruct IH as (new & E & Hnew). rewrite foldl_snoc.
  pose proof (lock_steps_held sym 0%Z [] edges [] events) as Hheld.
  fold (held_after events) in Hheld.
  destruct (foldl (lock_step sym) ([], edges) events) as [held es]. simpl in *. subst held es.
  destruct (lock_step_edges sym (held_after events) (edges ++ new) ev) as (new' & -> & Hs & Hc).
  exists (new ++ new'). split; [by rewrite app_assoc|]. intros a b. split.
  - intros (e & [He|He]%elem_of_app & Ha & Hb).
    + destruct (proj1 (Hnew a b)) as (pre & ev' & post & h & -> & ?); [eauto|].
      exists pre, ev', (post ++ [ev]), h. split; [by rewrite <- app_assoc|done].
    + subst. destruct (Hs e He) as (h & Hin & Hk & Hm & Hne).
      exists events, ev, [], h. by split_and!.
  - intros (pre & ev' & post & h & E & Hin & Hk & Hm & Hne).
    destruct post as [|ev'' post _] using rev_ind.
    + apply app_inj_tail in E as [<- <-]. subst a.
      destruct (Hc h b Hin Hm Hne) as (e & He & ? & ?). exists e. split; [set_solver|done].
    + rewrite app_comm_cons, app_assoc in E. apply app_inj_tail in E as [-> _].
      destruct (proj2 (Hnew a b)) as (e & He & ?); [by exists pre, ev', post, h|].
      exists e. split; [set_solver|done].
Qed.

(** The graph has an edge exactly where one lock may be acquired under another. *)
Lemma build_lock_order_exact events_by_symbol a b :
  (∃ e, e ∈ build_lock_order events_by_symbol ∧ le_from e = a ∧ le_to e = b) ↔
  ordered events_by_symbol a b.
Proof.
  unfold build_lock_order.
  transitivity (∃ sym pre ev post h, (sym, pre ++ ev :: post) ∈ events_by_symbol ∧
    h ∈ held_after pre ∧ h_key h = a ∧ may_acquire ev b ∧ a ≠ b).
  2: { unfold ordered. setoid_rewrite holds_held. naive_solver. }
  induction events_by_symbol as [|[sym events] evs IH] using rev_ind.
  { simpl. split; [set_solver|]. intros (? & ? & ? & ? & ? & ? & _). set_solver. }
  rewrite foldl_snoc. simpl.
  destruct (symbol_edges sym (foldl (fun edges se => (foldl (lock_step se.1) ([], edges) se.2).2) [] evs) events)
    as (new & -> & Hnew).
  setoid_rewrite elem_of_app. split.
  - intros (e & [He|He] & Ha & Hb).
    + destruct (proj1 IH) as (s & pre & ev & post & h & Hin & ?); [eauto|]. exists s, pre, ev, post, h.
      split; [set_solver|done].
    + destruct (proj1 (Hnew a b)) as (pre & ev & post & h & -> & ?); [eauto|].
      exists sym, pre, ev, post, h. split; [set_solver|done].
  - intros (s & pre & ev & post & h & [Hin|Hin] & Hrest).
    + destruct (proj2 IH) as (e & He & ?); [by exists s, pre, ev, post, h|]. eauto.
    + apply list_elem_of_singleton in Hin. simplify_eq.
      destruct (proj2 (Hnew a b)) as (e & He & ?); [by exists pre, ev, post, h|]. eauto.
Qed.
End build.
