(* ===== verification/LockCycles.v ===== *)
(** [find_lock_cycles] of [src/src/graph/lock_order.rs]: the lock-order graph is
    built from the edges, its simple cycles are found, and each is witnessed by
    one edge per step.  The report is exact, and a circular wait of the program
    is on it. *)

From Stdlib Require Import SpecFloat.
From stdpp Require Import base numbers strings sets list gmap.
From S2P Require Import Prelude Numbers BTree GraphCycles GraphInstance LockOrder.

(** * The code *)

(** The state of the first loop: [idx], [g] and [best_edge]. *)
Record LockGraph := mkLockGraph {
  lg_idx : gmap string nat;
  lg_graph : DiGraph string;
  lg_best : gmap (string * string) nat;
}.

Definition add_lock_edge (edges : list LockEdge) (st : LockGraph) (ie : nat * LockEdge) : LockGraph :=
  let '(i, e) := ie in
  let '(idx, g) := link_nodes (lg_idx st) (lg_graph st) (le_from e) (le_to e) in
  let pair := (le_from e, le_to e) in
  let best :=
    match lg_best st !! pair with
    | Some prev =>
        (* [edges[prev].min_confidence >= e.min_confidence] *)
        match edges !! prev with
        | Some pe =>
            if SFleb (le_min_confidence e) (le_min_confidence pe) then lg_best st
            else <[pair := i]> (lg_best st)
        | None => <[pair := i]> (lg_best st)
        end
    | None => <[pair := i]> (lg_best st)
    end in
  mkLockGraph idx g best.

Definition lock_graph (edges : list LockEdge) : LockGraph :=
  foldl (add_lock_edge edges) (mkLockGraph ∅ graph_new ∅) (imap pair edges).

(** The pairs [(keys[w], keys[(w + 1) % keys.len()])]. *)
Definition cyclic_pairs {A} (l : list A) : list (A * A) := zip l (rotate_left 1 l).

(** The witness edges, [None] when one is missing ([complete = false]). *)
Definition witness_edges (edges : list LockEdge) (best : gmap (string * string) nat) (keys : list string) :
    option (list LockEdge) :=
  mapM (fun p => i ← best !! p; edges !! i) (cyclic_pairs keys).

(** One cycle of one component. *)
Definition report_cycle (edges : list LockEdge) (lg : LockGraph)
    (acc : list LockCycle * list (list string)) (cyc : list nat) :
    outcome Empty_set (list LockCycle * list (list string)) :=
  let '(out, seen) := acc in
  let* keys := omapM (fun n => expect (g_nodes (lg_graph lg) !! n)) cyc in
  if decide (length keys < 2) then Ok acc
  else if decide (keys ∈ seen) then Ok acc
  else
    match witness_edges edges (lg_best lg) keys with
    | Some cyc_edges => Ok (out ++ [mkLockCycle keys cyc_edges], keys :: seen)
    | None => Ok (out, keys :: seen)
    end.

Definition report_scc (pg : Petgraph string) (edges : list LockEdge) (lg : LockGraph) (max_cycle_len : nat)
    (acc : list LockCycle * list (list string)) (scc : list nat) :
    outcome Empty_set (list LockCycle * list (list string)) :=
  let* cycles := extract_simple_cycles pg (lg_graph lg) scc max_cycle_len in
  ofold (report_cycle edges lg) acc cycles.

Definition find_lock_cycles (pg : Petgraph string) (edges : list LockEdge) (max_cycle_len : nat) :
    outcome Empty_set (list LockCycle) :=
  match edges with
  | [] => Ok []
  | _ =>
      let lg := lock_graph edges in
      let* acc := ofold (report_scc pg edges lg max_cycle_len) ([], []) (find_cycles pg (lg_graph lg)) in
      Ok acc.1
  end.

(** * Confidences that are numbers are ordered *)

Definition number (x : spec_float) : Prop := x ≠ S754_nan.

(** Sign and size, then exponent, then digits *)
Definition float_rank (x : spec_float) : Z * Z * Z :=
  match x with
  | S754_zero _ | S754_nan => (0, 0, 0)%Z
  | S754_infinity s => if s then (-2, 0, 0)%Z else (2, 0, 0)%Z
  | S754_finite s m e => if s then (-1, - e, Zneg m)%Z else (1, e, Zpos m)%Z
  end.

Lemma SFcompare_rank x y : number x → number y → SFcompare x y = Some (ord_cmp (float_rank x) (float_rank y)).
Proof.
  intros Hx Hy. destruct x as [a|a| |a m e], y as [b|b| |b n f]; try by destruct Hx; try by destruct Hy.
  all: try (by destruct a); try (by destruct b); try (by destruct a, b).
  destruct a, b; try done.
  change (ord_cmp (float_rank (S754_finite true m e)) (float_rank (S754_finite true n f)))
      with (match Z.compare (- e) (- f) with Eq => Z.compare (Zneg m) (Zneg n) | c => c end).
    rewrite Z.compare_opp, (Z.compare_antisym e f). cbn [SFcompare]. by destruct (Z.compare e f).
Qed.

Lemma SFleb_rank x y : number x → number y → SFleb x y = true ↔ ord_cmp (float_rank x) (float_rank y) ≠ Gt.
Proof. intros Hx Hy. unfold SFleb. rewrite SFcompare_rank by done. by destruct (ord_cmp _ _). Qed.

Lemma SFleb_trans x y z : number x → number y → number z → SFleb x y = true → SFleb y z = true → SFleb x z = true.
Proof. intros Hx Hy Hz. rewrite !SFleb_rank by done. apply ord_ge_trans. Qed.

Lemma SFleb_total x y : number x → number y → SFleb x y = false → SFleb y x = true.
Proof.
  intros Hx Hy Hxy. apply SFleb_rank; [done..|]. intros Hyx%ord_gt. apply not_true_iff_false in Hxy. apply Hxy.
  apply SFleb_rank; [done..|]. by rewrite Hyx.
Qed.

Lemma SFleb_refl x : number x → SFleb x x = true.
Proof. intros Hx. apply SFleb_rank; [done..|]. by rewrite ord_refl. Qed.

(** * The graph *)

(** An edge of the list from one lock to another. *)
Definition links (es : list LockEdge) (a b : string) : Prop :=
  ∃ e, e ∈ es ∧ le_from e = a ∧ le_to e = b.

(** The graph holds the edges seen so far, one node per lock. *)
Record graph_inv (edges done : list LockEdge) (st : LockGraph) : Prop := {
  gi_labelled : labelled (lg_idx st) (lg_graph st) (links done);
  gi_best : ∀ p i, lg_best st !! p = Some i → ∃ be, edges !! i = Some be ∧ p = (le_from be, le_to be);
  gi_best_some : ∀ e, e ∈ done → is_Some (lg_best st !! (le_from e, le_to e));
  gi_greatest : Forall (λ e, number (le_min_confidence e)) edges → ∀ i be e, lg_best st !! (le_from e, le_to e) = Some i →
    edges !! i = Some be → e ∈ done → SFleb (le_min_confidence e) (le_min_confidence be) = true;
}.

Lemma add_lock_edge_inv edges done st e :
  edges !! length done = Some e → (∀ e', e' ∈ done → e' ∈ edges) → graph_inv edges done st →
  graph_inv edges (done ++ [e]) (add_lock_edge edges st (length done, e)).
Proof.
  intros He Hsub [H1 H4 H5 H6]. unfold add_lock_edge.
  destruct (link_nodes (lg_idx st) (lg_graph st) (le_from e) (le_to e)) as [idx g] eqn:El.
  split; cbn [lg_idx lg_graph lg_best].
  - eapply labelled_ext; [|by eapply link_nodes_labelled]. intros a b. unfold links. simpl. split.
    + intros [(e' & Hin & ?)|[-> ->]]; [exists e'|exists e]; set_solver.
    + intros (e' & [Hin| ->%list_elem_of_singleton]%elem_of_app & <- & <-); [left; eauto|by right].
  - intros p i. assert (Hins : <[(le_from e, le_to e) := length done]> (lg_best st) !! p = Some i →
      ∃ be, edges !! i = Some be ∧ p = (le_from be, le_to be)).
    { rewrite lookup_insert_Some. intros [[<- <-]|[_ Hp]]; [eauto|by apply H4]. }
    destruct (lg_best st !! _) as [prev|]; [|done]. destruct (edges !! prev); [|done].
    destruct (SFleb _ _); [apply H4|done].
  - intros e' He'. assert (Hins : is_Some (<[(le_from e, le_to e) := length done]> (lg_best st) !! (le_from e', le_to e'))).
    { apply lookup_insert_is_Some'. apply elem_of_app in He' as [Hin| ->%list_elem_of_singleton]; [|by left].
      right. by apply H5. }
    destruct (lg_best st !! (le_from e, le_to e)) as [prev|] eqn:Eb; [|done].
    destruct (edges !! prev); [|done]. destruct (SFleb _ _); [|done].
    apply elem_of_app in He' as [Hin| ->%list_elem_of_singleton]; [by apply H5|eauto].
  - intros Hnum i be e' Hi Hbe He'. rewrite Forall_forall in Hnum. specialize (H6 ltac:(by apply Forall_forall)).
    assert (Hine : e ∈ edges) by by eapply list_elem_of_lookup_2. assert (Hinbe : be ∈ edges) by by eapply list_elem_of_lookup_2.
    destruct (decide ((le_from e', le_to e') = (le_from e, le_to e))) as [Epair|Epair].
    2: { assert (Hold : lg_best st !! (le_from e', le_to e') = Some i).
      { destruct (lg_best st !! (le_from e, le_to e)) as [prev|]; [destruct (edges !! prev); [destruct (SFleb _ _)|]|];
          try done; by rewrite lookup_insert_ne in Hi by congruence. }
      apply elem_of_app in He' as [He'| ->%list_elem_of_singleton]; [|done]. by apply (H6 i). }
    rewrite Epair in Hi. destruct (lg_best st !! (le_from e, le_to e)) as [prev|] eqn:Eb.
    + destruct (H4 _ _ Eb) as (pe & Hpe & _). rewrite Hpe in Hi.
      assert (Hinpe : pe ∈ edges) by by eapply list_elem_of_lookup_2.
      assert (Hdone : e' ∈ done → SFleb (le_min_confidence e') (le_min_confidence pe) = true).
      { intros Hd. apply (H6 prev); [by rewrite Epair|done|done]. }
      destruct (SFleb (le_min_confidence e) (le_min_confidence pe)) eqn:Ele.
      * rewrite Eb in Hi. injection Hi as <-. rewrite Hpe in Hbe. injection Hbe as <-.
        by apply elem_of_app in He' as [He'| ->%list_elem_of_singleton]; [apply Hdone|].
      * rewrite lookup_insert_eq in Hi. injection Hi as <-. rewrite He in Hbe. injection Hbe as <-.
        apply elem_of_app in He' as [He'| ->%list_elem_of_singleton]; [|by apply SFleb_refl, Hnum].
        apply (SFleb_trans _ (le_min_confidence pe)); [by apply Hnum, Hsub|by apply Hnum..|by apply Hdone|].
        by apply SFleb_total; [apply Hnum..|].
    + rewrite lookup_insert_eq in Hi. injection Hi as <-. rewrite He in Hbe. injection Hbe as <-.
      apply elem_of_app in He' as [He'| ->%list_elem_of_singleton]; [|by apply SFleb_refl, Hnum].
      destruct (H5 e' He') as [j Hj]. by rewrite Epair, Eb in Hj.
Qed.

Lemma lock_graph_inv edges : graph_inv edges edges (lock_graph edges).
Proof.
  unfold lock_graph.
  assert (H : ∀ done rest st, edges = done ++ rest → graph_inv edges done st →
    graph_inv edges edges (foldl (add_lock_edge edges) st (imap (fun i => pair (length done + i)) rest))).
  { intros done rest. revert done. induction rest as [|e rest IH]; intros done st E Hinv; simpl.
    - rewrite app_nil_r in E. by subst.
    - specialize (IH (done ++ [e]) (add_lock_edge edges st (length done, e))).
      rewrite Nat.add_0_r. erewrite imap_ext; [apply IH|].
      + by rewrite <- app_assoc.
      + apply add_lock_edge_inv; [| |done]; subst edges; [by rewrite list_lookup_middle|]. intros e' ?. apply elem_of_app. by left.
      + intros i x _. simpl. rewrite length_app. simpl. f_equal. lia. }
  apply (H [] edges); [done|]. split; simpl.
  - eapply labelled_ext; [|apply labelled_new]. intros a b. unfold links. set_solver.
  - intros p i. by rewrite lookup_empty.
  - set_solver.
  - intros _ i be e. by rewrite lookup_empty.
Qed.

Lemma lock_graph_labelled edges :
  labelled (lg_idx (lock_graph edges)) (lg_graph (lock_graph edges)) (links edges).
Proof. apply (gi_labelled _ _ _ (lock_graph_inv edges)). Qed.

(** * Cycles as pairs *)
Definition rotation {A} (l l' : list A) : Prop := ∃ l1 l2, l = l1 ++ l2 ∧ l' = l2 ++ l1.

Lemma zip_linked {N} (g : DiGraph N) l b z :
  (∀ u v, (u, v) ∈ zip (b :: l) (l ++ [z]) → edge g u v) ↔
  linked g (b :: l) ∧ ∀ v, last (b :: l) = Some v → edge g v z.
Proof.
  revert b. induction l as [|c l IH]; intros b.
  - simpl. split; [|intros [_ H] u v Hin; apply list_elem_of_singleton in Hin; simplify_eq; by apply H].
    intros H. split; [done|]. intros v [= <-]. apply H. by left.
  - specialize (IH c). cbn [zip zip_with app linked] in *. setoid_rewrite elem_of_cons.
    rewrite last_cons_cons. split.
    + intros H. destruct IH as [IH _]. destruct IH as [Hl Hz]; [intros u v Hin; apply H; by right|].
      split_and!; [apply H; by left|done|done].
    + intros [[Hbc Hl] Hz] u v [[= -> ->]|Hin]; [done|]. by apply IH.
Qed.

Lemma simple_cycle_pairs {N} (g : DiGraph N) l : NoDup l → 1 < length l →
  simple_cycle g l ↔ ∀ u v, (u, v) ∈ cyclic_pairs l → edge g u v.
Proof.
  intros Hnd Hlen. destruct l as [|b l]; [simpl in *; lia|].
  change (cyclic_pairs (b :: l)) with (zip (b :: l) (l ++ [b])). rewrite zip_linked. unfold simple_cycle.
  simpl head. split.
  - intros (_ & _ & Hl & u & v & [= <-] & Hv & He). split; [done|]. intros w Hw. by simplify_eq.
  - intros [Hl Hz]. split_and!; [done..|]. destruct (last (b :: l)) as [v|] eqn:Ev; [|by apply last_None in Ev].
    exists b, v. split_and!; [done..|]. by apply Hz.
Qed.

Lemma Forall2_zip {A B} (R : A → B → Prop) l l' k k' : Forall2 R l k → Forall2 R l' k' →
  Forall2 (fun p q => R p.1 q.1 ∧ R p.2 q.2) (zip l l') (zip k k').
Proof.
  intros H. revert l' k'. induction H as [|x y l k Hx H IH]; intros l' k' H'; [constructor|].
  destruct H' as [|x' y' l' k' Hx' H']; [constructor|]. constructor; [done|]. by apply IH.
Qed.

Lemma Forall2_cyclic {A B} (R : A → B → Prop) l k : Forall2 R l k →
  Forall2 (fun p q => R p.1 q.1 ∧ R p.2 q.2) (cyclic_pairs l) (cyclic_pairs k).
Proof.
  intros H. apply Forall2_zip; [done|]. unfold rotate_left.
  apply Forall2_app; [by apply Forall2_drop|by apply Forall2_take].
Qed.

(** * The report *)
Section report.
Context (edges : list LockEdge) (max_cycle_len : nat).
#[local] Notation lg := (lock_graph edges).
#[local] Notation g := (lg_graph lg).

(** When no confidence is NaN, no edge between the same locks has a greater one. *)
Definition most_confident (e : LockEdge) : Prop := Forall (λ e', number (le_min_confidence e')) edges →
  ∀ e', e' ∈ edges → le_from e' = le_from e → le_to e' = le_to e → SFleb (le_min_confidence e') (le_min_confidence e) = true.

(** A real cycle: distinct locks, and for each step an edge of the input, of the
    greatest confidence. *)
Definition real_cycle (c : LockCycle) : Prop :=
  NoDup (lc_resources c) ∧ 2 ≤ length (lc_resources c) ≤ max_cycle_len ∧
  Forall2 (fun p e => e ∈ edges ∧ le_from e = p.1 ∧ le_to e = p.2 ∧ most_confident e)
    (cyclic_pairs (lc_resources c)) (lc_edges c).

(** The node names its lock. *)
Definition names (n : nat) (k : string) : Prop := g_nodes g !! n = Some k.

Lemma names_inj n n' k : names n k → names n' k → n = n'.
Proof.
  unfold names. intros H1 H2. apply (lb_idx _ _ _ (lock_graph_labelled edges)) in H1, H2. congruence.
Qed.

Lemma names_NoDup l ks : Forall2 names l ks → NoDup l ↔ NoDup ks.
Proof.
  intros H. rewrite !NoDup_alt. split.
  - intros Hl i j k Hi Hj. destruct (Forall2_lookup_r _ _ _ _ _ H Hi) as (n & Hn & Hnk).
    destruct (Forall2_lookup_r _ _ _ _ _ H Hj) as (n' & Hn' & Hnk').
    apply (Hl i j n); [done|]. by rewrite (names_inj n n' k).
  - intros Hk i j n Hi Hj. destruct (Forall2_lookup_l _ _ _ _ _ H Hi) as (k & Hk1 & Hnk).
    destruct (Forall2_lookup_l _ _ _ _ _ H Hj) as (k' & Hk2 & Hnk').
    apply (Hk i j k); [done|]. unfold names in *. congruence.
Qed.

Lemma edge_names u v a b : names u a → names v b →
  edge g u v ↔ ∃ e, e ∈ edges ∧ le_from e = a ∧ le_to e = b.
Proof.
  intros Hu Hv. rewrite (lb_edge _ _ _ (lock_graph_labelled edges)). unfold names, links in *. naive_solver.
Qed.

(** A cycle of nodes is a cycle of locks. *)
Lemma simple_cycle_names path ks : Forall2 names path ks →
  simple_cycle g path ↔ NoDup ks ∧ 1 < length ks ∧
    ∀ a b, (a, b) ∈ cyclic_pairs ks → ∃ e, e ∈ edges ∧ le_from e = a ∧ le_to e = b.
Proof.
  intros H. rewrite <- (names_NoDup _ _ H), <- (Forall2_length _ _ _ H).
  pose proof (Forall2_cyclic _ _ _ H) as Hc. split.
  - intros Hs. pose proof Hs as (Hnd & Hlen & _). split_and!; [done..|]. intros a b Hin.
    apply list_elem_of_lookup in Hin as [i Hi].
    destruct (Forall2_lookup_r _ _ _ _ _ Hc Hi) as ([u v] & Huv & Hu & Hv). simpl in *.
    apply (edge_names u v); [done..|]. apply (simple_cycle_pairs g path); [done..|].
    by apply list_elem_of_lookup_2 in Huv.
  - intros (Hnd & Hlen & He). apply simple_cycle_pairs; [done..|]. intros u v Hin.
    apply list_elem_of_lookup in Hin as [i Hi].
    destruct (Forall2_lookup_l _ _ _ _ _ Hc Hi) as ([a b] & Hab & Hu & Hv). simpl in *.
    apply (edge_names u v a b); [done..|]. apply He. by apply list_elem_of_lookup_2 in Hab.
Qed.

Lemma witness_edges_spec ks :
  (∀ a b, (a, b) ∈ cyclic_pairs ks → ∃ e, e ∈ edges ∧ le_from e = a ∧ le_to e = b) →
  ∃ es, witness_edges edges (lg_best lg) ks = Some es ∧
    Forall2 (fun p e => e ∈ edges ∧ le_from e = p.1 ∧ le_to e = p.2 ∧ most_confident e) (cyclic_pairs ks) es.
Proof.
  unfold witness_edges. induction (cyclic_pairs ks) as [|[a b] ps IH]; intros H; simpl.
  { exists []. split; [done|constructor]. }
  destruct (H a b) as (e & He & <- & <-); [by left|].
  destruct (gi_best_some _ _ _ (lock_graph_inv edges) e He) as [i Hi].
  destruct (gi_best _ _ _ (lock_graph_inv edges) _ _ Hi) as (be & Hbe & [= Hf Ht]).
  destruct IH as (es & Hes & HF); [intros; apply H; by right|].
  exists (be :: es). rewrite Hi. simpl. rewrite Hbe. simpl. rewrite Hes. split; [done|].
  constructor; [|done]. split_and!; [by apply list_elem_of_lookup_2 in Hbe|done|done|].
  intros Hnum e' He' Hf' Ht'. apply (gi_greatest _ _ _ (lock_graph_inv edges) Hnum i); [|done|done].
  by rewrite Hf', Ht', <- Hf, <- Ht.
Qed.

Record report_inv (acc : list LockCycle * list (list string)) : Prop := {
  rp_real : Forall real_cycle acc.1;
  rp_nodup : NoDup (map lc_resources acc.1);
  rp_seen : ∀ ks, ks ∈ acc.2 ↔ ks ∈ map lc_resources acc.1;
  rp_normal : Forall (λ c, ∃ path, Forall2 names (normalize path) (lc_resources c)) acc.1;
}.

(** The nodes of a simple cycle have names. *)
Lemma simple_cycle_labels path : simple_cycle g path → ∃ ks, Forall2 names path ks.
Proof.
  intros Hs. pose proof Hs as (Hnd & Hlen & _).
  assert (Hin : ∀ n, n ∈ path → ∃ k, names n k).
  { intros n Hn. apply list_elem_of_split in Hn as (l1 & l2 & ->).
    apply simple_cycle_rotate in Hs. simpl in Hs. destruct Hs as (_ & _ & Hl & u & v & [= <-] & Hv & He).
    apply (lb_edge _ _ _ (lock_graph_labelled edges)) in He as (a & b & _ & _ & Hn). by exists b. }
  clear Hs Hnd Hlen. induction path as [|n path IH]; [exists []; constructor|].
  destruct (Hin n) as [k Hk]; [by left|]. destruct IH as [ks Hks]; [intros; apply Hin; by right|].
  exists (k :: ks). by constructor.
Qed.

Lemma report_cycle_spec acc cyc : report_inv acc → simple_cycle g cyc → length cyc ≤ max_cycle_len → (∃ path, cyc = normalize path) →
  ∃ acc' ks, report_cycle edges lg acc cyc = Ok acc' ∧ report_inv acc' ∧ Forall2 names cyc ks ∧
    ks ∈ map lc_resources acc'.1 ∧ (∀ c, c ∈ acc.1 → c ∈ acc'.1).
Proof.
  intros Hinv Hs Hmax [path Hpath]. destruct (simple_cycle_labels cyc Hs) as [ks Hks].
  pose proof (proj1 (simple_cycle_names cyc ks Hks) Hs) as (Hnd & Hlen & He).
  destruct acc as [out seen]. unfold report_cycle.
  assert (Ek : omapM (E := Empty_set) (fun n => expect (g_nodes g !! n)) cyc = Ok ks).
  { apply omapM_Ok. eapply Forall2_impl; [exact Hks|]. intros n k Hn. simpl. by rewrite Hn. }
  rewrite Ek. simpl. rewrite decide_False by lia.
  destruct Hinv as [H1 H2 H3 H4]. simpl in *. case_decide as Hseen.
  { exists (out, seen), ks. split_and!; [done|by split|done| |done]. by apply H3. }
  destruct (witness_edges_spec ks He) as (es & -> & HF). eexists _, ks. split; [done|].
  assert (Hlk : length ks = length cyc) by (symmetry; by eapply Forall2_length).
  split_and!; simpl; [split; simpl|done|rewrite map_app; set_solver|set_solver].
  - apply Forall_app. split; [done|]. constructor; [|done]. split_and!; simpl; [done|lia|lia|done].
  - rewrite map_app. apply NoDup_app. split_and!; [done| |apply NoDup_singleton].
    intros k Hk. simpl. rewrite list_elem_of_singleton. intros ->. by apply Hseen, H3.
  - intros k. rewrite elem_of_cons, H3, map_app, elem_of_app. simpl. rewrite list_elem_of_singleton. tauto.
  - apply Forall_app. split; [done|]. constructor; [|done]. exists path. by rewrite <- Hpath.
Qed.

Lemma report_cycles_spec acc cycles : report_inv acc →
  (∀ c, c ∈ cycles → simple_cycle g c ∧ length c ≤ max_cycle_len ∧ ∃ path, c = normalize path) →
  ∃ acc', ofold (report_cycle edges lg) acc cycles = Ok acc' ∧ report_inv acc' ∧
    (∀ c, c ∈ acc.1 → c ∈ acc'.1) ∧
    (∀ c, c ∈ cycles → ∃ ks, Forall2 names c ks ∧ ks ∈ map lc_resources acc'.1).
Proof.
  revert acc. induction cycles as [|c cycles IH]; intros acc Hinv Hc; simpl.
  { exists acc. split_and!; [done..|]. set_solver. }
  destruct (Hc c) as (Hs & Hl & Hp); [by left|].
  destruct (report_cycle_spec acc c Hinv Hs Hl Hp) as (acc1 & ks & -> & Hinv1 & Hks & Hin & Hm1). simpl.
  destruct (IH acc1 Hinv1) as (acc2 & -> & Hinv2 & Hm2 & Hall); [intros; apply Hc; by right|].
  exists acc2. split_and!; [done|done|auto|]. intros c' [->|Hc']%elem_of_cons; [|by apply Hall].
  exists ks. split; [done|]. apply list_elem_of_fmap in Hin as (k & -> & Hk).
  apply list_elem_of_fmap. eauto.
Qed.

(** The locks of a cycle have nodes, and nodes have one name. *)
Lemma locks_have_nodes ks :
  (∀ a b, (a, b) ∈ cyclic_pairs ks → ∃ e, e ∈ edges ∧ le_from e = a ∧ le_to e = b) →
  ∃ path, Forall2 names path ks.
Proof.
  intros He. assert (Hin : ∀ k, k ∈ ks → ∃ n, names n k).
  { intros k Hk. apply list_elem_of_lookup in Hk as [i Hi].
    destruct (lookup_lt_is_Some_2 (rotate_left 1 ks) i) as [b Hb].
    { unfold rotate_left. rewrite length_app, length_drop, length_take.
      apply lookup_lt_Some in Hi. lia. }
    destruct (He k b) as (e & Hin & <- & _).
    { apply list_elem_of_lookup. exists i. apply lookup_zip_with_Some. by exists k, b. }
    destruct (lb_node _ _ _ (lock_graph_labelled edges) (le_from e) (le_to e)) as [[n Hn] _]; [by exists e|].
    exists n. by apply (lb_idx _ _ _ (lock_graph_labelled edges)). }
  clear He. induction ks as [|k ks IH]; [exists []; constructor|].
  destruct (Hin k) as [n Hn]; [by left|]. destruct IH as [path Hp]; [intros; apply Hin; by right|].
  exists (n :: path). by constructor.
Qed.

Lemma names_fun l k k' : Forall2 names l k → Forall2 names l k' → k = k'.
Proof.
  intros Ha. revert k'. induction Ha as [|n x l k Hx Ha IH]; intros k' Hb; [by inversion Hb|].
  inversion Hb as [|? y ? ? Hy Hb']; subst. f_equal; [|by apply IH]. unfold names in *. congruence.
Qed.

Lemma names_rotation path ks ks' : Forall2 names path ks → Forall2 names (normalize path) ks' →
  rotation ks ks'.
Proof.
  destruct (normalize_rotation path) as (l1 & l2 & -> & ->). intros Hp Hp'.
  apply Forall2_app_inv_l in Hp as (k1 & k2 & Hk1 & Hk2 & ->).
  apply Forall2_app_inv_l in Hp' as (k2' & k1' & Hk2' & Hk1' & ->).
  exists k1, k2. split; [done|]. f_equal; by eapply names_fun.
Qed.

Context (pg : Petgraph string) `{!PetgraphLaws pg}.

Lemma report_sccs_spec acc sccs : report_inv acc →
  ∃ acc', ofold (report_scc pg edges lg max_cycle_len) acc sccs = Ok acc' ∧ report_inv acc' ∧
    (∀ c, c ∈ acc.1 → c ∈ acc'.1) ∧
    (∀ scc path, scc ∈ sccs → simple_cycle g path → Forall (fun n => n ∈ scc) path →
       length path ≤ max_cycle_len →
       ∃ ks, Forall2 names (normalize path) ks ∧ ks ∈ map lc_resources acc'.1).
Proof using PetgraphLaws0.
  revert acc. induction sccs as [|scc sccs IH]; intros acc Hinv; simpl.
  { exists acc. split_and!; [done..|]. set_solver. }
  unfold report_scc at 1.
  destruct (extract_simple_cycles_exact pg g scc max_cycle_len) as (cycles & -> & _ & Hcyc). simpl.
  destruct (report_cycles_spec acc cycles Hinv) as (acc1 & -> & Hinv1 & Hm1 & Hall1).
  { intros c (path & Hs & _ & Hl & ->)%Hcyc. split; [by apply normalize_simple|].
    split; [|by exists path]. destruct (normalize_rotation path) as (l1 & l2 & E & ->). rewrite E, length_app in Hl.
    rewrite length_app. lia. }
  simpl. destruct (IH acc1 Hinv1) as (acc2 & -> & Hinv2 & Hm2 & Hall2).
  exists acc2. split_and!; [done|done|auto|]. intros scc' path [->|Hin]%elem_of_cons Hs Hf Hl; [|by eapply Hall2].
  destruct (Hall1 (normalize path)) as (ks & Hks & Hk); [apply Hcyc; eauto|].
  exists ks. split; [done|]. apply list_elem_of_fmap in Hk as (k & -> & Hk).
  apply list_elem_of_fmap. eauto.
Qed.

(** Reported cycles that are rotations of each other are one. *)
Lemma reported_once acc i j c c' : report_inv acc → acc.1 !! i = Some c → acc.1 !! j = Some c' →
  rotation (lc_resources c) (lc_resources c') → i = j.
Proof.
  intros [H1 H2 _ H4] Hi Hj (k1 & k2 & E & E'). rewrite Forall_forall in H1, H4.
  destruct (H4 c) as [p Hp]; [by eapply list_elem_of_lookup_2|]. destruct (H4 c') as [q Hq]; [by eapply list_elem_of_lookup_2|].
  assert (Hnd : NoDup (normalize p)).
  { apply (names_NoDup _ _ Hp). by apply H1; eapply list_elem_of_lookup_2. }
  pose proof Hp as Hp'. rewrite E in Hp'. apply Forall2_app_inv_r in Hp' as (l1 & l2 & Hl1 & Hl2 & El).
  pose proof Hq as Hq'. rewrite E' in Hq'. apply Forall2_app_inv_r in Hq' as (l2' & l1' & Hl2' & Hl1' & El').
  assert (Hinj : ∀ l l' k, Forall2 names l k → Forall2 names l' k → l = l').
  { intros l l' k Hl. revert l'. induction Hl as [|n x l k Hx Hl IH]; intros l' Hl'; inversion Hl'; subst; [done|].
    f_equal; [by eapply names_inj|by apply IH]. }
  rewrite (Hinj _ _ _ Hl2' Hl2), (Hinj _ _ _ Hl1' Hl1) in El'.
  assert (normalize p = normalize q) as Epq.
  { eapply normalize_canonical; [|exact El|exact El']. destruct (normalize_rotation p) as (a & b & -> & E2). rewrite E2 in Hnd.
    by rewrite Permutation_app_comm. }
  rewrite Epq in Hp. pose proof (names_fun _ _ _ Hp Hq) as Ec.
  apply (NoDup_lookup (map lc_resources acc.1) i j (lc_resources c)); [done|..]; rewrite list_lookup_fmap.
  - by rewrite Hi.
  - by rewrite Hj, Ec.
Qed.

Lemma find_lock_cycles_spec :
  ∃ out, find_lock_cycles pg edges max_cycle_len = Ok out ∧ Forall real_cycle out ∧
    (∀ i j c c', out !! i = Some c → out !! j = Some c' → rotation (lc_resources c) (lc_resources c') → i = j) ∧
    ∀ ks, NoDup ks → 2 ≤ length ks ≤ max_cycle_len →
      (∀ a b, (a, b) ∈ cyclic_pairs ks → ∃ e, e ∈ edges ∧ le_from e = a ∧ le_to e = b) →
      ∃ c, c ∈ out ∧ rotation ks (lc_resources c).
Proof using PetgraphLaws0.
  destruct (report_sccs_spec ([], []) (find_cycles pg g)) as ([out seen] & E & Hinv & _ & Hall).
  { split; simpl; [constructor|constructor|set_solver|constructor]. }
  assert (Hfind : find_lock_cycles pg edges max_cycle_len = match edges with [] => Ok [] | _ => Ok out end).
  { unfold find_lock_cycles. destruct edges; [done|]. cbv zeta. by rewrite E. }
  pose proof (λ i j c c', reported_once (out, seen) i j c c' Hinv) as H2. destruct Hinv as [H1 _ _ _]. simpl in *.
  assert (Hcomp : ∀ ks, NoDup ks → 2 ≤ length ks ≤ max_cycle_len →
      (∀ a b, (a, b) ∈ cyclic_pairs ks → ∃ e, e ∈ edges ∧ le_from e = a ∧ le_to e = b) →
      ∃ c, c ∈ out ∧ rotation ks (lc_resources c)).
  { intros ks Hnd Hlen He. destruct (locks_have_nodes ks He) as [path Hp].
    assert (Hs : simple_cycle g path) by (apply (simple_cycle_names _ _ Hp); split_and!; [done|lia|done]).
    destruct (simple_cycle_component pg g path (labelled_ok _ _ _ (lock_graph_labelled edges)) Hs) as (scc & Hscc & Hf).
    destruct (Hall scc path Hscc Hs Hf) as (ks' & Hks' & Hin).
    { rewrite (Forall2_length _ _ _ Hp). lia. }
    apply list_elem_of_fmap in Hin as (c & -> & Hc). exists c. split; [done|]. by eapply names_rotation. }
  exists (match edges with [] => [] | _ => out end).
  destruct edges as [|e0 es] eqn:Eedges.
  - rewrite Hfind. split_and!; [done|constructor|done|].
    intros ks Hnd Hlen He. exfalso. destruct ks as [|a [|b ks]]; simpl in *; [lia|lia|].
    destruct (He a b) as (e & Hin & _); [by left|]. set_solver.
  - rewrite Hfind. by split_and!.
Qed.
End report.

(** * The analysis of a program *)

(** No confidence of the program, of its events or of what its callees acquire, is
    a NaN. *)
Definition confidences_ok (events_by_symbol : list (Z * list LockEvent)) (reachable_acq : gmap Z (list (string * ReachAcq))) : Prop :=
  (∀ sym events key mode conf line, (sym, events) ∈ events_by_symbol → Acquire key mode conf line ∈ events → number conf) ∧
  (∀ callee reach key racq, reachable_acq !! callee = Some reach → (key, racq) ∈ reach → number (ra_conf racq)).

Lemma number_min x y : number x → number y → number (f32_min x y).
Proof. unfold f32_min. destruct x, y; try done; by case_match. Qed.

Lemma confidences_numbers events_by_symbol reachable_acq floor : confidences_ok events_by_symbol reachable_acq →
  Forall (λ e, number (le_min_confidence e)) (build_lock_order reachable_acq floor events_by_symbol).
Proof.
  intros [Hev Hreach]. unfold build_lock_order.
  assert (Hstep : ∀ sym held edges ev, (∀ key mode conf line, ev = Acquire key mode conf line → number conf) →
    Forall (λ h, number (h_conf h)) held → Forall (λ e, number (le_min_confidence e)) edges →
    let st := lock_step reachable_acq floor sym (held, edges) ev in
    Forall (λ h, number (h_conf h)) st.1 ∧ Forall (λ e, number (le_min_confidence e)) st.2).
  { intros sym held edges ev Hn Hh He. rewrite Forall_forall in Hh. destruct ev as [key mode conf line|key|callee]; unfold lock_step.
    - specialize (Hn _ _ _ _ eq_refl). destruct (_ || _); [split; [by apply Forall_forall|done]|]. cbn. split.
      + apply Forall_app. split; [by apply Forall_forall|by constructor].
      + apply Forall_app. split; [done|]. apply Forall_forall. intros e (h & -> & [_ Hin]%list_elem_of_filter)%list_elem_of_fmap.
        by apply number_min; [apply Hh|].
    - destruct (rposition key held) as [i|]; (split; [|done]); apply Forall_forall; [|done].
      unfold remove_at. intros h [Hin|Hin]%elem_of_app; apply Hh; [by eapply subseteq_take|by eapply subseteq_drop].
    - assert (Hsame : Forall (λ h, number (h_conf h)) held) by by apply Forall_forall.
      destruct held as [|h0 held]; [done|]. destruct (reachable_acq !! callee) as [reach|] eqn:Er; [|done]. split; [done|].
      apply Forall_app. split; [done|]. apply Forall_forall. intros e Hin%list_elem_of_In.
      apply in_flat_map in Hin as ([bkey racq] & Hb%list_elem_of_In & Hin%list_elem_of_In). unfold reach_edges in Hin.
      destruct (SFltb _ _); [by apply not_elem_of_nil in Hin|].
      apply list_elem_of_fmap in Hin as (h & -> & [_ Hin]%list_elem_of_filter). cbn. apply number_min; [by apply Hh|by eapply Hreach]. }
  assert (Hsteps : ∀ sym events held edges, (∀ key mode conf line, Acquire key mode conf line ∈ events → number conf) →
    Forall (λ h, number (h_conf h)) held → Forall (λ e, number (le_min_confidence e)) edges →
    Forall (λ e, number (le_min_confidence e)) (foldl (lock_step reachable_acq floor sym) (held, edges) events).2).
  { intros sym events. induction events as [|ev events IH]; intros held edges Hn Hh He; [done|]. cbn [foldl].
    destruct (Hstep sym held edges ev) as [Hh' He']; [intros; subst; eapply Hn; by left|done..|].
    destruct (lock_step _ _ _ _ _) as [held' edges']. apply IH; [|done..]. intros. eapply Hn. by right. }
  assert (Hall : ∀ evs edges, (∀ x, x ∈ evs → x ∈ events_by_symbol) → Forall (λ e, number (le_min_confidence e)) edges →
    Forall (λ e, number (le_min_confidence e))
      (foldl (λ edges se, (foldl (lock_step reachable_acq floor se.1) ([], edges) se.2).2) edges evs)).
  { induction evs as [|[sym events] evs IH]; intros edges Hsub He; [done|]. cbn [foldl]. apply IH; [set_solver|].
    apply Hsteps; [|done|done]. intros key mode conf line Hin. eapply Hev; [|done]. apply Hsub. by left. }
  by apply Hall.
Qed.

(** C16: the lock-cycle report is exact.  For every program (the lock events of
    its symbols, in any iteration order), every summary of callees and every
    confidence floor: the search returns; each reported cycle has at least two
    and at most [max_cycle_len] distinct locks, each acquired somewhere while its
    predecessor is held, with one edge of the graph per step; no two reported
    cycles are rotations of each other; every such cycle of locks is reported up
    to rotation; and when no confidence of the program is NaN, each step is
    witnessed by an edge of the greatest confidence between its two locks.  A
    lock is held after some events if over some last stretch of them it was
    taken more often than given back. *)
Theorem lock_cycles_exact (pg : Petgraph string) `{!PetgraphLaws pg} events_by_symbol reachable_acq floor max_cycle_len :
  let edges := build_lock_order reachable_acq floor events_by_symbol in
  let locked := ordered reachable_acq floor events_by_symbol in
  ∃ out, find_lock_cycles pg edges max_cycle_len = Ok out ∧
    (∀ i j c c', out !! i = Some c → out !! j = Some c' → rotation (lc_resources c) (lc_resources c') → i = j) ∧
    (∀ c, c ∈ out → real_cycle edges max_cycle_len c ∧
       ∀ a b, (a, b) ∈ cyclic_pairs (lc_resources c) → locked a b) ∧
    (∀ ks, NoDup ks → 2 ≤ length ks ≤ max_cycle_len →
       (∀ a b, (a, b) ∈ cyclic_pairs ks → locked a b) →
       ∃ c, c ∈ out ∧ rotation ks (lc_resources c)) ∧
    (confidences_ok events_by_symbol reachable_acq → ∀ c e e', c ∈ out → e ∈ lc_edges c →
       e' ∈ edges → le_from e' = le_from e → le_to e' = le_to e → SFleb (le_min_confidence e') (le_min_confidence e) = true).
Proof.
  intros edges locked.
  destruct (find_lock_cycles_spec edges max_cycle_len pg) as (out & E & Hreal & Hnd & Hcomp).
  rewrite Forall_forall in Hreal. exists out. split_and!; [done|done| | |].
  - intros c Hc. pose proof (Hreal c Hc) as Hr. split; [done|].
    intros a b Hab. destruct Hr as (_ & _ & HF). apply list_elem_of_lookup in Hab as [i Hi].
    destruct (Forall2_lookup_l _ _ _ _ _ HF Hi) as (e & _ & He & Ha & Hb & _).
    apply build_lock_order_exact. eauto.
  - intros ks Hk Hlen Hl. apply Hcomp; [done|done|]. intros a b Hab.
    by apply build_lock_order_exact, Hl.
  - intros Hok c e e' Hc He. destruct (Hreal c Hc) as (_ & _ & HF). apply list_elem_of_lookup in He as [i Hi].
    destruct (Forall2_lookup_r _ _ _ _ _ HF Hi) as (p & _ & _ & _ & _ & Hbest). apply Hbest. by apply confidences_numbers.
Qed.

(** A thread of a circular wait: it has executed [w_pre] of a symbol and its next
    event may acquire [w_key]. *)
Record Wait := mkWait {
  w_symbol : Z;
  w_pre : list LockEvent;
  w_event : LockEvent;
  w_post : list LockEvent;
  w_key : string;
}.

(** Threads that wait for one another in a circle: each waits for a lock that
    the next one holds, and the locks are different (a lock has one holder). *)
Definition circular_wait (events_by_symbol : list (Z * list LockEvent))
    (reachable_acq : gmap Z (list (string * ReachAcq))) (floor : f32) (ws : list Wait) : Prop :=
  2 ≤ length ws ∧ NoDup (map w_key ws) ∧
  Forall (fun w => (w_symbol w, w_pre w ++ w_event w :: w_post w) ∈ events_by_symbol ∧
                   may_acquire reachable_acq floor (w_event w) (w_key w)) ws ∧
  ∀ w w', (w, w') ∈ cyclic_pairs ws → holds floor (w_pre w') (w_key w).

Lemma cyclic_pairs_fmap {A B} (f : A → B) l a b : (a, b) ∈ cyclic_pairs (map f l) →
  ∃ x y, (x, y) ∈ cyclic_pairs l ∧ a = f x ∧ b = f y.
Proof.
  intros Hin. assert (HF : Forall2 (fun x k => k = f x) l (map f l)).
  { clear Hin. induction l as [|x l IH]; simpl; by constructor. }
  apply Forall2_cyclic in HF. apply list_elem_of_lookup in Hin as [i Hi].
  destruct (Forall2_lookup_r _ _ _ _ _ HF Hi) as ([x y] & Hxy & Hx & Hy). simpl in *.
  exists x, y. split; [|done]. by apply list_elem_of_lookup_2 in Hxy.
Qed.

Lemma cyclic_pairs_ne {A} (l : list A) a b : NoDup l → 2 ≤ length l → (a, b) ∈ cyclic_pairs l → a ≠ b.
Proof.
  intros Hnd Hlen Hin ->. destruct l as [|x l]; [simpl in *; lia|].
  apply list_elem_of_lookup in Hin as [i Hi].
  apply lookup_zip_with_Some in Hi as (a & b' & [= <- <-] & Hi & Hi').
  change (rotate_left 1 (x :: l)) with (l ++ [x]) in Hi'.
  apply lookup_app_Some in Hi' as [Hi'|[Hge Hi']].
  - pose proof (NoDup_lookup _ i (S i) _ Hnd Hi Hi'). lia.
  - apply list_lookup_singleton_Some in Hi' as [Hz <-].
    pose proof (NoDup_lookup _ i 0 x Hnd Hi eq_refl). simpl in *. lia.
Qed.

(** C24: a circular wait is reported.  If some threads of the program can wait for
    one another in a circle, each for a lock the next one holds, at most
    [max_cycle_len] of them, then the analysis reports the cycle of the locks
    they wait for. *)
Theorem circular_wait_reported (pg : Petgraph string) `{!PetgraphLaws pg}
    events_by_symbol reachable_acq floor max_cycle_len ws :
  circular_wait events_by_symbol reachable_acq floor ws → length ws ≤ max_cycle_len →
  ∃ out c, find_lock_cycles pg (build_lock_order reachable_acq floor events_by_symbol) max_cycle_len = Ok out ∧
    c ∈ out ∧ rotation (map w_key ws) (lc_resources c).
Proof.
  intros (Hlen & Hnd & Hws & Hheld) Hmax.
  destruct (find_lock_cycles_spec (build_lock_order reachable_acq floor events_by_symbol) max_cycle_len pg)
    as (out & E & _ & _ & Hcomp).
  destruct (Hcomp (map w_key ws)) as (c & Hc & Hr); [done|rewrite length_map; lia| |by exists out, c].
  intros a b Hab. apply build_lock_order_exact.
  pose proof (cyclic_pairs_ne _ _ _ Hnd ltac:(rewrite length_map; lia) Hab) as Hne.
  apply cyclic_pairs_fmap in Hab as (w & w' & Hww & -> & ->).
  pose proof (Hheld w w' Hww) as Hh. rewrite Forall_forall in Hws.
  destruct (Hws w') as [Hin Hm].
  { apply list_elem_of_lookup in Hww as [i Hi]. apply lookup_zip_with_Some in Hi as (x & y & [= <- <-] & _ & Hy).
    apply list_elem_of_lookup_2 in Hy. unfold rotate_left in Hy.
    rewrite <- (take_drop 1 ws). set_solver. }
  exists (w_symbol w'), (w_pre w'), (w_event w'), (w_post w'). done.
Qed.

(** Two functions that take two locks in opposite orders. *)
Definition half : f32 := S754_finite false 8388608 (-24).
Definition acq (key : string) (line : N) : LockEvent := Acquire key Write half line.
Definition ab_ba : list (Z * list LockEvent) :=
  [(1%Z, [acq "A" 1%N; acq "B" 2%N]); (2%Z, [acq "B" 1%N; acq "A" 2%N])].
Definition ab_ba_waits : list Wait :=
  [mkWait 1%Z [acq "A" 1%N] (acq "B" 2%N) [] "B"; mkWait 2%Z [acq "B" 1%N] (acq "A" 2%N) [] "A"].

Lemma circular_wait_reported_witness :
  ∃ out c, find_lock_cycles list_petgraph (build_lock_order ∅ half ab_ba) 6 = Ok out ∧
    c ∈ out ∧ rotation ["B"; "A"] (lc_resources c).
Proof.
  apply (circular_wait_reported list_petgraph ab_ba ∅ half 6 ab_ba_waits); [|simpl; lia].
  split_and!; [simpl; lia|by apply (bool_decide_unpack _); vm_compute| |].
  - repeat constructor; simpl; try set_solver; done.
  - intros w w' Hin. simpl in Hin.
    apply elem_of_cons in Hin as [[= -> ->]|Hin]; [|apply list_elem_of_singleton in Hin as [= -> ->]].
    + exists [], [acq "B" 1%N]. split; [done|]. by vm_compute.
    + exists [], [acq "A" 1%N]. split; [done|]. by vm_compute.
Defined.

Lemma lock_cycles_exact_witness :
  ∃ out, find_lock_cycles list_petgraph (build_lock_order ∅ half ab_ba) 6 = Ok out ∧
    ∀ c e e', c ∈ out → e ∈ lc_edges c → e' ∈ build_lock_order ∅ half ab_ba → le_from e' = le_from e → le_to e' = le_to e →
      SFleb (le_min_confidence e') (le_min_confidence e) = true.
Proof.
  destruct (lock_cycles_exact list_petgraph ab_ba ∅ half 6) as (out & E & _ & _ & _ & Hbest). exists out. split; [done|].
  apply Hbest. split.
  - intros sym events key mode conf line Hin Ha. unfold ab_ba in Hin. apply elem_of_cons in Hin as [[= -> ->]|Hin].
    + repeat (apply elem_of_cons in Ha as [[= -> -> -> ->]|Ha]; [done|]). by apply not_elem_of_nil in Ha.
    + apply list_elem_of_singleton in Hin as [= -> ->].
      repeat (apply elem_of_cons in Ha as [[= -> -> -> ->]|Ha]; [done|]). by apply not_elem_of_nil in Ha.
  - intros callee reach key racq. by rewrite lookup_empty.
Defined.

Example ab_ba_cycle :
  (let* out := find_lock_cycles list_petgraph (build_lock_order ∅ half ab_ba) 6 in
   Ok (map lc_resources out, map is_all_read out)) = Ok ([["A"; "B"]], [false]).
Proof. vm_compute. reflexivity. Qed.
