(* ===== verification/ChannelDeadlock.v ===== *)
(** Channel deadlock signals ([src/src/graph/petri.rs]): channels without a
    partner, and processes that wait for one another.

    [events_by_process] is the list of the entries of the [HashMap] in iteration
    order; its keys are distinct. *)

From stdpp Require Import base numbers strings sets list gmap relations.
From Stdlib Require Import Sorting.Sorted.
From S2P Require Import Prelude BTree GraphCycles GraphInstance.

(** * Data *)
Inductive MsgKind := Send | SendPersistent | Recv | RecvPersistent | Select | Spawn.
#[global] Instance MsgKind_eq_dec : EqDecision MsgKind.
Proof. solve_decision. Defined.

Definition is_blocking_recv (k : MsgKind) : bool := match k with Recv => true | _ => false end.
Definition is_send (k : MsgKind) : bool :=
  match k with Send | SendPersistent => true | _ => false end.

Record ChannelEvent := mkEvent { ce_kind : MsgKind; ce_channel : option string }.

Inductive ChannelFindingKind := OrphanSend | BlockedRecv | ChannelCycle.
#[global] Instance ChannelFindingKind_eq_dec : EqDecision ChannelFindingKind.
Proof. solve_decision. Defined.

Definition finding_kind_str (k : ChannelFindingKind) : string :=
  match k with
  | OrphanSend => "orphan_send"
  | BlockedRecv => "blocked_recv"
  | ChannelCycle => "channel_cycle"
  end.

(** The free text [detail] is determined by the kind and the channel; it is left
    out. *)
Record ChannelFinding := mkChannelFinding {
  cf_kind : ChannelFindingKind;
  cf_channel : option string;
  cf_processes : list Z;
  cf_waits : list (Z * string);
}.

Record ChannelTally := mkTally {
  t_senders : gset Z;
  t_linear : gset Z;
  t_persistent : gset Z;
}.

Definition tally_new : ChannelTally := mkTally ∅ ∅ ∅.
Definition any_receiver (t : ChannelTally) : bool :=
  negb (bool_decide (t_linear t = ∅)) || negb (bool_decide (t_persistent t = ∅)).

(** * Matching *)
Definition tally_kind (proc : Z) (k : MsgKind) (t : ChannelTally) : ChannelTally :=
  match k with
  | Send | SendPersistent => mkTally ({[proc]} ∪ t_senders t) (t_linear t) (t_persistent t)
  | Recv => mkTally (t_senders t) ({[proc]} ∪ t_linear t) (t_persistent t)
  | RecvPersistent => mkTally (t_senders t) (t_linear t) ({[proc]} ∪ t_persistent t)
  | Select | Spawn => t
  end.

Definition tally_event (proc : Z) (m : gmap string ChannelTally) (ev : ChannelEvent) :
    gmap string ChannelTally :=
  match ce_channel ev with
  | None => m
  | Some ch => <[ch := tally_kind proc (ce_kind ev) (default tally_new (m !! ch))]> m
  end.

Definition tally_channels (evs : list (Z * list ChannelEvent)) : gmap string ChannelTally :=
  foldl (fun m pe => foldl (tally_event pe.1) m pe.2) ∅ evs.

Definition sorted_procs (s : gset Z) : list Z := sort_by ord_cmp (elements s).

(** The findings of one channel. *)
Definition match_channel (ct : string * ChannelTally) : list ChannelFinding :=
  let '(ch, t) := ct in
  (if negb (bool_decide (t_senders t = ∅)) && negb (any_receiver t)
   then [mkChannelFinding OrphanSend (Some ch) (sorted_procs (t_senders t)) []] else []) ++
  (if negb (bool_decide (t_linear t = ∅)) && bool_decide (t_senders t = ∅)
   then [mkChannelFinding BlockedRecv (Some ch) (sorted_procs (t_linear t)) []] else []).

Definition cmp_channel (a b : ChannelFinding) : comparison := ord_cmp (cf_channel a) (cf_channel b).

Definition channel_matching (evs : list (Z * list ChannelEvent)) : list ChannelFinding :=
  sort_by cmp_channel (flat_map match_channel (map_to_list (tally_channels evs))).

(** * Cyclic wait *)

(** The first send or linear receive of a process, when it is a receive on a
    named channel. *)
Definition first_blocking (events : list ChannelEvent) : option string :=
  match find_first (fun e => is_send (ce_kind e) || is_blocking_recv (ce_kind e)) events with
  | Some ev => if is_blocking_recv (ce_kind ev) then ce_channel ev else None
  | None => None
  end.

Definition add_producer (proc : Z) (m : gmap string (list Z)) (ev : ChannelEvent) : gmap string (list Z) :=
  if is_send (ce_kind ev) then
    match ce_channel ev with
    | Some ch => <[ch := default [] (m !! ch) ++ [proc]]> m
    | None => m
    end
  else m.

(** [first_recv] and [producers]. *)
Definition scan_process (st : gmap Z string * gmap string (list Z)) (pe : Z * list ChannelEvent) :
    gmap Z string * gmap string (list Z) :=
  let '(proc, events) := pe in
  (match first_blocking events with Some ch => <[proc := ch]> st.1 | None => st.1 end,
   foldl (add_producer proc) st.2 events).

Record WaitGraph := mkWaitGraph {
  wg_idx : gmap Z nat;
  wg_graph : DiGraph Z;
  wg_waits : gmap (Z * Z) string;
}.

Definition add_wait (first_recv : gmap Z string) (p : Z) (ch : string) (st : WaitGraph) (q : Z) : WaitGraph :=
  if decide (q ≠ p ∧ is_Some (first_recv !! q)) then
    let '(idx, g) := link_nodes (wg_idx st) (wg_graph st) p q in
    mkWaitGraph idx g (<[(p, q) := ch]> (wg_waits st))
  else st.

Definition add_waits (first_recv : gmap Z string) (producers : gmap string (list Z)) (st : WaitGraph)
    (pc : Z * string) : WaitGraph :=
  let '(p, ch) := pc in
  match producers !! ch with
  | None => st
  | Some prods => foldl (add_wait first_recv p ch) st prods
  end.

(** The channel [p] waits on towards a member of the component. *)
Definition wait_towards (waits : gmap (Z * Z) string) (members : list Z) (p : Z) : list (Z * string) :=
  match find_first (fun e => bool_decide (e.1.1 = p) && bool_decide (e.1.2 ∈ members)) (map_to_list waits) with
  | Some (_, ch) => [(p, ch)]
  | None => []
  end.

Definition report_component (wg : WaitGraph) (acc : list ChannelFinding * list (list Z)) (scc : list nat) :
    outcome Empty_set (list ChannelFinding * list (list Z)) :=
  let '(out, seen) := acc in
  let* members := omapM (fun n => expect (g_nodes (wg_graph wg) !! n)) scc in
  let procs := sort_by ord_cmp members in
  if decide (procs ∈ seen) then Ok acc
  else
    Ok (out ++ [mkChannelFinding ChannelCycle None procs (flat_map (wait_towards (wg_waits wg) members) members)],
        procs :: seen).

Definition channel_cycles (pg : Petgraph Z) (evs : list (Z * list ChannelEvent)) :
    outcome Empty_set (list ChannelFinding) :=
  let '(first_recv, producers) := foldl scan_process (∅, ∅) evs in
  let wg := foldl (add_waits first_recv producers) (mkWaitGraph ∅ graph_new ∅) (map_to_list first_recv) in
  let* acc := ofold (report_component wg) ([], []) (find_cycles pg (wg_graph wg)) in
  Ok acc.1.

Definition analyze_channels (pg : Petgraph Z) (evs : list (Z * list ChannelEvent)) :
    outcome Empty_set (list ChannelFinding) :=
  let* out := channel_cycles pg evs in
  Ok (out ++ channel_matching evs).

(** * The specification of the matching *)

(** Process [p] has an event of a kind in [K] on channel [ch]. *)
Definition does (evs : list (Z * list ChannelEvent)) (K : MsgKind → Prop) (ch : string) (p : Z) : Prop :=
  ∃ events k, (p, events) ∈ evs ∧ mkEvent k (Some ch) ∈ events ∧ K k.

Definition sends (k : MsgKind) : Prop := k = Send ∨ k = SendPersistent.

Definition tally_is (t : ChannelTally) (S L P : Z → Prop) : Prop :=
  (∀ p, p ∈ t_senders t ↔ S p) ∧ (∀ p, p ∈ t_linear t ↔ L p) ∧ (∀ p, p ∈ t_persistent t ↔ P p).

(** Some event of the list is of a kind in [K] on the channel. *)
Definition has_event (K : MsgKind → Prop) (ch : string) (events : list ChannelEvent) : Prop :=
  ∃ k, mkEvent k (Some ch) ∈ events ∧ K k.

Lemma has_event_cons K ch k c events :
  has_event K ch (mkEvent k c :: events) ↔ (c = Some ch ∧ K k) ∨ has_event K ch events.
Proof.
  unfold has_event. split.
  - intros (k' & [[= -> <-]|Hin]%elem_of_cons & HK); [by left|right; eauto].
  - intros [[-> HK]|(k' & Hin & HK)]; eexists; (split; [|exact HK]); [by left|by right].
Qed.

Lemma does_snoc evs proc events K ch p :
  does (evs ++ [(proc, events)]) K ch p ↔ does evs K ch p ∨ (p = proc ∧ has_event K ch events).
Proof.
  unfold does, has_event. split.
  - intros (es & k & [Hin|Hin]%elem_of_app & Hev & HK); [left; by exists es, k|].
    apply list_elem_of_singleton in Hin as [= -> ->]. right. eauto.
  - intros [(es & k & Hin & Hev & HK)|[-> (k & Hev & HK)]].
    + exists es, k. split; [by apply elem_of_app; left|done].
    + exists events, k. split; [by apply elem_of_app; right; left|done].
Qed.

(** The tally of a channel after the events of one process. *)
Lemma tally_events proc events m ch :
  let t' := default tally_new (foldl (tally_event proc) m events !! ch) in
  let t := default tally_new (m !! ch) in
  (∀ p, p ∈ t_senders t' ↔ p ∈ t_senders t ∨ (p = proc ∧ has_event sends ch events)) ∧
  (∀ p, p ∈ t_linear t' ↔ p ∈ t_linear t ∨ (p = proc ∧ has_event (eq Recv) ch events)) ∧
  (∀ p, p ∈ t_persistent t' ↔ p ∈ t_persistent t ∨ (p = proc ∧ has_event (eq RecvPersistent) ch events)).
Proof.
  revert m. induction events as [|[k c] events IH]; intros m t' t.
  { assert (Hno : ∀ K, ¬ has_event K ch []) by (intros K (? & ?%elem_of_nil & _); done).
    split_and!; intros p; (split; [by left|]); (intros [?|[_ ?%Hno]]; done). }
  subst t'. simpl. destruct (IH (tally_event proc m (mkEvent k c))) as (I1 & I2 & I3).
  assert (Hstep : let t' := default tally_new (tally_event proc m (mkEvent k c) !! ch) in
    (∀ p, p ∈ t_senders t' ↔ p ∈ t_senders t ∨ (p = proc ∧ c = Some ch ∧ sends k)) ∧
    (∀ p, p ∈ t_linear t' ↔ p ∈ t_linear t ∨ (p = proc ∧ c = Some ch ∧ Recv = k)) ∧
    (∀ p, p ∈ t_persistent t' ↔ p ∈ t_persistent t ∨ (p = proc ∧ c = Some ch ∧ RecvPersistent = k))).
  { subst t. unfold tally_event, sends. simpl. destruct c as [c|]; [|naive_solver].
    destruct (decide (c = ch)) as [->|Hne].
    - rewrite lookup_insert_eq. simpl. destruct k; simpl; split_and!; intros p;
        rewrite ?elem_of_union, ?elem_of_singleton; naive_solver.
    - rewrite lookup_insert_ne by done. split_and!; intros p; naive_solver. }
  destruct Hstep as (S1 & S2 & S3).
  split_and!; intros p; [rewrite I1, S1|rewrite I2, S2|rewrite I3, S3]; rewrite has_event_cons; tauto.
Qed.

Lemma tally_channels_spec evs ch :
  tally_is (default tally_new (tally_channels evs !! ch))
    (does evs sends ch) (does evs (eq Recv) ch) (does evs (eq RecvPersistent) ch).
Proof.
  unfold tally_channels, tally_is. induction evs as [|[proc events] evs IH] using rev_ind.
  { assert (Hno : ∀ K p, ¬ does [] K ch p) by (intros K p (? & ? & ?%elem_of_nil & _); done).
    simpl. rewrite lookup_empty. simpl.
    split_and!; intros p; (split; [by intros ?%elem_of_empty|intros ?%Hno; done]). }
  rewrite foldl_snoc. simpl. destruct IH as (H1 & H2 & H3).
  destruct (tally_events proc events (foldl (fun m pe => foldl (tally_event pe.1) m pe.2) ∅ evs) ch) as (T1 & T2 & T3).
  split_and!; intros p; rewrite does_snoc; [rewrite T1, H1|rewrite T2, H2|rewrite T3, H3]; done.
Qed.

(** A list is the increasing list of the processes with a property. *)
Definition lists_procs (procs : list Z) (P : Z → Prop) : Prop :=
  StronglySorted ord_lt procs ∧ ∀ p, p ∈ procs ↔ P p.

Lemma sorted_procs_spec s P : (∀ p, p ∈ s ↔ P p) → lists_procs (sorted_procs s) P.
Proof.
  intros H. split; [apply sort_by_sorted, NoDup_elements|]. intros p. unfold sorted_procs.
  by rewrite sort_by_perm, elem_of_elements.
Qed.

Lemma set_nonempty_spec (s : gset Z) P : (∀ p, p ∈ s ↔ P p) →
  negb (bool_decide (s = ∅)) = true ↔ ∃ p, P p.
Proof.
  intros H. rewrite negb_true_iff, bool_decide_eq_false. split.
  - intros Hne. apply set_choose_L in Hne as [p Hp]. exists p. by apply H.
  - intros [p Hp] E. apply H in Hp. set_solver.
Qed.

(** What [channel_matching] reports of a channel. *)
Definition matching_finding (evs : list (Z * list ChannelEvent)) (f : ChannelFinding) : Prop :=
  ∃ ch, cf_channel f = Some ch ∧ cf_waits f = [] ∧
  ((cf_kind f = OrphanSend ∧ lists_procs (cf_processes f) (does evs sends ch) ∧
    (∃ p, does evs sends ch p) ∧ ∀ p, ¬ does evs (eq Recv) ch p ∧ ¬ does evs (eq RecvPersistent) ch p) ∨
   (cf_kind f = BlockedRecv ∧ lists_procs (cf_processes f) (does evs (eq Recv) ch) ∧
    (∃ p, does evs (eq Recv) ch p) ∧ ∀ p, ¬ does evs sends ch p)).

Lemma lists_procs_inj ps qs P : lists_procs ps P → lists_procs qs P → ps = qs.
Proof. intros [H1 H2] [H3 H4]. apply sorted_ext; [done..|]. intros p. by rewrite H2, H4. Qed.

Lemma empty_spec (s : gset Z) P : (∀ p, p ∈ s ↔ P p) → bool_decide (s = ∅) = true ↔ ∀ p, ¬ P p.
Proof.
  intros H. rewrite bool_decide_eq_true. split; [intros -> p Hp; apply H in Hp; set_solver|].
  intros Hn. apply set_eq. intros p. rewrite H. set_solver.
Qed.

Lemma elem_of_match_channel evs ch t f :
  tally_is t (does evs sends ch) (does evs (eq Recv) ch) (does evs (eq RecvPersistent) ch) →
  f ∈ match_channel (ch, t) ↔ matching_finding evs f ∧ cf_channel f = Some ch.
Proof.
  intros (HS & HL & HP). unfold match_channel, any_receiver.
  rewrite elem_of_app.
  pose proof (set_nonempty_spec _ _ HS) as NS. pose proof (set_nonempty_spec _ _ HL) as NL.
  pose proof (empty_spec _ _ HS) as ES. pose proof (empty_spec _ _ HL) as EL. pose proof (empty_spec _ _ HP) as EP.
  assert (Hif : ∀ (b : bool) x, f ∈ (if b then [x] else []) ↔ b = true ∧ f = x).
  { intros [] x; [rewrite list_elem_of_singleton; naive_solver|set_solver]. }
  rewrite !Hif, !andb_true_iff, negb_orb, !andb_true_iff, !negb_involutive, NS, NL, ES, EL, EP.
  unfold matching_finding. split.
  - intros [((H1 & H2 & H3) & ->)|((H1 & H2) & ->)]; simpl; (split; [|done]); exists ch; (split_and!; [done..|]).
    + left. split_and!; [done|by apply sorted_procs_spec|done|]. intros p. by split.
    + right. split_and!; [done|by apply sorted_procs_spec|done|done].
  - intros [(ch' & Hch & Hw & Hcase) Hch']. assert (ch' = ch) as -> by congruence.
    destruct f as [kind chan procs waits]. simpl in *. subst.
    destruct Hcase as [(-> & Hp & H1 & H2)|(-> & Hp & H1 & H2)].
    + left. split; [split; [done|]; split; intros p; apply H2|]. f_equal.
      eapply lists_procs_inj; [done|by apply sorted_procs_spec].
    + right. split; [by split|]. f_equal.
      eapply lists_procs_inj; [done|by apply sorted_procs_spec].
Qed.

(** A channel has at most one matching finding, about itself. *)
Lemma match_channel_one ch t :
  match_channel (ch, t) = [] ∨ ∃ f, match_channel (ch, t) = [f] ∧ cf_channel f = Some ch.
Proof.
  unfold match_channel. destruct (bool_decide (t_senders t = ∅)); simpl; rewrite ?andb_true_r, ?andb_false_r.
  - destruct (negb _); simpl; eauto.
  - destruct (negb _); simpl; eauto.
Qed.

Lemma match_channels_NoDup (l : list (string * ChannelTally)) : NoDup (l.*1) →
  NoDup (map cf_channel (flat_map match_channel l)).
Proof.
  assert (Hsub : ∀ (l : list (string * ChannelTally)) c, c ∈ map cf_channel (flat_map match_channel l) → ∃ ch, c = Some ch ∧ ch ∈ l.*1).
  { clear. intros l c (f & -> & Hf)%list_elem_of_fmap. apply list_elem_of_In, in_flat_map in Hf as ([ch t] & Hin & Hf).
    apply list_elem_of_In in Hin, Hf. exists ch.
    destruct (match_channel_one ch t) as [E|(f' & E & Hc)]; rewrite E in Hf; [set_solver|].
    apply list_elem_of_singleton in Hf as ->. split; [done|]. apply list_elem_of_fmap. by exists (ch, t). }
  induction l as [|[ch t] l IH]; intros Hnd; [constructor|].
  rewrite fmap_cons in Hnd. apply NoDup_cons in Hnd as [Hch Hnd].
  change (flat_map match_channel ((ch, t) :: l)) with (match_channel (ch, t) ++ flat_map match_channel l).
  rewrite map_app. destruct (match_channel_one ch t) as [->|(f & -> & Hf)]; simpl; [by apply IH|].
  constructor; [|by apply IH]. rewrite Hf. intros (ch' & [= <-] & Hin)%Hsub. done.
Qed.

(** C39: the channel matching is exact.  Channels come in increasing order, each
    at most once; an orphan send is reported for exactly the channels somebody
    sends to and nobody receives from, linearly or persistently, with the
    increasing list of all senders, and a blocked receive for exactly the
    channels with a linear receiver and no sender, with all linear receivers. *)
Theorem channel_matching_exact evs :
  StronglySorted (fun a b => ord_lt (cf_channel a) (cf_channel b)) (channel_matching evs) ∧
  ∀ f, f ∈ channel_matching evs ↔ matching_finding evs f.
Proof.
  split.
  - apply (sort_by_key_sorted cf_channel), match_channels_NoDup, NoDup_fst_map_to_list.
  - intros f. unfold channel_matching. rewrite sort_by_perm, list_elem_of_In, in_flat_map. split.
    + intros ([ch t] & Hin & Hf). apply list_elem_of_In in Hin, Hf. apply elem_of_map_to_list in Hin.
      pose proof (tally_channels_spec evs ch) as Ht. rewrite Hin in Ht.
      by apply (elem_of_match_channel evs) in Hf as [? _].
    + intros Hf. pose proof Hf as (ch & Hch & _). pose proof (tally_channels_spec evs ch) as Ht.
      destruct (tally_channels evs !! ch) as [t|] eqn:E.
      * exists (ch, t). rewrite <- !list_elem_of_In, elem_of_map_to_list. split; [done|].
        by apply (elem_of_match_channel evs).
      * exfalso. simpl in Ht. assert (Hin : f ∈ match_channel (ch, tally_new)) by (by apply (elem_of_match_channel evs)).
        vm_compute in Hin. set_solver.
Qed.

(** * The specification of the cyclic wait *)

(** The process starts by waiting on the channel: its first send or linear
    receive is a receive on it. *)
Definition starts_blocked (events : list ChannelEvent) (ch : string) : Prop :=
  ∃ pre post, events = pre ++ mkEvent Recv (Some ch) :: post ∧
    Forall (fun e => is_send (ce_kind e) = false ∧ is_blocking_recv (ce_kind e) = false) pre.

Definition blocked (evs : list (Z * list ChannelEvent)) (p : Z) (ch : string) : Prop :=
  ∃ events, (p, events) ∈ evs ∧ starts_blocked events ch.

(** [p] starts blocked on a channel that [q], blocked as well, sends on. *)
Definition waits_for (evs : list (Z * list ChannelEvent)) (p q : Z) : Prop :=
  p ≠ q ∧ ∃ ch ch', blocked evs p ch ∧ does evs sends ch q ∧ blocked evs q ch'.

Lemma first_blocking_spec events ch : first_blocking events = Some ch ↔ starts_blocked events ch.
Proof.
  unfold first_blocking, starts_blocked, find_first. induction events as [|[k c] events IH]; simpl.
  { split; [done|]. intros (pre & post & E & _). by destruct pre. }
  destruct (is_send k || is_blocking_recv k) eqn:Ek; simpl.
  - split.
    + destruct k; simpl in *; try done. intros ->. exists [], events. split; [done|constructor].
    + intros (pre & post & E & Hpre). destruct pre as [|e pre]; simplify_eq/=; [done|].
      inversion Hpre as [|? ? [H1 H2]]; subst. simpl in *. rewrite H1, H2 in Ek. done.
  - apply orb_false_iff in Ek as [E1 E2]. rewrite IH. split.
    + intros (pre & post & -> & Hpre). exists (mkEvent k c :: pre), post. split; [done|]. by constructor.
    + intros (pre & post & E & Hpre). destruct pre as [|e pre]; simplify_eq/=.
      exists pre, post. split; [done|]. by inversion Hpre.
Qed.

Lemma add_producers proc events m ch q :
  q ∈ default [] (foldl (add_producer proc) m events !! ch) ↔
  q ∈ default [] (m !! ch) ∨ (q = proc ∧ has_event sends ch events).
Proof.
  revert m. induction events as [|[k c] events IH]; intros m; simpl.
  { split; [by left|]. intros [?|[_ (k & Hin%elem_of_nil & _)]]; done. }
  rewrite IH, has_event_cons. unfold add_producer. simpl.
  destruct (is_send k) eqn:Ek.
  - assert (Hs : sends k) by (destruct k; try done; [by left|by right]).
    destruct c as [c|]; [|naive_solver]. destruct (decide (c = ch)) as [->|Hne].
    + rewrite lookup_insert_eq. simpl. rewrite elem_of_app, list_elem_of_singleton. naive_solver.
    + rewrite lookup_insert_ne by done. naive_solver.
  - assert (Hs : ¬ sends k) by (intros [->| ->]; done). tauto.
Qed.

(** [first_recv] and [producers] after the scan. *)
Lemma scan_spec evs : NoDup (evs.*1) →
  (∀ p ch, (foldl scan_process (∅, ∅) evs).1 !! p = Some ch ↔ blocked evs p ch) ∧
  (∀ ch q, q ∈ default [] ((foldl scan_process (∅, ∅) evs).2 !! ch) ↔ does evs sends ch q).
Proof.
  induction evs as [|[proc events] evs IH] using rev_ind; intros Hnd.
  { simpl. split.
    - intros p ch. rewrite lookup_empty. split; [done|]. intros (? & ?%elem_of_nil & _). done.
    - intros ch q. rewrite lookup_empty. split; [by intros ?%elem_of_nil|].
      intros (? & ? & ?%elem_of_nil & _). done. }
  rewrite fmap_app in Hnd. apply NoDup_app in Hnd as (Hnd & Hnew & _).
  rewrite foldl_snoc. destruct (IH Hnd) as [H1 H2].
  destruct (foldl scan_process (∅, ∅) evs) as [fr pr]. simpl in *. split.
  - intros p ch. assert (Hsplit : blocked (evs ++ [(proc, events)]) p ch ↔
      blocked evs p ch ∨ (p = proc ∧ starts_blocked events ch)).
    { unfold blocked. split.
      - intros (es & [Hin|Hin%list_elem_of_singleton]%elem_of_app & Hb); [left; eauto|]. simplify_eq. by right.
      - intros [(es & Hin & Hb)|[-> Hb]]; [exists es|exists events]; (split; [|done]); set_solver. }
    rewrite Hsplit, <- H1. rewrite <- first_blocking_spec.
    assert (Hfresh : fr !! proc = None).
    { apply eq_None_not_Some. intros [c Hc]. apply H1 in Hc as (es & Hin & _).
      apply (Hnew proc); [|set_solver]. by apply (list_elem_of_fmap_2 fst) in Hin. }
    destruct (first_blocking events) as [c|].
    + rewrite lookup_insert_Some. destruct (decide (proc = p)) as [->|Hne]; [rewrite Hfresh; naive_solver|].
      naive_solver.
    + naive_solver.
  - intros ch q. rewrite add_producers, H2. by rewrite does_snoc.
Qed.

Section wait_graph.
Context (fr : gmap Z string) (pr : gmap string (list Z)).

(** An edge of the wait-for graph. *)
Definition waits (p q : Z) : Prop :=
  p ≠ q ∧ ∃ ch, fr !! p = Some ch ∧ q ∈ default [] (pr !! ch) ∧ is_Some (fr !! q).

Record wait_inv (st : WaitGraph) (R : Z → Z → Prop) : Prop := {
  wi_labelled : labelled (wg_idx st) (wg_graph st) R;
  wi_waits : ∀ p q ch, wg_waits st !! (p, q) = Some ch ↔ R p q ∧ fr !! p = Some ch;
}.

Lemma wait_inv_ext st (R S : Z → Z → Prop) : (∀ p q, R p q ↔ S p q) → wait_inv st R → wait_inv st S.
Proof.
  intros HRS [H1 H2]. split; [by eapply labelled_ext|]. intros p q ch. by rewrite H2, HRS.
Qed.

Lemma add_wait_inv st R p ch q : fr !! p = Some ch → wait_inv st R →
  wait_inv (add_wait fr p ch st q)
    (fun x y => R x y ∨ (x = p ∧ y = q ∧ q ≠ p ∧ is_Some (fr !! q))).
Proof.
  intros Hp Hinv. unfold add_wait. case_decide as Hd.
  - destruct Hinv as [H1 H2]. destruct (link_nodes _ _ p q) as [idx g] eqn:El. split; simpl.
    + eapply labelled_ext; [|by eapply link_nodes_labelled]. intros x y. simpl. naive_solver.
    + intros x y c. rewrite lookup_insert_Some, H2. destruct (decide ((p, q) = (x, y))); naive_solver.
  - eapply wait_inv_ext; [|exact Hinv]. naive_solver.
Qed.

Lemma add_wait_all st R p ch qs : fr !! p = Some ch → wait_inv st R →
  wait_inv (foldl (add_wait fr p ch) st qs)
    (fun x y => R x y ∨ (x = p ∧ y ∈ qs ∧ y ≠ p ∧ is_Some (fr !! y))).
Proof.
  intros Hp. revert st R. induction qs as [|q qs IH]; intros st R Hinv; simpl.
  { eapply wait_inv_ext; [|exact Hinv]. set_solver. }
  eapply wait_inv_ext; [|by apply IH, add_wait_inv]. intros x y. simpl. rewrite elem_of_cons. naive_solver.
Qed.

Lemma add_waits_all st R pcs : (∀ p ch, (p, ch) ∈ pcs → fr !! p = Some ch) → wait_inv st R →
  wait_inv (foldl (add_waits fr pr) st pcs)
    (fun x y => R x y ∨ (waits x y ∧ ∃ ch, (x, ch) ∈ pcs)).
Proof.
  revert st R. induction pcs as [|[p ch] pcs IH]; intros st R Hpcs Hinv; simpl.
  { eapply wait_inv_ext; [|exact Hinv]. set_solver. }
  assert (Hp : fr !! p = Some ch) by (apply Hpcs; by left).
  assert (Hone : wait_inv (add_waits fr pr st (p, ch)) (fun x y => R x y ∨ (waits x y ∧ x = p))).
  { unfold add_waits. destruct (pr !! ch) as [qs|] eqn:Eq.
    - eapply wait_inv_ext; [|by apply add_wait_all]. intros x y. simpl. unfold waits. split.
      + intros [?|(-> & Hin & Hne & Hs)]; [by left|]. right. split; [|done]. split; [done|].
        exists ch. by rewrite Eq.
      + intros [?|[(Hne & c & Hc & Hin & Hs) ->]]; [by left|]. simplify_eq. rewrite Eq in Hin. by right.
    - eapply wait_inv_ext; [|exact Hinv]. intros x y. split; [by left|].
      intros [?|[(Hne & c & Hc & Hin & Hs) ->]]; [done|]. simplify_eq. rewrite Eq in Hin. set_solver. }
  eapply wait_inv_ext; [|apply IH; [|exact Hone]; intros; apply Hpcs; by right].
  intros x y. simpl. setoid_rewrite elem_of_cons. split.
  - intros [[?|[? ->]]|(? & c & ?)]; [by left|right; split; [done|]; eauto|right; split; [done|]; eauto].
  - intros [?|[? (c & [[= -> ->]|?])]]; [by left; left|by left; right|right; split; [done|]; eauto].
Qed.

Definition wait_graph : WaitGraph :=
  foldl (add_waits fr pr) (mkWaitGraph ∅ graph_new ∅) (map_to_list fr).

Lemma wait_graph_inv : wait_inv wait_graph waits.
Proof.
  eapply wait_inv_ext; [|apply (add_waits_all _ (fun _ _ => False))].
  - intros p q. simpl. split; [intros [[]|[? _]]; done|]. intros Hw. right. split; [done|].
    destruct Hw as (_ & ch & Hch & _). exists ch. by apply elem_of_map_to_list.
  - intros p ch Hin. by apply elem_of_map_to_list.
  - split; simpl; [apply labelled_new|]. intros p q ch. rewrite lookup_empty. naive_solver.
Qed.

(** The wait of a member towards the component. *)
Lemma wait_towards_spec members p x : (∃ q, q ∈ members ∧ waits p q) →
  x ∈ wait_towards (wg_waits wait_graph) members p ↔ ∃ ch, fr !! p = Some ch ∧ x = (p, ch).
Proof.
  intros (q & Hq & Hw). unfold wait_towards, find_first.
  pose proof (wi_waits _ _ wait_graph_inv) as Hwaits.
  destruct (List.find _ _) as [[[p' q'] ch]|] eqn:Ef.
  - apply List.find_some in Ef as [Hin%list_elem_of_In Ht]. apply elem_of_map_to_list in Hin.
    apply Hwaits in Hin as [_ Hch]. rewrite andb_true_iff, !bool_decide_eq_true in Ht. simpl in Ht.
    destruct Ht as [-> _]. rewrite list_elem_of_singleton. naive_solver.
  - exfalso. pose proof Hw as (_ & ch & Hch & _).
    assert (Hin : List.In ((p, q), ch) (map_to_list (wg_waits wait_graph))).
    { apply list_elem_of_In, elem_of_map_to_list, Hwaits. done. }
    apply (List.find_none _ _ Ef) in Hin. simpl in Hin. by rewrite !bool_decide_eq_true_2 in Hin.
Qed.
End wait_graph.

(** A reported cycle: processes that all wait, directly or not, for one another. *)
Definition cycle_finding (W : Z → Z → Prop) (B : Z → string → Prop) (f : ChannelFinding) : Prop :=
  cf_kind f = ChannelCycle ∧ cf_channel f = None ∧ StronglySorted ord_lt (cf_processes f) ∧
  2 ≤ length (cf_processes f) ∧
  (∀ p, p ∈ cf_processes f → ∃ q, q ∈ cf_processes f ∧ W p q) ∧
  (∀ p q, p ∈ cf_processes f → q ∈ cf_processes f → rtc W p q) ∧
  (∀ p ch, (p, ch) ∈ cf_waits f ↔ p ∈ cf_processes f ∧ B p ch).

Section cycles.
Context (pg : Petgraph Z) `{!PetgraphLaws pg} (fr : gmap Z string) (pr : gmap string (list Z)).
#[local] Notation wg := (wait_graph fr pr).
#[local] Notation g := (wg_graph wg).
#[local] Notation W := (waits fr pr).
#[local] Notation real := (cycle_finding W (fun p ch => fr !! p = Some ch)).

Lemma wg_labelled : labelled (wg_idx wg) g W.
Proof. apply (wi_labelled _ _ _ (wait_graph_inv fr pr)). Qed.

Definition proc_of (n : nat) (p : Z) : Prop := g_nodes g !! n = Some p.

Lemma proc_of_inj n n' p : proc_of n p → proc_of n' p → n = n'.
Proof. unfold proc_of. intros H1 H2. apply (lb_idx _ _ _ wg_labelled) in H1, H2. congruence. Qed.

(** The members of a component. *)
Lemma component_members scc : scc ∈ find_cycles pg g →
  ∃ members, Forall2 proc_of scc members ∧ NoDup members ∧ 2 ≤ length members ∧
    (∀ p, p ∈ members → ∃ q, q ∈ members ∧ W p q) ∧
    (∀ p q, p ∈ members → q ∈ members → rtc W p q).
Proof using PetgraphLaws0.
  intros [Hlen Hscc]%list_elem_of_filter. pose proof (labelled_ok _ _ _ wg_labelled) as Hok.
  pose proof (scc_distinct g scc Hok Hscc) as Hnd.
  assert (∃ members, Forall2 proc_of scc members) as [members HF].
  { pose proof (scc_bound g scc) as Hb.
    assert (Hin : ∀ n, n ∈ scc → ∃ p, proc_of n p).
    { intros n Hn. apply lookup_lt_is_Some_2. by eapply Hb. }
    clear -Hin. induction scc as [|n scc IH]; [exists []; constructor|].
    destruct (Hin n) as [p Hp]; [by left|]. destruct IH as [ms Hms]; [intros; apply Hin; by right|].
    exists (p :: ms). by constructor. }
  assert (Hmem : ∀ p, p ∈ members → ∃ n, n ∈ scc ∧ proc_of n p).
  { intros p [i Hi]%list_elem_of_lookup. destruct (Forall2_lookup_r _ _ _ _ _ HF Hi) as (n & Hn & Hp).
    exists n. split; [by apply list_elem_of_lookup_2 in Hn|done]. }
  assert (Hof : ∀ n, n ∈ scc → ∃ p, p ∈ members ∧ proc_of n p).
  { intros n [i Hi]%list_elem_of_lookup. destruct (Forall2_lookup_l _ _ _ _ _ HF Hi) as (p & Hp & Hnp).
    exists p. split; [by apply list_elem_of_lookup_2 in Hp|done]. }
  assert (Hmut : ∀ u v, u ∈ scc → v ∈ scc → mutual g u v).
  { intros u v Hu Hv. apply (scc_mutual g scc u v Hok Hscc Hu); [by eapply scc_bound|done]. }
  exists members. split_and!; [done| |rewrite <- (Forall2_length _ _ _ HF); lia| |].
  - apply NoDup_alt. intros i j p Hi Hj. destruct (Forall2_lookup_r _ _ _ _ _ HF Hi) as (n & Hn & Hp).
    destruct (Forall2_lookup_r _ _ _ _ _ HF Hj) as (n' & Hn' & Hp').
    rewrite (proc_of_inj n n' p) in Hn by done. by eapply NoDup_lookup.
  - intros p (u & Hu & Hp)%Hmem.
    assert (∃ v, v ∈ scc ∧ v ≠ u) as (v & Hv & Hne).
    { destruct scc as [|a [|b scc]]; simpl in *; [lia|lia|].
      apply NoDup_cons in Hnd as [Ha _]. destruct (decide (a = u)) as [->|]; [|exists a; set_solver].
      exists b. split; [set_solver|]. intros ->. apply Ha. by left. }
    destruct (Hmut u v Hu Hv) as [Huv Hvu].
    apply rtc_inv in Huv as [->|(w & Huw & Hwv)]; [done|].
    assert (Hw : w ∈ scc).
    { apply (scc_mutual g scc u w Hok Hscc Hu); [by apply (Hok u w)|]. split; [by apply rtc_once|].
      by etransitivity. }
    destruct (Hof w Hw) as (q & Hq & Hwq). exists q. split; [done|].
    apply (lb_edge _ _ _ wg_labelled) in Huw as (a & b & HW & Ha & Hb). unfold proc_of in *. congruence.
  - intros p q (u & Hu & Hp)%Hmem (v & Hv & Hq)%Hmem. destruct (Hmut u v Hu Hv) as [Huv _].
    destruct (labelled_rtc _ _ _ _ _ _ wg_labelled Hp Huv) as (b & Hb & Hr).
    unfold proc_of in *. by simplify_eq.
Qed.

Lemma component_real scc members : Forall2 proc_of scc members → NoDup members → 2 ≤ length members →
  (∀ p, p ∈ members → ∃ q, q ∈ members ∧ W p q) →
  (∀ p q, p ∈ members → q ∈ members → rtc W p q) →
  real (mkChannelFinding ChannelCycle None (sort_by ord_cmp members)
          (flat_map (wait_towards (wg_waits wg) members) members)).
Proof.
  intros HF Hnd Hlen Hnext Hall. unfold cycle_finding.
  cbn [cf_kind cf_channel cf_processes cf_waits]. split_and!; [done|done|by apply sort_by_sorted| | | |].
  - by rewrite sort_by_perm.
  - intros p. setoid_rewrite sort_by_perm. apply Hnext.
  - intros p q. setoid_rewrite sort_by_perm. apply Hall.
  - intros p ch. rewrite sort_by_perm, list_elem_of_In, in_flat_map. split.
    + intros (p' & Hp' & Hin). apply list_elem_of_In in Hp', Hin.
      apply wait_towards_spec in Hin as (c & Hc & [= -> ->]); [done|by apply Hnext].
    + intros [Hp Hc]. exists p. rewrite <- !list_elem_of_In. split; [done|].
      apply wait_towards_spec; [by apply Hnext|]. eauto.
Qed.

Lemma report_components sccs out seen : sccs ⊆ find_cycles pg g → Forall real out →
  (∀ ps, ps ∈ seen → ∃ f, f ∈ out ∧ cf_processes f = ps) →
  ∃ acc, ofold (report_component wg) (out, seen) sccs = Ok acc ∧ Forall real acc.1 ∧
    (∀ f, f ∈ out → f ∈ acc.1) ∧
    (∀ scc n p, scc ∈ sccs → n ∈ scc → proc_of n p → ∃ f, f ∈ acc.1 ∧
       ∀ n' p', n' ∈ scc → proc_of n' p' → p' ∈ cf_processes f).
Proof using PetgraphLaws0.
  revert out seen. induction sccs as [|scc sccs IH]; intros out seen Hsub Hout Hseen; simpl.
  { exists (out, seen). split_and!; [done..|]. set_solver. }
  destruct (component_members scc) as (members & HF & Hnd & Hlen & Hnext & Hall); [set_solver|].
  assert (Ek : omapM (E := Empty_set) (fun n => expect (g_nodes g !! n)) scc = Ok members).
  { apply omapM_Ok. eapply Forall2_impl; [exact HF|]. intros n p Hn. simpl. by rewrite Hn. }
  assert (Hin : ∀ n p, n ∈ scc → proc_of n p → p ∈ sort_by ord_cmp members).
  { intros n p [i Hi]%list_elem_of_lookup Hp. rewrite sort_by_perm.
    destruct (Forall2_lookup_l _ _ _ _ _ HF Hi) as (p' & Hp' & Hn). unfold proc_of in *. simplify_eq.
    by apply list_elem_of_lookup_2 in Hp'. }
  unfold report_component at 1. rewrite Ek. cbn [obind]. case_decide as Hs; cbn [obind].
  - destruct (IH out seen) as (acc & E & Hr & Hm & Hc); [set_solver|done..|]. exists acc.
    split_and!; [done..|]. intros scc' n p [->|Hscc']%elem_of_cons Hn Hp; [|by eapply Hc].
    destruct (Hseen _ Hs) as (f & Hf & Hps). exists f. split; [by apply Hm|]. rewrite Hps. eauto.
  - set (f := mkChannelFinding _ _ _ _).
    destruct (IH (out ++ [f]) (sort_by ord_cmp members :: seen)) as (acc & E & Hr & Hm & Hc); [set_solver| | |].
    { apply Forall_app. split; [done|]. constructor; [|done]. by eapply component_real. }
    { intros ps [->|Hps]%elem_of_cons; [exists f; set_solver|].
      destruct (Hseen _ Hps) as (f' & ? & ?). exists f'. set_solver. }
    exists acc. split_and!; [done|done|set_solver|].
    intros scc' n p [->|Hscc']%elem_of_cons Hn Hp; [|by eapply Hc].
    exists f. split; [apply Hm; set_solver|]. eauto.
Qed.

Lemma cycles_complete p q : p ≠ q → rtc W p q → rtc W q p →
  ∃ scc i j, scc ∈ find_cycles pg g ∧ i ∈ scc ∧ j ∈ scc ∧ proc_of i p ∧ proc_of j q.
Proof using PetgraphLaws0.
  intros Hne Hpq Hqp. pose proof (labelled_ok _ _ _ wg_labelled) as Hok.
  assert (∃ i, wg_idx wg !! p = Some i) as [i Hi].
  { apply rtc_inv in Hpq as [->|(y & Hy & _)]; [done|].
    by destruct (lb_node _ _ _ wg_labelled _ _ Hy) as [? _]. }
  destruct (labelled_rtc_inv _ _ _ _ _ _ wg_labelled Hpq Hi) as (j & Hj & Hij).
  destruct (labelled_rtc_inv _ _ _ _ _ _ wg_labelled Hqp Hj) as (i' & Hi' & Hji). simplify_eq.
  assert (Hpi : proc_of i p) by (by apply (lb_idx _ _ _ wg_labelled)).
  assert (Hqj : proc_of j q) by (by apply (lb_idx _ _ _ wg_labelled)).
  destruct (scc_nodes g i Hok) as (scc & Hscc & Hin); [by eapply lookup_lt_Some|].
  assert (Hjn : j ∈ scc).
  { apply (scc_mutual g scc i j Hok Hscc Hin); [by eapply lookup_lt_Some|by split]. }
  exists scc, i, j. split_and!; [|done..]. apply list_elem_of_filter. split; [|done].
  assert (length [i; j] ≤ length scc); [|simpl in *; lia].
  apply submseteq_length, NoDup_submseteq; [|set_solver].
  constructor; [|apply NoDup_singleton]. rewrite list_elem_of_singleton. intros ->.
  unfold proc_of in *. congruence.
Qed.
End cycles.

(** C25: the wait-for cycles are exact.  For every program whose processes are
    listed once, the analysis returns; every reported set has at least two
    processes, each of which starts blocked on a channel that another member,
    blocked as well, sends on, all of them wait for one another, and the
    recorded waits are the channels the members are blocked on; and two
    processes that wait for one another, directly or not, are in one reported
    set. *)
Theorem channel_cycles_exact (pg : Petgraph Z) `{!PetgraphLaws pg} evs :
  NoDup (evs.*1) →
  ∃ out, channel_cycles pg evs = Ok out ∧ Forall (cycle_finding (waits_for evs) (blocked evs)) out ∧
    ∀ p q, p ≠ q → rtc (waits_for evs) p q → rtc (waits_for evs) q p →
      ∃ f, f ∈ out ∧ p ∈ cf_processes f ∧ q ∈ cf_processes f.
Proof.
  intros Hnd. unfold channel_cycles. destruct (scan_spec evs Hnd) as [Hfr Hpr].
  destruct (foldl scan_process (∅, ∅) evs) as [fr pr]. simpl in Hfr, Hpr.
  assert (HW : ∀ p q, waits fr pr p q ↔ waits_for evs p q).
  { intros p q. unfold waits, waits_for, is_Some. setoid_rewrite Hfr. setoid_rewrite Hpr. naive_solver. }
  assert (HR : ∀ p q, rtc (waits fr pr) p q ↔ rtc (waits_for evs) p q).
  { intros p q. split; apply rtc_subrel; intros x y; apply HW. }
  fold (wait_graph fr pr).
  destruct (report_components pg fr pr (find_cycles pg (wg_graph (wait_graph fr pr))) [] [])
    as (acc & -> & Hreal & _ & Hcomp); [done|constructor|set_solver|].
  exists acc.1. split_and!; [done| |].
  - eapply Forall_impl; [exact Hreal|]. intros f (H1 & H2 & H3 & H4 & H5 & H6 & H7).
    split_and!; [done..| | |].
    + intros p Hp. destruct (H5 p Hp) as (q & Hq & Hw). exists q. split; [done|]. by apply HW.
    + intros p q Hp Hq. by apply HR, H6.
    + intros p ch. by rewrite H7, Hfr.
  - intros p q Hne Hpq%HR Hqp%HR.
    destruct (cycles_complete pg fr pr p q Hne Hpq Hqp) as (scc & i & j & Hscc & Hi & Hj & Hpi & Hqj).
    destruct (Hcomp scc i p Hscc Hi Hpi) as (f & Hf & Hall). exists f.
    split_and!; [done|by apply (Hall i p)|by apply (Hall j q)].
Qed.

Definition recv_then_send (p : Z) (c d : string) : Z * list ChannelEvent :=
  (p, [mkEvent Recv (Some c); mkEvent Send (Some d)]).
Definition mutual_recv : list (Z * list ChannelEvent) :=
  [recv_then_send 1%Z "c1" "c2"; recv_then_send 2%Z "c2" "c1"].

Lemma channel_cycles_exact_witness :
  ∃ out, channel_cycles list_petgraph mutual_recv = Ok out ∧
    Forall (cycle_finding (waits_for mutual_recv) (blocked mutual_recv)) out.
Proof.
  destruct (channel_cycles_exact list_petgraph mutual_recv) as (out & E & H & _); [|by exists out].
  by apply (bool_decide_unpack _); vm_compute.
Defined.

(** A reported communication deadlock may not be one.  When a third process
    sends first on one of the channels, the first two are not stuck, but the
    same cycle is reported: the search does not ask whether every producer of
    the channel is blocked. *)
Theorem unblocked_producer_ignored :
  channel_cycles list_petgraph (mutual_recv ++ [(3%Z, [mkEvent Send (Some "c1")])]) =
    Ok [mkChannelFinding ChannelCycle None [1; 2]%Z [(2%Z, "c2"); (1%Z, "c1")]] ∧
  does (mutual_recv ++ [(3%Z, [mkEvent Send (Some "c1")])]) sends "c1" 3%Z ∧
  ∀ ch, ¬ blocked (mutual_recv ++ [(3%Z, [mkEvent Send (Some "c1")])]) 3%Z ch.
Proof.
  split_and!.
  - vm_compute. reflexivity.
  - exists [mkEvent Send (Some "c1")], Send. split_and!; [set_solver|set_solver|by left].
  - intros ch (events & Hin & Hb). unfold mutual_recv, recv_then_send in Hin. simpl in Hin.
    rewrite !elem_of_cons in Hin. destruct Hin as [?|[?|[[= ->]|Hin]]]; [done..| |set_solver].
    apply first_blocking_spec in Hb. done.
Qed.
