(* ===== verification/HealthWatchdog.v ===== *)
(** The disk and memory watchdogs ([src/src/health/watchdog.rs]) with the
    pressure flags they write ([disk_pressure.rs], [memory_pressure.rs]) and the
    readings they fold ([fs.rs]).

    One poll of a watchdog is a function of the configuration and of the reading
    on its state; the atomics have one writer, so a poll sees what the last one
    wrote.  A [u64] is a [Z] below [2^64]: a plain [+] and a [<<] wrap. *)

From Stdlib Require Import ZifyBool.
From stdpp Require Import base numbers strings sets list.
From S2P Require Import Prelude Numbers.
#[local] Open Scope Z_scope.

(** * Readings *)
Record FsAvail := mkAvail { avail_bytes : Z; avail_inodes : Z }.
#[global] Instance FsAvail_eq_dec : EqDecision FsAvail.
Proof. solve_decision. Defined.

(** [FsAvail::min] *)
Definition fs_min (a b : FsAvail) : FsAvail :=
  mkAvail (Z.min (avail_bytes a) (avail_bytes b)) (Z.min (avail_inodes a) (avail_inodes b)).

(** [min_avail]: [filter_map] then [reduce], over what [statvfs] returned for
    each watched path. *)
Definition min_avail (readings : list (option FsAvail)) : option FsAvail :=
  match omap id readings with
  | [] => None
  | a :: rest => Some (foldl fs_min a rest)
  end.

(** * Decisions *)
Inductive Decision := DNone | Warn | EnterPressure | ExitPressure.
#[global] Instance Decision_eq_dec : EqDecision Decision.
Proof. solve_decision. Defined.

Record Thresholds := mkThresholds {
  warn_bytes : Z; pause_bytes : Z; resume_bytes : Z;
  warn_inodes : Z; pause_inodes : Z; resume_inodes : Z;
}.

Definition below_floor (v floor : Z) : bool := (0 <? floor) && (v <? floor).

(** [decide] *)
Definition disk_decide (avail : FsAvail) (paused : bool) (t : Thresholds) : Decision :=
  if paused then
    let bytes_ok := (resume_bytes t =? 0) || (resume_bytes t <=? avail_bytes avail) in
    let inodes_ok := (resume_inodes t =? 0) || (resume_inodes t <=? avail_inodes avail) in
    if bytes_ok && inodes_ok then ExitPressure else DNone
  else if below_floor (avail_bytes avail) (pause_bytes t) || below_floor (avail_inodes avail) (pause_inodes t)
  then EnterPressure
  else if below_floor (avail_bytes avail) (warn_bytes t) || below_floor (avail_inodes avail) (warn_inodes t)
  then Warn
  else DNone.

Record MemThresholds := mkMemThresholds {
  warn_avail : Z; pause_avail : Z; resume_avail : Z; pause_rss : Z; resume_rss : Z;
}.

Definition mem_decide (avail rss : Z) (paused : bool) (t : MemThresholds) : Decision :=
  let avail_low := (0 <? pause_avail t) && (avail <? pause_avail t) in
  let rss_high := (0 <? pause_rss t) && (pause_rss t <? rss) in
  if paused then
    let avail_ok := (resume_avail t =? 0) || (resume_avail t <=? avail) in
    let rss_ok := (resume_rss t =? 0) || (rss <=? resume_rss t) in
    if avail_ok && rss_ok then ExitPressure else DNone
  else if avail_low || rss_high then EnterPressure
  else if (0 <? warn_avail t) && (avail <? warn_avail t) then Warn
  else DNone.

(** * The pressure flags *)
Record Pressure := mkPressure {
  paused : bool;
  last_avail_bytes : Z;
  last_rss_bytes : Z;  (* the memory flag only *)
  generation : Z;
}.

Definition disk_pressure_new : Pressure := mkPressure false u64_max 0 0.
Definition memory_pressure_new : Pressure := mkPressure false u64_max 0 0.

(** [fetch_add(1)] wraps. *)
Definition u64_incr (n : Z) : Z := (n + 1) mod 2 ^ 64.

Definition record_avail (bytes : Z) (p : Pressure) : Pressure :=
  mkPressure (paused p) bytes (last_rss_bytes p) (generation p).
Definition record_memory (avail rss : Z) (p : Pressure) : Pressure :=
  mkPressure (paused p) avail rss (generation p).

Definition enter_pressure (p : Pressure) : bool * Pressure :=
  if paused p then (false, p)
  else (true, mkPressure true (last_avail_bytes p) (last_rss_bytes p) (u64_incr (generation p))).

Definition exit_pressure (p : Pressure) : bool * Pressure :=
  if paused p
  then (true, mkPressure false (last_avail_bytes p) (last_rss_bytes p) (u64_incr (generation p)))
  else (false, p).

(** * The polls *)

(** What a poll does besides writing the flag. *)
Inductive WatchdogAction := LogWarn | LogEnter | RunCleanup | TrimHeap | LogExit.
#[global] Instance WatchdogAction_eq_dec : EqDecision WatchdogAction.
Proof. solve_decision. Defined.

Record Watchdog := mkWatchdog { wd_pressure : Pressure; wd_warned : bool }.

(** The [[disk_guard]] section of the configuration. *)
Record DiskGuardConfig := mkDiskGuard {
  dg_poll_interval_secs : Z;
  warn_floor_gb : Z; pause_floor_gb : Z; resume_floor_gb : Z;
  warn_floor_inodes : Z; pause_floor_inodes : Z; resume_floor_inodes : Z;
  dg_paths : list string;
  alert_used_pct : Z;
  consumer_paths : list string;
  report_refresh_secs : Z;
}.

Definition disk_guard_default : DiskGuardConfig :=
  mkDiskGuard 30 20 10 25 2000000 1000000 3000000 [] 85
    ["/var/lib/libvirt/images"; "~/.cache"; "~/.rustup"; "~/.cargo"]%string 300.

Definition GIB : Z := 1073741824.

Definition u64_sat_mul (a b : Z) : Z := Z.min (a * b) u64_max.
Definition u64_add (a b : Z) : Z := (a + b) mod 2 ^ 64.
Definition u64_shl (a n : Z) : Z := Z.shiftl a n mod 2 ^ 64.

(** The thresholds the disk watchdog resolves before each decision. *)
Definition disk_thresholds (dg : DiskGuardConfig) : Thresholds :=
  let pause_bytes := u64_sat_mul (pause_floor_gb dg) GIB in
  let resume_bytes := Z.max (u64_sat_mul (resume_floor_gb dg) GIB) (u64_sat_add pause_bytes 1) in
  let resume_inodes :=
    if pause_floor_inodes dg =? 0 then resume_floor_inodes dg
    else Z.max (resume_floor_inodes dg) (u64_add (pause_floor_inodes dg) 1) in
  mkThresholds (u64_sat_mul (warn_floor_gb dg) GIB) pause_bytes resume_bytes
    (warn_floor_inodes dg) (pause_floor_inodes dg) resume_inodes.

(** One decision applied to the flag and to [warned]; [on_enter] is what the
    watchdog starts on the edge into pressure. *)
Definition apply_decision (on_enter : list WatchdogAction) (d : Decision) (w : Watchdog) : Watchdog * list WatchdogAction :=
  match d with
  | Warn => if wd_warned w then (w, []) else (mkWatchdog (wd_pressure w) true, [LogWarn])
  | EnterPressure =>
      let '(edge, p) := enter_pressure (wd_pressure w) in
      if edge then (mkWatchdog p true, LogEnter :: on_enter) else (mkWatchdog p (wd_warned w), [])
  | ExitPressure =>
      let '(edge, p) := exit_pressure (wd_pressure w) in
      if edge then (mkWatchdog p false, [LogExit]) else (mkWatchdog p (wd_warned w), [])
  | DNone => (w, [])
  end.

(** One turn of [spawn_disk_watchdog], up to the alert. *)
Definition disk_poll (dg : DiskGuardConfig) (readings : list (option FsAvail)) (w : Watchdog) :
    Watchdog * list WatchdogAction :=
  match min_avail readings with
  | None => (w, [])
  | Some avail =>
      let w := mkWatchdog (record_avail (avail_bytes avail) (wd_pressure w)) (wd_warned w) in
      apply_decision [RunCleanup] (disk_decide avail (paused (wd_pressure w)) (disk_thresholds dg)) w
  end.

(** The [[mem_guard]] section. *)
Record MemGuardConfig := mkMemGuard {
  mg_poll_interval_secs : Z;
  warn_avail_mib : Z; pause_avail_mib : Z; resume_avail_mib : Z;
  pause_rss_mib : Z; resume_rss_mib : Z;
  trim_after_heavy_cron : bool;
  trim_above_rss_mib : Z;
}.

Definition mem_guard_default : MemGuardConfig := mkMemGuard 5 12288 8192 16384 40960 28672 true 4096.

Definition mem_thresholds (mg : MemGuardConfig) : MemThresholds :=
  let pause_rss := u64_shl (pause_rss_mib mg) 20 in
  let resume_rss :=
    if 0 <? pause_rss then Z.min (u64_shl (resume_rss_mib mg) 20) (u64_sat_sub pause_rss 1) else 0 in
  let pause_avail := u64_shl (pause_avail_mib mg) 20 in
  let resume_avail :=
    if 0 <? pause_avail then Z.max (u64_shl (resume_avail_mib mg) 20) (u64_add pause_avail 1) else 0 in
  mkMemThresholds (u64_shl (warn_avail_mib mg) 20) pause_avail resume_avail pause_rss resume_rss.

(** One turn of [spawn_memory_watchdog]; the readings may be missing. *)
Definition mem_poll (mg : MemGuardConfig) (avail rss : option Z) (w : Watchdog) : Watchdog * list WatchdogAction :=
  match avail, rss with
  | Some avail, Some rss =>
      let w := mkWatchdog (record_memory avail rss (wd_pressure w)) (wd_warned w) in
      let trim_floor := u64_shl (trim_above_rss_mib mg) 20 in
      let trims := if (0 <? trim_floor) && (trim_floor <=? rss) then [TrimHeap] else [] in
      let '(w, acts) :=
        apply_decision [TrimHeap] (mem_decide avail rss (paused (wd_pressure w)) (mem_thresholds mg)) w in
      (w, trims ++ acts)
  | _, _ => (w, [])
  end.

(** Polls in a row; the actions of each. *)
Fixpoint run_polls {R} (poll : R → Watchdog → Watchdog * list WatchdogAction) (rs : list R) (w : Watchdog) :
    Watchdog * list (list WatchdogAction) :=
  match rs with
  | [] => (w, [])
  | r :: rs =>
      let '(w, acts) := poll r w in
      let '(w, rest) := run_polls poll rs w in
      (w, acts :: rest)
  end.

(** * Hysteresis *)
Definition is_edge (a : WatchdogAction) : Prop := a = LogEnter ∨ a = LogExit.
#[global] Instance is_edge_dec a : base.Decision (is_edge a).
Proof. unfold is_edge. destruct a; (left; naive_solver) || (right; naive_solver). Defined.

(** The crossings of a run, both ways. *)
Definition edges (acts : list (list WatchdogAction)) : nat := length (filter is_edge (concat acts)).

(** The reading trips a pause floor; the reading has recovered past both resume
    floors. *)
Definition disk_trips (t : Thresholds) (a : FsAvail) : Prop :=
  (0 < pause_bytes t ∧ avail_bytes a < pause_bytes t) ∨
  (0 < pause_inodes t ∧ avail_inodes a < pause_inodes t).
Definition disk_recovered (t : Thresholds) (a : FsAvail) : Prop :=
  (resume_bytes t = 0 ∨ resume_bytes t ≤ avail_bytes a) ∧
  (resume_inodes t = 0 ∨ resume_inodes t ≤ avail_inodes a).

Lemma disk_decide_edge a b t :
  (disk_decide a b t = EnterPressure ↔ b = false ∧ disk_trips t a) ∧
  (disk_decide a b t = ExitPressure ↔ b = true ∧ disk_recovered t a).
Proof.
  unfold disk_decide, disk_trips, disk_recovered, below_floor.
  destruct b; repeat case_match; intuition (try congruence; try lia).
Qed.

(** The resolved thresholds leave no reading that trips and has recovered. *)
Lemma disk_band dg a : 0 ≤ pause_floor_inodes dg < u64_max →
  disk_trips (disk_thresholds dg) a → ¬ disk_recovered (disk_thresholds dg) a.
Proof.
  unfold disk_trips, disk_recovered, disk_thresholds. simpl. intros Hp.
  unfold u64_sat_mul, u64_sat_add, u64_add. unfold u64_max in *.
  destruct (Z.eqb_spec (pause_floor_inodes dg) 0); [lia|].
  rewrite (Z.mod_small (pause_floor_inodes dg + 1)) by lia. lia.
Qed.

Definition mem_trips (t : MemThresholds) (avail rss : Z) : Prop :=
  (0 < pause_avail t ∧ avail < pause_avail t) ∨ (0 < pause_rss t ∧ pause_rss t < rss).
Definition mem_recovered (t : MemThresholds) (avail rss : Z) : Prop :=
  (resume_avail t = 0 ∨ resume_avail t ≤ avail) ∧ (resume_rss t = 0 ∨ rss ≤ resume_rss t).

Lemma mem_decide_edge avail rss b t :
  (mem_decide avail rss b t = EnterPressure ↔ b = false ∧ mem_trips t avail rss) ∧
  (mem_decide avail rss b t = ExitPressure ↔ b = true ∧ mem_recovered t avail rss).
Proof.
  unfold mem_decide, mem_trips, mem_recovered.
  destruct b; repeat case_match; intuition (try congruence; try lia).
Qed.

Lemma u64_shl_20 x : 0 ≤ x → u64_shl x 20 = (x mod 2 ^ 44) * 2 ^ 20.
Proof.
  intros Hx. unfold u64_shl. rewrite Z.shiftl_mul_pow2 by lia.
  change (2 ^ 64) with (2 ^ 44 * 2 ^ 20). by rewrite Z.mul_mod_distr_r.
Qed.

Lemma mem_band mg avail rss :
  0 ≤ pause_avail_mib mg → 0 ≤ pause_rss_mib mg → 0 < resume_rss_mib mg < 2 ^ 44 →
  mem_trips (mem_thresholds mg) avail rss → ¬ mem_recovered (mem_thresholds mg) avail rss.
Proof.
  intros Ha Hr Hres. unfold mem_trips, mem_recovered, mem_thresholds. simpl.
  assert (Hpa := Z.mod_pos_bound (pause_avail_mib mg) (2 ^ 44) ltac:(lia)).
  assert (Hpr := Z.mod_pos_bound (pause_rss_mib mg) (2 ^ 44) ltac:(lia)).
  unfold u64_add, u64_sat_sub.
  rewrite (u64_shl_20 (pause_avail_mib mg)), (u64_shl_20 (pause_rss_mib mg)), (u64_shl_20 (resume_rss_mib mg)) by lia.
  rewrite (Z.mod_small (resume_rss_mib mg)) by lia.
  set (pa := pause_avail_mib mg mod 2 ^ 44) in *. set (pr := pause_rss_mib mg mod 2 ^ 44) in *.
  rewrite (Z.mod_small (pa * 2 ^ 20 + 1)) by lia.
  destruct (Z.ltb_spec 0 (pr * 2 ^ 20)), (Z.ltb_spec 0 (pa * 2 ^ 20)); lia.
Qed.

(** * The flag as a latch *)

(** What a poll owes its flag: set by a reading that trips, cleared by one that
    has recovered, kept otherwise; one log line on an edge and none without; the
    generation counts the edges. *)
Record latched (trips recovered : Prop) (w w' : Watchdog) (acts : list WatchdogAction) : Prop := {
  latch_flag : paused (wd_pressure w') = true ↔ trips ∨ (paused (wd_pressure w) = true ∧ ¬ recovered);
  latch_edge : filter is_edge acts =
    match paused (wd_pressure w), paused (wd_pressure w') with
    | false, true => [LogEnter] | true, false => [LogExit] | _, _ => []
    end;
  latch_generation : generation (wd_pressure w') =
    if eqb (paused (wd_pressure w)) (paused (wd_pressure w'))
    then generation (wd_pressure w) else u64_incr (generation (wd_pressure w));
}.

Lemma apply_latched trips recovered on_enter d w w' acts :
  filter is_edge on_enter = [] → (trips → ¬ recovered) →
  (d = EnterPressure ↔ paused (wd_pressure w) = false ∧ trips) →
  (d = ExitPressure ↔ paused (wd_pressure w) = true ∧ recovered) →
  apply_decision on_enter d w = (w', acts) → latched trips recovered w w' acts.
Proof.
  intros Hon Hband Hen Hex. destruct w as [[b a r g] wn]; simpl in Hen, Hex. destruct b.
  - assert (d ≠ EnterPressure) by (intros Hd; by apply Hen in Hd as [? _]).
    assert (Hex' : d = ExitPressure ↔ recovered) by tauto. clear Hen Hex.
    destruct d, wn; try done; simpl; intros [= <- <-]; split; simpl; auto; intuition congruence.
  - assert (d ≠ ExitPressure) by (intros Hd; by apply Hex in Hd as [? _]).
    assert (Hen' : d = EnterPressure ↔ trips) by tauto. clear Hen Hex.
    destruct d, wn; try done; simpl; intros [= <- <-]; split; simpl; auto;
      try (rewrite filter_cons_True, Hon by (by left)); auto; intuition congruence.
Qed.

Section settle.
Context {R : Type} (poll : R → Watchdog → Watchdog * list WatchdogAction) (r : R) (trips recovered : Prop).
Context (Hpoll : ∀ w w' acts, poll r w = (w', acts) → latched trips recovered w w' acts).

Lemma edges_cons acts rest : edges (acts :: rest) = (length (filter is_edge acts) + edges rest)%nat.
Proof. unfold edges. simpl. by rewrite filter_app, length_app. Qed.

(** A flag that the reading does not move stays where it is. *)
Lemma flag_settled n w :
  (paused (wd_pressure w) = true ↔ trips ∨ (paused (wd_pressure w) = true ∧ ¬ recovered)) →
  edges (run_polls poll (replicate n r) w).2 = 0%nat.
Proof using Hpoll.
  revert w. induction n as [|n IH]; intros w Hw; simpl; [done|].
  destruct (poll r w) as [w' acts] eqn:E. destruct (Hpoll _ _ _ E) as [Hf He _].
  assert (Hp : paused (wd_pressure w') = paused (wd_pressure w)) by (apply eq_true_iff_eq; tauto).
  destruct (run_polls poll (replicate n r) w') as [w2 rest] eqn:E2. simpl. rewrite edges_cons, He, Hp.
  specialize (IH w'). rewrite E2, Hp in IH. simpl in IH. rewrite IH by done.
  by destruct (paused (wd_pressure w)).
Qed.

Lemma settles n w : (edges (run_polls poll (replicate n r) w).2 ≤ 1)%nat.
Proof using Hpoll.
  destruct n as [|n]; simpl; [by vm_compute; lia|].
  destruct (poll r w) as [w' acts] eqn:E. destruct (Hpoll _ _ _ E) as [Hf He _].
  assert (H0 : edges (run_polls poll (replicate n r) w').2 = 0%nat) by (apply flag_settled; tauto).
  destruct (run_polls poll (replicate n r) w') as [w2 rest]. simpl in *. rewrite edges_cons, H0, He.
  destruct (paused (wd_pressure w)), (paused (wd_pressure w')); simpl; lia.
Qed.
End settle.

(** What a list of readings says, a failed [statvfs] saying nothing. *)
Definition disk_reads (P : FsAvail → Prop) (readings : list (option FsAvail)) : Prop :=
  match min_avail readings with Some a => P a | None => False end.

Lemma disk_poll_latched dg readings w w' acts : 0 ≤ pause_floor_inodes dg < u64_max →
  disk_poll dg readings w = (w', acts) →
  latched (disk_reads (disk_trips (disk_thresholds dg)) readings)
    (disk_reads (disk_recovered (disk_thresholds dg)) readings) w w' acts.
Proof.
  intros Hdg. unfold disk_poll, disk_reads. destruct (min_avail readings) as [a|].
  - intros Hp. set (w1 := mkWatchdog _ _) in Hp. destruct (disk_decide_edge a (paused (wd_pressure w1)) (disk_thresholds dg)) as [Hen Hex].
    apply (apply_latched _ _ [RunCleanup] _ w1 w' acts eq_refl (disk_band dg a Hdg) Hen Hex) in Hp.
    destruct Hp as [? ? ?]. by split.
  - intros [= <- <-]. split; [tauto|by destruct (paused _)|by rewrite eqb_reflx].
Qed.

Definition mem_reads (P : Z → Z → Prop) (readings : option Z * option Z) : Prop :=
  match readings with (Some avail, Some rss) => P avail rss | _ => False end.

Lemma filter_trims b : filter is_edge (if b : bool then [TrimHeap] else []) = [].
Proof. by destruct b. Qed.

Lemma mem_poll_latched mg readings w w' acts :
  0 ≤ pause_avail_mib mg → 0 ≤ pause_rss_mib mg → 0 < resume_rss_mib mg < 2 ^ 44 →
  mem_poll mg readings.1 readings.2 w = (w', acts) →
  latched (mem_reads (mem_trips (mem_thresholds mg)) readings)
    (mem_reads (mem_recovered (mem_thresholds mg)) readings) w w' acts.
Proof.
  intros Ha Hr Hres. unfold mem_poll, mem_reads. destruct readings as [[avail|] [rss|]]; simpl;
    [|intros [= <- <-]; split; [tauto|by destruct (paused _)|by rewrite eqb_reflx]..].
  set (w1 := mkWatchdog _ _). destruct (apply_decision _ _ w1) as [w2 acts2] eqn:E. intros [= <- <-].
  destruct (mem_decide_edge avail rss (paused (wd_pressure w1)) (mem_thresholds mg)) as [Hen Hex].
  apply (apply_latched _ _ [TrimHeap] _ w1 w2 acts2 eq_refl (mem_band mg avail rss Ha Hr Hres) Hen Hex) in E.
  destruct E as [Hf He Hg]. split; [done|by rewrite filter_app, filter_trims|done].
Qed.

(** A poll whose reading trips and has recovered at once crosses either way. *)
Lemma mem_poll_edge mg avail rss w w' acts :
  mem_trips (mem_thresholds mg) avail rss → mem_recovered (mem_thresholds mg) avail rss →
  mem_poll mg (Some avail) (Some rss) w = (w', acts) → length (filter is_edge acts) = 1%nat.
Proof.
  intros Ht Hr. unfold mem_poll. set (w1 := mkWatchdog _ _).
  destruct (mem_decide_edge avail rss (paused (wd_pressure w1)) (mem_thresholds mg)) as [Hen Hex].
  destruct (apply_decision _ _ w1) as [w2 acts2] eqn:E. intros [= <- <-]. rewrite filter_app, filter_trims.
  revert E. destruct (paused (wd_pressure w1)) eqn:Ep.
  - rewrite (proj2 Hex) by done. unfold apply_decision, exit_pressure. rewrite Ep. by intros [= <- <-].
  - rewrite (proj2 Hen) by done. unfold apply_decision, enter_pressure. rewrite Ep. by intros [= <- <-].
Qed.

(** ** What the configuration asks of each filesystem *)

(** A byte count is a [u64]. *)
Definition capped (x : Z) : Z := Z.min x u64_max.

Definition short_of_space (dg : DiskGuardConfig) (a : FsAvail) : Prop :=
  (0 < pause_floor_gb dg ∧ avail_bytes a < capped (pause_floor_gb dg * 2 ^ 30)) ∨
  (0 < pause_floor_inodes dg ∧ avail_inodes a < pause_floor_inodes dg).

(** At its resume floors, and above its pause floors whatever the resume floors are *)
Definition has_recovered (dg : DiskGuardConfig) (a : FsAvail) : Prop :=
  (capped (resume_floor_gb dg * 2 ^ 30) ≤ avail_bytes a ∧ capped (pause_floor_gb dg * 2 ^ 30 + 1) ≤ avail_bytes a) ∧
  (resume_floor_inodes dg = 0 ∨ resume_floor_inodes dg ≤ avail_inodes a) ∧
  (pause_floor_inodes dg = 0 ∨ pause_floor_inodes dg < avail_inodes a).

(** Of the filesystems that can be read *)
Definition some_short dg (readings : list (option FsAvail)) : Prop :=
  ∃ a, Some a ∈ readings ∧ short_of_space dg a.
Definition all_recovered dg (readings : list (option FsAvail)) : Prop :=
  (∃ a, Some a ∈ readings) ∧ ∀ a, Some a ∈ readings → has_recovered dg a.

(** The folded reading is, on each axis, the least of those that can be read. *)
Lemma foldl_fs_min_spec rest a :
  let m := foldl fs_min a rest in
  (∀ x, x ∈ a :: rest → avail_bytes m ≤ avail_bytes x ∧ avail_inodes m ≤ avail_inodes x) ∧
  (∃ x, x ∈ a :: rest ∧ avail_bytes m = avail_bytes x) ∧ (∃ x, x ∈ a :: rest ∧ avail_inodes m = avail_inodes x).
Proof.
  revert a. induction rest as [|b rest IH]; intros a m; subst m; cbn [foldl].
  { split_and!; [intros x ->%list_elem_of_singleton; lia|exists a; split; [by left|done]..]. }
  destruct (IH (fs_min a b)) as (Hle & (x & Hx & Ex) & (y & Hy & Ey)). pose proof (Hle (fs_min a b) ltac:(by left)) as Hm.
  cbn [fs_min avail_bytes avail_inodes] in Hm. split_and!.
  - intros z [->|[->|Hz]%elem_of_cons]%elem_of_cons; [lia|lia|]. apply Hle. by right.
  - rewrite Ex. apply elem_of_cons in Hx as [->|Hx]; [|exists x; split; [by do 2 right|done]]. cbn [fs_min avail_bytes].
    destruct (Z.min_spec (avail_bytes a) (avail_bytes b)) as [[_ ->]|[_ ->]]; [exists a|exists b]; (split; [|done]); set_solver.
  - rewrite Ey. apply elem_of_cons in Hy as [->|Hy]; [|exists y; split; [by do 2 right|done]]. cbn [fs_min avail_inodes].
    destruct (Z.min_spec (avail_inodes a) (avail_inodes b)) as [[_ ->]|[_ ->]]; [exists a|exists b]; (split; [|done]); set_solver.
Qed.

Lemma min_avail_spec readings :
  match min_avail readings with
  | None => ∀ a, Some a ∉ readings
  | Some m =>
      (∀ a, Some a ∈ readings → avail_bytes m ≤ avail_bytes a ∧ avail_inodes m ≤ avail_inodes a) ∧
      (∃ a, Some a ∈ readings ∧ avail_bytes m = avail_bytes a) ∧ (∃ a, Some a ∈ readings ∧ avail_inodes m = avail_inodes a)
  end.
Proof.
  unfold min_avail. assert (Hin : ∀ a, Some a ∈ readings ↔ a ∈ omap id readings).
  { intros a. rewrite list_elem_of_omap. unfold id. naive_solver. }
  destruct (omap id readings) as [|a rest]; [by intros a ?%Hin%elem_of_nil|].
  destruct (foldl_fs_min_spec rest a) as (Hle & (x & ?%Hin & ?) & (y & ?%Hin & ?)). split_and!; [|by exists x|by exists y].
  intros z ?%Hin. by apply Hle.
Qed.

(** One reading trips the resolved thresholds of the worst of them exactly when
    it is short; all have recovered exactly when the worst has. *)
Lemma disk_reads_trips dg readings : disk_reads (disk_trips (disk_thresholds dg)) readings ↔ some_short dg readings.
Proof.
  unfold disk_reads, some_short, disk_trips, short_of_space, disk_thresholds, u64_sat_mul, capped.
  cbn [pause_bytes pause_inodes]. change GIB with (2 ^ 30). pose proof (min_avail_spec readings) as Hm.
  destruct (min_avail readings) as [m|]; [|naive_solver]. destruct Hm as (Hle & (x & Hx & Ex) & (y & Hy & Ey)).
  unfold u64_max. split.
  - intros [[? ?]|[? ?]]; [exists x|exists y]; (split; [done|]); lia.
  - intros (a & Ha & Hs). specialize (Hle a Ha). lia.
Qed.

Lemma disk_reads_recovered dg readings : 0 ≤ pause_floor_gb dg → 0 ≤ pause_floor_inodes dg < u64_max →
  disk_reads (disk_recovered (disk_thresholds dg)) readings ↔ all_recovered dg readings.
Proof.
  intros Hgb Hdg. unfold disk_reads, all_recovered, disk_recovered, has_recovered, disk_thresholds, u64_sat_mul, u64_sat_add, u64_add, capped.
  cbn [resume_bytes resume_inodes]. change GIB with (2 ^ 30). pose proof (min_avail_spec readings) as Hm.
  unfold u64_max in *. rewrite (Z.mod_small (pause_floor_inodes dg + 1)) by lia.
  destruct (min_avail readings) as [m|]; [|naive_solver]. destruct Hm as (Hle & (x & Hx & Ex) & (y & Hy & Ey)). split.
  - intros [Hb Hi]. split; [by exists x|]. intros a Ha. specialize (Hle a Ha).
    destruct (Z.eqb_spec (pause_floor_inodes dg) 0); lia.
  - intros [_ Hall]. pose proof (Hall x Hx). pose proof (Hall y Hy).
    destruct (Z.eqb_spec (pause_floor_inodes dg) 0); lia.
Qed.

Lemma latched_iff trips trips' recovered recovered' w w' acts : (trips ↔ trips') → (recovered ↔ recovered') →
  latched trips recovered w w' acts → latched trips' recovered' w w' acts.
Proof. intros Ht Hr [Hf He Hg]. split; [|done..]. rewrite Hf. tauto. Qed.

(** What the flag shows of a poll: the least free bytes of the filesystems it
    could read, and the old figure if it could read none. *)
Definition shows (readings : list (option FsAvail)) (before after : Z) : Prop :=
  ((∀ a, Some a ∉ readings) ∧ after = before) ∨
  ((∃ a, Some a ∈ readings ∧ after = avail_bytes a) ∧ ∀ a, Some a ∈ readings → after ≤ avail_bytes a).

Lemma disk_poll_shows dg readings w :
  shows readings (last_avail_bytes (wd_pressure w)) (last_avail_bytes (wd_pressure (disk_poll dg readings w).1)).
Proof.
  unfold disk_poll, shows. pose proof (min_avail_spec readings) as Hm. destruct (min_avail readings) as [m|]; [|by left].
  destruct Hm as (Hle & Hx & _). right.
  replace (last_avail_bytes _) with (avail_bytes m); [split; [done|]; intros a Ha; by apply Hle|].
  unfold apply_decision, enter_pressure, exit_pressure. destruct (disk_decide _ _ _); cbn; repeat case_match; by simplify_eq.
Qed.

(** C33: with an inode pause floor below [u64::MAX], the disk watchdog is a latch
    on the filesystems it can read.  Every poll sets the flag when one of them is
    below a pause floor that is on; clears it when every one of them, and there is
    one, is at both resume floors and above both pause floors; keeps it otherwise;
    logs each edge once and counts it in the generation; records the least free
    space.  The cleanup runs exactly on the edge into pressure, and however often
    the same readings are polled the flag moves at most once. *)
Theorem disk_watchdog_latch dg (Hgb : 0 ≤ pause_floor_gb dg) (Hdg : 0 ≤ pause_floor_inodes dg < u64_max) readings :
  (∀ w w' acts, disk_poll dg readings w = (w', acts) →
     latched (some_short dg readings) (all_recovered dg readings) w w' acts ∧
     shows readings (last_avail_bytes (wd_pressure w)) (last_avail_bytes (wd_pressure w')) ∧
     (RunCleanup ∈ acts ↔ LogEnter ∈ acts)) ∧
  (∀ n w, (edges (run_polls (disk_poll dg) (replicate n readings) w).2 ≤ 1)%nat).
Proof.
  split.
  - intros w w' acts E. split_and!.
    + eapply latched_iff; [apply disk_reads_trips|by apply disk_reads_recovered|]. by apply disk_poll_latched.
    + pose proof (disk_poll_shows dg readings w) as Hs. by rewrite E in Hs.
    + revert E. unfold disk_poll, apply_decision, enter_pressure, exit_pressure.
      repeat case_match; simplify_eq; intros; simplify_eq; set_solver.
  - intros n w. eapply settles. intros w1 w' acts E. by apply disk_poll_latched.
Qed.

Definition on_disk (gib inodes : Z) : list (option FsAvail) := [Some (mkAvail (gib * GIB) inodes); None].

Lemma disk_watchdog_latch_witness :
  0 ≤ pause_floor_inodes disk_guard_default < u64_max ∧
  (edges (run_polls (disk_poll disk_guard_default) (replicate 4 (on_disk 5 4000000))
     (mkWatchdog disk_pressure_new false)).2 ≤ 1)%nat.
Proof.
  assert (H : 0 ≤ pause_floor_inodes disk_guard_default < u64_max) by (vm_compute; split; congruence).
  split; [exact H|]. apply (proj2 (disk_watchdog_latch disk_guard_default ltac:(by vm_compute) H (on_disk 5 4000000))).
Defined.

(** With a resume ceiling on the resident set that is not zero, the memory
    watchdog is a latch on the available memory and the resident set: as for the
    disk, set and cleared exactly on readings that trip or have recovered, with
    one line an edge, and still when a reading repeats. *)
Theorem mem_watchdog_latch mg (Ha : 0 ≤ pause_avail_mib mg) (Hr : 0 ≤ pause_rss_mib mg)
    (Hres : 0 < resume_rss_mib mg < 2 ^ 44) readings :
  (∀ w w' acts, mem_poll mg readings.1 readings.2 w = (w', acts) →
     latched (mem_reads (mem_trips (mem_thresholds mg)) readings)
       (mem_reads (mem_recovered (mem_thresholds mg)) readings) w w' acts) ∧
  (∀ n w, (edges (run_polls (λ r, mem_poll mg r.1 r.2) (replicate n readings) w).2 ≤ 1)%nat).
Proof.
  split; [intros w w' acts E; by apply mem_poll_latched|].
  intros n w. eapply settles. intros w1 w' acts E. by apply mem_poll_latched.
Qed.

Lemma mem_watchdog_latch_witness :
  0 ≤ pause_avail_mib mem_guard_default ∧
  (edges (run_polls (λ r, mem_poll mem_guard_default r.1 r.2)
     (replicate 4 (Some (64 * GIB)%Z, Some (64 * GIB)%Z)) (mkWatchdog memory_pressure_new false)).2 ≤ 1)%nat.
Proof.
  split; [by vm_compute|].
  apply (mem_watchdog_latch mem_guard_default ltac:(by vm_compute) ltac:(by vm_compute) ltac:(by vm_compute)).
Defined.

(** With a resume ceiling of zero and a pause ceiling that is on, the band
    is empty: a resident set above the ceiling, with memory to spare, moves the
    flag on every poll. *)
Theorem mem_watchdog_flaps mg avail rss (n : nat) w :
  resume_rss_mib mg = 0 → 0 < pause_rss (mem_thresholds mg) < rss →
  resume_avail (mem_thresholds mg) = 0 ∨ resume_avail (mem_thresholds mg) ≤ avail →
  edges (run_polls (λ r, mem_poll mg r.1 r.2) (replicate n (Some avail, Some rss)) w).2 = n.
Proof.
  intros Hres Hrss Hav.
  assert (H0 : resume_rss (mem_thresholds mg) = 0).
  { unfold mem_thresholds in *. simpl in *. rewrite Hres. change (u64_shl 0 20) with 0.
    unfold u64_sat_sub. clear Hav. destruct (0 <? u64_shl (pause_rss_mib mg) 20); lia. }
  revert w. induction n as [|n IH]; intros w; [done|].
  destruct (mem_poll mg (Some avail) (Some rss) w) as [w' acts] eqn:E.
  assert (He : length (filter is_edge acts) = 1%nat) by (eapply mem_poll_edge; [by right|split; [done|by left]|done]).
  cbn [replicate run_polls fst snd]. rewrite E.
  specialize (IH w'). destruct (run_polls _ _ w') as [w2 rest]. cbn [snd] in *.
  rewrite edges_cons, He, IH. lia.
Qed.

Lemma mem_watchdog_flaps_witness :
  edges (run_polls (λ r, mem_poll (mkMemGuard 5 0 0 0 1024 0 true 0) r.1 r.2)
    (replicate 5 (Some (64 * GIB), Some (2 * GIB))) (mkWatchdog memory_pressure_new false)).2 = 5%nat.
Proof.
  apply (mem_watchdog_flaps (mkMemGuard 5 0 0 0 1024 0 true 0) (64 * GIB) (2 * GIB) 5);
    [done|by vm_compute|by left].
Defined.

(** An inode axis the configuration turns off still holds the exit back:
    with [pause_floor_inodes] at zero no reading below the inode resume floor
    ends a pressure, however much space is free. *)
Theorem disabled_inode_axis_blocks_exit dg a w :
  pause_floor_inodes dg = 0 → 0 ≤ avail_inodes a < resume_floor_inodes dg →
  paused (wd_pressure w) = true → paused (wd_pressure (disk_poll dg [Some a] w).1) = true.
Proof.
  intros H0 Hlt Hp. destruct (disk_poll dg [Some a] w) as [w' acts] eqn:E.
  apply disk_poll_latched in E as [Hf _ _]; [|rewrite H0; by vm_compute].
  apply Hf. right. split; [done|]. unfold disk_reads, disk_recovered, disk_thresholds. simpl.
  rewrite H0. simpl. lia.
Qed.

Lemma disabled_inode_axis_blocks_exit_witness :
  paused (wd_pressure (disk_poll (mkDiskGuard 30 20 10 25 0 0 3000000 [] 85 [] 300) [Some (mkAvail (900 * GIB) 2000000)]
    (mkWatchdog (mkPressure true 0 0 1) true)).1) = true.
Proof. apply disabled_inode_axis_blocks_exit; [done|by vm_compute|done]. Defined.

Definition warnings (acts : list WatchdogAction) : nat := length (filter (.= LogWarn) acts).

(** A poll that trips nothing, out of pressure: it stays out, and it warns only
    to set [warned], which it never clears. *)
Lemma calm_poll dg r w w' acts : ¬ disk_reads (disk_trips (disk_thresholds dg)) r →
  paused (wd_pressure w) = false → disk_poll dg r w = (w', acts) →
  paused (wd_pressure w') = false ∧
  ((warnings acts = 0%nat ∧ wd_warned w' = wd_warned w) ∨
   (warnings acts = 1%nat ∧ wd_warned w = false ∧ wd_warned w' = true)).
Proof.
  unfold disk_poll, disk_reads. intros Ht Hp. destruct (min_avail r) as [a|]; [|intros [= <- <-]; auto].
  set (w1 := mkWatchdog _ _). destruct (disk_decide_edge a (paused (wd_pressure w1)) (disk_thresholds dg)) as [Hen Hex].
  change (paused (wd_pressure w1)) with (paused (wd_pressure w)) in *. rewrite Hp in *.
  destruct (disk_decide a false (disk_thresholds dg)); simpl.
  - intros [= <- <-]; auto.
  - destruct (wd_warned w) eqn:Ew; intros [= <- <-]; simpl; auto.
  - destruct Ht. by apply Hen.
  - by destruct (proj1 Hex eq_refl).
Qed.

Lemma calm_run dg rs w : Forall (λ r, ¬ disk_reads (disk_trips (disk_thresholds dg)) r) rs →
  paused (wd_pressure w) = false →
  (warnings (concat (run_polls (disk_poll dg) rs w).2) ≤ if wd_warned w then 0 else 1)%nat.
Proof.
  intros Hrs. revert w. induction Hrs as [|r rs Hr _ IH]; intros w Hp; simpl; [unfold warnings; simpl; destruct (wd_warned w); lia|].
  destruct (disk_poll dg r w) as [w' acts] eqn:E. apply calm_poll in E as [Hp' Hw]; [|done..].
  specialize (IH w' Hp'). destruct (run_polls (disk_poll dg) rs w') as [w2 rest]. simpl in *.
  unfold warnings in *. rewrite filter_app, length_app.
  destruct Hw as [[-> Ew]|[-> [Ew Ew']]].
  - by rewrite <- Ew.
  - rewrite Ew, Ew' in *. lia.
Qed.

(** [warned] is cleared by an exit from pressure only: a run of readings none
    of which trips a pause floor logs the low-space warning at most once, however
    often space recovers and falls again. *)
Theorem warn_fires_once dg rs w
    (Hrs : Forall (λ r, ¬ disk_reads (disk_trips (disk_thresholds dg)) r) rs)
    (Hp : paused (wd_pressure w) = false) :
  (warnings (concat (run_polls (disk_poll dg) rs w).2) ≤ 1)%nat.
Proof. pose proof (calm_run dg rs w Hrs Hp) as H. destruct (wd_warned w); lia. Qed.

(** Three descents below the warning floor, with full recoveries in between. *)
Lemma warn_fires_once_witness :
  (warnings (concat (run_polls (disk_poll disk_guard_default)
     [on_disk 15 4000000; on_disk 90 4000000; on_disk 15 4000000; on_disk 90 4000000; on_disk 15 4000000]
     (mkWatchdog disk_pressure_new false)).2) ≤ 1)%nat.
Proof.
  apply (warn_fires_once disk_guard_default); [|done].
  repeat (constructor; [vm_compute; intros [[_ H]|[_ H]]; discriminate H|]). constructor.
Defined.
