(* ===== verification/DiskAlert.v ===== *)
(** The alert half of a disk-watchdog turn ([spawn_disk_watchdog] in
    [src/src/health/watchdog.rs], with the two predicates of [disk_report.rs]):
    the worst used percentage, the throttled consumer report, the edge-triggered
    line; and the whole turn, pressure half first.

    [Instant]s are [Z] nanoseconds.  What the turn reads (the [statvfs] results,
    the clock, whether the blocking report task returned) is an argument. *)

From Stdlib Require Import ZArith SpecFloat ZifyBool.
From stdpp Require Import base numbers strings sets list.
From S2P Require Import Prelude Numbers HealthWatchdog.
#[local] Open Scope Z_scope.

(** * The worst filesystem *)

(** What the three [statvfs] calls of a turn on one path returned:
    [fs_avail] in [min_avail], [fs_total] and [avail_bytes] in [worst_used_pct]. *)
Record PathReading := mkReading {
  r_path : string; r_avail : option FsAvail; r_total : option Z; r_avail2 : option FsAvail;
}.

Definition used_pct (total avail : Z) : f64 :=
  f64_mul (f64_div (f64_of_Z (u64_sat_sub total avail)) (f64_of_Z total)) (f64_of_Z 100).

Definition path_used (r : PathReading) : option (string * f64) :=
  total ← r_total r;
  if total =? 0 then None
  else avail ← avail_bytes <$> r_avail2 r; Some (r_path r, used_pct total avail).

Definition worst_used_pct (rs : list PathReading) : option (string * f64) :=
  max_by (λ a b, float_cmp a.2 b.2) (omap path_used rs).

(** * The alert *)

Definition alert_should_fire (pct : f64) (threshold_pct : Z) (already : bool) : bool :=
  (0 <? threshold_pct) && f64_geb pct (f64_of_Z threshold_pct) && negb already.

Definition report_refresh_due (pct : f64) (threshold_pct : Z) (since_last : option Z) (throttle : Z) : bool :=
  (0 <? threshold_pct) && f64_geb pct (f64_of_Z threshold_pct) &&
  match since_last with Some e => throttle <=? e | None => true end.

Record Alert := mkAlert {
  alerted : bool;
  last_report_at : option Z;
  disk_used_pct : option f64;   (* the tracker's headline *)
  disk_report : option string;  (* the partition of the stored report *)
}.

Definition alert_new : Alert := mkAlert false None None None.

Inductive AlertAction := AssembleReport | LogAlert.
#[global] Instance AlertAction_eq_dec : EqDecision AlertAction.
Proof. solve_decision. Defined.

(** What a turn reads: the clock at [t.elapsed()] and at [Instant::now()], and
    whether the report task returned. *)
Record Turn := mkTurn {
  t_readings : list PathReading; t_elapsed_at : Z; t_now : Z; t_assembled : bool;
}.

Definition NANOS : Z := 1000000000.

Definition alert_step (dg : DiskGuardConfig) (t : Turn) (s : Alert) : Alert * list AlertAction :=
  match worst_used_pct (t_readings t) with
  | None => (s, [])
  | Some (part, pct) =>
      let throttle := Z.max (report_refresh_secs dg) 30 * NANOS in
      let since_last := (λ at_, Z.max 0 (t_elapsed_at t - at_)) <$> last_report_at s in
      if report_refresh_due pct (alert_used_pct dg) since_last throttle then
        if t_assembled t then
          let fire := alert_should_fire pct (alert_used_pct dg) (alerted s) in
          (mkAlert (fire || alerted s) (Some (t_now t)) (Some pct) (Some part),
           AssembleReport :: if fire then [LogAlert] else [])
        else (mkAlert (alerted s) (Some (t_now t)) (Some pct) (disk_report s), [AssembleReport])
      else if (0 <? alert_used_pct dg) && f64_ltb pct (f64_of_Z (alert_used_pct dg)) then
        (mkAlert false None (Some pct) (disk_report s), [])
      else (mkAlert (alerted s) (last_report_at s) (Some pct) (disk_report s), [])
  end.

(** The whole turn: no reading at all skips the alert too. *)
Definition disk_turn (dg : DiskGuardConfig) (t : Turn) (s : Watchdog * Alert) :
    (Watchdog * Alert) * (list WatchdogAction * list AlertAction) :=
  match min_avail (r_avail <$> t_readings t) with
  | None => (s, ([], []))
  | Some _ =>
      let '(w, acts) := disk_poll dg (r_avail <$> t_readings t) s.1 in
      let '(a, alerts) := alert_step dg t s.2 in
      ((w, a), (acts, alerts))
  end.

Fixpoint run_turns (dg : DiskGuardConfig) (ts : list Turn) (s : Watchdog * Alert) :
    (Watchdog * Alert) * list (list AlertAction) :=
  match ts with
  | [] => (s, [])
  | t :: ts =>
      let '(s, (_, alerts)) := disk_turn dg t s in
      let '(s, rest) := run_turns dg ts s in
      (s, alerts :: rest)
  end.

(** * Descents *)

(** The worst filesystem is at or above the threshold; below it. *)
Definition hot (dg : DiskGuardConfig) (t : Turn) : bool :=
  match worst_used_pct (t_readings t) with
  | Some (_, pct) => f64_geb pct (f64_of_Z (alert_used_pct dg))
  | None => true
  end.
Definition cold (dg : DiskGuardConfig) (t : Turn) : bool :=
  match worst_used_pct (t_readings t) with
  | Some (_, pct) => f64_ltb pct (f64_of_Z (alert_used_pct dg))
  | None => false
  end.

Definition alert_lines (alerts : list AlertAction) : nat := length (filter (.= LogAlert) alerts).

Lemma SFcompare_antisym x y : SFcompare y x = CompOpp <$> SFcompare x y.
Proof.
  destruct x as [[]|[]| |[] mx ex], y as [[]|[]| |[] my ey]; simpl; try done;
    change (Pos.compare_cont Eq) with Pos.compare in *;
    rewrite (Z.compare_antisym ex ey), (Pos.compare_antisym mx my);
    by destruct (ex ?= ey), (mx ?= my)%positive.
Qed.

Lemma ltb_not_geb x y : f64_ltb x y = true → f64_geb x y = false.
Proof.
  unfold f64_ltb, f64_geb, SFltb, SFleb. rewrite (SFcompare_antisym x y).
  by destruct (SFcompare x y) as [[]|].
Qed.

Lemma alert_lines_app a b : alert_lines (a ++ b) = (alert_lines a + alert_lines b)%nat.
Proof. unfold alert_lines. by rewrite filter_app, length_app. Qed.

(** A turn that is not cold keeps [alerted], and logs only to set it. *)
Lemma alert_step_warm dg t s s' alerts : cold dg t = false → alert_step dg t s = (s', alerts) →
  (alert_lines alerts = 0%nat ∧ alerted s' = alerted s) ∨
  (alert_lines alerts = 1%nat ∧ alerted s = false ∧ alerted s' = true).
Proof.
  unfold cold, alert_step, alert_should_fire. destruct (worst_used_pct _) as [[part pct]|]; [|intros _ [= <- <-]; auto].
  intros ->. rewrite andb_false_r.
  destruct (report_refresh_due _ _ _ _); [|intros [= <- <-]; auto].
  destruct (t_assembled t); [|intros [= <- <-]; auto].
  destruct (_ && negb _) eqn:Ef; intros [= <- <-]; simpl; auto.
  right. apply andb_prop in Ef as [_ Ef]. by destruct (alerted s).
Qed.

Lemma run_warm dg ts s : Forall (λ t, cold dg t = false) ts →
  (alert_lines (concat (run_turns dg ts s).2) ≤ if alerted s.2 then 0 else 1)%nat.
Proof.
  intros Hts. revert s. induction Hts as [|t ts Ht _ IH]; intros s; simpl; [by destruct (alerted s.2); vm_compute; lia|].
  destruct (disk_turn dg t s) as [s' [acts alerts]] eqn:E.
  assert (Hs : (alert_lines alerts = 0%nat ∧ alerted s'.2 = alerted s.2) ∨
    (alert_lines alerts = 1%nat ∧ alerted s.2 = false ∧ alerted s'.2 = true)).
  { revert E. unfold disk_turn. destruct (min_avail _); [|intros [= <- <- <-]; auto].
    destruct (disk_poll _ _ _) as [w' acts']. destruct (alert_step dg t s.2) as [a' alerts'] eqn:Ea.
    intros [= <- <- <-]. by eapply alert_step_warm. }
  specialize (IH s'). destruct (run_turns dg ts s') as [s2 rest]. simpl in *. rewrite alert_lines_app.
  destruct Hs as [[-> Ew]|[-> [Ew Ew']]]; [by rewrite <- Ew|rewrite Ew, Ew' in *; lia].
Qed.

(** A cold turn that reads resets the alert, and a hot one after it fires. *)
Lemma cold_resets dg t s : 0 < alert_used_pct dg → cold dg t = true →
  alerted (alert_step dg t s).1 = false ∧ last_report_at (alert_step dg t s).1 = None.
Proof.
  unfold cold, alert_step, report_refresh_due. destruct (worst_used_pct _) as [[part pct]|]; [|done].
  intros H Hc. rewrite (ltb_not_geb _ _ Hc), Hc, andb_false_r. simpl.
  by replace (0 <? alert_used_pct dg) with true by lia.
Qed.

Lemma hot_fires dg t s : 0 < alert_used_pct dg → hot dg t = true →
  worst_used_pct (t_readings t) ≠ None → t_assembled t = true →
  alerted s = false → last_report_at s = None → LogAlert ∈ (alert_step dg t s).2.
Proof.
  unfold hot, alert_step, report_refresh_due, alert_should_fire.
  destruct (worst_used_pct _) as [[part pct]|]; [|done]. intros H Hh _ -> -> ->. simpl.
  rewrite Hh. replace (0 <? alert_used_pct dg) with true by lia. simpl. set_solver.
Qed.

(** With the alert on, it is edge-triggered: while the worst filesystem never
    falls below the threshold the alert line is logged at most once, however many
    turns refresh the report; and a turn that finds it at or above the threshold
    right after one that found it below logs the line at once. *)
Theorem disk_alert_edge dg (Hon : 0 < alert_used_pct dg) :
  (∀ ts s, Forall (λ t, cold dg t = false) ts →
     (alert_lines (concat (run_turns dg ts s).2) ≤ 1)%nat) ∧
  (∀ c h s, cold dg c = true → min_avail (r_avail <$> t_readings c) ≠ None →
     hot dg h = true → worst_used_pct (t_readings h) ≠ None → t_assembled h = true →
     min_avail (r_avail <$> t_readings h) ≠ None →
     LogAlert ∈ (disk_turn dg h (disk_turn dg c s).1).2.2).
Proof.
  split.
  - intros ts s Hts. pose proof (run_warm dg ts s Hts) as H. destruct (alerted s.2); lia.
  - intros c h s Hc Hrc Hh Hw Ha Hrh. destruct (cold_resets dg c s.2 Hon Hc) as [H1 H2].
    pose proof (hot_fires dg h _ Hon Hh Hw Ha H1 H2) as Hf. unfold disk_turn.
    destruct (min_avail (r_avail <$> t_readings c)); [|done]. destruct (min_avail (r_avail <$> t_readings h)); [|done].
    destruct (disk_poll _ _ s.1), (alert_step dg c s.2). simpl in *.
    by destruct (disk_poll _ _ _), (alert_step dg h _).
Qed.

(** A 2000 GiB disk with [free] GiB left. *)
Definition turn_at (free at_ : Z) : Turn :=
  let a := Some (mkAvail (free * GIB) 4000000) in
  mkTurn [mkReading "/data" a (Some (2000 * GIB)) a] (at_ * NANOS) (at_ * NANOS) true.

Lemma disk_alert_edge_witness :
  (alert_lines (concat (run_turns disk_guard_default
     [turn_at 150 1; turn_at 140 400; turn_at 130 800] (mkWatchdog disk_pressure_new false, alert_new)).2) ≤ 1)%nat ∧
  LogAlert ∈ (disk_turn disk_guard_default (turn_at 150 1)
    (disk_turn disk_guard_default (turn_at 900 0) (mkWatchdog disk_pressure_new false, alert_new)).1).2.2.
Proof.
  destruct (disk_alert_edge disk_guard_default eq_refl) as [H1 H2]. split.
  - apply H1. repeat (constructor; [by vm_compute|]). constructor.
  - apply H2; by vm_compute.
Defined.
