(* ===== verification/Outbox.v ===== *)
(** The ephemeral-event outbox ([src/src/health/outbox.rs]): requests that
    arrive while the database is down are spooled to a file, one JSON line each,
    and posted again after recovery.

    The spool directory is a map from file names to bytes.  What the operating
    system answers (free space, clocks, whether a read or a write succeeds and
    how much of it) is an argument of each operation; JSON is [serde_json], a
    parameter with laws.  A [u64] counter wraps. *)

From Stdlib Require Import Ascii ZArith.
From stdpp Require Import base numbers strings sets gmap list.
From S2P Require Import Prelude Text Numbers BTree HealthWatchdog.
#[local] Open Scope Z_scope.

(** * Data *)

Inductive OnFull := Stop | DropOldest.

(** [OnFull::parse] *)
Definition on_full_parse (s : string) : OnFull :=
  if decide (s = "drop_oldest"%string) then DropOldest else Stop.

Record OutboxRecord (Value : Type) := mkRecord { rec_path : string; rec_body : Value; rec_ts : Z }.
Arguments mkRecord {Value} _ _ _.
Arguments rec_path {Value} _.
Arguments rec_body {Value} _.
Arguments rec_ts {Value} _.

(** [serde_json::to_string] and [from_str] at [OutboxRecord]. *)
Class JsonCodec (Value : Type) := {
  to_string : OutboxRecord Value → option string;
  from_str : string → option (OutboxRecord Value);
}.

(** Compact JSON of a struct: an object, in UTF-8, control characters escaped,
    that reads back. *)
Class JsonLaws (Value : Type) `{JsonCodec Value} := {
  json_roundtrip r s : to_string r = Some s → from_str s = Some r;
  json_object r s : to_string r = Some s → ∃ m, s = (String "{" (m +:+ "}"))%string;
  json_control r s : to_string r = Some s → all_bytes not_control s = true;
  json_utf8 r s : to_string r = Some s → utf8_valid s = true;
}.

Record Outbox := mkOutbox {
  max_bytes : Z;
  self_floor_bytes : Z;
  self_floor_inodes : Z;
  on_full : OnFull;
  seq : Z;
  dropped : Z;
  dir : gmap string string;
}.

(** An outbox over an existing directory. *)
Definition outbox_at (dir : gmap string string) (max_bytes floor_bytes floor_inodes : Z) (on_full : OnFull) : Outbox :=
  mkOutbox max_bytes floor_bytes floor_inodes on_full 0 0 dir.

(** [Outbox::new]: disabled when the directory cannot be made. *)
Definition outbox_new (created : bool) (dir : gmap string string) (max_bytes floor_bytes floor_inodes : Z)
    (on_full : OnFull) : option Outbox :=
  if created then Some (outbox_at dir max_bytes floor_bytes floor_inodes on_full) else None.

Definition ACTIVE_FILE : string := "outbox.jsonl".
Definition REPLAY_PREFIX : string := "outbox.replaying.".

Definition set_dir (d : gmap string string) (ob : Outbox) : Outbox :=
  mkOutbox (max_bytes ob) (self_floor_bytes ob) (self_floor_inodes ob) (on_full ob) (seq ob) (dropped ob) d.
Definition add_dropped (n : Z) (ob : Outbox) : Outbox :=
  mkOutbox (max_bytes ob) (self_floor_bytes ob) (self_floor_inodes ob) (on_full ob) (seq ob)
    (u64_add (dropped ob) n) (dir ob).
Definition next_seq (ob : Outbox) : Outbox :=
  mkOutbox (max_bytes ob) (self_floor_bytes ob) (self_floor_inodes ob) (on_full ob) (u64_incr (seq ob))
    (dropped ob) (dir ob).

(** * Files *)

(** How a write ends: the file cannot be opened; some bytes reach it; all do. *)
Inductive WriteOutcome := OpenFails | WritesOnly (n : nat) | WritesAll.

Definition str_take (n : nat) (s : string) : string := String.substring 0 n s.

(** [append_line]: [true] when the call returns [Ok]. *)
Definition append_line (o : WriteOutcome) (name line : string) (d : gmap string string) : gmap string string * bool :=
  let old := default ""%string (d !! name) in
  match o with
  | OpenFails => (d, false)
  | WritesOnly n => (<[name := (old +:+ str_take n line)%string]> d, false)
  | WritesAll => (<[name := (old +:+ line)%string]> d, true)
  end.

(** [std::fs::write] truncates first. *)
Definition fs_write (o : WriteOutcome) (name contents : string) (d : gmap string string) : gmap string string :=
  match o with
  | OpenFails => d
  | WritesOnly n => <[name := str_take n contents]> d
  | WritesAll => <[name := contents]> d
  end.

(** [std::fs::read_to_string]: an error for a missing file, an I/O error or
    bytes that are not UTF-8. *)
Definition read_to_string (ok : bool) (name : string) (d : gmap string string) : option string :=
  contents ← d !! name;
  if ok && utf8_valid contents then Some contents else None.

(** [str::ends_with] *)
Definition ends_with (s p : string) : bool := starts_with (str_rev s) (str_rev p).

Section outbox.
Context {Value : Type} `{JsonCodec Value}.
Notation OutboxRecord := (OutboxRecord Value).

(** * Appending *)
Record AppendIo := mkAppendIo {
  a_ts : Z;                     (* [now_epoch_secs] *)
  a_avail : option FsAvail;     (* [fs_avail] of the spool directory *)
  a_stat : bool;                (* [metadata] of an existing file succeeds *)
  a_trim_read : bool;
  a_trim_write : WriteOutcome;
  a_write : WriteOutcome;
}.

Definition trim_oldest (io : AppendIo) (ob : Outbox) : Outbox :=
  match read_to_string (a_trim_read io) ACTIVE_FILE (dir ob) with
  | None => ob
  | Some contents =>
      let ls := lines contents in
      if decide (ls = []) then ob
      else
        let drop_n := Nat.max (length ls / 4) 1 in
        let ob := add_dropped (Z.of_nat drop_n) ob in
        let kept := String.concat (String newline EmptyString) (drop drop_n ls) in
        let kept := if decide (kept = EmptyString) then EmptyString else (kept +:+ String newline EmptyString)%string in
        set_dir (fs_write (a_trim_write io) ACTIVE_FILE kept (dir ob)) ob
  end.

Definition file_len (stat : bool) (name : string) (d : gmap string string) : Z :=
  match d !! name with
  | Some contents => if stat then Z.of_nat (String.length contents) else 0
  | None => 0
  end.

Definition below_self_floor (ob : Outbox) (avail : FsAvail) : bool :=
  (avail_bytes avail <? self_floor_bytes ob) || (avail_inodes avail <? self_floor_inodes ob).

(** The last step of [append]. *)
Definition append_record (io : AppendIo) (line : string) (ob : Outbox) : Outbox :=
  let '(d, ok) := append_line (a_write io) ACTIVE_FILE line (dir ob) in
  let ob := set_dir d ob in
  if ok then ob else add_dropped 1 ob.

Definition append (io : AppendIo) (path : string) (body : Value) (ob : Outbox) : Outbox :=
  match to_string (mkRecord path body (a_ts io)) with
  | None => add_dropped 1 ob
  | Some s =>
      let line := (s +:+ String newline EmptyString)%string in
      if match a_avail io with Some avail => below_self_floor ob avail | None => false end
      then add_dropped 1 ob
      else
        let cur := file_len (a_stat io) ACTIVE_FILE (dir ob) in
        if max_bytes ob <? u64_sat_add cur (Z.of_nat (String.length line)) then
          match on_full ob with
          | Stop => add_dropped 1 ob
          | DropOldest => append_record io line (trim_oldest io ob)
          end
        else append_record io line ob
  end.

(** * Replaying *)
Record RotateIo := mkRotateIo {
  r_stat : bool;
  r_now_nanos : Z;
  r_rename : bool;
  r_read_dir : bool;
}.

Definition seg_name (stamp n : Z) : string :=
  (REPLAY_PREFIX +:+ fmt_padded 20 stamp +:+ "." +:+ fmt_padded 6 n +:+ ".jsonl")%string.

Definition is_segment (name : string) : bool :=
  starts_with name REPLAY_PREFIX && ends_with name ".jsonl".

Definition rename (from to : string) (d : gmap string string) : gmap string string :=
  match d !! from with
  | Some contents => <[to := contents]> (delete from d)
  | None => d
  end.

Definition list_segments (d : gmap string string) : list string :=
  sort_by ord_cmp (filter (λ n, is_segment n = true) (elements (dom d))).

Definition rotate_and_list_segments (io : RotateIo) (ob : Outbox) : Outbox * list string :=
  let ob :=
    if 0 <? file_len (r_stat io) ACTIVE_FILE (dir ob) then
      let seg := seg_name (r_now_nanos io) (seq ob) in
      let ob := next_seq ob in
      if r_rename io then set_dir (rename ACTIVE_FILE seg (dir ob)) ob else ob
    else ob in
  (ob, if r_read_dir io then list_segments (dir ob) else []).

Definition parse_lines (contents : string) : list OutboxRecord :=
  omap from_str (filter (λ l, trim l ≠ ""%string) (lines contents)).

Definition read_segment (ok : bool) (seg : string) (d : gmap string string) : list OutboxRecord :=
  match read_to_string ok seg d with
  | None => []
  | Some contents => parse_lines contents
  end.

Record SegIo := mkSegIo { s_read : bool; s_remove : bool; s_write : WriteOutcome }.

Definition finish_segment (io : SegIo) (seg : string) (remainder : list OutboxRecord) (d : gmap string string) :
    gmap string string :=
  match remainder with
  | [] => if s_remove io then delete seg d else d
  | _ =>
      let body := String.concat (String newline EmptyString) (omap to_string remainder) in
      fs_write (s_write io) seg (body +:+ String newline EmptyString)%string d
  end.

Record ReplayStats := mkStats { replayed : Z; failed : Z; segments : Z }.

(** The world a sweep meets: at its [k]-th record, whether the breaker reads up
    and whether the POST gets a 2xx answer. *)
Record Net := mkNet { net_up : nat → bool; net_post : nat → OutboxRecord → bool }.

(** The loop over a segment's records, from index [i]: the index where it
    stopped, whether it was cut short, and what it posted. *)
Fixpoint replay_loop (net : Net) (k i idx : nat) (recs : list OutboxRecord) (st : ReplayStats) :
    nat * nat * bool * ReplayStats * list OutboxRecord :=
  match recs with
  | [] => (k, idx, false, st, [])
  | r :: rest =>
      if negb (net_up net k) then (k, i, true, st, [])
      else if net_post net k r then
        let '(k', idx', aborted, st', sent) :=
          replay_loop net (S k) (S i) (S i) rest (mkStats (u64_incr (replayed st)) (failed st) (segments st)) in
        (k', idx', aborted, st', r :: sent)
      else (S k, i, true, mkStats (replayed st) (u64_incr (failed st)) (segments st), [])
  end.

Fixpoint replay_segments (net : Net) (ios : nat → SegIo) (k j : nat) (segs : list string)
    (d : gmap string string) (st : ReplayStats) : gmap string string * ReplayStats * list OutboxRecord :=
  match segs with
  | [] => (d, st, [])
  | seg :: segs' =>
      let st := mkStats (replayed st) (failed st) (u64_incr (segments st)) in
      let records := read_segment (s_read (ios j)) seg d in
      let '(k', idx, aborted, st, sent) := replay_loop net k 0 0 records st in
      let remainder := if aborted then drop idx records else [] in
      let d := finish_segment (ios j) seg remainder d in
      if aborted then (d, st, sent)
      else
        let '(d, st, sent') := replay_segments net ios k' (S j) segs' d st in
        (d, st, sent ++ sent')
  end.

(** [replay], with the records it posted. *)
Definition replay (net : Net) (rio : RotateIo) (ios : nat → SegIo) (ob : Outbox) :
    Outbox * ReplayStats * list OutboxRecord :=
  let '(ob, segs) := rotate_and_list_segments rio ob in
  let '(d, st, sent) := replay_segments net ios 0 0 segs (dir ob) (mkStats 0 0 0) in
  (set_dir d ob, st, sent).
End outbox.
