(* ===== verification/OutboxQueue.v ===== *)
(** The spool as a queue of records: what [append] adds and what [replay] posts
    and keeps. *)

From Stdlib Require Import Ascii ZArith.
From stdpp Require Import base numbers strings sets gmap list sorting.
From S2P Require Import Prelude Text Numbers BTree HealthWatchdog Outbox.
#[local] Open Scope Z_scope.

#[local] Notation nl := (String newline EmptyString).

(** * Segment names *)

(** Padded decimals compare as the numbers they stand for. *)
Lemma digit_cmp a b : (0 ≤ a < 10)%Z → (0 ≤ b < 10)%Z →
  N.compare (N_of_ascii (digit a)) (N_of_ascii (digit b)) = Z.compare a b.
Proof.
  intros Ha Hb. unfold digit. rewrite !N_ascii_embedding by lia.
  rewrite <- N2Z.inj_compare. destruct (Z.compare_spec a b); [apply Z.compare_eq_iff|apply Z.compare_lt_iff|apply Z.compare_gt_iff]; lia.
Qed.

Lemma str_cmp_pad w n m s t : (0 ≤ n < 10 ^ Z.of_nat w)%Z → (0 ≤ m < 10 ^ Z.of_nat w)%Z →
  str_cmp (pad w n +:+ s) (pad w m +:+ t) =
  match Z.compare n m with Eq => str_cmp s t | c => c end.
Proof.
  revert n m. induction w as [|w IH]; intros n m Hn Hm.
  - simpl in Hn, Hm. replace n with 0%Z by lia. by replace m with 0%Z by lia.
  - simpl pad. rewrite !str_app_cons. cbn [str_cmp].
    rewrite Nat2Z.inj_succ, Z.pow_succ_r in Hn, Hm by lia. set (p := (10 ^ Z.of_nat w)%Z) in *.
    assert (Hp : (0 < p)%Z) by (unfold p; lia).
    assert (Hq : ∀ x, (0 ≤ x < 10 * p)%Z → (0 ≤ x / p < 10)%Z).
    { intros x Hx. split; [by apply Z.div_pos; lia|]. apply Z.div_lt_upper_bound; lia. }
    rewrite digit_cmp by auto. rewrite IH by (apply Z.mod_pos_bound; lia).
    pose proof (Z.div_mod n p ltac:(lia)) as En. pose proof (Z.div_mod m p ltac:(lia)) as Em.
    pose proof (Z.mod_pos_bound n p Hp). pose proof (Z.mod_pos_bound m p Hp).
    destruct (Z.compare_spec (n / p) (m / p)) as [E|L|L].
    + assert (Z.compare n m = Z.compare (n mod p) (m mod p)) as ->; [|done].
      destruct (Z.compare_spec (n mod p) (m mod p)); [apply Z.compare_eq_iff|apply Z.compare_lt_iff|apply Z.compare_gt_iff]; nia.
    + by assert (Z.compare n m = Lt) as -> by (apply Z.compare_lt_iff; nia).
    + by assert (Z.compare n m = Gt) as -> by (apply Z.compare_gt_iff; nia).
Qed.

Lemma str_cmp_app s t u : str_cmp (s +:+ t) (s +:+ u) = str_cmp t u.
Proof.
  induction s as [|c s IH]; [done|]. rewrite !str_app_cons. cbn [str_cmp]. by rewrite N.compare_refl, IH.
Qed.

(** Stamps and sequence numbers that fit their padding. *)
Definition stamp_ok (p : Z * Z) : Prop := 0 ≤ p.1 < 10 ^ 20 ∧ 0 ≤ p.2 < 10 ^ 6.

Lemma seg_name_cmp p q : stamp_ok p → stamp_ok q →
  str_cmp (seg_name p.1 p.2) (seg_name q.1 q.2) = ord_cmp p q.
Proof.
  intros [H1 H2] [H3 H4]. unfold seg_name, fmt_padded.
  change (10 ^ Z.of_nat 20) with (10 ^ 20). change (10 ^ Z.of_nat 6) with (10 ^ 6).
  rewrite !(proj2 (Z.ltb_lt _ _)) by lia.
  rewrite str_cmp_app, str_cmp_pad by done. cbn [ord_cmp pair_ord Z_ord]. unfold pair_cmp. cbn [ord_cmp Z_ord].
  destruct (p.1 ?= q.1); [|done|done].
  rewrite str_cmp_app, str_cmp_pad by done. by destruct (p.2 ?= q.2).
Qed.

Lemma string_length_app (s t : string) : String.length (s +:+ t) = (String.length s + String.length t)%nat.
Proof. induction s as [|c s IH]; [done|]. rewrite str_app_cons. simpl. by rewrite IH. Qed.

Lemma starts_with_app p s : starts_with (p +:+ s) p = true.
Proof.
  unfold starts_with. induction p as [|c p IH]; [by destruct s|]. rewrite str_app_cons. simpl.
  by destruct (ascii_dec c c).
Qed.

Lemma seg_name_segment stamp n : is_segment (seg_name stamp n) = true.
Proof.
  unfold is_segment, seg_name. rewrite starts_with_app. simpl. unfold ends_with.
  rewrite !str_app_assoc, str_rev_app. apply starts_with_app.
Qed.

Lemma active_not_segment : is_segment ACTIVE_FILE = false.
Proof. done. Qed.

Section queue.
Context {Value : Type} `{JsonLaws Value}.
Notation OutboxRecord := (OutboxRecord Value).
Implicit Types (rs recs rem sent : list OutboxRecord) (d : gmap string string).

(** * The wire format *)

(** The bytes of a file that holds the records, a line each. *)
Fixpoint wire rs : option string :=
  match rs with
  | [] => Some EmptyString
  | r :: rs => s ← to_string r; t ← wire rs; Some (s +:+ (nl +:+ t))%string
  end.

Lemma wire_cons r rs c : wire (r :: rs) = Some c ↔
  ∃ s t, to_string r = Some s ∧ wire rs = Some t ∧ c = (s +:+ (nl +:+ t))%string.
Proof.
  simpl. destruct (to_string r) as [s|]; simpl; [|naive_solver].
  destruct (wire rs) as [t|]; simpl; naive_solver.
Qed.

Lemma wire_utf8 rs c : wire rs = Some c → utf8_valid c = true.
Proof.
  revert c. induction rs as [|r rs IH]; intros c; [by intros [= <-]|].
  intros (s & t & Hs & Ht & ->)%wire_cons. apply utf8_valid_app; [by eapply json_utf8|].
  apply utf8_valid_app; [done|by apply IH].
Qed.

(** Its lines are the records' texts. *)
Lemma wire_lines rs c : wire rs = Some c → map Some (lines c) = map to_string rs.
Proof.
  revert c. induction rs as [|r rs IH]; intros c; [by intros [= <-]|].
  intros (s & t & Hs & Ht & ->)%wire_cons.
  change (nl +:+ t) with (String newline t). rewrite lines_line by (by eapply json_control).
  simpl. by rewrite Hs, (IH t).
Qed.

Lemma wire_length rs c : wire rs = Some c → length (lines c) = length rs.
Proof. intros Hw. rewrite <- (length_map Some (lines c)), (wire_lines rs) by done. apply length_map. Qed.

Lemma parse_text r s : to_string r = Some s → trim s ≠ ""%string ∧ from_str s = Some r.
Proof.
  intros Hs. destruct (json_object r s Hs) as [m ->]. rewrite trim_braces.
  split; [done|by apply json_roundtrip].
Qed.

Lemma parse_texts rs ls : map Some ls = map to_string rs →
  omap from_str (filter (λ l, trim l ≠ ""%string) ls) = rs.
Proof.
  revert ls. induction rs as [|r rs IH]; intros [|l ls] E; simplify_eq/=; [done|].
  destruct (parse_text r l) as [Ht Hf]; [done|].
  rewrite filter_cons_True by done. simpl. rewrite Hf. f_equal. by apply IH.
Qed.

Lemma parse_wire rs c : wire rs = Some c → parse_lines c = rs.
Proof. intros Hw. apply parse_texts. by apply wire_lines. Qed.

Lemma wire_app rs rs' c c' : wire rs = Some c → wire rs' = Some c' → wire (rs ++ rs') = Some (c +:+ c')%string.
Proof.
  revert c. induction rs as [|r rs IH]; intros c; [by intros [= <-]|].
  intros (s & t & Hs & Ht & ->)%wire_cons Hc'. cbn [app]. apply wire_cons.
  exists s, (t +:+ c')%string. by rewrite (IH t), <- !str_app_assoc.
Qed.

(** Texts joined as the source joins them. *)
Lemma wire_join rs ls : rs ≠ [] → map Some ls = map to_string rs →
  wire rs = Some (String.concat nl ls +:+ nl)%string.
Proof.
  revert ls. induction rs as [|r rs IH]; intros [|l ls] Hne E; try done.
  simpl in E. injection E as Hl E.
  destruct rs as [|r' rs].
  - destruct ls; [|done]. simpl. by rewrite <- Hl.
  - cbn [wire] in *. rewrite <- Hl, (IH ls) by done. simpl. destruct ls as [|l' ls]; [done|].
    by rewrite <- !str_app_assoc.
Qed.

Lemma wire_texts rs c : wire rs = Some c → map Some (omap to_string rs) = map to_string rs.
Proof.
  revert c. induction rs as [|r rs IH]; intros c; [done|].
  intros (s & t & Hs & Ht & ->)%wire_cons. simpl. rewrite Hs. simpl. f_equal. by eapply IH.
Qed.

Lemma wire_suffix rs rs' c : wire (rs ++ rs') = Some c → ∃ c', wire rs' = Some c'.
Proof.
  revert c. induction rs as [|r rs IH]; intros c; [eauto|].
  intros (s & t & Hs & Ht & ->)%wire_cons. by eapply IH.
Qed.
(** * The queue *)

Definition file_records d (n : string) : list OutboxRecord :=
  match d !! n with Some c => parse_lines c | None => [] end.

(** Segments from the oldest, then the active file. *)
Definition in_segments d : list OutboxRecord := concat (map (file_records d) (list_segments d)).
Definition queue d : list OutboxRecord := in_segments d ++ file_records d ACTIVE_FILE.

Record spool_ok d : Prop := {
  spool_wire n c : n = ACTIVE_FILE ∨ is_segment n = true → d !! n = Some c → ∃ rs, wire rs = Some c;
  spool_names n : is_segment n = true → n ∈ dom d → ∃ p, stamp_ok p ∧ n = seg_name p.1 p.2;
}.

Lemma elem_list_segments n d : n ∈ list_segments d ↔ is_segment n = true ∧ n ∈ dom d.
Proof. unfold list_segments. by rewrite sort_by_perm, list_elem_of_filter, elem_of_elements. Qed.

Lemma list_segments_sorted d : StronglySorted ord_lt (list_segments d).
Proof. apply sort_by_sorted, NoDup_filter, NoDup_elements. Qed.

(** Segments depend on the segment names alone. *)
Lemma list_segments_ext d d' : (∀ n, is_segment n = true → n ∈ dom d ↔ n ∈ dom d') →
  list_segments d = list_segments d'.
Proof.
  intros Hd. apply sorted_ext; [apply list_segments_sorted..|].
  intros n. rewrite !elem_list_segments. naive_solver.
Qed.

Lemma in_segments_ext d d' : (∀ n, is_segment n = true → d !! n = d' !! n) → in_segments d = in_segments d'.
Proof.
  intros Hd. unfold in_segments. rewrite (list_segments_ext d d').
  - f_equal. apply map_ext_in. intros n Hn%list_elem_of_In%elem_list_segments. unfold file_records.
    by rewrite Hd by apply Hn.
  - intros n Hn. by rewrite !elem_of_dom, Hd.
Qed.

Lemma segment_not_active n : is_segment n = true → n ≠ ACTIVE_FILE.
Proof. by intros Hn ->. Qed.

(** Writing the active file. *)
Lemma in_segments_active c d : in_segments (<[ACTIVE_FILE := c]> d) = in_segments d.
Proof. apply in_segments_ext. intros n Hn%segment_not_active. by rewrite lookup_insert_ne. Qed.

Lemma queue_active rs c d : wire rs = Some c → queue (<[ACTIVE_FILE := c]> d) = in_segments d ++ rs.
Proof.
  intros Hw. unfold queue. rewrite in_segments_active. f_equal. unfold file_records.
  by rewrite lookup_insert_eq, (parse_wire rs).
Qed.

Lemma spool_ok_active rs c d : wire rs = Some c → spool_ok d → spool_ok (<[ACTIVE_FILE := c]> d).
Proof.
  intros Hw [Hwire Hnames]. split.
  - intros n c' Hn. destruct (decide (n = ACTIVE_FILE)) as [->|Hne].
    + rewrite lookup_insert_eq. intros [= <-]. eauto.
    + rewrite lookup_insert_ne by done. naive_solver.
  - intros n Hn. rewrite dom_insert, elem_of_union, elem_of_singleton.
    intros [->|Hd]; [done|]. by apply Hnames.
Qed.

(** The records of the active file, with its bytes. *)
Lemma active_wire d : spool_ok d → wire (file_records d ACTIVE_FILE) = Some (default ""%string (d !! ACTIVE_FILE)).
Proof.
  intros [Hwire _]. unfold file_records. destruct (d !! ACTIVE_FILE) as [c|] eqn:E; [|done]. simpl.
  destruct (Hwire ACTIVE_FILE c) as [rs Hrs]; [by left|done|]. by rewrite (parse_wire rs).
Qed.
(** * Appending *)
Definition append_io_ok (io : AppendIo) : Prop :=
  a_stat io = true ∧ a_trim_read io = true ∧ a_trim_write io = WritesAll ∧ a_write io = WritesAll.

(** How many of the active records [trim_oldest] drops. *)
Definition trimmed (n : nat) : nat := if decide (n = 0%nat) then 0 else Nat.max (n / 4) 1.

Lemma join_nonempty rs ls : rs ≠ [] → map Some ls = map to_string rs → String.concat nl ls ≠ ""%string.
Proof.
  intros Hne E. destruct rs as [|r rs], ls as [|l ls]; try done. simpl in E. injection E as Hl _.
  destruct (json_object r l (eq_sym Hl)) as [m ->]. by destruct ls.
Qed.

Lemma trim_oldest_spec io ob : append_io_ok io → spool_ok (dir ob) →
  let act := file_records (dir ob) ACTIVE_FILE in
  let n := trimmed (length act) in
  act ≠ [] → ∃ c, wire (drop n act) = Some c ∧
    trim_oldest io ob = set_dir (<[ACTIVE_FILE := c]> (dir ob)) (add_dropped (Z.of_nat n) ob).
Proof.
  intros (_ & Hr & Hw & _) Hok act n Hne. pose proof (active_wire _ Hok) as Ha. fold act in Ha.
  assert (Hlen : length act ≠ 0%nat) by (by destruct act).
  unfold trim_oldest, read_to_string. rewrite Hr, Hw.
  destruct (dir ob !! ACTIVE_FILE) as [c0|] eqn:E; simpl in Ha; cbn [mbind option_bind].
  2:{ destruct act; [done|]. apply wire_cons in Ha as (s & t & Hs & _ & Hc).
      destruct (json_object _ _ Hs) as [m ->]. done. }
  rewrite (wire_utf8 act) by done. cbn [andb].
  pose proof (wire_lines act c0 Ha) as Hls. pose proof (wire_length act c0 Ha) as Hll.
  destruct (decide (lines c0 = [])) as [El|_]; [by rewrite El in Hll; simpl in Hll; lia|].
  assert (Hn : n = Nat.max (length (lines c0) / 4) 1).
  { unfold n, trimmed. rewrite Hll. by destruct (decide (length act = 0%nat)). }
  rewrite <- Hn.
  assert (Hd : map Some (drop n (lines c0)) = map to_string (drop n act)) by (by rewrite <- !skipn_map, Hls).
  destruct (decide (drop n act = [])) as [Ed|Ed].
  - exists ""%string. rewrite Ed in Hd |- *. destruct (drop n (lines c0)); [|done]. done.
  - eexists. split; [by apply wire_join|].
    destruct (decide (String.concat nl (drop n (lines c0)) = ""%string)) as [E0|_]; [|done].
    by destruct (join_nonempty _ _ Ed Hd).
Qed.

Lemma trim_oldest_empty io ob : spool_ok (dir ob) →
  file_records (dir ob) ACTIVE_FILE = [] → trim_oldest io ob = ob.
Proof.
  intros Hok Ha. pose proof (active_wire _ Hok) as Hw. rewrite Ha in Hw. injection Hw as Hw.
  unfold trim_oldest, read_to_string. destruct (dir ob !! ACTIVE_FILE) as [c0|]; [|done].
  simpl in Hw. subst c0. by destruct (a_trim_read io).
Qed.

Lemma append_record_spec io r s ob : append_io_ok io → spool_ok (dir ob) → to_string r = Some s →
  let ob' := append_record io (s +:+ nl)%string ob in
  spool_ok (dir ob') ∧ queue (dir ob') = queue (dir ob) ++ [r] ∧ dropped ob' = dropped ob.
Proof.
  intros (_ & _ & _ & Hw) Hok Hs ob'. unfold ob', append_record, append_line. rewrite Hw.
  pose proof (active_wire _ Hok) as Ha.
  assert (Hr : wire [r] = Some (s +:+ nl)%string) by (simpl; by rewrite Hs).
  pose proof (wire_app _ _ _ _ Ha Hr) as Hw'. cbn [dir set_dir dropped].
  split_and!; [by eapply spool_ok_active|rewrite (queue_active _ _ _ Hw'); unfold queue; by rewrite assoc_L by apply _|done].
Qed.

(** An append that meets no I/O error either refuses the record and counts it, or
    puts it at the end of the queue, having dropped and counted [n] of the oldest
    active records to make room. *)
Definition appended (r : OutboxRecord) (ob ob' : Outbox) : Prop :=
  (queue (dir ob') = queue (dir ob) ∧ dropped ob' = u64_add (dropped ob) 1) ∨
  ∃ n, (n ≤ length (file_records (dir ob) ACTIVE_FILE))%nat ∧ (on_full ob = Stop → n = 0%nat) ∧
    queue (dir ob') = in_segments (dir ob) ++ drop n (file_records (dir ob) ACTIVE_FILE) ++ [r] ∧
    dropped ob' = u64_add (dropped ob) (Z.of_nat n).

Lemma trimmed_le n : (trimmed n ≤ n)%nat.
Proof. unfold trimmed. destruct (decide _); [lia|]. pose proof (Nat.Div0.div_le_upper_bound n 4 n ltac:(lia)). lia. Qed.

Lemma append_record_appended io r s ob : append_io_ok io → spool_ok (dir ob) → to_string r = Some s →
  0 ≤ dropped ob < 2 ^ 64 →
  let ob' := append_record io (s +:+ nl)%string ob in spool_ok (dir ob') ∧ appended r ob ob'.
Proof.
  intros Hio Hok Hs Hdr ob'. destruct (append_record_spec io r s ob Hio Hok Hs) as (H1 & H2 & H3).
  split; [done|]. right. exists 0%nat. unfold ob'. rewrite H2, H3. unfold queue. rewrite <- (assoc_L app).
  split_and!; [lia|done|done|]. unfold u64_add. rewrite Z.mod_small; lia.
Qed.

Lemma append_spec io path body ob : append_io_ok io → spool_ok (dir ob) → 0 ≤ dropped ob < 2 ^ 64 →
  let ob' := append io path body ob in
  spool_ok (dir ob') ∧ appended (mkRecord path body (a_ts io)) ob ob'.
Proof.
  intros Hio Hok Hdr ob'. unfold ob', append. set (r := mkRecord _ _ _).
  destruct (to_string r) as [s|] eqn:Hs; [|by split; [|left]].
  destruct (match a_avail io with Some _ => _ | None => _ end); [by split; [|left]|].
  destruct (max_bytes ob <? _); [|by apply append_record_appended].
  destruct (on_full ob) eqn:Ef; [by split; [|left]|].
  destruct (decide (file_records (dir ob) ACTIVE_FILE = [])) as [Ea|Ea].
  { rewrite trim_oldest_empty by done. by apply append_record_appended. }
  destruct (trim_oldest_spec io ob Hio Hok Ea) as (c & Hc & ->).
  set (ob1 := set_dir _ _).
  destruct (append_record_spec io r s ob1) as (H1 & H2 & H3); [done|by eapply spool_ok_active|done|].
  split; [exact H1|]. right. eexists. split_and!; [apply trimmed_le|by rewrite Ef| |exact H3].
  rewrite H2. unfold ob1. cbn [dir set_dir add_dropped]. by rewrite (queue_active _ _ _ Hc), <- (assoc_L app).
Qed.

(** Under [Stop] the active file never outgrows its cap. *)
Lemma append_stop_bound io path body ob : append_io_ok io → on_full ob = Stop →
  0 ≤ max_bytes ob < u64_max →
  file_len true ACTIVE_FILE (dir ob) ≤ max_bytes ob →
  file_len true ACTIVE_FILE (dir (append io path body ob)) ≤ max_bytes ob.
Proof.
  intros (Hst & _ & _ & Hw) Hstop Hm Hlen. unfold append. destruct (to_string _) as [s|]; [|done].
  destruct (match a_avail io with Some _ => _ | None => _ end); [done|]. rewrite Hstop, Hst.
  destruct (Z.ltb_spec (max_bytes ob) (u64_sat_add (file_len true ACTIVE_FILE (dir ob)) (Z.of_nat (String.length (s +:+ nl)))))
    as [Hlt|Hge]; [done|]. unfold append_record, append_line. rewrite Hw. cbn [dir set_dir].
  unfold u64_sat_add in Hge. unfold file_len in *. rewrite lookup_insert_eq.
  rewrite string_length_app. destruct (dir ob !! ACTIVE_FILE); simpl in *; lia.
Qed.
(** * Replaying *)

(** The records split at the index where the loop stopped. *)
Lemma replay_loop_split net k i (recs : list OutboxRecord) st k' idx ab st' sent :
  0 ≤ replayed st < 2 ^ 64 →
  replay_loop net k i i recs st = (k', idx, ab, st', sent) →
  (i ≤ idx)%nat ∧
  recs = sent ++ (if ab : bool then drop (idx - i) recs else []) ∧
  (ab = true → drop (idx - i) recs ≠ []) ∧
  replayed st' = (replayed st + Z.of_nat (length sent)) mod 2 ^ 64.
Proof.
  revert k i st k' idx ab st' sent.
  induction recs as [|r recs IH]; intros k i st k' idx ab st' sent Hst; cbn [replay_loop].
  { intros [= <- <- <- <- <-]. split_and!; [lia|done..|]. simpl. by rewrite Z.add_0_r, Z.mod_small. }
  destruct (negb (net_up net k)).
  { intros [= <- <- <- <- <-]. rewrite Nat.sub_diag. split_and!; [lia|done..|]. simpl. by rewrite Z.add_0_r, Z.mod_small. }
  destruct (net_post net k r).
  2:{ intros [= <- <- <- <- <-]. rewrite Nat.sub_diag. split_and!; [lia|done..|]. simpl. by rewrite Z.add_0_r, Z.mod_small. }
  destruct (replay_loop net (S k) (S i) (S i) recs _) as [[[[k1 idx1] ab1] st1] sent1] eqn:E.
  intros [= <- <- <- <- <-]. apply IH in E as (Hi & Hs & Hne & Hr).
  2:{ cbn [replayed]. unfold u64_incr. apply Z.mod_pos_bound. lia. }
  replace (idx1 - i)%nat with (S (idx1 - S i)) by lia. cbn [drop app].
  split_and!; [lia|by rewrite <- Hs|done|].
  rewrite Hr. cbn [replayed length]. unfold u64_incr. rewrite Zplus_mod_idemp_l. f_equal. lia.
Qed.

Lemma replay_loop_online net k i (recs : list OutboxRecord) st k' idx ab st' sent :
  (∀ j, net_up net j = true) → (∀ j r, net_post net j r = true) →
  replay_loop net k i i recs st = (k', idx, ab, st', sent) → ab = false.
Proof.
  intros Hup Hpost. revert k i st k' idx ab st' sent.
  induction recs as [|r recs IH]; intros k i st k' idx ab st' sent; cbn [replay_loop]; [by intros [= <- <- <- <- <-]|].
  rewrite Hup, Hpost. cbn [negb].
  destruct (replay_loop net (S k) (S i) (S i) recs _) as [[[[k1 idx1] ab1] st1] sent1] eqn:E.
  intros [= <- <- <- <- <-]. by eapply IH.
Qed.

Definition seg_io_ok (io : SegIo) : Prop := s_read io = true ∧ s_remove io = true ∧ s_write io = WritesAll.

Lemma read_segment_ok io seg d : seg_io_ok io → spool_ok d → is_segment seg = true →
  read_segment (s_read io) seg d = file_records d seg.
Proof.
  intros (-> & _) [Hwire _] Hseg. unfold read_segment, read_to_string, file_records.
  destruct (d !! seg) as [c|] eqn:E; [|done]. destruct (Hwire seg c) as [rs Hrs]; [by right|done|].
  cbn [mbind option_bind]. by rewrite (wire_utf8 rs).
Qed.

Lemma finish_segment_ok io seg sent rem d : seg_io_ok io → spool_ok d → is_segment seg = true →
  file_records d seg = sent ++ rem →
  let d' := finish_segment io seg rem d in
  spool_ok d' ∧ (∀ n, n ≠ seg → d' !! n = d !! n) ∧ file_records d' seg = rem ∧ (rem = [] → d' !! seg = None).
Proof.
  intros (_ & Hrm & Hw) Hok Hseg Hrec. destruct rem as [|r rem]; cbn [finish_segment].
  { rewrite Hrm. split_and!.
    - destruct Hok as [Hwire Hnames]. split.
      + intros n c Hn Hc. apply lookup_delete_Some in Hc as [_ Hc]. by eapply Hwire.
      + intros n Hn. rewrite dom_delete. intros Hd. apply Hnames; set_solver.
    - intros n Hn. by rewrite lookup_delete_ne.
    - unfold file_records. by rewrite lookup_delete_eq.
    - intros _. apply lookup_delete_eq. }
  rewrite Hw. cbn [fs_write].
  destruct (d !! seg) as [c0|] eqn:Ec.
  2:{ unfold file_records in Hrec. rewrite Ec in Hrec. by destruct sent. }
  assert (Hw0 : wire (sent ++ r :: rem) = Some c0).
  { destruct Hok as [Hwire _]. destruct (Hwire seg c0) as [rs Hrs]; [by right|done|].
    unfold file_records in Hrec. rewrite Ec, (parse_wire rs) in Hrec by done. by rewrite <- Hrec. }
  destruct (wire_suffix _ _ _ Hw0) as [c' Hc'].
  assert (Hj := wire_join (r :: rem) (omap to_string (r :: rem)) ltac:(done) (wire_texts _ _ Hc')).
  split_and!.
  - destruct Hok as [Hwire Hnames]. split.
    + intros n c Hn. destruct (decide (n = seg)) as [->|Hne].
      * rewrite lookup_insert_eq. intros [= <-]. eauto.
      * rewrite lookup_insert_ne by done. by apply Hwire.
    + intros n Hn. rewrite dom_insert. intros Hd. apply Hnames; [done|].
      apply elem_of_union in Hd as [->%elem_of_singleton|Hd]; [|done]. apply elem_of_dom. eauto.
  - intros n Hn. by rewrite lookup_insert_ne.
  - unfold file_records. rewrite lookup_insert_eq. by apply parse_wire.
  - done.
Qed.
Lemma file_records_lookup d d' n : d' !! n = d !! n → file_records d' n = file_records d n.
Proof. unfold file_records. by intros ->. Qed.

Lemma records_ext d d' segs : (∀ n, n ∈ segs → d' !! n = d !! n) →
  map (file_records d') segs = map (file_records d) segs.
Proof. intros Hd. apply map_ext_in. intros n Hn%list_elem_of_In. by apply file_records_lookup, Hd. Qed.

Lemma replay_segments_spec net ios k j segs d st d' st' sent :
  (∀ i, seg_io_ok (ios i)) → spool_ok d → NoDup segs → Forall (λ n, is_segment n = true) segs →
  0 ≤ replayed st < 2 ^ 64 →
  replay_segments net ios k j segs d st = (d', st', sent) →
  spool_ok d' ∧ (∀ n, n ∉ segs → d' !! n = d !! n) ∧
  concat (map (file_records d) segs) = sent ++ concat (map (file_records d') segs) ∧
  replayed st' = (replayed st + Z.of_nat (length sent)) mod 2 ^ 64.
Proof.
  intros Hios. revert k j d st d' st' sent.
  induction segs as [|seg segs IH]; intros k j d st d' st' sent Hok Hnd Hseg Hst; cbn [replay_segments].
  { intros [= <- <- <-]. split_and!; [done..|]. simpl. by rewrite Z.add_0_r, Z.mod_small. }
  apply NoDup_cons in Hnd as [Hnin Hnd]. apply Forall_cons in Hseg as [Hs Hseg].
  rewrite read_segment_ok by done.
  destruct (replay_loop _ _ _ _ _ _) as [[[[k1 idx] ab] st1] sent1] eqn:El.
  apply replay_loop_split in El as (_ & Hsplit & Hne & Hr1); [|done]. rewrite Nat.sub_0_r in Hsplit, Hne.
  cbn [replayed] in Hr1. set (rem := if ab then _ else []) in Hsplit |- *.
  destruct (finish_segment_ok (ios j) seg sent1 rem d) as (Hok1 & Hfr1 & Hrem & _); [done..|].
  set (d1 := finish_segment (ios j) seg rem d) in *.
  assert (Hmap : map (file_records d1) segs = map (file_records d) segs).
  { apply records_ext. intros n Hn. apply Hfr1. by intros ->. }
  destruct ab.
  - intros [= <- <- <-]. split_and!; [done|intros n [Hn _]%not_elem_of_cons; by apply Hfr1| |done].
    cbn [map concat]. by rewrite Hmap, Hrem, (assoc_L app), <- Hsplit.
  - destruct (replay_segments net ios k1 (S j) segs d1 st1) as [[d2 st2] sent2] eqn:E2.
    intros [= <- <- <-]. apply IH in E2 as (Hok2 & Hfr2 & Hsent & Hr2); [|done..|].
    2:{ rewrite Hr1. apply Z.mod_pos_bound. lia. }
    split_and!; [done|intros n [Hn1 Hn2]%not_elem_of_cons; rewrite Hfr2 by done; by apply Hfr1| |].
    + cbn [map concat]. rewrite <- Hmap, Hsent, Hsplit. unfold rem.
      rewrite (file_records_lookup d1 d2 seg) by (by apply Hfr2). rewrite Hrem. unfold rem.
      by rewrite app_nil_r, (assoc_L app).
    + rewrite Hr2, Hr1, Zplus_mod_idemp_l, length_app. f_equal. lia.
Qed.

(** When every POST is answered nothing is left in the segments. *)
Lemma replay_segments_online net ios k j segs d st d' st' sent :
  (∀ i, seg_io_ok (ios i)) → spool_ok d → NoDup segs → Forall (λ n, is_segment n = true) segs →
  0 ≤ replayed st < 2 ^ 64 →
  (∀ i, net_up net i = true) → (∀ i r, net_post net i r = true) →
  replay_segments net ios k j segs d st = (d', st', sent) → ∀ n, n ∈ segs → d' !! n = None.
Proof.
  intros Hios Hok Hnd Hseg Hst Hup Hpost. revert k j d st d' st' sent Hok Hst.
  induction segs as [|seg segs IH]; intros k j d st d' st' sent Hok Hst; cbn [replay_segments]; [set_solver|].
  apply NoDup_cons in Hnd as [Hnin Hnd]. apply Forall_cons in Hseg as [Hs Hseg].
  rewrite read_segment_ok by done.
  destruct (replay_loop _ _ _ _ _ _) as [[[[k1 idx] ab] st1] sent1] eqn:El.
  assert (ab = false) as -> by (by eapply replay_loop_online).
  apply replay_loop_split in El as (_ & Hsplit & _ & Hr1); [|done]. cbn [replayed] in Hr1.
  destruct (finish_segment_ok (ios j) seg sent1 [] d) as (Hok1 & _ & _ & Hgone); [done..|].
  destruct (replay_segments net ios k1 (S j) segs _ st1) as [[d2 st2] sent2] eqn:E2.
  intros [= <- <- <-] n. pose proof E2 as E3.
  assert (Hst1 : 0 ≤ replayed st1 < 2 ^ 64) by (rewrite Hr1; apply Z.mod_pos_bound; lia).
  apply replay_segments_spec in E3 as (_ & Hfr2 & _); [|done..].
  rewrite elem_of_cons. intros [->|Hn]; [rewrite Hfr2 by done; by apply Hgone|by eapply (IH Hnd Hseg)].
Qed.
(** * Rotation *)
Definition rotate_io_ok (io : RotateIo) : Prop := r_stat io = true ∧ r_rename io = true ∧ r_read_dir io = true.

(** The clock and the sequence number are past every segment in the directory. *)
Definition fresh_stamp (io : RotateIo) (ob : Outbox) : Prop :=
  stamp_ok (r_now_nanos io, seq ob) ∧
  ∀ p, stamp_ok p → seg_name p.1 p.2 ∈ dom (dir ob) → ord_lt p (r_now_nanos io, seq ob).

Lemma rename_segment io ob c : spool_ok (dir ob) → fresh_stamp io ob → dir ob !! ACTIVE_FILE = Some c →
  let seg := seg_name (r_now_nanos io) (seq ob) in
  let d' := rename ACTIVE_FILE seg (dir ob) in
  spool_ok d' ∧ queue d' = queue (dir ob) ∧ d' !! ACTIVE_FILE = None.
Proof.
  intros Hok [Hst Hfresh] Hc seg d'. pose proof (seg_name_segment (r_now_nanos io) (seq ob)) as Hseg. fold seg in Hseg.
  pose proof (segment_not_active seg Hseg) as Hne.
  assert (Hd' : d' = <[seg := c]> (delete ACTIVE_FILE (dir ob))) by (unfold d', rename; by rewrite Hc).
  assert (Hlt : Forall (λ n, ord_lt n seg) (list_segments (dir ob))).
  { apply Forall_forall. intros n [Hn Hdom]%elem_list_segments.
    destruct (spool_names _ Hok n Hn Hdom) as (p & Hp & ->). unfold ord_lt. cbn [ord_cmp string_ord].
    change (str_cmp (seg_name p.1 p.2) (seg_name (r_now_nanos io, seq ob).1 (r_now_nanos io, seq ob).2) = Lt).
    rewrite seg_name_cmp by done. by apply Hfresh. }
  assert (Hsegs : list_segments d' = list_segments (dir ob) ++ [seg]).
  { apply sorted_ext; [apply list_segments_sorted| |].
    - apply StronglySorted_app_2; [|apply list_segments_sorted|repeat constructor].
      intros n m Hn ->%list_elem_of_singleton. by eapply Forall_forall in Hlt.
    - intros n. rewrite elem_of_app, list_elem_of_singleton, !elem_list_segments, Hd', dom_insert, dom_delete.
      rewrite elem_of_union, elem_of_difference, !elem_of_singleton.
      split; [naive_solver|]. intros [[Hn Hd]| ->]; [|auto]. split; [done|right; split; [done|by apply segment_not_active]]. }
  assert (Hsame : ∀ n, n ∈ list_segments (dir ob) → d' !! n = dir ob !! n).
  { intros n Hn. rewrite Hd'. eapply Forall_forall in Hlt; [|done]. apply elem_list_segments in Hn as [Hn _].
    rewrite lookup_insert_ne, lookup_delete_ne; [done|by apply not_eq_sym, segment_not_active|].
    intros <-. by apply ord_lt_irrefl in Hlt. }
  assert (Hgone : d' !! ACTIVE_FILE = None) by (by rewrite Hd', lookup_insert_ne, lookup_delete_eq).
  split_and!; [|unfold queue, in_segments|done].
  - destruct Hok as [Hwire Hnames]. split.
    + intros n c' Hn. rewrite Hd', lookup_insert_Some, lookup_delete_Some.
      intros [[<- <-]|(_ & _ & Hc')]; [by eapply Hwire; [left|]|by eapply Hwire].
    + intros n Hn. rewrite Hd', dom_insert, elem_of_union, elem_of_singleton.
      intros [->|Hd]; [by exists (r_now_nanos io, seq ob)|]. apply Hnames; [done|].
      rewrite dom_delete in Hd. by apply elem_of_difference in Hd as [Hd _].
  - assert (Ha : file_records d' ACTIVE_FILE = []) by (unfold file_records; by rewrite Hgone).
    assert (Hs : file_records d' seg = file_records (dir ob) ACTIVE_FILE).
    { unfold file_records. by rewrite Hc, Hd', lookup_insert_eq. }
    rewrite Hsegs, map_app, concat_app, (records_ext _ _ _ Hsame), Ha. cbn [map concat].
    by rewrite Hs, !app_nil_r.
Qed.

Lemma rotate_spec io ob ob' segs : rotate_io_ok io → spool_ok (dir ob) → fresh_stamp io ob →
  rotate_and_list_segments io ob = (ob', segs) →
  spool_ok (dir ob') ∧ segs = list_segments (dir ob') ∧ queue (dir ob') = queue (dir ob) ∧
  file_records (dir ob') ACTIVE_FILE = [] ∧ dropped ob' = dropped ob ∧ on_full ob' = on_full ob.
Proof.
  intros (Hs & Hrn & Hrd) Hok Hfresh. unfold rotate_and_list_segments. rewrite Hs, Hrn, Hrd.
  unfold file_len. destruct (dir ob !! ACTIVE_FILE) as [c|] eqn:Ec.
  - destruct (rename_segment io ob c Hok Hfresh Ec) as (H1 & H2 & H3).
    destruct (Z.ltb_spec 0 (Z.of_nat (String.length c))); intros [= <- <-].
    + split_and!; try done. unfold file_records. cbn [dir set_dir next_seq]. by rewrite H3.
    + split_and!; try done. unfold file_records. rewrite Ec. destruct c; [done|simpl in *; lia].
  - intros [= <- <-]. split_and!; try done. unfold file_records. by rewrite Ec.
Qed.

Lemma sorted_filter (P : string → Prop) `{!∀ n, base.Decision (P n)} (segs : list string) :
  StronglySorted ord_lt segs → StronglySorted ord_lt (filter P segs).
Proof.
  induction 1 as [|n segs _ IH Hn]; [constructor|]. rewrite filter_cons. destruct (decide (P n)); [|done].
  constructor; [done|]. apply Forall_forall. intros m [_ Hm]%list_elem_of_filter. by eapply Forall_forall in Hn.
Qed.

(** The records left over [segs] are those of the segments that still exist. *)
Lemma in_segments_sub segs d : StronglySorted ord_lt segs → Forall (λ n, is_segment n = true) segs →
  (∀ n, n ∈ list_segments d → n ∈ segs) → concat (map (file_records d) segs) = in_segments d.
Proof.
  intros Hsort Hseg Hsub. assert (Hf : list_segments d = filter (λ n, n ∈ dom d) segs).
  { apply sorted_ext; [apply list_segments_sorted|by apply sorted_filter|].
    intros n. rewrite list_elem_of_filter. split.
    - intros Hn. split; [by apply elem_list_segments in Hn as [_ ?]|by apply Hsub].
    - intros [Hd Hn]. apply elem_list_segments. eapply Forall_forall in Hseg; eauto. }
  unfold in_segments. rewrite Hf. clear Hsort Hseg Hsub Hf.
  induction segs as [|n segs IH]; [done|]. rewrite filter_cons. cbn [map concat].
  destruct (decide (n ∈ dom d)) as [Hn|Hn]; cbn [map concat]; [by rewrite IH|].
  rewrite IH. unfold file_records at 1. by apply not_elem_of_dom in Hn as ->.
Qed.

Definition replay_io_ok (rio : RotateIo) (ios : nat → SegIo) (ob : Outbox) : Prop :=
  rotate_io_ok rio ∧ (∀ i, seg_io_ok (ios i)) ∧ fresh_stamp rio ob.

Lemma replay_spec net rio ios ob ob' st sent : replay_io_ok rio ios ob → spool_ok (dir ob) →
  replay net rio ios ob = (ob', st, sent) →
  spool_ok (dir ob') ∧ queue (dir ob) = sent ++ queue (dir ob') ∧
  replayed st = Z.of_nat (length sent) mod 2 ^ 64 ∧ dropped ob' = dropped ob ∧ on_full ob' = on_full ob ∧
  ((∀ i, net_up net i = true) → (∀ i r, net_post net i r = true) → queue (dir ob') = []).
Proof.
  intros (Hrio & Hios & Hfresh) Hok. unfold replay.
  destruct (rotate_and_list_segments rio ob) as [ob1 segs] eqn:E1.
  apply rotate_spec in E1 as (Hok1 & -> & Hq & Hact & Hdr & Hof); [|done..].
  destruct (replay_segments _ _ _ _ _ _ _) as [[d st1] sent1] eqn:E2. intros [= <- <- <-].
  pose proof (list_segments_sorted (dir ob1)) as Hsort. pose proof (bs_ok_NoDup _ Hsort) as Hnd.
  assert (Hseg : Forall (λ n, is_segment n = true) (list_segments (dir ob1))).
  { apply Forall_forall. by intros n [Hn _]%elem_list_segments. }
  pose proof E2 as E3. apply replay_segments_spec in E2 as (Hok2 & Hfr & Hsent & Hr); [|done..].
  assert (Hact2 : file_records d ACTIVE_FILE = []).
  { rewrite (file_records_lookup (dir ob1)), Hact; [done|]. apply Hfr. by intros [Hn _]%elem_list_segments. }
  assert (Hin : concat (map (file_records d) (list_segments (dir ob1))) = in_segments d).
  { apply in_segments_sub; [done..|]. intros n [Hn Hd]%elem_list_segments.
    destruct (decide (n ∈ list_segments (dir ob1))) as [|Hnot]; [done|].
    apply elem_list_segments. split; [done|]. apply elem_of_dom. rewrite <- (Hfr n Hnot). by apply elem_of_dom. }
  split_and!; [done| |done|done|done|].
  - rewrite <- Hq. unfold queue at 1. unfold in_segments. rewrite Hact, app_nil_r, Hsent, Hin.
    cbn [dir set_dir]. unfold queue. by rewrite Hact2, app_nil_r.
  - intros Hup Hpost. cbn [dir set_dir]. unfold queue. rewrite Hact2, app_nil_r, <- Hin.
    assert (Hnone : ∀ n, n ∈ list_segments (dir ob1) → d !! n = None).
    { by apply (replay_segments_online net ios 0 0 _ (dir ob1) (mkStats 0 0 0) d st1 sent1). }
    revert Hnone. clear. induction (list_segments (dir ob1)) as [|n segs IH]; intros Hnone; [done|].
    cbn [map concat]. rewrite IH by (intros; apply Hnone; by right).
    unfold file_records. by rewrite Hnone by left.
Qed.
End queue.

(** * A codec

    Records with no body, written as their path between braces. *)
Definition path_codec : JsonCodec unit := {|
  to_string r :=
    if all_bytes not_control (rec_path r) && utf8_valid (rec_path r) && (rec_ts r =? 0)
    then Some (String "{" (rec_path r +:+ "}")) else None;
  from_str s :=
    match s with
    | String "{" t => match str_rev t with String "}" p => Some (mkRecord (str_rev p) tt 0) | _ => None end
    | _ => None
    end;
|}.
#[local] Existing Instance path_codec.

Lemma path_codec_inv (r : OutboxRecord unit) s : to_string r = Some s →
  all_bytes not_control (rec_path r) = true ∧ utf8_valid (rec_path r) = true ∧ rec_ts r = 0 ∧
  s = (String "{" (rec_path r +:+ "}"))%string.
Proof.
  cbn [to_string path_codec]. destruct (_ && _) eqn:E; [|done]. intros [= <-].
  apply andb_prop in E as [[? ?]%andb_prop ?%Z.eqb_eq]. done.
Qed.

#[local] Instance path_codec_laws : JsonLaws unit.
Proof.
  split.
  - intros [p [] t] s (_ & _ & Ht & ->)%path_codec_inv. cbn [rec_ts rec_path] in *. subst t.
    cbn [from_str path_codec]. rewrite str_rev_app. change (str_rev "}") with "}"%string.
    rewrite str_app_cons, str_app_nil_l. by rewrite str_rev_involutive.
  - intros r s (_ & _ & _ & ->)%path_codec_inv. eauto.
  - intros r s (Hc & _ & _ & ->)%path_codec_inv. simpl. by rewrite all_bytes_app, Hc.
  - intros r s (_ & Hu & _ & ->)%path_codec_inv.
    apply (utf8_valid_app "{"); [done|]. by apply utf8_valid_app.
Qed.

(** Operations that meet no error, at second 0 and nanosecond [t]. *)
Definition calm_append : AppendIo := mkAppendIo 0 (Some (mkAvail (64 * GIB) 1000000)) true true WritesAll WritesAll.
Definition calm_rotate (t : Z) : RotateIo := mkRotateIo true t true true.
Definition calm_seg (_ : nat) : SegIo := mkSegIo true true WritesAll.
Definition online : Net (Value := unit) := mkNet (λ _, true) (λ _ _, true).

Lemma spool_ok_empty : spool_ok (Value := unit) ∅.
Proof. split; [by intros n c _; rewrite lookup_empty|by intros n _; rewrite dom_empty_L]. Qed.

(** A directory without segments is behind every clock. *)
Lemma fresh_without_segments io ob : stamp_ok (r_now_nanos io, seq ob) →
  list_segments (dir ob) = [] → fresh_stamp io ob.
Proof.
  intros Hst Hnil. split; [done|]. intros p _ Hp. exfalso.
  assert (seg_name p.1 p.2 ∈ list_segments (dir ob)) as Hin by (by apply elem_list_segments, conj; [apply seg_name_segment|]).
  rewrite Hnil in Hin. by apply elem_of_nil in Hin.
Qed.

(** * The theorems *)

(** On a well-formed spool, an append that meets no I/O error keeps it
    well-formed and either refuses the record, counting it, or puts it at the end
    of the queue after dropping, and counting, records of the head of the active
    file, none under [Stop]; and under [Stop] the active file stays within
    [max_bytes]. *)
Theorem append_enqueues {Value : Type} `{JsonLaws Value} io path (body : Value) ob
    (Hio : append_io_ok io) (Hok : spool_ok (dir ob)) (Hd : 0 ≤ dropped ob < 2 ^ 64) :
  let ob' := append io path body ob in
  spool_ok (dir ob') ∧ appended (mkRecord path body (a_ts io)) ob ob' ∧
  (on_full ob = Stop → 0 ≤ max_bytes ob < u64_max → file_len true ACTIVE_FILE (dir ob) ≤ max_bytes ob →
   file_len true ACTIVE_FILE (dir ob') ≤ max_bytes ob).
Proof.
  intros ob'. destruct (append_spec io path body ob Hio Hok Hd) as [H1 H2].
  split_and!; [done|done|]. intros. by apply append_stop_bound.
Qed.

Lemma append_enqueues_witness :
  let ob := outbox_at ∅ 1024 GIB 1000 Stop in
  appended (mkRecord "/api/session/observe" tt 0) ob (append calm_append "/api/session/observe" tt ob).
Proof.
  intros ob. apply (append_enqueues calm_append "/api/session/observe" tt ob).
  - done.
  - apply spool_ok_empty.
  - by vm_compute.
Defined.

(** C4: a replay that meets no file error posts a prefix of the queue, in order,
    and leaves exactly the rest: no record is lost, repeated or overtaken,
    wherever the sweep is cut short; it counts what it posted; and when every
    POST is answered it empties the queue. *)
Theorem replay_delivers {Value : Type} `{JsonLaws Value} (net : Net (Value := Value)) rio ios ob ob' st sent
    (Hio : replay_io_ok rio ios ob) (Hok : spool_ok (dir ob))
    (Hrun : replay net rio ios ob = (ob', st, sent)) :
  spool_ok (dir ob') ∧ queue (dir ob) = sent ++ queue (dir ob') ∧
  replayed st = Z.of_nat (length sent) mod 2 ^ 64 ∧ dropped ob' = dropped ob ∧
  ((∀ i, net_up net i = true) → (∀ i r, net_post net i r = true) → queue (dir ob') = []).
Proof.
  destruct (replay_spec net rio ios ob ob' st sent Hio Hok Hrun) as (H1 & H2 & H3 & H4 & _ & H5). auto.
Qed.

Definition two_spooled : Outbox :=
  append calm_append "/b" tt (append calm_append "/a" tt (outbox_at ∅ 1024 GIB 1000 Stop)).

Lemma replay_delivers_witness :
  let '(ob', st, sent) := replay online (calm_rotate 7) calm_seg two_spooled in
  sent = [mkRecord "/a" tt 0; mkRecord "/b" tt 0] ∧ queue (dir two_spooled) = sent ++ queue (dir ob').
Proof.
  assert (Hok : spool_ok (Value := unit) (dir two_spooled)).
  { apply append_spec; [done| |by vm_compute]. apply append_spec; [done|apply spool_ok_empty|by vm_compute]. }
  assert (Hio : replay_io_ok (calm_rotate 7) calm_seg two_spooled).
  { split_and!; [done|done|]. apply fresh_without_segments; by vm_compute. }
  destruct (replay online (calm_rotate 7) calm_seg two_spooled) as [[ob' st] sent] eqn:E. split.
  - assert (Hs : (replay online (calm_rotate 7) calm_seg two_spooled).2 = [mkRecord "/a" tt 0; mkRecord "/b" tt 0])
      by (by vm_compute). by rewrite E in Hs.
  - apply (replay_delivers online (calm_rotate 7) calm_seg two_spooled ob' st sent Hio Hok E).
Defined.

(** A segment that cannot be read as UTF-8 is deleted with every record in
    it: the sweep posts none of them, counts none of them, removes the file and
    goes on. *)
Theorem unreadable_segment_deleted {Value : Type} `{JsonCodec Value} (net : Net (Value := Value)) ios k j seg segs d st c
    (Hc : d !! seg = Some c) (Hutf : utf8_valid c = false) (Hrm : s_remove (ios j) = true) :
  replay_segments net ios k j (seg :: segs) d st =
  replay_segments net ios k (S j) segs (delete seg d) (mkStats (replayed st) (failed st) (u64_incr (segments st))).
Proof.
  cbn [replay_segments]. assert (Hr : read_segment (s_read (ios j)) seg d = []).
  { unfold read_segment, read_to_string. rewrite Hc. cbn [mbind option_bind]. rewrite Hutf. by rewrite andb_false_r. }
  rewrite Hr. cbn [replay_loop finish_segment]. rewrite Hrm.
  by destruct (replay_segments net ios k (S j) segs _ _) as [[d' st'] sent].
Qed.

(** One record spooled, and a write of the next cut inside a two-byte character. *)
Definition cut_spool : Outbox :=
  append (mkAppendIo 0 None true true WritesAll (WritesOnly 3)) (String "/" (bytes [195; 169]%nat)) tt
    (append calm_append "/a" tt (outbox_at ∅ 1024 GIB 1000 Stop)).

Lemma unreadable_segment_deleted_witness :
  queue (dir cut_spool) ≠ [] ∧
  match dir cut_spool !! ACTIVE_FILE with
  | Some c =>
      replay_segments online calm_seg 0 0 [seg_name 7 0] (<[seg_name 7 0 := c]> ∅) (mkStats 0 0 0) = (∅, mkStats 0 0 1, [])
  | None => False
  end.
Proof.
  split; [by vm_compute|].
  destruct (dir cut_spool !! ACTIVE_FILE) as [c|] eqn:E; [|by vm_compute in E].
  rewrite (unreadable_segment_deleted online calm_seg 0 0 (seg_name 7 0) [] _ _ c).
  - by vm_compute.
  - by rewrite lookup_insert_eq.
  - assert (Hu : (utf8_valid <$> dir cut_spool !! ACTIVE_FILE) = Some false) by (by vm_compute).
    rewrite E in Hu. by injection Hu.
  - done.
Defined.

(** [DropOldest] drops a quarter of the lines, whatever their size, and a record
    longer than the cap is spooled all the same. *)
Example drop_oldest_exceeds_cap :
  let ob := append calm_append "/0123456789" tt (outbox_at ∅ 4 0 0 DropOldest) in
  dropped ob = 0 ∧ max_bytes ob < file_len true ACTIVE_FILE (dir ob).
Proof. by vm_compute. Qed.
