(* ===== verification/StoreForward.v ===== *)
(** The database breaker ([src/src/health/db_health.rs]), the prober that writes
    it ([prober.rs]), the two handlers that spool while it is open
    ([src/src/api/handlers.rs]) and the outbox behind them: requests that meet an
    outage, from arrival to delivery.

    A prober turn starts [replay] as a task; here the sweep is one step, with the
    breaker and the POSTs it meets as arguments, and an append one step too. *)

From Stdlib Require Import ZArith.
From stdpp Require Import base numbers strings sets gmap list.
From S2P Require Import Prelude Numbers HealthWatchdog Outbox OutboxQueue.
#[local] Open Scope Z_scope.

(** * The breaker *)
Record DbHealth := mkDbHealth { up : bool; down_since_epoch : Z; db_generation : Z }.

Definition db_health_new : DbHealth := mkDbHealth true 0 0.

Definition record_failure (now : Z) (h : DbHealth) : bool * DbHealth :=
  if up h then (true, mkDbHealth false now (u64_incr (db_generation h))) else (false, h).

Definition record_success (now : Z) (h : DbHealth) : option Z * DbHealth :=
  if up h then (None, h)
  else (Some (u64_sat_sub now (down_since_epoch h)), mkDbHealth true 0 (u64_incr (db_generation h))).

(** ** Racing failures

    The atomic actions of [record_failure]: the exchange, then, for the caller
    that won it, the stamp and the increment. *)
Inductive Caller := Calling | WonExchange | Stamped | Returned (edge : bool).

Inductive race_step : DbHealth * list Caller → DbHealth * list Caller → Prop :=
  | RaceWin h ts i : up h = true → ts !! i = Some Calling →
      race_step (h, ts) (mkDbHealth false (down_since_epoch h) (db_generation h), <[i := WonExchange]> ts)
  | RaceLose h ts i : up h = false → ts !! i = Some Calling →
      race_step (h, ts) (h, <[i := Returned false]> ts)
  | RaceStamp h ts i now : ts !! i = Some WonExchange →
      race_step (h, ts) (mkDbHealth (up h) now (db_generation h), <[i := Stamped]> ts)
  | RaceCount h ts i : ts !! i = Some Stamped →
      race_step (h, ts) (mkDbHealth (up h) (down_since_epoch h) (u64_incr (db_generation h)), <[i := Returned true]> ts).

(** * The system *)
Section system.
Context {Value : Type} `{JsonLaws Value}.
Notation OutboxRecord := (OutboxRecord Value).

(** A request to a spooling handler; a prober turn, with what the sweep it may
    start would meet. *)
Inductive SystemEvent :=
  | Arrive (path : string) (body : Value) (io : AppendIo)
  | Probe (ok : bool) (now : Z) (net : Net (Value := Value)) (rio : RotateIo) (ios : nat → SegIo).

(** What a step does outside: a request handled against the database, records
    posted again. *)
Record Effects := mkEffects { direct : list (string * Value); sent : list OutboxRecord }.

(** The guard of [session_observe] and [client_file_event]. *)
Definition handle (path : string) (body : Value) (io : AppendIo) (s : DbHealth * Outbox) : (DbHealth * Outbox) * Effects :=
  if up s.1 then (s, mkEffects [(path, body)] [])
  else ((s.1, append io path body s.2), mkEffects [] []).

(** A turn of [spawn_db_prober]. *)
Definition probe (ok : bool) (now : Z) (net : Net) (rio : RotateIo) (ios : nat → SegIo) (s : DbHealth * Outbox) :
    (DbHealth * Outbox) * Effects :=
  if ok then
    let '(edge, h) := record_success now s.1 in
    match edge with
    | Some _ =>
        let '(ob, _, posted) := replay net rio ios s.2 in ((h, ob), mkEffects [] posted)
    | None => ((h, s.2), mkEffects [] [])
    end
  else let '(_, h) := record_failure now s.1 in ((h, s.2), mkEffects [] []).

Definition step (e : SystemEvent) (s : DbHealth * Outbox) : (DbHealth * Outbox) * Effects :=
  match e with
  | Arrive path body io => handle path body io s
  | Probe ok now net rio ios => probe ok now net rio ios s
  end.

(** A run, with the records it posted. *)
Fixpoint run (es : list SystemEvent) (s : DbHealth * Outbox) : (DbHealth * Outbox) * list OutboxRecord :=
  match es with
  | [] => (s, [])
  | e :: es =>
      let '(s, eff) := step e s in
      let '(s, rest) := run es s in
      (s, sent eff ++ rest)
  end.

(** * Conservation *)

(** The requests of a run that meet the breaker open. *)
Definition meets (e : SystemEvent) (s : DbHealth * Outbox) : list OutboxRecord :=
  match e with
  | Arrive path body io => if up s.1 then [] else [mkRecord path body (a_ts io)]
  | Probe _ _ _ _ _ => []
  end.

Fixpoint diverted (es : list SystemEvent) (s : DbHealth * Outbox) : list OutboxRecord :=
  match es with [] => [] | e :: es => meets e s ++ diverted es (step e s).1 end.

(** No file operation of the run fails, and the clock moves past the segments. *)
Definition event_ok (e : SystemEvent) (s : DbHealth * Outbox) : Prop :=
  match e with
  | Arrive _ _ io => append_io_ok io
  | Probe _ _ _ rio ios => replay_io_ok rio ios s.2
  end.

Fixpoint run_ok (es : list SystemEvent) (s : DbHealth * Outbox) : Prop :=
  match es with [] => True | e :: es => event_ok e s ∧ run_ok es (step e s).1 end.

Definition count {A} (xs : list A) : Z := Z.of_nat (length xs).

(** What one step owes: the records posted and those left, in order, are among
    those queued and the one that came; what is missing is in [dropped]. *)
Definition conserves (before came : list OutboxRecord) (d : Z) (posted after : list OutboxRecord) (d' : Z) : Prop :=
  posted ++ after `sublist_of` before ++ came ∧
  (count (posted ++ after) + d') mod 2 ^ 64 = (count (before ++ came) + d) mod 2 ^ 64.

Lemma appended_conserves r ob ob' : 0 ≤ dropped ob < 2 ^ 64 → appended r ob ob' →
  conserves (queue (dir ob)) [r] (dropped ob) [] (queue (dir ob')) (dropped ob') ∧ 0 ≤ dropped ob' < 2 ^ 64.
Proof.
  intros Hd [[Hq Hdr]|(n & Hn & _ & Hq & Hdr)]; unfold conserves, count; rewrite Hq, Hdr; unfold u64_add; simpl.
  - split; [split|apply Z.mod_pos_bound; lia].
    + apply sublist_inserts_r. reflexivity.
    + rewrite Zplus_mod_idemp_r, length_app. f_equal. simpl. lia.
  - set (act := file_records (dir ob) ACTIVE_FILE) in *. split; [split|apply Z.mod_pos_bound; lia].
    + unfold queue. fold act. rewrite <- (assoc_L app). apply sublist_app; [reflexivity|].
      apply sublist_app; [apply sublist_drop|reflexivity].
    + rewrite Zplus_mod_idemp_r. f_equal. unfold queue. fold act.
      rewrite !length_app, length_drop. simpl. lia.
Qed.
Lemma conserves_same before d : conserves before [] d [] before d.
Proof. split; [simpl; by rewrite app_nil_r|simpl; by rewrite app_nil_r]. Qed.

Lemma conserves_trans A c d p B d' c2 p2 C d2 :
  conserves A c d p B d' → conserves B c2 d' p2 C d2 → conserves A (c ++ c2) d (p ++ p2) C d2.
Proof.
  intros [Hs1 Hc1] [Hs2 Hc2]. split.
  - rewrite <- (assoc_L app), (assoc_L app A). etrans; [by apply sublist_app; [reflexivity|exact Hs2]|].
    rewrite (assoc_L app). by apply sublist_app.
  - unfold count in *. rewrite !length_app in *. revert Hc1 Hc2. Z.div_mod_to_equations. lia.
Qed.

Definition system_ok (s : DbHealth * Outbox) : Prop := spool_ok (dir s.2) ∧ 0 ≤ dropped s.2 < 2 ^ 64.

Lemma step_conserves e s s' eff : system_ok s → event_ok e s → step e s = (s', eff) →
  system_ok s' ∧ conserves (queue (dir s.2)) (meets e s) (dropped s.2) (sent eff) (queue (dir s'.2)) (dropped s'.2).
Proof.
  intros [Hok Hd] He. destruct e as [path body io|ok now net rio ios]; cbn [step meets event_ok] in *.
  - unfold handle. destruct (up s.1); intros [= <- <-]; [split; [done|apply conserves_same]|].
    destruct (append_spec io path body s.2 He Hok Hd) as [Hok' Happ].
    apply appended_conserves in Happ as [Hc Hd']; [|done]. done.
  - unfold probe. destruct ok.
    + unfold record_success. destruct (up s.1); [intros [= <- <-]; split; [done|apply conserves_same]|].
      destruct (replay net rio ios s.2) as [[ob st] posted] eqn:E. intros [= <- <-].
      apply replay_spec in E as (Hok' & Hq & _ & Hdr & _); [|done..]. unfold system_ok. cbn [fst snd sent]. rewrite Hdr.
      split; [done|]. unfold conserves. rewrite Hq. by rewrite app_nil_r.
    + unfold record_failure. destruct (up s.1); intros [= <- <-]; (split; [done|apply conserves_same]).
Qed.

Lemma run_conserves es s : system_ok s → run_ok es s →
  let s' := (run es s).1 in
  system_ok s' ∧ conserves (queue (dir s.2)) (diverted es s) (dropped s.2) (run es s).2 (queue (dir s'.2)) (dropped s'.2).
Proof.
  revert s. induction es as [|e es IH]; intros s Hok; cbn [run run_ok diverted]; [intros _; split; [done|apply conserves_same]|].
  intros [He Hes]. destruct (step e s) as [s1 eff] eqn:E. apply step_conserves in E as [Hok1 Hc1]; [|done..].
  destruct (IH s1 Hok1 Hes) as [Hok2 Hc2]. cbn [fst]. destruct (run es s1) as [s2 rest]. cbn [fst snd] in *.
  split; [done|]. by eapply conserves_trans.
Qed.

(** A run in which the last thing to happen is a sweep that reaches everyone. *)
Definition reaches_all (net : Net (Value := Value)) : Prop :=
  (∀ i, net_up net i = true) ∧ (∀ i r, net_post net i r = true).

Lemma probe_empties now net rio ios s s' eff : system_ok s → replay_io_ok rio ios s.2 → reaches_all net →
  up s.1 = false → step (Probe true now net rio ios) s = (s', eff) → queue (dir s'.2) = [].
Proof.
  intros [Hok _] Hio [Hup Hpost] Hdown. cbn [step]. unfold probe, record_success. rewrite Hdown.
  destruct (replay net rio ios s.2) as [[ob st] posted] eqn:E. intros [= <- <-].
  apply replay_spec in E as (_ & _ & _ & _ & _ & He); [|done..]. by apply He.
Qed.
End system.

(** C3: requests that meet an outage are conserved: over any sequence of
    arrivals and probes that meets no file error, the records posted again and
    those still queued are, in their order of arrival, among those queued at the
    start and those the breaker turned away; the rest is counted in [dropped];
    and a sweep after recovery that reaches the handlers leaves none behind. *)
Theorem store_and_forward {Value : Type} `{JsonLaws Value} (es : list (SystemEvent (Value := Value))) s
    (Hok : system_ok s) (Hes : run_ok es s) :
  let '(s', posted) := run es s in
  posted ++ queue (dir s'.2) `sublist_of` queue (dir s.2) ++ diverted es s ∧
  (count (posted ++ queue (dir s'.2)) + dropped s'.2) mod 2 ^ 64 =
    (count (queue (dir s.2) ++ diverted es s) + dropped s.2) mod 2 ^ 64 ∧
  (∀ now net rio ios, up s'.1 = false → replay_io_ok rio ios s'.2 → reaches_all net →
     queue (dir (step (Probe true now net rio ios) s').1.2) = []).
Proof.
  destruct (run_conserves es s Hok Hes) as [Hok' [Hsub Hcount]]. destruct (run es s) as [s' posted]. cbn [fst snd] in *.
  split_and!; [done|done|]. intros now net rio ios Hdown Hio Hnet.
  destruct (step (Probe true now net rio ios) s') as [s2 eff] eqn:E. by eapply probe_empties.
Qed.

#[local] Existing Instance path_codec.
#[local] Existing Instance path_codec_laws.

(** The database fails, two requests arrive, it recovers. *)
Definition outage : list (SystemEvent (Value := unit)) :=
  [Arrive "/up" tt calm_append; Probe false 5 online (calm_rotate 1) calm_seg;
   Arrive "/a" tt calm_append; Arrive "/b" tt calm_append; Probe true 9 online (calm_rotate 2) calm_seg].

Definition at_rest : DbHealth * Outbox := (db_health_new, outbox_at ∅ 1024 GIB 1000 Stop).

Lemma store_and_forward_witness :
  run_ok outage at_rest ∧
  let '(s', posted) := run outage at_rest in
  posted ++ queue (dir s'.2) `sublist_of` queue (dir at_rest.2) ++ diverted outage at_rest ∧
  posted = [mkRecord "/a" tt 0; mkRecord "/b" tt 0].
Proof.
  assert (Hok : system_ok (Value := unit) at_rest) by (split; [apply spool_ok_empty|by vm_compute]).
  assert (Hes : run_ok outage at_rest).
  { split_and!; try done; apply fresh_without_segments; by vm_compute. }
  split; [exact Hes|]. pose proof (store_and_forward outage at_rest Hok Hes) as Hsf.
  assert (Hp : (run outage at_rest).2 = [mkRecord "/a" tt 0; mkRecord "/b" tt 0]) by (by vm_compute).
  destruct (run outage at_rest) as [s' posted]. destruct Hsf as [Hsub _]. split; [exact Hsub|exact Hp].
Defined.

(** * One edge per outage *)

(** A caller past the exchange. *)
Definition won (t : Caller) : Prop := t = WonExchange ∨ t = Stamped ∨ t = Returned true.

(** Until the exchange every caller is calling; after it one has won. *)
Definition race_inv (g : Z) (n : nat) (c : DbHealth * list Caller) : Prop :=
  length c.2 = n ∧
  ((up c.1 = true ∧ db_generation c.1 = g ∧ ∀ j t, c.2 !! j = Some t → t = Calling) ∨
   (up c.1 = false ∧ ∃ i t, c.2 !! i = Some t ∧ won t ∧
      db_generation c.1 = (match t with Returned _ => u64_incr g | _ => g end) ∧
      ∀ j t', c.2 !! j = Some t' → won t' → j = i)).

Lemma not_won_calling : ¬ won Calling.
Proof. by intros [?|[?|?]]. Qed.

(** Moving the winner leaves no other. *)
Lemma winner_insert (ts : list Caller) (i : nat) x : (∀ j t, ts !! j = Some t → won t → j = i) →
  ∀ j t, <[i := x]> ts !! j = Some t → won t → j = i.
Proof.
  intros Huniq j t Hj Hw. destruct (decide (j = i)) as [->|Hne]; [done|].
  rewrite list_lookup_insert_ne in Hj by done. by eapply Huniq.
Qed.

Lemma race_inv_step g n c c' : race_inv g n c → race_step c c' → race_inv g n c'.
Proof.
  intros [Hn Hinv] Hstep. destruct Hstep as [h ts i Hup Hi|h ts i Hup Hi|h ts i now Hi|h ts i Hi];
    (split; [simpl in *; by rewrite length_insert|]); cbn [fst snd up db_generation] in *.
  - destruct Hinv as [(_ & Hg & Hall)|(Hup' & _)]; [|congruence]. right. split; [done|].
    exists i, WonExchange. rewrite list_lookup_insert_eq by (by eapply lookup_lt_Some).
    split_and!; [done|by left|done|]. apply winner_insert. intros j t Hj Hw.
    apply Hall in Hj as ->. by destruct not_won_calling.
  - destruct Hinv as [(Hup' & _)|(_ & i0 & t & Hi0 & Hw & Hg & Huniq)]; [congruence|]. right. split; [done|].
    exists i0, t. assert (i ≠ i0) by (intros ->; rewrite Hi in Hi0; injection Hi0 as <-; by destruct not_won_calling).
    rewrite list_lookup_insert_ne by done. split_and!; [done..|]. intros j t' Hj Hw'.
    destruct (decide (j = i)) as [->|Hne]; [|rewrite list_lookup_insert_ne in Hj by done; by eapply Huniq].
    rewrite list_lookup_insert_eq in Hj by (by eapply lookup_lt_Some). injection Hj as <-. by destruct Hw' as [?|[?|?]].
  - destruct Hinv as [(_ & _ & Hall)|(Hup & i0 & t & Hi0 & Hw & Hg & Huniq)]; [by apply Hall in Hi|]. right. split; [done|].
    assert (i = i0) as <- by (apply (Huniq i _ Hi); by left). rewrite Hi in Hi0. injection Hi0 as <-.
    exists i, Stamped. rewrite list_lookup_insert_eq by (by eapply lookup_lt_Some).
    split_and!; [done|by right; left|done|by apply winner_insert].
  - destruct Hinv as [(_ & _ & Hall)|(Hup & i0 & t & Hi0 & Hw & Hg & Huniq)]; [by apply Hall in Hi|]. right. split; [done|].
    assert (i = i0) as <- by (apply (Huniq i _ Hi); by right; left). rewrite Hi in Hi0. injection Hi0 as <-.
    exists i, (Returned true). rewrite list_lookup_insert_eq by (by eapply lookup_lt_Some).
    split_and!; [done|by right; right|by rewrite Hg|by apply winner_insert].
Qed.

Lemma race_inv_reach g n c c' : race_inv g n c → rtc race_step c c' → race_inv g n c'.
Proof. intros Hinv Hr. induction Hr; [done|]. eauto using race_inv_step. Qed.

(** Every action brings its caller nearer its return. *)
Definition remaining (t : Caller) : nat :=
  match t with Calling => 3 | WonExchange => 2 | Stamped => 1 | Returned _ => 0 end.

Lemma remaining_insert (ts : list Caller) (i : nat) t t' : ts !! i = Some t → (remaining t' < remaining t)%nat →
  (sum_list_with remaining (<[i := t']> ts) < sum_list_with remaining ts)%nat.
Proof.
  revert i. induction ts as [|x ts IH]; intros [|i] Hi Hlt; simplify_eq/=; [lia|]. specialize (IH i Hi Hlt). lia.
Qed.

Lemma race_step_remaining c c' : race_step c c' →
  (sum_list_with remaining c'.2 < sum_list_with remaining c.2)%nat.
Proof. intros []; simpl; (eapply remaining_insert; [done|simpl; lia]). Qed.

Lemma race_steps_bound k c c' : nsteps race_step k c c' → (k ≤ sum_list_with remaining c.2)%nat.
Proof.
  induction 1 as [|k c c1 c' Hstep _ IH]; [lia|]. apply race_step_remaining in Hstep. lia.
Qed.

Lemma race_progress h (ts : list Caller) : (∃ (i : nat) t, ts !! i = Some t ∧ ∀ b, t ≠ Returned b) → ∃ c', race_step (h, ts) c'.
Proof.
  intros (i & t & Hi & Ht). destruct t as [| | |b].
  - destruct (up h) eqn:E; eexists; [by eapply RaceWin|by eapply RaceLose].
  - eexists. by apply (RaceStamp h ts i 0).
  - eexists. by eapply RaceCount.
  - by destruct (Ht b).
Qed.

(** However [n] callers that see failing probes race on an up breaker, they
    take at most three actions each and no state with one still running is
    stuck; once all have returned exactly one of them was told it saw the edge,
    the breaker is down and the generation counts one. *)
Theorem breaker_single_edge (n : nat) since g :
  let start := (mkDbHealth true since g, replicate (S n) Calling) in
  (∀ k c, nsteps race_step k start c → (k ≤ 3 * S n)%nat) ∧
  (∀ h ts, rtc race_step start (h, ts) →
     (∃ c', race_step (h, ts) c') ∨
     (∃ i, (∀ j, ts !! j = Some (Returned true) ↔ j = i) ∧ up h = false ∧ db_generation h = u64_incr g)).
Proof.
  intros start. split.
  - intros k c Hk. apply race_steps_bound in Hk. etrans; [exact Hk|]. unfold start. cbn [snd]. clear.
    induction (S n) as [|m IH]; simpl in *; lia.
  - intros h ts Hr. destruct (decide (Forall (λ t, remaining t = 0%nat) ts)) as [Hdone|Hrun].
    + right. apply (race_inv_reach g (S n)) in Hr as [Hlen Hinv].
      2:{ split; [apply length_replicate|]. left. split_and!; [done..|]. intros j t Hj. by apply lookup_replicate in Hj as [-> _]. }
      rewrite Forall_lookup in Hdone. cbn [fst snd] in *. destruct Hinv as [(_ & _ & Hall)|(Hup & i & t & Hi & Hw & Hg & Huniq)].
      { destruct ts as [|t ts]; [done|]. specialize (Hdone 0%nat t eq_refl). by rewrite (Hall 0%nat t eq_refl) in Hdone. }
      assert (t = Returned true) as -> by (apply Hdone in Hi; by destruct Hw as [-> | [-> | ->]]).
      exists i. split_and!; [|done|done]. intros j. split; [intros Hj; apply (Huniq _ _ Hj); by right; right|by intros ->].
    + left. apply race_progress. apply (not_Forall_Exists _), Exists_exists in Hrun as (t & Hin & Ht).
      apply list_elem_of_lookup in Hin as [i Hi]. exists i, t. split; [done|]. intros b ->. by apply Ht.
Qed.
