(* ===== verification/DataTable.v ===== *)
(** Data tables: identifiers and vocabularies ([src/src/datatable/identifier.rs],
    [column_type.rs], [filter.rs], [link_target.rs]), row validation
    ([validate.rs]) and the checks of the insert and update tools
    ([src/src/mcp/tools/data_tables/dml.rs]).

    A JSON object is a [serde_json::Map] that keeps insertion order: an
    association list with distinct keys.  [chrono]'s RFC 3339 parser and
    [serde_json::to_string] are parameters. *)

From Stdlib Require Import Ascii ZArith SpecFloat ZifyBool.
From stdpp Require Import base numbers strings sets list pretty.
From S2P Require Import Prelude Text Numbers Vocab.
#[local] Open Scope Z_scope.

(** * Identifiers *)
Definition is_ascii_lower (c : ascii) : bool :=
  let n := nat_of_ascii c in (97 <=? n)%nat && (n <=? 122)%nat.

(** The class [[a-z0-9_]] *)
Definition ident_char (c : ascii) : bool :=
  is_ascii_lower c || is_ascii_digit c || bool_decide (c = "_"%char).

(** [^[a-z][a-z0-9_]{0,62}$] *)
Definition valid_identifier (s : string) : bool :=
  match s with
  | String c rest => is_ascii_lower c && all_bytes ident_char rest && (String.length rest <=? 62)%nat
  | EmptyString => false
  end.

(** [{:?}] of the name is a parameter: it escapes. *)
Definition validate_identifier (debug : string → string) (s : string) : outcome string unit :=
  if valid_identifier s then Ok tt
  else Err ("invalid name " +:+ debug s +:+ ": must be lowercase, start with a letter, contain only [a-z0-9_], and be 1-63 characters")%string.

(** * Vocabularies *)
Inductive ColumnType := Text | Integer | Number | Boolean | Timestamp | Json.
#[global] Instance ColumnType_eq_dec : EqDecision ColumnType.
Proof. solve_decision. Defined.

Definition ColumnType_ALL : list ColumnType := [Text; Integer; Number; Boolean; Timestamp; Json].
Definition ColumnType_as_str (t : ColumnType) : string :=
  match t with
  | Text => "text" | Integer => "integer" | Number => "number"
  | Boolean => "boolean" | Timestamp => "timestamp" | Json => "json"
  end.
#[global] Instance ColumnType_vocab : Vocab ColumnType.
Proof. refine {| vocab_all := ColumnType_ALL; as_str := ColumnType_as_str |}; solve_vocab. Defined.

Definition is_numeric (t : ColumnType) : bool := match t with Integer | Number => true | _ => false end.
Definition sql_cast (t : ColumnType) : option string :=
  match t with
  | Integer | Number => Some "numeric"%string
  | Timestamp => Some "timestamptz"%string
  | Text | Boolean | Json => None
  end.

Inductive FilterOp := FEq | FNe | FGt | FLt | FGte | FLte | FContains | FExists.
#[global] Instance FilterOp_eq_dec : EqDecision FilterOp.
Proof. solve_decision. Defined.

Definition FilterOp_ALL : list FilterOp := [FEq; FNe; FGt; FLt; FGte; FLte; FContains; FExists].
Definition FilterOp_as_str (o : FilterOp) : string :=
  match o with
  | FEq => "eq" | FNe => "ne" | FGt => "gt" | FLt => "lt"
  | FGte => "gte" | FLte => "lte" | FContains => "contains" | FExists => "exists"
  end.
#[global] Instance FilterOp_vocab : Vocab FilterOp.
Proof. refine {| vocab_all := FilterOp_ALL; as_str := FilterOp_as_str |}; solve_vocab. Defined.

Definition sql_cmp (o : FilterOp) : option string :=
  match o with
  | FGt => Some ">"%string | FLt => Some "<"%string
  | FGte => Some ">="%string | FLte => Some "<="%string
  | _ => None
  end.
Definition needs_value (o : FilterOp) : bool := match o with FExists => false | _ => true end.

Inductive SortDir := Asc | Desc.
Definition SortDir_parse (s : string) : option SortDir :=
  let t := to_ascii_lowercase (trim s) in
  if bool_decide (t ∈ ["asc"; "ascending"]%string) then Some Asc
  else if bool_decide (t ∈ ["desc"; "descending"]%string) then Some Desc else None.
Definition SortDir_as_sql (d : SortDir) : string := match d with Asc => "ASC" | Desc => "DESC" end.

Inductive Combinator := All | Any.
Definition Combinator_parse (s : string) : option Combinator :=
  let t := to_ascii_lowercase (trim s) in
  if bool_decide (t ∈ ["all"; "and"]%string) then Some All
  else if bool_decide (t ∈ ["any"; "or"]%string) then Some Any else None.
Definition Combinator_as_sql (c : Combinator) : string := match c with All => "AND" | Any => "OR" end.

Inductive LinkTargetType := LinkExperiment | LinkWorkItem.
#[global] Instance LinkTargetType_eq_dec : EqDecision LinkTargetType.
Proof. solve_decision. Defined.
Definition LinkTargetType_ALL : list LinkTargetType := [LinkExperiment; LinkWorkItem].
Definition LinkTargetType_as_str (t : LinkTargetType) : string :=
  match t with LinkExperiment => "experiment" | LinkWorkItem => "work_item" end.
#[global] Instance LinkTargetType_vocab : Vocab LinkTargetType.
Proof. refine {| vocab_all := LinkTargetType_ALL; as_str := LinkTargetType_as_str |}; solve_vocab. Defined.

(** * JSON values *)

(** [serde_json::Number]: a [u64], a negative [i64] or a float. *)
Inductive JNumber := PosInt (z : Z) | NegInt (z : Z) | Float (f : f64).

Inductive Value :=
  | VNull
  | VBool (b : bool)
  | VNumber (n : JNumber)
  | VString (s : string)
  | VArray (vs : list Value)
  | VObject (fields : list (string * Value)).

Definition Map : Type := list (string * Value).

(** [Map::get] and [Map::contains_key] *)
Fixpoint map_get (m : Map) (k : string) : option Value :=
  match m with
  | [] => None
  | (k', v) :: m => if decide (k' = k) then Some v else map_get m k
  end.

(** [Value::get] of a key, [as_str] and [as_array] *)
Definition vget (v : Value) (k : string) : option Value := match v with VObject m => map_get m k | _ => None end.
Definition as_string (v : Value) : option string := match v with VString s => Some s | _ => None end.
Definition as_array (v : Value) : option (list Value) := match v with VArray vs => Some vs | _ => None end.

(** [Map::insert]: an existing key keeps its place. *)
Fixpoint map_insert (m : Map) (k : string) (v : Value) : Map :=
  match m with
  | [] => [(k, v)]
  | (k', v') :: m => if decide (k' = k) then (k, v) :: m else (k', v') :: map_insert m k v
  end.

Definition i64_max : Z := 9223372036854775807.

Definition is_i64 (n : JNumber) : bool :=
  match n with PosInt z => z <=? i64_max | NegInt _ => true | Float _ => false end.
Definition is_u64 (n : JNumber) : bool := match n with PosInt _ => true | _ => false end.
Definition number_as_f64 (n : JNumber) : f64 :=
  match n with PosInt z | NegInt z => f64_of_Z z | Float f => f end.
Definition value_as_f64 (v : Value) : option f64 :=
  match v with VNumber n => Some (number_as_f64 n) | _ => None end.

(** [f64::is_finite] *)
Definition f64_is_finite (f : f64) : bool :=
  match f with S754_zero _ | S754_finite _ _ _ => true | _ => false end.
(** [f.fract() == 0.0], the bits below the point. *)
Definition f64_fract_is_zero (f : f64) : bool :=
  match f with
  | S754_zero _ => true
  | S754_finite _ m e => (0 <=? e) || (Zpos m mod 2 ^ (- e) =? 0)
  | _ => false
  end.

Definition json_type_name (v : Value) : string :=
  match v with
  | VNull => "null" | VBool _ => "boolean" | VNumber _ => "number"
  | VString _ => "string" | VArray _ => "array" | VObject _ => "object"
  end.

(** * Validation *)
Record ColumnSpec := mkColumn {
  cs_name : string; data_type : ColumnType; required : bool; cs_default : option Value;
}.

Inductive FieldError :=
  | NotAnObject
  | Required (field : string)
  | WrongType (field expected got : string)
  | Unknown (field : string).

(** [{:?}] of a field name is a parameter: it escapes. *)
Definition field_error_message (debug : string → string) (e : FieldError) : string :=
  (match e with
  | NotAnObject => "row must be a JSON object"
  | Required f => "required field " +:+ debug f +:+ " is missing or null"
  | WrongType f ex got => "field " +:+ debug f +:+ " expected " +:+ ex +:+ ", got " +:+ got
  | Unknown f => "unknown field " +:+ debug f +:+ " (not in schema)"
  end)%string.

Section validate.
Context (is_rfc3339 : string → bool).

Definition value_matches (ty : ColumnType) (v : Value) : bool :=
  match ty with
  | Text => match v with VString _ => true | _ => false end
  | Integer =>
      match v with
      | VNumber n => is_i64 n || is_u64 n || (f64_is_finite (number_as_f64 n) && f64_fract_is_zero (number_as_f64 n))
      | _ => false
      end
  | Number => match value_as_f64 v with Some f => f64_is_finite f | None => false end
  | Boolean => match v with VBool _ => true | _ => false end
  | Timestamp =>
      match v with
      | VString s => is_rfc3339 s
      | VNumber n => f64_is_finite (number_as_f64 n)
      | _ => false
      end
  | Json => true
  end.

Definition fill_default (obj : Map) (col : ColumnSpec) : Map :=
  match map_get obj (cs_name col), cs_default col with
  | None, Some def => map_insert obj (cs_name col) def
  | _, _ => obj
  end.

Definition fill_defaults (columns : list ColumnSpec) (obj : Map) : Map := foldl fill_default obj columns.

(** The body of the loop over the columns. *)
Definition column_errors (obj : Map) (col : ColumnSpec) : list FieldError :=
  match map_get obj (cs_name col) with
  | None | Some VNull => if required col then [Required (cs_name col)] else []
  | Some v =>
      if value_matches (data_type col) v then []
      else [WrongType (cs_name col) (ColumnType_as_str (data_type col)) (json_type_name v)]
  end.

Definition unknown_errors (columns : list ColumnSpec) (obj : Map) : list FieldError :=
  flat_map (λ kv, if existsb (λ c, bool_decide (cs_name c = kv.1)) columns then [] else [Unknown kv.1]) obj.

Definition validate_row (columns : list ColumnSpec) (row : Value) (reject_unknown : bool) :
    outcome (list FieldError) unit :=
  match row with
  | VObject obj =>
      if decide (columns = []) then Ok tt
      else
        let errs := flat_map (column_errors obj) columns ++
                    (if reject_unknown then unknown_errors columns obj else []) in
        if decide (errs = []) then Ok tt else Err errs
  | _ => Err [NotAnObject]
  end.

(** * The tools *)
Context (to_string : Value → option string).

Definition MAX_ROW_BYTES : Z := 256 * 1024.

Inductive RowError :=
  | RowNotObject
  | RowInvalid (errs : list FieldError)
  | RowNotSerialized
  | RowTooLarge (len : nat).

(** One row of [tool_data_table_insert]: what is stored, or why the whole call
    fails. *)
Definition insert_row (strict : bool) (specs : list ColumnSpec) (row : Value) : outcome RowError Value :=
  match row with
  | VObject obj =>
      let row := if strict then VObject (fill_defaults specs obj) else row in
      let* _ := if strict then omap_err RowInvalid (validate_row specs row false) else Ok tt in
      match to_string row with
      | None => Err RowNotSerialized
      | Some s => if Z.of_nat (String.length s) >? MAX_ROW_BYTES then Err (RowTooLarge (String.length s)) else Ok row
      end
  | _ => Err RowNotObject
  end.

(** The check of [tool_data_table_update]: the first patched field of a declared
    column whose value is neither null nor of the column's type. *)
Definition patch_field (specs : list ColumnSpec) (kv : string * Value) : outcome string unit :=
  let '(k, v) := kv in
  match find_first (λ s, bool_decide (cs_name s = k)) specs with
  | Some spec =>
      match v with
      | VNull => Ok tt
      | _ =>
          if value_matches (data_type spec) v then Ok tt
          else Err ("patch field '" +:+ k +:+ "' expected " +:+ ColumnType_as_str (data_type spec) +:+
                    ", got " +:+ json_type_name v)%string
      end
  | None => Ok tt
  end.

Definition check_patch (strict : bool) (specs : list ColumnSpec) (patch : Map) : outcome string unit :=
  if strict then oforM (patch_field specs) patch else Ok tt.
End validate.

(** The update stores [data || patch].  The operator is PostgreSQL's: a field of
    the result is the patch's where the patch has it, else the row's. *)
Class JsonbConcat (concat : Map → Map → Map) : Prop :=
  concat_get row patch k :
    map_get (concat row patch) k = match map_get patch k with Some v => Some v | None => map_get row k end.

(** * What a typed row is *)
Section typing.
Context (is_rfc3339 : string → bool).

(** The float is the integer [z]. *)
Definition float_is (f : f64) (z : Z) : Prop :=
  match f with
  | S754_zero _ => z = 0
  | S754_finite s m e =>
      if 0 <=? e then z = cond_Zopp s (Zpos m) * 2 ^ e else z * 2 ^ (- e) = cond_Zopp s (Zpos m)
  | _ => False
  end.

Definition number_finite (n : JNumber) : Prop := f64_is_finite (number_as_f64 n) = true.

Inductive has_type : ColumnType → Value → Prop :=
  | TyText s : has_type Text (VString s)
  | TyPosInt z : has_type Integer (VNumber (PosInt z))
  | TyNegInt z : has_type Integer (VNumber (NegInt z))
  | TyWhole f z : float_is f z → has_type Integer (VNumber (Float f))
  | TyNumber n : number_finite n → has_type Number (VNumber n)
  | TyBoolean b : has_type Boolean (VBool b)
  | TyRfc3339 s : is_rfc3339 s = true → has_type Timestamp (VString s)
  | TyEpoch n : number_finite n → has_type Timestamp (VNumber n)
  | TyJson v : has_type Json v.

Lemma fract_zero_spec f : f64_is_finite f && f64_fract_is_zero f = true ↔ ∃ z, float_is f z.
Proof.
  destruct f as [s|s| |s m e]; simpl; [naive_solver|split; [done|by intros [z ?]]..|].
  destruct (Z.leb_spec 0 e) as [He|He]; simpl; [naive_solver|].
  rewrite Z.eqb_eq. assert (Hp : 0 < 2 ^ (- e)) by (apply Z.pow_pos_nonneg; lia). split.
  - intros Hm. exists (cond_Zopp s (Zpos m / 2 ^ (- e))).
    pose proof (Z.div_mod (Zpos m) (2 ^ (- e)) ltac:(lia)). destruct s; simpl; lia.
  - intros [z Hz]. apply Z.mod_divide; [lia|].
    destruct s; simpl in Hz; [exists (- z)|exists z]; lia.
Qed.

Lemma value_matches_spec ty v : value_matches is_rfc3339 ty v = true ↔ has_type ty v.
Proof.
  split.
  - destruct ty, v; simpl; try done; try (intros; by constructor).
    destruct n as [z|z|f]; [constructor..|]. simpl. intros Hf.
    apply fract_zero_spec in Hf as [z Hz]. by eapply TyWhole.
  - intros [s|z|z|f z Hf|n Hn|b|s Hs|n Hn|v']; try done; simpl; [by rewrite orb_true_r|].
    by apply fract_zero_spec; exists z.
Qed.

(** What a column asks of a row. *)
Definition column_ok (obj : Map) (col : ColumnSpec) : Prop :=
  match map_get obj (cs_name col) with
  | None | Some VNull => required col = false
  | Some v => has_type (data_type col) v
  end.

(** Types without presence: every value that is there and not null. *)
Definition column_typed (obj : Map) (col : ColumnSpec) : Prop :=
  ∀ v, map_get obj (cs_name col) = Some v → v = VNull ∨ has_type (data_type col) v.

Lemma column_errors_nil obj col : column_errors is_rfc3339 obj col = [] ↔ column_ok obj col.
Proof.
  unfold column_errors, column_ok. destruct (map_get obj (cs_name col)) as [v|]; [|by destruct (required col)].
  destruct v; try (by destruct (required col));
    (rewrite <- value_matches_spec; destruct (value_matches _ _ _); by split).
Qed.

Lemma flat_map_nil_iff {A B} (f : A → list B) xs : flat_map f xs = [] ↔ Forall (λ x, f x = []) xs.
Proof.
  induction xs as [|x xs IH]; simpl; [by split; [constructor|]|].
  rewrite Forall_cons, <- IH. split; [apply app_eq_nil|by intros [-> ->]].
Qed.

Lemma unknown_errors_nil cols obj :
  unknown_errors cols obj = [] ↔ ∀ k, k ∈ obj.*1 → ∃ col, col ∈ cols ∧ cs_name col = k.
Proof.
  unfold unknown_errors. rewrite flat_map_nil_iff, Forall_forall. split.
  - intros H k ([k' v] & -> & Hin)%list_elem_of_fmap. specialize (H _ Hin). simpl in *.
    destruct (existsb _ cols) eqn:E; [|done]. apply existsb_exists in E as (c & Hc & Hk).
    exists c. rewrite list_elem_of_In. split; [done|by apply bool_decide_eq_true in Hk].
  - intros H [k v] Hin. destruct (H k) as (c & Hc & Hk); [by apply list_elem_of_fmap; exists (k, v)|].
    simpl. replace (existsb _ cols) with true; [done|]. symmetry. apply existsb_exists.
    exists c. rewrite <- list_elem_of_In. by rewrite bool_decide_eq_true.
Qed.

Lemma validate_row_ok cols row rej : validate_row is_rfc3339 cols row rej = Ok tt ↔
  ∃ obj, row = VObject obj ∧ (cols = [] ∨
    (∀ col, col ∈ cols → column_ok obj col) ∧
    (rej = true → ∀ k, k ∈ obj.*1 → ∃ col, col ∈ cols ∧ cs_name col = k)).
Proof.
  unfold validate_row. destruct row as [| | | | |obj]; try (split; [done|by intros (? & ? & _)]).
  destruct (decide (cols = [])) as [->|Hne].
  { split; [intros _; exists obj; split; [done|by left]|done]. }
  assert (He : flat_map (column_errors is_rfc3339 obj) cols = [] ↔ ∀ col, col ∈ cols → column_ok obj col).
  { rewrite flat_map_nil_iff, Forall_forall. by setoid_rewrite column_errors_nil. }
  destruct (decide _) as [E|E].
  - apply app_eq_nil in E as [E1 E2]. split; [intros _|done]. exists obj. split; [done|]. right.
    split; [by apply He|]. intros ->. by apply unknown_errors_nil.
  - split; [done|]. intros (obj' & [= <-] & [?|[Hok Hrej]]); [done|]. destruct E.
    rewrite (proj2 He Hok). destruct rej; [|done]. by apply unknown_errors_nil, Hrej.
Qed.

(** * Objects *)
Lemma map_get_insert m k v k' : map_get (map_insert m k v) k' = if decide (k = k') then Some v else map_get m k'.
Proof.
  induction m as [|[k1 v1] m IH]; simpl; [done|].
  destruct (decide (k1 = k)) as [->|Hne]; simpl; [by destruct (decide (k = k'))|].
  rewrite IH. destruct (decide (k1 = k')) as [->|], (decide (k = k')) as [->|]; done.
Qed.

(** A concatenation that keeps the places of the row's fields. *)
Definition merge_patch (row patch : Map) : Map := foldr (λ kv m, map_insert m kv.1 kv.2) row patch.

#[global] Instance merge_patch_concat : JsonbConcat merge_patch.
Proof.
  intros row patch k. induction patch as [|[k1 v1] patch IH]; simpl; [done|].
  rewrite map_get_insert. by destruct (decide (k1 = k)).
Qed.

Lemma map_get_elem m k v : map_get m k = Some v → (k, v) ∈ m.
Proof.
  induction m as [|[k1 v1] m IH]; simpl; [done|].
  destruct (decide (k1 = k)) as [->|]; [intros [= ->]; by left|right; auto].
Qed.

(** A merged field comes from the patch where the patch has it. *)
Lemma map_get_merge concat `{!JsonbConcat concat} row patch k :
  (∃ v, map_get (concat row patch) k = Some v ∧ (k, v) ∈ patch) ∨
  map_get (concat row patch) k = map_get row k.
Proof.
  rewrite concat_get. destruct (map_get patch k) as [v|] eqn:E; [left; eauto using map_get_elem|by right].
Qed.

Lemma find_column specs col : NoDup (map cs_name specs) → col ∈ specs →
  find_first (λ s, bool_decide (cs_name s = cs_name col)) specs = Some col.
Proof.
  intros Hnd Hin. induction specs as [|c specs IH]; [by apply elem_of_nil in Hin|].
  simpl in Hnd. apply NoDup_cons in Hnd as [Hc Hnd]. unfold find_first in *. simpl.
  apply elem_of_cons in Hin as [->|Hin]; [by rewrite bool_decide_eq_true_2|].
  rewrite bool_decide_eq_false_2; [by apply IH|]. intros Heq. apply Hc. rewrite Heq.
  by apply list_elem_of_fmap_2.
Qed.

Lemma patch_field_ok specs col v : NoDup (map cs_name specs) → col ∈ specs →
  patch_field is_rfc3339 specs (cs_name col, v) = Ok tt → v = VNull ∨ has_type (data_type col) v.
Proof.
  intros Hnd Hin. unfold patch_field. rewrite (find_column specs col Hnd Hin).
  rewrite <- value_matches_spec. destruct v; auto; by destruct (value_matches _ _ _); auto.
Qed.

Lemma check_patch_ok strict specs patch col v : strict = true → NoDup (map cs_name specs) → col ∈ specs →
  check_patch is_rfc3339 strict specs patch = Ok tt → (cs_name col, v) ∈ patch → v = VNull ∨ has_type (data_type col) v.
Proof.
  intros -> Hnd Hin Hp Hv. apply oforM_Ok in Hp. eapply Forall_forall in Hp; [|exact Hv].
  by eapply patch_field_ok.
Qed.
End typing.

(** * The theorems *)

(** The row validator decides the typing of rows: it accepts exactly the
    objects whose declared columns all hold a value of their type, or nothing or
    null where that is allowed, with no field outside the schema when such are
    refused; and what it reports otherwise is exactly the list of the columns'
    errors, in the order of the schema, then the unknown fields in their order. *)
Theorem validate_row_exact is_rfc3339 cols row rej :
  (validate_row is_rfc3339 cols row rej = Ok tt ↔
   ∃ obj, row = VObject obj ∧ (cols = [] ∨
     (∀ col, col ∈ cols → column_ok is_rfc3339 obj col) ∧
     (rej = true → ∀ k, k ∈ obj.*1 → ∃ col, col ∈ cols ∧ cs_name col = k))) ∧
  (∀ errs, validate_row is_rfc3339 cols row rej = Err errs →
     errs = [NotAnObject] ∧ (∀ obj, row ≠ VObject obj) ∨
     ∃ obj, row = VObject obj ∧
       errs = flat_map (column_errors is_rfc3339 obj) cols ++ (if rej then unknown_errors cols obj else [])) ∧
  returns (validate_row is_rfc3339 cols row rej).
Proof.
  split; [apply validate_row_ok|]. unfold validate_row.
  destruct row as [| | | | |obj];
    try (split; [intros errs [= <-]; left; split; [done|by intros]|apply returns_Err]).
  destruct (decide (cols = [])); [split; [done|apply returns_Ok]|].
  destruct (decide _); (split; [|by (apply returns_Ok || apply returns_Err)]); [done|].
  intros errs [= <-]. right. eauto.
Qed.

(** C28: rows of a strict table stay typed.  What an insert stores is an object
    that meets every column; an update whose check passes keeps every stored
    value null or of its column's type; and it keeps the columns met unless it
    sets a required one to null. *)
Theorem row_types_preserved is_rfc3339 to_string concat `{!JsonbConcat concat} specs (Hnd : NoDup (map cs_name specs)) :
  (∀ row row', insert_row is_rfc3339 to_string true specs row = Ok row' →
     ∃ obj, row' = VObject obj ∧ ∀ col, col ∈ specs → column_ok is_rfc3339 obj col) ∧
  (∀ obj patch, check_patch is_rfc3339 true specs patch = Ok tt →
     ((∀ col, col ∈ specs → column_typed is_rfc3339 obj col) →
      ∀ col, col ∈ specs → column_typed is_rfc3339 (concat obj patch) col) ∧
     ((∀ col, col ∈ specs → column_ok is_rfc3339 obj col) →
      (∀ col, col ∈ specs → required col = true → (cs_name col, VNull) ∉ patch) →
      ∀ col, col ∈ specs → column_ok is_rfc3339 (concat obj patch) col)).
Proof.
  split.
  - intros row row' Hrow. unfold insert_row in Hrow. destruct row as [| | | | |obj]; try done.
    destruct (validate_row _ _ _ _) as [[]| | |] eqn:E; simpl in Hrow; try done.
    apply validate_row_ok in E as (obj' & [= <-] & Hok).
    destruct (to_string _); [|done]. destruct (_ >? _); [done|]. injection Hrow as <-.
    eexists. split; [done|]. destruct Hok as [->|[Hok _]]; [by intros col ?%elem_of_nil|done].
  - intros obj patch Hp. split.
    + intros Hty col Hcol v Hv. destruct (map_get_merge concat obj patch (cs_name col)) as [(v' & Hv' & Hin)|Heq].
      * rewrite Hv' in Hv. injection Hv as <-. by eapply check_patch_ok.
      * rewrite Heq in Hv. by eapply Hty.
    + intros Hok Hreq col Hcol. destruct (map_get_merge concat obj patch (cs_name col)) as [(v & Hv & Hin)|Heq].
      * pose proof (check_patch_ok is_rfc3339 true specs patch col v eq_refl Hnd Hcol Hp Hin) as Hty.
        unfold column_ok. rewrite Hv. destruct v; try (by destruct Hty).
        destruct (required col) eqn:E; [by destruct (Hreq col Hcol E)|done].
      * unfold column_ok. rewrite Heq. by apply Hok.
Qed.

(** A schema and a row of the tests, timestamps read by their length. *)
Definition bench_cols : list ColumnSpec :=
  [mkColumn "ts" Timestamp true None; mkColumn "value" Number true None;
   mkColumn "count" Integer false None; mkColumn "ok" Boolean false (Some (VBool true))].
Definition by_length (s : string) : bool := (String.length s =? 20)%nat.
Definition bench_row : Value :=
  VObject [("ts", VString "2026-05-29T14:03:00Z"); ("value", VNumber (Float (SFdiv 53 1024 (f64_of_Z 62) (f64_of_Z 5))));
           ("count", VNumber (PosInt 3))].

Lemma row_types_preserved_witness :
  match insert_row by_length (λ _, Some "{}"%string) true bench_cols bench_row with
  | Ok row => ∃ obj, row = VObject obj ∧ ∀ col, col ∈ bench_cols → column_ok by_length obj col
  | _ => False
  end ∧
  ∀ obj, (∀ col, col ∈ bench_cols → column_ok by_length obj col) →
    ∀ col, col ∈ bench_cols → column_ok by_length (merge_patch obj [("count"%string, VNull)]) col.
Proof.
  assert (Hnd : NoDup (map cs_name bench_cols)) by (apply (bool_decide_unpack _); vm_compute; exact I).
  destruct (row_types_preserved by_length (λ _, Some "{}"%string) merge_patch bench_cols Hnd) as [Hins Hupd].
  split; [|intros obj Hobj; apply (proj2 (Hupd obj [("count"%string, VNull)] eq_refl) Hobj);
           intros col Hcol Hreq Hin; apply list_elem_of_singleton in Hin as [= Hname];
           repeat (apply elem_of_cons in Hcol as [->|Hcol]; [done|]); by apply elem_of_nil in Hcol].
  destruct (insert_row by_length (λ _, Some "{}"%string) true bench_cols bench_row) as [row|e| |] eqn:E; [by apply (Hins bench_row)|by vm_compute in E..].
Defined.

(** An update can undo what an insert enforced: setting a required column to
    null passes the check of a strict table, and the stored row is one that
    [validate_row] refuses. *)
Theorem update_clears_required is_rfc3339 concat `{!JsonbConcat concat} specs col obj :
  col ∈ specs → required col = true →
  check_patch is_rfc3339 true specs [(cs_name col, VNull)] = Ok tt ∧
  ∃ errs, validate_row is_rfc3339 specs (VObject (concat obj [(cs_name col, VNull)])) false = Err errs ∧
    Required (cs_name col) ∈ errs.
Proof.
  intros Hcol Hreq. split.
  { simpl. unfold patch_field. by destruct (find_first _ specs). }
  set (obj' := concat obj _).
  assert (Hget : map_get obj' (cs_name col) = Some VNull).
  { unfold obj'. rewrite concat_get. simpl. by rewrite decide_True. }
  assert (Hin : Required (cs_name col) ∈ flat_map (column_errors is_rfc3339 obj') specs ++ []).
  { rewrite app_nil_r. apply list_elem_of_In, in_flat_map. exists col. rewrite <- !list_elem_of_In.
    split; [done|]. unfold column_errors. rewrite Hget, Hreq. by left. }
  unfold validate_row. destruct (decide (specs = [])) as [->|_]; [by apply elem_of_nil in Hcol|].
  destruct (decide _) as [E|E]; [by rewrite E in Hin; apply elem_of_nil in Hin|]. eauto.
Qed.

Lemma update_clears_required_witness :
  check_patch by_length true bench_cols [("value"%string, VNull)] = Ok tt.
Proof.
  apply (update_clears_required by_length merge_patch bench_cols (mkColumn "value" Number true None) []); [|done].
  right. by left.
Defined.
