(* ===== verification/WorkPool.v ===== *)
(** The adaptive work pool ([src/src/work_pool/pool.rs]), its hill climber
    ([adaptive.rs]) and the scaling monitor that joins them ([monitor.rs]).

    Worker [i]'s parking flag is the [i]-th element of a list.  Counts of
    workers are naturals, except where the source subtracts without a guard:
    there they wrap at 64 bits.  A task is opaque; what the operating system
    answers (the resident set, which task arrives during a timed wait) is an
    argument. *)

From Stdlib Require Import ZArith SpecFloat ZifyBool.
From stdpp Require Import base numbers relations sets list.
From S2P Require Import Prelude Numbers.
#[local] Open Scope Z_scope.

(** * The moving average *)
Record Ema := mkEma { alpha : f64; ema_value : f64; ema_initialized : bool }.

(** [assert!] panics. *)
Definition ema_new (alpha : f64) : outcome Empty_set Ema :=
  if f64_ltb f64_zero alpha && f64_leb alpha f64_one then Ok (mkEma alpha f64_zero false) else Panic.

Definition ema_update (sample : f64) (e : Ema) : f64 * Ema :=
  let v :=
    if negb (ema_initialized e) then sample
    else f64_add (f64_mul (alpha e) sample) (f64_mul (f64_sub f64_one (alpha e)) (ema_value e)) in
  (v, mkEma (alpha e) v true).

Definition ema_reset (e : Ema) : Ema := mkEma (alpha e) f64_zero false.

(** * The hill climber *)
Inductive ScaleAction := Unpark | Park | Hold.
#[global] Instance ScaleAction_eq_dec : EqDecision ScaleAction.
Proof. solve_decision. Defined.

Record ScaleDecision := mkScale { sd_action : ScaleAction; sd_count : Z }.

Record HillClimber := mkClimber {
  prev_objective : f64;
  direction : Z;
  cooldown_remaining : Z;
  cooldown_period : Z;
  improvement_threshold : f64;
  current_active : Z;
  hc_min_threads : Z;
  hc_max_threads : Z;
  hc_initialized : bool;
  step_size : Z;
}.

Definition climber_new (cooldown_period : Z) (threshold : f64) (min_threads max_threads initial_active : Z) : HillClimber :=
  mkClimber f64_zero 1 0 cooldown_period threshold initial_active min_threads max_threads false 1.

Definition hold : ScaleDecision := mkScale Hold 0.

(** [usize] subtraction in a release build. *)
Definition usize_sub (a b : Z) : Z := (a - b) mod 2 ^ 64.

Definition accelerated_step_size (c : HillClimber) : Z :=
  Z.min (step_size c * 2) (Z.max (hc_max_threads c / 4) 1).

(** The climber with its objective, direction and step replaced. *)
Definition turned (obj : f64) (dir step : Z) (c : HillClimber) : HillClimber :=
  mkClimber obj dir (cooldown_remaining c) (cooldown_period c) (improvement_threshold c) (current_active c)
    (hc_min_threads c) (hc_max_threads c) (hc_initialized c) step.
Definition moved (active : Z) (c : HillClimber) : HillClimber :=
  mkClimber (prev_objective c) (direction c) (cooldown_period c) (cooldown_period c) (improvement_threshold c) active
    (hc_min_threads c) (hc_max_threads c) (hc_initialized c) (step_size c).

Definition apply_direction (c : HillClimber) : ScaleDecision * HillClimber :=
  if 0 <? direction c then
    let new := Z.min (current_active c + step_size c) (hc_max_threads c) in
    if new =? current_active c then (hold, c)
    else (mkScale Unpark (usize_sub new (current_active c)), moved new c)
  else
    let new := Z.max (Z.max (current_active c - step_size c) 0) (hc_min_threads c) in
    if new =? current_active c then (hold, c)
    else (mkScale Park (usize_sub (current_active c) new), moved new c).

Definition climber_step (objective : f64) (c : HillClimber) : ScaleDecision * HillClimber :=
  if negb (hc_initialized c) then
    (hold, mkClimber objective (direction c) (cooldown_remaining c) (cooldown_period c) (improvement_threshold c)
             (current_active c) (hc_min_threads c) (hc_max_threads c) true (step_size c))
  else if 0 <? cooldown_remaining c then
    (hold, mkClimber (prev_objective c) (direction c) (cooldown_remaining c - 1) (cooldown_period c)
             (improvement_threshold c) (current_active c) (hc_min_threads c) (hc_max_threads c) true (step_size c))
  else
    let improvement := f64_sub (prev_objective c) objective in
    if f64_geb improvement (improvement_threshold c) then
      apply_direction (turned objective (direction c) (accelerated_step_size c) c)
    else if f64_leb improvement (f64_opp (improvement_threshold c)) then
      apply_direction (turned objective (- direction c) 1 c)
    else (hold, turned objective (direction c) (step_size c) c).

(** [clamp] asserts that its bounds are in order. *)
Definition set_current_active (count : Z) (c : HillClimber) : outcome Empty_set HillClimber :=
  if hc_min_threads c <=? hc_max_threads c then
    Ok (mkClimber (prev_objective c) (direction c) (cooldown_remaining c) (cooldown_period c) (improvement_threshold c)
          (Z.max (hc_min_threads c) (Z.min count (hc_max_threads c)))
          (hc_min_threads c) (hc_max_threads c) (hc_initialized c) (step_size c))
  else Panic.

(** * The pool *)
Inductive Priority := High | Low.

Section pool.
Context {Task : Type}.

Record WorkPool := mkPool {
  high : list Task;
  low : list Task;
  parks : list bool;       (* [true]: the worker is parked *)
  active_count : Z;
  tasks_completed : Z;
  min_threads : nat;
  max_threads : nat;
  pool_shutdown : bool;
}.

Definition set_parks (ps : list bool) (active : Z) (p : WorkPool) : WorkPool :=
  mkPool (high p) (low p) ps active (tasks_completed p) (min_threads p) (max_threads p) (pool_shutdown p).
Definition set_queues (hs ls : list Task) (done : Z) (p : WorkPool) : WorkPool :=
  mkPool hs ls (parks p) (active_count p) done (min_threads p) (max_threads p) (pool_shutdown p).

Definition usize_add (a b : Z) : Z := (a + b) mod 2 ^ 64.

(** [WorkPool::new]; [clamp] asserts that its bounds are in order. *)
Definition pool_new (min_threads max_threads initial_active : nat) : outcome Empty_set WorkPool :=
  if decide (min_threads ≤ max_threads)%nat then
    let active := Nat.max min_threads (Nat.min initial_active max_threads) in
    Ok (mkPool [] [] (map (λ i, (active <=? i)%nat) (seq 0 max_threads)) (Z.of_nat active) 0
          min_threads max_threads false)
  else Panic.

(** Clear the first set flag. *)
Fixpoint unpark_first (ps : list bool) : option (list bool) :=
  match ps with
  | [] => None
  | true :: ps => Some (false :: ps)
  | false :: ps => cons false <$> unpark_first ps
  end.

Definition unpark_one (p : WorkPool) : bool * WorkPool :=
  match unpark_first (parks p) with
  | Some ps => (true, set_parks ps (usize_add (active_count p) 1) p)
  | None => (false, p)
  end.

(** Clear set flags in order until [n] are cleared. *)
Fixpoint unpark_list (n count : nat) (ps : list bool) : list bool * nat :=
  match ps with
  | [] => ([], count)
  | b :: rest =>
      if (n <=? count)%nat then (ps, count)
      else
        let '(rest', count') := unpark_list n (if b then S count else count) rest in
        (false :: rest', count')
  end.

Definition unpark_n (n : nat) (p : WorkPool) : nat * WorkPool :=
  let '(ps, count) := unpark_list n 0 (parks p) in
  (count, set_parks ps (usize_add (active_count p) (Z.of_nat count)) p).

(** The loop of [park_n] over the flags from the last, given reversed: the flags,
    the active count, how many were parked. *)
Fixpoint park_list (n min count : nat) (active : Z) (ps : list bool) : list bool * Z * nat :=
  match ps with
  | [] => ([], active, count)
  | b :: rest =>
      if (n <=? count)%nat then (ps, active, count)
      else if active <=? Z.of_nat min then (ps, active, count)
      else
        let '(rest', active', count') :=
          if b then park_list n min count active rest
          else park_list n min (S count) (usize_sub active 1) rest in
        (true :: rest', active', count')
  end.

Definition park_n (n : nat) (p : WorkPool) : nat * WorkPool :=
  let '(ps, active, count) := park_list n (min_threads p) 0 (active_count p) (rev (parks p)) in
  (count, set_parks (rev ps) active p).

Definition park_one (p : WorkPool) : bool * WorkPool :=
  if active_count p <=? Z.of_nat (min_threads p) then (false, p)
  else
    match park_list 1 (min_threads p) 0 (active_count p) (rev (parks p)) with
    | (ps, active, S _) => (true, set_parks (rev ps) active p)
    | _ => (false, p)
    end.

Definition submit (task : Task) (priority : Priority) (p : WorkPool) : WorkPool :=
  let p := match priority with
           | High => set_queues (high p ++ [task]) (low p) (tasks_completed p) p
           | Low => set_queues (high p) (low p ++ [task]) (tasks_completed p) p
           end in
  (unpark_one p).2.

Definition shutdown (p : WorkPool) : WorkPool :=
  mkPool (high p) (low p) (map (λ _, false) (parks p)) (active_count p) (tasks_completed p)
    (min_threads p) (max_threads p) true.

Definition queue_depth (p : WorkPool) : nat := (length (high p) + length (low p))%nat.

(** A turn of [worker_loop] of an unparked worker, with the task it runs (a panic
    of the task is caught, and the task counts as completed all the same); when
    both queues are empty it waits a while for a HIGH task, [late]. *)
Definition worker_turn (late : option Task) (p : WorkPool) : option Task * WorkPool :=
  if pool_shutdown p then (None, p)
  else
    match high p, low p with
    | t :: hs, ls => (Some t, set_queues hs ls (usize_add (tasks_completed p) 1) p)
    | [], t :: ls => (Some t, set_queues [] ls (usize_add (tasks_completed p) 1) p)
    | [], [] =>
        match late with
        | Some t => (Some t, set_queues [] [] (usize_add (tasks_completed p) 1) p)
        | None => (None, p)
        end
    end.

(** * The monitor *)
Record Monitor := mkMonitor {
  ema_throughput : Ema; ema_queue_depth : Ema; ema_rss : Ema; climber : HillClimber; prev_completed : Z;
}.

Definition f64_two : f64 := f64_of_Z 2.
Definition f64_three : f64 := f64_of_Z 3.
Definition f64_five : f64 := f64_of_Z 5.
Definition f64_eight : f64 := f64_of_Z 8.

(** [f64::clamp] *)
Definition f64_clamp (lo hi x : f64) : f64 :=
  if f64_ltb x lo then lo else if f64_ltb hi x then hi else x.

(** [rss_pressure_score], given the resident set if it can be read. *)
Definition rss_pressure_score (rss : option Z) (rss_limit_bytes : Z) : f64 :=
  if rss_limit_bytes =? 0 then f64_zero
  else
    match rss with
    | None => f64_zero
    | Some rss =>
        let ratio := f64_div (f64_of_Z rss) (f64_of_Z rss_limit_bytes) in
        f64_clamp f64_zero f64_three
          (f64_mul (f64_sub ratio (f64_div f64_one f64_two)) (f64_of_Z 4))
    end.

(** One tick of [run_scaling_monitor]. *)
Definition monitor_tick (rss : option Z) (rss_limit_bytes : Z) (m : Monitor) (p : WorkPool) :
    ScaleDecision * Monitor * WorkPool :=
  let rss_p := rss_pressure_score rss rss_limit_bytes in
  let completed := tasks_completed p in
  let throughput := f64_of_Z (usize_sub completed (prev_completed m)) in
  let depth := f64_of_Z (Z.of_nat (queue_depth p)) in
  let '(tp, e1) := ema_update throughput (ema_throughput m) in
  let '(qd, e2) := ema_update depth (ema_queue_depth m) in
  let '(rp, e3) := ema_update rss_p (ema_rss m) in
  let objective :=
    f64_add (f64_add (f64_add (f64_mul (f64_opp f64_one) tp) (f64_mul f64_two qd)) (f64_mul f64_five f64_zero))
      (f64_mul f64_eight rp) in
  let '(d, c) := climber_step objective (climber m) in
  let p :=
    match sd_action d with
    | Unpark => (unpark_n (Z.to_nat (sd_count d)) p).2
    | Park => (park_n (Z.to_nat (sd_count d)) p).2
    | Hold => p
    end in
  (d, mkMonitor e1 e2 e3 c completed, p).
End pool.
Arguments WorkPool : clear implicits.

(** * Counting awake workers *)
Definition awake (ps : list bool) : nat := length (filter (.= false) ps).

Lemma awake_cons b ps : awake (b :: ps) = ((if b : bool then 0 else 1) + awake ps)%nat.
Proof. unfold awake. rewrite filter_cons. destruct b; by destruct (decide _). Qed.

Lemma awake_app ps qs : awake (ps ++ qs) = (awake ps + awake qs)%nat.
Proof. unfold awake. by rewrite filter_app, length_app. Qed.

Lemma awake_rev ps : awake (rev ps) = awake ps.
Proof. induction ps as [|b ps IH]; [done|]. simpl. rewrite awake_app, IH, !awake_cons. unfold awake. simpl. lia. Qed.

Lemma awake_le ps : (awake ps ≤ length ps)%nat.
Proof. apply length_filter. Qed.

Lemma unpark_first_spec ps :
  match unpark_first ps with
  | Some ps' => awake ps' = S (awake ps) ∧ length ps' = length ps
  | None => awake ps = length ps
  end.
Proof.
  induction ps as [|[] ps IH]; simpl; [done|rewrite !awake_cons; by split|].
  destruct (unpark_first ps) as [ps'|]; simpl; rewrite !awake_cons; simpl; [|lia].
  destruct IH as [-> ->]. split; lia.
Qed.

Lemma unpark_list_spec n count ps ps' count' : (count ≤ n)%nat → unpark_list n count ps = (ps', count') →
  count' = Nat.min n (count + (length ps - awake ps)) ∧
  (awake ps' + count = awake ps + count')%nat ∧ length ps' = length ps.
Proof.
  revert count ps' count'. induction ps as [|b ps IH]; intros count ps' count' Hc; simpl.
  { intros [= <- <-]. unfold awake; simpl. lia. }
  pose proof (awake_le ps). rewrite awake_cons. destruct (Nat.leb_spec n count) as [Hn|Hn].
  { intros [= <- <-]. rewrite awake_cons. simpl. destruct b; lia. }
  destruct (unpark_list n _ ps) as [rest' c'] eqn:E. intros [= <- <-]. rewrite awake_cons.
  apply IH in E as (Hc' & Ha & Hl); [|destruct b; lia]. simpl. destruct b; lia.
Qed.

(** The loop of [park_n] when the active count is [x] above the number awake in
    what it has not yet passed. *)
Lemma park_list_spec x n min count active ps ps' active' count' :
  (count ≤ n)%nat → active = Z.of_nat (awake ps + x) → Z.of_nat (length ps + x) < 2 ^ 64 →
  park_list n min count active ps = (ps', active', count') →
  (count' = count + Nat.min (n - count) (Nat.min (awake ps) (awake ps + x - min)))%nat ∧
  (awake ps' + count' = awake ps + count)%nat ∧ length ps' = length ps ∧ active' = Z.of_nat (awake ps' + x).
Proof.
  revert count active ps' active' count'. induction ps as [|b ps IH]; intros count active ps' active' count' Hc Ha Hlen; simpl.
  { intros [= <- <- <-]. unfold awake in *; simpl in *. lia. }
  pose proof (awake_le ps). rewrite awake_cons in *. cbn [length] in Hlen.
  destruct (Nat.leb_spec n count) as [Hn|Hn].
  { intros [= <- <- <-]. rewrite awake_cons. simpl. destruct b; lia. }
  destruct (Z.leb_spec active (Z.of_nat min)) as [Hm|Hm].
  { intros [= <- <- <-]. rewrite awake_cons. simpl. destruct b; lia. }
  destruct b; simpl in Ha.
  - destruct (park_list n min count active ps) as [[rest' a'] c'] eqn:E. intros [= <- <- <-]. rewrite awake_cons.
    apply IH in E as (? & ? & ? & ?); [|lia..]. cbn [length]. lia.
  - destruct (park_list n min (S count) (usize_sub active 1) ps) as [[rest' a'] c'] eqn:E. intros [= <- <- <-]. rewrite awake_cons.
    apply IH in E as (? & ? & ? & ?); [cbn [length]; lia|lia|unfold usize_sub; rewrite Z.mod_small; lia|lia].
Qed.

(** * Invariants *)
Record pool_ok {Task} (p : WorkPool Task) : Prop := {
  pok_active : active_count p = Z.of_nat (awake (parks p));
  pok_length : length (parks p) = max_threads p;
  pok_min : (min_threads p ≤ awake (parks p))%nat;
  pok_width : Z.of_nat (max_threads p) < 2 ^ 63;
}.

Lemma pool_ok_parks {Task} (p : WorkPool Task) ps a : pool_ok p → length ps = length (parks p) →
  a = Z.of_nat (awake ps) → (min_threads p ≤ awake ps)%nat → pool_ok (set_parks ps a p).
Proof. intros [_ Hl _ Hw] Hlen -> Hm. split; simpl; [done|by rewrite Hlen|done|done]. Qed.

Lemma usize_add_exact a b : 0 ≤ a + b < 2 ^ 64 → usize_add a b = a + b.
Proof. intros. by apply Z.mod_small. Qed.

Lemma unpark_n_spec {Task} n (p p' : WorkPool Task) k : pool_ok p → unpark_n n p = (k, p') →
  pool_ok p' ∧ k = Nat.min n (max_threads p - awake (parks p)) ∧ awake (parks p') = (awake (parks p) + k)%nat.
Proof.
  intros Hok. pose proof Hok as [Ha Hl Hm Hw]. unfold unpark_n.
  destruct (unpark_list n 0 (parks p)) as [ps c] eqn:E. intros [= <- <-].
  apply unpark_list_spec in E as (Hc & Haw & Hlen); [|lia]. pose proof (awake_le (parks p)). pose proof (awake_le ps).
  split_and!; [|rewrite Hl in Hc; lia|simpl; lia].
  apply pool_ok_parks; [done|done| |lia]. rewrite Ha, usize_add_exact; lia.
Qed.

Lemma park_n_over {Task} x n (p p' : WorkPool Task) k :
  active_count p = Z.of_nat (awake (parks p) + x) → Z.of_nat (length (parks p) + x) < 2 ^ 64 → park_n n p = (k, p') →
  k = Nat.min n (Nat.min (awake (parks p)) (awake (parks p) + x - min_threads p)) ∧
  (awake (parks p') + k = awake (parks p))%nat ∧ length (parks p') = length (parks p) ∧
  p' = set_parks (parks p') (Z.of_nat (awake (parks p') + x)) p.
Proof.
  intros Ha Hw. unfold park_n. destruct (park_list _ _ _ _ _) as [[ps a] c] eqn:E. intros [= <- <-].
  apply (park_list_spec x) in E as (Hc & Haw & Hlen & Ha'); [|lia|by rewrite awake_rev|by rewrite length_rev].
  rewrite awake_rev in Hc, Haw. rewrite length_rev in Hlen. cbn [parks set_parks]. rewrite awake_rev, length_rev.
  split_and!; [lia|lia|done|by rewrite Ha'].
Qed.

Lemma park_n_spec {Task} n (p p' : WorkPool Task) k : pool_ok p → park_n n p = (k, p') →
  pool_ok p' ∧ k = Nat.min n (awake (parks p) - min_threads p) ∧ (awake (parks p') + k = awake (parks p))%nat.
Proof.
  intros Hok. pose proof Hok as [Ha Hl Hm Hw]. intros (Hk & Haw & Hlen & ->)%(park_n_over 0); [|lia..].
  split_and!; [apply pool_ok_parks; [done|done|lia|lia]|lia|done].
Qed.

Lemma unpark_one_spec {Task} (p : WorkPool Task) : pool_ok p →
  pool_ok (unpark_one p).2 ∧ awake (parks (unpark_one p).2) = Nat.min (max_threads p) (S (awake (parks p))).
Proof.
  intros Hok. pose proof Hok as [Ha Hl Hm Hw]. unfold unpark_one. pose proof (unpark_first_spec (parks p)) as Hf.
  pose proof (awake_le (parks p)). destruct (unpark_first (parks p)) as [ps|]; simpl; [|split; [done|lia]].
  destruct Hf as [Haw Hlen]. pose proof (awake_le ps). split; [|lia].
  apply pool_ok_parks; [done|done| |lia]. rewrite Ha, usize_add_exact; lia.
Qed.

Lemma pool_ok_queues {Task} (p : WorkPool Task) hs ls d : pool_ok p → pool_ok (set_queues hs ls d p).
Proof. by intros []. Qed.

Lemma submit_spec {Task} t pr (p : WorkPool Task) : pool_ok p →
  pool_ok (submit t pr p) ∧ awake (parks (submit t pr p)) = Nat.min (max_threads p) (S (awake (parks p))).
Proof.
  intros Hok. unfold submit.
  destruct pr; [destruct (unpark_one_spec (set_queues (high p ++ [t]) (low p) (tasks_completed p) p))|
    destruct (unpark_one_spec (set_queues (high p) (low p ++ [t]) (tasks_completed p) p))]; auto using pool_ok_queues.
Qed.

Lemma awake_seq k n : awake (map (λ i, (k <=? i)%nat) (seq 0 n)) = Nat.min k n.
Proof.
  induction n as [|n IH]; [unfold awake; simpl; lia|].
  rewrite seq_S, map_app, awake_app, IH. simpl. rewrite awake_cons. unfold awake. simpl.
  destruct (Nat.leb_spec k n); lia.
Qed.

Lemma pool_new_spec {Task} mn mx init : (mn ≤ mx)%nat → Z.of_nat mx < 2 ^ 63 →
  ∃ p, pool_new (Task := Task) mn mx init = Ok p ∧ pool_ok p ∧ min_threads p = mn ∧ max_threads p = mx ∧
    awake (parks p) = Nat.max mn (Nat.min init mx).
Proof.
  intros Hle Hw. unfold pool_new. rewrite decide_True by done. eexists. split; [done|].
  cbn [parks min_threads max_threads]. rewrite awake_seq.
  split_and!; [split; cbn [parks active_count min_threads max_threads]; rewrite ?awake_seq, ?length_map, ?length_seq; lia|done|done|lia].
Qed.

(** The pool's own operations, one after another, keep its active count the
    number of awake workers, between [min_threads] and [max_threads], and do
    exactly what they say: [new] clamps the initial count, [unpark_n] wakes as
    many as asked and asleep, [park_n] parks as many as asked and above the
    minimum, a submission wakes one if any sleeps. *)
Theorem pool_scaling_exact {Task : Type} :
  (∀ mn mx init, (mn ≤ mx)%nat → Z.of_nat mx < 2 ^ 63 →
     ∃ p, pool_new (Task := Task) mn mx init = Ok p ∧ pool_ok p ∧ awake (parks p) = Nat.max mn (Nat.min init mx)) ∧
  (∀ p : WorkPool Task, pool_ok p →
     (∀ n, let '(k, p') := unpark_n n p in
        pool_ok p' ∧ k = Nat.min n (max_threads p - awake (parks p)) ∧ awake (parks p') = (awake (parks p) + k)%nat) ∧
     (∀ n, let '(k, p') := park_n n p in
        pool_ok p' ∧ k = Nat.min n (awake (parks p) - min_threads p) ∧ (awake (parks p') + k = awake (parks p))%nat) ∧
     (∀ t pr, pool_ok (submit t pr p) ∧ awake (parks (submit t pr p)) = Nat.min (max_threads p) (S (awake (parks p))))).
Proof.
  split.
  - intros mn mx init Hle Hw. destruct (pool_new_spec (Task := Task) mn mx init Hle Hw) as (p & H1 & H2 & _ & _ & H3). eauto.
  - intros p Hok. split_and!.
    + intros n. destruct (unpark_n n p) as [k p'] eqn:E. by eapply unpark_n_spec.
    + intros n. destruct (park_n n p) as [k p'] eqn:E. by eapply park_n_spec.
    + intros t pr. by apply submit_spec.
Qed.

Lemma pool_scaling_exact_witness :
  ∃ p, pool_new (Task := nat) 1 8 4 = Ok p ∧ pool_ok p ∧ awake (parks p) = 4%nat.
Proof. apply (proj1 (pool_scaling_exact (Task := nat)) 1%nat 8%nat 4%nat); [lia|by vm_compute]. Defined.

(** * The climber's bounds *)
Record climber_ok (c : HillClimber) : Prop := {
  cok_range : 0 ≤ hc_min_threads c ≤ current_active c ∧ current_active c ≤ hc_max_threads c < 2 ^ 63;
  cok_direction : direction c = 1 ∨ direction c = -1;
  cok_step : 1 ≤ step_size c ≤ Z.max 1 (hc_max_threads c / 4);
}.

(** A decision is the change of [current_active]. *)
Definition decides (d : ScaleDecision) (before after : Z) : Prop :=
  match sd_action d with
  | Unpark => sd_count d = after - before ∧ before < after
  | Park => sd_count d = before - after ∧ after < before
  | Hold => before = after
  end.

Lemma apply_direction_spec c d c' : climber_ok c → apply_direction c = (d, c') →
  climber_ok c' ∧ decides d (current_active c) (current_active c') ∧
  hc_min_threads c' = hc_min_threads c ∧ hc_max_threads c' = hc_max_threads c.
Proof.
  intros [[Hr1 Hr2] Hd Hs]. unfold apply_direction, decides, usize_sub. intros E.
  destruct (Z.ltb_spec 0 (direction c)).
  - destruct (Z.eqb_spec (Z.min (current_active c + step_size c) (hc_max_threads c)) (current_active c)) as [He|He];
      injection E as <- <-; simpl; [by split_and!|].
    split_and!; [split; simpl; [lia|done|done]|rewrite Z.mod_small; lia|lia|done|done].
  - destruct (Z.eqb_spec (Z.max (Z.max (current_active c - step_size c) 0) (hc_min_threads c)) (current_active c)) as [He|He];
      injection E as <- <-; simpl; [by split_and!|].
    split_and!; [split; simpl; [lia|done|done]|rewrite Z.mod_small; lia|lia|done|done].
Qed.

Lemma turned_ok o dir step c : climber_ok c → dir = 1 ∨ dir = -1 → 1 ≤ step ≤ Z.max 1 (hc_max_threads c / 4) →
  climber_ok (turned o dir step c).
Proof. intros [] ? ?. by split. Qed.

Lemma climber_step_spec o c d c' : climber_ok c → climber_step o c = (d, c') →
  climber_ok c' ∧ decides d (current_active c) (current_active c') ∧
  hc_min_threads c' = hc_min_threads c ∧ hc_max_threads c' = hc_max_threads c.
Proof.
  intros Hok. unfold climber_step. pose proof Hok as [[? ?] Hd Hs].
  destruct (negb (hc_initialized c)); [intros [= <- <-]; by split_and!; [split| | |]|].
  destruct (0 <? cooldown_remaining c); [intros [= <- <-]; by split_and!; [split| | |]|].
  destruct (f64_geb _ _).
  { intros E. apply apply_direction_spec in E; [exact E|]. apply turned_ok; [done|done|]. unfold accelerated_step_size. lia. }
  destruct (f64_leb _ _).
  { intros E. apply apply_direction_spec in E; [exact E|]. apply turned_ok; [done|lia|lia]. }
  intros [= <- <-]. split_and!; [by apply turned_ok|done..].
Qed.

(** * The monitored pool *)
Inductive PoolEvent (Task : Type) :=
  | Tick (rss : option Z) (rss_limit_bytes : Z)
  | Submitted (t : Task) (pr : Priority)
  | Worked (late : option Task).
Arguments Tick {Task} _ _.
Arguments Submitted {Task} _ _.
Arguments Worked {Task} _.

Definition pool_event {Task} (e : PoolEvent Task) (s : Monitor * WorkPool Task) : Monitor * WorkPool Task :=
  match e with
  | Tick rss limit => let '(_, m, p) := monitor_tick rss limit s.1 s.2 in (m, p)
  | Submitted t pr => (s.1, submit t pr s.2)
  | Worked late => (s.1, (worker_turn late s.2).2)
  end.

Definition run_pool {Task} (es : list (PoolEvent Task)) (s : Monitor * WorkPool Task) : Monitor * WorkPool Task :=
  foldl (λ s e, pool_event e s) s es.

(** The state at the start of [run_scaling_monitor]: three averages and a climber
    with the constants of [monitor.rs]. *)
Definition EMA_ALPHA : f64 := f64_div (f64_of_Z 15) (f64_of_Z 100).
Definition IMPROVEMENT_THRESHOLD : f64 := f64_div (f64_of_Z 5) (f64_of_Z 100).
Definition COOLDOWN_PERIOD : Z := 5.
Definition monitor_start {Task} (p : WorkPool Task) : Monitor :=
  let e := mkEma EMA_ALPHA f64_zero false in
  mkMonitor e e e
    (climber_new COOLDOWN_PERIOD IMPROVEMENT_THRESHOLD (Z.of_nat (min_threads p)) (Z.of_nat (max_threads p)) (active_count p))
    (tasks_completed p).

Definition monitored {Task} (mn mx : nat) (s : Monitor * WorkPool Task) : Prop :=
  pool_ok s.2 ∧ min_threads s.2 = mn ∧ max_threads s.2 = mx ∧ climber_ok (climber s.1) ∧
  hc_min_threads (climber s.1) = Z.of_nat mn ∧ hc_max_threads (climber s.1) = Z.of_nat mx.

Lemma pool_event_monitored {Task} mn mx e (s : Monitor * WorkPool Task) :
  monitored mn mx s → monitored mn mx (pool_event e s).
Proof.
  intros (Hp & Hmn & Hmx & Hc & Hcn & Hcx). destruct e as [rss limit|t pr|late]; cbn [pool_event].
  - unfold monitor_tick. cbv zeta. do 3 destruct (ema_update _ _) as [? ?].
    destruct (climber_step _ _) as [d c] eqn:E.
    apply climber_step_spec in E as (Hc' & _ & Hn' & Hx'); [|done].
    assert (Hpool : let p := match sd_action d with Unpark => (unpark_n (Z.to_nat (sd_count d)) s.2).2
      | Park => (park_n (Z.to_nat (sd_count d)) s.2).2 | Hold => s.2 end in
      pool_ok p ∧ min_threads p = mn ∧ max_threads p = mx).
    { destruct (sd_action d).
      - destruct (unpark_n _ s.2) as [k p'] eqn:Eu. pose proof Eu as Eu'. apply unpark_n_spec in Eu as [? _]; [|done].
        unfold unpark_n in Eu'. destruct (unpark_list _ _ _). injection Eu' as _ <-. by split.
      - destruct (park_n _ s.2) as [k p'] eqn:Eu. pose proof Eu as Eu'. apply park_n_spec in Eu as [? _]; [|done].
        unfold park_n in Eu'. destruct (park_list _ _ _ _ _) as [[? ?] ?]. injection Eu' as _ <-. by split.
      - done. }
    destruct Hpool as (H1 & H2 & H3). unfold monitored. cbn [fst snd climber]. split_and!; try done; congruence.
  - unfold monitored. cbn [fst snd]. split_and!; try done; [by apply submit_spec| |];
      unfold submit, unpark_one; destruct pr; by destruct (unpark_first _).
  - unfold monitored. cbn [fst snd]. unfold worker_turn.
    destruct (pool_shutdown s.2); [done|]. destruct (high s.2), (low s.2), late; simpl; split_and!; auto using pool_ok_queues.
Qed.

Lemma run_pool_monitored {Task} mn mx es (s : Monitor * WorkPool Task) :
  monitored mn mx s → monitored mn mx (run_pool es s).
Proof. revert s. induction es as [|e es IH]; intros s Hs; [done|]. apply IH. by apply pool_event_monitored. Qed.

(** Tasks taken by workers since the monitor's last tick, over a run that had
    taken [n] since the last tick before it. *)
Fixpoint taken_since_tick {Task} (es : list (PoolEvent Task)) (s : Monitor * WorkPool Task) (n : Z) : Z :=
  match es with
  | [] => n
  | e :: es =>
      taken_since_tick es (pool_event e s)
        match e with
        | Tick _ _ => 0
        | Submitted _ _ => n
        | Worked late => if (worker_turn late s.2).1 is Some _ then n + 1 else n
        end
  end.

Lemma monitor_tick_completed {Task} rss limit m (p : WorkPool Task) :
  let '(_, m', p') := monitor_tick rss limit m p in
  prev_completed m' = tasks_completed p ∧ tasks_completed p' = tasks_completed p.
Proof.
  unfold monitor_tick, unpark_n, park_n. cbv zeta. do 3 destruct (ema_update _ _). destruct (climber_step _ _) as [d c].
  split; [done|]. destruct (sd_action d); [by destruct (unpark_list _ _ _)|by destruct (park_list _ _ _ _ _) as [[??]?]|done].
Qed.

Lemma monitor_tick_throughput {Task} rss limit m (p : WorkPool Task) :
  let '(_, m', _) := monitor_tick rss limit m p in
  ema_throughput m' =
    (ema_update (f64_of_Z (usize_sub (tasks_completed p) (prev_completed m))) (ema_throughput m)).2.
Proof.
  unfold monitor_tick. cbv zeta. destruct (ema_update _ (ema_throughput m)) as [tp e1]. do 2 destruct (ema_update _ _).
  by destruct (climber_step _ _) as [d c].
Qed.

Lemma usize_add_wraps a b n : a = (b + n) mod 2 ^ 64 → usize_add a 1 = (b + (n + 1)) mod 2 ^ 64.
Proof. intros ->. unfold usize_add. rewrite Zplus_mod_idemp_l. f_equal. lia. Qed.

Lemma run_pool_completed {Task} es (s : Monitor * WorkPool Task) n :
  tasks_completed s.2 = (prev_completed s.1 + n) mod 2 ^ 64 → 0 ≤ tasks_completed s.2 < 2 ^ 64 →
  let s' := run_pool es s in
  tasks_completed s'.2 = (prev_completed s'.1 + taken_since_tick es s n) mod 2 ^ 64.
Proof.
  revert s n. induction es as [|e es IH]; intros s n Hs Hw; [exact Hs|]. cbn zeta in *.
  destruct e as [rss limit|t pr|late]; apply (IH (pool_event _ s)); cbn [pool_event].
  - pose proof (monitor_tick_completed rss limit s.1 s.2) as H. destruct (monitor_tick _ _ _ _) as [[d m] p].
    destruct H as [H1 H2]. cbn [snd fst]. by rewrite H1, H2, Z.add_0_r, Z.mod_small.
  - pose proof (monitor_tick_completed rss limit s.1 s.2) as H. destruct (monitor_tick _ _ _ _) as [[d m] p].
    cbn [snd]. by rewrite (proj2 H).
  - unfold submit, unpark_one. destruct pr; cbn [parks set_queues]; by destruct (unpark_first _).
  - unfold submit, unpark_one. destruct pr; cbn [parks set_queues]; by destruct (unpark_first _).
  - unfold worker_turn. destruct (pool_shutdown s.2); [done|].
    destruct (high s.2), (low s.2), late; cbn [fst snd set_queues tasks_completed]; auto using usize_add_wraps.
  - unfold worker_turn. destruct (pool_shutdown s.2); [done|].
    destruct (high s.2), (low s.2), late; cbn [fst snd set_queues tasks_completed]; first [done|by apply Z.mod_pos_bound].
Qed.

(** What a decision to move a count from [before] to [after] does to [n] awake
    workers between [mn] and [mx]. *)
Definition scaled (mn mx : nat) (d : ScaleDecision) (n n' : nat) : Prop :=
  match sd_action d with
  | Unpark => Z.of_nat n' = Z.min (Z.of_nat mx) (Z.of_nat n + sd_count d)
  | Park => Z.of_nat n' = Z.max (Z.of_nat mn) (Z.of_nat n - sd_count d)
  | Hold => n' = n
  end.

Lemma monitor_tick_spec {Task} mn mx rss limit m (p : WorkPool Task) : monitored mn mx (m, p) →
  let '(d, m', p') := monitor_tick rss limit m p in
  monitored mn mx (m', p') ∧ decides d (current_active (climber m)) (current_active (climber m')) ∧
  scaled mn mx d (awake (parks p)) (awake (parks p')).
Proof.
  intros Hm. pose proof Hm as (Hp & Hmn & Hmx & Hc & _). cbn [fst snd] in *.
  pose proof (pool_event_monitored mn mx (Tick rss limit) _ Hm) as Hm'. revert Hm'. cbn [pool_event fst snd].
  unfold monitor_tick. cbv zeta. do 3 destruct (ema_update _ _) as [? ?].
  destruct (climber_step _ _) as [d c] eqn:E. apply climber_step_spec in E as (_ & Hd & _); [|done].
  intros Hm'. split_and!; [done|done|]. clear Hm'. unfold scaled, decides in *.
  pose proof (pok_min _ Hp) as H1. pose proof (awake_le (parks p)) as H2. rewrite (pok_length _ Hp) in H2.
  destruct (sd_action d); [| |done].
  - destruct (unpark_n _ p) as [k p'] eqn:Eu. apply unpark_n_spec in Eu as (_ & Hk & Hn); [|done]. cbn [snd]. lia.
  - destruct (park_n _ p) as [k p'] eqn:Eu. apply park_n_spec in Eu as (_ & Hk & Hn); [|done]. cbn [snd]. lia.
Qed.

(** C29: whatever is submitted, whatever the workers take and whatever resident
    set the monitor reads, one operation at a time, a pool that starts between its
    bounds stays there: its active count is the number of awake workers, between
    [min_threads] and [max_threads], and so is the count the hill climber
    believes in.  No subtraction wraps: at the next tick, whatever it reads, the
    count in the decision is exactly how far the climber's count moves, up when it
    wakes and down when it parks, that many workers are woken or parked up to the
    bounds, and the throughput sample is the number of tasks taken since the last
    tick (the counter of tasks itself counts modulo 2^64).

    Submissions made at once are not one operation at a time:
    [unpark_race_overcounts] says what they do to the count. *)
Theorem scaling_stays_in_bounds {Task : Type} mn mx init (Hle : (mn ≤ mx)%nat) (Hw : Z.of_nat mx < 2 ^ 63) :
  ∃ p : WorkPool Task, pool_new mn mx init = Ok p ∧
    ∀ es, let '(m, p') := run_pool es (monitor_start p, p) in
      active_count p' = Z.of_nat (awake (parks p')) ∧ (mn ≤ awake (parks p') ≤ mx)%nat ∧
      Z.of_nat mn ≤ current_active (climber m) ≤ Z.of_nat mx ∧
      ∀ rss limit, let '(d, m', p'') := monitor_tick rss limit m p' in
        ema_throughput m' =
          (ema_update (f64_of_Z (taken_since_tick es (monitor_start p, p) 0 mod 2 ^ 64)) (ema_throughput m)).2 ∧
        decides d (current_active (climber m)) (current_active (climber m')) ∧
        scaled mn mx d (awake (parks p')) (awake (parks p'')).
Proof.
  destruct (pool_new_spec (Task := Task) mn mx init Hle Hw) as (p & Hp & Hok & Hmn & Hmx & Haw).
  exists p. split; [done|]. intros es.
  assert (H0 : monitored mn mx (monitor_start p, p)).
  { unfold monitored, monitor_start, climber_new. cbn [fst snd climber hc_min_threads hc_max_threads].
    split_and!; try done; [|by rewrite Hmn|by rewrite Hmx]. split; simpl.
    - rewrite Hmn, Hmx, (pok_active _ Hok), Haw. lia.
    - by left.
    - lia. }
  assert (Hdone : tasks_completed p = 0).
  { revert Hp. unfold pool_new. destruct (decide _); [|done]. by intros [= <-]. }
  pose proof (run_pool_completed es (monitor_start p, p) 0) as Hc. cbn [fst snd monitor_start prev_completed] in Hc.
  rewrite Hdone in Hc. specialize (Hc eq_refl ltac:(lia)). pose proof (run_pool_monitored mn mx es _ H0) as Hinv.
  destruct (run_pool es _) as [m p']. cbn [fst snd] in Hc.
  pose proof Hinv as (Hok' & Hmn' & Hmx' & [Hr _ _] & Hcn & Hcx). cbn [fst snd] in *.
  destruct Hok' as [Ha Hl Hm _]. pose proof (awake_le (parks p')). split_and!; [done|lia..|].
  intros rss limit. pose proof (monitor_tick_spec mn mx rss limit m p' Hinv) as Ht.
  pose proof (monitor_tick_throughput rss limit m p') as Hs. rewrite Hc in Hs. unfold usize_sub in Hs.
  rewrite Zminus_mod_idemp_l, Z.add_simpl_l in Hs.
  destruct (monitor_tick _ _ _ _) as [[d m'] p'']. split; [exact Hs|apply Ht].
Qed.

Lemma scaling_stays_in_bounds_witness :
  ∃ p : WorkPool nat, pool_new 1 8 4 = Ok p ∧
    ∀ es, let '(m, p') := run_pool es (monitor_start p, p) in
      active_count p' = Z.of_nat (awake (parks p')) ∧ (1 ≤ awake (parks p') ≤ 8)%nat ∧
      Z.of_nat 1 ≤ current_active (climber m) ≤ Z.of_nat 8 ∧
      ∀ rss limit, let '(d, m', p'') := monitor_tick rss limit m p' in
        ema_throughput m' =
          (ema_update (f64_of_Z (taken_since_tick es (monitor_start p, p) 0 mod 2 ^ 64)) (ema_throughput m)).2 ∧
        decides d (current_active (climber m)) (current_active (climber m')) ∧
        scaled 1 8 d (awake (parks p')) (awake (parks p'')).
Proof. apply (scaling_stays_in_bounds (Task := nat) 1 8 4); [lia|by vm_compute]. Defined.

(** * Worsening samples *)
Definition worse (prev objective threshold : f64) : Prop :=
  f64_geb (f64_sub prev objective) threshold = false ∧
  f64_leb (f64_sub prev objective) (f64_opp threshold) = true.

Lemma climber_step_worse o c : hc_initialized c = true → cooldown_remaining c = 0 →
  worse (prev_objective c) o (improvement_threshold c) →
  climber_step o c = apply_direction (turned o (- direction c) 1 c).
Proof. intros Hi Hcd [H1 H2]. unfold climber_step. by rewrite Hi, Hcd, H1, H2. Qed.

(** A sample worse than the last by the threshold only reverses the climber.
    One that last parked workers wakes one, whatever made the sample worse; and
    one that already sits at [min_threads] and was last told to wake holds at the
    first such sample and wakes a worker at the second.  So a resident set that
    keeps climbing makes the monitor wake workers. *)
Theorem worsening_reverses (c : HillClimber) (o1 o2 : f64) (Hok : climber_ok c) (Hi : hc_initialized c = true)
    (Hcd : cooldown_remaining c = 0) (Hlt : current_active c < hc_max_threads c)
    (Hworse : worse (prev_objective c) o1 (improvement_threshold c)) :
  (direction c = -1 →
     climber_step o1 c = (mkScale Unpark 1, moved (current_active c + 1) (turned o1 1 1 c))) ∧
  (direction c = 1 → current_active c = hc_min_threads c → worse o1 o2 (improvement_threshold c) →
     climber_step o1 c = (hold, turned o1 (-1) 1 c) ∧
     climber_step o2 (turned o1 (-1) 1 c) = (mkScale Unpark 1, moved (current_active c + 1) (turned o2 1 1 c))).
Proof.
  destruct Hok as [[? ?] _ _].
  assert (Hup : ∀ o c', 0 ≤ current_active c' < hc_max_threads c' → hc_max_threads c' < 2 ^ 63 →
            apply_direction (turned o 1 1 c') = (mkScale Unpark 1, moved (current_active c' + 1) (turned o 1 1 c'))).
  { intros o c' Hc Hw. unfold apply_direction. cbn [direction turned current_active step_size hc_max_threads].
    rewrite Z.min_l by lia. destruct (Z.eqb_spec (current_active c' + 1) (current_active c')); [lia|].
    unfold usize_sub. rewrite Z.mod_small by lia. cbn [Z.ltb Z.compare]. do 2 f_equal. lia. }
  rewrite (climber_step_worse o1) by done. split.
  - intros ->. apply Hup; lia.
  - intros Hd Hmin Hw2. rewrite Hd. split.
    + unfold apply_direction. cbn [direction turned current_active step_size hc_min_threads].
      destruct (Z.eqb_spec (Z.max (Z.max (current_active c - 1) 0) (hc_min_threads c)) (current_active c)); [done|lia].
    + rewrite climber_step_worse by done. apply (Hup o2 (turned o1 (-1) 1 c)); simpl; lia.
Qed.

(** The samples are 1.6, 2.4 and 4: eight times the pressure of an idle pool
    whose resident set is at 55%, 57.5% and 62.5% of its budget. *)
Lemma worsening_reverses_witness :
  let o k := f64_div (f64_of_Z k) (f64_of_Z 10) in
  let c := mkClimber (o 16) 1 0 COOLDOWN_PERIOD IMPROVEMENT_THRESHOLD 1 1 8 true 1 in
  climber_step (o 24) c = (hold, turned (o 24) (-1) 1 c) ∧
  climber_step (o 40) (turned (o 24) (-1) 1 c) = (mkScale Unpark 1, moved 2 (turned (o 40) 1 1 c)).
Proof.
  intros o c. apply (worsening_reverses c (o 24) (o 40));
    [split; [by vm_compute|by left|by vm_compute]|done|done|done|by vm_compute|done|done|by vm_compute].
Defined.

(** * Concurrent wakers *)
(** A call of [unpark_one] between two accesses to what it shares: it reads the
    flag of worker [i], clears it, adds to the active count. *)
Inductive Waker := Scan (i : nat) | Waking (i : nat) | Counting | Woken (found : bool).

Definition waker_step {Task} (w : Waker) (p : WorkPool Task) : Waker * WorkPool Task :=
  match w with
  | Scan i =>
      match parks p !! i with
      | Some true => (Waking i, p)
      | Some false => (Scan (S i), p)
      | None => (Woken false, p)
      end
  | Waking i => (Counting, set_parks (<[i := false]> (parks p)) (active_count p) p)
  | Counting => (Woken true, set_parks (parks p) (usize_add (active_count p) 1) p)
  | Woken _ => (w, p)
  end.

(** A step of one of two callers. *)
Inductive wakers_step {Task} : Waker * Waker * WorkPool Task → Waker * Waker * WorkPool Task → Prop :=
  | step_first w1 w2 p : wakers_step (w1, w2, p) ((waker_step w1 p).1, w2, (waker_step w1 p).2)
  | step_second w1 w2 p : wakers_step (w1, w2, p) (w1, (waker_step w2 p).1, (waker_step w2 p).2).

Lemma unpark_first_insert ps ps' : unpark_first ps = Some ps' →
  ∃ i, ps !! i = Some true ∧ (∀ j, (j < i)%nat → ps !! j = Some false) ∧ ps' = <[i := false]> ps.
Proof.
  revert ps'. induction ps as [|[] ps IH]; intros ps'; simpl; [done| |].
  - intros [= <-]. exists 0%nat. split_and!; [done|lia|done].
  - destruct (unpark_first ps) as [qs|]; [|done]. intros [= <-].
    destruct (IH qs eq_refl) as (i & Hi & Hj & ->). exists (S i). split_and!; [done| |done].
    intros [|j] Hlt; [done|]. simpl. apply Hj. lia.
Qed.

Lemma scan_to {Task} (p : WorkPool Task) i : parks p !! i = Some true →
  (∀ j, (j < i)%nat → parks p !! j = Some false) →
  (∀ w, rtc wakers_step (Scan 0, w, p) (Waking i, w, p)) ∧ (∀ w, rtc wakers_step (w, Scan 0, p) (w, Waking i, p)).
Proof.
  intros Hi Hj.
  assert (Hscan : ∀ k, (k ≤ i)%nat →
    (∀ w, rtc wakers_step (Scan 0, w, p) (Scan k, w, p)) ∧ (∀ w, rtc wakers_step (w, Scan 0, p) (w, Scan k, p))).
  { induction k as [|k IH]; intros Hk; [by split|]. destruct IH as [H1 H2]; [lia|]. split; intros w.
    - eapply rtc_r; [apply H1|]. pose proof (step_first (Scan k) w p) as Hs. simpl in Hs. by rewrite (Hj k) in Hs by lia.
    - eapply rtc_r; [apply H2|]. pose proof (step_second w (Scan k) p) as Hs. simpl in Hs. by rewrite (Hj k) in Hs by lia. }
  destruct (Hscan i) as [H1 H2]; [done|]. split; intros w.
  - eapply rtc_r; [apply H1|]. pose proof (step_first (Scan i) w p) as Hs. simpl in Hs. by rewrite Hi in Hs.
  - eapply rtc_r; [apply H2|]. pose proof (step_second w (Scan i) p) as Hs. simpl in Hs. by rewrite Hi in Hs.
Qed.

(** One caller alone does what [unpark_one] does. *)
Lemma waker_alone {Task} (p : WorkPool Task) w : (unpark_one p).1 = true →
  rtc wakers_step (Scan 0, w, p) (Woken true, w, (unpark_one p).2).
Proof.
  unfold unpark_one. destruct (unpark_first (parks p)) as [ps|] eqn:E; [|done]. intros _. simpl.
  apply unpark_first_insert in E as (i & Hi & Hj & ->).
  etrans; [by apply (proj1 (scan_to p i Hi Hj))|].
  eapply rtc_l; [apply step_first|]. apply rtc_once.
  exact (step_first Counting w (set_parks (<[i:=false]> (parks p)) (active_count p) p)).
Qed.

(** A submission alone steps to what [unpark_one] answers, but two at once can both find the same sleeping worker: one
    worker wakes and the active count goes up by two.  From then on the count is
    one above the workers awake, and parking stops one worker late: the pool can
    be left with fewer awake workers than [min_threads], with none if that is
    one. *)
Theorem unpark_race_overcounts {Task} (p : WorkPool Task) (Hok : pool_ok p)
    (Hasleep : (awake (parks p) < max_threads p)%nat) (Hmin : (1 ≤ min_threads p)%nat) :
  (∀ w, rtc wakers_step (Scan 0, w, p) (Woken true, w, (unpark_one p).2)) ∧
  ∃ q, rtc wakers_step (Scan 0, Scan 0, p) (Woken true, Woken true, q) ∧
    awake (parks q) = S (awake (parks p)) ∧ active_count q = Z.of_nat (awake (parks q)) + 1 ∧
    (awake (parks (park_n (max_threads q) q).2) + 1 = min_threads p)%nat.
Proof.
  pose proof Hok as [Ha Hl Hm Hw]. pose proof (unpark_first_spec (parks p)) as Hf.
  destruct (unpark_first (parks p)) as [ps|] eqn:E; [|lia]. destruct Hf as [Haw Hlen].
  split; [intros w; apply waker_alone; unfold unpark_one; by rewrite E|].
  apply unpark_first_insert in E as (i & Hi & Hj & ->).
  pose proof (awake_le (<[i:=false]> (parks p))) as Hle.
  exists (set_parks (<[i:=false]> (parks p)) (active_count p + 1 + 1) p).
  assert (Hcount : active_count p + 1 + 1 = Z.of_nat (awake (<[i:=false]> (parks p)) + 1)) by lia.
  cbn [parks active_count set_parks max_threads min_threads]. split_and!; [|done|lia|].
  - destruct (scan_to p i Hi Hj) as [H1 H2]. etrans; [apply H1|]. etrans; [apply H2|].
    eapply rtc_l; [apply step_first|]. eapply rtc_l; [apply step_second|].
    eapply rtc_l; [apply step_first|]. eapply rtc_l; [apply step_second|].
    cbn [waker_step fst snd parks active_count set_parks]. rewrite list_insert_insert, decide_True by done.
    rewrite !usize_add_exact by (rewrite ?usize_add_exact; lia). constructor.
  - destruct (park_n _ _) as [k q] eqn:E. apply (park_n_over 1) in E as (Hk & Hq & _); cbn [parks set_parks active_count min_threads] in *; [cbn [snd]; lia|done|lia].
Qed.

Lemma unpark_race_overcounts_witness :
  ∃ q : WorkPool nat, awake (parks q) = 2%nat ∧ active_count q = 3 ∧
    awake (parks (park_n (max_threads q) q).2) = 0%nat.
Proof.
  destruct (unpark_race_overcounts (Task := nat) (mkPool [] [] [false; true; true; true] 1 0 1 4 false))
    as (_ & q & _ & H1 & H2 & H3); [split; [done|done|simpl; vm_compute; lia|done]|vm_compute; lia|simpl; lia|].
  exists q. cbn [parks] in H1. change (awake [false; true; true; true]) with 1%nat in H1.
  split_and!; [done|lia|]. cbn [min_threads] in H3. lia.
Defined.
