(* ===== verification/HashOrder.v ===== *)
(** The iteration order of [HashMap] and [HashSet].

    A hash container is a [gmap] or a [gset]; the order in which the program
    meets its entries is not under its control.  The class [HashIter] is all a
    program may rely on: the entries, each once.  Theorems about code that
    iterates a hash container are proved for every instance. *)

From stdpp Require Import base numbers sets list gmap fin_maps.
From S2P Require Import Prelude.

Class HashIter := {
  iter_set : ∀ {K} `{Countable K}, gset K → list K;
  iter_map : ∀ {K V} `{Countable K}, gmap K V → list (K * V);
  iter_set_perm : ∀ {K} `{Countable K} (s : gset K), iter_set s ≡ₚ elements s;
  iter_map_perm : ∀ {K V} `{Countable K} (m : gmap K V), iter_map m ≡ₚ map_to_list m;
}.

(** The order of the library's own enumeration. *)
Definition canonical_iter : HashIter.
Proof.
  refine {| iter_set := λ K _ _ s, elements s; iter_map := λ K V _ _ m, map_to_list m |}; done.
Defined.

Section hash_iter.
Context `{HashIter} {K : Type} `{Countable K}.

Lemma elem_of_iter_set (s : gset K) x : x ∈ iter_set s ↔ x ∈ s.
Proof. by rewrite iter_set_perm, elem_of_elements. Qed.

Lemma iter_set_NoDup (s : gset K) : NoDup (iter_set s).
Proof. rewrite iter_set_perm. apply NoDup_elements. Qed.

Lemma iter_set_nil (s : gset K) : iter_set s = [] → s = ∅.
Proof.
  intros E. apply set_eq. intros x. rewrite <- elem_of_iter_set, E. set_solver.
Qed.

Lemma elem_of_iter_map {V} (m : gmap K V) k v : (k, v) ∈ iter_map m ↔ m !! k = Some v.
Proof. by rewrite iter_map_perm, elem_of_map_to_list. Qed.

Lemma iter_map_NoDup {V} (m : gmap K V) : NoDup (iter_map m).*1.
Proof. rewrite iter_map_perm. apply NoDup_fst_map_to_list. Qed.
End hash_iter.
