(* ===== verification/GraphUndirected.v ===== *)
(** The undirected projection of a graph: the adjacency sets that the
    decompositions of [src/src/graph/algorithms_ext.rs] start from. *)

From stdpp Require Import base numbers sets list gmap.
From S2P Require Import Prelude GraphCycles.

Section undirected.
Context {W : Type}.
Implicit Type g : DiGraph W.

Definition node_count g : nat := length (g_nodes g).

(** Two nodes joined by an edge, whichever way it points. *)
Definition adjacent g (u v : nat) : Prop := u ≠ v ∧ (edge g u v ∨ edge g v u).
End undirected.

Notation Adj := (gmap nat (gset nat)).

(** The neighbours of a node; [entry(u).or_default()]. *)
Definition nbrs (adj : Adj) (u : nat) : gset nat := default ∅ (adj !! u).

(** [adj.entry(u).or_default().insert(v)] *)
Definition link (u v : nat) (adj : Adj) : Adj := <[u := {[v]} ∪ nbrs adj u]> adj.

Definition link_both (adj : Adj) (e : nat * nat) : Adj :=
  let '(s, t) := e in if decide (s = t) then adj else link t s (link s t adj).

Definition undirected {W} (g : DiGraph W) : Adj :=
  foldl link_both (foldl (λ adj u, <[u := nbrs adj u]> adj) ∅ (seq 0 (node_count g))) (g_edges g).

Lemma nbrs_insert (adj : Adj) u s v : nbrs (<[u := s]> adj) v = if decide (u = v) then s else nbrs adj v.
Proof. unfold nbrs. rewrite lookup_insert. by destruct (decide (u = v)). Qed.

Lemma dom_link_both (adj : Adj) s t : dom (link_both adj (s, t)) ⊆ {[s; t]} ∪ dom adj ∧ dom adj ⊆ dom (link_both adj (s, t)).
Proof. unfold link_both, link. destruct (decide (s = t)); set_solver. Qed.

Lemma elem_of_link_both (adj : Adj) s t u v :
  v ∈ nbrs (link_both adj (s, t)) u ↔ v ∈ nbrs adj u ∨ s ≠ t ∧ (u = s ∧ v = t ∨ u = t ∧ v = s).
Proof.
  unfold link_both, link. destruct (decide (s = t)) as [->|Hne]; [naive_solver|].
  rewrite !nbrs_insert. repeat case_decide; subst; set_solver.
Qed.

Lemma link_edges_spec es (adj : Adj) :
  (∀ u v, v ∈ nbrs (foldl link_both adj es) u ↔ v ∈ nbrs adj u ∨ u ≠ v ∧ ((u, v) ∈ es ∨ (v, u) ∈ es)) ∧
  dom adj ⊆ dom (foldl link_both adj es) ∧
  (∀ u, u ∈ dom (foldl link_both adj es) → u ∈ dom adj ∨ ∃ v, (u, v) ∈ es ∨ (v, u) ∈ es).
Proof.
  revert adj. induction es as [|[s t] es IH]; intros adj; [simpl; set_solver|]. cbn [foldl].
  destruct (IH (link_both adj (s, t))) as (H1 & H2 & H3). destruct (dom_link_both adj s t) as [D1 D2].
  split_and!.
  - intros u v. rewrite H1, elem_of_link_both, !elem_of_cons. naive_solver.
  - set_solver.
  - intros u [Hu|(v & Hv)]%H3.
    + apply D1 in Hu. rewrite elem_of_union, elem_of_union, !elem_of_singleton in Hu.
      destruct Hu as [[->| ->]|Hu]; [right; exists t; left; by left|right; exists s; right; by left|by left].
    + right. exists v. rewrite !elem_of_cons. naive_solver.
Qed.

Lemma init_nodes_spec n : let adj : Adj := foldl (λ adj u, <[u := nbrs adj u]> adj) ∅ (seq 0 n) in
  (∀ u, nbrs adj u = ∅) ∧ (∀ u, u ∈ dom adj ↔ u < n).
Proof.
  cbv zeta. induction n as [|n IH].
  { simpl. split; [done|]. intros u. rewrite dom_empty. split; [by intros ?%elem_of_empty|lia]. }
  destruct IH as [H1 H2]. rewrite seq_S, foldl_app. cbn [foldl Nat.add]. split.
  - intros u. rewrite nbrs_insert, !H1. by destruct (decide _).
  - intros u. rewrite dom_insert, elem_of_union, elem_of_singleton, H2. lia.
Qed.

Section undirected_spec.
Context {W : Type} (g : DiGraph W) (Hok : graph_ok g).

Lemma elem_of_undirected u v : v ∈ nbrs (undirected g) u ↔ adjacent g u v.
Proof using Type.
  unfold undirected. destruct (link_edges_spec (g_edges g) (foldl (λ adj u, <[u := nbrs adj u]> adj) ∅ (seq 0 (node_count g)))) as [-> _].
  destruct (init_nodes_spec (node_count g)) as [-> _]. unfold adjacent, edge. clear Hok. set_solver.
Qed.

Lemma dom_undirected u : u ∈ dom (undirected g) ↔ u < node_count g.
Proof using Hok.
  unfold undirected. destruct (link_edges_spec (g_edges g) (foldl (λ adj u, <[u := nbrs adj u]> adj) ∅ (seq 0 (node_count g)))) as (_ & H1 & H2).
  destruct (init_nodes_spec (node_count g)) as [_ Hd]. split.
  - intros [?%Hd|(v & [Hv|Hv])]%H2; [done|..]; by apply Hok in Hv as [? ?].
  - intros Hu. apply H1. by apply Hd.
Qed.

Lemma undirected_lookup u : u < node_count g → undirected g !! u = Some (nbrs (undirected g) u).
Proof using Hok. intros [s Hs]%dom_undirected%elem_of_dom. unfold nbrs. by rewrite Hs. Qed.
End undirected_spec.

Lemma adjacent_sym {W} (g : DiGraph W) u v : adjacent g u v → adjacent g v u.
Proof. intros [? [?|?]]; split; auto. Qed.

Lemma adjacent_lt {W} (g : DiGraph W) u v : graph_ok g → adjacent g u v → u < node_count g ∧ v < node_count g.
Proof. intros Hok [_ [He|He]]; apply Hok in He as [? ?]; by split. Qed.

(** Checking the edges of a concrete graph. *)
Lemma graph_ok_edges {W} (g : DiGraph W) :
  Forall (λ e, e.1 < node_count g ∧ e.2 < node_count g) (g_edges g) → graph_ok g.
Proof. intros Hall u v Huv. by apply (proj1 (Forall_forall _ _) Hall) in Huv. Qed.

(** * Neighbours either way

    [neighbors_undirected] of [petgraph] is not in the repository: it gives the
    other end of every edge of a node, a loop once, in an order of its own. *)
Definition incident {W} (g : DiGraph W) (u : nat) : list nat :=
  (filter (λ e, e.1 = u) (g_edges g)).*2 ++ (filter (λ e, e.2 = u ∧ e.1 ≠ u) (g_edges g)).*1.

Class UndirectedNeighbors {W} (f : DiGraph W → nat → list nat) : Prop :=
  neighbors_undirected_law : ∀ g u, f g u ≡ₚ incident g u.

#[export] Instance incident_neighbors {W} : UndirectedNeighbors (incident (W := W)).
Proof. by intros g u. Qed.

Lemma elem_of_incident {W} (g : DiGraph W) u v : v ∈ incident g u ↔ edge g u v ∨ edge g v u.
Proof.
  unfold incident, edge. rewrite elem_of_app, !list_elem_of_fmap. setoid_rewrite list_elem_of_filter. split.
  - intros [([a b] & -> & <- & H)|([a b] & -> & [<- _] & H)]; [by left|by right].
  - intros [H|H]; [left; by exists (u, v)|]. destruct (decide (u = v)) as [->|Hne]; [left; by exists (v, v)|].
    right. by exists (v, u).
Qed.
