(* ===== verification/GraphCore.v ===== *)
(** The k-core decomposition of [src/src/graph/algorithms_ext.rs]
    ([k_core_decomposition]): nodes are peeled in order of their current degree,
    kept in buckets of a [BTreeMap].  Degrees are [u32] in the source; a graph
    has fewer than 2^32 nodes, so they are naturals here. *)

From stdpp Require Import base numbers sets list gmap.
From S2P Require Import Prelude BTree HashOrder GraphCycles GraphUndirected.

Record KCoreResult := mkCore { coreness : gmap nat nat; max_core : nat }.

(** The local variables of the loop. *)
Record Peel := mkPeel {
  pl_adj : Adj;
  pl_deg : gmap nat nat;
  pl_bucket : list (nat * gset nat);
  pl_core : gmap nat nat;
  pl_max : nat;
}.

Definition bucket_at (b : list (nat * gset nat)) (d : nat) : gset nat := default ∅ (bm_get b d).

(** Take a node out of a bucket, and the bucket out of the map when it is empty. *)
Definition bucket_remove (b : list (nat * gset nat)) (d v : nat) : list (nat * gset nat) :=
  let b := match bm_get b d with Some s => bm_insert b d (s ∖ {[v]}) | None => b end in
  if decide (bucket_at b d = ∅) then bm_remove b d else b.

Definition bucket_add (b : list (nat * gset nat)) (d v : nat) : list (nat * gset nat) :=
  bm_insert b d ({[v]} ∪ bucket_at b d).

(** The body of the loop over the neighbours of the removed node [v]. *)
Definition decrement (v min_d : nat) (st : Peel) (nb : nat) : Peel :=
  let adj := match pl_adj st !! nb with
             | Some s => <[nb := s ∖ {[v]}]> (pl_adj st)
             | None => pl_adj st
             end in
  match pl_deg st !! nb with
  | Some old =>
      if decide (min_d < old) then
        mkPeel adj (<[nb := old - 1]> (pl_deg st))
          (bucket_add (bucket_remove (pl_bucket st) old nb) (old - 1) nb) (pl_core st) (pl_max st)
      else mkPeel adj (pl_deg st) (pl_bucket st) (pl_core st) (pl_max st)
  | None => mkPeel adj (pl_deg st) (pl_bucket st) (pl_core st) (pl_max st)
  end.

Section k_core.
Context `{HashIter}.

(** [deg[&ni]] panics on a node without a degree. *)
Definition peel_node (v min_d : nat) (st : Peel) : outcome Empty_set Peel :=
  let* d := expect (pl_deg st !! v) in
  let core := Nat.max d (default 0 (pl_core st !! v)) in
  let cores := <[v := core]> (pl_core st) in
  let top := Nat.max (pl_max st) core in
  match pl_adj st !! v with
  | Some ns =>
      Ok (foldl (decrement v min_d)
            (mkPeel (delete v (pl_adj st)) (pl_deg st) (pl_bucket st) cores top) (iter_set ns))
  | None => Ok (mkPeel (pl_adj st) (pl_deg st) (pl_bucket st) cores top)
  end.

Definition with_bucket (b : list (nat * gset nat)) (st : Peel) : Peel :=
  mkPeel (pl_adj st) (pl_deg st) b (pl_core st) (pl_max st).

Fixpoint peel_loop (fuel : nat) (st : Peel) : outcome Empty_set Peel :=
  match pl_bucket st with
  | [] => Ok st
  | (min_d, s) :: _ =>
      match fuel with
      | 0 => OutOfFuel
      | S fuel =>
          match iter_set s with
          | [] => peel_loop fuel (with_bucket (bm_remove (pl_bucket st) min_d) st)
          | v :: _ =>
              let* st := peel_node v min_d (with_bucket (bucket_remove (pl_bucket st) min_d v) st) in
              peel_loop fuel st
          end
      end
  end.

Definition degrees (adj : Adj) : gmap nat nat := (λ s, size s) <$> adj.

Definition buckets (deg : gmap nat nat) : list (nat * gset nat) :=
  foldl (λ b '(v, d), bucket_add b d v) [] (iter_map deg).

Definition k_core_decomposition {W} (g : DiGraph W) : outcome Empty_set KCoreResult :=
  if decide (node_count g = 0) then Ok (mkCore ∅ 0)
  else
    let adj := undirected g in
    let deg := degrees adj in
    let* st := peel_loop (node_count g) (mkPeel adj deg (buckets deg) ∅ 0) in
    Ok (mkCore (pl_core st) (pl_max st)).
End k_core.

(** * The specification

    A set of nodes is a [k]-core when each of its nodes has [k] neighbours in
    it; a node's coreness is the greatest [k] for which it is in one. *)
Section spec.
Context {W : Type} (g : DiGraph W).

Definition core_set (k : nat) (X : gset nat) : Prop :=
  ∀ v, v ∈ X → v < node_count g ∧ k ≤ size (nbrs (undirected g) v ∩ X).
Definition in_core (k v : nat) : Prop := ∃ X, core_set k X ∧ v ∈ X.
Definition has_coreness (v k : nat) : Prop := in_core k v ∧ ∀ k', in_core k' v → k' ≤ k.
End spec.

(** * Buckets *)
Section buckets.
Implicit Type b : list (nat * gset nat).

Lemma bucket_get_insert b d s d' : bm_ok b →
  bm_get (bm_insert b d s) d' = if decide (d' = d) then Some s else bm_get b d'.
Proof. intros Hok. rewrite bm_get_insert by done. by repeat case_decide. Qed.

Lemma bucket_get_remove b d d' : bm_ok b →
  bm_get (bm_remove b d) d' = if decide (d' = d) then None else bm_get b d'.
Proof. intros Hok. rewrite bm_get_remove by done. by repeat case_decide. Qed.

Definition bucket_ok b : Prop := bm_ok b ∧ ∀ d s, bm_get b d = Some s → s ≠ ∅.

Lemma bucket_remove_spec b d v : bucket_ok b →
  bucket_ok (bucket_remove b d v) ∧
  ∀ d', bucket_at (bucket_remove b d v) d' = if decide (d' = d) then bucket_at b d ∖ {[v]} else bucket_at b d'.
Proof.
  intros [Hok Hne]. unfold bucket_remove.
  set (b' := match bm_get b d with Some s => bm_insert b d (s ∖ {[v]}) | None => b end).
  assert (Hok' : bm_ok b') by (unfold b'; destruct (bm_get b d); [by apply bm_insert_ok|done]).
  assert (Hget : ∀ d', bm_get b' d' = if decide (d' = d) then (λ s, s ∖ {[v]}) <$> bm_get b d else bm_get b d').
  { intros d'. unfold b'. destruct (bm_get b d) as [s|] eqn:E; simpl.
    - by rewrite bucket_get_insert.
    - destruct (decide (d' = d)) as [->|]; [by rewrite E|done]. }
  assert (Hat : ∀ d', bucket_at b' d' = if decide (d' = d) then bucket_at b d ∖ {[v]} else bucket_at b d').
  { intros d'. unfold bucket_at. rewrite Hget. destruct (decide (d' = d)); [|done]. destruct (bm_get b d); simpl; set_solver. }
  destruct (decide (bucket_at b' d = ∅)) as [He|He].
  - split.
    + split; [by apply bm_remove_ok|]. intros d' s. rewrite bucket_get_remove by done.
      destruct (decide (d' = d)) as [->|Hd]; [done|]. rewrite Hget, decide_False by done. apply Hne.
    + intros d'. rewrite Hat in He. rewrite decide_True in He by done. unfold bucket_at at 1. rewrite bucket_get_remove by done.
      destruct (decide (d' = d)) as [->|Hd]; [by rewrite He|]. fold (bucket_at b' d'). by rewrite Hat, decide_False.
  - split; [|done]. split; [done|]. intros d' s Hs. destruct (decide (d' = d)) as [->|Hd].
    + unfold bucket_at in He. by rewrite Hs in He.
    + rewrite Hget, decide_False in Hs by done. by eapply Hne.
Qed.

Lemma bucket_add_spec b d v : bucket_ok b →
  bucket_ok (bucket_add b d v) ∧
  ∀ d', bucket_at (bucket_add b d v) d' = if decide (d' = d) then {[v]} ∪ bucket_at b d else bucket_at b d'.
Proof.
  intros [Hok Hne]. unfold bucket_add. split.
  - split; [by apply bm_insert_ok|]. intros d' s. rewrite bucket_get_insert by done.
    destruct (decide (d' = d)); [intros [= <-]; set_solver|apply Hne].
  - intros d'. unfold bucket_at at 1. rewrite bucket_get_insert by done. by destruct (decide (d' = d)).
Qed.
End buckets.

Lemma buckets_spec `{HashIter} (deg : gmap nat nat) :
  bucket_ok (buckets deg) ∧ ∀ d u, u ∈ bucket_at (buckets deg) d ↔ deg !! u = Some d.
Proof.
  unfold buckets.
  assert (Hfold : ∀ l b, bucket_ok b → NoDup l.*1 →
    bucket_ok (foldl (λ b '(v, d), bucket_add b d v) b l) ∧
    ∀ d u, u ∈ bucket_at (foldl (λ b '(v, d), bucket_add b d v) b l) d ↔ u ∈ bucket_at b d ∨ (u, d) ∈ l).
  { induction l as [|[v d] l IH]; intros b Hb Hnd; simpl; [split; [done|set_solver]|].
    apply NoDup_cons in Hnd as [_ Hnd]. destruct (bucket_add_spec b d v Hb) as [Hb' Hat].
    destruct (IH _ Hb' Hnd) as [H1 H2]. split; [done|]. intros d' u. rewrite H2, Hat, elem_of_cons.
    destruct (decide (d' = d)) as [->|]; set_solver. }
  destruct (Hfold (iter_map deg) []) as [H1 H2]; [by split; [constructor|]|apply iter_map_NoDup|].
  split; [done|]. intros d u. rewrite H2, elem_of_iter_map. unfold bucket_at. simpl. set_solver.
Qed.

Lemma elem_of_bucket_remove b d v d' u : bucket_ok b →
  u ∈ bucket_at (bucket_remove b d v) d' ↔ u ∈ bucket_at b d' ∧ ¬ (d' = d ∧ u = v).
Proof.
  intros Hb. rewrite (proj2 (bucket_remove_spec b d v Hb)).
  destruct (decide (d' = d)) as [->|]; [rewrite elem_of_difference, elem_of_singleton|]; naive_solver.
Qed.

Lemma elem_of_bucket_add b d v d' u : bucket_ok b →
  u ∈ bucket_at (bucket_add b d v) d' ↔ u ∈ bucket_at b d' ∨ (d' = d ∧ u = v).
Proof.
  intros Hb. rewrite (proj2 (bucket_add_spec b d v Hb)).
  destruct (decide (d' = d)) as [->|]; [rewrite elem_of_union, elem_of_singleton|]; naive_solver.
Qed.

(** * Peeling a node *)
Section peel.
Context `{HashIter} {W : Type} (g : DiGraph W) (Hok : graph_ok g).
Notation N := (nbrs (undirected g)).

(** The remaining nodes [R]; a degree never falls below the level [m]. *)
Record peel_ok (R : gset nat) (m : nat) (st : Peel) : Prop := {
  po_dom : dom (pl_adj st) = R;
  po_adj : ∀ u, u ∈ R → nbrs (pl_adj st) u = N u ∩ R;
  po_deg : ∀ u, u ∈ R → pl_deg st !! u = Some (Nat.max (size (N u ∩ R)) m);
  po_bucket : bucket_ok (pl_bucket st);
  po_at : ∀ d u, u ∈ bucket_at (pl_bucket st) d ↔ u ∈ R ∧ pl_deg st !! u = Some d;
}.

(** In the loop over the neighbours of [v], those of [D] are done. *)
Record mid_peel (R : gset nat) (m v : nat) (D : gset nat) (st : Peel) : Prop := {
  mp_dom : dom (pl_adj st) = R ∖ {[v]};
  mp_adj : ∀ u, u ∈ R ∖ {[v]} → nbrs (pl_adj st) u = if decide (u ∈ D) then N u ∩ (R ∖ {[v]}) else N u ∩ R;
  mp_deg : ∀ u, u ∈ R ∖ {[v]} →
    pl_deg st !! u = Some (Nat.max (size (if decide (u ∈ D) then N u ∩ (R ∖ {[v]}) else N u ∩ R)) m);
  mp_bucket : bucket_ok (pl_bucket st);
  mp_at : ∀ d u, u ∈ bucket_at (pl_bucket st) d ↔ u ∈ R ∖ {[v]} ∧ pl_deg st !! u = Some d;
}.

Lemma size_without u v (R : gset nat) : v ∈ N u → v ∈ R → size (N u ∩ R) = S (size (N u ∩ (R ∖ {[v]}))).
Proof.
  intros H1 H2. replace (N u ∩ R) with ({[v]} ∪ N u ∩ (R ∖ {[v]})).
  - rewrite size_union by set_solver. by rewrite size_singleton.
  - apply set_eq. intros x. destruct (decide (x = v)); set_solver.
Qed.

Lemma decrement_mid R m v D st nb : v ∈ R → nb ∈ N v ∩ R → nb ∉ D →
  mid_peel R m v D st → mid_peel R m v ({[nb]} ∪ D) (decrement v m st nb).
Proof.
  intros Hv Hnb HD [H1 H2 H3 H4 H5]. apply elem_of_intersection in Hnb as [Hadj HR].
  pose proof Hadj as Ha%elem_of_undirected. pose proof (adjacent_sym _ _ _ Ha) as Ha'%elem_of_undirected.
  assert (HnbR : nb ∈ R ∖ {[v]}) by (destruct Ha; set_solver).
  pose proof (H3 nb HnbR) as Hd. rewrite decide_False in Hd by done.
  pose proof (size_without nb v R Ha' Hv) as Hsz.
  assert (Hadj' : ∃ s, pl_adj st !! nb = Some s ∧ s = N nb ∩ R).
  { assert (nb ∈ dom (pl_adj st)) as [s Hs]%elem_of_dom by (by rewrite H1). exists s. split; [done|].
    pose proof (H2 nb HnbR) as E. rewrite decide_False in E by done. unfold nbrs at 1 in E. by rewrite Hs in E. }
  destruct Hadj' as (s & Hs & ->). unfold decrement. rewrite Hs, Hd.
  set (adj := <[nb := N nb ∩ R ∖ {[v]}]> (pl_adj st)).
  assert (A1 : dom adj = R ∖ {[v]}) by (unfold adj; set_solver).
  assert (A2 : ∀ u, u ∈ R ∖ {[v]} → nbrs adj u = if decide (u ∈ {[nb]} ∪ D) then N u ∩ (R ∖ {[v]}) else N u ∩ R).
  { intros u Hu. unfold adj. rewrite nbrs_insert. destruct (decide (nb = u)) as [<-|Hne].
    - rewrite decide_True by set_solver. set_solver.
    - rewrite H2 by done. destruct (decide (u ∈ D)), (decide (u ∈ {[nb]} ∪ D)); set_solver. }
  assert (A3 : ∀ u, u ∈ R ∖ {[v]} → u ≠ nb → pl_deg st !! u =
    Some (Nat.max (size (if decide (u ∈ {[nb]} ∪ D) then N u ∩ (R ∖ {[v]}) else N u ∩ R)) m)).
  { intros u Hu Hne. rewrite H3 by done. destruct (decide (u ∈ D)), (decide (u ∈ {[nb]} ∪ D)); set_solver. }
  destruct (decide (m < Nat.max (size (N nb ∩ R)) m)) as [Hlt|Hlt].
  - destruct (bucket_remove_spec (pl_bucket st) (Nat.max (size (N nb ∩ R)) m) nb H4) as [B1 B2].
    destruct (bucket_add_spec _ (Nat.max (size (N nb ∩ R)) m - 1) nb B1) as [B3 B4].
    split; cbn [pl_adj pl_deg pl_bucket]; [done|done| |done|].
    + intros u Hu. destruct (decide (u = nb)) as [->|Hne].
      * rewrite lookup_insert_eq, decide_True by set_solver. f_equal. lia.
      * rewrite lookup_insert_ne by done. by apply A3.
    + intros d u. rewrite elem_of_bucket_add, elem_of_bucket_remove, H5, lookup_insert by done.
      remember (Nat.max (size (N nb ∩ R)) m) as old.
      destruct (decide (nb = u)) as [<-|Hne]; [|naive_solver]. rewrite Hd. naive_solver lia.
  - split; cbn [pl_adj pl_deg pl_bucket]; [done|done| |done|done].
    intros u Hu. destruct (decide (u = nb)) as [->|Hne]; [|by apply A3].
    rewrite Hd, decide_True by set_solver. f_equal. lia.
Qed.

Lemma decrements_mid R m v l D st : v ∈ R → NoDup l → (∀ u, u ∈ l → u ∈ N v ∩ R ∧ u ∉ D) →
  mid_peel R m v D st → mid_peel R m v (list_to_set l ∪ D) (foldl (decrement v m) st l).
Proof.
  intros Hv. revert D st. induction l as [|nb l IH]; intros D st Hnd Hl Hmid; simpl.
  { by replace (∅ ∪ D) with D by set_solver. }
  apply NoDup_cons in Hnd as [Hnb Hnd].
  replace ({[nb]} ∪ list_to_set l ∪ D) with (list_to_set l ∪ ({[nb]} ∪ D)) by set_solver.
  apply IH; [done| |apply decrement_mid; [done|set_solver..|done]].
  intros u Hu. destruct (Hl u) as [? ?]; [by right|]. split; [done|]. set_solver.
Qed.

Lemma decrements_core v m l st :
  pl_core (foldl (decrement v m) st l) = pl_core st ∧ pl_max (foldl (decrement v m) st l) = pl_max st.
Proof.
  revert st. induction l as [|nb l IH]; intros st; simpl; [done|].
  destruct (IH (decrement v m st nb)) as [-> ->]. unfold decrement. by repeat case_match.
Qed.

(** Peeling a node of least degree. *)
Lemma peel_node_spec R m v st : peel_ok R m st → v ∈ R → pl_deg st !! v = Some m → pl_core st !! v = None →
  ∃ st', peel_node v m (with_bucket (bucket_remove (pl_bucket st) m v) st) = Ok st' ∧ peel_ok (R ∖ {[v]}) m st' ∧
    pl_core st' = <[v := m]> (pl_core st) ∧ pl_max st' = Nat.max (pl_max st) m.
Proof.
  intros [H1 H2 H3 H4 H5] Hv Hd Hc. unfold peel_node. cbn [pl_deg pl_core pl_adj pl_max pl_bucket with_bucket].
  rewrite Hd, Hc. cbn [expect obind default]. rewrite Nat.max_0_r.
  assert (v ∈ dom (pl_adj st)) as [s Hs]%elem_of_dom by (by rewrite H1). rewrite Hs.
  assert (s = N v ∩ R) as ->. { rewrite <- (H2 v Hv). unfold nbrs. by rewrite Hs. }
  eexists. split; [done|].
  set (st0 := mkPeel (delete v (pl_adj st)) (pl_deg st) (bucket_remove (pl_bucket st) m v)
                (<[v:=m]> (pl_core st)) (Nat.max (pl_max st) m)).
  destruct (decrements_core v m (iter_set (N v ∩ R)) st0) as [E1 E2]. split; [|by split].
  assert (Hmid : mid_peel R m v ∅ st0).
  { unfold st0. split; cbn [pl_adj pl_deg pl_bucket].
    - rewrite dom_delete_L. by rewrite H1.
    - intros u Hu. unfold nbrs at 1. rewrite lookup_delete_ne by set_solver. fold (nbrs (pl_adj st) u). rewrite H2 by set_solver.
      done.
    - intros u Hu. rewrite H3 by set_solver. done.
    - by apply bucket_remove_spec.
    - intros d u. rewrite elem_of_bucket_remove by done. rewrite H5, elem_of_difference, elem_of_singleton.
      split; [|naive_solver congruence]. intros [[? ?] Hn]. split_and!; [done| |done]. intros ->. apply Hn. naive_solver. }
  pose proof (decrements_mid R m v (iter_set (N v ∩ R)) ∅ st0 Hv (iter_set_NoDup _)) as Hfold.
  destruct (Hfold ltac:(intros u Hu%elem_of_iter_set; split; [done|set_solver]) Hmid) as [M1 M2 M3 M4 M5].
  assert (HD : ∀ u, u ∈ R ∖ {[v]} →
    (if decide (u ∈ (list_to_set (iter_set (N v ∩ R)) ∪ ∅ : gset nat)) then N u ∩ (R ∖ {[v]}) else N u ∩ R) = N u ∩ (R ∖ {[v]})).
  { intros u Hu. destruct (decide _) as [_|Hn]; [done|].
    rewrite elem_of_union, elem_of_list_to_set, elem_of_iter_set in Hn.
    assert (v ∉ N u).
    { intros Hvu. apply Hn. left. apply elem_of_intersection. split; [|set_solver].
      by apply elem_of_undirected, adjacent_sym, elem_of_undirected. }
    set_solver. }
  split; [done|..|done|done].
  - intros u Hu. by rewrite M2, HD.
  - intros u Hu. by rewrite M3, HD.
Qed.

(** * The loop *)
Record loop_ok (R : gset nat) (m : nat) (st : Peel) : Prop := {
  lo_peel : peel_ok R m st;
  lo_nodes : ∀ u, u ∈ R → u < node_count g;
  lo_dense : ∃ X, R ⊆ X ∧ core_set g m X;
  lo_above : ∀ k X, m < k → core_set g k X → X ⊆ R;
  lo_core : ∀ u c, pl_core st !! u = Some c → has_coreness g u c;
  lo_dom : ∀ u, is_Some (pl_core st !! u) ↔ u < node_count g ∧ u ∉ R;
  lo_max : ∀ u c, pl_core st !! u = Some c → c ≤ pl_max st;
  lo_top : pl_max st = 0 ∨ ∃ u, pl_core st !! u = Some (pl_max st);
}.

Lemma bucket_head_least (b : list (nat * gset nat)) m s d : bm_ok ((m, s) :: b) → is_Some (bm_get ((m, s) :: b) d) → m ≤ d.
Proof.
  intros Hb [x Hx%bm_get_elem]. apply bm_ok_cons_inv in Hb as [_ Hf].
  apply elem_of_cons in Hx as [[= -> ->]|Hx]; [done|].
  eapply Forall_forall in Hf; [|by apply list_elem_of_fmap; exists (d, x)].
  unfold ord_lt in Hf. simpl in Hf. apply Nat.compare_lt_iff in Hf. lia.
Qed.

(** The first bucket raises the level. *)
Lemma raise_level R m st m' s b : loop_ok R m st → pl_bucket st = (m', s) :: b →
  loop_ok R m' st ∧ m ≤ m' ∧ ∀ u, u ∈ s → u ∈ R ∧ pl_deg st !! u = Some m'.
Proof.
  intros [[H1 H2 H3 [H4 H4'] H5] Hnode [X [HX Hdense]] Hab Hcore Hdom Hmax Htop] Hb.
  assert (Hin : ∀ u, u ∈ s → u ∈ R ∧ pl_deg st !! u = Some m').
  { intros u Hu. apply H5. unfold bucket_at. rewrite Hb. simpl. by rewrite Nat.compare_refl. }
  assert (Hs : s ≠ ∅). { apply (H4' m'). rewrite Hb. simpl. by rewrite Nat.compare_refl. }
  assert (Hmm : m ≤ m').
  { apply set_choose_L in Hs as [u Hu]. destruct (Hin u Hu) as [HuR Hd]. rewrite H3 in Hd by done. injection Hd as <-. lia. }
  assert (Hge : ∀ u, u ∈ R → m' ≤ Nat.max (size (N u ∩ R)) m).
  { intros u Hu. rewrite Hb in *. apply (bucket_head_least b m' s); [done|].
    pose proof (H3 u Hu) as Hd. pose proof (proj2 (H5 _ u) (conj Hu Hd)) as Hat. unfold bucket_at in Hat.
    destruct (bm_get ((m', s) :: b) _); [done|]. by apply elem_of_empty in Hat. }
  split; [|done]. split; [|done| | |done..].
  - split; [done|done| |done|done]. intros u Hu. rewrite H3 by done. f_equal. specialize (Hge u Hu). lia.
  - destruct (decide (m = m')) as [->|Hne]; [by exists X|]. exists R. split; [done|].
    intros u Hu. split; [by apply Hnode|]. specialize (Hge u Hu). lia.
  - intros k Y Hk. apply Hab. lia.
Qed.

Lemma peel_step R m st v s b : loop_ok R m st → pl_bucket st = (m, s) :: b → v ∈ s →
  ∃ st', peel_node v m (with_bucket (bucket_remove (pl_bucket st) m v) st) = Ok st' ∧ loop_ok (R ∖ {[v]}) m st'.
Proof.
  intros Hl Hb Hv. destruct (raise_level R m st m s b Hl Hb) as (_ & _ & Hin).
  destruct (Hin v Hv) as [HvR Hd]. destruct Hl as [Hp Hnode [X [HX Hdense]] Hab Hcore Hdom Hmax Htop].
  assert (Hnone : pl_core st !! v = None).
  { apply eq_None_not_Some. intros [_ ?]%Hdom. done. }
  destruct (peel_node_spec R m v st Hp HvR Hd Hnone) as (st' & Hst' & Hp' & Hc' & Hm'). exists st'. split; [done|].
  assert (Habv : ∀ k Y, m < k → core_set g k Y → v ∉ Y).
  { intros k Y Hk HY HvY. pose proof (Hab k Y Hk HY) as Hsub. destruct (HY v HvY) as [_ Hsz].
    pose proof (subseteq_size (N v ∩ Y) (N v ∩ R) ltac:(set_solver)).
    rewrite (po_deg _ _ _ Hp) in Hd by done. injection Hd as Hd. lia. }
  assert (Hhas : has_coreness g v m).
  { split; [exists X; split; [done|set_solver]|]. intros k (Y & HY & HvY).
    destruct (decide (m < k)) as [Hk|]; [|lia]. by destruct (Habv k Y Hk HY). }
  split; [done| | | | | | |].
  - intros u Hu. apply Hnode. set_solver.
  - exists X. split; [set_solver|done].
  - intros k Y Hk HY. pose proof (Hab k Y Hk HY). pose proof (Habv k Y Hk HY). set_solver.
  - intros u c. rewrite Hc'. rewrite lookup_insert. destruct (decide (v = u)) as [<-|]; [by intros [= <-]|apply Hcore].
  - intros u. rewrite Hc', lookup_insert. destruct (decide (v = u)) as [<-|Hne].
    + split; [|by eauto]. intros _. split; [by apply Hnode|set_solver].
    + rewrite Hdom. set_solver.
  - intros u c. rewrite Hc', Hm', lookup_insert. destruct (decide (v = u)); [intros [= <-]; lia|].
    intros Hc%Hmax. lia.
  - right. rewrite Hm', Hc'. destruct (Nat.max_spec (pl_max st) m) as [[_ ->]|[Hle ->]];
      [exists v; by rewrite lookup_insert_eq|].
    destruct Htop as [E|[u Hu]].
    + exists v. rewrite lookup_insert_eq. f_equal. lia.
    + exists u. rewrite lookup_insert_ne; [done|]. intros ->. congruence.
Qed.

Lemma peel_loop_spec fuel R m st : loop_ok R m st → size R ≤ fuel →
  ∃ st' m', peel_loop fuel st = Ok st' ∧ loop_ok ∅ m' st'.
Proof.
  revert R m st. induction fuel as [|fuel IH]; intros R m st Hl Hsz.
  all: destruct (pl_bucket st) as [|[m' s] b] eqn:Hb.
  1,3: exists st, m; split; [simpl; by rewrite Hb|]; replace ∅ with R; [done|];
       destruct Hl as [[_ _ H3 _ H5] _ _ _ _ _ _ _]; apply set_eq; intros u; split; [|set_solver];
       intros Hu; pose proof (proj2 (H5 _ u) (conj Hu (H3 u Hu))) as Hat; by rewrite Hb in Hat.
  - destruct (raise_level R m st m' s b Hl Hb) as (Hl' & _ & Hin). exfalso.
    assert (s ≠ ∅) as [u [Hu _]%Hin]%set_choose_L.
    { destruct Hl as [[_ _ _ [_ H4'] _] _ _ _ _ _ _ _]. apply (H4' m'). rewrite Hb. simpl. by rewrite Nat.compare_refl. }
    assert (Hz : size R = 0) by lia. apply size_empty_inv in Hz. set_solver.
  - destruct (raise_level R m st m' s b Hl Hb) as (Hl' & _ & Hin). simpl. rewrite Hb.
    destruct (iter_set s) as [|v vs] eqn:Es.
    { exfalso. destruct Hl as [[_ _ _ [_ H4'] _] _ _ _ _ _ _ _]. apply (H4' m' s); [|by apply iter_set_nil].
      rewrite Hb. simpl. by rewrite Nat.compare_refl. }
    assert (Hv : v ∈ s) by (apply elem_of_iter_set; rewrite Es; by left).
    destruct (peel_step R m' st v s b Hl' Hb Hv) as (st' & Hst' & Hl''). rewrite Hb in Hst'. rewrite Hst'. simpl.
    apply (IH (R ∖ {[v]}) m'); [done|]. destruct (Hin v Hv) as [HvR _].
    rewrite size_difference by set_solver. rewrite size_singleton. lia.
Qed.

Lemma start_ok : loop_ok (dom (undirected g)) 0
  (mkPeel (undirected g) (degrees (undirected g)) (buckets (degrees (undirected g))) ∅ 0).
Proof.
  assert (Hsub : ∀ u, u ∈ dom (undirected g) → N u ∩ dom (undirected g) = N u).
  { intros u Hu. apply set_eq. intros x. rewrite elem_of_intersection. split; [by intros []|].
    intros Hx. split; [done|]. apply dom_undirected; [done|]. by eapply adjacent_lt, elem_of_undirected. }
  destruct (buckets_spec (degrees (undirected g))) as [B1 B2].
  split; simpl.
  - split; simpl; [done| | |done|].
    + intros u Hu. by rewrite Hsub.
    + intros u Hu. unfold degrees. rewrite lookup_fmap, Hsub by done. apply elem_of_dom in Hu as [s Hs].
      unfold nbrs. rewrite Hs. simpl. by rewrite Nat.max_0_r.
    + intros d u. rewrite B2. unfold degrees. rewrite lookup_fmap, fmap_Some, elem_of_dom. naive_solver.
  - intros u. by apply dom_undirected.
  - exists (dom (undirected g)). split; [done|]. intros u Hu. split; [by apply dom_undirected|lia].
  - intros k X _ HX u Hu. apply dom_undirected; [done|]. by apply HX.
  - done.
  - intros u. rewrite dom_undirected by done. split; [by intros []|by intros []].
  - done.
  - by left.
Qed.

Lemma size_dom_undirected : size (dom (undirected g)) = node_count g.
Proof.
  replace (dom (undirected g)) with (list_to_set (seq 0 (node_count g)) : gset nat).
  - rewrite size_list_to_set by apply NoDup_seq. apply length_seq.
  - apply set_eq. intros u. rewrite elem_of_list_to_set, elem_of_seq, dom_undirected by done. lia.
Qed.
End peel.

(** C19: the decomposition returns, whatever order the hash containers are
    iterated in, and gives every node its coreness: the greatest [k] for which
    the node lies in a set where everyone has [k] neighbours; the maximum
    reported is the greatest of them. *)
Theorem k_core_exact `{HashIter} {W : Type} (g : DiGraph W) (Hok : graph_ok g) :
  ∃ r, k_core_decomposition g = Ok r ∧
    (∀ u c, coreness r !! u = Some c ↔ u < node_count g ∧ has_coreness g u c) ∧
    (∀ u c, coreness r !! u = Some c → c ≤ max_core r) ∧
    (max_core r = 0 ∨ ∃ u, coreness r !! u = Some (max_core r)).
Proof.
  unfold k_core_decomposition. destruct (decide _) as [Hz|Hnz].
  - exists (mkCore ∅ 0). split; [done|]. simpl. split_and!; [|done|by left]. intros u c. rewrite Hz. split; [done|lia].
  - destruct (peel_loop_spec g Hok (node_count g) _ 0 _ (start_ok g Hok)) as (st & m & Hst & Hl);
      [by rewrite size_dom_undirected|]. rewrite Hst. eexists. split; [done|]. simpl.
    destruct Hl as [_ _ _ _ Hcore Hdom Hmax Htop]. split_and!; [|done|done]. intros u c. split.
    + intros Hc. split; [|by apply Hcore]. by apply Hdom.
    + intros [Hu [Hin Hle]]. destruct (proj2 (Hdom u)) as [c' Hc']; [split; [done|set_solver]|].
      destruct (Hcore u c' Hc') as [Hin' Hle']. rewrite Hc'. f_equal. specialize (Hle c' Hin'). specialize (Hle' c Hin). lia.
Qed.

(** A triangle with a tail. *)
Lemma k_core_exact_witness :
  ∃ r, @k_core_decomposition canonical_iter unit (mkGraph [tt; tt; tt; tt] [(0, 1); (1, 2); (2, 0); (2, 3)]) = Ok r ∧
    coreness r !! 0 = Some 2 ∧ coreness r !! 3 = Some 1.
Proof.
  pose (g := mkGraph [tt; tt; tt; tt] [(0, 1); (1, 2); (2, 0); (2, 3)]).
  assert (Hok : graph_ok g).
  { intros u v He. unfold edge in He. simpl in He. rewrite !elem_of_cons, elem_of_nil in He. simpl. naive_solver lia. }
  destruct (@k_core_exact canonical_iter unit g Hok) as (r & Hr & _). exists r. split; [exact Hr|].
  vm_compute in Hr. injection Hr as <-. by vm_compute.
Defined.
