(* ===== verification/GraphTruss.v ===== *)
(** The k-truss decomposition of [src/src/graph/algorithms_ext.rs]
    ([k_truss_decomposition]): edges of the undirected projection are peeled in
    batches of least support, the number of triangles an edge is in. *)

From stdpp Require Import base numbers sets list gmap.
From S2P Require Import Prelude HashOrder GraphCycles GraphUndirected.

Record KTrussResult := mkTruss { edge_trussness : gmap (nat * nat) nat; max_truss : nat }.

Definition canonical_pair (a b : nat) : nat * nat := if decide (a ≤ b) then (a, b) else (b, a).

(** The edge set and the adjacency sets. *)
Definition add_pair (st : gset (nat * nat) * Adj) (e : nat * nat) : gset (nat * nat) * Adj :=
  let '(a, b) := canonical_pair e.1 e.2 in
  if decide (a = b) then st else ({[(a, b)]} ∪ st.1, link b a (link a b st.2)).

Definition edge_set {W} (g : DiGraph W) : gset (nat * nat) * Adj :=
  foldl add_pair (∅, foldl (λ adj u, <[u := nbrs adj u]> adj) ∅ (seq 0 (node_count g))) (g_edges g).

Record Trusses := mkTrusses {
  tr_adj : Adj; tr_support : gmap (nat * nat) nat; tr_truss : gmap (nat * nat) nat; tr_max : nat;
}.

Definition lower_support (sup : gmap (nat * nat) nat) (e : nat * nat) : gmap (nat * nat) nat :=
  match sup !! e with Some s => <[e := s - 1]> sup | None => sup end.

Section k_truss.
Context `{HashIter}.

(** How many elements of the smaller set are in the other. *)
Definition common_count (na nb : gset nat) : nat :=
  if decide (size na ≤ size nb) then length (filter (.∈ nb) (iter_set na))
  else length (filter (.∈ na) (iter_set nb)).

Definition supports (edges : gset (nat * nat)) (adj : Adj) : gmap (nat * nat) nat :=
  foldl (λ sup '(a, b), <[(a, b) := common_count (nbrs adj a) (nbrs adj b)]> sup) ∅ (iter_set edges).

(** The body of the loop over a batch. *)
Definition remove_edge (k : nat) (st : Trusses) (e : nat * nat) : outcome Empty_set Trusses :=
  let '(a, b) := e in
  let sup :=
    match tr_adj st !! a, tr_adj st !! b with
    | Some na, Some nb =>
        foldl (λ sup c, lower_support (lower_support sup (canonical_pair a c)) (canonical_pair b c))
          (tr_support st) (filter (.∈ nb) (iter_set na))
    | _, _ => tr_support st
    end in
  let* na := expect (tr_adj st !! a) in
  let adj := <[a := na ∖ {[b]}]> (tr_adj st) in
  let* nb := expect (adj !! b) in
  Ok (mkTrusses (<[b := nb ∖ {[a]}]> adj) (delete e sup) (<[e := k]> (tr_truss st)) (tr_max st)).

Definition min_support (sup : gmap (nat * nat) nat) : nat :=
  match (iter_map sup).*2 with [] => 0 | s :: ss => foldl Nat.min s ss end.

(** One batch. *)
Definition peel_batch (st : Trusses) : outcome Empty_set Trusses :=
  let min_supp := min_support (tr_support st) in
  let k := min_supp + 2 in
  let to_remove := (filter (λ es, es.2 = min_supp) (iter_map (tr_support st))).*1 in
  ofold (remove_edge k) (mkTrusses (tr_adj st) (tr_support st) (tr_truss st) (Nat.max (tr_max st) k)) to_remove.

Fixpoint truss_loop (fuel : nat) (st : Trusses) : outcome Empty_set Trusses :=
  if decide (tr_support st = ∅) then Ok st
  else
    match fuel with
    | 0 => OutOfFuel
    | S fuel => let* st := peel_batch st in truss_loop fuel st
    end.

Definition k_truss_decomposition {W} (g : DiGraph W) : outcome Empty_set KTrussResult :=
  let '(edges, adj) := edge_set g in
  let* st := truss_loop (size edges) (mkTrusses adj (supports edges adj) ∅ 2) in
  Ok (mkTruss (tr_truss st) (tr_max st)).
End k_truss.

(** * The specification

    A set of edges is a [k]-truss when each of its edges is in [k - 2] triangles
    of the set. *)
Section truss_spec.
Context {W : Type} (g : DiGraph W).

Definition is_pair (e : nat * nat) : Prop := e.1 < e.2 ∧ adjacent g e.1 e.2.

Definition truss_set (k : nat) (F : gset (nat * nat)) : Prop :=
  ∀ a b, (a, b) ∈ F → is_pair (a, b) ∧
    ∃ C : gset nat, k ≤ size C + 2 ∧ ∀ c, c ∈ C → canonical_pair a c ∈ F ∧ canonical_pair b c ∈ F.

Definition in_truss (k : nat) (e : nat * nat) : Prop := ∃ F, truss_set k F ∧ e ∈ F.
End truss_spec.

(** * Canonical pairs *)
Lemma canonical_pair_comm a b : canonical_pair a b = canonical_pair b a.
Proof. unfold canonical_pair. repeat case_decide; try done; (f_equal; lia). Qed.

Lemma canonical_pair_lt a b : a < b → canonical_pair a b = (a, b).
Proof. intros. unfold canonical_pair. rewrite decide_True by lia. done. Qed.

Lemma canonical_pair_cases a b x y : canonical_pair a b = (x, y) ↔ x ≤ y ∧ (a = x ∧ b = y ∨ a = y ∧ b = x).
Proof. unfold canonical_pair. case_decide; (split; [intros [= <- <-]; lia|intros; f_equal; lia]). Qed.

Lemma canonical_pair_inj a c c' : canonical_pair a c = canonical_pair a c' → c = c'.
Proof. unfold canonical_pair. repeat case_decide; intros E; simplify_eq; try done; lia. Qed.

Lemma canonical_pair_share a b c c' : a ≠ b → c ≠ b → canonical_pair a c ≠ canonical_pair b c'.
Proof. unfold canonical_pair. intros ? ?. repeat case_decide; intros E; simplify_eq; lia. Qed.

(** * The representation

    The adjacency sets are symmetric, and the supports are those of the edges
    they hold. *)
Definition triangles (adj : Adj) (a b : nat) : nat := size (nbrs adj a ∩ nbrs adj b).

Record truss_ok (adj : Adj) (sup : gmap (nat * nat) nat) : Prop := {
  to_sym : ∀ x y, y ∈ nbrs adj x → x ∈ nbrs adj y;
  to_irrefl : ∀ x, x ∉ nbrs adj x;
  to_support : ∀ x y s, sup !! (x, y) = Some s ↔ x < y ∧ y ∈ nbrs adj x ∧ s = triangles adj x y;
}.

Lemma lower_support_lookup sup e f :
  lower_support sup e !! f = (if decide (e = f) then pred else id) <$> sup !! f.
Proof.
  unfold lower_support. destruct (sup !! e) as [s|] eqn:E.
  - rewrite lookup_insert. destruct (decide (e = f)) as [<-|]; [rewrite E; simpl; f_equal; lia|by destruct (sup !! f)].
  - destruct (decide (e = f)) as [<-|]; [by rewrite E|by destruct (sup !! f)].
Qed.

Definition hits (a b : nat) (cs : list nat) (f : nat * nat) : Prop :=
  ∃ c, c ∈ cs ∧ (f = canonical_pair a c ∨ f = canonical_pair b c).

#[local] Instance hits_dec a b cs f : Decision (hits a b cs f).
Proof.
  refine (cast_if (decide (Exists (λ c, f = canonical_pair a c ∨ f = canonical_pair b c) cs)));
    unfold hits; by rewrite <- Exists_exists.
Defined.

(** Each edge of a broken triangle is lowered once. *)
Lemma lower_supports_lookup a b cs sup f : a ≠ b → NoDup cs → a ∉ cs → b ∉ cs →
  foldl (λ sup c, lower_support (lower_support sup (canonical_pair a c)) (canonical_pair b c)) sup cs !! f =
  (if decide (hits a b cs f) then pred else id) <$> sup !! f.
Proof.
  intros Hab. revert sup. induction cs as [|c cs IH]; intros sup Hnd Ha Hb; cbn [foldl].
  { rewrite decide_False; [by destruct (sup !! f)|]. intros (c & ?%elem_of_nil & _). done. }
  apply NoDup_cons in Hnd as [Hc Hnd]. rewrite IH by (try done; set_solver). rewrite !lower_support_lookup.
  assert (Hcb : c ≠ b) by set_solver. assert (Hca : c ≠ a) by set_solver.
  destruct (decide (hits a b cs f)) as [Hin|Hout].
  - rewrite (decide_True (P := hits a b (c :: cs) f)) by (destruct Hin as (c' & ? & ?); exists c'; split; [by right|done]).
    destruct Hin as (c' & Hc' & Hf). assert (c' ≠ c) by (intros ->; done).
    assert (c' ≠ b ∧ c' ≠ a) as [? ?] by set_solver.
    rewrite (decide_False (P := canonical_pair a c = f)), (decide_False (P := canonical_pair b c = f)).
    { by destruct (sup !! f). }
    { destruct Hf as [->| ->]; [apply not_eq_sym, canonical_pair_share; done|intros E%canonical_pair_inj; congruence]. }
    { destruct Hf as [->| ->]; [intros E%canonical_pair_inj; congruence|by apply canonical_pair_share]. }
  - destruct (decide (canonical_pair a c = f)) as [<-|H1].
    + rewrite (decide_False (P := canonical_pair b c = _)) by (apply not_eq_sym, canonical_pair_share; done).
      rewrite (decide_True (P := hits _ _ _ _)) by (exists c; split; [by left|by left]). by destruct (sup !! _).
    + destruct (decide (canonical_pair b c = f)) as [<-|H2].
      * rewrite (decide_True (P := hits _ _ (c :: cs) _)) by (exists c; split; [by left|by right]). by destruct (sup !! _).
      * rewrite (decide_False (P := hits _ _ (c :: cs) _)); [by destruct (sup !! f)|].
        intros (c' & [->|Hc']%elem_of_cons & Hf); [naive_solver|]. apply Hout. by exists c'.
Qed.


Lemma triangles_comm adj x y : triangles adj x y = triangles adj y x.
Proof. unfold triangles. by rewrite (comm_L (∩)). Qed.

(** [adj'] is [adj] without the edge between [a] and [b]. *)
Definition cut (adj adj' : Adj) (a b : nat) : Prop :=
  ∀ x, nbrs adj' x = nbrs adj x ∖ (if decide (x = a) then {[b]} else if decide (x = b) then {[a]} else ∅).

Lemma cut_sym (adj adj' : Adj) a b : a ≠ b → cut adj adj' a b → cut adj adj' b a.
Proof. intros Hne Hc x. rewrite Hc. repeat case_decide; congruence. Qed.

Lemma size_pred (X : gset nat) x : x ∈ X → size (X ∖ {[x]}) = pred (size X).
Proof. intros Hx. rewrite size_difference by set_solver. rewrite size_singleton. lia. Qed.

Lemma triangles_end (adj adj' : Adj) a b y : cut adj adj' a b → b ∈ nbrs adj a → y ≠ a → y ≠ b →
  triangles adj' a y = (if decide (b ∈ nbrs adj y) then pred else id) (triangles adj a y).
Proof.
  intros Hc Hb Hya Hyb. unfold triangles. rewrite (Hc a), (Hc y), decide_True by done.
  rewrite !(decide_False (P := y = _)) by done. destruct (decide (b ∈ nbrs adj y)).
  - rewrite <- size_pred with (x := b) by set_solver. f_equal. set_solver.
  - unfold id. f_equal. set_solver.
Qed.

Lemma triangles_away (adj adj' : Adj) a b x y : cut adj adj' a b → x ≠ a → x ≠ b → y ≠ a → y ≠ b →
  triangles adj' x y = triangles adj x y.
Proof.
  intros Hc ????. unfold triangles. rewrite (Hc x), (Hc y).
  rewrite !(decide_False (P := y = _)), !(decide_False (P := x = _)) by done. f_equal. set_solver.
Qed.

Section peel.
Context `{HashIter}.

Lemma hits_end a b x y cs (N : nat → gset nat) : a ≠ b → x < y → (x, y) ≠ (a, b) → (x, y) ≠ (b, a) →
  (∀ c, c ∈ cs ↔ c ∈ N a ∧ c ∈ N b) →
  hits a b cs (x, y) ↔ ∃ u v, (u = a ∧ v ≠ b ∨ u = b ∧ v ≠ a) ∧ (x = u ∧ y = v ∨ x = v ∧ y = u) ∧ v ∈ N a ∧ v ∈ N b.
Proof.
  intros Hab Hxy H1 H2 Hcs. unfold hits. split.
  - intros (c & Hc & [E|E]); symmetry in E; apply canonical_pair_cases in E as [_ E]; apply Hcs in Hc as [? ?].
    + exists a, c. destruct E as [[-> ->]|[-> ->]]; split_and!; auto; left; (split; [done|]); congruence.
    + exists b, c. destruct E as [[-> ->]|[-> ->]]; split_and!; auto; right; (split; [done|]); congruence.
  - intros (u & v & Hu & E & Hva & Hvb). exists v. split; [by apply Hcs|].
    destruct Hu as [[-> _]|[-> _]]; [left|right]; symmetry; apply canonical_pair_cases; naive_solver lia.
Qed.

Lemma triangles_cut (adj adj' : Adj) a b x y cs : (∀ x y, y ∈ nbrs adj x → x ∈ nbrs adj y) →
  (∀ x, x ∉ nbrs adj x) → cut adj adj' a b → a ≠ b → b ∈ nbrs adj a → x < y → y ∈ nbrs adj x →
  (x, y) ≠ (a, b) → (x, y) ≠ (b, a) → (∀ c, c ∈ cs ↔ c ∈ nbrs adj a ∧ c ∈ nbrs adj b) →
  triangles adj' x y = (if decide (hits a b cs (x, y)) then pred else id) (triangles adj x y).
Proof.
  intros Hsym Hirr Hc Hab Hb Hxy Hadj H1 H2 Hcs. pose proof (cut_sym _ _ _ _ Hab Hc) as Hc'.
  pose proof (Hsym _ _ Hb) as Hb'. pose proof (Hsym _ _ Hadj) as Hadj'.
  assert (Hcase : ∀ u w v, (u = a ∧ w = b ∨ u = b ∧ w = a) → v ≠ a → v ≠ b → v ∈ nbrs adj u →
    (x = u ∧ y = v ∨ x = v ∧ y = u) →
    triangles adj' u v = (if decide (hits a b cs (x, y)) then pred else id) (triangles adj u v)).
  { intros u w v Hu Hva Hvb Hvu Hv.
    assert (Hh : hits a b cs (x, y) ↔ w ∈ nbrs adj v).
    { rewrite (hits_end a b x y cs (nbrs adj)) by done. split.
      - intros (u' & v' & Hu' & Hv' & Ha' & Hbb).
        assert (v' = v) as ->.
        { assert (v' ≠ a) by (intros ->; by apply Hirr in Ha'). assert (v' ≠ b) by (intros ->; by apply Hirr in Hbb).
          naive_solver. }
        destruct Hu as [[_ ->]|[_ ->]]; by apply Hsym.
      - intros Hw. exists u, v. destruct Hu as [[-> ->]|[-> ->]]; split_and!; auto. }
    destruct Hu as [[-> ->]|[-> ->]].
    - rewrite (triangles_end adj adj' a b v) by done.
      destruct (decide (b ∈ nbrs adj v)), (decide (hits _ _ _ _)); tauto.
    - rewrite (triangles_end adj adj' b a v) by done.
      destruct (decide (a ∈ nbrs adj v)), (decide (hits _ _ _ _)); tauto. }
  destruct (decide (x = a)) as [->|Hxa]; [apply (Hcase a b y); auto; congruence || lia|].
  destruct (decide (x = b)) as [->|Hxb]; [apply (Hcase b a y); auto; congruence || lia|].
  rewrite (triangles_comm adj'), (triangles_comm adj).
  destruct (decide (y = a)) as [->|Hya]; [apply (Hcase a b x); auto; congruence || lia|].
  destruct (decide (y = b)) as [->|Hyb]; [apply (Hcase b a x); auto; congruence || lia|].
  rewrite (triangles_away adj adj' a b) by done. rewrite decide_False; [done|].
  rewrite (hits_end a b x y cs (nbrs adj)) by done. naive_solver.
Qed.

(** Removing one edge. *)
Lemma remove_edge_spec k st a b s : truss_ok (tr_adj st) (tr_support st) → tr_support st !! (a, b) = Some s →
  ∃ st', remove_edge k st (a, b) = Ok st' ∧ truss_ok (tr_adj st') (tr_support st') ∧
    dom (tr_support st') = dom (tr_support st) ∖ {[(a, b)]} ∧
    tr_truss st' = <[(a, b) := k]> (tr_truss st) ∧ tr_max st' = tr_max st.
Proof.
  intros [Hsym Hirr Hsup] (Hab & Hb & _)%Hsup. pose proof (Hsym _ _ Hb) as Ha.
  assert (Hne : a ≠ b) by lia.
  destruct (tr_adj st !! a) as [na|] eqn:Ea; [|by unfold nbrs in Hb; rewrite Ea in Hb].
  destruct (tr_adj st !! b) as [nb|] eqn:Eb; [|by unfold nbrs in Ha; rewrite Eb in Ha].
  assert (Hna : nbrs (tr_adj st) a = na) by (unfold nbrs; by rewrite Ea).
  assert (Hnb : nbrs (tr_adj st) b = nb) by (unfold nbrs; by rewrite Eb).
  unfold remove_edge. rewrite Ea, Eb. cbn [expect obind]. rewrite lookup_insert_ne, Eb by done. cbn [expect obind].
  set (cs := filter (.∈ nb) (iter_set na)).
  assert (Hcs : ∀ c, c ∈ cs ↔ c ∈ nbrs (tr_adj st) a ∧ c ∈ nbrs (tr_adj st) b).
  { intros c. unfold cs. rewrite list_elem_of_filter, elem_of_iter_set, Hna, Hnb. tauto. }
  assert (Hcut : cut (tr_adj st) (<[b:=nb ∖ {[a]}]> (<[a:=na ∖ {[b]}]> (tr_adj st))) a b).
  { intros x. rewrite !nbrs_insert. destruct (decide (b = x)) as [<-|Hbx].
    { by rewrite decide_False, decide_True, Hnb by done. }
    destruct (decide (a = x)) as [<-|Hax]; [by rewrite decide_True, Hna by done|].
    rewrite !decide_False by done. set_solver. }
  set (adj' := <[b:=nb ∖ {[a]}]> (<[a:=na ∖ {[b]}]> (tr_adj st))) in *.
  assert (Hin' : ∀ x y, y ∈ nbrs adj' x ↔ y ∈ nbrs (tr_adj st) x ∧ (x, y) ≠ (a, b) ∧ (x, y) ≠ (b, a)).
  { intros x y. rewrite Hcut. destruct (decide (x = a)) as [->|]; [|destruct (decide (x = b)) as [->|]];
      rewrite elem_of_difference, ?elem_of_singleton, ?elem_of_empty; naive_solver congruence. }
  set (sup' := foldl _ (tr_support st) cs).
  assert (Hsup' : ∀ x y, sup' !! (x, y) = (if decide (hits a b cs (x, y)) then pred else id) <$> tr_support st !! (x, y)).
  { intros x y. apply lower_supports_lookup; [done|apply NoDup_filter, iter_set_NoDup| |];
      intros Hc%Hcs; destruct Hc; by eapply Hirr. }
  eexists. split; [done|]. cbn [tr_adj tr_support tr_truss tr_max]. split; [|split; [|done]].
  - split.
    + intros x y [Hy [H1 H2]]%Hin'. apply Hin'. split; [by apply Hsym|]. split; congruence.
    + intros x Hx%Hin'. destruct Hx as [Hx _]. by apply Hirr in Hx.
    + intros x y s'. rewrite lookup_delete. destruct (decide ((a, b) = (x, y))) as [[= <- <-]|Hxy].
      * rewrite Hin'. split; [done|]. naive_solver.
      * rewrite Hsup', fmap_Some. split.
        -- intros (t & (Hlt & Hy & ->)%Hsup & ->). assert ((x, y) ≠ (b, a)) by (intros [= -> ->]; lia).
           split_and!; [done|by apply Hin'; split; [|split]; congruence|].
           symmetry. apply triangles_cut; auto; congruence.
        -- intros (Hlt & Hy & ->). apply Hin' in Hy as (Hy & _ & H2). exists (triangles (tr_adj st) x y).
           split; [by apply Hsup|]. apply triangles_cut; auto; congruence.
  - rewrite dom_delete_L. f_equal. apply set_eq. intros [x y]. rewrite !elem_of_dom, Hsup', fmap_is_Some. done.
Qed.

(** A batch. *)
Lemma remove_edges_spec k l st : truss_ok (tr_adj st) (tr_support st) → NoDup l →
  (∀ e, e ∈ l → e ∈ dom (tr_support st)) →
  ∃ st', ofold (remove_edge k) st l = Ok st' ∧ truss_ok (tr_adj st') (tr_support st') ∧
    dom (tr_support st') = dom (tr_support st) ∖ list_to_set l ∧
    (∀ e, tr_truss st' !! e = if decide (e ∈ l) then Some k else tr_truss st !! e) ∧ tr_max st' = tr_max st.
Proof.
  revert st. induction l as [|[a b] l IH]; intros st Hok Hnd Hin.
  { exists st. cbn [ofold list_to_set]. split_and!; [done|done|set_solver| |done].
    intros e. by rewrite decide_False by apply not_elem_of_nil. }
  apply NoDup_cons in Hnd as [Hab Hnd]. assert ((a, b) ∈ dom (tr_support st)) as [s Hs]%elem_of_dom by (apply Hin; by left).
  destruct (remove_edge_spec k st a b s Hok Hs) as (st1 & E1 & Hok1 & Hd1 & Ht1 & Hm1).
  destruct (IH st1) as (st' & E' & Hok' & Hd' & Ht' & Hm'); [done|done| |].
  { intros e He. rewrite Hd1. apply elem_of_difference. split; [apply Hin; by right|set_solver]. }
  exists st'. cbn [ofold]. rewrite E1. cbn [obind]. split_and!; [done|done| | |congruence].
  - rewrite Hd', Hd1. set_solver.
  - intros e. rewrite Ht', Ht1, lookup_insert.
    destruct (decide (e ∈ l)) as [Hl|Hl]; [by rewrite decide_True by (by right)|].
    destruct (decide ((a, b) = e)) as [<-|Hne]; [by rewrite decide_True by left|].
    rewrite decide_False; [done|]. intros [?|?]%elem_of_cons; congruence.
Qed.

Lemma foldl_min_spec (s : nat) ss : foldl Nat.min s ss ∈ s :: ss ∧ ∀ x, x ∈ s :: ss → foldl Nat.min s ss ≤ x.
Proof.
  revert s. induction ss as [|t ss IH]; intros s; simpl.
  { split; [by left|]. by intros x ->%list_elem_of_singleton. }
  destruct (IH (Nat.min s t)) as [H1 H2]. split.
  - apply elem_of_cons in H1 as [->|H1]; [|by do 2 right].
    destruct (Nat.min_spec s t) as [[_ ->]|[_ ->]]; [by left|by right; left].
  - intros x. rewrite !elem_of_cons. intros [->|[->|Hx]].
    + specialize (H2 (Nat.min s t) ltac:(by left)). lia.
    + specialize (H2 (Nat.min s t) ltac:(by left)). lia.
    + apply H2. by right.
Qed.

Lemma min_support_spec sup : sup ≠ ∅ →
  (∃ e, sup !! e = Some (min_support sup)) ∧ ∀ e s, sup !! e = Some s → min_support sup ≤ s.
Proof.
  intros Hne. unfold min_support.
  assert (Hiff : ∀ x, x ∈ (iter_map sup).*2 ↔ ∃ e, sup !! e = Some x).
  { intros x. rewrite list_elem_of_fmap. split.
    - intros ([e y] & -> & Hy%elem_of_iter_map). by exists e.
    - intros (e & He%elem_of_iter_map). by exists (e, x). }
  destruct ((iter_map sup).*2) as [|s ss].
  { destruct Hne. apply map_empty. intros e. apply eq_None_not_Some. intros [x Hx].
    assert (x ∈ ([] : list nat)) as ?%elem_of_nil by (apply Hiff; by exists e). done. }
  destruct (foldl_min_spec s ss) as [H1 H2]. split; [by apply Hiff|]. intros e x Hx. apply H2, Hiff. by exists e.
Qed.

Section graph.
Context {W : Type} (g : DiGraph W).

(** What the loop keeps: [D] holds the edges that are left. *)
Record trusses_ok (E : gset (nat * nat)) (st : Trusses) : Prop := {
  ts_rep : truss_ok (tr_adj st) (tr_support st);
  ts_pair : ∀ e, e ∈ E → is_pair g e;
  ts_dom : ∀ e, e ∈ dom (tr_support st) → e ∈ E;
  ts_truss : ∀ e k, tr_truss st !! e = Some k → in_truss g k e ∧ k ≤ tr_max st;
  ts_done : ∀ e, is_Some (tr_truss st !! e) ↔ e ∈ E ∧ e ∉ dom (tr_support st);
  ts_top : tr_max st = 2 ∨ ∃ e, tr_truss st !! e = Some (tr_max st);
  ts_max : ∀ k T e, truss_set g k T → e ∈ T → k ≤ tr_max st ∨ T ⊆ dom (tr_support st);
}.

Lemma in_support adj sup x y : truss_ok adj sup → canonical_pair x y ∈ dom sup → y ∈ nbrs adj x.
Proof.
  intros [Hsym _ Hsup]. unfold canonical_pair.
  case_decide; intros [s (_ & Hy & _)%Hsup]%elem_of_dom; auto.
Qed.

Lemma support_in adj sup x y : truss_ok adj sup → y ∈ nbrs adj x → canonical_pair x y ∈ dom sup.
Proof.
  intros [Hsym Hirr Hsup] Hy. assert (x ≠ y) by (intros ->; by eapply Hirr).
  apply elem_of_dom. unfold canonical_pair. case_decide.
  - exists (triangles adj x y). apply Hsup. split_and!; [lia|done|done].
  - exists (triangles adj y x). apply Hsup. split_and!; [lia|auto|done].
Qed.

(** What is left before a batch is a truss of the batch's level. *)
Lemma rest_is_truss E st : trusses_ok E st → tr_support st ≠ ∅ →
  truss_set g (min_support (tr_support st) + 2) (dom (tr_support st)).
Proof.
  intros Hts Hne a b Hab. split; [by apply (ts_pair _ _ Hts), (ts_dom _ _ Hts)|].
  apply elem_of_dom in Hab as [s Hs]. pose proof (ts_rep _ _ Hts) as Hrep.
  exists (nbrs (tr_adj st) a ∩ nbrs (tr_adj st) b). split.
  - pose proof (proj2 (min_support_spec _ Hne) _ _ Hs). apply (to_support _ _ Hrep) in Hs as (_ & _ & ->).
    unfold triangles in *. lia.
  - intros c [Ha Hb]%elem_of_intersection. split; by apply (support_in (tr_adj st)).
Qed.

Lemma truss_triangles adj sup k T a b : truss_ok adj sup → truss_set g k T → T ⊆ dom sup → (a, b) ∈ T →
  k ≤ triangles adj a b + 2.
Proof.
  intros Hrep HT Hsub Hab. destruct (HT a b Hab) as (_ & C & Hk & HC).
  assert (size C ≤ triangles adj a b); [|lia]. apply subseteq_size. intros c Hc. destruct (HC c Hc) as [H1 H2].
  apply elem_of_intersection. split; eapply in_support; eauto.
Qed.

(** The edges of least support leave, each with the level of the batch. *)
Lemma peel_batch_effect st : truss_ok (tr_adj st) (tr_support st) →
  ∃ st', peel_batch st = Ok st' ∧ truss_ok (tr_adj st') (tr_support st') ∧
    (∀ e, e ∈ dom (tr_support st') ↔ e ∈ dom (tr_support st) ∧ tr_support st !! e ≠ Some (min_support (tr_support st))) ∧
    (∀ e, tr_truss st' !! e =
       if decide (tr_support st !! e = Some (min_support (tr_support st))) then Some (min_support (tr_support st) + 2)
       else tr_truss st !! e) ∧
    tr_max st' = Nat.max (tr_max st) (min_support (tr_support st) + 2).
Proof.
  intros Hrep. unfold peel_batch. set (m := min_support (tr_support st)) in *.
  set (l := (filter (λ es, es.2 = m) (iter_map (tr_support st))).*1).
  assert (Hl : ∀ e, e ∈ l ↔ tr_support st !! e = Some m).
  { intros e. unfold l. rewrite list_elem_of_fmap. split.
    - intros ([e' s] & -> & [Hs He]%list_elem_of_filter). simpl in *. subst s. by apply elem_of_iter_map in He.
    - intros He. exists (e, m). split; [done|]. apply list_elem_of_filter. split; [done|]. by apply elem_of_iter_map. }
  assert (Hnd : NoDup l).
  { unfold l. apply (sublist_NoDup _ (iter_map (tr_support st)).*1); [apply iter_map_NoDup|].
    apply fmap_sublist, sublist_filter. }
  set (st0 := mkTrusses (tr_adj st) (tr_support st) (tr_truss st) (Nat.max (tr_max st) (m + 2))).
  destruct (remove_edges_spec (m + 2) l st0) as (st' & E' & Hrep' & Hd' & Ht' & Hm'); [done|done| |].
  { intros e He%Hl. by apply elem_of_dom. }
  exists st'. cbn [tr_support tr_truss tr_max st0] in *. split_and!; [done|done| | |done].
  - intros e. rewrite Hd', elem_of_difference, elem_of_list_to_set. by rewrite Hl.
  - intros e. rewrite Ht'. destruct (decide (e ∈ l)) as [He|He]; rewrite Hl in He; by repeat case_decide.
Qed.

Lemma peel_batch_spec E st : trusses_ok E st → tr_support st ≠ ∅ →
  ∃ st', peel_batch st = Ok st' ∧ trusses_ok E st' ∧ size (dom (tr_support st')) < size (dom (tr_support st)).
Proof.
  intros Hts Hne. pose proof (rest_is_truss E st Hts Hne) as Hrest.
  destruct (min_support_spec _ Hne) as [[e0 He0] _].
  destruct (peel_batch_effect st (ts_rep _ _ Hts)) as (st' & E' & Hrep' & Hd' & Ht' & Hm').
  set (m := min_support (tr_support st)) in *.
  assert (Hdom : ∀ e, tr_support st !! e = Some m → e ∈ dom (tr_support st)) by (intros e He; by apply elem_of_dom).
  exists st'. split; [done|]. split.
  - destruct Hts as [Hrep Hpair Hdom' Htr Hdone Htop Hmax]. split; [done|done| | | | |].
    + intros e [? _]%Hd'. by apply Hdom'.
    + intros e k. rewrite Ht', Hm'. destruct (decide _) as [He|He].
      * intros [= <-]. split; [|lia]. exists (dom (tr_support st)). split; [done|by apply Hdom].
      * intros [? ?]%Htr. split; [done|lia].
    + intros e. rewrite Ht', Hd'. destruct (decide _) as [He|He].
      * split; [|by eauto]. intros _. split; [by apply Hdom', Hdom|tauto].
      * rewrite Hdone. tauto.
    + rewrite Hm'. right. destruct (Nat.max_spec (tr_max st) (m + 2)) as [[_ ->]|[Hle ->]].
      * exists e0. by rewrite Ht', decide_True.
      * destruct Htop as [Htop|[e He]]; [exists e0; rewrite Ht', decide_True by done; f_equal; lia|].
        exists e. rewrite Ht', decide_False; [done|]. intros Hel%Hdom.
        assert (Hs : is_Some (tr_truss st !! e)) by eauto. by apply Hdone in Hs as [_ Hs].
    + intros k T e HT He. rewrite Hm'. destruct (Hmax k T e HT He) as [Hk|Hsub]; [left; lia|].
      destruct (decide (set_Exists (λ e, tr_support st !! e = Some m) T)) as [([a b] & Hab & Habl)|Hno].
      * left. apply (to_support _ _ Hrep) in Habl as (_ & _ & Hs).
        pose proof (truss_triangles _ _ k T a b Hrep HT Hsub Hab). lia.
      * right. intros f Hf. apply Hd'. split; [by apply Hsub|]. intros Hfl. apply Hno. by exists f.
  - apply subset_size. assert (He0' : e0 ∈ dom (tr_support st)) by (by apply Hdom).
    assert (He1 : e0 ∉ dom (tr_support st')) by (intros [_ ?]%Hd'; done).
    assert (Hsub : dom (tr_support st') ⊆ dom (tr_support st)) by (intros e [? _]%Hd'; done). set_solver.
Qed.

Lemma truss_loop_spec E fuel st : trusses_ok E st → size (dom (tr_support st)) ≤ fuel →
  ∃ st', truss_loop fuel st = Ok st' ∧ trusses_ok E st' ∧ tr_support st' = ∅.
Proof.
  revert st. induction fuel as [|fuel IH]; intros st Hts Hsz; simpl;
    (destruct (decide (tr_support st = ∅)) as [Hz|Hne]; [by exists st|]).
  - exfalso. apply Hne. rewrite <- dom_empty_iff_L. apply leibniz_equiv, size_empty_inv. lia.
  - destruct (peel_batch_spec E st Hts Hne) as (st' & -> & Hts' & Hlt). simpl. apply IH; [done|lia].
Qed.
End graph.
End peel.

(** * The start *)
Lemma edge_set_spec {W} (g : DiGraph W) :
  (∀ e, e ∈ (edge_set g).1 ↔ is_pair g e) ∧ (∀ u v, v ∈ nbrs (edge_set g).2 u ↔ adjacent g u v).
Proof.
  assert (Hstep : ∀ st s t, (∀ e, e ∈ (add_pair st (s, t)).1 ↔ e ∈ st.1 ∨ s ≠ t ∧ e = canonical_pair s t) ∧
    (∀ u v, v ∈ nbrs (add_pair st (s, t)).2 u ↔ v ∈ nbrs st.2 u ∨ s ≠ t ∧ (u = s ∧ v = t ∨ u = t ∧ v = s))).
  { intros st s t. unfold add_pair. cbn [fst snd]. destruct (canonical_pair s t) as [a b] eqn:E.
    apply canonical_pair_cases in E as [Hle E]. destruct (decide (a = b)) as [->|Hne].
    - assert (s = t) as -> by naive_solver. naive_solver.
    - assert (s ≠ t) by naive_solver. cbn [fst snd]. split.
      + intros e. rewrite elem_of_union, elem_of_singleton. tauto.
      + intros u v. pose proof (elem_of_link_both st.2 a b u v) as Hb. unfold link_both in Hb.
        rewrite decide_False in Hb by done. rewrite Hb. naive_solver. }
  assert (Hfold : ∀ es st, (∀ e, e ∈ (foldl add_pair st es).1 ↔ e ∈ st.1 ∨ ∃ s t, (s, t) ∈ es ∧ s ≠ t ∧ e = canonical_pair s t) ∧
    (∀ u v, v ∈ nbrs (foldl add_pair st es).2 u ↔ v ∈ nbrs st.2 u ∨ u ≠ v ∧ ((u, v) ∈ es ∨ (v, u) ∈ es))).
  { induction es as [|[s t] es IH]; intros st; cbn [foldl].
    { split; intros; setoid_rewrite elem_of_nil; naive_solver. }
    destruct (IH (add_pair st (s, t))) as [H1 H2], (Hstep st s t) as [S1 S2]. split.
    - intros e. rewrite H1, S1. setoid_rewrite elem_of_cons. split.
      + intros [[He|[Hne ->]]|(s' & t' & Hin & Hne)]; [by left|right; exists s, t; auto|right; exists s', t'; auto].
      + intros [He|(s' & t' & [[= -> ->]|Hin] & Hne & ->)]; [by left; left|left; right; auto|right; exists s', t'; auto].
    - intros u v. rewrite H2, S2, !elem_of_cons. clear. split.
      + intros [[Hv|[Hne [[-> ->]|[-> ->]]]]|[Hne [Hv|Hv]]]; auto 6.
      + intros [Hv|[Hne [[[= -> ->]|Hv]|[[= -> ->]|Hv]]]]; auto 8. }
  destruct (Hfold (g_edges g) (∅, foldl (λ adj u, <[u := nbrs adj u]> adj) ∅ (seq 0 (node_count g)))) as [H1 H2].
  destruct (init_nodes_spec (node_count g)) as [Hn _]. unfold edge_set. split.
  - intros [x y]. rewrite H1. unfold is_pair, adjacent, edge. cbn [fst snd]. split.
    + intros [[]%elem_of_empty|(s & t & Hst & Hne & E)]. symmetry in E. apply canonical_pair_cases in E.
      naive_solver lia.
    + intros (Hlt & Hne & [He|He]); right; [exists x, y|exists y, x]; (split_and!; [done|congruence|]);
        symmetry; apply canonical_pair_cases; naive_solver lia.
  - intros u v. rewrite H2. unfold adjacent, edge. rewrite Hn. set_solver.
Qed.

Section result.
Context `{HashIter}.

Lemma common_count_size (na nb : gset nat) : common_count na nb = size (na ∩ nb).
Proof.
  assert (Hlen : ∀ X Y : gset nat, length (filter (.∈ Y) (iter_set X)) = size (X ∩ Y)).
  { intros X Y. rewrite <- (size_list_to_set (C := gset nat)) by apply NoDup_filter, iter_set_NoDup.
    f_equal. apply set_eq. intros x. rewrite elem_of_list_to_set, list_elem_of_filter, elem_of_iter_set. set_solver. }
  unfold common_count. case_decide; rewrite Hlen; [done|]. f_equal. set_solver.
Qed.

Lemma supports_spec edges adj e :
  supports edges adj !! e = if decide (e ∈ edges) then Some (triangles adj e.1 e.2) else None.
Proof.
  unfold supports.
  assert (Hfold : ∀ l (sup : gmap (nat * nat) nat), foldl (λ sup '(a, b), <[(a, b) := common_count (nbrs adj a) (nbrs adj b)]> sup) sup l !! e =
    if decide (e ∈ l) then Some (triangles adj e.1 e.2) else sup !! e).
  { induction l as [|[a b] l IH]; intros sup; cbn [foldl]; [done|]. rewrite IH, common_count_size, lookup_insert.
    destruct (decide (e ∈ l)) as [Hl|Hl]; [by rewrite decide_True by (by right)|].
    destruct (decide ((a, b) = e)) as [<-|Hne]; [by rewrite decide_True by left|].
    rewrite decide_False; [done|]. intros [?|?]%elem_of_cons; congruence. }
  rewrite Hfold, lookup_empty.
  destruct (decide (e ∈ iter_set edges)) as [He|He]; rewrite elem_of_iter_set in He; by case_decide.
Qed.

Lemma trusses_start {W} (g : DiGraph W) :
  trusses_ok g (edge_set g).1 (mkTrusses (edge_set g).2 (supports (edge_set g).1 (edge_set g).2) ∅ 2) ∧
  dom (supports (edge_set g).1 (edge_set g).2) = (edge_set g).1.
Proof.
  destruct (edge_set_spec g) as [He Ha].
  assert (Hd : dom (supports (edge_set g).1 (edge_set g).2) = (edge_set g).1).
  { apply set_eq. intros e. rewrite elem_of_dom, supports_spec. destruct (decide _); split; try done; by eauto. }
  split; [|done]. split; cbn [tr_adj tr_support tr_truss tr_max].
  - split.
    + intros x y. rewrite !Ha. apply adjacent_sym.
    + intros x [Hx _]%Ha. done.
    + intros x y s. rewrite supports_spec. cbn [fst snd]. destruct (decide _) as [Hin|Hout]; rewrite He in *.
      * destruct Hin as [Hlt Hadj]. cbn [fst snd] in *. rewrite Ha. naive_solver.
      * split; [done|]. intros (Hlt & Hy%Ha & _). destruct Hout. by split.
  - intros e. apply He.
  - by rewrite Hd.
  - done.
  - intros e. rewrite Hd. split; [by intros []|by intros []].
  - by left.
  - intros k T e HT _. right. rewrite Hd. intros [a b] Hab. apply He. by apply HT.
Qed.
End result.

(** The decomposition returns, whatever order the hash containers are
    iterated in; it gives a number to exactly the edges of the undirected
    projection, each edge lies in a truss of the level it is given, and the
    maximum is the greatest level at which the graph has a truss. *)
Theorem k_truss_sound `{HashIter} {W : Type} (g : DiGraph W) :
  ∃ r, k_truss_decomposition g = Ok r ∧
    (∀ e, is_Some (edge_trussness r !! e) ↔ is_pair g e) ∧
    (∀ e k, edge_trussness r !! e = Some k → in_truss g k e) ∧
    (max_truss r = 2 ∨ ∃ e, in_truss g (max_truss r) e) ∧
    (∀ e k, in_truss g k e → k ≤ max_truss r).
Proof.
  unfold k_truss_decomposition. destruct (edge_set g) as [edges adj] eqn:Eg.
  destruct (trusses_start g) as [Hts Hd], (edge_set_spec g) as [He _]. rewrite Eg in *. cbn [fst snd] in *.
  destruct (truss_loop_spec g edges (size edges) _ Hts) as (st & Hst & Hts' & Hz); [cbn [tr_support]; by rewrite Hd|].
  rewrite Hst. eexists. split; [done|]. cbn [edge_trussness max_truss].
  destruct Hts' as [_ _ _ Htr Hdone Htop Hmax]. rewrite Hz in *. split_and!.
  - intros e. rewrite Hdone, He. set_solver.
  - intros e k Hk. by apply Htr.
  - destruct Htop as [?|[e Hk]]; [by left|right; exists e; by apply Htr].
  - intros e k (T & HT & HeT). destruct (Hmax k T e HT HeT) as [?|Hsub]; [done|]. set_solver.
Qed.

(** Two triangles that share an edge form a 3-truss. *)
Definition diamond : DiGraph unit := mkGraph [tt; tt; tt; tt] [(0, 1); (0, 2); (1, 2); (0, 3); (1, 3)].

Lemma diamond_pairs e : e ∈ (edge_set diamond).1 ↔ e ∈ [(0, 1); (0, 2); (1, 2); (0, 3); (1, 3)].
Proof.
  replace (edge_set diamond).1 with (list_to_set [(0, 1); (0, 2); (1, 2); (0, 3); (1, 3)] : gset (nat * nat)).
  - by rewrite elem_of_list_to_set.
  - by apply (bool_decide_unpack _); vm_compute.
Qed.

(** Trussness is under-reported: when the edges of a batch are gone, an edge
    that was in as good a truss as they were can be left in fewer triangles, and
    the next batch gives it a lower level.  The edge the two triangles share gets
    2, although the whole graph is a 3-truss. *)
Theorem k_truss_underreports `{HashIter} :
  ∃ r, k_truss_decomposition diamond = Ok r ∧ in_truss diamond 3 (0, 1) ∧ edge_trussness r !! (0, 1) = Some 2.
Proof.
  assert (Hin : in_truss diamond 3 (0, 1)).
  { exists (edge_set diamond).1. split; [|by apply diamond_pairs; left]. intros a b Hab.
    split; [by apply edge_set_spec|]. rewrite diamond_pairs in Hab. setoid_rewrite diamond_pairs.
    exists (if decide (b = 1) then {[2]} else if decide (a = 0) then {[1]} else {[0]}).
    rewrite !elem_of_cons, elem_of_nil in Hab.
    destruct_or! Hab; simplify_eq; (split; [by vm_compute|]);
      intros c ->%elem_of_singleton; rewrite !elem_of_cons; vm_compute; tauto. }
  unfold k_truss_decomposition. destruct (edge_set diamond) as [edges adj] eqn:Eg.
  destruct (trusses_start diamond) as [Hts Hd], (edge_set_spec diamond) as [He Ha]. pose proof diamond_pairs as Hp.
  rewrite Eg in *. cbn [fst snd] in *. set (st0 := mkTrusses adj (supports edges adj) ∅ 2) in *.
  assert (Hsup : ∀ e s, supports edges adj !! e = Some s ↔ e ∈ edges ∧ s = triangles (edge_set diamond).2 e.1 e.2).
  { intros e s. rewrite supports_spec, Eg. case_decide; naive_solver. }
  assert (H01 : supports edges adj !! (0, 1) = Some 2) by (apply Hsup; split; [apply Hp; by left|by vm_compute]).
  assert (Hother : ∀ e, e ∈ edges → e ≠ (0, 1) → supports edges adj !! e = Some 1).
  { intros e Hin' Hne. apply Hsup. split; [done|]. apply Hp in Hin'. rewrite !elem_of_cons, elem_of_nil in Hin'.
    destruct_or! Hin'; subst; try done; by vm_compute. }
  assert (Hne0 : supports edges adj ≠ ∅) by (intros E; by rewrite E in H01).
  assert (Hmin : min_support (supports edges adj) = 1).
  { destruct (min_support_spec _ Hne0) as [[e Hmin] Hle]. pose proof Hmin as [Hin' _]%Hsup.
    pose proof (Hle (0, 2) 1 ltac:(apply Hother; [apply Hp; right; by left|done])).
    destruct (decide (e = (0, 1))) as [->|Hne]; [rewrite Hmin in H01; injection H01; lia|].
    rewrite Hother in Hmin by done. by injection Hmin. }
  destruct (peel_batch_effect st0 (ts_rep _ _ _ Hts)) as (st1 & E1 & Hrep1 & Hd1 & Ht1 & _).
  cbn [tr_support tr_truss tr_max st0] in *. rewrite Hmin in *.
  assert (Hd1' : ∀ e, e ∈ dom (tr_support st1) ↔ e = (0, 1)).
  { intros e. rewrite Hd1, Hd. split; [|intros ->; split; [apply Hp; by left|by rewrite H01]].
    intros [Hin' Hne]. destruct (decide (e = (0, 1))); [done|]. by rewrite Hother in Hne. }
  assert (Hs1 : tr_support st1 !! (0, 1) = Some 0).
  { assert ((0, 1) ∈ dom (tr_support st1)) as [s Hs]%elem_of_dom by (by apply Hd1'). rewrite Hs. f_equal.
    apply (to_support _ _ Hrep1) in Hs as (_ & _ & ->). unfold triangles. apply size_empty_iff. intros c.
    rewrite elem_of_intersection. split; [|by intros ?%elem_of_empty]. intros [H0 H1].
    apply (support_in _ _ _ _ Hrep1), Hd1' in H1. apply canonical_pair_cases in H1 as [_ H1].
    destruct H1 as [[[=] _]|[_ ->]]. by apply (to_irrefl _ _ Hrep1) in H0. }
  assert (Hne1 : tr_support st1 ≠ ∅) by (intros E; by rewrite E in Hs1).
  assert (Hmin1 : min_support (tr_support st1) = 0).
  { pose proof (proj2 (min_support_spec _ Hne1) _ _ Hs1). lia. }
  destruct (peel_batch_effect st1 Hrep1) as (st2 & E2 & Hrep2 & Hd2 & Ht2 & _). rewrite Hmin1 in *.
  assert (Hz2 : tr_support st2 = ∅).
  { apply map_empty. intros e. apply eq_None_not_Some. intros Hs%elem_of_dom. apply Hd2 in Hs as [->%Hd1' Hn]. done. }
  replace (size edges) with 5 by (change edges with (edges, adj).1; rewrite <- Eg; by vm_compute).
  cbn [truss_loop]. fold st0. rewrite decide_False by done. rewrite E1. cbn [obind].
  rewrite decide_False by done. rewrite E2. cbn [obind]. rewrite decide_True by done. cbn [obind].
  eexists. split; [done|]. split; [done|]. cbn [edge_trussness]. rewrite Ht2. by rewrite decide_True.
Qed.
