(* ===== verification/GraphMotif.v ===== *)
(** The motif census of [src/src/graph/algorithms_ext.rs] ([motif_census]): the
    triads of a directed graph by isomorphism class, and two kinds of four-node
    graphlets.

    Counts are [u64] in the source and naturals here: a graph whose triples
    overflow 64 bits cannot be enumerated. *)

From Stdlib Require Import Btauto.
From stdpp Require Import base numbers sets list gmap.
From S2P Require Import Prelude HashOrder GraphCycles GraphUndirected.

Record MotifCensus := mkCensus { triads : list nat; cliques_4 : nat; stars_4 : nat }.

(** * Nested loops

    [for i in 0..n { for j in (i + 1)..n { .. } }] over the elements of a list. *)
Section nested.
Context {A : Type}.

Fixpoint pairs_of (l : list A) : list (A * A) :=
  match l with [] => [] | x :: l => map (pair x) l ++ pairs_of l end.

Fixpoint triples_of (l : list A) : list (A * A * A) :=
  match l with [] => [] | x :: l => map (λ p, (x, p.1, p.2)) (pairs_of l) ++ triples_of l end.

Fixpoint quads_of (l : list A) : list (A * A * A * A) :=
  match l with [] => [] | x :: l => map (λ p, (x, p.1.1, p.1.2, p.2)) (triples_of l) ++ quads_of l end.
End nested.

(** * The classifier *)

(** Whether [i -> j], [j -> i], [i -> k], [k -> i], [j -> k], [k -> j]. *)
Record TriadEdges := mkTriad { e_ij : bool; e_ji : bool; e_ik : bool; e_ki : bool; e_jk : bool; e_kj : bool }.
#[global] Instance TriadEdges_eq_dec : EqDecision TriadEdges.
Proof. solve_decision. Defined.

Definition triad_edges (has : nat → nat → bool) (i j k : nat) : TriadEdges :=
  mkTriad (has i j) (has j i) (has i k) (has k i) (has j k) (has k j).

Definition bool_count (bs : list bool) : nat := length (filter (λ b, b = true) bs).
Definition edge_bits (e : TriadEdges) : list bool := [e_ij e; e_ji e; e_ik e; e_ki e; e_jk e; e_kj e].
Definition rec_bits (e : TriadEdges) : list bool := [e_ij e && e_ji e; e_ik e && e_ki e; e_jk e && e_kj e].

Definition classify_two_edge (e : TriadEdges) : nat :=
  if (e_ij e && e_ji e) || (e_ik e && e_ki e) || (e_jk e && e_kj e) then 2
  else if (e_ij e && e_ik e) || (e_ji e && e_jk e) || (e_ki e && e_kj e) then 3
  else if (e_ji e && e_ki e) || (e_ij e && e_kj e) || (e_ik e && e_jk e) then 4
  else 5.

Definition classify_three_edge (e : TriadEdges) : nat :=
  if decide (bool_count (rec_bits e) = 1) then 6
  else if (e_ij e && e_jk e && e_ik e) || (e_ji e && e_kj e && e_ki e) then 9
  else 8.

Definition classify_four_edge (e : TriadEdges) : nat :=
  let rec_count := bool_count (rec_bits e) in
  if decide (rec_count = 2) then 10 else if decide (rec_count = 1) then 12 else 11.

Definition classify_edges (e : TriadEdges) : nat :=
  match bool_count (edge_bits e) with
  | 0 => 0
  | 1 => 1
  | 2 => classify_two_edge e
  | 3 => classify_three_edge e
  | 4 => classify_four_edge e
  | 5 => 14
  | _ => 15
  end.

Definition classify_triad (i j k : nat) (has : nat → nat → bool) : nat := classify_edges (triad_edges has i j k).

(** * The census *)
Definition add_out (adj : list (gset nat)) (e : nat * nat) : list (gset nat) :=
  if decide (e.1 = e.2) then adj else alter (λ s, {[e.2]} ∪ s) e.1 adj.

Definition out_sets {W} (g : DiGraph W) : list (gset nat) :=
  foldl add_out (replicate (node_count g) ∅) (g_edges g).

Definition has_edge (adj : list (gset nat)) (a b : nat) : bool :=
  match adj !! a with Some s => bool_decide (b ∈ s) | None => false end.

Definition is_clique (has : nat → nat → bool) (q : nat * nat * nat * nat) : bool :=
  let '(i, j, k, l) := q in
  has i j && has j i && has i k && has k i && has i l && has l i && has j k && has k j &&
  has j l && has l j && has k l && has l k.

Definition unlinked (has : nat → nat → bool) (t : nat * nat * nat) : bool :=
  let '(a, b, c) := t in
  negb (has a b) && negb (has b a) && negb (has a c) && negb (has c a) && negb (has b c) && negb (has c b).

Section census.
Context `{HashIter}.

Definition motif_census {W} (g : DiGraph W) : MotifCensus :=
  let n := node_count g in
  if decide (n < 3) then mkCensus (replicate 16 0) 0 0
  else
    let adj := out_sets g in
    let has := has_edge adj in
    let triads := foldl (λ tr t, alter S (classify_triad t.1.1 t.1.2 t.2 has) tr)
                    (replicate 16 0) (triples_of (seq 0 n)) in
    if decide (n ≤ 50) then
      let cliques := foldl (λ c q, if is_clique has q then S c else c) 0 (quads_of (seq 0 n)) in
      let stars := foldl (λ c s,
                     let leaves := iter_set s in
                     if decide (length leaves < 3) then c
                     else foldl (λ c t, if unlinked has t then S c else c) c (triples_of leaves)) 0 (take n adj) in
      mkCensus triads cliques stars
    else mkCensus triads 0 0.
End census.

(** * The specification

    The classes of Davis and Leinhardt, each by the edges of a representative
    on the nodes 0, 1, 2, in the order of the array [triads]. *)
Definition representative (c : nat) : list (nat * nat) :=
    match c with
    | 0 => []
    | 1 => [(0, 1)]
    | 2 => [(0, 1); (1, 0)]
    | 3 => [(0, 1); (0, 2)]
    | 4 => [(0, 2); (1, 2)]
    | 5 => [(0, 1); (1, 2)]
    | 6 => [(0, 1); (1, 0); (2, 1)]
    | 7 => [(0, 1); (1, 0); (1, 2)]
    | 8 => [(0, 1); (1, 2); (0, 2)]
    | 9 => [(0, 1); (1, 2); (2, 0)]
    | 10 => [(0, 1); (1, 0); (1, 2); (2, 1)]
    | 11 => [(1, 0); (1, 2); (0, 2); (2, 0)]
    | 12 => [(0, 1); (2, 1); (0, 2); (2, 0)]
    | 13 => [(0, 1); (1, 2); (0, 2); (2, 0)]
    | 14 => [(0, 1); (1, 2); (2, 1); (0, 2); (2, 0)]
    | _ => [(0, 1); (1, 0); (1, 2); (2, 1); (0, 2); (2, 0)]
    end.

Definition triad_pattern (c : nat) (a b : nat) : bool := bool_decide ((a, b) ∈ representative c).

Definition renumberings : list (nat * nat * nat) := [(0, 1, 2); (0, 2, 1); (1, 0, 2); (1, 2, 0); (2, 0, 1); (2, 1, 0)].

(** The triad is isomorphic to the representative of class [c]. *)
Definition triad_iso (c : nat) (e : TriadEdges) : bool :=
  existsb (λ '(x, y, z), bool_decide (triad_edges (triad_pattern c) x y z = e)) renumberings.


Definition all_triads : list TriadEdges :=
  let bs := [false; true] in
  flat_map (λ a, flat_map (λ b, flat_map (λ c, flat_map (λ d, flat_map (λ e, map (λ f, mkTriad a b c d e f) bs) bs) bs) bs) bs) bs.

Lemma all_triads_spec e : e ∈ all_triads.
Proof.
  destruct e as [[] [] [] [] [] []]; apply list_elem_of_In; vm_compute; tauto.
Qed.

Lemma forall_triads (P : TriadEdges → bool) : forallb P all_triads = true → ∀ e, P e = true.
Proof. intros Hall e. eapply forallb_forall in Hall; [exact Hall|]. apply list_elem_of_In, all_triads_spec. Qed.





(** * Counting *)
Section counting.
Context {A : Type}.






End counting.










(** * The theorems *)

(** The nodes of a triple that the loops visit: distinct and in order. *)
Lemma pairs_of_sub {A} (l : list A) p : p ∈ pairs_of l → p.1 ∈ l ∧ p.2 ∈ l.
Proof.
  induction l as [|x l IH]; [by intros ?%elem_of_nil|]. simpl. rewrite elem_of_app, list_elem_of_fmap, !elem_of_cons.
  intros [(y & -> & Hy)|[? ?]%IH]; auto.
Qed.


(** The edges that count: no loops. *)
Definition joined {W} (g : DiGraph W) (a b : nat) : bool := bool_decide (a ≠ b ∧ (a, b) ∈ g_edges g).







Section theorems.
Context `{HashIter} {W : Type} (g : DiGraph W) (Hok : graph_ok g).
Notation n := (node_count g).






End theorems.

(** * Counting sets of nodes *)
Section choices.
Context `{Countable A}.








End choices.















(** The two classes of triads with three edges and no pair are mixed up: a
    cycle is always counted as transitive (030T), and a transitive triad is
    counted as a cycle (030C) exactly when its middle node has the middle index.
    So isomorphic graphs have different censuses. *)
Theorem cycles_counted_transitive `{HashIter} :
  (∀ e, triad_iso 9 e = true → classify_edges e = 8) ∧
  (∀ (has : nat → nat → bool) a b c i j k, has a b = true → has b c = true → has a c = true →
     has b a = false → has c b = false → has c a = false →
     (i, j, k) ∈ [(a, b, c); (a, c, b); (b, a, c); (b, c, a); (c, a, b); (c, b, a)] →
     classify_triad i j k has = if decide (j = b) then 9 else 8) ∧
  ∃ g g' : DiGraph unit, (∃ s, NoDup s ∧ s ≡ₚ [0; 1; 2] ∧
      ∀ u v, u < 3 → v < 3 → joined g u v = joined g' (nth u s 0) (nth v s 0)) ∧
    triads (motif_census g) !! 9 = Some 1 ∧ triads (motif_census g') !! 9 = Some 0.
Proof.
  split; [|split].
  - intros e He. pose proof (forall_triads (λ e, negb (triad_iso 9 e) || bool_decide (classify_edges e = 8)) ltac:(by vm_compute) e) as Hb.
    simpl in Hb. rewrite He in Hb. by apply bool_decide_eq_true in Hb.
  - intros has a b c i j k H1 H2 H3 H4 H5 H6 Hin. rewrite !elem_of_cons, elem_of_nil in Hin.
    assert (a ≠ b ∧ b ≠ c) as [Hab Hbc] by (split; intros ->; congruence).
    unfold classify_triad, triad_edges.
    destruct_or! Hin; simplify_eq; rewrite ?H1, ?H2, ?H3, ?H4, ?H5, ?H6; cbn; by case_decide.
  - exists (mkGraph [tt; tt; tt] [(0, 1); (1, 2); (0, 2)]), (mkGraph [tt; tt; tt] [(1, 0); (0, 2); (1, 2)]).
    split; [|by vm_compute]. exists [1; 0; 2]. split_and!.
    + apply (bool_decide_unpack _); by vm_compute.
    + apply Permutation_swap.
    + intros [|[|[|u]]] [|[|[|v]]] Hu Hv; first [lia|by vm_compute].
Qed.
