(* ===== verification/GraphCut.v ===== *)
(** Cut vertices and bridges ([articulation_points_and_bridges] of
    [src/src/graph/algorithms_ext.rs]): the lowlink depth-first search with its
    own stack. *)

From stdpp Require Import base numbers sets list gmap relations.
From S2P Require Import Prelude BTree GraphCycles GraphUndirected GraphTruss.

(** * The code *)
Record CutResult := mkCut { articulation_points : gset nat; bridges : list (nat * nat) }.

Notation AdjList := (gmap nat (list nat)).

(** [adj.entry(u).or_default().push(v)] *)
Definition push_nbr (u v : nat) (adj : AdjList) : AdjList := <[u := default [] (adj !! u) ++ [v]]> adj.

Definition push_both (adj : AdjList) (e : nat * nat) : AdjList :=
  let '(a, b) := e in if decide (a = b) then adj else push_nbr b a (push_nbr a b adj).

(** [Vec::dedup]: of equal neighbours the first is kept. *)
Fixpoint vec_dedup (l : list nat) : list nat :=
  match l with
  | x :: (y :: _) as l' => if decide (x = y) then vec_dedup l' else x :: vec_dedup l'
  | _ => l
  end.

Definition sorted_adj {W} (g : DiGraph W) : AdjList :=
  (λ l, vec_dedup (sort_by Nat.compare l)) <$>
  foldl push_both (foldl (λ adj u, <[u := default [] (adj !! u)]> adj) ∅ (seq 0 (node_count g))) (g_edges g).

(** A frame: node, parent, index of the next neighbour; the top of the stack
    comes first.  The [i64] times are natural numbers. *)
Notation Frame := (nat * option nat * nat)%type.

Record CutSearch := mkCutSearch {
  df_stack : list Frame; df_visited : gset nat; df_disc : gmap nat nat; df_low : gmap nat nat;
  df_timer : nat; df_out : CutResult; df_root_children : nat;
}.

(** [if idx == 0 { .. }] *)
Definition cut_enter (v idx : nat) (st : CutSearch) : CutSearch :=
  if decide (idx = 0) then
    let timer := S (df_timer st) in
    mkCutSearch (df_stack st) ({[v]} ∪ df_visited st) (<[v := timer]> (df_disc st)) (<[v := timer]> (df_low st))
      timer (df_out st) (df_root_children st)
  else st.

Definition with_stack (fs : list Frame) (st : CutSearch) : CutSearch :=
  mkCutSearch fs (df_visited st) (df_disc st) (df_low st) (df_timer st) (df_out st) (df_root_children st).
Definition with_low (low : gmap nat nat) (st : CutSearch) : CutSearch :=
  mkCutSearch (df_stack st) (df_visited st) (df_disc st) low (df_timer st) (df_out st) (df_root_children st).
Definition with_out (out : CutResult) (st : CutSearch) : CutSearch :=
  mkCutSearch (df_stack st) (df_visited st) (df_disc st) (df_low st) (df_timer st) out (df_root_children st).
Definition with_root_children (n : nat) (st : CutSearch) : CutSearch :=
  mkCutSearch (df_stack st) (df_visited st) (df_disc st) (df_low st) (df_timer st) (df_out st) n.

(** The child [v] of [p] is done. *)
Definition leave (start v p : nat) (st : CutSearch) : outcome Empty_set CutSearch :=
  let* lv := expect (df_low st !! v) in
  let* lp := expect (df_low st !! p) in
  let* dp := expect (df_disc st !! p) in
  let out := df_out st in
  Ok (with_out (mkCut
        (if decide (p ≠ start ∧ dp ≤ lv) then {[p]} ∪ articulation_points out else articulation_points out)
        (if decide (dp < lv) then bridges out ++ [canonical_pair p v] else bridges out))
      (with_low (<[p := lp `min` lv]> (df_low st)) st)).

(** The body of [while !stack.is_empty()]. *)
Definition cut_step (adj : AdjList) (start : nat) (v : nat) (parent : option nat) (idx : nat) (rest : list Frame)
    (st : CutSearch) : outcome Empty_set CutSearch :=
  let st := cut_enter v idx st in
  let* nbrs := expect (adj !! v) in
  match nbrs !! idx with
  | Some w =>
      let st := with_stack ((v, parent, S idx) :: rest) st in
      if decide (Some w = parent) then Ok st
      else if decide (w ∈ df_visited st) then
        let* dw := expect (df_disc st !! w) in
        let* e := expect (df_low st !! v) in
        Ok (with_low (<[v := e `min` dw]> (df_low st)) st)
      else
        let st := if decide (parent = None) then with_root_children (S (df_root_children st)) st else st in
        Ok (with_stack ((w, Some v, 0) :: df_stack st) st)
  | None =>
      let st := with_stack rest st in
      match parent with Some p => leave start v p st | None => Ok st end
  end.

Fixpoint cut_loop (fuel : nat) (adj : AdjList) (start : nat) (st : CutSearch) : outcome Empty_set CutSearch :=
  match df_stack st with
  | [] => Ok st
  | (v, parent, idx) :: rest =>
      match fuel with
      | 0 => OutOfFuel
      | S fuel => let* st := cut_step adj start v parent idx rest st in cut_loop fuel adj start st
      end
  end.

(** One frame per node is left, and its index passes over its neighbours. *)
Definition cut_fuel {W} (g : DiGraph W) (adj : AdjList) : nat :=
  sum_list (map (λ u, S (length (default [] (adj !! u)))) (seq 0 (node_count g))).

Definition cut_from (fuel : nat) (adj : AdjList) (st : CutSearch) (start : nat) : outcome Empty_set CutSearch :=
  if decide (start ∈ df_visited st) then Ok st
  else
    let* st := cut_loop fuel adj start (with_root_children 0 (with_stack [(start, None, 0)] st)) in
    Ok (if decide (1 < df_root_children st) then
          with_out (mkCut ({[start]} ∪ articulation_points (df_out st)) (bridges (df_out st))) st
        else st).

Definition articulation_points_and_bridges {W} (g : DiGraph W) : outcome Empty_set CutResult :=
  let adj := sorted_adj g in
  let* st := ofold (cut_from (cut_fuel g adj) adj) (mkCutSearch [] ∅ ∅ ∅ 0 (mkCut ∅ []) 0) (seq 0 (node_count g)) in
  Ok (mkCut (articulation_points (df_out st)) (sort_by ord_cmp (bridges (df_out st)))).

(** * What they are *)
Section spec.
Context (A : nat → nat → Prop).

(** Edges that avoid a node, an edge, or the outside of a set. *)
Definition avoids_node (p x y : nat) : Prop := A x y ∧ x ≠ p ∧ y ≠ p.
Definition avoids_edge (a b x y : nat) : Prop := A x y ∧ ¬ (x = a ∧ y = b) ∧ ¬ (x = b ∧ y = a).
Definition inside (P : nat → Prop) (x y : nat) : Prop := A x y ∧ P x ∧ P y.

(** Two nodes that a path joins are joined by none without [p]. *)
Definition cut_vertex (p : nat) : Prop := ∃ x y, x ≠ p ∧ y ≠ p ∧ rtc A x y ∧ ¬ rtc (avoids_node p) x y.
(** The ends of the edge are not joined without it. *)
Definition bridge (a b : nat) : Prop := A a b ∧ ¬ rtc (avoids_edge a b) a b.
End spec.
