(* ===== verification/GraphLowlink.v ===== *)
(** The invariant of the lowlink search of [GraphCut]: what discovery times and
    low values say about cuts while the stack is not empty. *)

From stdpp Require Import base numbers sets list gmap relations.
From S2P Require Import Prelude BTree GraphCycles GraphUndirected GraphTruss GraphCut.

Section lowlink.
Context (A : nat → nat → Prop) (Hsym : ∀ x y, A x y → A y x) (Hirr : ∀ x, ¬ A x x).

Notation AN := (avoids_node A).
Notation AE := (avoids_edge A).
Notation IN := (inside A).

Lemma rtc_sym (R : nat → nat → Prop) x y : (∀ x y, R x y → R y x) → rtc R x y → rtc R y x.
Proof. intros HR. induction 1 as [x|x y z Hxy _ IH]; [done|]. eapply rtc_r; [exact IH|by apply HR]. Qed.

Lemma AN_sym p x y : AN p x y → AN p y x.
Proof. intros (? & ? & ?). split_and!; auto. Qed.
Lemma AE_sym a b x y : AE a b x y → AE a b y x.
Proof. intros (? & ? & ?). split_and!; [auto|naive_solver..]. Qed.
Lemma IN_sym P x y : IN P x y → IN P y x.
Proof. intros (? & ? & ?). split_and!; auto. Qed.

Lemma AE_swap a b x y : rtc (AE a b) x y → rtc (AE b a) x y.
Proof. apply rtc_subrel. intros ? ? (? & ? & ?). by split_and!. Qed.

Lemma bridge_sym a b : bridge A a b → bridge A b a.
Proof. intros [H1 H2]. split; [by apply Hsym|]. intros H. apply H2, AE_swap, (rtc_sym _ _ _ (AE_sym b a)), H. Qed.

(** A path inside a set stays in it, and is a path that avoids what is not in it. *)
Lemma inside_weaken (P Q : nat → Prop) x y : (∀ z, P z → Q z) → rtc (IN P) x y → rtc (IN Q) x y.
Proof. intros HPQ. apply rtc_subrel. intros ? ? (? & ? & ?). split_and!; auto. Qed.
Lemma inside_path P x y : rtc (IN P) x y → rtc A x y.
Proof. apply rtc_subrel. by intros ? ? (? & ? & ?). Qed.
Lemma inside_AN (P : nat → Prop) p x y : ¬ P p → rtc (IN P) x y → rtc (AN p) x y.
Proof. intros Hp. apply rtc_subrel. intros ? ? (? & ? & ?). split_and!; [done|by intros ->..]. Qed.
Lemma inside_AE (P : nat → Prop) a b x y : ¬ P a ∨ ¬ P b → rtc (IN P) x y → rtc (AE a b) x y.
Proof. intros Hp. apply rtc_subrel. intros ? ? (? & ? & ?). split_and!; [done|naive_solver..]. Qed.

(** A set closed under a relation keeps a path in. *)
Lemma rtc_closed (R : nat → nat → Prop) (P : nat → Prop) x y : (∀ a b, P a → R a b → P b) → P x → rtc R x y → P y.
Proof. intros HP Hx Hr. induction Hr as [|x y z Hxy _ IH]; [done|]. by eapply IH, HP. Qed.

(** * States of one search *)
Section run.
Context (start : nat) (V0 : gset nat) (HV0 : ∀ x w, x ∈ V0 → A x w → w ∈ V0) (Hstart : start ∉ V0).

Notation vis := df_visited.
Definition disc (st : CutSearch) (x : nat) : nat := default 0 (df_disc st !! x).
Definition low (st : CutSearch) (x : nat) : nat := default 0 (df_low st !! x).
Definition running (st : CutSearch) (x : nat) : Prop := x ∈ vis st ∧ x ∉ V0.
Definition on_stack (fs : list Frame) (x : nat) : Prop := x ∈ fs.*1.*1.

#[local] Instance on_stack_dec fs x : Decision (on_stack fs x).
Proof. unfold on_stack. apply _. Defined.

(** The stack is a tree path up to the start; frames below the top have passed a
    neighbour. *)
Fixpoint stack_chain (d : nat → nat) (fs : list Frame) : Prop :=
  match fs with
  | [] => True
  | (v, None, _) :: rest => v = start ∧ rest = []
  | (v, Some p, _) :: rest => A p v ∧ d p < d v ∧ (∃ q j rest', rest = (p, q, S j) :: rest') ∧ stack_chain d rest
  end.

(** [y] is the last node of the stack discovered before [x]. *)
Definition hangs (st : CutSearch) (y x : nat) : Prop :=
  disc st y < disc st x ∧ ∀ z, on_stack (df_stack st) z → disc st z < disc st x → disc st z ≤ disc st y.

Definition done_ (st : CutSearch) (x : nat) : Prop := running st x ∧ ¬ on_stack (df_stack st) x.

(** Marks and times. *)
Record times_ok (T0 : nat) (st : CutSearch) : Prop := {
  t_old : V0 ⊆ vis st;
  t_disc : ∀ x, x ∈ vis st ↔ is_Some (df_disc st !! x);
  t_low : ∀ x, x ∈ vis st ↔ is_Some (df_low st !! x);
  t_inj : ∀ x y, x ∈ vis st → y ∈ vis st → disc st x = disc st y → x = y;
  t_max : ∀ x, x ∈ vis st → disc st x ≤ df_timer st;
  t_new : ∀ x, x ∈ V0 → disc st x ≤ T0;
  t_run : ∀ x, running st x → T0 < disc st x;
  t_timer : T0 ≤ df_timer st;
}.

(** Done nodes and their neighbours; the tree is connected. *)
Record search_tree_ok (st : CutSearch) : Prop := {
  r_chain : stack_chain (disc st) (df_stack st);
  r_stack : ∀ x, on_stack (df_stack st) x → running st x;
  r_start : running st start;
  r_closed : ∀ x w, done_ st x → A x w → w ∈ vis st;
  r_before : ∀ x y w, done_ st x → on_stack (df_stack st) y → disc st x < disc st y → A x w → disc st w < disc st y;
  r_sub : ∀ x y, on_stack (df_stack st) y → running st x → disc st y ≤ disc st x →
    rtc (IN (λ z, running st z ∧ disc st y ≤ disc st z)) y x;
  r_pre : ∀ x, running st x → rtc (IN (λ z, running st z ∧ disc st z ≤ disc st x)) start x;
}.

(** What the low values say. *)
Record low_ok (adj : AdjList) (st : CutSearch) : Prop := {
  l_proc : ∀ v par idx j l w, (v, par, idx) ∈ df_stack st → adj !! v = Some l → j < idx → l !! j = Some w →
    w ∈ vis st ∧ (par ≠ Some w → low st v ≤ disc st w);
  l_edge : ∀ v par idx, (v, par, idx) ∈ df_stack st → low st v ≤ disc st v ∧
    (low st v < disc st v → ∃ x w, running st x ∧ disc st v ≤ disc st x ∧ A x w ∧ w ∈ vis st ∧
       disc st w = low st v ∧ ¬ (x = v ∧ par = Some w));
  l_all : ∀ y x w, on_stack (df_stack st) y → done_ st x → hangs st y x → A x w → low st y ≤ disc st w;
}.

(** What has been reported. *)
Record out_ok (st : CutSearch) : Prop := {
  o_bridge : ∀ a b, b ∈ vis st → ¬ on_stack (df_stack st) b → A a b → disc st a < disc st b →
    canonical_pair a b ∈ bridges (df_out st) ↔ bridge A a b;
  o_bridges : ∀ e, e ∈ bridges (df_out st) →
    ∃ a b, e = canonical_pair a b ∧ A a b ∧ disc st a < disc st b ∧ b ∈ vis st ∧ ¬ on_stack (df_stack st) b;
  o_NoDup : NoDup (bridges (df_out st));
  o_cut : ∀ p, p ∈ articulation_points (df_out st) → cut_vertex A p;
  o_old : ∀ p, p ∈ V0 → cut_vertex A p → p ∈ articulation_points (df_out st);
  o_done : ∀ p x, done_ st p → p ≠ start → p ∉ articulation_points (df_out st) → running st x → x ≠ p →
    rtc (AN p) start x;
  o_stack : ∀ y x, on_stack (df_stack st) y → y ≠ start → y ∉ articulation_points (df_out st) → done_ st x →
    hangs st y x → ∃ w, running st w ∧ disc st w < disc st y ∧ rtc (AN y) x w;
  o_root : match df_root_children st with
           | 0 => ∀ x, running st x → x = start
           | 1 => ∃ c, c ≠ start ∧ running st c ∧ ∀ x, running st x → x ≠ start → rtc (AN start) c x
           | _ => cut_vertex A start
           end;
}.

(** * Consequences *)
Lemma on_stack_cons v par idx rest x : on_stack ((v, par, idx) :: rest) x ↔ x = v ∨ on_stack rest x.
Proof. unfold on_stack. simpl. by rewrite elem_of_cons. Qed.

Lemma on_stack_frame fs x : on_stack fs x ↔ ∃ par idx, (x, par, idx) ∈ fs.
Proof.
  unfold on_stack. rewrite list_elem_of_fmap. split.
  - intros ([y par] & -> & Hy). apply list_elem_of_fmap in Hy as ([[y' par'] idx] & [= -> ->] & Hy). eauto.
  - intros (par & idx & Hx). exists (x, par). split; [done|]. apply list_elem_of_fmap. by exists (x, par, idx).
Qed.

(** Down the stack times decrease. *)
Lemma chain_top d v par idx rest : stack_chain d ((v, par, idx) :: rest) → ∀ z, on_stack rest z →
  d z < d v ∧ ∃ p, par = Some p ∧ d z ≤ d p.
Proof.
  revert v par idx. induction rest as [|[[u q] j] rest IH]; intros v par idx Hc z Hz; [by apply not_elem_of_nil in Hz|].
  destruct par as [p|]; [|by destruct Hc]. destruct Hc as (_ & Hd & (q' & j' & rest' & [= -> -> -> ->]) & Hc).
  apply on_stack_cons in Hz as [->|Hz]; [split; [done|by exists p]|].
  destruct (IH _ _ _ Hc z Hz) as [H1 _]. split; [lia|]. exists p. split; [done|lia].
Qed.

Lemma chain_pop d v par idx rest : stack_chain d ((v, par, idx) :: rest) → stack_chain d rest.
Proof. destruct par as [p|]; simpl; [tauto|]. by intros [_ ->]. Qed.

Lemma chain_parent d v p idx rest : stack_chain d ((v, Some p, idx) :: rest) → on_stack rest p ∧ A p v ∧ d p < d v.
Proof. intros (HA & Hd & (q & j & rest' & ->) & _). split; [by apply on_stack_cons; left|done]. Qed.

Lemma start_first T0 st x : times_ok T0 st → search_tree_ok st → running st x → disc st start ≤ disc st x.
Proof.
  intros Ht Hr Hx. pose proof (r_pre st Hr x Hx) as Hp. apply rtc_inv in Hp as [->|(y & (_ & [_ H] & _) & _)]; [done|exact H].
Qed.

(** Nodes discovered before [v] are joined by nodes discovered before [v]. *)
Lemma earlier_joined st x y m : search_tree_ok st → running st x → running st y → disc st x < m → disc st y < m →
  rtc (IN (λ z, running st z ∧ disc st z < m)) x y.
Proof.
  intros Hr Hx Hy Hxm Hym. assert (H : ∀ u, running st u → disc st u < m → rtc (IN (λ z, running st z ∧ disc st z < m)) start u).
  { intros u Hu Hum. eapply inside_weaken; [|by apply (r_pre st Hr u Hu)]. simpl. intros z [? ?]. split; [done|lia]. }
  etrans; [|by apply H]. apply (rtc_sym _ _ _ (IN_sym _)). by apply H.
Qed.

Record Inv (adj : AdjList) (T0 : nat) (st : CutSearch) : Prop := {
  i_times : times_ok T0 st; i_tree : search_tree_ok st; i_low : low_ok adj st; i_out : out_ok st;
}.

Lemma disc_lookup T0 st x : times_ok T0 st → x ∈ vis st → df_disc st !! x = Some (disc st x).
Proof. intros Ht [d Hd]%(t_disc T0 st Ht). unfold disc. by rewrite Hd. Qed.
Lemma low_lookup T0 st x : times_ok T0 st → x ∈ vis st → df_low st !! x = Some (low st x).
Proof. intros Ht [d Hd]%(t_low T0 st Ht). unfold low. by rewrite Hd. Qed.

(** * A neighbour that was visited before *)
Section advance.
Context (adj : AdjList) (T0 : nat) (st : CutSearch) (v : nat) (par : option nat) (idx : nat) (rest : list Frame).
Context (HI : Inv adj T0 st) (Hst : df_stack st = (v, par, idx) :: rest).

Lemma top_running : running st v.
Proof. apply (r_stack st (i_tree _ _ _ HI)). rewrite Hst. apply on_stack_cons. by left. Qed.

Lemma advance_ok l w lo' : adj !! v = Some l → l !! idx = Some w → w ∈ vis st → lo' ≤ low st v →
  (lo' = low st v ∨ A v w ∧ par ≠ Some w ∧ lo' = disc st w) → (par ≠ Some w → lo' ≤ disc st w) →
  Inv adj T0 (with_low (<[v := lo']> (df_low st)) (with_stack ((v, par, S idx) :: rest) st)).
Proof.
  intros Hl Hw Hwv Hle Hcase Hproc. pose proof top_running as Hv. destruct HI as [Ht Hr Hlo Ho].
  set (st' := with_low _ _).
  assert (Hon : ∀ z, on_stack (df_stack st') z ↔ on_stack (df_stack st) z).
  { intros z. unfold st'. rewrite Hst. simpl. by rewrite !on_stack_cons. }
  assert (Hdone : ∀ x, done_ st' x ↔ done_ st x) by (intros x; unfold done_; by rewrite Hon).
  assert (Hhangs : ∀ y x, hangs st' y x → hangs st y x).
  { intros y x [H1 H2]. split; [done|]. intros z Hz. apply H2. by apply Hon. }
  assert (Hlow : ∀ x, low st' x ≤ low st x ∧ (x ≠ v → low st' x = low st x)).
  { intros x. unfold low at 1 3, st'. simpl. rewrite lookup_insert. case_decide; [subst; split; [done|done]|done]. }
  assert (Hlv : low st' v = lo') by (unfold low, st'; simpl; by rewrite lookup_insert_eq).
  split.
  - destruct Ht as [H1 H2 H3 H4 H5 H6 H7 H8]. split; try done. intros x. unfold st'. simpl. rewrite lookup_insert_is_Some, H3.
    split; [destruct (decide (v = x)); auto|]. intros [<-|[_ ?]]; [apply H3, Hv|done].
  - destruct Hr as [H1 H2 H3 H4 H5 H6 H7]. split; try done.
    + rewrite Hst in H1. unfold st'. cbn [df_stack with_low with_stack]. destruct par as [p|]; exact H1.
    + intros x Hx. by apply H2, Hon.
    + intros x w' Hx. by apply H4, Hdone.
    + intros x y w' Hx Hy. by apply H5; [apply Hdone|apply Hon].
    + intros x y Hy. by apply H6, Hon.
  - destruct Hlo as [H1 H2 H3]. split.
    + intros u q i j l' w' Hu Hl' Hj Hw'. unfold st' in Hu. cbn [df_stack with_low with_stack] in Hu.
      apply elem_of_cons in Hu as [[= -> -> ->]|Hu].
      * rewrite Hl' in Hl. injection Hl as ->. destruct (decide (j = idx)) as [->|Hne].
        { rewrite Hw' in Hw. injection Hw as ->. split; [done|]. intros Hp. rewrite Hlv. by apply Hproc. }
        destruct (H1 v par idx j l w') as [? Hx]; [rewrite Hst; by left|done|lia|done|]. split; [done|].
        intros Hp. rewrite Hlv. etrans; [exact Hle|by apply Hx].
      * destruct (H1 u q i j l' w') as [? Hx]; [rewrite Hst; by right|done..|]. split; [done|].
        intros Hp. etrans; [apply Hlow|by apply Hx].
    + intros u q i Hu. unfold st' in Hu. cbn [df_stack with_low with_stack] in Hu.
      apply elem_of_cons in Hu as [[= -> -> ->]|Hu].
      * destruct (H2 v par idx) as [Hd He]; [rewrite Hst; by left|]. rewrite Hlv. split; [change (disc st' v) with (disc st v); lia|].
        change (disc st' v) with (disc st v). intros Hlt. destruct Hcase as [->|(HA & Hp & ->)]; [by apply He|].
        exists v, w. split_and!; [done|done|done|done|done|]. by intros [_ ?].
      * destruct (H2 u q i) as [Hd He]; [rewrite Hst; by right|]. assert (Hne : u ≠ v).
        { intros ->. pose proof (r_chain st Hr) as Hc. rewrite Hst in Hc.
          destruct (chain_top _ _ _ _ _ Hc v) as [? _]; [apply on_stack_frame; eauto|lia]. }
        destruct (Hlow u) as [_ ->]; [|done]. by split.
    + intros y x w' Hy Hx Hh Hxw. etrans; [apply Hlow|]. apply (H3 y x w'); [by apply Hon|by apply Hdone|by apply Hhangs|done].
  - destruct Ho as [H1 H2 H3 H4 H5 H6 H7 H8]. split; try done.
    + intros a b Hb Hn. apply H1; [done|]. by rewrite <- Hon.
    + intros e (a & b & ? & ? & ? & ? & Hn)%H2. exists a, b. split_and!; try done. by rewrite Hon.
    + intros p x Hp. apply H6, Hdone, Hp.
    + intros y x Hy Hys Hya Hx Hh. apply H7; [by apply Hon|done|done|by apply Hdone|by apply Hhangs].
Qed.

(** * A neighbour that is new *)
Section push.
Context (l : list nat) (w : nat) (Hl : adj !! v = Some l) (Hw : l !! idx = Some w) (Hnew : w ∉ vis st) (HA : A v w).

Let T := S (df_timer st).
Definition pushed : CutSearch :=
  mkCutSearch ((w, Some v, 0) :: (v, par, S idx) :: rest) ({[w]} ∪ vis st) (<[w := T]> (df_disc st)) (<[w := T]> (df_low st))
    T (df_out st) (if decide (par = None) then S (df_root_children st) else df_root_children st).

Lemma pushed_old x : x ∈ vis st → disc pushed x = disc st x ∧ low pushed x = low st x ∧ disc st x < T.
Proof.
  intros Hx. assert (w ≠ x) by (by intros ->). unfold disc at 1, low at 1, pushed. simpl. rewrite !lookup_insert_ne by done.
  split_and!; [done|done|]. pose proof (t_max _ _ (i_times _ _ _ HI) x Hx). unfold T. lia.
Qed.

Lemma pushed_new : disc pushed w = T ∧ low pushed w = T.
Proof. unfold disc, low, pushed. simpl. by rewrite !lookup_insert_eq. Qed.

Lemma new_not_old : w ∉ V0.
Proof. intros Hw0. apply Hnew. by apply (t_old _ _ (i_times _ _ _ HI)). Qed.

Lemma pushed_running x : running pushed x ↔ running st x ∨ x = w.
Proof.
  unfold running, pushed. cbn [vis]. rewrite elem_of_union, elem_of_singleton. pose proof new_not_old.
  split; [intros [[->|?] ?]; [by right|by left]|intros [[? ?]| ->]; [split; [by right|done]|split; [by left|done]]].
Qed.

Lemma pushed_stack z : on_stack (df_stack pushed) z ↔ z = w ∨ on_stack (df_stack st) z.
Proof. unfold pushed. cbn [df_stack]. rewrite Hst. by rewrite !on_stack_cons. Qed.

Lemma pushed_done x : done_ pushed x ↔ done_ st x.
Proof.
  unfold done_. rewrite pushed_stack, pushed_running. split.
  - intros [[Hr|Hr] Hn]; [split; [done|tauto]|subst; tauto].
  - intros [Hr Hn]. split; [by left|]. intros [->|?]; [|done]. by destruct Hr.
Qed.

(** The new node is discovered last. *)
Lemma pushed_times : times_ok T0 pushed.
Proof.
  destruct (i_times _ _ _ HI) as [H1 H2 H3 H4 H5 H6 H7 H8]. destruct pushed_new as [Hd _]. split.
  - unfold pushed. cbn [vis]. set_solver.
  - intros x. unfold pushed. cbn [vis df_disc]. rewrite elem_of_union, elem_of_singleton, lookup_insert_is_Some, <- H2.
    destruct (decide (w = x)) as [->|]; naive_solver.
  - intros x. unfold pushed. cbn [vis df_low]. rewrite elem_of_union, elem_of_singleton, lookup_insert_is_Some, <- H3.
    destruct (decide (w = x)) as [->|]; naive_solver.
  - intros x y Hx Hy. unfold pushed in Hx, Hy. cbn [vis] in Hx, Hy. rewrite elem_of_union, elem_of_singleton in Hx, Hy.
    destruct Hx as [->|Hx], Hy as [->|Hy]; [done|..]; rewrite ?Hd.
    + destruct (pushed_old y Hy) as (-> & _ & ?). lia.
    + destruct (pushed_old x Hx) as (-> & _ & ?). lia.
    + destruct (pushed_old x Hx) as (-> & _), (pushed_old y Hy) as (-> & _). by apply H4.
  - intros x Hx. unfold pushed in Hx. cbn [vis] in Hx. rewrite elem_of_union, elem_of_singleton in Hx.
    destruct Hx as [->|Hx]; [by rewrite Hd|]. destruct (pushed_old x Hx) as (-> & _ & ?). cbn [df_timer pushed]. lia.
  - intros x Hx. destruct (pushed_old x (H1 x Hx)) as (-> & _). by apply H6.
  - intros x [Hx| ->]%pushed_running; [destruct (pushed_old x (proj1 Hx)) as (-> & _); by apply H7|].
    rewrite Hd. unfold T. lia.
  - cbn [df_timer pushed]. unfold T. lia.
Qed.

Lemma pushed_chain d d' fs : (∀ x, on_stack fs x → d' x = d x) → stack_chain d fs → stack_chain d' fs.
Proof.
  induction fs as [|[[u [p|]] i] fs IH]; intros Hd Hc; [done| |done].
  pose proof (chain_parent _ _ _ _ _ Hc) as (Hp & _). destruct Hc as (H1 & H2 & H3 & H4).
  split_and!; [done| |done|apply IH; [|done]].
  - rewrite !Hd; [done|by apply on_stack_cons; left|by apply on_stack_cons; right].
  - intros x Hx. apply Hd. apply on_stack_cons. by right.
Qed.

Lemma pushed_tree : search_tree_ok pushed.
Proof.
  pose proof top_running as Hv. destruct (i_tree _ _ _ HI) as [H1 H2 H3 H4 H5 H6 H7]. destruct pushed_new as [Hd _].
  destruct (pushed_old v (proj1 Hv)) as (Hdv & _ & HvT).
  assert (Htop : ∀ y, on_stack (df_stack st) y → disc st y ≤ disc st v).
  { intros y Hy. rewrite Hst in Hy. apply on_stack_cons in Hy as [->|Hy]; [done|]. rewrite Hst in H1.
    destruct (chain_top _ _ _ _ _ H1 y Hy) as [? _]. lia. }
  split.
  - change (stack_chain (disc pushed) ((w, Some v, 0) :: (v, par, S idx) :: rest)). split; [done|]. split; [rewrite Hdv, Hd; done|]. split; [by eexists _, _, _|].
    apply (pushed_chain (disc st)).
    + intros x Hx. rewrite on_stack_cons in Hx. assert (Hx' : on_stack (df_stack st) x) by (by rewrite Hst, on_stack_cons).
      by destruct (pushed_old x (proj1 (H2 x Hx'))).
    + rewrite Hst in H1. destruct par; exact H1.
  - intros x [->|Hx]%pushed_stack; apply pushed_running; [by right|left; by apply H2].
  - apply pushed_running. by left.
  - intros x z Hx%pushed_done Hxz. unfold pushed. cbn [vis]. apply elem_of_union. right. by apply (H4 x).
  - intros x y z Hx%pushed_done Hy Hxy Hxz. destruct (pushed_old z (H4 x z Hx Hxz)) as (-> & _ & ?).
    apply pushed_stack in Hy as [->|Hy]; [by rewrite Hd|]. destruct (pushed_old x (proj1 (proj1 Hx))) as (Ex & _).
    destruct (pushed_old y (proj1 (H2 y Hy))) as (Ey & _). rewrite Ex, Ey in *. by apply (H5 x y).
  - intros x y [->|Hy]%pushed_stack Hx Hxy.
    + apply pushed_running in Hx as [Hx| ->]; [|done]. destruct (pushed_old x (proj1 Hx)) as (Ex & _ & ?). lia.
    + destruct (pushed_old y (proj1 (H2 y Hy))) as (Ey & _). rewrite Ey in *.
      assert (Hold : ∀ u, running st u → disc st y ≤ disc st u →
        rtc (IN (λ z, running pushed z ∧ disc st y ≤ disc pushed z)) y u).
      { intros u Hu Hyu. eapply inside_weaken; [|by apply (H6 u y Hy Hu Hyu)]. simpl. intros z [Hz Hyz].
        destruct (pushed_old z (proj1 Hz)) as (-> & _). split; [apply pushed_running; by left|done]. }
      apply pushed_running in Hx as [Hx| ->].
      * destruct (pushed_old x (proj1 Hx)) as (Ex & _). rewrite Ex in Hxy. by apply Hold.
      * eapply rtc_r; [apply (Hold v); [done|by apply Htop]|]. split_and!; [done|apply pushed_running; by left| |apply pushed_running; by right|].
        { rewrite Hdv. by apply Htop. } { rewrite Hd. specialize (Htop y Hy). lia. }
  - assert (Hold : ∀ u m, running st u → disc st u ≤ m → rtc (IN (λ z, running pushed z ∧ disc pushed z ≤ m)) start u).
    { intros u m Hu Hum. eapply inside_weaken; [|by apply (H7 u Hu)]. simpl. intros z [Hz Hzu].
      destruct (pushed_old z (proj1 Hz)) as (-> & _). split; [apply pushed_running; by left|lia]. }
    intros x Hx. apply pushed_running in Hx as [Hx| ->].
    + destruct (pushed_old x (proj1 Hx)) as (-> & _). by apply Hold.
    + rewrite Hd. eapply rtc_r; [apply (Hold v); [done|lia]|].
      split_and!; [done|apply pushed_running; by left|lia|apply pushed_running; by right|lia].
Qed.

Lemma pushed_hangs y x : on_stack (df_stack st) y → running st x → hangs pushed y x → hangs st y x.
Proof.
  intros Hy Hx [H1 H2]. pose proof (r_stack _ (i_tree _ _ _ HI)) as Hs. unfold hangs.
  destruct (pushed_old y (proj1 (Hs y Hy))) as (Ey & _), (pushed_old x (proj1 Hx)) as (Ex & _). rewrite Ex, Ey in *.
  split; [done|]. intros z Hz Hzx. specialize (H2 z). destruct (pushed_old z (proj1 (Hs z Hz))) as (Ez & _). rewrite Ez in H2.
  apply H2; [|done]. apply pushed_stack. by right.
Qed.

Lemma pushed_hangs_new x : running st x → ¬ hangs pushed w x.
Proof.
  intros Hx [H1 _]. destruct pushed_new as [Hd _]. destruct (pushed_old x (proj1 Hx)) as (Ex & _ & ?). rewrite Ex, Hd in H1. lia.
Qed.

Lemma pushed_low : low_ok adj pushed.
Proof.
  destruct (i_low _ _ _ HI) as [H1 H2 H3]. destruct pushed_new as [Hd Hlw]. pose proof top_running as Hv.
  pose proof (r_stack _ (i_tree _ _ _ HI)) as Hs.
  assert (Hframe : ∀ u q i, (u, q, i) ∈ df_stack pushed →
    (u, q, i) = (w, Some v, 0) ∨ u ∈ vis st ∧ ∃ i', (u, q, i') ∈ df_stack st ∧ (i = i' ∨ u = v ∧ q = par ∧ i' = idx ∧ i = S idx)).
  { intros u q i Hu. unfold pushed in Hu. cbn [df_stack] in Hu. apply elem_of_cons in Hu as [E|[[= -> -> ->]|Hu]%elem_of_cons]; [by left|right..].
    - split; [apply Hv|]. exists idx. rewrite Hst. split; [by left|by right].
    - assert (Hu' : (u, q, i) ∈ df_stack st) by (rewrite Hst; by right). split; [|by exists i; split; [|left]].
      apply Hs. apply on_stack_frame. eauto. }
  split.
  - intros u q i j l' z Hu Hl' Hj Hz. apply Hframe in Hu as [[= -> -> ->]|(Hu & i' & Hi' & Hcase)]; [lia|].
    assert (Hold : j < i' → z ∈ vis pushed ∧ (q ≠ Some z → low pushed u ≤ disc pushed z)).
    { intros Hji. destruct (H1 u q i' j l' z Hi' Hl' Hji Hz) as [Hzv Hle]. destruct (pushed_old u Hu) as (_ & -> & _).
      destruct (pushed_old z Hzv) as (-> & _). split; [unfold pushed; cbn [vis]; set_solver|done]. }
    destruct Hcase as [->|(-> & -> & -> & ->)]; [by apply Hold|]. destruct (decide (j = idx)) as [->|]; [|apply Hold; lia].
    assert (l' = l) as -> by congruence. assert (z = w) as -> by congruence.
    split; [unfold pushed; cbn [vis]; set_solver|]. intros _. destruct (pushed_old v Hu) as (_ & -> & ?). rewrite Hd.
    destruct (H2 v par idx Hi') as [? _]. lia.
  - intros u q i Hu. apply Hframe in Hu as [[= -> -> ->]|(Hu & i' & Hi' & _)]; [rewrite Hd, Hlw; split; [done|lia]|].
    destruct (H2 u q i' Hi') as [Hle Hx]. destruct (pushed_old u Hu) as (-> & -> & _). split; [done|].
    intros Hlt. destruct (Hx Hlt) as (x & z & Hxr & Hux & Hxz & Hzv & Hz & Hno). exists x, z.
    destruct (pushed_old x (proj1 Hxr)) as (-> & _), (pushed_old z Hzv) as (-> & _).
    split_and!; [apply pushed_running; by left|done|done|unfold pushed; cbn [vis]; set_solver|done|done].
  - intros y x z [->|Hy]%pushed_stack Hx%pushed_done Hh Hxz; [by destruct (pushed_hangs_new x (proj1 Hx))|].
    destruct (pushed_old y (proj1 (Hs y Hy))) as (_ & -> & _).
    destruct (pushed_old z (r_closed _ (i_tree _ _ _ HI) x z Hx Hxz)) as (-> & _).
    apply (H3 y x z Hy Hx); [|done]. by apply pushed_hangs; [|apply Hx|].
Qed.

(** The start is left by a second child: what is done is cut off from it. *)
Lemma second_child_cuts c : par = None → c ≠ start → running st c → cut_vertex A start.
Proof.
  intros -> Hc Hcr. pose proof (i_tree _ _ _ HI) as Hr. pose proof (r_chain _ Hr) as Hch. rewrite Hst in Hch. destruct Hch as [-> Hrest].
  assert (Hdone : ∀ x, running st x → x ≠ start → done_ st x).
  { intros x Hx Hne. split; [done|]. rewrite Hst, Hrest. intros [?|?%not_elem_of_nil]%on_stack_cons; done. }
  exists c, w. split_and!; [done|by intros ->; apply Hnew, (r_start _ Hr)| |].
  - etrans; [apply (rtc_sym _ _ _ Hsym)|by apply rtc_once]. eapply inside_path, (r_pre _ Hr), Hcr.
  - intros Hp. apply (rtc_closed _ (λ x, running st x ∧ x ≠ start)) in Hp as [[? _] _]; [done| |done].
    intros a b [Ha Hne] (Hab & _ & Hb). split; [|done]. split; [by apply (r_closed _ Hr a b (Hdone a Ha Hne))|].
    intros Hb0. apply (proj2 Ha). by apply (HV0 b a Hb0), Hsym.
Qed.

Lemma pushed_out : out_ok pushed.
Proof.
  destruct (i_out _ _ _ HI) as [H1 H2 H3 H4 H5 H6 H7 H8]. pose proof top_running as Hv.
  pose proof (i_tree _ _ _ HI) as Hr. pose proof (i_times _ _ _ HI) as Ht.
  assert (Hn : ∀ x, x ∈ vis st → x ≠ w) by (by intros x Hx ->).
  assert (Hnb : ∀ a b, b ∈ vis st → ¬ on_stack (df_stack st) b → A a b → a ∈ vis st).
  { intros a b Hb Hon Hab. destruct (decide (b ∈ V0)) as [Hb0|Hb0].
    - apply (t_old _ _ Ht), (HV0 b a Hb0). by apply Hsym.
    - apply (r_closed _ Hr b a); [|by apply Hsym]. by split. }
  split.
  - intros a b Hb Hon Hab. rewrite pushed_stack in Hon. unfold pushed in Hb. cbn [vis] in Hb.
    assert (Hb' : b ∈ vis st) by set_solver. assert (Hon' : ¬ on_stack (df_stack st) b) by tauto.
    pose proof (Hnb a b Hb' Hon' Hab) as Ha. destruct (pushed_old a Ha) as (-> & _), (pushed_old b Hb') as (-> & _). by apply H1.
  - intros e (a & b & -> & Hab & Hlt & Hb & Hon)%H2. exists a, b. pose proof (Hnb a b Hb Hon Hab) as Ha.
    destruct (pushed_old a Ha) as (-> & _), (pushed_old b Hb) as (-> & _). split_and!; try done.
    + unfold pushed. cbn [vis]. set_solver.
    + rewrite pushed_stack. intros [->|?]; [by apply (Hn w)|done].
  - done.
  - done.
  - done.
  - intros p x Hp%pushed_done Hps Hpa Hx Hxp. change (articulation_points (df_out pushed)) with (articulation_points (df_out st)) in Hpa.
    apply pushed_running in Hx as [Hx| ->]; [by apply H6|].
    assert (Hvp : v ≠ p) by (intros ->; apply (proj2 Hp); rewrite Hst; apply on_stack_cons; by left).
    eapply rtc_r; [by apply (H6 p v)|]. by split_and!.
  - intros y x [->|Hy]%pushed_stack Hys Hya Hx%pushed_done Hh; [by destruct (pushed_hangs_new x (proj1 Hx))|].
    destruct (H7 y x Hy Hys Hya Hx) as (z & Hz & Hzy & Hp); [by apply pushed_hangs; [|apply Hx|]|].
    exists z. destruct (pushed_old z (proj1 Hz)) as (-> & _), (pushed_old y (proj1 (r_stack _ Hr y Hy))) as (-> & _).
    split_and!; [apply pushed_running; by left|done|done].
  - unfold pushed. cbn [df_root_children]. destruct (decide (par = None)) as [Hp|Hp].
    + assert (Hvs : v = start) by (pose proof (r_chain _ Hr) as Hc; rewrite Hst, Hp in Hc; by destruct Hc).
      destruct (df_root_children st) as [|[|n]].
      * exists w. split_and!; [by intros ->; apply Hnew, (r_start _ Hr)|apply pushed_running; by right|].
        intros x [Hx| ->]%pushed_running Hne; [by apply H8 in Hx|done].
      * destruct H8 as (c & Hc & Hcr & _). by apply (second_child_cuts c).
      * done.
    + destruct par as [p|]; [|done]. pose proof (r_chain _ Hr) as Hc. rewrite Hst in Hc.
      destruct (chain_parent _ _ _ _ _ Hc) as (Hpo & _ & Hpv).
      assert (Hvs : v ≠ start).
      { intros ->. assert (Hp' : running st p) by (apply (r_stack _ Hr); rewrite Hst; apply on_stack_cons; by right).
        pose proof (start_first _ _ _ Ht Hr Hp'). lia. }
      destruct (df_root_children st) as [|[|n]]; [|destruct H8 as (c & Hc1 & Hc2 & H8)|done].
      * by apply H8 in Hv.
      * exists c. split_and!; [done|apply pushed_running; by left|]. intros x [Hx| ->]%pushed_running Hne; [by apply H8|].
        eapply rtc_r; [by apply (H8 v)|]. by split_and!.
Qed.

Lemma pushed_ok : Inv adj T0 pushed.
Proof. split; [apply pushed_times|apply pushed_tree|apply pushed_low|apply pushed_out]. Qed.
End push.

(** * The last neighbour of the top is passed *)
Section pop.
Context (l : list nat) (Hl : adj !! v = Some l) (Hnbrs : ∀ w, A v w → w ∈ l) (Hend : l !! idx = None).

Lemma pop_done x : running st x → disc st v ≤ disc st x → x = v ∨ done_ st x ∧ hangs st v x.
Proof.
  intros Hx Hvx. destruct (decide (x = v)) as [|Hne]; [by left|right]. pose proof top_running as Hv.
  pose proof (r_chain _ (i_tree _ _ _ HI)) as Hc. rewrite Hst in Hc.
  assert (Hlt : disc st v < disc st x).
  { destruct (decide (disc st v = disc st x)) as [E|]; [|lia]. apply (t_inj _ _ (i_times _ _ _ HI)) in E; [by subst|apply Hv|apply Hx]. }
  assert (Hbelow : ∀ z, on_stack (df_stack st) z → disc st z ≤ disc st v).
  { intros z Hz. rewrite Hst in Hz. apply on_stack_cons in Hz as [->|Hz]; [done|].
    destruct (chain_top _ _ _ _ _ Hc z Hz) as [? _]. lia. }
  split; [split; [done|]|split; [done|by intros z Hz _; apply Hbelow]]. intros Hon%Hbelow. lia.
Qed.

Lemma pop_nbr x w : running st x → disc st v ≤ disc st x → A x w →
  w ∈ vis st ∧ (low st v ≤ disc st w ∨ x = v ∧ par = Some w).
Proof.
  intros Hx Hvx Hxw. destruct (pop_done x Hx Hvx) as [->|[Hd Hh]].
  - apply Hnbrs, list_elem_of_lookup in Hxw as (j & Hj).
    destruct (l_proc _ _ (i_low _ _ _ HI) v par idx j l w) as [Hw Hle]; [rewrite Hst; by left|done| |done|].
    { apply lookup_lt_Some in Hj. apply lookup_ge_None in Hend. lia. }
    split; [done|]. destruct (decide (par = Some w)); [by right|left; auto].
  - split; [by apply (r_closed _ (i_tree _ _ _ HI) x)|]. left. apply (l_all _ _ (i_low _ _ _ HI) v x w); [|done..].
    rewrite Hst. apply on_stack_cons. by left.
Qed.

(** An edge out of the subtree of [v] leads to the stack. *)
Lemma pop_cross x w : running st x → disc st v ≤ disc st x → A x w → disc st w < disc st v →
  running st w ∧ on_stack rest w.
Proof.
  intros Hx Hvx Hxw Hwv. destruct (pop_nbr x w Hx Hvx Hxw) as [Hw _].
  assert (Hwr : running st w) by (split; [done|]; intros Hw0; apply (proj2 Hx), (HV0 w x Hw0); by apply Hsym).
  split; [done|]. assert (Hv : on_stack (df_stack st) v) by (rewrite Hst; apply on_stack_cons; by left).
  destruct (decide (on_stack (df_stack st) w)) as [Hon|Hon].
  - rewrite Hst in Hon. apply on_stack_cons in Hon as [->|]; [lia|done].
  - pose proof (r_before _ (i_tree _ _ _ HI) w v x (conj Hwr Hon) Hv Hwv (Hsym _ _ Hxw)). lia.
Qed.

Lemma pop_inside x : running st x → disc st v ≤ disc st x → rtc (IN (λ z, running st z ∧ disc st v ≤ disc st z)) v x.
Proof. intros Hx Hvx. apply (r_sub _ (i_tree _ _ _ HI) x v); [|done..]. rewrite Hst. apply on_stack_cons. by left. Qed.

Section child.
Context (p : nat) (Hpar : par = Some p).

Lemma pop_parent : on_stack rest p ∧ running st p ∧ A p v ∧ disc st p < disc st v ∧
  ∀ z, on_stack rest z → disc st z ≤ disc st p.
Proof.
  pose proof (r_chain _ (i_tree _ _ _ HI)) as Hc. rewrite Hst, Hpar in Hc. destruct (chain_parent _ _ _ _ _ Hc) as (H1 & H2 & H3).
  split_and!; [done| |done|done|].
  - apply (r_stack _ (i_tree _ _ _ HI)). rewrite Hst. apply on_stack_cons. by right.
  - intros z Hz. destruct (chain_top _ _ _ _ _ Hc z Hz) as (_ & q & [= <-] & ?). done.
Qed.

Lemma pop_not_start : v ≠ start.
Proof.
  destruct pop_parent as (_ & Hp & _ & Hlt & _). intros ->.
  pose proof (start_first _ _ _ (i_times _ _ _ HI) (i_tree _ _ _ HI) Hp). lia.
Qed.

(** The edge to the parent is the only way out. *)
Lemma pop_alone x w : disc st p < low st v → running st x → disc st v ≤ disc st x → A x w → disc st w < disc st v →
  x = v ∧ w = p.
Proof.
  intros Hlow Hx Hvx Hxw Hwv. destruct (pop_cross x w Hx Hvx Hxw Hwv) as [_ Hon].
  destruct pop_parent as (_ & _ & _ & _ & Hmax). specialize (Hmax w Hon).
  destruct (pop_nbr x w Hx Hvx Hxw) as [_ [?|[-> E]]]; [lia|]. split; congruence.
Qed.

(** The ways out lead to the parent. *)
Lemma pop_to_parent x w : disc st p ≤ low st v → running st x → disc st v ≤ disc st x → A x w → disc st w < disc st v →
  w = p.
Proof.
  intros Hlow Hx Hvx Hxw Hwv. destruct (pop_cross x w Hx Hvx Hxw Hwv) as [Hwr Hon].
  destruct pop_parent as (_ & Hp & _ & _ & Hmax). specialize (Hmax w Hon).
  destruct (pop_nbr x w Hx Hvx Hxw) as [_ [?|[-> E]]]; [|congruence].
  apply (t_inj _ _ (i_times _ _ _ HI)); [apply Hwr|apply Hp|lia].
Qed.

(** There is another way out. *)
Lemma pop_escape : low st v ≤ disc st p → ∃ x w, running st x ∧ disc st v ≤ disc st x ∧ A x w ∧ running st w ∧
  disc st w = low st v ∧ ¬ (x = v ∧ w = p).
Proof.
  intros Hle. destruct pop_parent as (_ & _ & _ & Hlt & _).
  destruct (l_edge _ _ (i_low _ _ _ HI) v par idx) as [_ He]; [rewrite Hst; by left|].
  destruct He as (x & w & Hx & Hvx & Hxw & Hw & Hd & Hno); [lia|]. exists x, w.
  destruct (pop_cross x w Hx Hvx Hxw) as [Hwr _]; [lia|]. split_and!; try done. intros [-> ->]. by apply Hno.
Qed.

Lemma pop_bridge_iff : disc st p < low st v ↔ bridge A p v.
Proof.
  destruct pop_parent as (_ & Hp & Hpv & Hlt & _). pose proof top_running as Hv. split.
  - intros Hlow. split; [done|]. intros Hpath. apply (rtc_sym _ _ _ (AE_sym p v)) in Hpath.
    apply (rtc_closed _ (λ x, running st x ∧ disc st v ≤ disc st x)) in Hpath as [_ ?]; [lia| |by split].
    intros a b [Ha Hva] (Hab & Hn1 & Hn2). destruct (pop_nbr a b Ha Hva Hab) as [Hb _].
    assert (Hbr : running st b) by (split; [done|]; intros Hb0; apply (proj2 Ha), (HV0 b a Hb0); by apply Hsym).
    split; [done|]. apply Nat.nlt_ge. intros Hbv. destruct (pop_alone a b Hlow Ha Hva Hab Hbv) as [-> ->]. by apply Hn2.
  - intros [_ Hno]. apply Nat.nle_gt. intros Hle. apply Hno.
    destruct (pop_escape Hle) as (x & w & Hx & Hvx & Hxw & Hw & Hd & Hne).
    etrans; [apply (inside_AE (λ z, running st z ∧ disc st z < disc st v)); [right; intros [_ ?]; lia|];
      apply (earlier_joined st p w (disc st v) (i_tree _ _ _ HI)); [done|done|lia|lia]|].
    eapply rtc_l; [split_and!; [by apply Hsym|intros [-> ->]; by apply Hne|intros [-> ?]; lia]|].
    apply (inside_AE (λ z, running st z ∧ disc st v ≤ disc st z)); [left; intros [_ ?]; lia|].
    apply (rtc_sym _ _ _ (IN_sym _)). by apply pop_inside.
Qed.

(** Another neighbour discovered before [v] is joined to it without their edge. *)
Lemma pop_other_not_bridge a : A a v → disc st a < disc st v → a ≠ p → ¬ bridge A a v.
Proof.
  intros Hav Hlt Hne [_ Hno]. apply Hno. destruct pop_parent as (_ & Hp & Hpv & Hplt & _).
  destruct (pop_cross v a top_running (le_n _) (Hsym _ _ Hav) Hlt) as [Har _].
  eapply rtc_r; [apply (inside_AE (λ z, running st z ∧ disc st z < disc st v)); [right; intros [_ ?]; lia|];
    apply (earlier_joined st a p (disc st v) (i_tree _ _ _ HI)); done|].
  split_and!; [done|intros [? _]; congruence|intros [-> ?]; lia].
Qed.

Lemma pop_cut : p ≠ start → disc st p ≤ low st v → cut_vertex A p.
Proof.
  intros Hps Hlow. destruct pop_parent as (_ & Hp & Hpv & Hplt & _). pose proof top_running as Hv.
  exists v, start. split_and!; [intros ->; lia|congruence| |].
  - apply (rtc_sym _ _ _ Hsym). eapply inside_path, (r_pre _ (i_tree _ _ _ HI)), Hv.
  - intros Hpath. pose proof (start_first _ _ _ (i_times _ _ _ HI) (i_tree _ _ _ HI) Hp).
    apply (rtc_closed _ (λ x, running st x ∧ disc st v ≤ disc st x)) in Hpath as [_ ?]; [lia| |by split].
    intros a b [Ha Hva] (Hab & Hn1 & Hn2). destruct (pop_nbr a b Ha Hva Hab) as [Hb _].
    assert (Hbr : running st b) by (split; [done|]; intros Hb0; apply (proj2 Ha), (HV0 b a Hb0); by apply Hsym).
    split; [done|]. apply Nat.nlt_ge. intros Hbv. by apply Hn2, (pop_to_parent a b).
Qed.

(** Without [p], the subtree of [v] still reaches a node before [p]. *)
Lemma pop_around x : low st v < disc st p → running st x → disc st v ≤ disc st x →
  ∃ w, running st w ∧ disc st w < disc st p ∧ rtc (AN p) x w.
Proof.
  intros Hlow Hx Hvx. destruct pop_parent as (_ & Hp & Hpv & Hplt & _).
  destruct pop_escape as (y & w & Hy & Hvy & Hyw & Hw & Hd & _); [lia|]. exists w. split_and!; [done|lia|].
  assert (Hin : ∀ z, running st z → disc st v ≤ disc st z → rtc (AN p) v z).
  { intros z Hz Hvz. apply (inside_AN (λ z, running st z ∧ disc st v ≤ disc st z)); [intros [_ ?]; lia|]. by apply pop_inside. }
  etrans; [apply (rtc_sym _ _ _ (AN_sym p)); by apply Hin|]. eapply rtc_r; [by apply (Hin y)|].
  split_and!; [done|intros ->; lia|intros ->; lia].
Qed.

Definition popped : CutSearch :=
  let out := df_out st in
  with_out (mkCut
      (if decide (p ≠ start ∧ disc st p ≤ low st v) then {[p]} ∪ articulation_points out else articulation_points out)
      (if decide (disc st p < low st v) then bridges out ++ [canonical_pair p v] else bridges out))
    (with_low (<[p := low st p `min` low st v]> (df_low st)) (with_stack rest st)).

Lemma popped_stack z : on_stack (df_stack st) z ↔ z = v ∨ on_stack rest z.
Proof. rewrite Hst. apply on_stack_cons. Qed.

Lemma top_not_below : ¬ on_stack rest v.
Proof. intros H. destruct pop_parent as (_ & _ & _ & ? & Hmax). specialize (Hmax v H). lia. Qed.

Lemma popped_done x : done_ popped x ↔ done_ st x ∨ x = v.
Proof.
  unfold done_. change (df_stack popped) with rest. change (running popped x) with (running st x). rewrite popped_stack.
  pose proof top_not_below. pose proof top_running. destruct (decide (x = v)) as [->|]; tauto.
Qed.

Lemma popped_low x : low popped x ≤ low st x ∧ (x ≠ p → low popped x = low st x).
Proof.
  unfold low at 1 3, popped. cbn [df_low with_out with_low]. rewrite lookup_insert. case_decide; [subst; cbn [default]|done].
  split; [simpl; lia|done].
Qed.

Lemma popped_low_p : low popped p = low st p `min` low st v.
Proof. unfold low at 1, popped. cbn [df_low with_out with_low]. by rewrite lookup_insert_eq. Qed.

(** What hangs off the shorter stack: the subtree of [v] hangs off [p]. *)
Lemma popped_hangs y x : on_stack rest y → done_ popped x → hangs popped y x →
  done_ st x ∧ hangs st y x ∨ y = p ∧ disc st v ≤ disc st x.
Proof.
  intros Hy Hx [H1 H2]. change (disc popped) with (disc st) in *. change (df_stack popped) with rest in H2.
  destruct pop_parent as (Hpo & Hp & _ & Hlt & Hmax). destruct (decide (disc st v ≤ disc st x)) as [Hvx|Hvx].
  - right. split; [|done]. apply (t_inj _ _ (i_times _ _ _ HI)).
    + apply (r_stack _ (i_tree _ _ _ HI)), popped_stack. by right.
    + apply Hp.
    + specialize (H2 p Hpo). specialize (Hmax y Hy). lia.
  - left. apply popped_done in Hx as [Hx| ->]; [|lia]. split; [done|]. split; [done|].
    intros z [->|Hz]%popped_stack Hzx; [lia|by apply H2].
Qed.

Lemma popped_tree : search_tree_ok popped.
Proof.
  destruct (i_tree _ _ _ HI) as [H1 H2 H3 H4 H5 H6 H7]. split; try done.
  - rewrite Hst in H1. by apply chain_pop in H1.
  - intros x Hx. apply H2, popped_stack. by right.
  - intros x w [Hx| ->]%popped_done; [by apply H4|]. intros Hvw. by apply (pop_nbr v w top_running).
  - intros x y w [Hx| ->]%popped_done Hy Hxy; [apply H5; [done|apply popped_stack; by right|done]|].
    change (disc popped) with (disc st) in *. destruct pop_parent as (_ & _ & _ & ? & Hmax). specialize (Hmax y Hy). lia.
  - intros x y Hy. apply H6, popped_stack. by right.
Qed.

Lemma popped_low_ok : low_ok adj popped.
Proof.
  destruct (i_low _ _ _ HI) as [H1 H2 H3]. destruct pop_parent as (Hpo & Hp & Hpv & Hlt & Hmax).
  assert (Hin : ∀ f, f ∈ df_stack popped → f ∈ df_stack st) by (intros f Hf; rewrite Hst; by right).
  split.
  - intros u q i j l' w Hu Hl' Hj Hw. destruct (H1 u q i j l' w (Hin _ Hu) Hl' Hj Hw) as [? Hle]. split; [done|].
    intros Hq. etrans; [apply popped_low|by apply Hle].
  - intros u q i Hu. destruct (H2 u q i (Hin _ Hu)) as [Hle He]. change (disc popped) with (disc st).
    split; [etrans; [apply popped_low|done]|]. destruct (decide (u = p)) as [->|Hne].
    + rewrite popped_low_p. intros Hlow. destruct (decide (low st p ≤ low st v)) as [Hm|Hm].
      * rewrite Nat.min_l by done. destruct He as (x & w & He); [lia|]. by exists x, w.
      * rewrite Nat.min_r by lia. destruct pop_escape as (x & w & Hx & Hvx & Hxw & Hw & Hd & _); [lia|].
        exists x, w. split_and!; [done|lia|done|apply Hw|done|]. intros [-> _]. lia.
    + destruct (popped_low u) as [_ ->]; [|done]. done.
  - intros y x w Hy Hx Hh Hxw. change (disc popped) with (disc st).
    destruct (popped_hangs y x Hy Hx Hh) as [[Hx' Hh']|[-> Hvx]].
    + etrans; [apply popped_low|]. apply (H3 y x w); [|done..]. apply popped_stack. by right.
    + rewrite popped_low_p. assert (Hxr : running st x) by apply Hx.
      destruct (pop_nbr x w Hxr Hvx Hxw) as [_ [?|[-> E]]]; [lia|]. assert (w = p) as -> by congruence.
      apply on_stack_frame in Hpo as (q & i & Hq). destruct (H2 p q i) as [? _]; [by apply Hin|]. lia.
Qed.

Lemma popped_bridge_in e : e ∈ bridges (df_out popped) ↔ e ∈ bridges (df_out st) ∨ e = canonical_pair p v ∧ bridge A p v.
Proof.
  rewrite <- pop_bridge_iff. cbn [popped df_out with_out bridges]. case_decide; [|naive_solver].
  rewrite elem_of_app, list_elem_of_singleton. naive_solver.
Qed.

(** An edge whose later end is on the stack is not reported yet. *)
Lemma top_not_reported a : A a v → disc st a < disc st v → canonical_pair a v ∉ bridges (df_out st).
Proof.
  intros Hav Hlt (a' & b' & E & _ & Hlt' & _ & Hon)%(o_bridges _ (i_out _ _ _ HI)).
  symmetry in E. destruct (canonical_pair a v) as [x y] eqn:Ec. apply canonical_pair_cases in Ec as (_ & Hc).
  apply canonical_pair_cases in E as (_ & Hc').
  assert (b' = v ∨ b' = a ∧ a' = v) as [->|[-> ->]] by naive_solver; [|lia]. apply Hon, popped_stack. by left.
Qed.

Lemma popped_out : out_ok popped.
Proof.
  destruct (i_out _ _ _ HI) as [H1 H2 H3 H4 H5 H6 H7 H8]. destruct pop_parent as (Hpo & Hp & Hpv & Hlt & Hmax).
  pose proof top_running as Hv. change (disc popped) with (disc st).
  assert (Harts : ∀ x, x ∉ articulation_points (df_out popped) → x ∉ articulation_points (df_out st) ∧
    (x = p → p ≠ start → low st v < disc st p)).
  { intros x. cbn [popped df_out with_out articulation_points]. case_decide as Hd.
    - intros [Hx%not_elem_of_singleton Hx']%not_elem_of_union. by split.
    - intros Hx. split; [done|]. intros -> Hps. apply Nat.nle_gt. intros ?. by apply Hd. }
  split.
  - intros a b Hb Hon Hab Hdab. rewrite popped_bridge_in. change (df_stack popped) with rest in Hon.
    destruct (decide (b = v)) as [->|Hne].
    + pose proof (top_not_reported a Hab Hdab) as Hnr. destruct (decide (a = p)) as [->|Hap]; [naive_solver|].
      pose proof (pop_other_not_bridge a Hab Hdab Hap) as Hnb. split; [|done]. intros [?|[E _]]; [done|].
      destruct (canonical_pair p v) as [x y] eqn:Ec. apply canonical_pair_cases in Ec as (_ & Hc).
      apply canonical_pair_cases in E as (_ & Hc'). exfalso. apply Hap. naive_solver.
    + rewrite <- (H1 a b); [|exact Hb| |exact Hab|exact Hdab].
      * split; [|by left]. intros [?|[E _]]; [done|]. exfalso.
        destruct (canonical_pair p v) as [x y] eqn:Ec. apply canonical_pair_cases in Ec as (_ & Hc).
        apply canonical_pair_cases in E as (_ & Hc'). assert (a = v ∧ b = p) as [-> ->] by naive_solver. change (disc popped) with (disc st) in Hdab. lia.
      * rewrite popped_stack. tauto.
  - intros e [He|[-> Hbr]]%popped_bridge_in.
    + destruct (H2 e He) as (a & b & -> & ? & ? & ? & Hon). exists a, b. split_and!; try done.
      intros ?. apply Hon, popped_stack. by right.
    + exists p, v. split_and!; [done|done|done|apply Hv|apply top_not_below].
  - cbn [popped df_out with_out bridges]. case_decide; [|done]. apply NoDup_app. split_and!; [done| |apply NoDup_singleton].
    intros e He ->%list_elem_of_singleton. by apply (top_not_reported p Hpv Hlt).
  - intros q. cbn [popped df_out with_out articulation_points]. case_decide as Hd; [|apply H4].
    intros [->%elem_of_singleton|Hq]%elem_of_union; [by destruct Hd; apply pop_cut|by apply H4].
  - intros q Hq Hc. cbn [popped df_out with_out articulation_points]. case_decide; [apply elem_of_union; right|]; by apply H5.
  - intros q x [Hq| ->]%popped_done Hqs Hqa Hx Hxq; apply Harts in Hqa as [Hqa Hqp]; [by apply H6|].
    assert (Hearly : ∀ u, running st u → disc st u < disc st v → rtc (AN v) start u).
    { intros u Hu Huv. apply (inside_AN (λ z, running st z ∧ disc st z ≤ disc st u)); [intros [_ ?]; lia|].
      by apply (r_pre _ (i_tree _ _ _ HI)). }
    destruct (decide (disc st v ≤ disc st x)) as [Hvx|Hvx]; [|apply Hearly; [done|lia]].
    destruct (pop_done x Hx Hvx) as [?|[Hd Hh]]; [done|].
    destruct (H7 v x) as (w & Hw & Hwv & Hpath); [apply popped_stack; by left|done..|].
    etrans; [by apply (Hearly w)|]. by apply (rtc_sym _ _ _ (AN_sym v)).
  - intros y x Hy Hys Hya Hx Hh. apply Harts in Hya as [Hya Hyp].
    destruct (popped_hangs y x Hy Hx Hh) as [[Hx' Hh']|[-> Hvx]].
    + apply H7; [apply popped_stack; by right|done..].
    + apply pop_around; [by apply Hyp|apply Hx|done].
  - done.
Qed.

Lemma popped_ok : Inv adj T0 popped.
Proof.
  split; [|apply popped_tree|apply popped_low_ok|apply popped_out].
  destruct pop_parent as (_ & Hp & _). destruct (i_times _ _ _ HI) as [H1 H2 H3 H4 H5 H6 H7 H8]. split; try done.
  intros x. cbn [popped df_low df_visited with_out with_low with_stack]. rewrite lookup_insert_is_Some, H3.
  split; [destruct (decide (p = x)); auto|]. intros [<-|[_ ?]]; [apply H3, Hp|done].
Qed.
End child.

(** The start is left. *)
Lemma root_popped_ok : par = None → Inv adj T0 (with_stack [] st).
Proof.
  intros Hpar. pose proof top_running as Hv. pose proof (i_times _ _ _ HI) as Ht. pose proof (i_tree _ _ _ HI) as Hr.
  pose proof (i_out _ _ _ HI) as Ho. pose proof (r_chain _ Hr) as Hc. rewrite Hst, Hpar in Hc. destruct Hc as [Hvs Hrest].
  assert (Hdone : ∀ x, done_ (with_stack [] st) x ↔ running st x).
  { intros x. unfold done_. change (running (with_stack [] st) x) with (running st x). split; [tauto|]. split; [done|by intros ?%not_elem_of_nil]. }
  assert (Hcl : ∀ x w, running st x → A x w → running st w).
  { intros x w Hx Hxw. split; [|intros Hw0; apply (proj2 Hx), (HV0 w x Hw0); by apply Hsym].
    apply (pop_nbr x w); [done| |done]. rewrite Hvs. by apply (start_first _ _ _ Ht Hr). }
  assert (Hst' : ∀ x, running st x → x = start ∨ done_ st x).
  { intros x Hx. destruct (decide (x = start)); [by left|right]. split; [done|]. rewrite Hst, Hrest, Hvs.
    intros [?|?%not_elem_of_nil]%on_stack_cons; done. }
  split.
  - by destruct Ht.
  - destruct Hr as [H1 H2 H3 H4 H5 H6 H7]. split; try done.
    + by intros x ?%not_elem_of_nil.
    + intros x w Hx%Hdone Hxw. by apply (Hcl x w).
    + by intros x y w _ ?%not_elem_of_nil.
    + by intros x y ?%not_elem_of_nil.
  - split.
    + intros u q i j l' w Hu. by apply not_elem_of_nil in Hu.
    + intros u q i Hu. by apply not_elem_of_nil in Hu.
    + intros y x w Hy. by apply not_elem_of_nil in Hy.
  - destruct Ho as [H1 H2 H3 H4 H5 H6 H7 H8]. split; try done.
    + intros a b Hb Hon Hab Hlt. change (df_out (with_stack [] st)) with (df_out st). destruct (decide (b = start)) as [->|Hne].
      * exfalso. assert (Ha : running st a) by (apply (Hcl start); [apply (r_start _ Hr)|by apply Hsym]).
        pose proof (start_first _ _ _ Ht Hr Ha). change (disc (with_stack [] st)) with (disc st) in Hlt. lia.
      * apply H1; [done| |done|done]. rewrite Hst, Hrest, Hvs. intros [?|?%not_elem_of_nil]%on_stack_cons; done.
    + intros e (a & b & ? & ? & ? & ? & _)%H2. exists a, b. split_and!; try done. by intros ?%not_elem_of_nil.
    + intros p x Hp%Hdone Hps. destruct (Hst' p Hp); [done|]. by apply H6.
    + by intros y x ?%not_elem_of_nil.
Qed.
End pop.
End advance.

(** * The loop *)
Section loop.
Context (adj : AdjList) (n : nat) (HAn : ∀ x w, A x w → x < n ∧ w < n).
Context (Hadj : ∀ u, u < n → ∃ l, adj !! u = Some l ∧ ∀ w, w ∈ l ↔ A u w) (Hstart_n : start < n).

(** Steps that are left: the neighbours frames still have to pass, and those of
    the nodes that are not visited. *)
Definition cost (u : nat) : nat := S (length (default [] (adj !! u))).
Definition frame_cost (f : Frame) : nat := S (length (default [] (adj !! f.1.1)) - f.2).
Definition unvisited_cost (X : gset nat) (us : list nat) : nat := sum_list (map cost (filter (λ u, u ∉ X) us)).
Definition measure (st : CutSearch) : nat := sum_list (map frame_cost (df_stack st)) + unvisited_cost (vis st) (seq 0 n).

Lemma sum_list_cons x xs : sum_list (x :: xs) = x + sum_list xs.
Proof. done. Qed.

Lemma unvisited_cost_add X w us : NoDup us → w ∈ us → w ∉ X →
  cost w + unvisited_cost ({[w]} ∪ X) us = unvisited_cost X us.
Proof using Type.
  clear Hsym Hirr HV0 Hstart HAn Hadj Hstart_n. clear A.
  unfold unvisited_cost. induction 1 as [|u us Hu Hnd IH]; intros Hw HX; [by apply not_elem_of_nil in Hw|].
  rewrite !filter_cons. apply elem_of_cons in Hw as [->|Hw].
  - rewrite decide_False by (intros H; apply H; set_solver). rewrite decide_True by done. simpl. do 2 f_equal.
    clear IH. induction us as [|u' us IH]; [done|]. apply not_elem_of_cons in Hu as [Hne Hu]. apply NoDup_cons in Hnd as [_ Hnd].
    rewrite !filter_cons. destruct (decide (u' ∉ X)) as [HuX|HuX].
    + rewrite decide_True by set_solver. simpl. by rewrite IH.
    + rewrite decide_False by set_solver. by apply IH.
  - assert (u ≠ w) by (by intros ->). destruct (decide (u ∉ X)) as [HuX|HuX].
    + rewrite decide_True by set_solver. cbn [map]. rewrite !sum_list_cons, <- (IH Hw HX). lia.
    + rewrite decide_False by set_solver. by apply IH.
Qed.

Lemma dfs_enter_stack v idx st : df_stack (cut_enter v idx st) = df_stack st.
Proof. unfold cut_enter. by case_decide. Qed.

(** One round keeps the invariant of the state whose top is entered, and takes
    one step off the measure. *)
Lemma cut_step_ok T0 st v par idx rest :
  df_stack st = (v, par, idx) :: rest → Inv adj T0 (cut_enter v idx st) →
  ∃ st', cut_step adj start v par idx rest st = Ok st' ∧
    match df_stack st' with
    | [] => Inv adj T0 st'
    | (u, _, i) :: _ => Inv adj T0 (cut_enter u i st') ∧ measure (cut_enter u i st') < measure (cut_enter v idx st)
    end.
Proof.
  intros Hst HI. unfold cut_step. set (st1 := cut_enter v idx st) in *.
  assert (Hst1 : df_stack st1 = (v, par, idx) :: rest) by (unfold st1; by rewrite dfs_enter_stack).
  pose proof (top_running adj T0 st1 v par idx rest HI Hst1) as Hv. pose proof (i_times _ _ _ HI) as Ht.
  assert (Hvn : v < n).
  { pose proof (r_pre _ (i_tree _ _ _ HI) v Hv) as Hp. apply rtc_inv_r in Hp as [<-|(y & _ & (Hy & _))]; [done|]. by apply HAn in Hy as [_ ?]. }
  destruct (Hadj v Hvn) as (l & Hl & Hmem). rewrite Hl. cbn [expect obind].
  assert (Hm1 : measure st1 = S (length l - idx) + sum_list (map frame_cost rest) + unvisited_cost (vis st1) (seq 0 n)).
  { unfold measure. rewrite Hst1. cbn [map]. rewrite sum_list_cons. unfold frame_cost at 1. cbn [fst snd]. by rewrite Hl. }
  destruct (l !! idx) as [w|] eqn:Hw.
  - assert (Hvw : A v w) by (apply Hmem, list_elem_of_lookup; by exists idx). pose proof (lookup_lt_Some _ _ _ Hw) as Hlen.
    assert (Hadv : ∀ lo', lo' ≤ low st1 v → (lo' = low st1 v ∨ A v w ∧ par ≠ Some w ∧ lo' = disc st1 w) →
      w ∈ vis st1 → (par ≠ Some w → lo' ≤ disc st1 w) →
      ∃ st', Ok (with_low (<[v := lo']> (df_low st1)) (with_stack ((v, par, S idx) :: rest) st1)) = Ok (E := Empty_set) st' ∧
      match df_stack st' with [] => Inv adj T0 st' | (u, _, i) :: _ => Inv adj T0 (cut_enter u i st') ∧ measure (cut_enter u i st') < measure st1 end).
    { intros lo' H1 H2 H3 H4. eexists. split; [done|]. cbn [df_stack with_low with_stack]. unfold cut_enter. rewrite decide_False by done.
      split; [by apply (advance_ok adj T0 st1 v par idx rest HI Hst1 l w)|]. rewrite Hm1. unfold measure.
      cbn [df_stack with_low with_stack df_visited map]. rewrite sum_list_cons. unfold frame_cost at 1. cbn [fst snd]. rewrite Hl. change (default [] (Some l)) with l. lia. }
    case_decide as Hpar.
    + destruct (Hadv (low st1 v)) as (st' & E & Hok); [done|by left| |congruence|].
      * apply (r_stack _ (i_tree _ _ _ HI)). rewrite Hst1. pose proof (r_chain _ (i_tree _ _ _ HI)) as Hc. rewrite Hst1, <- Hpar in Hc.
        destruct (chain_parent _ _ _ _ _ Hc) as [? _]. apply on_stack_cons. by right.
      * injection E as E. rewrite insert_id in E by (eapply low_lookup; [done|apply Hv]).
        exists (with_stack ((v, par, S idx) :: rest) st1). split; [done|]. by subst st'.
    + case_decide as Hwv.
      * change (df_visited (with_stack ((v, par, S idx) :: rest) st1)) with (vis st1) in Hwv.
        change (df_disc (with_stack ((v, par, S idx) :: rest) st1)) with (df_disc st1).
        change (df_low (with_stack ((v, par, S idx) :: rest) st1)) with (df_low st1).
        rewrite (disc_lookup T0 st1 w Ht Hwv), (low_lookup T0 st1 v Ht (proj1 Hv)). cbn [expect obind].
        apply Hadv; [lia| |done|lia]. destruct (decide (low st1 v ≤ disc st1 w)); [left; lia|right; split_and!; [done|congruence|lia]].
      * change (df_visited (with_stack ((v, par, S idx) :: rest) st1)) with (vis st1) in Hwv.
        eexists. split; [done|].
        assert (E : cut_enter w 0 (with_stack ((w, Some v, 0) :: (v, par, S idx) :: rest)
            (if decide (par = None) then with_root_children (S (df_root_children st1)) (with_stack ((v, par, S idx) :: rest) st1)
             else with_stack ((v, par, S idx) :: rest) st1)) = pushed st1 v par idx rest w) by (by destruct par).
        destruct par as [p|]; cbn [decide option_eq_None_dec] in *.
        all: simpl in E |- *; rewrite E; split; [by apply (pushed_ok adj T0 st1 v _ idx rest HI Hst1 l w)|].
        all: rewrite Hm1; unfold measure, pushed; cbn [df_stack df_visited map]; rewrite !sum_list_cons; unfold frame_cost at 1 2; cbn [fst snd];
          rewrite Hl; change (default [] (Some l)) with l; rewrite <- (unvisited_cost_add (vis st1) w (seq 0 n));
          [unfold cost; lia|apply NoDup_seq|apply elem_of_seq; apply HAn in Hvw; lia|done].
  - assert (Hnb : ∀ w, A v w → w ∈ l) by (intros w; apply Hmem). destruct par as [p|].
    + unfold leave. cbn [df_low df_disc df_out with_stack].
      destruct (pop_parent adj T0 st1 v (Some p) idx rest HI Hst1 p eq_refl) as (Hpo & Hp & _).
      rewrite (low_lookup T0 st1 v Ht (proj1 Hv)), (low_lookup T0 st1 p Ht (proj1 Hp)), (disc_lookup T0 st1 p Ht (proj1 Hp)).
      cbn [expect obind]. eexists. split; [done|].
      pose proof (popped_ok adj T0 st1 v (Some p) idx rest HI Hst1 l Hl Hnb Hw p eq_refl) as Hok.
      pose proof (r_chain _ (i_tree _ _ _ HI)) as Hc. rewrite Hst1 in Hc. destruct Hc as (_ & _ & (q & j & rest' & Hrest) & _).
      change (df_stack (with_out ?o (with_low ?lo (with_stack rest st1)))) with rest. rewrite Hrest.
      unfold cut_enter. rewrite decide_False by done. rewrite <- Hrest. split; [exact Hok|]. rewrite Hm1. unfold measure.
      cbn [df_stack df_visited with_out with_low with_stack]. lia.
    + eexists. split; [done|]. pose proof (r_chain _ (i_tree _ _ _ HI)) as Hc. rewrite Hst1 in Hc. destruct Hc as [_ Hrest].
      cbn [df_stack with_stack]. rewrite Hrest. by apply (root_popped_ok adj T0 st1 v None idx rest HI Hst1 l).
Qed.

Lemma cut_loop_ok T0 fuel : ∀ st,
  match df_stack st with [] => Inv adj T0 st | (u, _, i) :: _ => Inv adj T0 (cut_enter u i st) ∧ measure (cut_enter u i st) ≤ fuel end →
  ∃ st', cut_loop fuel adj start st = Ok st' ∧ df_stack st' = [] ∧ Inv adj T0 st'.
Proof.
  induction fuel as [|fuel IH]; intros st H.
  - destruct (df_stack st) as [|[[v par] idx] rest] eqn:Hst; [exists st; simpl; by rewrite Hst|]. destruct H as [_ H].
    unfold measure in H. rewrite dfs_enter_stack, Hst in H. simpl in H. unfold frame_cost in H. lia.
  - cbn [cut_loop]. destruct (df_stack st) as [|[[v par] idx] rest] eqn:Hst; [by exists st|]. destruct H as [HI Hm].
    destruct (cut_step_ok T0 st v par idx rest Hst HI) as (st' & -> & H'). cbn [obind]. apply IH.
    destruct (df_stack st') as [|[[u q] i] rest']; [done|]. destruct H' as [? ?]. split; [done|lia].
Qed.
End loop.
End run.
End lowlink.
