(* ===== verification/GraphCutExact.v ===== *)
(** The lowlink search over a whole graph reports its cut vertices and bridges. *)

From Stdlib Require Import Sorting.Sorted.
From stdpp Require Import base numbers sets list gmap relations.
From S2P Require Import Prelude BTree GraphCycles GraphUndirected GraphTruss GraphCut GraphLowlink.

Section global.
Context (A : nat → nat → Prop) (Hsym : ∀ x y, A x y → A y x) (Hirr : ∀ x, ¬ A x x).
Context (adj : AdjList) (n : nat) (HAn : ∀ x w, A x w → x < n ∧ w < n).
Context (Hadj : ∀ u, u < n → ∃ l, adj !! u = Some l ∧ ∀ w, w ∈ l ↔ A u w).

(** Between two searches. *)
Record global_ok (st : CutSearch) : Prop := {
  g_disc : ∀ x, x ∈ df_visited st ↔ is_Some (df_disc st !! x);
  g_low : ∀ x, x ∈ df_visited st ↔ is_Some (df_low st !! x);
  g_inj : ∀ x y, x ∈ df_visited st → y ∈ df_visited st → disc st x = disc st y → x = y;
  g_max : ∀ x, x ∈ df_visited st → disc st x ≤ df_timer st;
  g_closed : ∀ x w, x ∈ df_visited st → A x w → w ∈ df_visited st;
  g_bridge : ∀ a b, b ∈ df_visited st → A a b → disc st a < disc st b →
    canonical_pair a b ∈ bridges (df_out st) ↔ bridge A a b;
  g_bridges : ∀ e, e ∈ bridges (df_out st) →
    ∃ a b, e = canonical_pair a b ∧ A a b ∧ disc st a < disc st b ∧ b ∈ df_visited st;
  g_NoDup : NoDup (bridges (df_out st));
  g_cut : ∀ p, p ∈ articulation_points (df_out st) → cut_vertex A p;
  g_cuts : ∀ p, p ∈ df_visited st → cut_vertex A p → p ∈ articulation_points (df_out st);
}.

(** A node without which its component stays in one piece is no cut vertex. *)
Lemma not_cut (R : nat → Prop) `{!∀ x, Decision (R x)} p : R p → (∀ x y, R x → A x y → R y) →
  (∀ x y, R x → R y → x ≠ p → y ≠ p → rtc (avoids_node A p) x y) → ¬ cut_vertex A p.
Proof.
  intros Hp Hcl Hin (x & y & Hx & Hy & Hxy & Hno). destruct (decide (R x)) as [HR|HR].
  - apply Hno, Hin; [done| |done|done]. clear -HR Hcl Hxy. induction Hxy as [|x z y Hxz _ IH]; [done|]. eapply IH, Hcl; done.
  - apply Hno. clear Hno Hx Hy. induction Hxy as [x|x z y Hxz _ IH]; [done|].
    assert (Hz : ¬ R z) by (intros Hz; apply HR, (Hcl z); [done|by apply Hsym]).
    eapply rtc_l; [|by apply IH]. split_and!; [done|by intros ->..].
Qed.

Definition entered (st : CutSearch) (start : nat) : CutSearch :=
  cut_enter start 0 (with_root_children 0 (with_stack [(start, None, 0)] st)).

Lemma entered_disc st start x : disc (entered st start) x = if decide (start = x) then S (df_timer st) else disc st x.
Proof. unfold entered, cut_enter, disc. simpl. rewrite lookup_insert. by case_decide. Qed.

Lemma entered_low st start : low (entered st start) start = S (df_timer st).
Proof. unfold entered, cut_enter, low. simpl. by rewrite lookup_insert_eq. Qed.

Lemma entered_running st start x : start ∉ df_visited st → running (df_visited st) (entered st start) x ↔ x = start.
Proof.
  intros Hs. unfold running, entered, cut_enter. cbn [df_visited decide]. simpl. rewrite elem_of_union, elem_of_singleton.
  split; [tauto|by intros ->; split; [left|]].
Qed.

Lemma entered_ok st start : start < n → start ∉ df_visited st → global_ok st →
  Inv A start (df_visited st) adj (df_timer st) (entered st start).
Proof.
  intros Hn Hs [H1 H2 H3 H4 H5 H6 H7 H8 H9 H10]. pose proof (entered_disc st start) as Hd. pose proof (entered_low st start) as Hl.
  assert (Hr : ∀ x, running (df_visited st) (entered st start) x ↔ x = start) by (intros x; by apply entered_running).
  assert (Hvis : ∀ x, x ∈ df_visited (entered st start) ↔ x = start ∨ x ∈ df_visited st).
  { intros x. unfold entered, cut_enter. simpl. by rewrite elem_of_union, elem_of_singleton. }
  assert (Hon : ∀ x, on_stack (df_stack (entered st start)) x ↔ x = start).
  { intros x. unfold entered, cut_enter. simpl. unfold on_stack. simpl. by rewrite list_elem_of_singleton. }
  assert (Hdone : ∀ x, ¬ done_ (df_visited st) (entered st start) x).
  { intros x [Hx%Hr Hn']. by apply Hn', Hon. }
  assert (Hold : ∀ x, x ∈ df_visited st → disc (entered st start) x = disc st x).
  { intros x Hx. rewrite Hd. case_decide; [by subst|done]. }
  split.
  - split.
    + intros x Hx. apply Hvis. by right.
    + intros x. rewrite Hvis, H1. unfold entered, cut_enter. simpl. rewrite lookup_insert_is_Some. destruct (decide (start = x)); naive_solver.
    + intros x. rewrite Hvis, H2. unfold entered, cut_enter. simpl. rewrite lookup_insert_is_Some. destruct (decide (start = x)); naive_solver.
    + intros x y Hx%Hvis Hy%Hvis. rewrite !Hd. repeat case_decide; subst; try done.
      * destruct Hy as [?|Hy%H4]; [by subst|]. lia.
      * destruct Hx as [?|Hx%H4]; [by subst|]. lia.
      * apply H3; naive_solver.
    + intros x Hx%Hvis. rewrite Hd. unfold entered, cut_enter. simpl. case_decide; [done|].
      destruct Hx as [?|Hx%H4]; [by subst|lia].
    + intros x Hx. rewrite Hold by done. by apply H4.
    + intros x Hx%Hr. subst. rewrite Hd, decide_True by done. lia.
    + unfold entered, cut_enter. simpl. lia.
  - split.
    + done.
    + intros x Hx%Hon. by apply Hr.
    + by apply Hr.
    + intros x w Hx. by apply Hdone in Hx.
    + intros x y w Hx. by apply Hdone in Hx.
    + intros x y Hy%Hon Hx%Hr _. by subst.
    + intros x Hx%Hr. by subst.
  - split.
    + intros v par idx j l w Hf _ Hj. unfold entered, cut_enter in Hf. simpl in Hf. apply list_elem_of_singleton in Hf. injection Hf as -> -> ->. lia.
    + intros v par idx Hf. unfold entered, cut_enter in Hf. simpl in Hf. apply list_elem_of_singleton in Hf. injection Hf as -> -> ->.
      rewrite Hl, Hd, decide_True by done. split; [done|lia].
    + intros y x w _ Hx. by apply Hdone in Hx.
  - split; try done.
    + intros a b Hb Hon' Hab. apply Hvis in Hb as [->|Hb]; [by destruct Hon'; apply Hon|].
      assert (Ha : a ∈ df_visited st) by (apply (H5 b); [done|by apply Hsym]). rewrite !Hold by done. by apply H6.
    + intros e (a & b & -> & Hab & Hlt & Hb)%H7. exists a, b.
      assert (Ha : a ∈ df_visited st) by (apply (H5 b); [done|by apply Hsym]). rewrite !Hold by done.
      split_and!; try done; [apply Hvis; by right|]. intros Hx%Hon. by subst.
    + intros p x Hp. by apply Hdone in Hp.
    + intros y x _ _ _ Hx. by apply Hdone in Hx.
    + intros x Hx%Hr. done.
Qed.

Lemma cut_from_ok fuel st start : start < n → df_stack st = [] → global_ok st →
  sum_list (map (cost adj) (seq 0 n)) ≤ fuel →
  ∃ st', cut_from fuel adj st start = Ok st' ∧ df_stack st' = [] ∧ global_ok st' ∧
    start ∈ df_visited st' ∧ df_visited st ⊆ df_visited st'.
Proof.
  intros Hn Hst Hg Hfuel. unfold cut_from. case_decide as Hs; [by exists st|].
  set (V0 := df_visited st). assert (HV0 : ∀ x w, x ∈ V0 → A x w → w ∈ V0) by apply (g_closed _ Hg).
  destruct (cut_loop_ok A Hsym Hirr start V0 HV0 Hs adj n HAn Hadj Hn (df_timer st) fuel
    (with_root_children 0 (with_stack [(start, None, 0)] st))) as (st' & -> & Hst' & HI).
  { simpl. split; [by apply entered_ok|]. change (cut_enter start 0 _) with (entered st start). etrans; [|exact Hfuel].
    unfold measure. change (df_stack (entered st start)) with [(start, @None nat, 0)]. cbn [map]. rewrite sum_list_cons.
    change (df_visited (entered st start)) with ({[start]} ∪ df_visited st).
    pose proof (unvisited_cost_add adj (df_visited st) start (seq 0 n) (NoDup_seq 0 n)) as Hc.
    rewrite elem_of_seq in Hc. specialize (Hc ltac:(lia) Hs).
    assert (Hle : unvisited_cost adj (df_visited st) (seq 0 n) ≤ sum_list (map (cost adj) (seq 0 n))).
    { unfold unvisited_cost. clear. induction (seq 0 n) as [|u us IH]; [done|]. rewrite filter_cons. cbn [map].
      case_decide; cbn [map]; rewrite !sum_list_cons; lia. }
    unfold frame_cost, cost in *. simpl in *. lia. }
  cbn [obind]. destruct HI as [Ht Hr Hlo Ho].
  assert (Hnone : ∀ x, ¬ on_stack (df_stack st') x) by (intros x; rewrite Hst'; apply not_elem_of_nil).
  assert (Hdone : ∀ x, running V0 st' x → done_ V0 st' x) by (intros x Hx; by split).
  assert (Hcl : ∀ x w, x ∈ df_visited st' → A x w → w ∈ df_visited st').
  { intros x w Hx Hxw. destruct (decide (x ∈ V0)) as [H0|H0]; [by apply (t_old _ _ _ Ht), (HV0 x)|].
    apply (r_closed _ _ _ _ Hr x); [|done]. apply Hdone. by split. }
  assert (Hcl' : ∀ x y, running V0 st' x → A x y → running V0 st' y).
  { intros x y [Hx H0] Hxy. split; [by apply (Hcl x)|]. intros Hy. apply H0, (HV0 y); [done|by apply Hsym]. }
  assert (Hg' : ∀ arts, (∀ p, p ∈ arts ↔ p ∈ articulation_points (df_out st') ∨ p = start ∧ 1 < df_root_children st') →
    global_ok (with_out (mkCut arts (bridges (df_out st'))) st')).
  { intros arts Harts. pose proof (o_root _ _ _ _ Ho) as Hroot. split; try apply Ht; try done.
    - intros a b Hb. apply (o_bridge _ _ _ _ Ho); [done|apply Hnone].
    - intros e (a & b & ? & ? & ? & ? & _)%(o_bridges _ _ _ _ Ho). by exists a, b.
    - apply (o_NoDup _ _ _ _ Ho).
    - intros p [Hp|[-> Hp]]%Harts; [by apply (o_cut _ _ _ _ Ho)|]. destruct (df_root_children st') as [|[|?]]; [lia..|done].
    - intros p Hp Hc. apply Harts. destruct (decide (p ∈ V0)) as [H0|H0]; [left; by apply (o_old _ _ _ _ Ho)|].
      assert (Hpr : running V0 st' p) by (by split).
      destruct (decide (p = start)) as [->|Hne].
      + right. split; [done|]. apply Nat.nle_gt. intros Hle. revert Hc. apply (not_cut (running V0 st')); [done|done|].
        destruct (df_root_children st') as [|[|?]]; [|destruct Hroot as (c & _ & _ & Hroot)|lia].
        * intros x y Hx%Hroot. by subst.
        * intros x y Hx Hy Hxp Hyp. etrans; [apply (rtc_sym _ _ _ (AN_sym A Hsym start))|]; by apply Hroot.
      + left. destruct (decide (p ∈ articulation_points (df_out st'))) as [|Hno]; [done|exfalso].
        revert Hc. apply (not_cut (running V0 st')); [done|done|]. intros x y Hx Hy Hxp Hyp.
        etrans; [apply (rtc_sym _ _ _ (AN_sym A Hsym p))|]; by apply (o_done _ _ _ _ Ho p _ (Hdone p Hpr) Hne Hno). }
  pose proof (r_start _ _ _ _ Hr) as [Hsv _].
  eexists. split; [done|]. case_decide as Hrc.
  - split_and!; [done| |done|apply (t_old _ _ _ Ht)]. apply Hg'. intros p. rewrite elem_of_union, elem_of_singleton. naive_solver.
  - split_and!; [done| |done|apply (t_old _ _ _ Ht)]. destruct st' as [? ? ? ? ? [arts br] ?].
    apply (Hg' arts). intros p. simpl. split; [by left|]. intros [?|[_ ?]]; [done|]. by destruct Hrc.
Qed.

Lemma dfs_all_ok fuel k : k ≤ n → sum_list (map (cost adj) (seq 0 n)) ≤ fuel →
  ∃ st, ofold (cut_from fuel adj) (mkCutSearch [] ∅ ∅ ∅ 0 (mkCut ∅ []) 0) (seq 0 k) = Ok st ∧ df_stack st = [] ∧
    global_ok st ∧ ∀ u, u < k → u ∈ df_visited st.
Proof.
  intros Hk Hfuel. induction k as [|k IH].
  - eexists. split; [done|]. split; [done|]. split; [|lia].
    split; simpl; try set_solver; try (intros x; rewrite lookup_empty; split; [set_solver|by intros []]). constructor.
  - destruct IH as (st & E & Hst & Hg & Hall); [lia|]. rewrite seq_S, ofold_app, E. cbn [obind ofold Nat.add].
    destruct (cut_from_ok fuel st k) as (st' & -> & Hst' & Hg' & Hk' & Hsub); [lia|done..|]. exists st'. split_and!; try done.
    intros u Hu. destruct (decide (u = k)) as [->|]; [done|]. apply Hsub, Hall. lia.
Qed.

Lemma cut_vertex_lt p : cut_vertex A p → p < n.
Proof.
  intros (x & y & Hx & Hy & Hxy & Hno). apply Nat.nle_gt. intros Hp. apply Hno.
  eapply rtc_subrel; [|exact Hxy]. intros a b Hab. pose proof (HAn a b Hab). split_and!; [done|lia|lia].
Qed.
End global.

(** * The adjacency lists *)
Lemma elem_of_vec_dedup l x : x ∈ vec_dedup l ↔ x ∈ l.
Proof.
  induction l as [|y [|z l] IH]; [done..|]. change (vec_dedup (y :: z :: l)) with
    (if decide (y = z) then vec_dedup (z :: l) else y :: vec_dedup (z :: l)).
  case_decide as Hyz; [subst; rewrite IH; set_solver|]. rewrite !(elem_of_cons _ x y), IH. done.
Qed.

Definition nbr_list (adj : AdjList) (u : nat) : list nat := default [] (adj !! u).

Lemma elem_of_push_edge adj a b u w : w ∈ nbr_list (push_both adj (a, b)) u ↔
  w ∈ nbr_list adj u ∨ a ≠ b ∧ (u = a ∧ w = b ∨ u = b ∧ w = a).
Proof.
  unfold push_both, push_nbr, nbr_list. case_decide as Hab; [naive_solver|].
  destruct (decide (u = b)) as [->|Hub]; [rewrite lookup_insert_eq, lookup_insert_ne by done; simpl; rewrite elem_of_app, list_elem_of_singleton; naive_solver|].
  rewrite lookup_insert_ne by done. destruct (decide (u = a)) as [->|Hua].
  - rewrite lookup_insert_eq. simpl. rewrite elem_of_app, list_elem_of_singleton. naive_solver.
  - rewrite lookup_insert_ne by done. naive_solver.
Qed.

Lemma dom_push_edge adj e : dom adj ⊆ dom (push_both adj e).
Proof. destruct e as [a b]. unfold push_both, push_nbr. case_decide; set_solver. Qed.

Lemma push_edges_spec es adj :
  (∀ u w, w ∈ nbr_list (foldl push_both adj es) u ↔ w ∈ nbr_list adj u ∨ u ≠ w ∧ ((u, w) ∈ es ∨ (w, u) ∈ es)) ∧
  dom adj ⊆ dom (foldl push_both adj es).
Proof.
  revert adj. induction es as [|[a b] es IH]; intros adj; [simpl; set_solver|]. cbn [foldl].
  destruct (IH (push_both adj (a, b))) as [H1 H2]. pose proof (dom_push_edge adj (a, b)). split; [|set_solver].
  intros u w. rewrite H1, elem_of_push_edge, !elem_of_cons. naive_solver.
Qed.

Lemma init_lists_spec n : let adj : AdjList := foldl (λ adj u, <[u := default [] (adj !! u)]> adj) ∅ (seq 0 n) in
  (∀ u, nbr_list adj u = []) ∧ ∀ u, u < n → u ∈ dom adj.
Proof.
  cbv zeta. induction n as [|n [H1 H2]]; [split; [done|lia]|]. rewrite seq_S, foldl_app. cbn [foldl Nat.add]. split.
  - intros u. unfold nbr_list in *. destruct (decide (u = n)) as [->|].
    + by rewrite lookup_insert_eq, H1.
    + by rewrite lookup_insert_ne.
  - intros u Hu. rewrite dom_insert, elem_of_union, elem_of_singleton. destruct (decide (u = n)); [by left|right; apply H2; lia].
Qed.

Lemma sorted_adj_spec {W} (g : DiGraph W) u : u < node_count g →
  ∃ l, sorted_adj g !! u = Some l ∧ ∀ w, w ∈ l ↔ adjacent g u w.
Proof.
  intros Hu. unfold sorted_adj. set (adj0 := foldl _ ∅ _). destruct (init_lists_spec (node_count g)) as [H1 H2]. fold adj0 in H1, H2.
  destruct (push_edges_spec (g_edges g) adj0) as [H3 H4]. specialize (H2 u Hu).
  assert (Hd : u ∈ dom (foldl push_both adj0 (g_edges g))) by set_solver. apply elem_of_dom in Hd as [l Hl].
  exists (vec_dedup (sort_by Nat.compare l)). rewrite lookup_fmap, Hl. split; [done|]. intros w.
  rewrite elem_of_vec_dedup, sort_by_perm. specialize (H3 u w). unfold nbr_list in H3 at 1. rewrite Hl in H3. simpl in H3.
  rewrite H3, H1. unfold adjacent, edge. set_solver.
Qed.

Lemma cut_spec {W} (g : DiGraph W) : graph_ok g → ∃ r, articulation_points_and_bridges g = Ok r ∧
  (∀ p, p ∈ articulation_points r ↔ cut_vertex (adjacent g) p) ∧
  (∀ a b, (a, b) ∈ bridges r ↔ a < b ∧ bridge (adjacent g) a b) ∧ StronglySorted ord_lt (bridges r).
Proof.
  intros Hok. set (A := adjacent g). set (n := node_count g).
  assert (Hsym : ∀ x y, A x y → A y x) by (intros x y; apply adjacent_sym).
  assert (Hirr : ∀ x, ¬ A x x) by (by intros x [? _]).
  assert (HAn : ∀ x y, A x y → x < n ∧ y < n) by (intros x y; by apply adjacent_lt).
  destruct (dfs_all_ok A Hsym Hirr (sorted_adj g) n HAn (sorted_adj_spec g) (cut_fuel g (sorted_adj g)) n (le_n _) (le_n _))
    as (st & E & _ & Hg & Hall).
  unfold articulation_points_and_bridges. fold n. rewrite E. cbn [obind]. eexists. split; [done|]. cbn [articulation_points bridges].
  split_and!.
  - intros p. split; [apply (g_cut _ _ Hg)|]. intros Hp. apply (g_cuts _ _ Hg); [|done]. apply Hall. by apply (cut_vertex_lt A n HAn).
  - intros a b. rewrite sort_by_perm. split.
    + intros Hin. destruct (g_bridges _ _ Hg (a, b) Hin) as (x & y & Exy & HA & Hlt & Hy).
      assert (Hb : bridge A x y) by (apply (g_bridge _ _ Hg x y Hy HA Hlt); by rewrite <- Exy).
      symmetry in Exy. apply canonical_pair_cases in Exy as [Hle [[-> ->]|[-> ->]]].
      * split; [|done]. destruct HA as [? _]. lia.
      * split; [|by apply bridge_sym]. destruct HA as [? _]. lia.
    + intros [Hlt Hb]. assert (HA : A a b) by apply Hb. destruct (HAn a b HA) as [Ha Hbn].
      assert (Hne : disc st a ≠ disc st b) by (intros E'; apply (g_inj _ _ Hg) in E'; [lia|by apply Hall..]).
      rewrite <- (canonical_pair_lt a b Hlt). destruct (decide (disc st a < disc st b)) as [Hd|Hd].
      * by apply (g_bridge _ _ Hg a b); [apply Hall|..].
      * rewrite canonical_pair_comm. apply (g_bridge _ _ Hg b a); [by apply Hall|by apply Hsym|lia|by apply bridge_sym].
  - apply (sort_by_sorted (K := nat * nat)), (g_NoDup _ _ Hg).
Qed.

(** C11: the search returns; the articulation points are the cut vertices of the
    undirected projection, and the bridges, each once and in order, its bridges. *)
Theorem cut_exact {W} (g : DiGraph W) : graph_ok g → ∃ r, articulation_points_and_bridges g = Ok r ∧
  (∀ p, p ∈ articulation_points r ↔ cut_vertex (adjacent g) p) ∧
  (∀ a b, (a, b) ∈ bridges r ↔ a < b ∧ bridge (adjacent g) a b) ∧ StronglySorted ord_lt (bridges r).
Proof. apply cut_spec. Qed.

(** Two triangles that share node 2, and a pendant edge from 4 to 5. *)
Definition bow_tie : DiGraph unit := mkGraph (replicate 6 tt) [(0, 1); (1, 2); (2, 0); (2, 3); (3, 4); (4, 2); (4, 5); (5, 4)].

Lemma bow_tie_ok : graph_ok bow_tie.
Proof. apply graph_ok_edges. apply (bool_decide_unpack _). by vm_compute. Qed.

Example bow_tie_cuts : articulation_points_and_bridges bow_tie = Ok (mkCut {[2; 4]} [(4, 5)]).
Proof. by vm_compute. Qed.

Example cut_exact_witness : ∃ r, articulation_points_and_bridges bow_tie = Ok r ∧
  (∀ p, p ∈ articulation_points r ↔ cut_vertex (adjacent bow_tie) p).
Proof. destruct (cut_exact bow_tie bow_tie_ok) as (r & E & H & _). exists r. split; [exact E|exact H]. Defined.
