(* ===== verification/GraphBfs.v ===== *)
(** Breadth-first search as [src/src/graph/] writes it: a queue, marks, and
    something done for each node when it is discovered. *)

From stdpp Require Import base numbers sets list gmap relations.
From S2P Require Import Prelude.

Record Search (A : Type) := mkSearch { sr_visited : gset nat; sr_queue : list nat; sr_acc : A }.
Arguments mkSearch {A} _ _ _.
Arguments sr_visited {A} _.
Arguments sr_queue {A} _.
Arguments sr_acc {A} _.

Section bfs.
Context {A : Type} (nbrs : nat → list nat) (ok : nat → bool) (discover : A → nat → A).

(** [if ok(nb) && visited.insert(nb) { discover(nb); queue.push_back(nb); }] *)
Definition bfs_visit (st : Search A) (nb : nat) : Search A :=
  if ok nb && negb (bool_decide (nb ∈ sr_visited st)) then
    mkSearch ({[nb]} ∪ sr_visited st) (sr_queue st ++ [nb]) (discover (sr_acc st) nb)
  else st.

(** [while let Some(u) = queue.pop_front() { for nb in .. { .. } }] *)
Fixpoint bfs_loop (fuel : nat) (st : Search A) : outcome Empty_set (Search A) :=
  match sr_queue st with
  | [] => Ok st
  | u :: queue =>
      match fuel with
      | 0 => OutOfFuel
      | S fuel => bfs_loop fuel (foldl bfs_visit (mkSearch (sr_visited st) queue (sr_acc st)) (nbrs u))
      end
  end.

(** * What it finds *)
Definition bfs_step (u v : nat) : Prop := v ∈ nbrs u ∧ ok v = true.

(** The search from [s], with [V0] marked before: [l] are the nodes discovered,
    in order. *)
Record search_ok (V0 : gset nat) (s : nat) (a0 : A) (l : list nat) (st : Search A) : Prop := {
  so_visited : ∀ x, x ∈ sr_visited st ↔ x ∈ V0 ∨ x = s ∨ x ∈ l;
  so_fresh : NoDup (s :: l) ∧ ∀ x, x ∈ s :: l → x ∉ V0;
  so_acc : sr_acc st = foldl discover a0 l;
  so_queue : ∀ x, x ∈ sr_queue st → x ∈ s :: l;
  so_reach : ∀ x, x ∈ s :: l → rtc bfs_step s x;
}.

(** Nodes taken from the queue have their neighbours marked. *)
Definition search_closed (V0 : gset nat) (st : Search A) : Prop :=
  ∀ x y, x ∈ sr_visited st → x ∉ sr_queue st → x ∉ V0 → bfs_step x y → y ∈ sr_visited st.

Lemma bfs_visit_cases st v :
  (bfs_visit st v = st ∧ (ok v = true → v ∈ sr_visited st)) ∨
  (v ∉ sr_visited st ∧ ok v = true ∧
   bfs_visit st v = mkSearch ({[v]} ∪ sr_visited st) (sr_queue st ++ [v]) (discover (sr_acc st) v)).
Proof.
  unfold bfs_visit. destruct (ok v); [|by left]. case_bool_decide as Hv; [by left|by right].
Qed.

Lemma visits_ok V0 s a0 u ns l st : (∀ v, v ∈ ns → v ∈ nbrs u) → u ∈ s :: l → search_ok V0 s a0 l st →
  ∃ k, search_ok V0 s a0 (l ++ k) (foldl bfs_visit st ns) ∧ sr_queue (foldl bfs_visit st ns) = sr_queue st ++ k ∧
    (∀ v, v ∈ ns → ok v = true → v ∈ sr_visited (foldl bfs_visit st ns)) ∧
    sr_visited st ⊆ sr_visited (foldl bfs_visit st ns).
Proof.
  revert l st. induction ns as [|v ns IH]; intros l st Hns Hu Hst; cbn [foldl].
  { exists []. rewrite !app_nil_r. split_and!; [done|done|by intros v ?%elem_of_nil|done]. }
  assert (Hns' : ∀ w, w ∈ ns → w ∈ nbrs u) by (intros; apply Hns; by right).
  destruct (bfs_visit_cases st v) as [[-> Hseen]|(Hv & Hokv & ->)].
  - destruct (IH l st Hns' Hu Hst) as (k & H1 & H2 & H3 & H4). exists k. split_and!; [done|done| |done].
    intros w [->|Hw]%elem_of_cons Hok; [by apply H4, Hseen|by apply H3].
  - set (st' := mkSearch ({[v]} ∪ sr_visited st) (sr_queue st ++ [v]) (discover (sr_acc st) v)).
    destruct Hst as [S1 [S2 S3] S4 S5 S6].
    assert (Hfresh : v ∉ V0 ∧ v ≠ s ∧ v ∉ l) by (rewrite S1 in Hv; tauto). destruct Hfresh as (F1 & F2 & F3).
    assert (Hst' : search_ok V0 s a0 (l ++ [v]) st').
    { split; cbn [sr_visited sr_queue sr_acc st'].
      - intros x. rewrite elem_of_union, elem_of_singleton, S1, elem_of_app, list_elem_of_singleton. tauto.
      - rewrite app_comm_cons. split.
        + apply NoDup_app. split; [done|]. split; [|apply NoDup_singleton].
          intros x Hx ->%list_elem_of_singleton. apply elem_of_cons in Hx as [?|?]; congruence.
        + intros x [Hx| ->%list_elem_of_singleton]%elem_of_app; [by apply S3|done].
      - rewrite foldl_app. simpl. by rewrite S4.
      - intros x [Hx%S5| ->%list_elem_of_singleton]%elem_of_app; rewrite app_comm_cons, elem_of_app; [by left|right; by left].
      - intros x Hx. rewrite app_comm_cons, elem_of_app in Hx. destruct Hx as [Hx| ->%list_elem_of_singleton]; [by apply S6|].
        eapply rtc_r; [by apply S6|]. split; [apply Hns; by left|done]. }
    assert (Hu' : u ∈ s :: l ++ [v]) by (rewrite app_comm_cons, elem_of_app; by left).
    destruct (IH (l ++ [v]) st' Hns' Hu' Hst') as (k & H1 & H2 & H3 & H4). exists (v :: k).
    replace (l ++ v :: k) with ((l ++ [v]) ++ k) by (by rewrite <- app_assoc). split_and!; [done| | |].
    + rewrite H2. simpl. by rewrite <- app_assoc.
    + intros w [->|Hw]%elem_of_cons Hok; [|by apply H3]. apply H4. simpl. set_solver.
    + etrans; [|exact H4]. simpl. set_solver.
Qed.

Context (U : gset nat) (HU : ∀ u v, u ∈ U → bfs_step u v → v ∈ U).

Lemma bfs_loop_ok V0 s a0 fuel l st : s ∈ U → search_ok V0 s a0 l st → search_closed V0 st →
  size (U ∖ sr_visited st) + length (sr_queue st) ≤ fuel →
  ∃ l' st', bfs_loop fuel st = Ok st' ∧ search_ok V0 s a0 l' st' ∧ search_closed V0 st' ∧ sr_queue st' = [].
Proof using HU.
  intros Hs. revert l st. induction fuel as [|fuel IH]; intros l st Hst Hcl Hf; simpl;
    (destruct (sr_queue st) as [|u q] eqn:Eq; [by exists l, st|]); [simpl in Hf; lia|].
  assert (Hu : u ∈ s :: l) by (apply (so_queue _ _ _ _ _ Hst); rewrite Eq; by left).
  set (st1 := mkSearch (sr_visited st) q (sr_acc st)).
  assert (Hst1 : search_ok V0 s a0 l st1).
  { destruct Hst as [S1 S2 S4 S5 S6]. split; try done. intros x Hx. apply S5. rewrite Eq. by right. }
  destruct (visits_ok V0 s a0 u (nbrs u) l st1) as (k & H1 & H2 & H3 & H4); [done..|].
  apply (IH (l ++ k)); [done| |].
  - intros x y Hx Hxq Hx0 Hxy. destruct (decide (x = u)) as [->|Hne]; [by apply H3; destruct Hxy|].
    rewrite H2, elem_of_app in Hxq. apply H4. apply (Hcl x y); [| |done|done].
    + apply (so_visited _ _ _ _ _ H1) in Hx. apply (so_visited _ _ _ _ _ Hst).
      rewrite elem_of_app in Hx. destruct Hx as [?|[?|[?|Hk]]]; auto. destruct Hxq. by right.
    + rewrite Eq. intros [?|Hxq']%elem_of_cons; [done|]. apply Hxq. by left.
  - rewrite H2, length_app. simpl in Hf |- *.
    assert (Hk : size (U ∖ sr_visited (foldl bfs_visit st1 (nbrs u))) + length k ≤ size (U ∖ sr_visited st)); [|lia].
    rewrite <- (size_list_to_set (C := gset nat) k).
    + rewrite <- size_union.
      * apply subseteq_size. intros x [Hx|Hx]%elem_of_union.
        -- set_solver.
        -- apply elem_of_list_to_set in Hx. apply elem_of_difference. split.
           ++ assert (Hr : rtc bfs_step s x) by (apply (so_reach _ _ _ _ _ H1); right; apply elem_of_app; by right).
              clear -Hr Hs HU. induction Hr as [|x y z Hxy _ IHr]; [done|]. apply IHr. by eapply HU.
           ++ intros Hv. apply (so_visited _ _ _ _ _ Hst) in Hv.
              destruct (so_fresh _ _ _ _ _ H1) as [Hnd Hno]. rewrite app_comm_cons in Hnd. apply NoDup_app in Hnd as (_ & Hd & _).
              destruct Hv as [Hv|Hv]; [|apply (Hd x); [destruct Hv as [->|?]; [by left|by right]|done]].
              apply (Hno x); [right; apply elem_of_app; by right|done].
      * intros x Hx%elem_of_difference Hk%elem_of_list_to_set. destruct Hx as [_ Hx]. apply Hx.
        apply (so_visited _ _ _ _ _ H1). rewrite elem_of_app. auto.
    + destruct (so_fresh _ _ _ _ _ H1) as [Hnd _]. rewrite app_comm_cons in Hnd. by apply NoDup_app in Hnd as (_ & _ & ?).
Qed.

(** The search from [s]: it returns, and discovers each node that [s] reaches,
    other than [s] and those marked before, once. *)
Lemma search_exact V0 s a0 fuel : s ∈ U → s ∉ V0 → size U ≤ fuel →
  (∀ x y, x ∈ V0 → bfs_step x y → y ∈ V0) →
  ∃ l st, bfs_loop fuel (mkSearch ({[s]} ∪ V0) [s] a0) = Ok st ∧ NoDup (s :: l) ∧
    sr_acc st = foldl discover a0 l ∧
    (∀ x, x ∈ sr_visited st ↔ x ∈ V0 ∨ x ∈ s :: l) ∧ (∀ x, x ∈ s :: l ↔ rtc bfs_step s x ∧ x ∉ V0).
Proof using HU.
  intros Hs HsV Hf HV0.
  destruct (bfs_loop_ok V0 s a0 fuel [] (mkSearch ({[s]} ∪ V0) [s] a0) Hs) as (l & st & E & Hst & Hcl & Hq).
  - split; cbn [sr_visited sr_queue sr_acc].
    + intros x. rewrite elem_of_union, elem_of_singleton, elem_of_nil. tauto.
    + split; [apply NoDup_singleton|]. by intros x ->%list_elem_of_singleton.
    + done.
    + done.
    + intros x ->%list_elem_of_singleton. done.
  - intros x y Hx Hxq Hx0. cbn [sr_visited sr_queue] in *. set_solver.
  - cbn [sr_visited sr_queue length]. assert (size (U ∖ ({[s]} ∪ V0)) < size U); [|lia]. apply subset_size. set_solver.
  - exists l, st. split_and!; [done|apply (so_fresh _ _ _ _ _ Hst)|apply (so_acc _ _ _ _ _ Hst)| |].
    + intros x. rewrite (so_visited _ _ _ _ _ Hst), elem_of_cons. tauto.
    + intros x. split; [intros Hx; split; [by apply (so_reach _ _ _ _ _ Hst)|by apply (so_fresh _ _ _ _ _ Hst)]|].
      intros [Hr Hx0]. assert (Hall : x ∈ V0 ∨ x ∈ s :: l); [|by destruct Hall].
      clear Hx0. revert x Hr. apply rtc_ind_r; [right; by left|]. intros y z _ Hyz [Hy|Hy]; [left; by eapply HV0|].
      assert (Hz : z ∈ sr_visited st).
      { apply (Hcl y z); [|by rewrite Hq; apply not_elem_of_nil|by apply (so_fresh _ _ _ _ _ Hst)|done].
        apply (so_visited _ _ _ _ _ Hst). apply elem_of_cons in Hy. tauto. }
      apply (so_visited _ _ _ _ _ Hst) in Hz. rewrite elem_of_cons. tauto.
Qed.
End bfs.

(** Whether a decidable relation on the first [n] numbers joins two of them. *)
Lemma rtc_decidable (R : nat → nat → Prop) `{!∀ x y, Decision (R x y)} n x y :
  (∀ x y, R x y → x < n ∧ y < n) → rtc R x y ∨ ¬ rtc R x y.
Proof.
  intros HR. destruct (decide (x = y)) as [->|Hne]; [by left|].
  destruct (decide (x < n)) as [Hx|Hx]; [|right; intros [?|(z & Hz & _)]%rtc_inv; [done|]; apply HR in Hz as [? _]; lia].
  set (nb := λ u, filter (R u) (seq 0 n)).
  assert (Hstep : ∀ u v, bfs_step nb (λ _, true) u v ↔ R u v).
  { intros u v. unfold bfs_step, nb. rewrite list_elem_of_filter, elem_of_seq. split; [naive_solver|].
    intros Huv. pose proof (HR u v Huv). split; [|done]. split; [done|lia]. }
  destruct (search_exact nb (λ _, true) (λ (a : unit) _, a) (list_to_set (seq 0 n))) with (V0 := ∅ : gset nat) (s := x) (a0 := ()) (fuel := n)
    as (l & st & _ & _ & _ & _ & Hl).
  - intros u v _ Huv%Hstep%HR. rewrite elem_of_list_to_set, elem_of_seq. lia.
  - rewrite elem_of_list_to_set, elem_of_seq. lia.
  - set_solver.
  - rewrite size_list_to_set, length_seq by apply NoDup_seq. done.
  - intros u v Hu. set_solver.
  - destruct (decide (y ∈ x :: l)) as [Hy|Hy].
    + left. apply Hl in Hy as [Hy _]. eapply rtc_subrel; [|exact Hy]. intros u v. apply Hstep.
    + right. intros Hp. apply Hy, Hl. split; [|set_solver]. eapply rtc_subrel; [|exact Hp]. intros u v. apply Hstep.
Qed.
