(* ===== verification/GraphDsm.v ===== *)
(** Design structure matrices ([src/src/graph/dsm.rs]): visibility counts by one
    search per node, propagation cost, and the core-periphery classification. *)

From Stdlib Require Import ZArith Sorting.Sorted.
From stdpp Require Import base numbers sets list gmap relations strings list.
From S2P Require Import Prelude Numbers BTree GraphCycles GraphInstance GraphUndirected GraphBfs.

Record DsmAnalysis := mkDsm {
  visibility_fan_out : list nat;
  visibility_fan_in : list nat;
  propagation_cost : f64;
  dsm_n : nat;
}.

Inductive CorePeriphery := Core | Shared | Control | Peripheral.
#[global] Instance CorePeriphery_eq_dec : EqDecision CorePeriphery.
Proof. solve_decision. Defined.

Definition CorePeriphery_as_str (c : CorePeriphery) : string :=
  match c with Core => "core" | Shared => "shared" | Control => "control" | Peripheral => "peripheral" end.

Record CorePeripheryResult := mkPeriphery {
  classes : list CorePeriphery; vfi_threshold : f64; vfo_threshold : f64; cyclic_core : list nat;
}.

(** [max_by_key(|c| c.len())] gives a longest list. *)
Lemma max_by_length {A} (ls : list (list A)) c :
  max_by (λ c d, Nat.compare (length c) (length d)) ls = Some c → ∀ d, d ∈ ls → length d ≤ length c.
Proof.
  destruct ls as [|x ls]; [done|]. intros [= <-].
  assert (Hge : ∀ ls (y : list A), length y ≤ length (foldl (λ m y, match Nat.compare (length m) (length y) with Gt => m | _ => y end) y ls) ∧
    ∀ d, d ∈ ls → length d ≤ length (foldl (λ m y, match Nat.compare (length m) (length y) with Gt => m | _ => y end) y ls)).
  { clear. induction ls as [|z ls IH]; intros y; cbn [foldl]; [split; [done|]; intros d []%not_elem_of_nil|].
    destruct (Nat.compare_spec (length y) (length z)) as [?|?|?].
    1,2: destruct (IH z) as [H1 H2]; split; [lia|]; intros d [->|Hd]%elem_of_cons; auto.
    destruct (IH y) as [H1 H2]. split; [done|]. intros d [->|Hd]%elem_of_cons; [lia|auto]. }
  intros d [->|Hd]%elem_of_cons; [apply (proj1 (Hge ls x))|by apply Hge].
Qed.

Section dsm.
Context {W : Type} (pg : Petgraph W).

(** A node is discovered: the count of the search, and the node's fan-in. *)
Definition dsm_discover (acc : nat * list nat) (v : nat) : nat * list nat := (S acc.1, alter S v acc.2).

(** The body of the loop over the sources; the marks are cleared for each. *)
Definition dsm_source (g : DiGraph W) (st : list nat * list nat * nat) (start : nat) :
    outcome Empty_set (list nat * list nat * nat) :=
  let '(fan_out, fan_in, total) := st in
  let* r := bfs_loop (neighbors pg g) (λ _, true) dsm_discover (node_count g) (mkSearch {[start]} [start] (0, fan_in)) in
  let '(reached, fan_in) := sr_acc r in
  Ok (<[start := reached]> fan_out, fan_in, total + reached).

Definition analyze_dsm (g : DiGraph W) : outcome Empty_set DsmAnalysis :=
  let n := node_count g in
  if decide (n = 0) then Ok (mkDsm [] [] f64_zero 0)
  else
    let* st := ofold (dsm_source g) (replicate n 0, replicate n 0, 0) (seq 0 n) in
    let '(fan_out, fan_in, total) := st in
    Ok (mkDsm fan_out fan_in
          (f64_div (f64_of_Z (Z.of_nat total)) (f64_mul (f64_of_Z (Z.of_nat n)) (f64_of_Z (Z.of_nat n)))) n).

Definition median (values : list nat) : f64 :=
  match values with
  | [] => f64_zero
  | _ =>
      let v := sort_by Nat.compare values in
      let mid := length v / 2 in
      if decide (length v mod 2 = 0) then
        f64_div (f64_of_Z (Z.of_nat (nth (mid - 1) v 0 + nth mid v 0))) (f64_of_Z 2)
      else f64_of_Z (Z.of_nat (nth mid v 0))
  end.

Definition classify_node (vfi vfo : f64) (fan_in fan_out : nat) : CorePeriphery :=
  let hi_in := f64_geb (f64_of_Z (Z.of_nat fan_in)) vfi in
  let hi_out := f64_geb (f64_of_Z (Z.of_nat fan_out)) vfo in
  match hi_in, hi_out with
  | true, true => Core
  | true, false => Shared
  | false, true => Control
  | false, false => Peripheral
  end.

(** The largest component of two or more nodes ([max_by_key]: the last of the
    largest), its nodes in order. *)
Definition largest_cyclic (g : DiGraph W) : list nat :=
  match max_by (λ c d, Nat.compare (length c) (length d)) (filter (λ c, 2 ≤ length c) (tarjan_scc pg g)) with
  | Some c => sort_by Nat.compare (remove_dups c)
  | None => []
  end.

Definition classify_core_periphery (g : DiGraph W) (dsm : DsmAnalysis) : outcome Empty_set CorePeripheryResult :=
  let vfi := median (visibility_fan_in dsm) in
  let vfo := median (visibility_fan_out dsm) in
  let* classes := omapM (λ i,
    let* fan_in := expect (visibility_fan_in dsm !! i) in
    let* fan_out := expect (visibility_fan_out dsm !! i) in
    Ok (classify_node vfi vfo fan_in fan_out)) (seq 0 (dsm_n dsm)) in
  Ok (mkPeriphery classes vfi vfo (largest_cyclic g)).

(** * Correctness *)
Context `{!PetgraphLaws pg} (g : DiGraph W) (Hok : graph_ok g).
Notation n := (node_count g).

Lemma discover_fold l c fan : NoDup l → (∀ v, v ∈ l → v < length fan) →
  foldl dsm_discover (c, fan) l = (c + length l, foldl (λ fan v, alter S v fan) fan l) ∧
  ∀ j, foldl (λ fan v, alter S v fan) fan l !! j = (if decide (j ∈ l) then S else id) <$> fan !! j.
Proof.
  revert c fan. induction l as [|v l IH]; intros c fan Hnd Hl; cbn [foldl].
  { split; [f_equal; simpl; lia|]. intros j. rewrite decide_False by apply not_elem_of_nil. by destruct (fan !! j). }
  apply NoDup_cons in Hnd as [Hv Hnd]. unfold dsm_discover at 2. cbn [fst snd].
  destruct (IH (S c) (alter S v fan)) as [-> Hj]; [done|intros w Hw; rewrite length_alter; apply Hl; by right|].
  split; [f_equal; simpl; lia|]. intros j. rewrite Hj. destruct (decide (j = v)) as [->|Hne].
  - rewrite list_lookup_alter_eq, decide_False, decide_True by (done || by left). by destruct (fan !! v).
  - rewrite list_lookup_alter_ne by done. destruct (decide (j ∈ l)) as [Hin|Hin].
    + by rewrite decide_True by (by right).
    + rewrite decide_False; [done|]. intros [?|?]%elem_of_cons; done.
Qed.

(** What the fan-in and fan-out of the first [k] sources are. *)
Record dsm_ok (k : nat) (st : list nat * list nat * nat) : Prop := {
  dk_out_length : length st.1.1 = n;
  dk_in_length : length st.1.2 = n;
  dk_out : ∀ i, i < k → ∃ X : gset nat, st.1.1 !! i = Some (size X) ∧ ∀ j, j ∈ X ↔ j ≠ i ∧ rtc (edge g) i j;
  dk_out_rest : ∀ i, k ≤ i → i < n → st.1.1 !! i = Some 0;
  dk_in : ∀ j, j < n → ∃ X : gset nat, st.1.2 !! j = Some (size X) ∧ ∀ i, i ∈ X ↔ i < k ∧ i ≠ j ∧ rtc (edge g) i j;
  dk_total : st.2 = sum_list st.1.1;
  dk_total_in : st.2 = sum_list st.1.2;
}.

Lemma sum_list_set (l : list nat) i x : l !! i = Some 0 → sum_list (<[i := x]> l) = x + sum_list l.
Proof.
  revert i. induction l as [|y l IH]; intros [|i] Hi; [done..| |].
  - injection Hi as ->. done.
  - change (<[S i := x]> (y :: l)) with (y :: <[i := x]> l). simpl. rewrite IH by done. lia.
Qed.

Lemma sum_list_bump l (fan : list nat) : (∀ v, v ∈ l → v < length fan) →
  sum_list (foldl (λ fan v, alter S v fan) fan l) = length l + sum_list fan.
Proof using Type.
  revert fan. induction l as [|v l IH]; intros fan Hl; [done|]. cbn [foldl]. rewrite IH.
  - assert (Hv : v < length fan) by (apply Hl; by left). clear -Hv. cbn [length].
    assert (sum_list (alter S v fan) = S (sum_list fan)); [|lia]. revert v Hv.
    induction fan as [|x fan IH]; intros [|v] Hv; simpl in *; [lia..|].
    change (x + sum_list (alter S v fan) = S (x + sum_list fan)). rewrite IH; lia.
  - intros w Hw. rewrite length_alter. apply Hl. by right.
Qed.

Lemma dsm_source_ok k st : k < n → dsm_ok k st → ∃ st', dsm_source g st k = Ok st' ∧ dsm_ok (S k) st'.
Proof using Hok PetgraphLaws0.
  intros Hk [H1 H2 H3 H4 H5 H6 H7]. destruct st as [[fo fi] total]. cbn [fst snd] in *. unfold dsm_source.
  set (U := list_to_set (seq 0 n) : gset nat).
  assert (HU : ∀ u, u ∈ U ↔ u < n) by (intros u; unfold U; rewrite elem_of_list_to_set, elem_of_seq; lia).
  assert (Hstep : ∀ u v, bfs_step (neighbors pg g) (λ _, true) u v ↔ edge g u v).
  { intros u v. unfold bfs_step. rewrite (neighbors_law g u v). tauto. }
  destruct (search_exact (neighbors pg g) (λ _, true) dsm_discover U) with
    (V0 := ∅ : gset nat) (s := k) (a0 := (0, fi)) (fuel := n) as (l & st & E & Hnd & Hacc & _ & Hl).
  - intros u v _ Hv%Hstep. apply HU. by apply Hok in Hv as [_ ?].
  - by apply HU.
  - set_solver.
  - unfold U. rewrite size_list_to_set by apply NoDup_seq. by rewrite length_seq.
  - intros x y Hx. set_solver.
  - replace ({[k]} ∪ ∅ : gset nat) with ({[k]} : gset nat) in E by set_solver. rewrite E. cbn [obind].
    apply NoDup_cons in Hnd as [Hkl Hnd].
    assert (Hreach : ∀ x, x ∈ l ↔ x ≠ k ∧ rtc (edge g) k x).
    { intros x. split.
      - intros Hx. split; [by intros ->|]. assert (Hx' : x ∈ k :: l) by (by right). apply Hl in Hx' as [Hr _].
        eapply rtc_subrel; [|exact Hr]. intros ? ?. apply Hstep.
      - intros [Hne Hr]. assert (Hx' : x ∈ k :: l).
        { apply Hl. split; [|set_solver]. eapply rtc_subrel; [|exact Hr]. intros ? ?. apply Hstep. }
        by apply elem_of_cons in Hx' as [?|?]. }
    assert (Hlt : ∀ v, v ∈ l → v < length fi).
    { intros v Hv%Hreach. rewrite H2. destruct Hv as [Hne Hr]. apply rtc_inv_r in Hr as [->|(w & _ & Hw)]; [done|].
      by apply Hok in Hw as [_ ?]. }
    destruct (discover_fold l 0 fi Hnd Hlt) as [Hfold Hj]. rewrite Hacc, Hfold. eexists. split; [done|].
    split; cbn [fst snd].
    + by rewrite length_insert.
    + clear -H2. revert fi H2. induction l as [|v l IH]; intros fi H2; simpl; [done|]. apply IH. by rewrite length_alter.
    + intros i Hi. destruct (decide (i = k)) as [->|Hne].
      * exists (list_to_set l). rewrite list_lookup_insert_eq by lia. split.
        { by rewrite size_list_to_set. }
        intros j. by rewrite elem_of_list_to_set.
      * rewrite list_lookup_insert_ne by done. apply H3. lia.
    + intros i Hi Hin. rewrite list_lookup_insert_ne by lia. apply H4; lia.
    + intros j Hjn. rewrite Hj. destruct (H5 j Hjn) as (X & HX & Hmem). rewrite HX. simpl.
      destruct (decide (j ∈ l)) as [Hin|Hout]; rewrite Hreach in *.
      * exists ({[k]} ∪ X). rewrite size_union, size_singleton.
        { split; [done|]. intros i. rewrite elem_of_union, elem_of_singleton, Hmem. destruct Hin as [Hne Hr].
          split; [intros [->|?]; [split_and!; [lia|done..]|naive_solver lia]|].
          intros (Hi & ? & ?). destruct (decide (i = k)) as [->|]; [by left|right; split_and!; [lia|done..]]. }
        intros i ->%elem_of_singleton [? _]%Hmem. lia.
      * exists X. split; [done|]. intros i. rewrite Hmem. split; [naive_solver lia|]. intros (Hi & Hne & Hr).
        split_and!; [|done|done]. destruct (decide (i = k)) as [->|]; [|lia]. by destruct Hout.
    + rewrite sum_list_set by (apply H4; lia). rewrite H6. lia.
    + rewrite sum_list_bump by done. lia.
Qed.

Lemma dsm_sources_ok k : k ≤ n →
  ∃ st, ofold (dsm_source g) (replicate n 0, replicate n 0, 0) (seq 0 k) = Ok st ∧ dsm_ok k st.
Proof using Hok PetgraphLaws0.
  assert (Hzero : ∀ m, sum_list (replicate m 0) = 0) by (induction m; done).
  induction k as [|k IH]; intros Hk.
  - eexists. split; [done|]. split; cbn [fst snd]; rewrite ?length_replicate, ?Hzero; try done; [lia|..].
    + intros i _ Hi. by apply lookup_replicate_2.
    + intros j Hj. exists ∅. rewrite size_empty. split; [by apply lookup_replicate_2|]. intros i. set_solver by lia.
  - destruct IH as (st & E & Hst); [lia|]. rewrite seq_S, ofold_app, E. cbn [obind].
    destruct (dsm_source_ok k st) as (st' & E' & Hst'); [lia|done|]. exists st'. simpl. by rewrite E'.
Qed.

(** C32: the analysis returns; the fan-out of a node is the number of other nodes it
    reaches, its fan-in the number of other nodes that reach it; both sum to the
    number of ordered pairs the propagation cost divides by the square of the
    node count. *)
Theorem dsm_exact : ∃ r, analyze_dsm g = Ok r ∧ dsm_n r = n ∧
  length (visibility_fan_out r) = n ∧ length (visibility_fan_in r) = n ∧
  (∀ i, i < n → ∃ X : gset nat, visibility_fan_out r !! i = Some (size X) ∧ ∀ j, j ∈ X ↔ j ≠ i ∧ rtc (edge g) i j) ∧
  (∀ j, j < n → ∃ X : gset nat, visibility_fan_in r !! j = Some (size X) ∧ ∀ i, i ∈ X ↔ i < n ∧ i ≠ j ∧ rtc (edge g) i j) ∧
  sum_list (visibility_fan_in r) = sum_list (visibility_fan_out r) ∧
  propagation_cost r = if decide (n = 0) then f64_zero else
    f64_div (f64_of_Z (Z.of_nat (sum_list (visibility_fan_out r)))) (f64_mul (f64_of_Z (Z.of_nat n)) (f64_of_Z (Z.of_nat n))).
Proof using Hok PetgraphLaws0.
  unfold analyze_dsm. destruct (decide (n = 0)) as [Hn|Hn].
  - eexists. split; [done|]. simpl. rewrite Hn. split_and!; try done; lia.
  - destruct (dsm_sources_ok n) as ([[fo fi] total] & -> & [H1 H2 H3 H4 H5 H6 H7]); [done|]. cbn [fst snd obind] in *.
    eexists. split; [done|]. simpl. split_and!; try done; [congruence|by rewrite H6].
Qed.

Lemma largest_cyclic_cases :
  (largest_cyclic g = [] ∧ ∀ c, c ∈ tarjan_scc pg g → length c < 2) ∨
  ∃ c, c ∈ tarjan_scc pg g ∧ 2 ≤ length c ∧ largest_cyclic g = sort_by Nat.compare c ∧
    ∀ d, d ∈ tarjan_scc pg g → length d ≤ length c.
Proof using Hok PetgraphLaws0.
  unfold largest_cyclic. destruct (max_by _ _) as [c|] eqn:E.
  - right. exists c. pose proof (max_by_elem _ _ _ E) as Hc. apply list_elem_of_filter in Hc as [H2 Hc].
    split_and!; [done|done| |].
    + f_equal. pose proof (scc_distinct g c Hok Hc) as Hnd. clear -Hnd.
      induction Hnd as [|x c Hx Hnd IH]; [done|]. simpl. rewrite IH. by destruct (decide_rel _ x c).
    + intros d Hd. destruct (decide (2 ≤ length d)); [|lia].
      apply (max_by_length _ _ E). by apply list_elem_of_filter.
  - left. split; [done|]. intros c Hc. apply Nat.nle_gt. intros H2.
    assert (Hin : c ∈ filter (λ c, 2 ≤ length c) (tarjan_scc pg g)) by (by apply list_elem_of_filter).
    destruct (filter _ _); [by apply not_elem_of_nil in Hin|done].
Qed.

(** The cyclic core: the nodes, in order, of a largest strongly connected
    component of two or more nodes; empty when no two nodes reach each other. *)
Theorem cyclic_core_exact (r : DsmAnalysis) c : classify_core_periphery g r = Ok c →
  (cyclic_core c = [] ↔ ∀ u v, u < n → v < n → mutual g u v → u = v) ∧
  StronglySorted ord_lt (cyclic_core c) ∧
  (∀ u, u ∈ cyclic_core c → ∀ v, v < n → v ∈ cyclic_core c ↔ mutual g u v) ∧
  ∀ u (X : gset nat), u < n → (∀ v, v ∈ X → v < n ∧ mutual g u v) → 2 ≤ size X → size X ≤ length (cyclic_core c).
Proof using Hok PetgraphLaws0.
  unfold classify_core_periphery. intros (cl & _ & [= <-])%obind_Ok_inv. simpl.
  destruct largest_cyclic_cases as [[-> Hnone]|(d & Hd & H2 & -> & Hmax)].
  - assert (Hone : ∀ u v, u < n → v < n → mutual g u v → u = v).
    { intros u v Hu Hv Huv. destruct (scc_nodes g u Hok Hu) as (e & He & Hue).
      pose proof (Hnone e He) as Hlen. apply (scc_mutual g e u v Hok He Hue Hv) in Huv.
      destruct e as [|a [|b e]]; simpl in Hlen; [by apply not_elem_of_nil in Hue| |lia]. set_solver. }
    split_and!; [done|constructor|intros u []%not_elem_of_nil|].
    intros u X Hu HX Hs. exfalso. assert (X ⊆ {[u]}) as Hsub%subseteq_size.
    { intros v Hv. apply HX in Hv as [? ?]. apply elem_of_singleton. symmetry. by apply Hone. }
    rewrite size_singleton in Hsub. lia.
  - assert (Hmem : ∀ v, v ∈ sort_by Nat.compare d ↔ v ∈ d) by (intros v; by rewrite sort_by_perm).
    split_and!.
    + split; [intros E; pose proof (sort_by_perm Nat.compare d) as Hp; rewrite E in Hp; apply Permutation_nil in Hp; subst; simpl in H2; lia|].
      intros Hone. exfalso. destruct d as [|a [|b d]]; simpl in H2; [lia..|].
      pose proof (scc_distinct g _ Hok Hd) as Hnd. apply NoDup_cons in Hnd as [Ha _]. apply Ha.
      rewrite (Hone a b); [by left|eapply scc_bound; [done..|by left]|eapply scc_bound; [done..|by right; left]|].
      eapply scc_mutual; [done|done|by left|eapply scc_bound; [done..|by right; left]|by right; left].
    + exact (sort_by_sorted (K := nat) d (scc_distinct g d Hok Hd)).
    + intros u Hu%Hmem v Hv. rewrite Hmem. by apply scc_mutual.
    + intros u X Hu HX Hs. rewrite (Permutation_length (sort_by_perm _ _)).
      destruct (scc_nodes g u Hok Hu) as (e & He & Hue). etrans; [|by apply Hmax].
      rewrite <- (size_list_to_set (C := gset nat) e) by by apply (scc_distinct g). apply subseteq_size.
      intros v Hv. apply HX in Hv as [Hv Huv]. apply elem_of_list_to_set. by apply (scc_mutual g e u v).
Qed.
End dsm.

(** Two nodes in a cycle, reached by a third that reaches a fourth. *)
Definition two_cycle : DiGraph unit := mkGraph [tt; tt; tt; tt] [(0, 1); (1, 2); (2, 1); (2, 3)].

Lemma two_cycle_ok : graph_ok two_cycle.
Proof. intros u v Huv. unfold edge in Huv. simpl in *. set_unfold. naive_solver lia. Qed.

Example two_cycle_dsm : analyze_dsm list_petgraph two_cycle =
  Ok (mkDsm [3; 2; 2; 0] [0; 2; 2; 3] (f64_div (f64_of_Z 7) (f64_of_Z 16)) 4).
Proof. by vm_compute. Qed.

Example dsm_exact_witness : ∃ r, analyze_dsm list_petgraph two_cycle = Ok r ∧ dsm_n r = 4.
Proof. destruct (dsm_exact list_petgraph two_cycle two_cycle_ok) as (r & E & Hn & _). by exists r. Defined.

Example cyclic_core_witness : ∀ c,
  classify_core_periphery list_petgraph two_cycle (mkDsm [3; 2; 2; 0] [0; 2; 2; 3] f64_zero 4) = Ok c →
  StronglySorted ord_lt (cyclic_core c).
Proof. intros c E. by destruct (cyclic_core_exact list_petgraph two_cycle two_cycle_ok _ c E) as (_ & ? & _). Defined.

Example two_cycle_core : cyclic_core <$> (match classify_core_periphery list_petgraph two_cycle
    (mkDsm [3; 2; 2; 0] [0; 2; 2; 3] f64_zero 4) with Ok c => Some c | _ => None end) = Some [1; 2].
Proof. by vm_compute. Qed.
