(* ===== verification/GraphConnectivity.v ===== *)
(** Two-edge-connected components and connected refinement of communities
    ([src/src/graph/connectivity.rs]), with the union-find they use. *)

From Stdlib Require Import Sorting.Sorted.
From stdpp Require Import base numbers sets list gmap relations.
From S2P Require Import Prelude BTree HashOrder GraphCycles GraphUndirected GraphTruss GraphCut GraphLowlink GraphCutExact GraphBfs FcaConcepts.

(** * The code *)
Record UnionFind := mkUF { uf_parent : list nat; uf_size : list nat }.

Definition uf_new (n : nat) : UnionFind := mkUF (seq 0 n) (replicate n 1).

(** The walk to the root, every other parent link shortened on the way. *)
Fixpoint uf_find (fuel : nat) (uf : UnionFind) (x : nat) : outcome Empty_set (nat * UnionFind) :=
  let* p := expect (uf_parent uf !! x) in
  if decide (p = x) then Ok (x, uf)
  else
    match fuel with
    | 0 => OutOfFuel
    | S fuel =>
        let* pp := expect (uf_parent uf !! p) in
        uf_find fuel (mkUF (<[x := pp]> (uf_parent uf)) (uf_size uf)) pp
    end.

Definition uf_union (fuel : nat) (uf : UnionFind) (a b : nat) : outcome Empty_set UnionFind :=
  let* ra := uf_find fuel uf a in
  let* rb := uf_find fuel ra.2 b in
  let '(ra, rb, uf) := (ra.1, rb.1, rb.2) in
  if decide (ra = rb) then Ok uf
  else
    let* sa := expect (uf_size uf !! ra) in
    let* sb := expect (uf_size uf !! rb) in
    let '(big, small) := if decide (sb ≤ sa) then (ra, rb) else (rb, ra) in
    let* s_small := expect (uf_size uf !! small) in
    let* s_big := expect (uf_size uf !! big) in
    Ok (mkUF (<[small := big]> (uf_parent uf)) (<[big := s_big + s_small]> (uf_size uf))).

Definition norm_pair (a b : nat) : nat * nat := if decide (a ≤ b) then (a, b) else (b, a).

Section code.
Context `{HashIter} {W : Type}.

Definition join_edge (n : nat) (bs : gset (nat * nat)) (uf : UnionFind) (e : nat * nat) : outcome Empty_set UnionFind :=
  let '(a, b) := e in
  if decide (a = b) then Ok uf
  else if decide (norm_pair a b ∈ bs) then Ok uf
  else uf_union n uf a b.

Definition add_to_group (n : nat) (st : gmap nat (list nat) * UnionFind) (ni : nat) :
    outcome Empty_set (gmap nat (list nat) * UnionFind) :=
  let* r := uf_find n st.2 ni in
  Ok (<[r.1 := default [] (st.1 !! r.1) ++ [ni]]> st.1, r.2).

(** Larger components first, then by first node; [a[0]] of an empty component
    would panic. *)
Definition comp_cmp (a b : list nat) : comparison :=
  match Nat.compare (length b) (length a) with
  | Eq => Nat.compare (nth 0 a 0) (nth 0 b 0)
  | c => c
  end.

Definition two_edge_connected_components (g : DiGraph W) : outcome Empty_set (list (list nat)) :=
  let n := node_count g in
  if decide (n = 0) then Ok []
  else
    let* cut := articulation_points_and_bridges g in
    let bs := list_to_set (map (λ e, norm_pair e.1 e.2) (bridges cut)) in
    let* uf := ofold (join_edge n bs) (uf_new n) (g_edges g) in
    let* groups := ofold (add_to_group n) (∅, uf) (seq 0 n) in
    Ok (sort_by comp_cmp (iter_map groups.1).*2).

(** [neighbors_undirected] *)
Context (neighbors_undirected : DiGraph W → nat → list nat).

(** The search of one component of a community. *)
Definition refine_start (g : DiGraph W) (members : gset nat) (st : gset nat * gmap nat nat * nat) (start : nat) :
    outcome Empty_set (gset nat * gmap nat nat * nat) :=
  let '(visited, refined, next_id) := st in
  if decide (start ∈ visited) then Ok st
  else
    let* r := bfs_loop (neighbors_undirected g) (λ nb, bool_decide (nb ∈ members)) (λ refined nb, <[nb := next_id]> refined)
                (size members) (mkSearch ({[start]} ∪ visited) [start] (<[start := next_id]> refined)) in
    Ok (sr_visited r, sr_acc r, S next_id).

Definition refine_community (g : DiGraph W) (by_comm : gmap nat (list nat)) (st : gmap nat nat * nat) (c : nat) :
    outcome Empty_set (gmap nat nat * nat) :=
  let members := sort_by Nat.compare (default [] (by_comm !! c)) in
  let* r := ofold (refine_start g (list_to_set members)) (∅, st.1, st.2) members in
  Ok (r.1.2, r.2).

Definition refine_communities_connected (g : DiGraph W) (communities : gmap nat nat) : outcome Empty_set (gmap nat nat * nat) :=
  let by_comm := foldl (λ m '(ni, c), <[c := default [] (m !! c) ++ [ni]]> m) ∅ (iter_map communities) in
  ofold (refine_community g by_comm) (∅, 0) (sort_by Nat.compare (iter_map by_comm).*1).
End code.

(** * Union-find *)
Section union_find.
Context (n : nat).

(** The forest represents [E]: parents are related to their children, roots are
    related to no other root; sizes grow towards the root. *)
Record uf_ok (E : nat → nat → Prop) (uf : UnionFind) : Prop := {
  uf_plen : length (uf_parent uf) = n;
  uf_slen : length (uf_size uf) = n;
  uf_up : ∀ x p, uf_parent uf !! x = Some p → p < n ∧ rtc E x p;
  uf_grow : ∀ x p sx sp, uf_parent uf !! x = Some p → p ≠ x → uf_size uf !! x = Some sx → uf_size uf !! p = Some sp → sx < sp;
  uf_roots : ∀ x y, uf_parent uf !! x = Some x → uf_parent uf !! y = Some y → rtc E x y → x = y;
  uf_pos : ∀ x s, uf_size uf !! x = Some s → 1 ≤ s;
}.

Lemma uf_parent_some E uf x : uf_ok E uf → x < n → ∃ p, uf_parent uf !! x = Some p ∧ p < n ∧ rtc E x p.
Proof.
  intros Hok Hx. destruct (uf_parent uf !! x) as [p|] eqn:Ep; [|apply lookup_ge_None in Ep; rewrite (uf_plen _ _ Hok) in Ep; lia].
  exists p. split; [done|]. by apply (uf_up _ _ Hok).
Qed.

Lemma uf_size_some E uf x : uf_ok E uf → x < n → ∃ s, uf_size uf !! x = Some s.
Proof.
  intros Hok Hx. destruct (uf_size uf !! x) as [s|] eqn:Es; [by exists s|]. apply lookup_ge_None in Es. rewrite (uf_slen _ _ Hok) in Es. lia.
Qed.

(** The nodes larger than a node: fewer, the closer to the root. *)
Definition larger (uf : UnionFind) (x : nat) : list nat :=
  filter (λ y, default 0 (uf_size uf !! x) < default 0 (uf_size uf !! y)) (seq 0 n).

Lemma larger_lt uf x y : x < n → y < n → default 0 (uf_size uf !! x) < default 0 (uf_size uf !! y) →
  length (larger uf y) < length (larger uf x).
Proof.
  intros Hx Hy Hlt. unfold larger.
  assert (H : ∀ l, y ∈ l → length (filter (λ z, default 0 (uf_size uf !! y) < default 0 (uf_size uf !! z)) l) <
    length (filter (λ z, default 0 (uf_size uf !! x) < default 0 (uf_size uf !! z)) l)); [|apply H, elem_of_seq; lia].
  assert (Hle : ∀ l, length (filter (λ z, default 0 (uf_size uf !! y) < default 0 (uf_size uf !! z)) l) ≤
    length (filter (λ z, default 0 (uf_size uf !! x) < default 0 (uf_size uf !! z)) l)).
  { induction l as [|z l IH]; [done|]. rewrite !filter_cons. repeat case_decide; simpl; lia. }
  induction l as [|z l IH]; [by intros ?%not_elem_of_nil|]. specialize (Hle l). rewrite !filter_cons. intros [->|Hin]%elem_of_cons.
  - rewrite decide_False, decide_True by lia. simpl. lia.
  - specialize (IH Hin). repeat case_decide; simpl; lia.
Qed.

(** A link to the grandparent keeps the forest. *)
Lemma shorten_ok E uf x p pp : uf_ok E uf → uf_parent uf !! x = Some p → p ≠ x → uf_parent uf !! p = Some pp →
  uf_ok E (mkUF (<[x := pp]> (uf_parent uf)) (uf_size uf)).
Proof.
  intros Hok Hp Hne Hpp. pose proof (uf_up _ _ Hok x p Hp) as [Hpn Hxp]. pose proof (uf_up _ _ Hok p pp Hpp) as [Hppn Hppp].
  destruct (uf_size_some E uf p Hok Hpn) as [sp Hsp].
  assert (Hppx : pp ≠ x).
  { intros ->. destruct (uf_size_some E uf x Hok) as [sx Hsx]; [done|].
    pose proof (uf_grow _ _ Hok x p sx sp Hp Hne Hsx Hsp). pose proof (uf_grow _ _ Hok p x sp sx Hpp (not_eq_sym Hne) Hsp Hsx). lia. }
  assert (Hxn : x < length (uf_parent uf)) by (by eapply lookup_lt_Some).
  split; cbn [uf_parent uf_size].
  - by rewrite length_insert, (uf_plen _ _ Hok).
  - apply (uf_slen _ _ Hok).
  - intros y q. rewrite list_lookup_insert. case_decide as Hc; [intros [= <-]; destruct Hc as [-> _]; split; [done|by etrans]|apply (uf_up _ _ Hok)].
  - intros y q sy sq. rewrite list_lookup_insert. case_decide as Hc; [|apply (uf_grow _ _ Hok)].
    destruct Hc as [<- _]. intros [= <-] _ Hsx Hspp. pose proof (uf_grow _ _ Hok x p sy sp Hp Hne Hsx Hsp).
    destruct (decide (pp = p)) as [->|Hn2]; [congruence|]. pose proof (uf_grow _ _ Hok p pp sp sq Hpp Hn2 Hsp Hspp). lia.
  - intros y z. rewrite !list_lookup_insert. case_decide as Hc; [intros [= Hy]; destruct Hc; congruence|].
    case_decide as Hc'; [intros _ [= Hz]; destruct Hc'; congruence|]. apply (uf_roots _ _ Hok).
  - apply (uf_pos _ _ Hok).
Qed.

Lemma uf_find_ok E fuel : ∀ uf x, uf_ok E uf → x < n → length (larger uf x) ≤ fuel →
  ∃ r uf', uf_find fuel uf x = Ok (r, uf') ∧ uf_ok E uf' ∧ uf_parent uf' !! r = Some r ∧ r < n ∧ rtc E x r ∧ uf_size uf' = uf_size uf ∧
    ∀ y, uf_parent uf !! y = Some y → uf_parent uf' !! y = Some y.
Proof.
  induction fuel as [|fuel IH]; intros uf x Hok Hx Hf; simpl; destruct (uf_parent_some E uf x Hok Hx) as (p & Hp & Hpn & Hxp);
    rewrite Hp; cbn [expect obind]; (destruct (decide (p = x)) as [->|Hne]; [exists x, uf; by split_and!|]);
    destruct (uf_size_some E uf x Hok Hx) as [sx Hsx]; destruct (uf_size_some E uf p Hok Hpn) as [sp Hsp];
    pose proof (uf_grow _ _ Hok x p sx sp Hp Hne Hsx Hsp) as Hlt.
  - assert (length (larger uf p) < length (larger uf x)); [|lia]. apply larger_lt; [done|done|]. rewrite Hsx, Hsp. done.
  - destruct (uf_parent_some E uf p Hok Hpn) as (pp & Hpp & Hppn & Hppp). rewrite Hpp. cbn [expect obind].
    destruct (uf_size_some E uf pp Hok Hppn) as [spp Hspp].
    assert (Hle : sp ≤ spp).
    { destruct (decide (pp = p)) as [->|Hn2]; [rewrite Hsp in Hspp; by injection Hspp as ->|].
      pose proof (uf_grow _ _ Hok p pp sp spp Hpp Hn2 Hsp Hspp). lia. }
    destruct (IH (mkUF (<[x := pp]> (uf_parent uf)) (uf_size uf)) pp) as (r & uf' & E' & H1 & H2 & H3 & H4 & H5 & H6).
    + by apply (shorten_ok E uf x p pp).
    + done.
    + change (larger (mkUF _ _) pp) with (larger uf pp). assert (length (larger uf pp) < length (larger uf x)); [|lia].
      apply larger_lt; [done|done|]. rewrite Hsx, Hspp. simpl. lia.
    + exists r, uf'. split_and!; try done; [by etrans; [|etrans]|]. intros y Hy. apply H6. simpl.
      rewrite list_lookup_insert_ne; [done|]. intros ->. congruence.
Qed.

Lemma larger_bound uf x : length (larger uf x) ≤ n.
Proof. unfold larger. etrans; [apply length_filter|]. by rewrite length_seq. Qed.

(** Joining two nodes adds the pair to the relation. *)
Definition add_pair_rel (E : nat → nat → Prop) (a b x y : nat) : Prop := E x y ∨ x = a ∧ y = b ∨ x = b ∧ y = a.

Lemma rtc_add_pair E a b x y : (∀ x y, E x y → E y x) → rtc (add_pair_rel E a b) x y →
  rtc E x y ∨ rtc E x a ∧ rtc E b y ∨ rtc E x b ∧ rtc E a y.
Proof.
  intros Hsym. induction 1 as [x|x z y Hxz _ IH]; [by left|]. destruct Hxz as [Hxz|[[-> ->]|[-> ->]]].
  - destruct IH as [IH|[[IH1 IH2]|[IH1 IH2]]]; [left|right; left; split|right; right; split]; try done; by eapply rtc_l.
  - destruct IH as [IH|[[IH1 IH2]|[IH1 IH2]]]; [right; left; by split|right; left; by split|by left].
  - destruct IH as [IH|[[IH1 IH2]|[IH1 IH2]]]; [right; right; by split|by left|right; right; by split].
Qed.

Lemma rtc_into_add E a b x y : rtc E x y → rtc (add_pair_rel E a b) x y.
Proof. apply rtc_subrel. by left. Qed.

Lemma uf_union_ok E uf a b : (∀ x y, E x y → E y x) → uf_ok E uf → a < n → b < n →
  ∃ uf', uf_union n uf a b = Ok uf' ∧ uf_ok (add_pair_rel E a b) uf'.
Proof.
  intros Hsym Hok Ha Hb. unfold uf_union.
  destruct (uf_find_ok E n uf a Hok Ha (larger_bound uf a)) as (ra & uf1 & -> & Hok1 & Hra & Hran & Hara & _). cbn [obind fst snd].
  destruct (uf_find_ok E n uf1 b Hok1 Hb (larger_bound uf1 b)) as (rb & uf2 & -> & Hok2 & Hrb & Hrbn & Hbrb & _ & Hkeep). cbn [obind fst snd].
  apply Hkeep in Hra. set (E' := add_pair_rel E a b).
  assert (Hin : ∀ x y, rtc E x y → rtc E' x y) by (intros x y; apply rtc_into_add).
  assert (Hsw : ∀ x y, rtc E x y → rtc E y x) by (intros x y; by apply rtc_sym).
  assert (Hab : rtc E' ra rb).
  { etrans; [apply Hin, Hsw, Hara|]. eapply rtc_l; [right; left; done|by apply Hin]. }
  assert (Hba : rtc E' rb ra).
  { etrans; [apply Hin, Hsw, Hbrb|]. eapply rtc_l; [right; right; done|by apply Hin]. }
  (* a root that an old root is newly related to *)
  assert (Hnew : ∀ x y, uf_parent uf2 !! x = Some x → uf_parent uf2 !! y = Some y → rtc E' x y →
    x = y ∨ x = ra ∧ y = rb ∨ x = rb ∧ y = ra).
  { intros x y Hx Hy [Hxy|[[H1 H2]|[H1 H2]]]%rtc_add_pair; [| | |done].
    - left. by apply (uf_roots _ _ Hok2).
    - right. left. split; [apply (uf_roots _ _ Hok2); [done..|by etrans]|]. symmetry. apply (uf_roots _ _ Hok2); [done..|]. etrans; [by apply Hsw|done].
    - right. right. split; [apply (uf_roots _ _ Hok2); [done..|by etrans]|]. symmetry. apply (uf_roots _ _ Hok2); [done..|]. etrans; [by apply Hsw|done]. }
  case_decide as Hrr.
  - subst rb. eexists. split; [done|]. destruct Hok2 as [H1 H2 H3 H4 H5 H6]. split; try done.
    + intros x p Hp. split; [by eapply H3|]. by eapply Hin, H3.
    + intros x y Hx Hy Hxy. destruct (Hnew x y Hx Hy Hxy) as [?|[[-> ->]|[-> ->]]]; done.
  - destruct (uf_size_some E uf2 ra Hok2 Hran) as [sa Hsa]. destruct (uf_size_some E uf2 rb Hok2 Hrbn) as [sb Hsb].
    rewrite Hsa, Hsb. cbn [expect obind].
    assert (Hlink : ∀ big small s_big s_small, (big = ra ∧ small = rb ∨ big = rb ∧ small = ra) →
      uf_size uf2 !! big = Some s_big → uf_size uf2 !! small = Some s_small → s_small ≤ s_big →
      uf_ok E' (mkUF (<[small := big]> (uf_parent uf2)) (<[big := s_big + s_small]> (uf_size uf2)))).
    { intros big small s_big s_small Hcase Hbig Hsmall Hle.
      assert (Hbn : big < n ∧ small < n) by naive_solver. destruct Hbn as [Hbn Hsn].
      assert (Hbr : uf_parent uf2 !! big = Some big ∧ uf_parent uf2 !! small = Some small ∧ rtc E' small big ∧ big ≠ small) by naive_solver.
      destruct Hbr as (Hbr & Hsr & Hsb' & Hnbs). pose proof (uf_pos _ _ Hok2 small s_small Hsmall) as Hpos.
      destruct Hok2 as [H1 H2 H3 H4 H5 H6]. split; cbn [uf_parent uf_size].
      - by rewrite length_insert.
      - by rewrite length_insert.
      - intros x p. rewrite list_lookup_insert. case_decide as Hc; [destruct Hc as [-> _]; by intros [= <-]|].
        intros Hp. split; [by eapply H3|by eapply Hin, H3].
      - intros x p sx sp. rewrite !list_lookup_insert. destruct (decide (small = x ∧ small < length (uf_parent uf2))) as [[<- _]|Hc].
        + intros [= <-] _. rewrite decide_False by (intros [? _]; congruence). rewrite decide_True by (by rewrite H2).
          rewrite Hsmall. intros [= <-] [= <-]. lia.
        + intros Hp Hne. destruct (decide (big = x ∧ big < length (uf_size uf2))) as [[<- _]|Hc1]; [rewrite Hbr in Hp; by injection Hp as ->|].
          intros Hsx. case_decide as Hc2; [destruct Hc2 as [<- _]; intros [= <-]|intros Hsp; by eapply H4].
          pose proof (H4 x big sx s_big Hp Hne Hsx Hbig). lia.
      - intros x y. rewrite !list_lookup_insert.
        case_decide as Hc; [intros [= Hx]; destruct Hc; congruence|]. case_decide as Hc'; [intros _ [= Hx]; destruct Hc'; congruence|].
        intros Hx Hy Hxy. destruct (Hnew x y Hx Hy Hxy) as [?|Hxy']; [done|]. exfalso.
        assert (x = small ∨ y = small) as [-> | ->] by naive_solver; [apply Hc|apply Hc']; (split; [done|by rewrite H1]).
      - intros x s. rewrite list_lookup_insert. case_decide; [intros [= <-]; lia|apply H6]. }
    case_decide as Hle; cbn [fst snd]; rewrite Hsa, Hsb; cbn [expect obind]; (eexists; split; [done|]).
    + apply Hlink; [by left|done..].
    + apply Hlink; [by right|done|done|lia].
Qed.

Lemma uf_new_ok : uf_ok (λ _ _, False) (uf_new n).
Proof.
  split; cbn [uf_parent uf_size uf_new].
  - apply length_seq.
  - apply length_replicate.
  - intros x p [-> ?]%lookup_seq. split; [lia|done].
  - intros x p sx sp [-> ?]%lookup_seq. by rewrite Nat.add_0_l.
  - intros x y _ _ Hxy. by apply rtc_inv in Hxy as [?|(z & [] & _)].
  - intros x s [-> _]%lookup_replicate. done.
Qed.
End union_find.

(** * Two-edge-connected components *)
Section two_edge.
Context (A : nat → nat → Prop) (Hsym : ∀ x y, A x y → A y x).

(** Joined whatever single edge is removed. *)
Definition two_edge_connected (u v : nat) : Prop := ∀ a b, rtc (avoids_edge A a b) u v.

Definition safe_edge (x y : nat) : Prop := A x y ∧ ¬ bridge A x y.

(** A path that ends outside a set leaves it for good somewhere, or was outside. *)
Lemma last_exit (C : nat → Prop) `{!∀ x, Decision (C x)} z v : ¬ C v → rtc A z v →
  rtc (inside A (λ x, ¬ C x)) z v ∨ ∃ x y, C x ∧ ¬ C y ∧ A x y ∧ rtc (inside A (λ x, ¬ C x)) y v.
Proof.
  intros Hv. induction 1 as [z|z y v Hzy Hyv IH]; [by left|]. destruct (IH Hv) as [Hin|Hex]; [|by right].
  assert (Hy : ¬ C y) by (apply rtc_inv in Hin as [->|(w & (_ & ? & _) & _)]; done).
  destruct (decide (C z)) as [Hz|Hz]; [right; by exists z, y|left]. eapply rtc_l; [|exact Hin]. by split_and!.
Qed.

Lemma safe_edges_exact n u v (Adec : ∀ x y, Decision (A x y)) (HAn : ∀ x y, A x y → x < n ∧ y < n)
  (Bdec : ∀ x y, Decision (bridge A x y)) : rtc safe_edge u v ↔ two_edge_connected u v.
Proof using Hsym.
  assert (Hdec : ∀ a b x y, rtc (avoids_edge A a b) x y ∨ ¬ rtc (avoids_edge A a b) x y).
  { intros a b x y. apply (rtc_decidable _ n). intros w z [Hwz _]. by apply HAn. }
  assert (Hs : ∀ a b x y, rtc (avoids_edge A a b) x y → rtc (avoids_edge A a b) y x).
  { intros a b x y. apply rtc_sym. intros w z (? & ? & ?). split_and!; [by apply Hsym|naive_solver..]. }
  split.
  - intros Hp a b. induction Hp as [|x y v [Hxy Hnb] _ IH]; [done|]. etrans; [|exact IH].
    assert (Hxy' : rtc (avoids_edge A x y) x y).
    { destruct (Hdec x y x y) as [|Hno]; [done|]. by destruct Hnb. }
    destruct (decide (x = a ∧ y = b)) as [[-> ->]|H1]; [done|]. destruct (decide (x = b ∧ y = a)) as [[-> ->]|H2]; [by apply AE_swap|].
    by apply rtc_once.
  - intros H. set (C := λ x, rtc safe_edge u x).
    assert (Cdec : ∀ x, C x ∨ ¬ C x).
    { intros x. apply (rtc_decidable safe_edge n). intros w z [Hwz _]. by apply HAn. }
    destruct (Cdec v) as [|Hv]; [done|exfalso].
    (* the set as a decidable one *)
    assert (Hset : ∃ X : gset nat, ∀ x, x ∈ X ↔ x < n ∧ C x).
    { clear -Cdec. induction n as [|m [X HX]]; [exists ∅; set_solver by lia|]. destruct (Cdec m) as [Hm|Hm].
      - exists ({[m]} ∪ X). intros x. rewrite elem_of_union, elem_of_singleton, HX. destruct (decide (x = m)) as [->|]; [split; [intros _; split; [lia|done]|by left]|].
        split; [intros [?|[? ?]]; [done|split; [lia|done]]|intros [? ?]; right; split; [lia|done]].
      - exists X. intros x. rewrite HX. destruct (decide (x = m)) as [->|]; [naive_solver|]. split; intros [? ?]; (split; [lia|done]). }
    destruct Hset as [X HX].
    assert (Huv : rtc A u v) by (eapply rtc_subrel; [|apply (H u u)]; by intros ? ? [? _]).
    assert (HuX : u ∈ X).
    { apply HX. split; [|apply rtc_refl]. apply rtc_inv in Huv as [->|(w & Hw & _)]; [destruct Hv; apply rtc_refl|]. by apply HAn in Hw as [? _]. }
    destruct (last_exit (λ x, x ∈ X) u v) as [Hin|(x & y & Hx & Hy & Hxy & Hyv)]; [by intros [_ ?]%HX|done| |].
    { apply rtc_inv in Hin as [E|(w & (_ & Hu & _) & _)]; [|by apply Hu]. apply HX in HuX as [_ Hu]. by rewrite E in Hu. }
    apply HX in Hx as [_ Hx].
    assert (Hyn : ¬ C y) by (intros Hc; apply Hy, HX; split; [by apply HAn in Hxy as [_ ?]|done]).
    destruct (decide (bridge A x y)) as [[_ Hb]|Hb]; [|apply Hyn; by eapply rtc_r; [exact Hx|split]].
    apply Hb. etrans; [apply Hs|etrans; [apply (H x y)|apply Hs]].
    + eapply rtc_subrel; [|exact Hx]. intros w z [Hwz Hnb]. split_and!; [done|by intros [-> ->]; apply Hnb; split|].
      intros [-> ->]. apply Hnb, bridge_sym; [done|by split].
    + eapply rtc_subrel; [|exact Hyv]. intros w z (Hwz & Hw & Hz). split_and!; [done|..]; intros [-> ->].
      * apply Hw, HX. split; [by apply HAn in Hwz as [? _]|done].
      * apply Hz, HX. split; [by apply HAn in Hwz as [_ ?]|done].
Qed.
End two_edge.

(** The edges that were joined so far. *)
Definition joined_by (bs : gset (nat * nat)) (es : list (nat * nat)) (x y : nat) : Prop :=
  x ≠ y ∧ ((x, y) ∈ es ∨ (y, x) ∈ es) ∧ norm_pair x y ∉ bs.

Lemma norm_pair_comm a b : norm_pair a b = norm_pair b a.
Proof. unfold norm_pair. repeat case_decide; try done; (f_equal; lia). Qed.

Lemma uf_ok_ext n E E' uf : (∀ x y, rtc E x y ↔ rtc E' x y) → uf_ok n E uf → uf_ok n E' uf.
Proof. intros HE [H1 H2 H3 H4 H5 H6]. split; try done; setoid_rewrite <- HE; done. Qed.

Lemma join_edges_ok n bs es done_es uf : (∀ a b, (a, b) ∈ es → a < n ∧ b < n) →
  uf_ok n (joined_by bs done_es) uf →
  ∃ uf', ofold (join_edge n bs) uf es = Ok uf' ∧ uf_ok n (joined_by bs (done_es ++ es)) uf'.
Proof.
  revert done_es uf. induction es as [|[a b] es IH]; intros done_es uf Hes Hok; cbn [ofold]; [exists uf; by rewrite app_nil_r|].
  destruct (Hes a b) as [Ha Hb]; [by left|]. assert (Hes' : ∀ a b, (a, b) ∈ es → a < n ∧ b < n) by (intros; apply Hes; by right).
  rewrite (cons_middle (a, b) done_es es), app_assoc.
  assert (Hsame : a = b ∨ norm_pair a b ∈ bs → ∀ x y, joined_by bs done_es x y ↔ joined_by bs (done_es ++ [(a, b)]) x y).
  { intros Hskip x y. unfold joined_by. setoid_rewrite elem_of_app. setoid_rewrite list_elem_of_singleton.
    split; [naive_solver|]. intros (Hne & Hin & Hn). split_and!; [done| |done].
    destruct Hin as [[?|[= -> ->]]|[?|[= -> ->]]]; auto; destruct Hskip as [?|Hs]; try done; exfalso; apply Hn; by rewrite norm_pair_comm. }
  assert (Hskip : a = b ∨ norm_pair a b ∈ bs → uf_ok n (joined_by bs (done_es ++ [(a, b)])) uf).
  { intros Hs. eapply uf_ok_ext; [|exact Hok]. intros x y. split; apply rtc_subrel; intros w z; by apply Hsame. }
  unfold join_edge at 1. case_decide as Hab; [cbn [obind]; apply IH; [done|apply Hskip; by left]|].
  case_decide as Hbs; [cbn [obind]; apply IH; [done|apply Hskip; by right]|].
  destruct (uf_union_ok n (joined_by bs done_es) uf a b) as (uf1 & -> & Hok1); [|done..|].
  { intros x y (? & ? & ?). split_and!; [done|tauto|by rewrite norm_pair_comm]. }
  cbn [obind]. apply IH; [done|]. eapply uf_ok_ext; [|exact Hok1]. intros x y. split; apply rtc_subrel; intros w z.
  - intros [(? & ? & ?)|[[-> ->]|[-> ->]]]; (split_and!; [done| |done || by rewrite norm_pair_comm]); rewrite !elem_of_app, !list_elem_of_singleton; tauto.
  - intros (Hne & Hin & Hn). rewrite !elem_of_app, !list_elem_of_singleton in Hin. unfold add_pair_rel, joined_by. naive_solver.
Qed.

Lemma groups_ok n E : (∀ x y, E x y → E y x) → ∀ k uf, k ≤ n → uf_ok n E uf →
  ∃ groups uf', ofold (add_to_group n) (∅, uf) (seq 0 k) = Ok (groups, uf') ∧ uf_ok n E uf' ∧
    (∀ r l, groups !! r = Some l → uf_parent uf' !! r = Some r ∧ l ≠ [] ∧ StronglySorted lt l ∧ ∀ x, x ∈ l ↔ x < k ∧ rtc E x r) ∧
    ∀ x, x < k → ∃ r l, groups !! r = Some l ∧ x ∈ l.
Proof.
  intros Hsym k uf. induction k as [|k IH]; intros Hk Hok; [exists ∅, uf; split_and!; [done|done|by intros r l|lia]|].
  destruct IH as (groups & uf1 & E1 & Hok1 & H1 & H2); [lia|done|]. rewrite seq_S, ofold_app, E1. cbn [obind ofold Nat.add].
  unfold add_to_group. cbn [fst snd].
  destruct (uf_find_ok n E n uf1 k Hok1 ltac:(lia) (larger_bound n uf1 k)) as (r & uf2 & -> & Hok2 & Hr & _ & Hkr & _ & Hkeep).
  cbn [obind fst snd]. eexists _, _. split; [done|]. split; [done|]. split.
  - intros r' l. destruct (decide (r' = r)) as [->|Hne].
    + rewrite lookup_insert_eq. intros [= <-]. split; [done|]. split; [by destruct (default [] (groups !! r))|].
      destruct (groups !! r) as [l|] eqn:El; simpl.
      * destruct (H1 r l El) as (_ & _ & Hs & Hm). split.
        { apply StronglySorted_snoc; [done|]. apply Forall_forall. intros x [Hx _]%Hm. lia. }
        intros x. rewrite elem_of_app, list_elem_of_singleton, Hm. destruct (decide (x = k)) as [->|]; [split; [by intros _; split; [lia|]|by right]|].
        split; [intros [[? ?]|?]; [split; [lia|done]|done]|intros [? ?]; left; split; [lia|done]].
      * split; [repeat constructor|]. intros x. rewrite list_elem_of_singleton. split; [intros ->; split; [lia|done]|].
        intros [Hx Hxr]. destruct (decide (x = k)) as [|Hne]; [done|exfalso].
        destruct (H2 x ltac:(lia)) as (r' & l' & Hl' & Hx'). destruct (H1 r' l' Hl') as (Hr' & _ & _ & Hm). apply Hm in Hx' as [_ Hxr'].
        assert (r' = r) as ->; [|congruence]. apply (uf_roots _ _ _ Hok2); [by apply Hkeep|done|]. etrans; [by apply (rtc_sym _ _ _ Hsym)|done].
    + rewrite lookup_insert_ne by done. intros Hl. destruct (H1 r' l Hl) as (Hr' & Hne' & Hs & Hm). split_and!; [by apply Hkeep|done|done|].
      intros x. rewrite Hm. split; [intros [? ?]; split; [lia|done]|]. intros [Hx Hxr]. destruct (decide (x = k)) as [->|]; [|split; [lia|done]].
      exfalso. apply Hne. apply (uf_roots _ _ _ Hok2); [by apply Hkeep|done|]. etrans; [by apply (rtc_sym _ _ _ Hsym)|done].
  - intros x Hx. destruct (decide (x = k)) as [->|].
    + exists r. eexists. rewrite lookup_insert_eq. split; [done|]. rewrite elem_of_app, list_elem_of_singleton. by right.
    + destruct (H2 x ltac:(lia)) as (r' & l & Hl & Hx'). destruct (decide (r' = r)) as [->|].
      * exists r. eexists. rewrite lookup_insert_eq, Hl. split; [done|]. simpl. rewrite elem_of_app. by left.
      * exists r', l. by rewrite lookup_insert_ne.
Qed.

(** * The order of the components *)
Definition comp_key (c : list nat) : Z * nat := ((- Z.of_nat (length c))%Z, nth 0 c 0).

Lemma comp_cmp_key a b : comp_cmp a b = ord_cmp (comp_key a) (comp_key b).
Proof.
  cbn [ord_cmp pair_ord]. unfold comp_cmp, comp_key, pair_cmp. cbn [fst snd ord_cmp Z_ord nat_ord].
  rewrite Z.compare_opp, <- Nat2Z.inj_compare. by destruct (length b ?= length a).
Qed.

Lemma sort_by_ext {X} (f h : X → X → comparison) xs : (∀ a b, f a b = h a b) → sort_by f xs = sort_by h xs.
Proof.
  intros Hfh. assert (Hins : ∀ x l, insert_by f x l = insert_by h x l).
  { intros x l. induction l as [|y l IH]; [done|]. simpl. by rewrite Hfh, IH. }
  induction xs as [|x xs IH]; [done|]. simpl. by rewrite IH, Hins.
Qed.

Definition comp_before (c d : list nat) : Prop := ord_lt (comp_key c) (comp_key d).

(** Disjoint groups with nodes: no group twice, and sorted they are in strict order. *)
Section groups.
Context `{HashIter} {K : Type} `{Countable K} (m : gmap K (list nat)).
Context (Hne : ∀ k l, m !! k = Some l → l ≠ []) (Hdisj : ∀ k l k' l' u, m !! k = Some l → m !! k' = Some l' → u ∈ l → u ∈ l' → k = k').

Lemma elem_of_groups c : c ∈ (iter_map m).*2 ↔ ∃ k, m !! k = Some c.
Proof.
  rewrite list_elem_of_fmap. split.
  - intros ([k l] & -> & Hin%elem_of_iter_map). by exists k.
  - intros (k & Hk). exists (k, c). split; [done|]. by apply elem_of_iter_map.
Qed.

Lemma groups_NoDup : NoDup (iter_map m).*2.
Proof.
  assert (Hnd : NoDup (iter_map m).*1) by apply iter_map_NoDup. apply NoDup_fmap_2_strong; [|by eapply NoDup_fmap_1].
  intros [k c] [k' d] Hin Hin' Ecd. simpl in Ecd. subst d. apply elem_of_iter_map in Hin, Hin'.
  destruct c as [|x c]; [by apply Hne in Hin|]. assert (k = k') as ->; [|done]. apply (Hdisj k (x :: c) k' (x :: c) x); [done|done|by left|by left].
Qed.

Lemma groups_sorted cs : NoDup cs → (∀ c, c ∈ cs → ∃ k, m !! k = Some c) → StronglySorted comp_before (sort_by comp_cmp cs).
Proof.
  intros Hnd Hcs. rewrite (sort_by_ext _ (λ a b, ord_cmp (comp_key a) (comp_key b))) by apply comp_cmp_key.
  apply (sort_by_key_sorted comp_key). apply NoDup_fmap_2_strong; [|done]. intros c d (k & Hk)%Hcs (k' & Hk')%Hcs Ekey.
  assert (Hhead : nth 0 c 0 = nth 0 d 0) by (by injection Ekey). pose proof (Hne k c Hk). pose proof (Hne k' d Hk').
  assert (Hx : nth 0 c 0 ∈ c) by (destruct c; [done|by left]). assert (Hx' : nth 0 d 0 ∈ d) by (destruct d; [done|by left]).
  rewrite <- Hhead in Hx'. assert (k = k') as -> by (by apply (Hdisj k c k' d (nth 0 c 0))). congruence.
Qed.
End groups.

#[global] Instance adjacent_dec {W} (g : DiGraph W) x y : Decision (adjacent g x y).
Proof. unfold adjacent, edge. apply _. Defined.

(** C18: the components: every node is in one; two nodes are in the same iff they
    stay joined whatever single edge of the undirected projection is removed;
    each lists its nodes in order; larger components come first, then by first
    node. *)
Theorem two_edge_components_exact `{HashIter} {W} (g : DiGraph W) : graph_ok g →
  ∃ comps, two_edge_connected_components g = Ok comps ∧
    (∀ u, u < node_count g → ∃ c, c ∈ comps ∧ u ∈ c) ∧
    (∀ c, c ∈ comps → c ≠ [] ∧ StronglySorted lt c ∧
       ∀ u, u ∈ c → u < node_count g ∧ ∀ v, v ∈ c ↔ v < node_count g ∧ two_edge_connected (adjacent g) u v) ∧
    StronglySorted comp_before comps.
Proof.
  intros Hok. set (A := adjacent g). set (n := node_count g). unfold two_edge_connected_components. fold n.
  case_decide as Hn; [exists []; split_and!; [done|lia|by intros c ?%not_elem_of_nil|constructor]|].
  destruct (cut_spec g Hok) as (cut & -> & _ & Hbr & _). cbn [obind]. set (bs := list_to_set _ : gset (nat * nat)).
  assert (Hsym : ∀ x y, A x y → A y x) by (intros x y; apply adjacent_sym).
  assert (HAn : ∀ x y, A x y → x < n ∧ y < n) by (intros x y; by apply adjacent_lt).
  assert (Hbs : ∀ x y, A x y → norm_pair x y ∈ bs ↔ bridge A x y).
  { intros x y HA. unfold bs. rewrite elem_of_list_to_set, list_elem_of_fmap. split.
    - intros ([a b] & E & [Hab Hb]%Hbr). unfold norm_pair in E. cbn [fst snd] in E. rewrite (decide_True (P := a ≤ b)) in E by lia.
      case_decide; injection E as -> ->; [done|by apply bridge_sym].
    - intros Hb. exists (norm_pair x y). destruct HA as [Hne _]. unfold norm_pair. case_decide.
      + cbn [fst snd]. rewrite decide_True by done. split; [done|]. apply Hbr. split; [lia|done].
      + cbn [fst snd]. rewrite decide_True by lia. split; [done|]. apply Hbr. split; [lia|by apply bridge_sym]. }
  destruct (join_edges_ok n bs (g_edges g) [] (uf_new n)) as (uf & -> & Huf).
  { intros a b Hab. apply Hok in Hab. done. }
  { eapply uf_ok_ext; [|apply uf_new_ok]. intros x y. split; apply rtc_subrel; [done|]. intros w z (_ & [Hin|Hin] & _); by apply not_elem_of_nil in Hin. }
  cbn [obind app] in Huf |- *. set (E := joined_by bs (g_edges g)) in Huf.
  assert (HE : ∀ x y, E x y ↔ safe_edge A x y).
  { intros x y. unfold E, joined_by, safe_edge. split.
    - intros (Hne & Hin & Hnb). assert (HA : A x y) by (by split). split; [done|]. by rewrite <- Hbs.
    - intros [HA Hnb]. destruct (HA) as [Hne Hin]. split_and!; [done|done|]. by rewrite Hbs. }
  assert (HEsym : ∀ x y, E x y → E y x) by (intros x y (? & ? & ?); split_and!; [done|tauto|by rewrite norm_pair_comm]).
  assert (Bdec : ∀ x y, Decision (bridge A x y)).
  { intros x y. destruct (decide (A x y)) as [HA|HA]; [|right; by intros [? _]].
    destruct (decide (norm_pair x y ∈ bs)) as [Hin|Hin]; [left|right]; by rewrite <- Hbs. }
  assert (Hsafe : ∀ x y, rtc E x y ↔ two_edge_connected A x y).
  { intros x y. rewrite <- (safe_edges_exact A Hsym n x y _ HAn Bdec). split; apply rtc_subrel; intros w z; apply HE. }
  destruct (groups_ok n E HEsym n uf (le_n _) Huf) as (groups & uf' & -> & Huf' & Hg1 & Hg2). cbn [obind fst snd].
  eexists. split; [done|]. set (comps := sort_by _ _).
  assert (Hc : ∀ c, c ∈ comps ↔ ∃ r, groups !! r = Some c) by (intros c; unfold comps; rewrite sort_by_perm; apply elem_of_groups).
  assert (Hne : ∀ r l, groups !! r = Some l → l ≠ []) by (by intros r l (_ & ? & _)%Hg1).
  assert (Hdisj : ∀ r l r' l' u, groups !! r = Some l → groups !! r' = Some l' → u ∈ l → u ∈ l' → r = r').
  { intros r l r' l' u (Hr & _ & _ & Hm)%Hg1 (Hr' & _ & _ & Hm')%Hg1 [_ Hu]%Hm [_ Hu']%Hm'. apply (uf_roots _ _ _ Huf'); [done..|].
    etrans; [by apply (rtc_sym _ _ _ HEsym)|done]. }
  split_and!.
  - intros u Hu. destruct (Hg2 u Hu) as (r & l & Hl & Hul). exists l. split; [|done]. apply Hc. by exists r.
  - intros c (r & Hr)%Hc. destruct (Hg1 r c Hr) as (_ & Hcne & Hs & Hm). split_and!; [done|done|]. intros u [Hu Hur]%Hm.
    split; [done|]. intros v. rewrite Hm, <- Hsafe. split; intros [Hv Hvr]; (split; [done|]).
    + etrans; [exact Hur|]. by apply (rtc_sym _ _ _ HEsym).
    + etrans; [|exact Hur]. by apply (rtc_sym _ _ _ HEsym).
  - apply (groups_sorted groups Hne Hdisj); [by apply groups_NoDup|]. intros c. apply elem_of_groups.
Qed.

(** * Refinement of communities *)
Section refine.
Context `{HashIter} {W : Type} (nbrs_un : DiGraph W → nat → list nat) `{!UndirectedNeighbors nbrs_un} (g : DiGraph W).

Definition touches (x y : nat) : Prop := edge g x y ∨ edge g y x.

Lemma touches_sym x y : touches x y → touches y x.
Proof. unfold touches. tauto. Qed.

Lemma elem_of_nbrs_un x y : y ∈ nbrs_un g x ↔ touches x y.
Proof. rewrite (neighbors_undirected_law g x). apply elem_of_incident. Qed.

(** One community. *)
Section community.
Context (M : gset nat).

Definition together (x y : nat) : Prop := rtc (inside touches (λ z, z ∈ M)) x y.

Lemma together_sym x y : together x y → together y x.
Proof. apply rtc_sym. intros a b (? & ? & ?). split_and!; [by apply touches_sym|done..]. Qed.

#[local] Instance together_trans : Transitive together.
Proof. intros x y z Hxy Hyz. unfold together in *. by etrans. Qed.

Lemma together_in x y : x ∈ M → together x y → y ∈ M.
Proof. intros Hx Hr. induction Hr as [|x y z (_ & _ & Hy) _ IH]; auto. Qed.

Lemma together_step x y : x ∈ M →
  rtc (bfs_step (nbrs_un g) (λ nb, bool_decide (nb ∈ M))) x y ↔ together x y.
Proof.
  intros Hx. split.
  - intros Hr. induction Hr as [|x y z [Hy Hm%bool_decide_eq_true] _ IH]; [apply rtc_refl|]. eapply rtc_l; [|by apply IH].
    split_and!; [by apply elem_of_nbrs_un|done|done].
  - apply rtc_subrel. intros a b (Hab & _ & Hb). split; [by apply elem_of_nbrs_un|by apply bool_decide_eq_true].
Qed.

(** What a prefix of the members has been given: ids from [k0] on. *)
Record part_ok (refined0 : gmap nat nat) (k0 : nat) (st : gset nat * gmap nat nat * nat) : Prop := {
  pt_in : st.1.1 ⊆ M;
  pt_closed : ∀ x y, x ∈ st.1.1 → together x y → y ∈ st.1.1;
  pt_old : ∀ x, x ∉ st.1.1 → st.1.2 !! x = refined0 !! x;
  pt_id : ∀ x, x ∈ st.1.1 → ∃ i, st.1.2 !! x = Some i ∧ k0 ≤ i < st.2;
  pt_same : ∀ x y, x ∈ st.1.1 → y ∈ st.1.1 → st.1.2 !! x = st.1.2 !! y ↔ together x y;
  pt_used : ∀ i, k0 ≤ i → i < st.2 → ∃ x, x ∈ st.1.1 ∧ st.1.2 !! x = Some i;
  pt_le : k0 ≤ st.2;
}.

Lemma insert_all (l : list nat) (i : nat) (m : gmap nat nat) x :
  foldl (λ m nb, <[nb := i]> m) m l !! x = if decide (x ∈ l) then Some i else m !! x.
Proof.
  revert m. induction l as [|y l IH]; intros m; cbn [foldl]; [by rewrite decide_False by apply not_elem_of_nil|].
  rewrite IH. destruct (decide (x ∈ l)) as [Hin|Hin]; [by rewrite decide_True by (by right)|].
  destruct (decide (x = y)) as [->|Hne]; [by rewrite lookup_insert_eq, decide_True by (by left)|].
  rewrite lookup_insert_ne by done. rewrite decide_False; [done|]. by intros [?|?]%elem_of_cons.
Qed.

Lemma refine_start_ok refined0 k0 st s : s ∈ M → part_ok refined0 k0 st →
  ∃ st', refine_start nbrs_un g M st s = Ok st' ∧ part_ok refined0 k0 st' ∧ s ∈ st'.1.1 ∧ st.1.1 ⊆ st'.1.1.
Proof.
  intros Hs Hst. destruct st as [[V m] k]. unfold refine_start. case_decide as Hv; [by eexists|].
  destruct Hst as [H1 H2 H3 H4 H5 H6 H7]. cbn [fst snd] in *.
  destruct (search_exact (nbrs_un g) (λ nb, bool_decide (nb ∈ M)) (λ (m : gmap nat nat) nb, <[nb := k]> m) M) with
    (V0 := V) (s := s) (a0 := <[s := k]> m) (fuel := size M) as (l & st & E & Hnd & Hacc & Hvis & Hl); [|done|done|done| |].
  - intros u v _ [_ Hv']. by apply bool_decide_eq_true in Hv'.
  - intros x y Hx Hxy. apply (H2 x y Hx). apply together_step; [by apply H1|]. by apply rtc_once.
  - rewrite E. cbn [obind]. eexists. split; [done|]. rewrite Hacc. cbn [fst snd].
    assert (Hmem : ∀ x, x ∈ s :: l ↔ together s x).
    { intros x. rewrite Hl, (together_step s x Hs). split; [by intros [? _]|]. intros Hx. split; [done|].
      intros HxV. apply Hv. apply (H2 x s HxV). by apply together_sym. }
    assert (Hlook : ∀ x, foldl (λ m nb, <[nb := k]> m) (<[s := k]> m) l !! x = if decide (x ∈ s :: l) then Some k else m !! x).
    { intros x. apply (insert_all (s :: l) k m x). }
    split; [split; cbn [fst snd]|split].
    + intros x [Hx|Hx%Hmem]%Hvis; [by apply H1|by eapply together_in].
    + intros x y Hx Hxy. apply Hvis. apply Hvis in Hx as [Hx|Hx]; [left; by apply (H2 x)|right].
      apply Hmem. apply Hmem in Hx. by etrans.
    + intros x Hx. rewrite Hlook, decide_False; [|intros Hin; apply Hx, Hvis; by right]. apply H3. intros Hin. apply Hx, Hvis. by left.
    + intros x Hx. rewrite Hlook. case_decide as Hin; [exists k; split; [done|lia]|]. apply Hvis in Hx as [Hx|?]; [|done].
      destruct (H4 x Hx) as (i & ? & ?). exists i. split; [done|lia].
    + assert (Hne : ∀ x y, x ∈ s :: l → y ∉ s :: l → y ∈ V → Some k = m !! y ↔ together x y).
      { intros x y Hx Hy HyV. destruct (H4 y HyV) as (i & -> & ?). split; [intros [= ->]; lia|]. intros Hxy. exfalso.
        apply Hy, Hmem. apply Hmem in Hx. by etrans. }
      intros x y Hx%Hvis Hy%Hvis. rewrite !Hlook. destruct (decide (x ∈ s :: l)) as [Hxl|Hxl], (decide (y ∈ s :: l)) as [Hyl|Hyl].
      * split; [intros _|done]. apply Hmem in Hxl, Hyl. etrans; [by apply together_sym|done].
      * destruct Hy as [Hy|?]; [|done]. by apply Hne.
      * destruct Hx as [Hx|?]; [|done]. specialize (Hne y x Hyl Hxl Hx). split; [intros E'; apply together_sym, Hne; done|].
        intros Hxy%together_sym%Hne. done.
      * destruct Hx as [Hx|?], Hy as [Hy|?]; try done. by apply H5.
    + intros i Hi Hik. destruct (decide (i = k)) as [->|].
      * exists s. split; [apply Hvis; right; by left|]. rewrite Hlook. by rewrite decide_True by (by left).
      * destruct (H6 i Hi ltac:(lia)) as (x & Hx & Hxi). exists x. split; [apply Hvis; by left|]. rewrite Hlook, decide_False; [done|].
        intros Hin. apply Hl in Hin as [_ ?]. done.
    + lia.
    + apply Hvis. right. by left.
    + intros x Hx. apply Hvis. by left.
Qed.

Lemma refine_starts_ok refined0 k0 ss : ∀ st, (∀ s, s ∈ ss → s ∈ M) → part_ok refined0 k0 st →
  ∃ st', ofold (refine_start nbrs_un g M) st ss = Ok st' ∧ part_ok refined0 k0 st' ∧ st.1.1 ⊆ st'.1.1 ∧ ∀ s, s ∈ ss → s ∈ st'.1.1.
Proof.
  induction ss as [|s ss IH]; intros st Hss Hst; cbn [ofold]; [exists st; split_and!; [done|done|done|by intros s ?%not_elem_of_nil]|].
  destruct (refine_start_ok refined0 k0 st s) as (st1 & -> & H1 & Hs1 & Hsub); [apply Hss; by left|done|]. cbn [obind].
  destruct (IH st1) as (st' & -> & H' & Hsub' & Hall); [intros; apply Hss; by right|done|]. exists st'. split_and!; [done|done|by etrans|].
  intros s' [->|Hin]%elem_of_cons; [by apply Hsub'|by apply Hall].
Qed.
End community.

(** The nodes of a community. *)
Definition members_of (communities : gmap nat nat) (by_comm : gmap nat (list nat)) : Prop :=
  ∀ c x, x ∈ default [] (by_comm !! c) ↔ communities !! x = Some c.

Lemma by_comm_ok (communities : gmap nat nat) :
  let by_comm := foldl (λ m '(ni, c), <[c := default [] (m !! c) ++ [ni]]> m) ∅ (iter_map communities) : gmap nat (list nat) in
  members_of communities by_comm ∧ ∀ c, c ∈ dom by_comm → ∃ x, communities !! x = Some c.
Proof.
  assert (Hfold : ∀ es (m : gmap nat (list nat)),
    let m' := foldl (λ m '(ni, c), <[c := default [] (m !! c) ++ [ni]]> m) m es in
    (∀ c x, x ∈ default [] (m' !! c) ↔ x ∈ default [] (m !! c) ∨ (x, c) ∈ es) ∧ ∀ c, c ∈ dom m' → c ∈ dom m ∨ ∃ x, (x, c) ∈ es).
  { induction es as [|[y d] es IH]; intros m; cbn [foldl]; [simpl; set_solver|].
    destruct (IH (<[d := default [] (m !! d) ++ [y]]> m)) as [I1 I2]. split.
    - intros c x. rewrite I1, elem_of_cons. destruct (decide (c = d)) as [->|Hne].
      + rewrite lookup_insert_eq. simpl. rewrite elem_of_app, list_elem_of_singleton. naive_solver.
      + rewrite lookup_insert_ne by done. naive_solver.
    - intros c [Hc|(x & Hx)]%I2; [|right; exists x; by right]. rewrite dom_insert, elem_of_union, elem_of_singleton in Hc.
      destruct Hc as [->|?]; [right; exists y; by left|by left]. }
  destruct (Hfold (iter_map communities) ∅) as [H1 H2]. split.
  - intros c x. rewrite H1, lookup_empty. simpl. rewrite elem_of_iter_map. split; [intros [?%not_elem_of_nil|?]; done|by right].
  - intros c [?|(x & Hx)]%H2; [set_solver|]. exists x. by apply elem_of_iter_map.
Qed.

(** In one community and joined inside it. *)
Definition joined_in (communities : gmap nat nat) (x y : nat) : Prop :=
  ∃ c, communities !! x = Some c ∧ rtc (inside touches (λ z, communities !! z = Some c)) x y.

(** The refinement returns: the same nodes, two of them in one class iff they
    are in one community and joined inside it; the ids are the numbers below
    the count. *)
Theorem refine_exact (communities : gmap nat nat) :
  ∃ refined k, refine_communities_connected nbrs_un g communities = Ok (refined, k) ∧ dom refined = dom communities ∧
    (∀ x y i j, refined !! x = Some i → refined !! y = Some j → i < k ∧ (i = j ↔ joined_in communities x y)) ∧
    ∀ i, i < k → ∃ x, refined !! x = Some i.
Proof.
  unfold refine_communities_connected. destruct (by_comm_ok communities) as [Hm Hd].
  set (by_comm := foldl _ ∅ _ : gmap nat (list nat)) in *.
  assert (Hin : ∀ c x y, rtc (inside touches (λ z, communities !! z = Some c)) x y ↔
    together (list_to_set (sort_by Nat.compare (default [] (by_comm !! c)))) x y).
  { assert (Hmem : ∀ c z, communities !! z = Some c ↔ z ∈ (list_to_set (sort_by Nat.compare (default [] (by_comm !! c))) : gset nat)).
    { intros c z. rewrite elem_of_list_to_set, sort_by_perm. symmetry. apply Hm. }
    intros c x y. split; apply rtc_subrel; intros a b (? & Ha & Hb); split_and!; try done; by apply (Hmem c). }
  assert (Hfold : ∀ cs, NoDup cs → ∃ refined k, ofold (refine_community nbrs_un g by_comm) (∅, 0) cs = Ok (refined, k) ∧
    (∀ x, x ∈ dom refined ↔ ∃ c, c ∈ cs ∧ communities !! x = Some c) ∧
    (∀ x y i j, refined !! x = Some i → refined !! y = Some j → i < k ∧ (i = j ↔ joined_in communities x y)) ∧
    ∀ i, i < k → ∃ x, refined !! x = Some i).
  { intros cs. induction cs as [|c cs IH] using rev_ind; intros Hnd.
    { exists ∅, 0. split_and!; [done| |by intros x y i j|lia]. intros x. rewrite dom_empty. split; [set_solver|]. intros (c & ?%not_elem_of_nil & _). done. }
    apply NoDup_app in Hnd as (Hnd & Hc & _). destruct (IH Hnd) as (refined & k & E & Hdom & Hsame & Hused). clear IH.
    rewrite ofold_app, E. cbn [obind ofold]. unfold refine_community. cbn [fst snd].
    set (ms := sort_by Nat.compare (default [] (by_comm !! c))) in *. set (M := list_to_set ms : gset nat).
    assert (HM : ∀ x, x ∈ M ↔ communities !! x = Some c).
    { intros x. unfold M, ms. rewrite elem_of_list_to_set, sort_by_perm. apply Hm. }
    assert (Hfresh : ∀ x, x ∈ M → x ∉ dom refined).
    { intros x Hx (d & Hd' & Hxd)%Hdom. apply HM in Hx. rewrite Hx in Hxd. injection Hxd as <-. apply (Hc c Hd'). by left. }
    destruct (refine_starts_ok M refined k ms (∅, refined, k)) as (st & E' & [P1 P2 P3 P4 P5 P6 P7] & _ & Hall).
    { intros s Hs. unfold M. by apply elem_of_list_to_set. }
    { split; cbn [fst snd]; set_solver by lia. }
    rewrite E'. cbn [obind]. destruct st as [[V m] k']. cbn [fst snd] in *. exists m, k'. split; [done|].
    assert (HV : ∀ x, x ∈ V ↔ communities !! x = Some c).
    { intros x. rewrite <- HM. split; [by apply P1|]. intros Hx. apply Hall. unfold M in Hx. by apply elem_of_list_to_set in Hx. }
    assert (Hjoin : ∀ x y, x ∈ V → joined_in communities x y ↔ together M x y).
    { intros x y Hx. unfold joined_in. apply HV in Hx. split.
      - intros (d & Hxd & Hr). rewrite Hx in Hxd. injection Hxd as <-. by apply Hin.
      - intros Hr. exists c. split; [done|]. by apply Hin. }
    assert (Hcases : ∀ x i, m !! x = Some i → x ∈ V ∧ k ≤ i < k' ∨ x ∉ V ∧ refined !! x = Some i ∧ i < k).
    { intros x i Hx. destruct (decide (x ∈ V)) as [HxV|HxV].
      - left. destruct (P4 x HxV) as (j & Hj & ?). rewrite Hx in Hj. injection Hj as <-. done.
      - right. rewrite P3 in Hx by done. split_and!; [done|done|]. by destruct (Hsame x x i i Hx Hx) as [? _]. }
    assert (Hjc : ∀ x y, joined_in communities x y → ∃ d, communities !! x = Some d ∧ communities !! y = Some d).
    { intros x y (d & Hx & Hr). exists d. split; [done|]. apply rtc_inv_r in Hr as [->|(z & _ & (_ & _ & ?))]; done. }
    split_and!.
    - intros x. rewrite elem_of_dom. setoid_rewrite elem_of_app. setoid_rewrite list_elem_of_singleton. destruct (decide (x ∈ V)) as [HxV|HxV].
      + split; [intros _|intros _; destruct (P4 x HxV) as (i & -> & _); done]. apply HV in HxV. exists c. split; [by right|done].
      + rewrite P3, <- elem_of_dom, Hdom by done. split; [intros (d & ? & ?); exists d; split; [by left|done]|].
        intros (d & [?| ->] & Hxd); [by exists d|]. by apply HV in Hxd.
    - intros x y i j Hx Hy. destruct (Hcases x i Hx) as [[HxV ?]|(HxV & Hx' & ?)], (Hcases y j Hy) as [[HyV ?]|(HyV & Hy' & ?)].
      + split; [lia|]. rewrite Hjoin, <- P5, Hx, Hy by done. split; [by intros ->|by intros [= ->]].
      + split; [lia|]. split; [lia|]. intros (d & Hxd & Hyd)%Hjc. exfalso. apply HyV, HV. apply HV in HxV. congruence.
      + split; [lia|]. split; [lia|]. intros (d & Hxd & Hyd)%Hjc. exfalso. apply HxV, HV. apply HV in HyV. congruence.
      + split; [lia|]. by apply Hsame.
    - intros i Hi. destruct (decide (k ≤ i)) as [Hk|Hk].
      + destruct (P6 i Hk Hi) as (x & _ & Hx). by exists x.
      + destruct (Hused i ltac:(lia)) as (x & Hx). exists x. rewrite P3; [done|]. intros HxV%P1%Hfresh. apply HxV, elem_of_dom. by exists i. }
  destruct (Hfold (sort_by Nat.compare (iter_map by_comm).*1)) as (refined & k & E & Hdom & Hsame & Hused).
  { rewrite sort_by_perm. apply iter_map_NoDup. }
  exists refined, k. split_and!; [done| |done|done]. apply set_eq. intros x. rewrite Hdom. split.
  - intros (c & _ & Hx). apply elem_of_dom. by exists c.
  - intros [c Hx]%elem_of_dom. exists c. split; [|done]. rewrite sort_by_perm, list_elem_of_fmap.
    pose proof (proj2 (Hm c x) Hx) as Hin'. destruct (by_comm !! c) as [l|] eqn:El; [|by apply not_elem_of_nil in Hin'].
    exists (c, l). split; [done|]. by apply elem_of_iter_map.
Qed.
End refine.

(** * Examples *)
Example bow_tie_components : two_edge_connected_components (H := canonical_iter) bow_tie = Ok [[0; 1; 2; 3; 4]; [5]].
Proof. by vm_compute. Qed.

Example two_edge_components_witness : ∃ comps, two_edge_connected_components (H := canonical_iter) bow_tie = Ok comps ∧
  ∀ u, u < node_count bow_tie → ∃ c, c ∈ comps ∧ u ∈ c.
Proof.
  destruct (two_edge_components_exact (H := canonical_iter) bow_tie bow_tie_ok) as (comps & E & Hall & _).
  exists comps. split; [exact E|exact Hall].
Defined.

(** Community 7 holds two triangles' far nodes, which only community 3 joins. *)
Definition bow_tie_communities : gmap nat nat := list_to_map [(0, 7); (1, 7); (2, 3); (3, 7); (4, 3)].

Example bow_tie_refined : (λ r : gmap nat nat * nat, (map_to_list r.1, r.2)) <$>
    match refine_communities_connected (H := canonical_iter) incident bow_tie bow_tie_communities with Ok r => Some r | _ => None end
  = Some (map_to_list (list_to_map [(2, 0); (4, 0); (0, 1); (1, 1); (3, 2)] : gmap nat nat), 3).
Proof. by vm_compute. Qed.

Example refine_exact_witness : ∃ refined k,
  refine_communities_connected (H := canonical_iter) incident bow_tie bow_tie_communities = Ok (refined, k) ∧
  dom refined = dom bow_tie_communities.
Proof.
  destruct (refine_exact (H := canonical_iter) incident bow_tie bow_tie_communities) as (refined & k & E & Hd & _).
  exists refined, k. split; [exact E|exact Hd].
Defined.
