(* ===== verification/GraphWl.v ===== *)
(** Weisfeiler-Lehman labels and structural clone classes
    ([src/src/graph/wl_hash.rs]). *)

From Stdlib Require Import ZArith Sorting.Sorted.
From stdpp Require Import base numbers sets list gmap relations sorting.
From S2P Require Import Prelude Numbers BTree HashOrder GraphCycles GraphUndirected FcaConcepts GraphConnectivity.

(** * The code *)

(** [u64::wrapping_mul], [u64::wrapping_add] *)
Definition u64_wrap (z : Z) : Z := (z mod 18446744073709551616)%Z.

Definition mix (h x : Z) : Z :=
  let z := u64_wrap (u64_wrap (u64_wrap (h * 0x100000001b3) + x) + 0x9e3779b97f4a7c15) in
  let z := u64_wrap (Z.lxor z (Z.shiftr z 30) * 0xbf58476d1ce4e5b9) in
  let z := u64_wrap (Z.lxor z (Z.shiftr z 27) * 0x94d049bb133111eb) in
  Z.lxor z (Z.shiftr z 31).

(** [neighbors_directed], [Incoming] and [Outgoing]: the other ends of the
    edges, in an order of [petgraph]'s own. *)
Definition out_nbrs {W} (g : DiGraph W) (u : nat) : list nat := (filter (λ e, e.1 = u) (g_edges g)).*2.
Definition in_nbrs {W} (g : DiGraph W) (u : nat) : list nat := (filter (λ e, e.2 = u) (g_edges g)).*1.

Class DirectedNeighbors {W} (incoming outgoing : DiGraph W → nat → list nat) : Prop := {
  incoming_law : ∀ g u, incoming g u ≡ₚ in_nbrs g u;
  outgoing_law : ∀ g u, outgoing g u ≡ₚ out_nbrs g u;
}.

#[export] Instance list_directed_neighbors {W} : DirectedNeighbors (in_nbrs (W := W)) out_nbrs.
Proof. by split. Qed.

Section code.
Context `{HashIter} {W : Type} (incoming outgoing neighbors_undirected : DiGraph W → nat → list nat).

Definition initial_label (g : DiGraph W) (ni : nat) : Z :=
  mix (mix 0xABCD (Z.of_nat (length (incoming g ni)))) (Z.of_nat (length (outgoing g ni))).

(** [labels[nb.index()]] panics out of range. *)
Definition refined_hash (g : DiGraph W) (labels : list Z) (ni : nat) : outcome Empty_set Z :=
  let* nbr := omapM (λ nb, expect (labels !! nb)) (neighbors_undirected g ni) in
  let* own := expect (labels !! ni) in
  Ok (foldl mix (mix 0x1234 own) (sort_by Z.compare nbr)).

Definition canon_step (st : gmap Z Z * list Z) (v : Z) : gmap Z Z * list Z :=
  let '(canon, out) := st in
  match canon !! v with
  | Some id => (canon, out ++ [id])
  | None => let id := Z.of_nat (size canon) in (<[v := id]> canon, out ++ [id])
  end.

Definition canonicalize (next : list Z) : list Z := (foldl canon_step (∅, []) next).2.

Definition wl_round (g : DiGraph W) (labels : list Z) : outcome Empty_set (list Z) :=
  let* next := omapM (refined_hash g labels) (seq 0 (node_count g)) in
  Ok (canonicalize next).

Definition wl_labels (g : DiGraph W) (iterations : nat) : outcome Empty_set (list Z) :=
  let n := node_count g in
  if decide (n = 0) then Ok []
  else ofold (λ labels _, wl_round g labels) (map (initial_label g) (seq 0 n)) (seq 0 iterations).

Definition structural_clone_classes (g : DiGraph W) (iterations : nat) : outcome Empty_set (list (list nat)) :=
  let* labels := wl_labels g iterations in
  let* by_label := ofold (λ (m : gmap Z (list nat)) ni,
    let* l := expect (labels !! ni) in Ok (<[l := default [] (m !! l) ++ [ni]]> m)) ∅ (seq 0 (node_count g)) in
  Ok (sort_by comp_cmp (filter (λ c, 2 ≤ length c) (iter_map by_label).*2)).
End code.

(** * Colour refinement *)
Section spec.
Context {W : Type} (g : DiGraph W).

(** Nodes that [h] rounds of refinement do not tell apart: equal degrees, and
    neighbours that correspond one to one. *)
Fixpoint wl_equiv (h u v : nat) : Prop :=
  match h with
  | 0 => length (in_nbrs g u) = length (in_nbrs g v) ∧ length (out_nbrs g u) = length (out_nbrs g v)
  | S h => wl_equiv h u v ∧ ∃ l, incident g v ≡ₚ l ∧ Forall2 (wl_equiv h) (incident g u) l
  end.

(** A renaming of the nodes that keeps the edges. *)
Definition automorphism (f : nat → nat) : Prop :=
  (∀ u, u < node_count g → f u < node_count g) ∧ (∀ u v, f u = f v → u = v) ∧
  map (λ e, (f e.1, f e.2)) (g_edges g) ≡ₚ g_edges g.

Lemma incident_automorphism f u : automorphism f →
  incident g (f u) ≡ₚ map f (incident g u) ∧ in_nbrs g (f u) ≡ₚ map f (in_nbrs g u) ∧ out_nbrs g (f u) ≡ₚ map f (out_nbrs g u).
Proof.
  intros (_ & Hinj & Hp).
  assert (Hf : ∀ (P : nat * nat → Prop) `{!∀ e, Decision (P e)} (Q : nat * nat → Prop) `{!∀ e, Decision (Q e)} es,
    (∀ e, P (f e.1, f e.2) ↔ Q e) → filter P (map (λ e, (f e.1, f e.2)) es) = map (λ e, (f e.1, f e.2)) (filter Q es)).
  { intros P ? Q ? es HPQ. induction es as [|e es IH]; [done|]. cbn [map]. rewrite !filter_cons.
    destruct (decide (Q e)) as [HQ|HQ]; [rewrite decide_True by (by apply HPQ)|rewrite decide_False by (by rewrite HPQ)]; cbn [map]; by rewrite IH. }
  set (F := λ e : nat * nat, (f e.1, f e.2)) in *.
  assert (Hout : (filter (λ e, e.1 = f u) (g_edges g)).*2 ≡ₚ map f (filter (λ e, e.1 = u) (g_edges g)).*2).
  { transitivity ((filter (λ e, e.1 = f u) (map F (g_edges g))).*2); [by rewrite Hp|].
    rewrite (Hf _ _ (λ e, e.1 = u) _) by (intros e; simpl; split; [apply Hinj|by intros ->]). by rewrite !map_map. }
  assert (Hin : (filter (λ e, e.2 = f u) (g_edges g)).*1 ≡ₚ map f (filter (λ e, e.2 = u) (g_edges g)).*1).
  { transitivity ((filter (λ e, e.2 = f u) (map F (g_edges g))).*1); [by rewrite Hp|].
    rewrite (Hf _ _ (λ e, e.2 = u) _) by (intros e; simpl; split; [apply Hinj|by intros ->]). by rewrite !map_map. }
  assert (Hin' : (filter (λ e, e.2 = f u ∧ e.1 ≠ f u) (g_edges g)).*1 ≡ₚ map f (filter (λ e, e.2 = u ∧ e.1 ≠ u) (g_edges g)).*1).
  { transitivity ((filter (λ e, e.2 = f u ∧ e.1 ≠ f u) (map F (g_edges g))).*1); [by rewrite Hp|].
    rewrite (Hf _ _ (λ e, e.2 = u ∧ e.1 ≠ u) _); [by rewrite !map_map|].
    intros e. simpl. split; [intros [?%Hinj H2]; split; [done|]; congruence|intros [-> H2]; split; [done|]; by intros ?%Hinj]. }
  split_and!; [|done|done]. unfold incident. rewrite map_app. by rewrite Hout, Hin'.
Qed.

Lemma automorphism_equiv f h u : automorphism f → wl_equiv h u (f u).
Proof.
  intros Hf. revert u. induction h as [|h IH]; intros u; destruct (incident_automorphism f u Hf) as (H1 & H2 & H3).
  - simpl. by rewrite H2, H3, !length_map.
  - split; [apply IH|]. exists (map f (incident g u)). split; [done|]. apply Forall2_fmap_r.
    apply Forall_Forall2_diag, Forall_forall. intros x _. apply IH.
Qed.
End spec.

(** * Labels and refinement *)

Lemma sort_by_perm_eq {K} `{RustOrd K} (xs ys : list K) : xs ≡ₚ ys → sort_by ord_cmp xs = sort_by ord_cmp ys.
Proof.
  assert (Hle : ∀ zs : list K, StronglySorted (λ a b, ord_cmp b a ≠ Lt) (sort_by ord_cmp zs)).
  { induction zs as [|z zs IH]; [constructor|]. simpl. revert IH. generalize (sort_by ord_cmp zs). clear. intros zs.
    induction 1 as [|y ys Hs IH Hf]; [repeat constructor|]. simpl. destruct (ord_cmp z y) eqn:E.
    - apply ord_eq in E as ->. constructor; [by constructor|]. constructor; [|done]. rewrite (proj2 (ord_eq y y) eq_refl). done.
    - assert (Hyz : ord_cmp y z ≠ Lt) by (rewrite (ord_opp z y), E; done).
      constructor; [by constructor|]. constructor; [done|]. eapply Forall_impl; [exact Hf|]. intros w Hw Hwz. apply Hw.
      by apply (ord_trans w z y).
    - constructor; [done|]. rewrite insert_by_perm. constructor; [by rewrite E|done]. }
  intros Hp. apply (StronglySorted_unique_strong (λ a b, ord_cmp b a ≠ Lt)); [|done..|by rewrite !sort_by_perm].
  intros x y _ _ Hxy Hyx. destruct (ord_cmp x y) eqn:E; [by apply ord_eq|done|]. rewrite (ord_opp x y), E in Hxy. done.
Qed.

(** Ids for equal values are equal, and only those. *)
Lemma canonicalize_spec (next : list Z) : length (canonicalize next) = length next ∧
  ∀ i j x y, next !! i = Some x → next !! j = Some y → canonicalize next !! i = canonicalize next !! j ↔ x = y.
Proof.
  assert (H : ∃ m : gmap Z Z, foldl canon_step (∅, []) next = (m, map (λ v, default 0%Z (m !! v)) next) ∧
    (∀ v, v ∈ next → is_Some (m !! v)) ∧ (∀ v i, m !! v = Some i → (i < Z.of_nat (size m))%Z) ∧
    ∀ v w i, m !! v = Some i → m !! w = Some i → v = w).
  { induction next as [|v next IH] using rev_ind; [exists ∅; split_and!; [done|by intros ? ?%not_elem_of_nil|by intros ? ?|by intros ? ? ?]|].
    destruct IH as (m & E & H1 & H2 & H3). rewrite foldl_app, E. cbn [foldl canon_step].
    destruct (m !! v) as [i|] eqn:Ev.
    - exists m. rewrite map_app. simpl. rewrite Ev. split_and!; [done| |done|done].
      intros w [Hw| ->%list_elem_of_singleton]%elem_of_app; [by apply H1|by eexists].
    - exists (<[v := Z.of_nat (size m)]> m). rewrite map_app. simpl. rewrite lookup_insert_eq. split_and!.
      + do 2 f_equal. apply map_ext_in. intros w Hw%list_elem_of_In. destruct (decide (w = v)) as [->|Hne].
        * destruct (H1 v Hw) as [? Hs]. congruence.
        * by rewrite lookup_insert_ne.
      + intros w [Hw| ->%list_elem_of_singleton]%elem_of_app; rewrite lookup_insert_is_Some; [destruct (decide (v = w)); auto|by left].
      + intros w i. rewrite map_size_insert_None by done. rewrite lookup_insert_Some. intros [[_ <-]|[_ Hi%H2]]; lia.
      + intros w w' i. rewrite !lookup_insert_Some. intros [[<- <-]|[Hn Hi]] [[<- Hj]|[Hn' Hj]]; [done|apply H2 in Hj; lia|subst; apply H2 in Hi; lia|by apply (H3 w w' i)]. }
  destruct H as (m & E & H1 & _ & H3). unfold canonicalize. rewrite E. cbn [snd]. split; [by rewrite length_map|].
  intros i j x y Hx Hy. rewrite !list_lookup_fmap, Hx, Hy. simpl.
  destruct (H1 x (list_elem_of_lookup_2 _ _ _ Hx)) as [a Ha], (H1 y (list_elem_of_lookup_2 _ _ _ Hy)) as [b Hb].
  rewrite Ha, Hb. simpl. split; [intros [= ->]; by apply (H3 x y b)|by intros ->; congruence].
Qed.

Section labels.
Context `{HashIter} {W : Type} (incoming outgoing neighbors_undirected : DiGraph W → nat → list nat).
Context `{!DirectedNeighbors incoming outgoing, !UndirectedNeighbors neighbors_undirected}.
Context (g : DiGraph W) (Hok : graph_ok g).
Notation n := (node_count g).

Notation label0 := (initial_label incoming outgoing g).

(** What is hashed for a node, as a function of the labels. *)
Definition hashed (labels : list Z) (u : nat) : Z * list Z :=
  (default 0%Z (labels !! u), sort_by Z.compare (map (λ v, default 0%Z (labels !! v)) (incident g u))).
Definition hash_of (p : Z * list Z) : Z := foldl mix (mix 0x1234 p.1) p.2.

Lemma incident_lt u v : v ∈ incident g u → v < n.
Proof. rewrite elem_of_incident. intros [Hv|Hv]; apply Hok in Hv as [? ?]; done. Qed.

Lemma refined_hash_ok labels u : length labels = n → u < n →
  refined_hash neighbors_undirected g labels u = Ok (hash_of (hashed labels u)).
Proof.
  intros Hlen Hu. unfold refined_hash.
  assert (Hm : ∀ l, (∀ v, v ∈ l → v < n) → omapM (λ nb, expect (E := Empty_set) (labels !! nb)) l = Ok (map (λ v, default 0%Z (labels !! v)) l)).
  { induction l as [|v l IH]; intros Hl; [done|]. cbn [omapM]. destruct (labels !! v) as [x|] eqn:Ev.
    - cbn [expect obind]. rewrite IH by (intros; apply Hl; by right). simpl. by rewrite Ev.
    - apply lookup_ge_None in Ev. specialize (Hl v ltac:(by left)). lia. }
  pose proof (neighbors_undirected_law g u) as Hp. rewrite Hm.
  2: { intros v. rewrite Hp. apply incident_lt. }
  cbn [obind]. destruct (labels !! u) as [x|] eqn:Eu; [|apply lookup_ge_None in Eu; lia]. cbn [expect obind].
  unfold hash_of, hashed. rewrite Eu. cbn [fst snd default]. do 2 f_equal.
  exact (sort_by_perm_eq (K := Z) _ _ (Permutation_map _ Hp)).
Qed.

Lemma wl_round_ok labels : length labels = n →
  wl_round neighbors_undirected g labels = Ok (canonicalize (map (λ u, hash_of (hashed labels u)) (seq 0 n))).
Proof.
  intros Hlen. unfold wl_round.
  assert (Hm : ∀ l, (∀ u, u ∈ l → u < n) → omapM (refined_hash neighbors_undirected g labels) l = Ok (map (λ u, hash_of (hashed labels u)) l)).
  { induction l as [|v l IH]; intros Hl; [done|]. cbn [omapM]. rewrite refined_hash_ok by (done || (apply Hl; by left)).
    cbn [obind]. by rewrite IH by (intros; apply Hl; by right). }
  by rewrite Hm by (intros u; rewrite elem_of_seq; lia).
Qed.

(** The labels after [h] rounds. *)
Fixpoint labels_after (h : nat) : list Z :=
  match h with
  | 0 => map label0 (seq 0 n)
  | S h => canonicalize (map (λ u, hash_of (hashed (labels_after h) u)) (seq 0 n))
  end.

Lemma labels_after_length h : length (labels_after h) = n.
Proof.
  destruct h; simpl; [by rewrite length_map, length_seq|]. rewrite (proj1 (canonicalize_spec _)). by rewrite length_map, length_seq.
Qed.

Lemma wl_labels_ok iterations : wl_labels incoming outgoing neighbors_undirected g iterations = Ok (labels_after iterations).
Proof.
  unfold wl_labels. case_decide as Hn.
  - f_equal. symmetry. apply nil_length_inv. by rewrite labels_after_length.
  - induction iterations as [|h IH]; [done|]. rewrite seq_S, ofold_app, IH. cbn [obind ofold]. by rewrite wl_round_ok by apply labels_after_length.
Qed.

Lemma labels_after_S h u v : u < n → v < n →
  labels_after (S h) !! u = labels_after (S h) !! v ↔ hash_of (hashed (labels_after h) u) = hash_of (hashed (labels_after h) v).
Proof.
  intros Hu Hv. apply (proj2 (canonicalize_spec _) u v); by rewrite list_lookup_fmap, lookup_seq_lt.
Qed.

Lemma label0_lookup u : u < n → labels_after 0 !! u = Some (label0 u).
Proof. intros Hu. simpl. by rewrite list_lookup_fmap, lookup_seq_lt. Qed.

Lemma label_some h u : u < n → ∃ x, labels_after h !! u = Some x.
Proof.
  intros Hu. destruct (labels_after h !! u) as [x|] eqn:E; [by exists x|]. apply lookup_ge_None in E. rewrite labels_after_length in E. lia.
Qed.

Lemma label_default h u v : u < n → v < n →
  labels_after h !! u = labels_after h !! v ↔ default 0%Z (labels_after h !! u) = default 0%Z (labels_after h !! v).
Proof.
  intros Hu Hv. destruct (label_some h u Hu) as [x ->], (label_some h v Hv) as [y ->]. simpl. split; [by intros [= ->]|by intros ->].
Qed.

(** Nodes the refinement does not tell apart have equal labels. *)
Lemma wl_equiv_labels h u v : u < n → v < n → wl_equiv g h u v → labels_after h !! u = labels_after h !! v.
Proof.
  revert u v. induction h as [|h IH]; intros u v Hu Hv Heq.
  - rewrite !label0_lookup by done. unfold initial_label. destruct Heq as [H1 H2].
    assert (Hi : ∀ w, length (incoming g w) = length (in_nbrs g w)) by (intros w; by rewrite (incoming_law (outgoing := outgoing))).
    assert (Ho : ∀ w, length (outgoing g w) = length (out_nbrs g w)) by (intros w; by rewrite (outgoing_law (incoming := incoming))).
    by rewrite !Hi, !Ho, H1, H2.
  - apply labels_after_S; [done..|]. f_equal. destruct Heq as [Heq (l & Hl & HF)]. unfold hashed. f_equal.
    + apply label_default; [done..|]. by apply IH.
    + refine (sort_by_perm_eq (K := Z) _ _ _). rewrite Hl. match goal with |- ?a ≡ₚ ?b => cut (a = b); [by intros ->|] end.
      assert (Hlu : ∀ w, w ∈ incident g u → w < n) by (intros w; apply incident_lt).
      assert (Hll : ∀ w, w ∈ l → w < n) by (intros w; rewrite <- Hl; apply incident_lt).
      clear Hl Heq. induction HF as [|a b la lb Hab HF IHF]; [done|]. simpl. f_equal.
      * apply label_default; [apply Hlu; by left|apply Hll; by left|]. apply IH; [apply Hlu; by left|apply Hll; by left|done].
      * apply IHF; [intros w Hw; apply Hlu; by right|intros w Hw; apply Hll; by right].
Qed.

(** The hash tells apart what it is given, on the labels of this graph. *)
Definition no_collision (h : nat) : Prop :=
  (∀ u v, u < n → v < n → label0 u = label0 v →
     length (in_nbrs g u) = length (in_nbrs g v) ∧ length (out_nbrs g u) = length (out_nbrs g v)) ∧
  ∀ k u v, k < h → u < n → v < n → hash_of (hashed (labels_after k) u) = hash_of (hashed (labels_after k) v) →
    hashed (labels_after k) u = hashed (labels_after k) v.

Lemma labels_wl_equiv h u v : no_collision h → u < n → v < n → labels_after h !! u = labels_after h !! v → wl_equiv g h u v.
Proof.
  revert u v. induction h as [|h IH]; intros u v [H0 HS] Hu Hv Heq.
  - apply (H0 u v Hu Hv). rewrite !label0_lookup in Heq by done. by injection Heq.
  - apply labels_after_S in Heq; [|done..]. apply HS in Heq; [|lia|done|done]. injection Heq as Hlab Hsort.
    assert (HIH : no_collision h) by (split; [exact H0|intros k x y Hk; apply HS; lia]). split.
    + apply IH; [done..|]. by apply label_default.
    + set (lab := λ w, default 0%Z (labels_after h !! w)) in *.
      assert (Hp : map lab (incident g u) ≡ₚ map lab (incident g v)).
      { rewrite <- (sort_by_perm Z.compare (map lab (incident g u))), Hsort. apply sort_by_perm. }
      assert (Hl : ∃ l, incident g v ≡ₚ l ∧ map lab l = map lab (incident g u)).
      { apply Permutation_map_inv in Hp as (l & E & Hl). exists l. split; [done|by symmetry]. }
      destruct Hl as (l & Hl & Hmap). exists l. split; [done|].
      assert (Hlu : ∀ w, w ∈ incident g u → w < n) by (intros w; apply incident_lt).
      assert (Hll : ∀ w, w ∈ l → w < n) by (intros w; rewrite <- Hl; apply incident_lt).
      clear Hp Hl Hsort. revert l Hmap Hll Hlu. generalize (incident g u). intros la. induction la as [|a la IHla]; intros [|b lb] Hmap Hll Hlu; try done.
      injection Hmap as Hab Hmap. constructor.
      * apply IH; [done|apply Hlu; by left|apply Hll; by left|]. apply label_default; [apply Hlu; by left|apply Hll; by left|]. by symmetry.
      * apply IHla; [done|intros w Hw; apply Hll; by right|intros w Hw; apply Hlu; by right].
Qed.

(** * Clone classes *)
Lemma by_label_ok (labels : list Z) k : k ≤ length labels → ∃ m : gmap Z (list nat),
  ofold (λ (m : gmap Z (list nat)) ni, let* l := expect (E := Empty_set) (labels !! ni) in Ok (<[l := default [] (m !! l) ++ [ni]]> m)) ∅ (seq 0 k) = Ok m ∧
  (∀ l c, m !! l = Some c → c ≠ [] ∧ StronglySorted lt c ∧ ∀ x, x ∈ c ↔ x < k ∧ labels !! x = Some l) ∧
  ∀ x l, x < k → labels !! x = Some l → ∃ c, m !! l = Some c.
Proof.
  induction k as [|k IH]; intros Hk; [exists ∅; split_and!; [done|by intros ? ?|lia]|].
  destruct IH as (m & E & H1 & H2); [lia|]. rewrite seq_S, ofold_app, E. cbn [obind ofold Nat.add].
  destruct (labels !! k) as [l|] eqn:El; [|apply lookup_ge_None in El; lia]. cbn [expect obind]. eexists. split; [done|]. split.
  - intros l' c. destruct (decide (l' = l)) as [->|Hne].
    + rewrite lookup_insert_eq. intros [= <-]. split; [by destruct (default [] (m !! l))|]. destruct (m !! l) as [c|] eqn:Ec; simpl.
      * destruct (H1 l c Ec) as (_ & Hs & Hm). split.
        { apply StronglySorted_snoc; [done|]. apply Forall_forall. intros x [Hx _]%Hm. lia. }
        intros x. rewrite elem_of_app, list_elem_of_singleton, Hm. destruct (decide (x = k)) as [->|]; [split; [by intros _; split; [lia|]|by right]|].
        split; [intros [[? ?]|?]; [split; [lia|done]|done]|intros [? ?]; left; split; [lia|done]].
      * split; [repeat constructor|]. intros x. rewrite list_elem_of_singleton. split; [intros ->; split; [lia|done]|].
        intros [Hx Hxl]. destruct (decide (x = k)) as [|]; [done|]. destruct (H2 x l ltac:(lia) Hxl) as [c Hc]. congruence.
    + rewrite lookup_insert_ne by done. intros Hc. destruct (H1 l' c Hc) as (Hn & Hs & Hm). split_and!; [done|done|]. intros x. rewrite Hm.
      split; [intros [? ?]; split; [lia|done]|]. intros [Hx Hxl]. split; [|done]. destruct (decide (x = k)) as [->|]; [congruence|lia].
  - intros x l' Hx Hxl. destruct (decide (l' = l)) as [->|]; [rewrite lookup_insert_eq; eauto|]. rewrite lookup_insert_ne by done.
    apply (H2 x); [|done]. destruct (decide (x = k)) as [->|]; [congruence|lia].
Qed.

(** C27: the classes after [h] rounds: nodes the refinement does not tell apart are in
    one class, and, when the hash does not collide, only those; classes have two
    or more nodes, in order, are disjoint, and come larger first. *)
Theorem clone_classes_exact h : ∃ classes,
  structural_clone_classes incoming outgoing neighbors_undirected g h = Ok classes ∧
  (∀ u v, u < n → v < n → u ≠ v → wl_equiv g h u v → ∃ c, c ∈ classes ∧ u ∈ c ∧ v ∈ c) ∧
  (no_collision h → ∀ c u v, c ∈ classes → u ∈ c → v ∈ c → wl_equiv g h u v) ∧
  (∀ c, c ∈ classes → 2 ≤ length c ∧ StronglySorted lt c ∧ ∀ u, u ∈ c → u < n) ∧
  (∀ c d u, c ∈ classes → d ∈ classes → u ∈ c → u ∈ d → c = d) ∧ StronglySorted comp_before classes.
Proof.
  unfold structural_clone_classes. rewrite wl_labels_ok. cbn [obind].
  pose proof (labels_after_length h) as Hlen. set (labels := labels_after h) in *.
  destruct (by_label_ok labels n) as (m & -> & H1 & H2); [by rewrite Hlen|]. cbn [obind]. eexists. split; [done|].
  set (cs := filter (λ c, 2 ≤ length c) (iter_map m).*2).
  assert (Hcs : ∀ c, c ∈ cs ↔ 2 ≤ length c ∧ ∃ l, m !! l = Some c).
  { intros c. unfold cs. by rewrite list_elem_of_filter, elem_of_groups. }
  assert (Hne : ∀ l c, m !! l = Some c → c ≠ []) by (by intros l c (? & _)%H1).
  assert (Hdisj : ∀ l c l' c' u, m !! l = Some c → m !! l' = Some c' → u ∈ c → u ∈ c' → l = l').
  { intros l c l' c' u Hl Hl' Hu Hu'. apply (H1 l c Hl) in Hu as [_ Hu]. apply (H1 l' c' Hl') in Hu' as [_ Hu']. congruence. }
  split_and!.
  - intros u v Hu Hv Huv Heq%wl_equiv_labels; [|done..]. destruct (label_some h u Hu) as [l Hl]. fold labels in Hl, Heq.
    destruct (H2 u l Hu Hl) as [c Hc]. destruct (H1 l c Hc) as (_ & Hs & Hm). exists c.
    assert (Huc : u ∈ c) by (by apply Hm). assert (Hvc : v ∈ c) by (apply Hm; split; [done|congruence]). split; [|done].
    rewrite sort_by_perm. apply Hcs. split; [|by exists l]. destruct c as [|a [|b c]]; simpl; [by apply not_elem_of_nil in Huc| |lia].
    apply list_elem_of_singleton in Huc, Hvc. congruence.
  - intros Hnc c u v Hc Hu Hv. rewrite sort_by_perm in Hc. apply Hcs in Hc as (_ & l & Hl).
    apply (H1 l c Hl) in Hu as [Hun Hu], Hv as [Hvn Hv]. apply labels_wl_equiv; [done..|]. unfold labels in *. congruence.
  - intros c Hc. rewrite sort_by_perm in Hc. apply Hcs in Hc as (Hc & l & Hl). destruct (H1 l c Hl) as (_ & Hs & Hm).
    split_and!; [done|done|]. by intros u [? _]%Hm.
  - intros c d u Hc Hd Hu Hu'. rewrite sort_by_perm in Hc, Hd. apply Hcs in Hc as (_ & l & Hl), Hd as (_ & l' & Hl').
    assert (l = l') as ->; [by apply (Hdisj l c l' d u)|congruence].
  - apply (groups_sorted m Hne Hdisj); [by apply NoDup_filter, groups_NoDup|]. by intros c [_ ?]%Hcs.
Qed.
End labels.

(** Two triangles, as directed cycles. *)
Definition two_triangles : DiGraph unit := mkGraph (replicate 6 tt) [(0, 1); (1, 2); (2, 0); (3, 4); (4, 5); (5, 3)].

Lemma two_triangles_ok : graph_ok two_triangles.
Proof. apply graph_ok_edges. apply (bool_decide_unpack _). by vm_compute. Qed.

Example two_triangles_classes : structural_clone_classes (H := canonical_iter) in_nbrs out_nbrs incident two_triangles 2 = Ok [[0; 1; 2; 3; 4; 5]].
Proof. by vm_compute. Qed.

Example clone_classes_exact_witness : ∃ classes,
  structural_clone_classes (H := canonical_iter) in_nbrs out_nbrs incident two_triangles 2 = Ok classes ∧
  ∀ c, c ∈ classes → 2 ≤ length c.
Proof.
  destruct (clone_classes_exact (H := canonical_iter) in_nbrs out_nbrs incident two_triangles two_triangles_ok 2) as (cs & E & _ & _ & Hc & _).
  exists cs. split; [exact E|]. intros c Hin. by apply Hc.
Defined.
