(* ===== verification/CharText.v ===== *)
(** Text as the indexer reads it: a [str] is the list of its characters, a
    character its Unicode scalar value; offsets into a [str] count UTF-8 bytes. *)

From Stdlib Require Import NArith Ascii.
From stdpp Require Import base numbers strings list.
From S2P Require Import Prelude.

Notation text := (list N).

(** * Bytes of characters *)

(** [char::len_utf8] *)
Definition len_utf8 (c : N) : N :=
  if (c <? 128)%N then 1 else if (c <? 2048)%N then 2 else if (c <? 65536)%N then 3 else 4.

(** [str::len] *)
Definition byte_len (s : text) : N := foldr (λ c n, (len_utf8 c + n)%N) 0%N s.

#[global] Arguments byte_len : simpl never.

(** The characters before and after a byte offset, when it is the start of one
    or the end. *)
Fixpoint split_at_byte (s : text) (i : N) : option (text * text) :=
  if decide (i = 0%N) then Some ([], s)
  else match s with
       | [] => None
       | c :: s =>
           if (len_utf8 c <=? i)%N then (λ p, (c :: p.1, p.2)) <$> split_at_byte s (i - len_utf8 c)
           else None
       end.

(** [str::is_char_boundary] *)
Definition is_char_boundary (s : text) (i : N) : bool := bool_decide (is_Some (split_at_byte s i)).

(** [s[i..j].to_string()], which panics unless both are boundaries, in order. *)
Definition str_slice {E} (s : text) (i j : N) : outcome E text :=
  if (i <=? j)%N then
    let* p := expect (split_at_byte s i) in
    let* q := expect (split_at_byte p.2 (j - i)) in
    Ok q.1
  else Panic.

(** * White space and lines *)

(** [char::is_whitespace] *)
Definition is_whitespace (c : N) : bool :=
  bool_decide (c ∈ [9; 10; 11; 12; 13; 32; 133; 160; 5760; 8192; 8193; 8194; 8195; 8196; 8197; 8198; 8199;
                    8200; 8201; 8202; 8232; 8233; 8239; 8287; 12288]%N).

(** [str::trim_start], [str::trim_end], [str::trim] *)
Fixpoint trim_start (s : text) : text :=
  match s with c :: s' => if is_whitespace c then trim_start s' else s | [] => [] end.
Definition trim_end (s : text) : text := reverse (trim_start (reverse s)).
Definition trim (s : text) : text := trim_end (trim_start s).

Definition newline : N := 10.
Definition carriage_return : N := 13.

(** [str::split(sep)] *)
Fixpoint split_on (sep : N) (s : text) : list text :=
  match s with
  | [] => [[]]
  | c :: s =>
      if decide (c = sep) then [] :: split_on sep s
      else match split_on sep s with [] => [[c]] | l :: ls => (c :: l) :: ls end
  end.

(** [str::lines]: split at [\n]; a [\r] before it goes, and so does an empty
    last line. *)
Definition strip_cr (l : text) : text :=
  if decide (last l = Some carriage_return) then removelast l else l.

Fixpoint parts_lines (parts : list text) : list text :=
  match parts with
  | [] => []
  | [l] => if decide (l = []) then [] else [l]
  | l :: parts => strip_cr l :: parts_lines parts
  end.

Definition lines (s : text) : list text := parts_lines (split_on newline s).

(** [[..].join(sep)] *)
Fixpoint join (sep : text) (ls : list text) : text :=
  match ls with
  | [] => []
  | [l] => l
  | l :: ls => l ++ sep ++ join sep ls
  end.

(** [str::starts_with] *)
Fixpoint starts_with (s pre : text) : bool :=
  match pre, s with
  | [], _ => true
  | c :: pre, d :: s => bool_decide (c = d) && starts_with s pre
  | _, [] => false
  end.

(** A literal of ASCII characters. *)
Fixpoint chars (s : string) : text :=
  match s with EmptyString => [] | String c s => N_of_ascii c :: chars s end.

(** * Lemmas *)
Lemma len_utf8_bound c : (1 ≤ len_utf8 c ≤ 4)%N.
Proof. unfold len_utf8. repeat case_match; lia. Qed.

Lemma byte_len_app s t : byte_len (s ++ t) = (byte_len s + byte_len t)%N.
Proof. induction s as [|c s IH]; [done|]. change (len_utf8 c + byte_len (s ++ t) = len_utf8 c + byte_len s + byte_len t)%N. lia. Qed.

Lemma byte_len_cons c s : byte_len (c :: s) = (len_utf8 c + byte_len s)%N.
Proof. done. Qed.

Lemma byte_len_nil_inv s : byte_len s = 0%N → s = [].
Proof. destruct s as [|c s]; [done|]. rewrite byte_len_cons. pose proof (len_utf8_bound c). lia. Qed.

Lemma byte_len_length s : (N.of_nat (length s) ≤ byte_len s)%N.
Proof. induction s as [|c s IH]; [done|]. rewrite byte_len_cons. pose proof (len_utf8_bound c). simpl. lia. Qed.

Lemma split_at_zero s : split_at_byte s 0 = Some ([], s).
Proof. by destruct s. Qed.

Lemma split_at_cons c s i : i ≠ 0%N → split_at_byte (c :: s) i =
  if (len_utf8 c <=? i)%N then (λ p, (c :: p.1, p.2)) <$> split_at_byte s (i - len_utf8 c) else None.
Proof. intros Hi. simpl. by destruct (decide (i = 0%N)). Qed.

Lemma split_at_byte_spec s i a t : split_at_byte s i = Some (a, t) ↔ s = a ++ t ∧ byte_len a = i.
Proof.
  revert i a. induction s as [|c s IH]; intros i a.
  - simpl. destruct (decide (i = 0%N)) as [->|Hi].
    + split; [by intros [= <- <-]|]. intros [E Ha%byte_len_nil_inv]. by simplify_eq/=.
    + split; [done|]. intros [E Ha]. symmetry in E. apply app_nil in E as [-> ->]. by destruct Hi.
  - destruct (decide (i = 0%N)) as [->|Hi].
    + rewrite split_at_zero. split; [by intros [= <- <-]|]. intros [E Ha%byte_len_nil_inv]. by simplify_eq/=.
    + rewrite split_at_cons by done. destruct (N.leb_spec (len_utf8 c) i) as [Hle|Hlt].
      * rewrite fmap_Some. split.
        { intros ([b u] & Hb & [= -> ->]). apply IH in Hb as [-> Hb]. simpl. rewrite byte_len_cons. split; [done|lia]. }
        intros [E Ha]. destruct a as [|d a]; [by subst|]. injection E as -> ->. rewrite byte_len_cons in Ha.
        exists (a, t). split; [|done]. apply IH. split; [done|lia].
      * split; [done|]. intros [E Ha]. destruct a as [|d a]; [by subst|]. injection E as -> ->.
        rewrite byte_len_cons in Ha. lia.
Qed.

Lemma split_at_byte_app a t m : split_at_byte (a ++ t) (byte_len a + m) = (λ p, (a ++ p.1, p.2)) <$> split_at_byte t m.
Proof.
  destruct (split_at_byte t m) as [[u v]|] eqn:E; simpl.
  - apply split_at_byte_spec in E as [-> <-]. apply split_at_byte_spec. by rewrite app_assoc, byte_len_app.
  - destruct (split_at_byte (a ++ t) _) as [[b v]|] eqn:E'; [|done]. exfalso.
    apply split_at_byte_spec in E' as [E1 E2].
    assert (∃ u, t = u ++ v ∧ byte_len u = m) as (u & -> & Hu).
    { clear E. revert b E1 E2. induction a as [|c a IH]; intros b E1 E2; simpl in *; [exists b; change (byte_len []) with 0%N in E2; split; [done|lia]|].
      rewrite byte_len_cons in E2. pose proof (len_utf8_bound c). destruct b as [|d b].
      - change (byte_len []) with 0%N in E2. lia.
      - injection E1 as -> E1. apply (IH b E1). rewrite byte_len_cons in E2. lia. }
    assert (split_at_byte (u ++ v) m = Some (u, v)); [by apply split_at_byte_spec|congruence].
Qed.

(** The last boundary at or before an offset is at most three bytes before it. *)
Lemma boundary_below t m : (m ≤ byte_len t)%N → ∃ u v, t = u ++ v ∧ (byte_len u ≤ m < byte_len u + 4)%N ∧
  ∀ i, (byte_len u < i ≤ m)%N → split_at_byte t i = None.
Proof.
  revert m. induction t as [|c t IH]; intros m Hm.
  - exists [], []. split; [done|]. change (byte_len []) with 0%N in *. split; [lia|]. intros i Hi. lia.
  - rewrite byte_len_cons in Hm. pose proof (len_utf8_bound c) as Hc. destruct (decide (m < len_utf8 c)%N) as [Hlt|Hge].
    + exists [], (c :: t). split; [done|]. change (byte_len []) with 0%N. split; [lia|]. intros i Hi.
      rewrite split_at_cons by lia. destruct (N.leb_spec (len_utf8 c) i); [lia|done].
    + destruct (IH (m - len_utf8 c)%N) as (u & v & -> & Hu & Hnone); [lia|]. exists (c :: u), v.
      rewrite byte_len_cons. split; [done|]. split; [lia|]. intros i Hi. rewrite split_at_cons by lia.
      destruct (N.leb_spec (len_utf8 c) i); [|done]. rewrite Hnone by lia. done.
Qed.

Lemma str_slice_mid {E} a u v : str_slice (E := E) (a ++ u ++ v) (byte_len a) (byte_len a + byte_len u) = Ok u.
Proof.
  unfold str_slice. destruct (N.leb_spec (byte_len a) (byte_len a + byte_len u)); [|lia].
  rewrite (proj2 (split_at_byte_spec _ _ _ _) (conj eq_refl eq_refl)). simpl.
  replace (byte_len a + byte_len u - byte_len a)%N with (byte_len u) by lia.
  by rewrite (proj2 (split_at_byte_spec _ _ _ _) (conj eq_refl eq_refl)).
Qed.
