(* ===== verification/Chunker.v ===== *)
(** Cutting a file into chunks ([src/src/indexer/chunker.rs]): windows of lines,
    one chunk per line of a JSONL file, and the split of oversized chunks. *)

From Stdlib Require Import ZArith.
From stdpp Require Import base numbers strings list.
From S2P Require Import Prelude Numbers CharText.

Record Chunk := mkChunk { chunk_index : Z; content : text; start_line : Z; end_line : Z }.

(** * Operations *)

Definition TSVECTOR_SAFE_CHUNK_BYTES : N := 900 * 1024.

(** The string, and whether it changed. *)
Definition strip_nul_bytes (s : text) : text * bool :=
  if decide (0%N ∈ s) then (filter (λ c, c ≠ 0%N) s, true) else (s, false).

Definition strip_nul_bytes_from_chunks (chunks : list Chunk) : list Chunk * bool :=
  foldl (λ '(out, any) c,
    let '(s, b) := strip_nul_bytes (content c) in
    (out ++ [mkChunk (chunk_index c) s (start_line c) (end_line c)], if b : bool then true else any)) ([], false) chunks.

(** [while end > start && !chunk.content.is_char_boundary(end) { end -= 1; }],
    with the source's bound on the rounds. *)
Fixpoint walk_left (fuel : nat) (s : text) (start end_ : N) : outcome Empty_set N :=
  if (start <? end_)%N && negb (is_char_boundary s end_) then
    match fuel with
    | 0 => OutOfFuel
    | S fuel => walk_left fuel s start (end_ - 1)
    end
  else Ok end_.

(** The pieces of one oversized chunk, from the offset [start]. *)
Fixpoint split_chunk (fuel : nat) (chunk : Chunk) (start : N) (out : list Chunk) (next_index : Z) :
    outcome Empty_set (list Chunk * Z) :=
  let total := byte_len (content chunk) in
  if (start <? total)%N then
    match fuel with
    | 0 => OutOfFuel
    | S fuel =>
        let* end_ := walk_left 3 (content chunk) start (N.min (start + TSVECTOR_SAFE_CHUNK_BYTES) total) in
        if decide (end_ = start) then Ok (out, next_index)
        else
          let* piece := str_slice (content chunk) start end_ in
          split_chunk fuel chunk end_ (out ++ [mkChunk next_index piece (start_line chunk) (end_line chunk)])
            (i32_wrap (next_index + 1))
    end
  else Ok (out, next_index).

Definition split_one (st : list Chunk * Z) (chunk : Chunk) : outcome Empty_set (list Chunk * Z) :=
  let '(out, next_index) := st in
  if (byte_len (content chunk) <=? TSVECTOR_SAFE_CHUNK_BYTES)%N then
    Ok (out ++ [mkChunk next_index (content chunk) (start_line chunk) (end_line chunk)], i32_wrap (next_index + 1))
  else split_chunk (length (content chunk)) chunk 0 out next_index.

Definition split_oversized_chunks (input : list Chunk) : outcome Empty_set (list Chunk) :=
  let* st := ofold split_one ([], 0%Z) input in
  Ok st.1.

(** [lines[start..end]] *)
Definition line_slice (ls : list text) (start end_ : nat) : list text := take (end_ - start) (drop start ls).

Fixpoint windows (fuel : nat) (ls : list text) (size overlap step start : nat) (idx : Z) (chunks : list Chunk) :
    outcome Empty_set (list Chunk) :=
  let total := length ls in
  if decide (start < total) then
    match fuel with
    | 0 => OutOfFuel
    | S fuel =>
        let end_ := (start + size) `min` total in
        let chunks := chunks ++ [mkChunk idx (join [newline] (line_slice ls start end_))
                                   (i32_wrap (Z.of_nat start + 1)) (i32_wrap (Z.of_nat end_))] in
        let start := start + step in
        if decide (start < total ∧ total - start < overlap) then Ok chunks
        else windows fuel ls size overlap step start (i32_wrap (idx + 1)) chunks
    end
  else Ok chunks.

Definition chunk_content (s : text) (chunk_size_lines chunk_overlap_lines : nat) : outcome Empty_set (list Chunk) :=
  let ls := lines s in
  let total_lines := length ls in
  if decide (total_lines = 0) then Ok []
  else if decide (total_lines ≤ chunk_size_lines) then Ok [mkChunk 0 s 1 (i32_wrap (Z.of_nat total_lines))]
  else windows total_lines ls chunk_size_lines chunk_overlap_lines
         ((chunk_size_lines - chunk_overlap_lines) `max` 1) 0 0 [].

(** [for (line_num, line) in content.lines().enumerate()] *)
Fixpoint jsonl_lines (ls : list text) (line_num : nat) (chunk_index : Z) : list Chunk :=
  match ls with
  | [] => []
  | line :: ls =>
      let trimmed := trim line in
      let n := i32_wrap (Z.of_nat line_num + 1) in
      if decide (trimmed = []) then jsonl_lines ls (S line_num) chunk_index
      else mkChunk chunk_index trimmed n n :: jsonl_lines ls (S line_num) (i32_wrap (chunk_index + 1))
  end.

Definition chunk_jsonl_content (s : text) : list Chunk := jsonl_lines (lines s) 0 0.

(** * The split of oversized chunks *)

(** Indices count from zero, at the width of the field. *)
Definition indexed (out : list Chunk) : Prop := ∀ i c, out !! i = Some c → chunk_index c = i32_wrap (Z.of_nat i).

(** A chunk without its index. *)
Definition body (c : Chunk) : text * Z * Z := (content c, start_line c, end_line c).

Lemma i32_wrap_succ n : i32_wrap (i32_wrap (Z.of_nat n) + 1) = i32_wrap (Z.of_nat (S n)).
Proof.
  unfold i32_wrap. replace ((Z.of_nat n + 2147483648) mod 4294967296 - 2147483648 + 1 + 2147483648)%Z
    with ((Z.of_nat n + 2147483648) mod 4294967296 + 1)%Z by lia.
  rewrite Zplus_mod_idemp_l. do 2 f_equal. lia.
Qed.

Lemma indexed_snoc out s a b : indexed out →
  indexed (out ++ [mkChunk (i32_wrap (Z.of_nat (length out))) s a b]).
Proof.
  intros Hout i c [Hi|[Hl Hi]]%lookup_app_Some; [by apply Hout|].
  apply list_lookup_singleton_Some in Hi as [Hi <-]. simpl. do 2 f_equal. lia.
Qed.

Lemma length_snoc_wrap (out : list Chunk) c :
  i32_wrap (i32_wrap (Z.of_nat (length out)) + 1) = i32_wrap (Z.of_nat (length (out ++ [c]))).
Proof. rewrite i32_wrap_succ, length_app. simpl. do 2 f_equal. lia. Qed.

Lemma walk_left_down s start e0 e : (start < e)%N → (e ≤ e0)%N → is_char_boundary s e = true →
  (∀ i, (e < i ≤ e0)%N → is_char_boundary s i = false) →
  ∀ fuel, (e0 - e ≤ N.of_nat fuel)%N → walk_left fuel s start e0 = Ok e.
Proof.
  intros Hse Hle He Hnone fuel. revert e0 Hle Hnone. induction fuel as [|fuel IH]; intros e0 Hle Hnone Hf.
  - replace e0 with e by lia. simpl. by rewrite He, andb_false_r.
  - destruct (decide (e0 = e)) as [->|Hne].
    + simpl. by rewrite He, andb_false_r.
    + simpl. rewrite Hnone by lia. destruct (N.ltb_spec start e0); [|lia]. simpl.
      apply IH; [lia| |lia]. intros i Hi. apply Hnone. lia.
Qed.

Lemma boundary_app a t m : is_char_boundary (a ++ t) (byte_len a + m) = is_char_boundary t m.
Proof. unfold is_char_boundary. rewrite split_at_byte_app. apply bool_decide_ext. by rewrite fmap_is_Some. Qed.

(** One step takes at most the limit and at least a character. *)
Lemma walk_left_piece a t : t ≠ [] → ∃ u v, t = u ++ v ∧ u ≠ [] ∧ (byte_len u ≤ TSVECTOR_SAFE_CHUNK_BYTES)%N ∧
  walk_left 3 (a ++ t) (byte_len a) (N.min (byte_len a + TSVECTOR_SAFE_CHUNK_BYTES) (byte_len (a ++ t))) =
    Ok (byte_len a + byte_len u)%N.
Proof.
  intros Ht. set (m := N.min TSVECTOR_SAFE_CHUNK_BYTES (byte_len t)).
  destruct (boundary_below t m) as (u & v & -> & Hu & Hnone); [unfold m; lia|]. exists u, v.
  assert (Hu0 : (0 < byte_len u)%N).
  { destruct u as [|c u]; [|rewrite byte_len_cons; pose proof (len_utf8_bound c); lia]. exfalso.
    change (byte_len []) with 0%N in *. simpl in *. destruct v as [|c v]; [done|].
    unfold m, TSVECTOR_SAFE_CHUNK_BYTES in Hu. rewrite byte_len_cons in Hu. pose proof (len_utf8_bound c).
    assert (Hc : (len_utf8 c ≤ m)%N).
    { destruct (decide (len_utf8 c ≤ m)%N); [done|]. unfold m, TSVECTOR_SAFE_CHUNK_BYTES in *. rewrite byte_len_cons in *. lia. }
    assert (Hs : split_at_byte (c :: v) (len_utf8 c) = Some ([c], v)).
    { apply split_at_byte_spec. split; [done|]. rewrite byte_len_cons. change (byte_len []) with 0%N. lia. }
    rewrite Hnone in Hs by lia. done. }
  split_and!; [done|intros ->; change (byte_len []) with 0%N in Hu0; lia|unfold m in Hu; lia|].
  replace (N.min (byte_len a + TSVECTOR_SAFE_CHUNK_BYTES) (byte_len (a ++ u ++ v))) with (byte_len a + m)%N
    by (rewrite (byte_len_app a); unfold m; lia).
  apply walk_left_down; [lia|lia| | |lia].
  - rewrite boundary_app. unfold is_char_boundary. rewrite (proj2 (split_at_byte_spec _ _ _ _) (conj eq_refl eq_refl)).
    by apply bool_decide_eq_true.
  - intros i Hi. replace i with (byte_len a + (i - byte_len a))%N by lia. rewrite boundary_app.
    unfold is_char_boundary. rewrite Hnone by lia. apply bool_decide_eq_false. by intros [? [=]].
Qed.

Definition pieces_of (c : Chunk) (ps : list text) : list (text * Z * Z) := map (λ p, (p, start_line c, end_line c)) ps.

Lemma split_chunk_ok c fuel : ∀ a t out, content c = a ++ t → length t ≤ fuel → indexed out →
  ∃ ps more, split_chunk fuel c (byte_len a) out (i32_wrap (Z.of_nat (length out))) =
      Ok (out ++ more, i32_wrap (Z.of_nat (length (out ++ more)))) ∧
    concat ps = t ∧ Forall (λ p, p ≠ [] ∧ (byte_len p ≤ TSVECTOR_SAFE_CHUNK_BYTES)%N) ps ∧
    map body more = pieces_of c ps ∧ indexed (out ++ more).
Proof.
  induction fuel as [|fuel IH]; intros a t out Hc Hf Hout.
  all: destruct (decide (t = [])) as [->|Ht].
  1,3: exists [], []; rewrite (app_nil_r out); rewrite app_nil_r in Hc; split_and!; [|done|constructor|done|done]; simpl; rewrite Hc;
    destruct (N.ltb_spec (byte_len a) (byte_len a)); [lia|done].
  - destruct t; simpl in Hf; [done|lia].
  - destruct (walk_left_piece a t Ht) as (u & v & -> & Hu & Hlim & Hwalk). cbn [split_chunk]. rewrite Hc, Hwalk.
    assert (Hpos : (0 < byte_len u)%N) by (destruct u as [|d u]; [done|]; rewrite byte_len_cons; pose proof (len_utf8_bound d); lia).
    rewrite !byte_len_app. destruct (N.ltb_spec (byte_len a) (byte_len a + (byte_len u + byte_len v))); [|lia].
    cbn [obind]. rewrite decide_False by lia. rewrite str_slice_mid. cbn [obind].
    rewrite (length_snoc_wrap out (mkChunk (i32_wrap (Z.of_nat (length out))) u (start_line c) (end_line c))).
    destruct (IH (a ++ u) v (out ++ [mkChunk (i32_wrap (Z.of_nat (length out))) u (start_line c) (end_line c)]))
      as (ps & more & E & Hps & Hall & Hbody & Hidx); [by rewrite <- app_assoc|rewrite length_app in Hf; destruct u; simpl in *; [done|lia]|by apply indexed_snoc|].
    exists (u :: ps), (mkChunk (i32_wrap (Z.of_nat (length out))) u (start_line c) (end_line c) :: more).
    rewrite byte_len_app in E. rewrite E. rewrite <- app_assoc in Hidx |- *. split_and!; [done| |by constructor| |done].
    + simpl. by rewrite Hps.
    + simpl. unfold pieces_of in *. simpl. by rewrite Hbody.
Qed.

(** A chunk and the texts it becomes. *)
Definition split_into (c : Chunk) (ps : list text) : Prop :=
  concat ps = content c ∧ Forall (λ p, byte_len p ≤ TSVECTOR_SAFE_CHUNK_BYTES)%N ps ∧
  if (byte_len (content c) <=? TSVECTOR_SAFE_CHUNK_BYTES)%N then ps = [content c] else Forall (λ p, p ≠ []) ps.

(** The split returns; every chunk is kept, or cut into non-empty texts within
    the limit whose concatenation it is, in order and under its lines; indices
    count from zero. *)
Theorem split_oversized_exact (input : list Chunk) : ∃ out groups, split_oversized_chunks input = Ok out ∧
  Forall2 split_into input groups ∧ map body out = concat (zip_with pieces_of input groups) ∧ indexed out.
Proof.
  assert (H : ∀ out, indexed out → ∃ more groups, ofold split_one (out, i32_wrap (Z.of_nat (length out))) input =
      Ok (out ++ more, i32_wrap (Z.of_nat (length (out ++ more)))) ∧
    Forall2 split_into input groups ∧ map body more = concat (zip_with pieces_of input groups) ∧ indexed (out ++ more)).
  { induction input as [|c input IH]; intros out Hout.
    { exists [], []. rewrite app_nil_r. split_and!; [done|constructor|done|done]. }
    cbn [ofold]. unfold split_one at 1. destruct (N.leb_spec (byte_len (content c)) TSVECTOR_SAFE_CHUNK_BYTES) as [Hle|Hgt].
    - cbn [obind]. set (c' := mkChunk (i32_wrap (Z.of_nat (length out))) (content c) (start_line c) (end_line c)).
      rewrite (length_snoc_wrap out c'). destruct (IH (out ++ [c'])) as (more & groups & -> & HF & Hb & Hi); [by apply indexed_snoc|].
      rewrite <- app_assoc in Hi |- *. exists (c' :: more), ([content c] :: groups). split_and!; [done| | |done].
      + constructor; [|done]. unfold split_into. rewrite (proj2 (N.leb_le _ _) Hle). simpl. rewrite app_nil_r. by split_and!; [|repeat constructor|].
      + simpl. by rewrite Hb.
    - destruct (split_chunk_ok c (length (content c)) [] (content c) out eq_refl (le_n _) Hout)
        as (ps & more1 & E & Hps & Hall & Hb1 & Hi1). change (byte_len []) with 0%N in E. rewrite E. cbn [obind].
      destruct (IH (out ++ more1) Hi1) as (more & groups & -> & HF & Hb & Hi). rewrite <- app_assoc in Hi |- *.
      exists (more1 ++ more), (ps :: groups). split_and!; [done| | |done].
      + constructor; [|done]. unfold split_into. rewrite (proj2 (N.leb_gt _ _) Hgt). split_and!; [done|..];
          (eapply Forall_impl; [exact Hall|]; by intros p [? ?]).
      + simpl. by rewrite map_app, Hb1, Hb. }
  destruct (H [] ltac:(by intros i c)) as (out & groups & E & HF & Hb & Hi). unfold split_oversized_chunks.
  change (i32_wrap (Z.of_nat (length []))) with 0%Z in E. rewrite E. by exists out, groups.
Qed.

(** * Windows of lines *)

(** The [i]-th window: [size] lines from line [i * step], cut at the end. *)
Definition window_end (ls : list text) (size step i : nat) : nat := (i * step + size) `min` length ls.
Definition window (ls : list text) (size step i : nat) : Chunk :=
  mkChunk (i32_wrap (Z.of_nat i)) (join [newline] (line_slice ls (i * step) (window_end ls size step i)))
    (i32_wrap (Z.of_nat (i * step) + 1)) (i32_wrap (Z.of_nat (window_end ls size step i))).

Lemma windows_ok ls size overlap step : 1 ≤ step → ∀ fuel k chunks, length ls - k * step ≤ fuel →
  ∃ m, windows fuel ls size overlap step (k * step) (i32_wrap (Z.of_nat k)) chunks =
      Ok (chunks ++ map (window ls size step) (seq k m)) ∧
    (∀ i, k ≤ i → i < k + m → i * step < length ls) ∧ (k * step < length ls → 1 ≤ m) ∧
    (length ls ≤ (k + m) * step ∨ length ls - (k + m) * step < overlap).
Proof.
  intros Hstep. induction fuel as [|fuel IH]; intros k chunks Hf.
  all: destruct (decide (k * step < length ls)) as [Hlt|Hge]; [try lia|].
  1,3: exists 0; simpl; rewrite decide_False by done; rewrite app_nil_r; split_and!; [done|lia|lia|left; lia].
  cbn [windows]. rewrite decide_True by done.
  replace (k * step + step) with (S k * step) by lia.
  case_decide as Hbreak.
  - exists 1. split_and!; [done|..]; [|lia|right; replace (k + 1) with (S k) by lia; apply Hbreak].
    intros i Hi1 Hi2. replace i with k by lia. done.
  - rewrite i32_wrap_succ.
    match goal with |- context [windows fuel ls size overlap step _ _ ?c] => destruct (IH (S k) c) as (m & -> & H1 & H2 & H3) end; [simpl; lia|].
    exists (S m). rewrite <- app_assoc. split_and!; [done|..].
    + intros i Hi1 Hi2. destruct (decide (i = k)) as [->|]; [done|]. apply H1; lia.
    + lia.
    + by replace (k + S m) with (S k + m) by lia.
Qed.

(** For a positive size and an overlap up to it: the windows start [size -
    overlap] lines apart (one line when they are equal), each starts inside the
    text, and every line is in one of them. *)
Theorem chunk_content_exact s size overlap : 1 ≤ size → overlap ≤ size →
  ∃ out, chunk_content s size overlap = Ok out ∧
    (lines s = [] → out = []) ∧
    (lines s ≠ [] → length (lines s) ≤ size → out = [mkChunk 0 s 1 (i32_wrap (Z.of_nat (length (lines s))))]) ∧
    (size < length (lines s) → let step := (size - overlap) `max` 1 in
      ∃ m, out = map (window (lines s) size step) (seq 0 m) ∧
        (∀ i, i < m → i * step < length (lines s)) ∧
        ∀ l, l < length (lines s) → ∃ i, i < m ∧ i * step ≤ l ∧ l < window_end (lines s) size step i).
Proof.
  intros Hsize Hov. unfold chunk_content. destruct (decide (length (lines s) = 0)) as [Hz|Hz].
  { eexists. split_and!; [done|done|by intros []; apply nil_length_inv|lia]. }
  destruct (decide (length (lines s) ≤ size)) as [Hle|Hgt].
  { eexists. split_and!; [done|by intros E; rewrite E in Hz|done|lia]. }
  set (step := (size - overlap) `max` 1).
  destruct (windows_ok (lines s) size overlap step ltac:(lia) (length (lines s)) 0 []) as (m & E & H1 & H2 & H3); [lia|].
  change (0 * step) with 0 in E. change (i32_wrap (Z.of_nat 0)) with 0%Z in E. rewrite E.
  eexists. split_and!; [done|by intros E'; rewrite E' in Hz|lia|]. intros _. exists m. split_and!; [done|intros i Hi; apply H1; lia|].
  specialize (H2 ltac:(lia)). intros l Hl. unfold window_end. simpl in H3.
  assert (Hlast : length (lines s) ≤ (m - 1) * step + size).
  { assert (m * step = (m - 1) * step + step) by nia. lia. }
  destruct (decide (l < m * step)) as [Hin|Hout].
  - exists (l / step). pose proof (Nat.div_mod l step ltac:(lia)). pose proof (Nat.mod_upper_bound l step ltac:(lia)).
    assert (l / step < m) by (apply Nat.Div0.div_lt_upper_bound; lia). split_and!; [done|lia|lia].
  - exists (m - 1). assert (m * step = (m - 1) * step + step) by nia. split_and!; lia.
Qed.

(** With an overlap wider than the size the check for a short tail stops the
    loop before the tail is covered: of a text with no more lines than the
    overlap only the first [size] lines are kept. *)
Theorem wide_overlap_drops_lines s size overlap : size < length (lines s) → length (lines s) ≤ overlap →
  ∃ c, chunk_content s size overlap = Ok [c] ∧ content c = join [newline] (take size (lines s)).
Proof.
  intros H1 H2. exists (window (lines s) size 1 0). split.
  - unfold chunk_content. rewrite !decide_False by lia. replace ((size - overlap) `max` 1) with 1 by lia.
    assert (Hone : ∀ fuel idx chunks, length (lines s) ≤ 1 →
      windows fuel (lines s) size overlap 1 1 idx chunks = Ok chunks).
    { intros fuel idx chunks Hlen. destruct fuel; cbn [windows]; by rewrite decide_False by lia. }
    destruct (length (lines s)) as [|n] eqn:En; [lia|]. cbn [windows]. rewrite En, decide_True by lia.
    case_decide as Hbreak; [|rewrite Hone by lia]; by unfold window, window_end; rewrite En.
  - unfold window, window_end, line_slice. cbn [content]. f_equal. simpl. rewrite drop_0. f_equal. lia.
Qed.

(** [0\n1\n2\n3\n4] in chunks of two lines. *)
Definition five_lines : text := chars "0" ++ [newline] ++ chars "1" ++ [newline] ++ chars "2" ++ [newline] ++ chars "3" ++ [newline] ++ chars "4".

Example five_lines_chunks : chunk_content five_lines 2 1 =
  Ok [mkChunk 0 (chars "0" ++ [newline] ++ chars "1") 1 2; mkChunk 1 (chars "1" ++ [newline] ++ chars "2") 2 3;
      mkChunk 2 (chars "2" ++ [newline] ++ chars "3") 3 4; mkChunk 3 (chars "3" ++ [newline] ++ chars "4") 4 5;
      mkChunk 4 (chars "4") 5 5].
Proof. by vm_compute. Qed.

Example chunk_content_exact_witness : ∃ out, chunk_content five_lines 2 1 = Ok out ∧ length (lines five_lines) = 5.
Proof. destruct (chunk_content_exact five_lines 2 1) as (out & E & _); [lia|lia|]. by exists out. Defined.

Example wide_overlap_drops_lines_witness : ∃ c, chunk_content five_lines 2 5 = Ok [c] ∧
  content c = join [newline] (take 2 (lines five_lines)).
Proof. apply wide_overlap_drops_lines; vm_compute; lia. Defined.

(** * Lines of JSONL *)

Lemma jsonl_lines_spec ls n k : map body (jsonl_lines ls n (i32_wrap (Z.of_nat k))) =
    map (λ '(i, l), (trim l, i32_wrap (Z.of_nat i + 1), i32_wrap (Z.of_nat i + 1)))
      (filter (λ p, trim p.2 ≠ []) (zip (seq n (length ls)) ls)) ∧
  ∀ i c, jsonl_lines ls n (i32_wrap (Z.of_nat k)) !! i = Some c → chunk_index c = i32_wrap (Z.of_nat (k + i)).
Proof.
  revert n k. induction ls as [|l ls IH]; intros n k; [by split|]. cbn [jsonl_lines length seq zip zip_with].
  rewrite filter_cons. cbn [snd]. destruct (decide (trim l = [])) as [E|E].
  - rewrite decide_False by tauto. apply IH.
  - rewrite decide_True by done. rewrite i32_wrap_succ. destruct (IH (S n) (S k)) as [H1 H2]. split.
    + simpl. by rewrite H1.
    + intros [|i] c; simpl; [intros [= <-]; simpl; do 2 f_equal; lia|]. intros Hc. rewrite (H2 _ _ Hc). do 2 f_equal. lia.
Qed.

(** Every line that is not blank becomes one chunk, trimmed, under its number. *)
Lemma chunk_jsonl_exact s : map body (chunk_jsonl_content s) =
    map (λ '(i, l), (trim l, i32_wrap (Z.of_nat i + 1), i32_wrap (Z.of_nat i + 1)))
      (filter (λ p, trim p.2 ≠ []) (zip (seq 0 (length (lines s))) (lines s))) ∧
  indexed (chunk_jsonl_content s).
Proof. destruct (jsonl_lines_spec (lines s) 0 0) as [H1 H2]. split; [exact H1|exact H2]. Qed.

Lemma strip_nul_bytes_spec s : (strip_nul_bytes s).1 = filter (λ c, c ≠ 0%N) s ∧
  ((strip_nul_bytes s).2 = true ↔ 0%N ∈ s).
Proof.
  unfold strip_nul_bytes. destruct (decide (0%N ∈ s)) as [H|H]; [done|]. split; [|done].
  simpl. symmetry. induction s as [|c s IH]; [done|]. rewrite filter_cons. apply not_elem_of_cons in H as [Hc H].
  rewrite decide_True by done. by rewrite IH.
Qed.
