(* ===== verification/DocumentChunker.v ===== *)
(** Chunks of documents ([src/src/indexer/document_chunker.rs]): sections by
    heading, paragraphs packed to a size, wrapped lines rejoined. *)

From Stdlib Require Import ZArith Sorting.Sorted.
From stdpp Require Import base numbers strings list.
From S2P Require Import Prelude Numbers CharText Chunker.

Record ParagraphOpts := mkOpts { max_chunk_chars : nat; min_chunk_chars : nat; join_short_lines : bool }.
Definition DEFAULT_PARAGRAPH_OPTS : ParagraphOpts := mkOpts 2000 200 true.

(** * Wrapped lines *)

Definition char_in (cs : string) (c : N) : bool := bool_decide (c ∈ chars cs).
Definition is_digit_char (c : N) : bool := ((48 <=? c) && (c <=? 57))%N.

Fixpoint leading_stars (s : text) : nat :=
  match s with c :: s => if char_in "*" c then S (leading_stars s) else 0 | [] => 0 end.

Definition looks_like_heading (s : text) : bool :=
  (starts_with s (chars "#") && bool_decide (32%N ∈ s)) ||
  (starts_with s (chars "*") && bool_decide (s !! leading_stars s = Some 32%N)) ||
  (starts_with s (chars "\") &&
     existsb (λ kw, starts_with s (chars kw)) ["\section"; "\subsection"; "\chapter"; "\part"; "\paragraph"]).

Definition looks_like_bullet (s : text) : bool :=
  match s with
  | [] => false
  | first :: rest =>
      if bool_decide (first ∈ [45; 42; 8226; 183]%N) then bool_decide (head rest = Some 32%N)
      else if is_digit_char first then
        match head rest with Some c => char_in ".)" c | None => false end
      else false
  end.

(** The characters that end a sentence, the last of them the double quote. *)
Definition ends_sentence (c : N) : bool := char_in ".!?:;)]}" c || bool_decide (c = 34%N).

Definition should_join (line next_line : text) : bool :=
  let trimmed_end := trim_end line in
  let next_trim := trim_start next_line in
  negb (bool_decide (trimmed_end = [])) &&
  negb (match last trimmed_end with Some c => ends_sentence c | None => false end) &&
  negb (bool_decide (next_trim = [])) &&
  negb (looks_like_heading next_trim) &&
  negb (looks_like_bullet next_trim) &&
  negb (negb (bool_decide (next_trim = [])) && forallb (λ c, is_digit_char c || char_in " ." c) next_trim).

Fixpoint rejoin (ls : list text) : text :=
  match ls with
  | [] => []
  | line :: rest =>
      match rest with
      | [] => line
      | next_line :: _ => if should_join line next_line then trim_end line ++ [32%N] else line ++ [newline]
      end ++ rejoin rest
  end.

Definition rejoin_wrapped_lines (s : text) : text := rejoin (split_on newline s).

(** * Paragraphs *)

Definition flush (buf : text) (buf_start buf_end : Z) : list (Z * Z * text) :=
  if decide (buf = []) then [] else [(buf_start, buf_end, buf)].

Fixpoint paragraphs_from (ls : list text) (idx : nat) (buf : text) (buf_start buf_end : Z) : list (Z * Z * text) :=
  match ls with
  | [] => flush buf buf_start buf_end
  | line :: ls =>
      let line_no := i32_wrap (Z.of_nat idx + 1) in
      if decide (trim line = []) then flush buf buf_start buf_end ++ paragraphs_from ls (S idx) [] buf_start buf_end
      else
        paragraphs_from ls (S idx) ((if decide (buf = []) then [] else buf ++ [newline]) ++ line)
          (if decide (buf = []) then line_no else buf_start) line_no
  end.

Definition split_paragraphs (s : text) : list (Z * Z * text) := paragraphs_from (split_on newline s) 0 [] 0 0.

(** [.], [!] or [?] before white space. *)
Definition sentence_at (cs : text) (k : nat) : bool :=
  match cs !! k, cs !! S k with Some c, Some d => char_in ".!?" c && is_whitespace d | _, _ => false end.

(** [while k > start + 1 { k -= 1; .. }] *)
Fixpoint find_split (cs : text) (start k : nat) : option nat :=
  match k with
  | 0 => None
  | S k' =>
      if decide (start + 1 < k) then if sentence_at cs k' then Some (S k') else find_split cs start k'
      else None
  end.

Fixpoint leading_white (s : text) : nat :=
  match s with c :: s => if is_whitespace c then S (leading_white s) else 0 | [] => 0 end.

Fixpoint oversize_pieces (fuel : nat) (cs : text) (max_chars start : nat) (out : list text) :
    outcome Empty_set (list text) :=
  if decide (start < length cs) then
    match fuel with
    | 0 => OutOfFuel
    | S fuel =>
        let end_cap := (start + max_chars) `min` length cs in
        if decide (length cs ≤ end_cap) then Ok (out ++ [drop start cs])
        else
          let split := match find_split cs start end_cap with
                       | Some s => if decide (s ≤ start) then end_cap else s
                       | None => end_cap
                       end in
          oversize_pieces fuel cs max_chars (split + leading_white (drop split cs))
            (out ++ [take (split - start) (drop start cs)])
    end
  else Ok out.

Definition split_oversize_paragraph (s : text) (max_chars : nat) : outcome Empty_set (list text) :=
  oversize_pieces (length s) s max_chars 0 [].

(** * Chunks *)

Definition push_chunk (chunks : list Chunk) (body : text) (start_line : Z) : list Chunk :=
  let line_count := i32_wrap (Z.of_nat (length (split_on newline body))) in
  let end_line := i32_wrap (i32_wrap (start_line + line_count) - 1) in
  chunks ++ [mkChunk (i32_wrap (Z.of_nat (length chunks))) body start_line (Z.max end_line start_line)].

Definition push_chunk_lines (chunks : list Chunk) (body : text) (start_line end_line : Z) : list Chunk :=
  chunks ++ [mkChunk (i32_wrap (Z.of_nat (length chunks))) body (Z.max start_line 1)
               (Z.max end_line (Z.max start_line 1))].

(** [for (i, c) in chunks.iter_mut().enumerate() { c.chunk_index = i as i32; }] *)
Definition renumber (chunks : list Chunk) : list Chunk :=
  imap (λ i c, mkChunk (i32_wrap (Z.of_nat i)) (content c) (start_line c) (end_line c)) chunks.

Record Packing := mkPacking { pk_chunks : list Chunk; pk_buf : text; pk_start : Z; pk_end : Z }.

Definition flush_buf (st : Packing) : Packing :=
  if decide (pk_buf st = []) then st
  else mkPacking (push_chunk_lines (pk_chunks st) (pk_buf st) (pk_start st) (pk_end st)) [] (pk_start st) (pk_end st).

Definition pack_paragraph (opts : ParagraphOpts) (st : Packing) (p : Z * Z * text) : outcome Empty_set Packing :=
  let '(p_start, p_end, p_text) := p in
  let p_chars := length p_text in
  if decide (max_chunk_chars opts < p_chars) then
    let st := flush_buf st in
    let* pieces := split_oversize_paragraph p_text (max_chunk_chars opts) in
    Ok (mkPacking (foldl (λ chunks piece, push_chunk_lines chunks piece p_start p_end) (pk_chunks st) pieces)
          (pk_buf st) (pk_start st) (pk_end st))
  else
    let prospective := length (pk_buf st) + 1 + p_chars in
    let st := if decide (pk_buf st ≠ [] ∧ max_chunk_chars opts < prospective) then flush_buf st else st in
    Ok (mkPacking (pk_chunks st) ((if decide (pk_buf st = []) then [] else pk_buf st ++ [newline; newline]) ++ p_text)
          (if decide (pk_buf st = []) then p_start else pk_start st) p_end).

Definition ends_with_newline (s : text) : bool := bool_decide (last s = Some newline).

(** A tail below the minimum joins the chunk before it. *)
Definition merge_tail (opts : ParagraphOpts) (chunks : list Chunk) : list Chunk :=
  match reverse chunks with
  | tail :: prev :: before =>
      if decide (length (content tail) < min_chunk_chars opts) then
        reverse before ++
        [mkChunk (chunk_index prev)
           (content prev ++ (if ends_with_newline (content prev) then [] else [newline]) ++ [newline] ++ content tail)
           (start_line prev) (Z.max (end_line tail) (end_line prev))]
      else chunks
  | _ => chunks
  end.

Definition chunk_paragraphs (s : text) (opts : ParagraphOpts) : outcome Empty_set (list Chunk) :=
  let joined := if join_short_lines opts then rejoin_wrapped_lines s else s in
  let paragraphs := split_paragraphs joined in
  if decide (paragraphs = []) then Ok []
  else
    let* st := ofold (pack_paragraph opts) (mkPacking [] [] 0 0) paragraphs in
    Ok (renumber (merge_tail opts (pk_chunks (flush_buf st)))).

(** * Sections

    The three heading expressions are compiled by the [regex] crate. *)
Inductive HeadingRe := org_heading_re | latex_heading_re | md_heading_re.

Section headings.
Context (is_match : HeadingRe → text → bool).

Definition find_heading_lines (s : text) (language : string) : list nat :=
  let re := if decide (language = "org"%string) then Some org_heading_re
            else if decide (language = "latex"%string) then Some latex_heading_re
            else if decide (language = "markdown"%string) then Some md_heading_re else None in
  match re with
  | None => []
  | Some re => map fst (filter (λ p, is_match re p.2 = true) (zip (seq 0 (length (split_on newline s))) (split_on newline s)))
  end.

Definition add_section (st : list (nat * nat) * nat) (h : nat) : list (nat * nat) * nat :=
  let '(sections, prev) := st in
  (if decide (prev < h) then sections ++ [(prev, h)] else sections, h).

Definition sections_of (headings : list nat) (n : nat) : list (nat * nat) :=
  let '(sections, prev) := foldl add_section ([], 0) headings in
  if decide (prev < n) then sections ++ [(prev, n)] else sections.

Definition join_lines (ls : list text) (start end_ : nat) : text := join [newline] (drop start (take end_ ls)).

Definition rebase (start : nat) (c : Chunk) : Chunk :=
  mkChunk (chunk_index c) (content c) (i32_wrap (start_line c + i32_wrap (Z.of_nat start)))
    (i32_wrap (end_line c + i32_wrap (Z.of_nat start))).

Definition flush_section (chunks : list Chunk) (buffer : option (nat * text)) : list Chunk :=
  match buffer with
  | Some (buf_start, buf_body) => push_chunk chunks buf_body (i32_wrap (Z.of_nat buf_start))
  | None => chunks
  end.

Definition add_body (ls : list text) (st : list Chunk * option (nat * text)) (sec : nat * nat) :
    outcome Empty_set (list Chunk * option (nat * text)) :=
  let '(chunks, buffer) := st in
  let '(start, end_) := sec in
  let body := join_lines ls start end_ in
  if decide (max_chunk_chars DEFAULT_PARAGRAPH_OPTS < length body) then
    let chunks := flush_section chunks buffer in
    let* sub_chunks := chunk_paragraphs body DEFAULT_PARAGRAPH_OPTS in
    Ok (foldl (λ chunks c, chunks ++ [mkChunk (i32_wrap (Z.of_nat (length chunks))) (content c) (start_line c) (end_line c)])
          chunks (map (rebase start) sub_chunks), None)
  else if decide (length body < min_chunk_chars DEFAULT_PARAGRAPH_OPTS) then
    match buffer with
    | Some (buf_start, b) => Ok (chunks, Some (buf_start, b ++ (if ends_with_newline b then [] else [newline]) ++ body))
    | None => Ok (chunks, Some (start + 1, body))
    end
  else Ok (push_chunk (flush_section chunks buffer) body (i32_wrap (Z.of_nat (start + 1))), None).

(** What is left in the buffer joins the last chunk. *)
Definition flush_last (chunks : list Chunk) (buffer : option (nat * text)) : list Chunk :=
  match buffer with
  | None => chunks
  | Some (buf_start, buf_body) =>
      match reverse chunks with
      | last :: before =>
          reverse before ++
          [mkChunk (chunk_index last) (content last ++ (if ends_with_newline (content last) then [] else [newline]) ++ buf_body)
             (start_line last) (end_line last)]
      | [] => push_chunk chunks buf_body (i32_wrap (Z.of_nat buf_start))
      end
  end.

Definition chunk_by_heading (s : text) (language : string) : outcome Empty_set (list Chunk) :=
  let ls := split_on newline s in
  let n := length ls in
  if decide (n = 0) then Ok []
  else
    let sections := sections_of (find_heading_lines s language) n in
    if decide (sections = []) then chunk_paragraphs s DEFAULT_PARAGRAPH_OPTS
    else
      let* st := ofold (add_body ls) ([], None) sections in
      Ok (renumber (flush_last st.1 st.2)).
End headings.

(** * Text is kept, up to white space *)

(** The characters of a text that are not white space. *)
Definition ink (s : text) : text := filter (λ c, is_whitespace c = false) s.
Definition inks (ls : list text) : text := concat (map ink ls).

Lemma ink_app s t : ink (s ++ t) = ink s ++ ink t.
Proof. apply filter_app. Qed.

Lemma ink_white s : Forall (λ c, is_whitespace c = true) s → ink s = [].
Proof. induction 1 as [|c s Hc _ IH]; [done|]. unfold ink. rewrite filter_cons, Hc. by rewrite decide_False. Qed.

Lemma ink_trim_start s : ink (trim_start s) = ink s.
Proof.
  induction s as [|c s IH]; [done|]. simpl. unfold ink at 2. rewrite filter_cons.
  destruct (is_whitespace c) eqn:E; [by rewrite decide_False|]. rewrite decide_True by done.
  unfold ink. by rewrite filter_cons, decide_True.
Qed.

Lemma ink_reverse s : ink (reverse s) = reverse (ink s).
Proof.
  induction s as [|c s IH]; [done|]. rewrite reverse_cons, ink_app, IH. unfold ink. rewrite !filter_cons.
  case_decide; [by rewrite reverse_cons|by rewrite app_nil_r].
Qed.

Lemma ink_trim_end s : ink (trim_end s) = ink s.
Proof. unfold trim_end. by rewrite ink_reverse, ink_trim_start, ink_reverse, reverse_involutive. Qed.

Lemma ink_blank s : trim s = [] → ink s = [].
Proof. intros E. rewrite <- ink_trim_start, <- ink_trim_end. unfold trim in E. by rewrite E. Qed.

Lemma blank_nil : trim [] = [].
Proof. done. Qed.

Lemma inks_app ls ks : inks (ls ++ ks) = inks ls ++ inks ks.
Proof. unfold inks. by rewrite map_app, concat_app. Qed.

Lemma split_on_join sep s : join [sep] (split_on sep s) = s ∧ split_on sep s ≠ [].
Proof.
  induction s as [|c s [IH Hne]]; [done|]. simpl. destruct (split_on sep s) as [|l ls]; [done|].
  destruct (decide (c = sep)) as [->|Hc]; (split; [|done]); rewrite <- IH; by destruct ls.
Qed.

Lemma ink_join sep ls : ink sep = [] → ink (join sep ls) = inks ls.
Proof.
  intros Hs. induction ls as [|l [|k ls] IH]; [done| |].
  - unfold inks. simpl. by rewrite app_nil_r.
  - change (join sep (l :: k :: ls)) with (l ++ sep ++ join sep (k :: ls)). rewrite !ink_app, Hs, IH. done.
Qed.

Lemma ink_lines s : inks (split_on newline s) = ink s.
Proof. rewrite <- (ink_join [newline]) by done. by rewrite (proj1 (split_on_join newline s)). Qed.

Lemma ink_rejoin s : ink (rejoin_wrapped_lines s) = ink s.
Proof.
  unfold rejoin_wrapped_lines. rewrite <- (ink_lines s). generalize (split_on newline s). intros ls.
  induction ls as [|l [|k ls] IH]; [done| |].
  - simpl. unfold inks. simpl. by rewrite ink_app.
  - change (rejoin (l :: k :: ls)) with ((if should_join l k then trim_end l ++ [32%N] else l ++ [newline]) ++ rejoin (k :: ls)).
    rewrite ink_app, IH. change (inks (l :: k :: ls)) with (ink l ++ inks (k :: ls)). f_equal.
    destruct (should_join l k); rewrite ink_app, ?ink_trim_end; by rewrite app_nil_r.
Qed.

Notation texts := (map (λ p : Z * Z * text, p.2)).

Lemma flush_ink buf a b : inks (texts (flush buf a b)) = ink buf.
Proof. unfold flush. case_decide; [by subst|]. unfold inks. simpl. by rewrite app_nil_r. Qed.

Lemma paragraphs_from_ink ls : ∀ idx buf a b, inks (texts (paragraphs_from ls idx buf a b)) = ink buf ++ inks ls.
Proof.
  induction ls as [|l ls IH]; intros idx buf a b; cbn [paragraphs_from].
  { rewrite flush_ink. unfold inks. simpl. by rewrite app_nil_r. }
  change (inks (l :: ls)) with (ink l ++ inks ls). destruct (decide (trim l = [])) as [E|E].
  - rewrite map_app, inks_app, flush_ink, IH, (ink_blank l) by done. done.
  - rewrite IH, ink_app, <- app_assoc. destruct (decide (buf = [])) as [->|]; [done|]. rewrite ink_app.
    by rewrite <- !app_assoc.
Qed.

Lemma split_paragraphs_ink s : inks (texts (split_paragraphs s)) = ink s.
Proof. unfold split_paragraphs. rewrite paragraphs_from_ink. apply ink_lines. Qed.

Lemma paragraphs_from_nonempty ls : ∀ idx buf a b, Forall (λ p, p.2 ≠ []) (paragraphs_from ls idx buf a b).
Proof.
  assert (Hf : ∀ buf a b, Forall (λ p : Z * Z * text, p.2 ≠ []) (flush buf a b)).
  { intros buf a b. unfold flush. case_decide; by repeat constructor. }
  induction ls as [|l ls IH]; intros idx buf a b; cbn [paragraphs_from]; [done|].
  case_decide; [by apply Forall_app|done].
Qed.

(** * Long paragraphs *)

Lemma find_split_bound cs start k s : find_split cs start k = Some s → start < s ≤ k.
Proof.
  induction k as [|k IH]; cbn [find_split]; [done|]. case_decide; [|done]. destruct (sentence_at cs k).
  - intros [= <-]. lia.
  - intros E. apply IH in E. lia.
Qed.

Lemma drop_add a b (cs : text) : drop (a + b) cs = drop b (drop a cs).
Proof. by rewrite drop_drop. Qed.

Lemma leading_white_ink s : ink (drop (leading_white s) s) = ink s.
Proof.
  induction s as [|c s IH]; [done|]. simpl. destruct (is_whitespace c) eqn:E; [|done].
  simpl. rewrite IH. unfold ink. by rewrite filter_cons, E, decide_False.
Qed.

Lemma oversize_ok cs m : 1 ≤ m → ∀ fuel start out, length cs - start ≤ fuel →
  ∃ ps, oversize_pieces fuel cs m start out = Ok (out ++ ps) ∧ inks ps = ink (drop start cs) ∧
    Forall (λ p, 1 ≤ length p ≤ m) ps.
Proof.
  intros Hm. induction fuel as [|fuel IH]; intros start out Hf.
  all: destruct (decide (start < length cs)) as [Hlt|Hge]; [try lia|].
  1,3: exists []; simpl; rewrite decide_False, app_nil_r, drop_ge by lia; by split_and!; [|done|constructor].
  cbn [oversize_pieces]. rewrite decide_True by done. set (end_cap := (start + m) `min` length cs).
  destruct (decide (length cs ≤ end_cap)) as [Hle|Hgt].
  - exists [drop start cs]. split_and!; [done|by unfold inks; simpl; rewrite app_nil_r|].
    constructor; [|done]. rewrite length_drop. lia.
  - set (split := match find_split cs start end_cap with Some s => if decide (s ≤ start) then end_cap else s | None => end_cap end).
    assert (Hs : start < split ≤ end_cap).
    { unfold split. destruct (find_split cs start end_cap) as [s|] eqn:E; [|lia]. apply find_split_bound in E. case_decide; lia. }
    destruct (IH (split + leading_white (drop split cs)) (out ++ [take (split - start) (drop start cs)]))
      as (ps & -> & Hink & Hall); [lia|].
    exists (take (split - start) (drop start cs) :: ps). rewrite <- app_assoc. split_and!; [done| |].
    + change (inks (?p :: ps)) with (ink p ++ inks ps). rewrite Hink, drop_add, leading_white_ink.
      replace split with (start + (split - start)) at 2 by lia. by rewrite drop_add, <- ink_app, take_drop.
    + constructor; [|done]. rewrite length_take, length_drop. lia.
Qed.

(** * Packing *)

Notation contents := (map content).

Definition lines_ok (c : Chunk) : Prop := content c ≠ [] ∧ (1 ≤ start_line c ≤ end_line c)%Z.

Lemma push_chunk_lines_spec chunks p a b : contents (push_chunk_lines chunks p a b) = contents chunks ++ [p] ∧
  (p ≠ [] → Forall lines_ok chunks → Forall lines_ok (push_chunk_lines chunks p a b)).
Proof.
  unfold push_chunk_lines. rewrite map_app. split; [done|]. intros Hp Hall. apply Forall_app. split; [done|].
  constructor; [|done]. unfold lines_ok. simpl. split; [done|lia].
Qed.

Lemma push_pieces_spec ps a b : ∀ chunks,
  contents (foldl (λ chunks piece, push_chunk_lines chunks piece a b) chunks ps) = contents chunks ++ ps ∧
  (Forall (λ p, p ≠ []) ps → Forall lines_ok chunks →
   Forall lines_ok (foldl (λ chunks piece, push_chunk_lines chunks piece a b) chunks ps)).
Proof.
  induction ps as [|p ps IH]; intros chunks; cbn [foldl]; [by rewrite app_nil_r|].
  destruct (IH (push_chunk_lines chunks p a b)) as [-> H]. destruct (push_chunk_lines_spec chunks p a b) as [-> H'].
  rewrite <- app_assoc. split; [done|]. intros [Hp Hps]%Forall_cons Hall. auto.
Qed.

Section packing.
Context (opts : ParagraphOpts) (Hmax : 1 ≤ max_chunk_chars opts).

Record packing_ok (seen : text) (st : Packing) : Prop := {
  po_ink : inks (contents (pk_chunks st)) ++ ink (pk_buf st) = seen;
  po_lines : Forall lines_ok (pk_chunks st);
  po_size : Forall (λ s : text, length s ≤ S (max_chunk_chars opts)) (contents (pk_chunks st));
  po_buf : length (pk_buf st) ≤ S (max_chunk_chars opts);
}.

Lemma flush_buf_ok seen st : packing_ok seen st → packing_ok seen (flush_buf st) ∧ pk_buf (flush_buf st) = [].
Proof using Type.
  clear Hmax. intros [H1 H2 H3 H4]. unfold flush_buf. case_decide as E; [done|].
  destruct (push_chunk_lines_spec (pk_chunks st) (pk_buf st) (pk_start st) (pk_end st)) as [Hc Hl].
  split; [|done]. split; cbn [pk_chunks pk_buf].
  - rewrite Hc, inks_app, <- H1, app_nil_r. unfold inks at 2. simpl. by rewrite app_nil_r.
  - by apply Hl.
  - rewrite Hc. apply Forall_app. split; [done|]. by apply Forall_singleton.
  - simpl. lia.
Qed.

Lemma pack_paragraph_ok seen st p : p.2 ≠ [] → packing_ok seen st →
  ∃ st', pack_paragraph opts st p = Ok st' ∧ packing_ok (seen ++ ink p.2) st'.
Proof.
  intros Hp Hst. destruct p as [[a b] p]. cbn [snd] in *. unfold pack_paragraph. case_decide as Hbig.
  - destruct (flush_buf_ok seen st Hst) as [[H1 H2 H3 H4] Hbuf].
    destruct (oversize_ok p (max_chunk_chars opts) Hmax (length p) 0 []) as (ps & E & Hink & Hall); [lia|].
    unfold split_oversize_paragraph. rewrite E. cbn [obind app]. eexists. split; [done|].
    destruct (push_pieces_spec ps a b (pk_chunks (flush_buf st))) as [Hc Hl].
    split; cbn [pk_chunks pk_buf].
    + rewrite Hc, inks_app, Hink, <- H1, Hbuf, !app_nil_r. by rewrite drop_0.
    + apply Hl; [|done]. eapply Forall_impl; [exact Hall|]. intros q Hq ->. simpl in Hq. lia.
    + rewrite Hc. apply Forall_app. split; [done|]. eapply Forall_impl; [exact Hall|]. simpl. lia.
    + done.
  - eexists. split; [done|].
    assert (∃ st1, (if decide (pk_buf st ≠ [] ∧ max_chunk_chars opts < length (pk_buf st) + 1 + length p) then flush_buf st else st) = st1 ∧
      packing_ok seen st1 ∧ (pk_buf st1 ≠ [] → length (pk_buf st1) + 1 + length p ≤ max_chunk_chars opts)) as (st1 & -> & [H1 H2 H3 H4] & Hroom).
    { eexists. split; [done|]. case_decide as Hfull.
      - destruct (flush_buf_ok seen st Hst) as [? ->]. done.
      - split; [done|]. intros ?. apply Nat.nlt_ge. intros ?. by apply Hfull. }
    split; cbn [pk_chunks pk_buf]; [|done|done|].
    + rewrite ink_app, <- H1. case_decide as E; [by rewrite E, app_nil_r|].
      by rewrite ink_app, <- !app_assoc.
    + rewrite length_app. case_decide as E; [simpl; lia|]. rewrite length_app. simpl. specialize (Hroom E). lia.
Qed.

Lemma pack_all_ok ps : Forall (λ p, p.2 ≠ []) ps → ∀ seen st, packing_ok seen st →
  ∃ st', ofold (pack_paragraph opts) st ps = Ok st' ∧ packing_ok (seen ++ inks (texts ps)) st'.
Proof.
  induction 1 as [|p ps Hp _ IH]; intros seen st Hst; cbn [ofold].
  - exists st. split; [done|]. by rewrite app_nil_r.
  - destruct (pack_paragraph_ok seen st p Hp Hst) as (st1 & -> & H1). cbn [obind].
    destruct (IH _ _ H1) as (st' & -> & H'). exists st'. split; [done|]. by rewrite <- app_assoc in H'.
Qed.
End packing.

Lemma renumber_spec chunks : contents (renumber chunks) = contents chunks ∧ indexed (renumber chunks) ∧
  (Forall lines_ok chunks → Forall lines_ok (renumber chunks)).
Proof.
  unfold renumber. split_and!.
  - rewrite fmap_imap. apply list_eq. intros i. rewrite list_lookup_imap, list_lookup_fmap. by destruct (chunks !! i).
  - intros i c. rewrite list_lookup_imap. destruct (chunks !! i); [|done]. by intros [= <-].
  - intros Hall. apply Forall_lookup. intros i c. rewrite list_lookup_imap. destruct (chunks !! i) as [d|] eqn:E; [|done].
    intros [= <-]. by apply (proj1 (Forall_lookup _ _) Hall i d).
Qed.

(** The sizes of the chunks: a paragraph separator counts two characters where
    the packing expects one; a merged tail adds up to two characters and less
    than the minimum to the last chunk. *)
Definition size_ok (opts : ParagraphOpts) (ss : list text) : Prop :=
  ∀ i s, ss !! i = Some s → length s ≤ S (max_chunk_chars opts) ∨
    S i = length ss ∧ length s ≤ max_chunk_chars opts + min_chunk_chars opts + 2.

Lemma merge_tail_ok opts chunks : Forall lines_ok chunks →
  Forall (λ s : text, length s ≤ S (max_chunk_chars opts)) (contents chunks) →
  inks (contents (merge_tail opts chunks)) = inks (contents chunks) ∧ Forall lines_ok (merge_tail opts chunks) ∧
  size_ok opts (contents (merge_tail opts chunks)).
Proof.
  intros Hl Hs.
  assert (Hsame : size_ok opts (contents chunks)).
  { intros i s Hi. left. by apply (proj1 (Forall_lookup _ _) Hs i s). }
  unfold merge_tail. destruct (reverse chunks) as [|tail [|prev before]] eqn:E; [done..|]. case_decide as Hmin; [|done].
  clear Hsame. rewrite <- (reverse_involutive chunks), E in Hl, Hs |- *. clear E chunks.
  rewrite !reverse_cons, <- !app_assoc in *. simpl in *. rewrite !map_app in *. simpl in *.
  apply Forall_app in Hl as [Hl [[Hp Hpl] [[Ht Htl] _]%Forall_cons]%Forall_cons].
  apply Forall_app in Hs as [Hs [Hps [Hts _]%Forall_cons]%Forall_cons].
  split_and!.
  - rewrite !inks_app. f_equal. unfold inks. simpl. rewrite !ink_app, !app_nil_r.
    destruct (ends_with_newline (content prev)); done.
  - apply Forall_app. split; [done|]. constructor; [|done]. split; simpl; [|lia].
    destruct (content prev); [done|by simpl].
  - intros i s Hi. apply lookup_app_Some in Hi as [Hi|[Hlen Hi]].
    + left. by apply (proj1 (Forall_lookup _ _) Hs i s).
    + right. apply list_lookup_singleton_Some in Hi as [Hi <-]. rewrite length_app, length_map in *. split; [simpl; lia|].
      rewrite !length_app. simpl. destruct (ends_with_newline (content prev)); simpl; lia.
Qed.

Lemma paragraphs_spec s opts : 1 ≤ max_chunk_chars opts → ∃ out, chunk_paragraphs s opts = Ok out ∧
  inks (contents out) = ink s ∧ indexed out ∧ Forall lines_ok out ∧ size_ok opts (contents out).
Proof.
  intros Hmax. unfold chunk_paragraphs.
  assert (Hink : ink (if join_short_lines opts then rejoin_wrapped_lines s else s) = ink s).
  { destruct (join_short_lines opts); [apply ink_rejoin|done]. }
  rewrite <- Hink. generalize (if join_short_lines opts then rejoin_wrapped_lines s else s). clear s Hink. intros s.
  pose proof (split_paragraphs_ink s) as Hink. pose proof (paragraphs_from_nonempty (split_on newline s) 0 [] 0 0) as Hne.
  change (paragraphs_from (split_on newline s) 0 [] 0 0) with (split_paragraphs s) in Hne.
  case_decide as E.
  - rewrite E in Hink. eexists. split_and!; [done|done|by intros i c|constructor|by intros i c].
  - destruct (pack_all_ok opts Hmax (split_paragraphs s) Hne [] (mkPacking [] [] 0 0)) as (st & -> & Hst).
    { split; simpl; [done|constructor|constructor|lia]. }
    cbn [obind]. destruct (flush_buf_ok opts _ st Hst) as [[H1 H2 H3 _] Hbuf]. rewrite Hbuf, app_nil_r in H1. simpl in H1.
    destruct (merge_tail_ok opts _ H2 H3) as (Hm1 & Hm2 & Hm3).
    destruct (renumber_spec (merge_tail opts (pk_chunks (flush_buf st)))) as (Hr1 & Hr2 & Hr3).
    eexists. split; [done|]. rewrite Hr1, Hm1, H1, Hink. split_and!; [done|done|by apply Hr3|done].
Qed.

(** C26: paragraph chunking returns; in order, every character that is not white
    space is in the chunks; chunks are not empty, count from zero, have lines
    from one on, and are longer than the maximum by at most a character, the
    last by at most the minimum and two. *)
Theorem paragraphs_exact s opts : 1 ≤ max_chunk_chars opts → ∃ out, chunk_paragraphs s opts = Ok out ∧
  inks (contents out) = ink s ∧ indexed out ∧ Forall lines_ok out ∧ size_ok opts (contents out).
Proof. apply paragraphs_spec. Qed.

(** * Sections *)

Section sections.
Context (is_match : HeadingRe → text → bool).

Lemma take_extend a b (ls : list text) : a ≤ b → take a ls ++ drop a (take b ls) = take b ls.
Proof. intros Hab. rewrite <- (take_drop a (take b ls)) at 2. rewrite take_take. by replace (a `min` b) with a by lia. Qed.

Definition slice_of (ls : list text) (sec : nat * nat) : list text := drop sec.1 (take sec.2 ls).

Lemma sections_cover (ls : list text) hs : Forall (λ h, h < length ls) hs → StronglySorted lt hs → ls ≠ [] →
  concat (map (slice_of ls) (sections_of hs (length ls))) = ls ∧ sections_of hs (length ls) ≠ [].
Proof.
  intros Hlt Hs Hne. unfold sections_of.
  assert (H : ∀ secs prev, Forall (λ h, prev ≤ h) hs → prev < length ls → concat (map (slice_of ls) secs) = take prev ls →
    let st := foldl add_section (secs, prev) hs in concat (map (slice_of ls) st.1) = take st.2 ls ∧ st.2 < length ls).
  { induction Hs as [|h hs Hs IH Hf]; intros secs prev Hp Hl Hc; cbn [foldl]; [done|].
    apply Forall_cons in Hlt as [Hh Hlt]. apply Forall_cons in Hp as [Hph _].
    unfold add_section at 2. apply (IH Hlt); [eapply Forall_impl; [exact Hf|]; simpl; lia|done|].
    case_decide; [|by replace h with prev by lia]. rewrite map_app, concat_app, Hc. simpl. rewrite app_nil_r.
    unfold slice_of. simpl. apply take_extend. lia. }
  destruct (H [] 0) as [Hc Hl]; [by apply Forall_forall; intros; lia|destruct ls; [done|simpl; lia]|done|].
  destruct (foldl add_section ([], 0) hs) as [secs prev]. cbn [fst snd] in *. rewrite decide_True by done. split.
  - rewrite map_app, concat_app, Hc. simpl. rewrite app_nil_r. unfold slice_of. simpl. rewrite take_extend by lia. by apply take_ge.
  - by destruct secs.
Qed.

Lemma enumerate_sorted (P : text → bool) ls : ∀ k,
  Forall (λ h, k ≤ h < k + length ls) (map fst (filter (λ p, P p.2 = true) (zip (seq k (length ls)) ls))) ∧
  StronglySorted lt (map fst (filter (λ p, P p.2 = true) (zip (seq k (length ls)) ls))).
Proof.
  induction ls as [|l ls IH]; intros k; [by split; constructor|]. destruct (IH (S k)) as [H1 H2].
  cbn [length seq zip zip_with]. rewrite filter_cons. cbn [snd].
  assert (H3 : Forall (λ h, k ≤ h < k + S (length ls)) (map fst (filter (λ p, P p.2 = true) (zip (seq (S k) (length ls)) ls)))).
  { eapply Forall_impl; [exact H1|]. simpl. lia. }
  case_decide; [|done]. cbn [map fst]. split; constructor; try done; [simpl; lia|].
  eapply Forall_impl; [exact H1|]. simpl. lia.
Qed.

Lemma headings_ok s language : Forall (λ h, h < length (split_on newline s)) (find_heading_lines is_match s language) ∧
  StronglySorted lt (find_heading_lines is_match s language).
Proof.
  unfold find_heading_lines. destruct (if decide (language = "org"%string) then _ else _) as [re|]; [|by split; constructor].
  destruct (enumerate_sorted (is_match re) (split_on newline s) 0) as [H1 H2]. split; [|done].
  eapply Forall_impl; [exact H1|]. simpl. lia.
Qed.

Definition buffered (buffer : option (nat * text)) : text := match buffer with Some (_, b) => b | None => [] end.

Lemma flush_section_ink chunks buffer : inks (contents (flush_section chunks buffer)) = inks (contents chunks) ++ ink (buffered buffer).
Proof.
  destruct buffer as [[n b]|]; simpl; [|by rewrite app_nil_r]. unfold push_chunk.
  rewrite map_app, inks_app. unfold inks at 2. simpl. by rewrite app_nil_r.
Qed.

Lemma foldl_renumbered more : ∀ chunks,
  contents (foldl (λ chunks c, chunks ++ [mkChunk (i32_wrap (Z.of_nat (length chunks))) (content c) (start_line c) (end_line c)]) chunks more) =
  contents chunks ++ contents more.
Proof.
  induction more as [|c more IH]; intros chunks; cbn [foldl]; [by rewrite app_nil_r|]. rewrite IH, map_app, <- app_assoc. done.
Qed.

Lemma add_body_ink ls chunks buffer sec : ∃ chunks' buffer', add_body ls (chunks, buffer) sec = Ok (chunks', buffer') ∧
  inks (contents chunks') ++ ink (buffered buffer') = inks (contents chunks) ++ ink (buffered buffer) ++ inks (slice_of ls sec).
Proof.
  destruct sec as [a b]. unfold add_body.
  assert (Hb : ink (join_lines ls a b) = inks (slice_of ls (a, b))) by (by apply ink_join). case_decide.
  - destruct (paragraphs_spec (join_lines ls a b) DEFAULT_PARAGRAPH_OPTS) as (out & -> & Hink & _); [simpl; lia|].
    cbn [obind]. eexists _, _. split; [done|]. rewrite foldl_renumbered, inks_app, flush_section_ink, <- Hb, <- Hink.
    simpl. rewrite app_nil_r, <- app_assoc. do 2 f_equal. rewrite map_map. done.
  - rewrite <- Hb. case_decide.
    + destruct buffer as [[n d]|]; eexists _, _; (split; [done|]); simpl; [|done].
      rewrite !ink_app. by destruct (ends_with_newline d).
    + eexists _, _. split; [done|]. unfold push_chunk. rewrite map_app, inks_app, flush_section_ink, <- !app_assoc.
      do 2 f_equal. unfold inks. simpl. by rewrite !app_nil_r.
Qed.

Lemma add_bodies_ink ls secs : ∀ chunks buffer, ∃ chunks' buffer', ofold (add_body ls) (chunks, buffer) secs = Ok (chunks', buffer') ∧
  inks (contents chunks') ++ ink (buffered buffer') =
    inks (contents chunks) ++ ink (buffered buffer) ++ inks (concat (map (slice_of ls) secs)).
Proof.
  induction secs as [|sec secs IH]; intros chunks buffer; cbn [ofold].
  - eexists _, _. split; [done|]. unfold inks at 3. simpl. by rewrite app_nil_r.
  - destruct (add_body_ink ls chunks buffer sec) as (c1 & b1 & -> & H1). cbn [obind].
    destruct (IH c1 b1) as (c2 & b2 & -> & H2). eexists _, _. split; [done|].
    simpl. rewrite H2, inks_app, !app_assoc, H1, !app_assoc. done.
Qed.

Lemma flush_last_ink chunks buffer : inks (contents (flush_last chunks buffer)) = inks (contents chunks) ++ ink (buffered buffer).
Proof.
  destruct buffer as [[n b]|]; simpl; [|by rewrite app_nil_r]. destruct (reverse chunks) as [|c before] eqn:E.
  - apply (f_equal reverse) in E. rewrite reverse_involutive in E. subst. unfold inks. simpl. by rewrite app_nil_r.
  - rewrite <- (reverse_involutive chunks), E, reverse_cons, !map_app, !inks_app, <- app_assoc. f_equal.
    unfold inks. simpl. rewrite !ink_app, !app_nil_r. by destruct (ends_with_newline (content c)).
Qed.

(** Heading chunking returns, for every language and any regular-expression
    engine; in order, every character that is not white space is in the chunks,
    which count from zero. *)
Theorem heading_text_kept s language : ∃ out, chunk_by_heading is_match s language = Ok out ∧
  inks (contents out) = ink s ∧ indexed out.
Proof.
  unfold chunk_by_heading. destruct (split_on_join newline s) as [_ Hne].
  rewrite decide_False by (by intros ?%nil_length_inv). destruct (headings_ok s language) as [Hlt Hs].
  destruct (sections_cover _ _ Hlt Hs Hne) as [Hcov Hsne]. rewrite decide_False by done.
  destruct (add_bodies_ink (split_on newline s) (sections_of (find_heading_lines is_match s language) (length (split_on newline s))) [] None)
    as (chunks & buffer & -> & Hink).
  cbn [obind fst snd]. destruct (renumber_spec (flush_last chunks buffer)) as (Hr & Hi & _).
  eexists. split; [done|]. split; [|done]. rewrite Hr, flush_last_ink, Hink, Hcov. simpl. apply ink_lines.
Qed.
End sections.

(** * Where the chunks are not as documented *)

Lemma split_on_lines sep ls : ls ≠ [] → Forall (λ l, sep ∉ l) ls → split_on sep (join [sep] ls) = ls.
Proof.
  intros Hne Hls. induction Hls as [|l ls Hl Hls IH]; [done|]. destruct ls as [|k ls].
  - simpl. clear -Hl. induction l as [|c l IH]; [done|]. apply not_elem_of_cons in Hl as [Hc Hl]. simpl.
    rewrite decide_False by done. by rewrite IH.
  - change (join [sep] (l :: k :: ls)) with (l ++ sep :: join [sep] (k :: ls)).
    assert (H : ∀ t, split_on sep (l ++ sep :: t) = l :: split_on sep t).
    { intros t. clear -Hl. induction l as [|c l IH]; simpl; [by rewrite decide_True|].
      apply not_elem_of_cons in Hl as [Hc Hl]. rewrite decide_False by done. by rewrite (IH Hl). }
    by rewrite H, IH.
Qed.

Lemma sections_of_seq n : sections_of (seq 0 (S n)) (S n) = map (λ i, (i, S i)) (seq 0 (S n)).
Proof.
  assert (H : foldl add_section ([], 0) (seq 0 (S n)) = (map (λ i, (i, S i)) (seq 0 n), n)).
  { induction n as [|n IH]; [done|]. rewrite seq_S, foldl_app, IH. cbn [foldl add_section].
    rewrite decide_True by (simpl; lia). rewrite (seq_S n), map_app. done. }
  unfold sections_of. rewrite H, decide_True by lia. by rewrite (seq_S n), map_app.
Qed.

(** The heading of a section without text. *)
Definition stub : text := chars "* a".

Lemma stub_sections n k : k ≤ n → ofold (add_body (replicate (S n) stub)) ([], None) (map (λ i, (i, S i)) (seq 0 (S k))) =
  Ok ([], Some (1, join [newline] (replicate (S k) stub))).
Proof.
  assert (Hj : ∀ i, i ≤ n → join_lines (replicate (S n) stub) i (S i) = stub).
  { intros i Hi. unfold join_lines. rewrite take_replicate, drop_replicate. by replace (S i `min` S n - i) with 1 by lia. }
  induction k as [|k IH]; intros Hk.
  - cbn [seq map ofold]. unfold add_body. rewrite Hj by lia. done.
  - rewrite seq_S, map_app, ofold_app, IH by lia. cbn [obind map ofold]. unfold add_body. rewrite Hj by lia.
    rewrite decide_False, decide_True by (simpl; lia). cbn [obind]. do 4 f_equal.
    assert (Hn : ends_with_newline (join [newline] (replicate (S k) stub)) = false).
    { clear. unfold ends_with_newline. apply bool_decide_eq_false.
      assert (last (join [newline] (replicate (S k) stub)) = Some 97%N) as ->; [|done].
      induction k as [|k IH]; [done|].
      change (join [newline] (replicate (S (S k)) stub)) with (stub ++ newline :: join [newline] (replicate (S k) stub)).
      by rewrite last_app_cons, last_cons, IH. }
    rewrite Hn. clear. induction k as [|k IH]; [done|].
    change (join [newline] (replicate (S (S k)) stub)) with (stub ++ newline :: join [newline] (replicate (S k) stub)).
    change (join [newline] (replicate (S (S (S k))) stub)) with (stub ++ newline :: join [newline] (replicate (S (S k)) stub)).
    rewrite <- app_assoc, <- app_comm_cons. by rewrite IH.
Qed.

(** Sections below the minimum gather in one buffer that no size bounds: a
    document of short sections is a single chunk, however many there are. *)
Theorem short_sections_unbounded (is_match : HeadingRe → text → bool) n : is_match org_heading_re stub = true →
  ∃ c, chunk_by_heading is_match (join [newline] (replicate (S n) stub)) "org" = Ok [c] ∧ length (content c) = 4 * n + 3.
Proof.
  intros Hre. set (s := join [newline] (replicate (S n) stub)).
  assert (Hs : split_on newline s = replicate (S n) stub).
  { apply split_on_lines; [done|]. apply Forall_replicate. by apply (bool_decide_unpack _). }
  assert (Hh : find_heading_lines is_match s "org" = seq 0 (S n)).
  { unfold find_heading_lines. rewrite decide_True by done. rewrite Hs, length_replicate. generalize 0. clear -Hre.
    induction (S n) as [|m IH]; intros k; [done|]. cbn [seq replicate zip zip_with]. rewrite filter_cons, decide_True by done.
    cbn [map fst]. by rewrite IH. }
  unfold chunk_by_heading. rewrite Hs, Hh, length_replicate, sections_of_seq, (stub_sections n n) by done.
  rewrite decide_False by done. cbn [seq map decide]. rewrite decide_False by done. cbn [obind fst snd].
  eexists. split; [done|]. cbn [content]. clear. induction n as [|n IH]; [done|].
  change (join [newline] (replicate (S (S n)) stub)) with (stub ++ newline :: join [newline] (replicate (S n) stub)).
  rewrite length_app, length_cons, IH. simpl. lia.
Qed.

Example short_sections_unbounded_witness :
  ∃ c, chunk_by_heading (λ _ l, starts_with l (chars "* ")) (join [newline] (replicate 1001 stub)) "org" = Ok [c] ∧
    length (content c) = 4003.
Proof. apply (short_sections_unbounded (λ _ l, starts_with l (chars "* ")) 1000). by vm_compute. Defined.

(** A wrapped line of a paragraph. *)
Definition wrap_word : text := chars "ab".

Lemma rejoin_wrapped n : rejoin_wrapped_lines (join [newline] (replicate (S n) wrap_word)) = join [32%N] (replicate (S n) wrap_word).
Proof.
  unfold rejoin_wrapped_lines. rewrite split_on_lines; [|done|apply Forall_replicate; by apply (bool_decide_unpack _)].
  induction n as [|n IH]; [done|].
  change (rejoin (replicate (S (S n)) wrap_word)) with (wrap_word ++ 32%N :: rejoin (replicate (S n) wrap_word)). by rewrite IH.
Qed.

(** Lines of a chunk are lines of the rejoined text: a paragraph wrapped over any
    number of lines that rejoin is reported as line one only. *)
Theorem rejoined_lines_misnumbered n : n ≤ 600 →
  ∃ c, chunk_paragraphs (join [newline] (replicate (S n) wrap_word)) DEFAULT_PARAGRAPH_OPTS = Ok [c] ∧
    length (lines (join [newline] (replicate (S n) wrap_word))) = S n ∧ start_line c = 1%Z ∧ end_line c = 1%Z.
Proof.
  intros Hn. set (s := join [32%N] (replicate (S n) wrap_word)).
  assert (Hlen : length s = 3 * n + 2).
  { unfold s. clear. induction n as [|n IH]; [done|].
    change (join [32%N] (replicate (S (S n)) wrap_word)) with (wrap_word ++ 32%N :: join [32%N] (replicate (S n) wrap_word)).
    rewrite length_app, length_cons, IH. simpl. lia. }
  assert (Hink : ink s ≠ []) by (unfold s; by destruct n).
  assert (Hs : split_on newline s = [s]).
  { apply (split_on_lines newline [s]); [done|]. apply Forall_singleton. unfold s. clear. induction n as [|n IH]; [by apply (bool_decide_unpack _)|].
    change (join [32%N] (replicate (S (S n)) wrap_word)) with (wrap_word ++ 32%N :: join [32%N] (replicate (S n) wrap_word)).
    apply not_elem_of_app. split; [by apply (bool_decide_unpack _)|]. by apply not_elem_of_cons. }
  assert (Hp : split_paragraphs s = [(1, 1, s)%Z]).
  { unfold split_paragraphs. rewrite Hs. cbn [paragraphs_from]. rewrite decide_False by (by intros ?%ink_blank).
    rewrite decide_True by done. cbn [app]. unfold flush. by rewrite decide_False by (by intros ->). }
  unfold chunk_paragraphs. cbn [join_short_lines DEFAULT_PARAGRAPH_OPTS]. rewrite rejoin_wrapped. fold s. rewrite Hp.
  rewrite decide_False by done. cbn [ofold]. unfold pack_paragraph. cbn [max_chunk_chars DEFAULT_PARAGRAPH_OPTS pk_buf].
  rewrite decide_False by lia. rewrite (decide_False (P := [] ≠ [] ∧ _)) by (by intros [? _]).
  cbn [obind pk_chunks pk_buf pk_start]. rewrite !decide_True by done. cbn [app]. unfold flush_buf. cbn [pk_buf].
  rewrite decide_False by (by intros ->). cbn [pk_chunks pk_start pk_end]. eexists. split; [done|]. split; [|done].
  unfold lines. rewrite split_on_lines; [|done|apply Forall_replicate; by apply (bool_decide_unpack _)].
  clear. induction n as [|n IH]; [done|].
  change (length (parts_lines (replicate (S (S n)) wrap_word))) with (S (length (parts_lines (replicate (S n) wrap_word)))). by rewrite IH.
Qed.

Example rejoined_lines_misnumbered_witness :
  ∃ c, chunk_paragraphs (join [newline] (replicate 10 wrap_word)) DEFAULT_PARAGRAPH_OPTS = Ok [c] ∧
    length (lines (join [newline] (replicate 10 wrap_word))) = 10 ∧ start_line c = 1%Z ∧ end_line c = 1%Z.
Proof. apply (rejoined_lines_misnumbered 9). lia. Defined.

Example paragraphs_exact_witness : ∃ out, chunk_paragraphs (chars "ab") DEFAULT_PARAGRAPH_OPTS = Ok out ∧ inks (contents out) = ink (chars "ab").
Proof. destruct (paragraphs_exact (chars "ab") DEFAULT_PARAGRAPH_OPTS) as (out & E & H & _); [simpl; lia|]. by exists out. Defined.

(** Two paragraphs that fill the maximum with one separator character are
    joined by two. *)
Example packed_over_the_maximum :
  length <$> (contents <$> match chunk_paragraphs (replicate 999 97%N ++ [46%N; newline; newline] ++ replicate 999 97%N) DEFAULT_PARAGRAPH_OPTS with
                Ok out => Some out | _ => None end) = Some 1 ∧
  (match chunk_paragraphs (replicate 999 97%N ++ [46%N; newline; newline] ++ replicate 999 97%N) DEFAULT_PARAGRAPH_OPTS with
   | Ok [c] => length (content c) | _ => 0 end) = 2001.
Proof. split; by vm_compute. Qed.

(** A short last section joins the chunk before it, whose last line stays what it was. *)
Definition short_tail : text := stub ++ [newline] ++ replicate 200 97%N ++ [newline] ++ stub.

Theorem tail_section_misnumbered :
  ∃ c, chunk_by_heading (λ _ l, starts_with l (chars "* ")) short_tail "org" = Ok [c] ∧ content c = short_tail ∧
    length (lines short_tail) = 3 ∧ start_line c = 1%Z ∧ end_line c = 2%Z.
Proof. eexists. split; [by vm_compute|]. split_and!; by vm_compute. Qed.
