(* ===== verification/LatexExpand.v ===== *)
(** The expansion of LaTeX macros ([src/src/indexer/extract/latex/expand.rs]):
    syntax trees, definitions, substitution, and the guarded expansion. *)

From Stdlib Require Import Ascii ZArith.
From stdpp Require Import base numbers strings pretty gmap relations list.
From S2P Require Import Prelude Text.

(** * Syntax trees

    The nodes of the [latex_parser] crate as the code takes them apart and
    builds them; what it only passes on (math modes, argument kinds, verbatim
    blocks, errors, source spans) is of any type. *)

Section syntax.
Context {Mode Kind Verbatim Error Span : Type}.

Inductive NodeRef :=
| mk (node : Node) (span : Span)
with Node :=
| NText (t : string)
| NWhitespace (ws : string)
| NGroup (g : list NodeRef)
| NComment (c : string)
| NMath (mode : Mode) (content : list NodeRef) (is_closed : bool)
| NCommand (name : string) (optional_args args : list Argument) (starred : bool)
| NEnvironment (name : string) (args : list Argument) (body : list NodeRef) (is_closed : bool)
| NVerbatim (v : Verbatim)
| NVerbatimInline (v : Verbatim)
| NParameter (k : nat)
| NError (e : Error)
with Argument :=
| argument (content : list NodeRef) (kind : Kind).

Definition node_of (n : NodeRef) : Node := match n with mk nd _ => nd end.
Definition arg_content (a : Argument) : list NodeRef := match a with argument c _ => c end.

Record Document := mkDocument {
  preamble : list NodeRef;
  doc_body : option (list NodeRef);
  is_complete : bool;
  errors : list Error;
}.

(** * Definitions *)

Record MacroDef := mkMacro { params : nat; macro_body : list NodeRef }.

Definition MAX_STEPS : N := 100000.
Definition MAX_DEPTH : nat := 256.

Record Budget := mkBudget { steps : N; depth : nat; active : list string }.

(** The table and the budget that every function threads. *)
Definition State : Type := gmap string MacroDef * Budget.

(** The first command of an argument names the macro. *)
Definition control_name (a : Argument) : option string :=
  head (omap (λ n, match node_of n with NCommand name _ _ _ => Some name | _ => None end) (arg_content a)).

Definition arg_text (a : Argument) : string :=
  foldr (λ n s, match node_of n with NText t => t +:+ s | _ => s end) EmptyString (arg_content a).

(** [str::parse::<u8>]: an optional plus and digits, of value at most 255. *)
Fixpoint digits_value (acc : nat) (s : string) : option nat :=
  match s with
  | EmptyString => Some acc
  | String c s' =>
      if is_ascii_digit c then
        let v := 10 * acc + (nat_of_ascii c - 48) in
        if 255 <? v then None else digits_value v s'
      else None
  end.

Definition parse_u8 (s : string) : option nat :=
  let ds := match s with String "+" s' => s' | _ => s end in
  match ds with EmptyString => None | _ => digits_value 0 ds end.

(** [\def]: the name and the parameter marks are siblings, up to the group that
    is the body. *)
Fixpoint def_body (ns : list NodeRef) (count : nat) (seen : nat) : option (MacroDef * nat) :=
  match ns with
  | [] => None
  | n :: rest =>
      match node_of n with
      | NParameter _ => def_body rest (S count `min` 9) (S seen)
      | NGroup g => Some (mkMacro count g, S seen)
      | _ => None
      end
  end.

Definition try_register_def (rest : list NodeRef) (table : gmap string MacroDef) : option (gmap string MacroDef * nat) :=
  match rest with
  | [] => None
  | n :: rest =>
      match node_of n with
      | NCommand name _ _ _ =>
          match def_body rest 0 1 with
          | Some (d, consumed) => Some (<[name := d]> table, consumed)
          | None => None
          end
      | _ => None
      end
  end.

Definition param_count (opts : list Argument) : nat :=
  match opts with
  | [] => 0
  | a :: _ => default 0 (parse_u8 (trim (arg_text a))) `min` 9
  end.

(** The new table and the number of following siblings the definition owns;
    [None] for a command that defines nothing. *)
Definition try_register (name : string) (opts args : list Argument) (rest : list NodeRef)
    (table : gmap string MacroDef) : option (gmap string MacroDef * nat) :=
  if decide (name ∈ ["newcommand"; "renewcommand"; "providecommand"; "DeclareRobustCommand"]) then
    defined ← head args ≫= control_name;
    body ← args !! 1;
    if decide (name = "providecommand" ∧ is_Some (table !! defined)) then Some (table, 0)
    else Some (<[defined := mkMacro (param_count opts) (arg_content body)]> table, 0)
  else if decide (name = "DeclareMathOperator") then
    defined ← head args ≫= control_name;
    body ← args !! 1;
    Some (<[defined := mkMacro 0 (arg_content body)]> table, 0)
  else if decide (name = "def") then try_register_def rest table
  else None.

(** * Arguments and substitution *)

Definition is_whitespace_node (n : NodeRef) : bool := match node_of n with NWhitespace _ => true | _ => false end.

(** The siblings skipped before an argument. *)
Fixpoint white_run (ns : list NodeRef) : nat :=
  match ns with n :: rest => if is_whitespace_node n then S (white_run rest) else 0 | [] => 0 end.

Definition as_argument (n : NodeRef) : list NodeRef := match node_of n with NGroup g => g | _ => [n] end.

(** The next [n] arguments and the number of siblings they take. *)
Fixpoint grab_args (ns : list NodeRef) (n : nat) : list (list NodeRef) * nat :=
  match n with
  | O => ([], 0)
  | S n' =>
      let w := white_run ns in
      match drop w ns with
      | [] => let '(args, used) := grab_args [] n' in ([] :: args, w + used)
      | a :: rest => let '(args, used) := grab_args rest n' in (as_argument a :: args, w + S used)
      end
  end.

Variable empty_span : Span.

(** A use that is not expanded: its name, then its arguments as groups. *)
Definition leave_literal (name : string) (args : list (list NodeRef)) : list NodeRef :=
  mk (NCommand name [] [] false) empty_span :: map (λ a, mk (NGroup a) empty_span) args.

Fixpoint subst_node (args : list (list NodeRef)) (n : NodeRef) : list NodeRef :=
  match n with
  | mk nd span =>
      let subst_arg a := match a with argument c kind => argument (concat (map (subst_node args) c)) kind end in
      match nd with
      | NParameter k => match args !! (k - 1) with Some arg => arg | None => [n] end
      | NGroup g => [mk (NGroup (concat (map (subst_node args) g))) span]
      | NCommand name opts cargs starred => [mk (NCommand name (map subst_arg opts) (map subst_arg cargs) starred) span]
      | NEnvironment name eargs body closed =>
          [mk (NEnvironment name (map subst_arg eargs) (concat (map (subst_node args) body)) closed) span]
      | NMath mode content closed => [mk (NMath mode (concat (map (subst_node args) content)) closed) span]
      | _ => [n]
      end
  end.

Definition substitute (body : list NodeRef) (args : list (list NodeRef)) : list NodeRef :=
  concat (map (subst_node args) body).

(** * Expansion *)

Definition expanded : Type := outcome Empty_set (list NodeRef * State).

(** The loop over siblings; [skip] of them belong to the node before. *)
Section siblings.
Variable child : NodeRef → State → outcome Empty_set (NodeRef * State).
Variable use : string → list NodeRef → list (list NodeRef) → State → expanded.

Fixpoint expand_from (ns : list NodeRef) (skip : nat) (st : State) : expanded :=
  match ns with
  | [] => Ok ([], st)
  | n :: rest =>
      match skip with
      | S skip' => expand_from rest skip' st
      | O =>
          let descend :=
            let* (n', st) := child n st in
            let* (out, st) := expand_from rest 0 st in
            Ok (n' :: out, st) in
          match node_of n with
          | NCommand name opts args _ =>
              match try_register name opts args rest st.1 with
              | Some (table, consumed) => expand_from rest consumed (table, st.2)
              | None =>
                  match st.1 !! name with
                  | Some d =>
                      let '(margs, consumed) := grab_args rest (params d) in
                      let* (e, st) := use name (macro_body d) margs st in
                      let* (out, st) := expand_from rest consumed st in
                      Ok (e ++ out, st)
                  | None => descend
                  end
              end
          | _ => descend
          end
      end
  end.
End siblings.

Section arguments.
Variable nodes : list NodeRef → State → expanded.

Fixpoint map_args (args : list Argument) (st : State) : outcome Empty_set (list Argument * State) :=
  match args with
  | [] => Ok ([], st)
  | argument c kind :: rest =>
      let* (c, st) := nodes c st in
      let* (rest, st) := map_args rest st in
      Ok (argument c kind :: rest, st)
  end.
End arguments.

(** What [expand_nodes] does to a node that is neither a definition nor a use:
    expand what it contains. *)
Fixpoint expand_child (use : string → list NodeRef → list (list NodeRef) → State → expanded)
    (n : NodeRef) (st : State) : outcome Empty_set (NodeRef * State) :=
  match n with
  | mk nd span =>
      match nd with
      | NCommand name opts args starred =>
          let* (opts, st) := map_args (λ ns, expand_from (expand_child use) use ns 0) opts st in
          let* (args, st) := map_args (λ ns, expand_from (expand_child use) use ns 0) args st in
          Ok (mk (NCommand name opts args starred) span, st)
      | NGroup g =>
          let* (g, st) := expand_from (expand_child use) use g 0 st in
          Ok (mk (NGroup g) span, st)
      | NEnvironment name args body closed =>
          let* (args, st) := map_args (λ ns, expand_from (expand_child use) use ns 0) args st in
          let* (body, st) := expand_from (expand_child use) use body 0 st in
          Ok (mk (NEnvironment name args body closed) span, st)
      | NMath mode content closed =>
          let* (content, st) := expand_from (expand_child use) use content 0 st in
          Ok (mk (NMath mode content closed) span, st)
      | _ => Ok (n, st)
      end
  end.

Definition enter (name : string) (b : Budget) : Budget := mkBudget (steps b - 1) (S (depth b)) (name :: active b).
Definition leave_use (b : Budget) : Budget := mkBudget (steps b) (depth b - 1) (tail (active b)).

(** [room] bounds the depth of the recursion; the guard on [depth] stops it
    before [room] is used up. *)
Fixpoint expand_use (room : nat) (name : string) (body : list NodeRef) (args : list (list NodeRef)) (st : State) : expanded :=
  if decide (steps st.2 = 0%N ∨ MAX_DEPTH ≤ depth st.2 ∨ name ∈ active st.2) then Ok (leave_literal name args, st)
  else match room with
       | O => OutOfFuel
       | S room' =>
           let* (out, st) := expand_from (expand_child (expand_use room')) (expand_use room') (substitute body args) 0
                               (st.1, enter name st.2) in
           Ok (out, (st.1, leave_use st.2))
       end.

Definition expand_nodes (room : nat) (ns : list NodeRef) (st : State) : expanded :=
  expand_from (expand_child (expand_use room)) (expand_use room) ns 0 st.

Definition expand_macros (doc : Document) : outcome Empty_set Document :=
  let* (pre, st) := expand_nodes MAX_DEPTH (preamble doc) (∅, mkBudget MAX_STEPS 0 []) in
  match doc_body doc with
  | Some b =>
      let* (b, _) := expand_nodes MAX_DEPTH b st in
      Ok (mkDocument pre (Some b) (is_complete doc) (errors doc))
  | None => Ok (mkDocument pre None (is_complete doc) (errors doc))
  end.

(** * Induction over trees *)

Definition args_nodes (args : list Argument) : list NodeRef := concat (map arg_content args).

Definition kids (n : NodeRef) : list NodeRef :=
  match node_of n with
  | NGroup g => g
  | NMath _ content _ => content
  | NCommand _ opts args _ => args_nodes opts ++ args_nodes args
  | NEnvironment _ args body _ => args_nodes args ++ body
  | _ => []
  end.

Fixpoint node_size (n : NodeRef) : nat :=
  match n with
  | mk nd _ =>
      let arg_size a := match a with argument c _ => sum_list_with node_size c end in
      S match nd with
        | NGroup g => sum_list_with node_size g
        | NMath _ content _ => sum_list_with node_size content
        | NCommand _ opts args _ => sum_list_with arg_size opts + sum_list_with arg_size args
        | NEnvironment _ args body _ => sum_list_with arg_size args + sum_list_with node_size body
        | _ => 0
        end
  end.

Lemma size_args args : sum_list_with (λ a, match a with argument c _ => sum_list_with node_size c end) args =
  sum_list_with node_size (args_nodes args).
Proof.
  induction args as [|[c kind] args IH]; [done|]. unfold args_nodes in *. cbn [map concat arg_content sum_list_with].
  by rewrite IH, sum_list_with_app.
Qed.

Lemma kids_smaller n m : m ∈ kids n → node_size m < node_size n.
Proof.
  destruct n as [nd span]. unfold kids. cbn [node_of].
  destruct nd; try (by intros ?%not_elem_of_nil); cbn [node_size]; rewrite ?size_args; intros Hm.
  - apply (sum_list_with_in _ node_size) in Hm. lia.
  - apply (sum_list_with_in _ node_size) in Hm. lia.
  - apply elem_of_app in Hm as [Hm|Hm]; apply (sum_list_with_in _ node_size) in Hm; lia.
  - apply elem_of_app in Hm as [Hm|Hm]; apply (sum_list_with_in _ node_size) in Hm; lia.
Qed.

Lemma node_kids_ind (P : NodeRef → Prop) : (∀ n, (∀ m, m ∈ kids n → P m) → P n) → ∀ n, P n.
Proof.
  intros H n. remember (node_size n) as k eqn:Ek. revert n Ek. induction (lt_wf k) as [k _ IH]. intros n ->.
  apply H. intros m Hm%kids_smaller. by apply (IH (node_size m)).
Qed.

(** * The expansion returns *)

Definition kept (b b' : Budget) : Prop := depth b' = depth b ∧ active b' = active b ∧ (steps b' ≤ steps b)%N.

#[local] Instance kept_preorder : PreOrder kept.
Proof. split; [by intros b; split_and!|]. intros a b c (? & ? & ?) (? & ? & ?). split_and!; [congruence|congruence|lia]. Qed.

(** [f] returns and keeps the budget of every state at depth [d]. *)
Definition total_at {A} (d : nat) (f : State → outcome Empty_set (A * State)) : Prop :=
  ∀ st, depth st.2 = d → ∃ a st', f st = Ok (a, st') ∧ kept st.2 st'.2.

Lemma total_bind {A B} d (f : State → outcome Empty_set (A * State)) (k : A → State → outcome Empty_set (B * State)) :
  total_at d f → (∀ a, total_at d (k a)) → total_at d (λ st, let* (a, st) := f st in k a st).
Proof.
  intros Hf Hk st Hst. destruct (Hf st Hst) as (a & st1 & -> & H1). cbn [obind].
  destruct (Hk a st1) as (b & st2 & -> & H2); [by destruct H1 as [-> _]|]. exists b, st2. split; [done|by etransitivity].
Qed.

Lemma total_ret {A} d (a : A) : total_at d (λ st, Ok (a, st)).
Proof. intros st _. by exists a, st. Qed.

Section totality.
Variables (d : nat) (child : NodeRef → State → outcome Empty_set (NodeRef * State))
  (use : string → list NodeRef → list (list NodeRef) → State → expanded).
Hypothesis Huse : ∀ name body args, total_at d (use name body args).

Lemma expand_from_total ns : (∀ n, n ∈ ns → total_at d (child n)) → ∀ skip, total_at d (expand_from child use ns skip).
Proof.
  induction ns as [|n ns IH]; intros Hns skip st Hst; [by exists [], st|].
  assert (IH' : ∀ skip, total_at d (expand_from child use ns skip)) by (apply IH; set_solver).
  destruct skip as [|skip]; cbn [expand_from]; [|by apply IH'].
  assert (Hd : total_at d (λ st, let* (n', st) := child n st in let* (out, st) := expand_from child use ns 0 st in Ok (n' :: out, st))).
  { apply total_bind; [apply Hns; set_solver|]. intros n'. apply total_bind; [apply IH'|]. intros out. apply total_ret. }
  destruct (node_of n) as [| | | | |name opts args starred| | | | |]; try by apply Hd.
  destruct (try_register _ _ _ _ _) as [[table consumed]|]; [exact (IH' consumed (table, st.2) Hst)|].
  destruct (st.1 !! name) as [m|]; [|by apply Hd]. destruct (grab_args ns (params m)) as [margs consumed].
  refine (total_bind d _ _ (Huse name (macro_body m) margs) _ st Hst). intros e.
  apply total_bind; [apply IH'|]. intros out. apply total_ret.
Qed.

End totality.

Lemma map_args_total d (nodes : list NodeRef → State → expanded) args :
  (∀ a, a ∈ args → total_at d (nodes (arg_content a))) → total_at d (map_args nodes args).
Proof.
  induction args as [|[c kind] args IH]; intros Hargs; [apply total_ret|]. cbn [map_args].
  apply total_bind; [exact (Hargs (argument c kind) ltac:(set_solver))|]. intros c'.
  apply total_bind; [apply IH; set_solver|]. intros rest. apply total_ret.
Qed.

Lemma elem_of_args_nodes a args m : a ∈ args → m ∈ arg_content a → m ∈ args_nodes args.
Proof. intros Ha Hm. unfold args_nodes. induction Ha; cbn [map concat]; apply elem_of_app; auto. Qed.

Lemma expand_child_total d use n : (∀ name body args, total_at d (use name body args)) → total_at d (expand_child use n).
Proof.
  intros Huse. induction n as [[nd span] IH] using node_kids_ind.
  assert (Hl : ∀ ns, (∀ m, m ∈ ns → m ∈ kids (mk nd span)) → total_at d (expand_from (expand_child use) use ns 0)).
  { intros ns Hns. apply expand_from_total; [done|]. intros m Hm. by apply IH, Hns. }
  assert (Ha : ∀ args, (∀ m, m ∈ args_nodes args → m ∈ kids (mk nd span)) →
    total_at d (map_args (λ ns, expand_from (expand_child use) use ns 0) args)).
  { intros args Hargs. apply map_args_total. intros a Hin. apply Hl. intros m Hm. apply Hargs. by apply (elem_of_args_nodes a). }
  unfold kids in Hl, Ha. destruct nd; cbn [node_of] in Hl, Ha; cbn [expand_child]; try apply total_ret;
    repeat (apply total_bind; [first [apply Hl|apply Ha]; set_solver|]; intros ?); apply total_ret.
Qed.

Lemma expand_use_total room d name body args : MAX_DEPTH ≤ room + d → total_at d (expand_use room name body args).
Proof.
  revert d name body args. induction room as [|room IH]; intros d name body args Hroom st Hst; cbn [expand_use];
    case_decide as Hg; try by eexists _, st.
  - destruct Hg. right. left. lia.
  - destruct (expand_from_total (S d) (expand_child (expand_use room)) (expand_use room)
      ltac:(intros; apply IH; lia) (substitute body args)
      ltac:(intros; apply expand_child_total; intros; apply IH; lia) 0 (st.1, enter name st.2)) as (out & st' & -> & H1 & H2 & H3);
      [simpl; lia|]. cbn [obind]. eexists _, _. split; [done|]. destruct st as [table [k dp act]], st' as [table' [k' dp' act']].
    simpl in *. subst. split_and!; simpl; [lia|done|lia].
Qed.

Lemma expand_nodes_total ns : total_at 0 (expand_nodes MAX_DEPTH ns).
Proof.
  assert (Huse : ∀ name body args, total_at 0 (expand_use MAX_DEPTH name body args)) by (intros; apply expand_use_total; lia).
  apply expand_from_total; [done|]. intros n _. by apply expand_child_total.
Qed.

(** * What expansion means

    Call by name: the arguments of a use replace the parameters of the body,
    and the result is expanded in its place.  A derivation counts its uses,
    measures how deep they nest and lists the names; no macro is used inside its
    own expansion. *)

Record Work := mkWork { uses : N; height : nat; entered : list string }.

Definition no_work : Work := mkWork 0 0 [].
Definition work_join (v w : Work) : Work := mkWork (uses v + uses w) (height v `max` height w) (entered v ++ entered w).
Definition work_use (name : string) (w : Work) : Work := mkWork (1 + uses w) (S (height w)) (name :: entered w).

Definition definition_names : list string :=
  ["newcommand"; "renewcommand"; "providecommand"; "DeclareRobustCommand"; "DeclareMathOperator"; "def"].

Definition is_leaf (n : NodeRef) : bool :=
  match node_of n with NGroup _ | NMath _ _ _ | NCommand _ _ _ _ | NEnvironment _ _ _ _ => false | _ => true end.

(** ** Arguments and definitions, declaratively *)

(** [supplies n ns args rest]: [ns] supplies [n] undelimited arguments and leaves
    [rest].  Whitespace before an argument is skipped, a group supplies what it
    contains, another token supplies itself, and where nothing is left the
    argument is empty. *)
Inductive supplies : nat → list NodeRef → list (list NodeRef) → list NodeRef → Prop :=
| supplies_none ns : supplies 0 ns [] ns
| supplies_white n ws span ns args rest :
    supplies (S n) ns args rest → supplies (S n) (mk (NWhitespace ws) span :: ns) args rest
| supplies_group n g span ns args rest :
    supplies n ns args rest → supplies (S n) (mk (NGroup g) span :: ns) (g :: args) rest
| supplies_token n t ns args rest :
    (∀ ws, node_of t ≠ NWhitespace ws) → (∀ g, node_of t ≠ NGroup g) →
    supplies n ns args rest → supplies (S n) (t :: ns) ([t] :: args) rest
| supplies_empty n args rest : supplies n [] args rest → supplies (S n) [] ([] :: args) rest.

(** [replaces args ns out]: [out] is [ns] with each mark [#k] replaced by the
    [k]-th of [args], counted from 1; a mark beyond the arguments stays. *)
Inductive replaces (args : list (list NodeRef)) : list NodeRef → list NodeRef → Prop :=
| replaces_nil : replaces args [] []
| replaces_mark before arg after span rest out :
    args = before ++ arg :: after → replaces args rest out →
    replaces args (mk (NParameter (S (length before))) span :: rest) (arg ++ out)
| replaces_unbound k span rest out :
    length args < k → replaces args rest out →
    replaces args (mk (NParameter k) span :: rest) (mk (NParameter k) span :: out)
| replaces_node n n' rest out :
    replaces_in args n n' → replaces args rest out → replaces args (n :: rest) (n' :: out)
with replaces_in (args : list (list NodeRef)) : NodeRef → NodeRef → Prop :=
| replaces_leaf n : is_leaf n = true → (∀ k, node_of n ≠ NParameter k) → replaces_in args n n
| replaces_group g g' span : replaces args g g' → replaces_in args (mk (NGroup g) span) (mk (NGroup g') span)
| replaces_math mode c c' closed span :
    replaces args c c' → replaces_in args (mk (NMath mode c closed) span) (mk (NMath mode c' closed) span)
| replaces_command name opts opts' cargs cargs' starred span :
    replaces_arguments args opts opts' → replaces_arguments args cargs cargs' →
    replaces_in args (mk (NCommand name opts cargs starred) span) (mk (NCommand name opts' cargs' starred) span)
| replaces_environment name eargs eargs' body body' closed span :
    replaces_arguments args eargs eargs' → replaces args body body' →
    replaces_in args (mk (NEnvironment name eargs body closed) span) (mk (NEnvironment name eargs' body' closed) span)
with replaces_arguments (args : list (list NodeRef)) : list Argument → list Argument → Prop :=
| replaces_no_arguments : replaces_arguments args [] []
| replaces_argument c c' kind rest rest' :
    replaces args c c' → replaces_arguments args rest rest' →
    replaces_arguments args (argument c kind :: rest) (argument c' kind :: rest').

Scheme replaces_mut := Minimality for replaces Sort Prop
with replaces_in_mut := Minimality for replaces_in Sort Prop
with replaces_arguments_mut := Minimality for replaces_arguments Sort Prop.
Combined Scheme replaces_ind3 from replaces_mut, replaces_in_mut, replaces_arguments_mut.

(** The argument [{\name}]: its first command is [name]. *)
Definition names_macro (a : Argument) (name : string) : Prop := ∃ before opts args starred span after,
  arg_content a = before ++ mk (NCommand name opts args starred) span :: after ∧
  ∀ n, n ∈ before → ∀ x xo xa xs, node_of n ≠ NCommand x xo xa xs.

(** [[k]], the number of parameters: none is given, or a digit in brackets. *)
Definition declares (opts : list Argument) (k : nat) : Prop :=
  (opts = [] ∧ k = 0) ∨
  ∃ a more left span right, opts = a :: more ∧ k ≤ 9 ∧ arg_content a = left ++ mk (NText (pretty k)) span :: right ∧
    ∀ n, n ∈ left ++ right → ∃ ws, node_of n = NWhitespace ws.

(** [defines t cmd opts args rest t' rest']: with the table [t], the command
    [cmd] before the siblings [rest] is a definition; [t'] is the table after it,
    and [rest'] the siblings it does not own. *)
Inductive defines (t : gmap string MacroDef) :
    string → list Argument → list Argument → list NodeRef → gmap string MacroDef → list NodeRef → Prop :=
| defines_command cmd opts a body more rest name k :
    cmd = "newcommand" ∨ cmd = "renewcommand" ∨ cmd = "DeclareRobustCommand" ∨ (cmd = "providecommand" ∧ t !! name = None) →
    names_macro a name → declares opts k →
    defines t cmd opts (a :: body :: more) rest (<[name := mkMacro k (arg_content body)]> t) rest
| defines_provided opts a body more rest name d :
    names_macro a name → t !! name = Some d → defines t "providecommand" opts (a :: body :: more) rest t rest
| defines_operator opts a body more rest name :
    names_macro a name →
    defines t "DeclareMathOperator" opts (a :: body :: more) rest (<[name := mkMacro 0 (arg_content body)]> t) rest
| defines_def opts args name nopts nargs starred span marks g gspan rest :
    (∀ m, m ∈ marks → ∃ k, node_of m = NParameter k) → length marks ≤ 9 →
    defines t "def" opts args (mk (NCommand name nopts nargs starred) span :: marks ++ mk (NGroup g) gspan :: rest)
      (<[name := mkMacro (length marks) g]> t) rest.

(** ** The code agrees *)

Lemma supplies_grabs n ns args rest : supplies n ns args rest → ∃ used, grab_args ns n = (args, used) ∧ drop used ns = rest.
Proof.
  induction 1 as [ns|n ws span ns args rest _ (used & E & D)|n g span ns args rest _ (used & E & D)
    |n t ns args rest Hw Hg _ (used & E & D)|n args rest _ (used & E & D)].
  - by exists 0.
  - exists (S used). split; [|done]. cbn [grab_args] in *. cbn [white_run is_whitespace_node node_of drop].
    destruct (drop (white_run ns) ns) as [|a ns']; destruct (grab_args _ n) as [args' used']; by simplify_eq/=.
  - exists (S used). split; [|done]. cbn [grab_args white_run is_whitespace_node node_of drop as_argument]. by rewrite E.
  - exists (S used). split; [|done].
    assert (white_run (t :: ns) = 0) as Ht.
    { cbn [white_run]. unfold is_whitespace_node. destruct (node_of t) eqn:Et; try done. by destruct (Hw ws). }
    assert (as_argument t = [t]) as Ha.
    { unfold as_argument. destruct (node_of t) eqn:Et; try done. by destruct (Hg g). }
    cbn [grab_args]. rewrite Ht. cbn [drop]. by rewrite E, Ha.
  - exists used. cbn [grab_args white_run drop]. rewrite E. cbn. by rewrite drop_nil in *.
Qed.

Definition subst_arg (args : list (list NodeRef)) (a : Argument) : Argument :=
  match a with argument c kind => argument (substitute c args) kind end.

Lemma replaces_substitute args :
  (∀ ns out, replaces args ns out → substitute ns args = out) ∧
  (∀ n n', replaces_in args n n' → subst_node args n = [n']) ∧
  (∀ l l', replaces_arguments args l l' → map (subst_arg args) l = l').
Proof.
  apply replaces_ind3.
  - done.
  - intros before arg after span rest out E _ IH. unfold substitute in *. cbn [map concat subst_node]. rewrite IH.
    by rewrite Nat.sub_1_r, E, list_lookup_middle by done.
  - intros k span rest out Hk _ IH. unfold substitute in *. cbn [map concat subst_node]. rewrite IH.
    by rewrite lookup_ge_None_2 by lia.
  - intros n n' rest out _ IHn _ IH. unfold substitute in *. cbn [map concat]. by rewrite IHn, IH.
  - intros [[] span] Hl Hp; try done. by destruct (Hp k).
  - intros g g' span _ IH. unfold substitute in IH. cbn [subst_node]. by rewrite IH.
  - intros mode c c' closed span _ IH. unfold substitute in IH. cbn [subst_node]. by rewrite IH.
  - intros name opts opts' cargs cargs' starred span _ IHo _ IHa. unfold subst_arg, substitute in IHo, IHa.
    cbn [subst_node]. by rewrite IHo, IHa.
  - intros name eargs eargs' body body' closed span _ IHa _ IHb. unfold subst_arg, substitute in IHa. unfold substitute in IHb.
    cbn [subst_node]. by rewrite IHa, IHb.
  - done.
  - intros c c' kind rest rest' _ IHc _ IH. cbn [map subst_arg]. by rewrite IHc, IH.
Qed.

Lemma names_macro_control a name : names_macro a name → control_name a = Some name.
Proof.
  intros (before & opts & args & starred & span & after & E & Hb). unfold control_name. rewrite E. clear E.
  induction before as [|n before IH]; [done|]. cbn [app omap list_omap].
  destruct (node_of n) eqn:En; try (apply IH; intros m Hm; apply Hb; by right).
  exfalso. eapply (Hb n); [by left|done].
Qed.

Lemma arg_text_white ns : (∀ n, n ∈ ns → ∃ ws, node_of n = NWhitespace ws) → ∀ s,
  foldr (λ n s, match node_of n with NText t => t +:+ s | _ => s end) s ns = s.
Proof.
  intros Hns s. induction ns as [|n ns IH]; [done|]. cbn [foldr]. rewrite IH by (intros; apply Hns; by right).
  by destruct (Hns n) as (ws & ->); [left|].
Qed.

Lemma declares_count opts k : declares opts k → param_count opts = k.
Proof.
  intros [[-> ->]|(a & more & left & span & right & -> & Hk & E & Hw)]; [done|]. unfold param_count, arg_text.
  rewrite E, foldr_app. cbn [foldr node_of]. rewrite !arg_text_white by (intros; apply Hw, elem_of_app; auto).
  do 10 (destruct k as [|k]; [by vm_compute|]). lia.
Qed.

Lemma def_body_marks marks g gspan rest count seen : (∀ m, m ∈ marks → ∃ k, node_of m = NParameter k) → count + length marks ≤ 9 →
  def_body (marks ++ mk (NGroup g) gspan :: rest) count seen = Some (mkMacro (count + length marks) g, S (seen + length marks)).
Proof.
  revert count seen. induction marks as [|m marks IH]; intros count seen Hm Hl; cbn [app length def_body node_of].
  - by rewrite !Nat.add_0_r.
  - destruct (Hm m) as (k & ->); [by left|]. cbn [length] in Hl. rewrite Nat.min_l by lia.
    rewrite IH by (first [intros; apply Hm; by right|lia]). do 3 f_equal; lia.
Qed.

Lemma defines_registers t cmd opts args rest t' rest' : defines t cmd opts args rest t' rest' →
  ∃ consumed, try_register cmd opts args rest t = Some (t', consumed) ∧ drop consumed rest = rest'.
Proof.
  destruct 1 as [cmd opts a body more rest name k Hcmd Ha%names_macro_control Hk%declares_count|opts a body more rest name d Ha%names_macro_control Hd
    |opts a body more rest name Ha%names_macro_control|opts args name nopts nargs starred span marks g gspan rest Hm Hl].
  - exists 0. split; [|done]. unfold try_register.
    rewrite decide_True by (destruct Hcmd as [->|[->|[->|[-> _]]]]; set_solver).
    cbn [head mbind option_bind lookup list_lookup]. rewrite Ha. cbn [mbind option_bind]. rewrite Hk, decide_False; [done|].
    intros [-> [d Hd]]. destruct Hcmd as [|[|[|[_ Hn]]]]; try done. by rewrite Hn in Hd.
  - exists 0. split; [|done]. unfold try_register. cbn [head mbind option_bind lookup list_lookup]. rewrite Ha.
    cbn [mbind option_bind]. rewrite decide_True by set_solver. by rewrite decide_True by by rewrite Hd.
  - exists 0. split; [|done]. unfold try_register. cbn [head mbind option_bind lookup list_lookup]. by rewrite Ha.
  - exists (S (S (length marks))). split.
    + unfold try_register. cbn [decide_rel]. rewrite decide_False, decide_False, decide_True by (done || set_solver).
      unfold try_register_def. cbn [node_of]. by rewrite def_body_marks.
    + cbn [drop]. rewrite drop_app_ge by lia. by replace (S (length marks) - length marks) with 1 by lia.
Qed.

(** The guard that stops an expansion. *)
Definition stopped (name : string) (b : Budget) : Prop := steps b = 0%N ∨ MAX_DEPTH ≤ depth b ∨ name ∈ active b.

Lemma expand_use_go room name body args st : ¬ stopped name st.2 →
  expand_use (S room) name body args st =
  let* (out, st') := expand_nodes room (substitute body args) (st.1, enter name st.2) in Ok (out, (st'.1, leave_use st'.2)).
Proof. intros Hg. cbn [expand_use]. by rewrite decide_False by exact Hg. Qed.

Lemma expand_child_command room name opts args starred span st :
  expand_child (expand_use room) (mk (NCommand name opts args starred) span) st =
  let* (opts, st) := map_args (expand_nodes room) opts st in
  let* (args, st) := map_args (expand_nodes room) args st in
  Ok (mk (NCommand name opts args starred) span, st).
Proof. done. Qed.

Lemma expand_child_environment room name args body closed span st :
  expand_child (expand_use room) (mk (NEnvironment name args body closed) span) st =
  let* (args, st) := map_args (expand_nodes room) args st in
  let* (body, st) := expand_nodes room body st in
  Ok (mk (NEnvironment name args body closed) span, st).
Proof. done. Qed.

Lemma expand_use_stopped room name body args st : stopped name st.2 →
  expand_use room name body args st = Ok (leave_literal name args, st).
Proof. intros Hg. destruct room; cbn [expand_use]; by rewrite decide_True by exact Hg. Qed.

Section meaning.
Variable table : gmap string MacroDef.

(** Neither a definition nor a use. *)
Definition plain (n : NodeRef) : Prop :=
  match node_of n with NCommand name _ _ _ => name ∉ definition_names ∧ table !! name = None | _ => True end.

Inductive expands : list NodeRef → list NodeRef → Work → Prop :=
| expands_nil : expands [] [] no_work
| expands_use name opts args starred span rest d margs rest' s e out v w :
    name ∉ definition_names → table !! name = Some d → supplies (params d) rest margs rest' →
    replaces margs (macro_body d) s → expands s e v → name ∉ entered v →
    expands rest' out w →
    expands (mk (NCommand name opts args starred) span :: rest) (e ++ out) (work_join (work_use name v) w)
| expands_node n n' rest out v w :
    plain n → expands_in n n' v → expands rest out w → expands (n :: rest) (n' :: out) (work_join v w)
with expands_in : NodeRef → NodeRef → Work → Prop :=
| in_leaf n : is_leaf n = true → expands_in n n no_work
| in_group g g' span w : expands g g' w → expands_in (mk (NGroup g) span) (mk (NGroup g') span) w
| in_math mode c c' closed span w : expands c c' w → expands_in (mk (NMath mode c closed) span) (mk (NMath mode c' closed) span) w
| in_command name opts opts' args args' starred span v w :
    expands_args opts opts' v → expands_args args args' w →
    expands_in (mk (NCommand name opts args starred) span) (mk (NCommand name opts' args' starred) span) (work_join v w)
| in_environment name args args' body body' closed span v w :
    expands_args args args' v → expands body body' w →
    expands_in (mk (NEnvironment name args body closed) span) (mk (NEnvironment name args' body' closed) span) (work_join v w)
with expands_args : list Argument → list Argument → Work → Prop :=
| args_nil : expands_args [] [] no_work
| args_cons c c' kind rest rest' v w :
    expands c c' v → expands_args rest rest' w → expands_args (argument c kind :: rest) (argument c' kind :: rest') (work_join v w).

Scheme expands_mut := Minimality for expands Sort Prop
with expands_in_mut := Minimality for expands_in Sort Prop
with expands_args_mut := Minimality for expands_args Sort Prop.
Combined Scheme expands_ind3 from expands_mut, expands_in_mut, expands_args_mut.

Lemma try_register_none name opts args rest t : name ∉ definition_names → try_register name opts args rest t = None.
Proof. intros Hn. unfold try_register, definition_names in *. rewrite !decide_False; [done| | |]; set_solver. Qed.

Lemma expand_from_skip child use ns k st : expand_from child use ns k st = expand_from child use (drop k ns) 0 st.
Proof. revert k st. induction ns as [|n ns IH]; intros [|k] st; [done..|]. cbn [expand_from drop]. apply IH. Qed.

Definition spend (k : N) (b : Budget) : Budget := mkBudget (steps b - k) (depth b) (active b).

(** The budget is enough for the work, and no name of it is on the stack. *)
Definition enough (room : nat) (w : Work) (b : Budget) : Prop :=
  (uses w ≤ steps b)%N ∧ depth b + height w ≤ MAX_DEPTH ∧ (∀ x, x ∈ entered w → x ∉ active b) ∧ MAX_DEPTH ≤ room + depth b.

Lemma enough_join room v w b : enough room (work_join v w) b → enough room v b ∧ enough room w (spend (uses v) b).
Proof.
  intros (Hu & Hh & Hs & Hr). unfold enough, work_join, spend in *. simpl in *.
  split; split_and!; try lia; intros x Hx; apply Hs; set_solver.
Qed.

Lemma spend_join v w b : spend (uses (work_join v w)) b = spend (uses w) (spend (uses v) b).
Proof. unfold spend, work_join. simpl. f_equal. lia. Qed.

Definition does (w : Work) {A} (f : nat → State → outcome Empty_set (A * State)) (a : A) : Prop :=
  ∀ room b, enough room w b → f room (table, b) = Ok (a, (table, spend (uses w) b)).

Lemma spend_nothing b : spend 0 b = b.
Proof. destruct b. unfold spend. simpl. f_equal. lia. Qed.

Lemma plain_step n rest child use st : plain n → st.1 = table →
  expand_from child use (n :: rest) 0 st =
  (let* (n', st) := child n st in let* (out, st) := expand_from child use rest 0 st in Ok (n' :: out, st)).
Proof.
  intros Hp Ht. destruct n as [nd span]. unfold plain in Hp. cbn [expand_from node_of] in *. destruct nd; try done.
  destruct Hp as [Hn Hl]. by rewrite try_register_none, Ht, Hl.
Qed.

Lemma expands_does :
  (∀ ns out w, expands ns out w → does w (λ room, expand_nodes room ns) out) ∧
  (∀ n n' w, expands_in n n' w → does w (λ room, expand_child (expand_use room) n) n') ∧
  (∀ args args' w, expands_args args args' w → does w (λ room, map_args (expand_nodes room) args) args').
Proof.
  apply expands_ind3.
  - intros room b _. simpl. unfold expand_nodes. cbn [expand_from]. by rewrite spend_nothing.
  - intros name opts args starred span rest d margs rest' s e out v w Hn Hd (consumed & Hg & <-)%supplies_grabs Hs%replaces_substitute _ IHv Hv _ IHw room b Hb.
    subst s.
    pose proof (enough_join _ _ _ _ Hb) as [Hb1 Hb2]. rewrite spend_join.
    unfold expand_nodes. cbn [expand_from node_of fst]. rewrite try_register_none, Hd, Hg by done.
    destruct Hb1 as (Hu & Hh & Hs & Hr). cbn [work_use uses height entered] in Hu, Hh, Hs.
    assert (Hroom : room ≠ 0) by lia. destruct room as [|room]; [done|].
    rewrite expand_use_go; last (intros [?|[?|Hin]]; simpl in *; [lia|lia|]; eapply Hs; [by left|done]).
    cbn [fst snd]. rewrite (IHv room (enter name b)).
    + cbn [obind fst snd]. rewrite expand_from_skip. specialize (IHw (S room) (spend (uses (work_use name v)) b) Hb2).
      unfold expand_nodes in IHw. cbn beta in IHw.
      replace (leave_use (spend (uses v) (enter name b))) with (spend (uses (work_use name v)) b); [by rewrite IHw|].
      unfold leave_use, spend, enter. simpl. f_equal; lia.
    + unfold enough, enter. simpl. split_and!; [lia|lia| |lia]. intros x Hx. rewrite not_elem_of_cons. split; [by intros ->|].
      apply Hs. by right.
  - intros n n' rest out v w Hp _ IHv _ IHw room b [Hb1 Hb2]%enough_join. rewrite spend_join. unfold expand_nodes.
    rewrite plain_step by done. rewrite IHv by done. cbn [obind]. specialize (IHw room _ Hb2). unfold expand_nodes in IHw. by rewrite IHw.
  - intros n Hl room b _. rewrite spend_nothing. destruct n as [[] span]; done.
  - intros g g' span w _ IH room b Hb. cbn [expand_child]. specialize (IH room b Hb). unfold expand_nodes in IH. by rewrite IH.
  - intros mode c c' closed span w _ IH room b Hb. cbn [expand_child]. specialize (IH room b Hb). unfold expand_nodes in IH. by rewrite IH.
  - intros name opts opts' args args' starred span v w _ IHv _ IHw room b [Hb1 Hb2]%enough_join.
    rewrite spend_join, expand_child_command, IHv by done. cbn [obind]. by rewrite IHw.
  - intros name args args' body body' closed span v w _ IHv _ IHw room b [Hb1 Hb2]%enough_join.
    rewrite spend_join, expand_child_environment, IHv by done. cbn [obind]. by rewrite IHw.
  - intros room b _. cbn [map_args]. by rewrite spend_nothing.
  - intros c c' kind rest rest' v w _ IHv _ IHw room b [Hb1 Hb2]%enough_join. rewrite spend_join. cbn [map_args].
    rewrite IHv by done. cbn [obind]. by rewrite IHw.
Qed.
End meaning.

(** * Documents *)

(** A property of a node and of all it contains. *)
Definition hereditary (P : NodeRef → Prop) (n : NodeRef) : Prop := ∀ m, rtc (λ x y, y ∈ kids x) n m → P m.

Lemma hereditary_unfold P n : hereditary P n ↔ P n ∧ ∀ m, m ∈ kids n → hereditary P m.
Proof.
  split.
  - intros Hn. split; [by apply Hn|]. intros m Hm x Hx. apply Hn. by eapply rtc_l.
  - intros [Hn Hk] m Hm. inversion Hm as [|? x ? Hx Hxm]; subst; [done|]. by apply (Hk x).
Qed.

(** Definitions in sequence, each with the siblings it owns. *)
Inductive registers : list NodeRef → gmap string MacroDef → gmap string MacroDef → Prop :=
| registers_nil t : registers [] t t
| registers_cons name opts args starred span rest t t' rest' t'' :
    defines t name opts args rest t' rest' → registers rest' t' t'' →
    registers (mk (NCommand name opts args starred) span :: rest) t t''.

Lemma registers_nodes ns t t' room b : registers ns t t' → expand_nodes room ns (t, b) = Ok ([], (t', b)).
Proof.
  unfold expand_nodes. induction 1 as [t|name opts args starred span rest t t1 rest' t2 (consumed & Ht & <-)%defines_registers _ IH]; [done|].
  cbn [expand_from node_of fst snd]. by rewrite Ht, expand_from_skip, IH.
Qed.

Lemma plain_empty n : plain ∅ n ↔ ∀ name opts args starred, node_of n = NCommand name opts args starred → name ∉ definition_names.
Proof. unfold plain. destruct (node_of n); naive_solver. Qed.

Lemma expands_free table :
  (∀ ns out w, expands table ns out w → ∀ n, n ∈ out → hereditary (plain table) n) ∧
  (∀ n n' w, expands_in table n n' w → plain table n → hereditary (plain table) n') ∧
  (∀ args args' w, expands_args table args args' w → ∀ n, n ∈ args_nodes args' → hereditary (plain table) n).
Proof.
  apply expands_ind3.
  - by intros n ?%not_elem_of_nil.
  - intros name opts args starred span rest d margs rest' s e out v w _ _ _ _ _ He _ _ Hout n [?|?]%elem_of_app; auto.
  - intros n n' rest out v w Hp _ IHv _ IHw m [->|?]%elem_of_cons; auto.
  - intros [nd span] Hl Hp. apply hereditary_unfold. split; [done|]. unfold kids. by destruct nd; try intros ? ?%not_elem_of_nil.
  - intros g g' span w _ IH _. apply hereditary_unfold. by split.
  - intros mode c c' closed span w _ IH _. apply hereditary_unfold. by split.
  - intros name opts opts' args args' starred span v w _ IHv _ IHw Hp. apply hereditary_unfold. split; [done|].
    unfold kids. cbn [node_of]. intros m [?|?]%elem_of_app; auto.
  - intros name args args' body body' closed span v w _ IHv _ IHw _. apply hereditary_unfold. split; [done|].
    unfold kids. cbn [node_of]. intros m [?|?]%elem_of_app; auto.
  - by intros n ?%not_elem_of_nil.
  - intros c c' kind rest rest' v w _ IHv _ IHw n. unfold args_nodes in *. cbn [map concat arg_content].
    intros [?|?]%elem_of_app; auto.
Qed.

Lemma expands_plain table ns : (∀ n, n ∈ ns → hereditary (plain table) n → expands_in table n n no_work) →
  (∀ n, n ∈ ns → hereditary (plain table) n) → expands table ns ns no_work.
Proof.
  induction ns as [|n ns IH]; intros Hin Hp; [constructor|]. change no_work with (work_join no_work no_work) at 1.
  assert (Hn : hereditary (plain table) n) by (apply Hp; by left).
  constructor; [by apply hereditary_unfold in Hn as [? _]|apply Hin; [by left|done]|apply IH; set_solver].
Qed.

Lemma expands_in_plain table n : hereditary (plain table) n → expands_in table n n no_work.
Proof.
  induction n as [[nd span] IH] using node_kids_ind. intros [_ Hk]%hereditary_unfold.
  assert (Hl : ∀ ns, (∀ m, m ∈ ns → m ∈ kids (mk nd span)) → expands table ns ns no_work).
  { intros ns Hns. apply expands_plain; [intros m Hm _; apply IH; [by apply Hns|by apply Hk, Hns]|]. intros m Hm. by apply Hk, Hns. }
  assert (Ha : ∀ args, (∀ m, m ∈ args_nodes args → m ∈ kids (mk nd span)) → expands_args table args args no_work).
  { induction args as [|[c kind] args IHa]; intros Hargs; [constructor|]. change no_work with (work_join no_work no_work) at 1.
    unfold args_nodes in *. cbn [map concat arg_content] in Hargs. constructor; [apply Hl|apply IHa]; set_solver. }
  unfold kids in Hl, Ha. destruct nd; cbn [node_of] in Hl, Ha; try by constructor.
  - apply in_group. by apply Hl.
  - apply in_math. by apply Hl.
  - change no_work with (work_join no_work no_work) at 1. apply in_command; apply Ha; set_solver.
  - change no_work with (work_join no_work no_work) at 1. apply in_environment; [apply Ha|apply Hl]; set_solver.
Qed.

(** C20: expansion of any document returns: the depth of its recursion is bounded by
    the guards, never by the model.  A document in which no command defines a
    macro is left as it is. *)
Theorem expansion_total doc : ∃ doc', expand_macros doc = Ok doc' ∧
  ((∀ n, n ∈ preamble doc ++ default [] (doc_body doc) → hereditary (plain ∅) n) → doc' = doc).
Proof.
  assert (Hid : ∀ ns b, depth b = 0 → (∀ n, n ∈ ns → hereditary (plain ∅) n) → expand_nodes MAX_DEPTH ns (∅, b) = Ok (ns, (∅, b))).
  { intros ns b Hb Hns. rewrite <- (spend_nothing b) at 2. apply (proj1 (expands_does ∅) ns ns no_work).
    - apply expands_plain; [|done]. intros n _. apply expands_in_plain.
    - unfold enough, no_work. cbn [uses height entered]. split_and!; [lia|lia|by intros x ?%not_elem_of_nil|lia]. }
  unfold expand_macros. destruct (expand_nodes_total (preamble doc) (∅, mkBudget MAX_STEPS 0 [])) as (pre & st & E & Hst & _); [done|].
  rewrite E. cbn [obind]. destruct doc as [pre0 [b|] c e]; cbn [preamble doc_body is_complete errors default] in *.
  - destruct (expand_nodes_total b st Hst) as (b' & st' & E' & _). rewrite E'. cbn [obind]. eexists. split; [done|]. intros Hd.
    rewrite Hid in E by (done || set_solver). injection E as <- <-.
    rewrite Hid in E' by (done || set_solver). by injection E' as <- _.
  - eexists. split; [done|]. intros Hd. rewrite Hid in E by (done || set_solver). by injection E as <- _.
Qed.

Lemma expansion_spec pre body table out w c e :
  registers pre ∅ table → expands table body out w → (uses w ≤ MAX_STEPS)%N → height w ≤ MAX_DEPTH →
  expand_macros (mkDocument pre (Some body) c e) = Ok (mkDocument [] (Some out) c e) ∧
  ∀ n, n ∈ out → hereditary (plain table) n.
Proof.
  intros Hpre Hbody Hu Hh. split; [|by apply (proj1 (expands_free table) body out w)].
  unfold expand_macros. cbn [preamble doc_body is_complete errors]. rewrite (registers_nodes _ _ _ _ _ Hpre). cbn [obind].
  rewrite (proj1 (expands_does table) body out w Hbody); [done|]. unfold enough. cbn [steps depth active].
  split_and!; [done|done|by intros x _ ?%not_elem_of_nil|lia].
Qed.

(** C10: definitions first ([registers]), then a body that has a meaning
    ([expands]) with at most [MAX_STEPS] uses nested at most [MAX_DEPTH] deep: the
    result is that meaning, and no macro is used in it any more.  The meaning is
    given by relations of its own: which nodes a definition is made of and what it
    binds ([defines]), which siblings supply the arguments of a use ([supplies]),
    and the body with each [#k] replaced by the [k]-th argument ([replaces]). *)
Theorem expansion_exact pre body table out w c e :
  registers pre ∅ table → expands table body out w → (uses w ≤ MAX_STEPS)%N → height w ≤ MAX_DEPTH →
  expand_macros (mkDocument pre (Some body) c e) = Ok (mkDocument [] (Some out) c e) ∧
  ∀ n, n ∈ out → hereditary (plain table) n.
Proof. apply expansion_spec. Qed.

(** * Where expansion is not as documented *)

Section divergences.
Variables (kind : Kind) (span : Span).

(** [\newcommand{\name}[1]{body}] and [\name{a}]. *)
Definition new_command (name : string) (body : list NodeRef) : NodeRef :=
  mk (NCommand "newcommand" [argument [mk (NText "1") span] kind]
        [argument [mk (NCommand name [] [] false) span] kind; argument body kind] false) span.
Definition call (name : string) (a : list NodeRef) : list NodeRef :=
  [mk (NCommand name [] [] false) span; mk (NGroup a) span].

Lemma registers_new_command name body rest t t' :
  registers rest (<[name := mkMacro 1 body]> t) t' → registers (new_command name body :: rest) t t'.
Proof.
  intros H. eapply registers_cons; [|exact H]. apply defines_command; [by left| |].
  - exists [], [], [], false, span, []. split; [done|]. by intros n ?%not_elem_of_nil.
  - right. eexists _, [], [], span, []. split_and!; [done|lia|done|]. by intros n ?%not_elem_of_nil.
Qed.

Lemma expands_call table name body a s e v : name ∉ definition_names → table !! name = Some (mkMacro 1 body) →
  replaces [a] body s → expands table s e v → name ∉ entered v → expands table (call name a) e (work_join (work_use name v) no_work).
Proof.
  intros Hn Ht Hs He Hv. rewrite <- (app_nil_r e).
  eapply expands_use; [done|done|apply supplies_group, supplies_none|done|done|done|constructor].
Qed.

(** The body [#1], and a body that is a use on [#1#1] *)
Lemma replaces_one a : replaces [a] [mk (NParameter 1) span] (a ++ []).
Proof. by apply (replaces_mark [a] [] a []); [|constructor]. Qed.

Lemma replaces_twice a name : replaces [a] (call name [mk (NParameter 1) span; mk (NParameter 1) span]) (call name (a ++ a ++ [])).
Proof.
  apply replaces_node; [apply replaces_command; constructor|]. apply replaces_node; [|constructor]. apply replaces_group.
  apply (replaces_mark [a] [] a []); [done|]. apply replaces_one.
Qed.

Lemma expands_leaf table x : is_leaf x = true → expands table [x] [x] (work_join no_work no_work).
Proof.
  intros Hx. apply expands_node; [|by apply in_leaf|constructor]. destruct x as [[] ?]; done.
Qed.

(** A macro used in its own argument is taken for a cycle: the inner use is left
    literal, although the macro is not recursive, and outside the argument the
    same use is expanded. *)
Theorem own_argument_unexpanded name t c e : name ∉ definition_names →
  let x := mk (NText t) span in
  let defs := [new_command name [mk (NParameter 1) span]] in
  expand_macros (mkDocument defs (Some (call name [x])) c e) = Ok (mkDocument [] (Some [x]) c e) ∧
  expand_macros (mkDocument defs (Some (call name (call name [x]))) c e) =
    Ok (mkDocument [] (Some (leave_literal name [[x]])) c e).
Proof.
  intros Hn x defs. set (d := mkMacro 1 [mk (NParameter 1) span]).
  assert (Hdefs : registers defs ∅ {[name := d]}) by (apply registers_new_command; constructor).
  assert (Hd : ({[name := d]} : gmap string MacroDef) !! name = Some d) by apply lookup_singleton_eq.
  split.
  - eapply expansion_spec; [done|eapply expands_call; [done|done|apply replaces_one| |]| |].
    + apply (expands_leaf _ x). done.
    + by apply not_elem_of_nil.
    + by vm_compute.
    + by vm_compute; lia.
  - unfold expand_macros. cbn [preamble doc_body is_complete errors]. rewrite (registers_nodes _ _ _ _ _ Hdefs). cbn [obind].
    set (b := mkBudget MAX_STEPS 0 []). unfold expand_nodes. unfold call at 1. cbn [expand_from node_of fst snd].
    rewrite try_register_none, Hd by done. cbn [grab_args params d white_run is_whitespace_node node_of drop as_argument fst snd].
    rewrite (expand_use_go 255) by (unfold stopped, MAX_DEPTH; simpl; set_solver by lia).
    change (substitute (macro_body d) [call name [x]]) with (call name [x] ++ []). rewrite app_nil_r.
    unfold expand_nodes. unfold call at 1. cbn [expand_from node_of fst snd].
    rewrite try_register_none, Hd by done. cbn [grab_args params d white_run is_whitespace_node node_of drop as_argument fst snd].
    rewrite expand_use_stopped by (right; right; left). done.
Qed.
(** The arguments the parser attaches to a command are dropped when the command
    is a macro: only following siblings are taken. *)
Lemma attached_arguments_lost room name opts args starred sp opts' args' starred' sp' rest st d :
  name ∉ definition_names → st.1 !! name = Some d →
  expand_nodes room (mk (NCommand name opts args starred) sp :: rest) st =
  expand_nodes room (mk (NCommand name opts' args' starred') sp' :: rest) st.
Proof. intros Hn Hd. unfold expand_nodes. cbn [expand_from node_of]. by rewrite !try_register_none, Hd. Qed.

(** Macros that each double their argument for the next. *)
Fixpoint mname (i : nat) : string := match i with O => "m" | S i' => String "m" (mname i') end.
Definition doubler (n i : nat) : list NodeRef :=
  let p := mk (NParameter 1) span in if i <? n then call (mname (S i)) [p; p] else [p].
Definition doublers (n : nat) : list NodeRef := map (λ i, new_command (mname i) (doubler n i)) (seq 0 (S n)).
Definition doubling (n : nat) (x : NodeRef) : Document := mkDocument (doublers n) (Some (call (mname 0) [x])) true [].

Definition document_size (doc : Document) : nat :=
  sum_list_with node_size (preamble doc) + sum_list_with node_size (default [] (doc_body doc)).

Lemma mname_inj i j : mname i = mname j → i = j.
Proof. revert j. induction i as [|i IH]; intros [|j] E; simplify_eq/=; auto; [by destruct j|by destruct i]. Qed.

Lemma mname_no_definition i : mname i ∉ definition_names.
Proof. unfold definition_names. rewrite !not_elem_of_cons. destruct i; split_and!; try done; apply not_elem_of_nil. Qed.

Definition doubler_table (n : nat) (js : list nat) (t : gmap string MacroDef) : gmap string MacroDef :=
  foldl (λ t i, <[mname i := mkMacro 1 (doubler n i)]> t) t js.

Lemma registers_doublers n js t :
  registers (map (λ i, new_command (mname i) (doubler n i)) js) t (doubler_table n js t).
Proof. revert t. induction js as [|i js IH]; intros t; [constructor|]. apply registers_new_command, IH. Qed.

Lemma doubler_lookup n js t i : i ∈ js ∨ t !! mname i = Some (mkMacro 1 (doubler n i)) →
  doubler_table n js t !! mname i = Some (mkMacro 1 (doubler n i)).
Proof.
  revert t. induction js as [|j js IH]; intros t Hi; [by destruct Hi as [?%not_elem_of_nil|]|]. apply IH.
  destruct (decide (i = j)) as [->|Hij]; [right; by rewrite lookup_insert_eq|].
  rewrite lookup_insert_ne by (intros E%mname_inj; congruence). set_solver.
Qed.

Lemma expands_replicate table k x : is_leaf x = true → expands table (replicate k x) (replicate k x) no_work.
Proof.
  intros Hx. apply expands_plain; intros m [-> _]%elem_of_replicate; [intros _; by apply in_leaf|].
  apply hereditary_unfold. destruct x as [[] ?]; try done; (split; [done|intros ? ?%not_elem_of_nil]; done).
Qed.

(** The work of the macros from [n - k] to [n]. *)
Fixpoint doubling_work (n k : nat) : Work :=
  work_join (work_use (mname (n - k)) match k with O => no_work | S k' => doubling_work n k' end) no_work.

Lemma doubling_work_spec n k : k ≤ n → uses (doubling_work n k) = N.of_nat (S k) ∧ height (doubling_work n k) = S k ∧
  ∀ i, i < n - k → mname i ∉ entered (doubling_work n k).
Proof.
  induction k as [|k IH]; intros Hk.
  - split_and!; [done|done|]. intros i Hi. simpl. rewrite not_elem_of_cons. split; [|apply not_elem_of_nil]. intros E%mname_inj. lia.
  - destruct IH as (IHu & IHh & IHe); [lia|]. cbn [doubling_work work_join work_use uses height entered no_work]. rewrite IHu, IHh.
    split_and!; [lia|lia|]. intros i Hi. rewrite app_nil_r, not_elem_of_cons. split; [intros E%mname_inj; lia|apply IHe; lia].
Qed.

Lemma doubling_expands n k x : is_leaf x = true → k ≤ n → ∀ m,
  expands (doubler_table n (seq 0 (S n)) ∅) (call (mname (n - k)) (replicate m x)) (replicate (2 ^ k * m) x) (doubling_work n k).
Proof.
  intros Hx. induction k as [|k IH]; intros Hk m; cbn [doubling_work].
  - eapply expands_call; [apply mname_no_definition|apply doubler_lookup; left; apply elem_of_seq; lia| | |by apply not_elem_of_nil].
    { unfold doubler. rewrite (proj2 (Nat.ltb_ge _ _)) by lia. apply replaces_one. }
    rewrite app_nil_r. replace (2 ^ 0 * m) with m by (simpl; lia). by apply expands_replicate.
  - eapply expands_call; [apply mname_no_definition|apply doubler_lookup; left; apply elem_of_seq; lia| | |].
    + unfold doubler. rewrite (proj2 (Nat.ltb_lt _ _)) by lia. apply replaces_twice.
    + replace (S (n - S k)) with (n - k) by lia. rewrite app_nil_r, <- replicate_add.
      replace (2 ^ S k * m) with (2 ^ k * (m + m)) by (simpl; lia). apply IH. lia.
    + destruct (doubling_work_spec n k) as (_ & _ & He); [lia|]. apply He. lia.
Qed.

Lemma doublers_size n : sum_list_with node_size (doublers n) = 7 * n + 4.
Proof.
  assert (H : ∀ k i, i + k = n → sum_list_with node_size (map (λ i, new_command (mname i) (doubler n i)) (seq i (S k))) = 7 * k + 4).
  { induction k as [|k IH]; intros i Hi; cbn [seq map sum_list_with].
    - unfold doubler. rewrite (proj2 (Nat.ltb_ge _ _)) by lia. done.
    - unfold doubler at 1. rewrite (proj2 (Nat.ltb_lt _ _)) by lia. cbn [seq map sum_list_with] in IH. rewrite IH by lia. simpl. lia. }
  by apply H.
Qed.

(** C38: the guards bound the number of uses and their nesting, not the size of what
    they build: a document of size [7n + 7] expands, within the guards and with
    [n + 1] uses, to [2^n] nodes. *)
Theorem expansion_exponential n t : n < MAX_DEPTH → ∃ doc doc',
  document_size doc = 7 * n + 7 ∧ expand_macros doc = Ok doc' ∧ doc_body doc' = Some (replicate (2 ^ n) (mk (NText t) span)).
Proof.
  intros Hn. set (x := mk (NText t) span). exists (doubling n x). eexists. split_and!.
  - unfold document_size, doubling. cbn [preamble doc_body default]. rewrite doublers_size. simpl. lia.
  - eapply expansion_spec; [apply registers_doublers| | |].
    + pose proof (doubling_expands n n x eq_refl (le_n n) 1) as H. rewrite Nat.sub_diag, Nat.mul_1_r in H. exact H.
    + destruct (doubling_work_spec n n) as (-> & _); [lia|]. unfold MAX_STEPS, MAX_DEPTH in *. lia.
    + destruct (doubling_work_spec n n) as (_ & -> & _); [lia|]. unfold MAX_DEPTH in *. lia.
  - done.
Qed.
End divergences.
End syntax.

(** * Instances *)

Section instances.
#[local] Notation ND x := (mk (Mode := unit) (Kind := unit) (Verbatim := unit) (Error := unit) x tt).

(** [\newcommand{\sq}[1]{#1²}] and [\sq{x}]. *)
Example expansion_exact_witness :
  expand_macros tt (mkDocument [new_command tt tt "sq" [ND (NParameter 1); ND (NText "²")]]
                      (Some (call tt "sq" [ND (NText "x")])) true []) =
  Ok (mkDocument [] (Some [ND (NText "x"); ND (NText "²")]) true []).
Proof.
  refine (proj1 (expansion_exact tt _ _ {["sq" := mkMacro 1 [ND (NParameter 1); ND (NText "²")]]} _
    (work_join (work_use "sq" (work_join no_work (work_join no_work no_work))) no_work) true [] _ _ _ _)).
  - apply registers_new_command. constructor.
  - apply (expands_call tt {["sq" := mkMacro 1 [ND (NParameter 1); ND (NText "²")]]} "sq" [ND (NParameter 1); ND (NText "²")]
      [ND (NText "x")] [ND (NText "x"); ND (NText "²")] [ND (NText "x"); ND (NText "²")]).
    + by apply (bool_decide_unpack _).
    + done.
    + apply (replaces_mark [[ND (NText "x")]] [] [ND (NText "x")] []); [done|].
      apply replaces_node; [by apply replaces_leaf|constructor].
    + apply expands_node; [done|by apply in_leaf|by apply expands_leaf].
    + by apply (bool_decide_unpack _).
  - by vm_compute.
  - by vm_compute; lia.
Defined.

Example own_argument_unexpanded_witness :
  expand_macros tt (mkDocument [new_command tt tt "id" [ND (NParameter 1)]] (Some (call tt "id" (call tt "id" [ND (NText "x")]))) true []) =
  Ok (mkDocument [] (Some (leave_literal tt "id" [[ND (NText "x")]])) true []).
Proof. apply (own_argument_unexpanded tt tt tt "id" "x" true []). by apply (bool_decide_unpack _). Defined.

Example expansion_exponential_witness : ∃ doc doc' : @Document unit unit unit unit unit,
  document_size doc = 217 ∧ expand_macros tt doc = Ok doc' ∧ doc_body doc' = Some (replicate (2 ^ 30) (ND (NText "x"))).
Proof. apply (expansion_exponential tt tt tt 30 "x"). apply (bool_decide_unpack _). by vm_compute. Defined.
End instances.
