(* ===== verification/Rlm.v ===== *)
(** The data of the recursive decomposition of long queries
    ([src/src/a2a/rlm.rs]): environments, frames, snippets, strategies, steps,
    prompts and grades.  A string is its bytes.  [RlmRun] runs them. *)

From Stdlib Require Import Ascii ZArith SpecFloat.
From stdpp Require Import base numbers strings pretty list.
From S2P Require Import Prelude Text Numbers DataTable.

#[local] Open Scope string_scope.
#[local] Open Scope list_scope.
#[local] Open Scope nat_scope.

(** * Third-party types

    Task identifiers ([uuid]) and page addresses ([context_tape]). *)
Class Crates := {
  Uuid : Type;
  uuid_nil : Uuid;
  uuid_str : Uuid → string;
  PageAddress : Type;
  Scratch : Uuid → string → PageAddress;
  as_scratch : PageAddress → option (Uuid * string);
  to_path : PageAddress → string;
}.

Definition nl : string := String newline EmptyString.
Definition quoted (s : string) : string := String (ascii_of_nat 34) (s +:+ String (ascii_of_nat 34) EmptyString).

Fixpoint join_with (sep : string) (ss : list string) : string :=
  match ss with [] => EmptyString | [s] => s | s :: ss => s +:+ sep +:+ join_with sep ss end.

(** [str::rsplit_once] for a colon *)
Fixpoint rsplit_colon (s : string) : option (string * string) :=
  match s with
  | EmptyString => None
  | String c s' =>
      match rsplit_colon s' with
      | Some (p, q) => Some (String c p, q)
      | None => if bool_decide (c = ":"%char) then Some (EmptyString, s') else None
      end
  end.

Section rlm.
Context `{Crates}.

(** * Environments *)

Inductive RlmEnvironment :=
| EnvFile (path : string)
| EnvFileRegion (path : string) (start_chunk end_chunk : Z)
| EnvCorpus (project : option string)
| EnvStore (root_task_id : Uuid).

(** [Value::as_i64] *)
Definition as_i64 (v : Value) : option Z :=
  match v with VNumber (PosInt z) | VNumber (NegInt z) => if (z <=? i64_max)%Z then Some z else None | _ => None end.

Definition env_path (v : Value) (kind : string) : outcome string string :=
  ok_or (vget v "path" ≫= as_string) ("environment.path required for kind=" +:+ kind).

Definition env_from_json (v : Value) : outcome string RlmEnvironment :=
  let refused :=
    Err ("environment.kind must be " +:+ quoted "file" +:+ ", " +:+ quoted "file_region" +:+ ", " +:+
         quoted "corpus" +:+ ", or " +:+ quoted "store") in
  match vget v "kind" ≫= as_string with
  | Some kind =>
      if bool_decide (kind = "file") then let* p := env_path v "file" in Ok (EnvFile p)
      else if bool_decide (kind = "corpus") then Ok (EnvCorpus (vget v "project" ≫= as_string))
      else if bool_decide (kind = "file_region") then
        let* p := env_path v "file_region" in
        Ok (EnvFileRegion p (i32_wrap (default 0%Z (vget v "start_chunk" ≫= as_i64)))
              (i32_wrap (default i32_max (vget v "end_chunk" ≫= as_i64))))
      else if bool_decide (kind = "store") then Ok (EnvStore uuid_nil)
      else refused
  | None => refused
  end.

Definition env_project (env : RlmEnvironment) : option string := match env with EnvCorpus p => p | _ => None end.

Definition env_kind (env : RlmEnvironment) : string :=
  match env with EnvFile _ | EnvFileRegion _ _ _ => "file" | EnvCorpus _ => "corpus" | EnvStore _ => "store" end.

(** * Frames *)

Definition MAX_RLM_DEPTH : nat := 4.
Definition MAX_RLM_BUDGET : nat := 256.
Definition RLM_STITCH_WINDOW : nat := 4.

Record RlmFrame := mkFrame {
  v : Z;
  f_depth : nat;
  depth_remaining : nat;
  budget_remaining : nat;
  environment : Value;
  f_strategy : option string;
  query : string;
  sub_agent_url : string;
  reduce_agent_url : option string;
  max_chunks : Z;
  concurrency : Z;
  verify : bool;
  url_path : list string;
  root_task_id : Uuid;
}.

(** [clamp] for unsigned integers *)
Definition nclamp (lo hi n : nat) : nat := if n <? lo then lo else if hi <? n then hi else n.

Definition new_root (own_url : string) (environment : Value) (query sub_url : string) (reduce_url : option string)
    (max_chunks concurrency : Z) (strategy : option string) (verify : bool) (max_depth budget : nat) (root : Uuid) : RlmFrame :=
  mkFrame 1 1 (nclamp 1 MAX_RLM_DEPTH max_depth - 1) (nclamp 1 MAX_RLM_BUDGET budget) environment strategy query
    sub_url reduce_url max_chunks concurrency verify [own_url] root.

Definition entered (f : RlmFrame) (own_url : string) : RlmFrame :=
  mkFrame (v f) (f_depth f) (depth_remaining f `min` (MAX_RLM_DEPTH - f_depth f)) (budget_remaining f `min` MAX_RLM_BUDGET)
    (environment f) (f_strategy f) (query f) (sub_agent_url f) (reduce_agent_url f) (max_chunks f) (concurrency f)
    (verify f) (url_path f ++ [own_url]) (root_task_id f).

Definition env_from_frame (v : Value) (f : RlmFrame) : outcome string RlmEnvironment :=
  let* e := env_from_json v in
  match e with EnvStore _ => Ok (EnvStore (root_task_id f)) | _ => Ok e end.

Record Snippet := mkSnippet {
  s_text : string;
  provenance : string;
  start_chunk : option Z;
  end_chunk : option Z;
  s_addr : option PageAddress;
}.

(** [u32] and [usize] are wide enough here: a crafted depth never exceeds the cap
    where one is added to it. *)
Definition child_frame (parent : RlmFrame) (environment : Value) (budget : nat) : RlmFrame :=
  mkFrame 1 (S (f_depth parent)) (depth_remaining parent - 1) budget environment None (query parent) (sub_agent_url parent)
    (reduce_agent_url parent) (max_chunks parent) (concurrency parent) (verify parent) (url_path parent) (root_task_id parent).

Definition json_i32 (z : Z) : Value := VNumber (if (0 <=? z)%Z then PosInt z else NegInt z).

Definition snippet_environment (snip : Snippet) : Value :=
  match s_addr snip with
  | Some addr => VObject [("kind", VString "store"); ("page", VString (to_path addr))]
  | None =>
      let path := match rsplit_colon (provenance snip) with Some (p, _) => p | None => provenance snip end in
      match start_chunk snip, end_chunk snip with
      | Some lo, Some hi =>
          VObject [("kind", VString "file_region"); ("path", VString path); ("start_chunk", json_i32 lo); ("end_chunk", json_i32 hi)]
      | _, _ => VObject [("kind", VString "file"); ("path", VString path)]
      end
  end.

(** * Strategies *)

Inductive DecomposeStrategy := Chunk | SemanticRetrieve (k : Z) | Grep (pattern : string).

Definition strategy_tag (s : DecomposeStrategy) : string :=
  match s with Chunk => "chunk" | SemanticRetrieve _ => "semantic" | Grep _ => "grep" end.

Definition choose_strategy (env : RlmEnvironment) (hint : option string) (max_chunks : Z) (query : string) : DecomposeStrategy :=
  match hint with
  | Some "grep" => Grep query
  | Some "chunk" => Chunk
  | Some "semantic" => SemanticRetrieve max_chunks
  | _ => match env with EnvCorpus _ => SemanticRetrieve max_chunks | _ => Chunk end
  end.

(** * Steps and outcomes *)

Inductive StepKind := Peek | Filter | ChunkStep | Subcall | Verify | Stitch | GetStep | PutStep | PageIn | PageOut.

Definition StepKind_as_str (k : StepKind) : string :=
  match k with
  | Peek => "peek" | Filter => "filter" | ChunkStep => "chunk" | Subcall => "subcall" | Verify => "verify"
  | Stitch => "stitch" | GetStep => "get" | PutStep => "put" | PageIn => "page_in" | PageOut => "page_out"
  end.

(** Latencies, read off the clock, are left out. *)
Record RlmStep := mkStep { ord : Z; step_kind : StepKind; step_depth : nat; step_tokens : Z; success : bool }.

Record RlmOutcome := mkOutcome {
  final_answer : string;
  steps : list RlmStep;
  subcalls : nat;
  chunks : nat;
  strategy_name : string;
  verified : bool;
  self_grade : option f32;
  graded : bool;
  choice_reason : string;
  depth_reached : nat;
}.

Definition est_tokens (s : string) : Z := Z.of_nat (String.length s) / 4.

(** [ord] counts the steps pushed. *)
Definition push_step (st : list RlmStep) (k : StepKind) (depth : nat) (tokens : Z) (ok : bool) : list RlmStep :=
  st ++ [mkStep (i32_wrap (Z.of_nat (length st))) k depth tokens ok].

Definition max_depth_of (st : list RlmStep) (depth : nat) : nat :=
  match st with [] => depth | _ => foldr (λ s d, step_depth s `max` d) 0 st end.

(** * Prompts *)

Definition not_found : string := "(not found here)".
Definition no_answer : string := "(no snippet produced a relevant answer)".

Definition leaf_prompt (query : string) (snip : Snippet) : string :=
  "You are answering one part of a larger query." +:+ nl +:+ nl +:+ "Query:" +:+ nl +:+ query +:+ nl +:+ nl +:+
  "Context snippet (" +:+ provenance snip +:+ "):" +:+ nl +:+ s_text snip +:+ nl +:+ nl +:+
  "Answer ONLY from this snippet; reply exactly " +:+ quoted not_found +:+ " if it is irrelevant.".

Definition combine_prompt (query input : string) : string :=
  "Combine these partial answers into one coherent, complete final answer to the query. Resolve overlaps and cite the snippet provenance where useful." +:+
  nl +:+ nl +:+ "Query:" +:+ nl +:+ query +:+ nl +:+ nl +:+ "Partial answers:" +:+ nl +:+ input +:+ nl +:+ nl +:+ "Final answer:".

Definition fold_prompt (query : string) (running : option string) (window_block : string) : string :=
  match running with
  | Some prior =>
      "Fold the additional partial answers into the running summary, producing one coherent, complete answer to the query so far. Preserve every distinct fact; resolve overlaps." +:+
      nl +:+ nl +:+ "Query:" +:+ nl +:+ query +:+ nl +:+ nl +:+ "Running summary:" +:+ nl +:+ prior +:+ nl +:+ nl +:+
      "Additional partial answers:" +:+ nl +:+ window_block +:+ nl +:+ nl +:+ "Updated summary:"
  | None => combine_prompt query window_block
  end.

Definition verify_prompt (query answer : string) : string :=
  "Grade then correct this answer to the query. The FIRST line MUST be exactly `GRADE: <x>` where x is a number in [0,1] (1 = fully correct & complete, 0 = wrong/empty/unsupported). Then, on the following lines, give the corrected final answer only." +:+
  nl +:+ nl +:+ "Query:" +:+ nl +:+ query +:+ nl +:+ nl +:+ "Candidate answer:" +:+ nl +:+ answer +:+ nl +:+ nl +:+ "GRADE:".

(** * Grades *)

Definition f32_mul (x y : f32) : f32 := SFmul 24 128 x y.
Definition f32_div (x y : f32) : f32 := SFdiv 24 128 x y.
Definition f32_of_nat (n : nat) : f32 := binary_normalize 24 128 (Z.of_nat n) 0 false.
Definition f32_zero : f32 := S754_zero false.
Definition f32_one : f32 := SFone 24 128.
Definition f32_half : f32 := f32_div f32_one (f32_of_nat 2).

(** [f32::clamp] *)
Definition f32_clamp (lo hi x : f32) : f32 := if SFltb x lo then lo else if SFltb hi x then hi else x.

(** 0.6 *)
Definition GRADE_PASS : f32 := S754_finite false 10066330 (-24).

Variable parse_f32 : string → option f32.

Definition parse_grade (reply : string) : option (f32 * string) :=
  match lines reply with
  | [] => None
  | first :: rest =>
      let t := trim first in
      let after := if starts_with t "GRADE:" || starts_with t "Grade:" then Some (str_drop 6 t) else None in
      a ← after;
      w ← head (split_whitespace a);
      grade ← parse_f32 w;
      Some (f32_clamp f32_zero f32_one grade, trim (join_with nl rest))
  end.
End rlm.
