(* ===== verification/RlmRun.v ===== *)
(** Runs of the recursive decomposition ([run_rlm] of [src/src/a2a/rlm.rs] and
    its helpers, [try_dispatch_rlm] and [invoke_skill] of [dispatcher.rs],
    [tool_a2a_pattern_recursive.rs]).  A run reads and changes a world it is
    given operations for, and logs each call it issues to an agent; the calls
    of a fan-out are issued in the order of their snippets.  Theorems: the
    recursion is bounded whatever frame comes in, the budget bounds the
    recursive calls but not the calls to language models, the frames sent at
    the last level are lost, and the fold of a stitch. *)

From Stdlib Require Import Ascii ZArith SpecFloat.
From stdpp Require Import base numbers strings pretty list.
From S2P Require Import Prelude Text Numbers DataTable Rlm.

#[local] Open Scope string_scope.
#[local] Open Scope list_scope.
#[local] Open Scope nat_scope.

(** Rows of the chunk queries. *)
Record ChunkRow := mkChunkRow { row_index : Z; row_start : Z; row_end : Z; row_content : string }.
Record SearchRow := mkSearchRow { hit_path : string; hit_index : Z; hit_start : Z; hit_end : Z; hit_content : string }.

(** What a run has changed: the world outside, and the calls issued. *)
Inductive Call `{Crates} :=
| ToModel (url text : string) (parent : Uuid)
| ToPeer (url : string) (frame : RlmFrame) (parent : Uuid).

Record Run `{Crates} (W : Type) := mkRun { world : W; calls : list Call }.
Arguments mkRun {_ W}.
Arguments world {_ W}.
Arguments calls {_ W}.

(** * The world

    The database, the language models, the tape store of a tree and the HTTP
    transport.  [accept] creates the task of a request, or refuses it;
    [deliver] says whether the answer of a request comes back in time.  A
    [result] is what such an operation returns: an error, or a value. *)
Definition result (A : Type) : Type := string + A.

Definition of_result {A} (x : result A) : outcome string A := match x with inl e => Err e | inr a => Ok a end.

(** [map_err] *)
Definition described {A} (what : string) (x : result A) : result A :=
  match x with inl e => inl (what +:+ ": " +:+ e) | inr a => inr a end.

Class Services `{Crates} (W : Type) := {
  get_chunks_in_index_range : string → Z → Z → W → result (list ChunkRow);
  grep_search_chunks : string → option string → Z → W → result (list SearchRow);
  semantic_search : string → Z → option string → W → result (list SearchRow);
  file_chunk_summary : string → W → result (Z * option Z * option Z);
  choose_strategy_msm : RlmEnvironment → string → Z → Uuid → W → DecomposeStrategy * string;
  resolve_agent_url : string → W → result string;
  send_task : string → string → Uuid → W → result (list string) * W;
  store_size : Uuid → W → Z * Z;
  resolve_path_prefix : Uuid → string → W → list PageAddress;
  store_get : Uuid → PageAddress → W → option string;
  store_put : Uuid → PageAddress → string → W → W;
  page_tokens : string → Z;
  drop_tree : Uuid → W → W;
  accept : W → result Uuid * W;
  deliver : W → bool * W;
  mark_completed : Uuid → W → result () * W;
  persist_trajectory : Uuid → option Uuid → Value → string → RlmOutcome → W → W;
  default_max_depth : nat;
  default_max_budget : nat;
  mcp_host : string;
  mcp_port : Z;
  parse_f32 : string → option f32;
  json_result : RlmOutcome → string;
}.

Section run.
Context `{Crates} {W : Type} `{!Services W}.

(** * The monad of runs *)

Definition M (A : Type) : Type := Run W → outcome string A * Run W.

Definition mret {A} (a : A) : M A := λ r, (Ok a, r).
Definition mlift {A} (o : outcome string A) : M A := λ r, (o, r).
Definition mbind {A B} (m : M A) (k : A → M B) : M B := λ r,
  match m r with
  | (Ok a, r') => k a r'
  | (Err e, r') => (Err e, r')
  | (Panic, r') => (Panic, r')
  | (OutOfFuel, r') => (OutOfFuel, r')
  end.
Notation "'let!' x := m 'in' k" := (mbind m (λ x, k)) (at level 10, x pattern, m at level 200, k at level 200).

Definition asks {A} (f : W → A) : M A := λ r, (Ok (f (world r)), r).
Definition reads {A} (f : W → result A) : M A := λ r, (of_result (f (world r)), r).
Definition attempts {A} (f : W → result A * W) : M A := λ r,
  let '(x, w) := f (world r) in (of_result x, mkRun w (calls r)).
Definition modifies (f : W → W) : M () := λ r, (Ok (), mkRun (f (world r)) (calls r)).
Definition logs (c : Call) : M () := λ r, (Ok (), mkRun (world r) (calls r ++ [c])).

(** [Result::ok] *)
Definition try {A} (m : M A) : M (option A) := λ r,
  match m r with
  | (Ok a, r') => (Ok (Some a), r')
  | (Err _, r') => (Ok None, r')
  | (Panic, r') => (Panic, r')
  | (OutOfFuel, r') => (OutOfFuel, r')
  end.

Fixpoint mmap {A B} (f : A → M B) (l : list A) : M (list B) :=
  match l with
  | [] => mret []
  | a :: l => let! b := f a in let! bs := mmap f l in mret (b :: bs)
  end.

(** * Agents *)

Definition own_a2a_url : string :=
  let host := if bool_decide (mcp_host = "0.0.0.0" ∨ mcp_host = EmptyString) then "127.0.0.1" else mcp_host in
  "http://" +:+ host +:+ ":" +:+ pretty mcp_port +:+ "/a2a/jsonrpc".

(** The text parts of a task's artifacts *)
Definition task_to_text (texts : list string) : string := foldr (λ t out, t +:+ nl +:+ out) EmptyString texts.

Definition subcall (url text : string) (parent : Uuid) : M string :=
  let! _ := logs (ToModel url text parent) in
  let! texts := attempts (λ w, let '(o, w') := send_task url text parent w in (described "RLM sub-call failed" o, w')) in
  mret (task_to_text texts).

(** * Decomposition *)

Definition span (path : string) (lo hi : Z) : string := path +:+ ":" +:+ pretty lo +:+ "-" +:+ pretty hi.

Definition chunk_snippet (path : string) (r : ChunkRow) : Snippet :=
  mkSnippet (row_content r) (span path (row_start r) (row_end r)) (Some (row_index r)) (Some (row_index r)) None.

Definition grep_snippet (r : SearchRow) : Snippet :=
  mkSnippet (hit_content r) (span (hit_path r) (hit_start r) (hit_end r)) (Some (hit_index r)) (Some (hit_index r)) None.

Definition semantic_snippet (r : SearchRow) : Snippet :=
  mkSnippet (hit_content r) (span (hit_path r) (hit_start r) (hit_end r)) None None None.

Definition semantic_snippets (env : RlmEnvironment) (query : string) (k : Z) : M (list Snippet) :=
  let! rows := reads (λ w, described "semantic decompose" (semantic_search query k (env_project env) w)) in
  mret (semantic_snippet <$> rows).

Definition ACCUM_PREFIX : string := "accum/".

Definition accum_slot (parent : Uuid) (sub_key : string) : string :=
  ACCUM_PREFIX +:+ uuid_str parent +:+ "/" +:+ sub_key.

Definition is_accum_slot (addr : PageAddress) : bool :=
  match as_scratch addr with Some (_, slot) => starts_with slot ACCUM_PREFIX | None => false end.

Fixpoint store_pages (root : Uuid) (max : nat) (w : W) (addrs : list PageAddress) : list Snippet :=
  match max, addrs with
  | O, _ | _, [] => []
  | S max', addr :: addrs =>
      if is_accum_slot addr then store_pages root max w addrs
      else match store_get root addr w with
           | Some text => mkSnippet text (to_path addr) None None (Some addr) :: store_pages root max' w addrs
           | None => store_pages root max w addrs
           end
  end.

Definition store_snippets (root : Uuid) (max : nat) (w : W) : list Snippet :=
  store_pages root max w (resolve_path_prefix root ("scratch/" +:+ uuid_str root +:+ "/") w).

Definition decompose (env : RlmEnvironment) (query : string) (strategy : DecomposeStrategy) (max : Z) : M (list Snippet) :=
  let max := clamp 1 64 max in
  let chunked path lo hi :=
    let! rows := reads (λ w, described "chunk decompose" (get_chunks_in_index_range path lo hi w)) in
    mret (chunk_snippet path <$> take (Z.to_nat max) rows) in
  match env with
  | EnvStore root => asks (store_snippets root (Z.to_nat max))
  | _ =>
      match strategy with
      | Chunk =>
          match env with
          | EnvFile path => chunked path 0%Z i32_max
          | EnvFileRegion path lo hi => chunked path lo hi
          | _ => semantic_snippets env query max
          end
      | SemanticRetrieve k => semantic_snippets env query (Z.min k max)
      | Grep pattern =>
          let! rows := reads (λ w, described "grep decompose" (grep_search_chunks pattern (env_project env) max w)) in
          mret (grep_snippet <$> take (Z.to_nat max) rows)
      end
  end.

Definition peek (env : RlmEnvironment) (w : W) : string :=
  match env with
  | EnvFile path =>
      match file_chunk_summary path w with
      | inr (n, first, last) =>
          "file " +:+ path +:+ ": " +:+ pretty n +:+ " chunks, lines " +:+ pretty (default 0%Z first) +:+ ".." +:+
          pretty (default 0%Z last)
      | _ => "file " +:+ path +:+ ": (no chunk summary)"
      end
  | EnvFileRegion path lo hi => "file_region " +:+ path +:+ ": chunks " +:+ pretty lo +:+ ".." +:+ pretty hi
  | EnvCorpus project => "corpus project=" +:+ default "*" project
  | EnvStore root =>
      let '(pages, size) := store_size root w in
      "store " +:+ uuid_str root +:+ ": " +:+ pretty pages +:+ " pages, " +:+ pretty size +:+ " resident bytes"
  end.

(** * Stitching *)

Definition store_put_step (root parent : Uuid) (key text : string) (depth : nat) (st : list RlmStep) :
    M (PageAddress * list RlmStep) :=
  let addr := Scratch root (accum_slot parent key) in
  let! _ := modifies (store_put root addr text) in
  mret (addr, push_step st PutStep depth (page_tokens text) true).

Definition store_get_step (root : Uuid) (addr : PageAddress) (depth : nat) (st : list RlmStep) :
    M (option string * list RlmStep) :=
  let! text := asks (store_get root addr) in
  mret (text, push_step st GetStep depth (from_option est_tokens 0%Z text) (bool_decide (is_Some text))).

Fixpoint put_partials (root parent : Uuid) (depth i : nat) (partials : list string) (st : list RlmStep) :
    M (list PageAddress * list RlmStep) :=
  match partials with
  | [] => mret ([], st)
  | p :: partials =>
      let! (addr, st) := store_put_step root parent (pretty i) p depth st in
      let! (addrs, st) := put_partials root parent depth (S i) partials st in
      mret (addr :: addrs, st)
  end.

Fixpoint read_window (root : Uuid) (depth : nat) (addrs : list PageAddress) (st : list RlmStep) :
    M (list string * list RlmStep) :=
  match addrs with
  | [] => mret ([], st)
  | addr :: addrs =>
      let! (text, st) := store_get_step root addr depth st in
      let! (texts, st) := read_window root depth addrs st in
      mret (match text with Some t => ("[" +:+ to_path addr +:+ "]" +:+ nl +:+ t) :: texts | None => texts end, st)
  end.

(** [slice::chunks] *)
Fixpoint windows_of {A} (fuel n : nat) (l : list A) : list (list A) :=
  match fuel, l with
  | O, _ | _, [] => []
  | S fuel, _ => take n l :: windows_of fuel n (drop n l)
  end.

Definition stitch_windows {A} (l : list A) : list (list A) := windows_of (length l) RLM_STITCH_WINDOW l.

Fixpoint fold_windows (reduce : string → M string) (root parent : Uuid) (query : string) (depth : nat)
    (running : option string) (windows : list (list PageAddress)) (st : list RlmStep) : M (option string * list RlmStep) :=
  match windows with
  | [] => mret (running, st)
  | window :: windows =>
      let! (texts, st) := read_window root depth window st in
      let! folded := reduce (fold_prompt query running (join_with (nl +:+ nl) texts)) in
      let st := push_step st Stitch depth (est_tokens folded) true in
      let! (_, st) := store_put_step root parent "summary" folded depth st in
      fold_windows reduce root parent query depth (Some folded) windows st
  end.

Definition accumulate_in_store_stitch (reduce : string → M string) (root parent : Uuid) (partials : list string)
    (query : string) (depth : nat) (st : list RlmStep) : M (string * list RlmStep) :=
  let! (addrs, st) := put_partials root parent depth 0 partials st in
  match addrs with
  | [] =>
      let! answer := reduce (fold_prompt query None no_answer) in
      mret (answer, push_step st Stitch depth (est_tokens answer) true)
  | _ =>
      let! (running, st) := fold_windows reduce root parent query depth None (stitch_windows addrs) st in
      mret (default no_answer running, st)
  end.

(** * A run *)

Definition useful (answer : string) : bool :=
  let trimmed := trim answer in bool_decide (trimmed ≠ EmptyString) && negb (str_contains trimmed not_found).

Fixpoint collect (results : list (string * option string * nat)) (st : list RlmStep) : list string * list RlmStep :=
  match results with
  | [] => ([], st)
  | (prov, answer, d) :: results =>
      match answer with
      | Some a =>
          let '(partials, st) := collect results (push_step st Subcall d (est_tokens a) (useful a)) in
          (if useful a then ("[" +:+ prov +:+ "]" +:+ nl +:+ trim a) :: partials else partials, st)
      | None => collect results (push_step st Subcall d 0 false)
      end
  end.

Definition can_recurse (frame : RlmFrame) (n : nat) : bool :=
  (0 <? depth_remaining frame) && (n * 2 <? budget_remaining frame).

Definition per_child (frame : RlmFrame) (n : nat) : nat :=
  if can_recurse frame n then (budget_remaining frame - n) / Nat.max n 1 else 0.

(** [Vec::with_capacity(max_chunks + 4)]: a step takes 32 bytes, and a vector at
    most [isize::MAX]. *)
Definition reserve_steps (frame : RlmFrame) : M () :=
  mlift (if (i64_max <? (max_chunks frame + 4) * 32)%Z then Panic else Ok ()).

(** Half of the share of the useful answers *)
Definition weak_grade (useful subcalls : nat) : f32 :=
  f32_min (f32_div (f32_mul f32_half (f32_of_nat useful)) (f32_of_nat (Nat.max subcalls 1))) f32_half.

Definition drop_tree_if_root (frame : RlmFrame) : M () :=
  if bool_decide (f_depth frame = 1) then modifies (drop_tree (root_task_id frame)) else mret ().

Definition reduce_url (frame : RlmFrame) : string := default (sub_agent_url frame) (reduce_agent_url frame).

(** The answer, the steps, whether it passed, and its grade *)
Definition verify_step (frame : RlmFrame) (parent : Uuid) (answer : string) (st : list RlmStep) :
    M (string * list RlmStep * bool * option f32) :=
  if verify frame then
    let! reply := try (subcall (reduce_url frame) (verify_prompt (query frame) answer) parent) in
    mret (match reply with
          | Some reply =>
              match parse_grade parse_f32 reply with
              | Some (grade, body) =>
                  let verified := SFleb GRADE_PASS grade in
                  (if bool_decide (trim body = EmptyString) then answer else body,
                   push_step st Verify (f_depth frame) (est_tokens reply) verified, verified, Some grade)
              | None => (answer, st, false, None)
              end
          | None => (answer, st, false, None)
          end)
  else mret (answer, st, false, None).

Definition stitch (env : RlmEnvironment) (frame : RlmFrame) (parent : Uuid) (partials : list string) (st : list RlmStep) :
    M (string * list RlmStep) :=
  let reduce prompt := subcall (reduce_url frame) prompt parent in
  match env with
  | EnvStore root => accumulate_in_store_stitch reduce root parent partials (query frame) (f_depth frame) st
  | _ =>
      let input := match partials with [] => no_answer | _ => join_with (nl +:+ nl) partials end in
      let! answer := reduce (combine_prompt (query frame) input) in
      mret (answer, push_step st Stitch (f_depth frame) (est_tokens answer) true)
  end.

(** * Parameters of the tool *)

Record A2aPatternRecursiveParams := mkParams {
  p_query : string;
  p_environment : Value;
  sub_agent : string;
  reduce_agent : option string;
  p_max_chunks : option Z;
  p_verify : option bool;
  p_concurrency : option Z;
  p_strategy : option string;
  rlm_depth : option nat;
  rlm_budget : option nat;
}.

Definition optional {A} (v : Value) (k : string) (f : Value → option A) : outcome string (option A) :=
  match vget v k with
  | None | Some VNull => Ok None
  | Some x => let* a := ok_or (f x) ("invalid type for " +:+ k) in Ok (Some a)
  end.

Definition required {A} (v : Value) (k : string) (f : Value → option A) : outcome string A :=
  let* x := ok_or (vget v k) ("missing field `" +:+ k +:+ "`") in
  ok_or (f x) ("invalid type for " +:+ k).

Definition as_unsigned (max : Z) (v : Value) : option Z :=
  match v with VNumber (PosInt z) => if (z <=? max)%Z then Some z else None | _ => None end.
Definition as_u32 (v : Value) : option nat := Z.to_nat <$> as_unsigned u32_max v.
Definition as_boolean (v : Value) : option bool := match v with VBool b => Some b | _ => None end.

Definition recursive_params_from_json (v : Value) : outcome string A2aPatternRecursiveParams :=
  let* query := required v "query" as_string in
  let* environment := required v "environment" Some in
  let* sub_agent := required v "sub_agent" as_string in
  let* reduce_agent := optional v "reduce_agent" as_string in
  let* max_chunks := optional v "max_chunks" (as_unsigned u64_max) in
  let* verify := optional v "verify" as_boolean in
  let* concurrency := optional v "concurrency" (as_unsigned u64_max) in
  let* strategy := optional v "strategy" as_string in
  let* rlm_depth := optional v "rlm_depth" as_u32 in
  let* rlm_budget := optional v "rlm_budget" as_u32 in
  Ok (mkParams query environment sub_agent reduce_agent max_chunks verify concurrency strategy rlm_depth rlm_budget).

Section node.
(** What sends a frame to a peer *)
Variable recurse : RlmFrame → Uuid → M string.

Definition subcall_recursive (frame : RlmFrame) (parent : Uuid) : M string :=
  let! _ := logs (ToPeer own_a2a_url frame parent) in
  recurse frame parent.

Definition run_job (frame : RlmFrame) (parent : Uuid) (n : nat) (snip : Snippet) : M (string * option string * nat) :=
  if can_recurse frame n then
    let! answer := try (subcall_recursive (child_frame frame (snippet_environment snip) (per_child frame n)) parent) in
    mret (provenance snip, answer, S (f_depth frame))
  else
    let! answer := try (subcall (sub_agent_url frame) (leaf_prompt (query frame) snip) parent) in
    mret (provenance snip, answer, f_depth frame).

Definition direct_run (frame : RlmFrame) (parent : Uuid) (strategy : DecomposeStrategy * string) (st : list RlmStep) : M RlmOutcome :=
  let! answer := subcall (sub_agent_url frame) (query frame) parent in
  let ok := bool_decide (trim answer ≠ EmptyString) in
  let st := push_step st Subcall (f_depth frame) (est_tokens answer) ok in
  let! _ := drop_tree_if_root frame in
  mret (mkOutcome answer st 1 0 (strategy_tag (fst strategy)) false (Some (if ok then f32_half else f32_zero)) false
          (snd strategy) (max_depth_of st (f_depth frame))).

Definition fan_out_run (env : RlmEnvironment) (frame : RlmFrame) (parent : Uuid) (strategy : DecomposeStrategy * string)
    (snippets : list Snippet) (st : list RlmStep) : M RlmOutcome :=
  let! results := mmap (run_job frame parent (length snippets)) snippets in
  let '(partials, st) := collect results st in
  let! (answer, st) := stitch env frame parent partials st in
  let! (answer, st, verified, grade) := verify_step frame parent answer st in
  let! _ := drop_tree_if_root frame in
  mret (mkOutcome answer st (length results) (length snippets) (strategy_tag (fst strategy)) verified
          (Some (default (weak_grade (length partials) (length results)) grade)) (bool_decide (is_Some grade))
          (snd strategy) (max_depth_of st (f_depth frame))).

Definition run_rlm (env : RlmEnvironment) (frame : RlmFrame) (parent : Uuid) : M RlmOutcome :=
  let! _ := reserve_steps frame in
  let! preview := asks (peek env) in
  let st := push_step [] Peek (f_depth frame) (est_tokens preview) true in
  let! strategy :=
    match f_strategy frame with
    | Some h => mret (choose_strategy env (Some h) (max_chunks frame) (query frame), "hint")
    | None => asks (choose_strategy_msm env (query frame) (max_chunks frame) (root_task_id frame))
    end in
  let! snippets := decompose env (query frame) (fst strategy) (max_chunks frame) in
  let st := push_step st Filter (f_depth frame) 0 (bool_decide (snippets ≠ [])) in
  match snippets with
  | [] => direct_run frame parent strategy st
  | _ => fan_out_run env frame parent strategy snippets st
  end.

(** * The tool *)

Definition tool_a2a_pattern_recursive (params : A2aPatternRecursiveParams) : M RlmOutcome :=
  let! _ := mlift (env_from_json (p_environment params)) in
  let! sub_url := reads (resolve_agent_url (sub_agent params)) in
  let! reduce_url :=
    match reduce_agent params with
    | Some a => let! u := reads (resolve_agent_url a) in mret (Some u)
    | None => mret None
    end in
  let! task := attempts accept in
  let frame :=
    new_root own_a2a_url (p_environment params) (p_query params) sub_url reduce_url
      (clamp 1 64 (default 8%Z (p_max_chunks params))) (default 4%Z (p_concurrency params)) (p_strategy params)
      (default false (p_verify params)) (default default_max_depth (rlm_depth params))
      (default default_max_budget (rlm_budget params)) task in
  let! env := mlift (env_from_frame (p_environment params) frame) in
  let! outcome := run_rlm env frame task in
  let! _ := modifies (persist_trajectory task None (p_environment params) (p_query params) outcome) in
  let! _ := attempts (mark_completed task) in
  mret outcome.

(** * Receiving a frame *)

(** The task of a request that was served, or has failed and has no artifact *)
Definition task_text (m : M string) : M string :=
  let! text := try m in
  mret (match text with Some t => task_to_text [t] | None => EmptyString end).

(** The skill the frame was sent with, on the text of the message alone *)
Definition invoke_skill (request_text : string) : M string :=
  let! params := mlift (recursive_params_from_json (VObject [("prompt", VString request_text)])) in
  let! outcome := tool_a2a_pattern_recursive params in
  mret (json_result outcome).

(** [None]: no recursion, the message goes to the skill *)
Definition try_dispatch_rlm (frame : RlmFrame) (task parent : Uuid) : M (option string) :=
  if bool_decide (depth_remaining frame = 0 ∨ budget_remaining frame = 0) then mret None
  else
    let frame := entered frame own_a2a_url in
    match env_from_frame (environment frame) frame with
    | Ok env =>
        let! outcome := run_rlm env frame task in
        let! _ := modifies (persist_trajectory task (Some parent) (environment frame) (query frame) outcome) in
        mret (Some (final_answer outcome))
    | _ => mret None
    end.

Definition create_and_start (frame : RlmFrame) (parent : Uuid) : M string :=
  let! task := attempts accept in
  task_text
    (let! text := try_dispatch_rlm frame task parent in
     match text with Some t => mret t | None => invoke_skill (query frame) end).
End node.

(** A panic of the handler reaches the client as a failed request. *)
Definition transported (m : M string) : M string := λ r,
  match m r with
  | (Panic, r') => (Err "RLM recursive sub-call failed: connection closed", r')
  | (Ok text, r') =>
      let '(ok, w) := deliver (world r') in
      (if ok then Ok text else Err "RLM recursive sub-call failed: timed out", mkRun w (calls r'))
  | res => res
  end.

Fixpoint send_task_rlm (fuel : nat) (frame : RlmFrame) (parent : Uuid) : M string :=
  match fuel with
  | O => mlift OutOfFuel
  | S fuel => transported (create_and_start (send_task_rlm fuel) frame parent)
  end.

Lemma mbind_ok {A B} (m : M A) (k : A → M B) r a r' : m r = (Ok a, r') → mbind m k r = k a r'.
Proof. unfold mbind. by intros ->. Qed.
Lemma mbind_err {A B} (m : M A) (k : A → M B) r e r' : m r = (Err e, r') → mbind m k r = (Err e, r').
Proof. unfold mbind. by intros ->. Qed.

(** * Counting calls *)

Definition is_peer_call (c : Call) : bool := match c with ToPeer _ _ _ => true | ToModel _ _ _ => false end.
Definition peer_calls (l : list Call) : nat := length (filter is_peer_call l).
Definition model_calls (l : list Call) : nat := length (filter (λ c, negb (is_peer_call c)) l).

Lemma peer_calls_app l l' : peer_calls (l ++ l') = peer_calls l + peer_calls l'.
Proof. unfold peer_calls. by rewrite filter_app, length_app. Qed.
Lemma model_calls_app l l' : model_calls (l ++ l') = model_calls l + model_calls l'.
Proof. unfold model_calls. by rewrite filter_app, length_app. Qed.

(** [m] issues at most [p] calls to peers and [q] to models, does not run out of
    fuel, and what it returns satisfies [Q]. *)
Definition issues {A} (p q : nat) (m : M A) (Q : A → Prop) : Prop := ∀ r, ∃ l,
  calls (snd (m r)) = calls r ++ l ∧ peer_calls l ≤ p ∧ model_calls l ≤ q ∧
  fst (m r) ≠ OutOfFuel ∧ ∀ a, fst (m r) = Ok a → Q a.

Ltac quiet := intros r; exists []; cbn [snd fst mret mlift asks reads modifies calls]; rewrite ?app_nil_r; split_and!; [done|apply Nat.le_0_l|apply Nat.le_0_l|try done|try naive_solver].

Lemma issues_weaken {A} p q p' q' (m : M A) (Q Q' : A → Prop) :
  issues p q m Q → p ≤ p' → q ≤ q' → (∀ a, Q a → Q' a) → issues p' q' m Q'.
Proof. intros Hm ?? HQ r. destruct (Hm r) as (l&?&?&?&?&?). exists l. split_and!; eauto; lia. Qed.

Lemma issues_ret {A} p q (a : A) (Q : A → Prop) : Q a → issues p q (mret a) Q.
Proof. intros. quiet. Qed.

Lemma issues_lift {A} p q (o : outcome string A) (Q : A → Prop) :
  o ≠ OutOfFuel → (∀ a, o = Ok a → Q a) → issues p q (mlift o) Q.
Proof. intros. quiet. Qed.

Lemma issues_bind {A B} p1 q1 p2 q2 p q (m : M A) (k : A → M B) Q1 (Q : B → Prop) :
  issues p1 q1 m Q1 → (∀ a, Q1 a → issues p2 q2 (k a) Q) → p1 + p2 ≤ p → q1 + q2 ≤ q → issues p q (mbind m k) Q.
Proof.
  intros Hm Hk Hp Hq r. unfold mbind. destruct (Hm r) as (l&Hl&?&?&Hf&Ha).
  destruct (m r) as [[a|e| |] r'] eqn:Em; cbn in *.
  2-4: by exists l; split_and!; try lia.
  destruct (Hk a (Ha a eq_refl) r') as (l'&Hl'&?&?&?&?).
  exists (l ++ l'). rewrite Hl', Hl, app_assoc, peer_calls_app, model_calls_app. split_and!; auto; lia.
Qed.

Lemma issues_asks {A} p q (f : W → A) (Q : A → Prop) : (∀ w, Q (f w)) → issues p q (asks f) Q.
Proof. intros. quiet. Qed.

Lemma issues_reads {A} p q (f : W → result A) (Q : A → Prop) : (∀ w a, f w = inr a → Q a) → issues p q (reads f) Q.
Proof.
  intros HQ r. specialize (HQ (world r)). exists []. cbn [fst snd reads]. rewrite app_nil_r.
  destruct (f (world r)); split_and!; try done; try apply Nat.le_0_l. intros ? [= <-]. auto.
Qed.

Lemma issues_attempts {A} p q (f : W → result A * W) : issues p q (attempts f) (λ _, True).
Proof.
  intros r. unfold attempts. destruct (f (world r)) as [x w]. exists []. cbn [fst snd calls]. rewrite app_nil_r.
  destruct x; split_and!; try done; apply Nat.le_0_l.
Qed.

Lemma issues_modifies p q f : issues p q (modifies f) (λ _, True).
Proof. quiet. Qed.

Lemma peer_calls_one c : peer_calls [c] = if is_peer_call c then 1 else 0.
Proof. by destruct c. Qed.
Lemma model_calls_one c : model_calls [c] = if is_peer_call c then 0 else 1.
Proof. by destruct c. Qed.

Lemma issues_logs p q c : (if is_peer_call c then 1 ≤ p else 1 ≤ q) → issues p q (logs c) (λ _, True).
Proof.
  intros Hc r. exists [c]. rewrite peer_calls_one, model_calls_one. destruct (is_peer_call c); cbn; split_and!; done || lia.
Qed.

Lemma issues_try {A} p q (m : M A) Q : issues p q m Q → issues p q (try m) (λ _, True).
Proof.
  intros Hm r. destruct (Hm r) as (l&?&?&?&?&?). exists l. unfold try.
  destruct (m r) as [[]?]; cbn in *; split_and!; done.
Qed.

Lemma issues_mmap {A B} p q (f : A → M B) (l : list A) :
  (∀ a, issues p q (f a) (λ _, True)) → issues (length l * p) (length l * q) (mmap f l) (λ bs, length bs = length l).
Proof.
  intros Hf. induction l as [|a l IH]; cbn [mmap length]; [by apply issues_ret|].
  eapply (issues_bind p q (length l * p) (length l * q)); [apply Hf|intros b _|lia|lia].
  eapply (issues_bind _ _ 0 0); [apply IH|intros bs Hbs|lia|lia]. apply issues_ret. cbn. by f_equal.
Qed.

(** * The calls of a run *)

Lemma subcall_issues url text parent : issues 0 1 (subcall url text parent) (λ _, True).
Proof.
  unfold subcall. eapply (issues_bind 0 1 0 0); [apply issues_logs; cbn; lia|intros _ _|lia|lia].
  eapply (issues_bind 0 0 0 0); [apply issues_attempts|intros texts _|lia|lia]. by apply issues_ret.
Qed.

Lemma put_partials_issues root parent depth partials : ∀ i st,
  issues 0 0 (put_partials root parent depth i partials st) (λ res, length (fst res) = length partials).
Proof.
  induction partials as [|t partials IH]; intros i st; cbn [put_partials]; [by apply issues_ret|].
  unfold store_put_step.
  eapply (issues_bind 0 0 0 0 _ _ _ _ (λ _, True)); [|intros [addr st'] _|lia|lia].
  { eapply (issues_bind 0 0 0 0); [apply issues_modifies|intros _ _|lia|lia]. by apply issues_ret. }
  eapply (issues_bind 0 0 0 0); [apply IH|intros [addrs st''] Hl|lia|lia]. apply issues_ret. cbn in *. by f_equal.
Qed.

Lemma read_window_issues root depth addrs : ∀ st, issues 0 0 (read_window root depth addrs st) (λ _, True).
Proof.
  induction addrs as [|addr addrs IH]; intros st; cbn [read_window]; [by apply issues_ret|].
  unfold store_get_step.
  eapply (issues_bind 0 0 0 0 _ _ _ _ (λ _, True)); [|intros [text st'] _|lia|lia].
  { eapply (issues_bind 0 0 0 0); [by apply (issues_asks _ _ _ (λ _, True))|intros text _|lia|lia]. by apply issues_ret. }
  eapply (issues_bind 0 0 0 0); [apply IH|intros [texts st''] _|lia|lia]. by apply issues_ret.
Qed.

Lemma fold_windows_issues reduce root parent q depth windows : (∀ t, issues 0 1 (reduce t) (λ _, True)) → ∀ running st,
  issues 0 (length windows) (fold_windows reduce root parent q depth running windows st) (λ _, True).
Proof.
  intros Hr. induction windows as [|win windows IH]; intros running st; cbn [fold_windows length]; [by apply issues_ret|].
  eapply (issues_bind 0 0 0 (S (length windows))); [apply read_window_issues|intros [texts st'] _|lia|lia].
  eapply (issues_bind 0 1 0 (length windows)); [apply Hr|intros folded _|lia|lia].
  eapply (issues_bind 0 0 0 (length windows) _ _ _ _ (λ _, True)); [|intros [addr st''] _; apply IH|lia|lia].
  unfold store_put_step. eapply (issues_bind 0 0 0 0); [apply issues_modifies|intros _ _|lia|lia]. by apply issues_ret.
Qed.

Lemma windows_of_length {A} fuel n : ∀ l : list A, length l ≤ fuel → 0 < n → n * length (windows_of fuel n l) < length l + n.
Proof.
  induction fuel as [|fuel IH]; intros l Hl Hn; cbn [windows_of]; [cbn; lia|].
  destruct l as [|a l]; [cbn; lia|]. cbn [length]. cbn [length] in Hl.
  destruct (decide (S (length l) ≤ n)) as [Hle|].
  - rewrite (drop_ge (a :: l)) by (cbn; lia). assert (windows_of fuel n ([] : list A) = []) as -> by (by destruct fuel). cbn. lia.
  - specialize (IH (drop n (a :: l))). rewrite length_drop in IH. cbn [length] in IH. lia.
Qed.

Lemma stitch_issues env frame parent partials st : length partials ≤ 64 →
  issues 0 16 (stitch env frame parent partials st) (λ _, True).
Proof.
  intros Hp. unfold stitch.
  assert (Hc : ∀ e st, issues 0 16 (let! answer := subcall (reduce_url frame) e parent in
                                    mret (answer, push_step st Stitch (f_depth frame) (est_tokens answer) true)) (λ _, True)).
  { intros e st'. eapply (issues_bind 0 1 0 0); [apply subcall_issues|intros a _|lia|lia]. by apply issues_ret. }
  destruct env; try apply Hc. unfold accumulate_in_store_stitch.
  eapply (issues_bind 0 0 0 16); [apply put_partials_issues|intros [addrs st'] Hl|lia|lia]. cbn in Hl.
  destruct addrs as [|a addrs]; [apply Hc|]. set (l := a :: addrs) in *.
  pose proof (windows_of_length (length l) RLM_STITCH_WINDOW l (Nat.le_refl _)) as Hw.
  unfold RLM_STITCH_WINDOW in Hw at 1 2 4. specialize (Hw ltac:(lia)).
  eapply (issues_bind 0 (length (stitch_windows l)) 0 0); [|intros [running st''] _|lia|unfold stitch_windows; lia].
  - apply fold_windows_issues. intros t. apply subcall_issues.
  - by apply issues_ret.
Qed.

Lemma verify_step_issues frame parent answer st : issues 0 1 (verify_step frame parent answer st) (λ _, True).
Proof.
  unfold verify_step. destruct (verify frame); [|by apply issues_ret].
  eapply (issues_bind 0 1 0 0); [eapply issues_try, subcall_issues|intros reply _|lia|lia]. by apply issues_ret.
Qed.

Lemma drop_tree_if_root_issues frame : issues 0 0 (drop_tree_if_root frame) (λ _, True).
Proof. unfold drop_tree_if_root. case_bool_decide; [apply issues_modifies|by apply issues_ret]. Qed.

Lemma collect_length results : ∀ st, length (fst (collect results st)) ≤ length results.
Proof.
  induction results as [|[[prov answer] d] results IH]; intros st; cbn [collect length]; [done|].
  destruct answer as [a|].
  - specialize (IH (push_step st Subcall d (est_tokens a) (useful a))). destruct (collect results _).
    cbn in *. destruct (useful a); cbn; lia.
  - specialize (IH (push_step st Subcall d 0 false)). lia.
Qed.

(** [LIMIT] of the semantic query *)
Definition semantic_limit : Prop :=
  ∀ q k p w rows, semantic_search q k p w = inr rows → (Z.of_nat (length rows) ≤ Z.max 0 k)%Z.

Lemma store_pages_length root w addrs : ∀ max, length (store_pages root max w addrs) ≤ max.
Proof.
  induction addrs as [|addr addrs IH]; intros [|max]; cbn [store_pages]; try (cbn; lia).
  destruct (is_accum_slot addr); [apply IH|]. destruct (store_get root addr w); [|apply IH].
  cbn [length]. specialize (IH max). lia.
Qed.

Lemma clamp_bounds (lo hi z : Z) : (lo ≤ hi → lo ≤ clamp lo hi z ≤ hi)%Z.
Proof. unfold clamp. lia. Qed.

Lemma described_ok {A} what (x : result A) a : described what x = inr a → x = inr a.
Proof. by destruct x. Qed.

Lemma semantic_snippets_issues env q k : semantic_limit → (k ≤ 64)%Z →
  issues 0 0 (semantic_snippets env q k) (λ snippets, length snippets ≤ 64).
Proof.
  intros Hlim Hk. unfold semantic_snippets.
  eapply (issues_bind 0 0 0 0); [eapply issues_reads|intros rows Hrows|lia|lia].
  - intros w rows Hw%described_ok%Hlim. exact Hw.
  - apply issues_ret. rewrite length_fmap. cbn in Hrows. lia.
Qed.

Lemma taken_issues {A} (f : W → result (list A)) (g : A → Snippet) max : (max ≤ 64)%Z →
  issues 0 0 (let! rows := reads f in mret (g <$> take (Z.to_nat max) rows)) (λ snippets, length snippets ≤ 64).
Proof.
  intros Hm. eapply (issues_bind 0 0 0 0 _ _ _ _ (λ _, True)); [by apply issues_reads|intros rows _|lia|lia].
  apply issues_ret. rewrite length_fmap, length_take. lia.
Qed.

Lemma decompose_issues env q strategy max : semantic_limit →
  issues 0 0 (decompose env q strategy max) (λ snippets, length snippets ≤ 64).
Proof.
  intros Hlim. pose proof (clamp_bounds 1 64 max ltac:(lia)). unfold decompose. set (m := clamp 1 64 max) in *.
  destruct env, strategy; try (apply taken_issues; lia); try (apply semantic_snippets_issues; [done|lia]).
  all: apply issues_asks; intros w; unfold store_snippets; etrans; [apply store_pages_length|lia].
Qed.

(** What a node and its subtree issue at most: for each node the calls of its
    snippets, sixteen windows and a verification *)
Definition subtree_models (budget : nat) : nat := 81 * (1 + budget).

Lemma budget_telescopes b n : n * 2 < b → 0 < n → n * (1 + (b - n) / Nat.max n 1) ≤ b.
Proof.
  intros. replace (Nat.max n 1) with n by lia. pose proof (Nat.Div0.mul_div_le (b - n) n). lia.
Qed.

Section costs.
Variable recurse : RlmFrame → Uuid → M string.
Hypothesis Hlim : semantic_limit.

Definition child_cost (d : nat) : Prop := ∀ f parent, depth_remaining f ≤ d → depth_remaining f ≤ MAX_RLM_DEPTH - f_depth f →
  issues (budget_remaining f `min` MAX_RLM_BUDGET) (subtree_models (budget_remaining f `min` MAX_RLM_BUDGET))
    (recurse f parent) (λ _, True).

Lemma job_issues frame parent n snip : depth_remaining frame ≤ MAX_RLM_DEPTH - f_depth frame →
  (0 < depth_remaining frame → child_cost (depth_remaining frame - 1)) →
  issues (if can_recurse frame n then 1 + per_child frame n else 0)
    (if can_recurse frame n then subtree_models (per_child frame n) else 1)
    (run_job recurse frame parent n snip) (λ _, True).
Proof.
  intros Hd Hc. unfold run_job. destruct (can_recurse frame n) eqn:Hr.
  - apply andb_true_iff in Hr as [?%Nat.ltb_lt _].
    eapply (issues_bind _ _ 0 0); [|intros a _; by apply issues_ret|rewrite Nat.add_0_r; reflexivity..].
    eapply issues_try. unfold subcall_recursive.
    eapply (issues_bind 1 0 (per_child frame n) (subtree_models (per_child frame n))); [apply issues_logs; cbn; lia|intros _ _|lia|lia].
    eapply issues_weaken; [apply Hc; [lia|..]; cbn [child_frame depth_remaining f_depth]; lia| | |done]; cbn [child_frame budget_remaining]; unfold subtree_models; lia.
  - eapply (issues_bind 0 1 0 0); [eapply issues_try, subcall_issues|intros a _; by apply issues_ret|lia|lia].
Qed.

Lemma direct_run_issues frame parent strategy st : issues 0 1 (direct_run frame parent strategy st) (λ _, True).
Proof.
  unfold direct_run. eapply (issues_bind 0 1 0 0); [apply subcall_issues|intros a _|lia|lia].
  eapply (issues_bind 0 0 0 0); [apply drop_tree_if_root_issues|intros _ _|lia|lia]. by apply issues_ret.
Qed.

Lemma fan_out_issues env frame parent strategy snippets st :
  0 < length snippets ≤ 64 → depth_remaining frame ≤ MAX_RLM_DEPTH - f_depth frame → (0 < depth_remaining frame → child_cost (depth_remaining frame - 1)) →
  issues (budget_remaining frame) (subtree_models (budget_remaining frame))
    (fan_out_run recurse env frame parent strategy snippets st) (λ _, True).
Proof.
  intros Hn Hd Hc. set (n := length snippets) in *. unfold fan_out_run. fold n.
  assert (Hjobs : ∃ p q, (∀ snip, issues p q (run_job recurse frame parent n snip) (λ _, True)) ∧
     n * p ≤ budget_remaining frame ∧ n * q + 17 ≤ subtree_models (budget_remaining frame)).
  { eexists _, _. split; [intros snip; by apply job_issues|]. destruct (can_recurse frame n) eqn:Hr; [|unfold subtree_models; lia].
    unfold per_child. rewrite Hr. apply andb_true_iff in Hr as [_ ?%Nat.ltb_lt].
    pose proof (budget_telescopes (budget_remaining frame) n) as Ht. unfold subtree_models.
    set (c := _ / _) in *. split; [lia|]. nia. }
  destruct Hjobs as (p&q&Hjob&Hp&Hq).
  eapply (issues_bind (n * p) (n * q) 0 17); [by apply issues_mmap|intros results Hres|lia|lia]. cbn in Hres.
  pose proof (collect_length results st) as Hlen. destruct (collect results st) as [partials st'] eqn:Ec. cbn in Hlen.
  eapply (issues_bind 0 16 0 1); [apply stitch_issues; lia|intros [answer st''] _|lia|lia].
  eapply (issues_bind 0 1 0 0); [apply verify_step_issues|intros [[[answer' st3] v'] grade] _|lia|lia].
  eapply (issues_bind 0 0 0 0); [apply drop_tree_if_root_issues|intros _ _|lia|lia]. by apply issues_ret.
Qed.

Lemma run_rlm_issues env frame parent :
  depth_remaining frame ≤ MAX_RLM_DEPTH - f_depth frame → (0 < depth_remaining frame → child_cost (depth_remaining frame - 1)) →
  issues (budget_remaining frame) (subtree_models (budget_remaining frame)) (run_rlm recurse env frame parent) (λ _, True).
Proof.
  intros Hd Hc. unfold run_rlm. set (b := budget_remaining frame) in *.
  eapply (issues_bind 0 0 b (subtree_models b) _ _ _ _ (λ _, True)); [|intros _ _|lia|lia].
  { unfold reserve_steps. apply issues_lift; [by case_match|done]. }
  eapply (issues_bind 0 0 b (subtree_models b) _ _ _ _ (λ _, True)); [by apply issues_asks|intros preview _|lia|lia].
  eapply (issues_bind 0 0 b (subtree_models b) _ _ _ _ (λ _, True)); [|intros strategy _|lia|lia].
  { destruct (f_strategy frame); [by apply issues_ret|by apply issues_asks]. }
  eapply (issues_bind 0 0 b (subtree_models b)); [by apply decompose_issues|intros snippets Hn|lia|lia].
  cbn in Hn. destruct snippets as [|s snips].
  - eapply issues_weaken; [apply direct_run_issues|lia|unfold subtree_models; lia|done].
  - apply fan_out_issues; [cbn in *; lia|done|done].
Qed.
End costs.

Lemma prompt_refused q : recursive_params_from_json (VObject [("prompt", VString q)]) = Err "missing field `query`".
Proof. reflexivity. Qed.

Lemma invoke_skill_refused recurse q r : invoke_skill recurse q r = (Err "missing field `query`", r).
Proof. reflexivity. Qed.

Lemma issues_transported p q m : issues p q m (λ _, True) → issues p q (transported m) (λ _, True).
Proof.
  intros Hm r. destruct (Hm r) as (l&?&?&?&?&?). exists l. unfold transported.
  destruct (m r) as [[]r']; cbn in *; try by split_and!. destruct (deliver (world r')) as [[]w]; by split_and!.
Qed.

(** Depth left once a frame has been entered *)
Definition levels (f : RlmFrame) : nat := depth_remaining f `min` (MAX_RLM_DEPTH - f_depth f).

Lemma send_task_rlm_issues : semantic_limit → ∀ fuel frame parent, levels frame < fuel →
  issues (budget_remaining frame `min` MAX_RLM_BUDGET) (subtree_models (budget_remaining frame `min` MAX_RLM_BUDGET))
    (send_task_rlm fuel frame parent) (λ _, True).
Proof.
  intros Hlim. induction fuel as [|fuel IH]; intros frame parent Hfuel; [lia|]. cbn [send_task_rlm].
  set (b := budget_remaining frame `min` MAX_RLM_BUDGET). apply issues_transported. unfold create_and_start.
  eapply (issues_bind 0 0 b (subtree_models b)); [apply issues_attempts|intros task _|lia|lia]. unfold task_text.
  eapply (issues_bind b (subtree_models b) 0 0); [eapply (issues_try _ _ _ (λ _, True))|intros text _; by apply issues_ret|lia|lia].
  eapply (issues_bind b (subtree_models b) 0 0 _ _ _ _ (λ _, True)); [|intros [text|] _|lia|lia].
  2: by apply issues_ret.
  2: { intros r. exists []. rewrite invoke_skill_refused, app_nil_r. cbn. split_and!; try done; apply Nat.le_0_l. }
  unfold try_dispatch_rlm. case_bool_decide as Hz; [by apply issues_ret|].
  destruct (env_from_frame _ _) as [env|e| |]; [|by apply issues_ret..].
  eapply (issues_bind b (subtree_models b) 0 0 _ _ _ _ (λ _, True)); [|intros outcome _|lia|lia].
  - unfold b, levels in *. eapply issues_weaken; [apply run_rlm_issues; [done|..]| | |done]; try done.
    + cbn [entered depth_remaining f_depth]. lia.
    + intros Hpos f p Hd Hle. apply IH. cbn [entered depth_remaining] in Hd, Hpos. lia.
  - eapply (issues_bind 0 0 0 0); [apply issues_modifies|intros _ _; by apply issues_ret|lia|lia].
Qed.

(** * Bounded recursion *)

Lemma env_from_json_returns v : env_from_json v ≠ OutOfFuel.
Proof.
  unfold env_from_json, env_path. destruct (vget v "kind" ≫= as_string) as [kind|]; [|done].
  destruct (vget v "path" ≫= as_string); by repeat case_bool_decide.
Qed.

Lemma tool_issues params : semantic_limit →
  let b := nclamp 1 MAX_RLM_BUDGET (default default_max_budget (rlm_budget params)) in
  issues b (subtree_models b) (tool_a2a_pattern_recursive (send_task_rlm 3) params) (λ _, True).
Proof.
  intros Hlim b. unfold tool_a2a_pattern_recursive.
  eapply (issues_bind 0 0 b (subtree_models b) _ _ _ _ (λ _, True)); [apply issues_lift; [|done]|intros _ _|lia|lia].
  { apply env_from_json_returns. }
  eapply (issues_bind 0 0 b (subtree_models b) _ _ _ _ (λ _, True)); [by apply issues_reads|intros sub_url _|lia|lia].
  eapply (issues_bind 0 0 b (subtree_models b) _ _ _ _ (λ _, True)); [|intros url _|lia|lia].
  { destruct (reduce_agent params); [|by apply issues_ret].
    eapply (issues_bind 0 0 0 0 _ _ _ _ (λ _, True)); [by apply issues_reads|intros u _; by apply issues_ret|lia|lia]. }
  eapply (issues_bind 0 0 b (subtree_models b)); [apply issues_attempts|intros task _|lia|lia].
  set (frame := new_root _ _ _ _ _ _ _ _ _ _ _ _).
  eapply (issues_bind 0 0 b (subtree_models b) _ _ _ _ (λ _, True)); [apply issues_lift; [|done]|intros env _|lia|lia].
  { unfold env_from_frame. pose proof (env_from_json_returns (p_environment params)). by destruct (env_from_json _) as [[]| | |]. }
  assert (Hd : depth_remaining frame ≤ 3).
  { unfold frame, new_root. cbn [depth_remaining]. unfold nclamp, MAX_RLM_DEPTH.
    destruct (Nat.ltb_spec (default default_max_depth (rlm_depth params)) 1); [lia|].
    destruct (Nat.ltb_spec 4 (default default_max_depth (rlm_depth params))); lia. }
  eapply (issues_bind b (subtree_models b) 0 0 _ _ _ _ (λ _, True)); [|intros outcome _|lia|lia].
  - change b with (budget_remaining frame). apply run_rlm_issues; [done|exact Hd|].
    intros Hpos f p Hf Hle. apply send_task_rlm_issues; [done|]. unfold levels. lia.
  - eapply (issues_bind 0 0 0 0); [apply issues_modifies|intros _ _|lia|lia].
    eapply (issues_bind 0 0 0 0); [apply issues_attempts|intros _ _; by apply issues_ret|lia|lia].
Qed.

(** C9: the recursion of the tool is bounded, whatever the environment, the
    answers of the models and the failures of the transport: three levels of
    peers are enough for it to end, the recursive calls of the whole tree stay
    within the budget asked for (itself between 1 and 256), and each node makes
    at most 81 calls to models.  The same holds of any frame that comes in,
    crafted or not, with five levels. *)
Theorem recursion_bounded (Hlim : semantic_limit) :
  (∀ params r, let b := nclamp 1 MAX_RLM_BUDGET (default default_max_budget (rlm_budget params)) in
     ∃ l, calls (snd (tool_a2a_pattern_recursive (send_task_rlm 3) params r)) = calls r ++ l ∧
          fst (tool_a2a_pattern_recursive (send_task_rlm 3) params r) ≠ OutOfFuel ∧
          peer_calls l ≤ b ∧ model_calls l ≤ 81 * (1 + b)) ∧
  (∀ frame parent r,
     ∃ l, calls (snd (send_task_rlm 5 frame parent r)) = calls r ++ l ∧
          fst (send_task_rlm 5 frame parent r) ≠ OutOfFuel ∧
          peer_calls l ≤ budget_remaining frame `min` 256 ∧ model_calls l ≤ 81 * 257).
Proof.
  split.
  - intros params r b. destruct (tool_issues params Hlim r) as (l&?&?&?&?&_). by exists l.
  - intros frame parent r.
    assert (Hf : levels frame < 5) by (unfold levels, MAX_RLM_DEPTH; lia).
    destruct (send_task_rlm_issues Hlim 5 frame parent Hf r) as (l&?&Hp&Hq&?&_). exists l.
    unfold subtree_models, MAX_RLM_BUDGET in *. split_and!; try done. lia.
Qed.

(** * The last level *)

(** What a peer does with an exhausted frame: the skill is invoked on the text
    alone and refuses it, so the task fails and has no text. *)
Definition no_text (o : outcome string string) : Prop := o = Ok EmptyString ∨ ∃ e, o = Err e.

Lemma exhausted_start recurse frame parent r : depth_remaining frame = 0 ∨ budget_remaining frame = 0 →
  create_and_start recurse frame parent r =
    let '(x, w) := accept (world r) in
    (match x with inl e => Err e | inr _ => Ok EmptyString end, mkRun w (calls r)).
Proof.
  intros Hz. unfold create_and_start, mbind, attempts. destruct (accept (world r)) as [[e|task] w]; [done|].
  cbn [of_result]. unfold task_text, mbind, try, try_dispatch_rlm. by rewrite bool_decide_true.
Qed.

Lemma exhausted_send fuel frame parent r : depth_remaining frame = 0 ∨ budget_remaining frame = 0 →
  calls (snd (send_task_rlm (S fuel) frame parent r)) = calls r ∧ no_text (fst (send_task_rlm (S fuel) frame parent r)).
Proof.
  intros Hz. cbn [send_task_rlm]. unfold transported. rewrite exhausted_start by done.
  destruct (accept (world r)) as [[e|task] w]; [split; [done|right; eauto]|]. cbn [world calls].
  destruct (deliver w) as [[] w']; split; try done; [by left|right; eauto].
Qed.

Lemma collect_useless results : ∀ st, Forall (λ res, match snd (fst res) with Some a => useful a = false | None => True end) results →
  fst (collect results st) = [].
Proof.
  induction results as [|[[prov answer] d] results IH]; intros st Hall; [done|]. inversion Hall as [|?? Ha Hres]; subst.
  cbn [collect]. destruct answer as [a|]; [|by apply IH]. cbn in Ha. rewrite Ha.
  specialize (IH (push_step st Subcall d (est_tokens a) false) Hres). by destruct (collect results _).
Qed.

Lemma empty_useless : useful EmptyString = false.
Proof. reflexivity. Qed.

Lemma exhausted_jobs fuel frame parent n snippets : can_recurse frame n = true → depth_remaining frame = 1 → ∀ r, ∃ results l r',
  mmap (run_job (send_task_rlm (S fuel)) frame parent n) snippets r = (Ok results, r') ∧
  calls r' = calls r ++ l ∧ length l = length snippets ∧
  Forall (λ c, is_peer_call c = true) l ∧ length results = length snippets ∧
  Forall (λ res, match snd (fst res) with Some a => useful a = false | None => True end) results.
Proof.
  intros Hc Hd. induction snippets as [|snip snippets IH]; intros r.
  { exists [], [], r. cbn. by rewrite app_nil_r. }
  assert (Hjob : ∃ answer r', run_job (send_task_rlm (S fuel)) frame parent n snip r = (Ok (provenance snip, answer, S (f_depth frame)), r') ∧
     calls r' = calls r ++ [ToPeer own_a2a_url (child_frame frame (snippet_environment snip) (per_child frame n)) parent] ∧
     match answer with Some a => useful a = false | None => True end).
  { unfold run_job. rewrite Hc. unfold mbind, try, subcall_recursive, logs. cbn [mbind].
    set (f := child_frame _ _ _). set (r1 := mkRun _ _).
    destruct (exhausted_send fuel f parent r1) as [Hcalls Htext]; [left; cbn; lia|].
    unfold mbind. destruct (send_task_rlm (S fuel) f parent r1) as [o r']. cbn [fst snd] in *.
    destruct Htext as [->|[e ->]]; cbn [mret]; eexists _, r'; split_and!; try reflexivity; try exact Hcalls; done. }
  destruct Hjob as (answer&r'&Hjob&Hcalls&Ha). destruct (IH r') as (results&l&r2&Hm&Hl&?&?&?&?).
  cbn [mmap]. unfold mbind at 1. rewrite Hjob. unfold mbind. rewrite Hm.
  eexists _, (_ :: l), r2. cbn [mret snd]. rewrite Hl, Hcalls, <- app_assoc. cbn [app length]. split_and!; try reflexivity.
  - by f_equal.
  - by constructor.
  - cbn [length]. congruence.
  - by constructor.
Qed.

Lemma combine_nothing env frame parent st r :
  let call := ToModel (reduce_url frame) (combine_prompt (query frame) no_answer) parent in
  (∃ e r', stitch env frame parent [] st r = (Err e, r') ∧ calls r' = calls r ++ [call]) ∨
  (∃ answer r', stitch env frame parent [] st r = (Ok (answer, push_step st Stitch (f_depth frame) (est_tokens answer) true), r') ∧
    calls r' = calls r ++ [call]).
Proof.
  intros call.
  assert (stitch env frame parent [] st r =
    (let! answer := subcall (reduce_url frame) (combine_prompt (query frame) no_answer) parent in
     mret (answer, push_step st Stitch (f_depth frame) (est_tokens answer) true)) r) as ->.
  { by destruct env. }
  unfold mbind, subcall, mbind, logs, attempts. cbn [world calls].
  destruct (send_task _ _ _ _) as [[e|texts] w]; [left|right]; eexists _, _; split; reflexivity.
Qed.

Lemma dropped_root frame r : ∃ r', drop_tree_if_root frame r = (Ok (), r') ∧ calls r' = calls r.
Proof. unfold drop_tree_if_root. case_bool_decide; eexists; split; reflexivity. Qed.

Lemma weak_grade_zero n : n ≤ 64 → weak_grade 0 n = f32_zero.
Proof.
  intros Hn. assert (Hall : forallb (λ n, match weak_grade 0 n with S754_zero false => true | _ => false end) (seq 0 65) = true) by (vm_compute; reflexivity).
  rewrite forallb_forall in Hall. specialize (Hall n). rewrite in_seq in Hall. specialize (Hall ltac:(lia)).
  unfold f32_zero. by destruct (weak_grade 0 n) as [[]| | |].
Qed.

(** The last level of a recursion is lost.  A node with one level left that
    has the budget to recurse sends a frame for each snippet, every one of which
    the peer refuses; what is sent to the models is one request to combine no
    answers, and the run is graded zero. *)
Theorem last_level_lost fuel env frame parent strategy snippets st r
    (Hsnippets : 0 < length snippets ≤ 64) (Hverify : verify frame = false)
    (Hlast : depth_remaining frame = 1) (Hbudget : length snippets * 2 < budget_remaining frame) :
  let res := fan_out_run (send_task_rlm (S fuel)) env frame parent strategy snippets st r in
  ∃ frames, calls (snd res) = calls r ++ frames ++ [ToModel (reduce_url frame) (combine_prompt (query frame) no_answer) parent] ∧
    length frames = length snippets ∧ Forall (λ c, is_peer_call c = true) frames ∧
    (∀ outcome, fst res = Ok outcome → self_grade outcome = Some f32_zero ∧ subcalls outcome = length snippets).
Proof.
  set (n := length snippets).
  assert (Hc : can_recurse frame n = true).
  { unfold can_recurse. rewrite Hlast. apply andb_true_iff. split; [done|]. by apply Nat.ltb_lt. }
  destruct (exhausted_jobs fuel frame parent n snippets Hc Hlast r) as (results&l&r'&Hm&Hl&Hlen&Hpeers&Hres&Huseless).
  unfold fan_out_run. fold n. cbv zeta. rewrite (mbind_ok _ _ _ _ _ Hm).
  pose proof (collect_useless results st Huseless) as Hpart. destruct (collect results st) as [partials st']. cbn in Hpart. subst partials.
  destruct (combine_nothing env frame parent st' r') as [(e&r2&Hs&Hr2)|(answer&r2&Hs&Hr2)].
  - rewrite (mbind_err _ _ _ _ _ Hs). exists l. cbn [fst snd]. rewrite Hr2, Hl, <- app_assoc. by split_and!.
  - rewrite (mbind_ok _ _ _ _ _ Hs). unfold verify_step. rewrite Hverify. cbn [mbind mret].
    destruct (dropped_root frame r2) as (r3&Hd&Hr3).
    rewrite (mbind_ok _ _ _ _ _ Hd).
    exists l. cbn [mret fst snd]. rewrite Hr3, Hr2, Hl, <- app_assoc. split_and!; try done.
    intros outcome [= <-]. cbn. rewrite weak_grade_zero by lia. done.
Qed.

(** * Calls beyond the budget *)

Lemma leaf_issues recurse frame parent n snip : can_recurse frame n = false →
  issues 0 1 (run_job recurse frame parent n snip) (λ _, True).
Proof.
  intros Hc. unfold run_job. rewrite Hc.
  eapply (issues_bind 0 1 0 0); [eapply issues_try, subcall_issues|intros a _; by apply issues_ret|lia|lia].
Qed.

Lemma mmap_leaves recurse frame parent n snippets : can_recurse frame n = false → ∀ r, ∃ results l r',
  mmap (run_job recurse frame parent n) snippets r = (Ok results, r') ∧ calls r' = calls r ++ l ∧
  length l = length snippets ∧
  Forall2 (λ snip c, c = ToModel (sub_agent_url frame) (leaf_prompt (query frame) snip) parent) snippets l.
Proof.
  intros Hc. induction snippets as [|snip snippets IH]; intros r.
  { exists [], [], r. cbn. by rewrite app_nil_r. }
  assert (Hjob : ∃ answer r', run_job recurse frame parent n snip r = (Ok (provenance snip, answer, f_depth frame), r') ∧
     calls r' = calls r ++ [ToModel (sub_agent_url frame) (leaf_prompt (query frame) snip) parent]).
  { unfold run_job. rewrite Hc. unfold mbind, try, subcall, mbind, logs, attempts. cbn [world calls].
    destruct (send_task _ _ _ _) as [[e|texts] w]; cbn; eexists _, _; split; reflexivity. }
  destruct Hjob as (answer&r'&Hjob&Hcalls). destruct (IH r') as (results&l&r2&Hm&Hl&?&?).
  cbn [mmap]. rewrite (mbind_ok _ _ _ _ _ Hjob), (mbind_ok _ _ _ _ _ Hm).
  eexists _, (_ :: l), r2. cbn [mret]. rewrite Hl, Hcalls, <- app_assoc. cbn [app length]. split_and!; try reflexivity.
  - by f_equal.
  - by constructor.
Qed.

(** The budget does not limit the calls that are not recursive.  A node
    whose budget does not reach for recursing sends every snippet to the model
    itself, however many there are: with more snippets than budget, it issues
    more calls than its budget, which the tool's parameter says the tree never
    exceeds. *)
Theorem leaves_ignore_budget recurse env frame parent strategy snippets st r
    (Hmore : budget_remaining frame < length snippets ≤ 64) :
  ∃ leaves rest, calls (snd (fan_out_run recurse env frame parent strategy snippets st r)) = calls r ++ leaves ++ rest ∧
    Forall2 (λ snip c, c = ToModel (sub_agent_url frame) (leaf_prompt (query frame) snip) parent) snippets leaves ∧
    budget_remaining frame < length leaves.
Proof.
  assert (Hc : can_recurse frame (length snippets) = false).
  { apply andb_false_iff. right. apply Nat.ltb_ge. lia. }
  destruct (mmap_leaves recurse frame parent _ snippets Hc r) as (results&l&r'&Hm&Hl&Hlen&Hall).
  unfold fan_out_run. rewrite (mbind_ok _ _ _ _ _ Hm).
  assert (Hres : length results ≤ 64).
  { pose proof (issues_mmap 0 1 (run_job recurse frame parent (length snippets)) snippets) as Hi.
    destruct (Hi (λ snip, leaf_issues recurse frame parent _ snip Hc) r) as (?&_&_&_&_&Hq). rewrite Hm in Hq.
    specialize (Hq results eq_refl). cbn in Hq. lia. }
  pose proof (collect_length results st) as Hp. destruct (collect results st) as [partials st']. cbn in Hp.
  match goal with |- context [snd (?m r')] => assert (Hi : issues 0 17 m (λ _, True)) end.
  { eapply (issues_bind 0 16 0 1); [apply stitch_issues; lia|intros [answer st''] _|lia|lia].
    eapply (issues_bind 0 1 0 0); [apply verify_step_issues|intros [[[answer' st3] v'] grade] _|lia|lia].
    eapply (issues_bind 0 0 0 0); [apply drop_tree_if_root_issues|intros _ _|lia|lia]. by apply issues_ret. }
  destruct (Hi r') as (rest&Hrest&_). exists l, rest. rewrite Hrest, Hl, <- app_assoc. split_and!; [done|done|lia].
Qed.
End run.
