(* ===== verification/RlmTree.v ===== *)
(** Trees of runs ([RlmRun]): the environment of a snippet read back, a whole
    default run over a file, the fold of a stitch in the store, and a small
    world in which the theorems are applied. *)

From Stdlib Require Import Ascii ZArith SpecFloat.
From stdpp Require Import base numbers strings pretty list.
From S2P Require Import Prelude Text Numbers Splitting DataTable Rlm RlmRun.

#[local] Open Scope string_scope.
#[local] Open Scope list_scope.
#[local] Open Scope nat_scope.

(** * Numerals and the last colon *)

Definition no_colon (s : string) : Prop := rsplit_colon s = None.

Lemma no_colon_cons c s : c ≠ ":"%char → no_colon s → no_colon (String c s).
Proof. unfold no_colon. cbn. intros ? ->. by rewrite bool_decide_false. Qed.

Lemma no_colon_app s t : no_colon s → no_colon t → no_colon (s +:+ t).
Proof.
  unfold no_colon. induction s as [|c s IH]; [done|]. rewrite str_app_cons. cbn [rsplit_colon].
  destruct (rsplit_colon s) as [[]|]; [done|]. case_bool_decide; [done|]. intros _ Ht. by rewrite IH.
Qed.

Lemma pretty_N_char_no_colon (n : N) : pretty_N_char n ≠ ":"%char.
Proof. unfold pretty_N_char. repeat case_match; discriminate. Qed.

Lemma pretty_N_go_no_colon (n : N) : ∀ s, no_colon s → no_colon (pretty_N_go n s).
Proof.
  induction (N.lt_wf_0 n) as [n _ IH]. intros s Hs. destruct (decide (n = 0)%N) as [->|]; [done|].
  rewrite pretty_N_go_step by lia. apply IH; [apply N.div_lt; lia|]. apply no_colon_cons; [apply pretty_N_char_no_colon|done].
Qed.

Lemma pretty_N_no_colon (n : N) : no_colon (pretty n).
Proof. unfold pretty, pretty_N. case_decide; [done|]. by apply pretty_N_go_no_colon. Qed.

Lemma pretty_Z_no_colon (z : Z) : no_colon (pretty z).
Proof.
  unfold pretty, pretty_Z. destruct z; [done|apply pretty_N_no_colon|].
  apply no_colon_app; [done|apply pretty_N_no_colon].
Qed.

Lemma rsplit_colon_last p s : no_colon s → rsplit_colon (p +:+ ":" +:+ s) = Some (p, s).
Proof.
  intros Hs. induction p as [|c p IH]; [|].
  { change (rsplit_colon (String ":" s) = Some (EmptyString, s)). cbn [rsplit_colon]. by rewrite Hs. }
  rewrite str_app_cons. cbn [rsplit_colon]. by rewrite IH.
Qed.

Lemma rsplit_span path lo hi : rsplit_colon (span path lo hi) = Some (path, pretty lo +:+ "-" +:+ pretty hi).
Proof.
  unfold span. apply rsplit_colon_last. apply no_colon_app; [apply pretty_Z_no_colon|].
  apply no_colon_app; [done|apply pretty_Z_no_colon].
Qed.

Section tree.
Context `{Crates} {W : Type} `{!Services W}.
#[local] Notation M := (RlmRun.M (W:=W)).

Lemma as_i64_json z : (i32_min ≤ z ≤ i32_max)%Z → as_i64 (json_i32 z) = Some z.
Proof.
  unfold json_i32, as_i64, i32_min, i32_max, i64_max. intros. destruct (0 <=? z)%Z; rewrite (proj2 (Z.leb_le _ _)); done || lia.
Qed.

Lemma env_from_json_region path a b :
  env_from_json (VObject [("kind", VString "file_region"); ("path", VString path); ("start_chunk", a); ("end_chunk", b)]) =
  Ok (EnvFileRegion path (i32_wrap (default 0%Z (as_i64 a))) (i32_wrap (default i32_max (as_i64 b)))).
Proof. reflexivity. Qed.

(** The environment sent with the frame of a chunk is read back by the peer as
    exactly that chunk of that file, whatever the path (a path with colons
    included), the query and the frame. *)
Theorem snippet_environment_roundtrip path row frame (Hindex : (i32_min ≤ row_index row ≤ i32_max)%Z) :
  env_from_frame (snippet_environment (chunk_snippet path row)) frame = Ok (EnvFileRegion path (row_index row) (row_index row)).
Proof.
  unfold snippet_environment, chunk_snippet. cbn [s_addr provenance start_chunk end_chunk]. rewrite rsplit_span.
  unfold env_from_frame. rewrite env_from_json_region. cbn [obind]. rewrite as_i64_json by done. cbn [default].
  by rewrite i32_wrap_exact.
Qed.

(** * Two runs side by side

    [sees P m m' R]: from the same state, [m] and [m'] issue the same calls, all
    of which satisfy [P], leave the same world, fail alike, and return values
    that [R] relates. *)
Definition related {A A'} (R : A → A' → Prop) (x : outcome string A) (y : outcome string A') : Prop :=
  match x, y with
  | Ok a, Ok b => R a b
  | Err e, Err e' => e = e'
  | Panic, Panic | OutOfFuel, OutOfFuel => True
  | _, _ => False
  end.

Definition sees {A A'} (P : Call → Prop) (m : M A) (m' : M A') (R : A → A' → Prop) : Prop := ∀ r, ∃ l,
  calls (snd (m r)) = calls r ++ l ∧ Forall P l ∧ snd (m' r) = snd (m r) ∧ related R (fst (m r)) (fst (m' r)).

(** One run: its calls satisfy [P], and what it returns satisfies [Q]. *)
Definition emits {A} (P : Call → Prop) (m : M A) (Q : A → Prop) : Prop := sees P m m (λ a b, a = b ∧ Q a).

Lemma sees_bind {A A' B B'} P (m : M A) (m' : M A') (k : A → M B) (k' : A' → M B') R1 R :
  sees P m m' R1 → (∀ a b, R1 a b → sees P (k a) (k' b) R) → sees P (mbind m k) (mbind m' k') R.
Proof.
  intros Hm Hk r. unfold mbind. destruct (Hm r) as (l&Hl&HP&Hr&Ho).
  destruct (m r) as [[a|e| |] r1], (m' r) as [[b|e'| |] r2]; cbn in *; try done; subst r2; [|by subst; exists l..].
  destruct (Hk a b Ho r1) as (l'&Hl'&HP'&?&?).
  exists (l ++ l'). rewrite Hl', Hl, app_assoc, Forall_app. by split_and!.
Qed.

(** Both go the same way first. *)
Lemma sees_step {A B B'} P (m : M A) (k : A → M B) (k' : A → M B') Q R :
  emits P m Q → (∀ a, Q a → sees P (k a) (k' a) R) → sees P (mbind m k) (mbind m k') R.
Proof. intros Hm Hk. eapply sees_bind; [exact Hm|]. intros a b [<- Ha]. by apply Hk. Qed.

Lemma emits_same {A} P (m : M A) Q : emits P m Q → sees P m m eq.
Proof.
  intros Hm r. destruct (Hm r) as (l&Hl&HP&_&Ho). exists l. split_and!; [done..|].
  destruct (fst (m r)); cbn in *; tauto.
Qed.

(** A step that issues no call *)
Lemma emits_quiet {A} P (m : M A) (Q : A → Prop) :
  (∀ r, calls (snd (m r)) = calls r) → (∀ r a, fst (m r) = Ok a → Q a) → emits P m Q.
Proof.
  intros Hc HQ r. exists []. rewrite app_nil_r. specialize (Hc r). specialize (HQ r).
  split_and!; [done|done|done|]. destruct (fst (m r)); cbn; try done. auto.
Qed.

Lemma sees_ret {A A'} P (a : A) (b : A') (R : A → A' → Prop) : R a b → sees P (mret a) (mret b) R.
Proof. intros Hab r. exists []. rewrite app_nil_r. by split_and!. Qed.

Lemma emits_ret {A} P (a : A) (Q : A → Prop) : Q a → emits P (mret a) Q.
Proof. intros. by apply sees_ret. Qed.

Lemma emits_attempts {A} P (f : W → result A * W) : emits P (attempts f) (λ _, True).
Proof. apply emits_quiet; [|done]. intros r. unfold attempts. by destruct (f (world r)). Qed.

Lemma emits_logs P c : P c → emits P (logs c) (λ _, True).
Proof. intros Hc r. exists [c]. split_and!; [done|by constructor|done|done]. Qed.

Lemma sees_try {A} P (m m' : M A) : sees P m m' eq → sees P (try m) (try m') eq.
Proof.
  intros Hm r. destruct (Hm r) as (l&Hl&HP&Hr&Ho). exists l. unfold try.
  destruct (m r) as [[]?], (m' r) as [[]?]; cbn in *; subst; by split_and!.
Qed.

Lemma sees_mmap {A A' B} P (f : A → M B) (f' : A' → M B) l l' :
  Forall2 (λ a a', sees P (f a) (f' a') eq) l l' → sees P (mmap f l) (mmap f' l') eq.
Proof.
  induction 1 as [|a a' l l' Ha _ IH]; cbn [mmap]; [by apply sees_ret|].
  eapply sees_bind; [apply Ha|intros b ? <-]. eapply sees_bind; [apply IH|intros bs ? <-]. by apply sees_ret.
Qed.

Lemma emits_subcall (P : Call → Prop) url t parent : P (ToModel url t parent) → emits P (subcall url t parent) (λ _, True).
Proof.
  intros HP. unfold subcall. eapply sees_step; [by apply emits_logs|intros _ _].
  eapply sees_step; [apply emits_attempts|intros texts _; by apply emits_ret].
Qed.

Lemma sees_transported P m m' : sees P m m' eq → sees P (transported m) (transported m') eq.
Proof.
  intros Hm r. destruct (Hm r) as (l&Hl&HP&Hr&Ho). exists l. unfold transported.
  destruct (m r) as [[]r1], (m' r) as [[]r2]; cbn in *; subst; try done; try by split_and!.
  destruct (deliver (world r1)) as [[] w]; by split_and!.
Qed.

Lemma sees_eq {A} P (m m' : M A) r : sees P m m' eq → m' r = m r.
Proof.
  intros Hm. destruct (Hm r) as (_&_&_&Hr&Ho). destruct (m r) as [x r1], (m' r) as [y r2]. cbn in *. subst r2.
  destruct x, y; cbn in Ho; by subst.
Qed.

(** * The same services, with other text in the chunks of the files *)

Definition retell (hide : string → ChunkRow → string) (path : string) (row : ChunkRow) : ChunkRow :=
  mkChunkRow (row_index row) (row_start row) (row_end row) (hide path row).

Definition retold (hide : string → ChunkRow → string) : Services W := {|
  get_chunks_in_index_range path lo hi w :=
    match get_chunks_in_index_range path lo hi w with inl e => inl e | inr rows => inr (retell hide path <$> rows) end;
  grep_search_chunks := grep_search_chunks;
  semantic_search := semantic_search;
  file_chunk_summary := file_chunk_summary;
  choose_strategy_msm := choose_strategy_msm;
  resolve_agent_url := resolve_agent_url;
  send_task := send_task;
  store_size := store_size;
  resolve_path_prefix := resolve_path_prefix;
  store_get := store_get;
  store_put := store_put;
  page_tokens := page_tokens;
  drop_tree := drop_tree;
  accept := accept;
  deliver := deliver;
  mark_completed := mark_completed;
  persist_trajectory := persist_trajectory;
  default_max_depth := default_max_depth;
  default_max_budget := default_max_budget;
  mcp_host := mcp_host;
  mcp_port := mcp_port;
  parse_f32 := parse_f32;
  json_result := json_result;
|}.

(** A request to a model that shows it nothing of the environment: the query by
    itself, or answers to combine *)
Definition shows_nothing (q : string) (c : Call) : Prop :=
  match c with
  | ToModel _ t _ => t = q ∨ ∃ input, t = combine_prompt q input
  | ToPeer _ _ _ => True
  end.

Definition narrow_env (env : RlmEnvironment) : Prop := match env with EnvFile _ | EnvFileRegion _ _ _ => True | _ => False end.

Lemma direct_shows_nothing frame parent strategy st :
  emits (shows_nothing (query frame)) (direct_run frame parent strategy st) (λ _, True).
Proof.
  unfold direct_run. eapply sees_step; [apply emits_subcall; by left|intros a _].
  eapply (sees_step _ _ _ _ (λ _, True)); [|intros _ _; by apply emits_ret].
  apply emits_quiet; [|done]. intros r. unfold drop_tree_if_root. by case_bool_decide.
Qed.

(** The same row of a file, with the two texts *)
Definition same_chunk (hide : string → ChunkRow → string) (snip snip' : Snippet) : Prop := ∃ path row,
  snip = chunk_snippet path row ∧ snip' = chunk_snippet path (retell hide path row) ∧
  (i32_min ≤ row_index row ≤ i32_max)%Z.

Lemma fan_out_shows_nothing hide recurse recurse' env frame parent strategy snippets snippets' st :
  narrow_env env → verify frame = false → can_recurse frame (length snippets) = true →
  Forall2 (λ snip snip', same_chunk hide snip snip' ∧
    ∀ parent, let child := child_frame frame (snippet_environment snip) (per_child frame (length snippets)) in
      sees (shows_nothing (query frame)) (recurse child parent) (recurse' child parent) eq) snippets snippets' →
  sees (shows_nothing (query frame)) (fan_out_run recurse env frame parent strategy snippets st)
    (fan_out_run (Services0 := retold hide) recurse' env frame parent strategy snippets' st) eq.
Proof.
  intros Henv Hv Hc Hrec. unfold fan_out_run. rewrite <- (Forall2_length _ _ _ Hrec).
  eapply sees_bind; [apply sees_mmap|intros results ? <-].
  { eapply Forall2_impl; [exact Hrec|]. intros snip snip' [(path&row&->&->&_) Hs]. unfold run_job. rewrite Hc.
    eapply sees_bind; [apply sees_try|intros a ? <-; by apply sees_ret]. unfold subcall_recursive.
    eapply sees_step; [by apply emits_logs|intros _ _; apply Hs]. }
  destruct (collect results st) as [partials st'].
  change (stitch (Services0 := retold hide)) with stitch.
  eapply (sees_step _ _ _ _ (λ _, True)); [|intros [answer st''] _].
  { unfold stitch. destruct env; try done; (eapply sees_step; [apply emits_subcall; right; eauto|intros a _; by apply emits_ret]). }
  unfold verify_step. rewrite Hv. eapply (sees_step _ _ _ _ (λ _, True)); [by apply emits_ret|intros [[[??]?]?] _].
  change (drop_tree_if_root (Services0 := retold hide)) with drop_tree_if_root.
  eapply (sees_step _ _ _ _ (λ _, True)); [|intros _ _; by apply sees_ret].
  apply emits_quiet; [|done]. intros r. unfold drop_tree_if_root. by case_bool_decide.
Qed.

(** * A default run over a file *)

(** The chunks of a file have distinct 32-bit indices, and without labelled runs
    the chooser takes chunks for a file. *)
Definition chunk_rows_ok : Prop := ∀ path lo hi w rows, get_chunks_in_index_range path lo hi w = inr rows →
  (lo = hi → length rows ≤ 1) ∧ Forall (λ row, i32_min ≤ row_index row ≤ i32_max)%Z rows.
Definition cold_start : Prop := ∀ env q k root w, narrow_env env → fst (choose_strategy_msm env q k root w) = Chunk.

Definition file_range (env : RlmEnvironment) : option (string * Z * Z) :=
  match env with
  | EnvFile path => Some (path, 0%Z, i32_max)
  | EnvFileRegion path lo hi => Some (path, lo, hi)
  | _ => None
  end.

(** At most this many snippets *)
Definition fan_out_bound (env : RlmEnvironment) (max : Z) : nat :=
  match env with
  | EnvFileRegion _ lo hi => if bool_decide (lo = hi) then 1 else Z.to_nat (clamp 1 64 max)
  | _ => Z.to_nat (clamp 1 64 max)
  end.

Lemma fan_out_bound_le env max rows : (∀ path lo hi, file_range env = Some (path, lo, hi) → lo = hi → length rows ≤ 1) →
  length (take (Z.to_nat (clamp 1 64 max)) (rows : list ChunkRow)) ≤ fan_out_bound env max.
Proof.
  intros Hrows. rewrite length_take. unfold fan_out_bound. destruct env as [|path lo hi| |]; try lia.
  case_bool_decide as Hi; [|lia]. specialize (Hrows path lo hi eq_refl Hi). lia.
Qed.

Lemma decompose_chunks P hide env q max : chunk_rows_ok → narrow_env env →
  sees P (decompose env q Chunk max) (decompose (Services0 := retold hide) env q Chunk max)
    (λ snippets snippets', Forall2 (same_chunk hide) snippets snippets' ∧ length snippets ≤ fan_out_bound env max).
Proof.
  intros Hrows Henv.
  assert (Hgen : ∀ path lo hi, file_range env = Some (path, lo, hi) →
    let run S := mbind (reads (λ w, described "chunk decompose" (get_chunks_in_index_range (Services := S) path lo hi w)))
                   (λ rows, mret (chunk_snippet path <$> take (Z.to_nat (clamp 1 64 max)) rows)) in
    sees P (run Services0) (run (retold hide))
      (λ snippets snippets', Forall2 (same_chunk hide) snippets snippets' ∧ length snippets ≤ fan_out_bound env max)).
  { intros path lo hi Hr. cbv zeta. eapply (sees_bind _ _ _ _ _ (λ rows rows', rows' = (retell hide path <$> rows) ∧
      (lo = hi → length rows ≤ 1) ∧ Forall (λ row, i32_min ≤ row_index row ≤ i32_max)%Z rows)).
    - intros r. exists []. rewrite app_nil_r. split_and!; [done..|]. cbn [reads fst get_chunks_in_index_range retold].
      destruct (get_chunks_in_index_range path lo hi (world r)) as [e|rows] eqn:Hd; cbn; [done|].
      split; [done|]. by eapply Hrows.
    - intros rows ? (->&Hone&Hidx). apply sees_ret. split.
      + rewrite <- fmap_take. apply Forall2_fmap_l, Forall2_fmap_r, Forall2_fmap_r, Forall_Forall2_diag.
        eapply Forall_impl; [by apply Forall_take|]. intros row ?. by exists path, row.
      + rewrite length_fmap. apply fan_out_bound_le. intros ??? Hr'. rewrite Hr in Hr'. by injection Hr' as <- <- <-. }
  destruct env; try done; apply Hgen; reflexivity.
Qed.

Lemma run_shows_nothing hide recurse recurse' env frame parent : chunk_rows_ok → cold_start → narrow_env env →
  verify frame = false → f_strategy frame = None → 0 < depth_remaining frame →
  fan_out_bound env (max_chunks frame) * 2 < budget_remaining frame →
  (∀ path row n parent, (i32_min ≤ row_index row ≤ i32_max)%Z → 1 ≤ n ≤ fan_out_bound env (max_chunks frame) →
     let child := child_frame frame (snippet_environment (chunk_snippet path row)) ((budget_remaining frame - n) / n) in
     sees (shows_nothing (query frame)) (recurse child parent) (recurse' child parent) eq) →
  sees (shows_nothing (query frame)) (run_rlm recurse env frame parent)
    (run_rlm (Services0 := retold hide) recurse' env frame parent) eq.
Proof.
  intros Hrows Hcold Henv Hv Hs Hd Hb Hrec. unfold run_rlm. eapply (sees_step _ _ _ _ (λ _, True)); [by apply emits_quiet|intros _ _].
  change (peek (Services0 := retold hide)) with peek. change (choose_strategy_msm (Services := retold hide)) with choose_strategy_msm.
  eapply (sees_step _ _ _ _ (λ _, True)); [by apply emits_quiet|intros preview _]. rewrite Hs.
  eapply (sees_step _ _ _ _ (λ s, fst s = Chunk)).
  { apply emits_quiet; [done|]. intros r strategy [= <-]. by apply Hcold. }
  intros strategy ->. eapply sees_bind; [by apply (decompose_chunks _ hide)|]. cbv beta. intros snippets snippets' [Hof Hn].
  change (direct_run (Services0 := retold hide)) with direct_run.
  destruct Hof as [|snip snip' snips snips' Hsnip Hof]; [eapply emits_same, direct_shows_nothing|].
  assert (Hof' : Forall2 (same_chunk hide) (snip :: snips) (snip' :: snips')) by by constructor.
  rewrite !bool_decide_true by done.
  assert (Hc : can_recurse frame (length (snip :: snips)) = true).
  { apply andb_true_iff. split; apply Nat.ltb_lt; lia. }
  apply fan_out_shows_nothing; [done..|]. eapply Forall2_impl; [exact Hof'|]. intros sn sn' Hsn. split; [done|].
  destruct Hsn as (path&row&->&_&Hidx). intros p'. cbv zeta. unfold per_child. rewrite Hc.
  rewrite Nat.max_l by (cbn [length]; lia). apply Hrec; [done|]. cbn [length] in *. lia.
Qed.

(** A frame for one chunk, with budget for every level it has left *)
Lemma chunk_frame_shows_nothing hide : chunk_rows_ok → cold_start → ∀ fuel frame parent path row,
  (i32_min ≤ row_index row ≤ i32_max)%Z →
  environment frame = snippet_environment (chunk_snippet path row) → verify frame = false → f_strategy frame = None →
  f_depth frame + depth_remaining frame ≤ MAX_RLM_DEPTH → depth_remaining frame + 2 ≤ budget_remaining frame ≤ MAX_RLM_BUDGET →
  sees (shows_nothing (query frame)) (send_task_rlm fuel frame parent)
    (send_task_rlm (Services0 := retold hide) fuel frame parent) eq.
Proof.
  intros Hrows Hcold. induction fuel as [|fuel IH]; intros frame parent path row Hidx Henv Hv Hs Hd Hb; [by exists []; rewrite app_nil_r|].
  cbn [send_task_rlm]. change (transported (Services0 := retold hide)) with transported. apply sees_transported.
  unfold create_and_start. change (accept (Services := retold hide)) with accept.
  eapply sees_step; [apply emits_attempts|intros task _].
  unfold task_text. eapply sees_bind; [apply sees_try|intros text ? <-; by apply sees_ret].
  eapply (sees_bind _ _ _ _ _ eq); [|intros [text|] ? <-; [by apply sees_ret|by exists []; rewrite app_nil_r]].
  unfold try_dispatch_rlm. case_bool_decide as Hz; [by apply sees_ret|].
  change (own_a2a_url (Services0 := retold hide)) with own_a2a_url. set (f := entered frame own_a2a_url).
  assert (environment f = snippet_environment (chunk_snippet path row)) as -> by exact Henv.
  rewrite snippet_environment_roundtrip by done.
  assert (Hdf : depth_remaining f = depth_remaining frame) by (unfold f, entered; cbn [depth_remaining]; lia).
  assert (Hbf : budget_remaining f = budget_remaining frame) by (unfold f, entered; cbn [budget_remaining]; lia).
  eapply (sees_bind _ _ _ _ _ eq).
  2: { intros outcome ? <-. change (persist_trajectory (Services := retold hide)) with persist_trajectory.
       eapply (sees_step _ _ _ _ (λ _, True)); [by apply emits_quiet|intros _ _; by apply sees_ret]. }
  change (query frame) with (query f).
  assert (Hbound : fan_out_bound (EnvFileRegion path (row_index row) (row_index row)) (max_chunks f) = 1).
  { cbn. by rewrite bool_decide_true. }
  apply run_shows_nothing; try done; rewrite ?Hbound; try lia. intros path' row' n p Hrow Hn. assert (n = 1) as -> by lia.
  rewrite Nat.div_1_r. cbv zeta.
  match goal with |- sees _ (send_task_rlm _ ?child _) _ _ => apply (IH child p path' row') end;
    try done; cbn [child_frame f_depth depth_remaining budget_remaining]; try lia.
  all: rewrite ?Hdf, ?Hbf. all: change (f_depth f) with (f_depth frame). all: lia.
Qed.

(** The parameters of a request over a file that leaves everything else out *)
Definition plain_request (q path agent : string) : A2aPatternRecursiveParams :=
  mkParams q (VObject [("kind", VString "file"); ("path", VString path)]) agent None None None None None None None.

Lemma env_from_json_file path : env_from_json (VObject [("kind", VString "file"); ("path", VString path)]) = Ok (EnvFile path).
Proof. reflexivity. Qed.

(** C8: with the default depth (4) and budget (64), a run over a file does not
    depend on what the file says.  Replace the text of every chunk by any other
    ([retold]; the rows keep their indices and lines): the same answer or the
    same failure, the same steps and trajectory, and the same calls, each of
    which sends a model the query by itself or a request to combine what other
    models have answered.  Every node down to the last level has depth and budget
    to recurse, and the frames of the last level are refused.  It is assumed that
    no trained chooser overrides chunking ([cold_start]: files are decomposed
    into chunks when there are no labelled runs) and that the chunks of a file
    have distinct 32-bit indices ([chunk_rows_ok]). *)
Theorem default_file_run_unread (Hrows : chunk_rows_ok) (Hcold : cold_start)
    (Hdepth : default_max_depth = 4) (Hbudget : default_max_budget = 64) :
  ∀ fuel q path agent r,
    (∃ l, calls (snd (tool_a2a_pattern_recursive (send_task_rlm fuel) (plain_request q path agent) r)) = calls r ++ l ∧
       Forall (shows_nothing q) l) ∧
    ∀ hide, tool_a2a_pattern_recursive (Services0 := retold hide) (send_task_rlm (Services0 := retold hide) fuel) (plain_request q path agent) r =
      tool_a2a_pattern_recursive (send_task_rlm fuel) (plain_request q path agent) r.
Proof.
  intros fuel q path agent r.
  assert (∀ hide, sees (shows_nothing q) (tool_a2a_pattern_recursive (send_task_rlm fuel) (plain_request q path agent))
    (tool_a2a_pattern_recursive (Services0 := retold hide) (send_task_rlm (Services0 := retold hide) fuel) (plain_request q path agent)) eq) as Hrun.
  2: { split; [by destruct (Hrun (λ _ _, EmptyString) r) as (l&?&?&_); exists l|]. intros hide. by apply (sees_eq (shows_nothing q)). }
  intros hide. unfold tool_a2a_pattern_recursive, plain_request.
  cbn [p_environment sub_agent reduce_agent p_max_chunks p_concurrency p_strategy p_verify rlm_depth rlm_budget p_query default].
  eapply (sees_step _ _ _ _ (λ _, True)); [by apply emits_quiet|intros _ _].
  change (resolve_agent_url (Services := retold hide)) with resolve_agent_url. change (accept (Services := retold hide)) with accept.
  change (mark_completed (Services := retold hide)) with mark_completed.
  eapply (sees_step _ _ _ _ (λ _, True)); [by apply emits_quiet|intros url _].
  eapply (sees_step _ _ _ _ (λ _, True)); [by apply emits_quiet|intros reduce _].
  eapply sees_step; [apply emits_attempts|intros task _].
  change (default_max_depth (Services := retold hide)) with default_max_depth.
  change (default_max_budget (Services := retold hide)) with default_max_budget.
  change (own_a2a_url (Services0 := retold hide)) with own_a2a_url. rewrite Hdepth, Hbudget.
  unfold env_from_frame. rewrite env_from_json_file. cbn [obind].
  eapply (sees_step _ _ _ _ (λ env, env = EnvFile path)); [apply emits_quiet; [done|by intros ?? [= <-]]|intros env ->].
  eapply (sees_bind _ _ _ _ _ eq).
  2: { intros outcome ? <-. change (persist_trajectory (Services := retold hide)) with persist_trajectory.
       eapply (sees_step _ _ _ _ (λ _, True)); [by apply emits_quiet|intros _ _].
       eapply sees_step; [apply emits_attempts|intros _ _; by apply sees_ret]. }
  set (frame := new_root _ _ _ _ _ _ _ _ _ _ _ _). change q with (query frame).
  change (clamp 1 64 8) with 8%Z in frame.
  apply run_shows_nothing; try done; [by cbn; lia|change (fan_out_bound _ _) with 8; change (budget_remaining frame) with 64; lia|].
  intros path' row n p Hrow Hn. change (fan_out_bound _ _) with 8 in Hn. change (budget_remaining frame) with 64. cbv zeta.
  match goal with |- sees _ (send_task_rlm _ ?child _) _ _ => apply (chunk_frame_shows_nothing hide Hrows Hcold fuel child p path' row) end; try done.
  cbn [child_frame budget_remaining depth_remaining]. change (depth_remaining frame) with 3. unfold MAX_RLM_BUDGET.
  assert (7 ≤ (64 - n) / n) by (apply Nat.div_le_lower_bound; lia).
  assert ((64 - n) / n ≤ 64 - n) by (apply Nat.Div0.div_le_upper_bound; nia). lia.
Qed.

(** * The fold in the store *)

(** What is read back is what was put last. *)
Definition store_laws : Prop :=
  (∀ root addr t w, store_get root addr (store_put root addr t w) = Some t) ∧
  (∀ root addr addr' t w, addr ≠ addr' → store_get root addr' (store_put root addr t w) = store_get root addr' w) ∧
  (∀ root root' slot slot', Scratch root slot = Scratch root' slot' → root = root' ∧ slot = slot').

Lemma accum_slot_inj parent k k' : accum_slot parent k = accum_slot parent k' → k = k'.
Proof.
  unfold accum_slot, ACCUM_PREFIX. intros Heq. apply (inj (String.append "accum/")) in Heq.
  apply (inj (String.append (uuid_str parent))) in Heq. by apply (inj (String.append "/")) in Heq.
Qed.

Lemma pretty_nat_not_summary (i : nat) : pretty i ≠ "summary".
Proof. intros Heq. pose proof (proj1 (pretty_digits i)) as Hd. by rewrite Heq in Hd. Qed.

Definition slot_addr (root parent : Uuid) (key : string) : PageAddress := Scratch root (accum_slot parent key).

(** The pages of the partials, and how a window shows them *)
Definition partial_addr (root parent : Uuid) (i : nat) : PageAddress := slot_addr root parent (pretty i).
Definition shown (page : PageAddress * string) : string := "[" +:+ to_path (fst page) +:+ "]" +:+ nl +:+ snd page.
Definition partial_pages (root parent : Uuid) (i : nat) (partials : list string) : list (PageAddress * string) :=
  imap (λ k p, (partial_addr root parent (i + k), p)) partials.

Lemma partial_pages_cons root parent i p partials :
  partial_pages root parent i (p :: partials) = (partial_addr root parent i, p) :: partial_pages root parent (S i) partials.
Proof.
  unfold partial_pages. cbn [imap]. rewrite Nat.add_0_r. f_equal. apply imap_ext. intros k x _. cbn. by rewrite Nat.add_succ_r.
Qed.

(** The summary folded over windows of shown partials by a reducer *)
Definition folded (g : string → string) (q : string) (windows : list (list string)) (running : option string) : option string :=
  fold_left (λ running window, Some (g (fold_prompt q running (join_with (nl +:+ nl) window)))) windows running.

(** Two runs that differ in the accumulator pages of [parent] only *)
Definition same_elsewhere (root parent : Uuid) (r r' : Run W) : Prop :=
  calls r' = calls r ∧
  ∀ addr, (∀ key, addr ≠ slot_addr root parent key) → store_get root addr (world r') = store_get root addr (world r).

#[local] Instance same_elsewhere_preorder root parent : PreOrder (same_elsewhere root parent).
Proof.
  split; [by intros r|]. intros r1 r2 r3 [Hc1 H1] [Hc2 H2]. split; [congruence|].
  intros addr Ha. by rewrite H2, H1.
Qed.

Section fold.
Hypothesis Hlaws : store_laws.
Variables (root parent : Uuid) (depth : nat).

Lemma slot_addr_inj key key' : slot_addr root parent key = slot_addr root parent key' → key = key'.
Proof. intros Heq. destruct Hlaws as (_&_&Hinj). apply Hinj in Heq as [_ Heq]. by apply accum_slot_inj in Heq. Qed.

Lemma store_put_step_run key t st r : ∃ st' r',
  store_put_step root parent key t depth st r = (Ok (slot_addr root parent key, st'), r') ∧
  same_elsewhere root parent r r' ∧ store_get root (slot_addr root parent key) (world r') = Some t ∧
  ∀ key', key' ≠ key → store_get root (slot_addr root parent key') (world r') = store_get root (slot_addr root parent key') (world r).
Proof.
  destruct Hlaws as (Hsame&Hother&_). eexists _, _. split; [reflexivity|]. cbn [world calls]. split_and!.
  - split; [done|]. intros addr Ha. apply Hother. intros E. by apply (Ha key).
  - apply Hsame.
  - intros key' Hk. apply Hother. intros E. apply Hk. symmetry. by apply slot_addr_inj.
Qed.

Definition resident (r : Run W) (page : PageAddress * string) : Prop := store_get root (fst page) (world r) = Some (snd page).

Lemma put_partials_run partials : ∀ i st r, ∃ st' r',
  put_partials root parent depth i partials st r = (Ok (fst <$> partial_pages root parent i partials, st'), r') ∧
  same_elsewhere root parent r r' ∧ Forall (resident r') (partial_pages root parent i partials) ∧
  ∀ k, k < i → store_get root (partial_addr root parent k) (world r') = store_get root (partial_addr root parent k) (world r).
Proof.
  induction partials as [|p partials IH]; intros i st r; [by eexists st, r|].
  destruct (store_put_step_run (pretty i) p st r) as (st1&r1&H1&Hs1&Hp1&Ho1).
  destruct (IH (S i) st1 r1) as (st2&r2&H2&Hs2&Hp2&Ho2). exists st2, r2. cbn [put_partials].
  rewrite (mbind_ok _ _ _ _ _ H1), (mbind_ok _ _ _ _ _ H2), partial_pages_cons. split_and!; [reflexivity|by etrans|..].
  - constructor; [|exact Hp2]. unfold resident. cbn [fst snd]. rewrite Ho2 by lia. exact Hp1.
  - intros k Hk. rewrite Ho2 by lia. apply Ho1. intros E. apply (inj pretty) in E. lia.
Qed.

Lemma read_window_run pages : ∀ st r, Forall (resident r) pages → ∃ st',
  read_window root depth (fst <$> pages) st r = (Ok (shown <$> pages, st'), r).
Proof.
  induction pages as [|[addr t] pages IH]; intros st r Hall; [by eexists st|].
  inversion Hall as [|?? Ha Hall']; subst. unfold resident in Ha. cbn in Ha. cbn [fmap list_fmap fst read_window].
  assert (Hg : ∃ st1, store_get_step root addr depth st r = (Ok (Some t, st1), r)).
  { eexists. unfold store_get_step, mbind, asks. rewrite Ha. reflexivity. }
  destruct Hg as [st1 Hg]. destruct (IH st1 r Hall') as [st2 H2]. exists st2.
  by rewrite (mbind_ok _ _ _ _ _ Hg), (mbind_ok _ _ _ _ _ H2).
Qed.

Lemma fold_windows_run g q (windows : list (list (PageAddress * string))) : ∀ running st r, Forall (Forall (λ page, resident r page ∧ ∃ i, fst page = partial_addr root parent i)) windows →
  ∃ st' r', fold_windows (λ p, mret (g p)) root parent q depth running (map (map fst) windows) st r =
    (Ok (folded g q (map (map shown) windows) running, st'), r') ∧ same_elsewhere root parent r r'.
Proof.
  induction windows as [|win windows IH]; intros running st r Hall; [by eexists st, r|].
  inversion Hall as [|?? Hwin Hall']; subst. cbn [map fold_windows].
  destruct (read_window_run win st r) as [st1 H1]; [by eapply Forall_impl; [exact Hwin|intros ? []]|].
  rewrite (mbind_ok _ _ _ _ _ H1). cbn [mret mbind].
  match goal with |- context [store_put_step root parent "summary" ?t depth ?st2] =>
    destruct (store_put_step_run "summary" t st2 r) as (st3&r3&H3&Hs3&_&Ho3) end.
  rewrite (mbind_ok _ _ _ _ _ H3).
  destruct (IH (Some (g (fold_prompt q running (join_with (nl +:+ nl) (shown <$> win))))) st3 r3) as (st4&r4&H4&Hs4).
  { eapply Forall_impl; [exact Hall'|]. intros w Hw. eapply Forall_impl; [exact Hw|]. intros [addr t] [Hres [i Hi]]. cbn in Hi. subst addr.
    split; [|by exists i]. unfold resident in *. cbn in *. rewrite <- Hres. apply Ho3. apply pretty_nat_not_summary. }
  exists st4, r4. split; [exact H4|by etrans].
Qed.
End fold.

Lemma windows_of_fmap {A B} (f : A → B) n fuel : ∀ l, windows_of fuel n (f <$> l) = map (map f) (windows_of fuel n l).
Proof.
  induction fuel as [|fuel IH]; intros l; [done|]. destruct l as [|a l]; [done|].
  change (f <$> a :: l) with (f a :: (f <$> l)). cbn [windows_of map].
  change (f a :: (f <$> l)) with (f <$> a :: l). by rewrite <- fmap_take, <- fmap_drop, IH.
Qed.

Lemma windows_of_spec {A} n fuel : 0 < n → ∀ l : list A, length l ≤ fuel →
  concat (windows_of fuel n l) = l ∧ Forall (λ w, 1 ≤ length w ≤ n) (windows_of fuel n l).
Proof.
  intros Hn. induction fuel as [|fuel IH]; intros l Hl; [by destruct l; cbn in *; [|lia]|].
  destruct l as [|a l]; [done|]. cbn [windows_of concat]. destruct (IH (drop n (a :: l))) as [Hc Hw].
  { rewrite length_drop. cbn in *. lia. }
  rewrite Hc, take_drop. split; [done|]. constructor; [|done]. rewrite length_take. cbn [length]. lia.
Qed.

Lemma Forall_windows {A} (P : A → Prop) n fuel : ∀ l, Forall P l → Forall (Forall P) (windows_of fuel n l).
Proof.
  induction fuel as [|fuel IH]; intros l Hl; [constructor|]. destruct l as [|a l]; [constructor|].
  cbn [windows_of]. constructor; [by apply Forall_take|]. apply IH. by apply Forall_drop.
Qed.

(** C21: the stitch in the store, with a reducer that answers [g p] to a prompt
    [p]: the answer is the summary folded over the partials in order, at most
    four at a time and each one exactly once, every window shown with its page
    addresses; and only the pages of the stitching task are written, so that the
    stitches of a tree that run at the same time do not meet. *)
Theorem stitch_folds_partials (Hlaws : store_laws) g root parent partials q depth st r (Hne : partials ≠ []) :
  let windows := stitch_windows (shown <$> partial_pages root parent 0 partials) in
  (∃ st' r', accumulate_in_store_stitch (λ p, mret (g p)) root parent partials q depth st r =
     (Ok (default no_answer (folded g q windows None), st'), r') ∧ same_elsewhere root parent r r') ∧
  concat windows = (shown <$> partial_pages root parent 0 partials) ∧ Forall (λ w, 1 ≤ length w ≤ 4) windows.
Proof.
  set (pages := partial_pages root parent 0 partials). intros windows. split.
  - destruct (put_partials_run Hlaws root parent depth partials 0 st r) as (st1&r1&H1&Hs1&Hres&_). fold pages in H1, Hres.
    unfold accumulate_in_store_stitch. rewrite (mbind_ok _ _ _ _ _ H1).
    assert (∃ a addrs, fst <$> pages = a :: addrs) as (a&addrs&Ha).
    { unfold pages, partial_pages. destruct partials as [|p ps]; [done|]. cbn. eauto. }
    rewrite Ha, <- Ha. unfold windows, stitch_windows. rewrite !length_fmap, !windows_of_fmap.
    destruct (fold_windows_run Hlaws root parent depth g q (windows_of (length pages) RLM_STITCH_WINDOW pages) None st1 r1)
      as (st2&r2&H2&Hs2).
    + apply Forall_windows. apply Forall_forall. intros page Hin. rewrite Forall_forall in Hres. split; [by apply Hres|].
      unfold pages, partial_pages in Hin. apply elem_of_lookup_imap in Hin as (k&p&->&_). by exists k.
    + rewrite (mbind_ok _ _ _ _ _ H2). eexists _, r2. split; [reflexivity|by etrans].
  - apply windows_of_spec; [unfold RLM_STITCH_WINDOW|]; lia.
Qed.
End tree.

(** * A small world

    Identifiers are numbers, pages an association list; every file has 64
    chunks, every search as many hits as it may have, and every model the same
    answer. *)
#[local] Instance toy_crates : Crates := {
  Uuid := nat;
  uuid_nil := 0;
  uuid_str := pretty;
  PageAddress := nat * string;
  Scratch := pair;
  as_scratch := Some;
  to_path := λ addr, pretty (fst addr) +:+ "/" +:+ snd addr;
}.

Definition toy_world : Type := list (nat * string * string).

Definition toy_rows (lo hi : Z) : list ChunkRow :=
  (λ i, mkChunkRow (Z.of_nat i) 1 9 "text") <$> filter (λ i, lo ≤ Z.of_nat i ≤ hi)%Z (seq 0 64).

Fixpoint toy_get (addr : nat * string) (w : toy_world) : option string :=
  match w with [] => None | (a, t) :: w => if bool_decide (a = addr) then Some t else toy_get addr w end.

#[local] Instance toy_services : Services toy_world := {
  get_chunks_in_index_range := λ _ lo hi _, inr (toy_rows lo hi);
  grep_search_chunks := λ _ _ _ _, inr [];
  semantic_search := λ _ k _ _, inr (repeat (mkSearchRow "a.rs" 0 1 9 "text") (Z.to_nat k));
  file_chunk_summary := λ _ _, inr (64%Z, None, None);
  choose_strategy_msm := λ env q k _ _, (choose_strategy env None k q, "cold_start");
  resolve_agent_url := λ name _, inr name;
  send_task := λ _ _ _ w, (inr ["an answer"], w);
  store_size := λ _ w, (Z.of_nat (length w), 0%Z);
  resolve_path_prefix := λ _ _ w, fst <$> w;
  store_get := λ _ addr w, toy_get addr w;
  store_put := λ _ addr t w, (addr, t) :: w;
  page_tokens := est_tokens;
  drop_tree := λ _ _, [];
  accept := λ w, (inr 1, w);
  deliver := λ w, (true, w);
  mark_completed := λ _ w, (inr (), w);
  persist_trajectory := λ _ _ _ _ _ w, w;
  default_max_depth := 4;
  default_max_budget := 64;
  mcp_host := EmptyString;
  mcp_port := 8080%Z;
  parse_f32 := λ _, None;
  json_result := final_answer;
}.

Definition toy_run : Run toy_world := mkRun [] [].

Lemma toy_limit : semantic_limit.
Proof. intros q k p w rows [= <-]. rewrite repeat_length. lia. Qed.

Lemma NoDup_all_equal {A} (a : A) l : NoDup l → (∀ x, x ∈ l → x = a) → length l ≤ 1.
Proof.
  intros Hnd Ha. destruct Hnd as [|x l Hx Hnd]; [cbn; lia|]. destruct l as [|y l]; [done|]. exfalso. apply Hx.
  rewrite (Ha x), (Ha y) by (rewrite !elem_of_cons; auto). by left.
Qed.

Lemma toy_rows_ok : chunk_rows_ok.
Proof.
  intros path lo hi w rows [= <-]. unfold toy_rows. split.
  - intros ->. rewrite length_fmap. apply (NoDup_all_equal (Z.to_nat hi)).
    + apply NoDup_filter, NoDup_seq.
    + intros i Hi. apply list_elem_of_filter in Hi as [? _]. lia.
  - apply Forall_fmap, Forall_forall. intros i Hi. apply list_elem_of_filter in Hi as [_ Hi%elem_of_seq].
    cbn. unfold i32_min, i32_max. lia.
Qed.

Lemma toy_cold : cold_start.
Proof. intros env q k root w Henv. by destruct env. Qed.

Lemma toy_store : store_laws.
Proof.
  split_and!.
  - intros root addr t w. cbn. by rewrite bool_decide_true.
  - intros root addr addr' t w Hne. cbn. by rewrite bool_decide_false.
  - by intros ???? [= -> ->].
Qed.

Definition toy_frame (levels budget : nat) : RlmFrame :=
  new_root "self" (VObject [("kind", VString "file"); ("path", VString "a.rs")]) "why" "model" None 64 4 None false (S levels) budget 7.

Definition toy_snippet (i : Z) : Snippet := chunk_snippet "a.rs" (mkChunkRow i 1 9 "text").

(** Any frame, and the default request, in this world *)
Lemma recursion_bounded_witness :
  ∃ l, calls (snd (send_task_rlm 5 (toy_frame 3 64) 7 toy_run)) = [] ++ l ∧ peer_calls l ≤ 64.
Proof.
  destruct (proj2 (recursion_bounded toy_limit) (toy_frame 3 64) 7 toy_run) as (l&Hl&_&Hp&_).
  exists l. split; [exact Hl|exact Hp].
Defined.

(** A node with one level, two snippets and a budget of five *)
Lemma last_level_lost_witness :
  ∃ frames, length frames = 2 ∧ Forall (λ c, is_peer_call c = true) frames.
Proof.
  destruct (last_level_lost 0 (EnvFile "a.rs") (toy_frame 1 5) 7 (Chunk, "hint") [toy_snippet 0; toy_snippet 1] [] toy_run)
    as (frames&_&Hlen&Hall&_); [cbn; lia|reflexivity|reflexivity|cbn; lia|].
  exists frames. split; [exact Hlen|exact Hall].
Defined.

(** Two snippets on a budget of one *)
Lemma leaves_ignore_budget_witness :
  ∃ leaves : list Call, 1 < length leaves.
Proof.
  destruct (leaves_ignore_budget (send_task_rlm 0) (EnvFile "a.rs") (toy_frame 1 1) 7 (Chunk, "hint")
    [toy_snippet 0; toy_snippet 1] [] toy_run) as (leaves&rest&_&_&Hlen); [cbn; lia|].
  exists leaves. exact Hlen.
Defined.

Lemma snippet_environment_roundtrip_witness :
  env_from_frame (snippet_environment (chunk_snippet "c:/a.rs" (mkChunkRow 5 1 9 "text"))) (toy_frame 1 1) =
  Ok (EnvFileRegion "c:/a.rs" 5 5).
Proof. apply (snippet_environment_roundtrip "c:/a.rs" (mkChunkRow 5 1 9 "text")). cbv. split; discriminate. Defined.

Lemma default_file_run_unread_witness :
  tool_a2a_pattern_recursive (Services0 := retold (λ path _, "secret of " +:+ path))
    (send_task_rlm (Services0 := retold (λ path _, "secret of " +:+ path)) 3) (plain_request "why" "a.rs" "model") toy_run =
  tool_a2a_pattern_recursive (send_task_rlm 3) (plain_request "why" "a.rs" "model") toy_run.
Proof. exact (proj2 (default_file_run_unread toy_rows_ok toy_cold eq_refl eq_refl 3 "why" "a.rs" "model" toy_run) _). Defined.

(** Five partials in two windows *)
Lemma stitch_folds_partials_witness :
  Forall (λ w : list string, 1 ≤ length w ≤ 4) (stitch_windows (shown <$> partial_pages 7 8 0 ["a"; "b"; "c"; "d"; "e"])).
Proof.
  destruct (stitch_folds_partials toy_store (λ p, p) 7 8 ["a"; "b"; "c"; "d"; "e"] "why" 1 [] toy_run) as (_&_&Hw); [done|].
  exact Hw.
Defined.

(** The hard cap on the calls of a tree is 256: a corpus whose search gives 64 hits
    makes 4,225 calls on that budget, 64 of them recursive. *)
Example tree_over_the_cap :
  let params := mkParams "why" (VObject [("kind", VString "corpus")]) "model" None (Some 64%Z) None None None (Some 3) (Some 256) in
  let l := calls (snd (tool_a2a_pattern_recursive (send_task_rlm 3) params toy_run)) in
  (peer_calls l, model_calls l) = (64, 4161).
Proof. vm_compute. reflexivity. Qed.
