(* ===== verification/VulnMatch.v ===== *)
(** Matching dependencies against advisories: versions, ranges and OSV
    documents ([src/src/code_analysis/vuln_match.rs]), their import
    ([src/src/cli/import_advisories.rs]) and the match of an inventory
    ([tool_cve_supply_chain.rs]). *)

From Stdlib Require Import Ascii ZArith.
From stdpp Require Import base numbers strings list.
From S2P Require Import Prelude Text Numbers BTree Splitting DataTable.

#[local] Open Scope string_scope.
#[local] Open Scope list_scope.

(** * Versions *)

Record SemVer := mkSemVer { major : Z; minor : Z; patch : Z; pre : option string }.

(** [trim_start_matches(['v', 'V'])] *)
Fixpoint strip_v (s : string) : string :=
  match s with
  | String c s' => if bool_decide (c = "v"%char ∨ c = "V"%char) then strip_v s' else s
  | EmptyString => s
  end.

(** A component after a dot: 0 if it is missing or not a number. *)
Definition version_component (rest : option string) : Z := default 0%Z (rest ≫= λ r, parse_u64 (before "." r)).

Definition parse_version (s : string) : option SemVer :=
  let s := before "+" (strip_v (trim s)) in
  let '(core, pre) := match split_first "-" s with Some (c, p) => (c, Some p) | None => (s, None) end in
  major ← parse_u64 (before "." core);
  let rest1 := snd <$> split_first "." core in
  let rest2 := rest1 ≫= λ r, snd <$> split_first "." r in
  Some (mkSemVer major (version_component rest1) (version_component rest2) pre).

(** The comparison of pre-releases: none is the greatest. *)
Definition pre_cmp (a b : option string) : comparison :=
  match a, b with
  | None, None => Eq
  | None, Some _ => Gt
  | Some _, None => Lt
  | Some x, Some y => ord_cmp x y
  end.

Definition cmp_precedence (a b : SemVer) : comparison :=
  match ord_cmp (major a, minor a, patch a) (major b, minor b, patch b) with
  | Eq => pre_cmp (pre a) (pre b)
  | c => c
  end.

(** * Ranges *)

Record VulnRange := mkRange { introduced : option string; fixed : option string; last_affected : option string }.

Definition range_default : VulnRange := mkRange None None None.

Definition contains (r : VulnRange) (version : SemVer) : bool :=
  match introduced r ≫= parse_version with
  | Some intro => negb (bool_decide (cmp_precedence version intro = Lt))
  | None => true
  end &&
  match fixed r ≫= parse_version with
  | Some fixed => bool_decide (cmp_precedence version fixed = Lt)
  | None => true
  end &&
  match last_affected r ≫= parse_version with
  | Some last => negb (bool_decide (cmp_precedence version last = Gt))
  | None => true
  end.

Record Advisory := mkAdvisory {
  id : string;
  ecosystem : string;
  package : string;
  ranges : list VulnRange;
  severity : option string;
  summary : option string;
}.

Definition affects (a : Advisory) (version : SemVer) : bool := existsb (λ r, contains r version) (ranges a).

(** * OSV documents *)

(** [chars().take(n)]: cut before the byte that begins character [n]; the bytes
    of the form 10xxxxxx continue a character. *)
Fixpoint take_chars (n : nat) (s : string) : string :=
  match s with
  | EmptyString => EmptyString
  | String c s' =>
      if bool_decide (128 ≤ N_of_ascii c < 192)%N then String c (take_chars n s')
      else match n with O => EmptyString | S n' => String c (take_chars n' s') end
  end.

(** One event, over the finished ranges and the current one *)
Definition add_event (st : list VulnRange * VulnRange) (ev : Value) : list VulnRange * VulnRange :=
  let '(done, cur) := st in
  let '(done, cur) :=
    match vget ev "introduced" ≫= as_string with
    | Some i =>
        let '(done, cur) :=
          if bool_decide (is_Some (introduced cur) ∨ is_Some (fixed cur)) then (done ++ [cur], range_default) else (done, cur) in
        (done, mkRange (Some i) (fixed cur) (last_affected cur))
    | None => (done, cur)
    end in
  let cur := match vget ev "fixed" ≫= as_string with
             | Some f => mkRange (introduced cur) (Some f) (last_affected cur) | None => cur end in
  let cur := match vget ev "last_affected" ≫= as_string with
             | Some l => mkRange (introduced cur) (fixed cur) (Some l) | None => cur end in
  (done, cur).

#[global] Instance range_eq_dec : EqDecision VulnRange.
Proof. solve_decision. Defined.

(** The ranges of one entry of [ranges], after those before it *)
Definition add_range (done : list VulnRange) (r : Value) : list VulnRange :=
  let '(done, cur) :=
    match vget r "events" ≫= as_array with
    | Some events => foldl add_event (done, range_default) events
    | None => (done, range_default)
    end in
  if bool_decide (cur ≠ range_default) then done ++ [cur] else done.

Definition str_field (v : option Value) (k : string) : string :=
  default EmptyString (v ≫= λ v, vget v k ≫= as_string).

Definition parse_affected (id : string) (severity summary : option string) (aff : Value) : option Advisory :=
  let package := str_field (vget aff "package") "name" in
  if bool_decide (package = EmptyString) then None
  else
    let ranges := foldl add_range [] (default [] (vget aff "ranges" ≫= as_array)) in
    if bool_decide (ranges = []) then None
    else Some (mkAdvisory id (str_field (vget aff "package") "ecosystem") package ranges severity summary).

Definition parse_osv (doc : Value) : list Advisory :=
  let id := str_field (Some doc) "id" in
  if bool_decide (id = EmptyString) then []
  else
    let summary :=
      take_chars 300 <$> (match vget doc "summary" with Some v => Some v | None => vget doc "details" end ≫= as_string) in
    let severity := vget doc "database_specific" ≫= λ d, vget d "severity" ≫= as_string in
    omap (parse_affected id severity summary) (default [] (vget doc "affected" ≫= as_array)).

(** * Import *)

Definition extract_advisories (doc : Value) : list Advisory :=
  match as_array doc with
  | Some arr => concat (map parse_osv arr)
  | None =>
      match vget doc "vulns" ≫= as_array with
      | Some vulns => concat (map parse_osv vulns)
      | None => parse_osv doc
      end
  end.

(** A row of the advisory table: one range of an advisory *)
Record VulnAdvisoryRow := mkRow { row_id : string; row_ecosystem : string; row_package : string; row_range : VulnRange }.

Definition advisory_rows (docs : list Value) : list VulnAdvisoryRow :=
  concat (map (λ a, map (mkRow (id a) (ecosystem a) (package a)) (ranges a)) (concat (map extract_advisories docs))).

(** * Matching an inventory *)

Record Dependency := mkDep { manifest : string; dep_ecosystem : string; dep_name : string; dep_version : string }.

(** A line of [requirements.txt] *)
Definition requirement (path line : string) : option Dependency :=
  let line := trim (before "#" line) in
  if bool_decide (line = EmptyString) then None
  else
    let '(name, ver) :=
      match split_str "==" line with
      | Some (n, v) => (trim n, trim v)
      | None => match split_str ">=" line with Some (n, v) => (trim n, trim v) | None => (line, EmptyString) end
      end in
    if bool_decide (name = EmptyString) then None else Some (mkDep path "PyPI" name ver).

Definition requirements (path content : string) : list Dependency := omap (requirement path) (lines content).

(** The rows that report a dependency *)
Definition dep_matches (rows : list VulnAdvisoryRow) (d : Dependency) : list VulnAdvisoryRow :=
  match parse_version (dep_version d) with
  | Some version =>
      List.filter (λ r, bool_decide (row_ecosystem r = dep_ecosystem d ∧ row_package r = dep_name d) && contains (row_range r) version)
        rows
  | None => []
  end.

Definition vulnerabilities (rows : list VulnAdvisoryRow) (deps : list Dependency) : list (Dependency * VulnAdvisoryRow) :=
  concat (map (λ d, map (pair d) (dep_matches rows d)) deps).

(** [package-lock.json]: the path of a package names it after the last
    [node_modules/]. *)
Fixpoint last_part (fuel : nat) (sep s : string) : string :=
  match fuel with
  | O => s
  | S fuel => match split_str sep s with Some (_, q) => last_part fuel sep q | None => s end
  end.

Definition npm_dependencies (path : string) (lock : Value) : list Dependency :=
  match vget lock "packages" with
  | Some (VObject entries) =>
      omap (λ kv, if bool_decide (fst kv = EmptyString) then None
                  else Some (mkDep path "npm" (last_part (String.length (fst kv)) "node_modules/" (fst kv))
                               (str_field (Some (snd kv)) "version"))) entries
  | _ => []
  end.

(** The tool lists dependencies, and manifests it cannot read ([None]), and
    matches the first [limit] entries of the list. *)
Definition tool_matches (limit : option Z) (rows : list VulnAdvisoryRow) (entries : list (option Dependency)) :
    list (Dependency * VulnAdvisoryRow) :=
  vulnerabilities rows (omap (λ e, e) (take (Z.to_nat (Z.max 0 (default 200%Z limit))) entries)).

(** * Precedence is a total order *)

Lemma pre_cmp_laws :
  (∀ x y, pre_cmp x y = Eq ↔ x = y) ∧ (∀ x y, pre_cmp y x = CompOpp (pre_cmp x y)) ∧
  (∀ x y z, pre_cmp x y = Lt → pre_cmp y z = Lt → pre_cmp x z = Lt).
Proof.
  split_and!.
  - intros [x|] [y|]; cbn [pre_cmp]; rewrite ?ord_eq; split; congruence.
  - intros [x|] [y|]; cbn [pre_cmp]; auto using ord_opp.
  - intros [x|] [y|] [z|]; cbn [pre_cmp]; try done. apply ord_trans.
Qed.

#[local] Instance pre_ord : RustOrd (option string) := {|
  ord_cmp := pre_cmp;
  ord_eq := proj1 pre_cmp_laws;
  ord_opp := proj1 (proj2 pre_cmp_laws);
  ord_trans := proj2 (proj2 pre_cmp_laws);
|}.

Definition version_key (v : SemVer) : Z * Z * Z * option string := (major v, minor v, patch v, pre v).

Lemma version_key_inj v w : version_key v = version_key w → v = w.
Proof. destruct v, w. by intros [= -> -> -> ->]. Qed.

#[export] Instance version_ord : RustOrd SemVer := newtype_ord version_key version_key_inj.

Lemma cmp_precedence_ord v w : cmp_precedence v w = ord_cmp v w.
Proof. reflexivity. Qed.

Definition v_le (v w : SemVer) : Prop := ord_cmp v w ≠ Gt.
Definition v_lt (v w : SemVer) : Prop := ord_cmp v w = Lt.

#[global] Instance v_le_dec v w : Decision (v_le v w).
Proof. unfold v_le. apply _. Defined.
#[global] Instance v_lt_dec v w : Decision (v_lt v w).
Proof. unfold v_lt. apply _. Defined.

Lemma not_v_lt v w : ¬ v_lt v w ↔ v_le w v.
Proof. unfold v_lt, v_le. rewrite (ord_opp v w). destruct (ord_cmp v w); cbn; naive_solver. Qed.

Lemma not_v_le v w : ¬ v_le v w ↔ v_lt w v.
Proof. unfold v_lt, v_le. rewrite (ord_opp v w). destruct (ord_cmp v w); cbn; naive_solver. Qed.

Lemma v_lt_le v w : v_lt v w → v_le v w.
Proof. unfold v_lt, v_le. by intros ->. Qed.

Lemma v_le_trans u v w : v_le u v → v_le v w → v_le u w.
Proof.
  unfold v_le. intros H1 H2 H3%ord_gt. destruct (ord_cmp u v) eqn:E1; [|..|done].
  - apply ord_eq in E1 as ->. apply H2. rewrite (ord_opp w v), H3. done.
  - pose proof (ord_trans _ _ _ H3 E1) as Hwv. apply H2. by rewrite (ord_opp w v), Hwv.
Qed.

Lemma v_lt_le_trans u v w : v_lt u v → v_le v w → v_lt u w.
Proof.
  intros H1 H2. destruct (decide (v_lt u w)) as [|Hn]; [done|]. apply not_v_lt in Hn. exfalso.
  pose proof (v_le_trans _ _ _ H2 Hn) as Hvu. apply not_v_lt in Hvu. by apply Hvu.
Qed.

(** * The meaning of events

    OSV's evaluation: in order, an introduction at or below the version makes it
    affected, a fix at or below it or a last affected version below it makes it
    unaffected. *)
Inductive OsvEvent := Introduced (s : string) | Fixed (s : string) | LastAffected (s : string).

Definition at_or_below (s : string) (v : SemVer) : Prop := match parse_version s with Some w => v_le w v | None => False end.
Definition version_below (s : string) (v : SemVer) : Prop := match parse_version s with Some w => v_lt w v | None => False end.

#[global] Instance at_or_below_dec s v : Decision (at_or_below s v).
Proof. unfold at_or_below. destruct (parse_version s); apply _. Defined.
#[global] Instance version_below_dec s v : Decision (version_below s v).
Proof. unfold version_below. destruct (parse_version s); apply _. Defined.

Definition osv_step (v : SemVer) (affected : bool) (e : OsvEvent) : bool :=
  match e with
  | Introduced s => if decide (at_or_below s v) then true else affected
  | Fixed s => if decide (at_or_below s v) then false else affected
  | LastAffected s => if decide (version_below s v) then false else affected
  end.

Lemma step_introduced v b s w : parse_version s = Some w →
  osv_step v b (Introduced s) = if decide (v_le w v) then true else b.
Proof. intros Hs. cbn [osv_step]. apply decide_ext. unfold at_or_below. by rewrite Hs. Qed.
Lemma step_fixed v b s w : parse_version s = Some w → osv_step v b (Fixed s) = if decide (v_le w v) then false else b.
Proof. intros Hs. cbn [osv_step]. apply decide_ext. unfold at_or_below. by rewrite Hs. Qed.
Lemma step_last v b s w : parse_version s = Some w → osv_step v b (LastAffected s) = if decide (v_lt w v) then false else b.
Proof. intros Hs. cbn [osv_step]. apply decide_ext. unfold version_below. by rewrite Hs. Qed.

Definition osv_affected (v : SemVer) (evs : list OsvEvent) : bool := foldl (osv_step v) false evs.

(** Events in ascending order, each introduction but the last closed before the
    next: by a fix at or below the next introduction, or a last affected version
    below it *)
Inductive closed_from : (SemVer → Prop) → list OsvEvent → Prop :=
| closed_nil P : closed_from P []
| closed_intro (P : SemVer → Prop) s i evs : parse_version s = Some i → P i → open_from i evs → closed_from P (Introduced s :: evs)
with open_from : SemVer → list OsvEvent → Prop :=
| open_nil i : open_from i []
| open_fixed i s f evs : parse_version s = Some f → v_le i f → closed_from (v_le f) evs → open_from i (Fixed s :: evs)
| open_last i s l evs : parse_version s = Some l → v_le i l → closed_from (v_lt l) evs → open_from i (LastAffected s :: evs).

Scheme closed_from_mut := Minimality for closed_from Sort Prop
with open_from_mut := Minimality for open_from Sort Prop.
Combined Scheme events_ind from closed_from_mut, open_from_mut.

Definition well_ordered (evs : list OsvEvent) : Prop := closed_from (λ _, True) evs.

Definition event_value (e : OsvEvent) : Value :=
  match e with
  | Introduced s => VObject [("introduced", VString s)]
  | Fixed s => VObject [("fixed", VString s)]
  | LastAffected s => VObject [("last_affected", VString s)]
  end.

Definition range_value (evs : list OsvEvent) : Value := VObject [("events", VArray (map event_value evs))].

(** What [add_range] makes of events, the current range included *)
Definition collect_events (cur : VulnRange) (evs : list OsvEvent) : list VulnRange :=
  let '(done, cur) := foldl add_event ([], cur) (map event_value evs) in
  if bool_decide (cur ≠ range_default) then done ++ [cur] else done.

Lemma add_introduced done cur s : add_event (done, cur) (event_value (Introduced s)) =
  if bool_decide (is_Some (introduced cur) ∨ is_Some (fixed cur)) then (done ++ [cur], mkRange (Some s) None None)
  else (done, mkRange (Some s) (fixed cur) (last_affected cur)).
Proof.
  unfold add_event, event_value.
  change (vget (VObject [("introduced", VString s)]) "introduced" ≫= as_string) with (Some s).
  change (vget (VObject [("introduced", VString s)]) "fixed" ≫= as_string) with (@None string).
  change (vget (VObject [("introduced", VString s)]) "last_affected" ≫= as_string) with (@None string).
  by case_bool_decide.
Qed.

Lemma add_fixed done cur s : add_event (done, cur) (event_value (Fixed s)) =
  (done, mkRange (introduced cur) (Some s) (last_affected cur)).
Proof. reflexivity. Qed.

Lemma add_last done cur s : add_event (done, cur) (event_value (LastAffected s)) =
  (done, mkRange (introduced cur) (fixed cur) (Some s)).
Proof. reflexivity. Qed.

Lemma add_event_done done cur e : add_event (done, cur) (event_value e) =
  (done ++ fst (add_event ([], cur) (event_value e)), snd (add_event ([], cur) (event_value e))).
Proof.
  destruct e as [s|s|s]; rewrite ?add_introduced, ?add_fixed, ?add_last.
  - case_bool_decide; cbn [fst snd app]; [done|by rewrite app_nil_r].
  - cbn [fst snd]. by rewrite app_nil_r.
  - cbn [fst snd]. by rewrite app_nil_r.
Qed.

Lemma events_done evs : ∀ done cur, foldl add_event (done, cur) (map event_value evs) =
  (done ++ fst (foldl add_event ([], cur) (map event_value evs)), snd (foldl add_event ([], cur) (map event_value evs))).
Proof.
  induction evs as [|e evs IH]; intros done cur; [by cbn; rewrite app_nil_r|]. cbn [map foldl].
  rewrite add_event_done. destruct (add_event ([], cur) (event_value e)) as [done' cur']. cbn [fst snd].
  rewrite IH, (IH done'). cbn [fst snd]. by rewrite app_assoc.
Qed.

Lemma collect_events_cons cur e evs : collect_events cur (e :: evs) =
  fst (add_event ([], cur) (event_value e)) ++ collect_events (snd (add_event ([], cur) (event_value e))) evs.
Proof.
  unfold collect_events. cbn [map foldl]. destruct (add_event ([], cur) (event_value e)) as [done cur']. cbn [fst snd].
  rewrite events_done. destruct (foldl add_event ([], cur') (map event_value evs)) as [done' cur'']. cbn [fst snd].
  case_bool_decide; by rewrite ?app_assoc.
Qed.

Lemma add_range_events done evs : add_range done (range_value evs) = done ++ collect_events range_default evs.
Proof.
  unfold add_range, collect_events, range_value. cbn [vget map_get]. rewrite decide_True by done. cbn [mbind option_bind as_array].
  rewrite events_done. destruct (foldl add_event ([], range_default) (map event_value evs)) as [done' cur]. cbn [fst snd].
  case_bool_decide; by rewrite ?app_assoc.
Qed.

(** Events above the version change nothing. *)
Lemma later_events_silent v :
  (∀ P evs, closed_from P evs → (∀ j, P j → ¬ v_le j v) → ∀ b, foldl (osv_step v) b evs = b) ∧
  (∀ i evs, open_from i evs → ¬ v_le i v → ∀ b, foldl (osv_step v) b evs = b).
Proof.
  apply events_ind.
  - done.
  - intros P s i evs Hs HP _ IH Hlater b. cbn [foldl]. rewrite (step_introduced _ _ _ _ Hs).
    rewrite decide_False; [by apply IH, Hlater|]. by apply Hlater.
  - done.
  - intros i s f evs Hs Hif _ IH Hi b. cbn [foldl]. rewrite (step_fixed _ _ _ _ Hs), decide_False.
    + apply IH. intros j Hj Hjv. apply Hi. eauto using v_le_trans.
    + intros Hfv. apply Hi. eauto using v_le_trans.
  - intros i s l evs Hs Hil _ IH Hi b. cbn [foldl]. rewrite (step_last _ _ _ _ Hs), decide_False.
    + apply IH. intros j Hj Hjv. apply Hi. eauto using v_le_trans, v_lt_le.
    + intros Hlv. apply Hi. eauto using v_le_trans, v_lt_le.
Qed.

Lemma contains_open s i v : parse_version s = Some i → contains (mkRange (Some s) None None) v = bool_decide (v_le i v).
Proof.
  intros Hs. unfold contains. cbn [introduced fixed last_affected mbind option_bind]. rewrite Hs. cbn [mbind option_bind].
  rewrite !andb_true_r, <- bool_decide_not. apply bool_decide_ext. rewrite cmp_precedence_ord. apply not_v_lt.
Qed.

Lemma contains_fixed s i t f v : parse_version s = Some i → parse_version t = Some f →
  contains (mkRange (Some s) (Some t) None) v = bool_decide (v_le i v) && negb (bool_decide (v_le f v)).
Proof.
  intros Hs Ht. rewrite <- (contains_open s) by done. unfold contains. cbn [introduced fixed last_affected mbind option_bind].
  rewrite Hs, Ht. cbn [mbind option_bind]. rewrite !andb_true_r. f_equal. rewrite <- bool_decide_not. apply bool_decide_ext.
  rewrite cmp_precedence_ord. symmetry. apply not_v_le.
Qed.

Lemma contains_last s i t l v : parse_version s = Some i → parse_version t = Some l →
  contains (mkRange (Some s) None (Some t)) v = bool_decide (v_le i v) && negb (bool_decide (v_lt l v)).
Proof.
  intros Hs Ht. rewrite <- (contains_open s) by done. unfold contains. cbn [introduced fixed last_affected mbind option_bind].
  rewrite Hs, Ht. cbn [mbind option_bind]. rewrite !andb_true_r. f_equal. f_equal. apply bool_decide_ext.
  rewrite cmp_precedence_ord. unfold v_lt. rewrite (ord_opp v l). destruct (ord_cmp v l); cbn; naive_solver.
Qed.

Lemma collect_correct v :
  (∀ P evs, closed_from P evs → ∀ R, is_Some (introduced R) → (∀ j, P j → v_le j v → contains R v = false) →
     existsb (λ r, contains r v) (collect_events R evs) = foldl (osv_step v) (contains R v) evs) ∧
  (∀ i evs, open_from i evs → ∀ s, parse_version s = Some i →
     existsb (λ r, contains r v) (collect_events (mkRange (Some s) None None) evs) = foldl (osv_step v) (bool_decide (v_le i v)) evs).
Proof.
  apply events_ind.
  - intros P R [s Hs] _. unfold collect_events. cbn [map foldl]. rewrite bool_decide_true by (intros ->; discriminate).
    cbn. by rewrite orb_false_r.
  - intros P s i evs Hs HP Hopen IH R HR Hlater. rewrite collect_events_cons, add_introduced.
    rewrite bool_decide_true by auto. cbn [fst snd app existsb]. rewrite (IH s Hs). cbn [foldl]. rewrite (step_introduced _ _ _ _ Hs).
    destruct (decide (v_le i v)) as [Hi|Hi].
    + rewrite (Hlater i HP Hi), bool_decide_true by done. done.
    + rewrite bool_decide_false by done. rewrite !(proj2 (later_events_silent v) i evs Hopen Hi). by rewrite orb_false_r.
  - intros i s Hs. unfold collect_events. cbn [map foldl]. rewrite bool_decide_true by discriminate.
    cbn [existsb app]. by rewrite orb_false_r, (contains_open s i).
  - intros i t f evs Ht Hif _ IH s Hs. rewrite collect_events_cons, add_fixed. cbn [fst snd app introduced fixed last_affected].
    rewrite IH; [|by exists s|].
    + cbn [foldl]. rewrite (step_fixed _ _ _ _ Ht). f_equal. rewrite (contains_fixed s i t f) by done.
      destruct (decide (v_le f v)); [by rewrite (bool_decide_true (v_le f v)), andb_false_r|].
      by rewrite (bool_decide_false (v_le f v)), andb_true_r.
    + intros j Hfj Hjv. rewrite (contains_fixed s i t f) by done. rewrite (bool_decide_true (v_le f v)) by eauto using v_le_trans.
      apply andb_false_r.
  - intros i t l evs Ht Hil _ IH s Hs. rewrite collect_events_cons, add_last. cbn [fst snd app introduced fixed last_affected].
    rewrite IH; [|by exists s|].
    + cbn [foldl]. rewrite (step_last _ _ _ _ Ht). f_equal. rewrite (contains_last s i t l) by done.
      destruct (decide (v_lt l v)); [by rewrite (bool_decide_true (v_lt l v)), andb_false_r|].
      by rewrite (bool_decide_false (v_lt l v)), andb_true_r.
    + intros j Hlj Hjv. rewrite (contains_last s i t l) by done. rewrite (bool_decide_true (v_lt l v)) by eauto using v_lt_le_trans.
      apply andb_false_r.
Qed.

Lemma well_ordered_correct v evs : well_ordered evs → existsb (λ r, contains r v) (collect_events range_default evs) = osv_affected v evs.
Proof.
  intros Hev. unfold osv_affected. inversion Hev as [|P s i rest Hs _ Hopen]; subst; [done|].
  rewrite collect_events_cons, add_introduced. rewrite bool_decide_false by (intros [[? [=]]|[? [=]]]).
  cbn [fst snd app fixed last_affected range_default].
  rewrite (proj2 (collect_correct v) i rest Hopen s Hs). cbn [foldl]. rewrite (step_introduced _ _ _ _ Hs). f_equal.
Qed.

(** * Documents *)

Record OsvDoc := mkDoc { o_id : string; o_ecosystem : string; o_package : string; o_ranges : list (list OsvEvent) }.

Definition affected_value (d : OsvDoc) : Value :=
  VObject [("package", VObject [("ecosystem", VString (o_ecosystem d)); ("name", VString (o_package d))]);
           ("ranges", VArray (map range_value (o_ranges d)))].

Definition doc_value (d : OsvDoc) : Value := VObject [("id", VString (o_id d)); ("affected", VArray [affected_value d])].

Lemma add_ranges_events rs : ∀ done, foldl add_range done (map range_value rs) = done ++ concat (map (collect_events range_default) rs).
Proof.
  induction rs as [|evs rs IH]; intros done; cbn [map foldl concat]; [by rewrite app_nil_r|].
  by rewrite add_range_events, IH, app_assoc.
Qed.

Lemma parse_doc d : o_id d ≠ EmptyString → o_package d ≠ EmptyString →
  parse_osv (doc_value d) =
    let rs := concat (map (collect_events range_default) (o_ranges d)) in
    if bool_decide (rs = []) then [] else [mkAdvisory (o_id d) (o_ecosystem d) (o_package d) rs None None].
Proof.
  intros Hid Hpkg. unfold parse_osv. cbv zeta. change (str_field (Some (doc_value d)) "id") with (o_id d).
  rewrite (bool_decide_false (o_id d = EmptyString)) by done.
  change (vget (doc_value d) "affected" ≫= as_array) with (Some [affected_value d]).
  change (vget (doc_value d) "database_specific") with (@None Value).
  change (vget (doc_value d) "summary") with (@None Value). change (vget (doc_value d) "details") with (@None Value).
  change (default [] (Some [affected_value d])) with [affected_value d]. cbn [omap list_omap]. unfold parse_affected. cbv zeta.
  change (str_field (vget (affected_value d) "package") "name") with (o_package d).
  rewrite (bool_decide_false (o_package d = EmptyString)) by done.
  change (str_field (vget (affected_value d) "package") "ecosystem") with (o_ecosystem d).
  change (vget (affected_value d) "ranges" ≫= as_array) with (Some (map range_value (o_ranges d))).
  change (default [] (Some (map range_value (o_ranges d)))) with (map range_value (o_ranges d)).
  rewrite add_ranges_events. cbn [app]. cbv zeta. case_bool_decide; done.
Qed.

Lemma elem_of_vulnerabilities rows deps d r : (d, r) ∈ vulnerabilities rows deps ↔
  d ∈ deps ∧ r ∈ rows ∧ row_ecosystem r = dep_ecosystem d ∧ row_package r = dep_name d ∧
  ∃ v, parse_version (dep_version d) = Some v ∧ contains (row_range r) v = true.
Proof.
  unfold vulnerabilities. rewrite list_elem_of_In, in_concat. split.
  - intros (l&Hl&Hin). apply in_map_iff in Hl as (d'&<-&Hd'). apply in_map_iff in Hin as (r'&[= -> ->]&Hr).
    unfold dep_matches in Hr. destruct (parse_version (dep_version d)) as [v|]; [|done].
    apply filter_In in Hr as [Hr [Heq%bool_decide_eq_true Hc]%andb_true_iff]. rewrite !list_elem_of_In. naive_solver.
  - rewrite !list_elem_of_In. intros (Hd&Hr&He&Hp&v&Hv&Hc). exists (map (pair d) (dep_matches rows d)).
    split; apply in_map_iff; [by exists d|]. exists r. split; [done|]. unfold dep_matches. rewrite Hv.
    apply filter_In. split; [done|]. by rewrite Hc, bool_decide_true.
Qed.

Lemma elem_of_advisory_rows docs r : r ∈ advisory_rows docs ↔
  ∃ a, a ∈ concat (map extract_advisories docs) ∧ ∃ rg, rg ∈ ranges a ∧ r = mkRow (id a) (ecosystem a) (package a) rg.
Proof.
  unfold advisory_rows. rewrite list_elem_of_In, in_concat. split.
  - intros (l&Hl&Hin). apply in_map_iff in Hl as (a&<-&Ha). apply in_map_iff in Hin as (rg&<-&Hrg).
    exists a. rewrite list_elem_of_In. split; [done|]. exists rg. by rewrite list_elem_of_In.
  - intros (a&Ha&rg&Hrg&->). rewrite list_elem_of_In in Ha. rewrite list_elem_of_In in Hrg.
    exists (map (mkRow (id a) (ecosystem a) (package a)) (ranges a)). split; [apply in_map_iff; by exists a|]. by apply in_map.
Qed.

Lemma elem_of_rows docs r : r ∈ advisory_rows (map doc_value docs) ↔
  ∃ d, d ∈ docs ∧ ∃ a, a ∈ parse_osv (doc_value d) ∧ ∃ rg, rg ∈ ranges a ∧ r = mkRow (id a) (ecosystem a) (package a) rg.
Proof.
  rewrite elem_of_advisory_rows, map_map.
  change (λ d, extract_advisories (doc_value d)) with (λ d, parse_osv (doc_value d)). split.
  - intros (a&Ha&Hr). rewrite list_elem_of_In, in_concat in Ha. destruct Ha as (l&Hl&Ha). apply in_map_iff in Hl as (d&<-&Hd).
    exists d. rewrite list_elem_of_In. split; [done|]. exists a. by rewrite list_elem_of_In.
  - intros (d&Hd&a&Ha&Hr). exists a. split; [|done]. apply list_elem_of_In, in_concat. exists (parse_osv (doc_value d)).
    apply list_elem_of_In in Hd. apply list_elem_of_In in Ha. split; [|done]. apply in_map_iff. by exists d.
Qed.

(** * Bounds that cannot be read *)

Lemma version_component_nonneg rest : (0 ≤ version_component rest)%Z.
Proof.
  unfold version_component. destruct rest as [r|]; [|done]. cbn [mbind option_bind].
  destruct (parse_u64 (before "." r)) as [z|] eqn:E; [|done]. by apply parse_u64_range in E as [? _].
Qed.

Lemma parse_version_nonneg s v : parse_version s = Some v → (0 ≤ major v ∧ 0 ≤ minor v ∧ 0 ≤ patch v)%Z.
Proof.
  unfold parse_version. destruct (split_first "-" _) as [[core p]|]; cbn [mbind option_bind].
  all: match goal with |- context [parse_u64 ?x] => destruct (parse_u64 x) as [z|] eqn:E; [|done] end.
  all: apply parse_u64_range in E; intros [= <-]; cbn [major minor patch]; split_and!; [lia|apply version_component_nonneg..].
Qed.

Lemma zero_below v : (0 ≤ major v)%Z → (0 ≤ minor v)%Z → (0 ≤ patch v)%Z → pre v = None → v_le (mkSemVer 0 0 0 None) v.
Proof.
  intros H1 H2 H3 Hp. unfold v_le. rewrite <- cmp_precedence_ord. unfold cmp_precedence. cbn [major minor patch pre].
  change (ord_cmp (0, 0, 0)%Z (major v, minor v, patch v)) with
    (match match Z.compare 0 (major v) with Eq => Z.compare 0 (minor v) | c => c end with Eq => Z.compare 0 (patch v) | c => c end).
  rewrite Hp. destruct (Z.compare_spec 0 (major v)), (Z.compare_spec 0 (minor v)), (Z.compare_spec 0 (patch v)); done || lia.
Qed.

(** A range over commits reports every release.  When a document has, next to
    its other ranges, one that is introduced at 0 and fixed at something that is
    not a version (the hash of a commit), every dependency on its package with a
    released version is reported, fixed versions included: a bound that cannot be
    read is no bound, and the type of a range is not looked at. *)
Theorem commit_range_reports_all docs deps dep v d h (Hd : d ∈ docs) (Hid : o_id d ≠ EmptyString) (Hpkg : o_package d ≠ EmptyString)
    (Hrange : [Introduced "0"; Fixed h] ∈ o_ranges d) (Hh : parse_version h = None)
    (Hdep : dep ∈ deps) (Heco : o_ecosystem d = dep_ecosystem dep) (Hname : o_package d = dep_name dep)
    (Hv : parse_version (dep_version dep) = Some v) (Hrelease : pre v = None) :
  ∃ r, (dep, r) ∈ vulnerabilities (advisory_rows (map doc_value docs)) deps ∧ row_id r = o_id d.
Proof.
  set (rg := mkRange (Some "0") (Some h) None).
  assert (Hrg : In rg (concat (map (collect_events range_default) (o_ranges d)))).
  { apply in_concat. exists (collect_events range_default [Introduced "0"; Fixed h]). split; [|by left].
    apply in_map. by apply list_elem_of_In. }
  exists (mkRow (o_id d) (o_ecosystem d) (o_package d) rg). split; [|done].
  apply elem_of_vulnerabilities. split_and!; try done.
  - apply elem_of_rows. exists d. split; [done|]. rewrite parse_doc by done. cbv zeta.
    rewrite bool_decide_false by (intros E; by rewrite E in Hrg). eexists. split; [by apply list_elem_of_singleton|].
    exists rg. split; [by apply list_elem_of_In|done].
  - exists v. split; [done|]. destruct (parse_version_nonneg _ _ Hv) as (?&?&?).
    unfold contains, rg. cbn [row_range introduced fixed last_affected mbind option_bind]. rewrite Hh.
    change (parse_version "0") with (Some (mkSemVer 0 0 0 None)). rewrite !andb_true_r, <- bool_decide_not.
    apply bool_decide_eq_true. rewrite cmp_precedence_ord. apply not_v_lt. by apply zero_below.
Qed.

(** A fixed version next to a range over commits *)
Lemma commit_range_reports_all_witness :
  let d := mkDoc "GHSA-2" "crates.io" "foo" [[Introduced "1.0.0"; Fixed "1.2.0"]; [Introduced "0"; Fixed "6cff6cf4f1"]] in
  ∃ r, (mkDep "Cargo.lock" "crates.io" "foo" "1.3.0", r) ∈
    vulnerabilities (advisory_rows (map doc_value [d])) [mkDep "Cargo.lock" "crates.io" "foo" "1.3.0"] ∧ row_id r = "GHSA-2".
Proof.
  intros d. apply (commit_range_reports_all [d] [mkDep "Cargo.lock" "crates.io" "foo" "1.3.0"] (mkDep "Cargo.lock" "crates.io" "foo" "1.3.0")
    (mkSemVer 1 3 0 None) d "6cff6cf4f1"); try done; try by left. right. by left.
Defined.

(** Pre-releases compare as strings: by SemVer 1.0.0-rc.9 is older than 1.0.0-rc.10,
    here it counts as fixed. *)
Example prereleases_as_strings :
  (λ v, contains (mkRange (Some "0.1.0") (Some "1.0.0-rc.10") None) v) <$> parse_version "1.0.0-rc.9" = Some false.
Proof. reflexivity. Qed.

(** A version with a pre-release of 0.0.0 lies below the introduction at 0. *)
Example zero_is_not_the_beginning :
  (λ v, contains (mkRange (Some "0") (Some "1.0.0") None) v) <$> parse_version "0.0.0-alpha" = Some false.
Proof. reflexivity. Qed.
