(* ===== verification/VulnSpec.v ===== *)
(** What the match of an inventory against OSV documents promises: versions and
    how they are written, precedence, which versions a list of events affects,
    and the documents that say so; and that the import and the match
    ([VulnMatch]) report exactly those dependencies. *)

From Stdlib Require Import Ascii ZArith.
From stdpp Require Import base numbers strings pretty list.
From S2P Require Import Prelude Text Numbers BTree Splitting DataTable VulnMatch.

#[local] Open Scope string_scope.
#[local] Open Scope list_scope.

(** * Versions *)

Record Version := mkVersion { v_major : N; v_minor : N; v_patch : N; v_pre : option string }.

(** [s] is before [t]: at the first byte where they differ, or because it ends. *)
Inductive bytes_before : string → string → Prop :=
| before_end c t : bytes_before EmptyString (String c t)
| before_byte c d s t : (N_of_ascii c < N_of_ascii d)%N → bytes_before (String c s) (String d t)
| before_next c s t : bytes_before s t → bytes_before (String c s) (String c t).

(** Precedence: by major, minor and patch version; a pre-release comes before its
    release, and two pre-releases of one release are in the order of their bytes
    (the comparison of identifiers is simplified to that). *)
Inductive precedes : Version → Version → Prop :=
| by_major v w : (v_major v < v_major w)%N → precedes v w
| by_minor v w : v_major v = v_major w → (v_minor v < v_minor w)%N → precedes v w
| by_patch v w : v_major v = v_major w → v_minor v = v_minor w → (v_patch v < v_patch w)%N → precedes v w
| by_release a b c p : precedes (mkVersion a b c (Some p)) (mkVersion a b c None)
| by_bytes a b c p q : bytes_before p q → precedes (mkVersion a b c (Some p)) (mkVersion a b c (Some q)).

(** The numbers of a version; a patch of 0, and a minor version of 0 before it,
    may be left out. *)
Inductive core_text : Version → string → Prop :=
| core_full v : core_text v (pretty (v_major v) +:+ "." +:+ pretty (v_minor v) +:+ "." +:+ pretty (v_patch v))
| core_two v : v_patch v = 0%N → core_text v (pretty (v_major v) +:+ "." +:+ pretty (v_minor v))
| core_one v : v_minor v = 0%N → v_patch v = 0%N → core_text v (pretty (v_major v)).

Definition pre_text (v : Version) : string := match v_pre v with Some p => "-" +:+ p | None => EmptyString end.

(** The bytes of a pre-release *)
Definition pre_byte (c : ascii) : bool := solid c && differs "+" c.

(** The numbers are 64-bit; and a pre-release of 0.0.0 does not occur: it comes
    before the version 0 that stands for the beginning. *)
Definition ordinary (v : Version) : Prop :=
  (v_major v ≤ 18446744073709551615 ∧ v_minor v ≤ 18446744073709551615 ∧ v_patch v ≤ 18446744073709551615)%N ∧
  (∀ p, v_pre v = Some p → all_bytes pre_byte p = true ∧ (v_major v ≠ 0 ∨ v_minor v ≠ 0 ∨ v_patch v ≠ 0)%N).

(** [s] is a text of [v]: it may begin with a [v] and end with build metadata. *)
Inductive written : string → Version → Prop :=
| is_written v lead core build :
    ordinary v → lead = EmptyString ∨ lead = "v" → core_text v core →
    build = EmptyString ∨ (∃ b, build = "+" +:+ b ∧ all_bytes solid b = true) →
    written (lead +:+ core +:+ pre_text v +:+ build) v.

(** * What a list of events affects *)

(** Where a range begins: at a version, or before all ([introduced] at 0). *)
Inductive Bound := Beginning | At (v : Version).
Inductive RangeEvent := IntroducedAt (b : Bound) | FixedAt (v : Version) | LastAffectedAt (v : Version).

Definition reached (b : Bound) (v : Version) : Prop := match b with Beginning => True | At w => w = v ∨ precedes w v end.

Definition closes (e : RangeEvent) (v : Version) : Prop :=
  match e with
  | IntroducedAt _ => False
  | FixedAt f => f = v ∨ precedes f v
  | LastAffectedAt l => precedes l v
  end.

(** [v] has reached an introduction that no later event closes. *)
Definition affected_by (v : Version) (evs : list RangeEvent) : Prop := ∃ before b after,
  evs = before ++ IntroducedAt b :: after ∧ reached b v ∧ ∀ e, e ∈ after → ¬ closes e v.

(** Introductions and ends alternate, in ascending order. *)
Inductive between : (Bound → Prop) → list RangeEvent → Prop :=
| between_end P : between P []
| between_introduced (P : Bound → Prop) b evs : P b → within b evs → between P (IntroducedAt b :: evs)
with within : Bound → list RangeEvent → Prop :=
| within_end b : within b []
| within_fixed b f evs : reached b f → between (λ c, ∃ w, c = At w ∧ (f = w ∨ precedes f w)) evs → within b (FixedAt f :: evs)
| within_last b l evs : reached b l → between (λ c, ∃ w, c = At w ∧ precedes l w) evs → within b (LastAffectedAt l :: evs).

Scheme between_mut := Minimality for between Sort Prop
with within_mut := Minimality for within Sort Prop.
Combined Scheme between_ind2 from between_mut, within_mut.

Definition in_order (evs : list RangeEvent) : Prop := between (λ _, True) evs.

(** * Documents

    Objects may have any other fields. *)

Record Affected := mkAffected { a_ecosystem : string; a_package : string; a_ranges : list (list RangeEvent) }.
Record AdvisoryDocument := mkDocument { d_id : string; d_affected : list Affected }.

Definition bound_text (s : string) (b : Bound) : Prop := match b with Beginning => s = "0" | At v => written s v end.

(** An event object has one of the three keys. *)
Inductive describes_event (x : Value) : RangeEvent → Prop :=
| describes_introduced s b : vget x "introduced" = Some (VString s) → vget x "fixed" = None → vget x "last_affected" = None →
    bound_text s b → describes_event x (IntroducedAt b)
| describes_fixed s v : vget x "introduced" = None → vget x "fixed" = Some (VString s) → vget x "last_affected" = None →
    written s v → describes_event x (FixedAt v)
| describes_last s v : vget x "introduced" = None → vget x "fixed" = None → vget x "last_affected" = Some (VString s) →
    written s v → describes_event x (LastAffectedAt v).

Definition describes_range (x : Value) (evs : list RangeEvent) : Prop :=
  ∃ xs, vget x "events" = Some (VArray xs) ∧ Forall2 describes_event xs evs.

Definition describes_affected (x : Value) (a : Affected) : Prop := ∃ p xs,
  vget x "package" = Some p ∧ vget p "ecosystem" = Some (VString (a_ecosystem a)) ∧ vget p "name" = Some (VString (a_package a)) ∧
  vget x "ranges" = Some (VArray xs) ∧ Forall2 describes_range xs (a_ranges a).

Definition describes (x : Value) (d : AdvisoryDocument) : Prop := ∃ xs,
  vget x "id" = Some (VString (d_id d)) ∧ vget x "affected" = Some (VArray xs) ∧ Forall2 describes_affected xs (d_affected d).

(** An imported file holds one document, an array of them, or an object with a
    list [vulns]. *)
Inductive file_of : Value → list AdvisoryDocument → Prop :=
| file_of_one x d : describes x d → vget x "vulns" = None → file_of x [d]
| file_of_array xs ds : Forall2 describes xs ds → file_of (VArray xs) ds
| file_of_vulns x xs ds : vget x "vulns" = Some (VArray xs) → Forall2 describes xs ds → file_of x ds.

Definition ordered_document (d : AdvisoryDocument) : Prop :=
  d_id d ≠ EmptyString ∧ Forall (λ a, a_package a ≠ EmptyString ∧ Forall in_order (a_ranges a)) (d_affected d).

(** * Reading what is written *)

Definition sem (v : Version) : SemVer :=
  mkSemVer (Z.of_N (v_major v)) (Z.of_N (v_minor v)) (Z.of_N (v_patch v)) (v_pre v).

Definition core_byte (c : ascii) : bool := is_ascii_digit c || bool_decide (c = "."%char).

Lemma core_text_bytes v core : core_text v core → all_bytes core_byte core = true ∧
  ∃ c rest, core = String c rest ∧ is_ascii_digit c = true.
Proof.
  assert (Hp : ∀ n : N, all_bytes core_byte (pretty n) = true ∧ ∃ c rest, pretty n = String c rest ∧ is_ascii_digit c = true).
  { intros n. destruct (pretty_N_digits n) as [Hd Hne]. split; [eapply all_bytes_impl; [|exact Hd]; intros c Hc; unfold core_byte; by rewrite Hc|].
    destruct (pretty n) as [|c rest]; [done|]. exists c, rest. split; [done|]. by apply andb_prop in Hd as [? _]. }
  destruct 1 as [v|v _|v _ _]; rewrite ?all_bytes_app;
    destruct (Hp (v_major v)) as [Ha (c&rest&E&Hc)], (Hp (v_minor v)) as [Hb _], (Hp (v_patch v)) as [Hq _];
    (split; [by rewrite ?Ha, ?Hb, ?Hq|rewrite E, ?str_app_cons; eauto]).
Qed.

Lemma core_byte_solid c : core_byte c = true → solid c = true.
Proof. intros [H|H%bool_decide_eq_true]%orb_prop; [by apply digit_solid|by subst]. Qed.

Lemma core_byte_differs d c : core_byte d = false → core_byte c = true → differs d c = true.
Proof. intros Hd Hc. unfold differs. case_bool_decide; [|done]. subst. by rewrite Hd in Hc. Qed.

Lemma components_read v core : ordinary v → core_text v core →
  parse_u64 (before "." core) = Some (Z.of_N (v_major v)) ∧
  version_component (snd <$> split_first "." core) = Z.of_N (v_minor v) ∧
  version_component ((snd <$> split_first "." core) ≫= λ r, snd <$> split_first "." r) = Z.of_N (v_patch v).
Proof.
  intros [(H1&H2&H3) _] Hcore.
  assert (Hdot : ∀ n : N, all_bytes (differs ".") (pretty n) = true) by (intros n; apply digits_differ; [done|apply pretty_N_digits]).
  assert (Hp : ∀ n : N, (n ≤ 18446744073709551615)%N → parse_u64 (pretty n) = Some (Z.of_N n)).
  { intros n Hn. apply parse_u64_pretty. unfold u64_max. lia. }
  destruct Hcore as [v|v Hpatch|v Hminor Hpatch].
  - rewrite !(str_app_cons "."), !str_app_nil_l.
    rewrite (before_app "." (pretty (v_major v))), (split_first_app "." (pretty (v_major v))) by done. cbn [fmap option_fmap option_map snd mbind option_bind].
    rewrite (split_first_app "." (pretty (v_minor v))) by done. cbn [fmap option_fmap option_map snd].
    unfold version_component. cbn [mbind option_bind]. rewrite (before_app "." (pretty (v_minor v))), before_absent by done. by rewrite !Hp.
  - rewrite !(str_app_cons "."), !str_app_nil_l.
    rewrite (before_app "." (pretty (v_major v))), (split_first_app "." (pretty (v_major v))) by done. cbn [fmap option_fmap option_map snd mbind option_bind].
    rewrite (split_first_absent "." (pretty (v_minor v))) by done. cbn [fmap option_fmap option_map].
    unfold version_component. cbn [mbind option_bind default]. rewrite before_absent by done. rewrite !Hp by done. by rewrite Hpatch.
  - rewrite before_absent, split_first_absent by done. rewrite Hminor, Hpatch, Hp by done. done.
Qed.

Lemma pre_text_bytes v : ordinary v → all_bytes pre_byte (pre_text v) = true.
Proof. intros [_ Hpre]. unfold pre_text. destruct (v_pre v) as [p|]; [|done]. by destruct (Hpre p). Qed.

Lemma written_parse s v : written s v → parse_version s = Some (sem v).
Proof.
  destruct 1 as [v lead core build Hv Hlead Hcore Hbuild]. pose proof (core_text_bytes v core Hcore) as [Hcb (c&rest&Ec&Hc)].
  pose proof (pre_text_bytes v Hv) as Hpb. destruct (components_read v core Hv Hcore) as (Hmaj&Hmin&Hpat).
  assert (Hsolid : all_bytes solid (lead +:+ core +:+ pre_text v +:+ build) = true).
  { rewrite !all_bytes_app, (all_bytes_impl _ _ _ core_byte_solid Hcb).
    rewrite (all_bytes_impl pre_byte solid _ ltac:(by intros ? [? _]%andb_prop) Hpb).
    destruct Hlead as [->| ->]; (destruct Hbuild as [->|(b&->&Hb)]; [done|]); by rewrite all_bytes_app, Hb. }
  assert (Hne : lead +:+ core +:+ pre_text v +:+ build ≠ EmptyString).
  { rewrite Ec. by destruct Hlead as [->| ->]. }
  unfold parse_version. rewrite trim_solid by by apply all_solid_start.
  assert (strip_v (lead +:+ core +:+ pre_text v +:+ build) = core +:+ pre_text v +:+ build) as ->.
  { assert (strip_v (core +:+ pre_text v +:+ build) = core +:+ pre_text v +:+ build) as Hs.
    { rewrite Ec, !str_app_cons. cbn [strip_v]. rewrite bool_decide_false; [done|]. by intros [-> | ->]. }
    destruct Hlead as [->| ->]; [done|]. exact Hs. }
  assert (before "+" (core +:+ pre_text v +:+ build) = core +:+ pre_text v) as ->.
  { assert (all_bytes (differs "+") (core +:+ pre_text v) = true) as Hplus.
    { rewrite all_bytes_app, (all_bytes_impl pre_byte _ _ ltac:(by intros ? [_ ?]%andb_prop) Hpb).
      rewrite (all_bytes_impl _ _ _ (λ c, core_byte_differs "+" c eq_refl) Hcb). done. }
    rewrite str_app_assoc. destruct Hbuild as [->|(b&->&_)]; [rewrite str_app_nil_r; by apply before_absent|].
    rewrite (str_app_cons "+"), str_app_nil_l. by apply before_app. }
  assert (Hdash : all_bytes (differs "-") core = true) by (eapply all_bytes_impl; [|exact Hcb]; intros; by apply core_byte_differs).
  assert ((match split_first "-" (core +:+ pre_text v) with Some (c, p) => (c, Some p) | None => (core +:+ pre_text v, None) end) =
          (core, v_pre v)) as ->.
  { unfold pre_text. destruct (v_pre v) as [p|]; [by rewrite (str_app_cons "-"), str_app_nil_l, (split_first_app "-" core p)|].
    by rewrite str_app_nil_r, split_first_absent. }
  rewrite Hmaj. cbn [mbind option_bind]. cbn [mbind option_bind] in Hpat. by rewrite Hmin, Hpat.
Qed.

Lemma written_ordinary s v : written s v → ordinary v.
Proof. by destruct 1. Qed.

(** * Precedence *)

Lemma sem_inj v w : sem v = sem w → v = w.
Proof. destruct v, w. intros [= ->%N2Z.inj ->%N2Z.inj ->%N2Z.inj ->]. done. Qed.

Lemma bytes_before_cmp s t : bytes_before s t ↔ str_cmp s t = Lt.
Proof.
  split.
  - induction 1 as [c t|c d s t Hcd|c s t _ IH]; cbn [str_cmp]; [done| |by rewrite N.compare_refl].
    by apply N.compare_lt_iff in Hcd as ->.
  - revert t. induction s as [|c s IH]; intros [|d t]; cbn [str_cmp]; try done; [constructor|].
    destruct (N.compare_spec (N_of_ascii c) (N_of_ascii d)) as [->%N_of_ascii_inj|Hlt|]; [|by intros _; apply before_byte|done].
    intros Hst. by apply before_next, IH.
Qed.

Lemma precedes_lt v w : precedes v w ↔ v_lt (sem v) (sem w).
Proof.
  unfold v_lt. rewrite <- cmp_precedence_ord. unfold cmp_precedence. cbn [sem major minor patch pre].
  change (ord_cmp (Z.of_N (v_major v), Z.of_N (v_minor v), Z.of_N (v_patch v)) (Z.of_N (v_major w), Z.of_N (v_minor w), Z.of_N (v_patch w)))
    with (match match Z.compare (Z.of_N (v_major v)) (Z.of_N (v_major w)) with
                | Eq => Z.compare (Z.of_N (v_minor v)) (Z.of_N (v_minor w)) | c => c end with
          | Eq => Z.compare (Z.of_N (v_patch v)) (Z.of_N (v_patch w)) | c => c end).
  rewrite !N2Z.inj_compare. split.
  - destruct 1 as [v w Hlt|v w -> Hlt|v w -> -> Hlt|a b c p|a b c p q Hpq]; cbn [v_major v_minor v_patch v_pre];
      rewrite ?N.compare_refl; try (by apply N.compare_lt_iff in Hlt as ->); [done|]. by apply bytes_before_cmp.
  - destruct v as [a b c p], w as [a' b' c' q]. cbn [v_major v_minor v_patch v_pre].
    destruct (N.compare_spec a a') as [->|Hlt|]; [|by intros _; apply by_major|done].
    destruct (N.compare_spec b b') as [->|Hlt|]; [|by intros _; apply by_minor|done].
    destruct (N.compare_spec c c') as [->|Hlt|]; [|by intros _; apply by_patch|done].
    destruct p as [p|], q as [q|]; cbn [pre_cmp]; try done; intros Hlt; [|apply by_release].
    by apply by_bytes, bytes_before_cmp.
Qed.

Lemma at_or_precedes v w : v = w ∨ precedes v w ↔ v_le (sem v) (sem w).
Proof.
  rewrite precedes_lt. unfold v_le, v_lt. split.
  - intros [->| ->]; [by rewrite ord_refl|done].
  - intros Hle. destruct (ord_cmp (sem v) (sem w)) eqn:E; [|by right|done]. left. by apply sem_inj, ord_eq.
Qed.

Definition bound_sem (b : Bound) : SemVer := match b with Beginning => mkSemVer 0 0 0 None | At v => sem v end.

Lemma reached_le b v : ordinary v → reached b v ↔ v_le (bound_sem b) (sem v).
Proof.
  intros Hv. destruct b as [|w]; [|apply at_or_precedes]. split; [intros _|done].
  apply (at_or_precedes (mkVersion 0 0 0 None) v). destruct Hv as [_ Hpre].
  destruct v as [a b c p]. cbn [v_major v_minor v_patch v_pre] in Hpre.
  destruct (N.eq_dec a 0%N) as [->|]; [|right; apply by_major; cbn; lia].
  destruct (N.eq_dec b 0%N) as [->|]; [|right; apply by_minor; cbn; [done|lia]].
  destruct (N.eq_dec c 0%N) as [->|]; [|right; apply by_patch; cbn; [done|done|lia]].
  destruct p as [p|]; [|by left]. by destruct (Hpre p eq_refl) as [_ [?|[?|?]]].
Qed.

(** * Events *)

(** The strings of the events *)
Inductive event_raw : OsvEvent → RangeEvent → Prop :=
| raw_introduced s b : parse_version s = Some (bound_sem b) → event_raw (Introduced s) (IntroducedAt b)
| raw_fixed s v : parse_version s = Some (sem v) → ordinary v → event_raw (Fixed s) (FixedAt v)
| raw_last s v : parse_version s = Some (sem v) → ordinary v → event_raw (LastAffected s) (LastAffectedAt v).

Lemma event_read x e : describes_event x e → ∃ raw, event_raw raw e ∧ ∀ st, add_event st x = add_event st (event_value raw).
Proof.
  destruct 1 as [s b H1 H2 H3 Hs|s v H1 H2 H3 Hs|s v H1 H2 H3 Hs].
  - exists (Introduced s). split; [apply raw_introduced; destruct b; cbn in Hs; [by subst|by apply written_parse]|].
    intros [done cur]. unfold add_event. by rewrite H1, H2, H3.
  - exists (Fixed s). split; [constructor; [by apply written_parse|by eapply written_ordinary]|].
    intros [done cur]. unfold add_event. by rewrite H1, H2, H3.
  - exists (LastAffected s). split; [constructor; [by apply written_parse|by eapply written_ordinary]|].
    intros [done cur]. unfold add_event. by rewrite H1, H2, H3.
Qed.

Lemma events_read xs evs : Forall2 describes_event xs evs → ∃ raws, Forall2 event_raw raws evs ∧
  ∀ st, foldl add_event st xs = foldl add_event st (map event_value raws).
Proof.
  induction 1 as [|x e xs evs Hx _ (raws&Hraws&IH)]; [by exists []|]. destruct (event_read x e Hx) as (raw&Hraw&Hadd).
  exists (raw :: raws). split; [by constructor|]. intros st. cbn [foldl map]. by rewrite Hadd, IH.
Qed.

Lemma order_read :
  (∀ P evs, between P evs → ∀ Q raws, Forall2 event_raw raws evs → (∀ b, P b → Q (bound_sem b)) → closed_from Q raws) ∧
  (∀ b evs, within b evs → ∀ raws, Forall2 event_raw raws evs → open_from (bound_sem b) raws).
Proof.
  apply between_ind2.
  - intros P Q raws ->%Forall2_nil_inv_r _. constructor.
  - intros P b evs HP _ IH Q raws Hraws HPQ. apply Forall2_cons_inv_r in Hraws as (raw&raws'&Hraw&Hraws&->).
    inversion Hraw; subst. econstructor; [done|by apply HPQ|by apply IH].
  - intros b raws ->%Forall2_nil_inv_r. constructor.
  - intros b f evs Hbf _ IH raws Hraws. apply Forall2_cons_inv_r in Hraws as (raw&raws'&Hraw&Hraws&->).
    inversion Hraw; subst. econstructor; [done|by apply reached_le|]. apply IH; [done|]. intros c (w&->&Hw). by apply at_or_precedes.
  - intros b l evs Hbl _ IH raws Hraws. apply Forall2_cons_inv_r in Hraws as (raw&raws'&Hraw&Hraws&->).
    inversion Hraw; subst. econstructor; [done|by apply reached_le|]. apply IH; [done|]. intros c (w&->&Hw). by apply precedes_lt.
Qed.

Lemma affected_cons v e evs : affected_by v (e :: evs) ↔
  affected_by v evs ∨ (∃ b, e = IntroducedAt b ∧ reached b v ∧ ∀ e', e' ∈ evs → ¬ closes e' v).
Proof.
  split.
  - intros ([|x before]&b&after&E&Hb&Hafter); injection E as -> ->; [right; eauto|]. left. by exists before, b, after.
  - intros [(before&b&after&->&Hb&Hafter)|(b&->&Hb&Hafter)]; [by exists (e :: before), b, after|by exists [], b, evs].
Qed.

Lemma run_affected v raws evs : ordinary v → Forall2 event_raw raws evs → ∀ b,
  foldl (osv_step (sem v)) b raws = true ↔ affected_by v evs ∨ (b = true ∧ ∀ e, e ∈ evs → ¬ closes e v).
Proof.
  intros Hv. induction 1 as [|raw e raws evs Hraw _ IH]; intros b.
  { cbn [foldl]. split; [intros ->; right; split; [done|by intros e ?%not_elem_of_nil]|]. intros [(before&?&?&E&_)|[]]; [|done]. by destruct before. }
  cbn [foldl]. rewrite IH, affected_cons. clear IH. destruct Hraw as [s c Hs|s w Hs Hw|s w Hs Hw].
  - rewrite (step_introduced _ _ _ _ Hs). pose proof (reached_le c v Hv) as Hr.
    destruct (decide _) as [Hle|Hle]; rewrite <- Hr in Hle; split; intros Hor.
    + left. destruct Hor as [?|[_ ?]]; [by left|right; by exists c].
    + destruct Hor as [[?|(b'&[= <-]&_&?)]|[_ Hall]]; [by left|by right|]. right. split; [done|]. intros e He. apply Hall. by right.
    + destruct Hor as [?|[-> Hall]]; [by left; left|]. right. split; [done|]. intros e [->|He]%elem_of_cons; [by intros []|by apply Hall].
    + destruct Hor as [[?|(b'&[= <-]&?&_)]|[-> Hall]]; [by left|done|]. right. split; [done|]. intros e He. apply Hall. by right.
  - rewrite (step_fixed _ _ _ _ Hs). pose proof (at_or_precedes w v) as Hr.
    destruct (decide _) as [Hle|Hle]; rewrite <- Hr in Hle; split; intros Hor.
    + destruct Hor as [?|[? _]]; [by left; left|done].
    + destruct Hor as [[?|(b'&?&_)]|[_ Hall]]; [by left|done|]. exfalso. apply (Hall (FixedAt w)); [by left|done].
    + destruct Hor as [?|[-> Hall]]; [by left; left|]. right. split; [done|]. intros e [->|He]%elem_of_cons; [done|by apply Hall].
    + destruct Hor as [[?|(b'&?&_)]|[-> Hall]]; [by left|done|]. right. split; [done|]. intros e He. apply Hall. by right.
  - rewrite (step_last _ _ _ _ Hs). pose proof (precedes_lt w v) as Hr.
    destruct (decide _) as [Hle|Hle]; rewrite <- Hr in Hle; split; intros Hor.
    + destruct Hor as [?|[? _]]; [by left; left|done].
    + destruct Hor as [[?|(b'&?&_)]|[_ Hall]]; [by left|done|]. exfalso. apply (Hall (LastAffectedAt w)); [by left|done].
    + destruct Hor as [?|[-> Hall]]; [by left; left|]. right. split; [done|]. intros e [->|He]%elem_of_cons; [done|by apply Hall].
    + destruct Hor as [[?|(b'&?&_)]|[-> Hall]]; [by left|done|]. right. split; [done|]. intros e He. apply Hall. by right.
Qed.

(** * From documents to findings *)

Lemma ranges_read v xs rs : ordinary v → Forall2 describes_range xs rs → Forall in_order rs → ∃ R, foldl add_range [] xs = R ∧
  (existsb (λ r, contains r (sem v)) R = true ↔ ∃ evs, evs ∈ rs ∧ affected_by v evs).
Proof.
  intros Hv Hxs. assert (∀ done, Forall in_order rs → ∃ R, foldl add_range done xs = done ++ R ∧
    (existsb (λ r, contains r (sem v)) R = true ↔ ∃ evs, evs ∈ rs ∧ affected_by v evs)) as H; [|exact (H [])].
  induction Hxs as [|x evs xs rs (es&Hes&Hevs) _ IH]; intros done Hord.
  { exists []. rewrite app_nil_r. split; [by cbn|]. split; [done|]. by intros (?&?%not_elem_of_nil&_). }
  apply Forall_cons in Hord as [Ho Hord]. destruct (events_read es evs Hevs) as (raws&Hraws&Hadd).
  assert (add_range done x = add_range done (range_value raws)) as Hr.
  { unfold add_range. rewrite Hes. cbn [mbind option_bind as_array range_value vget map_get]. rewrite decide_True by reflexivity.
    cbn [mbind option_bind as_array]. by rewrite Hadd. }
  cbn [foldl]. rewrite Hr, add_range_events. destruct (IH (done ++ collect_events range_default raws) Hord) as (R&->&HR).
  exists (collect_events range_default raws ++ R). rewrite app_assoc. split; [by cbn|].
  rewrite existsb_app, orb_true_iff, HR. rewrite (well_ordered_correct (sem v) raws) by by apply (proj1 order_read (λ _, True) evs).
  unfold osv_affected. rewrite (run_affected v raws evs) by done. split.
  - intros [[?|[? _]]|(evs'&?&?)]; [exists evs; by split; [left|]|done|exists evs'; by split; [right|]].
  - intros (evs'&[->|?]%elem_of_cons&?); [left; by left|right; by exists evs'].
Qed.

(** The advisories of a document with a range that contains [v] *)
Lemma document_read v x d i eco pkg : ordinary v → describes x d → ordered_document d →
  (∃ a rg, a ∈ parse_osv x ∧ id a = i ∧ ecosystem a = eco ∧ package a = pkg ∧ rg ∈ ranges a ∧ contains rg (sem v) = true) ↔
  d_id d = i ∧ ∃ a evs, a ∈ d_affected d ∧ a_ecosystem a = eco ∧ a_package a = pkg ∧ evs ∈ a_ranges a ∧ affected_by v evs.
Proof.
  intros Hv (xs&Hid&Haff&Hxs) [Hne Hwf]. unfold parse_osv, str_field. cbn [mbind option_bind]. rewrite Hid, Haff.
  cbn [mbind option_bind as_string as_array default Datatypes.id]. rewrite bool_decide_false by done.
  generalize (vget x "database_specific" ≫= λ d, vget d "severity" ≫= as_string). intros severity.
  generalize (take_chars 300 <$> (match vget x "summary" with Some v => Some v | None => vget x "details" end ≫= as_string)). intros summary.
  assert (Hone : ∀ y a, describes_affected y a → a_package a ≠ EmptyString ∧ Forall in_order (a_ranges a) → ∃ R,
    parse_affected (d_id d) severity summary y =
      (if bool_decide (R = []) then None else Some (mkAdvisory (d_id d) (a_ecosystem a) (a_package a) R severity summary)) ∧
    (existsb (λ r, contains r (sem v)) R = true ↔ ∃ evs, evs ∈ a_ranges a ∧ affected_by v evs)).
  { intros y a (p&rs&Hp&Heco&Hname&Hrs&Hranges) [Hpkg Hord]. destruct (ranges_read v rs _ Hv Hranges Hord) as (R&HR&Hex).
    exists R. split; [|done]. unfold parse_affected, str_field. rewrite Hp, Hrs. cbn [mbind option_bind]. rewrite Heco, Hname.
    cbn [mbind option_bind as_string as_array default Datatypes.id]. rewrite bool_decide_false by done. by rewrite HR. }
  clear Hid Haff. induction Hxs as [|y a xs affs Hy _ IH].
  { split; [by intros (?&?&?%not_elem_of_nil&_)|]. by intros (_&?&?&?%not_elem_of_nil&_). }
  apply Forall_cons in Hwf as [Ha Hwf]. specialize (IH Hwf). destruct (Hone y a Hy Ha) as (R&Hparse&Hex).
  cbn [omap list_omap]. rewrite Hparse. case_bool_decide as HR.
  - rewrite IH. split; [intros (?&a'&evs&?&?); split; [done|]; exists a', evs; by split; [right|]|].
    intros (?&a'&evs&[->|?]%elem_of_cons&?&?&Hevs); [|split; [done|]; by exists a', evs]. exfalso.
    assert (existsb (λ r, contains r (sem v)) R = true) as Ht by (apply Hex; by exists evs). by rewrite HR in Ht.
  - split.
    + intros (adv&rg&[->|Hin]%elem_of_cons&Hi&He&Hp&Hrg&Hc).
      * cbn in *. split; [done|]. destruct (proj1 Hex) as (evs&?&?); [apply existsb_exists; exists rg; by rewrite <- list_elem_of_In|].
        exists a, evs. by split; [left|].
      * destruct (proj1 IH) as (?&a'&evs&?&?); [by exists adv, rg|]. split; [done|]. exists a', evs. by split; [right|].
    + intros (Hi&a'&evs&[->|Hin]%elem_of_cons&He&Hp&Hevs).
      * assert (existsb (λ r, contains r (sem v)) R = true) as Ht by (apply Hex; by exists evs). apply existsb_exists in Ht as (rg&Hrg&Hc).
        eexists _, rg. split; [by left|]. cbn. by rewrite list_elem_of_In.
      * destruct (proj2 IH) as (adv&rg&?&?); [split; [done|]; by exists a', evs|]. exists adv, rg. by split; [right|].
Qed.

(** What it takes for [v] of a package to be reported by advisories, or by documents *)
Definition advised (v : Version) (i eco pkg : string) (l : list Advisory) : Prop := ∃ a rg,
  a ∈ l ∧ id a = i ∧ ecosystem a = eco ∧ package a = pkg ∧ rg ∈ ranges a ∧ contains rg (sem v) = true.

Definition affects_package (v : Version) (i eco pkg : string) (ds : list AdvisoryDocument) : Prop := ∃ d a evs,
  d ∈ ds ∧ d_id d = i ∧ a ∈ d_affected d ∧ a_ecosystem a = eco ∧ a_package a = pkg ∧ evs ∈ a_ranges a ∧ affected_by v evs.

Lemma named_app v i eco pkg l l' : advised v i eco pkg (l ++ l') ↔ advised v i eco pkg l ∨ advised v i eco pkg l'.
Proof. unfold advised. setoid_rewrite elem_of_app. naive_solver. Qed.

Lemma affects_package_app v i eco pkg ds ds' :
  affects_package v i eco pkg (ds ++ ds') ↔ affects_package v i eco pkg ds ∨ affects_package v i eco pkg ds'.
Proof. unfold affects_package. setoid_rewrite elem_of_app. naive_solver. Qed.

Lemma documents_read v xs ds i eco pkg : ordinary v → Forall2 describes xs ds → Forall ordered_document ds →
  advised v i eco pkg (concat (map parse_osv xs)) ↔ affects_package v i eco pkg ds.
Proof.
  intros Hv. induction 1 as [|x d xs ds Hx _ IH]; intros Hds.
  { split; [by intros (?&?&?%not_elem_of_nil&_)|by intros (?&?&?&?%not_elem_of_nil&_)]. }
  apply Forall_cons in Hds as [Hd Hds]. cbn [map concat]. change (d :: ds) with ([d] ++ ds).
  rewrite named_app, affects_package_app, IH by done. unfold advised at 1. rewrite (document_read v x d) by done.
  apply or_iff_compat_r. unfold affects_package. setoid_rewrite list_elem_of_singleton. naive_solver.
Qed.

Lemma file_read v x ds i eco pkg : ordinary v → file_of x ds → Forall ordered_document ds →
  advised v i eco pkg (extract_advisories x) ↔ affects_package v i eco pkg ds.
Proof.
  intros Hv Hx Hds. destruct Hx as [x d Hd Hv0|xs ds Hxs|x xs ds Hvs Hxs].
  - assert (extract_advisories x = concat (map parse_osv [x])) as ->; [|apply documents_read; [done|by repeat constructor|done]].
    unfold extract_advisories. rewrite Hv0. cbn. rewrite app_nil_r. destruct Hd as (ys&Hid&_). by destruct x.
  - by apply documents_read.
  - assert (extract_advisories x = concat (map parse_osv xs)) as ->; [|by apply documents_read].
    unfold extract_advisories. rewrite Hvs. by destruct x.
Qed.

Lemma files_read v xs dss i eco pkg : ordinary v → Forall2 file_of xs dss → Forall ordered_document (concat dss) →
  advised v i eco pkg (concat (map extract_advisories xs)) ↔ affects_package v i eco pkg (concat dss).
Proof.
  intros Hv. induction 1 as [|x ds xs dss Hx _ IH]; cbn [map concat]; intros Hds.
  { split; [by intros (?&?&?%not_elem_of_nil&_)|by intros (?&?&?&?%not_elem_of_nil&_)]. }
  apply Forall_app in Hds as [Hd Hds]. by rewrite named_app, affects_package_app, IH, (file_read v x ds).
Qed.

(** C12: from imported files to findings.  The files hold OSV documents, one, an
    array or a list [vulns] each, with any number of affected packages and any
    other fields; an event object has one of its three keys, and the events of a
    range alternate in ascending order.  A dependency whose version text is
    that of [v] is reported under an advisory [i] if and only if a document [i]
    has an entry for its ecosystem and package with a range in which [v] has
    reached an introduction that no later event closes.  Versions are ordered by
    their numbers, a pre-release before its release, and the pre-releases of one
    release by their bytes; pre-releases of 0.0.0 do not occur. *)
Theorem reported_iff_affected files docs deps dep v i
    (Hfiles : Forall2 file_of files docs) (Hdocs : Forall ordered_document (concat docs))
    (Hdep : dep ∈ deps) (Hv : written (dep_version dep) v) :
  (∃ r, (dep, r) ∈ vulnerabilities (advisory_rows files) deps ∧ row_id r = i) ↔
  (∃ d a evs, d ∈ concat docs ∧ d_id d = i ∧ a ∈ d_affected d ∧
     a_ecosystem a = dep_ecosystem dep ∧ a_package a = dep_name dep ∧ evs ∈ a_ranges a ∧ affected_by v evs).
Proof.
  pose proof (written_ordinary _ _ Hv) as Ho. pose proof (written_parse _ _ Hv) as Hparse.
  change (∃ d a evs, _) with (affects_package v i (dep_ecosystem dep) (dep_name dep) (concat docs)).
  rewrite <- (files_read v files docs) by done. unfold advised. split.
  - intros (r&Hr&<-). apply elem_of_vulnerabilities in Hr as (_&Hr&He&Hp&v'&Hv'&Hc). rewrite Hparse in Hv'. injection Hv' as <-.
    apply elem_of_advisory_rows in Hr as (a&Ha&rg&Hrg&->). by exists a, rg.
  - intros (a&rg&Ha&<-&He&Hp&Hrg&Hc). exists (mkRow (id a) (ecosystem a) (package a) rg). split; [|done].
    apply elem_of_vulnerabilities. split_and!; try done; [|by exists (sem v)]. apply elem_of_advisory_rows. by exists a; split; [|exists rg].
Qed.

(** A document about two packages, in a list [vulns] *)
Definition example_document : AdvisoryDocument :=
  mkDocument "GHSA-1"
    [mkAffected "npm" "foo" [[IntroducedAt Beginning]];
     mkAffected "crates.io" "foo" [[IntroducedAt Beginning; FixedAt (mkVersion 1 2 0 (Some "rc.1"));
                                    IntroducedAt (At (mkVersion 2 0 0 None)); LastAffectedAt (mkVersion 2 1 0 None)]]].

Definition example_affected (eco : string) (events : list Value) : Value :=
  VObject [("package", VObject [("name", VString "foo"); ("purl", VNull); ("ecosystem", VString eco)]);
           ("ranges", VArray [VObject [("type", VString "SEMVER"); ("events", VArray events)]])].

Definition example_file : Value :=
  let event k s := VObject [(k, VString s)] in
  VObject [("vulns", VArray [VObject [("summary", VString "s"); ("id", VString "GHSA-1"); ("affected", VArray
    [example_affected "npm" [event "introduced" "0"];
     example_affected "crates.io" [event "introduced" "0"; event "fixed" "1.2.0-rc.1"; event "introduced" "2"; event "last_affected" "v2.1+x"]])]])].

Lemma written_plain lead core build s v : s = lead +:+ core +:+ pre_text v +:+ build → ordinary v →
  lead = EmptyString ∨ lead = "v" → core_text v core → build = EmptyString ∨ (∃ b, build = "+" +:+ b ∧ all_bytes solid b = true) → written s v.
Proof. intros ->. by constructor. Qed.

Lemma reported_iff_affected_witness :
  ∃ r, (mkDep "Cargo.lock" "crates.io" "foo" "2.0.5", r) ∈
    vulnerabilities (advisory_rows [example_file]) [mkDep "Cargo.lock" "crates.io" "foo" "2.0.5"] ∧ row_id r = "GHSA-1".
Proof.
  apply (reported_iff_affected [example_file] [[example_document]] [mkDep "Cargo.lock" "crates.io" "foo" "2.0.5"]
    (mkDep "Cargo.lock" "crates.io" "foo" "2.0.5") (mkVersion 2 0 5 None) "GHSA-1").
  - constructor; [|constructor]. eapply file_of_vulns; [reflexivity|]. constructor; [|constructor].
    eexists. split_and!; [reflexivity|reflexivity|]. repeat constructor.
    + eexists _, _. split_and!; [reflexivity..|]. constructor; [|constructor]. eexists. split; [reflexivity|].
      constructor; [|constructor]. by eapply describes_introduced.
    + eexists _, _. split_and!; [reflexivity..|]. constructor; [|constructor]. eexists. split; [reflexivity|].
      constructor; [by eapply describes_introduced|]. constructor.
      { eapply describes_fixed; [reflexivity..|]. apply (written_plain "" "1.2.0" ""); [reflexivity| |by left|exact (core_full (mkVersion 1 2 0 (Some "rc.1")))|by left].
        split; [by cbn|]. intros p [= <-]. split; [reflexivity|by left]. }
      constructor.
      { eapply describes_introduced; [reflexivity..|]. apply (written_plain "" "2" ""); [reflexivity| |by left|by apply (core_one (mkVersion 2 0 0 None))|by left].
        by split; [cbn|]. }
      constructor; [|constructor].
      eapply describes_last; [reflexivity..|]. apply (written_plain "v" "2.1" "+x"); [reflexivity| |by right|by apply (core_two (mkVersion 2 1 0 None))|].
      { by split; [cbn|]. }
      right. by exists "x".
  - constructor; [|constructor]. split; [done|]. constructor; [|constructor; [|constructor]].
    + split; [done|]. constructor; [|constructor]. apply between_introduced; [done|apply within_end].
    + split; [done|]. constructor; [|constructor]. apply between_introduced; [done|]. apply within_fixed; [done|].
      apply between_introduced; [eexists; split; [reflexivity|right; apply by_major; cbn; lia]|].
      apply within_last; [right; apply by_minor; cbn; [done|lia]|apply between_end].
  - by left.
  - apply (written_plain "" "2.0.5" ""); [reflexivity| |by left|exact (core_full (mkVersion 2 0 5 None))|by left]. by split; [cbn|].
  - exists example_document, (mkAffected "crates.io" "foo" [[IntroducedAt Beginning; FixedAt (mkVersion 1 2 0 (Some "rc.1"));
      IntroducedAt (At (mkVersion 2 0 0 None)); LastAffectedAt (mkVersion 2 1 0 None)]]).
    eexists. split_and!; [by left|done|by right; left|done|done|by left|].
    exists [IntroducedAt Beginning; FixedAt (mkVersion 1 2 0 (Some "rc.1"))], (At (mkVersion 2 0 0 None)), [LastAffectedAt (mkVersion 2 1 0 None)].
    split_and!; [reflexivity| |].
    + right. apply by_patch; cbn; [done|done|lia].
    + intros e ->%list_elem_of_singleton. cbn. rewrite precedes_lt. by vm_compute.
Defined.
