(* ===== verification/TraceReconcile.v ===== *)
(** Waits observed at run time against the lock-order graph: the parsers of
    traces and the reconciliation ([src/src/concurrency/trace_reconcile.rs]) and
    their use by the tool ([tool_runtime_deadlock_reconcile.rs]). *)

From Stdlib Require Import Ascii.
From stdpp Require Import base numbers strings sets list.
From S2P Require Import Prelude Text Splitting LockOrder.

#[local] Open Scope string_scope.
#[local] Open Scope list_scope.

(** * Waits and results *)

Record ObservedWait := mkWait { holder : string; wanted : string; primitive : string }.
#[global] Instance ObservedWait_eq_dec : EqDecision ObservedWait.
Proof. solve_decision. Defined.

Record ConfirmedWait := mkConfirmed { observed : ObservedWait; static_from : string; static_to : string; interprocedural : bool }.
Record StaticOnlyEdge := mkOnly { so_from : string; so_to : string; so_interprocedural : bool }.
Record Reconciliation := mkReconciliation {
  confirmed : list ConfirmedWait;
  static_missed : list ObservedWait;
  static_only : list StaticOnlyEdge;
}.

(** * Frames *)

Definition LOCK_WAIT_PRIMITIVES : list string :=
  ["futex_wait"; "__lll_lock_wait"; "__lll_lock_wait_private"; "pthread_mutex_lock"; "pthread_rwlock_rdlock";
   "pthread_rwlock_wrlock"; "pthread_cond_wait"; "pthread_cond_timedwait"; "do_futex"; "futex_wait_queue";
   "__futex_abstimed_wait"; "parking_lot"; "RawMutex"; "sys_futex"].

Definition is_lock_wait_primitive (frame : string) : bool := existsb (str_contains frame) LOCK_WAIT_PRIMITIVES.

Definition clean_frame (frame : string) : string :=
  let f := trim frame in
  let f := before_str " (" f in
  let f := before_str "+0x" f in
  let f := trim f in
  if starts_with f "0x" || starts_with f "0X" then EmptyString else f.

(** The characters a symbol ends at *)
Definition symbol_end (c : ascii) : bool := bool_decide (c ∈ ["<"; "("; " "; "@"]%char).

Definition bare_symbol (name : string) : string := trim (until symbol_end (last_piece "::" name)).

(** * A wait from a stack *)

(** The walk over callers: the first two frames that are named and not lock
    primitives. *)
Fixpoint app_frames (app frames : list string) : list string :=
  match frames with
  | [] => app
  | f :: frames =>
      if bool_decide (f = EmptyString) || is_lock_wait_primitive f then app_frames app frames
      else if bool_decide (length (app ++ [f]) = 2) then app ++ [f] else app_frames (app ++ [f]) frames
  end.

Definition finish_wait (app : list string) (primitive : string) : option ObservedWait :=
  first ← app !! 0;
  let wanted := bare_symbol first in
  if bool_decide (wanted = EmptyString) then None
  else
    let holder := match bare_symbol <$> app !! 1 with
                  | Some h => if bool_decide (h = EmptyString) then wanted else h
                  | None => wanted
                  end in
    Some (mkWait holder wanted primitive).

(** [frames.iter().position(..)], with the frame *)
Definition prim_pos (frames : list string) : option (nat * string) := list_find is_lock_wait_primitive frames.

Definition wait_from_leaf_last (frames : list string) : option ObservedWait :=
  '(i, primitive) ← prim_pos frames; finish_wait (app_frames [] (reverse (take i frames))) primitive.

Definition wait_from_leaf_first (frames : list string) : option ObservedWait :=
  '(i, primitive) ← prim_pos frames; finish_wait (app_frames [] (drop (S i) frames)) primitive.

(** * The parsers *)

(** What a parser collects: the waits, and the set of those it has seen. *)
Definition Collected := (list ObservedWait * list ObservedWait)%type.

Definition collect_wait (st : Collected) (w : option ObservedWait) : Collected :=
  match w with
  | Some w => if bool_decide (w ∈ snd st) then st else (fst st ++ [w], w :: snd st)
  | None => st
  end.

(** A line without its count *)
Definition folded_stack (line : string) : string :=
  match rsplit_once_ws line with
  | Some (s, c) => match parse_u64 (trim c) with Some _ => s | None => line end
  | None => line
  end.

Definition folded_line (st : Collected) (raw : string) : Collected :=
  let line := trim raw in
  if bool_decide (line = EmptyString) then st
  else collect_wait st (wait_from_leaf_last (map clean_frame (pieces ";" (folded_stack line)))).

Definition parse_offcpu_folded (text : string) : list ObservedWait := fst (foldl folded_line ([], []) (lines text)).

(** The end of a block of frames; the parsers of blocks carry the frames of the
    current one. *)
Definition flush_frames (st : Collected * list string) : Collected * list string :=
  match snd st with
  | [] => st
  | frames => (collect_wait (fst st) (wait_from_leaf_first frames), [])
  end.

Definition push_frame (st : Collected * list string) (sym : string) : Collected * list string :=
  if bool_decide (sym = EmptyString) then st else (fst st, snd st ++ [sym]).

(** [starts_with(['\t', ' '])] *)
Definition indented (line : string) : bool :=
  match line with String c _ => bool_decide (c = ascii_of_nat 9) || bool_decide (c = " "%char) | EmptyString => false end.

Definition is_frame (line : string) : bool :=
  (indented line && starts_with (trim line) "0x") || (indented line && str_contains line "0x").

Definition perf_symbol (line : string) : string :=
  let trimmed := trim line in
  let after_addr := trim (match split_first " " trimmed with Some (_, rest) => rest | None => trimmed end) in
  clean_frame (if starts_with after_addr "in " then str_drop 3 after_addr else after_addr).

Definition perf_line (st : Collected * list string) (line : string) : Collected * list string :=
  if bool_decide (trim line = EmptyString) then flush_frames st
  else if negb (is_frame line) then flush_frames st
  else push_frame st (perf_symbol line).

Definition parse_perf_script (text : string) : list ObservedWait :=
  fst (fst (flush_frames (foldl perf_line (([], []), []) (lines text)))).

Definition gdb_frame_symbol (rest : string) : string :=
  let after_num := trim (match split_once_ws (trim_start rest) with Some (_, r) => r | None => rest end) in
  clean_frame (match split_str " in " after_num with Some (_, r) => r | None => after_num end).

Definition gdb_line (st : Collected * list string) (raw : string) : Collected * list string :=
  let line := trim raw in
  if starts_with line "Thread " || starts_with line "[Switching to Thread" then flush_frames st
  else match line with
       | String c rest => if bool_decide (c = "#"%char) then push_frame st (gdb_frame_symbol rest) else st
       | EmptyString => st
       end.

Definition parse_gdb_bt (text : string) : list ObservedWait :=
  fst (fst (flush_frames (foldl gdb_line (([], []), []) (lines text)))).

(** * Reconciliation *)

Record Reconciling := mkReconciling {
  r_confirmed : list ConfirmedWait;
  r_missed : list ObservedWait;
  r_witnessed : list nat;
  r_seen_missed : list (string * string);
}.

Definition static_pair (e : LockEdge) : string * string * bool :=
  (bare_symbol (le_from e), bare_symbol (le_to e), le_interprocedural e).

Definition edge_matches (h w : string) (p : string * string * bool) : bool :=
  let '(from, to, _) := p in
  let direct := bool_decide (from = h) && bool_decide (to = w) in
  let rotated := bool_decide (from = w) && bool_decide (to = h) in
  let resource_match := (bool_decide (from = h) || bool_decide (from = w)) &&
                        (bool_decide (to = h) || bool_decide (to = w)) && negb (bool_decide (from = to)) in
  direct || rotated || resource_match.

Definition reconcile_wait (static_pairs : list (string * string * bool)) (st : Reconciling) (obs : ObservedWait) : Reconciling :=
  let h := holder obs in
  let w := wanted obs in
  if bool_decide (h = EmptyString) || bool_decide (w = EmptyString) then st
  else match list_find (edge_matches h w) static_pairs with
       | Some (i, (from, to, interproc)) =>
           mkReconciling (r_confirmed st ++ [mkConfirmed obs from to interproc]) (r_missed st) (i :: r_witnessed st) (r_seen_missed st)
       | None =>
           if bool_decide ((h, w) ∈ r_seen_missed st) then st
           else mkReconciling (r_confirmed st) (r_missed st ++ [obs]) (r_witnessed st) ((h, w) :: r_seen_missed st)
       end.

(** The edges without a witness, from the edge at index [i] on *)
Fixpoint unwitnessed (witnessed : list nat) (seen_only : list (string * string)) (i : nat)
    (static_pairs : list (string * string * bool)) : list StaticOnlyEdge :=
  match static_pairs with
  | [] => []
  | (from, to, interproc) :: ps =>
      if bool_decide (i ∈ witnessed) then unwitnessed witnessed seen_only (S i) ps
      else if bool_decide ((from, to) ∈ seen_only) then unwitnessed witnessed seen_only (S i) ps
      else mkOnly from to interproc :: unwitnessed witnessed ((from, to) :: seen_only) (S i) ps
  end.

Definition reconcile_observed (obs : list ObservedWait) (static_edges : list LockEdge) : Reconciliation :=
  let static_pairs := map static_pair static_edges in
  let st := foldl (reconcile_wait static_pairs) (mkReconciling [] [] [] []) obs in
  mkReconciliation (r_confirmed st) (r_missed st) (unwitnessed (r_witnessed st) [] 0 static_pairs).

Definition reconcile (observed_wait_for : list (string * string)) (static_edges : list LockEdge) : Reconciliation :=
  let named '(h, w) := negb (bool_decide (trim h = EmptyString)) && negb (bool_decide (trim w = EmptyString)) in
  reconcile_observed (map (λ '(h, w), mkWait (bare_symbol h) (bare_symbol w) EmptyString) (List.filter named observed_wait_for))
    static_edges.

(** * The tool *)

(** The format, refused unless it is known *)
Definition checked_format (format : string) : option string :=
  let format := trim format in
  if bool_decide (format ∈ ["offcpu_folded"; "perf_script"; "gdb_bt"]) then Some format else None.

Definition parse_trace (format trace_text : string) : list ObservedWait :=
  if bool_decide (format = "offcpu_folded") then parse_offcpu_folded trace_text
  else if bool_decide (format = "perf_script") then parse_perf_script trace_text
  else if bool_decide (format = "gdb_bt") then parse_gdb_bt trace_text
  else [].

Definition wait_pair (w : ObservedWait) : string * string := (holder w, wanted w).

Definition reconcile_trace (waits : list ObservedWait) (static_edges : list LockEdge) : Reconciliation :=
  reconcile (map wait_pair waits) static_edges.

Definition primitive_of (waits : list ObservedWait) (h w : string) : string :=
  match find_first (λ o, bool_decide (holder o = h) && bool_decide (wanted o = w)) waits with
  | Some o => primitive o
  | None => EmptyString
  end.

Definition runtime_corroborated (rec : Reconciliation) (cyc : LockCycle) : bool :=
  existsb (λ e, bool_decide ((last_piece "::" (le_from e), last_piece "::" (le_to e)) ∈
                  map (λ c, (static_from c, static_to c)) (confirmed rec))) (lc_edges cyc).

(** * What a reconciliation says *)

Definition named (o : ObservedWait) : Prop := holder o ≠ EmptyString ∧ wanted o ≠ EmptyString.
#[global] Instance named_dec o : Decision (named o).
Proof. unfold named. apply _. Defined.

(** Two pairs of locks, in whichever order *)
Definition same_locks (p q : string * string) : Prop := p = q ∨ p = (snd q, fst q).
#[global] Instance same_locks_dec p q : Decision (same_locks p q).
Proof. unfold same_locks. apply _. Defined.

Definition edge_locks (e : LockEdge) : string * string := (bare_symbol (le_from e), bare_symbol (le_to e)).

(** A static edge orders the two locks of the wait. *)
Definition ordered_in (edges : list LockEdge) (o : ObservedWait) : Prop := Exists (λ e, same_locks (edge_locks e) (wait_pair o)) edges.
#[global] Instance ordered_in_dec edges o : Decision (ordered_in edges o).
Proof. unfold ordered_in. apply _. Defined.

(** The first wait of each pair *)
Fixpoint first_waits (seen : list (string * string)) (l : list ObservedWait) : list ObservedWait :=
  match l with
  | [] => []
  | o :: l => if decide (wait_pair o ∈ seen) then first_waits seen l else o :: first_waits (wait_pair o :: seen) l
  end.

(** The edge at [n] is the first over its locks, and a wait is for them. *)
Definition credited (obs : list ObservedWait) (edges : list LockEdge) (n : nat) : Prop :=
  ∃ e o, edges !! n = Some e ∧ o ∈ obs ∧ named o ∧ same_locks (edge_locks e) (wait_pair o) ∧
    ∀ m e', m < n → edges !! m = Some e' → ¬ same_locks (edge_locks e') (wait_pair o).

Lemma edge_matches_spec h w e : edge_matches h w (static_pair e) ↔ same_locks (edge_locks e) (h, w).
Proof.
  unfold edge_matches, static_pair, edge_locks, same_locks. cbn. generalize (bare_symbol (le_from e)) (bare_symbol (le_to e)).
  intros f t. rewrite !orb_True, !andb_True, !orb_True, !bool_decide_spec, negb_True, bool_decide_spec. 
  split; [|intros [[= -> ->]|[= -> ->]]; tauto].
  intros [[[-> ->]|[-> ->]]|[[[-> | ->] [-> | ->]] Hne]]; auto; done.
Qed.

Section reconciling.
Context (edges : list LockEdge).

Definition earliest (n : nat) (e : LockEdge) (o : ObservedWait) : Prop :=
  edges !! n = Some e ∧ same_locks (edge_locks e) (wait_pair o) ∧
  ∀ m e', m < n → edges !! m = Some e' → ¬ same_locks (edge_locks e') (wait_pair o).

Lemma credited_earliest obs n : credited obs edges n ↔ ∃ e o, o ∈ obs ∧ named o ∧ earliest n e o.
Proof. unfold credited, earliest. naive_solver. Qed.

Lemma earliest_unique n m e e' o : earliest n e o → earliest m e' o → n = m.
Proof.
  intros (He&Ho&Hn) (He'&Ho'&Hm). destruct (Nat.lt_trichotomy n m) as [?|[?|?]]; [|done|].
  - by destruct (Hm n e).
  - by destruct (Hn m e').
Qed.

Lemma find_edge o :
  match list_find (edge_matches (holder o) (wanted o)) (map static_pair edges) with
  | Some (i, p) => ∃ e, p = static_pair e ∧ earliest i e o
  | None => ¬ ordered_in edges o
  end.
Proof.
  destruct (list_find _ _) as [[i p]|] eqn:Hf.
  - apply list_find_Some in Hf as (Hi&Hp&Hmin). apply list_lookup_fmap_Some in Hi as (e&->&He). exists e. split; [done|].
    apply edge_matches_spec in Hp. split_and!; [done..|]. intros m e' Hm He' Hs. eapply (Hmin m (static_pair e')); [|done|].
    + by rewrite list_lookup_fmap, He'.
    + by apply edge_matches_spec.
  - apply list_find_None in Hf. unfold ordered_in. rewrite <- Forall_Exists_neg. rewrite Forall_map in Hf.
    eapply Forall_impl; [done|]. intros e He Hs. by apply He, edge_matches_spec.
Qed.

Lemma earliest_ordered i e o : earliest i e o → ordered_in edges o.
Proof. intros (He&Ho&_). apply Exists_exists. exists e. split; [by eapply list_elem_of_lookup_2|done]. Qed.

Definition confirms (c : ConfirmedWait) : Prop :=
  ∃ i e, earliest i e (observed c) ∧ (static_from c, static_to c) = edge_locks e ∧ interprocedural c = le_interprocedural e.

Lemma reconcile_fold obs : ∀ st, let st' := foldl (reconcile_wait (map static_pair edges)) st obs in
  (∃ cs, r_confirmed st' = r_confirmed st ++ cs ∧ Forall confirms cs ∧
         map observed cs = filter (λ o, named o ∧ ordered_in edges o) obs) ∧
  r_missed st' = r_missed st ++ first_waits (r_seen_missed st) (filter (λ o, named o ∧ ¬ ordered_in edges o) obs) ∧
  ∀ n, n ∈ r_witnessed st' ↔ n ∈ r_witnessed st ∨ credited obs edges n.
Proof.
  induction obs as [|o obs IH]; intros st st'; subst st'; cbn [foldl].
  { split_and!; [exists []; by rewrite app_nil_r|by rewrite app_nil_r|].
    intros n. rewrite credited_earliest. set_solver. }
  destruct (IH (reconcile_wait (map static_pair edges) st o)) as ((cs&Hc&Hcs&Hmap)&Hm&Hw). clear IH.
  rewrite Hc, Hm. setoid_rewrite Hw. clear Hc Hm Hw. rewrite !filter_cons. unfold reconcile_wait.
  assert (Hn : bool_decide (holder o = "") || bool_decide (wanted o = "") = negb (bool_decide (named o))).
  { unfold named. repeat case_bool_decide; tauto. }
  rewrite Hn. destruct (decide (named o)) as [Hno|Hno].
  2:{ rewrite (bool_decide_false _ Hno), !decide_False by tauto. split_and!; [by exists cs|done|].
      intros n. rewrite !credited_earliest. set_solver. }
  rewrite (bool_decide_true _ Hno). cbn [negb]. pose proof (find_edge o) as Hf.
  destruct (list_find _ _) as [[i p]|].
  - destruct Hf as (e&->&He). pose proof (earliest_ordered _ _ _ He) as Ho. rewrite decide_True, decide_False by tauto.
    cbn. split_and!; [|done|].
    + exists (mkConfirmed o (bare_symbol (le_from e)) (bare_symbol (le_to e)) (le_interprocedural e) :: cs).
      split_and!; [by rewrite <- app_assoc| |cbn; by rewrite Hmap]. constructor; [|done]. by exists i, e.
    + intros n. rewrite elem_of_cons, !credited_earliest. split.
      * intros [[->|?]|(e'&o'&?&?&?)]; [right; exists e, o; set_solver|by left|right; exists e', o'; set_solver].
      * intros [?|(e'&o'&Hin&Hno'&He')]; [by left; right|]. apply elem_of_cons in Hin as [->|?].
        -- left. left. by eapply earliest_unique.
        -- right. by exists e', o'.
  - rewrite decide_False, decide_True by tauto. cbn [first_waits]. 
    assert (Hcr : ∀ n, credited (o :: obs) edges n ↔ credited obs edges n).
    { intros n. rewrite !credited_earliest. split; [|set_solver]. intros (e'&o'&Hin&?&He'). apply elem_of_cons in Hin as [->|?]; [|by exists e', o'].
      by apply earliest_ordered in He'. }
    setoid_rewrite Hcr. change (holder o, wanted o) with (wait_pair o).
    destruct (decide (wait_pair o ∈ r_seen_missed st)) as [Hs|Hs]; [rewrite (bool_decide_true _ Hs)|rewrite (bool_decide_false _ Hs)].
    + split_and!; [by exists cs|done..].
    + cbn. split_and!; [by exists cs|by rewrite <- app_assoc|done].
Qed.

Lemma elem_of_unwitnessed ws f t : ∀ i ps seen,
  (∃ ip, mkOnly f t ip ∈ unwitnessed ws seen i ps) ↔ (f, t) ∉ seen ∧ ∃ n ip, ps !! n = Some (f, t, ip) ∧ i + n ∉ ws.
Proof.
  intros i ps. revert i. induction ps as [|[[f' t'] ip] ps IH]; intros i seen; cbn [unwitnessed]; [set_solver|].
  assert (Hs : ∀ P : nat → bool → Prop, (∃ n b, ((f', t', ip) :: ps) !! n = Some (f, t, b) ∧ P n b) ↔
    ((f, t) = (f', t') ∧ P 0 ip) ∨ ∃ n b, ps !! n = Some (f, t, b) ∧ P (S n) b).
  { intros P. split.
    - intros ([|n]&b&Hn&HP); cbn in Hn; [simplify_eq; by left|right; by exists n, b].
    - intros [([= -> ->]&HP)|(n&b&?&?)]; [by exists 0, ip|by exists (S n), b]. }
  rewrite (Hs (λ n _, i + n ∉ ws)), Nat.add_0_r. assert (Hsh : ∀ n, i + S n = S i + n) by lia. setoid_rewrite Hsh.
  repeat case_bool_decide.
  - rewrite IH. naive_solver.
  - rewrite IH. naive_solver.
  - setoid_rewrite elem_of_cons. split.
    + intros (b&[[= -> -> ->]|Hb]); [split; [done|by left]|].
      destruct (proj1 (IH (S i) ((f', t') :: seen)) (ex_intro _ b Hb)) as [Hns Hex]. split; [set_solver|by right].
    + intros (Hns&Hor). destruct (decide ((f, t) = (f', t'))) as [[= -> ->]|Hne]; [exists ip; by left|].
      destruct Hor as [[? _]|Hor]; [done|]. destruct (proj2 (IH (S i) ((f', t') :: seen))) as [b Hb]; [set_solver|].
      exists b. by right.
Qed.
End reconciling.

Lemma NoDup_unwitnessed ws : ∀ ps i seen, 
  NoDup (map (λ s, (so_from s, so_to s)) (unwitnessed ws seen i ps)) ∧
  Forall (λ s, (so_from s, so_to s) ∉ seen) (unwitnessed ws seen i ps).
Proof.
  induction ps as [|[[f t] ip] ps IH]; intros i seen; cbn [unwitnessed]; [by split; constructor|].
  repeat case_bool_decide; [apply IH..|]. destruct (IH (S i) ((f, t) :: seen)) as [Hnd Hf]. split.
  - cbn. constructor; [|done]. intros (s&Hs&Hin)%list_elem_of_fmap. rewrite Forall_forall in Hf. apply (Hf s Hin). rewrite <- Hs. by left.
  - constructor; [done|]. eapply Forall_impl; [done|]. set_solver.
Qed.

(** C13: reconciliation is exact.  The waits confirmed are, in order, those some
    static edge orders, each with the pair of its earliest such edge; the missed
    ones are the first of each pair among those that no edge orders; the edges
    listed as static only are, each pair once, those that are not the earliest
    edge over the locks of an observed wait. *)
Theorem reconcile_exact obs edges :
  let r := reconcile_observed obs edges in
  map observed (confirmed r) = filter (λ o, named o ∧ ordered_in edges o) obs ∧
  Forall (confirms edges) (confirmed r) ∧
  static_missed r = first_waits [] (filter (λ o, named o ∧ ¬ ordered_in edges o) obs) ∧
  NoDup (map (λ s, (so_from s, so_to s)) (static_only r)) ∧
  ∀ f t, (∃ ip, mkOnly f t ip ∈ static_only r) ↔ ∃ n e, edges !! n = Some e ∧ edge_locks e = (f, t) ∧ ¬ credited obs edges n.
Proof.
  cbn zeta. unfold reconcile_observed. destruct (reconcile_fold edges obs (mkReconciling [] [] [] [])) as ((cs&Hc&Hcs&Hmap)&Hm&Hw).
  cbn in Hc, Hm, Hw. cbn [confirmed static_missed static_only]. rewrite Hc, Hm. split_and!; [done..|apply NoDup_unwitnessed|].
  intros f t. rewrite elem_of_unwitnessed. unfold edge_locks. split.
  - intros (_&n&ip&(e&[= -> -> ->]&He)%list_lookup_fmap_Some&Hn). exists n, e. split_and!; [done..|]. intros Hcr. apply Hn, Hw. by right.
  - intros (n&e&He&[= <- <-]&Hn). split; [set_solver|]. exists n, (le_interprocedural e). split.
    + by rewrite list_lookup_fmap, He.
    + rewrite Hw. set_solver.
Qed.

(** C37: an edge over the locks of an earlier edge is never witnessed: of the two
    edges of an inversion, the later one is reported as never observed, whatever
    was observed. *)
Theorem opposite_edge_unwitnessed obs edges i j ei ej (Hij : i < j) (Hi : edges !! i = Some ei) (Hj : edges !! j = Some ej)
    (Hopp : edge_locks ei = (snd (edge_locks ej), fst (edge_locks ej))) :
  ∃ ip, mkOnly (fst (edge_locks ej)) (snd (edge_locks ej)) ip ∈ static_only (reconcile_observed obs edges).
Proof.
  destruct (reconcile_fold edges obs (mkReconciling [] [] [] [])) as (_&_&Hw). cbn in Hw.
  cbn [static_only reconcile_observed]. apply elem_of_unwitnessed. split; [set_solver|].
  exists j, (le_interprocedural ej). split; [by rewrite list_lookup_fmap, Hj|]. cbn. rewrite Hw.
  intros [?|(e&o&He&_&_&Hs&Hmin)]; [set_solver|]. simplify_eq. apply (Hmin i ei Hij Hi). rewrite Hopp.
  unfold same_locks in *. destruct (edge_locks ej) as [f t], (wait_pair o) as [h w]. cbn in *. naive_solver.
Qed.

Definition lock_edge (f t : string) : LockEdge := mkEdge f t Write Write (SpecFloat.S754_zero false) false 1 1 2 2 None.

(** Both waits of an inversion were observed, and its second edge counts as never observed. *)
Lemma opposite_edge_unwitnessed_witness :
  let obs := [mkWait "a" "b" "futex_wait"; mkWait "b" "a" "futex_wait"] in
  ∃ ip, mkOnly "b" "a" ip ∈ static_only (reconcile_observed obs [lock_edge "a" "b"; lock_edge "b" "a"]).
Proof. apply (opposite_edge_unwitnessed _ _ 0 1 (lock_edge "a" "b") (lock_edge "b" "a")); [lia|reflexivity..]. Defined.
