(* ===== verification/TraceFormats.v ===== *)
(** The three trace formats: printers of stacks, and what the parsers read from
    the printed text; symbols are read once and for all. *)

From Stdlib Require Import Ascii.
From stdpp Require Import base numbers strings sets list pretty.
From S2P Require Import Prelude Text Splitting LockOrder TraceReconcile.

#[local] Open Scope string_scope.
#[local] Open Scope list_scope.

(** * Bare symbols are bare *)

Lemma after_last_None sep s t : after_last sep (s +:+ t) = None → after_last sep s = None ∧ after_last sep t = None.
Proof.
  induction s as [|c s IH]; [done|]. rewrite str_app_cons. cbn [after_last]. destruct (after_last sep (s +:+ t)); [done|].
  destruct IH as [-> ->]; [done|]. destruct (starts_with (String c s) sep) eqn:E; [|done].
  apply (starts_with_prefix _ t) in E. rewrite str_app_cons in E. by rewrite E.
Qed.

Lemma last_piece_None d sep s : after_last (String d sep) (last_piece (String d sep) s) = None.
Proof.
  unfold last_piece. destruct (after_last _ s) as [r|] eqn:E; [|exact E]. cbn. revert r E.
  induction s as [|c s IH]; intros r; [done|]. cbn [after_last]. destruct (after_last _ s) as [r'|] eqn:E; [intros [= ->]; by apply IH|].
  destruct (starts_with _ _) eqn:Hs; [|done]. intros [= <-]. cbn [String.length str_drop].
  destruct (str_drop_suffix (String.length sep) s) as [u Hu].
  rewrite Hu in E. by apply after_last_None in E as [_ ?].
Qed.

Lemma until_part e s : ∃ v, s = until e s +:+ v ∧ all_bytes (λ c, negb (e c)) (until e s) = true.
Proof.
  induction s as [|c s (v&Hv&Ha)]; [by exists EmptyString|]. cbn [until]. destruct (e c) eqn:Hc; [by exists (String c s)|].
  exists v. rewrite str_app_cons, <- Hv. cbn. by rewrite Hc, Ha.
Qed.

Lemma until_id e s : all_bytes (λ c, negb (e c)) s = true → until e s = s.
Proof. induction s as [|c s IH]; [done|]. cbn. intros [Hc Hs]%andb_prop. destruct (e c); [done|]. by rewrite IH. Qed.

Lemma bare_symbol_idempotent n : bare_symbol (bare_symbol n) = bare_symbol n.
Proof.
  unfold bare_symbol. pose proof (last_piece_None ":" ":" n) as Hl. set (z := last_piece "::" n) in *. clearbody z.
  destruct (until_part symbol_end z) as (v&Hz&Ha). set (y := until symbol_end z) in *. clearbody y.
  destruct (trim_part y) as (u&w&Hy).
  assert (Hx : after_last "::" (trim y) = None).
  { rewrite Hz in Hl. apply after_last_None in Hl as [Hl _]. rewrite Hy in Hl.
    apply after_last_None in Hl as [_ Hl]. by apply after_last_None in Hl as [Hl _]. }
  unfold last_piece. rewrite Hx. cbn. rewrite until_id; [apply trim_idempotent|].
  rewrite Hy, !all_bytes_app in Ha. by apply andb_prop in Ha as [_ [? _]%andb_prop].
Qed.

(** A wait that a parser can give *)
Definition bare_wait (o : ObservedWait) : Prop :=
  holder o ≠ EmptyString ∧ wanted o ≠ EmptyString ∧ bare_symbol (holder o) = holder o ∧ bare_symbol (wanted o) = wanted o.

Lemma bare_trim n : bare_symbol n = n → trim n = n.
Proof. intros <-. apply trim_idempotent. Qed.

Lemma finish_wait_bare app p o : finish_wait app p = Some o → bare_wait o.
Proof.
  unfold finish_wait. destruct (app !! 0) as [f|]; [|done]. cbn [mbind option_bind].
  case_bool_decide as Hw; [done|]. intros [= <-]. unfold bare_wait. cbn [holder wanted].
  destruct (bare_symbol <$> app !! 1) as [h|] eqn:Hh; [|by rewrite bare_symbol_idempotent].
  apply fmap_Some in Hh as (g&_&->). case_bool_decide; by rewrite !bare_symbol_idempotent.
Qed.

(** * What the parsers collect *)

Definition collect_all (st : Collected) (ws : list (option ObservedWait)) : Collected := foldl collect_wait st ws.

Definition consistent (st : Collected) : Prop := NoDup (fst st) ∧ ∀ w, w ∈ fst st ↔ w ∈ snd st.

Lemma collect_all_spec ws st : consistent st →
  consistent (collect_all st ws) ∧ ∀ w, w ∈ fst (collect_all st ws) ↔ w ∈ fst st ∨ Some w ∈ ws.
Proof.
  revert st. induction ws as [|[w|] ws IH]; intros st Hst; cbn; [split; [done|set_solver]| |].
  - assert (Hc : consistent (collect_wait st (Some w)) ∧ ∀ w', w' ∈ fst (collect_wait st (Some w)) ↔ w' ∈ fst st ∨ w' = w).
    { destruct Hst as [Hnd Hst]. cbn. case_bool_decide as Hin; [split; [done|]; intros w'; set_solver|]. unfold consistent. cbn.
      split_and!; [|set_solver|set_solver]. apply NoDup_app. split_and!; [done|set_solver|apply NoDup_singleton]. }
    destruct Hc as [Hc Hm]. destruct (IH _ Hc) as [Hc' Hm']. split; [done|]. intros w'. rewrite (Hm' w'), (Hm w'). set_solver.
  - destruct (IH _ Hst) as [Hc Hm]. split; [done|]. intros w'. rewrite (Hm w'). set_solver.
Qed.

Lemma collected ws : NoDup (fst (collect_all ([], []) ws)) ∧ ∀ w, w ∈ fst (collect_all ([], []) ws) ↔ Some w ∈ ws.
Proof.
  destruct (collect_all_spec ws ([], [])) as [[Hnd _] Hm]; [split; [constructor|done]|]. split; [done|].
  intros w. rewrite (Hm w). set_solver.
Qed.

(** * Parsed waits are reconciled as they are *)

Definition all_bare (st : Collected) : Prop := Forall bare_wait (fst st).

Lemma collect_wait_bare st w : all_bare st → (∀ o, w = Some o → bare_wait o) → all_bare (collect_wait st w).
Proof.
  intros Hst Hw. destruct w as [w|]; [|done]. cbn. case_bool_decide; [done|]. unfold all_bare. cbn.
  apply Forall_app. split; [done|]. constructor; [by apply Hw|done].
Qed.

Lemma leaf_last_bare frames o : wait_from_leaf_last frames = Some o → bare_wait o.
Proof. unfold wait_from_leaf_last. destruct (prim_pos frames) as [[i p]|]; [|done]. apply finish_wait_bare. Qed.

Lemma leaf_first_bare frames o : wait_from_leaf_first frames = Some o → bare_wait o.
Proof. unfold wait_from_leaf_first. destruct (prim_pos frames) as [[i p]|]; [|done]. apply finish_wait_bare. Qed.

Lemma flush_frames_spec st cur : flush_frames (st, cur) = (collect_wait st (wait_from_leaf_first cur), []).
Proof. by destruct cur. Qed.

Lemma foldl_preserves {A B} (P : A → Prop) (f : A → B → A) l : (∀ a b, P a → P (f a b)) → ∀ a, P a → P (foldl f a l).
Proof. intros Hf. induction l as [|b l IH]; intros a Ha; [done|]. by apply IH, Hf. Qed.

Lemma flush_bare st : all_bare (fst st) → all_bare (fst (flush_frames st)).
Proof. destruct st as [st cur]. rewrite flush_frames_spec. intros Hst. apply collect_wait_bare; [done|]. intros o. apply leaf_first_bare. Qed.

Lemma push_bare st s : all_bare (fst st) → all_bare (fst (push_frame st s)).
Proof. unfold push_frame. by case_bool_decide. Qed.

#[local] Hint Resolve flush_bare push_bare : core.

Lemma parsed_bare format text : Forall bare_wait (parse_trace format text).
Proof.
  assert (Hnil : all_bare ([], [])) by constructor.
  unfold parse_trace. repeat case_bool_decide; [| | |constructor].
  - apply (foldl_preserves all_bare); [|done]. intros st l Hst. unfold folded_line. case_bool_decide; [done|].
    apply collect_wait_bare; [done|]. intros o. apply leaf_last_bare.
  - apply flush_bare, (foldl_preserves (λ st, all_bare (fst st))); [|done]. intros st l Hst. unfold perf_line.
    case_bool_decide; [auto|]. destruct (negb _); auto.
  - apply flush_bare, (foldl_preserves (λ st, all_bare (fst st))); [|done]. intros st l Hst. unfold gdb_line.
    destruct (_ || _); [auto|]. destruct (trim l); [done|]. case_bool_decide; auto.
Qed.

(** A wait without its primitive *)
Definition erased (o : ObservedWait) : ObservedWait := mkWait (holder o) (wanted o) EmptyString.

Lemma reconcile_bare waits edges : Forall bare_wait waits →
  reconcile_trace waits edges = reconcile_observed (map erased waits) edges.
Proof.
  intros Hw. unfold reconcile_trace, reconcile. f_equal. induction Hw as [|o waits (Hh&Hw&Hbh&Hbw) _ IH]; [done|].
  cbn [map List.filter]. change (wait_pair o) with (holder o, wanted o). cbv beta iota zeta. rewrite (bare_trim _ Hbh), (bare_trim _ Hbw), !bool_decide_false by done.
  cbn [negb andb map]. by rewrite IH, Hbh, Hbw.
Qed.

(** * Stacks and their printed forms *)

(** A stack, the innermost frame first: kernel frames, the primitives it is
    blocked in, the frame that takes the lock, its caller and theirs.  A stack
    without primitives is idle. *)
Record Stack := mkStack { inner : list string; blocking : list string; site : string; caller : string; outer : list string }.

Definition frames_of (s : Stack) : list string := inner s ++ blocking s ++ site s :: caller s :: outer s.

Definition name_byte (c : ascii) : bool :=
  let n := nat_of_ascii c in
  (is_ascii_digit c || ((65 <=? n) && (n <=? 90)) || ((97 <=? n) && (n <=? 122)) || (n =? 95) || (n =? 58))%nat.

(** A symbol of letters, digits, underscores and colons *)
Definition plain_symbol (s : string) : bool :=
  match s with String c _ => negb (is_ascii_digit c) && all_bytes name_byte s | EmptyString => false end.

Definition app_frame (f : string) : Prop := plain_symbol f = true ∧ is_lock_wait_primitive f = false.
Definition prim_frame (f : string) : Prop := plain_symbol f = true ∧ is_lock_wait_primitive f = true.

Record ok_stack (s : Stack) : Prop := mkOkStack {
  ok_inner : Forall app_frame (inner s);
  ok_blocking : Forall prim_frame (blocking s);
  ok_outer : Forall app_frame (site s :: caller s :: outer s);
}.

Definition print_lines (ls : list string) : string := foldr (λ l r, l +:+ String newline r) EmptyString ls.

(** [offcputime -f]: the thread's name and the frames from the outermost on, and a count *)
Definition folded_text (comm : string) (s : Stack) : string :=
  interleaved ";" comm (reverse (frames_of s)) +:+ " 1".
Definition print_folded (comm : string) (ss : list Stack) : string := print_lines (map (folded_text comm) ss).

(** [perf script]: a header, indented frames and a blank line *)
Definition perf_frame (f : string) : string := "    0x0 in " +:+ f +:+ " (m)".
Definition perf_block (comm : string) (s : Stack) : list string :=
  (comm +:+ " 1 [000] 0.1: cycles:") :: map perf_frame (frames_of s) ++ [EmptyString].
Definition print_perf (comm : string) (ss : list Stack) : string := print_lines (concat (map (perf_block comm) ss)).

(** [thread apply all bt]: a header and numbered frames *)
Definition gdb_frame (i : nat) (f : string) : string := "#" +:+ pretty i +:+ "  0x0 in " +:+ f +:+ " ()".
Definition gdb_block (s : Stack) : list string := "Thread 1 (LWP 1):" :: imap gdb_frame (frames_of s).
Definition print_gdb (ss : list Stack) : string := print_lines (concat (map gdb_block ss)).

(** * Plain symbols *)

Lemma name_byte_solid c : name_byte c = true → solid c = true.
Proof.
  unfold name_byte, solid, is_ascii_digit. intros H. apply andb_true_iff.
  rewrite !Nat.leb_le. rewrite !orb_true_iff, !andb_true_iff, !Nat.leb_le, !Nat.eqb_eq in H. lia.
Qed.

Lemma name_byte_differs d c : name_byte d = false → name_byte c = true → differs d c = true.
Proof. intros Hd Hc. unfold differs. case_bool_decide as E; [congruence|done]. Qed.

Lemma plain_bytes f : plain_symbol f = true → all_bytes name_byte f = true ∧ f ≠ EmptyString.
Proof. destruct f as [|c f]; [done|]. cbn [plain_symbol]. intros [_ ?]%andb_prop. done. Qed.

Lemma plain_solid f : plain_symbol f = true → all_bytes solid f = true ∧ solid_start f = true ∧ solid_start (str_rev f) = true.
Proof.
  intros [Hb Hne]%plain_bytes. apply (all_bytes_impl _ _ _ name_byte_solid) in Hb. split; [done|]. by apply all_solid_start.
Qed.

Lemma plain_differs d f : plain_symbol f = true → name_byte d = false → all_bytes (differs d) f = true.
Proof. intros [Hb _]%plain_bytes Hd. eapply all_bytes_impl; [|done]. intros c. by apply name_byte_differs. Qed.

(** A frame is its symbol, whatever follows it after a blank and a parenthesis. *)
Lemma clean_symbol f r : plain_symbol f = true → solid_start (str_rev r) = true → clean_frame (f +:+ " (" +:+ r) = f.
Proof.
  intros Hf Hr. pose proof (plain_solid f Hf) as (_&Hs&He). unfold clean_frame. 
  rewrite (trim_solid (f +:+ _)) by (by apply solid_start_app || by do 2 apply solid_end_app).
  rewrite (before_str_app " " "(") by by apply plain_differs. rewrite (before_str_absent "+") by by apply plain_differs.
  rewrite (trim_solid f) by done. destruct f as [|c f]; [done|]. cbn [plain_symbol] in Hf. apply andb_prop in Hf as [Hd _].
  unfold starts_with. cbn [String.prefix]. by repeat destruct (ascii_dec _ _) as [<-|_].
Qed.

Lemma clean_plain f : plain_symbol f = true → clean_frame f = f.
Proof.
  intros Hf. pose proof (plain_solid f Hf) as (_&Hs&He). unfold clean_frame. rewrite (trim_solid f) by done.
  rewrite (before_str_absent " ") by by apply plain_differs. rewrite (before_str_absent "+") by by apply plain_differs.
  rewrite (trim_solid f) by done. destruct f as [|c f]; [done|]. cbn [plain_symbol] in Hf. apply andb_prop in Hf as [Hd _].
  unfold starts_with. cbn [String.prefix]. by repeat destruct (ascii_dec _ _) as [<-|_].
Qed.

(** * The lines of the printed forms *)

Lemma solid_not_control c : solid c = true → not_control c = true.
Proof. unfold solid, not_control. rewrite andb_true_iff, !Nat.leb_le. lia. Qed.

Lemma lines_print ls : Forall (λ l, all_bytes not_control l = true) ls → lines (print_lines ls) = ls.
Proof. induction 1 as [|l ls Hl _ IH]; [done|]. cbn [print_lines foldr]. rewrite lines_line by done. by f_equal. Qed.

Lemma plain_printable f : plain_symbol f = true → all_bytes not_control f = true.
Proof. intros [Hb _]%plain_solid. eapply all_bytes_impl; [|done]. apply solid_not_control. Qed.

Lemma pretty_printable (i : nat) : all_bytes not_control (pretty i) = true.
Proof. eapply all_bytes_impl; [|apply pretty_digits]. intros c Hc. by apply solid_not_control, digit_solid. Qed.

(** ** Frames *)
Lemma gdb_frame_symbol_plain (i : nat) f : plain_symbol f = true → gdb_frame_symbol (pretty i +:+ "  0x0 in " +:+ f +:+ " ()") = f.
Proof.
  intros Hf. destruct (pretty_digits i) as [Hd Hne]. apply (all_bytes_impl _ _ _ digit_solid) in Hd. unfold gdb_frame_symbol.
  rewrite trim_start_solid by by apply solid_start_app, all_solid_start.
  change (pretty i +:+ "  0x0 in " +:+ f +:+ " ()") with (pretty i +:+ String " " (" 0x0 in " +:+ f +:+ " ()")).
  rewrite split_once_ws_solid by done. cbv beta iota.
  change (" 0x0 in " +:+ f +:+ " ()") with (String " " ("0x0 in " +:+ f +:+ " ()")). rewrite trim_space, trim_solid by (done || by do 2 apply solid_end_app).
  change ("0x0 in " +:+ f +:+ " ()") with ("0x0" +:+ String " " "in " +:+ (f +:+ " ()")).
  rewrite split_str_app by done. by apply (clean_symbol f ")").
Qed.

Lemma perf_frame_trim f : trim (perf_frame f) = "0x0 in " +:+ f +:+ " (m)".
Proof.
  unfold perf_frame. change ("    0x0 in " +:+ f +:+ " (m)") with
    (String " " (String " " (String " " (String " " ("0x0 in " +:+ f +:+ " (m)"))))).
  rewrite !trim_space. apply trim_solid; [done|by do 2 apply solid_end_app].
Qed.

Lemma perf_symbol_plain f : plain_symbol f = true → perf_symbol (perf_frame f) = f.
Proof.
  intros Hf. pose proof (plain_solid f Hf) as (_&Hs&_). unfold perf_symbol. rewrite perf_frame_trim.
  change (split_first " " ("0x0 in " +:+ f +:+ " (m)")) with (Some ("0x0", "in " +:+ f +:+ " (m)")). cbv beta iota zeta.
  rewrite trim_solid by (done || by do 2 apply solid_end_app). rewrite starts_with_own, (str_drop_app "in ").
  by apply (clean_symbol f "m)").
Qed.

(** ** Steps of the parsers on printed lines *)
Lemma gdb_line_frame st cur i f : plain_symbol f = true → gdb_line (st, cur) (gdb_frame i f) = (st, cur ++ [f]).
Proof.
  intros Hf. unfold gdb_line. rewrite trim_solid by (done || by do 4 apply solid_end_app).
  change (gdb_frame i f) with (String "#" (pretty i +:+ "  0x0 in " +:+ f +:+ " ()")). cbn [starts_with String.prefix orb].
  rewrite bool_decide_true by done. rewrite gdb_frame_symbol_plain by done. unfold push_frame.
  rewrite bool_decide_false by by apply plain_bytes in Hf as [_ ?]. done.
Qed.

Lemma gdb_line_header st : gdb_line st "Thread 1 (LWP 1):" = flush_frames st.
Proof. done. Qed.

Lemma perf_line_frame st cur f : plain_symbol f = true → perf_line (st, cur) (perf_frame f) = (st, cur ++ [f]).
Proof.
  intros Hf. unfold perf_line, is_frame. rewrite perf_frame_trim. rewrite bool_decide_false by done.
  change (indented (perf_frame f)) with true. replace (starts_with ("0x0 in " +:+ f +:+ " (m)") "0x") with true by (symmetry; apply (starts_with_own "0x")).
  cbn [andb orb negb]. rewrite perf_symbol_plain by done. unfold push_frame.
  rewrite bool_decide_false by by apply plain_bytes in Hf as [_ ?]. done.
Qed.

Lemma perf_line_header st comm : plain_symbol comm = true → perf_line st (comm +:+ " 1 [000] 0.1: cycles:") = flush_frames st.
Proof.
  intros Hc. pose proof (plain_solid comm Hc) as (_&Hs&_). unfold perf_line, is_frame. case_bool_decide; [done|].
  assert (indented (comm +:+ " 1 [000] 0.1: cycles:") = false) as ->; [|done].
  destruct comm as [|c comm]; [done|]. rewrite str_app_cons. cbn [indented solid_start] in *.
  by rewrite !bool_decide_false by by intros ->.
Qed.

Lemma perf_line_blank st : perf_line st EmptyString = flush_frames st.
Proof. done. Qed.

Lemma folded_line_text st comm s : plain_symbol comm = true → Forall (λ f, plain_symbol f = true) (frames_of s) →
  folded_line st (folded_text comm s) = collect_wait st (wait_from_leaf_last (comm :: reverse (frames_of s))).
Proof.
  intros Hc Hf. pose proof (plain_solid comm Hc) as (_&Hs&_). unfold folded_line, folded_text.
  assert (Hj : ∀ fs, solid_start (interleaved ";" comm fs) = true) by (intros [|f fs]; [done|]; by apply solid_start_app).
  rewrite trim_solid by (by apply solid_start_app || by apply solid_end_app).
  rewrite bool_decide_false by (intros E; specialize (Hj (reverse (frames_of s))); by destruct (interleaved _ _ _)).
  unfold folded_stack. rewrite (rsplit_once_ws_app _ " 1" "" "1") by done. cbv beta iota.
  change (parse_u64 (trim "1")) with (Some 1%Z). cbv beta iota. rewrite str_app_nil_r.
  assert (Hr : Forall (λ f, plain_symbol f = true) (comm :: reverse (frames_of s))) by (constructor; [done|by apply Forall_reverse]).
  rewrite pieces_join.
  - f_equal. f_equal. rewrite <- (map_id (comm :: reverse (frames_of s))) at 2. apply map_ext_in. intros f Hin%list_elem_of_In.
    apply clean_plain. by eapply Forall_forall in Hr.
  - by apply plain_differs.
  - apply Forall_reverse. eapply Forall_impl; [done|]. intros f Hpf. by apply plain_differs.
Qed.

(** ** Blocks *)
Definition block_waits (st : Collected) (cur : list string) (ss : list Stack) : Collected :=
  collect_all (collect_wait st (wait_from_leaf_first cur)) (map (λ s, wait_from_leaf_first (frames_of s)) ss).

Lemma gdb_frames fs : Forall (λ f, plain_symbol f = true) fs → ∀ n st cur,
  foldl gdb_line (st, cur) (imap (λ i, gdb_frame (n + i)%nat) fs) = (st, cur ++ fs).
Proof.
  induction 1 as [|f fs Hf _ IH]; intros n st cur; [by rewrite app_nil_r|]. cbn [imap foldl]. rewrite Nat.add_0_r, gdb_line_frame by done.
  rewrite (imap_ext _ (λ i, gdb_frame (S n + i)%nat)) by (intros; cbn; f_equal; lia). by rewrite IH, <- app_assoc.
Qed.

Lemma perf_frames fs : Forall (λ f, plain_symbol f = true) fs → ∀ st cur, foldl perf_line (st, cur) (map perf_frame fs) = (st, cur ++ fs).
Proof.
  induction 1 as [|f fs Hf _ IH]; intros st cur; [by rewrite app_nil_r|]. cbn [map foldl]. rewrite perf_line_frame by done.
  by rewrite IH, <- app_assoc.
Qed.

Definition plain_stack (s : Stack) : Prop := Forall (λ f, plain_symbol f = true) (frames_of s).

Lemma gdb_blocks ss : Forall plain_stack ss → ∀ st cur,
  flush_frames (foldl gdb_line (st, cur) (concat (map gdb_block ss))) = (block_waits st cur ss, []).
Proof.
  induction 1 as [|s ss Hs _ IH]; intros st cur; [apply flush_frames_spec|]. cbn [map concat]. rewrite foldl_app. unfold gdb_block at 1.
  cbn [foldl]. rewrite gdb_line_header, flush_frames_spec, (gdb_frames _ Hs 0). cbn [app]. apply IH.
Qed.

Lemma perf_blocks comm ss : plain_symbol comm = true → Forall plain_stack ss → ∀ st cur,
  flush_frames (foldl perf_line (st, cur) (concat (map (perf_block comm) ss))) = (block_waits st cur ss, []).
Proof.
  intros Hc. induction 1 as [|s ss Hs _ IH]; intros st cur; [apply flush_frames_spec|]. cbn [map concat]. rewrite foldl_app. unfold perf_block at 1.
  cbn [foldl]. rewrite perf_line_header, flush_frames_spec by done. rewrite foldl_app, (perf_frames _ Hs). cbn [app foldl].
  rewrite perf_line_blank, flush_frames_spec, IH. done.
Qed.

(** * What the printed forms are read as *)

Lemma ok_plain s : ok_stack s → plain_stack s.
Proof.
  intros [Hi Hb Ho]. unfold plain_stack, frames_of. rewrite !Forall_app.
  split_and!; (eapply Forall_impl; [done|]); by intros f [? _].
Qed.

Lemma join_printable comm fs : all_bytes not_control comm = true → Forall (λ f, all_bytes not_control f = true) fs →
  all_bytes not_control (interleaved ";" comm fs) = true.
Proof.
  intros Hc Hf. revert comm Hc. induction Hf as [|f fs Hf _ IH]; intros comm Hc; [done|]. cbn [interleaved].
  rewrite all_bytes_app, Hc. cbn [all_bytes]. by rewrite IH.
Qed.

Lemma printable_frames fs : Forall (λ f, plain_symbol f = true) fs → Forall (λ f, all_bytes not_control f = true) fs.
Proof. intros Hf. eapply Forall_impl; [done|]. apply plain_printable. Qed.

Lemma parse_print_gdb ss : Forall plain_stack ss →
  parse_gdb_bt (print_gdb ss) = fst (collect_all ([], []) (map (λ s, wait_from_leaf_first (frames_of s)) ss)).
Proof.
  intros Hs. unfold parse_gdb_bt, print_gdb. rewrite lines_print; [by rewrite gdb_blocks|].
  apply Forall_concat, Forall_map. eapply Forall_impl; [done|]. intros s Hp. constructor; [done|].
  apply Forall_forall. intros l (i&f&->&Hf)%elem_of_lookup_imap. unfold gdb_frame.
  rewrite !all_bytes_app, pretty_printable, (plain_printable f); [done|]. exact (Forall_lookup_1 _ _ _ _ Hp Hf).
Qed.

Lemma parse_print_perf comm ss : plain_symbol comm = true → Forall plain_stack ss →
  parse_perf_script (print_perf comm ss) = fst (collect_all ([], []) (map (λ s, wait_from_leaf_first (frames_of s)) ss)).
Proof.
  intros Hc Hs. unfold parse_perf_script, print_perf. rewrite lines_print; [by rewrite perf_blocks|].
  apply Forall_concat, Forall_map. eapply Forall_impl; [done|]. intros s Hp. constructor.
  - by rewrite all_bytes_app, (plain_printable comm).
  - apply Forall_app. split; [|by constructor]. apply Forall_map. eapply Forall_impl; [done|]. intros f Hf. cbn.
    unfold perf_frame. by rewrite !all_bytes_app, (plain_printable f).
Qed.

Lemma parse_print_folded comm ss : plain_symbol comm = true → Forall plain_stack ss →
  parse_offcpu_folded (print_folded comm ss) =
  fst (collect_all ([], []) (map (λ s, wait_from_leaf_last (comm :: reverse (frames_of s))) ss)).
Proof.
  intros Hc Hs. unfold parse_offcpu_folded, print_folded. rewrite lines_print.
  - f_equal. generalize (([], []) : Collected). induction Hs as [|s ss Hs _ IH]; intros st; [done|]. cbn [map foldl].
    rewrite folded_line_text by done. apply IH.
  - apply Forall_map. eapply Forall_impl; [done|]. intros s Hp. cbn. unfold folded_text. rewrite all_bytes_app.
    rewrite join_printable; [done|by apply plain_printable|]. by apply printable_frames, Forall_reverse.
Qed.

(** ** The wait of a stack *)
Lemma app_frames_two w h fs : app_frame w → app_frame h → app_frames [] (w :: h :: fs) = [w; h].
Proof.
  intros [[_ Hw]%plain_bytes Hpw] [[_ Hh]%plain_bytes Hph]. cbn [app_frames]. by rewrite Hpw, Hph, !bool_decide_false by done.
Qed.

Lemma app_frames_skip ps fs : Forall prim_frame ps → app_frames [] (ps ++ fs) = app_frames [] fs.
Proof. induction 1 as [|p ps [_ Hp] _ IH]; [done|]. cbn [app app_frames]. by rewrite Hp, orb_true_r. Qed.

Lemma prim_pos_app a p r : Forall app_frame a → prim_frame p → prim_pos (a ++ p :: r) = Some (length a, p).
Proof.
  intros Ha [_ Hp]. apply list_find_Some. split_and!; [by rewrite lookup_app_r, Nat.sub_diag|by rewrite Hp|].
  intros j y Hj Hlt. rewrite lookup_app_l in Hj by done. eapply Forall_lookup_1 in Ha as [_ ->]; [|done]. by intros [].
Qed.

Lemma prim_pos_none a : Forall app_frame a → prim_pos a = None.
Proof. intros Ha. apply list_find_None. eapply Forall_impl; [done|]. intros f [_ ->]. by intros []. Qed.

Lemma leaf_first_wait s : ok_stack s → wait_from_leaf_first (frames_of s) = p ← head (blocking s); finish_wait [site s; caller s] p.
Proof.
  intros [Hi Hb [Hw [Hh Ho]%Forall_cons]%Forall_cons]. unfold wait_from_leaf_first, frames_of. destruct Hb as [|p ps Hp Hps].
  - cbn [app head mbind option_bind]. rewrite prim_pos_none; [done|]. apply Forall_app. split; [done|]. by constructor; [|constructor].
  - cbn [app]. rewrite prim_pos_app by done. cbn [mbind option_bind head].
    replace (S (length (inner s))) with (length (inner s ++ [p])) by (rewrite length_app; cbn; lia).
    rewrite (cons_middle p (inner s) (ps ++ _)), (app_assoc (inner s)), drop_app_length. by rewrite app_frames_skip, app_frames_two.
Qed.

Lemma leaf_last_wait comm s : app_frame comm → ok_stack s →
  wait_from_leaf_last (comm :: reverse (frames_of s)) = p ← last (blocking s); finish_wait [site s; caller s] p.
Proof.
  intros Hc [Hi Hb Ho]. pose proof Ho as [Hw [Hh _]%Forall_cons]%Forall_cons. unfold wait_from_leaf_last, frames_of.
  rewrite !reverse_app. destruct (blocking s) as [|p ps _] using rev_ind.
  - cbn [last mbind option_bind reverse]. change (reverse (@nil string)) with (@nil string). rewrite app_nil_r. rewrite prim_pos_none; [done|].
    constructor; [done|]. apply Forall_app. split; by apply Forall_reverse.
  - apply Forall_app in Hb as [Hps [Hp _]%Forall_cons]. rewrite last_snoc, reverse_snoc. cbn [mbind option_bind].
    rewrite <- app_assoc. cbn [app]. set (above := site s :: caller s :: outer s).
    change (comm :: reverse above ++ p :: reverse ps ++ reverse (inner s)) with ((comm :: reverse above) ++ p :: reverse ps ++ reverse (inner s)).
    rewrite prim_pos_app; [|by constructor; [|by apply Forall_reverse]|done]. cbn [mbind option_bind]. rewrite take_app_length, reverse_cons, reverse_involutive.
    unfold above. by rewrite <- (app_frames_two (site s) (caller s) (outer s ++ [comm])).
Qed.

(** The wait that a stack shows: from its lock site, on behalf of the caller *)
Definition blocked_wait (s : Stack) (h w : string) : Prop :=
  blocking s ≠ [] ∧ w ≠ EmptyString ∧ w = bare_symbol (site s) ∧
  h = if decide (bare_symbol (caller s) = EmptyString) then w else bare_symbol (caller s).

Lemma finish_wait_two s p o : finish_wait [site s; caller s] p = Some o ↔
  primitive o = p ∧ wanted o ≠ EmptyString ∧ wanted o = bare_symbol (site s) ∧
  holder o = if decide (bare_symbol (caller s) = EmptyString) then wanted o else bare_symbol (caller s).
Proof.
  unfold finish_wait. cbn. destruct o as [h w q]. cbn. case_bool_decide as Hw.
  - split; [done|]. intros (_&Hne&->&_). done.
  - rewrite <- decide_bool_decide. destruct (decide (bare_symbol (caller s) = EmptyString)); naive_solver.
Qed.

Lemma waits_for_first s h w : ok_stack s → blocked_wait s h w ↔ ∃ p, wait_from_leaf_first (frames_of s) = Some (mkWait h w p).
Proof.
  intros Hs. rewrite leaf_first_wait by done. unfold blocked_wait. destruct (blocking s) as [|p ps]; cbn; [naive_solver|].
  setoid_rewrite finish_wait_two. cbn. naive_solver.
Qed.

Lemma waits_for_last comm s h w : app_frame comm → ok_stack s →
  blocked_wait s h w ↔ ∃ p, wait_from_leaf_last (comm :: reverse (frames_of s)) = Some (mkWait h w p).
Proof.
  intros Hc Hs. rewrite leaf_last_wait by done. unfold blocked_wait. destruct (blocking s) as [|p ps _] using rev_ind; cbn; [naive_solver|].
  rewrite last_snoc. cbn. setoid_rewrite finish_wait_two. cbn. split; [naive_solver|]. intros (q&?&?&?&?). split_and!; [by destruct ps|done..].
Qed.

Lemma pairs_of_waits (f : Stack → option ObservedWait) ss h w :
  (∀ s, s ∈ ss → (blocked_wait s h w ↔ ∃ p, f s = Some (mkWait h w p))) →
  (h, w) ∈ map wait_pair (fst (collect_all ([], []) (map f ss))) ↔ ∃ s, s ∈ ss ∧ blocked_wait s h w.
Proof.
  intros Hf. split.
  - intros ([h' w' p]&[= -> ->]&Ho)%list_elem_of_fmap. apply collected in Ho. apply list_elem_of_fmap in Ho as (s&Hs&Hin).
    exists s. split; [done|]. apply Hf; [done|]. by exists p.
  - intros (s&Hin&Hs). apply Hf in Hs as [p Hp]; [|done]. apply list_elem_of_fmap. exists (mkWait h w p). split; [done|].
    apply collected. apply list_elem_of_fmap. by exists s.
Qed.

(** C14: the three formats of the same blocked and idle stacks are read alike: the
    parsers of [gdb] and [perf] give the same waits, the parser of folded stacks
    the same pairs, and these are exactly the pairs of a blocked stack's lock
    site and caller. *)
Theorem formats_agree comm ss (Hcomm : app_frame comm) (Hss : Forall ok_stack ss) :
  parse_perf_script (print_perf comm ss) = parse_gdb_bt (print_gdb ss) ∧
  ∀ h w, ((h, w) ∈ map wait_pair (parse_gdb_bt (print_gdb ss)) ↔ ∃ s, s ∈ ss ∧ blocked_wait s h w) ∧
         ((h, w) ∈ map wait_pair (parse_offcpu_folded (print_folded comm ss)) ↔ ∃ s, s ∈ ss ∧ blocked_wait s h w).
Proof.
  assert (Hp : Forall plain_stack ss) by (eapply Forall_impl; [done|]; apply ok_plain).
  rewrite parse_print_gdb, parse_print_perf, parse_print_folded by (done || apply Hcomm). split; [done|].
  rewrite Forall_forall in Hss. intros h w. split; apply pairs_of_waits; intros s Hs.
  - by apply waits_for_first, Hss.
  - by apply waits_for_last, Hss.
Qed.

(** What the tool reconciles is what the parser read, whatever the text: the
    pairs are not filtered nor renamed again. *)
Theorem trace_reconciled format text edges :
  let waits := parse_trace format text in
  reconcile_trace waits edges = reconcile_observed (map erased waits) edges.
Proof. apply reconcile_bare, parsed_bare. Qed.

(** * Instances *)

#[local] Instance app_frame_dec f : Decision (app_frame f).
Proof. unfold app_frame. apply _. Defined.
#[local] Instance prim_frame_dec f : Decision (prim_frame f).
Proof. unfold prim_frame. apply _. Defined.

Definition worker_stack : Stack :=
  mkStack ["__schedule"] ["futex_wait"; "pthread_mutex_lock"] "app::acquire_b" "app::handle_request" ["start_loop"].
Definition idle_stack : Stack := mkStack ["__schedule"] [] "epoll_wait" "poll" ["start_loop"].

Lemma formats_agree_witness :
  ("handle_request", "acquire_b") ∈ map wait_pair (parse_gdb_bt (print_gdb [worker_stack; idle_stack])) ∧
  ("handle_request", "acquire_b") ∈ map wait_pair (parse_offcpu_folded (print_folded "worker" [worker_stack; idle_stack])).
Proof.
  destruct (formats_agree "worker" [worker_stack; idle_stack]) as [_ H].
  - by vm_compute.
  - repeat (constructor; [|]); try (by constructor); split; by vm_compute; repeat constructor.
  - destruct (H "handle_request" "acquire_b") as [Hg Hf]. split; [apply Hg|apply Hf]; (exists worker_stack; split; [by left|by vm_compute]).
Defined.

Example gdb_text_parsed :
  parse_trace "gdb_bt" (print_gdb [worker_stack]) = [mkWait "handle_request" "acquire_b" "futex_wait"] ∧
  checked_format " gdb_bt " = Some "gdb_bt" ∧ checked_format "strace" = None.
Proof. by vm_compute. Qed.

(** In a folded stack the thread's name is a frame: a lock site without a caller
    waits on behalf of it, not of itself. *)
Example thread_name_holds :
  parse_offcpu_folded "worker;acquire_b;futex_wait 7" = [mkWait "worker" "acquire_b" "futex_wait"] ∧
  parse_gdb_bt "#0  0x0 in futex_wait ()
#1  0x0 in acquire_b ()" = [mkWait "acquire_b" "acquire_b" "futex_wait"].
Proof. by vm_compute. Qed.

(** A folded stack is searched from the root: an application frame with the name
    of a primitive in its own hides the lock site. *)
Example outermost_primitive_counts :
  parse_offcpu_folded "worker;parking_lot_demo;handle;acquire_b;futex_wait 7" = [mkWait "worker" "worker" "parking_lot_demo"] ∧
  parse_gdb_bt "#0  0x0 in futex_wait ()
#1  0x0 in acquire_b ()
#2  0x0 in handle ()
#3  0x0 in parking_lot_demo ()" = [mkWait "handle" "acquire_b" "futex_wait"].
Proof. by vm_compute. Qed.

(** A frame of [perf] whose line has no [0x] ends the block it is in. *)
Example bare_addresses_end_blocks :
  parse_perf_script "app 1 [000] 0.1: cycles:
    ffffffff81 futex_wait (kernel)
    55aa acquire_a (app)
    55ab worker_main (app)" = [].
Proof. by vm_compute. Qed.

(** A cycle's edge is looked up by the last part of its path, the confirmed ones
    are listed by their bare symbols. *)
Example generic_locks_never_corroborated :
  let edge := lock_edge "db::Pool<T>" "db::cache" in
  let rec := reconcile_trace [mkWait "Pool" "cache" "futex_wait"] [edge] in
  map (λ c, (static_from c, static_to c)) (confirmed rec) = [("Pool", "cache")] ∧
  runtime_corroborated rec (mkLockCycle ["db::Pool<T>"; "db::cache"] [edge]) = false.
Proof. by vm_compute. Qed.
