(* ===== verification/Reflexion.v ===== *)
(** Conformance to a declared layering ([src/src/code_analysis/reflexion.rs]) and
    its use by the tool ([tool_architecture_violations.rs]). *)

From stdpp Require Import base numbers strings sets list gmap sorting.
From S2P Require Import Prelude Text BTree Splitting.

#[local] Open Scope string_scope.
#[local] Open Scope list_scope.

(** * Rules and models *)

Record LayerDef := mkLayer { l_name : string; l_paths : list string }.
Record AllowRule := mkAllow { a_from : string; a_to : string }.
Record ArchitectureRules := mkRules { ar_layers : list LayerDef; ar_allow : list AllowRule }.

Inductive Verdict := SameLayer | Allowed | Divergent | Unlayered.

Record Divergence := mkDivergence { src_path : string; dst_path : string; from_layer : string; to_layer : string }.

(** A [HashSet] of pairs is a [gset]. *)
Record ReflexionSummary := mkSummary {
  divergences : list Divergence;
  convergences : nat;
  unlayered : nat;
  realized_pairs : gset (string * string);
}.

Record LayerModel := mkModel { layers : list (string * list string); allow : gset (string * string) }.

Definition from_rules (rules : ArchitectureRules) : LayerModel :=
  mkModel (map (λ l, (l_name l, l_paths l)) (ar_layers rules)) (list_to_set (map (λ r, (a_from r, a_to r)) (ar_allow rules))).

Definition is_empty (m : LayerModel) : bool := match layers m with [] => true | _ => false end.

Definition layer_of (m : LayerModel) (path : string) : option string :=
  fst <$> find_first (λ l, existsb (starts_with path) (snd l)) (layers m).

Definition classify (m : LayerModel) (src dst : string) : Verdict :=
  match layer_of m src, layer_of m dst with
  | Some s, Some t => if decide (s = t) then SameLayer else if decide ((s, t) ∈ allow m) then Allowed else Divergent
  | _, _ => Unlayered
  end.

Definition summarize_edge (m : LayerModel) (sm : ReflexionSummary) (edge : string * string) : ReflexionSummary :=
  let '(src, dst) := edge in
  match classify m src dst with
  | SameLayer => mkSummary (divergences sm) (S (convergences sm)) (unlayered sm) (realized_pairs sm)
  | Allowed =>
      mkSummary (divergences sm) (S (convergences sm)) (unlayered sm)
        (match layer_of m src, layer_of m dst with
         | Some s, Some t => {[(s, t)]} ∪ realized_pairs sm
         | _, _ => realized_pairs sm
         end)
  | Divergent =>
      mkSummary (divergences sm ++ [mkDivergence src dst (default EmptyString (layer_of m src)) (default EmptyString (layer_of m dst))])
        (convergences sm) (unlayered sm) (realized_pairs sm)
  | Unlayered => mkSummary (divergences sm) (convergences sm) (S (unlayered sm)) (realized_pairs sm)
  end.

Definition summarize_imports (m : LayerModel) (edges : list (string * string)) : ReflexionSummary :=
  foldl (summarize_edge m) (mkSummary [] 0 0 ∅) edges.

Definition absences (m : LayerModel) (realized : gset (string * string)) : list (string * string) :=
  sort_by ord_cmp (filter (λ p, p ∉ realized) (elements (allow m))).

(** * The tool *)

(** The import edges of the database; the target of an external one has no path. *)
Definition import_edges (db_edges : list (string * option string)) : list (string * string) :=
  omap (λ e, (λ t, (fst e, t)) <$> snd e) db_edges.

Definition MAX_LAYER_VIOLATIONS : nat := 100.

Record Conformance := mkConformance {
  layer_violations : list Divergence;
  c_convergences : nat;
  divergence_count : nat;
  divergences_reported : nat;
  unlayered_edges : nat;
  c_absences : list (string * string);
}.

Definition layer_conformance (rules : ArchitectureRules) (db_edges : list (string * option string)) : option Conformance :=
  let m := from_rules rules in
  if is_empty m then None
  else
    let sm := summarize_imports m (import_edges db_edges) in
    Some (mkConformance (take MAX_LAYER_VIOLATIONS (divergences sm)) (convergences sm) (length (divergences sm))
      (Nat.min (length (divergences sm)) MAX_LAYER_VIOLATIONS) (unlayered sm) (absences m (realized_pairs sm))).

(** ** The response

    The tool's other violations, found before those of the layers, are its
    argument, each with its severity. *)
Section response.
Context {V : Type} (severity_of_other : V → string).

Definition severity_order (s : string) : Z :=
  if decide (s = "critical") then 4
  else if decide (s = "high") then 3
  else if decide (s = "medium") then 2
  else if decide (s = "low") then 1
  else 0.

Definition severity (v : V + Divergence) : string :=
  match v with inl v => severity_of_other v | inr _ => "high" end.

Definition violation_order (a b : V + Divergence) : comparison :=
  (severity_order (severity b) ?= severity_order (severity a))%Z.

Definition MAX_REPORTED_VIOLATIONS : nat := 500.

Record Response := mkResponse {
  violations : list (V + Divergence);
  total_violation_count : nat;
  truncated : bool;
  reflexion : option Conformance;
}.

(** [McpError::invalid_params], with the severity that is not known *)
Inductive ParamError := UnknownSeverity (s : string).

Definition severity_threshold (param : option string) : string :=
  default "medium" (s ← param; let s := trim s in if decide (s = EmptyString) then None else Some s).

Definition architecture_violations (param : option string) (rules : option ArchitectureRules) (others : list V)
    (db_edges : list (string * option string)) : outcome ParamError Response :=
  let threshold := severity_threshold param in
  if decide (threshold ∈ ["low"; "medium"; "high"; "critical"]) then
    let conformance := rules ← rules; layer_conformance rules db_edges in
    let pushed := map inl others ++ map inr (from_option layer_violations [] conformance) in
    let kept := filter (λ v, (severity_order threshold <= severity_order (severity v))%Z) pushed in
    let sorted := sort_by violation_order kept in
    Ok (mkResponse (take MAX_REPORTED_VIOLATIONS sorted) (length sorted)
          (bool_decide (MAX_REPORTED_VIOLATIONS < length sorted)) conformance)
  else Err (UnknownSeverity threshold).

(** *** The order of the response *)
Definition rank (v : V + Divergence) : Z := severity_order (severity v).

Definition layers_of (vs : list (V + Divergence)) : list Divergence :=
  omap (λ v, match v with inl _ => None | inr d => Some d end) vs.

Lemma insert_ranks k x (us vs : list (V + Divergence)) :
  Forall (λ v, (k <= rank v)%Z) us → Forall (λ v, (rank v < k)%Z) vs →
  insert_by violation_order x (us ++ vs) =
    if decide (k <= rank x)%Z then insert_by violation_order x us ++ vs else us ++ insert_by violation_order x vs.
Proof.
  intros Hu Hv. induction Hu as [|y us Hy Hu IH]; cbn [app insert_by].
  - case_decide as Hx; [|done]. destruct Hv as [|y vs Hy Hv]; [done|]. cbn [insert_by app].
    unfold violation_order at 1. fold (rank x) (rank y). destruct (Z.compare_spec (rank y) (rank x)); [lia|done|lia].
  - unfold violation_order at 1. fold (rank x) (rank y). rewrite IH.
    case_decide; [unfold violation_order at 2; fold (rank x) (rank y)|]; destruct (Z.compare_spec (rank y) (rank x)); try done; lia.
Qed.

Lemma sort_ranks k (vs : list (V + Divergence)) :
  sort_by violation_order vs =
  sort_by violation_order (filter (λ v, (k <= rank v)%Z) vs) ++ sort_by violation_order (filter (λ v, (rank v < k)%Z) vs).
Proof.
  induction vs as [|x vs IH]; [done|]. change (sort_by violation_order (x :: vs)) with (insert_by violation_order x (sort_by violation_order vs)).
  rewrite IH, (insert_ranks k); [| |].
  - rewrite !filter_cons. case_decide; [rewrite decide_False by lia|rewrite decide_True by lia]; done.
  - rewrite sort_by_perm. apply Forall_forall. by intros v [? _]%list_elem_of_filter.
  - rewrite sort_by_perm. apply Forall_forall. by intros v [? _]%list_elem_of_filter.
Qed.

(** All of one rank are in order as they are. *)
Lemma sort_one_rank k (vs : list (V + Divergence)) : Forall (λ v, rank v = k) vs → sort_by violation_order vs = vs.
Proof.
  induction 1 as [|x vs Hx Hvs IH]; [done|].
  change (sort_by violation_order (x :: vs)) with (insert_by violation_order x (sort_by violation_order vs)).
  rewrite IH. destruct Hvs as [|y vs Hy _]; [done|]. cbn [insert_by]. unfold violation_order at 1. fold (rank x) (rank y).
  by rewrite Hx, Hy, Z.compare_refl.
Qed.

Lemma no_layers (vs : list (V + Divergence)) : layers_of vs = [] ↔ ∀ d, inr d ∉ vs.
Proof.
  induction vs as [|[v|d] vs IH]; cbn; [set_solver| |].
  - rewrite IH. set_solver.
  - split; [done|]. intros Hd. destruct (Hd d). by left.
Qed.

Lemma layers_app (us vs : list (V + Divergence)) : layers_of (us ++ vs) = layers_of us ++ layers_of vs.
Proof. apply omap_app. Qed.

Lemma layers_inr ds : layers_of (map inr ds) = ds.
Proof. induction ds as [|d ds IH]; [done|]. cbn. by f_equal. Qed.

Lemma layers_take n us ds (ws : list (V + Divergence)) : layers_of us = [] → layers_of ws = [] →
  layers_of (take n (us ++ map inr ds ++ ws)) = take (n - length us) ds.
Proof.
  intros Hu Hw.
  assert (Hnil : ∀ m vs, layers_of vs = [] → layers_of (take m vs) = []).
  { intros m vs. rewrite !no_layers. intros Hd d Hin. apply (Hd d). by eapply subseteq_take. }
  rewrite !take_app, length_map, !layers_app, (Hnil _ us), (Hnil _ ws), app_nil_r by done.
  change (map inr ds) with ((inr : _ → V + Divergence) <$> ds). rewrite <- fmap_take. apply layers_inr.
Qed.

(** The others that come before the violations of the layers *)
Definition severe (v : V) : Prop := severity_of_other v ∈ ["critical"; "high"].
#[global] Instance severe_dec v : Decision (severe v).
Proof. unfold severe. apply _. Defined.

Lemma severe_rank v : severe v ↔ (3 <= rank (inl v))%Z.
Proof.
  unfold severe, rank, severity, severity_order. rewrite !elem_of_cons, elem_of_nil.
  repeat case_decide; naive_solver lia.
Qed.

Lemma length_ranks k (vs : list (V + Divergence)) P `{∀ v, Decision (P v)} :
  length (filter P vs) = length (filter (λ v, P v ∧ (k <= rank v)%Z) vs) + length (filter (λ v, P v ∧ (rank v < k)%Z) vs).
Proof.
  induction vs as [|x vs IH]; [done|]. rewrite !filter_cons.
  destruct (decide (P x)); [|rewrite !decide_False by tauto; done].
  destruct (decide (k <= rank x)%Z).
  - rewrite !(decide_True (P := _ ∧ (k <= _)%Z)), (decide_False (P := _ ∧ (_ < k)%Z)) by (try split; try done; lia). cbn [length]. lia.
  - rewrite !(decide_False (P := _ ∧ (k <= _)%Z)), (decide_True (P := _ ∧ (_ < k)%Z)) by (try split; try done; lia). cbn [length]. lia.
Qed.

Lemma filter_inl (P : V + Divergence → Prop) `{∀ v, Decision (P v)} others :
  length (filter P (map inl others)) = length (filter (λ v, P (inl v)) others).
Proof. induction others as [|v vs IH]; [done|]. cbn [map]. rewrite !filter_cons. case_decide; cbn [length]; by rewrite IH. Qed.

Lemma filter_inr (P : V + Divergence → Prop) `{∀ v, Decision (P v)} ds : (∀ d, P (inr d)) → filter P (map inr ds) = map inr ds.
Proof. intros HP. induction ds as [|d ds IH]; [done|]. cbn [map]. by rewrite filter_cons, decide_True, IH. Qed.

Lemma filter_inr_none (P : V + Divergence → Prop) `{∀ v, Decision (P v)} ds : (∀ d, ¬ P (inr d)) → filter P (map inr ds) = [].
Proof. intros HP. induction ds as [|d ds IH]; [done|]. cbn [map]. by rewrite filter_cons, decide_False. Qed.

(** What is left of the layers' violations in the response: those of the others that
    are at least as severe come first. *)
Lemma layers_reported k others ds : (k <= 3)%Z →
  layers_of (take MAX_REPORTED_VIOLATIONS
    (sort_by violation_order (filter (λ v, (k <= rank v)%Z) (map inl others ++ map inr ds)))) =
  take (MAX_REPORTED_VIOLATIONS - length (filter severe others)) ds.
Proof.
  intros Hk. rewrite (sort_ranks 4), (sort_ranks 3 (filter (λ v, (rank v < 4)%Z) _)), !list_filter_filter.
  rewrite (sort_one_rank 3 (filter (λ v, (3 <= rank v < 4)%Z ∧ (k <= rank v)%Z) _)) by (apply Forall_forall; intros v [? _]%list_elem_of_filter; lia).
  assert (H3 : ∀ d, rank (inr d) = 3%Z) by done.
  rewrite !filter_app, (filter_inr_none (λ v, (4 <= rank v)%Z ∧ _)), (filter_inr (λ v, (3 <= rank v < 4)%Z ∧ _)),
    (filter_inr_none (λ v, ((rank v < 3)%Z ∧ _) ∧ _)) by (intros d; rewrite H3; lia).
  rewrite !app_nil_r, <- app_assoc, app_assoc.
  rewrite layers_take.
  - f_equal. f_equal. rewrite length_app, sort_by_perm, (list_filter_iff _ _ _ severe_rank).
    etransitivity; [|apply (filter_inl (λ v, (3 <= rank v)%Z) (H := λ v, Z.le_dec 3%Z (rank v)))]. rewrite (length_ranks 4 _ (λ v, (3 <= rank v)%Z)). f_equal; f_equal; apply list_filter_iff; intros; lia.
  - apply no_layers. intros d. rewrite elem_of_app, sort_by_perm, !list_elem_of_filter, !list_elem_of_fmap. naive_solver.
  - apply no_layers. intros d. rewrite sort_by_perm, !list_elem_of_filter, !list_elem_of_fmap. naive_solver.
Qed.

Lemma response_layers param rules others db_edges r c :
  architecture_violations param (Some rules) others db_edges = Ok r → reflexion r = Some c →
  layer_conformance rules db_edges = Some c ∧
  layers_of (violations r) =
    if decide (severity_threshold param = "critical") then []
    else take (MAX_REPORTED_VIOLATIONS - length (filter severe others)) (layer_violations c).
Proof.
  unfold architecture_violations. case_decide as Ht; [|done]. intros [= <-]. cbn [reflexion violations mbind option_bind].
  intros ->. split; [done|]. cbn [from_option]. case_decide as Hc.
  - rewrite Hc. apply no_layers. intros d Hd%(subseteq_take _ _). revert Hd.
    rewrite sort_by_perm, list_elem_of_filter. intros [Hd _]. by vm_compute in Hd.
  - apply layers_reported. rewrite !elem_of_cons, elem_of_nil in Ht. destruct_or! Ht; rewrite ?Ht in *; [vm_compute; congruence..|done|done].
Qed.
End response.
Arguments Response : clear implicits.

(** * What the rules declare *)

Definition owns (l : LayerDef) (path : string) : Prop := ∃ p r, p ∈ l_paths l ∧ path = p +:+ r.

(** The first declared layer with a prefix of the path *)
Definition owner (rules : ArchitectureRules) (path n : string) : Prop :=
  ∃ i l, ar_layers rules !! i = Some l ∧ l_name l = n ∧ owns l path ∧ ∀ j l', ar_layers rules !! j = Some l' → j < i → ¬ owns l' path.

Definition permitted (rules : ArchitectureRules) (f t : string) : Prop := mkAllow f t ∈ ar_allow rules.

(** An import that crosses from one layer to another *)
Definition crosses (rules : ArchitectureRules) (e : string * string) (f t : string) : Prop :=
  owner rules (fst e) f ∧ owner rules (snd e) t ∧ f ≠ t.

(** An import within a layer, or from one layer to another that a rule allows *)
Definition conforms (rules : ArchitectureRules) (e : string * string) : Prop :=
  (∃ n, owner rules (fst e) n ∧ owner rules (snd e) n) ∨ ∃ f t, crosses rules e f t ∧ permitted rules f t.

Definition diverges (rules : ArchitectureRules) (e : string * string) : Prop :=
  ∃ f t, crosses rules e f t ∧ ¬ permitted rules f t.

(** An import one end of which no layer owns *)
Definition unowned (rules : ArchitectureRules) (e : string * string) : Prop :=
  (∀ n, ¬ owner rules (fst e) n) ∨ (∀ n, ¬ owner rules (snd e) n).

(** [n] of the elements of a list satisfy [P]. *)
Inductive tally {A} (P : A → Prop) : list A → nat → Prop :=
| tally_nil : tally P [] 0
| tally_yes x xs n : P x → tally P xs n → tally P (x :: xs) (S n)
| tally_no x xs n : ¬ P x → tally P xs n → tally P (x :: xs) n.

Lemma existsb_owns l path : existsb (starts_with path) (l_paths l) = true ↔ owns l path.
Proof.
  rewrite existsb_exists. unfold owns. setoid_rewrite list_elem_of_In. split.
  - intros (p&Hp&[r ->]%starts_with_inv). eauto.
  - intros (p&r&Hp&->). eauto using starts_with_own.
Qed.

Lemma layer_of_owner rules path n : layer_of (from_rules rules) path = Some n ↔ owner rules path n.
Proof.
  unfold layer_of, owner, find_first. cbn [layers from_rules]. induction (ar_layers rules) as [|l ls IH]; cbn.
  { split; [done|]. by intros (i&l&?&_). }
  destruct (existsb (starts_with path) (l_paths l)) eqn:E.
  - apply existsb_owns in E. cbn. split; [intros [= <-]; exists 0, l; split_and!; [done..|lia]|].
    intros ([|i]&l'&Hl&<-&Ho&Hmin); cbn in Hl; [by simplify_eq|]. by destruct (Hmin 0 l); [|lia|].
  - rewrite IH. assert (¬ owns l path) as Hno by (rewrite <- existsb_owns; by rewrite E). split.
    + intros (i&l'&?&?&?&Hmin). exists (S i), l'. split_and!; [done..|]. intros [|j] l'' Hl'' ?; cbn in Hl''; [by simplify_eq|].
      apply (Hmin j); [done|lia].
    + intros ([|i]&l'&Hl&?&?&Hmin); cbn in Hl; [by simplify_eq|]. exists i, l'. split_and!; [done..|].
      intros j l'' ? ?. apply (Hmin (S j)); [done|lia].
Qed.

Lemma elem_of_allow rules f t : (f, t) ∈ allow (from_rules rules) ↔ permitted rules f t.
Proof.
  cbn. rewrite elem_of_list_to_set, list_elem_of_fmap. unfold permitted. split.
  - by intros ([f' t']&[= -> ->]&?).
  - intros ?. by exists (mkAllow f t).
Qed.

(** The layers an edge is judged by, when both its ends have one *)
Definition crossing (m : LayerModel) (e : string * string) : option (string * string) :=
  f ← layer_of m (fst e); t ← layer_of m (snd e); if decide (f = t) then None else Some (f, t).

Lemma crossing_crosses rules e f t : crossing (from_rules rules) e = Some (f, t) ↔ crosses rules e f t.
Proof.
  unfold crossing, crosses. rewrite <- !layer_of_owner.
  destruct (layer_of _ (fst e)) as [f'|], (layer_of _ (snd e)) as [t'|]; cbn; try naive_solver. case_decide; naive_solver.
Qed.

Definition violation (m : LayerModel) (e : string * string) : option Divergence :=
  '(f, t) ← crossing m e; if decide ((f, t) ∈ allow m) then None else Some (mkDivergence (fst e) (snd e) f t).

Lemma summarize_fold m edges : ∀ sm, let sm' := foldl (summarize_edge m) sm edges in
  divergences sm' = divergences sm ++ omap (violation m) edges ∧
  convergences sm' + length (divergences sm') + unlayered sm' =
    convergences sm + length (divergences sm) + unlayered sm + length edges ∧
  ∀ p, p ∈ realized_pairs sm' ↔ p ∈ realized_pairs sm ∨ p ∈ allow m ∧ ∃ e, e ∈ edges ∧ crossing m e = Some p.
Proof.
  induction edges as [|[src dst] edges IH]; intros sm sm'; subst sm'; cbn [foldl].
  { split_and!; [by rewrite app_nil_r|cbn; lia|set_solver]. }
  destruct (IH (summarize_edge m sm (src, dst))) as (Hd&Hn&Hr). rewrite Hn, Hd. setoid_rewrite Hr. clear IH Hd Hn Hr.
  assert (Hex : ∀ p, (∃ e, e ∈ (src, dst) :: edges ∧ crossing m e = Some p) ↔
    crossing m (src, dst) = Some p ∨ ∃ e, e ∈ edges ∧ crossing m e = Some p).
  { intros p. setoid_rewrite elem_of_cons. naive_solver. }
  setoid_rewrite Hex. cbn [omap list_omap length]. unfold violation, summarize_edge, classify, crossing. cbn [fst snd].
  destruct (layer_of m src) as [f|] eqn:Ef, (layer_of m dst) as [t|] eqn:Et; cbn; try (split_and!; [done|lia|naive_solver]).
  destruct (decide (f = t)) as [->|Hne]; cbn; [split_and!; [done|lia|naive_solver]|].
  destruct (decide ((f, t) ∈ allow m)) as [Ha|Ha]; cbn.
  - split_and!; [done|lia|]. intros p. set_solver.
  - split_and!; [by rewrite <- app_assoc|rewrite length_app; cbn; lia|]. set_solver.
Qed.

Lemma violation_spec rules e d : violation (from_rules rules) e = Some d ↔
  e = (src_path d, dst_path d) ∧ crosses rules e (from_layer d) (to_layer d) ∧ ¬ permitted rules (from_layer d) (to_layer d).
Proof.
  rewrite <- crossing_crosses, <- elem_of_allow. unfold violation. destruct (crossing _ e) as [[f t]|]; cbn; [|naive_solver].
  destruct e as [src dst], d as [src' dst' f' t']. cbn. case_decide; naive_solver.
Qed.

(** What the verdict on an import says. *)
Definition verdict_says (rules : ArchitectureRules) (e : string * string) (v : Verdict) : Prop :=
  match v with
  | SameLayer | Allowed => conforms rules e ∧ ¬ diverges rules e ∧ ¬ unowned rules e
  | Divergent => diverges rules e ∧ ¬ conforms rules e ∧ ¬ unowned rules e
  | Unlayered => unowned rules e ∧ ¬ conforms rules e ∧ ¬ diverges rules e
  end.

Lemma owned_says rules e f t : (∀ n, owner rules (fst e) n ↔ f = n) → (∀ n, owner rules (snd e) n ↔ t = n) →
  (conforms rules e ↔ f = t ∨ f ≠ t ∧ permitted rules f t) ∧ (diverges rules e ↔ f ≠ t ∧ ¬ permitted rules f t) ∧
  ¬ unowned rules e.
Proof.
  intros Hf Ht. unfold conforms, diverges, unowned, crosses. repeat setoid_rewrite Hf. repeat setoid_rewrite Ht.
  split_and!; [split|split|].
  - intros [(n & -> & ->)|(? & ? & (<- & <- & ?) & ?)]; auto.
  - intros [->|[? ?]]; [left; by exists t|right; by exists f, t].
  - by intros (? & ? & (<- & <- & ?) & ?).
  - intros [? ?]. by exists f, t.
  - intros [Hn|Hn]; by eapply Hn.
Qed.

Lemma unowned_says rules e : (∀ n, ¬ owner rules (fst e) n) ∨ (∀ n, ¬ owner rules (snd e) n) →
  verdict_says rules e Unlayered.
Proof. intros Hu. unfold verdict_says, conforms, diverges, crosses. split_and!; [exact Hu|naive_solver..]. Qed.

Lemma classify_says rules e : verdict_says rules e (classify (from_rules rules) (fst e) (snd e)).
Proof.
  pose proof (layer_of_owner rules (fst e)) as Hf. pose proof (layer_of_owner rules (snd e)) as Ht. unfold classify.
  destruct (layer_of _ (fst e)) as [f|]; [|apply unowned_says; left; intros n Hn%Hf; done].
  destruct (layer_of _ (snd e)) as [t|]; [|apply unowned_says; right; intros n Hn%Ht; done].
  destruct (owned_says rules e f t) as (H1&H2&H3); [intros n; rewrite <- Hf; naive_solver|intros n; rewrite <- Ht; naive_solver|].
  pose proof (elem_of_allow rules f t). unfold verdict_says. repeat case_decide; tauto.
Qed.

Lemma summarize_counts rules edges : ∀ sm, let sm' := foldl (summarize_edge (from_rules rules)) sm edges in
  ∃ a d u, tally (conforms rules) edges a ∧ tally (diverges rules) edges d ∧ tally (unowned rules) edges u ∧
    convergences sm' = convergences sm + a ∧ length (divergences sm') = length (divergences sm) + d ∧
    unlayered sm' = unlayered sm + u.
Proof.
  induction edges as [|[src dst] edges IH]; intros sm sm'; subst sm'; cbn [foldl].
  { exists 0, 0, 0. split_and!; try constructor; lia. }
  destruct (IH (summarize_edge (from_rules rules) sm (src, dst))) as (a&d&u&Ha&Hd&Hu&->&->&->).
  pose proof (classify_says rules (src, dst)) as Hv. cbn [fst snd] in Hv. unfold summarize_edge.
  destruct (classify _ src dst); destruct Hv as (?&?&?); cbn [convergences divergences unlayered];
    [exists (S a), d, u|exists (S a), d, u|exists a, (S d), u|exists a, d, (S u)];
    (split_and!; [by constructor|by constructor|by constructor|rewrite ?length_app; cbn [length]; lia..]).
Qed.

Lemma violations_sublist rules edges :
  map (λ d, (src_path d, dst_path d)) (omap (violation (from_rules rules)) edges) `sublist_of` edges.
Proof.
  induction edges as [|e edges IH]; [constructor|]. cbn [omap list_omap].
  destruct (violation _ e) as [d|] eqn:E; [|by constructor]. apply violation_spec in E as [-> _]. by constructor.
Qed.

(** C31: the conformance report is exact.  A file belongs to the first layer that
    declares a prefix of its path.  Each import is a convergence, within a layer or
    from one to another that a rule allows; a divergence, from one to another that
    no rule allows; or has an end that no layer owns; and each of the three counts
    is the number of imports of its kind.  The response lists the divergences in the
    order of the imports, the first hundred of them, except that none is listed at
    the threshold ["critical"], and otherwise only as far as the other critical and
    high violations leave room in the response's 500.  The absences are, in order
    and each once, the allowed pairs that no import crosses. *)
Theorem conformance_exact {V} (severity_of_other : V → string) param rules others db_edges r
    (Hr : architecture_violations severity_of_other param (Some rules) others db_edges = Ok r)
    (Hl : ar_layers rules ≠ []) :
  let E := import_edges db_edges in
  ∃ c, reflexion r = Some c ∧
  tally (conforms rules) E (c_convergences c) ∧ tally (diverges rules) E (divergence_count c) ∧
  tally (unowned rules) E (unlayered_edges c) ∧ c_convergences c + divergence_count c + unlayered_edges c = length E ∧
  (∃ ds, map (λ d, (src_path d, dst_path d)) ds `sublist_of` E ∧ length ds = divergence_count c ∧
         (∀ d, d ∈ ds ↔ (src_path d, dst_path d) ∈ E ∧ crosses rules (src_path d, dst_path d) (from_layer d) (to_layer d) ∧
                       ¬ permitted rules (from_layer d) (to_layer d)) ∧
         divergences_reported c = Nat.min (length ds) MAX_LAYER_VIOLATIONS ∧
         layers_of (violations r) =
           if decide (severity_threshold param = "critical") then []
           else take (MAX_REPORTED_VIOLATIONS - length (filter (severe severity_of_other) others))
                  (take MAX_LAYER_VIOLATIONS ds)) ∧
  StronglySorted ord_lt (c_absences c) ∧
  ∀ f t, (f, t) ∈ c_absences c ↔ permitted rules f t ∧ ¬ ∃ e, e ∈ E ∧ crosses rules e f t.
Proof.
  cbn zeta. assert (Hc : ∃ c, reflexion r = Some c).
  { unfold architecture_violations in Hr. case_decide; [|done]. injection Hr as <-. cbn [reflexion mbind option_bind].
    unfold layer_conformance, is_empty, from_rules. cbn [layers]. destruct (ar_layers rules); [done|eauto]. }
  destruct Hc as [c Hc]. exists c. split; [done|]. destruct (response_layers _ _ _ _ _ _ _ Hr Hc) as [Hlc ->]. clear Hr Hc.
  unfold layer_conformance in Hlc. destruct (is_empty _); [done|]. injection Hlc as <-.
  cbn [c_convergences divergence_count unlayered_edges layer_violations divergences_reported c_absences].
  destruct (summarize_fold (from_rules rules) (import_edges db_edges) (mkSummary [] 0 0 ∅)) as (Hd&Hn&Hp).
  destruct (summarize_counts rules (import_edges db_edges) (mkSummary [] 0 0 ∅)) as (a&d&u&Ha&Hdv&Hu&Hca&Hcd&Hcu).
  fold (summarize_imports (from_rules rules) (import_edges db_edges)) in Hd, Hn, Hp, Hca, Hcd, Hcu.
  cbn in Hca, Hcd, Hcu, Hn. rewrite <- Hca in Ha. rewrite <- Hcd in Hdv. rewrite <- Hcu in Hu.
  split_and!; [done|done|done|done| | |].
  - exists (divergences (summarize_imports (from_rules rules) (import_edges db_edges))).
    split_and!; [rewrite Hd; apply violations_sublist|done| |done|done].
    intros e. rewrite Hd. cbn [app divergences]. rewrite list_elem_of_omap. setoid_rewrite violation_spec. naive_solver.
  - apply sort_by_sorted, NoDup_filter, NoDup_elements.
  - intros f t. unfold absences. rewrite sort_by_perm, list_elem_of_filter, elem_of_elements, elem_of_allow, Hp, elem_of_allow.
    setoid_rewrite crossing_crosses. cbn [realized_pairs]. set_solver.
Qed.

(** A rule that allows a layer to import itself is an absence, whatever the
    code imports. *)
Theorem self_rule_absent rules db_edges c l (Hc : layer_conformance rules db_edges = Some c) (Hl : permitted rules l l) :
  (l, l) ∈ c_absences c.
Proof.
  unfold layer_conformance in Hc. destruct (is_empty _); [done|]. injection Hc as <-. cbn [c_absences]. unfold absences.
  rewrite sort_by_perm, list_elem_of_filter, elem_of_elements, elem_of_allow. split; [|done].
  destruct (summarize_fold (from_rules rules) (import_edges db_edges) (mkSummary [] 0 0 ∅)) as (_&_&Hr).
  fold (summarize_imports (from_rules rules) (import_edges db_edges)) in Hr. rewrite Hr. intros [?|(_&e&_&(_&_&Hne)%crossing_crosses)]; [set_solver|done].
Qed.

(** * Instances *)

Definition example_rules : ArchitectureRules :=
  mkRules [mkLayer "api" ["src/api/"; "src/mcp/"]; mkLayer "domain" ["src/graph/"]; mkLayer "data" ["src/db/"]]
    [mkAllow "api" "domain"; mkAllow "domain" "data"; mkAllow "data" "data"].

Definition example_edges : list (string * option string) :=
  [("src/api/a.rs", Some "src/graph/g.rs"); ("src/api/a.rs", Some "src/mcp/b.rs"); ("src/api/a.rs", Some "src/db/q.rs");
   ("src/db/q.rs", Some "src/db/r.rs"); ("src/util/x.rs", Some "src/db/q.rs"); ("src/api/a.rs", None)].

Definition example_report : Conformance :=
  mkConformance [mkDivergence "src/api/a.rs" "src/db/q.rs" "api" "data"] 3 1 1 1 [("data", "data"); ("domain", "data")].

(** The divergence is reported after a cycle, and not at all at ["critical"]. *)
Definition example_response (param : option string) (vs : list (string + Divergence)) : Prop :=
  architecture_violations id param (Some example_rules) ["critical"; "low"] example_edges =
    Ok (mkResponse vs (length vs) false (Some example_report)).

Lemma conformance_exact_witness :
  example_response None [inl "critical"; inr (mkDivergence "src/api/a.rs" "src/db/q.rs" "api" "data")] ∧
  example_response (Some "critical") [inl "critical"] ∧
  tally (unowned example_rules) (import_edges example_edges) 1 ∧ permitted example_rules "domain" "data".
Proof.
  assert (H : example_response None [inl "critical"; inr (mkDivergence "src/api/a.rs" "src/db/q.rs" "api" "data")]) by (vm_compute; reflexivity).
  split; [exact H|]. split; [vm_compute; reflexivity|].
  destruct (conformance_exact id None example_rules _ example_edges _ H) as (c&[= <-]&_&_&Hu&_&_&_&Ha); [done|].
  split; [exact Hu|]. apply (Ha "domain" "data"). by right; left.
Defined.

(** The count of reported divergences is of those handed to the response, not of
    those in it: at the threshold ["critical"] it lists none of them. *)
Theorem reported_count_ignores_threshold {V} (severity_of_other : V → string) rules others db_edges r c
    (Hr : architecture_violations severity_of_other (Some "critical") (Some rules) others db_edges = Ok r)
    (Hc : reflexion r = Some c) :
  layers_of (violations r) = [] ∧ divergences_reported c = Nat.min (divergence_count c) MAX_LAYER_VIOLATIONS.
Proof.
  destruct (response_layers _ _ _ _ _ _ _ Hr Hc) as [Hlc ->]. split; [done|].
  unfold layer_conformance in Hlc. destruct (is_empty _); [done|]. by injection Hlc as <-.
Qed.

Lemma reported_count_ignores_threshold_witness :
  ∃ r : Response string, reflexion r = Some example_report ∧ layers_of (violations r) = [] ∧ divergences_reported example_report = 1.
Proof.
  exists (mkResponse [inl "critical"] 1 false (Some example_report)). split; [done|].
  apply (reported_count_ignores_threshold id example_rules ["critical"; "low"] example_edges); [vm_compute; reflexivity|done].
Defined.

Lemma self_rule_absent_witness :
  layer_conformance example_rules example_edges = Some example_report ∧ ("data", "data") ∈ c_absences example_report.
Proof.
  assert (H : layer_conformance example_rules example_edges = Some example_report) by (vm_compute; reflexivity).
  split; [exact H|]. apply (self_rule_absent example_rules example_edges example_report "data" H). by right; right; left.
Defined.

(** A prefix is a prefix of the text, not of the path's parts. *)
Example prefixes_are_textual :
  layer_of (from_rules (mkRules [mkLayer "db" ["src/db"]] [])) "src/dbg/trace.rs" = Some "db".
Proof. reflexivity. Qed.
